(* ===== verification/_CoqProject ===== *)
-Q . S2P
Prelude.v
Bytes.v
Json.v
Noise.v
NoiseFacts.v
NoiseTransportFacts.v
NoiseSession.v
NoiseSessionFacts.v
NoiseHandshakeFacts.v
NoiseServerFacts.v
Policy.v
DeviceLease.v
DeviceLeaseFacts.v
PolicyFacts.v
Oversight.v
Oversee.v
OverseeFacts.v
DevicePolicy.v
AgentDevice.v
AgentDeviceFacts.v
Connection.v
ConnectionFacts.v
FileSystem.v
OwnershipClaim.v
ClaimLogic.v
ClaimSteps.v
OwnershipClaimFacts.v
ClaimRuns.v
DirLock.v
DirLockFacts.v
Registry.v
RegistryFacts.v
RegistryRuns.v
RegistrySafety.v
JsonSpans.v
JsonSpansFacts.v
NdjsonTail.v
NdjsonTailFacts.v
Video.v
VideoFacts.v
KeyedDelta.v
KeyedDeltaFacts.v
Limits.v
LimitsFacts.v
OffloadJobs.v
OffloadJobsFacts.v
OffloadJobsRuns.v
OffloadJobsUploads.v
OffloadJobsAnswers.v
BuildSlots.v
BuildSlotsFacts.v
NotificationLog.v
NotificationLogFacts.v
Push.v
PushFacts.v
PushRuns.v
PushSends.v
PushAlerts.v
ControlInput.v
ControlInputFacts.v
FrameDevices.v
ControlHub.v
ControlHubInput.v
ControlCore.v
ControlHubFacts.v
ControlHubRuns.v
ControlSessions.v
Programs.v
Stages.v
LadderPasses.v
Ladder.v
IdlePass.v
LadderFacts.v
LadderSafety.v
LadderLocks.v
LadderPassFacts.v
IdlePassFacts.v
