(* ===== verification/Prelude.v ===== *)
(** * Verification of Stim

    Stim runs mobile apps for many workspaces on one machine. A command-line tool and its daemon
    share the machine's devices and build slots between workspaces; phones pair with the machine
    over an encrypted session, show its workspaces and are told when one needs attention; and a
    machine may host devices that remote agents drive. This library models the parts of the
    TypeScript code that decide, exclude, encrypt, admit and confine, and proves them correct.

    ** Parts, and the files that model them

    - The Noise protocol, [packages/core/noise.ts]: [Noise.v]. [CipherState], [SymmetricState],
      [HandshakeState] and [NoiseTransport] are records with a definition per method. A method that
      throws keeps what it assigned before, so methods live in the monad [M state exn] of this
      file. [node:crypto] is the class [NodeCrypto].
    - Sessions over Noise, [packages/core/noise-session.ts]: [NoiseSession.v]. Secrets, the
      cleartext prefix, [initiateNoise] and [acceptNoise] as handlers of the events of a
      WebSocket, the encrypted socket with its held messages, and the framing of a job's pipe.
      Handlers return a new state and a list of effects on the raw socket.
    - Admission, idleness and pressure, [packages/stim-cli/src/policy/]: [Policy.v]. They read
      leases through the interface [LeaseReading], which the leases of [DeviceLease.v] implement.
    - Device leases, [packages/stim-cli/src/engine/device-lease.ts] with
      [devices/device-slots.ts] and [engine/path-segment.ts]: [DeviceLease.v]. A [World] holds
      the lease files and each workspace's record of its leases; what the code runs under the lock
      of one lease file is one step.
    - Ownership claims, [packages/core/ownership-claim.ts] with [process-identity.ts]:
      [FileSystem.v] (directories, processes and the system calls on them; a program is a tree of
      calls) and [OwnershipClaim.v] (every operation as such a program). Programs of many processes
      interleave call by call, calls fail, and a process may be cut off between any two.
    - Directory locks, [packages/core/dir-lock.ts]: [DirLock.v], over the claims.
    - Oversight, [packages/core/oversight.ts]: [Oversight.v] (data, messages, [needsAttention]) and
      [Oversee.v] ([oversee] from one look to the next, rule by rule, with the state it keeps).
    - Hosted agents, [packages/agent-driver-agent-device/]: [DevicePolicy.v] ([device-policy.ts],
      what a client may send with each command) and [AgentDevice.v] (of [driver.ts] the function
      [pinLease] and what it calls, which inspects and rewrites each request of a client, and the
      request that [relayPinned] then sends, with what [relayRecord] makes of a recording's path).
    - The phone's connection, [apps/mobile/src/lib/connection.ts]: [Connection.v]. [StimConnection]
      and [pair] as a state and an operation for each method, socket event, timer and promise
      reaction.
    - The registry of clients, [packages/server/src/registry.ts]: [Registry.v], with what
      [authenticate] of [server.ts] does once a handshake is done. The files are the state.
    - JSON spans, [packages/server/src/json-spans.ts]: [JsonSpans.v].
    - Limits of the server, [FailureLimiter] and [PendingConnections] of [server.ts] and [Limiter]
      of [frames.ts]: [Limits.v].
    - Log tails, [packages/core/state/ndjson.ts] and [ndjson-tail.ts]: [NdjsonTail.v].
    - Video, [video.ts], [frame-delivery.ts] and the records of [recorder.ts] and [replay.ts] in
      [packages/server/src/]: [Video.v].
    - Keyed deltas, [packages/core/state/keyed-delta.ts]: [KeyedDelta.v].
    - Build slots, [engine/build-slots.ts] and [engine/wait-queue.ts] of [packages/stim-cli/src]
      with [tryAcquireBuildSlotClaim] of [packages/core/state/build-capacity.ts]: [BuildSlots.v].
      The loop that waits runs over a list of rounds, each the clock, queue and slots it finds,
      and its finally over the outcome of giving the ticket back.
    - Jobs of remote machines, [packages/server/src/offload-jobs.ts]: [OffloadJobs.v].
      [OffloadJobs] as a state with a heap of jobs and an operation for each request, frame,
      timer, event of a child process and settled install.
    - Notifications, [packages/server/src/notification-log.ts] and [push.ts]:
      [NotificationLog.v] and [Push.v]. [PushNotifier] as a state with the timers and requests the
      runtime keeps for it, and a trace of what it does.
    - Control sessions, [packages/server/src/control.ts] with [pointer-grab.ts]: [ControlInput.v]
      (the parsing of requests, the calls of [adb], the pieces of a paste), [FrameDevices.v] (of
      [frames.ts] which device a status gives a workspace), [ControlHub.v] (the sessions, the
      controls they share and their leases) and [ControlHubInput.v] (input, timers and every step).
      Sessions and controls are in a store; a function that waits is cut where it waits, and a
      [Task] is what is left of it.
    - The activity pass and the pressure ladder of the daemon, [packages/stim-cli/src/daemon/]:
      [IdlePass.v] ([idle.ts], the pass that stops what nobody uses), [Stages.v] ([stages.ts], the
      workspaces nobody uses, what is cleared of one, the dormant stage), [LadderPasses.v]
      ([pressure.ts], [dependencies.ts], [booted-parked.ts] and [planRung6] of
      [stimd/passes/sweep.ts]) and [Ladder.v] ([ladder.ts], its seven rungs and the loop over
      them). [Programs.v] holds the programs they are written as: trees of the calls of the
      signature [Sys], which read, lock, stop and delete, whose answers are arbitrary, and which may
      throw. [Stages.v] holds [withWorkspaceProcessLock] of [workspace-process-lock.ts] too, which
      keeps a claim that an error of its body names.
    - [Bytes.v] and [Json.v] hold what these use of the language: byte buffers, integers of fixed
      width, UTF-8 and UTF-16, JSON values and objects. This file holds the result and state monads,
      the tactics and the hint database [stim].

    The parts interact as in the code: [NoiseSession] runs [Noise]'s handshake and transport,
    [DeviceLease] asks [Policy.leaseGrant] for every grant, [Oversee] uses [Oversight]'s rules and
    [Policy]'s dates, [AgentDevice] uses [DevicePolicy]'s rules, [DirLock] runs
    [OwnershipClaim]'s programs, and [Registry] the validity of names and keys the sessions use.
    [BuildSlots] takes its turns from [Policy.slotTurn] and its claims from [OwnershipClaim],
    [OffloadJobs] frames what a job prints with [NoiseSession], and [Push] looks with
    [Oversee.oversee] for each device that [Registry] holds and logs to [NotificationLog].
    [ControlHub] takes its devices from [FrameDevices], its drivers and titles from [Oversight] and
    tells [Push] of a conflict. [Stages] decides with [Policy.decideIdleStop] and its order of
    workspaces, [IdlePass] with [Policy.idleScope] and [Policy.idleKeep], and [Ladder] climbs
    [Policy.LADDER] by [Policy.rungDecision].

    ** What the theorems show

    - [NoiseFacts.v], [NoiseTransportFacts.v]: two honest sides agree on keys, keys of the peer,
      hash and payloads; transports deliver in order; a counter value never encrypts twice; only
      canonical frames are accepted; a failure is final; each message moves the handshake on.
    - [NoiseSessionFacts.v], [NoiseHandshakeFacts.v], [NoiseServerFacts.v]: an honest client and
      server open a session; against any peer and any order of events a client only resolves with
      the key the handshake authenticated and by the rule of its options (pinned, accepted by the
      caller, or any where neither is given), a server only answers a first message of its protocol
      version and a known mode and admits whom it may, and both promises settle once, by their
      timeout; the prefix, secrets and job frames round trip; the socket hands
      messages over in order.
    - [DeviceLeaseFacts.v], [PolicyFacts.v]: whatever other workspaces do, an unexpired lease
      stays; a grant is effective; lease files round trip; grants, build-slot turns, idle stops,
      their order and thresholds, and the choice of a pool device on every branch.
    - [ClaimLogic.v] (a rely-guarantee logic of programs), [ClaimSteps.v] (what each call does to
      the invariant of claim sets), [OwnershipClaimFacts.v]: under any interleaving, failures and
      deaths, no two processes hold claims that conflict, and the claim of a live process stays;
      clearing a free set breaks this. [ClaimRuns.v]: alone, an acquired claim is released to the
      directory it began with.
    - [DirLockFacts.v]: bodies of a lock never run at once, waiting ends by its deadline, a lock
      unwinds whatever the body does, and alone it is taken and given back.
    - [OverseeFacts.v]: notifications only where wanted, each problem once per episode, workspaces
      remembered for their grace time, wake times ahead, the order of what needs attention.
    - [AgentDeviceFacts.v]: a request that goes on to the daemon names only the session's device,
      lease and tenant and runs only commands of the policy, at every depth of a batch, and a
      recording goes to a directory of the host's; and what the policy lists is accepted.
    - [ConnectionFacts.v]: after any operations a connection is on one socket, or waits for a retry
      whose timer is set, or was stopped; no request is left waiting without a socket; pairing
      settles once.
    - [RegistryFacts.v] (records round trip), [RegistryRuns.v] (runs of any operations and what
      each may change), [RegistrySafety.v]: a client is admitted only with a key that was
      approved, capabilities never cross from one file to another, a revoked client stays out, a
      secret admits one key, ids and keys stay distinct, and what cannot be read is kept.
    - [JsonSpansFacts.v]: on every text of the JSON grammar the spans are the texts of the elements
      and members. [NdjsonTailFacts.v]: a tail that follows a log gives what reading the files anew
      gives. [LimitsFacts.v]: the limiters against their histories of events. [VideoFacts.v],
      [KeyedDeltaFacts.v]: messages and recordings round trip, what is sent can be decoded, and a
      phone that applies the deltas has the server's entities.
    - [BuildSlotsFacts.v]: a run tries the slots only in its turn by the queue of the round, and
      gives its ticket back once its wait ends; the wait ends; the queue is in arrival order; a wait is overdue exactly when
      its ceiling says.
    - [OffloadJobsFacts.v] (the invariant of sockets, jobs and timers), [OffloadJobsRuns.v],
      [OffloadJobsUploads.v], [OffloadJobsAnswers.v]: a job hears and answers only its own client,
      is never left alone, is installed only from what arrived whole, and every request to start
      one is answered once, or waits for an install whose end makes it go on.
    - [NotificationLogFacts.v]: a cursor misses nothing that was logged, through failed writes and
      restarts. [PushFacts.v] (timers and their handles), [PushRuns.v], [PushSends.v],
      [PushAlerts.v]: the notifier watches just while it has someone to watch for and leaves no
      timer behind, a device is pushed only a conflict or what [oversee] finds for it in the turn,
      as loud as it asked for and outside its quiet hours, and its alerts stay within their limit in
      every stretch of time.
    - [ControlInputFacts.v]: a text is typed on the device as it was sent, against a reader of the
      shell's quotes and of [input text]; an accepted request fits its device. [ControlCore.v] is an
      abstract machine of the hub's promises with its invariants; [ControlHubFacts.v] and
      [ControlHubRuns.v] show that each step of the hub is a run of the machine.
      [ControlSessions.v]: a device has one open control, which a client uses or is about to, one
      finger is on its screen, the helper is fed only while it is attached, every lease the hub took
      is given back, once, and a renewal takes it only before that.
    - [LadderFacts.v]: in report mode the ladder changes nothing. [LadderSafety.v]: unless it is
      forced, it stops or deletes something only while the latest measurement says that what this
      relieves is short. [LadderLocks.v]: what it deletes of a workspace it deletes under the
      workspace's lock, once what it read there says that it is idle, and gives both locks back
      unless an error keeps one; each rung climbs as the measurement before it says, what it throws
      is logged and the next follows, and only a measurement stops the ladder with an error. [LadderPassFacts.v]: the disk level, which dependencies are taken, and the
      same of the passes of the dormant stage. [IdlePassFacts.v]: the activity pass stops and clears
      a workspace only under its locks, once it is idle by its own settings there, gives the locks
      back unless an error keeps one, and it decides on every workspace whatever fails. The proofs run over all answers with the rules for
      [wp], [keeps] and [only] of [Programs.v], where an observer sees the calls and answers.

    ** Parameters and their laws

    [NodeCrypto] (AEAD, hash, HMAC, X25519), [NodeText] (JSON text), [NodeDate] ([Date.parse],
    [toISOString]), [Collation] ([localeCompare]), [PushRuntime] (the minute of the day in a time
    zone, a digest and [toLowerCase]), the clock, random bytes and tokens, the generated
    validators of the protocol, whether a phone's socket throws in [send], and the texts of a cap and
    of a number of days are arguments. Where a
    theorem needs something of them it says so: [NodeCryptoLaws] (lengths, and decryption undoes
    encryption), [dh_ok] (Diffie-Hellman outputs agree), [TidyAead] (a ciphertext that decrypts is
    the one encryption gives), [LeaseLaws] (an object of scalars round trips through JSON text),
    [ClaimLaws] (the plain values of a claim round trip), [CollationLaws] ([localeCompare] is an
    order), [DateLaws] (a date that is written is read as its time), [told_apart] (two generations of a log
    that are told apart by their identity or first bytes), and that a key of a text parses.
    Witnesses instantiate each with a concrete function.

    ** Termination and bounds

    Recursion is structural except where a loop of the code is not, and there the fuel is enough:
    [JobFrameReader.push] takes the number of buffered bytes ([read_frames_fuel]); [readUnits] the
    length of the file; a scan of JSON text the length of the text, which the theorems on texts of
    the grammar show is never used up; an attempt at a claim its number of tries as the code counts
    them; and the wait for a lock [wait_turns], the polls that fit before its deadline, which
    [lock_waits] shows to be enough. [wait_ends] bounds the rounds of a wait for a build slot by
    the intervals of its ceiling. Counters are integers with their bound 2^64 - 1 checked as in
    the code; lengths on the wire have the width of their field. Times are integers of
    milliseconds, [None] where JavaScript has NaN.

    ** What is not modelled

    Of the modelled files: the asynchronous copies [releaseWorkspaceLeasesAsync] and [removeExpiredLeaseAsync] of
    [device-lease.ts]; the waits and branches of Windows in [ownership-claim.ts]; the daemon
    process of [driver.ts], the files of its recordings and its relay apart from the request sent; [timing] of [connection.ts];
    [watchClientRegistries], the marker and the key file of [registry.ts]; the text that
    [JSON.stringify] gives; the texts of [build-slots.ts] for a terminal; the rounding of doubles in
    the refill of a push bucket, which is counted in exact fractions. A phone's listeners are effects, so one that calls back into the
    connection while it runs is not modelled; nor are the members that every object inherits where
    the code looks a name up in a plain object. Of the rest: the commands of the CLI, the HTTP and
    WebSocket servers, the device tools and everything that runs a program, Metro, caches, the
    transports, the apps' screens, the website and generated code. Of [control.ts] the processes
    that [runQuietly] starts, with their claims and time limits, are effects whose outcome comes
    later. Of the daemon the passes of a tick other than those above are not modelled, nor
    [measureDependencyTrees], and what the passes call on ([executeAction] apart from the dormant
    stage, [clearArtifact], [pruneCache], [deleteProjectDevices], [runIdleStop], the memory report, [idleStopEvidence]
    and the claims of the process locks) is a call; thresholds and caps are integers of MiB and bytes. Next in
    line are [core/state/logs-query.ts] and the executors of [stimd/passes/act.ts]. *)

From Stdlib Require Import ZArith Lia.
From Stdlib Require Export Sorted.
From stdpp Require Export base tactics list option gmap strings.

#[export] Set Warnings "-clear-no-such-hyp,-level-tolerance".

(** ** Scope and automation *)

Declare Scope stim_scope.
Delimit Scope stim_scope with stim.

Create HintDb stim.
Create Rewrite HintDb stim.

(** Splits the hypotheses and the goal into atoms. *)
Ltac break :=
  repeat match goal with
  | H : _ ∧ _ |- _ => destruct H
  | H : ∃ _, _ |- _ => destruct H
  | H : Some _ = Some _ |- _ => injection H as H
  | H : (_, _) = (_, _) |- _ => injection H as ? ?
  | p : (_ * _)%type |- _ => destruct p
  end; simplify_eq/=.

(** Cases on the scrutinee of a [match] or [if] in the goal, innermost first. *)
Ltac cases :=
  repeat (match goal with
  | |- context [match ?x with _ => _ end] =>
      lazymatch x with
      | context [match _ with _ => _ end] => fail
      | _ => let E := fresh "E" in destruct x eqn:E
      end
  end; simplify_eq/=).

(** The same in a hypothesis. *)
Ltac cases_in H :=
  repeat (match type of H with
  | context [match ?x with _ => _ end] =>
      lazymatch x with
      | context [match _ with _ => _ end] => fail
      | _ => let E := fresh "E" in destruct x eqn:E
      end
  end; simplify_eq/=).

(** ** Results and exceptions

    Code that throws is modelled by [result E A]; code that mutates a private
    field and throws by [M S E A], where the state reached at the throw is kept,
    as a JavaScript object keeps what was assigned before the exception. *)

Inductive result (E A : Type) : Type :=
| Ok (a : A)
| Throw (e : E).
Arguments Ok {E A} a.
Arguments Throw {E A} e.

Definition is_ok {E A} (r : result E A) : bool :=
  match r with Ok _ => true | Throw _ => false end.

#[export] Instance result_ret {E} : MRet (result E) := fun A a => Ok a.
#[export] Instance result_bind {E} : MBind (result E) := fun A B f r =>
  match r with Ok a => f a | Throw e => Throw e end.

Lemma result_bind_ok {E A B} (f : A → result E B) (r : result E A) a :
  r = Ok a → r ≫= f = f a.
Proof. by intros ->. Qed.

Lemma result_bind_inv {E A B} (f : A → result E B) (r : result E A) b :
  r ≫= f = Ok b → ∃ a, r = Ok a ∧ f a = Ok b.
Proof. destruct r as [a|e]; [|done]. intros H. by exists a. Qed.

#[export] Instance result_eq_dec {E A} `{EqDecision E} `{EqDecision A} :
  EqDecision (result E A).
Proof. solve_decision. Defined.

Definition M (S E A : Type) : Type := S → S * result E A.

#[export] Instance M_ret {S E} : MRet (M S E) := fun A a s => (s, Ok a).
#[export] Instance M_bind {S E} : MBind (M S E) := fun A B f m s =>
  match m s with
  | (s', Ok a) => f a s'
  | (s', Throw e) => (s', Throw e)
  end.

Definition throw {S E A} (e : E) : M S E A := fun s => (s, Throw e).
Definition gets {S E A} (f : S → A) : M S E A := fun s => (s, Ok (f s)).
Definition modify {S E} (f : S → S) : M S E unit := fun s => (f s, Ok tt).
Definition lift {S E A} (r : result E A) : M S E A := fun s => (s, r).

(** Runs [m] on the part of the state that [get] and [set] delimit. *)
Definition zoom {S T E A} (get : T → S) (set : S → T → T) (m : M S E A) : M T E A :=
  fun t => let '(s, r) := m (get t) in (set s t, r).

(** [for (const x of l) body(x)], stopping at the first throw. *)
Fixpoint for_each {S E A} (l : list A) (body : A → M S E unit) : M S E unit :=
  match l with
  | [] => mret tt
  | x :: l => body x ≫= fun _ => for_each l body
  end.

(** Equations of the monad, for [autorewrite with stim]. *)
Lemma bind_ok {S E A B} (f : A → M S E B) (m : M S E A) s s' a :
  m s = (s', Ok a) → (m ≫= f) s = f a s'.
Proof. intros H. unfold mbind, M_bind. by rewrite H. Qed.

Lemma bind_throw {S E A B} (f : A → M S E B) (m : M S E A) s s' e :
  m s = (s', Throw e) → (m ≫= f) s = (s', Throw e).
Proof. intros H. unfold mbind, M_bind. by rewrite H. Qed.

Lemma bind_ok_inv {S E A B} (f : A → M S E B) (m : M S E A) s s' b :
  (m ≫= f) s = (s', Ok b) → ∃ a s1, m s = (s1, Ok a) ∧ f a s1 = (s', Ok b).
Proof.
  unfold mbind, M_bind. destruct (m s) as [s1 [a|e]]; naive_solver.
Qed.

Lemma mapM_app_inv {S E A B} (f : A → M S E B) l k s s' bs :
  mapM f (l ++ k) s = (s', Ok bs) →
  ∃ s1 bs1 bs2, mapM f l s = (s1, Ok bs1) ∧ mapM f k s1 = (s', Ok bs2) ∧ bs = bs1 ++ bs2.
Proof.
  revert s bs. induction l as [|x l IH]; intros s bs H; [by exists s, [], bs|].
  apply bind_ok_inv in H as (b & s1 & Hb & H). apply bind_ok_inv in H as (bs' & s2 & Hbs & H).
  injection H as <- <-. apply IH in Hbs as (s3 & bs1 & bs2 & H1 & H2 & ->).
  exists s3, (b :: bs1), bs2. split_and!; [|done|done]. cbn.
  erewrite bind_ok by exact Hb. by erewrite bind_ok by exact H1.
Qed.

(** [m] only moves the state along the preorder [R], whether it returns or throws. *)
Definition preserves {S E A} (R : S → S → Prop) (m : M S E A) : Prop := ∀ s, R s (fst (m s)).

Section Preserves.
Context {S E : Type} (R : S → S → Prop) `{!PreOrder R}.

Lemma preserves_ret {A} (a : A) : preserves (E := E) R (mret a).
Proof. intros s. simpl. reflexivity. Qed.

Lemma preserves_throw {A} (e : E) : preserves (A := A) R (throw e).
Proof. intros s. simpl. reflexivity. Qed.

Lemma preserves_gets {A} (f : S → A) : preserves (E := E) R (gets f).
Proof. intros s. simpl. reflexivity. Qed.

Lemma preserves_lift {A} (r : result E A) : preserves R (lift r).
Proof. intros s. simpl. reflexivity. Qed.

Lemma preserves_modify (f : S → S) : (∀ s, R s (f s)) → preserves (E := E) R (modify f).
Proof. intros H s. apply H. Qed.

Lemma preserves_bind {A B} (m : M S E A) (f : A → M S E B) :
  preserves R m → (∀ a, preserves R (f a)) → preserves R (m ≫= f).
Proof.
  intros Hm Hf s. specialize (Hm s). unfold mbind, M_bind.
  destruct (m s) as [s1 [a|e]]; simpl in *; [|done]. etrans; [exact Hm|apply Hf].
Qed.

End Preserves.

(** Follows the structure of a program; the leaves come from the hint database. *)
Ltac preserve :=
  repeat match goal with
  | |- preserves _ (_ ≫= _) => apply preserves_bind; [apply _| |intros ?]
  | |- preserves _ (mret _) => apply preserves_ret; apply _
  | |- preserves _ (throw _) => apply preserves_throw; apply _
  | |- preserves _ (gets _) => apply preserves_gets; apply _
  | |- preserves _ (lift _) => apply preserves_lift; apply _
  | |- preserves _ (modify _) => apply preserves_modify; intros ?
  | |- preserves _ (match ?x with _ => _ end) => destruct x
  | |- preserves _ _ => solve [eauto with stim]
  end; try done.

(** ** Lists *)

Lemma take_drop_app_eq {A} (l : list A) n : take n l ++ drop n l = l.
Proof. apply take_drop. Qed.

Lemma take_app_exact {A} (l k : list A) n : length l = n → take n (l ++ k) = l.
Proof. intros <-. apply take_app_length. Qed.

Lemma drop_app_exact {A} (l k : list A) n : length l = n → drop n (l ++ k) = k.
Proof. intros <-. apply drop_app_length. Qed.

#[export] Hint Rewrite @length_app @length_take @length_drop @length_replicate
  @length_fmap : stim.

Ltac len := autorewrite with stim in *; simpl in *; try lia.

Lemma filter_none {A} (P : A → Prop) `{!∀ x, Decision (P x)} l :
  Forall (fun x => ~ P x) l → base.filter P l = [].
Proof. induction 1 as [|x l Hx Hl IH]; [done|]. by rewrite filter_cons_False. Qed.

(** ** Stable sorting

    [array.toSorted(compare)] for a comparator that is a total preorder: [le x y] is
    [compare(x, y) <= 0]. *)

Section StableSort.
Context {A : Type} (le : A → A → bool).

Fixpoint sort_insert (x : A) (l : list A) : list A :=
  match l with
  | [] => [x]
  | y :: l => if le x y then x :: y :: l else y :: sort_insert x l
  end.

Fixpoint stable_sort (l : list A) : list A :=
  match l with
  | [] => []
  | x :: l => sort_insert x (stable_sort l)
  end.

Lemma sort_insert_perm x l : sort_insert x l ≡ₚ x :: l.
Proof.
  induction l as [|y l IH]; simpl; [done|]. destruct (le x y); [done|].
  by rewrite IH, Permutation_swap.
Qed.

Lemma stable_sort_perm l : stable_sort l ≡ₚ l.
Proof. induction l as [|x l IH]; simpl; [done|]. by rewrite sort_insert_perm, IH. Qed.

Definition le_total : Prop := ∀ x y, le x y = true ∨ le y x = true.
Definition le_trans : Prop := ∀ x y z, le x y = true → le y z = true → le x z = true.

Lemma sort_insert_sorted x l :
  le_total → le_trans → StronglySorted (fun a b => le a b = true) l →
  StronglySorted (fun a b => le a b = true) (sort_insert x l).
Proof.
  intros Htot Htr. induction 1 as [|y l Hl IH Hy]; simpl; [repeat constructor|].
  destruct (le x y) eqn:Hxy.
  - constructor; [by constructor|]. constructor; [done|].
    eapply Forall_impl; [exact Hy|]. intros z. by apply Htr.
  - constructor; [done|]. rewrite sort_insert_perm. constructor; [|done].
    destruct (Htot x y); congruence.
Qed.

Lemma stable_sort_sorted l :
  le_total → le_trans → StronglySorted (fun a b => le a b = true) (stable_sort l).
Proof.
  intros Htot Htr. induction l as [|x l IH]; simpl; [constructor|].
  by apply sort_insert_sorted.
Qed.

(** Entries that [P] selects and that compare as equal keep their order. *)
Lemma sort_insert_stable (P : A → bool) x l :
  (∀ y, P x = true → P y = true → le x y = true) →
  base.filter (fun y => P y = true) (sort_insert x l) = base.filter (fun y => P y = true) (x :: l).
Proof.
  intros HP. induction l as [|y l IH]; simpl; [done|].
  destruct (le x y) eqn:Hxy; [done|].
  rewrite !filter_cons, IH, filter_cons. repeat case_decide; try done.
  by rewrite HP in Hxy.
Qed.

Lemma stable_sort_stable (P : A → bool) l :
  (∀ x y, P x = true → P y = true → le x y = true) →
  base.filter (fun y => P y = true) (stable_sort l) = base.filter (fun y => P y = true) l.
Proof.
  intros HP. induction l as [|x l IH]; simpl; [done|].
  rewrite sort_insert_stable by auto. rewrite !filter_cons, IH. done.
Qed.

End StableSort.
