(* ===== verification/Bytes.v ===== *)
(** * Bytes, fixed-width integers and UTF-8

    What the code uses of [Buffer]: byte sequences, the little- and big-endian
    integer accessors, and the UTF-8 conversions of [Buffer.from(s, 'utf8')] and of
    a fatal [TextDecoder]. A JavaScript string is the list of its UTF-16 code
    units. *)

From Stdlib Require Import ZArith Lia.
From Stdlib Require Export Init.Byte.
From Stdlib Require Import Strings.Byte.
From Stdlib Require String.
From S2P Require Import Prelude.
Open Scope Z_scope.

Abbreviation bytes := (list byte).

#[export] Instance byte_eq_dec : EqDecision byte := Byte.byte_eq_dec.
#[export] Instance byte_inhabited : Inhabited byte := populate x00.

Definition Z_of_byte (b : byte) : Z := Z.of_N (Byte.to_N b).

Definition byte_of_Z (z : Z) : byte :=
  match Byte.of_N (Z.to_N (z mod 256)) with Some b => b | None => x00 end.

(** [Buffer.from(s, 'ascii')] for a literal of the source. *)
Definition ascii (s : string) : bytes := String.list_byte_of_string s.

(** [buffer.subarray(first, last)] and [buffer.subarray(first)]; both clamp. *)
Definition subarray (first last : nat) (b : bytes) : bytes := take (last - first) (drop first b).
Definition subarray_from (first : nat) (b : bytes) : bytes := drop first b.

(** [writeUIntLE], [readUIntLE], and the big-endian forms, on [n] bytes. *)
Fixpoint write_le (n : nat) (z : Z) : bytes :=
  match n with
  | O => []
  | S n => byte_of_Z z :: write_le n (z / 256)
  end.

Fixpoint read_le (b : bytes) : Z :=
  match b with
  | [] => 0
  | x :: b => Z_of_byte x + 256 * read_le b
  end.

Definition write_be (n : nat) (z : Z) : bytes := reverse (write_le n z).
Definition read_be (b : bytes) : Z := read_le (reverse b).

(** ** UTF-16 and UTF-8 *)

Abbreviation units := (list Z).

Definition is_high (u : Z) : bool := (0xD800 <=? u) && (u <=? 0xDBFF).
Definition is_low (u : Z) : bool := (0xDC00 <=? u) && (u <=? 0xDFFF).

Definition combine_pair (hi lo : Z) : Z := 0x10000 + (hi - 0xD800) * 0x400 + (lo - 0xDC00).

(** The scalar values of a string; a lone surrogate reads as U+FFFD. *)
Fixpoint scalars (s : units) : list Z :=
  match s with
  | [] => []
  | u :: s' =>
      if is_high u then
        match s' with
        | lo :: s'' => if is_low lo then combine_pair u lo :: scalars s'' else 0xFFFD :: scalars s'
        | [] => [0xFFFD]
        end
      else if is_low u then 0xFFFD :: scalars s' else u :: scalars s'
  end.

Definition utf8_encode_scalar (c : Z) : bytes :=
  if c <? 0x80 then [byte_of_Z c]
  else if c <? 0x800 then [byte_of_Z (0xC0 + c / 64); byte_of_Z (0x80 + c mod 64)]
  else if c <? 0x10000 then
    [byte_of_Z (0xE0 + c / 4096); byte_of_Z (0x80 + c / 64 mod 64); byte_of_Z (0x80 + c mod 64)]
  else
    [byte_of_Z (0xF0 + c / 262144); byte_of_Z (0x80 + c / 4096 mod 64);
     byte_of_Z (0x80 + c / 64 mod 64); byte_of_Z (0x80 + c mod 64)].

(** [Buffer.from(s, 'utf8')]. *)
Definition utf8_encode (s : units) : bytes := concat (map utf8_encode_scalar (scalars s)).

Definition units_of_scalar (c : Z) : units :=
  if c <? 0x10000 then [c]
  else [0xD800 + (c - 0x10000) / 0x400; 0xDC00 + (c - 0x10000) mod 0x400].

Definition in_range (lo hi : Z) (b : byte) : bool := (lo <=? Z_of_byte b) && (Z_of_byte b <=? hi).
Definition tail_bits (b : byte) : Z := Z_of_byte b - 0x80.

(** The bounds the decoder puts on the second byte of a sequence, from its first. *)
Definition second_lo (b0 : byte) : Z :=
  if Z_of_byte b0 =? 0xE0 then 0xA0 else if Z_of_byte b0 =? 0xF0 then 0x90 else 0x80.
Definition second_hi (b0 : byte) : Z :=
  if Z_of_byte b0 =? 0xED then 0x9F else if Z_of_byte b0 =? 0xF4 then 0x8F else 0xBF.

(** [new TextDecoder('utf-8', { fatal: true, ignoreBOM: true }).decode], [None] for its throw. *)
Fixpoint utf8_decode (l : bytes) : option units :=
  match l with
  | [] => Some []
  | b0 :: l1 =>
      if in_range 0 0x7F b0 then (app [Z_of_byte b0]) <$> utf8_decode l1
      else if in_range 0xC2 0xDF b0 then
        match l1 with
        | b1 :: l2 =>
            if in_range 0x80 0xBF b1
            then (app [(Z_of_byte b0 - 0xC0) * 64 + tail_bits b1]) <$> utf8_decode l2
            else None
        | _ => None
        end
      else if in_range 0xE0 0xEF b0 then
        match l1 with
        | b1 :: b2 :: l3 =>
            if in_range (second_lo b0) (second_hi b0) b1 && in_range 0x80 0xBF b2
            then (app [(Z_of_byte b0 - 0xE0) * 4096 + tail_bits b1 * 64 + tail_bits b2])
                   <$> utf8_decode l3
            else None
        | _ => None
        end
      else if in_range 0xF0 0xF4 b0 then
        match l1 with
        | b1 :: b2 :: b3 :: l4 =>
            if in_range (second_lo b0) (second_hi b0) b1 && in_range 0x80 0xBF b2
               && in_range 0x80 0xBF b3
            then (app (units_of_scalar ((Z_of_byte b0 - 0xF0) * 262144 + tail_bits b1 * 4096
                                        + tail_bits b2 * 64 + tail_bits b3)))
                   <$> utf8_decode l4
            else None
        | _ => None
        end
      else None
  end.

(** A string with no lone surrogate, of 16-bit units. *)
Fixpoint well_formed (s : units) : bool :=
  match s with
  | [] => true
  | u :: s' =>
      if is_high u then
        match s' with
        | lo :: s'' => is_low lo && well_formed s''
        | [] => false
        end
      else negb (is_low u) && (0 <=? u) && (u <? 0x10000) && well_formed s'
  end.

(** ** Bytes and integers *)

Lemma Z_of_byte_range b : 0 <= Z_of_byte b < 256.
Proof.
  unfold Z_of_byte. pose proof (Byte.to_N_bounded b). lia.
Qed.

Lemma Z_of_byte_of_Z z : Z_of_byte (byte_of_Z z) = z mod 256.
Proof.
  unfold Z_of_byte, byte_of_Z. pose proof (Z.mod_pos_bound z 256 ltac:(lia)) as Hz.
  destruct (Byte.of_N (Z.to_N (z mod 256))) as [b|] eqn:E.
  - apply Byte.to_of_N in E. rewrite E. lia.
  - apply Byte.of_N_None_iff in E. lia.
Qed.

Lemma byte_of_Z_of_byte b : byte_of_Z (Z_of_byte b) = b.
Proof.
  unfold byte_of_Z, Z_of_byte. pose proof (Byte.to_N_bounded b).
  rewrite Z.mod_small, N2Z.id by lia. by rewrite Byte.of_to_N.
Qed.

Lemma length_write_le n z : length (write_le n z) = n.
Proof. revert z; induction n; intros; simpl; auto. Qed.

Lemma length_write_be n z : length (write_be n z) = n.
Proof. unfold write_be. by rewrite length_reverse, length_write_le. Qed.

#[export] Hint Rewrite length_write_le length_write_be : stim.

Lemma read_write_le n z : read_le (write_le n z) = z mod 256 ^ Z.of_nat n.
Proof.
  revert z; induction n as [|n IH]; intros z; simpl read_le.
  { by rewrite Z.mod_1_r. }
  rewrite IH, Z_of_byte_of_Z, Nat2Z.inj_succ, Z.pow_succ_r by lia.
  rewrite Z.rem_mul_r by lia. lia.
Qed.

Lemma read_write_be n z : read_be (write_be n z) = z mod 256 ^ Z.of_nat n.
Proof. unfold read_be, write_be. by rewrite reverse_involutive, read_write_le. Qed.

Lemma read_le_bound b : 0 <= read_le b < 256 ^ Z.of_nat (length b).
Proof.
  induction b as [|x b IH]; simpl read_le; [simpl; lia|].
  pose proof (Z_of_byte_range x).
  cbn [length]. rewrite Nat2Z.inj_succ, Z.pow_succ_r by lia. lia.
Qed.

Lemma write_read_le b n : length b = n → write_le n (read_le b) = b.
Proof.
  intros <-. induction b as [|x b IH]; simpl; [done|].
  pose proof (Z_of_byte_range x). f_equal.
  - rewrite <- (byte_of_Z_of_byte x) at 2. unfold byte_of_Z.
    rewrite (Z.mul_comm 256), Z.mod_add by lia. done.
  - rewrite (Z.mul_comm 256), Z.div_add, Z.div_small by lia. done.
Qed.

Lemma write_le_inj n a b :
  0 <= a < 256 ^ Z.of_nat n → 0 <= b < 256 ^ Z.of_nat n → write_le n a = write_le n b → a = b.
Proof.
  intros Ha Hb H. apply (f_equal read_le) in H. rewrite !read_write_le in H.
  by rewrite !Z.mod_small in H by lia.
Qed.

(** ** UTF-8 *)

Lemma Z_of_byte_small z : 0 <= z < 256 → Z_of_byte (byte_of_Z z) = z.
Proof. intros. by rewrite Z_of_byte_of_Z, Z.mod_small. Qed.

Definition is_scalar (c : Z) : Prop := 0 <= c < 0xD800 ∨ 0xE000 <= c <= 0x10FFFF.

Lemma in_range_true lo hi b : lo <= Z_of_byte b <= hi → in_range lo hi b = true.
Proof. unfold in_range. lia. Qed.

Lemma in_range_false lo hi b : ¬ lo <= Z_of_byte b <= hi → in_range lo hi b = false.
Proof. unfold in_range. lia. Qed.

(** What the decoder does on each of the four sequence lengths. *)
Lemma utf8_decode_1 b0 rest :
  Z_of_byte b0 <= 0x7F →
  utf8_decode (b0 :: rest) = app [Z_of_byte b0] <$> utf8_decode rest.
Proof.
  intros ?. pose proof (Z_of_byte_range b0). cbn [utf8_decode].
  by rewrite in_range_true by lia.
Qed.

Lemma utf8_decode_2 b0 b1 rest :
  0xC2 <= Z_of_byte b0 <= 0xDF → 0x80 <= Z_of_byte b1 <= 0xBF →
  utf8_decode (b0 :: b1 :: rest) =
    app [(Z_of_byte b0 - 0xC0) * 64 + tail_bits b1] <$> utf8_decode rest.
Proof.
  intros. cbn [utf8_decode].
  by rewrite (in_range_false 0 0x7F b0), (in_range_true 0xC2 0xDF b0),
    (in_range_true 0x80 0xBF b1) by lia.
Qed.

Lemma utf8_decode_3 b0 b1 b2 rest :
  0xE0 <= Z_of_byte b0 <= 0xEF → second_lo b0 <= Z_of_byte b1 <= second_hi b0 →
  0x80 <= Z_of_byte b2 <= 0xBF →
  utf8_decode (b0 :: b1 :: b2 :: rest) =
    app [(Z_of_byte b0 - 0xE0) * 4096 + tail_bits b1 * 64 + tail_bits b2] <$> utf8_decode rest.
Proof.
  intros. cbn [utf8_decode].
  by rewrite (in_range_false 0 0x7F b0), (in_range_false 0xC2 0xDF b0),
    (in_range_true 0xE0 0xEF b0), (in_range_true _ _ b1), (in_range_true 0x80 0xBF b2) by lia.
Qed.

Lemma utf8_decode_4 b0 b1 b2 b3 rest :
  0xF0 <= Z_of_byte b0 <= 0xF4 → second_lo b0 <= Z_of_byte b1 <= second_hi b0 →
  0x80 <= Z_of_byte b2 <= 0xBF → 0x80 <= Z_of_byte b3 <= 0xBF →
  utf8_decode (b0 :: b1 :: b2 :: b3 :: rest) =
    app (units_of_scalar ((Z_of_byte b0 - 0xF0) * 262144 + tail_bits b1 * 4096
                          + tail_bits b2 * 64 + tail_bits b3)) <$> utf8_decode rest.
Proof.
  intros. cbn [utf8_decode].
  by rewrite (in_range_false 0 0x7F b0), (in_range_false 0xC2 0xDF b0),
    (in_range_false 0xE0 0xEF b0), (in_range_true 0xF0 0xF4 b0), (in_range_true _ _ b1),
    (in_range_true 0x80 0xBF b2), (in_range_true 0x80 0xBF b3) by lia.
Qed.

(** The 6-bit digits of a scalar value. *)
Lemma digits64 c :
  0 <= c →
  c = 64 * (c / 64) + c mod 64 ∧ 0 <= c mod 64 < 64 ∧
  c / 64 = 64 * (c / 4096) + c / 64 mod 64 ∧ 0 <= c / 64 mod 64 < 64 ∧
  c / 4096 = 64 * (c / 262144) + c / 4096 mod 64 ∧ 0 <= c / 4096 mod 64 < 64.
Proof.
  intros. replace (c / 4096) with (c / 64 / 64) by (rewrite Z.div_div; [done|lia..]).
  replace (c / 262144) with (c / 64 / 64 / 64) by (rewrite !Z.div_div; [done|lia..]).
  pose proof (Z.div_mod c 64). pose proof (Z.div_mod (c / 64) 64).
  pose proof (Z.div_mod (c / 64 / 64) 64).
  repeat split; try lia; apply Z.mod_pos_bound; lia.
Qed.

Lemma second_bounds b0 :
  0x80 <= second_lo b0 ∧ second_hi b0 <= 0xBF ∧
  (Z_of_byte b0 ≠ 0xE0 → Z_of_byte b0 ≠ 0xF0 → second_lo b0 = 0x80) ∧
  (Z_of_byte b0 ≠ 0xED → Z_of_byte b0 ≠ 0xF4 → second_hi b0 = 0xBF) ∧
  (Z_of_byte b0 = 0xE0 → second_lo b0 = 0xA0) ∧ (Z_of_byte b0 = 0xF0 → second_lo b0 = 0x90) ∧
  (Z_of_byte b0 = 0xED → second_hi b0 = 0x9F) ∧ (Z_of_byte b0 = 0xF4 → second_hi b0 = 0x8F).
Proof. unfold second_lo, second_hi. repeat case_match; lia. Qed.

Lemma utf8_decode_encode_scalar c rest :
  is_scalar c →
  utf8_decode (utf8_encode_scalar c ++ rest) = app (units_of_scalar c) <$> utf8_decode rest.
Proof.
  intros Hc. unfold utf8_encode_scalar, is_scalar in *.
  pose proof (digits64 c ltac:(lia)) as (? & ? & ? & ? & ? & ?).
  destruct (Z.ltb_spec c 0x80); [|destruct (Z.ltb_spec c 0x800);
    [|destruct (Z.ltb_spec c 0x10000)]]; cbn [app].
  - rewrite utf8_decode_1 by (rewrite Z_of_byte_small; lia).
    unfold units_of_scalar. rewrite Z_of_byte_small by lia. by case_match; [|lia].
  - rewrite utf8_decode_2 by (rewrite Z_of_byte_small; lia).
    unfold units_of_scalar, tail_bits. rewrite !Z_of_byte_small by lia.
    case_match; [|lia]. do 3 f_equal. lia.
  - pose proof (second_bounds (byte_of_Z (0xE0 + c / 4096))) as Hs.
    rewrite Z_of_byte_small in Hs by lia.
    rewrite utf8_decode_3 by (rewrite Z_of_byte_small; lia).
    unfold units_of_scalar, tail_bits. rewrite !Z_of_byte_small by lia.
    case_match; [|lia]. do 3 f_equal. lia.
  - pose proof (second_bounds (byte_of_Z (0xF0 + c / 262144))) as Hs.
    rewrite Z_of_byte_small in Hs by lia.
    rewrite utf8_decode_4 by (rewrite Z_of_byte_small; lia).
    unfold tail_bits. rewrite !Z_of_byte_small by lia. do 3 f_equal. lia.
Qed.

(** Induction two units at a time, as [scalars] and [well_formed] recurse. *)
Lemma units_ind2 (P : units → Prop) :
  P [] → (∀ u s, P s → (∀ v s', s = v :: s' → P s') → P (u :: s)) → ∀ s, P s.
Proof.
  intros H0 HS s. assert (P s ∧ ∀ v s', s = v :: s' → P s') as [? _]; [|done].
  induction s as [|u s [IH IH']]; naive_solver.
Qed.

(** What [Buffer.from(s, 'utf8')] writes, a fatal decoder reads back. *)
Lemma utf8_roundtrip s : well_formed s = true → utf8_decode (utf8_encode s) = Some s.
Proof.
  induction s as [|u s IH IH2] using units_ind2; [done|].
  unfold utf8_encode in *. cbn [well_formed scalars].
  destruct (is_high u) eqn:Hu.
  - destruct s as [|lo s]; [done|]. intros [Hlo Hs]%andb_true_iff. rewrite Hlo.
    cbn [map concat]. rewrite utf8_decode_encode_scalar, (IH2 lo s) by
      (done || unfold is_scalar, combine_pair, is_high, is_low in *; lia).
    cbn. unfold units_of_scalar, combine_pair, is_high, is_low in *.
    case_match; [lia|]. cbn [app].
    set (x := _ - 0x10000). pose proof (Z.div_mod x 0x400). pose proof (Z.mod_pos_bound x 0x400).
    assert (x = (u - 0xD800) * 0x400 + (lo - 0xDC00)) by (unfold x; ring).
    clearbody x. do 2 f_equal; [|f_equal]; lia.
  - intros Hw. assert (is_low u = false ∧ 0 <= u < 0x10000 ∧ well_formed s = true)
      as (Hl & Hr & Hs) by (destruct (is_low u), (well_formed s); split_and!; lia).
    rewrite Hl. cbn [map concat].
    rewrite utf8_decode_encode_scalar by (unfold is_scalar, is_high, is_low in *; lia).
    rewrite IH by done. cbn. unfold units_of_scalar. by case_match; [|lia].
Qed.

(** [s.toWellFormed()]: each lone surrogate is U+FFFD. *)
Definition toWellFormed (s : units) : units := concat (map units_of_scalar (scalars s)).
Definition code_unit (u : Z) : Prop := 0 <= u < 0x10000.

Lemma scalars_scalar s : Forall code_unit s → Forall is_scalar (scalars s).
Proof.
  unfold code_unit, is_scalar. induction s as [|u s IH IH2] using units_ind2; [done|]. intros [Hu Hs]%Forall_cons. cbn [scalars].
  destruct (is_high u) eqn:Hh; [destruct s as [|lo s]|].
  - constructor; [lia|done].
  - destruct (is_low lo) eqn:Hl; constructor; [unfold combine_pair, is_high, is_low in *; lia| |lia|by apply IH].
    apply (IH2 lo s); [done|]. by apply Forall_cons in Hs as [_ ?].
  - destruct (is_low u) eqn:Hl; (constructor; [|by apply IH]); [lia|]. unfold is_high, is_low in *. lia.
Qed.
(** What is written of a string that is not well formed reads back with its lone surrogates replaced. *)
Lemma utf8_received s : Forall code_unit s → utf8_decode (utf8_encode s) = Some (toWellFormed s).
Proof.
  intros Hs%scalars_scalar. unfold utf8_encode, toWellFormed. induction Hs as [|c l Hc _ IH]; [done|]. cbn [map concat].
  by rewrite utf8_decode_encode_scalar, IH.
Qed.
Lemma well_formed_units s : well_formed s = true → Forall code_unit s.
Proof.
  unfold code_unit. induction s as [|u s IH IH2] using units_ind2; [done|]. cbn [well_formed]. destruct (is_high u) eqn:Hh.
  - destruct s as [|lo s]; [done|]. intros [Hl Hs]%andb_true_iff. unfold is_high, is_low in *.
    constructor; [lia|]. constructor; [lia|]. by apply (IH2 lo s).
  - intros Hw. destruct (well_formed s); [|by rewrite andb_false_r in Hw]. constructor; [lia|by apply IH].
Qed.
Lemma toWellFormed_id s : well_formed s = true → toWellFormed s = s.
Proof. intros Hs. pose proof (utf8_received s (well_formed_units s Hs)) as Hr. rewrite utf8_roundtrip in Hr by done. by injection Hr. Qed.

Lemma byte_eq_of_Z b1 b2 : Z_of_byte b1 = Z_of_byte b2 → b1 = b2.
Proof. intros H. by rewrite <- (byte_of_Z_of_byte b1), H, byte_of_Z_of_byte. Qed.

(** ** The decoder accepts only the encoder's output *)

Lemma byte_of_Z_eq b z : z = Z_of_byte b → byte_of_Z z = b.
Proof. intros ->. apply byte_of_Z_of_byte. Qed.

Lemma encode_decoded_2 b0 b1 c :
  0xC2 <= Z_of_byte b0 <= 0xDF → 0x80 <= Z_of_byte b1 <= 0xBF →
  c = (Z_of_byte b0 - 0xC0) * 64 + tail_bits b1 →
  is_scalar c ∧ utf8_encode_scalar c = [b0; b1].
Proof.
  unfold tail_bits. intros H0 H1 Hc. pose proof (digits64 c ltac:(lia)) as (? & ? & _).
  unfold is_scalar, utf8_encode_scalar. split; [lia|].
  case_match; [lia|]. case_match; [|lia]. repeat f_equal; apply byte_of_Z_eq; lia.
Qed.

Lemma encode_decoded_3 b0 b1 b2 c :
  0xE0 <= Z_of_byte b0 <= 0xEF → second_lo b0 <= Z_of_byte b1 <= second_hi b0 →
  0x80 <= Z_of_byte b2 <= 0xBF →
  c = (Z_of_byte b0 - 0xE0) * 4096 + tail_bits b1 * 64 + tail_bits b2 →
  is_scalar c ∧ utf8_encode_scalar c = [b0; b1; b2].
Proof.
  unfold tail_bits. intros H0 H1 H2 Hc. pose proof (second_bounds b0).
  pose proof (digits64 c ltac:(lia)) as (? & ? & ? & ? & _).
  unfold is_scalar, utf8_encode_scalar. split; [lia|].
  case_match; [lia|]. case_match; [lia|]. case_match; [|lia].
  repeat f_equal; apply byte_of_Z_eq; lia.
Qed.

Lemma encode_decoded_4 b0 b1 b2 b3 c :
  0xF0 <= Z_of_byte b0 <= 0xF4 → second_lo b0 <= Z_of_byte b1 <= second_hi b0 →
  0x80 <= Z_of_byte b2 <= 0xBF → 0x80 <= Z_of_byte b3 <= 0xBF →
  c = (Z_of_byte b0 - 0xF0) * 262144 + tail_bits b1 * 4096 + tail_bits b2 * 64
      + tail_bits b3 →
  is_scalar c ∧ utf8_encode_scalar c = [b0; b1; b2; b3].
Proof.
  unfold tail_bits. intros H0 H1 H2 H3 Hc. pose proof (second_bounds b0).
  pose proof (digits64 c ltac:(lia)) as (? & ? & ? & ? & ? & ?).
  unfold is_scalar, utf8_encode_scalar. split; [lia|].
  case_match; [lia|]. case_match; [lia|]. case_match; [lia|].
  repeat f_equal; apply byte_of_Z_eq; lia.
Qed.

(** The units of a scalar value read back as that value. *)
Lemma scalars_units c s :
  is_scalar c → scalars (units_of_scalar c ++ s) = c :: scalars s ∧
    (well_formed s = true → well_formed (units_of_scalar c ++ s) = true).
Proof.
  intros Hc. unfold is_scalar, units_of_scalar in *. case_match; cbn [app scalars well_formed].
  - replace (is_high c) with false by (unfold is_high; lia).
    replace (is_low c) with false by (unfold is_low; lia).
    split; [done|]. intros ->. cbn. lia.
  - set (x := c - 0x10000). pose proof (Z.div_mod x 0x400 ltac:(lia)).
    pose proof (Z.mod_pos_bound x 0x400 ltac:(lia)). assert (c = x + 0x10000) by (unfold x; ring).
    clearbody x. subst c.
    replace (is_high (0xD800 + x / 0x400)) with true by (unfold is_high; lia).
    replace (is_low (0xDC00 + x mod 0x400)) with true by (unfold is_low; lia).
    split; [|done]. f_equal. unfold combine_pair. lia.
Qed.

Lemma utf8_decode_inv_step c l s s' :
  is_scalar c → s = units_of_scalar c ++ s' →
  utf8_encode s' = l ∧ well_formed s' = true →
  utf8_encode s = utf8_encode_scalar c ++ l ∧ well_formed s = true.
Proof.
  intros Hc -> [He Hw]. destruct (scalars_units c s' Hc) as [Hs Hf].
  unfold utf8_encode in *. rewrite Hs. cbn [map concat]. rewrite He. auto.
Qed.

Ltac in_range_hyps :=
  repeat match goal with
  | H : (_ && _)%bool = true |- _ => apply andb_true_iff in H as [? ?]
  | H : in_range _ _ _ = true |- _ =>
      unfold in_range in H; apply andb_true_iff in H as [?%Z.leb_le ?%Z.leb_le]
  end.

Lemma units_of_scalar_small c : c < 0x10000 → units_of_scalar c = [c].
Proof. intros. unfold units_of_scalar. case_match; [done|lia]. Qed.

Lemma utf8_decode_inv l s :
  utf8_decode l = Some s → utf8_encode s = l ∧ well_formed s = true.
Proof.
  remember (length l) as n eqn:Hn. assert (length l <= n)%nat as Hl by lia. clear Hn.
  revert l s Hl. induction n as [|n IH]; intros [|b0 l] s Hl; try (simpl in *; lia);
    try (by intros [= <-]).
  cbn [utf8_decode]. intros Hd. cases_in Hd; in_range_hyps;
    apply fmap_Some in Hd as (s' & Hs' & ->); apply IH in Hs'; try (simpl in *; lia).
  - pose proof (Z_of_byte_range b0).
    replace (b0 :: l) with (utf8_encode_scalar (Z_of_byte b0) ++ l)
      by (unfold utf8_encode_scalar; case_match; [cbn; by rewrite byte_of_Z_of_byte|lia]).
    eapply utf8_decode_inv_step; [..|exact Hs']; [unfold is_scalar; lia|].
    by rewrite units_of_scalar_small by lia.
  - edestruct (encode_decoded_2 b0 b) as [Hc He]; [done|done|reflexivity|].
    match goal with |- _ = ?x :: ?y :: ?l ∧ _ => change (x :: y :: l) with ([x; y] ++ l) end. rewrite <- He.
    eapply utf8_decode_inv_step; [done| |exact Hs'].
    by rewrite units_of_scalar_small by (unfold tail_bits; lia).
  - pose proof (second_bounds b0).
    edestruct (encode_decoded_3 b0 b b1) as [Hc He]; [done|done|done|reflexivity|].
    match goal with |- _ = ?x :: ?y :: ?z :: ?l ∧ _ =>
      change (x :: y :: z :: l) with ([x; y; z] ++ l) end. rewrite <- He.
    eapply utf8_decode_inv_step; [done| |exact Hs'].
    rewrite units_of_scalar_small by (unfold is_scalar, tail_bits in *; lia). done.
  - edestruct (encode_decoded_4 b0 b b1 b2) as [Hc He]; [done|done|done|done|reflexivity|].
    match goal with |- _ = ?x :: ?y :: ?z :: ?t :: ?l ∧ _ =>
      change (x :: y :: z :: t :: l) with ([x; y; z; t] ++ l) end. rewrite <- He.
    by eapply utf8_decode_inv_step; [done| |exact Hs'].
Qed.

(** ** Slices of a concatenation *)

Lemma subarray_prefix p m n : length p = n → subarray 0 n (p ++ m) = p.
Proof. intros Hl. unfold subarray. rewrite drop_0, Nat.sub_0_r. by apply take_app_exact. Qed.

Lemma subarray_middle p l m i j :
  length p = i → (i + length l = j)%nat → subarray i j (p ++ l ++ m) = l.
Proof.
  intros Hp Hl. unfold subarray. rewrite drop_app_exact by done. apply take_app_exact. lia.
Qed.

Lemma subarray_from_suffix p m n : length p = n → subarray_from n (p ++ m) = m.
Proof. apply drop_app_exact. Qed.

Lemma subarray_split n b : subarray 0 n b ++ subarray_from n b = b.
Proof. unfold subarray, subarray_from. rewrite drop_0, Nat.sub_0_r. apply take_drop. Qed.
