(* ===== verification/Json.v ===== *)
(** * JSON values and the text functions of the standard library

    Strings are lists of UTF-16 code units; a number is an integer or, where it is not one, the
    64 bits of its double. [JSON.parse], [JSON.stringify] and
    [Buffer.toString] are the parameter [NodeText]. *)

From Stdlib Require Import ZArith.
From S2P Require Import Prelude.
From S2P Require Import Bytes.
Open Scope Z_scope.

#[warnings="-register-all"] Inductive json :=
| JNull
| JBool (b : bool)
| JNumber (n : Z)
| JDouble (bits : Z)
| JString (s : units)
| JArray (l : list json)
| JObject (fields : list (units * json)).

Class NodeText := {
  buffer_toString : bytes → units;
  JSON_parse : units → option json;
  JSON_stringify : json → units;
  (** [JSON.stringify(value, null, 2)]. *)
  JSON_stringify_2 : json → units;
}.

(** A string literal of the source. *)
Definition js (s : string) : units := map Z_of_byte (ascii s).

(** [value.key] of a parsed value: [None] where it is [undefined] and where it throws, which the
    callers treat alike. Only own properties are modelled. *)
Fixpoint lookup_key (key : units) (fields : list (units * json)) : option json :=
  match fields with
  | [] => None
  | (k, v) :: fields => if decide (k = key) then Some v else lookup_key key fields
  end.

Definition field_of (key : string) (fields : list (units * json)) : option json :=
  lookup_key (js key) fields.

Definition field (key : string) (v : json) : option json :=
  match v with JObject fields => field_of key fields | _ => None end.

(** [value.trim() !== ''] : a code unit that is not white space or a line terminator. *)
Definition is_space (u : Z) : bool :=
  ((9 <=? u) && (u <=? 13)) || (u =? 32) || (u =? 160) || (u =? 0x1680)
  || ((0x2000 <=? u) && (u <=? 0x200A)) || (u =? 0x2028) || (u =? 0x2029) || (u =? 0x202F)
  || (u =? 0x205F) || (u =? 0x3000) || (u =? 0xFEFF).

Definition nonblank (s : units) : bool := existsb (fun u => negb (is_space u)) s.

(** [text.split(separator)] for a separator of one code unit, and [parts.join(separator)]. *)
Fixpoint split_on (separator : Z) (s : units) : list units :=
  match s with
  | [] => [[]]
  | u :: s =>
      match split_on separator s with
      | part :: parts => if u =? separator then [] :: part :: parts else (u :: part) :: parts
      | [] => []
      end
  end.

Fixpoint join_with (separator : units) (parts : list units) : units :=
  match parts with
  | [] => []
  | [part] => part
  | part :: parts => part ++ separator ++ join_with separator parts
  end.

(** [text.startsWith(prefix)]. *)
Fixpoint starts_with (prefix s : units) : bool :=
  match prefix, s with
  | [], _ => true
  | _ :: _, [] => false
  | x :: prefix, y :: s => (x =? y) && starts_with prefix s
  end.

(** A string that is not empty, as a condition reads it. *)
Definition non_empty (s : option units) : option units :=
  match s with Some (_ :: _) => s | _ => None end.

Definition is_alnum (u : Z) : bool :=
  ((97 <=? u) && (u <=? 122)) || ((65 <=? u) && (u <=? 90)) || ((48 <=? u) && (u <=? 57)).
Definition is_digit (u : Z) : bool := (48 <=? u) && (u <=? 57).

(** [^[a-f0-9]{n}$]. *)
Definition is_hex (u : Z) : bool := is_digit u || ((97 <=? u) && (u <=? 102)).
Definition hex_text (n : nat) (s : units) : bool := (length s =? n)%nat && forallb is_hex s.

(** [text.trim()]. *)
Fixpoint trim_left (s : units) : units :=
  match s with u :: s' => if is_space u then trim_left s' else s | [] => [] end.
Definition trim (s : units) : units := reverse (trim_left (reverse (trim_left s))).

(** [text.endsWith(suffix)] and [text.includes(part)]. *)
Fixpoint ends_with (suffix s : units) : bool :=
  bool_decide (s = suffix) || match s with [] => false | _ :: s => ends_with suffix s end.
Fixpoint includes (part s : units) : bool :=
  starts_with part s || match s with [] => false | _ :: s => includes part s end.

(** The longest prefix of code units in a class, and the rest. *)
Fixpoint span (p : Z → bool) (s : units) : units * units :=
  match s with
  | [] => ([], [])
  | u :: s' => if p u then let '(a, b) := span p s' in (u :: a, b) else ([], s)
  end.

(** Code unit order, as [toSorted()] without a comparator. *)
Fixpoint units_le (a b : units) : bool :=
  match a, b with
  | [], _ => true
  | _ :: _, [] => false
  | x :: a, y :: b => (x <? y) || ((x =? y) && units_le a b)
  end.

(** ** Objects *)

Definition is_object (v : option json) : bool :=
  match v with Some (JObject _) => true | _ => false end.

(** A value of an object, passed to a recursive function. *)
Definition at_key {A} (key : units) (f : json → A) (d : A) :=
  fix go (fields : list (units * json)) : A :=
    match fields with
    | [] => d
    | (k, v) :: fields => if decide (k = key) then f v else go fields
    end.

Lemma at_key_lookup {A} key (f : json → A) d fields :
  at_key key f d fields = match lookup_key key fields with Some v => f v | None => d end.
Proof. induction fields as [|[k v] fields IH]; [done|]. cbn. by case_decide. Qed.

(** [object[key] = value], an existing key at its place, and [{ ...a, ...b }]. *)
Fixpoint obj_set (key : units) (v : json) (fields : list (units * json)) : list (units * json) :=
  match fields with
  | [] => [(key, v)]
  | (k, w) :: fields => if decide (k = key) then (k, v) :: fields else (k, w) :: obj_set key v fields
  end.
Definition obj_merge (a b : list (units * json)) : list (units * json) :=
  fold_left (fun fields entry => obj_set (fst entry) (snd entry) fields) b a.

(** What a rest pattern or a filter on keys leaves. *)
Definition obj_without (keys : list units) (fields : list (units * json)) : list (units * json) :=
  base.filter (fun entry => fst entry ∉ keys) fields.

Lemma lookup_obj_set key k v fields :
  lookup_key key (obj_set k v fields) = if decide (k = key) then Some v else lookup_key key fields.
Proof.
  induction fields as [|[k' w] fields IH]; cbn; [done|].
  destruct (decide (k' = k)) as [->|Hk]; cbn; [by destruct (decide (k = key))|].
  rewrite IH. destruct (decide (k' = key)) as [->|]; [|done]. by rewrite decide_False.
Qed.

Lemma lookup_obj_merge key a b :
  lookup_key key (obj_merge a b)
  = match lookup_key key (reverse b) with Some v => Some v | None => lookup_key key a end.
Proof.
  unfold obj_merge. revert a. induction b as [|[k v] b IH] using rev_ind; intros a; [done|].
  rewrite fold_left_app, reverse_snoc. cbn. rewrite lookup_obj_set.
  destruct (decide (k = key)); [done|]. apply IH.
Qed.

Lemma lookup_obj_without key keys fields :
  lookup_key key (obj_without keys fields)
  = if decide (key ∈ keys) then None else lookup_key key fields.
Proof.
  unfold obj_without. induction fields as [|[k v] fields IH]; [by case_decide|].
  rewrite filter_cons. cbn [fst lookup_key].
  destruct (decide (k = key)) as [->|Hk]; destruct (decide (key ∈ keys)) as [Hin|Hin].
  - rewrite decide_False by (intros H; done). done.
  - rewrite decide_True by done. cbn. by rewrite decide_True.
  - destruct (decide (k ∉ keys)); cbn; [rewrite decide_False by done|]; exact IH.
  - destruct (decide (k ∉ keys)); cbn; [rewrite decide_False by done|]; exact IH.
Qed.

Lemma lookup_key_app key a b :
  lookup_key key (a ++ b) = match lookup_key key a with Some v => Some v | None => lookup_key key b end.
Proof. induction a as [|[k v] a IH]; [done|]. cbn. by case_decide. Qed.

Lemma obj_merge_keys a b key : key ∈ (fst <$> obj_merge a b) → key ∈ (fst <$> a) ∨ key ∈ (fst <$> b).
Proof.
  unfold obj_merge. revert a. induction b as [|[k v] b IH] using rev_ind; intros a; [by left|].
  rewrite fold_left_app, fmap_app. cbn. intros Hk.
  assert (key = k ∨ key ∈ (fst <$> fold_left (fun fields entry => obj_set (fst entry) (snd entry) fields) b a))
    as [->|Hin]; [|set_solver|destruct (IH a Hin); set_solver].
  revert Hk. generalize (fold_left (fun fields entry => obj_set (fst entry) (snd entry) fields) b a).
  intros l. induction l as [|[k' w] l IHl]; cbn; [set_solver|].
  destruct (decide (k' = k)); cbn; set_solver.
Qed.

(** Induction through the members of arrays and objects. *)
Section Induction.
Variable P : json → Prop.
Hypothesis Hscalar : ∀ v, match v with JArray _ | JObject _ => False | _ => True end → P v.
Hypothesis Harray : ∀ l, Forall P l → P (JArray l).
Hypothesis Hobject : ∀ fields, Forall P (snd <$> fields) → P (JObject fields).

Fixpoint json_nested_ind (v : json) : P v :=
  match v with
  | JArray l =>
      Harray l ((fix go l := match l return Forall P l with
                             | [] => Forall_nil_2 _
                             | x :: l => Forall_cons_2 _ _ _ (json_nested_ind x) (go l)
                             end) l)
  | JObject fields =>
      Hobject fields ((fix go l := match l return Forall P (snd <$> l) with
                                   | [] => Forall_nil_2 _
                                   | x :: l => Forall_cons_2 _ _ _ (json_nested_ind (snd x)) (go l)
                                   end) fields)
  | JNull => Hscalar JNull I
  | JBool b => Hscalar (JBool b) I
  | JNumber n => Hscalar (JNumber n) I
  | JDouble bits => Hscalar (JDouble bits) I
  | JString s => Hscalar (JString s) I
  end.
End Induction.

Lemma lookup_key_elem key fields v : lookup_key key fields = Some v → v ∈ (snd <$> fields).
Proof.
  induction fields as [|[k w] fields IH]; cbn; [done|].
  destruct (decide (k = key)); intros H; [simplify_eq; left|right; auto].
Qed.

Lemma lookup_key_in key fields v : lookup_key key fields = Some v → key ∈ map fst fields.
Proof.
  induction fields as [|[k w] fields IH]; cbn; [done|].
  destruct (decide (k = key)) as [->|]; intros H; [left|right; auto].
Qed.

(** ** [String(value)]

    Throws for an object whose own [toString] hides the inherited one, since its [valueOf] returns
    an object. The text of a number is its JSON text. *)

Inductive type_error := TypeError.

Fixpoint js_String `{!NodeText} (v : json) : result type_error units :=
  match v with
  | JNull => mret (js "null")
  | JBool b => mret (if b then js "true" else js "false")
  | JNumber _ | JDouble _ => mret (JSON_stringify v)
  | JString s => mret s
  | JArray l =>
      (fix go l :=
         match l with
         | [] => mret []
         | x :: l =>
             part ← match x with JNull => mret [] | _ => js_String x end;
             match l with
             | [] => mret part
             | _ => rest ← go l; mret (part ++ js "," ++ rest)
             end
         end) l
  | JObject fields =>
      match field_of "toString" fields with
      | Some _ => Throw TypeError
      | None => mret (js "[object Object]")
      end
  end.

