(* ===== verification/Noise.v ===== *)
(** * The Noise handshake and transport of [packages/core/noise.ts]

    [CipherState], [SymmetricState], [HandshakeState] and [NoiseTransport] as records
    with one definition per method. [node:crypto] is the parameter [NodeCrypto]; what
    the protocol needs of it is stated by [NodeCryptoLaws] and, for X25519, by
    [dh_agrees]. A method that throws after it assigned a field keeps the
    assignment, so every stateful method lives in [M state exn]. *)

From Stdlib Require Import ZArith Lia.
From stdpp Require Import pretty.
From S2P Require Import Prelude.
From S2P Require Import Bytes.
Open Scope Z_scope.

(** ** [node:crypto] *)

(** The primitives the code calls. [diffieHellman] takes the DER of a private and of a
    public key and answers [None] when node throws; [chacha_seal] and [chacha_open] are
    chacha20-poly1305 under a key, a 12-byte nonce and associated data, the tag apart. *)
Class NodeCrypto := {
  diffieHellman : bytes → bytes → option bytes;
  chacha_seal : bytes → bytes → bytes → bytes → bytes * bytes;
  chacha_open : bytes → bytes → bytes → bytes → bytes → option bytes;
  sha256_digest : bytes → bytes;
  hmac_digest : bytes → bytes → bytes;
}.

Inductive exn : Type :=
| NoiseError (message : string)
| RangeError (message : string)
| TypeError (message : string)
| JsError (message : string).

#[export] Instance exn_eq_dec : EqDecision exn.
Proof. solve_decision. Defined.

(** ** Constants *)

Inductive NoiseProtocolName := NOISE_XX | NOISE_XX_PSK2.

#[export] Instance NoiseProtocolName_eq_dec : EqDecision NoiseProtocolName.
Proof. solve_decision. Defined.

Definition protocol_name (p : NoiseProtocolName) : string :=
  match p with
  | NOISE_XX => "Noise_XX_25519_ChaChaPoly_SHA256"
  | NOISE_XX_PSK2 => "Noise_XXpsk2_25519_ChaChaPoly_SHA256"
  end.

Definition MAX_HANDSHAKE_MESSAGE_BYTES : nat := 1024.
Definition KEY_BYTES : nat := 32.
Definition HASH_BYTES : nat := 32.
Definition TAG_BYTES : nat := 16.
Definition MAX_NONCE : Z := 2 ^ 64 - 1.
Definition EMPTY : bytes := [].
Definition TEXT : byte := byte_of_Z 1.
Definition BINARY : byte := byte_of_Z 2.

(** RFC 8410 DER wrappers. *)
Definition SPKI_X25519 : bytes :=
  map byte_of_Z [0x30; 0x2a; 0x30; 0x05; 0x06; 0x03; 0x2b; 0x65; 0x6e; 0x03; 0x21; 0x00].
Definition PKCS8_X25519 : bytes :=
  map byte_of_Z [0x30; 0x2e; 0x02; 0x01; 0x00; 0x30; 0x05; 0x06; 0x03; 0x2b; 0x65; 0x6e; 0x04;
                 0x22; 0x04; 0x20].

Record NoiseKeyPair := { publicKey : bytes; privateKey : bytes }.

Abbreviation NoiseDh := (bytes → bytes → option bytes).

(** ** Primitives *)

Section Primitives.
Context `{!NodeCrypto}.

Definition nodeDh : NoiseDh := fun privateKey publicKey =>
  diffieHellman (PKCS8_X25519 ++ privateKey) (SPKI_X25519 ++ publicKey).

(** 32 zero bits, then the 64-bit counter, little-endian. *)
Definition nonceBytes (n : Z) : bytes := replicate 4 (byte_of_Z 0) ++ write_le 8 n.

Definition aeadEncrypt (k : bytes) (n : Z) (ad plaintext : bytes) : bytes :=
  let '(body, tag) := chacha_seal k (nonceBytes n) ad plaintext in body ++ tag.

Definition aeadDecrypt (k : bytes) (n : Z) (ad ciphertext : bytes) : result exn bytes :=
  if decide (length ciphertext < TAG_BYTES)%nat
  then Throw (NoiseError "Message is shorter than its authentication tag")
  else
    let body := subarray 0 (length ciphertext - TAG_BYTES) ciphertext in
    let tag := subarray_from (length ciphertext - TAG_BYTES) ciphertext in
    match chacha_open k (nonceBytes n) ad body tag with
    | Some plaintext => Ok plaintext
    | None => Throw (NoiseError "Message failed authentication")
    end.

Definition sha256 (parts : list bytes) : bytes := sha256_digest (concat parts).
Definition hmac (key : bytes) (parts : list bytes) : bytes := hmac_digest key (concat parts).

Definition hkdf (chainingKey input : bytes) : bytes * bytes * bytes :=
  let temp := hmac chainingKey [input] in
  let first := hmac temp [[byte_of_Z 1]] in
  let second := hmac temp [first; [byte_of_Z 2]] in
  (first, second, hmac temp [second; [byte_of_Z 3]]).

(** ** [CipherState] *)

Record CipherState := { cs_k : option bytes; cs_n : Z }.

Definition new_CipherState (key : option bytes) : result exn CipherState :=
  match key with
  | Some k =>
      if decide (length k ≠ KEY_BYTES) then Throw (RangeError "A cipher key is 32 bytes")
      else Ok {| cs_k := Some k; cs_n := 0 |}
  | None => Ok {| cs_k := None; cs_n := 0 |}
  end.

Definition hasKey (c : CipherState) : bool := bool_decide (is_Some (cs_k c)).

Definition setNonce (n : Z) : M CipherState exn unit :=
  modify (fun c => {| cs_k := cs_k c; cs_n := n |}).

Definition advance (c : CipherState) : CipherState := {| cs_k := cs_k c; cs_n := cs_n c + 1 |}.

Definition encryptWithAd (ad plaintext : bytes) : M CipherState exn bytes := fun c =>
  match cs_k c with
  | None => (c, Ok plaintext)
  | Some k =>
      if MAX_NONCE <=? cs_n c then (c, Throw (NoiseError "Nonce exhausted"))
      else (advance c, Ok (aeadEncrypt k (cs_n c) ad plaintext))
  end.

Definition decryptWithAd (ad ciphertext : bytes) : M CipherState exn bytes := fun c =>
  match cs_k c with
  | None => (c, Ok ciphertext)
  | Some k =>
      if MAX_NONCE <=? cs_n c then (c, Throw (NoiseError "Nonce exhausted"))
      else
        match aeadDecrypt k (cs_n c) ad ciphertext with
        | Ok plaintext => (advance c, Ok plaintext)
        | Throw e => (c, Throw e)
        end
  end.

(** ** [SymmetricState] *)

Record SymmetricState := { ss_ck : bytes; ss_h : bytes; ss_cipher : CipherState }.

Definition new_SymmetricState (protocol : NoiseProtocolName) : SymmetricState :=
  let name := ascii (protocol_name protocol) in
  let h := if decide (length name <= HASH_BYTES)%nat
           then name ++ replicate (HASH_BYTES - length name) (byte_of_Z 0)
           else sha256 [name] in
  {| ss_ck := h; ss_h := h; ss_cipher := {| cs_k := None; cs_n := 0 |} |}.

Definition set_ck (ck : bytes) (s : SymmetricState) : SymmetricState :=
  {| ss_ck := ck; ss_h := ss_h s; ss_cipher := ss_cipher s |}.
Definition set_h (h : bytes) (s : SymmetricState) : SymmetricState :=
  {| ss_ck := ss_ck s; ss_h := h; ss_cipher := ss_cipher s |}.
Definition set_cipher (c : CipherState) (s : SymmetricState) : SymmetricState :=
  {| ss_ck := ss_ck s; ss_h := ss_h s; ss_cipher := c |}.

Definition mixKey (input : bytes) : M SymmetricState exn unit :=
  s ← gets id;
  let '(ck, k, _) := hkdf (ss_ck s) input in
  _ ← modify (set_ck ck);
  c ← lift (new_CipherState (Some k));
  modify (set_cipher c).

Definition mixHash (data : bytes) : M SymmetricState exn unit :=
  modify (fun s => set_h (sha256 [ss_h s; data]) s).

Definition mixKeyAndHash (input : bytes) : M SymmetricState exn unit :=
  s ← gets id;
  let '(ck, h, k) := hkdf (ss_ck s) input in
  _ ← modify (set_ck ck);
  _ ← mixHash h;
  c ← lift (new_CipherState (Some k));
  modify (set_cipher c).

Definition encryptAndHash (plaintext : bytes) : M SymmetricState exn bytes :=
  s ← gets id;
  ciphertext ← zoom ss_cipher set_cipher (encryptWithAd (ss_h s) plaintext);
  _ ← mixHash ciphertext;
  mret ciphertext.

Definition decryptAndHash (ciphertext : bytes) : M SymmetricState exn bytes :=
  s ← gets id;
  plaintext ← zoom ss_cipher set_cipher (decryptWithAd (ss_h s) ciphertext);
  _ ← mixHash ciphertext;
  mret plaintext.

Definition split_symmetric (s : SymmetricState) : result exn (CipherState * CipherState) :=
  let '(first, second, _) := hkdf (ss_ck s) EMPTY in
  c1 ← new_CipherState (Some first);
  c2 ← new_CipherState (Some second);
  mret (c1, c2).

End Primitives.

(** ** [HandshakeState] *)

Inductive Token := E | S_ | EE | ES | SE | PSK.

#[export] Instance Token_eq_dec : EqDecision Token.
Proof. solve_decision. Defined.

Definition token_name (t : Token) : string :=
  match t with
  | E => "e" | S_ => "s" | EE => "ee" | ES => "es" | SE => "se" | PSK => "psk"
  end.

Definition PATTERNS (p : NoiseProtocolName) : list (list Token) :=
  match p with
  | NOISE_XX => [[E]; [E; EE; S_; ES]; [S_; SE]]
  | NOISE_XX_PSK2 => [[E]; [E; EE; S_; ES; PSK]; [S_; SE]]
  end.

Record HandshakeOptions := {
  opt_protocol : NoiseProtocolName;
  opt_initiator : bool;
  opt_prologue : bytes;
  opt_staticKeyPair : NoiseKeyPair;
  opt_psk : option bytes;
  opt_ephemeralKeyPair : option NoiseKeyPair;
  opt_dh : option NoiseDh;
}.

Record HandshakeState := {
  hs_symmetric : SymmetricState;
  hs_messages : list (list Token);
  hs_initiator : bool;
  hs_s : NoiseKeyPair;
  hs_psk : option bytes;
  hs_dh : NoiseDh;
  hs_e : option NoiseKeyPair;
  hs_re : option bytes;
  hs_rs : option bytes;
  hs_index : nat;
  hs_failed : bool;
  hs_split : bool;
}.

Section Setters.
Variable st : HandshakeState.

Definition set_keys (sym : SymmetricState) (e : option NoiseKeyPair) (re rs : option bytes) :
    HandshakeState :=
  {| hs_symmetric := sym; hs_messages := hs_messages st; hs_initiator := hs_initiator st;
     hs_s := hs_s st; hs_psk := hs_psk st; hs_dh := hs_dh st; hs_e := e; hs_re := re; hs_rs := rs;
     hs_index := hs_index st; hs_failed := hs_failed st; hs_split := hs_split st |}.

Definition set_status (index : nat) (failed split : bool) : HandshakeState :=
  {| hs_symmetric := hs_symmetric st; hs_messages := hs_messages st;
     hs_initiator := hs_initiator st; hs_s := hs_s st; hs_psk := hs_psk st; hs_dh := hs_dh st;
     hs_e := hs_e st; hs_re := hs_re st; hs_rs := hs_rs st;
     hs_index := index; hs_failed := failed; hs_split := split |}.

Definition set_symmetric (sym : SymmetricState) : HandshakeState :=
  set_keys sym (hs_e st) (hs_re st) (hs_rs st).
Definition set_e (e : NoiseKeyPair) : HandshakeState :=
  set_keys (hs_symmetric st) (Some e) (hs_re st) (hs_rs st).
Definition set_re (re : bytes) : HandshakeState :=
  set_keys (hs_symmetric st) (hs_e st) (Some re) (hs_rs st).
Definition set_rs (rs : bytes) : HandshakeState :=
  set_keys (hs_symmetric st) (hs_e st) (hs_re st) (Some rs).
Definition set_index (index : nat) : HandshakeState :=
  set_status index (hs_failed st) (hs_split st).
Definition set_failed : HandshakeState := set_status (hs_index st) true (hs_split st).
Definition set_split : HandshakeState := set_status (hs_index st) (hs_failed st) true.

End Setters.

Definition noise_wrap (text : string) (e : exn) : exn :=
  match e with NoiseError _ => e | _ => NoiseError text end.

Section Handshake.
Context `{!NodeCrypto}.

Definition symmetric {A} (m : M SymmetricState exn A) : M HandshakeState exn A :=
  zoom hs_symmetric (fun s st => set_symmetric st s) m.

Definition new_HandshakeState (options : HandshakeOptions) : result exn HandshakeState :=
  let usesPsk := bool_decide (opt_protocol options = NOISE_XX_PSK2) in
  if negb (Bool.eqb usesPsk (bool_decide (is_Some (opt_psk options))))
  then Throw (TypeError (protocol_name (opt_protocol options) +:+ " psk mismatch"))
  else if (match opt_psk options with
           | Some psk => bool_decide (length psk ≠ KEY_BYTES)
           | None => false
           end)
  then Throw (RangeError "A PSK is 32 bytes")
  else
    let '(sym, _) := mixHash (opt_prologue options) (new_SymmetricState (opt_protocol options)) in
    Ok {| hs_symmetric := sym;
          hs_messages := PATTERNS (opt_protocol options);
          hs_initiator := opt_initiator options;
          hs_s := opt_staticKeyPair options;
          hs_psk := opt_psk options;
          hs_dh := default nodeDh (opt_dh options);
          hs_e := opt_ephemeralKeyPair options;
          hs_re := None; hs_rs := None; hs_index := 0; hs_failed := false; hs_split := false |}.

Definition isComplete (st : HandshakeState) : bool :=
  bool_decide (hs_index st = length (hs_messages st)).

Definition remoteStaticPublicKey (st : HandshakeState) : option bytes :=
  if hs_failed st then None else hs_rs st.

Definition handshakeHash (st : HandshakeState) : result exn bytes :=
  if isComplete st then Ok (ss_h (hs_symmetric st))
  else Throw (NoiseError "The handshake is not complete").

Definition mixEphemeral (publicKey : bytes) : M HandshakeState exn unit :=
  _ ← symmetric (mixHash publicKey);
  st ← gets id;
  match hs_psk st with
  | Some _ => symmetric (mixKey publicKey)
  | None => mret tt
  end.

Definition x25519 (dh : NoiseDh) (keyPair : NoiseKeyPair) (publicKey : bytes) : result exn bytes :=
  match dh (privateKey keyPair) publicKey with
  | Some secret => Ok secret
  | None => Throw (NoiseError "X25519 failed; the peer sent an invalid public key")
  end.

Definition remote (t : Token) (key : option bytes) : result exn bytes :=
  match key with
  | Some key => Ok key
  | None => Throw (NoiseError ("Token " +:+ token_name t +:+ " needs a remote key"))
  end.

(** The X25519 output a Diffie-Hellman token mixes: the key pair and the remote key by side. *)
Definition dh_output (t : Token) (st : HandshakeState) (e : NoiseKeyPair) : result exn bytes :=
  let with_e key := k ← remote t key; x25519 (hs_dh st) e k in
  let with_s key := k ← remote t key; x25519 (hs_dh st) (hs_s st) k in
  match t with
  | EE => with_e (hs_re st)
  | ES => if hs_initiator st then with_e (hs_rs st) else with_s (hs_re st)
  | _ => if hs_initiator st then with_s (hs_re st) else with_e (hs_rs st)
  end.

(** [#mixToken], called for the tokens other than [E] and [S_]. *)
Definition mixToken (t : Token) : M HandshakeState exn unit :=
  st ← gets id;
  match t with
  | PSK =>
      match hs_psk st with
      | Some psk => symmetric (mixKeyAndHash psk)
      | None => throw (NoiseError "Pattern needs a PSK")
      end
  | _ =>
      match hs_e st with
      | Some e => k ← lift (dh_output t st e); symmetric (mixKey k)
      | None => throw (NoiseError ("Token " +:+ token_name t +:+ " needs an ephemeral key"))
      end
  end.

(** One token of [writeMessage]: the part it appends, if any. [fresh] is the key pair
    [generateNoiseKeyPair] returns. *)
Definition write_token (fresh : NoiseKeyPair) (t : Token) : M HandshakeState exn (list bytes) :=
  match t with
  | E =>
      st ← gets id;
      let e := default fresh (hs_e st) in
      _ ← modify (fun st => set_e st e);
      _ ← mixEphemeral (publicKey e);
      mret [publicKey e]
  | S_ =>
      st ← gets id;
      part ← symmetric (encryptAndHash (publicKey (hs_s st)));
      mret [part]
  | _ => _ ← mixToken t; mret []
  end.

Fixpoint write_tokens (fresh : NoiseKeyPair) (ts : list Token) : M HandshakeState exn (list bytes) :=
  match ts with
  | [] => mret []
  | t :: ts =>
      parts ← write_token fresh t;
      rest ← write_tokens fresh ts;
      mret (parts ++ rest)
  end.

(** [take(length)] inside [readMessage]: the part at [offset] and the next offset. *)
Definition take_part (message : bytes) (offset len : nat) : result exn (bytes * nat) :=
  if decide (length message - offset < len)%nat
  then Throw (NoiseError "Handshake message is truncated")
  else Ok (subarray offset (offset + len) message, (offset + len)%nat).

Definition read_token (message : bytes) (t : Token) (offset : nat) : M HandshakeState exn nat :=
  match t with
  | E =>
      '(re, offset) ← lift (take_part message offset KEY_BYTES);
      _ ← modify (fun st => set_re st re);
      _ ← mixEphemeral re;
      mret offset
  | S_ =>
      st ← gets id;
      let len := (KEY_BYTES + if hasKey (ss_cipher (hs_symmetric st)) then TAG_BYTES else 0)%nat in
      '(part, offset) ← lift (take_part message offset len);
      rs ← symmetric (decryptAndHash part);
      _ ← modify (fun st => set_rs st rs);
      mret offset
  | _ => _ ← mixToken t; mret offset
  end.

Fixpoint read_tokens (message : bytes) (ts : list Token) (offset : nat) :
    M HandshakeState exn nat :=
  match ts with
  | [] => mret offset
  | t :: ts => offset ← read_token message t offset; read_tokens message ts offset
  end.

(** [#step]: the guards, the body, and failing for good on any error. *)
Definition step_body (writing : bool) (run : list Token → M HandshakeState exn bytes) :
    M HandshakeState exn bytes :=
  st ← gets id;
  match hs_messages st !! hs_index st with
  | None => throw (NoiseError "The handshake is complete")
  | Some tokens =>
      if negb (Bool.eqb writing (Bool.eqb (hs_initiator st) (Nat.even (hs_index st))))
      then throw (NoiseError ("It is not this side's turn to "
                              +:+ if writing then "write" else "read"))
      else
        res ← run tokens;
        _ ← modify (fun st => set_index st (S (hs_index st)));
        mret res
  end.

Definition step (writing : bool) (run : list Token → M HandshakeState exn bytes) :
    M HandshakeState exn bytes := fun st =>
  if hs_failed st then (st, Throw (NoiseError "The handshake has failed"))
  else
    match step_body writing run st with
    | (st', Ok res) => (st', Ok res)
    | (st', Throw e) => (set_failed st', Throw (noise_wrap "Handshake failed" e))
    end.

Definition writeMessage (fresh : NoiseKeyPair) (payload : bytes) : M HandshakeState exn bytes :=
  step true (fun tokens =>
    parts ← write_tokens fresh tokens;
    last ← symmetric (encryptAndHash payload);
    let message := concat (parts ++ [last]) in
    if decide (MAX_HANDSHAKE_MESSAGE_BYTES < length message)%nat
    then throw (NoiseError "Handshake message is too large")
    else mret message).

Definition readMessage (message : bytes) : M HandshakeState exn bytes :=
  step false (fun tokens =>
    if decide (MAX_HANDSHAKE_MESSAGE_BYTES < length message)%nat
    then throw (NoiseError "Handshake message is too large")
    else
      offset ← read_tokens message tokens 0;
      symmetric (decryptAndHash (subarray_from offset message))).

(** [split()]: this side's sending and receiving cipher states. *)
Definition split : M HandshakeState exn (CipherState * CipherState) := fun st =>
  if hs_failed st || negb (isComplete st)
  then (st, Throw (NoiseError "The handshake is not complete"))
  else if hs_split st then (st, Throw (NoiseError "The handshake has already been split"))
  else
    let st := set_split st in
    match split_symmetric (hs_symmetric st) with
    | Throw e => (st, Throw e)
    | Ok (initiatorToResponder, responderToInitiator) =>
        (st, Ok (if hs_initiator st
                 then (initiatorToResponder, responderToInitiator)
                 else (responderToInitiator, initiatorToResponder)))
    end.

End Handshake.

(** ** [NoiseTransport] *)

Record NoiseTransport := {
  nt_send : CipherState;
  nt_receive : CipherState;
  nt_maxSend : Z;
  nt_maxReceive : Z;
  nt_closed : bool;
}.

(** A string or bytes passed to [encrypt], and what [decrypt] returns. *)
Inductive NoiseMessage :=
| Text (data : units)
| Binary (data : bytes).

Definition set_send (c : CipherState) (t : NoiseTransport) : NoiseTransport :=
  {| nt_send := c; nt_receive := nt_receive t; nt_maxSend := nt_maxSend t;
     nt_maxReceive := nt_maxReceive t; nt_closed := nt_closed t |}.
Definition set_receive (c : CipherState) (t : NoiseTransport) : NoiseTransport :=
  {| nt_send := nt_send t; nt_receive := c; nt_maxSend := nt_maxSend t;
     nt_maxReceive := nt_maxReceive t; nt_closed := nt_closed t |}.
Definition set_closed (t : NoiseTransport) : NoiseTransport :=
  {| nt_send := nt_send t; nt_receive := nt_receive t; nt_maxSend := nt_maxSend t;
     nt_maxReceive := nt_maxReceive t; nt_closed := true |}.

Section Transport.
Context `{!NodeCrypto}.

Definition new_NoiseTransport (send receive : CipherState) (maxSendBytes maxReceiveBytes : Z) :
    result exn NoiseTransport :=
  if negb (hasKey send) || negb (hasKey receive)
  then Throw (TypeError "Transport cipher states need keys")
  else Ok {| nt_send := send; nt_receive := receive; nt_maxSend := maxSendBytes;
             nt_maxReceive := maxReceiveBytes; nt_closed := false |}.

Definition assertOpen : M NoiseTransport exn unit := fun t =>
  if nt_closed t then (t, Throw (NoiseError "The transport is closed")) else (t, Ok tt).

Definition message_type (m : NoiseMessage) : byte :=
  match m with Text _ => TEXT | Binary _ => BINARY end.
Definition message_body (m : NoiseMessage) : bytes :=
  match m with Text s => utf8_encode s | Binary b => b end.

(** [encrypt] and [decrypt] past [#assertOpen]. *)
Definition encrypt_open (data : NoiseMessage) : M NoiseTransport exn bytes := fun t =>
  if nt_maxSend t <? Z.of_nat (length (message_body data))
  then (t, Throw (RangeError ("Message exceeds " +:+ pretty (nt_maxSend t) +:+ " bytes")))
  else
    match zoom nt_send set_send
            (encryptWithAd EMPTY (message_type data :: message_body data)) t with
    | (t', Ok frame) => (t', Ok frame)
    | (t', Throw e) => (set_closed t', Throw e)
    end.

Definition encrypt (data : NoiseMessage) : M NoiseTransport exn bytes :=
  _ ← assertOpen; encrypt_open data.

(** The type byte and the body of a decrypted frame. *)
Definition parse_plaintext (plaintext : bytes) : result exn NoiseMessage :=
  let body := subarray_from 1 plaintext in
  match head plaintext with
  | Some b =>
      if decide (b = TEXT) then
        match utf8_decode body with
        | Some s => Ok (Text s)
        | None => Throw (TypeError "The encoded data was not valid for encoding utf-8")
        end
      else if decide (b = BINARY) then Ok (Binary body)
      else Throw (NoiseError "Unknown message type")
  | None => Throw (NoiseError "Unknown message type")
  end.

Definition decrypt_body (message : bytes) : M NoiseTransport exn NoiseMessage := fun t =>
  if nt_maxReceive t + 1 + Z.of_nat TAG_BYTES <? Z.of_nat (length message)
  then (t, Throw (NoiseError "Message is too large"))
  else
    match zoom nt_receive set_receive (decryptWithAd EMPTY message) t with
    | (t', Ok plaintext) => (t', parse_plaintext plaintext)
    | (t', Throw e) => (t', Throw e)
    end.

Definition decrypt_open (message : bytes) : M NoiseTransport exn NoiseMessage := fun t =>
  match decrypt_body message t with
  | (t', Ok m) => (t', Ok m)
  | (t', Throw e) => (set_closed t', Throw (noise_wrap "Message is not valid" e))
  end.

Definition decrypt (message : bytes) : M NoiseTransport exn NoiseMessage :=
  _ ← assertOpen; decrypt_open message.

End Transport.
