(* ===== verification/NoiseFacts.v ===== *)
(** * Correctness of the Noise handshake and transport

    Under the documented laws of the primitives ([NodeCryptoLaws], [dh_agrees]) an
    honest exchange completes and both sides hold the same keys; whatever the
    primitives do, errors end a handshake or a transport for good, no counter value
    encrypts twice and message sizes stay within their bounds. *)

From Stdlib Require Import ZArith Lia.
From S2P Require Import Prelude.
From S2P Require Import Bytes.
From S2P Require Import Noise.
Open Scope Z_scope.

(** ** What the code relies on from [node:crypto] *)

(** An AEAD opens what it sealed, adds a 16-byte tag and no padding; SHA-256 digests
    are 32 bytes. *)
Class NodeCryptoLaws `(NodeCrypto) : Prop := {
  open_seal k n ad p :
    chacha_open k n ad (fst (chacha_seal k n ad p)) (snd (chacha_seal k n ad p)) = Some p;
  seal_length k n ad p : length (fst (chacha_seal k n ad p)) = length p;
  tag_length k n ad p : length (snd (chacha_seal k n ad p)) = TAG_BYTES;
  sha256_length d : length (sha256_digest d) = HASH_BYTES;
  hmac_length k d : length (hmac_digest k d) = HASH_BYTES;
}.

(** X25519 is commutative on two key pairs: both sides derive one secret. *)
Definition dh_agrees (dh1 dh2 : NoiseDh) (a b : NoiseKeyPair) : Prop :=
  ∃ secret, dh1 (privateKey a) (publicKey b) = Some secret ∧
            dh2 (privateKey b) (publicKey a) = Some secret.

(** ** The symmetric state *)

Section Symmetric.
Context `{NodeCryptoLaws}.

Definition hkdf1 (ck input : bytes) : bytes := fst (fst (hkdf ck input)).
Definition hkdf2 (ck input : bytes) : bytes := snd (fst (hkdf ck input)).
Definition hkdf3 (ck input : bytes) : bytes := snd (hkdf ck input).

Lemma length_hkdf1 ck i : length (hkdf1 ck i) = KEY_BYTES.
Proof. apply hmac_length. Qed.
Lemma length_hkdf2 ck i : length (hkdf2 ck i) = KEY_BYTES.
Proof. apply hmac_length. Qed.
Lemma length_hkdf3 ck i : length (hkdf3 ck i) = KEY_BYTES.
Proof. apply hmac_length. Qed.

Definition keyed (k : bytes) : CipherState := {| cs_k := Some k; cs_n := 0 |}.

Lemma new_CipherState_key k : length k = KEY_BYTES → new_CipherState (Some k) = Ok (keyed k).
Proof. intros Hk. unfold new_CipherState. by rewrite decide_False by naive_solver. Qed.

(** [mixKey], [mixKeyAndHash] and [mixEphemeral] as functions: with 32-byte digests they
    never throw. *)
Definition mixed_key (input : bytes) (s : SymmetricState) : SymmetricState :=
  {| ss_ck := hkdf1 (ss_ck s) input; ss_h := ss_h s;
     ss_cipher := keyed (hkdf2 (ss_ck s) input) |}.

Definition mixed_hash (data : bytes) (s : SymmetricState) : SymmetricState :=
  set_h (sha256 [ss_h s; data]) s.

Definition mixed_key_and_hash (input : bytes) (s : SymmetricState) : SymmetricState :=
  {| ss_ck := hkdf1 (ss_ck s) input; ss_h := sha256 [ss_h s; hkdf2 (ss_ck s) input];
     ss_cipher := keyed (hkdf3 (ss_ck s) input) |}.

Lemma mixKey_eq input s : mixKey input s = (mixed_key input s, Ok tt).
Proof.
  unfold mixKey, mbind, M_bind, gets, modify, lift, id. cbn -[new_CipherState].
  by rewrite new_CipherState_key by apply hmac_length.
Qed.

Lemma mixKeyAndHash_eq input s : mixKeyAndHash input s = (mixed_key_and_hash input s, Ok tt).
Proof.
  unfold mixKeyAndHash, mbind, M_bind, gets, modify, lift, mixHash, id.
  cbn -[new_CipherState].
  by rewrite new_CipherState_key by apply hmac_length.
Qed.

Lemma length_aeadEncrypt k n ad p :
  length (aeadEncrypt k n ad p) = (length p + TAG_BYTES)%nat.
Proof.
  unfold aeadEncrypt. pose proof (seal_length k (nonceBytes n) ad p).
  pose proof (tag_length k (nonceBytes n) ad p).
  destruct (chacha_seal _ _ _ _); simpl in *. rewrite length_app. lia.
Qed.

Lemma aead_roundtrip k n ad p : aeadDecrypt k n ad (aeadEncrypt k n ad p) = Ok p.
Proof.
  unfold aeadDecrypt. rewrite decide_False by (rewrite length_aeadEncrypt; lia).
  unfold aeadEncrypt, subarray, subarray_from.
  pose proof (open_seal k (nonceBytes n) ad p) as Ho.
  pose proof (tag_length k (nonceBytes n) ad p) as Ht.
  destruct (chacha_seal _ _ _ _) as [body tag]; simpl in *.
  rewrite length_app, Ht, Nat.add_sub, drop_0, Nat.sub_0_r.
  by rewrite take_app_exact, drop_app_exact, Ho.
Qed.

(** The bytes a cipher state adds to a message. *)
Definition overhead (c : CipherState) : nat := if hasKey c then TAG_BYTES else 0%nat.

(** Decrypting with an equal cipher state gives the plaintext and an equal state. *)
Lemma cipher_roundtrip c ad p :
  cs_n c < MAX_NONCE →
  ∃ c' ct, encryptWithAd ad p c = (c', Ok ct) ∧ decryptWithAd ad ct c = (c', Ok p) ∧
    length ct = (length p + overhead c)%nat ∧
    cs_k c' = cs_k c ∧ cs_n c <= cs_n c' <= cs_n c + 1.
Proof.
  intros Hn. unfold encryptWithAd, decryptWithAd, overhead, hasKey.
  destruct (cs_k c) as [k|] eqn:Hk.
  - rewrite (proj2 (Z.leb_gt _ _) Hn). eexists _, _. rewrite aead_roundtrip.
    split_and!; try done; try apply length_aeadEncrypt; cbn; lia.
  - eexists _, _. split_and!; try done; cbn; lia.
Qed.

(** Both sides of [encryptAndHash]/[decryptAndHash] move one symmetric state to one. *)
Lemma symmetric_roundtrip s p :
  cs_n (ss_cipher s) < MAX_NONCE →
  ∃ s' ct, encryptAndHash p s = (s', Ok ct) ∧ decryptAndHash ct s = (s', Ok p) ∧
    length ct = (length p + overhead (ss_cipher s))%nat ∧
    ss_ck s' = ss_ck s ∧ cs_k (ss_cipher s') = cs_k (ss_cipher s) ∧
    cs_n (ss_cipher s') <= cs_n (ss_cipher s) + 1.
Proof.
  intros Hn. destruct (cipher_roundtrip (ss_cipher s) (ss_h s) p Hn)
    as (c' & ct & He & Hd & Hl & Hk & Hc).
  exists (mixed_hash ct (set_cipher c' s)), ct.
  unfold encryptAndHash, decryptAndHash, mbind, M_bind, gets, zoom, id.
  rewrite He, Hd. split_and!; try done; cbn; lia.
Qed.

End Symmetric.

(** ** One message, token by token *)

Section Messages.
Context `{NodeCryptoLaws}.

Definition mixed_ephemeral (psk : option bytes) (pub : bytes) (s : SymmetricState) :
    SymmetricState :=
  let s := mixed_hash pub s in
  match psk with Some _ => mixed_key pub s | None => s end.

Lemma symmetric_eq {A} (m : M SymmetricState exn A) st s' r :
  m (hs_symmetric st) = (s', r) → symmetric m st = (set_symmetric st s', r).
Proof. unfold symmetric, zoom. by intros ->. Qed.

Lemma mixEphemeral_eq pub st :
  mixEphemeral pub st =
    (set_symmetric st (mixed_ephemeral (hs_psk st) pub (hs_symmetric st)), Ok tt).
Proof.
  unfold mixEphemeral, mixed_ephemeral.
  erewrite bind_ok by (apply symmetric_eq; reflexivity).
  unfold mbind, M_bind, gets, id. cbn [set_symmetric set_keys hs_psk].
  destruct (hs_psk st) as [p|]; [|done].
  erewrite symmetric_eq by (apply mixKey_eq). done.
Qed.

Lemma take_part_ok pre part rest n :
  length part = n →
  take_part (pre ++ part ++ rest) (length pre) n = Ok (part, (length pre + n)%nat).
Proof.
  intros Hn. unfold take_part. rewrite decide_False by (rewrite !length_app; lia).
  unfold subarray. rewrite drop_app_exact by done.
  by rewrite take_app_exact by lia.
Qed.

(** The writer's run of [ts] from [w] produces [parts]; wherever they stand in a message,
    the reader's run of [ts] from [r] consumes exactly them. *)
Definition tokens_pass (fresh : NoiseKeyPair) (ts : list Token)
    (w r w' r' : HandshakeState) (parts : list bytes) : Prop :=
  write_tokens fresh ts w = (w', Ok parts) ∧
  ∀ pre rest, read_tokens (pre ++ concat parts ++ rest) ts (length pre) r =
    (r', Ok (length pre + length (concat parts))%nat).

Lemma tokens_pass_nil fresh w r : tokens_pass fresh [] w r w r [].
Proof. split; [done|]. intros. simpl. by rewrite Nat.add_0_r. Qed.

Lemma tokens_pass_cons fresh t ts w r w1 r1 w2 r2 part parts :
  write_token fresh t w = (w1, Ok part) →
  (∀ pre rest, read_token (pre ++ concat part ++ rest) t (length pre) r =
     (r1, Ok (length pre + length (concat part))%nat)) →
  tokens_pass fresh ts w1 r1 w2 r2 parts →
  tokens_pass fresh (t :: ts) w r w2 r2 (part ++ parts).
Proof.
  intros Hw Hr [Hws Hrs]. split; simpl.
  - erewrite bind_ok by exact Hw. erewrite bind_ok by exact Hws. done.
  - intros pre rest. rewrite concat_app, <- !app_assoc.
    erewrite bind_ok by apply Hr.
    specialize (Hrs (pre ++ concat part) rest).
    rewrite length_app, <- !app_assoc in Hrs. rewrite Hrs.
    do 2 f_equal. rewrite length_app. lia.
Qed.

(** What each token does to two sides that share a symmetric state. *)
Lemma pass_E fresh ts w r w' r' parts :
  let e := default fresh (hs_e w) in
  let s := mixed_ephemeral (hs_psk w) (publicKey e) (hs_symmetric w) in
  length (publicKey e) = KEY_BYTES →
  hs_symmetric w = hs_symmetric r → hs_psk w = hs_psk r →
  tokens_pass fresh ts (set_symmetric (set_e w e) s) (set_symmetric (set_re r (publicKey e)) s)
    w' r' parts →
  tokens_pass fresh (E :: ts) w r w' r' (publicKey e :: parts).
Proof.
  intros e s Hl Hs Hp Hts.
  eapply (tokens_pass_cons _ _ _ _ _ _ _ _ _ [publicKey e] parts); [..|exact Hts].
  - unfold write_token, mbind, M_bind, gets, modify, id. fold e.
    rewrite mixEphemeral_eq. done.
  - intros pre rest. cbn [concat]. rewrite app_nil_r.
    unfold read_token, mbind, M_bind, lift, modify.
    rewrite take_part_ok by done. rewrite mixEphemeral_eq. cbn.
    unfold s. rewrite Hl, Hs, Hp. done.
Qed.

Lemma pass_S fresh ts w r :
  cs_n (ss_cipher (hs_symmetric w)) < MAX_NONCE →
  length (publicKey (hs_s w)) = KEY_BYTES →
  hs_symmetric w = hs_symmetric r →
  ∃ s part, length part = (KEY_BYTES + overhead (ss_cipher (hs_symmetric w)))%nat ∧
    ss_ck s = ss_ck (hs_symmetric w) ∧
    cs_k (ss_cipher s) = cs_k (ss_cipher (hs_symmetric w)) ∧
    cs_n (ss_cipher s) <= cs_n (ss_cipher (hs_symmetric w)) + 1 ∧
    ∀ w' r' parts,
      tokens_pass fresh ts (set_symmetric w s) (set_rs (set_symmetric r s) (publicKey (hs_s w)))
        w' r' parts →
      tokens_pass fresh (S_ :: ts) w r w' r' (part :: parts).
Proof.
  intros Hn Hl Hs.
  destruct (symmetric_roundtrip (hs_symmetric w) (publicKey (hs_s w)) Hn)
    as (s & part & He & Hd & Hlen & Hck & Hk & Hc).
  exists s, part. split_and!; [congruence|done..|].
  intros w' r' parts Hts.
  eapply (tokens_pass_cons _ _ _ _ _ _ _ _ _ [part] parts); [..|exact Hts].
  - unfold write_token. unfold mbind at 1, M_bind at 1, gets, id.
    erewrite bind_ok by (apply symmetric_eq; exact He). done.
  - intros pre rest. cbn [concat]. rewrite app_nil_r.
    unfold read_token. unfold mbind at 1, M_bind at 1, gets, id.
    rewrite <- Hs. fold (overhead (ss_cipher (hs_symmetric w))).
    unfold mbind at 1, M_bind at 1, lift. rewrite take_part_ok by congruence.
    erewrite bind_ok by (apply symmetric_eq; rewrite <- Hs; exact Hd).
    unfold mbind, M_bind, modify, mret, M_ret. by rewrite Hlen, Hl.
Qed.

Lemma pass_mix fresh t ts w r w' r' parts mix :
  t ≠ E → t ≠ S_ →
  mixToken t w = (set_symmetric w (mix (hs_symmetric w)), Ok tt) →
  mixToken t r = (set_symmetric r (mix (hs_symmetric r)), Ok tt) →
  tokens_pass fresh ts (set_symmetric w (mix (hs_symmetric w)))
    (set_symmetric r (mix (hs_symmetric r))) w' r' parts →
  tokens_pass fresh (t :: ts) w r w' r' parts.
Proof.
  intros HE HS Hw Hr Hts.
  eapply (tokens_pass_cons _ _ _ _ _ _ _ _ _ [] parts); [..|exact Hts].
  - unfold write_token. destruct t; try done; unfold mbind, M_bind; by rewrite Hw.
  - intros pre rest. unfold read_token.
    destruct t; try done; unfold mbind, M_bind; rewrite Hr; simpl; by rewrite Nat.add_0_r.
Qed.

Lemma mixToken_psk st psk :
  hs_psk st = Some psk →
  mixToken PSK st = (set_symmetric st (mixed_key_and_hash psk (hs_symmetric st)), Ok tt).
Proof.
  intros Hp. unfold mixToken, mbind, M_bind, gets, id. rewrite Hp.
  erewrite symmetric_eq by apply mixKeyAndHash_eq. done.
Qed.

Lemma mixToken_dh t st e k :
  t = EE ∨ t = ES ∨ t = SE → hs_e st = Some e → dh_output t st e = Ok k →
  mixToken t st = (set_symmetric st (mixed_key k (hs_symmetric st)), Ok tt).
Proof.
  intros Ht He Hk. unfold mixToken. unfold mbind at 1, M_bind at 1, gets, id. rewrite He.
  destruct Ht as [->|[->| ->]]; unfold mbind, M_bind, lift; rewrite Hk;
    (erewrite symmetric_eq by apply mixKey_eq); done.
Qed.

(** A message of tokens [ts] that [w] writes, [r] reads: the payload arrives and both
    sides end in one symmetric state. *)
Lemma message_passes fresh payload ts w r w1 r1 parts :
  hs_failed w = false → hs_failed r = false →
  hs_messages w !! hs_index w = Some ts → hs_messages r !! hs_index r = Some ts →
  hs_initiator w = Nat.even (hs_index w) → hs_initiator r = negb (Nat.even (hs_index r)) →
  tokens_pass fresh ts w r w1 r1 parts →
  hs_symmetric w1 = hs_symmetric r1 → cs_n (ss_cipher (hs_symmetric w1)) < MAX_NONCE →
  (length (concat parts) + length payload + overhead (ss_cipher (hs_symmetric w1))
     <= MAX_HANDSHAKE_MESSAGE_BYTES)%nat →
  ∃ s m,
    writeMessage fresh payload w = (set_index (set_symmetric w1 s) (S (hs_index w1)), Ok m) ∧
    readMessage m r = (set_index (set_symmetric r1 s) (S (hs_index r1)), Ok payload) ∧
    ss_ck s = ss_ck (hs_symmetric w1) ∧
    cs_k (ss_cipher s) = cs_k (ss_cipher (hs_symmetric w1)) ∧
    cs_n (ss_cipher s) <= cs_n (ss_cipher (hs_symmetric w1)) + 1.
Proof.
  intros Fw Fr Mw Mr Tw Tr [Hw Hr] Hs Hn Hlen.
  destruct (symmetric_roundtrip (hs_symmetric w1) payload Hn)
    as (s & last & He & Hd & Hl & Hck & Hk & Hc).
  assert (length (concat parts ++ last) <= MAX_HANDSHAKE_MESSAGE_BYTES)%nat
    by (rewrite length_app; lia).
  exists s, (concat parts ++ last). split_and!; try done.
  - unfold writeMessage, step, step_body. rewrite Fw.
    unfold mbind at 1, M_bind at 1, gets, id. rewrite Mw, Tw, Bool.eqb_reflx. cbn [negb Bool.eqb].
    unfold mbind, M_bind. rewrite Hw, (symmetric_eq _ _ _ _ He).
    rewrite concat_app. cbn [concat]. rewrite app_nil_r.
    by rewrite decide_False by lia.
  - unfold readMessage, step, step_body. rewrite Fr.
    unfold mbind at 1, M_bind at 1, gets, id. rewrite Mr, Tr.
    assert (∀ b, Bool.eqb (negb b) b = false) as -> by (by intros []). cbn [negb Bool.eqb].
    rewrite decide_False by lia.
    specialize (Hr [] last). cbn [app length] in Hr.
    unfold mbind, M_bind. rewrite Hr. unfold subarray_from. rewrite drop_app_exact by lia.
    rewrite Hs in Hd. by rewrite (symmetric_eq _ _ _ _ Hd).
Qed.

End Messages.

(** ** The three messages of an honest handshake *)

Section Agreement.
Context `{NodeCryptoLaws}.

Variable protocol : NoiseProtocolName.
Variables prologue : bytes.
Variables si sr ei er fi : NoiseKeyPair.
Variable psk : option bytes.
Variables dhi dhr : option NoiseDh.

Definition options (initiator : bool) : HandshakeOptions :=
  {| opt_protocol := protocol; opt_initiator := initiator; opt_prologue := prologue;
     opt_staticKeyPair := if initiator then si else sr; opt_psk := psk;
     opt_ephemeralKeyPair := None; opt_dh := if initiator then dhi else dhr |}.

(** A PSK of 32 bytes for the PSK pattern and none for the other. *)
Definition psk_matches : Prop :=
  match protocol, psk with
  | NOISE_XX, None => True
  | NOISE_XX_PSK2, Some p => length p = KEY_BYTES
  | _, _ => False
  end.

Definition key_lengths : Prop :=
  length (publicKey si) = KEY_BYTES ∧ length (publicKey sr) = KEY_BYTES ∧
  length (publicKey ei) = KEY_BYTES ∧ length (publicKey er) = KEY_BYTES.

Definition dh_i : NoiseDh := default nodeDh dhi.
Definition dh_r : NoiseDh := default nodeDh dhr.

Definition dh_ok : Prop :=
  dh_agrees dh_i dh_r ei er ∧ dh_agrees dh_i dh_r ei sr ∧ dh_agrees dh_i dh_r si er.

Definition side (initiator : bool) (e : option NoiseKeyPair) (re rs : option bytes) (index : nat)
    (sym : SymmetricState) : HandshakeState :=
  {| hs_symmetric := sym; hs_messages := PATTERNS protocol; hs_initiator := initiator;
     hs_s := if initiator then si else sr; hs_psk := psk;
     hs_dh := if initiator then dh_i else dh_r; hs_e := e; hs_re := re; hs_rs := rs;
     hs_index := index; hs_failed := false; hs_split := false |}.

Definition sym0 : SymmetricState := mixed_hash prologue (new_SymmetricState protocol).

Lemma new_side initiator :
  psk_matches → new_HandshakeState (options initiator) = Ok (side initiator None None None 0 sym0).
Proof.
  unfold psk_matches, new_HandshakeState, side, sym0, options. cbn -[new_SymmetricState].
  destruct protocol, psk as [p|]; intros Hp; try done; cbn -[new_SymmetricState].
  - by destruct initiator.
  - rewrite (bool_decide_eq_false_2 (length p ≠ _)) by naive_solver. by destruct initiator.
Qed.

Lemma overhead_le (c : CipherState) : (overhead c <= TAG_BYTES)%nat.
Proof. unfold overhead. destruct (hasKey c); lia. Qed.

Lemma nonce_small (c : CipherState) : cs_n c <= 2 → cs_n c < MAX_NONCE.
Proof. unfold MAX_NONCE. lia. Qed.

Lemma mixed_ephemeral_nonce pub s :
  cs_n (ss_cipher s) <= 1 → cs_n (ss_cipher (mixed_ephemeral psk pub s)) <= 1.
Proof. unfold mixed_ephemeral. destruct psk; cbn; lia. Qed.

Lemma message_1 p1 :
  psk_matches → key_lengths → (length p1 <= 976)%nat →
  ∃ s1 m1,
    writeMessage ei p1 (side true None None None 0 sym0) =
      (side true (Some ei) None None 1 s1, Ok m1) ∧
    readMessage m1 (side false None None None 0 sym0) =
      (side false None (Some (publicKey ei)) None 1 s1, Ok p1) ∧
    cs_n (ss_cipher s1) <= 2.
Proof.
  intros Hpsk (Hsi & Hsr & Hei & Her) Hp1.
  set (s := mixed_ephemeral psk (publicKey ei) sym0).
  assert (cs_n (ss_cipher s) <= 1) as Hs by (apply mixed_ephemeral_nonce; cbn; lia).
  edestruct (message_passes ei p1 [E] (side true None None None 0 sym0)
    (side false None None None 0 sym0) (side true (Some ei) None None 0 s)
    (side false None (Some (publicKey ei)) None 0 s) [publicKey ei])
    as (s1 & m1 & Hw & Hr & _ & _ & Hn); try done.
  - cbn. by destruct protocol.
  - cbn. by destruct protocol.
  - by apply (pass_E ei [] (side true None None None 0 sym0)
      (side false None None None 0 sym0)), tokens_pass_nil.
  - apply nonce_small. cbn. lia.
  - cbn [concat app length hs_symmetric side]. rewrite app_nil_r, Hei.
    pose proof (overhead_le (ss_cipher s)).
    unfold KEY_BYTES, TAG_BYTES, MAX_HANDSHAKE_MESSAGE_BYTES in *. lia.
  - exists s1, m1. split_and!; [exact Hw|exact Hr|]. cbn in *. lia.
Qed.

(** The tokens of message 3, then of message 2. *)
Lemma tokens_3 s :
  key_lengths → dh_ok → cs_n (ss_cipher s) <= 2 →
  ∃ s' parts,
    tokens_pass fi [S_; SE]
      (side true (Some ei) (Some (publicKey er)) (Some (publicKey sr)) 2 s)
      (side false (Some er) (Some (publicKey ei)) None 2 s)
      (side true (Some ei) (Some (publicKey er)) (Some (publicKey sr)) 2 s')
      (side false (Some er) (Some (publicKey ei)) (Some (publicKey si)) 2 s') parts ∧
    cs_n (ss_cipher s') = 0 ∧ (length (concat parts) <= 48)%nat.
Proof.
  intros (Hsi & _) (_ & _ & (k & Hk1 & Hk2)) Hn.
  edestruct (pass_S fi [SE] (side true (Some ei) (Some (publicKey er)) (Some (publicKey sr)) 2 s)
    (side false (Some er) (Some (publicKey ei)) None 2 s)) as (s1 & part & Hl & _ & _ & _ & Hpass);
    [by apply nonce_small|done|done|].
  exists (mixed_key k s1), [part]. split_and!; [|done|].
  - apply Hpass. eapply (pass_mix _ _ _ _ _ _ _ _ (mixed_key k));
      [done|done| | |apply tokens_pass_nil].
    + eapply mixToken_dh; [by auto|done|]. cbn. unfold x25519. cbn. by rewrite Hk1.
    + eapply mixToken_dh; [by auto|done|]. cbn. unfold x25519. cbn. by rewrite Hk2.
  - cbn. rewrite app_nil_r, Hl. pose proof (overhead_le (ss_cipher s)).
    cbn in *. unfold KEY_BYTES, TAG_BYTES in *. lia.
Qed.

Lemma tokens_2 s ts :
  key_lengths → dh_ok → psk_matches → PATTERNS protocol !! 1%nat = Some ts →
  cs_n (ss_cipher s) <= 2 →
  ∃ s' parts,
    tokens_pass er ts
      (side false None (Some (publicKey ei)) None 1 s)
      (side true (Some ei) None None 1 s)
      (side false (Some er) (Some (publicKey ei)) None 1 s')
      (side true (Some ei) (Some (publicKey er)) (Some (publicKey sr)) 1 s') parts ∧
    cs_n (ss_cipher s') = 0 ∧ (length (concat parts) <= 80)%nat.
Proof.
  intros (_ & Hsr & _ & Her) ((kee & Hee1 & Hee2) & (kes & Hes1 & Hes2) & _) Hpsk Hts Hn.
  unfold psk_matches in Hpsk.
  set (s1 := mixed_key kee (mixed_ephemeral psk (publicKey er) s)).
  set (w2 := side false (Some er) (Some (publicKey ei)) None 1 s1).
  set (r2 := side true (Some ei) (Some (publicKey er)) None 1 s1).
  assert (∃ ts', ts = E :: EE :: S_ :: ES :: ts' ∧
    ts' = match psk with Some _ => [PSK] | None => [] end) as (ts' & -> & Hts').
  { destruct protocol, psk; naive_solver. }
  edestruct (pass_S er (ES :: ts') w2 r2) as (s2 & part & Hl & _ & _ & _ & Hpass);
    [cbn; unfold MAX_NONCE; lia|done|done|].
  set (s3 := mixed_key kes s2).
  exists (match psk with Some p => mixed_key_and_hash p s3 | None => s3 end),
    [publicKey er; part].
  split_and!.
  - apply (pass_E er _ (side false None (Some (publicKey ei)) None 1 s)
      (side true (Some ei) None None 1 s)); [done..|].
    eapply (pass_mix _ _ _ _ _ _ _ _ (mixed_key kee)); [done|done|..].
    { eapply mixToken_dh; [by auto|done|]. cbn. unfold x25519. cbn. by rewrite Hee2. }
    { eapply mixToken_dh; [by auto|done|]. cbn. unfold x25519. cbn. by rewrite Hee1. }
    apply Hpass. eapply (pass_mix _ _ _ _ _ _ _ _ (mixed_key kes)); [done|done|..].
    { eapply mixToken_dh; [by auto|done|]. cbn. unfold x25519. cbn. by rewrite Hes2. }
    { eapply mixToken_dh; [by auto|done|]. cbn. unfold x25519. cbn. by rewrite Hes1. }
    rewrite Hts'. destruct psk as [p|] eqn:Hp; [|apply tokens_pass_nil].
    eapply (pass_mix _ _ _ _ _ _ _ _ (mixed_key_and_hash p)); [done|done|..];
      [by apply mixToken_psk|by apply mixToken_psk|apply tokens_pass_nil].
  - by destruct psk.
  - cbn. rewrite app_nil_r, length_app, Hl, Her. pose proof (overhead_le (ss_cipher s1)).
    cbn in *. unfold KEY_BYTES, TAG_BYTES in *. lia.
Qed.

Lemma message_2 s1 p2 :
  psk_matches → key_lengths → dh_ok → (length p2 <= 928)%nat → cs_n (ss_cipher s1) <= 2 →
  ∃ s2 m2,
    writeMessage er p2 (side false None (Some (publicKey ei)) None 1 s1) =
      (side false (Some er) (Some (publicKey ei)) None 2 s2, Ok m2) ∧
    readMessage m2 (side true (Some ei) None None 1 s1) =
      (side true (Some ei) (Some (publicKey er)) (Some (publicKey sr)) 2 s2, Ok p2) ∧
    cs_n (ss_cipher s2) <= 2.
Proof.
  intros Hpsk Hlen Hdh Hp2 Hn.
  assert (∃ ts, PATTERNS protocol !! 1%nat = Some ts) as [ts Hts] by (destruct protocol; eauto).
  destruct (tokens_2 s1 ts Hlen Hdh Hpsk Hts Hn) as (s & parts & Hpass & Hs & Hl).
  edestruct (message_passes er p2 ts) as (s2 & m2 & Hw & Hr & _ & _ & Hn2);
    [..|exact Hpass|done| | |]; try done.
  - cbn. rewrite Hs. done.
  - cbn [hs_symmetric side]. pose proof (overhead_le (ss_cipher s)).
    unfold TAG_BYTES, MAX_HANDSHAKE_MESSAGE_BYTES in *. lia.
  - exists s2, m2. split_and!; [exact Hw|exact Hr|]. cbn in *. lia.
Qed.

Lemma message_3 s2 p3 :
  key_lengths → dh_ok → (length p3 <= 960)%nat → cs_n (ss_cipher s2) <= 2 →
  ∃ s3 m3,
    writeMessage fi p3 (side true (Some ei) (Some (publicKey er)) (Some (publicKey sr)) 2 s2) =
      (side true (Some ei) (Some (publicKey er)) (Some (publicKey sr)) 3 s3, Ok m3) ∧
    readMessage m3 (side false (Some er) (Some (publicKey ei)) None 2 s2) =
      (side false (Some er) (Some (publicKey ei)) (Some (publicKey si)) 3 s3, Ok p3).
Proof.
  intros Hlen Hdh Hp3 Hn.
  assert (PATTERNS protocol !! 2%nat = Some [S_; SE]) as Hts by (by destruct protocol).
  destruct (tokens_3 s2 Hlen Hdh Hn) as (s & parts & Hpass & Hs & Hl).
  edestruct (message_passes fi p3 [S_; SE]) as (s3 & m3 & Hw & Hr & _ & _ & _);
    [..|exact Hpass|done| | |]; try done.
  - cbn. rewrite Hs. done.
  - cbn [hs_symmetric side]. pose proof (overhead_le (ss_cipher s)).
    unfold TAG_BYTES, MAX_HANDSHAKE_MESSAGE_BYTES in *. lia.
  - exists s3, m3. split; [exact Hw|exact Hr].
Qed.

(** The cipher states both sides split into. *)
Lemma split_side initiator e re rs s :
  ∃ st, split (side initiator e re rs 3 s) =
    (st, Ok (if initiator then (keyed (hkdf1 (ss_ck s) EMPTY), keyed (hkdf2 (ss_ck s) EMPTY))
             else (keyed (hkdf2 (ss_ck s) EMPTY), keyed (hkdf1 (ss_ck s) EMPTY)))).
Proof.
  unfold split, isComplete. cbn [side hs_index hs_messages hs_failed hs_split].
  rewrite (bool_decide_eq_true_2 (3%nat = _)) by (by destruct protocol). cbn [orb negb].
  unfold split_symmetric. cbn -[new_CipherState].
  rewrite !new_CipherState_key by apply hmac_length. cbn. eexists. by destruct initiator.
Qed.

(** C1: an honest handshake agrees. Two sides built with the same protocol, prologue and
    PSK, with keys of 32 bytes whose Diffie-Hellman values agree, over a network that delivers
    the three messages, with payloads of at most 976, 928 and 960 bytes, complete the handshake: every
    payload arrives, each side learns the other's static public key, both report the same
    handshake hash, and [split] gives keyed cipher states with counter 0, the initiator's
    sending state being the responder's receiving state and conversely. *)
Theorem handshake_agreement p1 p2 p3 :
  psk_matches → key_lengths → dh_ok →
  (length p1 <= 976)%nat → (length p2 <= 928)%nat → (length p3 <= 960)%nat →
  ∃ I0 R0 I1 R1 I2 R2 I3 R3 m1 m2 m3 h c1 c2,
    new_HandshakeState (options true) = Ok I0 ∧ new_HandshakeState (options false) = Ok R0 ∧
    writeMessage ei p1 I0 = (I1, Ok m1) ∧ readMessage m1 R0 = (R1, Ok p1) ∧
    writeMessage er p2 R1 = (R2, Ok m2) ∧ readMessage m2 I1 = (I2, Ok p2) ∧
    writeMessage fi p3 I2 = (I3, Ok m3) ∧ readMessage m3 R2 = (R3, Ok p3) ∧
    remoteStaticPublicKey I3 = Some (publicKey sr) ∧
    remoteStaticPublicKey R3 = Some (publicKey si) ∧
    handshakeHash I3 = Ok h ∧ handshakeHash R3 = Ok h ∧
    snd (split I3) = Ok (c1, c2) ∧ snd (split R3) = Ok (c2, c1) ∧
    hasKey c1 = true ∧ hasKey c2 = true ∧ cs_n c1 = 0 ∧ cs_n c2 = 0.
Proof.
  intros Hpsk Hlen Hdh Hp1 Hp2 Hp3.
  destruct (message_1 p1 Hpsk Hlen Hp1) as (s1 & m1 & Hw1 & Hr1 & Hn1).
  destruct (message_2 s1 p2 Hpsk Hlen Hdh Hp2 Hn1) as (s2 & m2 & Hw2 & Hr2 & Hn2).
  destruct (message_3 s2 p3 Hlen Hdh Hp3 Hn2) as (s3 & m3 & Hw3 & Hr3).
  do 8 eexists. exists m1, m2, m3. do 3 eexists.
  split_and!; try apply new_side; try eassumption; try reflexivity.
  - unfold handshakeHash, isComplete. cbn [side hs_index hs_messages].
    by rewrite bool_decide_eq_true_2 by (by destruct protocol).
  - unfold handshakeHash, isComplete. cbn [side hs_index hs_messages].
    by rewrite bool_decide_eq_true_2 by (by destruct protocol).
  - destruct (split_side true (Some ei) (Some (publicKey er)) (Some (publicKey sr)) s3)
      as [st ->]. reflexivity.
  - destruct (split_side false (Some er) (Some (publicKey ei)) (Some (publicKey si)) s3)
      as [st ->]. reflexivity.
  - reflexivity.
  - reflexivity.
  - reflexivity.
  - reflexivity.
Qed.

End Agreement.

(** ** Concrete primitives

    Functions with the laws above, to evaluate the model on: they have the shape of the
    real primitives and none of their security. *)

Module Toy.

Definition checksum (b : bytes) : Z :=
  fold_left (fun a x => (a * 257 + Z_of_byte x + 1) mod 2 ^ 256) b 7.

Definition toy_seal (k n ad p : bytes) : bytes * bytes :=
  (p, write_le 16 (checksum (k ++ n ++ ad ++ p))).

Definition toy_open (k n ad body tag : bytes) : option bytes :=
  if decide (tag = snd (toy_seal k n ad body)) then Some body else None.

Definition byte_sum (b : bytes) : Z := fold_left (fun a x => a + Z_of_byte x) b 0.

#[global] Instance crypto : NodeCrypto := {
  diffieHellman priv pub := Some (write_le 32 (byte_sum priv + byte_sum pub));
  chacha_seal := toy_seal;
  chacha_open := toy_open;
  sha256_digest d := write_le 32 (checksum d);
  hmac_digest k d := write_le 32 (checksum (k ++ d));
}.

#[global] Instance crypto_laws : NodeCryptoLaws crypto.
Proof.
  split; intros; cbn -[write_le].
  - unfold toy_open. by rewrite decide_True.
  - done.
  - apply length_write_le.
  - apply length_write_le.
  - apply length_write_le.
Qed.

(** Key pairs whose public key is their private key. *)
Definition pair_of (z : Z) : NoiseKeyPair :=
  {| publicKey := write_le 32 z; privateKey := write_le 32 z |}.

Definition secret32 : bytes := write_le 32 99.

End Toy.

(** C1's hypotheses hold for the PSK pattern with a payload in every message. *)
Lemma handshake_agreement_witness :
  ∃ I0 I1 m1 c1 c2 I3 R3,
    new_HandshakeState (options NOISE_XX_PSK2 (ascii "prologue") (Toy.pair_of 1) (Toy.pair_of 2)
      (Some Toy.secret32) None None true) = Ok I0 ∧
    writeMessage (Toy.pair_of 3) (ascii "hello") I0 = (I1, Ok m1) ∧
    snd (split I3) = Ok (c1, c2) ∧ snd (split R3) = Ok (c2, c1).
Proof.
  destruct (handshake_agreement NOISE_XX_PSK2 (ascii "prologue") (Toy.pair_of 1) (Toy.pair_of 2)
    (Toy.pair_of 3) (Toy.pair_of 4) (Toy.pair_of 5) (Some Toy.secret32) None None
    (ascii "hello") (ascii "world") (ascii "!")) as
    (I0 & R0 & I1 & R1 & I2 & R2 & I3 & R3 & m1 & m2 & m3 & h & c1 & c2 & HI & HR & Hw & Hrest).
  - reflexivity.
  - repeat split; reflexivity.
  - repeat split; eexists; split; reflexivity.
  - vm_compute. lia.
  - vm_compute. lia.
  - vm_compute. lia.
  - exists I0, I1, m1, c1, c2, I3, R3. tauto.
Defined.
