(* ===== verification/NoiseTransportFacts.v ===== *)
(** * The transport after the handshake, and how failures end both

    Ordered delivery over [NoiseTransport], counters that never repeat, canonical
    frames, and the fail-closed behaviour of [HandshakeState] and [NoiseTransport]. *)

From Stdlib Require Import ZArith Lia.
From stdpp Require Import numbers.
From S2P Require Import Prelude.
From S2P Require Import Bytes.
From S2P Require Import Noise.
From S2P Require Import NoiseFacts.
Open Scope Z_scope.

(** ** Ordered delivery *)

Section Delivery.
Context `{NodeCryptoLaws}.

(** The message as it arrives: a lone surrogate of a text, which UTF-8 cannot say, is U+FFFD. *)
Definition as_received (m : NoiseMessage) : NoiseMessage :=
  match m with Text s => Text (toWellFormed s) | Binary b => Binary b end.
Definition well_formed_message (m : NoiseMessage) : Prop :=
  match m with Text s => well_formed s = true | Binary _ => True end.

(** A message, a text of 16-bit units, within the sender's and the receiver's limits. *)
Definition fits (a b : NoiseTransport) (m : NoiseMessage) : Prop :=
  match m with Text s => Forall code_unit s | Binary _ => True end ∧
  Z.of_nat (length (message_body m)) <= nt_maxSend a ∧
  Z.of_nat (length (message_body m)) <= nt_maxReceive b.

Lemma as_received_id m : well_formed_message m → as_received m = m.
Proof. destruct m as [s|b]; cbn; intros Hm; [by rewrite toWellFormed_id|done]. Qed.

(** [a] sends under the cipher state [b] receives under, and both are open. *)
Definition linked (a b : NoiseTransport) : Prop :=
  nt_send a = nt_receive b ∧ nt_closed a = false ∧ nt_closed b = false.

(** [a'] is [a] with another sending state, [b'] is [b] with another receiving state. *)
Definition advanced (a b a' b' : NoiseTransport) : Prop :=
  a' = set_send (nt_send a') a ∧ b' = set_receive (nt_receive b') b.

Lemma parse_message m :
  match m with Text s => Forall code_unit s | Binary _ => True end →
  parse_plaintext (message_type m :: message_body m) = Ok (as_received m).
Proof.
  destruct m as [s|b]; cbn; intros Hw; unfold parse_plaintext, subarray_from; cbn.
  - rewrite decide_True by done. by rewrite drop_0, utf8_received.
  - rewrite decide_False, decide_True by done. by rewrite drop_0.
Qed.

Lemma transport_one a b m :
  linked a b → fits a b m → cs_n (nt_send a) < MAX_NONCE →
  ∃ a' b' frame, encrypt m a = (a', Ok frame) ∧ decrypt frame b = (b', Ok (as_received m)) ∧
    linked a' b' ∧ advanced a b a' b' ∧ cs_n (nt_send a') <= cs_n (nt_send a) + 1.
Proof.
  intros (Hl & Ha & Hb) (Hw & Hs & Hr) Hn.
  destruct (cipher_roundtrip (nt_send a) EMPTY (message_type m :: message_body m) Hn)
    as (c & frame & He & Hd & Hlen & _ & Hc).
  exists (set_send c a), (set_receive c b), frame. split_and!; try done; cbn; try lia.
  - unfold encrypt, assertOpen, mbind, M_bind. rewrite Ha. unfold encrypt_open.
    rewrite (proj2 (Z.ltb_ge _ _)) by lia. unfold zoom. by rewrite He.
  - unfold decrypt, assertOpen, mbind, M_bind. rewrite Hb.
    unfold decrypt_open, decrypt_body. rewrite (proj2 (Z.ltb_ge _ _)).
    + unfold zoom. rewrite <- Hl, Hd, parse_message by done. done.
    + cbn [length] in Hlen. pose proof (overhead_le (nt_send a)). lia.
Qed.

Lemma transport_sequence ms a b :
  linked a b → Forall (fits a b) ms → cs_n (nt_send a) + Z.of_nat (length ms) <= MAX_NONCE →
  ∃ a' b' frames,
    mapM encrypt ms a = (a', Ok frames) ∧ mapM decrypt frames b = (b', Ok (map as_received ms)) ∧ linked a' b'.
Proof.
  revert a b. induction ms as [|m ms IH]; intros a b Hl Hf Hn.
  { by exists a, b, []. }
  apply Forall_cons in Hf as [Hm Hms]. cbn [length] in Hn.
  destruct (transport_one a b m Hl Hm ltac:(lia)) as (a1 & b1 & frame & He & Hd & Hl1 & Hadv & Hc).
  destruct (IH a1 b1 Hl1) as (a2 & b2 & frames & Hes & Hds & Hl2).
  { destruct Hadv as [-> ->]. exact Hms. }
  { lia. }
  exists a2, b2, (frame :: frames). split_and!; [| |done].
  - cbn. erewrite bind_ok by exact He. erewrite bind_ok by exact Hes. done.
  - cbn. erewrite bind_ok by exact Hd. erewrite bind_ok by exact Hds. done.
Qed.

(** C11: ordered, lossless delivery. A transport linked to a peer encrypts any sequence of
    messages that fit both limits, and the peer decrypts the frames, in order, to those
    messages: binary messages and well-formed texts exactly, and any other text with U+FFFD for
    each lone surrogate. The two sides stay linked, so the next message goes through too. The
    sequence may use every counter value up to the reserved 2^64 - 1. *)
Theorem transport_delivers ms a b :
  linked a b → Forall (fits a b) ms → cs_n (nt_send a) + Z.of_nat (length ms) <= MAX_NONCE →
  ∃ a' b' frames,
    mapM encrypt ms a = (a', Ok frames) ∧ mapM decrypt frames b = (b', Ok (map as_received ms)) ∧ linked a' b' ∧
    (Forall well_formed_message ms → map as_received ms = ms).
Proof.
  intros Hl Hf Hn. destruct (transport_sequence ms a b Hl Hf Hn) as (a' & b' & frames & ? & ? & ?).
  exists a', b', frames. split_and!; [done..|].
  intros Hw. rewrite <- (map_id ms) at 2. apply map_ext_Forall. eapply Forall_impl; [exact Hw|apply as_received_id].
Qed.

End Delivery.

(** A transport over the toy primitives. *)
Definition toy_transport (ns nr : Z) : NoiseTransport :=
  {| nt_send := {| cs_k := Some Toy.secret32; cs_n := ns |};
     nt_receive := {| cs_k := Some Toy.secret32; cs_n := nr |};
     nt_maxSend := 64; nt_maxReceive := 64; nt_closed := false |}.

(** C11 at a text, one with a lone surrogate, a binary and an empty message. *)
Lemma transport_delivers_witness :
  ∃ a' b' frames,
    mapM encrypt [Text [0x68; 0x20AC; 0xD83D; 0xDE00]; Text [0xD83D; 0x68]; Binary (ascii "raw"); Text []]
      (toy_transport 5 0) = (a', Ok frames) ∧
    mapM decrypt frames (toy_transport 0 5) =
      (b', Ok [Text [0x68; 0x20AC; 0xD83D; 0xDE00]; Text [0xFFFD; 0x68]; Binary (ascii "raw"); Text []]) ∧
    linked a' b'.
Proof.
  destruct (transport_delivers [Text [0x68; 0x20AC; 0xD83D; 0xDE00]; Text [0xD83D; 0x68]; Binary (ascii "raw"); Text []]
              (toy_transport 5 0) (toy_transport 0 5)) as (a' & b' & frames & He & Hd & Hl & _).
  - repeat split; reflexivity.
  - repeat (apply Forall_cons; split; [split; [repeat constructor; unfold code_unit; lia|vm_compute; split; discriminate]|]).
    apply Forall_nil. done.
  - vm_compute. discriminate.
  - exists a', b', frames. split; [exact He|]. split; [exact Hd|exact Hl].
Defined.

(** ** Counters *)

Section Counters.
Context `{!NodeCrypto}.

Lemma nonceBytes_inj a b :
  0 <= a < MAX_NONCE → 0 <= b < MAX_NONCE → nonceBytes a = nonceBytes b → a = b.
Proof.
  unfold nonceBytes, MAX_NONCE. intros Ha Hb Heq. apply app_inv_head in Heq.
  apply write_le_inj in Heq; lia.
Qed.

Lemma nonces_NoDup n len :
  0 <= n → n + Z.of_nat len <= MAX_NONCE → NoDup (nonceBytes <$> seqZ n (Z.of_nat len)).
Proof.
  intros H0 Hn. apply NoDup_fmap_2_strong; [|apply NoDup_seqZ].
  intros x y Hx%elem_of_seqZ Hy%elem_of_seqZ. apply nonceBytes_inj; lia.
Qed.

(** C12: a counter value never encrypts twice. If a keyed cipher state performs a sequence of
    encryptions, the i-th ciphertext is the AEAD of the i-th plaintext under counter n + i,
    the counter never passes 2^64 - 1, and the nonces used are pairwise different; a state
    whose counter is 2^64 - 1 refuses to encrypt and stays as it is. *)
Theorem counters_never_repeat k n calls c cts :
  0 <= n <= MAX_NONCE →
  mapM (uncurry encryptWithAd) calls {| cs_k := Some k; cs_n := n |} = (c, Ok cts) →
  cts = imap (fun i call => aeadEncrypt k (n + Z.of_nat i) (fst call) (snd call)) calls ∧
  c = {| cs_k := Some k; cs_n := n + Z.of_nat (length calls) |} ∧ cs_n c <= MAX_NONCE ∧
  NoDup (nonceBytes <$> seqZ n (Z.of_nat (length calls))) ∧
  (cs_n c = MAX_NONCE → ∀ ad p, encryptWithAd ad p c = (c, Throw (NoiseError "Nonce exhausted"))).
Proof.
  intros Hn Hrun.
  assert (cts = imap (fun i call => aeadEncrypt k (n + Z.of_nat i) (fst call) (snd call)) calls ∧
    c = {| cs_k := Some k; cs_n := n + Z.of_nat (length calls) |} ∧
    n + Z.of_nat (length calls) <= MAX_NONCE) as (Hcts & -> & Hle).
  { revert n c cts Hn Hrun. induction calls as [|[ad p] calls IH]; intros n c cts Hn Hrun.
    { injection Hrun as <- <-. cbn [length]. split_and!; [done|f_equal; lia|lia]. }
    apply bind_ok_inv in Hrun as (ct & c1 & H1 & Hrun).
    unfold uncurry, encryptWithAd in H1. cbn [cs_k cs_n] in H1.
    destruct (Z.leb_spec MAX_NONCE n); [done|]. injection H1 as <- <-.
    apply bind_ok_inv in Hrun as (cts' & c2 & H2 & Hret). injection Hret as <- <-.
    apply (IH (n + 1)) in H2 as (-> & -> & Hle); [|lia].
    cbn [length imap fst snd]. rewrite Nat2Z.inj_succ. split_and!; [|f_equal; lia|lia].
    f_equal; [by rewrite Z.add_0_r|]. apply imap_ext. intros i [ad' p'] _. cbn. f_equal. lia. }
  split_and!; try done.
  - apply nonces_NoDup; lia.
  - cbn. intros -> ad p. unfold encryptWithAd. cbn. done.
Qed.

End Counters.

Lemma counters_never_repeat_witness :
  NoDup (nonceBytes <$> seqZ (MAX_NONCE - 2) 2).
Proof.
  apply (counters_never_repeat Toy.secret32 (MAX_NONCE - 2) [(EMPTY, ascii "a"); (EMPTY, ascii "b")]
    _ _ ltac:(vm_compute; split; discriminate) eq_refl).
Defined.

(** ** Canonical frames *)

(** A tidy AEAD: what opens was sealed. The tag of chacha20-poly1305 is a function of the key,
    nonce, associated data and ciphertext, and the ciphertext determines the plaintext. *)
Class TidyAead `(NodeCrypto) : Prop := {
  seal_of_open k n ad body tag p :
    chacha_open k n ad body tag = Some p → chacha_seal k n ad p = (body, tag);
}.

Section Canonical.
Context `{TidyAead}.

Lemma aeadDecrypt_inv k n ad ct p :
  aeadDecrypt k n ad ct = Ok p → aeadEncrypt k n ad p = ct.
Proof.
  unfold aeadDecrypt, aeadEncrypt, subarray, subarray_from. intros Hd. cases_in Hd.
  match goal with Ho : chacha_open _ _ _ _ _ = _ |- _ => apply seal_of_open in Ho; rewrite Ho end.
  rewrite drop_0, Nat.sub_0_r. apply take_drop.
Qed.

Lemma decryptWithAd_inv ad ct c c' p :
  decryptWithAd ad ct c = (c', Ok p) → encryptWithAd ad p c = (c', Ok ct).
Proof.
  unfold decryptWithAd, encryptWithAd. intros Hd. cases_in Hd; [|done].
  match goal with Hd : aeadDecrypt _ _ _ _ = _ |- _ => by rewrite (aeadDecrypt_inv _ _ _ _ _ Hd) end.
Qed.

Lemma parse_plaintext_inv pt m :
  parse_plaintext pt = Ok m → well_formed_message m ∧ pt = message_type m :: message_body m.
Proof.
  unfold parse_plaintext, subarray_from. destruct pt as [|b body]; [done|]. cbn.
  rewrite drop_0. intros Hp. cases_in Hp; [|done].
  match goal with Hu : utf8_decode _ = _ |- _ => by apply utf8_decode_inv in Hu as [-> ?] end.
Qed.

(** A transport accepts only canonical frames. If [decrypt] returns a message, the frame is
    byte for byte what the peer's [encrypt] of that message produces at the same counter
    (and the counters of both sides advance together); in particular no two frames decrypt to
    one message at one counter. *)
Theorem decrypt_accepts_canonical frame b b' m a :
  decrypt frame b = (b', Ok m) → nt_send a = nt_receive b → nt_closed a = false →
  Z.of_nat (length (message_body m)) <= nt_maxSend a →
  ∃ a', encrypt m a = (a', Ok frame) ∧ nt_send a' = nt_receive b' ∧ well_formed_message m.
Proof.
  unfold decrypt, encrypt. intros Hd Hl Ha Hs.
  apply bind_ok_inv in Hd as (u & b1 & Ho & Hd). unfold assertOpen in Ho. cases_in Ho.
  unfold decrypt_open, decrypt_body, zoom in Hd. cases_in Hd.
  match goal with Hp : parse_plaintext _ = _ |- _ => apply parse_plaintext_inv in Hp as [Hw ->] end.
  match goal with Hd : decryptWithAd _ _ _ = (?c, _) |- _ =>
    apply decryptWithAd_inv in Hd; exists (set_send c a) end.
  split_and!; [|done|done]. unfold assertOpen, mbind, M_bind, encrypt_open, zoom.
  rewrite Ha, (proj2 (Z.ltb_ge _ _) Hs), Hl.
  match goal with He : encryptWithAd _ _ _ = _ |- _ => by rewrite He end.
Qed.

End Canonical.

#[global] Instance toy_tidy : TidyAead Toy.crypto.
Proof.
  split. cbn -[Toy.checksum write_le]. intros k n ad body tag p. unfold Toy.toy_open.
  case_decide as Ht; [|done]. intros [= <-]. unfold Toy.toy_seal in *. by rewrite Ht.
Qed.

(** The frame of the text hi at counter 5, over the toy primitives. *)
Definition toy_frame : bytes := Eval vm_compute in
  match snd (encrypt (Text [0x68; 0x69]) (toy_transport 5 0)) with Ok f => f | Throw _ => [] end.

Lemma decrypt_accepts_canonical_witness :
  ∃ a', encrypt (Text [0x68; 0x69]) (toy_transport 5 0) = (a', Ok toy_frame) ∧
    nt_send a' = {| cs_k := Some Toy.secret32; cs_n := 6 |} ∧
    well_formed_message (Text [0x68; 0x69]).
Proof.
  apply (decrypt_accepts_canonical toy_frame (toy_transport 0 5)
    (set_receive {| cs_k := Some Toy.secret32; cs_n := 6 |} (toy_transport 0 5))).
  - vm_compute. reflexivity.
  - reflexivity.
  - reflexivity.
  - vm_compute. discriminate.
Defined.

(** ** Failing for good *)

Section Failures.
Context `{!NodeCrypto}.

(** A call on a handshake, and the state and outcome it leaves. *)
Inductive HandshakeCall :=
| CallWrite (fresh : NoiseKeyPair) (payload : bytes)
| CallRead (message : bytes)
| CallSplit.

Definition call_handshake (c : HandshakeCall) (st : HandshakeState) :
    HandshakeState * result exn unit :=
  match c with
  | CallWrite fresh payload => (fun r => (fst r, _ ← snd r; Ok tt)) (writeMessage fresh payload st)
  | CallRead message => (fun r => (fst r, _ ← snd r; Ok tt)) (readMessage message st)
  | CallSplit => (fun r => (fst r, _ ← snd r; Ok tt)) (split st)
  end.

(** The outcomes of a sequence of calls. *)
Fixpoint handshake_outcomes (cs : list HandshakeCall) (st : HandshakeState) :
    list (result exn unit) :=
  match cs with
  | [] => []
  | c :: cs => let '(st, r) := call_handshake c st in r :: handshake_outcomes cs st
  end.

Definition is_noise_error {A} (r : result exn A) : Prop :=
  match r with Throw (NoiseError _) => True | _ => False end.

Lemma noise_wrap_error text e : is_noise_error (Throw (noise_wrap text e) : result exn unit).
Proof. by destruct e. Qed.

Lemma failed_handshake cs st :
  hs_failed st = true → Forall is_noise_error (handshake_outcomes cs st).
Proof.
  intros Hf. induction cs as [|[f p|m|] cs IH]; cbn; [constructor|..];
    unfold writeMessage, readMessage, step, split; rewrite Hf; cbn; constructor; done.
Qed.

Lemma step_throws writing run st st' e :
  step writing run st = (st', Throw e) → hs_failed st' = true ∧ is_noise_error (Throw e : result exn unit).
Proof.
  unfold step. intros Hs. cases_in Hs; (split; [done|]); [done|].
  apply noise_wrap_error.
Qed.

(** A handshake that failed stays failed. Once [writeMessage] or [readMessage] throws, for
    whatever reason, it threw a [NoiseError], the peer's key is no longer reported, and every
    later [writeMessage], [readMessage] and [split], in any order and with any arguments,
    throws a [NoiseError] too. *)
Theorem handshake_fails_for_good c st st' e later :
  c ≠ CallSplit → call_handshake c st = (st', Throw e) →
  is_noise_error (Throw e : result exn unit) ∧ remoteStaticPublicKey st' = None ∧
  Forall is_noise_error (handshake_outcomes later st').
Proof.
  intros Hc Hcall.
  assert (hs_failed st' = true ∧ is_noise_error (Throw e : result exn unit)) as [Hf He].
  { destruct c as [f p|m|]; [..|done]; cbn in Hcall.
    - destruct (writeMessage f p st) as [s1 [b|e']] eqn:Hw; cbn in Hcall; simplify_eq.
      by apply step_throws in Hw.
    - destruct (readMessage m st) as [s1 [b|e']] eqn:Hw; cbn in Hcall; simplify_eq.
      by apply step_throws in Hw. }
  split_and!; [done| |by apply failed_handshake].
  unfold remoteStaticPublicKey. by rewrite Hf.
Qed.

End Failures.

(** The responder side of a toy handshake, before any message. *)
Definition toy_responder : HandshakeState :=
  side NOISE_XX (Toy.pair_of 1) (Toy.pair_of 2) None None None false None None None 0
    (sym0 NOISE_XX (ascii "p")).

Lemma handshake_fails_for_good_witness :
  is_noise_error (Throw (NoiseError "It is not this side's turn to write") : result exn unit) ∧
  remoteStaticPublicKey (set_failed toy_responder) = None ∧
  Forall is_noise_error (handshake_outcomes [CallRead (replicate 32 x00); CallSplit]
    (set_failed toy_responder)).
Proof.
  apply (handshake_fails_for_good (CallWrite (Toy.pair_of 4) []) toy_responder).
  - discriminate.
  - reflexivity.
Defined.

Section TransportFailures.
Context `{!NodeCrypto}.

(** A call on a transport, and the state and outcome it leaves. *)
Inductive TransportCall :=
| CallEncrypt (data : NoiseMessage)
| CallDecrypt (frame : bytes).

Definition call_transport (c : TransportCall) (t : NoiseTransport) :
    NoiseTransport * result exn unit :=
  match c with
  | CallEncrypt data => (fun r => (fst r, _ ← snd r; Ok tt)) (encrypt data t)
  | CallDecrypt frame => (fun r => (fst r, _ ← snd r; Ok tt)) (decrypt frame t)
  end.

Fixpoint transport_outcomes (cs : list TransportCall) (t : NoiseTransport) :
    list (result exn unit) :=
  match cs with
  | [] => []
  | c :: cs => let '(t, r) := call_transport c t in r :: transport_outcomes cs t
  end.

Lemma closed_transport cs t :
  nt_closed t = true → Forall is_noise_error (transport_outcomes cs t).
Proof.
  intros Hf. induction cs as [|[m|f] cs IH]; cbn; [constructor|..];
    unfold encrypt, decrypt, assertOpen, mbind, M_bind; rewrite Hf; cbn; constructor; done.
Qed.

Lemma encrypt_throws m t t' e :
  encrypt m t = (t', Throw e) →
  (t' = t ∧ nt_closed t = false ∧ nt_maxSend t < Z.of_nat (length (message_body m)) ∧
     ∃ text, e = RangeError text) ∨
  (nt_closed t' = true ∧ is_noise_error (Throw e : result exn unit)).
Proof.
  unfold encrypt, assertOpen, mbind, M_bind, encrypt_open, zoom, encryptWithAd.
  intros He. cases_in He; try (right; done). left. split_and!; [done..| |by eexists]. lia.
Qed.

Lemma decrypt_throws f t t' e :
  decrypt f t = (t', Throw e) → nt_closed t' = true ∧ is_noise_error (Throw e : result exn unit).
Proof.
  unfold decrypt, assertOpen, mbind, M_bind, decrypt_open.
  intros He. cases_in He; (split; [done|]); [done|apply noise_wrap_error].
Qed.

(** A transport error closes the transport, an oversized send does not. A call that throws
    either was an [encrypt] of data over [maxSendBytes] on an open transport, which throws a
    [RangeError] and changes nothing, not even the counter; or it throws a [NoiseError], and
    then every later call in either direction throws a [NoiseError]. *)
Theorem transport_fails_for_good c t t' e later :
  call_transport c t = (t', Throw e) →
  (t' = t ∧ nt_closed t = false ∧
     ∃ data text, c = CallEncrypt data ∧ e = RangeError text ∧
       nt_maxSend t < Z.of_nat (length (message_body data))) ∨
  (is_noise_error (Throw e : result exn unit) ∧
     Forall is_noise_error (transport_outcomes later t')).
Proof.
  destruct c as [m|f]; cbn.
  - destruct (encrypt m t) as [t1 [b|e1]] eqn:He; intros [= <- <-].
    apply encrypt_throws in He as [(-> & ? & ? & text & ->)|[Hc He]].
    + left. split_and!; [done..|]. by exists m, text.
    + right. split; [done|by apply closed_transport].
  - destruct (decrypt f t) as [t1 [b|e1]] eqn:He; intros [= <- <-].
    apply decrypt_throws in He as [Hc He]. right. split; [done|by apply closed_transport].
Qed.

End TransportFailures.

Lemma transport_fails_for_good_witness :
  let t' := set_closed (toy_transport 5 0) in
  Forall is_noise_error (transport_outcomes [CallEncrypt (Text []); CallDecrypt toy_frame] t').
Proof.
  destruct (transport_fails_for_good (CallDecrypt (ascii "short")) (toy_transport 5 0)
    (set_closed (toy_transport 5 0))
    (NoiseError "Message is shorter than its authentication tag")
    [CallEncrypt (Text []); CallDecrypt toy_frame])
    as [(Ht & _)|[_ Hl]].
  - vm_compute. reflexivity.
  - discriminate Ht.
  - exact Hl.
Defined.

(** ** Turns, sizes and progress *)

Section Progress.
Context `{!NodeCrypto}.

(** The fields no token changes. *)
Definition frame_of (st : HandshakeState) :=
  (hs_messages st, hs_initiator st, hs_s st, hs_psk st, hs_index st, hs_failed st, hs_split st).
Definition same_frame (st st' : HandshakeState) : Prop := frame_of st' = frame_of st.

#[local] Instance same_frame_preorder : PreOrder same_frame.
Proof. split; unfold same_frame; [done|]. intros x y z -> ->. done. Qed.

Lemma frame_symmetric {A} (m : M SymmetricState exn A) : preserves same_frame (symmetric m).
Proof. intros st. unfold symmetric, zoom. by destruct (m (hs_symmetric st)). Qed.

#[local] Hint Resolve frame_symmetric : stim.

Lemma frame_mixEphemeral pub : preserves same_frame (mixEphemeral pub).
Proof. unfold mixEphemeral. preserve. Qed.

Lemma frame_mixToken t : preserves same_frame (mixToken t).
Proof. unfold mixToken. preserve. Qed.

#[local] Hint Resolve frame_mixEphemeral frame_mixToken : stim.

Lemma frame_write_tokens fresh ts : preserves same_frame (write_tokens fresh ts).
Proof. induction ts as [|t ts IH]; cbn [write_tokens]; unfold write_token; preserve. Qed.

Lemma frame_read_tokens message ts offset : preserves same_frame (read_tokens message ts offset).
Proof.
  revert offset. induction ts as [|t ts IH]; intros offset; cbn [read_tokens];
    unfold read_token; preserve.
Qed.

Lemma step_ok writing run st st' m :
  (∀ ts, preserves same_frame (run ts)) →
  step writing run st = (st', Ok m) →
  hs_failed st = false ∧
  writing = Bool.eqb (hs_initiator st) (Nat.even (hs_index st)) ∧
  (hs_index st < length (hs_messages st))%nat ∧
  frame_of st' = frame_of (set_index st (S (hs_index st))) ∧
  ∃ ts st1, hs_messages st !! hs_index st = Some ts ∧ run ts st = (st1, Ok m) ∧
    st' = set_index st1 (S (hs_index st1)).
Proof.
  intros Hrun Hs. unfold step in Hs. destruct (hs_failed st) eqn:Hf; [done|].
  destruct (step_body writing run st) as [s0 [r|e]] eqn:Hb; [|done]. injection Hs as -> ->.
  apply bind_ok_inv in Hb as (st1 & s1 & [= <- <-] & Hb). unfold id in Hb.
  destruct (hs_messages st !! hs_index st) as [ts|] eqn:Hts; [|done].
  destruct (negb _) eqn:Hturn; [done|].
  apply bind_ok_inv in Hb as (m1 & s1 & Hr & [= <- <-]).
  specialize (Hrun ts st). rewrite Hr in Hrun. cbn in Hrun.
  split_and!; [done|..].
  - by apply negb_false_iff, Bool.eqb_prop in Hturn.
  - by eapply lookup_lt_Some.
  - unfold same_frame, frame_of in *. cbn in *. injection Hrun; intros; congruence.
  - by exists ts, s1.
Qed.

Lemma frame_of_index st st' n :
  frame_of st' = frame_of (set_index st n) →
  hs_index st' = n ∧ hs_messages st' = hs_messages st ∧ hs_initiator st' = hs_initiator st ∧
  hs_failed st' = hs_failed st ∧ hs_split st' = hs_split st ∧ hs_psk st' = hs_psk st.
Proof. unfold frame_of. cbn. intros Hfr. by injection Hfr. Qed.

Lemma write_progress fresh payload st st' m :
  writeMessage fresh payload st = (st', Ok m) →
  (length m <= MAX_HANDSHAKE_MESSAGE_BYTES)%nat ∧ hs_initiator st = Nat.even (hs_index st) ∧
  (hs_index st < length (hs_messages st))%nat ∧ hs_failed st = false ∧
  frame_of st' = frame_of (set_index st (S (hs_index st))).
Proof.
  intros Hw. apply step_ok in Hw as (Hf & Ht & Hi & Hfr & ts & st1 & _ & Hrun & _).
  2: { intros ts. apply preserves_bind; [apply _|apply frame_write_tokens|intros parts].
       apply preserves_bind; [apply _|apply frame_symmetric|intros last].
       cbn zeta. case_decide; preserve. }
  apply bind_ok_inv in Hrun as (parts & s1 & _ & Hrun).
  apply bind_ok_inv in Hrun as (last & s2 & _ & Hrun). cbn zeta in Hrun.
  case_decide; [done|]. injection Hrun as <- <-.
  split_and!; try done; [lia|]. by destruct (hs_initiator st), (Nat.even _).
Qed.

Lemma read_progress message st st' m :
  readMessage message st = (st', Ok m) →
  (length message <= MAX_HANDSHAKE_MESSAGE_BYTES)%nat ∧
  hs_initiator st = negb (Nat.even (hs_index st)) ∧
  (hs_index st < length (hs_messages st))%nat ∧ hs_failed st = false ∧
  frame_of st' = frame_of (set_index st (S (hs_index st))).
Proof.
  intros Hr. apply step_ok in Hr as (Hf & Ht & Hi & Hfr & ts & st1 & _ & Hrun & _).
  2: { intros ts. case_decide; preserve. apply frame_read_tokens. }
  case_decide; [done|].
  split_and!; try done; [lia|]. by destruct (hs_initiator st), (Nat.even _).
Qed.

(** Reading the tokens of a message that carries a static key sets the remote one. *)
Definition keeps_rs (st st' : HandshakeState) : Prop := is_Some (hs_rs st) → is_Some (hs_rs st').

#[local] Instance keeps_rs_preorder : PreOrder keeps_rs.
Proof. split; unfold keeps_rs; naive_solver. Qed.

Lemma rs_symmetric {A} (m : M SymmetricState exn A) : preserves keeps_rs (symmetric m).
Proof. intros st. unfold symmetric, zoom, keeps_rs. by destruct (m (hs_symmetric st)). Qed.

#[local] Hint Resolve rs_symmetric : stim.

Lemma rs_read_token message t offset : preserves keeps_rs (read_token message t offset).
Proof. unfold read_token, mixEphemeral, mixToken. preserve; unfold keeps_rs; cbn; eauto. Qed.

#[local] Hint Resolve rs_read_token : stim.

Lemma rs_read_tokens message ts offset : preserves keeps_rs (read_tokens message ts offset).
Proof. revert offset. induction ts as [|t ts IH]; intros offset; cbn [read_tokens]; preserve. Qed.

Lemma read_tokens_rs message ts offset st st' n :
  read_tokens message ts offset st = (st', Ok n) → S_ ∈ ts → is_Some (hs_rs st').
Proof.
  revert offset st. induction ts as [|t ts IH]; intros offset st Hr Hin; [by apply not_elem_of_nil in Hin|].
  cbn [read_tokens] in Hr. apply bind_ok_inv in Hr as (o1 & st1 & Ht & Hr).
  apply elem_of_cons in Hin as [<-|Hin]; [|by eapply IH].
  pose proof (rs_read_tokens message ts o1 st1) as Hk. rewrite Hr in Hk. apply Hk.
  unfold read_token in Ht. apply bind_ok_inv in Ht as (? & ? & _ & Ht).
  apply bind_ok_inv in Ht as ([] & ? & _ & Ht). apply bind_ok_inv in Ht as (? & ? & _ & Ht).
  injection Ht as <- <-. by eexists.
Qed.

Lemma read_sets_rs message st st' m ts :
  readMessage message st = (st', Ok m) → hs_messages st !! hs_index st = Some ts → S_ ∈ ts →
  is_Some (remoteStaticPublicKey st').
Proof.
  intros Hr Hts Hin. destruct (read_progress _ _ _ _ Hr) as (_ & _ & _ & Hf & Hfr).
  apply frame_of_index in Hfr as (_ & _ & _ & Hf' & _).
  unfold remoteStaticPublicKey. rewrite Hf', Hf.
  apply step_ok in Hr as (_ & _ & _ & _ & ts' & st1 & Hts' & Hrun & ->).
  2: { intros ts'. case_decide; preserve. apply frame_read_tokens. }
  case_decide; [done|]. apply bind_ok_inv in Hrun as (n & s1 & Ht & Hrun).
  pose proof (rs_symmetric (decryptAndHash (subarray_from n message)) s1) as Hk.
  rewrite Hrun in Hk. apply Hk. eapply read_tokens_rs; [exact Ht|naive_solver].
Qed.

(** Writing a message leaves the remote static key. *)
Definition same_rs (st st' : HandshakeState) : Prop := hs_rs st' = hs_rs st.

#[local] Instance same_rs_preorder : PreOrder same_rs.
Proof. split; unfold same_rs; [done|]. intros x y z -> ->. done. Qed.

Lemma same_rs_symmetric {A} (m : M SymmetricState exn A) : preserves same_rs (symmetric m).
Proof. intros st. unfold symmetric, zoom, same_rs. by destruct (m (hs_symmetric st)). Qed.
#[local] Hint Resolve same_rs_symmetric : stim.

Lemma same_rs_write_tokens fresh ts : preserves same_rs (write_tokens fresh ts).
Proof. induction ts as [|t ts IH]; cbn [write_tokens]; unfold write_token, mixEphemeral, mixToken; preserve. Qed.

Lemma write_keeps_remote fresh payload st st' m :
  writeMessage fresh payload st = (st', Ok m) → remoteStaticPublicKey st' = remoteStaticPublicKey st.
Proof.
  intros Hw. destruct (write_progress _ _ _ _ _ Hw) as (_ & _ & _ & _ & Hfr).
  apply frame_of_index in Hfr as (_ & _ & _ & Hf & _).
  apply step_ok in Hw as (_ & _ & _ & _ & ts & st1 & _ & Hrun & ->).
  2: { intros ts. apply preserves_bind; [apply _|apply frame_write_tokens|intros parts].
       apply preserves_bind; [apply _|apply frame_symmetric|intros last].
       cbn zeta. case_decide; preserve. }
  apply bind_ok_inv in Hrun as (parts & s1 & Ht & Hrun). apply bind_ok_inv in Hrun as (last & s2 & Hl & Hrun).
  cbn zeta in Hrun. case_decide; [done|]. injection Hrun as <- _.
  pose proof (same_rs_write_tokens fresh ts st) as H1. pose proof (same_rs_symmetric (encryptAndHash payload) s1) as H2.
  rewrite Ht in H1. rewrite Hl in H2. unfold same_rs in *. cbn in H1, H2.
  unfold remoteStaticPublicKey. rewrite Hf. cbn. by rewrite H2, H1.
Qed.

(** Turns, sizes and progress. A message is written only on this side's turn (the initiator
    writes at even positions), is at most 1024 bytes, and moves the handshake exactly one
    message forward; a message is read only on the peer's turn and only if it is at most 1024
    bytes, with the same effect. The handshake thus ends after as many messages as the pattern
    has. *)
Theorem handshake_progress st st' m :
  (∀ fresh payload, writeMessage fresh payload st = (st', Ok m) →
     (length m <= MAX_HANDSHAKE_MESSAGE_BYTES)%nat ∧ hs_initiator st = Nat.even (hs_index st) ∧
     hs_index st' = S (hs_index st) ∧ (hs_index st' <= length (hs_messages st'))%nat ∧
     hs_failed st' = false) ∧
  (∀ message, readMessage message st = (st', Ok m) →
     (length message <= MAX_HANDSHAKE_MESSAGE_BYTES)%nat ∧
     hs_initiator st = negb (Nat.even (hs_index st)) ∧
     hs_index st' = S (hs_index st) ∧ (hs_index st' <= length (hs_messages st'))%nat ∧
     hs_failed st' = false).
Proof.
  split; intros.
  - match goal with Hw : writeMessage _ _ _ = _ |- _ =>
      apply write_progress in Hw as (Hl & Ht & Hi & Hf & Hfr) end.
    apply frame_of_index in Hfr as (Hi' & Hm & Hin & Hf' & _). rewrite Hm.
    split_and!; congruence || lia.
  - match goal with Hr : readMessage _ _ = _ |- _ =>
      apply read_progress in Hr as (Hl & Ht & Hi & Hf & Hfr) end.
    apply frame_of_index in Hfr as (Hi' & Hm & Hin & Hf' & _). rewrite Hm.
    split_and!; congruence || lia.
Qed.

End Progress.

Lemma handshake_progress_witness :
  ∃ st' m, writeMessage (Toy.pair_of 3) (ascii "hi")
    (side NOISE_XX (Toy.pair_of 1) (Toy.pair_of 2) None None None true None None None 0
       (sym0 NOISE_XX (ascii "p"))) = (st', Ok m) ∧
    (length m <= MAX_HANDSHAKE_MESSAGE_BYTES)%nat ∧ hs_index st' = 1%nat.
Proof.
  pose (st := side NOISE_XX (Toy.pair_of 1) (Toy.pair_of 2) None None None true None None None 0
    (sym0 NOISE_XX (ascii "p"))).
  destruct (message_1 NOISE_XX (ascii "p") (Toy.pair_of 1) (Toy.pair_of 2) (Toy.pair_of 3)
    (Toy.pair_of 4) None None None (ascii "hi")) as (s1 & m1 & Hw & _).
  - exact I.
  - repeat split; reflexivity.
  - vm_compute. lia.
  - exists (side NOISE_XX (Toy.pair_of 1) (Toy.pair_of 2) None None None true
      (Some (Toy.pair_of 3)) None None 1 s1), m1.
    destruct (proj1 (handshake_progress _ _ _) _ _ Hw) as (Hl & _ & Hi & _).
    split; [exact Hw|]. split; [exact Hl|exact Hi].
Defined.
