(* ===== verification/NoiseSession.v ===== *)
(** * Sessions over Noise: [packages/core/noise-session.ts]

    Secrets, the cleartext prefix, the client and the server side of the handshake as
    handlers of socket events, the encrypted socket, and the framing of an offload
    job's pipe. The raw WebSocket is what the handlers see of it, its [readyState], and
    what they do to it, a list of effects. JSON is the parameter [NodeText]. *)

From Stdlib Require Import ZArith Lia.
From stdpp Require Import pretty.
From S2P Require Import Prelude.
From S2P Require Import Bytes.
From S2P Require Import Json.
From S2P Require Import Noise.
Open Scope Z_scope.

(** ** Constants *)

Definition STIM_PROTOCOL_VERSION : byte := byte_of_Z 2.
Definition SECRET_BYTES : nat := 32.
Definition LOOKUP_BYTES : nat := 16.
Definition MAX_CLIENT_MESSAGE_BYTES : Z := 64 * 1024.
Definition MAX_SERVER_MESSAGE_BYTES : Z := 16 * 1024 * 1024.
Definition MAX_PREFIX_BYTES : nat := 2 + LOOKUP_BYTES.
Definition MAX_FIRST_MESSAGE_BYTES : nat := MAX_PREFIX_BYTES + MAX_HANDSHAKE_MESSAGE_BYTES.
Definition MAX_HELD_MESSAGES : nat := 64.
Definition CLOSE_REFUSED : Z := 4401.
Definition CLOSE_BAD_REQUEST : Z := 4400.
Definition PROLOGUE : bytes := ascii "stim noise v1".

Inductive HandshakeMode := MODE_RETURNING | MODE_FIRST_CONTACT.

Definition mode_byte (m : HandshakeMode) : byte :=
  match m with MODE_RETURNING => byte_of_Z 0 | MODE_FIRST_CONTACT => byte_of_Z 1 end.

(** ** Secrets *)

(** The base64url alphabet: the 6-bit value of a character and the character of a value. *)
Definition sextet_of_char (c : Z) : option Z :=
  if (65 <=? c) && (c <=? 90) then Some (c - 65)
  else if (97 <=? c) && (c <=? 122) then Some (c - 71)
  else if (48 <=? c) && (c <=? 57) then Some (c + 4)
  else if c =? 45 then Some 62
  else if c =? 95 then Some 63
  else None.

Definition char_of_sextet (v : Z) : Z :=
  if v <? 26 then v + 65
  else if v <? 52 then v + 71
  else if v <? 62 then v - 4
  else if v =? 62 then 45 else 95.

(** [buffer.toString('base64url')]: no padding. *)
Fixpoint base64url (b : bytes) : units :=
  match b with
  | [] => []
  | [x] =>
      let x := Z_of_byte x in
      [char_of_sextet (x / 4); char_of_sextet (x mod 4 * 16)]
  | [x; y] =>
      let x := Z_of_byte x in let y := Z_of_byte y in
      [char_of_sextet (x / 4); char_of_sextet (x mod 4 * 16 + y / 16);
       char_of_sextet (y mod 16 * 4)]
  | x :: y :: z :: b =>
      let x := Z_of_byte x in let y := Z_of_byte y in let z := Z_of_byte z in
      char_of_sextet (x / 4) :: char_of_sextet (x mod 4 * 16 + y / 16) ::
      char_of_sextet (y mod 16 * 4 + z / 64) :: char_of_sextet (z mod 64) :: base64url b
  end.

(** [Buffer.from(text, 'base64url')] on the sextets of characters of the alphabet: whole groups
    of four, then the whole bytes of a shorter last group. *)
Fixpoint bytes_of_sextets (s : list Z) : bytes :=
  match s with
  | a :: b :: c :: d :: s =>
      byte_of_Z (a * 4 + b / 16) :: byte_of_Z (b mod 16 * 16 + c / 4) ::
      byte_of_Z (c mod 4 * 64 + d) :: bytes_of_sextets s
  | [a; b; c] => [byte_of_Z (a * 4 + b / 16); byte_of_Z (b mod 16 * 16 + c / 4)]
  | [a; b] => [byte_of_Z (a * 4 + b / 16)]
  | _ => []
  end.

(** [newSecret], of the 32 bytes [randomBytes] returns. *)
Definition newSecret (random : bytes) : units := base64url random.

(** [SECRET_PATTERN] admits 43 characters of the alphabet; the sextets are those of the text. *)
Definition decodeSecret (text : units) : option bytes :=
  if negb (bool_decide (length text = 43%nat)) then None
  else
    match mapM sextet_of_char text with
    | None => None
    | Some sextets =>
        let decoded := bytes_of_sextets sextets in
        if decide (length decoded = SECRET_BYTES ∧ base64url decoded = text)
        then Some decoded else None
    end.

Definition hex_digit (v : Z) : Z := if v <? 10 then v + 48 else v + 87.

(** [buffer.toString('hex')]. *)
Definition hex (b : bytes) : units :=
  concat (map (fun x => [hex_digit (Z_of_byte x / 16); hex_digit (Z_of_byte x mod 16)]) b).

Record SecretValues := { sv_psk : bytes; sv_lookup : bytes; sv_journal : units }.

Section Secrets.
Context `{!NodeCrypto}.

Definition secretValues (secret : bytes) : result exn SecretValues :=
  if decide (length secret ≠ SECRET_BYTES)
  then Throw (RangeError "A pairing token or setup ticket is 32 bytes")
  else Ok {| sv_psk := sha256 [ascii "stim noise psk v1"; secret];
             sv_lookup := subarray 0 LOOKUP_BYTES (sha256 [ascii "stim noise lookup v1"; secret]);
             sv_journal := hex (sha256 [ascii "stim setup journal v1"; secret]) |}.

Definition keyFingerprint (publicKey : bytes) : units := base64url (sha256 [publicKey]).

End Secrets.

(** ** The first message *)

Definition handshakePrefix (mode : HandshakeMode) (lookup : option bytes) : result exn bytes :=
  match mode, lookup with
  | MODE_FIRST_CONTACT, None | MODE_RETURNING, Some _ =>
      Throw (TypeError "Only first contact sends lookup")
  | _, Some l =>
      if decide (length l ≠ LOOKUP_BYTES) then Throw (RangeError "lookup is 16 bytes")
      else Ok ([STIM_PROTOCOL_VERSION; mode_byte mode] ++ l)
  | _, None => Ok [STIM_PROTOCOL_VERSION; mode_byte mode]
  end.

Inductive ParsedFirstMessage :=
| ParsedReturning (prefix message : bytes)
| ParsedFirstContact (prefix lookup message : bytes)
| ParsedError (error : string).

Definition parseFirstMessage (data : bytes) : ParsedFirstMessage :=
  if bool_decide (data !! 0%nat ≠ Some STIM_PROTOCOL_VERSION)
  then ParsedError "protocol-unsupported"
  else if bool_decide (MAX_FIRST_MESSAGE_BYTES < length data)%nat
  then ParsedError "handshake-failed"
  else if bool_decide (data !! 1%nat = Some (mode_byte MODE_RETURNING))
  then ParsedReturning (subarray 0 2 data) (subarray_from 2 data)
  else if bool_decide (data !! 1%nat = Some (mode_byte MODE_FIRST_CONTACT)) &&
          bool_decide (MAX_PREFIX_BYTES <= length data)%nat
  then ParsedFirstContact (subarray 0 MAX_PREFIX_BYTES data) (subarray 2 MAX_PREFIX_BYTES data)
         (subarray_from MAX_PREFIX_BYTES data)
  else ParsedError "handshake-failed".

Definition handshakePrologue (prefix : bytes) : bytes := PROLOGUE ++ prefix.

(** ** [NoiseSocket] *)

(** What the session does to the raw WebSocket, and what it emits or calls back. *)
Inductive Effect :=
| RawSend (data : bytes)
| RawSendText (text : units)
| RawClose (code : option Z) (reason : option units)
| RawTerminate
| RawPing
| RawPause
| RawResume
| EmitMessage (data : bytes) (binary : bool)
| EmitClose (code : Z) (reason : bytes)
| EmitError (text : units)
| EmitPong
| CallbackError (e : exn)
(** An exception that leaves an event handler. *)
| Uncaught (e : exn).

Definition OPEN : Z := 1.

Record NoiseSocket := {
  so_transport : NoiseTransport;
  so_remoteKey : bytes;
  (** [None] once a listener of [message] was added. *)
  so_held : option (list (bytes * bool));
}.

Definition new_NoiseSocket (transport : NoiseTransport) (remoteKey : bytes) : NoiseSocket :=
  {| so_transport := transport; so_remoteKey := remoteKey; so_held := Some [] |}.

Definition so_set_transport (t : NoiseTransport) (s : NoiseSocket) : NoiseSocket :=
  {| so_transport := t; so_remoteKey := so_remoteKey s; so_held := so_held s |}.
Definition so_set_held (h : option (list (bytes * bool))) (s : NoiseSocket) : NoiseSocket :=
  {| so_transport := so_transport s; so_remoteKey := so_remoteKey s; so_held := h |}.

Section Socket.
Context `{!NodeCrypto, !NodeText}.

Definition message_event (m : NoiseMessage) : bytes * bool :=
  match m with Text s => (utf8_encode s, false) | Binary b => (b, true) end.

(** The listener of the raw socket's [message]. *)
Definition on_raw_message (data : bytes) (isBinary : bool) (s : NoiseSocket) :
    NoiseSocket * list Effect :=
  if negb isBinary then (s, [RawClose (Some CLOSE_BAD_REQUEST) (Some (js "handshake-failed"))])
  else
    let '(t, r) := decrypt data (so_transport s) in
    let s := so_set_transport t s in
    match r with
    | Throw _ => (s, [RawClose (Some CLOSE_BAD_REQUEST) (Some (js "decrypt-failed"))])
    | Ok message =>
        let event := message_event message in
        match so_held s with
        | None => (s, [EmitMessage (fst event) (snd event)])
        | Some held =>
            if decide (MAX_HELD_MESSAGES <= length held)%nat
            then (s, [RawClose (Some 1008) (Some (js "too many messages"))])
            else (so_set_held (Some (held ++ [event])) s, [])
        end
    end.

(** The [newListener] listener. The held messages are emitted by a microtask, so before the
    event loop delivers anything else: they are the effects of the addition. *)
Definition on_new_listener (event : string) (s : NoiseSocket) : NoiseSocket * list Effect :=
  match so_held s with
  | Some held =>
      if decide (event = "message")
      then (so_set_held None s, map (fun each => EmitMessage (fst each) (snd each)) held)
      else (s, [])
  | None => (s, [])
  end.

Definition on_raw_close (code : Z) (reason : bytes) (s : NoiseSocket) : NoiseSocket * list Effect :=
  (s, [EmitClose code reason]).

Definition on_raw_error (listeners : nat) (text : units) (s : NoiseSocket) :
    NoiseSocket * list Effect :=
  (s, if decide (listeners = 0%nat) then [] else [EmitError text]).

Definition on_raw_pong (s : NoiseSocket) : NoiseSocket * list Effect := (s, [EmitPong]).

(** [send]: [binary] is the option of that name; the callback's error is an effect. *)
Definition socket_send (readyState : Z) (data : NoiseMessage) (binary : option bool)
    (s : NoiseSocket) : NoiseSocket * list Effect :=
  if negb (readyState =? OPEN)
  then (s, [CallbackError (JsError "The connection is not open")])
  else
    let data :=
      match data, binary with
      | Binary b, Some false => Text (buffer_toString b)
      | _, _ => data
      end in
    let '(t, r) := encrypt data (so_transport s) in
    let s := so_set_transport t s in
    match r with
    | Ok frame => (s, [RawSend frame])
    | Throw e =>
        let code := match e with RangeError _ => 1009 | _ => 1011 end in
        (s, [RawClose (Some code) (Some (js "message not sent")); CallbackError e])
    end.

(** The methods that only forward to the raw socket. *)
Definition socket_close (code : option Z) (reason : option units) : list Effect :=
  [RawClose code reason].
Definition socket_terminate : list Effect := [RawTerminate].
Definition socket_ping : list Effect := [RawPing].
Definition socket_pause : list Effect := [RawPause].
Definition socket_resume : list Effect := [RawResume].

End Socket.

(** ** Refusals *)

Definition HOME_UNAVAILABLE_MESSAGE : units :=
  js "The machine cannot read its Stim home, usually because the disk that holds it is disconnected or not responding. It serves clients again once the Stim home answers.".

Definition REFUSAL_MESSAGES : list (units * units) :=
  [(js "unknown-secret",
    js "The machine does not know this pairing token or setup ticket yet, or it expired.");
   (js "home-unavailable", HOME_UNAVAILABLE_MESSAGE);
   (js "unauthorized", js "The machine does not recognize this client. Pair again.");
   (js "protocol-unsupported",
    js "The machine speaks another stim-server protocol. Update it and this client, then pair again.");
   (js "handshake-failed", js "The authentication handshake failed.");
   (js "server-key-mismatch",
    js "The machine answered with a different server key than the one pinned at pairing. Pair again.")].

(** [REFUSAL_MESSAGES[code]], for the table's own keys. *)
Definition refusal_message (code : units) : option units :=
  snd <$> find (fun entry => bool_decide (fst entry = code)) REFUSAL_MESSAGES.

Record HandshakeRefusal := { hr_code : units; hr_message : units }.

(** A promise: pending, or settled for good with a value, a refusal, or the exception that left
    its executor. *)
Inductive Outcome (A : Type) :=
| Pending
| Resolved (a : A)
| Rejected (refusal : HandshakeRefusal)
| RejectedWith (e : exn).
Arguments Pending {A}.
Arguments Resolved {A} a.
Arguments Rejected {A} refusal.
Arguments RejectedWith {A} e.

(** [resolve] and [reject] do nothing once the promise is settled. *)
Definition settle {A} (o new : Outcome A) : Outcome A :=
  match o with Pending => new | _ => o end.

(** [raw.send] of a [ws] socket throws only while it connects. *)
Definition CONNECTING : Z := 0.
Definition raw_send (readyState : Z) (effect : Effect) : result exn (list Effect) :=
  if readyState =? CONNECTING
  then Throw (JsError "WebSocket is not open: readyState 0 (CONNECTING)")
  else Ok [effect].

Definition close_if_open (readyState code : Z) (reason : units) : list Effect :=
  if readyState =? OPEN then [RawClose (Some code) (Some reason)] else [].

(** ** [initiateNoise], the client *)

Record InitiateOptions := {
  io_keyPair : NoiseKeyPair;
  io_serverKey : option bytes;
  io_secret : option bytes;
  io_name : option units;
  io_acceptServerKey : option (bytes → bool);
  io_maxSendBytes : option Z;
  io_maxReceiveBytes : option Z;
}.

(** [cl_armed] is whether the timer and the three listeners are still installed. *)
Record Client := {
  cl_options : InitiateOptions;
  cl_handshake : HandshakeState;
  cl_armed : bool;
  cl_outcome : Outcome NoiseSocket;
}.

Definition cl_set_handshake (h : HandshakeState) (c : Client) : Client :=
  {| cl_options := cl_options c; cl_handshake := h; cl_armed := cl_armed c;
     cl_outcome := cl_outcome c |}.
Definition cl_disarm (c : Client) : Client :=
  {| cl_options := cl_options c; cl_handshake := cl_handshake c; cl_armed := false;
     cl_outcome := cl_outcome c |}.
Definition cl_settle (o : Outcome NoiseSocket) (c : Client) : Client :=
  {| cl_options := cl_options c; cl_handshake := cl_handshake c; cl_armed := cl_armed c;
     cl_outcome := settle (cl_outcome c) o |}.

Section Initiate.
Context `{!NodeCrypto, !NodeText}.

Definition client_fail (readyState : Z) (code : units) (detail : option units) (c : Client) :
    Client * list Effect :=
  let message :=
    match detail with
    | Some d => d
    | None => default (js "The machine refused the connection (" ++ code ++ js ").")
                      (refusal_message code)
    end in
  (cl_settle (Rejected {| hr_code := code; hr_message := message |}) (cl_disarm c),
   close_if_open readyState CLOSE_REFUSED code).

(** [JSON.parse(...).error], when its [code] and [message] are strings. *)
Definition plaintextRefusal (data : bytes) : option (units * units) :=
  message ← JSON_parse (buffer_toString data);
  error ← field "error" message;
  match field "code" error, field "message" error with
  | Some (JString code), Some (JString text) => Some (code, text)
  | _, _ => None
  end.

(** Whether the server's key is refused: the pinned key decides when there is one. *)
Definition key_refused (options : InitiateOptions) (serverKey : bytes) : bool :=
  match io_serverKey options with
  | Some pinned => negb (bool_decide (serverKey = pinned))
  | None =>
      match io_acceptServerKey options with
      | Some accept => negb (accept serverKey)
      | None => false
      end
  end.

(** The last lines of the message listener: send message 3, split, resolve. *)
Definition client_finish (readyState : Z) (serverKey message3 : bytes) (c : Client) :
    Client * list Effect :=
  match raw_send readyState (RawSend message3) with
  | Throw e => (c, [Uncaught e])
  | Ok sent =>
      let '(h, r) := split (cl_handshake c) in
      let c := cl_set_handshake h c in
      match
        '(send, receive) ← r;
        new_NoiseTransport send receive
          (default MAX_CLIENT_MESSAGE_BYTES (io_maxSendBytes (cl_options c)))
          (default MAX_SERVER_MESSAGE_BYTES (io_maxReceiveBytes (cl_options c)))
      with
      | Throw e => (c, sent ++ [Uncaught e])
      | Ok transport => (cl_settle (Resolved (new_NoiseSocket transport serverKey)) c, sent)
      end
  end.

Definition client_payload (options : InitiateOptions) : bytes :=
  match io_secret options with
  | Some _ => utf8_encode (JSON_stringify
                (JObject [(js "name", JString (default [] (io_name options)))]))
  | None => []
  end.

Definition client_on_message (readyState : Z) (fresh : NoiseKeyPair) (data : bytes)
    (isBinary : bool) (c : Client) : Client * list Effect :=
  if negb (cl_armed c) then (c, [])
  else if negb isBinary then
    match plaintextRefusal data with
    | Some (code, text) => client_fail readyState code (Some text) c
    | None => client_fail readyState (js "handshake-failed") None c
    end
  else
    let '(h, r) := readMessage data (cl_handshake c) in
    let c := cl_set_handshake h c in
    match r with
    | Throw _ | Ok (_ :: _) => client_fail readyState (js "handshake-failed") None c
    | Ok [] =>
        match remoteStaticPublicKey h with
        | None => (c, [Uncaught (TypeError "Cannot read properties of undefined")])
        | Some serverKey =>
            if key_refused (cl_options c) serverKey
            then client_fail readyState (js "server-key-mismatch") None c
            else
              let '(h, r) := writeMessage fresh (client_payload (cl_options c)) h in
              let c := cl_set_handshake h c in
              match r with
              | Throw _ => client_fail readyState (js "handshake-failed") None c
              | Ok message3 => client_finish readyState serverKey message3 (cl_disarm c)
              end
        end
    end.

Definition client_on_close (readyState code : Z) (reason : bytes) (c : Client) :
    Client * list Effect :=
  if negb (cl_armed c) then (c, [])
  else
    match buffer_toString reason with
    | [] => client_fail readyState (js "closed")
              (Some (js "The connection closed during the handshake (" ++ js (pretty code)
                     ++ js ").")) c
    | text => client_fail readyState text None c
    end.

Definition client_on_error (readyState : Z) (text : units) (c : Client) : Client * list Effect :=
  if negb (cl_armed c) then (c, []) else client_fail readyState (js "closed") (Some text) c.

Definition client_on_timeout (readyState : Z) (c : Client) : Client * list Effect :=
  if negb (cl_armed c) then (c, [])
  else client_fail readyState (js "timeout")
         (Some (js "The machine did not finish the handshake in time.")) c.

(** [initiateNoise]: the synchronous part throws; the promise's executor sends message 1. *)
Definition initiateNoise (readyState : Z) (fresh : NoiseKeyPair) (options : InitiateOptions) :
    result exn (Client * list Effect) :=
  if bool_decide (io_secret options = None ∧ io_serverKey options = None)
  then Throw (TypeError "A returning client pins the server key")
  else
    values ← match io_secret options with
             | Some secret => v ← secretValues secret; Ok (Some v)
             | None => Ok None
             end;
    prefix ← match values with
             | Some v => handshakePrefix MODE_FIRST_CONTACT (Some (sv_lookup v))
             | None => handshakePrefix MODE_RETURNING None
             end;
    handshake ← new_HandshakeState
      {| opt_protocol := match values with Some _ => NOISE_XX_PSK2 | None => NOISE_XX end;
         opt_initiator := true;
         opt_prologue := handshakePrologue prefix;
         opt_staticKeyPair := io_keyPair options;
         opt_psk := sv_psk <$> values;
         opt_ephemeralKeyPair := None;
         opt_dh := None |};
    let client h := {| cl_options := options; cl_handshake := h; cl_armed := true;
                       cl_outcome := Pending |} in
    let '(h, r) := writeMessage fresh [] handshake in
    match message1 ← r; raw_send readyState (RawSend (prefix ++ message1)) with
    | Ok sent => Ok (client h, sent)
    | Throw _ => Ok (client_fail readyState (js "handshake-failed") None (client h))
    end.

End Initiate.

(** ** [acceptNoise], the server *)

Record AcceptedHandshake := {
  ah_socket : NoiseSocket;
  ah_mode : HandshakeMode;
  ah_lookup : option units;
  ah_clientKey : bytes;
  ah_payload : bytes;
}.

(** What the [psk] callback does: a PSK, null, a [HandshakeRefusal], another exception. *)
Inductive PskResult :=
| PskFound (psk : bytes)
| PskNone
| PskRefusal (code : units)
| PskThrows (e : exn).

Record AcceptOptions := {
  ao_keyPair : NoiseKeyPair;
  ao_psk : units → PskResult;
  ao_dh : option NoiseDh;
  ao_maxSendBytes : option Z;
  ao_maxReceiveBytes : option Z;
}.

(** [sv_armed] is whether the timer and the close listener are installed, [sv_listening] whether
    the message listener is. *)
Record Server := {
  sv_options : AcceptOptions;
  sv_handshake : option HandshakeState;
  sv_parsed : option ParsedFirstMessage;
  sv_armed : bool;
  sv_listening : bool;
  sv_outcome : Outcome AcceptedHandshake;
}.

Section ServerSetters.
Variable s : Server.

Definition sv_set_handshake (h : HandshakeState) : Server :=
  {| sv_options := sv_options s; sv_handshake := Some h; sv_parsed := sv_parsed s;
     sv_armed := sv_armed s; sv_listening := sv_listening s; sv_outcome := sv_outcome s |}.
Definition sv_set_parsed (p : ParsedFirstMessage) : Server :=
  {| sv_options := sv_options s; sv_handshake := sv_handshake s; sv_parsed := Some p;
     sv_armed := sv_armed s; sv_listening := sv_listening s; sv_outcome := sv_outcome s |}.
Definition sv_disarm : Server :=
  {| sv_options := sv_options s; sv_handshake := sv_handshake s; sv_parsed := sv_parsed s;
     sv_armed := false; sv_listening := false; sv_outcome := sv_outcome s |}.
Definition sv_listen : Server :=
  {| sv_options := sv_options s; sv_handshake := sv_handshake s; sv_parsed := sv_parsed s;
     sv_armed := sv_armed s; sv_listening := true; sv_outcome := sv_outcome s |}.
Definition sv_settle (o : Outcome AcceptedHandshake) : Server :=
  {| sv_options := sv_options s; sv_handshake := sv_handshake s; sv_parsed := sv_parsed s;
     sv_armed := sv_armed s; sv_listening := sv_listening s;
     sv_outcome := settle (sv_outcome s) o |}.

End ServerSetters.

Definition PROTOCOL_UNSUPPORTED_MESSAGE : units :=
  js "This stim-server speaks protocol 2, with its own authentication. Update this app or Stim, then pair again.".

Section Accept.
Context `{!NodeCrypto, !NodeText}.

Definition refuse (readyState : Z) (code : units) (closeCode : Z) (s : Server) :
    Server * list Effect :=
  (sv_settle (sv_disarm s)
     (Rejected {| hr_code := code; hr_message := default code (refusal_message code) |}),
   close_if_open readyState closeCode code).

Definition parsed_mode (p : ParsedFirstMessage) : HandshakeMode :=
  match p with ParsedFirstContact _ _ _ => MODE_FIRST_CONTACT | _ => MODE_RETURNING end.
Definition parsed_lookup (p : ParsedFirstMessage) : option units :=
  match p with ParsedFirstContact _ lookup _ => Some (hex lookup) | _ => None end.

Definition server_on_close (readyState : Z) (s : Server) : Server * list Effect :=
  if sv_armed s then refuse readyState (js "closed") CLOSE_REFUSED s else (s, []).

Definition server_on_timeout (readyState : Z) (s : Server) : Server * list Effect :=
  if sv_armed s then refuse readyState (js "timeout") CLOSE_REFUSED s else (s, []).

(** The listener of message 3. *)
Definition server_on_message (readyState : Z) (data : bytes) (binary : bool) (s : Server) :
    Server * list Effect :=
  if negb (sv_listening s) then (s, [])
  else
    match sv_handshake s, sv_parsed s, binary with
    | Some h, Some parsed, true =>
        match readMessage data h with
        | (h, Throw _) =>
            refuse readyState (js "handshake-failed") CLOSE_REFUSED (sv_set_handshake s h)
        | (h, Ok payload) =>
            let s := sv_disarm s in
            let '(h, r) := split h in
            let s := sv_set_handshake s h in
            match
              '(send, receive) ← r;
              transport ← new_NoiseTransport send receive
                (default MAX_SERVER_MESSAGE_BYTES (ao_maxSendBytes (sv_options s)))
                (default MAX_CLIENT_MESSAGE_BYTES (ao_maxReceiveBytes (sv_options s)));
              match remoteStaticPublicKey h with
              | Some clientKey => Ok (transport, clientKey)
              | None => Throw (TypeError "Cannot read properties of undefined")
              end
            with
            | Throw e => (s, [Uncaught e])
            | Ok (transport, clientKey) =>
                (sv_settle s (Resolved
                   {| ah_socket := new_NoiseSocket transport clientKey;
                      ah_mode := parsed_mode parsed; ah_lookup := parsed_lookup parsed;
                      ah_clientKey := clientKey; ah_payload := payload |}), [])
            end
        end
    | _, _, _ => refuse readyState (js "handshake-failed") CLOSE_REFUSED s
    end.

(** The reply to a text first message. *)
Definition unsupported_reply (first : bytes) : json :=
  let id :=
    match JSON_parse (buffer_toString first) ≫= field "id" with
    | Some (JNumber n) => JNumber n
    | Some (JDouble bits) => JDouble bits
    | Some (JString text) => JString text
    | _ => JNull
    end in
  JObject [(js "id", id);
           (js "error", JObject [(js "code", JString (js "protocol-unsupported"));
                                 (js "message", JString PROTOCOL_UNSUPPORTED_MESSAGE)])].

(** The executor from [new HandshakeState] on. [None] for the PSK is the returning mode. *)
Definition accept_handshake (readyState : Z) (fresh : NoiseKeyPair) (prefix message : bytes)
    (psk : option bytes) (s : Server) : Server * list Effect :=
  match new_HandshakeState
          {| opt_protocol := match psk with Some _ => NOISE_XX_PSK2 | None => NOISE_XX end;
             opt_initiator := false;
             opt_prologue := handshakePrologue prefix;
             opt_staticKeyPair := ao_keyPair (sv_options s);
             opt_psk := psk;
             opt_ephemeralKeyPair := None;
             opt_dh := ao_dh (sv_options s) |} with
  | Throw (NoiseError _) => refuse readyState (js "handshake-failed") CLOSE_REFUSED s
  | Throw e => (sv_settle s (RejectedWith e), [])
  | Ok h =>
      let fails (h : HandshakeState) (e : exn) :=
        match e with
        | NoiseError _ =>
            refuse readyState (js "handshake-failed") CLOSE_REFUSED (sv_set_handshake s h)
        | _ => (sv_settle (sv_set_handshake s h) (RejectedWith e), [])
        end in
      match readMessage message h with
      | (h, Throw e) => fails h e
      | (h, Ok (_ :: _)) =>
          refuse readyState (js "handshake-failed") CLOSE_REFUSED (sv_set_handshake s h)
      | (h, Ok []) =>
          let '(h, r) := writeMessage fresh [] h in
          match message2 ← r; raw_send readyState (RawSend message2) with
          | Ok sent => (sv_listen (sv_set_handshake s h), sent)
          | Throw e => fails h e
          end
      end
  end.

Definition acceptNoise (readyState : Z) (fresh : NoiseKeyPair) (first : bytes) (isBinary : bool)
    (options : AcceptOptions) : Server * list Effect :=
  let s := {| sv_options := options; sv_handshake := None; sv_parsed := None; sv_armed := true;
              sv_listening := false; sv_outcome := Pending |} in
  if negb isBinary then
    let sent := if readyState =? OPEN
                then [RawSendText (JSON_stringify (unsupported_reply first))] else [] in
    let '(s, effects) := refuse readyState (js "protocol-unsupported") CLOSE_BAD_REQUEST s in
    (s, sent ++ effects)
  else
    match parseFirstMessage first with
    | ParsedError error =>
        refuse readyState (js error)
          (if decide (error = "protocol-unsupported") then CLOSE_BAD_REQUEST else CLOSE_REFUSED) s
    | ParsedReturning prefix message as parsed =>
        accept_handshake readyState fresh prefix message None (sv_set_parsed s parsed)
    | ParsedFirstContact prefix lookup message as parsed =>
        let s := sv_set_parsed s parsed in
        match ao_psk options (hex lookup) with
        | PskFound psk => accept_handshake readyState fresh prefix message (Some psk) s
        | PskNone => refuse readyState (js "unknown-secret") CLOSE_REFUSED s
        | PskRefusal code => refuse readyState code CLOSE_REFUSED s
        | PskThrows e => (sv_settle s (RejectedWith e), [])
        end
    end.

End Accept.

(** ** The pipe of an offload job *)

Definition MAX_JOB_FRAME_BYTES : Z := MAX_SERVER_MESSAGE_BYTES + 1.

(** [writeUInt32BE] throws where the value takes more than 32 bits. *)
Definition jobFrame (data : bytes) (binary : bool) : result exn bytes :=
  let size := Z.of_nat (length data) + 1 in
  if 2 ^ 32 <=? size then Throw (RangeError "The value is out of range")
  else Ok (write_be 4 size ++ [if binary then BINARY else TEXT] ++ data).

(** [JobFrameReader]: its state is [#buffered]. One iteration of the loop of [push] breaks,
    throws, or takes a frame off the front. *)
Inductive FrameStep :=
| FrameBreak
| FrameThrow (e : exn)
| FrameTaken (data : bytes) (binary : bool) (buffered : bytes).

Definition next_frame (buffered : bytes) : FrameStep :=
  if decide (length buffered < 4)%nat then FrameBreak
  else
    let size := read_be (subarray 0 4 buffered) in
    if (size <? 1) || (MAX_JOB_FRAME_BYTES <? size)
    then FrameThrow (RangeError ("A job frame of " +:+ pretty size +:+ " bytes"))
    else if Z.of_nat (length buffered) <? 4 + size then FrameBreak
    else
      match buffered !! 4%nat with
      | Some type =>
          if decide (type ≠ TEXT ∧ type ≠ BINARY)
          then FrameThrow (RangeError ("A job frame of type " +:+ pretty (Z_of_byte type)))
          else
            let last := (4 + Z.to_nat size)%nat in
            FrameTaken (subarray 5 last buffered) (bool_decide (type = BINARY))
              (subarray_from last buffered)
      | None => FrameBreak
      end.

(** The loop with [fuel] iterations; a throw loses the frames collected so far. *)
Fixpoint read_frames (fuel : nat) (buffered : bytes) : bytes * result exn (list (bytes * bool)) :=
  match fuel with
  | O => (buffered, Ok [])
  | S fuel =>
      match next_frame buffered with
      | FrameBreak => (buffered, Ok [])
      | FrameThrow e => (buffered, Throw e)
      | FrameTaken data binary rest =>
          let '(rest, r) := read_frames fuel rest in
          (rest, frames ← r; Ok ((data, binary) :: frames))
      end
  end.

(** Every iteration consumes at least five bytes, so the length bounds their number. *)
Definition push (chunk : bytes) : M bytes exn (list (bytes * bool)) := fun buffered =>
  let buffered := buffered ++ chunk in read_frames (length buffered) buffered.

Definition partial (buffered : bytes) : bool := bool_decide (0 < length buffered)%nat.
