(* ===== verification/NoiseSessionFacts.v ===== *)
(** * Correctness of Noise sessions

    Secrets and the cleartext prefix survive encoding; an honest client and server end up
    with linked sockets; whatever the peer does, a client that resolves holds the key it
    pinned, both promises settle once and by the timeout, the server answers only
    messages it should, the socket hands messages over in order, and a job's pipe is split the same
    way however it is cut into chunks. *)

From Stdlib Require Import ZArith Lia.
From stdpp Require Import pretty.
From S2P Require Import Prelude.
From S2P Require Import Bytes.
From S2P Require Import Json.
From S2P Require Import Noise.
From S2P Require Import NoiseFacts.
From S2P Require Import NoiseTransportFacts.
From S2P Require Import NoiseSession.
Open Scope Z_scope.

(** ** Secrets *)

(** Linear arithmetic with division and remainder by constants. *)
Ltac div_lia := Z.div_mod_to_equations; lia.

Lemma sextet_char v : 0 <= v < 64 → sextet_of_char (char_of_sextet v) = Some v.
Proof.
  intros Hv. unfold char_of_sextet.
  repeat case_match; unfold sextet_of_char;
    repeat match goal with |- (if ?b then _ else _) = _ =>
      let H := fresh in destruct b eqn:H; [try (f_equal; lia); lia|] end; f_equal; lia.
Qed.

Lemma bytes_ind3 (P : bytes → Prop) :
  P [] → (∀ x, P [x]) → (∀ x y, P [x; y]) → (∀ x y z b, P b → P (x :: y :: z :: b)) → ∀ b, P b.
Proof.
  intros H0 H1 H2 H3 b.
  assert (P b ∧ (∀ x, P (x :: b)) ∧ (∀ x y, P (x :: y :: b))) as [? _]; [|done].
  induction b as [|x b (IH0 & IH1 & IH2)]; naive_solver.
Qed.

Lemma byte_of_Z_is b z : z = Z_of_byte b → byte_of_Z z = b.
Proof. intros ->. apply byte_of_Z_of_byte. Qed.

(** The decoder reads back what the encoder wrote. *)
Lemma base64url_sextets b :
  ∃ s, mapM sextet_of_char (base64url b) = Some s ∧ bytes_of_sextets s = b.
Proof.
  induction b as [|x|x y|x y z b (s & Hs & Hb)] using bytes_ind3.
  - by exists [].
  - pose proof (Z_of_byte_range x). cbn [base64url mapM].
    rewrite !sextet_char by div_lia. eexists. split; [reflexivity|]. cbn.
    f_equal. apply byte_of_Z_is. div_lia.
  - pose proof (Z_of_byte_range x). pose proof (Z_of_byte_range y). cbn [base64url mapM].
    rewrite !sextet_char by div_lia. eexists. split; [reflexivity|]. cbn.
    f_equal; [|f_equal]; apply byte_of_Z_is; div_lia.
  - pose proof (Z_of_byte_range x). pose proof (Z_of_byte_range y).
    pose proof (Z_of_byte_range z). cbn [base64url mapM].
    rewrite !sextet_char by div_lia. cbn. rewrite Hs. eexists. split; [reflexivity|]. cbn.
    f_equal; [|f_equal; [|f_equal; [|done]]]; apply byte_of_Z_is; div_lia.
Qed.

Lemma length_base64url b :
  length (base64url b) = ((4 * length b + 2) / 3)%nat.
Proof.
  induction b as [|x|x y|x y z b IH] using bytes_ind3; try done.
  cbn [base64url length]. rewrite IH.
  replace (4 * S (S (S (length b))) + 2)%nat with (4 * length b + 2 + 4 * 3)%nat by lia.
  rewrite Nat.div_add by lia. lia.
Qed.

(** Secrets round trip. What [newSecret] makes of 32 random bytes, [decodeSecret] reads back
    to those bytes; and [decodeSecret] accepts nothing else, so a secret has one spelling. *)
Theorem secret_roundtrip (random text secret : list _) :
  (length random = SECRET_BYTES → decodeSecret (newSecret random) = Some random) ∧
  (decodeSecret text = Some secret → length secret = SECRET_BYTES ∧ text = newSecret secret).
Proof.
  split.
  - intros Hl. unfold decodeSecret, newSecret.
    destruct (base64url_sextets random) as (s & -> & Hs).
    rewrite length_base64url, Hl. rewrite bool_decide_eq_true_2 by done. cbn [negb].
    rewrite Hs. by rewrite decide_True.
  - unfold decodeSecret, newSecret. intros Hd. cases_in Hd. by break.
Qed.

Lemma secret_roundtrip_witness :
  decodeSecret (newSecret (replicate 32 x41)) = Some (replicate 32 x41) ∧
  length (replicate 32 x41) = SECRET_BYTES.
Proof.
  destruct (secret_roundtrip (replicate 32 x41) (newSecret (replicate 32 x41))
    (replicate 32 x41)) as [H1 H2].
  split; [apply H1; reflexivity|apply H2; vm_compute; reflexivity].
Defined.

(** ** The first message *)

Lemma parse_returning message :
  (length message <= MAX_HANDSHAKE_MESSAGE_BYTES)%nat →
  parseFirstMessage ([STIM_PROTOCOL_VERSION; mode_byte MODE_RETURNING] ++ message) =
    ParsedReturning [STIM_PROTOCOL_VERSION; mode_byte MODE_RETURNING] message.
Proof.
  intros Hl. unfold parseFirstMessage, MAX_FIRST_MESSAGE_BYTES, MAX_PREFIX_BYTES.
  cbn [app lookup list_lookup length]. rewrite bool_decide_eq_false_2 by (intros []; done).
  by rewrite bool_decide_eq_false_2 by lia.
Qed.

Lemma parse_first_contact l message :
  length l = LOOKUP_BYTES → (length message <= MAX_HANDSHAKE_MESSAGE_BYTES)%nat →
  parseFirstMessage ((STIM_PROTOCOL_VERSION :: mode_byte MODE_FIRST_CONTACT :: l) ++ message) =
    ParsedFirstContact (STIM_PROTOCOL_VERSION :: mode_byte MODE_FIRST_CONTACT :: l) l message.
Proof.
  intros Hll Hl. unfold parseFirstMessage, MAX_FIRST_MESSAGE_BYTES, MAX_PREFIX_BYTES.
  cbn [app lookup list_lookup length]. rewrite length_app, Hll.
  rewrite bool_decide_eq_false_2 by (intros []; done).
  rewrite bool_decide_eq_false_2 by lia.
  rewrite bool_decide_eq_false_2 by (by vm_compute).
  rewrite !bool_decide_eq_true_2 by (done || lia). cbn [andb].
  f_equal; [apply (subarray_prefix (_ :: _ :: l))|apply (subarray_middle [_; _] l message)
    |apply (subarray_from_suffix (_ :: _ :: l))]; cbn [length]; lia.
Qed.

(** What an accepted first message looks like: one of the two modes. *)
Lemma parse_version data p :
  parseFirstMessage data = p → (∀ e, p ≠ ParsedError e) →
  ∃ rest, data = STIM_PROTOCOL_VERSION :: rest ∧ (length data <= MAX_FIRST_MESSAGE_BYTES)%nat ∧
    ((∃ message, rest = mode_byte MODE_RETURNING :: message ∧
        p = ParsedReturning [STIM_PROTOCOL_VERSION; mode_byte MODE_RETURNING] message) ∨
     (∃ lookup message, length lookup = LOOKUP_BYTES ∧
        rest = mode_byte MODE_FIRST_CONTACT :: lookup ++ message ∧
        p = ParsedFirstContact (STIM_PROTOCOL_VERSION :: mode_byte MODE_FIRST_CONTACT :: lookup)
              lookup message)).
Proof.
  intros <- He. unfold parseFirstMessage in *.
  destruct (bool_decide_reflect (data !! 0%nat ≠ Some STIM_PROTOCOL_VERSION)) as [|H0];
    [by destruct (He _ eq_refl)|]. apply dec_stable in H0.
  destruct data as [|v rest]; [done|]. injection H0 as ->. exists rest.
  destruct (bool_decide_reflect (MAX_FIRST_MESSAGE_BYTES < length (STIM_PROTOCOL_VERSION :: rest))%nat)
    as [|Hl]; [by destruct (He _ eq_refl)|].
  split_and!; [done|lia|]. cbn [lookup list_lookup] in *.
  destruct rest as [|b rest]; [by destruct (He _ eq_refl)|]. cbn [lookup list_lookup] in *.
  destruct (bool_decide_reflect (Some b = Some (mode_byte MODE_RETURNING))) as [[= ->]|].
  { left. by exists rest. }
  destruct (bool_decide_reflect (Some b = Some (mode_byte MODE_FIRST_CONTACT))) as [[= ->]|];
    [|by destruct (He _ eq_refl)]. cbn [andb mode_byte] in *.
  destruct (bool_decide_reflect (MAX_PREFIX_BYTES <= length
    (STIM_PROTOCOL_VERSION :: byte_of_Z 1 :: rest))%nat) as [Hm|]; [|by destruct (He _ eq_refl)].
  right. unfold MAX_PREFIX_BYTES in *. cbn [length] in Hm.
  exists (take LOOKUP_BYTES rest), (drop LOOKUP_BYTES rest).
  rewrite length_take, take_drop. split_and!; [lia|done|done].
Qed.

(** The prefix of the first message. [parseFirstMessage] recovers the mode, the prefix the
    handshake authenticates, the lookup and Noise message 1 from what [handshakePrefix] starts;
    conversely whatever it accepts is a prefix that [handshakePrefix] makes, of a message of at
    most 1042 bytes, followed by the message. *)
Theorem first_message_roundtrip mode lookup prefix message :
  (handshakePrefix mode lookup = Ok prefix →
   (length message <= MAX_HANDSHAKE_MESSAGE_BYTES)%nat →
   parseFirstMessage (prefix ++ message) =
     match lookup with
     | Some l => ParsedFirstContact prefix l message
     | None => ParsedReturning prefix message
     end) ∧
  (∀ data, parseFirstMessage data = ParsedReturning prefix message →
     data = prefix ++ message ∧ handshakePrefix MODE_RETURNING None = Ok prefix ∧
     (length data <= MAX_FIRST_MESSAGE_BYTES)%nat) ∧
  (∀ data l, parseFirstMessage data = ParsedFirstContact prefix l message →
     data = prefix ++ message ∧ handshakePrefix MODE_FIRST_CONTACT (Some l) = Ok prefix ∧
     (length data <= MAX_FIRST_MESSAGE_BYTES)%nat).
Proof.
  split_and!.
  - intros Hp Hl. destruct mode, lookup as [l|]; try done.
    + injection Hp as <-. by apply parse_returning.
    + cbn [handshakePrefix] in Hp. case_decide; [done|]. injection Hp as <-.
      by apply parse_first_contact.
  - intros data Hd. apply parse_version in Hd as (rest & -> & Hl & Hd); [|done].
    destruct Hd as [(rest' & -> & [= -> ->])|(m & l & _ & _ & [=])]. done.
  - intros data l Hd. apply parse_version in Hd as (rest & -> & Hl & Hd); [|done].
    destruct Hd as [(rest' & _ & [=])|(l' & m & Hl' & -> & [= -> -> ->])].
    cbn [handshakePrefix]. by rewrite decide_False by lia.
Qed.

Lemma first_message_roundtrip_witness :
  parseFirstMessage ([STIM_PROTOCOL_VERSION; x01] ++ replicate 16 x07 ++ ascii "message") =
    ParsedFirstContact ([STIM_PROTOCOL_VERSION; x01] ++ replicate 16 x07) (replicate 16 x07)
      (ascii "message").
Proof.
  apply (proj1 (first_message_roundtrip MODE_FIRST_CONTACT (Some (replicate 16 x07))
    ([STIM_PROTOCOL_VERSION; x01] ++ replicate 16 x07) (ascii "message"))).
  - reflexivity.
  - vm_compute. lia.
Defined.

(** ** The pipe of an offload job *)

(** What was decided about the front of the buffer stands when more bytes arrive. *)
Lemma next_frame_app b later :
  match next_frame b with
  | FrameTaken data binary rest =>
      next_frame (b ++ later) = FrameTaken data binary (rest ++ later) ∧
      (length rest < length b)%nat
  | FrameThrow e => next_frame (b ++ later) = FrameThrow e
  | FrameBreak => True
  end.
Proof.
  unfold next_frame. destruct (decide (length b < 4)%nat) as [|H4]; [done|].
  rewrite (decide_False (P := (length (b ++ later) < 4)%nat)) by (rewrite length_app; lia).
  assert (subarray 0 4 (b ++ later) = subarray 0 4 b) as ->.
  { unfold subarray. rewrite !drop_0. apply take_app_le. lia. }
  cbv zeta. generalize dependent (read_be (subarray 0 4 b)). intros size.
  destruct (_ || _) eqn:Hs; [done|].
  destruct (Z.of_nat (length b) <? _) eqn:Hl; [done|].
  rewrite (proj2 (Z.ltb_ge (Z.of_nat (length (b ++ later))) _)) by (rewrite length_app; lia).
  destruct (b !! 4%nat) as [ty|] eqn:Hty; [|done]. rewrite (lookup_app_l_Some _ _ _ _ Hty).
  case_decide; [done|].
  unfold subarray, subarray_from.
  apply lookup_lt_Some in Hty as H5. rewrite !drop_app_le by lia.
  rewrite take_app_le by (rewrite length_drop; lia).
  split; [done|]. rewrite length_drop. lia.
Qed.

(** More fuel than bytes changes nothing. *)
Lemma read_frames_fuel n m b :
  (length b <= n)%nat → (length b <= m)%nat → read_frames n b = read_frames m b.
Proof.
  revert m b. induction n as [|n IH]; intros [|m] [|x b] Hn Hm; try done; try (cbn in *; lia).
  cbn [read_frames]. pose proof (next_frame_app (x :: b) []) as Hf.
  destruct (next_frame (x :: b)); try done. rewrite (IH m) by lia. done.
Qed.

Lemma push_eq n s chunk :
  (length s + length chunk <= n)%nat → push chunk s = read_frames n (s ++ chunk).
Proof. intros. unfold push. apply read_frames_fuel; rewrite length_app; lia. Qed.

(** One push of two chunks is a push of each. *)
Lemma push_app s a b : push (a ++ b) s = (xs ← push a; ys ← push b; mret (xs ++ ys)) s ∨
  ∃ s' e, push a s = (s', Throw e) ∧ push (a ++ b) s = (s' ++ b, Throw e).
Proof.
  rewrite (push_eq (length s + length a + length b)) by (rewrite length_app; lia).
  unfold mbind, M_bind. rewrite (push_eq (length s + length a)) by lia.
  rewrite app_assoc. remember (s ++ a) as x eqn:Hx.
  assert (length x <= length s + length a)%nat as Hn by (subst x; rewrite length_app; lia).
  generalize dependent (length s + length a)%nat. clear Hx. intros n. revert x.
  induction n as [|n IH]; intros x Hn.
  { destruct x; [|cbn in *; lia]. left. cbn [read_frames app].
    rewrite (push_eq (length b)) by (cbn; lia). cbn [app].
    by destruct (read_frames _ b) as [? []]. }
  pose proof (next_frame_app x b) as Hf. cbn [read_frames Nat.add].
  destruct (next_frame x) as [|e|d bin rest] eqn:Hx.
  - left. rewrite (push_eq (S (n + length b))) by lia. cbn [read_frames].
    destruct (next_frame (x ++ b)); try done. by destruct (read_frames _ _) as [? []].
  - right. rewrite Hf. by exists x, e.
  - destruct Hf as [-> Hl]. destruct (IH rest) as [IH'|(s' & e & Ha & Hb)]; [lia|left|right].
    + rewrite IH'. destruct (read_frames n rest) as [s' [fs|e]]; [|done].
      destruct (push b s') as [? []]; done.
    + rewrite Ha, Hb. by exists s', e.
Qed.

(** After a push that returns, no whole frame is left. *)
Lemma push_exhausts s chunk s' frames : push chunk s = (s', Ok frames) → next_frame s' = FrameBreak.
Proof.
  unfold push. remember (length (s ++ chunk)) as n eqn:Hn.
  assert (length (s ++ chunk) <= n)%nat as Hl by lia. clear Hn.
  generalize dependent (s ++ chunk). revert frames.
  induction n as [|n IH]; intros frames x Hl Hr.
  { destruct x; [|cbn in *; lia]. injection Hr as <- <-. reflexivity. }
  cbn [read_frames] in Hr. pose proof (next_frame_app x []) as Hf.
  destruct (next_frame x) as [| |d bin rest] eqn:Hx; [by injection Hr as <- <-|done|].
  destruct (read_frames n rest) as [s1 [fs|e]] eqn:Hrest; [|done]. injection Hr as <- <-.
  apply (IH fs rest); [lia|done].
Qed.

Lemma push_nothing s : next_frame s = FrameBreak → push [] s = (s, Ok []).
Proof.
  intros Hs. unfold push. rewrite app_nil_r. destruct s; [done|].
  cbn [length read_frames]. by rewrite Hs.
Qed.

Lemma push_chunks chunks s :
  next_frame s = FrameBreak →
  match mapM push chunks s with
  | (s', Ok outs) => push (concat chunks) s = (s', Ok (concat outs))
  | (_, Throw e) => snd (push (concat chunks) s) = Throw e
  end.
Proof.
  revert s. induction chunks as [|c chunks IH]; intros s Hs.
  { cbn. by apply push_nothing. }
  cbn [mapM concat]. destruct (push_app s c (concat chunks)) as [Ha|(s' & e & Hc & Ha)].
  - rewrite Ha. unfold mbind, M_bind. destruct (push c s) as [s1 [fs|e]] eqn:Hc; [|done].
    specialize (IH s1 (push_exhausts _ _ _ _ Hc)).
    destruct (mapM push chunks s1) as [s2 [outs|e]].
    + by rewrite IH.
    + destruct (push (concat chunks) s1) as [s3 r]. cbn in IH. by subst r.
  - rewrite (bind_throw _ _ _ _ _ Hc). by rewrite Ha.
Qed.

(** One whole frame in front of anything is taken as it was written. *)
Lemma next_jobFrame data binary encoded later :
  jobFrame data binary = Ok encoded → Z.of_nat (length data) <= MAX_SERVER_MESSAGE_BYTES →
  next_frame (encoded ++ later) = FrameTaken data binary later.
Proof.
  unfold jobFrame, next_frame, MAX_SERVER_MESSAGE_BYTES. intros Hf Hd.
  rewrite (proj2 (Z.leb_gt _ _)) in Hf by lia.
  set (ty := if binary then BINARY else TEXT) in *.
  assert (encoded = write_be 4 (Z.of_nat (length data) + 1) ++ ty :: data) as ->
    by (by inversion Hf).
  rewrite <- app_assoc, decide_False by (rewrite length_app, length_write_be; lia).
  rewrite subarray_prefix by apply length_write_be.
  rewrite read_write_be, Z.mod_small by lia.
  rewrite (proj2 (orb_false_iff _ _))
    by (unfold MAX_JOB_FRAME_BYTES, MAX_SERVER_MESSAGE_BYTES; lia).
  rewrite (proj2 (Z.ltb_ge _ _))
    by (rewrite !length_app, length_write_be; cbn [length]; lia).
  rewrite lookup_app_r by (rewrite length_write_be; lia). rewrite length_write_be.
  cbn [app Nat.sub lookup list_lookup].
  rewrite decide_False by (unfold ty; destruct binary; intros []; done).
  f_equal.
  - rewrite cons_middle, (app_assoc (write_be 4 _)). apply subarray_middle;
      rewrite ?length_app, ?length_write_be; cbn [length]; lia.
  - by destruct binary.
  - rewrite app_comm_cons, (app_assoc (write_be 4 _)). apply subarray_from_suffix.
    rewrite length_app, length_write_be. cbn [length]. lia.
Qed.

Lemma push_frames frames encoded :
  mapM (uncurry jobFrame) frames = Ok encoded →
  Forall (fun f => Z.of_nat (length f.1) <= MAX_SERVER_MESSAGE_BYTES) frames →
  push (concat encoded) [] = ([], Ok frames).
Proof.
  intros He Hall. revert encoded He.
  induction Hall as [|[d bin] frames Hd _ IH]; intros encoded He.
  { injection He as <-. reflexivity. }
  cbn [mapM uncurry] in He. unfold mbind, result_bind in He.
  destruct (jobFrame d bin) as [x|] eqn:Hx; [|done].
  destruct (mapM _ frames) as [xs|] eqn:Hxs; [|done]. injection He as <-.
  specialize (IH xs eq_refl). unfold push in *. cbn [app concat] in *.
  pose proof (next_jobFrame d bin x (concat xs) Hx Hd) as Hn.
  pose proof (next_frame_app (x ++ concat xs) []) as Hl. rewrite Hn in Hl.
  destruct (length (x ++ concat xs)) as [|n] eqn:Hlen; [lia|].
  cbn [read_frames]. rewrite Hn.
  rewrite (read_frames_fuel _ (length (concat xs))) by lia. by rewrite IH.
Qed.

(** The reader of a job's pipe does not see chunk boundaries. However a stream is cut, the
    pushes together return the frames one push of the whole stream returns, or throw the same
    error; and on the frames [jobFrame] wrote, each of at most 16 MiB, they return exactly those
    messages in order, with nothing left over. *)
Theorem job_frames_survive_chunks chunks frames :
  (match mapM push chunks [] with
   | (_, Ok outs) => Ok (concat outs)
   | (_, Throw e) => Throw e
   end = snd (push (concat chunks) [])) ∧
  (∀ encoded, mapM (uncurry jobFrame) frames = Ok encoded →
     Forall (fun f => Z.of_nat (length f.1) <= MAX_SERVER_MESSAGE_BYTES) frames →
     concat chunks = concat encoded →
     ∃ outs s, mapM push chunks [] = (s, Ok outs) ∧ concat outs = frames ∧ partial s = false).
Proof.
  pose proof (push_chunks chunks [] eq_refl) as Hc. split.
  { destruct (mapM push chunks []) as [s [outs|e]]; by rewrite Hc. }
  intros encoded He Hall Heq. rewrite Heq in Hc.
  rewrite (push_frames frames encoded) in Hc by done.
  destruct (mapM push chunks []) as [s [outs|e]]; [|done].
  injection Hc as <- ->. by exists outs, [].
Qed.

Lemma job_frames_survive_chunks_witness :
  ∃ outs s, mapM push [ascii ""; write_be 4 3; [BINARY; x07]; [x08] ++ write_be 4 1; [TEXT]] [] =
      (s, Ok outs) ∧ concat outs = [([x07; x08], true); ([], false)] ∧ partial s = false.
Proof.
  apply (proj2 (job_frames_survive_chunks _ [([x07; x08], true); ([], false)])
    [write_be 4 3 ++ [BINARY; x07; x08]; write_be 4 1 ++ [TEXT]]).
  - reflexivity.
  - repeat constructor; vm_compute; discriminate.
  - reflexivity.
Defined.

(** ** Event handlers *)

(** Events delivered one after another, and the effects of all. *)
Fixpoint deliver {S Ev} (handle : Ev → S → S * list Effect) (events : list Ev) (s : S) :
    S * list Effect :=
  match events with
  | [] => (s, [])
  | e :: events =>
      let '(s, now) := handle e s in
      let '(s, later) := deliver handle events s in (s, now ++ later)
  end.

Lemma deliver_app {S Ev} (handle : Ev → S → S * list Effect) es es' s :
  deliver handle (es ++ es') s =
    let '(s1, now) := deliver handle es s in
    let '(s2, later) := deliver handle es' s1 in (s2, now ++ later).
Proof.
  revert s. induction es as [|e es IH]; intros s; cbn.
  { by destruct (deliver handle es' s). }
  destruct (handle e s) as [s1 now]. rewrite IH.
  destruct (deliver handle es s1) as [s2 mid]. destruct (deliver handle es' s2).
  by rewrite app_assoc.
Qed.

Lemma deliver_invariant_forall {S Ev} (handle : Ev → S → S * list Effect) (P : Ev → Prop)
    (I : S → Prop) es s :
  (∀ e s, P e → I s → I (fst (handle e s))) → Forall P es → I s → I (fst (deliver handle es s)).
Proof.
  intros Hstep Hes. revert s. induction Hes as [|e es He _ IH]; intros s Hs; cbn; [done|].
  specialize (Hstep e s He Hs). destruct (handle e s) as [s1 now]. cbn in Hstep.
  specialize (IH s1 Hstep). by destruct (deliver handle es s1).
Qed.

Lemma deliver_invariant {S Ev} (handle : Ev → S → S * list Effect) (I : S → Prop) es s :
  (∀ e s, I s → I (fst (handle e s))) → I s → I (fst (deliver handle es s)).
Proof.
  intros Hstep. apply (deliver_invariant_forall _ (fun _ => True)); [auto|].
  by apply Forall_forall.
Qed.

Lemma deliver_deaf {S Ev} (handle : Ev → S → S * list Effect) es s :
  (∀ e, handle e s = (s, [])) → deliver handle es s = (s, []).
Proof. intros Hd. induction es as [|e es IH]; cbn; [done|]. by rewrite Hd, IH. Qed.

(** ** [NoiseSocket] *)

Inductive SocketEvent :=
| RawMessage (data : bytes) (isBinary : bool)
| NewListener (event : string).

Section SocketFacts.
Context `{!NodeCrypto}.

Definition socket_event (e : SocketEvent) (s : NoiseSocket) : NoiseSocket * list Effect :=
  match e with
  | RawMessage data isBinary => on_raw_message data isBinary s
  | NewListener event => on_new_listener event s
  end.

Definition binary_frame (frame : bytes) : SocketEvent := RawMessage frame true.

Definition emit (m : NoiseMessage) : Effect :=
  EmitMessage (fst (message_event m)) (snd (message_event m)).

Lemma deliver_held frames t t' ms key held :
  mapM decrypt frames t = (t', Ok ms) → (length held + length frames <= MAX_HELD_MESSAGES)%nat →
  deliver socket_event (map binary_frame frames)
    {| so_transport := t; so_remoteKey := key; so_held := Some held |} =
  ({| so_transport := t'; so_remoteKey := key; so_held := Some (held ++ map message_event ms) |}, []).
Proof.
  revert t ms held. induction frames as [|f frames IH]; intros t ms held Hd Hl.
  { injection Hd as <- <-. cbn. by rewrite app_nil_r. }
  apply bind_ok_inv in Hd as (m & t1 & Hm & Hd). apply bind_ok_inv in Hd as (ms1 & t2 & Hms & Hd).
  injection Hd as <- <-. cbn [length] in Hl. cbn [map deliver socket_event binary_frame].
  unfold on_raw_message. cbn [negb so_transport]. rewrite Hm.
  cbn [so_set_transport so_held]. rewrite decide_False by lia. unfold so_set_held. cbn.
  rewrite (IH t1 ms1) by (rewrite ?length_app; cbn; try lia; done).
  by rewrite <- app_assoc.
Qed.

Lemma deliver_listening frames t t' ms key :
  mapM decrypt frames t = (t', Ok ms) →
  deliver socket_event (map binary_frame frames)
    {| so_transport := t; so_remoteKey := key; so_held := None |} =
  ({| so_transport := t'; so_remoteKey := key; so_held := None |}, map emit ms).
Proof.
  revert t ms. induction frames as [|f frames IH]; intros t ms Hd.
  { by injection Hd as <- <-. }
  apply bind_ok_inv in Hd as (m & t1 & Hm & Hd). apply bind_ok_inv in Hd as (ms1 & t2 & Hms & Hd).
  injection Hd as <- <-. cbn [map deliver socket_event binary_frame].
  unfold on_raw_message, so_set_transport. cbn [negb so_transport]. rewrite Hm.
  cbn [so_held so_remoteKey]. by rewrite (IH t1 ms1).
Qed.

Definition held_bounded (s : NoiseSocket) : Prop :=
  (length (default [] (so_held s)) <= MAX_HELD_MESSAGES)%nat.

Lemma socket_event_bounded e s : held_bounded s → held_bounded (fst (socket_event e s)).
Proof.
  unfold held_bounded. intros Hs.
  destruct e as [d b|ev]; unfold socket_event, on_raw_message, on_new_listener; cases;
    repeat match goal with E : so_held s = _ |- _ => rewrite ?E in * end; cbn; len.
Qed.

(** A socket hands messages over in order. Frames the transport decrypts, up to 64 of them
    before the first [message] listener and any number after, are emitted to it once each, in the
    order they arrived; and whatever arrives, never more than 64 messages are held. *)
Theorem socket_emits_in_order t t' key before after ms :
  (mapM decrypt (before ++ after) t = (t', Ok ms) → (length before <= MAX_HELD_MESSAGES)%nat →
   deliver socket_event
     (map binary_frame before ++ [NewListener "message"] ++ map binary_frame after)
     (new_NoiseSocket t key) =
   ({| so_transport := t'; so_remoteKey := key; so_held := None |}, map emit ms)) ∧
  (∀ events, held_bounded (fst (deliver socket_event events (new_NoiseSocket t key)))).
Proof.
  split.
  - intros Hd Hl. apply mapM_app_inv in Hd as (t1 & ms1 & ms2 & H1 & H2 & ->).
    rewrite deliver_app. unfold new_NoiseSocket.
    rewrite (deliver_held _ _ _ _ _ _ H1) by (cbn; lia).
    rewrite deliver_app. cbn [deliver socket_event on_new_listener so_held app].
    rewrite decide_True by done. unfold so_set_held. cbn [so_transport so_remoteKey].
    rewrite (deliver_listening _ _ _ _ _ H2). cbn [app].
    by rewrite app_nil_r, map_app, map_map.
  - intros events. apply (deliver_invariant _ held_bounded); [apply socket_event_bounded|].
    unfold held_bounded. cbn. lia.
Qed.

End SocketFacts.

Lemma socket_emits_in_order_witness :
  deliver socket_event [RawMessage toy_frame true; NewListener "message"]
    (new_NoiseSocket (toy_transport 0 5) []) =
  ({| so_transport := toy_transport 0 6; so_remoteKey := []; so_held := None |},
   [EmitMessage (ascii "hi") false]).
Proof.
  apply (proj1 (socket_emits_in_order (toy_transport 0 5) (toy_transport 0 6) [] [toy_frame] []
    [Text [0x68; 0x69]])).
  - vm_compute. reflexivity.
  - vm_compute. lia.
Defined.
