(* ===== verification/NoiseHandshakeFacts.v ===== *)
(** * The client and the server of a session

    [initiateNoise] and [acceptNoise] as handlers of socket events: an honest run ends with
    linked sockets, and against any peer each promise settles once, by the timeout, a
    client resolves only with a key that its options pin, accept or leave open, and a server
    answers a first message only where it may. *)

From Stdlib Require Import ZArith Lia.
From S2P Require Import Prelude.
From S2P Require Import Bytes.
From S2P Require Import Json.
From S2P Require Import Noise.
From S2P Require Import NoiseFacts.
From S2P Require Import NoiseTransportFacts.
From S2P Require Import NoiseSession.
From S2P Require Import NoiseSessionFacts.
Open Scope Z_scope.

(** ** An honest run *)

Section Honest.
Context `{NodeCryptoLaws} `{!NodeText}.

Variable copts : InitiateOptions.
Variable sopts : AcceptOptions.
Variables ei er fi : NoiseKeyPair.

(** What both sides derive from the secret, if the client spends one. *)
Definition derived (secret : bytes) : SecretValues :=
  {| sv_psk := sha256 [ascii "stim noise psk v1"; secret];
     sv_lookup := subarray 0 LOOKUP_BYTES (sha256 [ascii "stim noise lookup v1"; secret]);
     sv_journal := hex (sha256 [ascii "stim setup journal v1"; secret]) |}.

Definition session_values : option SecretValues := derived <$> io_secret copts.
Definition session_protocol : NoiseProtocolName :=
  match session_values with Some _ => NOISE_XX_PSK2 | None => NOISE_XX end.
Definition session_psk : option bytes := sv_psk <$> session_values.
Definition session_mode : HandshakeMode :=
  match session_values with Some _ => MODE_FIRST_CONTACT | None => MODE_RETURNING end.
Definition session_prefix : bytes :=
  STIM_PROTOCOL_VERSION :: mode_byte session_mode :: default [] (sv_lookup <$> session_values).

(** The secret is 32 bytes and the server knows it; a client without one pins the key. *)
Definition credentials_ok : Prop :=
  match io_secret copts with
  | Some secret => length secret = SECRET_BYTES ∧
      ao_psk sopts (hex (sv_lookup (derived secret))) = PskFound (sv_psk (derived secret))
  | None => is_Some (io_serverKey copts)
  end.

Abbreviation client_side := (side session_protocol (io_keyPair copts) (ao_keyPair sopts)
  session_psk None (ao_dh sopts) true).
Abbreviation server_side := (side session_protocol (io_keyPair copts) (ao_keyPair sopts)
  session_psk None (ao_dh sopts) false).
Abbreviation start := (sym0 session_protocol (handshakePrologue session_prefix)).

Lemma length_lookup secret : length (sv_lookup (derived secret)) = LOOKUP_BYTES.
Proof. cbn. unfold subarray. rewrite length_take, length_drop. unfold sha256. by rewrite sha256_length. Qed.

Lemma session_psk_matches : credentials_ok → psk_matches session_protocol session_psk.
Proof.
  unfold psk_matches, session_protocol, session_psk, session_values.
  destruct (io_secret copts); cbn; [|done]. intros _. apply sha256_length.
Qed.

Lemma client_starts s1 m1 :
  credentials_ok →
  writeMessage ei [] (client_side None None None 0 start) =
    (client_side (Some ei) None None 1 s1, Ok m1) →
  initiateNoise OPEN ei copts =
    Ok ({| cl_options := copts; cl_handshake := client_side (Some ei) None None 1 s1;
           cl_armed := true; cl_outcome := Pending |}, [RawSend (session_prefix ++ m1)]).
Proof.
  intros Hc Hw. pose proof (session_psk_matches Hc) as Hpsk.
  pose proof (new_side session_protocol (handshakePrologue session_prefix) (io_keyPair copts)
    (ao_keyPair sopts) session_psk None (ao_dh sopts) true Hpsk) as Hnew.
  unfold initiateNoise, credentials_ok, options in *.
  unfold session_prefix, session_psk, session_protocol, session_mode, session_values in *.
  destruct (io_secret copts) as [secret|].
  - destruct Hc as [Hl Hk]. rewrite bool_decide_eq_false_2 by (by intros []).
    unfold secretValues. rewrite decide_False by naive_solver.
    fold (derived secret). cbn [mbind result_bind].
    unfold handshakePrefix at 1. rewrite decide_False by (rewrite length_lookup; naive_solver).
    cbn [mbind result_bind fmap option_fmap option_map].
    erewrite result_bind_ok by exact Hnew. rewrite Hw. reflexivity.
  - rewrite bool_decide_eq_false_2 by (intros []; destruct Hc; congruence).
    cbn [mbind result_bind handshakePrefix fmap option_fmap option_map].
    erewrite result_bind_ok by exact Hnew. rewrite Hw. reflexivity.
Qed.

Definition session_parsed (message : bytes) : ParsedFirstMessage :=
  match session_values with
  | Some v => ParsedFirstContact session_prefix (sv_lookup v) message
  | None => ParsedReturning session_prefix message
  end.

Lemma session_parses m1 :
  (length m1 <= MAX_HANDSHAKE_MESSAGE_BYTES)%nat →
  parseFirstMessage (session_prefix ++ m1) = session_parsed m1.
Proof.
  intros Hl. unfold session_parsed, session_prefix, session_mode, session_values.
  destruct (io_secret copts) as [secret|]; cbn [fmap option_fmap option_map default].
  - rewrite (parse_first_contact (sv_lookup (derived secret))) by (apply length_lookup || done).
    done.
  - by rewrite parse_returning.
Qed.

Definition accepting (h : HandshakeState) (m1 : bytes) (armed : bool)
    (o : Outcome AcceptedHandshake) : Server :=
  {| sv_options := sopts; sv_handshake := Some h; sv_parsed := Some (session_parsed m1);
     sv_armed := armed; sv_listening := armed; sv_outcome := o |}.

Lemma server_answers s1 s2 m1 m2 :
  credentials_ok → (length m1 <= MAX_HANDSHAKE_MESSAGE_BYTES)%nat →
  readMessage m1 (server_side None None None 0 start) =
    (server_side None (Some (publicKey ei)) None 1 s1, Ok []) →
  writeMessage er [] (server_side None (Some (publicKey ei)) None 1 s1) =
    (server_side (Some er) (Some (publicKey ei)) None 2 s2, Ok m2) →
  acceptNoise OPEN er (session_prefix ++ m1) true sopts =
    (accepting (server_side (Some er) (Some (publicKey ei)) None 2 s2) m1 true Pending,
     [RawSend m2]).
Proof.
  intros Hc Hl Hr Hw. pose proof (session_psk_matches Hc) as Hpsk.
  pose proof (new_side session_protocol (handshakePrologue session_prefix) (io_keyPair copts)
    (ao_keyPair sopts) session_psk None (ao_dh sopts) false Hpsk) as Hnew.
  assert (Hacc : ∀ s, sv_options s = sopts →
    accept_handshake OPEN er session_prefix m1 session_psk s =
    (sv_listen (sv_set_handshake s (server_side (Some er) (Some (publicKey ei)) None 2 s2)),
     [RawSend m2])).
  { intros s Hs. unfold accept_handshake. rewrite Hs.
    match goal with |- context [new_HandshakeState ?o] =>
      replace (new_HandshakeState o) with (Ok (E := exn) (server_side None None None 0 start)) end.
    - rewrite Hr, Hw. reflexivity.
    - rewrite <- Hnew. unfold options, session_protocol, session_psk.
      by destruct session_values. }
  unfold acceptNoise. cbn [negb]. rewrite session_parses by done.
  unfold accepting, session_parsed, credentials_ok, session_psk, session_values in *.
  destruct (io_secret copts) as [secret|]; cbn [fmap option_fmap option_map] in *.
  - rewrite (proj2 Hc). by rewrite Hacc.
  - by rewrite Hacc.
Qed.

Definition client_transport (s3 : SymmetricState) : NoiseTransport :=
  {| nt_send := keyed (hkdf1 (ss_ck s3) EMPTY); nt_receive := keyed (hkdf2 (ss_ck s3) EMPTY);
     nt_maxSend := default MAX_CLIENT_MESSAGE_BYTES (io_maxSendBytes copts);
     nt_maxReceive := default MAX_SERVER_MESSAGE_BYTES (io_maxReceiveBytes copts);
     nt_closed := false |}.

Definition server_transport (s3 : SymmetricState) : NoiseTransport :=
  {| nt_send := keyed (hkdf2 (ss_ck s3) EMPTY); nt_receive := keyed (hkdf1 (ss_ck s3) EMPTY);
     nt_maxSend := default MAX_SERVER_MESSAGE_BYTES (ao_maxSendBytes sopts);
     nt_maxReceive := default MAX_CLIENT_MESSAGE_BYTES (ao_maxReceiveBytes sopts);
     nt_closed := false |}.

Abbreviation server_key := (publicKey (ao_keyPair sopts)).
Abbreviation client_key := (publicKey (io_keyPair copts)).

Lemma client_resolves s1 s2 s3 m2 m3 :
  key_refused copts server_key = false →
  readMessage m2 (client_side (Some ei) None None 1 s1) =
    (client_side (Some ei) (Some (publicKey er)) (Some server_key) 2 s2, Ok []) →
  writeMessage fi (client_payload copts)
    (client_side (Some ei) (Some (publicKey er)) (Some server_key) 2 s2) =
    (client_side (Some ei) (Some (publicKey er)) (Some server_key) 3 s3, Ok m3) →
  ∃ c, client_on_message OPEN fi m2 true
      {| cl_options := copts; cl_handshake := client_side (Some ei) None None 1 s1;
         cl_armed := true; cl_outcome := Pending |} = (c, [RawSend m3]) ∧
    cl_outcome c = Resolved (new_NoiseSocket (client_transport s3) server_key).
Proof.
  intros Hk Hr Hw. unfold client_on_message. cbn [negb cl_armed cl_handshake]. rewrite Hr.
  cbn [remoteStaticPublicKey side hs_failed hs_rs cl_options cl_set_handshake]. rewrite Hk.
  fold (client_side (Some ei) (Some (publicKey er)) (Some server_key) 2 s2). rewrite Hw.
  unfold client_finish. cbn [cl_handshake cl_set_handshake cl_disarm].
  destruct (split_side session_protocol (io_keyPair copts) (ao_keyPair sopts) session_psk None
    (ao_dh sopts) true (Some ei) (Some (publicKey er)) (Some server_key) s3) as [st Hs].
  cbn -[split hkdf1 hkdf2 keyed side]. rewrite Hs. eexists. split; reflexivity.
Qed.

Lemma server_resolves s2 s3 m1 m3 p3 :
  readMessage m3 (server_side (Some er) (Some (publicKey ei)) None 2 s2) =
    (server_side (Some er) (Some (publicKey ei)) (Some client_key) 3 s3, Ok p3) →
  ∃ s, server_on_message OPEN m3 true
      (accepting (server_side (Some er) (Some (publicKey ei)) None 2 s2) m1 true Pending) = (s, []) ∧
    sv_outcome s = Resolved
      {| ah_socket := new_NoiseSocket (server_transport s3) client_key;
         ah_mode := session_mode; ah_lookup := hex <$> (sv_lookup <$> session_values);
         ah_clientKey := client_key; ah_payload := p3 |}.
Proof.
  intros Hr. unfold server_on_message, accepting. cbn [sv_listening negb sv_handshake sv_parsed].
  rewrite Hr. unfold split, isComplete.
  cbn [side hs_index hs_messages hs_failed hs_split orb].
  rewrite (bool_decide_eq_true_2 (3%nat = _)) by (by destruct session_protocol).
  cbn [negb set_split set_status hs_symmetric hs_initiator]. unfold split_symmetric.
  cbn -[new_CipherState session_parsed]. rewrite !new_CipherState_key by apply hmac_length.
  eexists. split; [reflexivity|]. cbn. do 2 f_equal.
  all: unfold session_parsed, session_mode; by destruct session_values.
Qed.

(** C13: an honest session opens. A client that spends a secret the server knows, or that pins the
    server's key, and a server, with keys of 32 bytes whose Diffie-Hellman values agree and a
    payload of at most 960 bytes, on an open connection that delivers messages, both resolve after
    the three messages: the client holds the server's static key, the server the client's key, the
    mode, the lookup and the payload it sent, and what each socket sends the other's receives. *)
Theorem session_agreement :
  credentials_ok → key_refused copts server_key = false →
  (length (client_payload copts) <= 960)%nat →
  key_lengths (io_keyPair copts) (ao_keyPair sopts) ei er →
  dh_ok (io_keyPair copts) (ao_keyPair sopts) ei er None (ao_dh sopts) →
  ∃ first m2 m3 c1 s1 c2 s2 socket accepted,
    initiateNoise OPEN ei copts = Ok (c1, [RawSend first]) ∧
    acceptNoise OPEN er first true sopts = (s1, [RawSend m2]) ∧
    client_on_message OPEN fi m2 true c1 = (c2, [RawSend m3]) ∧
    server_on_message OPEN m3 true s1 = (s2, []) ∧
    cl_outcome c2 = Resolved socket ∧ sv_outcome s2 = Resolved accepted ∧
    so_remoteKey socket = server_key ∧ ah_clientKey accepted = client_key ∧
    ah_payload accepted = client_payload copts ∧ ah_mode accepted = session_mode ∧
    ah_lookup accepted = hex <$> (sv_lookup <$> session_values) ∧
    linked (so_transport socket) (so_transport (ah_socket accepted)) ∧
    linked (so_transport (ah_socket accepted)) (so_transport socket).
Proof.
  intros Hc Hk Hp Hlen Hdh. pose proof (session_psk_matches Hc) as Hpsk.
  destruct (message_1 session_protocol (handshakePrologue session_prefix) (io_keyPair copts)
    (ao_keyPair sopts) ei er session_psk None (ao_dh sopts) [] Hpsk Hlen ltac:(cbn; lia))
    as (s1 & m1 & Hw1 & Hr1 & Hn1).
  destruct (message_2 session_protocol (io_keyPair copts) (ao_keyPair sopts) ei er session_psk
    None (ao_dh sopts) s1 [] Hpsk Hlen Hdh ltac:(cbn; lia) Hn1) as (s2 & m2 & Hw2 & Hr2 & Hn2).
  destruct (message_3 session_protocol (io_keyPair copts) (ao_keyPair sopts) ei er fi session_psk
    None (ao_dh sopts) s2 (client_payload copts) Hlen Hdh Hp Hn2) as (s3 & m3 & Hw3 & Hr3).
  destruct (write_progress _ _ _ _ _ Hw1) as [Hl1 _].
  destruct (client_resolves s1 s2 s3 m2 m3 Hk Hr2 Hw3) as (c2 & Hc2 & Ho2).
  destruct (server_resolves s2 s3 m1 m3 _ Hr3) as (sv2 & Hs2 & Hso2).
  exists (session_prefix ++ m1), m2, m3. do 6 eexists. split_and!.
  - by apply client_starts.
  - by eapply server_answers.
  - exact Hc2.
  - exact Hs2.
  - exact Ho2.
  - exact Hso2.
  - done.
  - done.
  - done.
  - done.
  - done.
  - done.
  - done.
Qed.

End Honest.

(** ** Text for the witnesses *)

#[global] Instance toy_text : NodeText := {
  buffer_toString := map Z_of_byte;
  JSON_parse _ := None;
  JSON_stringify j :=
    match j with JObject [(_, JString name)] => js "{name:" ++ name ++ js "}" | _ => [] end;
  JSON_stringify_2 _ := [];
}.

Definition toy_client : InitiateOptions :=
  {| io_keyPair := Toy.pair_of 1; io_serverKey := None; io_secret := Some Toy.secret32;
     io_name := Some (js "phone");
     io_acceptServerKey := Some (fun key => bool_decide (key = publicKey (Toy.pair_of 2)));
     io_maxSendBytes := None; io_maxReceiveBytes := None |}.

Definition toy_server : AcceptOptions :=
  {| ao_keyPair := Toy.pair_of 2;
     ao_psk lookup :=
       if decide (lookup = hex (sv_lookup (derived Toy.secret32)))
       then PskFound (sv_psk (derived Toy.secret32)) else PskNone;
     ao_dh := None; ao_maxSendBytes := None; ao_maxReceiveBytes := None |}.

Lemma session_agreement_witness :
  ∃ first c1, initiateNoise OPEN (Toy.pair_of 3) toy_client = Ok (c1, [RawSend first]).
Proof.
  destruct (session_agreement toy_client toy_server (Toy.pair_of 3) (Toy.pair_of 4)
    (Toy.pair_of 5)) as (first & m2 & m3 & c1 & rest & Hrest).
  - vm_compute. split; reflexivity.
  - vm_compute. reflexivity.
  - vm_compute. lia.
  - repeat split; reflexivity.
  - repeat split; eexists; split; reflexivity.
  - exists first, c1. destruct Hrest as (? & ? & ? & ? & Hi & _). exact Hi.
Defined.

(** ** The client against any peer *)

Inductive ClientEvent :=
| ClientMessage (readyState : Z) (fresh : NoiseKeyPair) (data : bytes) (isBinary : bool)
| ClientClose (readyState code : Z) (reason : bytes)
| ClientError (readyState : Z) (text : units)
| ClientTimeout (readyState : Z).

Section ClientEvents.
Context `{!NodeCrypto, !NodeText}.

Definition client_event (e : ClientEvent) : Client → Client * list Effect :=
  match e with
  | ClientMessage readyState fresh data isBinary => client_on_message readyState fresh data isBinary
  | ClientClose readyState code reason => client_on_close readyState code reason
  | ClientError readyState text => client_on_error readyState text
  | ClientTimeout readyState => client_on_timeout readyState
  end.

Lemma ready_psk message h h' m :
  readMessage message h = (h', Ok m) → hs_psk h' = hs_psk h.
Proof. intros Hr. apply read_progress in Hr as (_ & _ & _ & _ & Hfr). by apply frame_of_index in Hfr as (_ & _ & _ & _ & _ & ?). Qed.


Lemma split_fields h : hs_index (fst (split h)) = hs_index h ∧ hs_psk (fst (split h)) = hs_psk h.
Proof. unfold split. cases; done. Qed.


Lemma written_psk fresh payload h h' m :
  writeMessage fresh payload h = (h', Ok m) → hs_psk h' = hs_psk h.
Proof.
  intros Hw. apply write_progress in Hw as (_ & _ & _ & _ & Hfr).
  by apply frame_of_index in Hfr as (_ & _ & _ & _ & _ & ?).
Qed.


Lemma new_psk options h : new_HandshakeState options = Ok h → hs_psk h = opt_psk options.
Proof.
  unfold new_HandshakeState. intros Hn. case_match; [done|].
  destruct (match opt_psk options with Some _ => _ | None => _ end); [done|].
  by injection Hn as <-.
Qed.


Lemma split_complete h h' k1 k2 :
  split h = (h', Ok (k1, k2)) →
  hs_index h' = length (hs_messages h') ∧ hs_psk h' = hs_psk h ∧ remoteStaticPublicKey h' = remoteStaticPublicKey h.
Proof.
  unfold split, isComplete. case_bool_decide as Hc; [|by rewrite orb_true_r]. rewrite orb_false_r.
  destruct (hs_failed h) eqn:Hf; [done|]. destruct (hs_split h); [done|].
  destruct (split_symmetric _) as [[a b]|]; [|done]. intros [= <- _]. split_and!; [done..|]. unfold remoteStaticPublicKey. cbn. by rewrite Hf.
Qed.

(** ** Whom a client resolves with *)

(** The PSK of the client's handshake: that of its secret, if it has one. *)
Definition client_psk (options : InitiateOptions) (psk : option bytes) : Prop :=
  match io_secret options with
  | Some secret => ∃ values, secretValues secret = Ok values ∧ psk = Some (sv_psk values)
  | None => psk = None
  end.

(** The key that the client's handshake authenticated may be resolved with: it is the pinned one; where none is pinned,
    the handshake runs under the PSK of a secret, and [acceptServerKey], if it is given, accepted the key. *)
Definition trusts (options : InitiateOptions) (h : HandshakeState) (key : bytes) : Prop :=
  remoteStaticPublicKey h = Some key ∧ hs_index h = length (hs_messages h) ∧ client_psk options (hs_psk h) ∧
  match io_serverKey options with
  | Some pinned => key = pinned
  | None => is_Some (hs_psk h) ∧ ∀ accept, io_acceptServerKey options = Some accept → accept key = true
  end.

Lemma key_refused_false options key psk :
  key_refused options key = false → client_psk options psk → ¬ (io_secret options = None ∧ io_serverKey options = None) →
  match io_serverKey options with
  | Some pinned => key = pinned
  | None => is_Some psk ∧ ∀ accept, io_acceptServerKey options = Some accept → accept key = true
  end.
Proof.
  unfold key_refused, client_psk. intros Hk Hpsk Hsome. destruct (io_serverKey options) as [pinned|].
  - by apply negb_false_iff, bool_decide_eq_true in Hk.
  - split; [|intros accept Ha; rewrite Ha in Hk; by apply negb_false_iff in Hk].
    destruct (io_secret options) as [secret|]; [|tauto]. destruct Hpsk as (values & _ & ->). done.
Qed.

Definition trusting (options : InitiateOptions) (c : Client) : Prop :=
  cl_options c = options ∧ ¬ (io_secret options = None ∧ io_serverKey options = None) ∧
  match cl_outcome c with
  | Resolved s => cl_armed c = false ∧ trusts options (cl_handshake c) (so_remoteKey s)
  | _ => cl_armed c = true → client_psk options (hs_psk (cl_handshake c))
  end.

Lemma client_fail_trusting options rs code detail h c :
  trusting options c → cl_armed c = true → trusting options (fst (client_fail rs code detail (cl_set_handshake h c))).
Proof.
  intros (Ho & Hs & Ht) Ha. split; [done|]. split; [done|]. cbn. destruct (cl_outcome c); cbn; try done.
  by destruct Ht as [Hf _]; rewrite Ha in Hf.
Qed.

Lemma client_finish_trusting options rs key m3 c :
  cl_options c = options → ¬ (io_secret options = None ∧ io_serverKey options = None) → cl_armed c = false →
  (∀ s, cl_outcome c ≠ Resolved s) → remoteStaticPublicKey (cl_handshake c) = Some key → client_psk options (hs_psk (cl_handshake c)) →
  key_refused options key = false → trusting options (fst (client_finish rs key m3 c)).
Proof.
  intros Ho Hsome Ha Hnot Hkey Hpsk Hk. unfold client_finish.
  assert (∀ c', cl_options c' = options → cl_armed c' = false → cl_outcome c' = cl_outcome c → trusting options c') as Hidle.
  { intros c' Ho' Ha' Hc'. split; [done|]. split; [done|]. rewrite Hc', Ha'. destruct (cl_outcome c); try done. by destruct (Hnot a). }
  destruct (raw_send _ _); [|by apply Hidle].
  destruct (split (cl_handshake c)) as [h r] eqn:Hsp. destruct (_ ≫= _) as [transport|e] eqn:Hr; cbn; [|by apply Hidle].
  destruct r as [[k1 k2]|e]; [|done]. split; [done|]. split; [done|]. cbn.
  destruct (cl_outcome c) as [|s|r|e] eqn:Hc; cbn; [|by destruct (Hnot s)|by rewrite Ha..].
  split; [done|]. destruct (split_complete _ _ _ _ Hsp) as (Hi & Hp & Hrem).
  unfold trusts. rewrite Hrem, Hi, Hp. split_and!; [done..|]. by apply key_refused_false.
Qed.

Lemma client_event_trusting options e c :
  trusting options c → trusting options (fst (client_event e c)).
Proof.
  intros Ht. pose proof Ht as (Ho & Hsome & Hout).
  assert (cl_set_handshake (cl_handshake c) c = c) as Hsame by by destruct c.
  destruct e as [rs fresh data bin|rs code reason|rs text|rs]; cbn [client_event];
    unfold client_on_message, client_on_close, client_on_error, client_on_timeout;
    (destruct (cl_armed c) eqn:Ha; cbn [negb]; [|exact Ht]).
  all: assert (∀ code detail, trusting options (fst (client_fail rs code detail c))) as Hfail
    by (intros; rewrite <- Hsame; by apply client_fail_trusting).
  2: destruct (buffer_toString reason); apply Hfail.
  2, 3: apply Hfail.
  destruct bin; cbn [negb]; [|destruct (plaintextRefusal data) as [[]|]; apply Hfail].
  destruct (readMessage data (cl_handshake c)) as [h [payload|e]] eqn:Hr; [|by apply client_fail_trusting].
  destruct payload as [|x payload]; [|by apply client_fail_trusting].
  assert (client_psk options (hs_psk h)) as Hpsk.
  { rewrite (ready_psk _ _ _ _ Hr). destruct (cl_outcome c); by apply Hout || by destruct Hout. }
  assert (∀ s, cl_outcome c ≠ Resolved s) as Hnot by (intros s Hs; rewrite Hs in Hout; by destruct Hout).
  destruct (remoteStaticPublicKey h) as [key|] eqn:Hkey.
  2: { split; [done|]. split; [done|]. cbn. destruct (cl_outcome c); [done| |done..]. by destruct (Hnot a). }
  change (cl_options (cl_set_handshake h c)) with (cl_options c). rewrite Ho. destruct (key_refused options key) eqn:Hk; [by apply client_fail_trusting|].
  destruct (writeMessage fresh (client_payload options) h) as [h' [m3|e]] eqn:Hw.
  - apply client_finish_trusting; try done; cbn; [by rewrite (write_keeps_remote _ _ _ _ _ Hw)|by rewrite (written_psk _ _ _ _ _ Hw)].
  - change (cl_set_handshake h' (cl_set_handshake h c)) with (cl_set_handshake h' c). by apply client_fail_trusting.
Qed.

Lemma initiate_trusting rs fresh options c effects :
  initiateNoise rs fresh options = Ok (c, effects) → trusting options c.
Proof.
  unfold initiateNoise. intros Hi. case_bool_decide as Hsome; [done|].
  apply result_bind_inv in Hi as (v & Hv & Hi). apply result_bind_inv in Hi as (p & _ & Hi).
  apply result_bind_inv in Hi as (h0 & Hnew & Hi). destruct (writeMessage _ _ _) as [h r] eqn:Hw.
  apply new_psk in Hnew. cbn in Hnew.
  assert (client_psk options (sv_psk <$> v)) as Hpsk.
  { unfold client_psk. destruct (io_secret options) as [secret|]; [|by injection Hv as <-].
    apply result_bind_inv in Hv as (values & Hvalues & [= <-]). by exists values. }
  destruct (r ≫= _) as [sent|e] eqn:Hsend; injection Hi as <- <-; (split; [done|]; split; [done|]); [|done].
  intros _. cbn. destruct r as [m1|]; [|done]. by rewrite (written_psk _ _ _ _ _ Hw), Hnew.
Qed.

(** C14: a client never talks to a server it does not trust. Whatever messages, closes, errors and
    timeouts arrive, in whatever order and socket state, if the promise of [initiateNoise]
    resolves, the key of the socket is the static key that its completed handshake authenticated,
    and that key is the pinned one; or none is pinned, the handshake ran under the PSK of the
    client's secret, and [acceptServerKey] accepted the key where the client has one. Without a
    pinned key and [acceptServerKey], the secret alone vouches for the server. *)
Theorem client_trusts_key rs fresh options c effects events socket :
  initiateNoise rs fresh options = Ok (c, effects) →
  let c' := fst (deliver client_event events c) in
  cl_outcome c' = Resolved socket → trusts options (cl_handshake c') (so_remoteKey socket).
Proof.
  intros Hi. cbv zeta. set (c' := fst _). intros Ho.
  assert (trusting options c') as (_ & _ & Hout).
  { apply (deliver_invariant client_event (trusting options)); [apply client_event_trusting|by eapply initiate_trusting]. }
  rewrite Ho in Hout. by destruct Hout.
Qed.

End ClientEvents.

(** A run of the toy client and server, to evaluate the theorems on. *)
Definition toy_started : Client * list Effect :=
  match initiateNoise OPEN (Toy.pair_of 3) toy_client with
  | Ok r => r
  | Throw _ => ({| cl_options := toy_client; cl_handshake := toy_responder; cl_armed := false;
                   cl_outcome := Pending |}, [])
  end.

Definition sent_bytes (effects : list Effect) : bytes :=
  match effects with [RawSend b] => b | _ => [] end.

Definition toy_m1 : bytes := Eval vm_compute in sent_bytes (snd toy_started).
Definition toy_accepting : Server * list Effect :=
  acceptNoise OPEN (Toy.pair_of 4) toy_m1 true toy_server.
Definition toy_m2 : bytes := Eval vm_compute in sent_bytes (snd toy_accepting).
Definition toy_resolved : Client * list Effect :=
  client_on_message OPEN (Toy.pair_of 5) toy_m2 true (fst toy_started).
Definition toy_m3 : bytes := Eval vm_compute in sent_bytes (snd toy_resolved).

Definition resolved_or {A} (d : A) (o : Outcome A) : A :=
  match o with Resolved a => a | _ => d end.

Definition toy_socket : NoiseSocket :=
  resolved_or (new_NoiseSocket (toy_transport 0 0) []) (cl_outcome (fst toy_resolved)).

Definition is_resolved {A} (o : Outcome A) : bool :=
  match o with Resolved _ => true | _ => false end.

Lemma toy_started_eq :
  initiateNoise OPEN (Toy.pair_of 3) toy_client = Ok (fst toy_started, snd toy_started).
Proof.
  unfold toy_started. assert (is_ok (initiateNoise OPEN (Toy.pair_of 3) toy_client) = true) as Hok
    by (vm_compute; reflexivity).
  destruct (initiateNoise OPEN (Toy.pair_of 3) toy_client) as [[c e]|]; done.
Qed.

Lemma toy_resolved_eq : cl_outcome (fst toy_resolved) = Resolved toy_socket.
Proof.
  unfold toy_socket. assert (is_resolved (cl_outcome (fst toy_resolved)) = true) as Hr
    by (vm_compute; reflexivity).
  by destruct (cl_outcome (fst toy_resolved)).
Qed.

Abbreviation toy_talking := (fst (deliver client_event [ClientMessage OPEN (Toy.pair_of 5) toy_m2 true] (fst toy_started))).
Lemma client_trusts_key_witness :
  cl_outcome toy_talking = Resolved toy_socket ∧ trusts toy_client (cl_handshake toy_talking) (so_remoteKey toy_socket).
Proof.
  assert (cl_outcome toy_talking = Resolved toy_socket) as Ho.
  { transitivity (cl_outcome (fst toy_resolved)); [|apply toy_resolved_eq].
    unfold toy_resolved, deliver, client_event.
    destruct (client_on_message OPEN (Toy.pair_of 5) toy_m2 true (fst toy_started)). reflexivity. }
  split; [exact Ho|].
  apply (client_trusts_key OPEN (Toy.pair_of 3) toy_client (fst toy_started) (snd toy_started)
    [ClientMessage OPEN (Toy.pair_of 5) toy_m2 true]).
  - apply toy_started_eq.
  - exact Ho.
Defined.

(** ** Settling *)

Section Settling.
Context `{NodeCryptoLaws} `{!NodeText}.

(** A handshake of this side about to handle its [n]th message. *)
Definition ready (initiator : bool) (n : nat) (h : HandshakeState) : Prop :=
  hs_initiator h = initiator ∧ hs_split h = false ∧ hs_failed h = false ∧ hs_index h = n ∧
  ∃ p, hs_messages h = PATTERNS p.

Lemma ready_frame initiator n h h' :
  ready initiator n h → frame_of h' = frame_of (set_index h (S (hs_index h))) →
  ready initiator (S n) h'.
Proof.
  intros (Hi & Hs & Hf & Hn & p & Hp) Hfr.
  apply frame_of_index in Hfr as (Hn' & Hp' & Hi' & Hf' & Hs' & _).
  unfold ready. split_and!; try congruence. exists p. congruence.
Qed.

Lemma ready_written initiator n fresh payload h h' m :
  ready initiator n h → writeMessage fresh payload h = (h', Ok m) → ready initiator (S n) h'.
Proof. intros Hr Hw. apply write_progress in Hw as (_ & _ & _ & _ & Hw). by eapply ready_frame. Qed.

(** Messages 2 and 3 carry the sender's static key. *)
Lemma ready_read initiator n h h' message m :
  ready initiator n h → readMessage message h = (h', Ok m) →
  ready initiator (S n) h' ∧ (n ≠ 0%nat → is_Some (remoteStaticPublicKey h')).
Proof.
  intros Hr Hm. destruct (read_progress _ _ _ _ Hm) as (_ & _ & Hi & _ & Hfr).
  split; [by eapply ready_frame|]. intros Hn.
  destruct Hr as (_ & _ & _ & Hidx & p & Hp).
  destruct (lookup_lt_is_Some_2 _ _ Hi) as [ts Hts].
  eapply read_sets_rs; [exact Hm|exact Hts|].
  rewrite Hp, Hidx in *. clear -Hts Hn. destruct p, n as [|[|[|n]]]; try done; cbn in Hts;
    simplify_eq; set_solver.
Qed.

Lemma new_ready options h :
  new_HandshakeState options = Ok h → ready (opt_initiator options) 0 h.
Proof.
  unfold new_HandshakeState. intros Hn. case_match; [done|].
  destruct (match opt_psk options with Some _ => _ | None => _ end); [done|].
  injection Hn as <-. unfold ready. split_and!; try done. by eexists.
Qed.

Lemma split_ready initiator h :
  ready initiator 3 h →
  ∃ h' k1 k2, split h = (h', Ok (keyed k1, keyed k2)) ∧
    remoteStaticPublicKey h' = remoteStaticPublicKey h.
Proof.
  intros (Hi & Hs & Hf & Hn & p & Hp). unfold split, isComplete.
  rewrite Hf, Hn, Hp, Hs, (bool_decide_eq_true_2 (3%nat = _)) by (by destruct p).
  cbn [orb negb]. unfold split_symmetric. cbn -[new_CipherState].
  rewrite !new_CipherState_key by apply hmac_length. cbn.
  rewrite Hi. destruct initiator; by do 3 eexists.
Qed.

Definition event_state (e : ClientEvent) : Z :=
  match e with
  | ClientMessage rs _ _ _ | ClientClose rs _ _ | ClientError rs _ | ClientTimeout rs => rs
  end.

(** Listening with a handshake that waits for message 2, or settled and deaf. *)
Definition client_ok (c : Client) : Prop :=
  if cl_armed c then cl_outcome c = Pending ∧ ready true 1 (cl_handshake c)
  else cl_outcome c ≠ Pending.

Lemma client_fail_ok rs code detail c : client_ok (fst (client_fail rs code detail c)).
Proof. unfold client_ok. cbn. by destruct (cl_outcome c). Qed.

Lemma client_finish_ok rs key m3 c :
  rs ≠ CONNECTING → cl_armed c = false → ready true 3 (cl_handshake c) →
  client_ok (fst (client_finish rs key m3 c)).
Proof.
  intros Hrs Ha Hr. unfold client_finish, raw_send. rewrite (proj2 (Z.eqb_neq _ _) Hrs).
  destruct (split_ready _ _ Hr) as (h & k1 & k2 & -> & _).
  unfold client_ok. cbn. rewrite Ha. by destruct (cl_outcome c).
Qed.

Lemma client_event_ok e c :
  event_state e ≠ CONNECTING → client_ok c → client_ok (fst (client_event e c)).
Proof.
  intros He Hc. pose proof Hc as Hready. unfold client_ok in Hready.
  destruct (cl_armed c) eqn:Ha.
  2: { destruct e; cbn [client_event]; unfold client_on_message, client_on_close,
         client_on_error, client_on_timeout; by rewrite Ha. }
  destruct Hready as [Hp Hr].
  destruct e as [rs fresh data bin|rs code reason|rs text|rs]; cbn [client_event event_state] in *;
    unfold client_on_message, client_on_close, client_on_error, client_on_timeout;
    rewrite Ha; cbn [negb]; try apply client_fail_ok.
  - destruct bin; cbn [negb]; [|by repeat case_match; apply client_fail_ok].
    destruct (readMessage data (cl_handshake c)) as [h1 [[|x m]|e]] eqn:Hread;
      [|apply client_fail_ok..].
    destruct (ready_read _ _ _ _ _ _ Hr Hread) as [Hr1 [key Hkey]]; [done|]. rewrite Hkey.
    case_match; [apply client_fail_ok|].
    destruct (writeMessage fresh _ h1) as [h2 [m3|e]] eqn:Hw; [|apply client_fail_ok].
    apply client_finish_ok; [done|done|]. by eapply ready_written.
  - case_match; apply client_fail_ok.
Qed.

Lemma deaf_client e c : cl_armed c = false → client_event e c = (c, []).
Proof.
  intros Ha. destruct e; cbn [client_event];
    unfold client_on_message, client_on_close, client_on_error, client_on_timeout; by rewrite Ha.
Qed.

Lemma initiate_ok rs fresh options c effects :
  initiateNoise rs fresh options = Ok (c, effects) → client_ok c.
Proof.
  unfold initiateNoise. intros Hi. case_bool_decide; [done|].
  apply result_bind_inv in Hi as (v & _ & Hi). apply result_bind_inv in Hi as (p & _ & Hi).
  apply result_bind_inv in Hi as (h0 & Hnew & Hi). apply new_ready in Hnew.
  destruct (writeMessage fresh [] h0) as [h [m1|e]] eqn:Hw;
    [|by injection Hi as <- <-].
  cbn [mbind result_bind] in Hi. case_match; injection Hi as <- <-; [|done].
  split; [done|]. by eapply ready_written.
Qed.

(** The client's promise settles, once, and no later than the timeout. After any events on a
    socket that is past connecting, the timeout leaves the promise settled; and once it is
    settled no event changes the client or touches the socket through these handlers again. *)
Theorem client_settles rs fresh options c effects events :
  initiateNoise rs fresh options = Ok (c, effects) →
  Forall (fun e => event_state e ≠ CONNECTING) events →
  let c' := fst (deliver client_event events c) in
  (∀ rs', cl_outcome (fst (client_on_timeout rs' c')) ≠ Pending) ∧
  (cl_outcome c' ≠ Pending → ∀ later, deliver client_event later c' = (c', [])).
Proof.
  intros Hi Hev c'. assert (client_ok c') as Hok.
  { apply deliver_invariant_forall with (P := fun e => event_state e ≠ CONNECTING); [|done|].
    - intros e s. apply client_event_ok.
    - by eapply initiate_ok. }
  split.
  - intros rs'. unfold client_on_timeout, client_ok in *.
    destruct (cl_armed c') eqn:Ha; cbn; [|done]. by destruct (cl_outcome c').
  - intros Ho later. apply deliver_deaf. intros e. apply deaf_client.
    unfold client_ok in Hok. destruct (cl_armed c'); [|done]. by destruct Hok.
Qed.

End Settling.

Lemma client_settles_witness :
  cl_outcome (fst (client_on_timeout OPEN
    (fst (deliver client_event [ClientError OPEN (js "reset")] (fst toy_started))))) ≠ Pending.
Proof.
  destruct (client_settles OPEN (Toy.pair_of 3) toy_client (fst toy_started) (snd toy_started)
    [ClientError OPEN (js "reset")] toy_started_eq) as [Hs _].
  - constructor; [discriminate|constructor].
  - exact (Hs OPEN).
Defined.
