(* ===== verification/NoiseServerFacts.v ===== *)
(** * The server of a session against any client

    [acceptNoise] answers and resolves only for a first message of its version and a known mode, and
    for a first contact only under the PSK its secret names; its promise settles by the timeout. *)

From Stdlib Require Import ZArith Lia.
From S2P Require Import Prelude.
From S2P Require Import Bytes.
From S2P Require Import Json.
From S2P Require Import Noise.
From S2P Require Import NoiseFacts.
From S2P Require Import NoiseTransportFacts.
From S2P Require Import NoiseSession.
From S2P Require Import NoiseSessionFacts.
From S2P Require Import NoiseHandshakeFacts.
Open Scope Z_scope.

Inductive ServerEvent :=
| ServerMessage (readyState : Z) (data : bytes) (binary : bool)
| ServerClose (readyState : Z)
| ServerTimeout (readyState : Z).

Section ServerEvents.
Context `{NodeCryptoLaws} `{!NodeText}.

Definition server_event (e : ServerEvent) : Server → Server * list Effect :=
  match e with
  | ServerMessage readyState data binary => server_on_message readyState data binary
  | ServerClose readyState => server_on_close readyState
  | ServerTimeout readyState => server_on_timeout readyState
  end.

(** The PSK a parsed first message entitles the client to: none for a returning client, and for
    a first contact the one the secret it names has. *)
Definition entitled (options : AcceptOptions) (parsed : ParsedFirstMessage) (psk : option bytes) :
    Prop :=
  match parsed with
  | ParsedReturning _ _ => psk = None
  | ParsedFirstContact _ lookup _ => ∃ p, ao_psk options (hex lookup) = PskFound p ∧ psk = Some p
  | ParsedError _ => False
  end.

(** A server past the first message: its handshake runs under the PSK the message entitles to. *)
Definition engaged (options : AcceptOptions) (first : bytes) (n : nat) (s : Server) : Prop :=
  sv_options s = options ∧ sv_parsed s = Some (parseFirstMessage first) ∧
  ∃ h, sv_handshake s = Some h ∧ ready false n h ∧
    entitled options (parseFirstMessage first) (hs_psk h).

(** What the server promises of a client it resolves with. *)
Definition vouched (options : AcceptOptions) (first : bytes) (s : Server)
    (a : AcceptedHandshake) : Prop :=
  ah_mode a = parsed_mode (parseFirstMessage first) ∧
  ah_lookup a = parsed_lookup (parseFirstMessage first) ∧
  so_remoteKey (ah_socket a) = ah_clientKey a ∧
  ∃ h, sv_handshake s = Some h ∧ hs_index h = 3%nat ∧ remoteStaticPublicKey h = Some (ah_clientKey a) ∧
    entitled options (parseFirstMessage first) (hs_psk h).

Definition server_ok (options : AcceptOptions) (first : bytes) (s : Server) : Prop :=
  match sv_outcome s with
  | Pending => sv_armed s = true ∧ sv_listening s = true ∧ engaged options first 2 s
  | Resolved a => sv_armed s = false ∧ sv_listening s = false ∧ vouched options first s a
  | Rejected _ => sv_armed s = false ∧ sv_listening s = false
  | RejectedWith _ => sv_listening s = false
  end.

Lemma refuse_ok options first rs code closeCode s :
  (∀ a, sv_outcome s ≠ Resolved a) → server_ok options first (fst (refuse rs code closeCode s)).
Proof. intros Hr. unfold server_ok. cbn. destruct (sv_outcome s); naive_solver. Qed.

Lemma server_message_ok options first rs data binary s :
  server_ok options first s → server_ok options first (fst (server_on_message rs data binary s)).
Proof.
  intros Hs. unfold server_on_message. pose proof Hs as Hs'. unfold server_ok in Hs'.
  destruct (sv_outcome s) eqn:Ho;
    [|rewrite (proj1 (proj2 Hs')) || rewrite (proj2 Hs') || rewrite Hs'; exact Hs..].
  destruct Hs' as (Ha & Hl & Hopt & Hp & h & Hh & Hr & Hent).
  rewrite Hl, Hh, Hp. cbn [negb].
  assert (Href : ∀ h', server_ok options first
    (fst (refuse rs (js "handshake-failed") CLOSE_REFUSED (sv_set_handshake s h')))).
  { intros h'. apply refuse_ok. cbn. by rewrite Ho. }
  destruct binary; [|apply refuse_ok; by rewrite Ho].
  destruct (readMessage data h) as [h1 [payload|e]] eqn:Hm; [|apply Href].
  destruct (ready_read _ _ _ _ _ _ Hr Hm) as [Hr1 [key Hkey]]; [done|].
  destruct (split_ready _ _ Hr1) as (h2 & k1 & k2 & Hsp & Hkey2).
  pose proof (split_fields h1) as [Hi2 Hp2]. rewrite Hsp in Hi2, Hp2. rewrite Hsp.
  cbn -[parseFirstMessage]. rewrite Hkey2, Hkey. unfold server_ok. cbn -[parseFirstMessage].
  rewrite Ho. cbn -[parseFirstMessage vouched]. do 2 (split; [done|]).
  unfold vouched. do 3 (split; [done|]). exists h2. cbn [sv_settle sv_set_handshake sv_handshake ah_clientKey].
  destruct Hr1 as (_ & _ & _ & Hi1 & _). cbn in Hi2, Hp2.
  rewrite Hp2, (ready_psk _ _ _ _ Hm). split_and!; congruence.
Qed.

Lemma server_event_ok options first e s :
  server_ok options first s → server_ok options first (fst (server_event e s)).
Proof.
  intros Hs. destruct e as [rs data bin|rs|rs]; cbn [server_event].
  - by apply server_message_ok.
  - unfold server_on_close. destruct (sv_armed s) eqn:Ha; [|done]. apply refuse_ok.
    intros a Hr. unfold server_ok in Hs. rewrite Hr in Hs. destruct Hs. congruence.
  - unfold server_on_timeout. destruct (sv_armed s) eqn:Ha; [|done]. apply refuse_ok.
    intros a Hr. unfold server_ok in Hs. rewrite Hr in Hs. destruct Hs. congruence.
Qed.

(** Message 2 is the only thing a server sends as bytes. *)
Definition answers (effects : list Effect) : Prop := ∃ m, RawSend m ∈ effects.

Lemma refuse_silent rs code closeCode s : ¬ answers (snd (refuse rs code closeCode s)).
Proof.
  intros [m Hm]. cbn in Hm. unfold close_if_open in Hm.
  case_match; [|by apply not_elem_of_nil in Hm].
  by apply list_elem_of_singleton in Hm.
Qed.

Lemma accept_handshake_ok options first rs fresh prefix message psk s :
  sv_options s = options → sv_parsed s = Some (parseFirstMessage first) →
  sv_outcome s = Pending → sv_armed s = true → sv_listening s = false →
  entitled options (parseFirstMessage first) psk →
  server_ok options first (fst (accept_handshake rs fresh prefix message psk s)).
Proof.
  intros Hopt Hp Ho Ha Hl Hent. unfold accept_handshake.
  assert (Href : ∀ s' code, sv_outcome s' = Pending →
    server_ok options first (fst (refuse rs code CLOSE_REFUSED s'))).
  { intros s' code Hs'. apply refuse_ok. by rewrite Hs'. }
  assert (Hfail : ∀ s' e, sv_outcome s' = Pending → sv_listening s' = false →
    server_ok options first (sv_settle s' (RejectedWith e))).
  { intros s' e Hs' Hl'. unfold server_ok. cbn. by rewrite Hs'. }
  destruct (new_HandshakeState _) as [h|[]] eqn:Hnew; try (by apply Href); try (by apply Hfail).
  pose proof (new_ready _ _ Hnew) as Hr. pose proof (new_psk _ _ Hnew) as Hpsk. cbn in Hr, Hpsk.
  destruct (readMessage message h) as [h1 [[|x p]|[]]] eqn:Hm;
    try (by apply Href); try (by apply Hfail).
  destruct (ready_read _ _ _ _ _ _ Hr Hm) as [Hr1 _]. apply ready_psk in Hm.
  destruct (writeMessage fresh [] h1) as [h2 [m2|[]]] eqn:Hw; cbn [mbind result_bind];
    try (by apply Href); try (by apply Hfail).
  destruct (raw_send _ _) as [sent|[]]; try (by apply Href); try (by apply Hfail).
  unfold server_ok. cbn -[parseFirstMessage engaged]. rewrite Ho. do 2 (split; [done|]).
  unfold engaged. do 2 (split; [done|]). exists h2. split_and!; [done|by eapply ready_written|].
  by rewrite (written_psk _ _ _ _ _ Hw), Hm, Hpsk.
Qed.

Lemma accept_ok rs fresh first isBinary options :
  server_ok options first (fst (acceptNoise rs fresh first isBinary options)).
Proof.
  unfold acceptNoise. destruct isBinary; cbn [negb].
  - destruct (parseFirstMessage first) as [p m|p l m|e] eqn:Hp.
    + apply accept_handshake_ok; try done; by rewrite Hp.
    + destruct (ao_psk options (hex l)) as [psk| |code|e] eqn:Hpsk; try done.
      apply accept_handshake_ok; try done; rewrite Hp; [done|]. by exists psk.
    + done.
  - done.
Qed.

Lemma accept_answers rs fresh first isBinary options :
  answers (snd (acceptNoise rs fresh first isBinary options)) →
  isBinary = true ∧ ∃ psk, entitled options (parseFirstMessage first) psk.
Proof.
  unfold acceptNoise. intros Ha. destruct isBinary; cbn [negb] in Ha.
  - split; [done|]. destruct (parseFirstMessage first) as [p m|p l m|e] eqn:Hp.
    + by exists None.
    + destruct (ao_psk options (hex l)) as [psk| |code|e] eqn:Hpsk.
      * by exists (Some psk), psk.
      * by apply refuse_silent in Ha.
      * by apply refuse_silent in Ha.
      * destruct Ha as [m2 Hm]. by apply not_elem_of_nil in Hm.
    + by apply refuse_silent in Ha.
  - exfalso. destruct Ha as [m2 Hm]. cbn in Hm. unfold close_if_open in Hm.
    case_match; apply list_elem_of_In in Hm; cbn in Hm; [|done].
    by destruct Hm as [?|[?|[]]].
Qed.

(** A first message by its bytes: the version 2, the mode and, for a first contact, the 16 bytes that name a secret. *)
Definition first_message (first : bytes) (mode : HandshakeMode) (lookup : option bytes) : Prop :=
  first !! 0%nat = Some (byte_of_Z 2) ∧ (length first <= MAX_FIRST_MESSAGE_BYTES)%nat ∧
  match mode, lookup with
  | MODE_RETURNING, None => first !! 1%nat = Some (byte_of_Z 0)
  | MODE_FIRST_CONTACT, Some lookup =>
      first !! 1%nat = Some (byte_of_Z 1) ∧ lookup = take 16 (drop 2 first) ∧ length lookup = 16%nat
  | _, _ => False
  end.

(** The PSK that such a message entitles to. *)
Definition entitles (options : AcceptOptions) (lookup psk : option bytes) : Prop :=
  match lookup with
  | None => psk = None
  | Some lookup => ∃ p, ao_psk options (hex lookup) = PskFound p ∧ psk = Some p
  end.

Lemma parsed_first options first psk :
  entitled options (parseFirstMessage first) psk →
  ∃ lookup, first_message first (parsed_mode (parseFirstMessage first)) lookup ∧
    parsed_lookup (parseFirstMessage first) = hex <$> lookup ∧ entitles options lookup psk.
Proof.
  unfold parseFirstMessage. case_bool_decide as Hv; [done|]. case_bool_decide as Hlen; [done|].
  assert (first !! 0%nat = Some (byte_of_Z 2)) as Hversion by (destruct (decide (first !! 0%nat = Some STIM_PROTOCOL_VERSION)); tauto).
  case_bool_decide as Hret; [|case_bool_decide as Hfc; [|done]; case_bool_decide as Hmin; [|done]]; cbn [andb]; intros He.
  - exists None. unfold first_message. split_and!; [done|lia|done..].
  - exists (Some (take 16 (drop 2 first))). unfold first_message. cbn [parsed_mode]. split_and!; [done|lia|done|done| |done..].
    rewrite length_take, length_drop. unfold MAX_PREFIX_BYTES, LOOKUP_BYTES in Hmin. lia.
Qed.

(** C15: a server only engages with clients it may. [acceptNoise] answers a first message only if
    it is binary, starts with the byte 2 of the protocol's version and a known mode, and for a first
    contact only if the secret that its next 16 bytes name is known. Whatever the client then sends,
    if the promise resolves, it reports the mode and the lookup of those bytes and the static key the
    completed handshake authenticated, and the handshake ran under the PSK of the named secret, or
    under none for a returning client. *)
Theorem server_admits rs fresh first isBinary options events accepted :
  let s := fst (deliver server_event events (fst (acceptNoise rs fresh first isBinary options))) in
  (answers (snd (acceptNoise rs fresh first isBinary options)) →
   isBinary = true ∧ ∃ mode lookup psk, first_message first mode lookup ∧ entitles options lookup psk) ∧
  (sv_outcome s = Resolved accepted →
   ∃ lookup h, first_message first (ah_mode accepted) lookup ∧ ah_lookup accepted = hex <$> lookup ∧
     sv_handshake s = Some h ∧ hs_index h = 3%nat ∧ entitles options lookup (hs_psk h) ∧
     remoteStaticPublicKey h = Some (ah_clientKey accepted) ∧ so_remoteKey (ah_socket accepted) = ah_clientKey accepted).
Proof.
  intros s. split.
  - intros (Hb & psk & He)%accept_answers. split; [done|]. destruct (parsed_first _ _ _ He) as (lookup & Hf & _ & Hp). by eexists _, _, _.
  - intros Ho. assert (server_ok options first s) as Hs.
    { apply deliver_invariant; [apply server_event_ok|apply accept_ok]. }
    unfold server_ok in Hs. rewrite Ho in Hs. destruct Hs as (_ & _ & Hmode & Hlookup & Hkey & h & Hh & Hi & Hrem & He).
    destruct (parsed_first _ _ _ He) as (lookup & Hf & Hl & Hp). exists lookup, h. rewrite Hmode, Hlookup. by split_and!.
Qed.

Lemma event_settled options first e s :
  server_ok options first s → sv_outcome s ≠ Pending →
  sv_outcome (fst (server_event e s)) = sv_outcome s.
Proof.
  intros Hs Ho. assert (sv_listening s = false) as Hl.
  { unfold server_ok in Hs. destruct (sv_outcome s); try done; by destruct Hs as [_ Hs];
      try destruct Hs. }
  destruct e as [rs data bin|rs|rs]; cbn [server_event].
  - unfold server_on_message. by rewrite Hl.
  - unfold server_on_close. destruct (sv_armed s); [|done]. cbn. by destruct (sv_outcome s).
  - unfold server_on_timeout. destruct (sv_armed s); [|done]. cbn. by destruct (sv_outcome s).
Qed.

(** The server's promise settles, once, and no later than the timeout. After any first message
    and any events, in any socket state, the timeout leaves the promise settled, and a settled
    promise keeps its value whatever happens next. *)
Theorem server_settles rs fresh first isBinary options events later rs' :
  let s := fst (deliver server_event events (fst (acceptNoise rs fresh first isBinary options))) in
  sv_outcome (fst (server_on_timeout rs' s)) ≠ Pending ∧
  (sv_outcome s ≠ Pending → sv_outcome (fst (deliver server_event later s)) = sv_outcome s).
Proof.
  intros s. assert (server_ok options first s) as Hs.
  { apply deliver_invariant; [apply server_event_ok|apply accept_ok]. }
  split.
  - unfold server_on_timeout, server_ok in *. destruct (sv_armed s) eqn:Ha.
    + cbn. by destruct (sv_outcome s).
    + destruct (sv_outcome s) eqn:Ho; try done; cbn; [|by rewrite Ho..].
      by destruct Hs as [? _].
  - intros Ho.
    apply (deliver_invariant server_event (fun s' => server_ok options first s' ∧
      sv_outcome s' = sv_outcome s)); [|done].
    intros e s' [Hs' Ho']. split; [by apply server_event_ok|].
    rewrite <- Ho' in Ho. by rewrite (event_settled options first).
Qed.

End ServerEvents.

(** The toy server after the client's message 3. *)
Abbreviation toy_served :=
  (fst (deliver server_event [ServerMessage OPEN toy_m3 true]
    (fst (acceptNoise OPEN (Toy.pair_of 4) toy_m1 true toy_server)))).

Lemma toy_served_resolved : is_resolved (sv_outcome toy_served) = true.
Proof. vm_compute. reflexivity. Qed.

Lemma server_admits_witness : ∃ accepted lookup h,
  sv_outcome toy_served = Resolved accepted ∧ first_message toy_m1 (ah_mode accepted) lookup ∧
  sv_handshake toy_served = Some h ∧ entitles toy_server lookup (hs_psk h).
Proof.
  pose proof toy_served_resolved as Hr.
  destruct (server_admits OPEN (Toy.pair_of 4) toy_m1 true toy_server
    [ServerMessage OPEN toy_m3 true] (resolved_or (Build_AcceptedHandshake toy_socket
      MODE_RETURNING None [] []) (sv_outcome toy_served))) as [_ Hv].
  cbv zeta in Hv.
  destruct (sv_outcome (fst (deliver server_event _ _))) as [|a|r|e]; try discriminate Hr.
  destruct (Hv eq_refl) as (lookup & h & Hf & _ & Hh & _ & He & _).
  exists a, lookup, h. split; [reflexivity|]. split; [exact Hf|]. split; [exact Hh|exact He].
Defined.

Lemma server_settles_witness :
  sv_outcome (fst (deliver server_event [ServerTimeout OPEN; ServerClose OPEN] toy_served)) =
  sv_outcome toy_served.
Proof.
  pose proof toy_served_resolved as Hr.
  destruct (server_settles OPEN (Toy.pair_of 4) toy_m1 true toy_server
    [ServerMessage OPEN toy_m3 true] [ServerTimeout OPEN; ServerClose OPEN] OPEN) as [_ Hs].
  apply Hs. cbv zeta. intros Hp. rewrite Hp in Hr. discriminate Hr.
Defined.
