(* ===== verification/Policy.v ===== *)
(** * Admission, idleness and pressure: [packages/stim-cli/src/policy/]

    The decisions the CLI and its daemon take, as pure functions of what they read:
    [admission.ts] (build slots and device leases), [idle.ts] (which workspaces the idle
    stage takes) and [pressure.ts] (the ladder). [Date.parse] is a parameter, [None] where
    it is NaN; other times are integers of milliseconds. *)

From Stdlib Require Import ZArith Lia.
From stdpp Require Import pretty.
From S2P Require Import Prelude.
From S2P Require Import Bytes.
From S2P Require Import Json.
Open Scope Z_scope.

(** [Date.parse], [None] where it is NaN, and [toISOString], [None] where it throws: outside the
    range of dates. *)
Class NodeDate := {
  Date_parse : units → option Z;
  toISOString : Z → option units;
}.

(** ** [admission.ts] *)

Record SlotReading := { sr_index : option Z; sr_alive : bool; sr_unresolved : bool }.

Definition busySlots (slots : list SlotReading) (max : Z) : list SlotReading :=
  List.filter (fun s =>
    match sr_index s with
    | Some index => (index <? max) && (sr_alive s || sr_unresolved s)
    | None => false
    end) slots.

Record SlotTurn := { st_claim : bool; st_unverified : list SlotReading }.

Definition slotTurn (position max : Z) (busy : list SlotReading) : SlotTurn :=
  {| st_claim := position <=? max - Z.of_nat (length (List.filter sr_alive busy));
     st_unverified := List.filter sr_unresolved busy |}.

(** What granting reads of a lease; [platform] and [id] only where leases are displaced. *)
Class LeaseReading (T : Type) := {
  lr_holder : T → units;
  lr_slot : T → option units;
  lr_token : T → units;
  lr_expiresAt : T → units;
}.

Inductive LeaseKind := Declared | Run.

#[export] Instance LeaseKind_eq_dec : EqDecision LeaseKind.
Proof. solve_decision. Defined.

Definition slot_or_default (slot : option units) : units := default (js "default") slot.

(** The lease file as [leaseGrant] takes it. *)
Inductive LeaseFile (T : Type) :=
| NoLease
| Unreadable
| SomeLease (lease : T).
Arguments NoLease {T}.
Arguments Unreadable {T}.
Arguments SomeLease {T} lease.

(** [expiresAt] is [None] where it is NaN. *)
Inductive LeaseGrant (T : Type) :=
| GrantUnreadable
| GrantHeld (lease : T)
| GrantSet (lease : T) (expiresAt : option Z) (kind : LeaseKind)
| GrantTaken (expiresAt : Z) (kind : LeaseKind).
Arguments GrantUnreadable {T}.
Arguments GrantHeld {T} lease.
Arguments GrantSet {T} lease expiresAt kind.
Arguments GrantTaken {T} expiresAt kind.

Inductive LeaseRaise (T : Type) :=
| RaiseLost
| RaiseKept (lease : T)
| RaiseRaised (lease : T) (expiresAt : Z).
Arguments RaiseLost {T}.
Arguments RaiseKept {T} lease.
Arguments RaiseRaised {T} lease expiresAt.

Section Leases.
Context `{!NodeDate} {T : Type} `{!LeaseReading T}.

(** A comparison with NaN is false. *)
Definition leaseIsExpired (lease : T) (now : Z) : bool :=
  match Date_parse (lr_expiresAt lease) with Some at_ => at_ <=? now | None => false end.

Definition leaseGrant (lease : LeaseFile T) (root slot : units) (kind : LeaseKind)
    (declared : bool) (now durationMs : Z) : LeaseGrant T :=
  let asked := now + durationMs in
  match lease with
  | Unreadable => GrantUnreadable
  | NoLease => GrantTaken asked kind
  | SomeLease lease =>
      if leaseIsExpired lease now then GrantTaken asked kind
      else if negb (bool_decide (lr_holder lease = root))
              || negb (bool_decide (slot_or_default (lr_slot lease) = slot))
      then GrantHeld lease
      else GrantSet lease
             (if declared && bool_decide (kind = Run)
              then Z.max asked <$> Date_parse (lr_expiresAt lease)
              else Some asked)
             (if declared then Declared else kind)
  end.

(** [platform] and [id] of a lease are given by projections. *)
Definition displacedLeases (platform_of id_of : T → units) (leases : list (option T))
    (root platform slot id : units) : list T :=
  List.filter (fun lease =>
    bool_decide (platform_of lease = platform) && bool_decide (lr_holder lease = root) &&
    bool_decide (slot_or_default (lr_slot lease) = slot) &&
    negb (bool_decide (id_of lease = id))) (omap (fun lease => lease) leases).

Definition leaseRaise (lease : option T) (token : units) (now minMs : Z) : LeaseRaise T :=
  match lease with
  | None => RaiseLost
  | Some lease =>
      if negb (bool_decide (lr_token lease = token)) then RaiseLost
      else
        let floor := now + minMs in
        match Date_parse (lr_expiresAt lease) with
        | Some at_ => if floor <=? at_ then RaiseKept lease else RaiseRaised lease floor
        | None => RaiseRaised lease floor
        end
  end.

End Leases.

(** ** [formatLongDuration] of [command-output.ts], on an integer of milliseconds *)

(** [Math.round(value / 1000)], ties up. *)
Definition total_seconds (ms : Z) : Z := (ms + 500) / 1000.

Definition pad2 (n : Z) : string := if n <? 10 then "0" +:+ pretty n else pretty n.

Definition formatLongDuration (ms : Z) : string :=
  if ms <? 0 then "unknown"
  else
    let totalSeconds := total_seconds ms in
    let hours := totalSeconds / 3600 in
    let minutes := (totalSeconds - hours * 3600) / 60 in
    let seconds := totalSeconds - hours * 3600 - minutes * 60 in
    if 0 <? hours
    then if 0 <? minutes then pretty hours +:+ "h" +:+ pad2 minutes +:+ "m" else pretty hours +:+ "h"
    else if 0 <? minutes
    then if 0 <? seconds then pretty minutes +:+ "m" +:+ pad2 seconds +:+ "s"
         else pretty minutes +:+ "m"
    else pretty seconds +:+ "s".

(** ** [idle.ts] *)

Definition MINUTE_MS : Z := 60000.
Definition IDLE_SETTING : string := "idle.minutes".
Definition PRESSURE_IDLE_MS : Z := 2 * MINUTE_MS.

Inductive IdleStopBasis :=
| StimCommand | NativeRun | MetroRequest | AgentDeviceCommand | StimServerInput | DeviceWindow.

Definition basis_text (b : IdleStopBasis) : string :=
  match b with
  | StimCommand => "stim command"
  | NativeRun => "native run"
  | MetroRequest => "Metro request"
  | AgentDeviceCommand => "agent-device command"
  | StimServerInput => "stim-server input"
  | DeviceWindow => "Simulator or emulator window"
  end.

(** An entry of [activity]; [at] is [None] where it is not finite. *)
Record Activity := { ac_basis : IdleStopBasis; ac_at : option Z }.

Record IdleStopEvidence := { ev_activity : list Activity; ev_keep : list string }.

(** [last] is the entry with its finite time. *)
Inductive IdleStopDecision :=
| IdleStop (idleMs : Z) (last : IdleStopBasis * Z)
| IdleKeep (reason : string) (active : bool) (last : option (IdleStopBasis * Z)).

Fixpoint join (separator : string) (parts : list string) : string :=
  match parts with
  | [] => ""
  | [part] => part
  | part :: parts => part +:+ separator +:+ join separator parts
  end.

Definition finite_activity (activity : list Activity) : list (IdleStopBasis * Z) :=
  omap (fun a => pair (ac_basis a) <$> ac_at a) activity.

(** The [reduce]: the latest entry, the first of several at one time. *)
Definition latest (entries : list (IdleStopBasis * Z)) : option (IdleStopBasis * Z) :=
  fold_left (fun best entry =>
    match best with
    | None => Some entry
    | Some b => if snd b <? snd entry then Some entry else best
    end) entries None.

Definition decideIdleStop (evidence : IdleStopEvidence) (idleMs now : Z) (setting : string) :
    IdleStopDecision :=
  if negb (0 <? idleMs) then IdleKeep (setting +:+ " is 0") false None
  else
    let last := latest (finite_activity (ev_activity evidence)) in
    match last with
    | Some (basis, at_) =>
        let idle := now - at_ in
        if idle <? idleMs
        then IdleKeep ("its last " +:+ basis_text basis +:+ " was "
                       +:+ formatLongDuration (Z.max 0 idle) +:+ " ago, within " +:+ setting)
               true last
        else if negb (bool_decide (ev_keep evidence = []))
        then IdleKeep (join "; " (ev_keep evidence)) false last
        else IdleStop idle (basis, at_)
    | None =>
        if negb (bool_decide (ev_keep evidence = []))
        then IdleKeep (join "; " (ev_keep evidence)) false None
        else IdleKeep "its last activity is unknown" false None
    end.

(** [booted] lists, per booted device, whether a deferred shutdown holds it. *)
Record IdleScopeFacts := {
  sf_protected : bool;
  sf_serving : bool;
  sf_unsupervised : bool;
  sf_simsError : option string;
  sf_booted : list bool;
  sf_foreign : list string;
}.

Inductive IdleScope :=
| ScopeOut
| ScopeKept (kept : string)
| ScopeIn.

Definition idleScope (facts : IdleScopeFacts) : IdleScope :=
  if sf_protected facts || (sf_unsupervised facts && sf_serving facts) then ScopeOut
  else
    match sf_simsError facts with
    | Some e => ScopeKept ("its simulators cannot be listed (" +:+ e +:+ ")")
    | None =>
        if sf_serving facts then ScopeIn
        else if negb (bool_decide (sf_booted facts = []))
        then if forallb id (sf_booted facts) then ScopeOut else ScopeIn
        else if bool_decide (sf_foreign facts = []) then ScopeOut
        else ScopeKept (join ", " (sf_foreign facts) +:+
               " not in this Stim home's created-devices ledger, so the idle stage leaves it")
    end.

Inductive IdleSettings :=
| SettingsError (error : string)
| SettingsRead (keep : bool) (minutes : Z).

Record Placement := { pl_label : string; pl_machine : string }.

(** [orphan] counts where it is a non-empty string. *)
Record IdleKeepFacts := {
  kf_settings : IdleSettings;
  kf_status : string;
  kf_reason : option string;
  kf_command : bool;
  kf_hmrUpdates : bool;
  kf_orphan : option string;
  kf_placements : list Placement;
  kf_unreadable : list string;
  kf_pressured : bool;
}.

Inductive IdleThreshold :=
| KeptBy (kept : string)
| IdleAfter (idleMs minutes : Z).

Definition truthy (s : option string) : option string :=
  match s with Some s => if decide (s = "") then None else Some s | None => None end.

(** [Math.ceil(idleMs / MINUTE_MS)]. *)
Definition ceil_minutes (ms : Z) : Z := (ms + MINUTE_MS - 1) / MINUTE_MS.

Definition idleKeep (facts : IdleKeepFacts) : IdleThreshold :=
  match kf_settings facts with
  | SettingsError error => KeptBy ("its settings cannot be resolved: " +:+ error)
  | SettingsRead keep minutes =>
      if keep then KeptBy "pinned by maintenance.keep"
      else if minutes =? 0 then KeptBy (IDLE_SETTING +:+ " is 0")
      else if bool_decide (kf_status facts = "unverified")
      then KeptBy ("its dev server supervisor cannot be verified: "
                   +:+ default "unknown identity" (kf_reason facts))
      else
        match truthy (kf_orphan facts) with
        | Some orphan => KeptBy orphan
        | None =>
            if bool_decide (kf_status facts = "ours") && kf_command facts
            then KeptBy "its dev server runs metro.command, whose bundle and HMR requests Stim cannot see"
            else if bool_decide (kf_status facts = "ours") && negb (kf_hmrUpdates facts)
            then KeptBy "its dev server does not report its requests to Stim: an Expo SDK before 54, or a server an older Stim started, which stim stop and stim start restart"
            else if negb (bool_decide (kf_unreadable facts = []))
            then KeptBy (join "; " (kf_unreadable facts))
            else
              match kf_placements facts with
              | placement :: _ =>
                  KeptBy ("its " +:+ pl_label placement +:+ " runs on " +:+ pl_machine placement)
              | [] =>
                  let idleMs := if kf_pressured facts
                                then Z.min (minutes * MINUTE_MS) PRESSURE_IDLE_MS
                                else minutes * MINUTE_MS in
                  IdleAfter idleMs (ceil_minutes idleMs)
              end
        end
  end.

(** ** [pressure.ts] *)

Inductive PressureLevel := Normal | High | Critical.
Inductive Cause := Disk | Memory.

#[export] Instance PressureLevel_eq_dec : EqDecision PressureLevel.
Proof. solve_decision. Defined.
#[export] Instance Cause_eq_dec : EqDecision Cause.
Proof. solve_decision. Defined.

Record DaemonPressure := {
  dp_level : PressureLevel;
  dp_disk : PressureLevel;
  dp_memory : PressureLevel;
  dp_reasons : list string;
}.

Definition cause_level (p : DaemonPressure) (c : Cause) : PressureLevel :=
  match c with Disk => dp_disk p | Memory => dp_memory p end.

Record LadderRung := { lg_rung : Z; lg_relieves : list Cause }.

Definition LADDER : list LadderRung :=
  [{| lg_rung := 0; lg_relieves := [Memory] |};
   {| lg_rung := 1; lg_relieves := [Disk] |};
   {| lg_rung := 2; lg_relieves := [Disk] |};
   {| lg_rung := 3; lg_relieves := [Disk] |};
   {| lg_rung := 4; lg_relieves := [Disk] |};
   {| lg_rung := 5; lg_relieves := [Disk] |};
   {| lg_rung := 6; lg_relieves := [Disk; Memory] |}].

Definition rungsFrom (fromRung : option Z) : list LadderRung :=
  List.filter (fun r => default 0 fromRung <=? lg_rung r) LADDER.

Definition causesOf (pressure : DaemonPressure) (relieves : list Cause) : list Cause :=
  List.filter (fun cause => negb (bool_decide (cause_level pressure cause = Normal))) relieves.

Inductive RungDecision :=
| RungStop
| RungSkip
| RungRun (causes : list Cause) (level : PressureLevel).

Definition rungDecision (pressure : DaemonPressure) (relieves : list Cause) : RungDecision :=
  if bool_decide (dp_level pressure = Normal) then RungStop
  else
    let causes := causesOf pressure relieves in
    if bool_decide (causes = []) then RungSkip
    else RungRun causes
           (if existsb (fun cause => bool_decide (cause_level pressure cause = Critical)) causes
            then Critical else High).

(** Readings are a value with its idle time; the comparator is [b.idleMs - a.idleMs]. *)
Definition longestIdleFirst {T} (readings : list (T * option Z)) : list (T * Z) :=
  stable_sort (fun a b => snd b <=? snd a)
    (omap (fun r => pair (fst r) <$> snd r) readings).
