(* ===== verification/DeviceLease.v ===== *)
(** * Device leases: [packages/stim-cli/src/engine/device-lease.ts]

    A lease file per device and, per workspace, a record of the leases it holds. The
    operations run on a [World] of both; the parts of an operation that the code runs under the
    lease lock of one file are single steps of it. The clock and the random token are
    arguments; JSON and dates are the parameters [NodeText] and [NodeDate]. *)

From Stdlib Require Import ZArith Lia.
From stdpp Require Import pretty.
From S2P Require Import Prelude.
From S2P Require Import Bytes.
From S2P Require Import Json.
From S2P Require Import Noise.
From S2P Require Import Policy.
Open Scope Z_scope.

(** ** Device slots: [devices/device-slots.ts] *)

Inductive LeasePlatform := Ios | Android.

#[export] Instance LeasePlatform_eq_dec : EqDecision LeasePlatform.
Proof. solve_decision. Defined.

Definition platform_text (p : LeasePlatform) : units :=
  match p with Ios => js "ios" | Android => js "android" end.

Definition isDeviceSlot (slot : units) : bool :=
  match slot with
  | [] => false
  | u :: rest =>
      is_alnum u && forallb (fun u => is_alnum u || (u =? 95) || (u =? 45)) rest &&
      bool_decide (length rest <= 63)%nat &&
      negb (bool_decide (slot ∈ [js "constructor"; js "prototype"; js "__proto__"]))
  end.

Definition DEVICE_SLOT_RULE : string :=
  "A device slot must be 1-64 letters, digits, underscores or hyphens, starting with a letter or digit.".

Definition validateDeviceSlot (slot : units) : result exn units :=
  if isDeviceSlot slot then Ok slot else Throw (JsError DEVICE_SLOT_RULE).

Definition deviceSlotKey (platform : LeasePlatform) (slot : units) : result exn units :=
  _ ← validateDeviceSlot slot;
  Ok (if decide (slot = js "default") then platform_text platform
      else platform_text platform ++ js ":" ++ slot).

Definition parse_platform (s : units) : option LeasePlatform :=
  if decide (s = js "ios") then Some Ios
  else if decide (s = js "android") then Some Android else None.

Definition parseDeviceSlotKey (key : units) : option (LeasePlatform * units) :=
  match split_on 58 key with
  | [] | _ :: _ :: _ :: _ => None
  | platform :: rest =>
      let slot := match rest with slot :: _ => slot | [] => js "default" end in
      platform ← parse_platform platform;
      match validateDeviceSlot slot, deviceSlotKey platform slot with
      | Ok _, Ok key' => if decide (key = key') then Some (platform, slot) else None
      | _, _ => None
      end
  end.

(** ** Paths *)

(** [segment] of [path-segment.ts]: a run of other characters becomes one hyphen, leading dots
    go, and nothing left is [unknown]. *)
Definition is_segment_char (u : Z) : bool := is_alnum u || (u =? 46) || (u =? 95) || (u =? 45).

Fixpoint collapse (inside : bool) (s : units) : units :=
  match s with
  | [] => []
  | u :: s =>
      if is_segment_char u then u :: collapse false s
      else if inside then collapse true s else 45 :: collapse true s
  end.

Fixpoint drop_dots (s : units) : units :=
  match s with u :: s' => if u =? 46 then drop_dots s' else s | [] => [] end.

Definition segment (value : units) : units :=
  match drop_dots (collapse false value) with [] => js "unknown" | s => s end.

Definition leaseStem (platform : LeasePlatform) (id : units) : units :=
  segment (platform_text platform) ++ js "-" ++ segment id.

(** Lease files are named within the locks directory. *)
Definition LEASE_SUFFIX : units := js ".json".
Definition deviceLeasePath (platform : LeasePlatform) (id : units) : units :=
  leaseStem platform id ++ LEASE_SUFFIX.

(** ** Data *)

Definition LEASE_VERSION : Z := 1.
Definition DEFAULT_LEASE_MS : Z := 5 * 60 * 1000.
Definition MIN_LEASE_MS : Z := 10 * 1000.
Definition MAX_LEASE_MS : Z := 30 * 60 * 1000.

Record DeviceLease := {
  dl_slot : option units;
  dl_platform : LeasePlatform;
  dl_id : units;
  dl_deviceName : option units;
  dl_holder : units;
  dl_token : units;
  dl_grantedAt : option units;
  dl_expiresAt : units;
}.

#[export] Instance DeviceLease_eq_dec : EqDecision DeviceLease.
Proof. solve_decision. Defined.

#[export] Instance DeviceLease_reading : LeaseReading DeviceLease :=
  {| lr_holder := dl_holder; lr_slot := dl_slot; lr_token := dl_token;
     lr_expiresAt := dl_expiresAt |}.

Definition with_expiry (lease : DeviceLease) (deviceName : option units) (expiresAt : units) :
    DeviceLease :=
  {| dl_slot := dl_slot lease; dl_platform := dl_platform lease; dl_id := dl_id lease;
     dl_deviceName := deviceName; dl_holder := dl_holder lease; dl_token := dl_token lease;
     dl_grantedAt := dl_grantedAt lease; dl_expiresAt := expiresAt |}.

Record WorkspaceLeaseRecord := { wl_id : units; wl_token : units; wl_kind : LeaseKind }.

(** The records of a workspace by slot key, in insertion order. *)
Abbreviation WorkspaceLeases := (list (units * WorkspaceLeaseRecord)).

Fixpoint record_of (key : units) (leases : WorkspaceLeases) : option WorkspaceLeaseRecord :=
  match leases with
  | [] => None
  | (k, r) :: leases => if decide (k = key) then Some r else record_of key leases
  end.

(** [{ ...leases, [key]: record }] : an existing key keeps its place. *)
Fixpoint record_set (key : units) (r : WorkspaceLeaseRecord) (leases : WorkspaceLeases) :
    WorkspaceLeases :=
  match leases with
  | [] => [(key, r)]
  | (k, r') :: leases =>
      if decide (k = key) then (key, r) :: leases else (k, r') :: record_set key r leases
  end.

(** [delete leases[key]]. *)
Definition record_delete (key : units) (leases : WorkspaceLeases) : WorkspaceLeases :=
  List.filter (fun entry => negb (bool_decide (fst entry = key))) leases.

(** What [fileLeaseIo] reads and writes: the texts of the lease files by name, in the order
    [listLeaseNames] sorts them, and the records of each workspace. *)
Record World := { w_files : gmap units units; w_holders : gmap units WorkspaceLeases }.

Definition set_file (path text : units) (w : World) : World :=
  {| w_files := <[path := text]> (w_files w); w_holders := w_holders w |}.
Definition remove_file (path : units) (w : World) : World :=
  {| w_files := delete path (w_files w); w_holders := w_holders w |}.
Definition readHolder (root : units) (w : World) : WorkspaceLeases :=
  default [] (w_holders w !! root).
Definition set_holder (root : units) (leases : WorkspaceLeases) (w : World) : World :=
  {| w_files := w_files w; w_holders := <[root := leases]> (w_holders w) |}.

(** ** Parsing *)

Definition text (value : option json) : option units :=
  match value with
  | Some (JString s) => if nonblank s then Some s else None
  | _ => None
  end.

Section Leases.
Context `{!NodeText, !NodeDate}.

Definition parseLease (raw : option units) : option DeviceLease :=
  raw ← raw;
  parsed ← JSON_parse raw;
  match parsed with
  | JObject _ =>
      platform ← match field "platform" parsed with
                 | Some (JString s) => parse_platform s
                 | _ => None
                 end;
      if negb (match field "version" parsed with
               | Some (JNumber n) => n =? LEASE_VERSION
               | _ => false
               end) then None
      else
        id ← text (field "id" parsed);
        holder ← text (field "holder" parsed);
        token ← text (field "token" parsed);
        expiresAt ← text (field "expiresAt" parsed);
        _ ← Date_parse expiresAt;
        slot ← match field "slot" parsed with
               | None => Some None
               | Some (JString s) => if isDeviceSlot s then Some (Some s) else None
               | Some _ => None
               end;
        Some {| dl_slot := slot; dl_platform := platform; dl_id := id;
                dl_deviceName := text (field "deviceName" parsed); dl_holder := holder;
                dl_token := token; dl_grantedAt := text (field "grantedAt" parsed);
                dl_expiresAt := expiresAt |}
  | _ => None
  end.

Definition parse_kind (v : option json) : LeaseKind :=
  match v with
  | Some (JString s) => if decide (s = js "run") then Run else Declared
  | _ => Declared
  end.

Definition parseWorkspaceLeases (value : option json) : WorkspaceLeases :=
  match value with
  | Some (JObject fields) =>
      fold_left (fun leases entry =>
        let '(platform, v) := entry in
        match parseDeviceSlotKey platform, v with
        | Some _, (JObject _ | JArray _) =>
            match text (field "id" v), text (field "token" v) with
            | Some id, Some token =>
                record_set platform
                  {| wl_id := id; wl_token := token; wl_kind := parse_kind (field "kind" v) |}
                  leases
            | _, _ => leases
            end
        | _, _ => leases
        end) fields []
  | _ => []
  end.

(** The text [writeLease] stores. *)
Definition null_or (s : option units) : json :=
  match s with Some s => JString s | None => JNull end.

Definition lease_json (lease : DeviceLease) : json :=
  JObject ([(js "version", JNumber LEASE_VERSION)]
    ++ match dl_slot lease with Some s => [(js "slot", JString s)] | None => [] end
    ++ [(js "platform", JString (platform_text (dl_platform lease)));
        (js "id", JString (dl_id lease));
        (js "deviceName", null_or (dl_deviceName lease));
        (js "holder", JString (dl_holder lease));
        (js "token", JString (dl_token lease));
        (js "grantedAt", null_or (dl_grantedAt lease));
        (js "expiresAt", JString (dl_expiresAt lease))]).

Definition lease_text (lease : DeviceLease) : units := JSON_stringify_2 (lease_json lease) ++ [10].

Definition writeLease (lease : DeviceLease) : M World exn DeviceLease :=
  _ ← modify (set_file (deviceLeasePath (dl_platform lease) (dl_id lease)) (lease_text lease));
  mret lease.

(** ** [parseLeaseDuration] *)

Fixpoint decimal (acc : Z) (digits : units) : Z :=
  match digits with [] => acc | u :: digits => decimal (acc * 10 + (u - 48)) digits end.

(** The error texts are told apart by a constructor. *)
Inductive LeaseDuration :=
| DurationMs (ms : Z)
| DurationShape (raw : units)
| DurationRange (raw : units).

Definition parseLeaseDuration (value : units) : LeaseDuration :=
  let raw := trim value in
  match reverse raw with
  | unit_ :: digits_rev =>
      let digits := reverse digits_rev in
      match digits with
      | d :: _ =>
          if forallb is_digit digits && negb (d =? 48) && ((unit_ =? 115) || (unit_ =? 109)) then
            let ms := decimal 0 digits * (if unit_ =? 115 then 1000 else 60 * 1000) in
            if (ms <? MIN_LEASE_MS) || (MAX_LEASE_MS <? ms) then DurationRange raw
            else DurationMs ms
          else DurationShape raw
      | [] => DurationShape raw
      end
  | [] => DurationShape raw
  end.

(** ** Listing *)

(** [le_path] is the name. *)
Record LeaseFileEntry := {
  le_path : units;
  le_platform : units;
  le_id : option units;
  le_lease : option DeviceLease;
}.

(** [stem.slice(0, cut)] and [stem.slice(cut + 1)] at the first hyphen, when it is not the first
    character. *)
Fixpoint cut_hyphen (s : units) : option (units * units) :=
  match s with
  | [] => None
  | u :: s =>
      if u =? 45 then Some ([], s)
      else '(before, after) ← cut_hyphen s; Some (u :: before, after)
  end.

Definition name_parts (stem : units) : units * option units :=
  match cut_hyphen stem with
  | Some ((_ :: _) as before, after) => (before, Some after)
  | _ => (stem, None)
  end.

Definition lease_names (w : World) : list units :=
  stable_sort units_le (map fst (map_to_list (w_files w))).

Definition listLeaseFiles (w : World) : list LeaseFileEntry :=
  map (fun name =>
         let lease := parseLease (w_files w !! name) in
         let '(platform, id_) := name_parts (take (length name - length LEASE_SUFFIX) name) in
         {| le_path := name;
            le_platform := match lease with
                           | Some l => platform_text (dl_platform l)
                           | None => platform
                           end;
            le_id := match lease with Some l => Some (dl_id l) | None => id_ end;
            le_lease := lease |})
    (List.filter (ends_with LEASE_SUFFIX) (lease_names w)).

(** ** Releasing *)

(** The step under the lease lock of [releaseHeld]. *)
Definition release_token (path token : units) : M World exn (option DeviceLease) :=
  w ← gets id;
  match parseLease (w_files w !! path) with
  | Some current =>
      if decide (dl_token current = token)
      then _ ← modify (remove_file path); mret (Some current)
      else mret None
  | None => mret None
  end.

Definition releaseHeld (root : units) (platform : LeasePlatform) (record : WorkspaceLeaseRecord)
    (slot : units) : M World exn (option DeviceLease) :=
  key ← lift (deviceSlotKey platform slot);
  released ← release_token (deviceLeasePath platform (wl_id record)) (wl_token record);
  w ← gets id;
  let held := readHolder root w in
  _ ← (if bool_decide (wl_token <$> record_of key held = Some (wl_token record))
       then modify (set_holder root (record_delete key held)) else mret tt);
  mret released.

(** All of it is under the lease lock. *)
Definition releaseByRoot (root : units) (platform : LeasePlatform) (id_ : units) :
    M World exn (option DeviceLease) :=
  let path := deviceLeasePath platform id_ in
  w ← gets id;
  match parseLease (w_files w !! path) with
  | Some current =>
      if decide (dl_holder current = root)
      then _ ← modify (remove_file path); mret (Some current)
      else mret None
  | None => mret None
  end.

Record ReleasedLease := {
  rl_platform : LeasePlatform; rl_id : units; rl_deviceName : option units; rl_expiresAt : units }.

Definition summarize (lease : DeviceLease) : ReleasedLease :=
  {| rl_platform := dl_platform lease; rl_id := dl_id lease; rl_deviceName := dl_deviceName lease;
     rl_expiresAt := dl_expiresAt lease |}.

Definition releaseRunLease (root : units) (platform : LeasePlatform) (slot : units) :
    M World exn (option ReleasedLease) :=
  key ← lift (deviceSlotKey platform slot);
  w ← gets id;
  match record_of key (readHolder root w) with
  | Some record =>
      if decide (wl_kind record = Run)
      then released ← releaseHeld root platform record slot; mret (summarize <$> released)
      else mret None
  | None => mret None
  end.

(** The loops of [releaseWorkspaceLeases], over what was read at their start. *)
Definition wanted (platform : option LeasePlatform) (slot : option units) (p : LeasePlatform)
    (s : units) : bool :=
  match platform with Some p' => bool_decide (p = p') | None => true end &&
  match slot with Some s' => bool_decide (s = s') | None => true end.

Fixpoint release_records (root : units) (platform : option LeasePlatform) (slot : option units)
    (records : WorkspaceLeases) : M World exn (list ReleasedLease) :=
  match records with
  | [] => mret []
  | (name, record) :: records =>
      match parseDeviceSlotKey name with
      | Some (p, s) =>
          if wanted platform slot p s then
            lease ← releaseHeld root p record s;
            rest ← release_records root platform slot records;
            mret (option_list (summarize <$> lease) ++ rest)
          else release_records root platform slot records
      | None => release_records root platform slot records
      end
  end.

Fixpoint release_files (root : units) (platform : option LeasePlatform) (slot : option units)
    (entries : list LeaseFileEntry) : M World exn (list ReleasedLease) :=
  match entries with
  | [] => mret []
  | entry :: entries =>
      match le_lease entry with
      | Some lease =>
          if bool_decide (dl_holder lease = root) &&
             wanted platform slot (dl_platform lease) (slot_or_default (dl_slot lease)) then
            byRoot ← releaseByRoot root (dl_platform lease) (dl_id lease);
            rest ← release_files root platform slot entries;
            mret (option_list (summarize <$> byRoot) ++ rest)
          else release_files root platform slot entries
      | None => release_files root platform slot entries
      end
  end.

Definition releaseWorkspaceLeases (root : units) (platform : option LeasePlatform)
    (slot : option units) : M World exn (list ReleasedLease) :=
  w ← gets id;
  records ← release_records root platform slot (readHolder root w);
  w ← gets id;
  files ← release_files root platform slot (listLeaseFiles w);
  mret (records ++ files).

(** ** Taking *)

Inductive TakeLeaseResult :=
| TakeTaken (lease : DeviceLease)
| TakeSet (lease : DeviceLease)
| TakeHeld (lease : DeviceLease)
| TakeUnreadable (path : units).

Record TakeLease := {
  tk_root : units;
  tk_platform : LeasePlatform;
  tk_slot : units;
  tk_id : units;
  tk_deviceName : option units;
  tk_kind : LeaseKind;
  tk_durationMs : Z;
}.

Definition read_lease_file (path : units) (w : World) : LeaseFile DeviceLease :=
  match w_files w !! path with
  | None => NoLease
  | Some raw => match parseLease (Some raw) with Some l => SomeLease l | None => Unreadable end
  end.

(** [new Date(ms).toISOString()], which throws on NaN and outside the range of dates. *)
Definition iso (ms : option Z) : result exn units :=
  match ms ≫= toISOString with
  | Some text => Ok text
  | None => Throw (RangeError "Invalid time value")
  end.

(** A device that was free, or whose lease expired, gets a new lease. *)
Definition write_taken (req : TakeLease) (now expiresAt : Z) (token : units) (kind : LeaseKind) :
    M World exn (TakeLeaseResult * option LeaseKind) :=
  grantedAt ← lift (iso (Some now));
  expires ← lift (iso (Some expiresAt));
  lease ← writeLease
    {| dl_slot := if decide (tk_slot req = js "default") then None else Some (tk_slot req);
       dl_platform := tk_platform req; dl_id := tk_id req;
       dl_deviceName := tk_deviceName req; dl_holder := tk_root req; dl_token := token;
       dl_grantedAt := Some grantedAt; dl_expiresAt := expires |};
  mret (TakeTaken lease, Some kind).

(** The step under the lease lock. *)
Definition grant_step (req : TakeLease) (declared : bool) (now : Z) (token : units) :
    M World exn (TakeLeaseResult * option LeaseKind) :=
  let path := deviceLeasePath (tk_platform req) (tk_id req) in
  w ← gets id;
  match leaseGrant (read_lease_file path w) (tk_root req) (tk_slot req) (tk_kind req) declared now
          (tk_durationMs req) with
  | GrantUnreadable => mret (TakeUnreadable path, None)
  | GrantHeld lease => mret (TakeHeld lease, None)
  | GrantSet lease expiresAt kind =>
      expires ← lift (iso expiresAt);
      let deviceName := match tk_deviceName req with Some n => Some n | None => dl_deviceName lease end in
      lease ← writeLease (with_expiry lease deviceName expires);
      mret (TakeSet lease, Some kind)
  | GrantTaken expiresAt kind => write_taken req now expiresAt token kind
  end.

Fixpoint release_others (root : units) (platform : LeasePlatform) (others : list DeviceLease) :
    M World exn unit :=
  match others with
  | [] => mret tt
  | other :: others =>
      _ ← releaseByRoot root platform (dl_id other); release_others root platform others
  end.

Definition granted_token (r : TakeLeaseResult) : option units :=
  match r with TakeTaken l | TakeSet l => Some (dl_token l) | _ => None end.

(** The lease this slot held on another device goes first. *)
Definition release_previous (req : TakeLease) (previous : option WorkspaceLeaseRecord) :
    M World exn unit :=
  match previous with
  | Some p => if decide (wl_id p ≠ tk_id req)
              then _ ← releaseHeld (tk_root req) (tk_platform req) p (tk_slot req); mret tt
              else mret tt
  | None => mret tt
  end.

Definition takeLease (req : TakeLease) (now : Z) (token : units) : M World exn TakeLeaseResult :=
  key ← lift (deviceSlotKey (tk_platform req) (tk_slot req));
  w ← gets id;
  let previous := record_of key (readHolder (tk_root req) w) in
  _ ← release_previous req previous;
  w ← gets id;
  let others := displacedLeases (fun l => platform_text (dl_platform l)) dl_id
    (map le_lease (listLeaseFiles w)) (tk_root req) (platform_text (tk_platform req))
    (tk_slot req) (tk_id req) in
  _ ← release_others (tk_root req) (tk_platform req) others;
  let declared := match previous with
                  | Some p => bool_decide (wl_kind p = Declared) && bool_decide (wl_id p = tk_id req)
                  | None => false
                  end in
  '(res, recorded) ← grant_step req declared now token;
  _ ← match recorded, granted_token res with
      | Some kind, Some tok =>
          modify (fun w => set_holder (tk_root req)
            (record_set key {| wl_id := tk_id req; wl_token := tok; wl_kind := kind |}
               (readHolder (tk_root req) w)) w)
      | _, _ => mret tt
      end;
  mret res.

(** ** Raising and dropping *)

Inductive RaiseLeaseResult :=
| RaisedTo (lease : DeviceLease)
| RaiseNone
| RaiseLostTo (lease : option DeviceLease).

Definition raiseLease (root : units) (platform : LeasePlatform) (slot : units) (minMs now : Z) :
    M World exn RaiseLeaseResult :=
  key ← lift (deviceSlotKey platform slot);
  w ← gets id;
  match record_of key (readHolder root w) with
  | None => mret RaiseNone
  | Some record =>
      let current := parseLease (w_files w !! deviceLeasePath platform (wl_id record)) in
      match leaseRaise current (wl_token record) now minMs with
      | RaiseLost => mret (RaiseLostTo current)
      | RaiseKept lease => mret (RaisedTo lease)
      | RaiseRaised lease expiresAt =>
          expires ← lift (iso (Some expiresAt));
          lease ← writeLease (with_expiry lease (dl_deviceName lease) expires);
          mret (RaisedTo lease)
      end
  end.

Definition dropExpiredLease (path : units) (now : Z) : M World exn bool :=
  w ← gets id;
  match parseLease (w_files w !! path) with
  | Some current =>
      if leaseIsExpired current now then _ ← modify (remove_file path); mret true else mret false
  | None => mret false
  end.

Definition removeExpiredLease (entry : LeaseFileEntry) (now : Z) : M World exn bool :=
  match le_lease entry with
  | None => mret false
  | Some _ => dropExpiredLease (le_path entry) now
  end.

(** ** Selecting a pool device *)

Record PoolCandidate := { pc_id : units; pc_fallback : bool }.
Record PoolHolder := { ph_id : units; ph_holder : units; ph_expiresAt : units }.

Inductive PoolSelection :=
| PoolSelected (candidate : PoolCandidate)
| PoolHeldDisconnected (id : units)
| PoolBusy (holders : list PoolHolder) (spare : list units)
| PoolNone.

(** [String.prototype.toLowerCase] is a parameter. *)
Variable toLowerCase : units → units.

(** [new Map(leases.map(...)).get(id)]: the last lease of the id. *)
Definition lease_by_id (leases : list DeviceLease) (id_ : units) : option DeviceLease :=
  last (List.filter (fun l => bool_decide (dl_id l = id_)) leases).

Definition pool_free (leases : list DeviceLease) (now : Z) (c : PoolCandidate) : bool :=
  match lease_by_id leases (pc_id c) with
  | Some lease => leaseIsExpired lease now
  | None => true
  end.

Fixpoint pool_pick (leases : list DeviceLease) (now : Z) (pool : list PoolCandidate) :
    PoolCandidate + list PoolHolder :=
  match pool with
  | [] => inr []
  | c :: pool =>
      if pool_free leases now c then inl c
      else
        match pool_pick leases now pool, lease_by_id leases (pc_id c) with
        | inl c, _ => inl c
        | inr holders, Some lease =>
            inr ({| ph_id := dl_id lease; ph_holder := dl_holder lease;
                    ph_expiresAt := dl_expiresAt lease |} :: holders)
        | inr holders, None => inr holders
        end
  end.

(** The selection once the candidates are ordered and none is held. *)
Definition pool_select (leases : list DeviceLease) (now : Z) (ordered : list PoolCandidate) :
    PoolSelection :=
  let preferred := List.filter (fun c => negb (pc_fallback c)) ordered in
  let pool := match preferred with [] => ordered | _ => preferred end in
  match pool with
  | [] => PoolNone
  | _ =>
      match pool_pick leases now pool with
      | inl c => PoolSelected c
      | inr holders =>
          PoolBusy holders
            (map pc_id (List.filter (fun c => pc_fallback c && pool_free leases now c) ordered))
      end
  end.

Definition selectPoolDevice (candidates : list PoolCandidate) (leases : list DeviceLease)
    (held : option units) (now : Z) : PoolSelection :=
  let ordered := stable_sort (fun a b => units_le (toLowerCase (pc_id a)) (toLowerCase (pc_id b)))
                   candidates in
  match held with
  | Some ((_ :: _) as h) =>
      match find (fun c => bool_decide (pc_id c = h)) ordered with
      | Some mine => PoolSelected mine
      | None => PoolHeldDisconnected h
      end
  | _ => pool_select leases now ordered
  end.

End Leases.
