(* ===== verification/DeviceLeaseFacts.v ===== *)
(** * Correctness of device leases

    Lease files round trip; no operation of one workspace touches another workspace's
    unexpired lease, whatever the history; a granted lease is on disk and recorded. *)

From Stdlib Require Import ZArith Lia.
From S2P Require Import Prelude.
From S2P Require Import Bytes.
From S2P Require Import Json.
From S2P Require Import Noise.
From S2P Require Import Policy.
From S2P Require Import DeviceLease.
Open Scope Z_scope.

(** A JSON value without members of its own. *)
Definition scalar (v : json) : Prop :=
  match v with JArray _ | JObject _ => False | _ => True end.

(** What the leases rely on from the standard library: an object of distinct keys and scalar
    values reads back from its text, with a newline after it, and an ISO date parses to its time. *)
Class LeaseLaws `(NodeText) : Prop := {
  parse_stringified fields :
    NoDup (fst <$> fields) → Forall scalar (snd <$> fields) →
    JSON_parse (JSON_stringify_2 (JObject fields) ++ [10]) = Some (JObject fields);
}.

Section Facts.
Context `{LeaseLaws} `{!NodeDate}.

(** ** Lease files *)

(** A lease that [parseLease] can return. *)
Definition lease_ok (l : DeviceLease) : Prop :=
  nonblank (dl_id l) = true ∧ nonblank (dl_holder l) = true ∧ nonblank (dl_token l) = true ∧
  nonblank (dl_expiresAt l) = true ∧ is_Some (Date_parse (dl_expiresAt l)) ∧
  (∀ s, dl_slot l = Some s → isDeviceSlot s = true) ∧
  (∀ s, dl_deviceName l = Some s → nonblank s = true) ∧
  (∀ s, dl_grantedAt l = Some s → nonblank s = true).

Lemma parse_lease_text l : JSON_parse (lease_text l) = Some (lease_json l).
Proof.
  unfold lease_text, lease_json. apply parse_stringified.
  - destruct (dl_slot l); cbn;
      repeat (apply NoDup_cons; split; [intros Hin; apply list_elem_of_In in Hin; cbn in Hin;
        intuition discriminate|]); apply NoDup_nil_2.
  - destruct (dl_slot l), (dl_deviceName l), (dl_grantedAt l); cbn; repeat constructor.
Qed.

Lemma text_string s : nonblank s = true → text (Some (JString s)) = Some s.
Proof. cbn. by intros ->. Qed.

Lemma text_null_or s :
  (∀ x, s = Some x → nonblank x = true) → text (Some (null_or s)) = s.
Proof. destruct s as [x|]; cbn; [|done]. intros Hx. by rewrite Hx. Qed.

Lemma parse_platform_text p : parse_platform (platform_text p) = Some p.
Proof. by destruct p. Qed.

Lemma lease_fields l :
  field "version" (lease_json l) = Some (JNumber LEASE_VERSION) ∧
  field "slot" (lease_json l) = JString <$> dl_slot l ∧
  field "platform" (lease_json l) = Some (JString (platform_text (dl_platform l))) ∧
  field "id" (lease_json l) = Some (JString (dl_id l)) ∧
  field "deviceName" (lease_json l) = Some (null_or (dl_deviceName l)) ∧
  field "holder" (lease_json l) = Some (JString (dl_holder l)) ∧
  field "token" (lease_json l) = Some (JString (dl_token l)) ∧
  field "grantedAt" (lease_json l) = Some (null_or (dl_grantedAt l)) ∧
  field "expiresAt" (lease_json l) = Some (JString (dl_expiresAt l)).
Proof. unfold lease_json. destruct (dl_slot l); repeat split; reflexivity. Qed.

(** [parseLease] of a written lease, with the fields read. *)
Lemma parse_written_eq l :
  parseLease (Some (lease_text l)) =
    (id_ ← text (Some (JString (dl_id l)));
     holder ← text (Some (JString (dl_holder l)));
     token ← text (Some (JString (dl_token l)));
     expiresAt ← text (Some (JString (dl_expiresAt l)));
     _ ← Date_parse expiresAt;
     slot ← match dl_slot l with
            | None => Some None
            | Some s => if isDeviceSlot s then Some (Some s) else None
            end;
     Some {| dl_slot := slot; dl_platform := dl_platform l; dl_id := id_;
             dl_deviceName := text (Some (null_or (dl_deviceName l))); dl_holder := holder;
             dl_token := token; dl_grantedAt := text (Some (null_or (dl_grantedAt l)));
             dl_expiresAt := expiresAt |}).
Proof.
  destruct (lease_fields l) as (Hv & Hs & Hp & Hi & Hd & Hh & Ht & Hg & He).
  unfold parseLease. cbn [mbind option_bind]. rewrite parse_lease_text. cbn [mbind option_bind].
  rewrite Hv, Hs, Hp, Hi, Hd, Hh, Ht, Hg, He, parse_platform_text. cbn [mbind option_bind].
  unfold lease_json at 1. by destruct (dl_slot l).
Qed.

(** The holder and the token of a file are those of the lease it was written from. *)
Lemma parse_written l l' :
  parseLease (Some (lease_text l)) = Some l' →
  dl_holder l' = dl_holder l ∧ dl_token l' = dl_token l ∧ dl_platform l' = dl_platform l ∧
  dl_id l' = dl_id l.
Proof.
  rewrite parse_written_eq. unfold text. intros Hp.
  destruct (nonblank (dl_id l)); [|done]. destruct (nonblank (dl_holder l)); [|done].
  destruct (nonblank (dl_token l)); [|done]. destruct (nonblank (dl_expiresAt l)); [|done].
  cbn [mbind option_bind] in Hp. destruct (Date_parse _); [|done]. cbn [mbind option_bind] in Hp.
  destruct (match dl_slot l with None => _ | Some _ => _ end); [|done].
  by injection Hp as <-.
Qed.

Lemma lease_reads_back l : lease_ok l → parseLease (Some (lease_text l)) = Some l.
Proof.
  intros (Hid & Hh & Ht & He & [t Hd] & Hs & Hn & Hg). rewrite parse_written_eq.
  rewrite !text_string, !text_null_or by done. cbn [mbind option_bind]. rewrite Hd.
  cbn [mbind option_bind]. destruct l as [[s|]]; cbn in *; [|done]. by rewrite Hs.
Qed.

Lemma text_nonblank v s : text v = Some s → nonblank s = true.
Proof. unfold text. intros Ht. repeat case_match; simplify_eq/=; done. Qed.

(** What [parseLease] returns is a lease that writes and reads back. *)
Lemma parse_lease_ok raw l : parseLease raw = Some l → lease_ok l.
Proof.
  unfold parseLease. intros Hp. apply bind_Some in Hp as (r & -> & Hp).
  apply bind_Some in Hp as (v & _ & Hp). destruct v as [| | | | | |fields]; try done.
  apply bind_Some in Hp as (p & _ & Hp). destruct (negb _); [done|].
  apply bind_Some in Hp as (i & Hi & Hp). apply bind_Some in Hp as (h & Hh & Hp).
  apply bind_Some in Hp as (t & Ht & Hp). apply bind_Some in Hp as (e & He & Hp).
  apply bind_Some in Hp as (d & Hd & Hp). apply bind_Some in Hp as (sl & Hsl & Hp).
  injection Hp as <-. unfold lease_ok. cbn -[text field].
  split_and!; eauto using text_nonblank.
  intros s ->. repeat case_match; simplify_eq/=; done.
Qed.

(** ** What an operation of one workspace may change *)

Definition lease_at (w : World) (path : units) (l : DeviceLease) : Prop :=
  parseLease (w_files w !! path) = Some l.

(** Every file is named for its lease; leases with one token have one holder; a workspace records
    tokens of its own leases only. *)
Record lease_inv (w : World) : Prop := {
  inv_placed path l : lease_at w path l → path = deviceLeasePath (dl_platform l) (dl_id l);
  inv_tokens p1 p2 l1 l2 :
    lease_at w p1 l1 → lease_at w p2 l2 → dl_token l1 = dl_token l2 → dl_holder l1 = dl_holder l2;
  inv_owned root key r path l :
    (key, r) ∈ readHolder root w → lease_at w path l → dl_token l = wl_token r →
    dl_holder l = root;
}.

Definition token_fresh (token : units) (w : World) : Prop :=
  (∀ path l, lease_at w path l → dl_token l ≠ token) ∧
  (∀ root key r, (key, r) ∈ readHolder root w → wl_token r ≠ token).

(** Releasing removes files of leases [root] holds, and records. *)
Definition shrinks (root : units) (w w' : World) : Prop :=
  (∀ p, w_files w' !! p = w_files w !! p ∨
        w_files w' !! p = None ∧ ∃ l, lease_at w p l ∧ dl_holder l = root) ∧
  (∀ r e, e ∈ readHolder r w' → e ∈ readHolder r w).

#[local] Instance shrinks_preorder root : PreOrder (shrinks root).
Proof.
  split.
  - intros w. split; auto.
  - intros w1 w2 w3 [F1 R1] [F2 R2]. split; [|eauto].
    intros p. destruct (F2 p) as [E2|[E2 (l & Hl & Ho)]].
    + rewrite E2. apply F1.
    + right. split; [done|]. destruct (F1 p) as [E1|[E1 _]].
      * unfold lease_at in *. rewrite E1 in Hl. eauto.
      * unfold lease_at in Hl. by rewrite E1 in Hl.
Qed.

Lemma shrinks_lease root w w' p l : shrinks root w w' → lease_at w' p l → lease_at w p l.
Proof.
  intros [F _] Hl. unfold lease_at in *. destruct (F p) as [E|[E _]]; rewrite E in Hl; done.
Qed.

Lemma shrinks_inv root w w' : shrinks root w w' → lease_inv w → lease_inv w'.
Proof.
  intros Hs [I1 I2 I3]. pose proof (λ p l, shrinks_lease _ _ _ p l Hs) as Hl.
  destruct Hs as [_ R]. split; eauto.
Qed.

Lemma shrinks_fresh root w w' t : shrinks root w w' → token_fresh t w → token_fresh t w'.
Proof.
  intros Hs [F1 F2]. pose proof (λ p l, shrinks_lease _ _ _ p l Hs) as Hl.
  destruct Hs as [_ R]. split; eauto.
Qed.

(** Files with this token are all [root]'s. *)
Definition mine (root token : units) (w : World) : Prop :=
  ∀ p l, lease_at w p l → dl_token l = token → dl_holder l = root.

Lemma shrinks_mine root w w' t : shrinks root w w' → mine root t w → mine root t w'.
Proof. intros Hs Hm p l Hl. apply (Hm p). by eapply shrinks_lease. Qed.

Lemma lookup_remove_file p path w :
  w_files (remove_file path w) !! p = if decide (p = path) then None else w_files w !! p.
Proof.
  cbn. case_decide as Hp; [subst p; apply lookup_delete_eq|by apply lookup_delete_ne].
Qed.

Lemma remove_shrinks root path w l :
  lease_at w path l → dl_holder l = root → shrinks root w (remove_file path w).
Proof.
  intros Hl Ho. split; [|done]. intros p. rewrite lookup_remove_file.
  case_decide; [subst p; right; eauto|by left].
Qed.

Lemma releaseByRoot_shrinks root platform i w :
  shrinks root w (fst (releaseByRoot root platform i w)).
Proof.
  unfold releaseByRoot, mbind, M_bind, gets, id, modify. case_match eqn:Hp; [|reflexivity].
  case_decide; [|reflexivity]. by eapply remove_shrinks.
Qed.

Lemma release_token_shrinks root path token w :
  mine root token w → shrinks root w (fst (release_token path token w)).
Proof.
  intros Hm. unfold release_token, mbind, M_bind, gets, id, modify.
  case_match eqn:Hp; [|reflexivity]. case_decide as Ht; [|reflexivity].
  eapply remove_shrinks; [exact Hp|]. by eapply Hm.
Qed.

Lemma lookup_set_holder root r leases w :
  readHolder r (set_holder root leases w) =
    if decide (r = root) then leases else readHolder r w.
Proof.
  unfold readHolder, set_holder. cbn. case_decide as Hr.
  - subst r. by rewrite lookup_insert_eq.
  - by rewrite lookup_insert_ne.
Qed.

Lemma record_delete_subset key leases e : e ∈ record_delete key leases → e ∈ leases.
Proof.
  unfold record_delete. intros He. apply list_elem_of_In, filter_In in He as [He _].
  by apply list_elem_of_In.
Qed.

Lemma releaseHeld_shrinks root platform r slot w :
  mine root (wl_token r) w → shrinks root w (fst (releaseHeld root platform r slot w)).
Proof.
  intros Hm. unfold releaseHeld. unfold mbind at 1, M_bind at 1, lift.
  destruct (deviceSlotKey platform slot) as [key|e]; [|reflexivity].
  unfold mbind at 1, M_bind at 1.
  pose proof (release_token_shrinks root (deviceLeasePath platform (wl_id r)) (wl_token r) w Hm) as Hs.
  destruct (release_token _ _ w) as [w1 [released|e]]; [|done]. cbn in Hs. etrans; [exact Hs|].
  unfold mbind, M_bind, gets, id. case_bool_decide; [|reflexivity]. cbn.
  split; [by left|]. intros r' e He. rewrite lookup_set_holder in He. case_decide; [|done].
  subst r'. by apply record_delete_subset in He.
Qed.

#[local] Hint Resolve releaseByRoot_shrinks : stim.

Lemma release_files_shrinks root platform slot entries :
  preserves (shrinks root) (release_files root platform slot entries).
Proof.
  induction entries as [|e entries IH]; cbn [release_files]; preserve; intros w;
    apply releaseByRoot_shrinks.
Qed.

Lemma release_others_shrinks root platform others :
  preserves (shrinks root) (release_others root platform others).
Proof.
  induction others as [|o others IH]; cbn [release_others]; preserve; intros w;
    apply releaseByRoot_shrinks.
Qed.

Lemma release_records_shrinks root platform slot records w :
  (∀ e, e ∈ records → mine root (wl_token e.2) w) →
  shrinks root w (fst (release_records root platform slot records w)).
Proof.
  revert w. induction records as [|[name r] records IH]; intros w Hm; [reflexivity|].
  cbn [release_records].
  assert (Hrest : ∀ w', shrinks root w w' → ∀ e, e ∈ records → mine root (wl_token e.2) w').
  { intros w' Hs e He. eapply shrinks_mine; [exact Hs|]. apply Hm. by right. }
  destruct (parseDeviceSlotKey name) as [[p sl]|];
    [|apply IH; by apply Hrest; reflexivity].
  destruct (wanted platform slot p sl); [|apply IH; by apply Hrest; reflexivity].
  unfold mbind at 1, M_bind at 1.
  assert (shrinks root w (fst (releaseHeld root p r sl w))) as Hs.
  { apply releaseHeld_shrinks. apply (Hm (name, r)). by left. }
  destruct (releaseHeld root p r sl w) as [w1 [l|e]]; [|done]. cbn in Hs.
  etrans; [exact Hs|]. specialize (IH w1 (Hrest w1 Hs)). unfold mbind, M_bind.
  by destruct (release_records root platform slot records w1) as [w2 [rest|e]].
Qed.

Lemma owned_mine root key r w :
  lease_inv w → (key, r) ∈ readHolder root w → mine root (wl_token r) w.
Proof. intros [_ _ I3] Hin p l Hl Ht. by eapply I3. Qed.

Lemma releaseWorkspaceLeases_shrinks root platform slot w :
  lease_inv w → shrinks root w (fst (releaseWorkspaceLeases root platform slot w)).
Proof.
  intros Hi. unfold releaseWorkspaceLeases. unfold mbind at 1, M_bind at 1, gets, id.
  unfold mbind at 1, M_bind at 1.
  assert (shrinks root w (fst (release_records root platform slot (readHolder root w) w))) as Hs.
  { apply release_records_shrinks. intros [key r] He. by eapply owned_mine. }
  destruct (release_records _ _ _ _ w) as [w1 [rs|e]]; [|done]. cbn in Hs. etrans; [exact Hs|].
  apply preserves_bind; [apply _|intros w2; reflexivity|intros w2].
  apply preserves_bind; [apply _|apply release_files_shrinks|intros fs w3; reflexivity].
Qed.

Lemma record_of_elem key leases r : record_of key leases = Some r → (key, r) ∈ leases.
Proof.
  induction leases as [|[k r'] leases IH]; cbn; [done|]. case_decide; [|by right; auto].
  intros [= ->]. subst. by left.
Qed.

Lemma releaseRunLease_shrinks root platform slot w :
  lease_inv w → shrinks root w (fst (releaseRunLease root platform slot w)).
Proof.
  intros Hi. unfold releaseRunLease. unfold mbind at 1, M_bind at 1, lift.
  destruct (deviceSlotKey platform slot) as [key|e]; [|reflexivity].
  unfold mbind at 1, M_bind at 1, gets, id.
  destruct (record_of key (readHolder root w)) as [r|] eqn:Hr; [|reflexivity].
  case_decide; [|reflexivity]. unfold mbind, M_bind.
  assert (shrinks root w (fst (releaseHeld root platform r slot w))) as Hs.
  { apply releaseHeld_shrinks. eapply owned_mine; [done|]. by apply record_of_elem in Hr. }
  by destruct (releaseHeld root platform r slot w) as [w1 [l|e]].
Qed.

(** ** Writes *)

(** Another workspace's unexpired leases stay as they are. *)
Definition untouched (root : units) (now : Z) (w w' : World) : Prop :=
  ∀ p l, lease_at w p l → dl_holder l ≠ root → leaseIsExpired l now = false →
         w_files w' !! p = w_files w !! p.

Definition safe (root : units) (now : Z) (w w' : World) : Prop :=
  lease_inv w' ∧ untouched root now w w'.

Lemma shrinks_safe root now w w' : lease_inv w → shrinks root w w' → safe root now w w'.
Proof.
  intros Hi Hs. split; [by eapply shrinks_inv|]. intros p l Hl Ho _.
  destruct Hs as [F _]. destruct (F p) as [E|[_ (l' & Hl' & Ho')]]; [done|].
  unfold lease_at in *. congruence.
Qed.

(** A write by [root] is allowed over no lease, an expired one or its own, under a token that is
    fresh or already its own. *)
Definition may_write (root : units) (now : Z) (w : World) (l : DeviceLease) : Prop :=
  dl_holder l = root ∧
  (∀ l', lease_at w (deviceLeasePath (dl_platform l) (dl_id l)) l' →
     dl_holder l' = root ∨ leaseIsExpired l' now = true) ∧
  mine root (dl_token l) w ∧
  (∀ r key rec, (key, rec) ∈ readHolder r w → wl_token rec = dl_token l → r = root).

Lemma write_safe root now w l :
  lease_inv w → may_write root now w l →
  safe root now w (set_file (deviceLeasePath (dl_platform l) (dl_id l)) (lease_text l) w).
Proof.
  intros [I1 I2 I3] (Ho & Hover & Hmine & Hrec).
  set (path := deviceLeasePath (dl_platform l) (dl_id l)) in *.
  assert (Hcase : ∀ p l', lease_at (set_file path (lease_text l) w) p l' →
    (p = path ∧ dl_holder l' = root ∧ dl_token l' = dl_token l ∧
     path = deviceLeasePath (dl_platform l') (dl_id l')) ∨ lease_at w p l').
  { intros p l' Hl'. unfold lease_at in Hl'. cbn in Hl'. destruct (decide (p = path)) as [->|Hne].
    - rewrite lookup_insert_eq in Hl'. apply parse_written in Hl' as (? & ? & Hp & Hid).
      left. split_and!; try congruence. by rewrite Hp, Hid.
    - rewrite lookup_insert_ne in Hl' by done. by right. }
  split; [split|].
  - intros p l' [(-> & _ & _ & Hp)|Hl']%Hcase; [done|by apply I1].
  - intros p1 p2 l1 l2 [(_ & Ho1 & T1 & _)|L1]%Hcase [(_ & Ho2 & T2 & _)|L2]%Hcase Ht;
      try congruence; [| |by eapply I2].
    + rewrite Ho1. symmetry. eapply Hmine; [exact L2|congruence].
    + rewrite Ho2. eapply Hmine; [exact L1|congruence].
  - intros r key rec p l' Hin [(_ & Ho1 & T1 & _)|L1]%Hcase Ht; [|by eapply I3].
    rewrite Ho1. symmetry. eapply Hrec; [exact Hin|congruence].
  - intros p l' Hl' Hne Hexp. cbn. destruct (decide (p = path)) as [->|Hp];
      [|by apply lookup_insert_ne].
    destruct (Hover l' Hl'); congruence.
Qed.

Definition granted (r : TakeLeaseResult) (l : DeviceLease) : Prop :=
  r = TakeTaken l ∨ r = TakeSet l.

Definition taken_lease (req : TakeLease) (token grantedAt expiresAt : units) : DeviceLease :=
  {| dl_slot := if decide (tk_slot req = js "default") then None else Some (tk_slot req);
     dl_platform := tk_platform req; dl_id := tk_id req;
     dl_deviceName := tk_deviceName req; dl_holder := tk_root req; dl_token := token;
     dl_grantedAt := Some grantedAt; dl_expiresAt := expiresAt |}.

Lemma fresh_may_write req now token grantedAt expiresAt w :
  token_fresh token w →
  (∀ l, lease_at w (deviceLeasePath (tk_platform req) (tk_id req)) l →
     leaseIsExpired l now = true) →
  may_write (tk_root req) now w (taken_lease req token grantedAt expiresAt).
Proof.
  intros [Hf1 Hf2] He. unfold may_write. cbn. split_and!; [done|by eauto| |].
  - intros p l Hl Ht. by destruct (Hf1 p l).
  - intros r key rec Hin Ht. by destruct (Hf2 r key rec).
Qed.

Lemma own_may_write w path lease root now name expires :
  lease_inv w → lease_at w path lease → dl_holder lease = root →
  may_write root now w (with_expiry lease name expires).
Proof.
  intros [I1 I2 I3] Hat Ho. unfold may_write. cbn. rewrite <- (I1 _ _ Hat).
  split_and!; [done| | |].
  - intros l' Hl'. left. unfold lease_at in *. congruence.
  - intros p l Hl Ht. rewrite <- Ho. by eapply I2.
  - intros r key rec Hin Ht. rewrite <- Ho. symmetry. by eapply I3.
Qed.

Lemma read_lease_file_at path w lease :
  read_lease_file path w = SomeLease lease → lease_at w path lease.
Proof.
  unfold read_lease_file, lease_at. destruct (w_files w !! path); [|done].
  destruct (parseLease (Some _)) eqn:Hp; [|done]. congruence.
Qed.

(** The step under the lease lock leaves the world alone or writes one lease it may write. *)
Definition grant_outcome (req : TakeLease) (now : Z) (w : World)
    (out : World * result exn (TakeLeaseResult * option LeaseKind)) : Prop :=
  (fst out = w ∧ ∀ r k, snd out = Ok (r, k) → k = None ∧ granted_token r = None) ∨
  ∃ l kind r, may_write (tk_root req) now w l ∧ granted r l ∧
    deviceLeasePath (dl_platform l) (dl_id l) = deviceLeasePath (tk_platform req) (tk_id req) ∧
    slot_or_default (dl_slot l) = tk_slot req ∧
    out = (set_file (deviceLeasePath (dl_platform l) (dl_id l)) (lease_text l) w, Ok (r, Some kind)).

Lemma write_taken_cases req now expiresAt token kind w :
  token_fresh token w →
  (∀ l, lease_at w (deviceLeasePath (tk_platform req) (tk_id req)) l →
     leaseIsExpired l now = true) →
  grant_outcome req now w (write_taken req now expiresAt token kind w).
Proof.
  intros Hf He. unfold write_taken, mbind, M_bind, lift.
  destruct (iso (Some now)) as [grantedAt|]; [|left; by split].
  destruct (iso (Some expiresAt)) as [expires|]; [|left; by split].
  right. exists (taken_lease req token grantedAt expires), kind,
    (TakeTaken (taken_lease req token grantedAt expires)).
  split_and!; [by apply fresh_may_write|by left|done| |done]. cbn. by case_decide.
Qed.

Lemma grant_step_cases req declared now token w :
  lease_inv w → token_fresh token w →
  grant_outcome req now w (grant_step req declared now token w).
Proof.
  intros Hi Hf. unfold grant_step, mbind at 1, M_bind at 1, gets, id.
  assert (Hrefused : ∀ r, granted_token r = None → grant_outcome req now w (w, Ok (r, None))).
  { intros r Hr. left. split; [done|]. by intros r' k [= <- <-]. }
  destruct (read_lease_file _ w) as [| |lease] eqn:Hread; cbn [leaseGrant].
  - apply write_taken_cases; [done|]. intros l Hl. unfold read_lease_file in Hread.
    unfold lease_at in Hl. destruct (w_files w !! _); [|done]. by destruct (parseLease (Some _)).
  - by apply Hrefused.
  - apply read_lease_file_at in Hread as Hat. destruct (leaseIsExpired lease now) eqn:Hexp.
    { apply write_taken_cases; [done|]. unfold lease_at in *. congruence. }
    destruct (_ || _) eqn:Hown; [by apply Hrefused|].
    apply orb_false_iff in Hown as [Hown Hslot].
    apply negb_false_iff, bool_decide_eq_true in Hown.
    apply negb_false_iff, bool_decide_eq_true in Hslot. cbn in Hown, Hslot.
    destruct (iso _) as [expires|e] eqn:Hiso; [|left; unfold mbind, M_bind, lift; by split].
    right. set (name := match tk_deviceName req with Some n => Some n | None => _ end).
    exists (with_expiry lease name expires), (if declared then Declared else tk_kind req),
      (TakeSet (with_expiry lease name expires)).
    split_and!; [by eapply own_may_write|by right| |done|done].
    cbn. symmetry. by apply inv_placed with (w := w).
Qed.

Lemma record_set_elem key r leases e :
  e ∈ record_set key r leases → e = (key, r) ∨ e ∈ leases.
Proof.
  induction leases as [|[k r'] leases IH]; cbn.
  - intros ->%list_elem_of_singleton. by left.
  - case_decide; intros [->|He]%elem_of_cons; [by left|right; by right|right; by left|].
    destruct (IH He); [by left|right; by right].
Qed.

Lemma set_record_inv root key rec w :
  lease_inv w → mine root (wl_token rec) w →
  lease_inv (set_holder root (record_set key rec (readHolder root w)) w).
Proof.
  intros [I1 I2 I3] Hm. split; [exact I1|exact I2|].
  intros r k rec' p l Hin Hl Ht. rewrite lookup_set_holder in Hin. case_decide; [|by eapply I3].
  subst r. apply record_set_elem in Hin as [[= -> ->]|Hin]; [by eapply Hm|by eapply I3].
Qed.

Lemma write_mine root now w l :
  may_write root now w l →
  mine root (dl_token l) (set_file (deviceLeasePath (dl_platform l) (dl_id l)) (lease_text l) w).
Proof.
  intros (Ho & _ & Hm & _) p l' Hl' Ht. unfold lease_at in Hl'. cbn in Hl'.
  destruct (decide (p = deviceLeasePath (dl_platform l) (dl_id l))) as [->|Hne].
  - rewrite lookup_insert_eq in Hl'. apply parse_written in Hl' as [Hh _]. congruence.
  - rewrite lookup_insert_ne in Hl' by done. by eapply Hm.
Qed.

Lemma untouched_trans root now w1 w2 w3 :
  untouched root now w1 w2 → untouched root now w2 w3 → untouched root now w1 w3.
Proof.
  intros U1 U2 p l Hl Ho He. pose proof (U1 p l Hl Ho He) as E1.
  rewrite <- E1. apply (U2 p l); [|done|done]. unfold lease_at in *. by rewrite E1.
Qed.

Lemma take_releases req w key :
  lease_inv w →
  shrinks (tk_root req) w
    (fst (release_previous req (record_of key (readHolder (tk_root req) w)) w)).
Proof.
  intros Hi. destruct (record_of _ _) as [p|] eqn:Hp; [|reflexivity]. cbn [release_previous].
  case_decide; [|reflexivity]. unfold mbind, M_bind.
  assert (shrinks (tk_root req) w (fst (releaseHeld (tk_root req) (tk_platform req) p (tk_slot req) w)))
    as Hs.
  { apply releaseHeld_shrinks. eapply owned_mine; [done|]. by apply record_of_elem in Hp. }
  by destruct (releaseHeld _ _ _ _ w) as [w1 [l|e]].
Qed.

(** How [takeLease] ends: refused before asking, or at the step under the lease lock. *)
Lemma take_lease_cases req now token w :
  lease_inv w → token_fresh token w →
  (∃ e, snd (takeLease req now token w) = Throw e ∧
        shrinks (tk_root req) w (fst (takeLease req now token w))) ∨
  ∃ key w1 declared, deviceSlotKey (tk_platform req) (tk_slot req) = Ok key ∧
    shrinks (tk_root req) w w1 ∧
    takeLease req now token w =
      ('(res, recorded) ← grant_step req declared now token;
       _ ← match recorded, granted_token res with
           | Some kind, Some tok =>
               modify (fun w => set_holder (tk_root req)
                 (record_set key {| wl_id := tk_id req; wl_token := tok; wl_kind := kind |}
                    (readHolder (tk_root req) w)) w)
           | _, _ => mret tt
           end;
       mret res) w1.
Proof.
  intros Hi Hf. unfold takeLease. destruct (deviceSlotKey _ _) as [key|e] eqn:Hkey.
  2: { left. by exists e. }
  rewrite (bind_ok _ (lift (Ok key)) w w key) by done.
  rewrite (bind_ok _ (gets id) w w w) by done. cbv zeta.
  pose proof (take_releases req w key Hi) as Hs1.
  destruct (release_previous _ _ w) as [w1 [u|e]] eqn:Hm.
  2: { left. exists e. by rewrite (bind_throw _ _ _ _ _ Hm). }
  rewrite (bind_ok _ _ _ _ _ Hm). cbn in Hs1.
  rewrite (bind_ok _ (gets id) w1 w1 w1) by done. cbv zeta.
  match goal with |- context [release_others ?r ?p ?o] =>
    pose proof (release_others_shrinks r p o w1) as Hs2;
    destruct (release_others r p o w1) as [w2 [u2|e]] eqn:Hm2 end.
  2: { left. exists e. rewrite (bind_throw _ _ _ _ _ Hm2). split; [done|]. by etrans. }
  rewrite (bind_ok _ _ _ _ _ Hm2). right. eexists _, _, _.
  split_and!; [done| |reflexivity]. by etrans.
Qed.

(** Where a lease is granted, it is on disk and recorded under the slot. *)
Definition granted_in (req : TakeLease) (key : units) (l : DeviceLease) (w : World) : Prop :=
  dl_holder l = tk_root req ∧ slot_or_default (dl_slot l) = tk_slot req ∧
  w_files w !! deviceLeasePath (tk_platform req) (tk_id req) = Some (lease_text l) ∧
  ∃ rec, record_of key (readHolder (tk_root req) w) = Some rec ∧ wl_id rec = tk_id req ∧
    wl_token rec = dl_token l.

Lemma record_of_set key r leases : record_of key (record_set key r leases) = Some r.
Proof.
  induction leases as [|[k r'] leases IH]; cbn; [by rewrite decide_True|].
  case_decide as Hk; cbn; [by rewrite decide_True|by rewrite decide_False].
Qed.

Lemma take_lease_spec req now token w :
  lease_inv w → token_fresh token w →
  safe (tk_root req) now w (fst (takeLease req now token w)) ∧
  (∀ r l, snd (takeLease req now token w) = Ok r → granted r l →
     ∃ key, deviceSlotKey (tk_platform req) (tk_slot req) = Ok key ∧
       granted_in req key l (fst (takeLease req now token w))).
Proof.
  intros Hi Hf. destruct (take_lease_cases req now token w Hi Hf)
    as [(e & He & Hs)|(key & w1 & declared & Hkey & Hs & ->)].
  { split; [by apply shrinks_safe|]. rewrite He. done. }
  pose proof (shrinks_safe _ now _ _ Hi Hs) as [Hi1 Hu1].
  pose proof (shrinks_fresh _ _ _ _ Hs Hf) as Hf1.
  destruct (grant_step_cases req declared now token w1 Hi1 Hf1)
    as [[Hw Hr]|(l & kind & r & Hmay & Hg & Hpath & Hslot & Heq)].
  - unfold mbind at 1 2 3, M_bind at 1 2 3.
    destruct (grant_step req declared now token w1) as [w2 [[r k]|e]]; cbn in Hw; subst w2.
    + destruct (Hr r k eq_refl) as [-> Ht]. cbn. split; [done|].
      intros r' l [= <-] [->| ->]; done.
    + cbn. split; [done|]. done.
  - rewrite (bind_ok _ _ _ _ _ Heq). cbv beta iota.
    pose proof (write_safe _ now _ _ Hi1 Hmay) as [Hi2 Hu2].
    pose proof (write_mine _ _ _ _ Hmay) as Hm2.
    set (w2 := set_file _ _ w1) in *.
    assert (granted_token r = Some (dl_token l)) as -> by (by destruct Hg as [->| ->]).
    unfold mbind, M_bind, modify. cbn -[record_set]. split.
    + split; [by apply set_record_inv|]. by eapply untouched_trans.
    + intros r' l' [= <-] Hg'. exists key. split; [done|].
      assert (l' = l) as -> by (destruct Hg as [->| ->], Hg' as [[=]|[=]]; done).
      split_and!; [by destruct Hmay| done| |].
      * rewrite <- Hpath. cbn. apply lookup_insert_eq.
      * eexists. rewrite lookup_set_holder, decide_True by done.
        split; [apply record_of_set|done].
Qed.

Lemma raise_safe root platform slot minMs now w :
  lease_inv w → safe root now w (fst (raiseLease root platform slot minMs now w)).
Proof.
  intros Hi. assert (safe root now w w) as Hid by (by split).
  unfold raiseLease. unfold mbind at 1, M_bind at 1, lift.
  destruct (deviceSlotKey platform slot) as [key|e]; [|done].
  unfold mbind at 1, M_bind at 1, gets, id.
  destruct (record_of key (readHolder root w)) as [rec|] eqn:Hrec; [|done].
  apply record_of_elem in Hrec. unfold leaseRaise.
  destruct (parseLease _) as [l|] eqn:Hl; [|done].
  destruct (negb _) eqn:Htok; [done|]. apply negb_false_iff, bool_decide_eq_true in Htok.
  assert (safe root now w (fst ((expires ← lift (iso (Some (now + minMs)));
    lease ← writeLease (with_expiry l (dl_deviceName l) expires); mret (RaisedTo lease)) w))) as Hw.
  { unfold lift at 1. destruct (iso _); unfold mbind, M_bind; [|done].
    unfold writeLease, modify. cbn -[with_expiry lease_text].
    apply write_safe; [done|]. eapply own_may_write; [done|exact Hl|].
    eapply (owned_mine _ _ _ _ Hi Hrec); [exact Hl|exact Htok]. }
  cbv zeta. destruct (Date_parse _); [|exact Hw]. by destruct (_ <=? _).
Qed.

Lemma drop_safe root path now w :
  lease_inv w → safe root now w (fst (dropExpiredLease path now w)).
Proof.
  intros Hi. unfold dropExpiredLease, mbind, M_bind, gets, id, modify.
  assert (safe root now w w) as Hid by (by split).
  destruct (parseLease _) as [l|] eqn:Hl; [|done].
  destruct (leaseIsExpired l now) eqn:He; [|done]. cbn.
  assert (Hsub : ∀ p l', lease_at (remove_file path w) p l' → lease_at w p l').
  { intros p l' Hl'. unfold lease_at in Hl'. rewrite lookup_remove_file in Hl'.
    case_decide; [done|exact Hl']. }
  destruct Hi as [I1 I2 I3]. split; [split; eauto|].
  intros p l' Hl' _ Hexp. rewrite lookup_remove_file. case_decide; [|done].
  subst p. unfold lease_at in *. congruence.
Qed.

(** ** Histories *)

Inductive LeaseOp :=
| OpTake (req : TakeLease) (now : Z) (token : units)
| OpRaise (root : units) (platform : LeasePlatform) (slot : units) (minMs now : Z)
| OpReleaseRun (root : units) (platform : LeasePlatform) (slot : units) (now : Z)
| OpRelease (root : units) (platform : option LeasePlatform) (slot : option units) (now : Z)
| OpDropExpired (root : units) (entry : LeaseFileEntry) (now : Z).

Definition op_root (op : LeaseOp) : units :=
  match op with
  | OpTake req _ _ => tk_root req
  | OpRaise root _ _ _ _ | OpReleaseRun root _ _ _ | OpRelease root _ _ _
  | OpDropExpired root _ _ => root
  end.

Definition op_now (op : LeaseOp) : Z :=
  match op with
  | OpTake _ now _ | OpRaise _ _ _ _ now | OpReleaseRun _ _ _ now | OpRelease _ _ _ now
  | OpDropExpired _ _ now => now
  end.

Definition run_op (op : LeaseOp) (w : World) : World :=
  match op with
  | OpTake req now token => fst (takeLease req now token w)
  | OpRaise root platform slot minMs now => fst (raiseLease root platform slot minMs now w)
  | OpReleaseRun root platform slot _ => fst (releaseRunLease root platform slot w)
  | OpRelease root platform slot _ => fst (releaseWorkspaceLeases root platform slot w)
  | OpDropExpired _ entry now => fst (removeExpiredLease entry now w)
  end.

(** Tokens are random: none is reused. *)
Definition op_fresh (op : LeaseOp) (w : World) : Prop :=
  match op with OpTake _ _ token => token_fresh token w | _ => True end.

Inductive lease_history : World → list LeaseOp → World → Prop :=
| history_nil w : lease_history w [] w
| history_cons w op ops w' :
    op_fresh op w → lease_history (run_op op w) ops w' → lease_history w (op :: ops) w'.

Lemma run_op_safe op w :
  lease_inv w → op_fresh op w → safe (op_root op) (op_now op) w (run_op op w).
Proof.
  intros Hi Hf. destruct op as [req now t|root p sl m now|root p sl now|root p sl now|root e now];
    cbn [run_op op_root op_now op_fresh] in *.
  - by apply take_lease_spec.
  - by apply raise_safe.
  - by apply shrinks_safe, releaseRunLease_shrinks.
  - by apply shrinks_safe, releaseWorkspaceLeases_shrinks.
  - unfold removeExpiredLease. destruct (le_lease e); [by apply drop_safe|by split].
Qed.

Lemma history_inv w ops w' : lease_history w ops w' → lease_inv w → lease_inv w'.
Proof.
  induction 1 as [|w op ops w' Hf _ IH]; [done|]. intros Hi. apply IH.
  by apply run_op_safe.
Qed.

(** C3: a lease excludes other workspaces until it expires. In a world where every lease file is
    named for its lease and tokens are private to their holder, no sequence of takes, raises,
    releases and expiry sweeps by other workspaces, each at a time before the lease expires,
    changes the file of that lease; and every sequence keeps the world that way, so the exclusion
    holds for every later lease too. *)
Theorem lease_excludes w ops w' path l :
  lease_inv w → lease_history w ops w' → lease_at w path l →
  Forall (fun op => op_root op ≠ dl_holder l ∧ leaseIsExpired l (op_now op) = false) ops →
  w_files w' !! path = w_files w !! path ∧ lease_at w' path l ∧ lease_inv w'.
Proof.
  intros Hi Hh Hl Hall.
  assert (w_files w' !! path = w_files w !! path) as Hkept.
  { revert Hi Hl Hall. induction Hh as [|w op ops w' Hf Hh IH]; [done|].
    intros Hi Hl [[Ho He] Hall]%Forall_cons. destruct (run_op_safe op w Hi Hf) as [Hi' Hu].
    pose proof (Hu path l Hl (not_eq_sym Ho) He) as Hkeep. rewrite <- Hkeep.
    apply IH; [done| |done]. unfold lease_at in *. by rewrite Hkeep. }
  split_and!; [done| |by eapply history_inv]. unfold lease_at in *. by rewrite Hkept.
Qed.

(** A grant is effective. When [takeLease] answers that the lease was taken or set, the lease
    names the workspace and the slot, its text is in the device's file, and the workspace records
    its token under the slot; a lease whose fields are not blank reads back from that file. *)
Theorem take_lease_effective req now token w r l :
  lease_inv w → token_fresh token w →
  snd (takeLease req now token w) = Ok r → granted r l →
  (∃ key, deviceSlotKey (tk_platform req) (tk_slot req) = Ok key ∧
     granted_in req key l (fst (takeLease req now token w))) ∧
  (lease_ok l →
     lease_at (fst (takeLease req now token w)) (deviceLeasePath (tk_platform req) (tk_id req)) l).
Proof.
  intros Hi Hf Hr Hg. destruct (take_lease_spec req now token w Hi Hf) as [_ Hspec].
  destruct (Hspec r l Hr Hg) as (key & Hkey & Hin). split; [by exists key|].
  intros Hok. destruct Hin as (_ & _ & Hfile & _). unfold lease_at. rewrite Hfile.
  by apply lease_reads_back.
Qed.

(** Lease files round trip. What [writeLease] writes of a lease that [parseLease] returned,
    or of any lease with non-blank fields, a parsable date and a valid slot, [parseLease] reads
    back as that lease, so rewriting a file changes nothing else in it. *)
Theorem lease_file_roundtrip raw l :
  (parseLease raw = Some l → parseLease (Some (lease_text l)) = Some l) ∧
  (lease_ok l → parseLease (Some (lease_text l)) = Some l).
Proof. split; intros Hl; apply lease_reads_back; [by eapply parse_lease_ok|done]. Qed.

End Facts.

(** ** Concrete text and dates for the witnesses

    An object of scalars is written as the number that [Countable] gives it. *)

Module ToyText.

Abbreviation cell := (option (bool + (Z + (Z + units)))).

Definition to_cell (v : json) : option cell :=
  match v with
  | JNull => Some None
  | JBool b => Some (Some (inl b))
  | JNumber n => Some (Some (inr (inl n)))
  | JDouble b => Some (Some (inr (inr (inl b))))
  | JString s => Some (Some (inr (inr (inr s))))
  | _ => None
  end.

Definition of_cell (c : cell) : json :=
  match c with
  | None => JNull
  | Some (inl b) => JBool b
  | Some (inr (inl n)) => JNumber n
  | Some (inr (inr (inl b))) => JDouble b
  | Some (inr (inr (inr s))) => JString s
  end.

Definition to_row (field : units * json) : option (units * cell) :=
  c ← to_cell (snd field); Some (fst field, c).

Definition render (v : json) : units :=
  match v with
  | JObject fields =>
      match mapM to_row fields with Some rows => [Zpos (encode rows)] | None => [] end
  | _ => []
  end.

Definition read (s : units) : option json :=
  match s with
  | [Zpos p; 10] =>
      rows ← decode p : option (list (units * cell));
      Some (JObject (map (fun row => (fst row, of_cell (snd row))) rows))
  | _ => None
  end.

#[global] Instance text : NodeText := {
  buffer_toString := map Z_of_byte;
  JSON_parse := read;
  JSON_stringify := render;
  JSON_stringify_2 := render;
}.

#[global] Instance date : NodeDate := {
  Date_parse s := match s with [65; t] => Some t | _ => None end;
  toISOString t := Some [65; t];
}.

Lemma rows_roundtrip fields :
  Forall scalar (snd <$> fields) →
  ∃ rows, mapM to_row fields = Some rows ∧
    map (fun row => (fst row, of_cell (snd row))) rows = fields.
Proof.
  intros Hs. setoid_rewrite mapM_Some.
  induction fields as [|[k v] fields IH]; [by exists []; split; [constructor|]|].
  apply Forall_cons in Hs as [Hv Hf]. destruct (IH Hf) as (rows & Hr & Hm).
  assert (∃ c, to_cell v = Some c ∧ of_cell c = v) as (c & Hc & Ho).
  { destruct v; try done; by eexists. }
  exists ((k, c) :: rows). split; [constructor; [|done]|].
  - unfold to_row. cbn. by rewrite Hc.
  - cbn. by rewrite Ho, Hm.
Qed.

#[global] Instance laws : LeaseLaws text.
Proof.
  split.
  - intros fields _ Hs. cbn. destruct (rows_roundtrip fields Hs) as (rows & -> & Hm).
    cbn. rewrite decode_encode. cbn. by rewrite Hm.
Qed.

Definition req (root : string) : TakeLease :=
  {| tk_root := js root; tk_platform := Ios; tk_slot := js "default"; tk_id := js "UDID-1";
     tk_deviceName := None; tk_kind := Run; tk_durationMs := 1000 |}.

Definition empty_world : World := {| w_files := ∅; w_holders := ∅ |}.

Lemma empty_inv : lease_inv empty_world.
Proof. by split. Qed.

Lemma empty_fresh t : token_fresh t empty_world.
Proof. split; [done|]. intros r k rec Hin. by apply not_elem_of_nil in Hin. Qed.

(** Workspace A took the device at time 0, until 1000. *)
Definition held_world : World := fst (takeLease (req "A") 0 (js "t1") empty_world).
Definition held_lease : DeviceLease := taken_lease (req "A") (js "t1") [65; 0] [65; 1000].

Lemma held_inv : lease_inv held_world.
Proof. apply (take_lease_spec (req "A") 0 (js "t1") empty_world empty_inv (empty_fresh _)). Qed.

End ToyText.

(** C3 where workspace B releases everything and raises, and a sweep runs, at time 500. *)
Lemma lease_excludes_witness :
  let path := deviceLeasePath Ios (js "UDID-1") in
  ∃ w', lease_history ToyText.held_world
      [OpRelease (js "B") None None 500; OpRaise (js "B") Ios (js "default") 60000 500;
       OpDropExpired (js "B") (Build_LeaseFileEntry path (js "ios") None (Some ToyText.held_lease)) 500]
      w' ∧
    w_files w' !! path = w_files ToyText.held_world !! path ∧ lease_at w' path ToyText.held_lease.
Proof.
  intros path. eexists. split.
  { constructor; [exact I|]. constructor; [exact I|]. constructor; [exact I|]. constructor. }
  edestruct (lease_excludes ToyText.held_world
    [OpRelease (js "B") None None 500; OpRaise (js "B") Ios (js "default") 60000 500;
     OpDropExpired (js "B") (Build_LeaseFileEntry path (js "ios") None (Some ToyText.held_lease)) 500])
    as (Hf & Hl & _); [| | | |split; [exact Hf|exact Hl]].
  - exact ToyText.held_inv.
  - constructor; [exact I|]. constructor; [exact I|]. constructor; [exact I|]. constructor.
  - vm_compute. reflexivity.
  - repeat constructor; vm_compute; done.
Defined.

Lemma take_lease_effective_witness :
  lease_at ToyText.held_world (deviceLeasePath Ios (js "UDID-1")) ToyText.held_lease.
Proof.
  apply (proj2 (take_lease_effective (ToyText.req "A") 0 (js "t1") ToyText.empty_world
    (TakeTaken ToyText.held_lease) ToyText.held_lease ToyText.empty_inv (ToyText.empty_fresh _)
    eq_refl (or_introl eq_refl))).
  split_and!; try reflexivity; [by eexists| | |]; intros s [=]; subst; reflexivity.
Defined.

Lemma lease_file_roundtrip_witness :
  parseLease (Some (lease_text ToyText.held_lease)) = Some ToyText.held_lease.
Proof.
  apply (proj1 (lease_file_roundtrip (Some (lease_text ToyText.held_lease)) ToyText.held_lease)).
  vm_compute. reflexivity.
Defined.
