(* ===== verification/PolicyFacts.v ===== *)
(** * Correctness of the policies

    Grants and raises of leases on every branch, turns for build slots, which workspaces the
    idle stage takes and in which order, and which pool device is selected. *)

From Stdlib Require Import ZArith Lia.
From S2P Require Import Prelude.
From S2P Require Import Bytes.
From S2P Require Import Json.
From S2P Require Import Policy.
From S2P Require Import DeviceLease.
From S2P Require Import DeviceLeaseFacts.
Open Scope Z_scope.

(** ** Leases *)

Section Leases.
Context `{!NodeDate} {T : Type} `{!LeaseReading T}.

(** What [leaseGrant] decides. A lease is given (taken or set) exactly when the file is
    missing, holds an expired lease, or holds this workspace's own lease for this slot; the new
    expiry is the one asked for, except that a run on a declared lease never shortens it; and a
    declared lease stays declared. *)
Theorem lease_grant_exact file root slot kind declared now durationMs :
  match leaseGrant file root slot kind declared now durationMs with
  | GrantUnreadable => file = Unreadable
  | GrantHeld l =>
      file = SomeLease l ∧ leaseIsExpired l now = false ∧
      (lr_holder l ≠ root ∨ slot_or_default (lr_slot l) ≠ slot)
  | GrantTaken expiresAt k =>
      (file = NoLease ∨ ∃ l, file = SomeLease l ∧ leaseIsExpired l now = true) ∧
      expiresAt = now + durationMs ∧ k = kind
  | GrantSet l expiresAt k =>
      file = SomeLease l ∧ leaseIsExpired l now = false ∧ lr_holder l = root ∧
      slot_or_default (lr_slot l) = slot ∧ (declared = true → k = Declared) ∧
      (declared = false → k = kind ∧ expiresAt = Some (now + durationMs)) ∧
      (∀ t, Date_parse (lr_expiresAt l) = Some t →
         ∃ t', expiresAt = Some t' ∧ now + durationMs <= t' ∧
           (declared = true → kind = Run → t <= t'))
  end.
Proof.
  unfold leaseGrant. destruct file as [| |l]; [by split; [left|]|done|].
  destruct (leaseIsExpired l now) eqn:He; [by split; [right; exists l|]|].
  destruct (negb (bool_decide (lr_holder l = root))) eqn:Hh; cbn [orb].
  { split_and!; try done. left. by apply negb_true_iff, bool_decide_eq_false in Hh. }
  apply negb_false_iff, bool_decide_eq_true in Hh.
  destruct (negb (bool_decide (slot_or_default (lr_slot l) = slot))) eqn:Hs.
  { split_and!; try done. right. by apply negb_true_iff, bool_decide_eq_false in Hs. }
  apply negb_false_iff, bool_decide_eq_true in Hs.
  split_and!; try done; destruct declared; try done; cbn [andb].
  intros t Ht. rewrite Ht. case_bool_decide; cbn; eexists; (split; [reflexivity|]);
    (split; [lia|]); intros; [lia|done].
  intros t Ht. eexists. split; [reflexivity|]. split; [lia|done].
Qed.

End Leases.

(** ** Build slots *)

(** Build slots go to the oldest waiters. Of the positions 1 to n of the queue, exactly the
    first [max - live] try to claim a slot, so no build tries ahead of an older one, and together
    with the live holders at most [max] builds hold or try. *)
Theorem slot_turns_in_order (slots : list SlotReading) (max : Z) (n : nat) :
  let busy := busySlots slots max in
  let live := Z.of_nat (length (List.filter sr_alive busy)) in
  let trying := List.filter (fun p => st_claim (slotTurn (Z.of_nat p) max busy)) (seq 1 n) in
  trying = seq 1 (Nat.min n (Z.to_nat (max - live))) ∧
  (live <= max → live + Z.of_nat (length trying) <= max).
Proof.
  intros busy live trying.
  assert (trying = seq 1 (Nat.min n (Z.to_nat (max - live)))) as Htry.
  { unfold trying, slotTurn. cbn [st_claim]. fold live.
    induction n as [|n IH]; [done|]. rewrite seq_S, List.filter_app, IH. cbn [List.filter Nat.add].
    destruct (Z.leb_spec (Z.of_nat (S n)) (max - live)).
    - replace (Nat.min (S n) (Z.to_nat (max - live))) with (S n) by lia.
      replace (Nat.min n (Z.to_nat (max - live))) with n by lia. by rewrite seq_S.
    - replace (Nat.min (S n) (Z.to_nat (max - live))) with (Nat.min n (Z.to_nat (max - live)))
        by lia. by rewrite app_nil_r. }
  split; [done|]. intros Hl. rewrite Htry, length_seq. lia.
Qed.

Lemma slot_turns_in_order_witness :
  1 + Z.of_nat (length (List.filter (fun p => st_claim (slotTurn (Z.of_nat p) 2
    [Build_SlotReading (Some 0) true false])) (seq 1 5))) <= 2.
Proof.
  apply (proj2 (slot_turns_in_order [Build_SlotReading (Some 0) true false] 2 5)).
  vm_compute. discriminate.
Defined.

(** ** Idleness *)

(** The entry [reduce] keeps: the latest, and of several at that time the first. *)
Definition is_latest (entries : list (IdleStopBasis * Z)) (e : IdleStopBasis * Z) : Prop :=
  ∃ before after, entries = before ++ e :: after ∧
    Forall (fun x => snd x < snd e) before ∧ Forall (fun x => snd x <= snd e) after.

Definition reduce_step (best : option (IdleStopBasis * Z)) (entry : IdleStopBasis * Z) :
    option (IdleStopBasis * Z) :=
  match best with
  | None => Some entry
  | Some b => if snd b <? snd entry then Some entry else best
  end.

Lemma reduce_from entries b :
  ∃ e, fold_left reduce_step entries (Some b) = Some e ∧
    is_latest (b :: entries) e.
Proof.
  revert b. induction entries as [|x entries IH]; intros b.
  { exists b. split; [done|]. exists [], []. repeat split; constructor. }
  cbn [fold_left reduce_step]. destruct (Z.ltb_spec (snd b) (snd x)) as [Hlt|Hge].
  - destruct (IH x) as (e & He & before & after & Hsplit & Hb & Ha). exists e. split; [done|].
    exists (b :: before), after. rewrite Hsplit. split_and!; [done| |done].
    constructor; [|done].
    destruct before as [|y before]; injection Hsplit as ->; [lia|].
    apply Forall_cons in Hb as [Hx _]. cbn in *. lia.
  - destruct (IH b) as (e & He & before & after & Hsplit & Hb & Ha). exists e. split; [done|].
    destruct before as [|y before]; injection Hsplit as -> ->.
    + exists [], (x :: after). split_and!; [done|constructor|]. by constructor.
    + exists (y :: x :: before), after. split_and!; [done| |done].
      apply Forall_cons in Hb as [Hy Hb]. constructor; [done|]. constructor; [lia|done].
Qed.

Lemma is_latest_unique entries e1 e2 : is_latest entries e1 → is_latest entries e2 → e1 = e2.
Proof.
  assert (Hwlog : ∀ b1 a1 b2 a2 x1 x2 k, b1 = b2 ++ k → x2 :: a2 = k ++ x1 :: a1 →
    Forall (fun x => snd x < snd x1) b1 → Forall (fun x => snd x <= snd x2) a2 →
    x1 = (x2 : IdleStopBasis * Z)).
  { intros b1 a1 b2 a2 x1 x2 k Hb Hk Hlt Hle. destruct k as [|y k]; injection Hk as -> Hk; [done|].
    subst. apply Forall_app in Hlt as [_ [Hy _]%Forall_cons].
    apply Forall_app in Hle as [_ [Hx _]%Forall_cons]. cbn in *. lia. }
  intros (b1 & a1 & -> & Hb1 & Ha1) (b2 & a2 & Heq & Hb2 & Ha2).
  apply app_eq_inv in Heq as [(k & Hb & Hk)|(k & Hb & Hk)].
  - exact (Hwlog _ _ _ _ _ _ _ Hb Hk Hb1 Ha2).
  - symmetry. exact (Hwlog _ _ _ _ _ _ _ Hb Hk Hb2 Ha1).
Qed.

Lemma latest_spec entries :
  match latest entries with
  | None => entries = []
  | Some e => is_latest entries e
  end.
Proof.
  destruct entries as [|b entries]; [done|]. unfold latest. fold reduce_step. cbn [fold_left].
  change (reduce_step None b) with (Some b).
  destruct (reduce_from entries b) as (e & He & Hl).
  change (fold_left _ entries _) with (fold_left reduce_step entries (Some b)). by rewrite He.
Qed.

(** When the idle stage stops a workspace. [decideIdleStop] says stop exactly when idling is
    limited, nothing keeps the workspace, its activity is known, and its latest activity (the
    first recorded of several at one time) is at least the limit ago; it reports that activity
    and the time since it. *)
Theorem idle_stop_exact evidence idleMs now setting idle last_ :
  decideIdleStop evidence idleMs now setting = IdleStop idle last_ ↔
  0 < idleMs ∧ ev_keep evidence = [] ∧ is_latest (finite_activity (ev_activity evidence)) last_ ∧
  idle = now - snd last_ ∧ idleMs <= idle.
Proof.
  unfold decideIdleStop. pose proof (latest_spec (finite_activity (ev_activity evidence))) as Hl.
  destruct (Z.ltb_spec 0 idleMs) as [Hi|Hi]; cbn [negb].
  2: { split; [done|]. lia. }
  destruct (latest _) as [[basis at_]|] eqn:Hlat.
  - split.
    + destruct (Z.ltb_spec (now - at_) idleMs); [done|].
      destruct (bool_decide_reflect (ev_keep evidence = [])); cbn [negb]; [|done].
      intros [= <- <-]. done.
    + intros (_ & Hk & Hlast & -> & Hle).
      assert (last_ = (basis, at_)) as -> by (by eapply is_latest_unique).
      cbn in Hle. destruct (Z.ltb_spec (now - at_) idleMs); [lia|].
      by rewrite bool_decide_eq_true_2.
  - split; [by destruct (negb _)|]. intros (_ & _ & (b & a & Hs & _) & _). by destruct b; rewrite Hl in Hs.
Qed.

(** The order of the stages. [longestIdleFirst] returns every reading with an idle time, and
    no other, longest-idle first, and readings that idle equally long in the order they came. *)
Theorem longest_idle_first_sorts {T} (readings : list (T * option Z)) :
  let sorted := longestIdleFirst readings in
  sorted ≡ₚ omap (fun r => pair (fst r) <$> snd r) readings ∧
  StronglySorted (fun a b => snd b <= snd a) sorted ∧
  ∀ ms, base.filter (fun r => (snd r =? ms) = true) sorted =
        base.filter (fun r => (snd r =? ms) = true) (omap (fun r => pair (fst r) <$> snd r) readings).
Proof.
  intros sorted. split_and!.
  - apply stable_sort_perm.
  - assert (StronglySorted (fun a b => (snd b <=? snd a) = true) sorted) as Hs.
    { apply stable_sort_sorted.
      - intros x y. destruct (Z.leb_spec (snd y) (snd x)); [by left|right; lia].
      - intros x y z. lia. }
    clear -Hs. induction Hs as [|x l _ IH Hx]; constructor; [done|].
    eapply Forall_impl; [exact Hx|]. intros y. cbn. lia.
  - intros ms. apply stable_sort_stable. intros x y. lia.
Qed.

(** Idle thresholds. Where nothing keeps a workspace, [idleKeep] gives a threshold of its
    [idle.minutes], or under pressure of at most two minutes, never longer than [idle.minutes];
    its count of whole minutes is the smallest that covers it. A pinned workspace, one with
    [idle.minutes] 0, an unverified supervisor or a hosted placement is always kept. *)
Theorem idle_threshold facts idleMs minutes :
  idleKeep facts = IdleAfter idleMs minutes →
  ∃ configured, kf_settings facts = SettingsRead false configured ∧ configured ≠ 0 ∧
    idleMs <= configured * MINUTE_MS ∧
    (kf_pressured facts = false → idleMs = configured * MINUTE_MS) ∧
    (kf_pressured facts = true → idleMs <= PRESSURE_IDLE_MS) ∧
    (minutes - 1) * MINUTE_MS < idleMs <= minutes * MINUTE_MS ∧
    kf_status facts ≠ "unverified" ∧ kf_placements facts = [] ∧ kf_unreadable facts = [] ∧
    (kf_status facts = "ours" → kf_command facts = false ∧ kf_hmrUpdates facts = true).
Proof.
  unfold idleKeep. intros Hk. destruct (kf_settings facts) as [e|keep configured]; [done|].
  destruct keep; [done|]. destruct (Z.eqb_spec configured 0); [done|].
  case_bool_decide as Hst; [done|]. destruct (truthy _); [done|].
  destruct (bool_decide (kf_status facts = "ours") && kf_command facts) eqn:Hc; [done|].
  destruct (bool_decide (kf_status facts = "ours") && negb (kf_hmrUpdates facts)) eqn:Hh; [done|].
  destruct (bool_decide_reflect (kf_unreadable facts = [])); cbn [negb] in Hk; [|done].
  destruct (kf_placements facts) as [|pl pls]; [|done]. injection Hk as <- <-.
  exists configured. unfold ceil_minutes, PRESSURE_IDLE_MS, MINUTE_MS in *.
  split_and!; try done; try (destruct (kf_pressured facts); lia).
  - destruct (kf_pressured facts); Z.div_mod_to_equations; lia.
  - destruct (kf_pressured facts); Z.div_mod_to_equations; lia.
  - intros Ho. rewrite bool_decide_eq_true_2 in Hc, Hh by done. cbn in Hc, Hh.
    by destruct (kf_hmrUpdates facts).
Qed.

Lemma idle_threshold_witness :
  ∃ configured, SettingsRead false 5 = SettingsRead false configured ∧
    120000 <= configured * MINUTE_MS.
Proof.
  destruct (idle_threshold (Build_IdleKeepFacts (SettingsRead false 5) "ours" None false true None
    [] [] true) 120000 2 eq_refl) as (c & Hs & _ & Hle & _).
  exists c. split; [exact Hs|exact Hle].
Defined.

(** ** Pool devices *)

Section Pool.
Context `{!NodeDate}.
Variable toLowerCase : units → units.

Lemma lease_by_id_id leases i l : lease_by_id leases i = Some l → dl_id l = i.
Proof.
  unfold lease_by_id. intros Hl. apply last_Some_elem_of in Hl.
  apply list_elem_of_In, filter_In in Hl as [_ Hl]. by apply bool_decide_eq_true in Hl.
Qed.

Lemma pool_pick_spec leases now pool :
  match pool_pick leases now pool with
  | inl c => c ∈ pool ∧ pool_free leases now c = true
  | inr holders =>
      Forall (fun c => pool_free leases now c = false) pool ∧ map ph_id holders = map pc_id pool
  end.
Proof.
  induction pool as [|c pool IH]; cbn [pool_pick]; [by split|].
  destruct (pool_free leases now c) eqn:Hf; [by split; [left|]|].
  assert (is_Some (lease_by_id leases (pc_id c))) as [l Hl].
  { unfold pool_free in Hf. destruct (lease_by_id leases (pc_id c)); [by eexists|done]. }
  rewrite Hl. destruct (pool_pick leases now pool) as [c'|holders].
  - destruct IH as [Hin Hfree]. split; [by right|done].
  - destruct IH as [Hall Hids]. split; [by constructor|]. cbn.
    by rewrite Hids, (lease_by_id_id _ _ _ Hl).
Qed.

Lemma filter_elem {A} (f : A → bool) l x : x ∈ List.filter f l ↔ x ∈ l ∧ f x = true.
Proof. by rewrite !list_elem_of_In, filter_In. Qed.

Lemma bool_filter_perm {A} (f : A → bool) l l' : l ≡ₚ l' → List.filter f l ≡ₚ List.filter f l'.
Proof.
  induction 1 as [|x l l' _ IH|x y l|l1 l2 l3 _ IH1 _ IH2]; cbn; [done| | |by rewrite IH1].
  - destruct (f x); by rewrite IH.
  - destruct (f x), (f y); try done. apply perm_swap.
Qed.

(** The devices a workspace could be given: fallbacks only where there is nothing else. *)
Definition offered (candidates : list PoolCandidate) : list PoolCandidate :=
  let preferred := List.filter (fun c => negb (pc_fallback c)) candidates in
  match preferred with [] => candidates | _ => preferred end.

Lemma offered_perm l l' : l ≡ₚ l' → offered l ≡ₚ offered l'.
Proof.
  intros Hp. unfold offered. cbv zeta.
  pose proof (bool_filter_perm (fun c => negb (pc_fallback c)) _ _ Hp) as Hf.
  destruct (List.filter _ l) as [|x xs], (List.filter _ l') as [|y ys]; try done.
  - by apply Permutation_nil_l in Hf.
  - by apply Permutation_nil_r in Hf.
Qed.

Lemma offered_in l c : c ∈ offered l → c ∈ l.
Proof.
  unfold offered. cbv zeta. destruct (List.filter _ l) as [|p ps] eqn:Hf; [done|].
  rewrite <- Hf. by intros [? _]%filter_elem.
Qed.

Lemma offered_nil l : offered l = [] → l = [].
Proof. unfold offered. cbv zeta. by destruct (List.filter _ l). Qed.

Lemma pool_select_spec leases now ordered :
  match pool_select leases now ordered with
  | PoolSelected c => c ∈ offered ordered ∧ pool_free leases now c = true
  | PoolHeldDisconnected _ => False
  | PoolBusy holders spare =>
      ordered ≠ [] ∧ Forall (fun c => pool_free leases now c = false) (offered ordered) ∧
      map ph_id holders = map pc_id (offered ordered) ∧
      ∀ i, i ∈ spare ↔
        ∃ c, c ∈ ordered ∧ pc_fallback c = true ∧ pool_free leases now c = true ∧ pc_id c = i
  | PoolNone => ordered = []
  end.
Proof.
  change (pool_select leases now ordered) with
    (match offered ordered with
     | [] => PoolNone
     | _ =>
         match pool_pick leases now (offered ordered) with
         | inl c => PoolSelected c
         | inr holders => PoolBusy holders (map pc_id
             (List.filter (fun c => pc_fallback c && pool_free leases now c) ordered))
         end
     end).
  pose proof (pool_pick_spec leases now (offered ordered)) as Hpick.
  destruct (offered ordered) as [|c0 pool] eqn:Ho; [by apply offered_nil|]. rewrite <- Ho in *.
  destruct (pool_pick leases now (offered ordered)) as [c|holders]; [done|].
  destruct Hpick as [Hbusy Hids]. split_and!; [by intros ->|done|done|].
  intros i. rewrite list_elem_of_fmap. setoid_rewrite filter_elem. setoid_rewrite andb_true_iff.
  split; [intros (c & -> & ? & ? & ?)|intros (c & ? & ? & ? & <-)]; by exists c.
Qed.

(** Which pool device a workspace gets. A workspace that holds a device gets that one or is
    told it is disconnected. Another gets a candidate it is offered, which is a fallback only when
    every candidate is one, whose device has no unexpired lease. It is told the pool is busy only
    when every device it is offered is under an unexpired lease, with the holder of each, and the
    spare devices are then the free fallbacks. An empty answer means there are no candidates. *)
Theorem pool_selection_sound candidates leases held now :
  let holds := default [] held in
  match selectPoolDevice toLowerCase candidates leases held now with
  | PoolSelected c =>
      c ∈ candidates ∧
      (if decide (holds = []) then c ∈ offered candidates ∧ pool_free leases now c = true
       else pc_id c = holds)
  | PoolHeldDisconnected h => h = holds ∧ holds ≠ [] ∧ Forall (fun c => pc_id c ≠ h) candidates
  | PoolBusy holders spare =>
      holds = [] ∧ candidates ≠ [] ∧
      Forall (fun c => pool_free leases now c = false) (offered candidates) ∧
      map ph_id holders ≡ₚ map pc_id (offered candidates) ∧
      ∀ i, i ∈ spare ↔
        ∃ c, c ∈ candidates ∧ pc_fallback c = true ∧ pool_free leases now c = true ∧ pc_id c = i
  | PoolNone => holds = [] ∧ candidates = []
  end.
Proof.
  cbv zeta. unfold selectPoolDevice. set (ordered := stable_sort _ candidates).
  assert (ordered ≡ₚ candidates) as Hperm by apply stable_sort_perm.
  clearbody ordered. pose proof (offered_perm _ _ Hperm) as Hoff.
  destruct held as [[|u h]|]; cbn [default].
  2: { destruct (find _ ordered) as [c|] eqn:Hf.
       - apply find_some in Hf as [Hin Hid]. apply bool_decide_eq_true in Hid.
         rewrite decide_False by done. by rewrite <- Hperm, list_elem_of_In.
       - split_and!; try done. rewrite <- Hperm. apply Forall_forall. intros c Hc Hid.
         apply list_elem_of_In, (find_none _ _ Hf) in Hc. cbn in Hc.
         by apply bool_decide_eq_false in Hc. }
  all: pose proof (pool_select_spec leases now ordered) as Hopen;
    destruct (pool_select leases now ordered) as [c| |holders spare|]; try done.
  all: try (rewrite decide_True by done; rewrite <- Hoff; destruct Hopen as [Hc ?];
            split_and!; try done; rewrite <- Hperm; by apply offered_in).
  all: try (split; [done|]; subst ordered; by apply Permutation_nil_l in Hperm).
  all: destruct Hopen as (Hne & Hbusy & Hids & Hspare); split; [done|];
    split; [intros ->; by apply Permutation_nil_r in Hperm|];
    split; [by rewrite <- Hoff|]; split; [by rewrite <- Hoff, <- Hids|];
    intros i; rewrite Hspare; by setoid_rewrite Hperm.
Qed.

End Pool.
