(* ===== verification/Oversight.v ===== *)
(** * Oversight: [packages/core/oversight.ts]

    The rules that turn a machine's status into notifications: [oversee] with its
    state from one look to the next, and [needsAttention]. Strings are UTF-16; times are
    integers of milliseconds, [None] where JavaScript has NaN. [Date.parse] and
    [toLowerCase] are parameters. A name looked up in a plain object is looked up among the entries
    written there, not the members every object inherits. *)

From Stdlib Require Import ZArith Lia.
From Stdlib Require Import Floats.SpecFloat.
From stdpp Require Import pretty.
From S2P Require Import Prelude.
From S2P Require Import Bytes.
From S2P Require Import Json.
From S2P Require Import Policy.
Open Scope Z_scope.

(** ** Data *)

Inductive OversightCategory :=
| Started | Stuck | Looping | Finished | Machine | Control | Attention.

#[export] Instance OversightCategory_eq_dec : EqDecision OversightCategory.
Proof. solve_decision. Defined.

Definition category_text (c : OversightCategory) : units :=
  match c with
  | Started => js "started" | Stuck => js "stuck" | Looping => js "looping"
  | Finished => js "finished" | Machine => js "machine" | Control => js "control"
  | Attention => js "attention"
  end.

Record Driver := { dr_tool : units; dr_since : option units }.

Record DeviceActivity := {
  da_state : units;
  da_driver : option Driver;
  da_lastActivityAt : option units;
  da_recent : option (list (units * units));
}.

Record Device := {
  de_name : option units;
  de_state : option units;
  de_physical : bool;
  de_activity : option DeviceActivity;
}.

Record Diagnostic := { dg_file : option units; dg_line : option Z }.

Record Build := {
  bu_platform : units;
  bu_status : units;
  bu_result : option units;
  bu_startedAt : units;
  bu_finishedAt : option units;
  bu_errorCode : option units;
  bu_diagnostics : list Diagnostic;
}.

Record Worktree := {
  wt_path : units;
  wt_branch : option units;
  wt_repository : option units;
  wt_git : option (option units);
}.

Record CurrentBuild := { cb_state : units; cb_startedAt : units; cb_platform : option units }.

Record Issue := {
  is_code : units; is_severity : units; is_message : units; is_remedy : units;
  is_slot : option units;
}.

Record PhysicalDevice := {
  pd_platform : units; pd_slot : units; pd_id : units; pd_name : option units;
  pd_model : option units; pd_expiresAt : units;
}.

Record RemoteDevice := { rd_sessionId : units; rd_startedAt : option units }.

Record SlotDevices := { sd_slot : units; sd_ios : option Device; sd_android : option Device }.

Record Web := { wb_running : bool; wb_activity : option DeviceActivity }.

(** An absent list reads as an empty one; [logs] is its error count. *)
Record OversightEnvironment := {
  en_path : units;
  en_live : bool;
  en_phase : option units;
  en_ios : option Device;
  en_android : option Device;
  en_slots : list SlotDevices;
  en_worktree : option Worktree;
  en_build : option CurrentBuild;
  en_issues : list Issue;
  en_physicalDevices : list PhysicalDevice;
  en_remoteDevices : list RemoteDevice;
  en_lastIos : option Build;
  en_lastAndroid : option Build;
  en_buildsIos : list Build;
  en_buildsAndroid : list Build;
  en_logs : option Z;
  en_web : option Web;
}.

Record OversightStatus := {
  os_environments : list OversightEnvironment;
  os_unprovisioned : list (units * option units);
}.

Inductive PrState := PrOpen | PrMerged | PrClosed.
#[export] Instance PrState_eq_dec : EqDecision PrState.
Proof. solve_decision. Defined.

Record OversightPullRequest := {
  pr_number : Z; pr_state : PrState; pr_draft : bool; pr_url : units }.

Inductive Link := LinkOpen | LinkOffline | LinkRefused | LinkUnpaired.
#[export] Instance Link_eq_dec : EqDecision Link.
Proof. solve_decision. Defined.

Record OversightInput := {
  oi_machine : units;
  oi_status : option OversightStatus;
  oi_volumes : option (list Z);
  oi_memoryPressure : option units;
  oi_link : option Link;
  oi_pullRequests : gmap units (option OversightPullRequest);
  oi_ownLeases : list units;
}.

Record OversightPrefs := {
  op_categories : list OversightCategory; op_stuckMinutes : Z; op_quiet : bool }.

Inductive OversightTarget :=
| TargetMachine
| TargetWorkspace (path : units)
| TargetDevice (path platform slot : units)
| TargetBuild (path platform : units)
| TargetUrl (path url : units).

Record OversightNotification := {
  no_id : units;
  no_category : OversightCategory;
  no_title : units;
  no_body : units;
  no_quiet : bool;
  no_thread : option units;
  no_target : OversightTarget;
}.

Record Loop := { lo_signature : units; lo_notified : bool }.
Record KnownPr := { kp_number : Z; kp_ready : bool; kp_merged : bool }.

Record WorkspaceEntry := {
  we_seenAt : Z;
  we_warmed : bool;
  we_drove : bool;
  we_drivenAt : option Z;
  we_driveNotified : bool;
  we_errors : Z;
  we_errorsAt : option Z;
  we_stuckAt : option Z;
  we_finished : bool;
  we_finishedInRun : bool;
  we_running : bool;
  we_attention : list units;
  we_attentionRaised : bool;
  we_loopIos : option Loop;
  we_loopAndroid : option Loop;
  we_pr : option (option KnownPr);
  we_mergedInto : option units;
  we_mergeNotified : bool;
}.

Record Held := { he_since : Z; he_notified : bool }.

Record OversightState := {
  st_workspaces : gmap units WorkspaceEntry;
  st_disk : option Held;
  st_memory : option Held;
  st_memoryKnown : bool;
  st_link : option (Held * Link);
}.

(** ** Constants *)

Definition LOW_DISK_BYTES : Z := 20 * 10 ^ 9.
Definition DISK_CRITICAL_BYTES : Z := LOW_DISK_BYTES / 4.
Definition DISK_RECOVERED_BYTES : Z := DISK_CRITICAL_BYTES + 10 ^ 9.
Definition MEMORY_SETTLE_MS : Z := 60000.
Definition OFFLINE_SETTLE_MS : Z := 60000.
Definition FINISH_SETTLE_MS : Z := 5 * 60000.
Definition LOOP_COUNT : nat := 3.
Definition FORGET_MS : Z := 2 * 60000.
Definition EAS_SESSION_MINUTES : Z := 30.
Definition STALE_MS : Z := 24 * 60 * 60 * 1000.

Definition WORK_EVIDENCE : list units :=
  [js "agent-action"; js "metro-bundle"; js "workspace-use"].

(** ** Paths and titles *)

Definition platformName (platform : units) : units :=
  if decide (platform = js "ios") then js "iOS"
  else if decide (platform = js "android") then js "Android" else platform.

Definition slash : Z := 47.

(** [path.split('/').findLast(Boolean) ?? path]. *)
Definition basename (path : units) : units :=
  default path (last (List.filter (fun p => negb (bool_decide (p = []))) (split_on slash path))).

Definition part_is (parts : list units) (i : nat) (name : string) : bool :=
  bool_decide (parts !! i = Some (js name)).

(** The loop of [worktreeRoot] at index [i], down to 1. *)
Fixpoint scan_root (parts : list units) (i : nat) : option units :=
  match i with
  | O => None
  | S k =>
      if part_is parts i ".worktrees" then Some (join_with (js "/") (take i parts))
      else if part_is parts i "worktrees" && part_is parts k ".claude"
      then Some (join_with (js "/") (take k parts))
      else scan_root parts k
  end.

Definition worktreeRoot (path : units) : option units :=
  let parts := split_on slash path in scan_root parts (length parts - 2).

Fixpoint scan_checkout (parts : list units) (i : nat) : option units :=
  match i with
  | O => None
  | S k =>
      if part_is parts i ".worktrees" || (part_is parts i "worktrees" && part_is parts k ".claude")
      then Some (join_with (js "/") (take (i + 2) parts))
      else scan_checkout parts k
  end.

Definition markedCheckout (path : units) : option units :=
  let parts := split_on slash path in scan_checkout parts (length parts - 2).

Definition orElse {A} (a b : option A) : option A := match a with Some _ => a | None => b end.

Definition status_roots (status : OversightStatus) : list units :=
  map (fun env => default (en_path env)
         (orElse (worktreeRoot (en_path env)) (en_worktree env ≫= wt_repository)))
    (os_environments status)
  ++ omap (fun w => non_empty (orElse (worktreeRoot (fst w)) (snd w))) (os_unprovisioned status).

Definition shortest (roots : list units) : option units :=
  fold_left (fun best r =>
    match best with
    | None => Some r
    | Some b => if (length r <? length b)%nat then Some r else best
    end) roots None.

Definition oversightTitle (env : OversightEnvironment) (status : OversightStatus) : units :=
  match non_empty (en_worktree env ≫= wt_branch) with
  | Some branch => branch
  | None =>
      match non_empty (orElse (wt_path <$> en_worktree env) (markedCheckout (en_path env))) with
      | Some checkout => basename checkout
      | None =>
          let own := orElse (worktreeRoot (en_path env)) (en_worktree env ≫= wt_repository) in
          let containing := List.filter (fun r =>
            bool_decide (en_path env = r) || starts_with (r ++ js "/") (en_path env))
            (status_roots status) in
          basename (default (en_path env) (orElse own (shortest containing)))
      end
  end.

(** ** Devices *)

Inductive ModelLabel := IosSimulator | AndroidDevice | AndroidEmulator | Chrome.

Record SlotDevice := {
  sl_platform : units;
  sl_slot : units;
  sl_model : units;
  sl_modelLabel : option ModelLabel;
  sl_running : bool;
  sl_activity : option DeviceActivity;
}.

(** The expression that reads a model name off a device's name: the text of a last group in
    parentheses, which may hold groups of its own but no deeper ones, before trailing white space.
    [model_group] matches it past its opening parenthesis, inside a nested group or not. *)
Fixpoint model_group (nested : bool) (s : units) : option units :=
  match s with
  | [] => None
  | u :: s =>
      if u =? 40 then if nested then None else cons u <$> model_group true s
      else if u =? 41 then
        if nested then cons u <$> model_group false s
        else if forallb is_space s then Some [] else None
      else cons u <$> model_group nested s
  end.

(** The leftmost match. *)
Fixpoint model_name (s : units) : option units :=
  match s with
  | [] => None
  | u :: s =>
      if u =? 40 then
        match model_group false s with Some m => Some m | None => model_name s end
      else model_name s
  end.

Definition slot_devices (slot : units) (ios android : option Device) : list SlotDevice :=
  match ios with
  | Some d =>
      let model := model_name (default [] (de_name d)) in
      [{| sl_platform := js "ios"; sl_slot := slot;
          sl_model := default (js "iOS Simulator") model;
          sl_modelLabel := match model with None => Some IosSimulator | Some _ => None end;
          sl_running := bool_decide (de_state d = Some (js "Booted"));
          sl_activity := de_activity d |}]
  | None => []
  end ++
  match android with
  | Some d =>
      [{| sl_platform := js "android"; sl_slot := slot;
          sl_model := if de_physical d then js "Android device" else js "Android Emulator";
          sl_modelLabel := Some (if de_physical d then AndroidDevice else AndroidEmulator);
          sl_running := bool_decide (de_state d = Some (js "detected"));
          sl_activity := de_activity d |}]
  | None => []
  end.

Definition devicesOf (env : OversightEnvironment) : list SlotDevice :=
  slot_devices (js "default") (en_ios env) (en_android env)
  ++ concat (map (fun s => slot_devices (sd_slot s) (sd_ios s) (sd_android s)) (en_slots env))
  ++ match en_web env with
     | Some w => [{| sl_platform := js "web"; sl_slot := js "default"; sl_model := js "Chrome";
                     sl_modelLabel := Some Chrome; sl_running := wb_running w;
                     sl_activity := wb_activity w |}]
     | None => []
     end.

Definition agentDriven (device : SlotDevice) (ownLeases : list units) : bool :=
  match sl_activity device with
  | Some a =>
      bool_decide (da_state a = js "driven") &&
      negb (match da_driver a with
            | Some d =>
                bool_decide (dr_tool d = js "stim device lock") &&
                match non_empty (dr_since d) with
                | Some since => bool_decide (since ∈ ownLeases)
                | None => false
                end
            | None => false
            end)
  | None => false
  end.

(** ** Numbers in text *)

Definition number (n : Z) : units := js (pretty n).

(** [a / b] of two integers as a double: its sign, mantissa and exponent. *)
Definition dbl_div (a b : Z) : spec_float :=
  SFdiv 53 1024 (binary_normalize 53 1024 a 0 false) (binary_normalize 53 1024 b 0 false).

(** [floor(k * x + 1/2)] of a non-negative double, exactly. *)
Definition scaled_round (k : Z) (x : spec_float) : Z :=
  match x with
  | S754_finite _ m e =>
      if 0 <=? e then k * (Z.pos m * 2 ^ e)
      else (2 * k * Z.pos m + 2 ^ (- e)) / (2 * 2 ^ (- e))
  | _ => 0
  end.

(** [x.toFixed(1)] and [Math.round(x)] of a non-negative double: both round ties up. *)
Definition toFixed1 (x : spec_float) : units :=
  let n := scaled_round 10 x in number (n / 10) ++ js "." ++ number (n mod 10).

(** On integers, which volumes report. *)
Definition formatBytes (bytes : Z) : units :=
  if 10 ^ 12 <=? bytes then toFixed1 (dbl_div bytes (10 ^ 12)) ++ js " TB"
  else
    let gb := dbl_div bytes (10 ^ 9) in
    if 100 * 10 ^ 9 <=? bytes then number (scaled_round 1 gb) ++ js " GB"
    else toFixed1 gb ++ js " GB".

(** ** Builds and activity *)

Definition option_le (a b : option Z) : bool :=
  match a, b with Some a, Some b => a <=? b | _, _ => false end.
Definition option_lt (a b : option Z) : bool :=
  match a, b with Some a, Some b => a <? b | _, _ => false end.

Definition last_builds (env : OversightEnvironment) : list (option Build) :=
  [en_lastIos env; en_lastAndroid env].

(** A platform the code loops over. *)
Inductive NativePlatform := PIos | PAndroid.

Definition native_text (p : NativePlatform) : units :=
  match p with PIos => js "ios" | PAndroid => js "android" end.
Definition last_build (env : OversightEnvironment) (p : NativePlatform) : option Build :=
  match p with PIos => en_lastIos env | PAndroid => en_lastAndroid env end.
Definition builds_of (env : OversightEnvironment) (p : NativePlatform) : list Build :=
  match p with PIos => en_buildsIos env | PAndroid => en_buildsAndroid env end.

Definition failed (build : Build) : bool :=
  bool_decide (default (bu_status build) (bu_result build) = js "failed").

Definition LANGUAGES : list (units * units) :=
  [(js "swift", js "Swift"); (js "m", js "Objective-C"); (js "mm", js "Objective-C++");
   (js "kt", js "Kotlin"); (js "java", js "Java"); (js "c", js "C"); (js "cc", js "C++");
   (js "cpp", js "C++"); (js "h", js "C"); (js "hpp", js "C++"); (js "js", js "JavaScript");
   (js "ts", js "TypeScript"); (js "tsx", js "TypeScript"); (js "gradle", js "Gradle");
   (js "kts", js "Gradle")].

(** [cause.at] is a file and a line. *)
Record BuildCause := { bc_key : units; bc_at : option (units * Z) }.

Definition diagnostic_at (d : Diagnostic) : option (units * Z) :=
  file ← non_empty (dg_file d); line ← dg_line d; Some (file, line).

Definition causeOf (build : Build) : BuildCause :=
  match head (omap diagnostic_at (bu_diagnostics build)) with
  | Some (file, line) =>
      {| bc_key := file ++ js ":" ++ number line; bc_at := Some (file, line) |}
  | None => {| bc_key := default (js "failed") (bu_errorCode build); bc_at := None |}
  end.

Record FailureStreak := {
  fs_platform : NativePlatform; fs_cause : BuildCause; fs_errorCode : option units;
  fs_count : nat }.

(** The builds the loop counts before it breaks. *)
Fixpoint streak_count (key : units) (history : list Build) : nat :=
  match history with
  | [] => 0
  | b :: history =>
      if negb (failed b) || negb (bool_decide (bc_key (causeOf b) = key)) then 0
      else S (streak_count key history)
  end.

Definition failureStreak (platform : NativePlatform) (history : list Build) :
    option FailureStreak :=
  match history with
  | [] => None
  | h :: _ =>
      if negb (failed h) then None
      else Some {| fs_platform := platform; fs_cause := causeOf h; fs_errorCode := bu_errorCode h;
                   fs_count := streak_count (bc_key (causeOf h)) history |}
  end.

(** ** Attention items *)

Inductive AttentionMessage :=
| MsgIssue (slot : option units) (message : units)
| MsgSigning (platform code : units)
| MsgDiagnosticLoop (platform : units) (count : nat) (file : units) (line : Z)
    (language : option units)
| MsgLaunchLoop (platform : units) (count : nat)
| MsgBuildLoop (platform : units) (count : nat) (errorCode : option units)
| MsgLease (leased : units)
| MsgEas (minutes : Z)
| MsgStuck (minutes : Z) (green : option NativePlatform) (model : units)
    (modelLabel : option ModelLabel)
| MsgDisk (freeBytes : Z).

Definition count_text (n : nat) : units := number (Z.of_nat n).

Definition green_text (green : option units) : units :=
  match green with
  | Some p => js " after a green " ++ platformName p ++ js " build"
  | None => []
  end.

Definition stuck_body (minutes : Z) (after model : units) : units :=
  js "No agent activity for " ++ number minutes ++ js " min" ++ after ++ js "; " ++ model
  ++ js " still up".

Definition attentionBody (message : AttentionMessage) : units :=
  match message with
  | MsgIssue slot text =>
      match non_empty slot with Some s => s ++ js ": " ++ text | None => text end
  | MsgSigning platform code =>
      platformName platform ++ js " signing or provisioning failed (" ++ code ++ js ")"
  | MsgDiagnosticLoop platform count file line language =>
      let language := match non_empty language with
                      | Some l => l ++ js " "
                      | None => platformName platform ++ js " build "
                      end in
      js "Same " ++ language ++ js "error " ++ count_text count ++ js "x at " ++ file ++ js ":"
      ++ number line
  | MsgLaunchLoop platform count =>
      js "App failed to launch on " ++ platformName platform ++ js " " ++ count_text count
      ++ js "x in a row"
  | MsgBuildLoop platform count errorCode =>
      let code := match non_empty errorCode with
                  | Some c => js " (" ++ c ++ js ")"
                  | None => []
                  end in
      platformName platform ++ js " build failed " ++ count_text count ++ js "x in a row" ++ code
  | MsgLease leased => js "Lease on " ++ leased ++ js " expired"
  | MsgEas minutes =>
      js "EAS session running for " ++ number minutes
      ++ js " min with no agent; billed while it runs"
  | MsgStuck minutes green model _ =>
      stuck_body minutes (green_text (native_text <$> green)) model
  | MsgDisk freeBytes => formatBytes freeBytes ++ js " free, below Stim's floor"
  end.

Inductive Severity := SevError | SevWarning.
#[export] Instance Severity_eq_dec : EqDecision Severity.
Proof. solve_decision. Defined.

Record NeedsAttentionItem := {
  na_id : units;
  na_category : OversightCategory;
  na_severity : Severity;
  na_workspace : option units;
  na_body : units;
  na_remedy : option units;
}.

Definition PERSON_ISSUES : list units :=
  [js "port-not-ours"; js "supervisor-unverified"; js "browser-unverified"; js "avd-unchecked"].
Definition SIGNING_CODES : list units :=
  [js "STIM_NO_SIGNING_IDENTITY"; js "STIM_CODESIGN_FAILED"; js "STIM_NO_PROFILE";
   js "STIM_PROFILE_MISMATCH"].

(** [Math.min(wakeAt ?? at, at)]. *)
Definition earliest (wakeAt : option Z) (at_ : Z) : option Z :=
  Some (match wakeAt with Some w => Z.min w at_ | None => at_ end).

Section Rules.
Context `{!NodeDate}.
Variable toLowerCase : units → units.

Definition time (text : option units) : option Z := non_empty text ≫= Date_parse.

(** [result.body(count, format)]. *)
Definition streak_body (s : FailureStreak) (format : AttentionMessage → units) (n : nat) : units :=
  let platform := native_text (fs_platform s) in
  match bc_at (fs_cause s) with
  | Some (path, line) =>
      let file := basename path in
      let extension := toLowerCase (default [] (last (split_on 46 file))) in
      let language := snd <$> find (fun l => bool_decide (fst l = extension)) LANGUAGES in
      format (MsgDiagnosticLoop platform n file line language)
  | None =>
      if bool_decide (fs_errorCode s = Some (js "STIM_LAUNCH_FAILED"))
      then format (MsgLaunchLoop platform n)
      else format (MsgBuildLoop platform n (fs_errorCode s))
  end.

Definition newestBuild (env : OversightEnvironment) : option Build :=
  fold_left (fun a b =>
    match a with
    | None => Some b
    | Some a' => if option_lt (time (Some (bu_startedAt a'))) (time (Some (bu_startedAt b)))
                 then Some b else a
    end) (omap (fun b => b) (last_builds env)) None.

Definition recent_at (recent : list (units * units)) (basis : units) : option Z :=
  time (snd <$> find (fun e => bool_decide (fst e = basis)) recent).

Definition device_times (device : SlotDevice) : list (option Z) :=
  match sl_activity device with
  | None => [None; None]
  | Some a =>
      match da_recent a with
      | None => [time (da_lastActivityAt a)]
      | Some recent =>
          map (recent_at recent) WORK_EVIDENCE
          ++ (if bool_decide (sl_platform device = js "web") && bool_decide (da_state a = js "driven")
              then [recent_at recent (js "page-log")] else [])
      end ++ [time (da_driver a ≫= dr_since)]
  end.

Definition max_time (times : list (option Z)) : option Z :=
  fold_left (fun best t =>
    match best, t with
    | Some b, Some t => Some (Z.max b t)
    | None, t => t
    | b, None => b
    end) times None.

Definition lastActivityAt (env : OversightEnvironment) (devices : list SlotDevice)
    (seen : list (option Z)) : option Z :=
  max_time (seen ++ concat (map device_times devices)
    ++ concat (map (fun b => [time (bu_startedAt <$> b); time (b ≫= bu_finishedAt)])
                 (last_builds env))
    ++ [time (cb_startedAt <$> en_build env)]).

Definition is_running_build (env : OversightEnvironment) : bool :=
  bool_decide (cb_state <$> en_build env = Some (js "running")).

Definition recent (env : OversightEnvironment) (at_ : option units) (now : Z) : bool :=
  en_live env || match time at_ with Some t => now - t <? STALE_MS | None => false end.

Section Attention.
Variable env : OversightEnvironment.
Variables now stuckMinutes easSessionMinutes : Z.
Variable ownLeases : list units.
Variable format : AttentionMessage → units.

Definition issue_items : list NeedsAttentionItem :=
  omap (fun issue =>
    if bool_decide (is_severity issue = js "info")
       || negb (bool_decide (is_code issue ∈ PERSON_ISSUES)) then None
    else Some
      {| na_id := js "issue-" ++ is_code issue ++ js "-" ++ default (js "default") (is_slot issue)
                  ++ js ":" ++ en_path env;
         na_category := Attention;
         na_severity := if bool_decide (is_severity issue = js "error") then SevError else SevWarning;
         na_workspace := Some (en_path env);
         na_body := format (MsgIssue (is_slot issue) (is_message issue));
         na_remedy := Some (is_remedy issue) |}) (en_issues env).

Definition signing_failure (p : NativePlatform) : option units :=
  last ← last_build env p;
  let building := is_running_build env &&
    bool_decide ((en_build env ≫= cb_platform) = Some (native_text p)) in
  let code := default [] (bu_errorCode last) in
  if bool_decide (bu_status last = js "failed") && negb building &&
     bool_decide (code ∈ SIGNING_CODES) &&
     recent env (orElse (bu_finishedAt last) (Some (bu_startedAt last))) now
  then Some code else None.

Definition build_items (p : NativePlatform) : list NeedsAttentionItem :=
  let item id category body :=
    {| na_id := id ++ js ":" ++ en_path env; na_category := category; na_severity := SevError;
       na_workspace := Some (en_path env); na_body := body; na_remedy := None |} in
  match signing_failure p with
  | Some code =>
      [item (js "run-" ++ native_text p) Attention (format (MsgSigning (native_text p) code))]
  | None =>
      match failureStreak p (builds_of env p), builds_of env p with
      | Some streak, h :: _ =>
          if (LOOP_COUNT <=? fs_count streak)%nat &&
             recent env (orElse (bu_finishedAt h) (Some (bu_startedAt h))) now
          then [item (js "looping-" ++ native_text p) Looping
                  (streak_body streak format (fs_count streak))]
          else []
      | _, _ => []
      end
  end.

Definition lease_items : list NeedsAttentionItem :=
  omap (fun device =>
    if option_le (time (Some (pd_expiresAt device))) (Some now) then
      let slot := if bool_decide (pd_slot device = js "default") then []
                  else js " --slot " ++ pd_slot device in
      Some {| na_id := js "lease-" ++ pd_platform device ++ js "-" ++ pd_slot device ++ js ":"
                       ++ en_path env;
              na_category := Attention; na_severity := SevWarning;
              na_workspace := Some (en_path env);
              na_body := format (MsgLease (default (pd_id device)
                           (orElse (pd_name device) (pd_model device))));
              na_remedy := Some (js "stim device unlock " ++ pd_platform device ++ slot) |}
    else None) (en_physicalDevices env).

Definition attended : option SlotDevice :=
  find (fun d => sl_running d && agentDriven d ownLeases) (devicesOf env).

Definition session_due (session : RemoteDevice) : option Z :=
  (fun t => t + easSessionMinutes * 60000) <$> time (rd_startedAt session).

Definition session_items : list NeedsAttentionItem :=
  match attended with
  | Some _ => []
  | None =>
      omap (fun session =>
        match time (rd_startedAt session), session_due session with
        | Some started, Some due =>
            if due <=? now then
              Some {| na_id := js "eas-" ++ rd_sessionId session ++ js ":" ++ en_path env;
                      na_category := Attention; na_severity := SevWarning;
                      na_workspace := Some (en_path env);
                      na_body := format (MsgEas ((now - started) / 60000));
                      na_remedy := Some (js "stim stop") |}
            else None
        | _, _ => None
        end) (en_remoteDevices env)
  end.

Definition native_of (platform : units) : option NativePlatform :=
  if decide (platform = js "ios") then Some PIos
  else if decide (platform = js "android") then Some PAndroid else None.

Definition stuck_items : list NeedsAttentionItem :=
  match attended, lastActivityAt env (devicesOf env) [] with
  | Some driven, Some since =>
      if negb (is_running_build env) && (stuckMinutes * 60000 <=? now - since) then
        let green := newest ← newestBuild env;
                     if bool_decide (bu_status newest = js "ok") then native_of (bu_platform newest)
                     else None in
        [{| na_id := js "stuck:" ++ en_path env; na_category := Stuck; na_severity := SevWarning;
            na_workspace := Some (en_path env);
            na_body := format (MsgStuck ((now - since) / 60000) green (sl_model driven)
                                 (sl_modelLabel driven));
            na_remedy := None |}]
      else []
  | _, _ => []
  end.

(** [wakeAt]: the earliest lease expiry or session deadline still ahead. *)
Definition attention_wake : option Z :=
  let lease_wake := fold_left (fun w device =>
    match time (Some (pd_expiresAt device)) with
    | Some t => if now <? t then earliest w t else w
    | None => w
    end) (en_physicalDevices env) None in
  match attended with
  | Some _ => lease_wake
  | None =>
      fold_left (fun w session =>
        match session_due session with
        | Some due => if now <? due then earliest w due else w
        | None => w
        end) (en_remoteDevices env) lease_wake
  end.

Definition workspaceAttention : list NeedsAttentionItem * option Z :=
  (issue_items ++ build_items PIos ++ build_items PAndroid ++ lease_items ++ session_items
   ++ stuck_items, attention_wake).

End Attention.

Definition severityRank (item : NeedsAttentionItem) : Z :=
  if bool_decide (na_severity item = SevError) then 0 else 1.

Definition lowest_free (volumes : option (list Z)) : option Z :=
  volumes ≫= fun vs =>
    fold_left (fun m v => Some (match m with None => v | Some m => Z.min m v end)) vs None.

(** [order.sort] by severity, then scope, then position. *)
Definition rank_le (a b : NeedsAttentionItem * Z) : bool :=
  (severityRank (fst a) <? severityRank (fst b))
  || ((severityRank (fst a) =? severityRank (fst b)) && (snd a <=? snd b)).

Definition ranked_items (environments : list OversightEnvironment) (volumes : option (list Z))
    (now stuckMinutes easSessionMinutes : Z) (ownLeases : list units)
    (format : AttentionMessage → units) : list (NeedsAttentionItem * Z) :=
  match lowest_free volumes with
  | Some lowest =>
      if lowest <? DISK_CRITICAL_BYTES then
        [({| na_id := js "machine:disk"; na_category := Machine; na_severity := SevError;
             na_workspace := None; na_body := format (MsgDisk lowest); na_remedy := None |}, 0)]
      else []
  | None => []
  end ++
  concat (map (fun env =>
    map (fun item => (item, if en_live env then 1 else 2))
      (fst (workspaceAttention env now stuckMinutes easSessionMinutes ownLeases format)))
    environments).

Definition needsAttention (environments : list OversightEnvironment) (volumes : option (list Z))
    (now stuckMinutes easSessionMinutes : Z) (ownLeases : list units)
    (format : AttentionMessage → units) : list NeedsAttentionItem :=
  map fst (stable_sort rank_le
    (ranked_items environments volumes now stuckMinutes easSessionMinutes ownLeases format)).

End Rules.
