(* ===== verification/Oversee.v ===== *)
(** * Oversight from one look to the next: [oversee] of [packages/core/oversight.ts]

    The part of the run that the rules mutate is [Out], its notifications and its wake
    time; a workspace's entry is passed from rule to rule as the code updates it. *)

From Stdlib Require Import ZArith Lia.
From S2P Require Import Prelude.
From S2P Require Import Bytes.
From S2P Require Import Json.
From S2P Require Import Policy.
From S2P Require Import Oversight.
Open Scope Z_scope.

Record Run_ := {
  ru_input : OversightInput;
  ru_prefs : OversightPrefs;
  ru_now : Z;
  ru_baseline : bool;
}.

Record Out := { ou_notifications : list OversightNotification; ou_wakeAt : option Z }.

Definition wake (run : Run_) (at_ : Z) (out : Out) : Out :=
  if ru_now run <? at_
  then {| ou_notifications := ou_notifications out; ou_wakeAt := earliest (ou_wakeAt out) at_ |}
  else out.

Definition push_notification (n : OversightNotification) (out : Out) : Out :=
  {| ou_notifications := ou_notifications out ++ [n]; ou_wakeAt := ou_wakeAt out |}.

Definition wants (run : Run_) (n : OversightNotification) : bool :=
  bool_decide (no_category n ∈ op_categories (ru_prefs run)).

Definition event (run : Run_) (n : OversightNotification) (out : Out) : Out :=
  if negb (ru_baseline run) && negb (op_quiet (ru_prefs run)) && wants run n
  then push_notification n out else out.

Definition lasting (run : Run_) (n : OversightNotification) (out : Out) : Out * bool :=
  if ru_baseline run || negb (wants run n) then (out, true)
  else if op_quiet (ru_prefs run) then (out, false)
  else (push_notification n out, true).

(** ** The machine *)

Definition heldFor (held : option Held) (now : Z) : Held :=
  default {| he_since := now; he_notified := false |} held.

Definition notified (h : Held) (b : bool) : Held := {| he_since := he_since h; he_notified := b |}.

Definition machineNotification (run : Run_) (id body : units) : OversightNotification :=
  {| no_id := js "machine:" ++ id; no_category := Machine; no_title := oi_machine (ru_input run);
     no_body := body; no_quiet := true; no_thread := None; no_target := TargetMachine |}.

Definition LINK_BODY (kind : Link) : units :=
  match kind with
  | LinkOffline => js "Offline"
  | LinkUnpaired => js "Not paired: pair again"
  | _ => js "Refused the connection: pair again or update"
  end.

Definition overseeLink (run : Run_) (previous : option OversightState) (awakeSince : Z)
    (out : Out) : Out * option (Held * Link) :=
  match oi_link (ru_input run) with
  | None | Some LinkOpen => (out, None)
  | Some kind =>
      let before := match previous ≫= st_link with
                    | Some (h, k) => if decide (k = kind) then Some h else None
                    | None => None
                    end in
      let held := heldFor before (ru_now run) in
      let due := Z.max (he_since held) awakeSince
                 + (if decide (kind = LinkOffline) then OFFLINE_SETTLE_MS else 0) in
      if he_notified held then (out, Some (held, kind))
      else if ru_now run <? due then (wake run due out, Some (held, kind))
      else
        let '(out, sent) := lasting run (machineNotification run (js "link") (LINK_BODY kind)) out in
        (out, Some (notified held sent, kind))
  end.

Definition overseeDisk (run : Run_) (previous : option OversightState) (out : Out) :
    Out * option Held :=
  let before := previous ≫= st_disk in
  match oi_volumes (ru_input run) with
  | None => (out, before)
  | Some _ =>
      match lowest_free (oi_volumes (ru_input run)) with
      | Some lowest =>
          if lowest <? (match before with Some _ => DISK_RECOVERED_BYTES | None => DISK_CRITICAL_BYTES end)
          then
            let held := heldFor before (ru_now run) in
            if he_notified held then (out, Some held)
            else
              let body := formatBytes lowest ++ js " free, below Stim's floor" in
              let '(out, sent) := lasting run (machineNotification run (js "disk") body) out in
              (out, Some (notified held sent))
          else (out, None)
      | None => (out, None)
      end
  end.

Definition memory_known (previous : option OversightState) : bool :=
  match previous with Some p => st_memoryKnown p | None => false end.

Definition overseeMemory (run : Run_) (previous : option OversightState) (out : Out) :
    Out * option Held :=
  let before := previous ≫= st_memory in
  if bool_decide (oi_memoryPressure (ru_input run) = Some (js "critical")) then
    let held := heldFor before (ru_now run) in
    let held := if memory_known previous then held else notified held true in
    let due := he_since held + MEMORY_SETTLE_MS in
    if he_notified held then (out, Some held)
    else if (ru_now run <? due) && negb (ru_baseline run) then (wake run due out, Some held)
    else
      let '(out, sent) :=
        lasting run (machineNotification run (js "memory") (js "Memory pressure is critical")) out in
      (out, Some (notified held sent))
  else (out, match oi_memoryPressure (ru_input run) with None => before | Some _ => None end).

(** The machine's part of the new state; the workspaces come later. *)
Definition overseeMachine (run : Run_) (previous : option OversightState) (awakeSince : Z)
    (out : Out) : Out * OversightState :=
  let '(out, link) := overseeLink run previous awakeSince out in
  let '(out, disk) := overseeDisk run previous out in
  let '(out, memory) := overseeMemory run previous out in
  (out, {| st_workspaces := ∅; st_disk := disk; st_memory := memory;
           st_memoryKnown := bool_decide (is_Some (oi_memoryPressure (ru_input run)))
                             || memory_known previous;
           st_link := link |}).

(** ** A workspace *)

Definition isIdle (env : OversightEnvironment) : bool :=
  negb (en_live env) &&
  match en_phase env with None => true | Some p => bool_decide (p = js "idle") end.

(** The fields each rule assigns. *)
Section Entry.
Variable e : WorkspaceEntry.

Definition set_work (warmed drove : bool) (drivenAt : option Z) (driveNotified : bool)
    (stuckAt : option Z) (finished finishedInRun : bool) : WorkspaceEntry :=
  {| we_seenAt := we_seenAt e; we_warmed := warmed; we_drove := drove; we_drivenAt := drivenAt;
     we_driveNotified := driveNotified; we_errors := we_errors e; we_errorsAt := we_errorsAt e;
     we_stuckAt := stuckAt; we_finished := finished; we_finishedInRun := finishedInRun;
     we_running := we_running e; we_attention := we_attention e;
     we_attentionRaised := we_attentionRaised e; we_loopIos := we_loopIos e;
     we_loopAndroid := we_loopAndroid e; we_pr := we_pr e; we_mergedInto := we_mergedInto e;
     we_mergeNotified := we_mergeNotified e |}.

Definition set_rest (attention : list units) (attentionRaised : bool)
    (loopIos loopAndroid : option Loop) (pr : option (option KnownPr)) (mergeNotified : bool) :
    WorkspaceEntry :=
  {| we_seenAt := we_seenAt e; we_warmed := we_warmed e; we_drove := we_drove e;
     we_drivenAt := we_drivenAt e; we_driveNotified := we_driveNotified e;
     we_errors := we_errors e; we_errorsAt := we_errorsAt e; we_stuckAt := we_stuckAt e;
     we_finished := we_finished e; we_finishedInRun := we_finishedInRun e;
     we_running := we_running e; we_attention := attention;
     we_attentionRaised := attentionRaised; we_loopIos := loopIos; we_loopAndroid := loopAndroid;
     we_pr := pr; we_mergedInto := we_mergedInto e; we_mergeNotified := mergeNotified |}.

Definition set_warmed : WorkspaceEntry :=
  set_work true (we_drove e) (we_drivenAt e) (we_driveNotified e) (we_stuckAt e) (we_finished e)
    (we_finishedInRun e).
Definition set_driven (now : Z) : WorkspaceEntry :=
  set_work (we_warmed e) true (Some now) (we_driveNotified e) (we_stuckAt e) false
    (we_finishedInRun e).
Definition set_driveNotified : WorkspaceEntry :=
  set_work (we_warmed e) (we_drove e) (we_drivenAt e) true (we_stuckAt e) (we_finished e)
    (we_finishedInRun e).
Definition set_stuckAt (stuckAt : option Z) : WorkspaceEntry :=
  set_work (we_warmed e) (we_drove e) (we_drivenAt e) (we_driveNotified e) stuckAt (we_finished e)
    (we_finishedInRun e).
Definition set_finished : WorkspaceEntry :=
  set_work (we_warmed e) (we_drove e) (we_drivenAt e) (we_driveNotified e) (we_stuckAt e) true true.
Definition set_undriven : WorkspaceEntry :=
  set_work (we_warmed e) false (we_drivenAt e) false (we_stuckAt e) (we_finished e)
    (we_finishedInRun e).
Definition set_run_over : WorkspaceEntry :=
  set_work false (we_drove e) (we_drivenAt e) (we_driveNotified e) (we_stuckAt e) false false.
Definition set_loop (p : NativePlatform) (loop : Loop) : WorkspaceEntry :=
  match p with
  | PIos => set_rest (we_attention e) (we_attentionRaised e) (Some loop) (we_loopAndroid e)
              (we_pr e) (we_mergeNotified e)
  | PAndroid => set_rest (we_attention e) (we_attentionRaised e) (we_loopIos e) (Some loop)
                  (we_pr e) (we_mergeNotified e)
  end.
Definition set_pr (pr : option KnownPr) : WorkspaceEntry :=
  set_rest (we_attention e) (we_attentionRaised e) (we_loopIos e) (we_loopAndroid e) (Some pr)
    (we_mergeNotified e).
Definition set_mergeNotified (b : bool) : WorkspaceEntry :=
  set_rest (we_attention e) (we_attentionRaised e) (we_loopIos e) (we_loopAndroid e) (we_pr e) b.
Definition set_attention (ids : list units) (raised : bool) : WorkspaceEntry :=
  set_rest ids raised (we_loopIos e) (we_loopAndroid e) (we_pr e) (we_mergeNotified e).

End Entry.

Section Workspace.
Context `{!NodeDate}.
Variable toLowerCase : units → units.

Variable run : Run_.
Variable env : OversightEnvironment.
Variable title : units.

Definition notify (category : OversightCategory) (body : units) (target : OversightTarget)
    (id : units) : OversightNotification :=
  {| no_id := id ++ js ":" ++ en_path env; no_category := category; no_title := title;
     no_body := body; no_quiet := true;
     no_thread := match category with
                  | Started => Some (js "started:" ++ oi_machine (ru_input run))
                  | _ => None
                  end;
     no_target := target |}.

Definition notify_ (category : OversightCategory) (body : units) (target : OversightTarget) :
    OversightNotification := notify category body target (category_text category).

Definition deviceTarget (device : SlotDevice) : OversightTarget :=
  TargetDevice (en_path env) (sl_platform device) (sl_slot device).

Definition devices : list SlotDevice := devicesOf env.
Definition driven : list SlotDevice :=
  List.filter (fun d => agentDriven d (oi_ownLeases (ru_input run))) devices.

Definition overseeStart (entry : WorkspaceEntry) (out : Out) : WorkspaceEntry * Out :=
  let '(entry, out) :=
    if bool_decide (en_phase env = Some (js "warming")) && negb (we_warmed entry)
    then (set_warmed entry,
          event run (notify_ Started (js "Warming on " ++ oi_machine (ru_input run))
                       (TargetWorkspace (en_path env))) out)
    else (entry, out) in
  match driven with
  | [] => (entry, out)
  | first :: _ =>
      let entry := set_driven entry (ru_now run) in
      if we_driveNotified entry then (entry, out)
      else
        let tool := default (js "An agent") (dr_tool <$> (sl_activity first ≫= da_driver)) in
        let body := tool ++ js " started driving " ++ sl_model first ++ js " on "
                    ++ oi_machine (ru_input run) in
        (set_driveNotified entry, event run (notify_ Started body (deviceTarget first)) out)
  end.

Definition green_build : bool := bool_decide (bu_status <$> newestBuild env = Some (js "ok")).
Definition releasedGreen : bool := bool_decide (driven = []) && green_build.

Definition quiet_since (entry : WorkspaceEntry) : option Z :=
  lastActivityAt env devices
    [we_errorsAt entry; match driven with [] => we_drivenAt entry | _ => None end].

(** The block that finds the work finished. *)
Definition finish_step (quietSince : option Z) (entry : WorkspaceEntry) (out : Out) :
    WorkspaceEntry * Out :=
  match quietSince, newestBuild env with
  | Some since, Some newest =>
      if we_drove entry && releasedGreen && negb (is_running_build env) && negb (we_finished entry)
      then
        let due := since + FINISH_SETTLE_MS in
        if negb (isIdle env) && (ru_now run <? due) then (entry, wake run due out)
        else
          let body := js "Agent stopped after a green " ++ platformName (bu_platform newest)
                      ++ js " build" in
          (set_finished entry,
           if we_finishedInRun entry then out
           else event run (notify_ Finished body (TargetWorkspace (en_path env))) out)
      else (entry, out)
  | _, _ => (entry, out)
  end.

(** The block that finds it stuck. *)
Definition stuck_step (quietSince : option Z) (entry : WorkspaceEntry) (out : Out) :
    WorkspaceEntry * Out :=
  match orElse (head driven) (find sl_running devices), quietSince with
  | Some device, Some since =>
      if negb (we_drove entry) || negb (sl_running device) || is_running_build env || releasedGreen
         || bool_decide (is_Some (we_stuckAt entry))
      then (entry, out)
      else
        let due := since + op_stuckMinutes (ru_prefs run) * 60000 in
        if ru_now run <? due then (entry, wake run due out)
        else
          let after := if green_build then green_text (bu_platform <$> newestBuild env) else [] in
          let body := stuck_body ((ru_now run - since) / 60000) after (sl_model device) in
          let '(out, sent) := lasting run (notify_ Stuck body (deviceTarget device)) out in
          (if sent then set_stuckAt entry (Some since) else entry, out)
  | _, _ => (entry, out)
  end.

Definition overseeProgress (entry : WorkspaceEntry) (out : Out) : WorkspaceEntry * Out :=
  let quietSince := quiet_since entry in
  let entry := if option_lt (we_stuckAt entry) quietSince then set_stuckAt entry None else entry in
  let '(entry, out) := finish_step quietSince entry out in
  let entry := if isIdle env || we_finished entry then set_undriven entry else entry in
  let entry := if isIdle env then set_run_over entry else entry in
  stuck_step quietSince entry out.

Definition prev_loop (prev : option WorkspaceEntry) (p : NativePlatform) : option Loop :=
  prev ≫= fun e => match p with PIos => we_loopIos e | PAndroid => we_loopAndroid e end.

Definition overseeLoop (prev : option WorkspaceEntry) (p : NativePlatform)
    (entry : WorkspaceEntry) (out : Out) : WorkspaceEntry * Out :=
  match failureStreak p (builds_of env p) with
  | None => (entry, out)
  | Some streak =>
      let looping := (LOOP_COUNT <=? fs_count streak)%nat in
      let signature := bc_key (fs_cause streak) in
      let loop := match prev_loop prev p with
                  | Some before =>
                      if bool_decide (lo_signature before = signature) && looping then before
                      else {| lo_signature := signature; lo_notified := false |}
                  | None => {| lo_signature := signature; lo_notified := false |}
                  end in
      if looping && negb (lo_notified loop) then
        let body := streak_body toLowerCase streak attentionBody (fs_count streak) in
        let '(out, sent) := lasting run
          (notify Looping body (TargetBuild (en_path env) (native_text p))
             (js "looping-" ++ native_text p)) out in
        (set_loop entry p {| lo_signature := signature; lo_notified := sent |}, out)
      else (set_loop entry p loop, out)
  end.

Definition overseeLoops (prev : option WorkspaceEntry) (entry : WorkspaceEntry) (out : Out) :
    WorkspaceEntry * Out :=
  let '(entry, out) := overseeLoop prev PIos entry out in overseeLoop prev PAndroid entry out.

Definition known_pr (pr : OversightPullRequest) : KnownPr :=
  {| kp_number := pr_number pr;
     kp_ready := bool_decide (pr_state pr = PrOpen) && negb (pr_draft pr);
     kp_merged := bool_decide (pr_state pr = PrMerged) |}.

(** Whether the known pull request is this one, with the flag. *)
Definition same_and (known : option KnownPr) (pr : OversightPullRequest) (flag : KnownPr → bool) :
    bool :=
  match known with Some k => (kp_number k =? pr_number pr) && flag k | None => false end.

Definition overseePr (entry : WorkspaceEntry) (out : Out) : WorkspaceEntry * Out :=
  match oi_pullRequests (ru_input run) !! en_path env with
  | None => (entry, out)
  | Some None => (set_pr entry None, out)
  | Some (Some pr) =>
      let current := known_pr pr in
      let '(entry, out) :=
        match we_pr entry with
        | Some known =>
            let url := TargetUrl (en_path env) (pr_url pr) in
            let out :=
              if kp_ready current && negb (same_and known pr kp_ready)
              then event run (notify_ Finished (js "PR #" ++ number (pr_number pr)
                                ++ js " is ready for review") url) out
              else out in
            if kp_merged current && negb (same_and known pr kp_merged)
               && negb (we_mergeNotified entry)
            then (set_mergeNotified entry true,
                  event run (notify_ Finished (js "PR #" ++ number (pr_number pr)
                               ++ js " merged") url) out)
            else (entry, out)
        | None => (if kp_merged current then set_mergeNotified entry true else entry, out)
        end in
      (set_pr entry (Some current), out)
  end.

Definition entry_pr_merged (entry : WorkspaceEntry) : bool :=
  match we_pr entry with Some (Some k) => kp_merged k | _ => false end.

Definition overseeMerge (prev : option WorkspaceEntry) (entry : WorkspaceEntry) (out : Out) :
    WorkspaceEntry * Out :=
  let '(entry, out) := overseePr entry out in
  match prev, we_mergedInto entry with
  | None, Some _ => (set_mergeNotified entry true, out)
  | None, None => (entry, out)
  | Some _, None =>
      if bool_decide (is_Some (en_worktree env ≫= wt_git)) && negb (entry_pr_merged entry)
      then (set_mergeNotified entry false, out) else (entry, out)
  | Some prev, Some into =>
      if bool_decide (we_mergedInto prev = None) && negb (we_mergeNotified entry)
      then (set_mergeNotified entry true,
            event run (notify_ Finished (js "Merged into " ++ into)
                         (TargetWorkspace (en_path env))) out)
      else (entry, out)
  end.

(** The items of category [attention] that are not covered by a loop, with their targets. *)
Definition pending_item (item : NeedsAttentionItem) :
    option (NeedsAttentionItem * OversightTarget) :=
  if negb (bool_decide (na_category item = Attention)) then None
  else if starts_with (js "run-") (na_id item) then
    let p := if starts_with (js "run-ios") (na_id item) then PIos else PAndroid in
    let count := match failureStreak p (builds_of env p) with
                 | Some s => fs_count s
                 | None => 0%nat
                 end in
    if (LOOP_COUNT <=? count)%nat then None
    else Some (item, TargetBuild (en_path env) (native_text p))
  else Some (item, TargetWorkspace (en_path env)).

Fixpoint attention_loop (prev : option WorkspaceEntry)
    (pending : list (NeedsAttentionItem * OversightTarget)) (ids : list units) (raised : bool)
    (out : Out) : list units * bool * Out :=
  match pending with
  | [] => (ids, raised, out)
  | (item, target) :: pending =>
      if match prev with Some e => bool_decide (na_id item ∈ we_attention e) | None => false end
         || raised
      then attention_loop prev pending (ids ++ [na_id item]) raised out
      else
        let n := notify_ Attention (na_body item) target in
        let n := {| no_id := na_id item; no_category := no_category n; no_title := no_title n;
                    no_body := no_body n; no_quiet := no_quiet n; no_thread := no_thread n;
                    no_target := no_target n |} in
        let '(out', sent) := lasting run n out in
        if sent
        then attention_loop prev pending (ids ++ [na_id item])
               (raised || (length (ou_notifications out) <? length (ou_notifications out'))%nat) out'
        else attention_loop prev pending ids raised out'
  end.

Definition overseeAttention (prev : option WorkspaceEntry) (entry : WorkspaceEntry) (out : Out) :
    WorkspaceEntry * Out :=
  let '(items, wakeAt) := workspaceAttention toLowerCase env (ru_now run)
    (op_stuckMinutes (ru_prefs run)) EAS_SESSION_MINUTES (oi_ownLeases (ru_input run))
    attentionBody in
  let out := match wakeAt with Some at_ => wake run at_ out | None => out end in
  let pending := omap pending_item items in
  let was_running := match prev with Some e => we_running e | None => false end in
  let raised := if bool_decide (length pending = 0%nat) || (negb (isIdle env) && negb was_running)
                then false else we_attentionRaised entry in
  let '(ids, raised, out) := attention_loop prev pending (we_attention entry) raised out in
  (set_attention entry ids raised, out).

(** The entry at the start of the look. *)
Definition new_entry (prev : option WorkspaceEntry) : WorkspaceEntry :=
  let errors := default 0 (en_logs env) in
  let get {A} (f : WorkspaceEntry → A) (d : A) : A := match prev with Some e => f e | None => d end in
  {| we_seenAt := ru_now run; we_warmed := get we_warmed false; we_drove := get we_drove false;
     we_drivenAt := get we_drivenAt None; we_driveNotified := get we_driveNotified false;
     we_errors := errors;
     we_errorsAt := match prev with
                    | Some e => if we_errors e =? errors then we_errorsAt e else Some (ru_now run)
                    | None => None
                    end;
     we_stuckAt := get we_stuckAt None; we_finished := get we_finished false;
     we_finishedInRun := get we_finishedInRun false; we_running := negb (isIdle env);
     we_attention := []; we_attentionRaised := get we_attentionRaised false;
     we_loopIos := None; we_loopAndroid := None; we_pr := get we_pr None;
     we_mergedInto := match en_worktree env ≫= wt_git with
                      | Some merged => merged
                      | None => get we_mergedInto None
                      end;
     we_mergeNotified := get we_mergeNotified false |}.

Definition overseeRules (prev : option WorkspaceEntry) (out : Out) : WorkspaceEntry * Out :=
  let '(entry, out) := overseeStart (new_entry prev) out in
  let '(entry, out) := overseeProgress entry out in
  let '(entry, out) := overseeLoops prev entry out in
  let '(entry, out) := overseeMerge prev entry out in
  overseeAttention prev entry out.

End Workspace.

(** ** A look *)

Record OversightResult := {
  or_state : OversightState;
  or_notifications : list OversightNotification;
  or_wakeAt : option Z;
}.

Section Oversee.
Context `{!NodeDate}.
Variable toLowerCase : units → units.

Definition overseeWorkspace (run : Run_) (env : OversightEnvironment) (status : OversightStatus)
    (prev : option WorkspaceEntry) (out : Out) : WorkspaceEntry * Out :=
  overseeRules toLowerCase run env (oversightTitle env status) prev out.

Fixpoint overseeAll (run : Run_) (status : OversightStatus) (before : gmap units WorkspaceEntry)
    (envs : list OversightEnvironment) (seen : gmap units WorkspaceEntry) (out : Out) :
    gmap units WorkspaceEntry * Out :=
  match envs with
  | [] => (seen, out)
  | env :: envs =>
      let '(entry, out) := overseeWorkspace run env status (before !! en_path env) out in
      overseeAll run status before envs (<[en_path env := entry]> seen) out
  end.

Definition with_workspaces (w : gmap units WorkspaceEntry) (s : OversightState) : OversightState :=
  {| st_workspaces := w; st_disk := st_disk s; st_memory := st_memory s;
     st_memoryKnown := st_memoryKnown s; st_link := st_link s |}.

Definition oversee (previous : option OversightState) (input : OversightInput)
    (prefs : OversightPrefs) (now awakeSince : Z) : OversightResult :=
  let run := {| ru_input := input; ru_prefs := prefs; ru_now := now;
                ru_baseline := bool_decide (previous = None) |} in
  let before := match previous with Some p => st_workspaces p | None => ∅ end in
  let '(out, state) :=
    overseeMachine run previous awakeSince {| ou_notifications := []; ou_wakeAt := None |} in
  let '(workspaces, out) :=
    match oi_status input with
    | None => (before, out)
    | Some status =>
        let '(seen, out) := overseeAll run status before (os_environments status) ∅ out in
        (seen ∪ base.filter (fun e => now - we_seenAt (snd e) < FORGET_MS) before, out)
    end in
  {| or_state := with_workspaces workspaces state; or_notifications := ou_notifications out;
     or_wakeAt := ou_wakeAt out |}.

End Oversee.

(** [inQuietHours]. *)
Definition inQuietHours (quietHours : option (Z * Z)) (minuteOfDay : Z) : bool :=
  match quietHours with
  | None => false
  | Some (start, end_) =>
      if start =? end_ then false
      else if start <? end_ then (start <=? minuteOfDay) && (minuteOfDay <? end_)
      else (start <=? minuteOfDay) || (minuteOfDay <? end_)
  end.
