(* ===== verification/OverseeFacts.v ===== *)
(** * Correctness of oversight

    Notifications only where they are wanted, wake times ahead, problems once per episode,
    workspaces forgotten only after their grace time, and the order of what needs attention. *)

From Stdlib Require Import ZArith Lia.
From S2P Require Import Prelude.
From S2P Require Import Bytes.
From S2P Require Import Json.
From S2P Require Import Policy.
From S2P Require Import Oversight.
From S2P Require Import Oversee.
Open Scope Z_scope.

(** ** What a rule may do to the run *)

(** A notification the run may send, of the kind [P]. *)
Definition allowed (P : OversightNotification → Prop) (run : Run_) (n : OversightNotification) :
    Prop :=
  ru_baseline run = false ∧ op_quiet (ru_prefs run) = false ∧
  no_category n ∈ op_categories (ru_prefs run) ∧ P n.

(** A step that only appends allowed notifications and only adds wake times ahead. *)
Definition extends (P : OversightNotification → Prop) (run : Run_) (out out' : Out) : Prop :=
  (∃ new, ou_notifications out' = ou_notifications out ++ new ∧ Forall (allowed P run) new) ∧
  (∀ t, ou_wakeAt out' = Some t → ou_wakeAt out = Some t ∨ ru_now run < t).

#[export] Instance extends_preorder P run : PreOrder (extends P run).
Proof.
  split.
  - intros out. split; [exists []; by rewrite app_nil_r|by left].
  - intros o1 o2 o3 [(n1 & E1 & A1) W1] [(n2 & E2 & A2) W2]. split.
    + exists (n1 ++ n2). rewrite E2, E1, app_assoc. split; [done|]. by apply Forall_app.
    + intros t Ht. destruct (W2 t Ht) as [Ht'|]; [by apply W1|by right].
Qed.

Lemma extends_weaken (P Q : OversightNotification → Prop) run out out' :
  (∀ n, P n → Q n) → extends P run out out' → extends Q run out out'.
Proof.
  intros HPQ [(new & E & A) W]. split; [|done]. exists new. split; [done|].
  eapply Forall_impl; [exact A|]. intros n (? & ? & ? & Hn). split_and!; auto.
Qed.

Section Steps.
Variable P : OversightNotification → Prop.
Variable run : Run_.

Lemma wake_extends t out : extends P run out (wake run t out).
Proof.
  unfold wake. destruct (Z.ltb_spec (ru_now run) t); [|reflexivity].
  split; [exists []; by rewrite app_nil_r|]. cbn. intros u Hu. injection Hu as <-.
  destruct (ou_wakeAt out) as [w|]; [|by right].
  destruct (Z.min_spec w t) as [[_ ->]|[_ ->]]; [by left|by right].
Qed.

Lemma push_extends n out : allowed P run n → extends P run out (push_notification n out).
Proof. intros Hn. split; [exists [n]; split; [done|by constructor]|by left]. Qed.

Lemma event_extends n out : P n → extends P run out (event run n out).
Proof.
  intros HP. unfold event. destruct (_ && _) eqn:Hc; [|reflexivity].
  apply andb_true_iff in Hc as [[Hb Hq]%andb_true_iff Hw].
  apply push_extends. unfold wants in Hw. apply bool_decide_eq_true in Hw.
  split_and!; [by apply negb_true_iff|by apply negb_true_iff|done|done].
Qed.

Lemma lasting_extends n out : P n → extends P run out (fst (lasting run n out)).
Proof.
  intros HP. unfold lasting. destruct (_ || _) eqn:Hc; [reflexivity|].
  apply orb_false_iff in Hc as [Hb Hw%negb_false_iff].
  destruct (op_quiet _) eqn:Hq; [reflexivity|]. apply push_extends.
  unfold wants in Hw. apply bool_decide_eq_true in Hw. done.
Qed.

End Steps.

(** Follows a rule: every branch is a chain of the steps above. *)
Ltac extend :=
  repeat match goal with
  | |- extends _ _ ?o ?o => reflexivity
  | |- context [fst (_, _)] => progress cbn [fst snd]
  | |- context [snd (_, _)] => progress cbn [fst snd]
  | H : lasting ?run ?n ?out = (?o, _) |- extends ?P ?run ?out ?o =>
      generalize (lasting_extends P run n out); rewrite H; intros Hl; apply Hl
  | |- extends _ _ _ (fst (match ?x with _ => _ end)) => destruct x eqn:?
  | |- extends _ _ _ (snd (match ?x with _ => _ end)) => destruct x eqn:?
  | |- extends _ _ _ (match ?x with _ => _ end) => destruct x eqn:?
  | |- extends _ _ _ (wake _ _ _) => etrans; [|apply wake_extends]
  | |- extends _ _ _ (event _ _ _) => etrans; [|apply event_extends]
  end; try done.

Section Machine.
Variable run : Run_.
Variable previous : option OversightState.

Abbreviation has_id i := (fun n : OversightNotification => no_id n = js "machine:" ++ js i).

Lemma overseeLink_extends awakeSince out :
  extends (has_id "link") run out (fst (overseeLink run previous awakeSince out)).
Proof. unfold overseeLink. extend. Qed.

Lemma overseeDisk_extends out :
  extends (has_id "disk") run out (fst (overseeDisk run previous out)).
Proof. unfold overseeDisk. extend. Qed.

Lemma overseeMemory_extends out :
  extends (has_id "memory") run out (fst (overseeMemory run previous out)).
Proof. unfold overseeMemory. extend. Qed.

Lemma overseeMachine_extends awakeSince out :
  extends (fun _ => True) run out (fst (overseeMachine run previous awakeSince out)).
Proof.
  unfold overseeMachine. pose proof (overseeLink_extends awakeSince out) as H1.
  destruct (overseeLink _ _ _ _) as [o1 l]. pose proof (overseeDisk_extends o1) as H2.
  destruct (overseeDisk _ _ _) as [o2 d]. pose proof (overseeMemory_extends o2) as H3.
  destruct (overseeMemory _ _ _) as [o3 m]. cbn in *.
  etrans; [by eapply extends_weaken, H1|]. etrans; by eapply extends_weaken.
Qed.

End Machine.

(** What the rules of a workspace send. *)
Definition not_machine (n : OversightNotification) : Prop := no_category n ≠ Machine.

Section Workspace.
Context `{!NodeDate}.
Variable toLowerCase : units → units.
Variable run : Run_.
Variable env : OversightEnvironment.
Variable title : units.

Lemma overseeStart_extends entry out :
  extends not_machine run out (snd (overseeStart run env title entry out)).
Proof.
  unfold overseeStart.
  match goal with |- context [let '(_, _) := ?x in _] =>
    assert (H1 : extends not_machine run out (snd x)) by extend; destruct x as [e1 o1] end.
  etrans; [exact H1|]. extend.
Qed.

Lemma overseeProgress_extends entry out :
  extends not_machine run out (snd (overseeProgress run env title entry out)).
Proof.
  unfold overseeProgress. set (since := quiet_since _ _ _). set (entry1 := if option_lt _ _ then _ else _).
  assert (Hf : extends not_machine run out (snd (finish_step run env title since entry1 out))).
  { unfold finish_step. extend. }
  destruct (finish_step run env title since entry1 out) as [e2 o2]. cbn in Hf.
  etrans; [exact Hf|]. unfold stuck_step. extend.
Qed.

Lemma overseeLoop_extends prev p entry out :
  extends not_machine run out (snd (overseeLoop toLowerCase run env title prev p entry out)).
Proof. unfold overseeLoop. extend. Qed.

Lemma overseeLoops_extends prev entry out :
  extends not_machine run out (snd (overseeLoops toLowerCase run env title prev entry out)).
Proof.
  unfold overseeLoops. pose proof (overseeLoop_extends prev PIos entry out) as H1.
  destruct (overseeLoop _ _ _ _ _ PIos _ _) as [e1 o1]. cbn in H1.
  etrans; [exact H1|apply overseeLoop_extends].
Qed.

Lemma overseeMerge_extends prev entry out :
  extends not_machine run out (snd (overseeMerge run env title prev entry out)).
Proof.
  unfold overseeMerge.
  assert (H1 : extends not_machine run out (snd (overseePr run env title entry out))).
  { unfold overseePr. destruct (_ !! _) as [[pr|]|]; [|extend..].
    match goal with |- context [let '(_, _) := ?x in _] =>
      assert (H1 : extends not_machine run out (snd x)) by extend; destruct x as [e1 o1] end.
    exact H1. }
  destruct (overseePr run env title entry out) as [e1 o1]. cbn in H1.
  etrans; [exact H1|]. extend.
Qed.

Lemma attention_loop_extends prev pending ids raised out :
  extends not_machine run out (snd (attention_loop run env title prev pending ids raised out)).
Proof.
  revert ids raised out. induction pending as [|[item target] pending IH]; intros ids raised out;
    cbn [attention_loop]; [reflexivity|].
  destruct (_ || raised); [apply IH|]. cbv zeta.
  match goal with |- context [lasting run ?n out] => pose proof (lasting_extends not_machine run n out ltac:(done)) as Hl;
    destruct (lasting run n out) as [o sent] end. cbn in Hl.
  destruct sent; (etrans; [exact Hl|apply IH]).
Qed.

Lemma overseeAttention_extends prev entry out :
  extends not_machine run out (snd (overseeAttention toLowerCase run env title prev entry out)).
Proof.
  unfold overseeAttention. destruct (workspaceAttention _ _ _ _ _ _ _) as [items w].
  match goal with |- context [attention_loop _ _ _ _ ?p ?i ?r ?o] =>
    pose proof (attention_loop_extends prev p i r o) as Hl;
    destruct (attention_loop run env title prev p i r o) as [[ids raised] o'] end.
  cbn in *. etrans; [|exact Hl]. destruct w; [apply wake_extends|reflexivity].
Qed.

Lemma overseeRules_extends prev out :
  extends not_machine run out (snd (overseeRules toLowerCase run env title prev out)).
Proof.
  unfold overseeRules. pose proof (overseeStart_extends (new_entry run env prev) out) as H1.
  destruct (overseeStart _ _ _ _ _) as [e1 o1]. pose proof (overseeProgress_extends e1 o1) as H2.
  destruct (overseeProgress _ _ _ _ _) as [e2 o2]. pose proof (overseeLoops_extends prev e2 o2) as H3.
  destruct (overseeLoops _ _ _ _ _ _ _) as [e3 o3]. pose proof (overseeMerge_extends prev e3 o3) as H4.
  destruct (overseeMerge _ _ _ _ _ _) as [e4 o4]. cbn in *.
  etrans; [exact H1|]. etrans; [exact H2|]. etrans; [exact H3|]. etrans; [exact H4|].
  apply overseeAttention_extends.
Qed.

End Workspace.

(** ** A whole look *)

Section Looks.
Context `{!NodeDate}.
Variable toLowerCase : units → units.

Lemma overseeAll_extends run status before envs seen out :
  extends not_machine run out (snd (overseeAll toLowerCase run status before envs seen out)).
Proof.
  revert seen out. induction envs as [|env envs IH]; intros seen out; cbn [overseeAll];
    [reflexivity|].
  unfold overseeWorkspace.
  pose proof (overseeRules_extends toLowerCase run env (oversightTitle env status)
                (before !! en_path env) out) as H1.
  destruct (overseeRules _ _ _ _ _ _) as [e o]. etrans; [exact H1|apply IH].
Qed.

(** The run of a look, its machine's part, and what the workspaces add. *)
Definition look_run (previous : option OversightState) (input : OversightInput)
    (prefs : OversightPrefs) (now : Z) : Run_ :=
  {| ru_input := input; ru_prefs := prefs; ru_now := now;
     ru_baseline := bool_decide (previous = None) |}.

Definition silent : Out := {| ou_notifications := []; ou_wakeAt := None |}.

Definition result_out (r : OversightResult) : Out :=
  {| ou_notifications := or_notifications r; ou_wakeAt := or_wakeAt r |}.

Lemma oversee_machine_then_workspaces previous input prefs now awakeSince :
  let run := look_run previous input prefs now in
  let '(out, state) := overseeMachine run previous awakeSince silent in
  let r := oversee toLowerCase previous input prefs now awakeSince in
  extends not_machine run out (result_out r) ∧ st_disk (or_state r) = st_disk state.
Proof.
  cbv zeta. unfold oversee. fold silent.
  change {| ru_input := input; ru_prefs := prefs; ru_now := now;
            ru_baseline := bool_decide (previous = None) |} with (look_run previous input prefs now).
  set (run := look_run _ _ _ _). destruct (overseeMachine run previous awakeSince silent) as [out st].
  destruct (oi_status input) as [status|]; [|split; [destruct out; reflexivity|done]].
  pose proof (overseeAll_extends run status
    (match previous with Some p => st_workspaces p | None => ∅ end) (os_environments status) ∅ out) as Ha.
  destruct (overseeAll _ _ _ _ _ _ _) as [seen [ns w]]. split; [exact Ha|done].
Qed.

Lemma oversee_extends previous input prefs now awakeSince :
  extends (fun _ => True) (look_run previous input prefs now) silent
    (result_out (oversee toLowerCase previous input prefs now awakeSince)).
Proof.
  pose proof (oversee_machine_then_workspaces previous input prefs now awakeSince) as H1.
  pose proof (overseeMachine_extends (look_run previous input prefs now) previous awakeSince silent)
    as H2. cbv zeta in H1.
  destruct (overseeMachine _ _ _ _) as [out st]. destruct H1 as [H1 _].
  etrans; [exact H2|by eapply extends_weaken, H1].
Qed.

(** A look sends only what is wanted. Every notification is of a category that is on, and
    there is none on the first look, which is the baseline, nor while notifications are quiet. *)
Theorem notifications_wanted previous input prefs now awakeSince n :
  n ∈ or_notifications (oversee toLowerCase previous input prefs now awakeSince) →
  previous ≠ None ∧ op_quiet prefs = false ∧ no_category n ∈ op_categories prefs.
Proof.
  intros Hn. destruct (oversee_extends previous input prefs now awakeSince) as [(new & E & A) _].
  cbn in E. rewrite E in Hn. rewrite Forall_forall in A.
  destruct (A n Hn) as (Hb & Hq & Hc & _). split; [by apply bool_decide_eq_false in Hb|done].
Qed.

(** A look asks to be woken only at a time ahead. *)
Theorem wake_in_future previous input prefs now awakeSince t :
  or_wakeAt (oversee toLowerCase previous input prefs now awakeSince) = Some t → now < t.
Proof.
  intros Ht. destruct (oversee_extends previous input prefs now awakeSince) as [_ W].
  by destruct (W t Ht).
Qed.

(** ** The disk *)

Definition is_disk (n : OversightNotification) : Prop :=
  no_category n = Machine ∧ no_id n = js "machine:disk".
#[local] Instance is_disk_dec n : Decision (is_disk n).
Proof. unfold is_disk. apply _. Defined.

Definition disk_count (l : list OversightNotification) : nat := length (base.filter is_disk l).

Definition told (held : option Held) : bool :=
  match held with Some h => he_notified h | None => false end.

Lemma extends_disk_count P run out out' :
  extends P run out out' → (∀ n, P n → ~ is_disk n) →
  disk_count (ou_notifications out') = disk_count (ou_notifications out).
Proof.
  intros [(new & -> & A) _] HP. unfold disk_count. rewrite filter_app, length_app.
  rewrite (filter_none is_disk new); [cbn; lia|].
  eapply Forall_impl; [exact A|]. intros n (_ & _ & _ & Hn). by apply HP.
Qed.

(** The disk rule alone decides on the disk's notification. *)
Lemma oversee_disk previous input prefs now awakeSince :
  let r := oversee toLowerCase previous input prefs now awakeSince in
  ∃ out out', disk_count (ou_notifications out) = 0%nat ∧
    overseeDisk (look_run previous input prefs now) previous out = (out', st_disk (or_state r)) ∧
    disk_count (or_notifications r) = disk_count (ou_notifications out').
Proof.
  cbv zeta. pose proof (oversee_machine_then_workspaces previous input prefs now awakeSince) as Hm.
  cbv zeta in Hm. set (run := look_run previous input prefs now) in *.
  set (r := oversee _ _ _ _ _ _) in *. clearbody r. unfold overseeMachine in Hm.
  pose proof (overseeLink_extends run previous awakeSince silent) as H1.
  destruct (overseeLink _ _ _ _) as [o1 l]. exists o1.
  destruct (overseeDisk run previous o1) as [o2 d]. exists o2.
  pose proof (overseeMemory_extends run previous o2) as H3.
  destruct (overseeMemory _ _ _) as [o3 m]. destruct Hm as [Hw ->]. cbn in H1, H3.
  split_and!; [| done |].
  - rewrite (extends_disk_count _ _ _ _ H1 ltac:(intros n Hn [_ Hd]; cbn beta in Hn; rewrite Hd in Hn; discriminate Hn)). done.
  - rewrite <- (extends_disk_count _ _ _ _ H3 ltac:(intros n Hn [_ Hd]; cbn beta in Hn; rewrite Hd in Hn; discriminate Hn)).
    apply (extends_disk_count _ _ _ _ Hw ltac:(by intros n Hn [Hd _])).
Qed.

(** When the disk rule sends. *)
Definition disk_due (previous : option OversightState) (input : OversightInput) : Prop :=
  told (previous ≫= st_disk) = false ∧
  ∃ lowest, lowest_free (oi_volumes input) = Some lowest ∧
    lowest < match previous ≫= st_disk with
             | Some _ => DISK_RECOVERED_BYTES
             | None => DISK_CRITICAL_BYTES
             end.

(** A look that does not end an episode. *)
Definition still_low (input : OversightInput) : Prop :=
  oi_volumes input = None ∨
  ∃ lowest, lowest_free (oi_volumes input) = Some lowest ∧ lowest < DISK_RECOVERED_BYTES.

Lemma disk_count_push n l : is_disk n → disk_count (l ++ [n]) = S (disk_count l).
Proof.
  intros Hn. unfold disk_count. rewrite filter_app, length_app, filter_cons_True by done.
  cbn. lia.
Qed.

Lemma overseeDisk_count run previous out out' held :
  overseeDisk run previous out = (out', held) → still_low (ru_input run) →
  (Nat.b2n (told (previous ≫= st_disk)) + disk_count (ou_notifications out')
   ≤ Nat.b2n (told held) + disk_count (ou_notifications out))%nat.
Proof.
  unfold overseeDisk. intros E Hlow. destruct (oi_volumes _) as [vs|] eqn:Hv; simplify_eq; [|done].
  destruct Hlow as [|(v & Hmin & Hv')]; [congruence|]. rewrite Hv in Hmin. rewrite Hmin in E.
  destruct (previous ≫= st_disk) as [h|]; cbn in E |- *.
  - rewrite (proj2 (Z.ltb_lt _ _) Hv') in E. destruct (he_notified h) eqn:Hh; simplify_eq/=;
      [by rewrite Hh|]. unfold lasting in E. repeat case_match; simplify_eq/=; try lia.
    rewrite disk_count_push by done. lia.
  - unfold lasting in E. repeat case_match; simplify_eq/=; try lia.
    rewrite disk_count_push by done. lia.
Qed.

(** A series of looks, each from the state the one before left, and all they send. *)
Record Look := {
  lk_input : OversightInput; lk_prefs : OversightPrefs; lk_now : Z; lk_awakeSince : Z }.

Definition look (previous : option OversightState) (l : Look) : OversightResult :=
  oversee toLowerCase previous (lk_input l) (lk_prefs l) (lk_now l) (lk_awakeSince l).

Fixpoint looks (previous : option OversightState) (ls : list Look) : list OversightNotification :=
  match ls with
  | [] => []
  | l :: ls => or_notifications (look previous l) ++ looks (Some (or_state (look previous l))) ls
  end.

(** One notification per episode of a full disk. Over any series of looks in which no
    volume list shows the disk recovered, whatever else changes and however the preferences
    change, the disk is notified at most once, and never again when the episode already was. *)
Theorem disk_once_per_episode previous ls :
  Forall (fun l => still_low (lk_input l)) ls →
  (disk_count (looks previous ls) + Nat.b2n (told (previous ≫= st_disk)) ≤ 1)%nat.
Proof.
  intros Hl. revert previous. induction Hl as [|l ls Hlow Hl IH]; intros previous; cbn [looks];
    [destruct (told _); vm_compute; lia|].
  destruct (oversee_disk previous (lk_input l) (lk_prefs l) (lk_now l) (lk_awakeSince l))
    as (out & out' & H0 & E & Hc).
  apply overseeDisk_count in E; [|done]. specialize (IH (Some (or_state (look previous l)))).
  unfold disk_count in *. rewrite filter_app, length_app. unfold look in *. cbn in IH. lia.
Qed.

(** When a look notifies the disk: exactly when it is not the first, notifications of the
    machine are wanted now, the episode was not notified yet, and the fullest volume has less
    than the critical space, or, once an episode began, less than the recovered space. *)
Theorem disk_notified_iff previous input prefs now awakeSince :
  (∃ n, n ∈ or_notifications (oversee toLowerCase previous input prefs now awakeSince) ∧ is_disk n)
  ↔ previous ≠ None ∧ op_quiet prefs = false ∧ Machine ∈ op_categories prefs ∧
    disk_due previous input.
Proof.
  assert (Hd : ∀ l, (∃ n, n ∈ l ∧ is_disk n) ↔ disk_count l ≠ 0%nat).
  { intros l. unfold disk_count. rewrite length_zero_iff_nil. split.
    - intros (n & Hn & Hd) E. by apply (filter_nil_not_elem_of is_disk l n).
    - destruct (base.filter is_disk l) as [|n l'] eqn:E; [done|]. intros _. exists n.
      assert (n ∈ base.filter is_disk l) as [? ?]%list_elem_of_filter by (rewrite E; left). done. }
  rewrite Hd. clear Hd.
  destruct (oversee_disk previous input prefs now awakeSince) as (out & out' & H0 & E & ->).
  revert E. generalize (st_disk (or_state (oversee toLowerCase previous input prefs now awakeSince))).
  intros held E. unfold disk_due. unfold overseeDisk in E. cbn [look_run ru_input] in E.
  destruct (oi_volumes input) as [vs|] eqn:Hv; simplify_eq; [|cbn; naive_solver].
  destruct (lowest_free (Some vs)) as [v|]; simplify_eq; [|naive_solver].
  destruct (Z.ltb_spec v (match previous ≫= st_disk with
    | Some _ => DISK_RECOVERED_BYTES | None => DISK_CRITICAL_BYTES end)); simplify_eq;
    [|split; [done|intros (_ & _ & _ & _ & v' & Hv' & ?); simplify_eq; lia]].
  assert (Ht : he_notified (heldFor (previous ≫= st_disk) now) = told (previous ≫= st_disk)).
  { by destruct (previous ≫= st_disk). }
  cbn [look_run ru_now] in E. rewrite Ht in E.
  destruct (told (previous ≫= st_disk)) eqn:Htold; simplify_eq; [naive_solver|].
  unfold lasting, wants in E. cbn in E.
  destruct (decide (previous = None)) as [->|Hp]; [simplify_eq; naive_solver|].
  rewrite (bool_decide_eq_false_2 _ Hp) in E. cbn in E.
  destruct (decide (Machine ∈ op_categories prefs)) as [Hw|Hw];
    [|rewrite (bool_decide_eq_false_2 _ Hw) in E; cbn in E; simplify_eq; naive_solver].
  rewrite (bool_decide_eq_true_2 _ Hw) in E. cbn in E.
  destruct (op_quiet prefs); simplify_eq; [naive_solver|].
  cbn [push_notification ou_notifications]. rewrite disk_count_push by done. naive_solver.
Qed.

(** ** Workspaces remembered *)

Ltac branches := repeat (case_match; simplify_eq/=); try done.

Section Seen.
Variable run : Run_.
Variable env : OversightEnvironment.
Variable title : units.

Lemma overseeStart_seen entry out :
  we_seenAt (fst (overseeStart run env title entry out)) = we_seenAt entry.
Proof. unfold overseeStart. branches. Qed.

Lemma finish_step_seen since entry out :
  we_seenAt (fst (finish_step run env title since entry out)) = we_seenAt entry.
Proof. unfold finish_step. branches. Qed.

Lemma stuck_step_seen since entry out :
  we_seenAt (fst (stuck_step run env title since entry out)) = we_seenAt entry.
Proof. unfold stuck_step. branches. Qed.

Lemma overseeProgress_seen entry out :
  we_seenAt (fst (overseeProgress run env title entry out)) = we_seenAt entry.
Proof.
  unfold overseeProgress. set (since := quiet_since _ _ _).
  set (entry1 := if option_lt _ _ then _ else _).
  pose proof (finish_step_seen since entry1 out) as H1.
  destruct (finish_step _ _ _ _ _ _) as [e2 o2]. rewrite stuck_step_seen. cbn in H1.
  destruct (isIdle env); destruct (we_finished e2); cbn; rewrite H1; subst entry1;
    by destruct (option_lt _ _).
Qed.

Lemma overseeLoop_seen prev p entry out :
  we_seenAt (fst (overseeLoop toLowerCase run env title prev p entry out)) = we_seenAt entry.
Proof. unfold overseeLoop, set_loop. branches. Qed.

Lemma overseePr_seen entry out :
  we_seenAt (fst (overseePr run env title entry out)) = we_seenAt entry.
Proof. unfold overseePr. branches. Qed.

Lemma overseeMerge_seen prev entry out :
  we_seenAt (fst (overseeMerge run env title prev entry out)) = we_seenAt entry.
Proof.
  unfold overseeMerge. pose proof (overseePr_seen entry out) as H1.
  destruct (overseePr _ _ _ _ _) as [e1 o1]. cbn in H1. branches.
Qed.

Lemma overseeRules_seen prev out :
  we_seenAt (fst (overseeRules toLowerCase run env title prev out)) = ru_now run.
Proof.
  unfold overseeRules. pose proof (overseeStart_seen (new_entry run env prev) out) as H1.
  destruct (overseeStart _ _ _ _ _) as [e1 o1]. pose proof (overseeProgress_seen e1 o1) as H2.
  destruct (overseeProgress _ _ _ _ _) as [e2 o2]. unfold overseeLoops.
  pose proof (overseeLoop_seen prev PIos e2 o2) as H3.
  destruct (overseeLoop _ _ _ _ _ _ _ _) as [e3 o3].
  pose proof (overseeLoop_seen prev PAndroid e3 o3) as H4.
  destruct (overseeLoop _ _ _ _ _ _ _ _) as [e4 o4].
  pose proof (overseeMerge_seen prev e4 o4) as H5.
  destruct (overseeMerge _ _ _ _ _ _) as [e5 o5]. unfold overseeAttention.
  destruct (workspaceAttention _ _ _ _ _ _ _), (attention_loop _ _ _ _ _ _ _ _) as [[? ?] ?].
  cbn in *. congruence.
Qed.

End Seen.

Lemma overseeAll_lookup run status before envs seen out k :
  match fst (overseeAll toLowerCase run status before envs seen out) !! k with
  | Some e => (k ∈ map en_path envs ∧ we_seenAt e = ru_now run)
              ∨ (k ∉ map en_path envs ∧ seen !! k = Some e)
  | None => k ∉ map en_path envs ∧ seen !! k = None
  end.
Proof.
  revert seen out. induction envs as [|env envs IH]; intros seen out; cbn [overseeAll map].
  { cbn. pose proof (not_elem_of_nil k). destruct (seen !! k); [by right|done]. }
  unfold overseeWorkspace.
  pose proof (overseeRules_seen run env (oversightTitle env status) (before !! en_path env) out) as Hs.
  destruct (overseeRules _ _ _ _ _ _) as [e o]. cbn in Hs.
  specialize (IH (<[en_path env := e]> seen) o).
  destruct (decide (k = en_path env)) as [->|Hk].
  - rewrite lookup_insert_eq in IH.
    destruct (fst _ !! _); [|naive_solver]. left. split; [by left|]. naive_solver.
  - rewrite lookup_insert_ne in IH by done.
    destruct (fst _ !! _); rewrite not_elem_of_cons, ?elem_of_cons; naive_solver.
Qed.

(** Which workspaces a look remembers. Without a status it keeps every entry. With one, a
    workspace of the status has an entry seen now; any other entry is kept unchanged exactly
    while it was seen less than the grace time ago, and none is made up. *)
Theorem workspaces_remembered previous input prefs now awakeSince k :
  let before := match previous with Some p => st_workspaces p | None => ∅ end in
  let after := st_workspaces (or_state (oversee toLowerCase previous input prefs now awakeSince)) in
  match oi_status input with
  | None => after = before
  | Some status =>
      if decide (k ∈ map en_path (os_environments status))
      then ∃ e, after !! k = Some e ∧ we_seenAt e = now
      else ∀ e, after !! k = Some e ↔ before !! k = Some e ∧ now - we_seenAt e < FORGET_MS
  end.
Proof.
  cbv zeta. unfold oversee. set (run := {| ru_input := input |}).
  set (before := match previous with Some p => st_workspaces p | None => ∅ end).
  destruct (overseeMachine _ _ _ _) as [out st].
  destruct (oi_status input) as [status|]; [|done].
  pose proof (overseeAll_lookup run status before (os_environments status) ∅ out k) as Ha.
  destruct (overseeAll _ _ _ _ _ _ _) as [seen out']. cbn in Ha |- *.
  destruct (decide _) as [Hk|Hk].
  - destruct (seen !! k) as [e|] eqn:He; [|naive_solver].
    exists e. split; [by apply lookup_union_Some_l|]. naive_solver.
  - assert (Hn : seen !! k = None) by (destruct (seen !! k); [naive_solver|done]).
    intros e. rewrite lookup_union_r, map_lookup_filter_Some by done. done.
Qed.

End Looks.

(** ** Problems of a workspace, once each *)

Section Once.
Context `{!NodeDate}.
Variable toLowerCase : units → units.
Variable run : Run_.
Variable env : OversightEnvironment.
Variable title : units.
Variable prev : option WorkspaceEntry.

(** What the workspace had been notified of, or was covered by a notification. *)
Definition known_ids : list units := match prev with Some e => we_attention e | None => [] end.

Lemma lasting_cases n out :
  lasting run n out = (out, true) ∨ lasting run n out = (out, false)
  ∨ lasting run n out = (push_notification n out, true).
Proof. unfold lasting. repeat case_match; auto. Qed.

(** An item that adds no notification: the rest of the loop decides. *)
Ltac skip_item IH E :=
  apply IH in E as (Hids & new & -> & Hlen & Hnew & Hkept); split; [set_solver|];
  exists new; split_and!; [done..|];
  intros ? ? [[= -> ->]|?]%elem_of_cons ?; [set_solver|eauto].

Lemma attention_loop_spec pending ids raised out ids' raised' out' :
  attention_loop run env title prev pending ids raised out = (ids', raised', out') →
  ids ⊆ ids' ∧
  ∃ new, ou_notifications out' = ou_notifications out ++ new ∧
    (length new ≤ Nat.b2n (negb raised))%nat ∧
    Forall (fun n => no_category n = Attention ∧ no_id n ∉ known_ids ∧ no_id n ∈ ids') new ∧
    ∀ item target, (item, target) ∈ pending → na_id item ∈ known_ids → na_id item ∈ ids'.
Proof.
  revert ids raised out. induction pending as [|[item target] pending IH]; intros ids raised out E;
    cbn [attention_loop] in E.
  { simplify_eq. split; [done|]. exists []. rewrite app_nil_r. repeat split; [cbn; lia|done|].
    intros ? ? []%not_elem_of_nil. }
  match type of E with (if ?k || raised then _ else _) = _ =>
    assert (Hk : k = bool_decide (na_id item ∈ known_ids))
      by (unfold known_ids; destruct prev; [done|by rewrite bool_decide_eq_false_2 by apply not_elem_of_nil]);
    rewrite Hk in E; clear Hk end.
  destruct (bool_decide _) eqn:Hknown; [apply bool_decide_eq_true in Hknown|apply bool_decide_eq_false in Hknown];
    cbn [orb] in E; [|destruct raised]; [skip_item IH E..|].
  match type of E with context [lasting run ?n out] => set (m := n) in E end. cbv zeta in E.
  destruct (lasting_cases m out) as [Hl|[Hl|Hl]]; rewrite Hl in E.
  - rewrite Nat.ltb_irrefl in E. skip_item IH E.
  - skip_item IH E.
  - cbn [push_notification ou_notifications orb] in E. rewrite length_app, (proj2 (Nat.ltb_lt _ _)) in E by (cbn; lia).
    apply IH in E as (Hids & new & -> & Hlen & Hnew & Hkept). cbn in Hlen.
    destruct new; [|cbn in Hlen; lia]. split; [set_solver|]. exists [m].
    split_and!; [by rewrite app_nil_r|done| |].
    + constructor; [|done]. split_and!; [done|done|cbn; set_solver].
    + intros it tg [[= -> ->]|Hin]%elem_of_cons Hit; [done|eauto].
Qed.

(** What needs attention in a workspace is notified once. A look sends at most one such
    notification, for a problem that was not known, and then remembers it; a known problem that
    is still there stays known, so it is not sent again. *)
Theorem attention_notified_once entry out :
  we_attention entry = [] →
  let '(entry', out') := overseeAttention toLowerCase run env title prev entry out in
  ∃ new, ou_notifications out' = ou_notifications out ++ new ∧ (length new ≤ 1)%nat ∧
    Forall (fun n => no_category n = Attention ∧ no_id n ∉ known_ids ∧
                     no_id n ∈ we_attention entry') new ∧
    ∀ item target,
      (item, target) ∈ omap (pending_item env) (fst (workspaceAttention toLowerCase env (ru_now run)
        (op_stuckMinutes (ru_prefs run)) EAS_SESSION_MINUTES (oi_ownLeases (ru_input run))
        attentionBody)) →
      na_id item ∈ known_ids → na_id item ∈ we_attention entry'.
Proof.
  intros He. unfold overseeAttention. rewrite He.
  destruct (workspaceAttention _ _ _ _ _ _ _) as [items w]. cbn [fst].
  match goal with |- context [attention_loop ?a ?b ?c ?d ?p ?i ?r ?o] =>
    destruct (attention_loop a b c d p i r o) as [[ids raised] out'] eqn:E;
    assert (Ho : ou_notifications o = ou_notifications out)
      by (destruct w as [t|]; [unfold wake; by destruct (ru_now run <? t)|done]) end.
  apply attention_loop_spec in E as (_ & new & -> & Hlen & Hnew & Hkept). exists new.
  rewrite Ho. split_and!; [done| |done|done]. etrans; [exact Hlen|].
  match goal with |- (Nat.b2n ?b ≤ 1)%nat => destruct b; cbn; lia end.
Qed.

(** A build loop is notified once for each cause. What the rule adds is one notification at
    most, only for a streak of three or more whose cause was not notified, and then the cause is
    recorded as notified; while the streak goes on for a recorded cause nothing is added and the
    record stays. *)
Theorem loop_notified_once p entry out :
  let '(entry', out') := overseeLoop toLowerCase run env title prev p entry out in
  let loop := match p with PIos => we_loopIos entry' | PAndroid => we_loopAndroid entry' end in
  (out' = out ∨
   ∃ streak n, failureStreak p (builds_of env p) = Some streak ∧ (3 ≤ fs_count streak)%nat ∧
     out' = push_notification n out ∧ no_category n = Looping ∧
     loop = Some {| lo_signature := bc_key (fs_cause streak); lo_notified := true |} ∧
     prev_loop prev p ≠ loop) ∧
  ∀ streak, failureStreak p (builds_of env p) = Some streak → (3 ≤ fs_count streak)%nat →
    prev_loop prev p = Some {| lo_signature := bc_key (fs_cause streak); lo_notified := true |} →
    out' = out ∧ loop = prev_loop prev p.
Proof.
  unfold overseeLoop. destruct (failureStreak p (builds_of env p)) as [streak|];
    [|split; [by left|done]].
  destruct (LOOP_COUNT <=? fs_count streak)%nat eqn:Hloop.
  2: { rewrite andb_false_l. apply Nat.leb_gt in Hloop. split; [by left|].
       intros ? [= <-] Hc. unfold LOOP_COUNT in Hloop. lia. }
  rewrite andb_true_l. apply Nat.leb_le in Hloop. set (key := bc_key (fs_cause streak)).
  set (loop := match prev_loop prev p with Some _ => _ | None => _ end).
  assert (Hloop' : lo_notified loop = true →
    prev_loop prev p = Some {| lo_signature := key; lo_notified := true |} ∧
    loop = {| lo_signature := key; lo_notified := true |}).
  { subst loop. destruct (prev_loop prev p) as [[sg nt]|]; [|done]. rewrite andb_true_r. cbn.
    destruct (decide (sg = key)) as [->|Hs];
      [rewrite bool_decide_eq_true_2 by done; cbn; by intros ->|].
    by rewrite bool_decide_eq_false_2. }
  assert (Hrec : prev_loop prev p = Some {| lo_signature := key; lo_notified := true |} →
    lo_notified loop = true).
  { subst loop. intros ->. cbn. by rewrite bool_decide_eq_true_2. }
  clearbody loop. destruct (lo_notified loop) eqn:Hn; cbn [negb].
  - destruct Hloop' as [Hp ->]; [done|]. split; [by left|]. intros ? [= <-] _ _.
    split; [done|]. rewrite Hp. by destruct p.
  - match goal with |- context [lasting run ?n out] =>
      destruct (lasting_cases n out) as [-> | [-> | ->]]; [split; [by left|]..|split; [right|]] end;
      try (intros ? [= <-] _ Hp; by rewrite Hrec in Hp || (apply Hrec in Hp; congruence)).
    eexists streak, _. unfold LOOP_COUNT in Hloop.
    split_and!; [done|done|done|done|by destruct p|].
    intros Hp. assert (Hl : prev_loop prev p = Some {| lo_signature := key; lo_notified := true |})
      by (rewrite Hp; by destruct p).
    apply Hrec in Hl. congruence.
Qed.

End Once.

(** ** What needs attention *)

Definition rank (a : NeedsAttentionItem * Z) : Z * Z := (severityRank (fst a), snd a).

Lemma rank_le_spec a b :
  rank_le a b = true ↔ fst (rank a) < fst (rank b) ∨ (fst (rank a) = fst (rank b) ∧ snd a <= snd b).
Proof.
  unfold rank_le, rank. cbn. rewrite orb_true_iff, andb_true_iff, Z.ltb_lt, Z.eqb_eq, Z.leb_le. done.
Qed.

(** The order of what needs attention. The result holds every item found and no other,
    errors before warnings, in each severity the machine's before those of running workspaces
    before the rest, and items of one rank in the order they were found. *)
Theorem attention_ranked `{!NodeDate} toLowerCase environments volumes now stuckMinutes
    easSessionMinutes ownLeases format :
  let found := ranked_items toLowerCase environments volumes now stuckMinutes easSessionMinutes
                 ownLeases format in
  ∃ sorted,
    needsAttention toLowerCase environments volumes now stuckMinutes easSessionMinutes ownLeases
      format = map fst sorted ∧
    sorted ≡ₚ found ∧
    StronglySorted (fun a b => rank_le a b = true) sorted ∧
    ∀ r, base.filter (fun a => bool_decide (rank a = r) = true) sorted
         = base.filter (fun a => bool_decide (rank a = r) = true) found.
Proof.
  cbv zeta. eexists. split; [reflexivity|]. split; [apply stable_sort_perm|]. split.
  - apply stable_sort_sorted.
    + intros a b. rewrite !rank_le_spec. lia.
    + intros a b c. rewrite !rank_le_spec. lia.
  - intros r. apply (stable_sort_stable rank_le (fun a => bool_decide (rank a = r))). intros a b Ha%bool_decide_eq_true Hb%bool_decide_eq_true.
    rewrite rank_le_spec. right. unfold rank in *. subst r. injection Hb as ? ?. cbn. lia.
Qed.

(** Quiet hours are the interval of the day, taken around midnight, from their start up to
    but not including their end. *)
Theorem quiet_hours_interval start end_ minute :
  0 <= start < 1440 → 0 <= end_ < 1440 → 0 <= minute < 1440 →
  inQuietHours (Some (start, end_)) minute = true ↔
  (minute - start) mod 1440 < (end_ - start) mod 1440.
Proof.
  intros Hs He Hm. unfold inQuietHours.
  assert (Hmod : ∀ d, -1440 < d < 1440 → d mod 1440 = if d <? 0 then d + 1440 else d).
  { intros d Hd. destruct (Z.ltb_spec d 0); [|apply Z.mod_small; lia].
    symmetry. apply (Z.mod_unique _ _ (-1)); lia. }
  rewrite !Hmod by lia.
  destruct (Z.eqb_spec start end_); destruct (Z.ltb_spec start end_);
    destruct (Z.ltb_spec (minute - start) 0); destruct (Z.ltb_spec (end_ - start) 0);
    rewrite ?andb_true_iff, ?orb_true_iff, ?Z.leb_le, ?Z.ltb_lt; lia || (split; [done|lia]).
Qed.

(** A failure streak is the longest run of builds at the head of the history that failed for
    the cause of the newest; there is one exactly when the newest build failed. *)
Theorem streak_maximal p history :
  match failureStreak p history with
  | None => ∀ h, head history = Some h → failed h = false
  | Some s =>
      ∃ h run rest, head history = Some h ∧ history = run ++ rest ∧ fs_count s = length run ∧
        (0 < fs_count s)%nat ∧ fs_cause s = causeOf h ∧
        Forall (fun b => failed b = true ∧ bc_key (causeOf b) = bc_key (causeOf h)) run ∧
        ∀ b, head rest = Some b → failed b = false ∨ bc_key (causeOf b) ≠ bc_key (causeOf h)
  end.
Proof.
  assert (Hc : ∀ key l, ∃ run rest, l = run ++ rest ∧ streak_count key l = length run ∧
    Forall (fun b => failed b = true ∧ bc_key (causeOf b) = key) run ∧
    ∀ b, head rest = Some b → failed b = false ∨ bc_key (causeOf b) ≠ key).
  { intros key l. induction l as [|b l (run & rest & -> & Hn & Hr & Hb)]; [by exists [], []|].
    cbn [streak_count].
    destruct (failed b) eqn:Hf; cbn [negb orb]; [|exists [], (b :: run ++ rest); naive_solver].
    destruct (decide (bc_key (causeOf b) = key)) as [Hk|Hk].
    - rewrite bool_decide_eq_true_2 by done. exists (b :: run), rest. cbn. rewrite Hn. split_and!; [done|done|by constructor|done].
    - rewrite bool_decide_eq_false_2 by done. exists [], (b :: run ++ rest). naive_solver. }
  destruct history as [|h history]; [done|]. unfold failureStreak.
  destruct (failed h) eqn:Hf; cbn [negb]; [|by intros ? [= <-]].
  destruct (Hc (bc_key (causeOf h)) (h :: history)) as (run & rest & E & Hn & Hr & Hb).
  exists h, run, rest. cbn [fs_count fs_cause]. split_and!; [done|done|done| |done|done|done].
  cbn [streak_count]. rewrite Hf, bool_decide_eq_true_2 by done. cbn. lia.
Qed.

(** ** Concrete looks *)

Section Witnesses.

(** Dates that are written in decimal milliseconds. *)
#[local] Instance decimal_date : NodeDate := {|
  Date_parse := fun u =>
    fold_left (fun t c => t ← t; if (48 <=? c) && (c <=? 57) then Some (10 * t + (c - 48)) else None)
      u (Some 0);
  toISOString t := Some (number t) |}.

Definition no_workspaces : OversightState :=
  {| st_workspaces := ∅; st_disk := None; st_memory := None; st_memoryKnown := true;
     st_link := None |}.

Definition full_disk : OversightInput :=
  {| oi_machine := js "mac"; oi_status := None; oi_volumes := Some [9 * 10 ^ 9; 10 ^ 9];
     oi_memoryPressure := Some (js "critical"); oi_link := None; oi_pullRequests := ∅;
     oi_ownLeases := [] |}.

Definition all_on : OversightPrefs :=
  {| op_categories := [Started; Stuck; Looping; Finished; Machine; Attention];
     op_stuckMinutes := 10; op_quiet := false |}.

Definition disk_notice : OversightNotification :=
  {| no_id := js "machine:disk"; no_category := Machine; no_title := js "mac";
     no_body := js "1.0 GB free, below Stim's floor"; no_quiet := true; no_thread := None;
     no_target := TargetMachine |}.

Lemma notifications_wanted_witness :
  disk_notice ∈ or_notifications (oversee id (Some no_workspaces) full_disk all_on 100 0) ∧
  no_category disk_notice ∈ op_categories all_on.
Proof.
  assert (H : disk_notice ∈ or_notifications (oversee id (Some no_workspaces) full_disk all_on 100 0))
    by (vm_compute; left).
  split; [exact H|apply (notifications_wanted id _ _ _ _ _ _ H)].
Defined.

Lemma wake_in_future_witness :
  or_wakeAt (oversee id (Some no_workspaces) full_disk all_on 100 0) = Some 60100 ∧ 100 < 60100.
Proof.
  split; [vm_compute; reflexivity|].
  apply (wake_in_future id (Some no_workspaces) full_disk all_on 100 0). vm_compute. reflexivity.
Defined.

Definition three_looks : list Look :=
  map (fun now => {| lk_input := full_disk; lk_prefs := all_on; lk_now := now; lk_awakeSince := 0 |})
    [100; 200; 300].

Lemma disk_once_per_episode_witness :
  disk_count (looks id (Some no_workspaces) three_looks) = 1%nat ∧
  (disk_count (looks id (Some no_workspaces) three_looks)
   + Nat.b2n (told (Some no_workspaces ≫= st_disk)) ≤ 1)%nat.
Proof.
  split; [vm_compute; reflexivity|].
  apply (disk_once_per_episode id (Some no_workspaces) three_looks).
  apply Forall_map, Forall_true. intros now. right. exists (10 ^ 9). split; vm_compute; reflexivity.
Defined.

Lemma quiet_hours_interval_witness :
  inQuietHours (Some (1320, 420)) 30 = true ∧ (30 - 1320) mod 1440 < (420 - 1320) mod 1440.
Proof.
  split; [reflexivity|]. apply (quiet_hours_interval 1320 420 30); [lia|lia|lia|reflexivity].
Defined.

(** A workspace whose last iOS build failed to sign. *)
Definition unsigned_build : Build :=
  {| bu_platform := js "ios"; bu_status := js "failed"; bu_result := None; bu_startedAt := js "10";
     bu_finishedAt := Some (js "20"); bu_errorCode := Some (js "STIM_NO_PROFILE");
     bu_diagnostics := [] |}.

Definition unsigned : OversightEnvironment :=
  {| en_path := js "/w"; en_live := true; en_phase := None; en_ios := None; en_android := None;
     en_slots := []; en_worktree := None; en_build := None; en_issues := [];
     en_physicalDevices := []; en_remoteDevices := []; en_lastIos := Some unsigned_build;
     en_lastAndroid := None; en_buildsIos := [unsigned_build]; en_buildsAndroid := [];
     en_logs := None; en_web := None |}.

Definition look_now : Run_ := look_run (Some no_workspaces) full_disk all_on 100.

Lemma attention_notified_once_witness :
  let entry := new_entry look_now unsigned None in
  let '(entry', out') := overseeAttention id look_now unsigned (js "w") None entry silent in
  length (ou_notifications out') = 1%nat ∧ we_attention entry' = [js "run-ios:/w"] ∧
  (∃ new, ou_notifications out' = ou_notifications silent ++ new ∧ (length new ≤ 1)%nat).
Proof.
  pose proof (attention_notified_once id look_now unsigned (js "w") None
    (new_entry look_now unsigned None) silent eq_refl) as H.
  cbv zeta. revert H.
  assert (E : length (ou_notifications (snd (overseeAttention id look_now unsigned (js "w") None
      (new_entry look_now unsigned None) silent))) = 1%nat ∧
    we_attention (fst (overseeAttention id look_now unsigned (js "w") None
      (new_entry look_now unsigned None) silent)) = [js "run-ios:/w"])
    by (split; vm_compute; reflexivity).
  revert E. destruct (overseeAttention _ _ _ _ _ _ _) as [e o]. cbn [fst snd].
  intros [E1 E2] (new & H1 & H2 & _). split; [exact E1|split; [exact E2|]]. by exists new.
Defined.

End Witnesses.
