(* ===== verification/DevicePolicy.v ===== *)
(** * The policy of a hosted device: [packages/agent-driver-agent-device/device-policy.ts]

    What a hosted client may send with each agent-device command: the flags and keys it takes, and
    the check of its positionals. [toLowerCase] is a parameter. *)

From Stdlib Require Import ZArith.
From S2P Require Import Prelude.
From S2P Require Import Bytes.
From S2P Require Import Json.
Open Scope Z_scope.

Inductive RefusalRule :=
| RuleCommand | RuleMethod | RuleRequest | RuleHostPath | RuleDevice | RuleRecording.

Record DeviceRefusal := { df_rule : RefusalRule; df_message : units }.

(** The check of the positionals also reads the parameters, and may throw. *)
Definition PositionalsCheck : Type :=
  list json → list (units * json) → result type_error (option DeviceRefusal).

Record DeviceCommandRule := {
  dc_flags : list (units * units);
  dc_refused : list (units * units);
  dc_keys : list units;
  dc_positionals : option PositionalsCheck;
}.

(** ** Shapes of values *)

Definition appId (value : json) : bool :=
  match value with
  | JString s => forallb (fun u => negb ((u =? 92) || (u =? 58) || (u =? 47) || (u =? 0))) s
  | _ => false
  end.

Definition is_lower_alnum (u : Z) : bool := ((97 <=? u) && (u <=? 122)) || is_digit u.

(** What follows the prefix of a temporary artifact: digits, a hyphen, letters and digits, and
    then the extension. *)
Definition artifact_name (prefix : units) (extension : units → bool) (s : units) : bool :=
  starts_with prefix s &&
  let '(digits, rest) := span is_digit (drop (length prefix) s) in
  negb (bool_decide (digits = [])) &&
  match rest with
  | 45 :: rest =>
      let '(name, rest) := span is_lower_alnum rest in
      negb (bool_decide (name = [])) && extension rest
  | _ => false
  end.

Definition remoteScreenshot (value : json) : bool :=
  match value with
  | JString s => artifact_name (js "/tmp/agent-device-screenshot-")
                   (fun e => bool_decide (e = js ".png")) s
  | _ => false
  end.

Definition remoteRecording (value : json) : bool :=
  match value with
  | JString s =>
      artifact_name (js "/tmp/agent-device-recording-")
        (fun e => match e with
                  | 46 :: e => forallb is_alnum e && (1 <=? length e)%nat && (length e <=? 8)%nat
                  | _ => false
                  end) s
  | _ => false
  end.

Section Policy.
Context `{!NodeText}.
Variable toLowerCase : units → units.

Definition inlineJsonObject (value : json) : bool :=
  match value with
  | JString s =>
      let text := trim s in
      starts_with (js "{") text && ends_with (js "}") text && negb (includes (js "/../") text)
      && is_object (JSON_parse text)
  | _ => false
  end.

(** ** Checks of positionals *)

Definition refuse_if (refused : bool) (rule : RefusalRule) (message : units) :
    result type_error (option DeviceRefusal) :=
  mret (if refused then Some {| df_rule := rule; df_message := message |} else None).

Definition openClose (command : string) : PositionalsCheck := fun positionals _ =>
  refuse_if (negb (forallb appId positionals)) RuleHostPath
    (js command
     ++ js " on a hosted device accepts only installed app names or bundle ids, never paths or URLs.").

Definition screenshot_check : PositionalsCheck := fun positionals _ =>
  refuse_if (negb (forallb remoteScreenshot positionals)) RuleHostPath
    (js "Screenshots use only agent-device remote artifacts.").

Definition is_text (v : option json) (s : units) : bool :=
  match v with Some (JString t) => bool_decide (t = s) | _ => false end.

(** [params.meta.clientArtifactPaths.outPath] is a string that is not blank. *)
Definition has_out_path (params : list (units * json)) : bool :=
  match field_of "meta" params with
  | Some (JObject meta) =>
      match field_of "clientArtifactPaths" meta with
      | Some (JObject paths) =>
          match field_of "outPath" paths with Some (JString s) => nonblank s | _ => false end
      | _ => false
      end
  | _ => false
  end.

Definition record_check : PositionalsCheck := fun positionals params =>
  let action := positionals !! 0%nat in
  let output := positionals !! 1%nat in
  let start := is_text action (js "start") in
  let stop := is_text action (js "stop") in
  if (negb start && negb stop) || (0 <? length (drop 2 positionals))%nat
     || (stop && bool_decide (is_Some output))
  then refuse_if true RuleCommand
         (js "Refused record: this connection allows only record start and record stop.")
  else if match output with Some o => negb (remoteRecording o) | None => false end
  then refuse_if true RuleHostPath
         (js "Refused record start: the hosting Mac writes a recording only in this session's private area and returns it through agent-device's remote download, so a host output path is refused.")
  else refuse_if (start && negb (has_out_path params)) RuleRequest
         (js "Refused record start: it needs the local destination agent-device sends when it runs with --remote-config.").

Definition push_check : PositionalsCheck := fun positionals _ =>
  refuse_if (negb match positionals with
                  | [app; payload] => appId app && inlineJsonObject payload
                  | _ => false
                  end) RuleHostPath
    (js "Refused push: a hosted device takes push <bundle id> <inline JSON object>; a payload file on the hosting Mac is refused.").

Definition perf_check : PositionalsCheck := fun positionals _ =>
  refuse_if (negb match positionals with
                  | [JString a] => bool_decide (a = js "frames")
                  | [JString a; JString b] =>
                      bool_decide (a = js "memory") && bool_decide (b = js "sample")
                  | _ => false
                  end) RuleHostPath
    (js "Refused perf: a hosted device allows only perf frames and perf memory sample; snapshots, profiles and traces write files on the hosting Mac.").

Definition artifacts_check : PositionalsCheck := fun positionals _ =>
  refuse_if (negb (length positionals =? 0)%nat) RuleRequest
    (js "Refused artifacts: a hosted device lists only its own session artifacts.").

Definition MAC_PERMISSIONS : list units :=
  [js "accessibility"; js "screen-recording"; js "input-monitoring"].

(** The setting, its action and the permission target, as agent-device reads them. *)
Fixpoint setting_words (positionals : list json) : result type_error (list units) :=
  match positionals with
  | [] => mret []
  | v :: rest => text ← js_String v; words ← setting_words rest; mret (toLowerCase (trim text) :: words)
  end.

Definition settings_check : PositionalsCheck := fun positionals params =>
  words ← setting_words positionals;
  let setting := words !! 0%nat in
  let target := default (js "undefined") (words !! 2%nat) in
  if bool_decide (setting = Some (js "permission")) && bool_decide (target ∈ MAC_PERMISSIONS)
  then refuse_if true RuleCommand
         (js "Refused settings permission " ++ target
          ++ js ": it is a macOS permission of the hosting Mac.")
  else
    let app := match field_of "input" params with
               | Some (JObject input) => field_of "app" input
               | _ => None
               end in
    refuse_if ((bool_decide (setting = Some (js "clear-app-state"))
                && negb (forallb appId (drop 1 positionals)))
               || match app with Some a => negb (appId a) | None => false end) RuleHostPath
      (js "Settings on a hosted device accept only installed app names or bundle ids, never paths.").

(** ** The commands *)

Definition flags_of (l : list (string * string)) : list (units * units) :=
  map (fun f => (js (fst f), js (snd f))) l.

Definition SNAPSHOT_VIEW : list (string * string) :=
  [("--depth", "snapshotDepth"); ("--scope", "snapshotScope"); ("--raw", "snapshotRaw")].
Definition SETTLE : list (string * string) :=
  [("--settle", "settle"); ("--settle-quiet", "settleQuietMs"); ("--timeout", "timeoutMs")].
Definition PRESS : list (string * string) :=
  [("--count", "count"); ("--interval-ms", "intervalMs"); ("--hold-ms", "holdMs");
   ("--jitter-px", "jitterPx"); ("--double-tap", "doubleTap"); ("--verify", "verify")].
Definition REPAIR_RECORDING : list (string * string) := [("--record", "record")].

Definition command_rule (name : string) (flags refused : list (string * string))
    (keys : list string) (check : option PositionalsCheck) : units * DeviceCommandRule :=
  (js name, {| dc_flags := flags_of flags; dc_refused := flags_of refused; dc_keys := map js keys;
               dc_positionals := check |}).

Definition DEVICE_COMMAND_RULES : list (units * DeviceCommandRule) :=
  [command_rule "open"
     [("--test-ime", "testIme"); ("--no-test-ime", "testIme"); ("--activity", "activity");
      ("--relaunch", "relaunch"); ("--foreground", "foreground"); ("--no-record", "noRecord");
      ("--timeout", "timeoutMs"); ("--wait", "waitMs")]
     [("--force", "force"); ("--surface", "surface"); ("--metro-host", "metroHost");
      ("--metro-port", "metroPort"); ("--bundle-url", "bundleUrl"); ("--launch-url", "launchUrl");
      ("--launch-console", "launchConsole"); ("--launch-args", "launchArgs");
      ("--save-script", "saveScript")] [] (Some (openClose "Open"));
   command_rule "close" []
     [("--force", "force"); ("--save-script", "saveScript"); ("--shutdown", "shutdown")] []
     (Some (openClose "Close"));
   command_rule "snapshot"
     ([("-i", "snapshotInteractiveOnly")] ++ SNAPSHOT_VIEW
      ++ [("--diff", "snapshotDiff"); ("--timeout", "timeoutMs");
          ("--actions", "snapshotCustomActions"); ("--observe-only", "snapshotObserveOnly");
          ("--force-full", "snapshotForceFull")]) REPAIR_RECORDING [] None;
   command_rule "wait" SNAPSHOT_VIEW [] ["durationMs"; "timeoutMs"] None;
   command_rule "find"
     [("--depth", "snapshotDepth"); ("--raw", "snapshotRaw"); ("--first", "findFirst");
      ("--last", "findLast")] REPAIR_RECORDING ["timeoutMs"] None;
   command_rule "get" SNAPSHOT_VIEW REPAIR_RECORDING [] None;
   command_rule "is" SNAPSHOT_VIEW REPAIR_RECORDING [] None;
   command_rule "click" (PRESS ++ SETTLE ++ [("--button", "clickButton")] ++ SNAPSHOT_VIEW) [] []
     None;
   command_rule "fill"
     ([("--delay-ms", "delayMs"); ("--text-stdin", "textStdin"); ("--verify", "verify")] ++ SETTLE
      ++ SNAPSHOT_VIEW) [("--record-as", "recordAs")] [] None;
   command_rule "press" (PRESS ++ SETTLE ++ SNAPSHOT_VIEW) [] [] None;
   command_rule "type" [("--delay-ms", "delayMs")] [] [] None;
   command_rule "focus" [] [] [] None;
   command_rule "scroll"
     ([("--duration-ms", "durationMs"); ("--pixels", "pixels"); ("--until", "until");
       ("--max-passes", "maxPasses")] ++ SETTLE) [] [] None;
   command_rule "screenshot"
     [("--out", "out"); ("--overlay-refs", "overlayRefs"); ("--crop-on", "screenshotCropOn");
      ("--pixel-density", "screenshotPixelDensity"); ("--scale", "screenshotScale");
      ("--no-stabilize", "screenshotNoStabilize");
      ("--normalize-status-bar", "screenshotNormalizeStatusBar")]
     [("--fullscreen", "screenshotFullscreen")] [] (Some screenshot_check);
   command_rule "batch"
     [("--steps", "batchSteps"); ("--on-error", "batchOnError"); ("--max-steps", "batchMaxSteps")]
     [("--steps-file", "stepsFile"); ("--out", "out")] [] None;
   command_rule "devices" [] [] [] None;
   command_rule "diff"
     ([("-i", "snapshotInteractiveOnly")] ++ SNAPSHOT_VIEW
      ++ [("--overlay-refs", "overlayRefs"); ("--threshold", "threshold")])
     [("--out", "out"); ("--baseline", "baseline")] ["kind"] None;
   command_rule "longpress" (SETTLE ++ SNAPSHOT_VIEW) [] ["durationMs"] None;
   command_rule "swipe"
     [("--count", "count"); ("--pause-ms", "pauseMs"); ("--pattern", "pattern")] [] ["from"; "to"]
     None;
   command_rule "back" (SETTLE ++ [("--in-app", "backMode"); ("--system", "backMode")]) [] [] None;
   command_rule "home" [] [] [] None;
   command_rule "orientation" [] [] [] None;
   command_rule "appstate" [] [] [] None;
   command_rule "alert" [] [] ["timeoutMs"] None;
   command_rule "record"
     [("--fps", "fps"); ("--quality", "quality"); ("--hide-touches", "hideTouches");
      ("--scope", "recordingScope"); ("--out", "out")] [] [] (Some record_check);
   command_rule "action-button" [] [] [] None;
   command_rule "app-switcher" [] [] [] None;
   command_rule "apps" [("--all", "appsFilter")] [] [] None;
   command_rule "capabilities" [] [] [] None;
   command_rule "events" [] [] [] None;
   command_rule "fold" [("--keyframes", "keyframes")] [] [] None;
   command_rule "gesture"
     [("--count", "count"); ("--pointer-count", "pointerCount"); ("--hold-ms", "holdMs");
      ("--pause-ms", "pauseMs")] []
     ["kind"; "deviceTarget"; "origin"; "delta"; "durationMs"; "direction"; "distance"; "preset";
      "scale"; "degrees"; "points"; "source"; "destination"; "sourceHoldMs"; "moveMs";
      "destinationHoldMs"] None;
   command_rule "hardware-button" [] [] [] None;
   command_rule "keyboard" [] [] [] None;
   command_rule "react-native" [] [] [] None;
   command_rule "telephony" [] [] [] None;
   command_rule "trigger-app-event" [] [] [] None;
   command_rule "network" [("--include", "networkInclude")] [] [] None;
   command_rule "push" [] [] [] (Some push_check);
   command_rule "perf" []
     [("--kind", "kind"); ("--template", "perfTemplate"); ("--out", "out")] [] (Some perf_check);
   command_rule "artifacts" []
     [("--provider", "provider"); ("--provider-session", "providerSessionId")] []
     (Some artifacts_check);
   command_rule "settings" [("--app", "app")] [] [] (Some settings_check)].

(** [Object.hasOwn(table, name) ? table[name] : undefined]. *)
Fixpoint own {A} (name : units) (table : list (units * A)) : option A :=
  match table with
  | [] => None
  | (k, a) :: table => if decide (k = name) then Some a else own name table
  end.

End Policy.

Definition CLIENT_SIDE : string :=
  "it runs in the agent-device client on your Mac, not on the hosted device.".
Definition STIM_INSTALLS : string :=
  "Stim installs the hosted app; an install reads app files on the hosting Mac.".

Definition REFUSED_DEVICE_COMMANDS : list (units * units) :=
  flags_of
  [("logs", "its log files live on the hosting Mac; read the hosted app logs with stim logs.");
   ("trace", "trace capture writes files on the hosting Mac.");
   ("audio", "it samples the hosting Mac audio, not only the hosted device.");
   ("doctor", "it inspects the hosting Mac tools and projects.");
   ("prepare", "it builds and installs helpers on the hosting Mac; Stim prepares the hosted device.");
   ("boot", "Stim boots the hosted device; boot can start other devices on the hosting Mac.");
   ("shutdown", "Stim shuts the hosted device down; use stim stop.");
   ("install", STIM_INSTALLS); ("reinstall", STIM_INSTALLS);
   ("install-from-source", STIM_INSTALLS);
   ("uninstall", "Stim records the hosted app as installed and serves its logs and agent access from that record, which an uninstall would leave wrong.");
   ("replay", "it reads a script file on the hosting Mac.");
   ("test", "it reads script files on the hosting Mac.");
   ("clipboard", "a simulator can sync its pasteboard with the hosting Mac and an emulator shares the host clipboard by default, so it could read or write the hosting Mac clipboard.");
   ("hover", "it drives web pages only."); ("viewport", "it resizes web pages only.");
   ("tv-remote", "it drives TV devices only."); ("auth", CLIENT_SIDE); ("cdp", CLIENT_SIDE);
   ("connect", CLIENT_SIDE); ("connection", CLIENT_SIDE); ("daemon", CLIENT_SIDE);
   ("debug", CLIENT_SIDE); ("device", CLIENT_SIDE); ("disconnect", CLIENT_SIDE);
   ("mcp", CLIENT_SIDE); ("metro", CLIENT_SIDE); ("plugins", CLIENT_SIDE); ("proxy", CLIENT_SIDE);
   ("react-devtools", CLIENT_SIDE); ("session", CLIENT_SIDE); ("takeover", CLIENT_SIDE);
   ("web", CLIENT_SIDE)].
