(* ===== verification/AgentDevice.v ===== *)
(** * Requests of a hosted agent: [packages/agent-driver-agent-device/driver.ts]

    [pinLease] and what it calls: the inspection of a JSON-RPC body against the policy, and the
    rewriting that leaves it only the session's device, lease and tenant; and the request that
    [relayPinned] then sends, where [relayRecord] puts a recording in a directory of the host's. *)

From Stdlib Require Import ZArith.
From S2P Require Import Prelude.
From S2P Require Import Bytes.
From S2P Require Import Json.
From S2P Require Import DevicePolicy.
Open Scope Z_scope.

Inductive Backend := IosInstance | AndroidInstance.

#[export] Instance Backend_eq_dec : EqDecision Backend.
Proof. solve_decision. Defined.

Definition backend_text (b : Backend) : units :=
  match b with IosInstance => js "ios-instance" | AndroidInstance => js "android-instance" end.

Record HostedAgentLease := {
  hl_tenant : units; hl_runId : units; hl_clientId : units; hl_deviceKey : units;
  hl_backend : option Backend;
}.

Record Lease := { le_id : units; le_scope : HostedAgentLease }.

Record Refusal := {
  rf_id : json;
  rf_rule : RefusalRule;
  rf_message : units;
  rf_command : option units;
  rf_method : option units;
}.

(** The platform, the flag that selects the device, and its id. *)
Record HostDevice := { hd_backend : Backend; hd_id : units }.

Definition hd_platform (d : HostDevice) : units :=
  match hd_backend d with IosInstance => js "ios" | AndroidInstance => js "android" end.
Definition hd_selector (d : HostDevice) : units :=
  match hd_backend d with IosInstance => js "udid" | AndroidInstance => js "serial" end.
Definition is_android (d : HostDevice) : bool := bool_decide (hd_backend d = AndroidInstance).

(** ** Tables *)

Definition POLICY_ALLOW : list units :=
  map js ["open"; "close"; "snapshot"; "wait"; "find"; "get"; "is"; "click"; "fill"; "press"; "type";
          "focus"; "scroll"; "screenshot"; "batch"].
Definition MAX_ECHO : nat := 64.
Definition DEVICE_LEASE_TTL_MS : Z := 3600000.
Definition COMMAND_METHODS : list units := map js ["agent_device.command"; "agent-device.command"].
Definition LEASE_METHODS : list units :=
  map js ["agent_device.lease.heartbeat"; "agent-device.lease.heartbeat";
          "agent_device.lease.release"; "agent-device.lease.release"].
Definition DEVICE_LEASE_METHODS : list units :=
  LEASE_METHODS ++ map js ["agent_device.lease.allocate"; "agent-device.lease.allocate"].
Definition DEVICE_CLIENT_AMBIENT_INPUTS : list units :=
  map js ["cwd"; "stateDir"; "config"; "remoteConfig"; "daemonBaseUrl"; "daemonAuthToken";
          "daemonTransport"; "daemonServerMode"; "tenant"; "tenantId"; "runId"; "clientId";
          "deviceKey"; "leaseBackend"; "sessionIsolation"; "leaseProvider"; "provider"].
Definition HOST_INPUTS : list units :=
  map js ["out"; "saveScript"; "sessionSaveScript"; "baseline"; "launchConsole"; "launchArgs";
          "launchUrl"; "bundleUrl"; "artifactsDir"; "stepsFile"; "searchPath"; "retainPaths";
          "installSource"; "metroProjectRoot"; "metroRuntimeFile"; "iosXctestrunFile";
          "iosXctestDerivedDataPath"; "iosXctestEnvDir"; "developerDir"; "artifact"; "dsym";
          "reportJunit"].
Definition DEVICE_SESSION_INPUTS : list units :=
  map js ["platform"; "verbose"; "session"; "leaseId"; "noRecord"].
Definition DEVICE_SELECTORS : list units :=
  map js ["device"; "udid"; "serial"; "target"; "iosSimulatorDeviceSet"; "androidDeviceAllowlist"].
Definition CLIENT_META : list units :=
  map js ["requestId"; "debug"; "includeCost"; "responseLevel"; "sessionExplicit";
          "clientArtifactPaths"].

Abbreviation object := (list (units * json)).

Definition object_of (v : option json) : object :=
  match v with Some (JObject fields) => fields | _ => [] end.

(** The items before the first that fails a test, and the rest. *)
Fixpoint span_while {A} (f : A → bool) (l : list A) : list A * list A :=
  match l with
  | [] => ([], [])
  | x :: l' => if f x then let '(a, b) := span_while f l' in (x :: a, b) else ([], l)
  end.

(** The last part of a path, whatever slashes end it. *)
Definition last_part (path : units) : units :=
  let ended := snd (span_while (fun c => c =? 47) (reverse path)) in
  reverse (fst (span_while (fun c => negb (c =? 47)) ended)).

Definition withoutDeviceSelectors (fields : option json) : object :=
  obj_without DEVICE_SELECTORS (object_of fields).

Definition pickClientMeta (meta : option json) : object :=
  omap (fun key => v ← lookup_key key (object_of meta); Some (key, v)) CLIENT_META.

Definition isAllowedCommand (command : option json) : bool :=
  match command with Some (JString c) => bool_decide (c ∈ POLICY_ALLOW) | _ => false end.

Definition pinStep (step : json) : json :=
  match step with
  | JObject fields =>
      JObject (obj_merge (obj_without (map js ["runtime"; "flags"; "input"]) fields)
        ([(js "flags", JObject (obj_set (js "platform") (JString (js "macos"))
                                  (withoutDeviceSelectors (field_of "flags" fields))))]
         ++ match field_of "input" fields with
            | Some (JObject _) as input => [(js "input", JObject (withoutDeviceSelectors input))]
            | _ => []
            end))
  | _ => step
  end.

Section Driver.
Context `{!NodeText}.
Variable toLowerCase : units → units.

Abbreviation rules := (DEVICE_COMMAND_RULES toLowerCase).

(** A string as [JSON.stringify] quotes it. *)
Definition quoted (s : units) : units := JSON_stringify (JString (take MAX_ECHO s)).

(** ** Inspection *)

(** [{ ...rule.flags, ...rule.refused }]; the two have no flag in common. *)
Definition refusedKey (command : units) (rule : DeviceCommandRule) (key : units) : units :=
  let flag := fst <$> find (fun f => bool_decide (snd f = key)) (dc_flags rule ++ dc_refused rule) in
  js "Refused " ++ command ++ js " " ++ default (quoted key) flag
  ++ js ": a hosted device does not take it.".

Definition refuse (id : json) (rule : RefusalRule) (message : units) : Refusal :=
  {| rf_id := id; rf_rule := rule; rf_message := message; rf_command := None; rf_method := None |}.

Definition noun (d : HostDevice) : units := if is_android d then js "emulator" else js "simulator".

Definition another_device (d : HostDevice) : units :=
  js "Another " ++ noun d ++ js " is refused; this connection targets one hosted " ++ noun d
  ++ js ".".

(** A [serial] that is there and is not the device's. *)
Definition other_serial (d : HostDevice) (fields : object) : bool :=
  match field_of "serial" fields with
  | Some v => negb (is_text (Some v) (hd_id d))
  | None => false
  end.

Definition other_device (d : HostDevice) (fields : object) : bool :=
  if is_android d then other_serial d fields
  else match field_of "udid" fields with
       | Some (JString s) => negb (bool_decide (trim s = hd_id d))
       | _ => false
       end.

Definition allowed_keys (rule : DeviceCommandRule) : list units :=
  DEVICE_CLIENT_AMBIENT_INPUTS ++ DEVICE_SELECTORS ++ DEVICE_SESSION_INPUTS
  ++ map snd (dc_flags rule) ++ dc_keys rule.

(** A host input that the command does not excuse. *)
Definition host_input (screenshot recordStart : bool) (fields : object) (key : units) : bool :=
  match lookup_key key fields with
  | None | Some (JBool false) => false
  | Some v =>
      negb (screenshot && bool_decide (key = js "out") && remoteScreenshot v) &&
      negb (recordStart && bool_decide (key = js "out"))
  end.

Definition positionals_of (params : object) : list json :=
  match field_of "positionals" params with Some (JArray l) => l | _ => [] end.

Definition record_start (command : units) (params : object) : bool :=
  bool_decide (command = js "record") && is_text (head (positionals_of params)) (js "start").

Definition inspect_fields (id : json) (d : HostDevice) (command : units) (rule : DeviceCommandRule)
    (recordStart : bool) (fields : option json) : option Refusal :=
  match fields with
  | Some (JObject fields) =>
      if other_device d fields then Some (refuse id RuleDevice (another_device d))
      else if match field_of "shutdown" fields with Some (JBool true) => true | _ => false end
      then Some (refuse id RuleCommand (js "Simulator shutdown is refused; use stim stop."))
      else
        match find (fun key => negb (bool_decide (key ∈ allowed_keys rule))) (map fst fields) with
        | Some unknown => Some (refuse id RuleRequest (refusedKey command rule unknown))
        | None =>
            if existsb (host_input (bool_decide (command = js "screenshot")) recordStart fields)
                 HOST_INPUTS
            then Some (refuse id RuleHostPath (js "Host paths and launch inputs are refused."))
            else None
        end
  | _ => None
  end.

Definition command_of (params : object) : units :=
  match field_of "command" params with Some (JString c) => c | _ => [] end.

Definition RUNTIME_MESSAGE : units :=
  js " with --metro-host, --metro-port, --bundle-url or --launch-url: Stim's Metro bridge already points the hosted app at your Metro, and a client-chosen address could reach any service the hosting Mac can.".

(** The first of two refusals. *)
Definition or_else (a b : option Refusal) : option Refusal :=
  match a with Some _ => a | None => b end.

(** [inspectDeviceCommand] up to its batch steps. *)
Definition inspect_own (id : json) (d : HostDevice) (params : object) :
    result type_error (option Refusal) :=
  let command := command_of params in
  match own command rules with
  | None =>
      let name := quoted command in
      Ok (Some (refuse id RuleCommand
        match own command REFUSED_DEVICE_COMMANDS with
        | Some why => js "Refused command " ++ name ++ js ": " ++ why
        | None => js "Refused command " ++ name ++ js ": it is not a hosted device command."
        end))
  | Some rule =>
      if is_android d && other_serial d params
      then Ok (Some (refuse id RuleDevice (another_device d)))
      else if (0 <? length (object_of (field_of "runtime" params)))%nat
      then Ok (Some (refuse id RuleHostPath (js "Refused " ++ command ++ RUNTIME_MESSAGE)))
      else
        let start := record_start command params in
        match or_else (inspect_fields id d command rule start (field_of "flags" params))
                (inspect_fields id d command rule start (field_of "input" params)) with
        | Some refusal => Ok (Some refusal)
        | None =>
            match dc_positionals rule with
            | None => Ok None
            | Some check =>
                refusal ← check (positionals_of params) params;
                Ok (option_map (fun r => refuse id (df_rule r) (df_message r)) refusal)
            end
        end
  end.

Fixpoint inspectDeviceCommand (id : json) (d : HostDevice) (params : json) :
    result type_error (option Refusal) :=
  match params with
  | JObject fields =>
      let steps := fix steps (l : list json) : result type_error (option Refusal) :=
        match l with
        | [] => Ok None
        | step :: l =>
            match step with
            | JObject own =>
                if is_text (field_of "command" own) (js "record")
                then Ok (Some (refuse id RuleCommand
                  (js "Refused record inside batch: run record start and record stop as their own commands.")))
                else
                  failure ← inspectDeviceCommand id d step;
                  match failure with Some _ => Ok failure | None => steps l end
            | _ => Ok (Some (refuse id RuleRequest (js "Invalid batch step.")))
            end
        end in
      let batch (v : json) :=
        match v with
        | JObject own =>
            at_key (js "batchSteps") (fun s =>
              match s with
              | JArray l => steps l
              | _ => Ok (Some (refuse id RuleRequest (js "Invalid batch steps.")))
              end) (Ok None) own
        | _ => Ok None
        end in
      failure ← inspect_own id d fields;
      match failure with
      | Some _ => Ok failure
      | None =>
          failure ← at_key (js "flags") batch (Ok None) fields;
          match failure with
          | Some _ => Ok failure
          | None => at_key (js "input") batch (Ok None) fields
          end
      end
  | _ => Ok None
  end.

(** ** Rewriting *)

(** The fields of [flags] or [input] without what picks a device or comes from the client. *)
Definition pinned_source (fields : object) : object :=
  obj_without DEVICE_CLIENT_AMBIENT_INPUTS (obj_without DEVICE_SELECTORS fields).

Definition with_device (d : HostDevice) (source : object) (steps : option (list json)) : json :=
  JObject (obj_merge source
    ([(js "platform", JString (hd_platform d)); (hd_selector d, JString (hd_id d))]
     ++ match steps with Some l => [(js "batchSteps", JArray l)] | None => [] end)).

Definition pinned_command (fields : object) (flags : json) (input : option json) : json :=
  let present key := match field_of key fields with Some v => [(js key, v)] | None => [] end in
  JObject (present "command" ++ present "session" ++ present "positionals" ++ [(js "flags", flags)]
           ++ match input with Some v => [(js "input", v)] | None => [] end).

(** A step that is not an object has no fields to read, and reading [null] throws. A key whose
    value would be [undefined] is left out. *)
Fixpoint pinDeviceCommand (d : HostDevice) (params : json) : result type_error json :=
  match params with
  | JObject fields =>
      let steps := fix steps (l : list json) : result type_error (list json) :=
        match l with
        | [] => Ok []
        | step :: l => pinned ← pinDeviceCommand d step; rest ← steps l; Ok (pinned :: rest)
        end in
      let pin (v : json) : result type_error json :=
        match v with
        | JObject own =>
            pinned ← at_key (js "batchSteps") (fun s =>
                match s with JArray l => l' ← steps l; Ok (Some l') | _ => Ok None end)
              (Ok None) own;
            Ok (with_device d (pinned_source own) pinned)
        | _ => Ok (with_device d [] None)
        end in
      flags ← at_key (js "flags") pin (Ok (with_device d [] None)) fields;
      input ← at_key (js "input") (fun v =>
          match v with JObject _ => v' ← pin v; Ok (Some v') | _ => Ok None end)
        (Ok None) fields;
      Ok (pinned_command fields flags input)
  | JNull => Throw TypeError
  | _ => Ok (pinned_command [] (with_device d [] None) None)
  end.

(** ** The request *)

Inductive Pinned :=
| PinRpc (rpc : object)
| PinRefused (refusal : Refusal).

Definition rpc_method (rpc : object) : units :=
  match field_of "method" rpc with Some (JString m) => m | _ => [] end.

Definition text_entry (key : string) (v : units) : units * json := (js key, JString v).

(** A string of the client's that the host passes on. *)
Definition client_text (key : string) (fields : object) : object :=
  match field_of key fields with Some (JString s) => [(js key, JString s)] | _ => [] end.

Definition device_owner (scope : HostedAgentLease) : object :=
  [text_entry "tenantId" (hl_tenant scope); text_entry "runId" (hl_runId scope);
   text_entry "clientId" (hl_clientId scope); text_entry "deviceKey" (hl_deviceKey scope);
   text_entry "leaseProvider" (js "proxy")].

Definition lease_device (backend : Backend) (scope : HostedAgentLease) : HostDevice :=
  let platform := match backend with IosInstance => js "ios" | AndroidInstance => js "android" end in
  {| hd_backend := backend;
     hd_id := drop (length (platform ++ js ":mobile:")) (hl_deviceKey scope) |}.

(** The metadata of a device command. *)
Definition device_meta (backend : Backend) (scope : HostedAgentLease) (meta : option json) : json :=
  JObject (obj_merge (pickClientMeta meta)
    (device_owner scope ++ client_text "leaseId" (object_of meta)
     ++ [text_entry "leaseBackend" (backend_text backend); text_entry "sessionIsolation" (js "tenant")])).

Definition pinDeviceRequest (backend : Backend) (rpc params : object) (id : json) (lease : Lease) :
    result type_error Pinned :=
  let scope := le_scope lease in
  let d := lease_device backend scope in
  let method := rpc_method rpc in
  let forward params := Ok (PinRpc (obj_set (js "params") (JObject params) rpc)) in
  if is_android d &&
     existsb (other_serial d)
       [params; object_of (field_of "flags" params); object_of (field_of "input" params)]
  then Ok (PinRefused (refuse id RuleDevice
    (js "Another emulator is refused; this connection targets one hosted emulator.")))
  else if bool_decide (method ∈ COMMAND_METHODS) then
    refusal ← inspectDeviceCommand id d (JObject params);
    match refusal with
    | Some refusal => Ok (PinRefused refusal)
    | None =>
        pinned ← pinDeviceCommand d (JObject params);
        forward (obj_set (js "meta") (device_meta backend scope (field_of "meta" params))
                   (object_of (Some pinned)))
    end
  else if bool_decide (method ∈ DEVICE_LEASE_METHODS) then
    let other_lease :=
      match field_of "deviceKey" params with
      | Some (JString key) =>
          starts_with (js "android:mobile:") key && negb (bool_decide (key = hl_deviceKey scope))
      | _ => false
      end in
    if is_android d && other_lease
    then Ok (PinRefused (refuse id RuleDevice (js "Another emulator lease is refused.")))
    else forward (device_owner scope ++ [text_entry "backend" (backend_text backend)]
                  ++ client_text "leaseId" params ++ client_text "session" params
                  ++ (if ends_with (js ".release") method then []
                      else [(js "ttlMs", JNumber DEVICE_LEASE_TTL_MS)]))
  else Ok (PinRefused (refuse id RuleMethod (js "Refused method."))).

(** [refuseCommand] of [pinLease]. *)
Definition refuse_command (id : json) (value : option json) : Refusal :=
  let command := match value with Some (JString c) => Some (take MAX_ECHO c) | _ => None end in
  let named c := js " " ++ [34] ++ c ++ [34] in
  {| rf_id := id; rf_rule := RuleCommand;
     rf_message :=
       if bool_decide (command = Some (js "record"))
       then js "Refused command" ++ named (js "record")
            ++ js ": agent-device's macos-app lease does not allow screen recording, so a hosted macOS app cannot be recorded."
       else js "Refused command" ++ match command with None => [] | Some c => named c end
            ++ js ". Allowed commands: " ++ join_with (js ", ") POLICY_ALLOW ++ js ".";
     rf_command := command; rf_method := None |}.

Definition lease_owner (lease : Lease) : object :=
  let scope := le_scope lease in
  [text_entry "runId" (hl_runId scope); text_entry "leaseId" (le_id lease);
   text_entry "clientId" (hl_clientId scope); text_entry "deviceKey" (hl_deviceKey scope);
   text_entry "leaseProvider" (js "proxy")].

Definition batch_steps (flags : option json) : list json :=
  match field_of "batchSteps" (object_of flags) with Some (JArray l) => l | _ => [] end.

(** The steps' commands, of which [undefined] stands for those of a step that is not an object. *)
Definition step_command (step : json) : option json := field "command" step.

(** The parameters of a macOS command once they are pinned. *)
Definition macos_params (lease : Lease) (params : object) : object :=
  let flags := field_of "flags" params in
  let steps := batch_steps flags in
  obj_merge (obj_without (map js ["runtime"; "meta"; "flags"; "input"]) params)
    ([(js "flags", JObject (obj_merge (withoutDeviceSelectors flags)
         ([text_entry "platform" (js "macos")]
          ++ match steps with [] => [] | _ => [(js "batchSteps", JArray (map pinStep steps))] end)))]
     ++ match field_of "input" params with
        | Some (JObject _) as input => [(js "input", JObject (withoutDeviceSelectors input))]
        | _ => []
        end
     ++ [(js "meta", JObject (obj_merge (pickClientMeta (field_of "meta" params))
          (lease_owner lease
           ++ [text_entry "tenantId" (hl_tenant (le_scope lease));
               text_entry "leaseBackend" (js "macos-app");
               text_entry "sessionIsolation" (js "tenant")])))]).

Definition pin_macos (rpc params : object) (id : json) (lease : Lease) : Pinned :=
  let method := rpc_method rpc in
  let forward params := PinRpc (obj_set (js "params") (JObject params) rpc) in
  if bool_decide (method ∈ COMMAND_METHODS) then
    let command := field_of "command" params in
    if negb (isAllowedCommand command) then PinRefused (refuse_command id command)
    else
      match find (fun step => negb (isAllowedCommand (step_command step)))
              (batch_steps (field_of "flags" params)) with
      | Some step => PinRefused (refuse_command id (step_command step))
      | None => forward (macos_params lease params)
      end
  else if bool_decide (method ∈ LEASE_METHODS) then
    forward (obj_merge (obj_without (map js ["tenant"; "provider"]) params)
      (lease_owner lease
       ++ [text_entry "tenantId" (hl_tenant (le_scope lease)); text_entry "backend" (js "macos-app")]))
  else
    let method := take MAX_ECHO method in
    PinRefused {| rf_id := id; rf_rule := RuleMethod;
                  rf_message := js "Refused method " ++ [34] ++ method ++ [34] ++ js ".";
                  rf_command := None; rf_method := Some method |}.

Definition request_id (rpc : option json) : json :=
  match field_of "id" (object_of rpc) with
  | Some ((JString _ | JNumber _ | JDouble _) as id) => id
  | _ => JNull
  end.

Definition pinLease (body : option bytes) (lease : Lease) : result type_error Pinned :=
  let rpc := body ≫= fun b => JSON_parse (buffer_toString b) in
  let id := request_id rpc in
  let bad := PinRefused (refuse id RuleRequest
    (js "Refused request: expected a JSON object with a string method and object params within the body size limit.")) in
  match rpc with
  | Some (JObject fields) =>
      match field_of "method" fields, field_of "params" fields with
      | Some (JString _), Some (JObject params) =>
          match hl_backend (le_scope lease) with
          | Some backend => pinDeviceRequest backend fields params id lease
          | None => Ok (pin_macos fields params id lease)
          end
      | _, _ => Ok bad
      end
  | _ => Ok bad
  end.

(** ** What is sent

    The hosting Mac writes a recording in a directory of its own: [relayRecord] replaces the path that the client chose. *)

(** [path.extname]: from the last dot of the last part of a path, unless the part starts there or is [..]. *)
Definition extname (path : units) : units :=
  let part := last_part path in
  let '(after, before) := span_while (fun c => negb (c =? 46)) (reverse part) in
  match before with
  | [] | [_] => []
  | _ :: name => if bool_decide (after = []) && bool_decide (name = js ".") then [] else 46 :: reverse after
  end.

Definition RECORD_STOP_KEYS : list units := map js ["platform"; "udid"; "serial"].
Definition recordStop (params : object) : object :=
  let present key := match field_of key params with Some v => [(js key, v)] | None => [] end in
  [text_entry "command" (js "record"); (js "positionals", JArray [JString (js "stop")])] ++ present "session"
  ++ [(js "flags", JObject (base.filter (fun entry => fst entry ∈ RECORD_STOP_KEYS) (object_of (field_of "flags" params))))]
  ++ present "meta".

(** What [relayRecord] makes of the parameters of [record start]; [dir] is the new directory of the recording, and joins a
    name that has no slash. *)
Definition record_started (dir : units) (params : object) : object :=
  let extension := match positionals_of params !! 1%nat with Some (JString p) => extname p | _ => js ".mp4" end in
  let meta := object_of (field_of "meta" params) in
  let outPath := match field_of "outPath" (object_of (field_of "clientArtifactPaths" meta)) with Some (JString s) => s | _ => [] end in
  let no_out (fields : object) := JObject (obj_without [js "out"] fields) in
  let params := obj_set (js "flags") (no_out (object_of (field_of "flags" params))) params in
  let params := match field_of "input" params with
                | Some (JObject input) => obj_set (js "input") (no_out input) params
                | _ => params
                end in
  let params := obj_set (js "positionals")
    (JArray [JString (js "start"); JString (dir ++ js "/recording" ++ extension)]) params in
  obj_set (js "meta") (JObject (obj_set (js "clientArtifactPaths")
    (JObject [text_entry "outPath" (if bool_decide (extname outPath = []) then outPath ++ extension else outPath)]) meta)) params.

(** The request that [relayPinned] sends for one that was pinned, where it sends one: [relayRecord] refuses a recording
    while another runs, and answers for one that the host has stopped. *)
Definition relayed (dir : units) (rpc : object) : object :=
  let params := object_of (field_of "params" rpc) in
  if is_text (field_of "command" params) (js "record")
  then obj_set (js "params") (JObject (if is_text (head (positionals_of params)) (js "stop")
                                       then recordStop params else record_started dir params)) rpc
  else rpc.

End Driver.
