(* ===== verification/AgentDeviceFacts.v ===== *)
(** * A hosted agent acts only on its own device

    Whatever a client sends, a request that goes on to the agent-device daemon names the session's
    device, lease and tenant, runs only commands of the policy and carries no host input, at every
    depth of a batch; a recording goes to the host's own directory. *)

From Stdlib Require Import ZArith Lia.
From S2P Require Import Prelude.
From S2P Require Import Bytes.
From S2P Require Import Json.
From S2P Require Import DevicePolicy.
From S2P Require Import AgentDevice.
Open Scope Z_scope.

Section Facts.
Context `{!NodeText}.
Variable toLowerCase : units → units.

Abbreviation rules := (DEVICE_COMMAND_RULES toLowerCase).

(** ** The two recursions, one level at a time *)

Definition inspect_steps (id : json) (d : HostDevice) :=
  fix steps (l : list json) : result type_error (option Refusal) :=
    match l with
    | [] => Ok None
    | step :: l =>
        match step with
        | JObject own =>
            if is_text (field_of "command" own) (js "record")
            then Ok (Some (refuse id RuleCommand
              (js "Refused record inside batch: run record start and record stop as their own commands.")))
            else
              failure ← inspectDeviceCommand toLowerCase id d step;
              match failure with Some _ => Ok failure | None => steps l end
        | _ => Ok (Some (refuse id RuleRequest (js "Invalid batch step.")))
        end
    end.

Definition inspect_batch (id : json) (d : HostDevice) (v : option json) :
    result type_error (option Refusal) :=
  match v with
  | Some (JObject own) =>
      match field_of "batchSteps" own with
      | Some (JArray l) => inspect_steps id d l
      | Some _ => Ok (Some (refuse id RuleRequest (js "Invalid batch steps.")))
      | None => Ok None
      end
  | _ => Ok None
  end.

Lemma inspect_unfold id d fields :
  inspectDeviceCommand toLowerCase id d (JObject fields) =
    failure ← inspect_own toLowerCase id d fields;
    match failure with
    | Some _ => Ok failure
    | None =>
        failure ← inspect_batch id d (field_of "flags" fields);
        match failure with
        | Some _ => Ok failure
        | None => inspect_batch id d (field_of "input" fields)
        end
    end.
Proof.
  cbn -[inspect_own js]. rewrite !at_key_lookup.
  unfold inspect_batch, field_of. destruct (inspect_own _ _ _ _) as [[r|]|e]; [done| |done].
  cbn -[js]. destruct (lookup_key (js "flags") fields) as [[]|];
    destruct (lookup_key (js "input") fields) as [[]|]; rewrite ?at_key_lookup;
    repeat destruct (lookup_key (js "batchSteps") _) as [[]|]; reflexivity.
Qed.

Definition pin_steps (d : HostDevice) :=
  fix steps (l : list json) : result type_error (list json) :=
    match l with
    | [] => Ok []
    | step :: l => pinned ← pinDeviceCommand d step; rest ← steps l; Ok (pinned :: rest)
    end.

Definition pin_fields (d : HostDevice) (v : option json) : result type_error json :=
  match v with
  | Some (JObject own) =>
      pinned ← match field_of "batchSteps" own with
               | Some (JArray l) => l' ← pin_steps d l; Ok (Some l')
               | _ => Ok None
               end;
      Ok (with_device d (pinned_source own) pinned)
  | _ => Ok (with_device d [] None)
  end.

Lemma pin_unfold d fields :
  pinDeviceCommand d (JObject fields) =
    flags ← pin_fields d (field_of "flags" fields);
    input ← match field_of "input" fields with
            | Some (JObject own) => v ← pin_fields d (Some (JObject own)); Ok (Some v)
            | _ => Ok None
            end;
    Ok (pinned_command fields flags input).
Proof.
  cbn -[js with_device pinned_command]. rewrite !at_key_lookup. unfold pin_fields, field_of.
  destruct (lookup_key (js "flags") fields) as [[]|];
    destruct (lookup_key (js "input") fields) as [[]|]; rewrite ?at_key_lookup;
    repeat destruct (lookup_key (js "batchSteps") _) as [[]|]; reflexivity.
Qed.

(** ** What a request that goes on is *)

(** A request is looked at once it is pinned, and as it is sent: then [Some dir] is the directory
    that the host made for the recording. *)

(** The output of a recording: the client's own, or a file of the host's directory. *)
Definition recorded (sent : option units) (positionals : list json) : bool :=
  match sent with
  | None => match positionals !! 1%nat with Some output => remoteRecording output | None => true end
  | Some dir =>
      match positionals with
      | [JString action] => bool_decide (action = js "stop")
      | [JString action; JString output] =>
          let start := dir ++ js "/recording" in
          bool_decide (action = js "start") && starts_with start output
          && bool_decide (47 ∉ drop (length start) output)
      | _ => false
      end
  end.

(** Positionals that name no file of the host. *)
Definition path_free (sent : option units) (command : units) (positionals : list json) : bool :=
  if bool_decide (command ∈ [js "open"; js "close"]) then forallb appId positionals
  else if bool_decide (command = js "screenshot") then forallb remoteScreenshot positionals
  else if bool_decide (command = js "record") then recorded sent positionals
  else if bool_decide (command = js "push")
  then match positionals with
       | [app; payload] => appId app && inlineJsonObject payload
       | _ => false
       end
  else true.

(** A key of [flags] or [input]: the device's selector, or one the command takes that neither
    picks a device nor comes from the client's own state. *)
Definition key_ok (d : HostDevice) (rule : DeviceCommandRule) (key : units) : bool :=
  bool_decide (key = hd_selector d) ||
  (bool_decide (key ∈ allowed_keys rule) && bool_decide (key ∉ DEVICE_SELECTORS)
   && bool_decide (key ∉ DEVICE_CLIENT_AMBIENT_INPUTS)).

Definition fields_ok (d : HostDevice) (command : units) (rule : DeviceCommandRule) (start : bool)
    (own : object) : bool :=
  is_text (field_of "platform" own) (hd_platform d) && is_text (lookup_key (hd_selector d) own) (hd_id d)
  && forallb (key_ok d rule) (map fst own)
  && negb (existsb (host_input (bool_decide (command = js "screenshot")) start own) HOST_INPUTS).

Definition is_record (v : json) : bool :=
  match v with JObject fields => is_text (field_of "command" fields) (js "record") | _ => false end.

(** The [out] of [record start] is excused until it is sent. *)
Definition excused (sent : option units) (command : units) (fields : object) : bool :=
  bool_decide (sent = None) && record_start command fields.

(** A command confined to the device, with all its batch steps, none of which records. *)
Fixpoint confined (sent : option units) (d : HostDevice) (v : json) : bool :=
  match v with
  | JObject fields =>
      let command := command_of fields in
      let start := excused sent command fields in
      match own command rules with
      | None => false
      | Some rule =>
          let part (f : json) :=
            match f with
            | JObject own =>
                fields_ok d command rule start own &&
                at_key (js "batchSteps") (fun s =>
                  match s with
                  | JArray l => forallb (fun step => negb (is_record step) && confined sent d step) l
                  | _ => false
                  end) true own
            | _ => false
            end in
          path_free sent command (positionals_of fields) &&
          at_key (js "flags") part false fields && at_key (js "input") part true fields
      end
  | _ => false
  end.

Definition step_ok (sent : option units) (d : HostDevice) (step : json) : bool :=
  negb (is_record step) && confined sent d step.

Definition part_ok (sent : option units) (d : HostDevice) (command : units) (rule : DeviceCommandRule)
    (start : bool) (f : json) : bool :=
  match f with
  | JObject own =>
      fields_ok d command rule start own &&
      match field_of "batchSteps" own with
      | Some (JArray l) => forallb (step_ok sent d) l
      | Some _ => false
      | None => true
      end
  | _ => false
  end.

Lemma confined_unfold sent d fields :
  confined sent d (JObject fields) =
    match own (command_of fields) rules with
    | None => false
    | Some rule =>
        let ok := part_ok sent d (command_of fields) rule (excused sent (command_of fields) fields) in
        path_free sent (command_of fields) (positionals_of fields)
        && match field_of "flags" fields with Some v => ok v | None => false end
        && match field_of "input" fields with Some v => ok v | None => true end
    end.
Proof.
  cbn -[js own command_of excused path_free positionals_of fields_ok DEVICE_COMMAND_RULES is_record].
  destruct (own _ _) as [rule|]; [|done]. rewrite !at_key_lookup. unfold part_ok, field_of.
  destruct (lookup_key (js "flags") fields) as [[]|];
    destruct (lookup_key (js "input") fields) as [[]|]; rewrite ?at_key_lookup; reflexivity.
Qed.

(** ** Inspection *)

Lemma inspect_fields_none id d command rule start own :
  inspect_fields id d command rule start (Some (JObject own)) = None →
  (∀ key, key ∈ map fst own → key ∈ allowed_keys rule) ∧
  existsb (host_input (bool_decide (command = js "screenshot")) start own) HOST_INPUTS = false.
Proof.
  unfold inspect_fields. destruct (other_device d own); [done|].
  destruct (match field_of "shutdown" own with Some (JBool true) => true | _ => false end); [done|].
  destruct (find _ _) eqn:Hf; [done|]. destruct (existsb _ _); [done|]. intros _.
  split; [|done]. intros key Hk%list_elem_of_In. apply (find_none _ _ Hf) in Hk.
  by apply negb_false_iff, bool_decide_eq_true in Hk.
Qed.

Lemma inspect_own_none id d params :
  inspect_own toLowerCase id d params = Ok None →
  ∃ rule, own (command_of params) rules = Some rule ∧
    inspect_fields id d (command_of params) rule (record_start (command_of params) params)
      (field_of "flags" params) = None ∧
    inspect_fields id d (command_of params) rule (record_start (command_of params) params)
      (field_of "input" params) = None ∧
    ∀ check, dc_positionals rule = Some check → check (positionals_of params) params = Ok None.
Proof.
  unfold inspect_own. destruct (own _ rules) as [rule|]; [|done].
  destruct (is_android d && other_serial d params); [done|]. destruct (_ <? _)%nat; [done|].
  destruct (inspect_fields _ _ _ _ _ (field_of "flags" params)) eqn:Hf; [done|].
  destruct (inspect_fields _ _ _ _ _ (field_of "input" params)) eqn:Hi; [done|]. cbn [or_else].
  intros Hc. exists rule. split_and!; [done..|]. intros check E. rewrite E in Hc.
  destruct (check _ _) as [[r|]|e]; done.
Qed.

Lemma refuse_if_none b rule message : refuse_if b rule message = Ok None → b = false.
Proof. by destruct b. Qed.

Lemma path_free_checked params rule :
  own (command_of params) rules = Some rule →
  (∀ check, dc_positionals rule = Some check → check (positionals_of params) params = Ok None) →
  path_free None (command_of params) (positionals_of params) = true.
Proof.
  intros Hr Hcheck. set (l := positionals_of params) in *. set (c := command_of params) in *.
  assert (Hpos : ∀ check, dc_positionals <$> own c rules = Some (Some check) → check l params = Ok None).
  { intros check. rewrite Hr. intros [= E]. by apply Hcheck. }
  unfold path_free. clearbody c. clear Hr Hcheck rule.
  destruct (decide (c = js "open")) as [->|Ho].
  { specialize (Hpos _ eq_refl). by apply refuse_if_none, negb_false_iff in Hpos. }
  destruct (decide (c = js "close")) as [->|Hc].
  { specialize (Hpos _ eq_refl). by apply refuse_if_none, negb_false_iff in Hpos. }
  rewrite bool_decide_eq_false_2 by (rewrite !elem_of_cons, elem_of_nil; tauto).
  case_bool_decide as Hs.
  { subst c. specialize (Hpos _ eq_refl). by apply refuse_if_none, negb_false_iff in Hpos. }
  case_bool_decide as Hre.
  { subst c. specialize (Hpos _ eq_refl). unfold record_check in Hpos.
    destruct (_ || _); [done|]. cbn [recorded]. destruct (l !! 1%nat) as [o|]; [|done].
    by destruct (remoteRecording o). }
  case_bool_decide; [|done]. subst c. specialize (Hpos _ eq_refl).
  by apply refuse_if_none, negb_false_iff in Hpos.
Qed.

(** ** Rewriting *)

Lemma pinned_source_lookup key own :
  lookup_key key (pinned_source own)
  = if decide (key ∈ DEVICE_SELECTORS ++ DEVICE_CLIENT_AMBIENT_INPUTS) then None
    else lookup_key key own.
Proof.
  unfold pinned_source. rewrite !lookup_obj_without.
  repeat case_decide; rewrite ?elem_of_app in *; tauto.
Qed.

Lemma pinned_source_keys own key :
  key ∈ map fst (pinned_source own) →
  key ∈ map fst own ∧ key ∉ DEVICE_SELECTORS ∧ key ∉ DEVICE_CLIENT_AMBIENT_INPUTS.
Proof.
  unfold pinned_source, obj_without. intros (e & -> & He)%list_elem_of_fmap.
  apply list_elem_of_filter in He as [Ha He]. apply list_elem_of_filter in He as [Hs He].
  split_and!; [by apply list_elem_of_fmap_2|done|done].
Qed.

(** The fields that [with_device] sets. *)
Definition device_entries (d : HostDevice) (steps : option (list json)) : object :=
  [(js "platform", JString (hd_platform d)); (hd_selector d, JString (hd_id d))]
  ++ match steps with Some l => [(js "batchSteps", JArray l)] | None => [] end.

Lemma selector_elem d : hd_selector d ∈ DEVICE_SELECTORS.
Proof. unfold hd_selector. apply list_elem_of_In. destruct (hd_backend d); cbn; tauto. Qed.

Lemma with_device_lookup d own steps key :
  key ∉ js "platform" :: js "batchSteps" :: DEVICE_SELECTORS ++ DEVICE_CLIENT_AMBIENT_INPUTS →
  lookup_key key (obj_merge (pinned_source own) (device_entries d steps)) = lookup_key key own.
Proof.
  intros Hk. rewrite !not_elem_of_cons in Hk. destruct Hk as (Hp & Hb & Hk).
  rewrite lookup_obj_merge, pinned_source_lookup, (decide_False (P := key ∈ _ ++ _)) by done.
  assert (Hsel : key ≠ hd_selector d).
  { intros ->. apply Hk, elem_of_app. left. by apply selector_elem. }
  assert (E : lookup_key key (reverse (device_entries d steps)) = None); [|by rewrite E].
  unfold device_entries. rewrite reverse_app. destruct steps; cbn -[js]; by rewrite !decide_False by done.
Qed.

Lemma with_device_platform d own steps :
  let l := obj_merge (pinned_source own) (device_entries d steps) in
  is_text (field_of "platform" l) (hd_platform d) && is_text (lookup_key (hd_selector d) l) (hd_id d)
  = true.
Proof.
  cbv zeta. unfold field_of. rewrite !lookup_obj_merge.
  assert (E : ∀ s, is_text (Some (JString s)) s = true) by (intros s; by apply bool_decide_eq_true_2).
  unfold device_entries, hd_selector.
  destruct (hd_backend d), steps; cbn -[is_text hd_platform];
    repeat case_decide; try done; by rewrite !E.
Qed.

Lemma with_device_keys d own steps key rule :
  (∀ key, key ∈ map fst own → key ∈ allowed_keys rule) →
  (is_Some steps → js "batchSteps" ∈ map fst own) →
  key ∈ map fst (obj_merge (pinned_source own) (device_entries d steps)) → key_ok d rule key = true.
Proof.
  intros Hown Hsteps [Hs|He]%obj_merge_keys; unfold key_ok.
  - apply pinned_source_keys in Hs as (Hk & H1 & H2). apply orb_true_iff. right.
    rewrite !bool_decide_eq_true_2; auto.
  - assert (Hin : key = js "platform" ∨ key = hd_selector d ∨ (is_Some steps ∧ key = js "batchSteps")).
    { unfold device_entries in He. destruct steps; cbn -[js] in He;
        rewrite !elem_of_cons, elem_of_nil in He; naive_solver. }
    destruct Hin as [->|[->|[Hst ->]]]; [| by rewrite bool_decide_eq_true_2 |];
      apply orb_true_iff; right; rewrite !andb_true_iff, !bool_decide_eq_true.
    + split_and!; [|by apply (bool_decide_unpack _); vm_compute..].
      unfold allowed_keys. rewrite !elem_of_app. right; right; left. left.
    + split_and!; [by auto|by apply (bool_decide_unpack _); vm_compute..].
Qed.

Lemma host_inputs_apart key :
  key ∈ HOST_INPUTS →
  key ∉ js "platform" :: js "batchSteps" :: DEVICE_SELECTORS ++ DEVICE_CLIENT_AMBIENT_INPUTS.
Proof.
  revert key. apply Forall_forall. apply (bool_decide_unpack _). vm_compute. done.
Qed.

Lemma existsb_same {A} (f g : A → bool) l :
  (∀ x, x ∈ l → f x = g x) → existsb f l = existsb g l.
Proof.
  induction l as [|x l IH]; intros H'; cbn; [done|].
  rewrite H' by left. rewrite IH; [done|]. intros y Hy. apply H'. by right.
Qed.

Lemma existsb_false_in {A} (f : A → bool) l : (∀ x, x ∈ l → f x = false) → existsb f l = false.
Proof. intros Hf. rewrite (existsb_same _ (fun _ => false)) by done. clear Hf. by induction l. Qed.
Lemma existsb_false_out {A} (f : A → bool) l : existsb f l = false → ∀ x, x ∈ l → f x = false.
Proof. intros Hf x Hx. destruct (f x) eqn:E; [|done]. assert (existsb f l = true); [apply existsb_exists; exists x; by rewrite <- list_elem_of_In|congruence]. Qed.

Lemma with_device_fields_ok d command rule start own steps :
  (∀ key, key ∈ map fst own → key ∈ allowed_keys rule) →
  (is_Some steps → js "batchSteps" ∈ map fst own) →
  existsb (host_input (bool_decide (command = js "screenshot")) start own) HOST_INPUTS = false →
  fields_ok d command rule start (obj_merge (pinned_source own) (device_entries d steps)) = true.
Proof.
  intros Hown Hsteps Hhost. unfold fields_ok. rewrite with_device_platform. cbn [andb].
  apply andb_true_iff. split.
  - apply forallb_forall. intros key Hk%list_elem_of_In. eapply with_device_keys; eauto.
  - apply negb_true_iff. etrans; [|exact Hhost]. apply existsb_same. intros key Hk.
    unfold host_input. by rewrite with_device_lookup by (by apply host_inputs_apart).
Qed.

(** The pinned form of the fields of a command that passed inspection. *)
Lemma pin_fields_ok id d command rule start v :
  inspect_fields id d command rule start v = None → inspect_batch id d v = Ok None →
  (∀ own l, v = Some (JObject own) → field_of "batchSteps" own = Some (JArray l) →
     inspect_steps id d l = Ok None → ∃ l', pin_steps d l = Ok l' ∧ forallb (step_ok None d) l' = true) →
  ∃ p, pin_fields d v = Ok p ∧ part_ok None d command rule start p = true.
Proof.
  intros Hf Hb Hl.
  assert (Hempty : part_ok None d command rule start (with_device d [] None) = true).
  { unfold part_ok, with_device. change [] with (pinned_source []) at 1.
    fold (device_entries d None). rewrite with_device_fields_ok; [|by intros ? ?%elem_of_nil|by intros []|done].
    unfold field_of. rewrite lookup_obj_merge. unfold device_entries, hd_selector.
    by destruct (hd_backend d). }
  destruct v as [[| | | | | |own]|]; try (by eexists). cbn [pin_fields].
  apply inspect_fields_none in Hf as [Hkeys Hhost]. cbn [inspect_batch] in Hb.
  assert (Hsource : js "batchSteps" ∉ DEVICE_SELECTORS ++ DEVICE_CLIENT_AMBIENT_INPUTS)
    by (apply (bool_decide_unpack _); vm_compute; done).
  assert (Hok : ∀ steps, (is_Some steps → js "batchSteps" ∈ map fst own) →
    fields_ok d command rule start (obj_merge (pinned_source own) (device_entries d steps)) = true)
    by (intros; by apply with_device_fields_ok).
  destruct (field_of "batchSteps" own) as [[| | | | |l|]|] eqn:Hs; try done.
  - destruct (Hl own l eq_refl Hs Hb) as (l' & -> & Hc). cbn [mbind result_bind].
    eexists. split; [done|]. unfold with_device. fold (device_entries d (Some l')). cbn [part_ok].
    rewrite Hok, andb_true_l by (intros _; eapply lookup_key_in; exact Hs).
    unfold field_of. rewrite lookup_obj_merge. unfold device_entries. rewrite reverse_app.
    cbn -[js confined step_ok]. by rewrite decide_True.
  - cbn [mbind result_bind]. eexists. split; [done|]. unfold with_device.
    fold (device_entries d None). cbn [part_ok]. rewrite Hok, andb_true_l by by intros [].
    unfold field_of. rewrite lookup_obj_merge, pinned_source_lookup, (decide_False (P := _ ∈ _ ++ _)) by done.
    unfold field_of in Hs. rewrite Hs. unfold device_entries, hd_selector. by destruct (hd_backend d).
Qed.

Lemma pinned_command_lookup fields flags input :
  let o := object_of (Some (pinned_command fields flags input)) in
  field_of "command" o = field_of "command" fields ∧
  field_of "positionals" o = field_of "positionals" fields ∧
  field_of "flags" o = Some flags ∧ field_of "input" o = input.
Proof.
  cbn [object_of pinned_command]. unfold field_of.
  destruct (lookup_key (js "command") fields), (lookup_key (js "session") fields),
    (lookup_key (js "positionals") fields), input; split_and!; reflexivity.
Qed.

(** A command that passes inspection can be pinned, and is then confined. *)
Definition pins (id : json) (d : HostDevice) (v : json) : Prop :=
  ∀ fields, v = JObject fields → inspectDeviceCommand toLowerCase id d v = Ok None →
  ∃ p, pinDeviceCommand d v = Ok p ∧ is_record p = is_record v ∧ confined None d p = true.

Lemma pin_steps_ok id d l :
  Forall (pins id d) l → inspect_steps id d l = Ok None →
  ∃ l', pin_steps d l = Ok l' ∧ forallb (step_ok None d) l' = true.
Proof.
  induction 1 as [|step l Hstep Hl IH]; intros Hi; [by exists []|].
  cbn [inspect_steps] in Hi. destruct step as [| | | | | |own]; try done.
  destruct (is_text _ _) eqn:Hrec; [done|].
  destruct (inspectDeviceCommand _ _ _ _) as [[r|]|e] eqn:Hs; try done.
  destruct (Hstep own eq_refl Hs) as (p & Hp & Hsame & Hc). destruct (IH Hi) as (l' & Hl' & Hc').
  exists (p :: l'). cbn [pin_steps]. rewrite Hp. cbn [mbind result_bind].
  change ((fix steps (l : list json) : result type_error (list json) := _) l) with (pin_steps d l).
  rewrite Hl'. cbn -[confined is_record]. unfold step_ok at 1. rewrite Hsame, Hc, Hc'. cbn -[js]. by rewrite Hrec.
Qed.

Lemma pins_command id d fields :
  (∀ v own l, v ∈ (snd <$> fields) → v = JObject own → field_of "batchSteps" own = Some (JArray l) →
     Forall (pins id d) l) →
  pins id d (JObject fields).
Proof.
  intros IH fields' E Hi. injection E as <-. rewrite inspect_unfold in Hi.
  destruct (inspect_own _ _ _ _) as [[r|]|e] eqn:Hown; try done. cbn [mbind result_bind] in Hi.
  destruct (inspect_batch id d (field_of "flags" fields)) as [[r|]|e] eqn:Hbf; try done.
  cbn [mbind result_bind] in Hi. apply inspect_own_none in Hown as (rule & Hr & Hf & Hin & Hcheck).
  assert (Hsteps : ∀ key own l, field_of key fields = Some (JObject own) →
    field_of "batchSteps" own = Some (JArray l) → inspect_steps id d l = Ok None →
    ∃ l', pin_steps d l = Ok l' ∧ forallb (step_ok None d) l' = true).
  { intros key own l Hk Hs. apply pin_steps_ok. eapply IH; [|done|done].
    by eapply lookup_key_elem. }
  destruct (pin_fields_ok _ _ _ _ _ _ Hf Hbf (fun own l H1 => Hsteps "flags" own l H1))
    as (flags & Hpf & Hok).
  destruct (pin_fields_ok _ _ _ _ _ _ Hin Hi (fun own l H1 => Hsteps "input" own l H1))
    as (input & Hpi & Hok').
  rewrite pin_unfold, Hpf. cbn [mbind result_bind].
  assert (∃ input', match field_of "input" fields with
      | Some (JObject own) => v ← pin_fields d (Some (JObject own)); Ok (Some v)
      | _ => Ok None
      end = Ok input' ∧ (input' = None ∨ input' = Some input)) as (input' & -> & Hinput).
  { destruct (field_of "input" fields) as [[]|]; try (eexists; split; [done|by left]).
    rewrite Hpi. eexists. split; [done|by right]. }
  eexists. split; [done|]. set (p := pinned_command fields flags input').
  destruct (pinned_command_lookup fields flags input') as (Hc & Hpos & Hfl & Hinp). fold p in Hc, Hpos, Hfl, Hinp.
  split; [change (is_text (field_of "command" (object_of (Some p))) (js "record") = is_text (field_of "command" fields) (js "record")); by rewrite Hc|].
  change (confined None d (JObject (object_of (Some p))) = true). rewrite confined_unfold.
  assert (Ec : command_of (object_of (Some p)) = command_of fields)
    by (unfold command_of; by rewrite Hc).
  assert (Ep : positionals_of (object_of (Some p)) = positionals_of fields)
    by (unfold positionals_of; by rewrite Hpos).
  rewrite Ec, Hr. cbv zeta. rewrite Ep, (path_free_checked fields rule Hr Hcheck), Hfl, Hinp.
  unfold excused. rewrite (bool_decide_eq_true_2 (None = None)), !andb_true_l by done.
  unfold record_start in *. rewrite Ep, Hok. cbn [andb]. by destruct Hinput as [->| ->].
Qed.

Lemma pins_all id d v : pins id d v.
Proof.
  enough (pins id d v ∧ match v with
    | JArray l => Forall (pins id d) l
    | JObject own => ∀ l, field_of "batchSteps" own = Some (JArray l) → Forall (pins id d) l
    | _ => True
    end) by tauto.
  induction v as [v Hv|l IH|fields IH] using json_nested_ind.
  - destruct v; split; done.
  - split; [done|]. eapply Forall_impl; [exact IH|]. by intros v [].
  - rewrite Forall_forall in IH. split.
    + apply pins_command. intros v own l Hv -> Hl. by apply (IH _ Hv).
    + intros l Hl. by apply lookup_key_elem, IH in Hl as [_ ?].
Qed.

(** ** Requests *)

(** The entries are what the object says of their keys. *)
Definition carries (entries fields : object) : Prop :=
  Forall (fun entry => lookup_key (fst entry) fields = Some (snd entry)) entries.

Lemma carries_merge a b : NoDup (map fst b) → carries b (obj_merge a b).
Proof.
  intros Hd. apply Forall_forall. intros [k v] Hin. cbn. rewrite lookup_obj_merge.
  assert (Hr : NoDup (map fst (reverse b))) by (fold (fmap (M := list) (@fst units json)); by rewrite fmap_reverse, reverse_Permutation).
  apply elem_of_reverse in Hin. clear Hd.
  induction (reverse b) as [|[k' v'] l IH]; [by apply elem_of_nil in Hin|].
  cbn in *. apply NoDup_cons in Hr as [Hn Hr]. apply elem_of_cons in Hin as [[= -> ->]|Hin].
  - by rewrite decide_True.
  - rewrite decide_False; [by apply IH|]. intros ->. apply Hn.
    change k with (fst (k, v)). by apply list_elem_of_fmap_2.
Qed.

Lemma confined_set_meta sent d meta fields :
  confined sent d (JObject (obj_set (js "meta") meta fields)) = confined sent d (JObject fields).
Proof.
  assert (E : ∀ key, js key ≠ js "meta" →
    field_of key (obj_set (js "meta") meta fields) = field_of key fields).
  { intros key Hk. unfold field_of. rewrite lookup_obj_set. by rewrite decide_False. }
  rewrite !confined_unfold. unfold excused, record_start, positionals_of, command_of.
  by rewrite !E.
Qed.

(** What the metadata of a device command says whatever the client sent. *)
Definition device_identity (backend : Backend) (scope : HostedAgentLease) : object :=
  device_owner scope
  ++ [text_entry "leaseBackend" (backend_text backend); text_entry "sessionIsolation" (js "tenant")].

Lemma device_meta_carries backend scope meta :
  carries (device_identity backend scope) (object_of (Some (device_meta backend scope meta))).
Proof.
  cbn [object_of device_meta]. unfold device_identity.
  assert (H' : carries (device_owner scope ++ client_text "leaseId" (object_of meta)
     ++ [text_entry "leaseBackend" (backend_text backend); text_entry "sessionIsolation" (js "tenant")])
     (obj_merge (pickClientMeta meta) (device_owner scope ++ client_text "leaseId" (object_of meta)
     ++ [text_entry "leaseBackend" (backend_text backend); text_entry "sessionIsolation" (js "tenant")]))).
  { apply carries_merge. unfold client_text. destruct (field_of _ _) as [[]|];
      apply (bool_decide_unpack _); vm_compute; done. }
  unfold carries in *. rewrite !Forall_app in *. tauto.
Qed.

(** ** What is sent *)

Lemma span_while_split {A} (f : A → bool) l : fst (span_while f l) ++ snd (span_while f l) = l.
Proof. induction l as [|x l IH]; cbn; [done|]. destruct (f x); [|done]. destruct (span_while f l). cbn in *. by rewrite IH. Qed.
Lemma span_while_pass {A} (f : A → bool) l : Forall (fun x => f x = true) (fst (span_while f l)).
Proof. induction l as [|x l IH]; cbn; [done|]. destruct (f x) eqn:Hx; [|done]. destruct (span_while f l). by constructor. Qed.

Lemma last_part_no_slash path : 47 ∉ last_part path.
Proof.
  unfold last_part. rewrite elem_of_reverse. intros Hin.
  eapply Forall_forall in Hin; [|apply span_while_pass]. done.
Qed.
(** What is appended to the host's path stays in its directory. *)
Lemma extname_no_slash path : 47 ∉ extname path.
Proof.
  unfold extname. pose proof (span_while_split (fun c => negb (c =? 46)) (reverse (last_part path))) as Hs.
  destruct (span_while _ _) as [after before]. cbn in Hs. destruct before as [|dot [|c name]]; [apply not_elem_of_nil..|].
  destruct (_ && _); [apply not_elem_of_nil|]. apply not_elem_of_cons. split; [done|]. rewrite elem_of_reverse. intros Hin.
  apply (last_part_no_slash path). rewrite <- (reverse_involutive (last_part path)), elem_of_reverse, <- Hs. apply elem_of_app. by left.
Qed.

(** Fields that a filter on keys leaves. *)
Lemma filtered_fields_ok (keep : units → bool) d command rule start own own' :
  fields_ok d command rule start own = true →
  (∀ key, lookup_key key own' = if keep key then lookup_key key own else None) → (∀ key, key ∈ map fst own' → key ∈ map fst own) →
  keep (js "platform") = true → keep (hd_selector d) = true → keep (js "out") = false →
  fields_ok d command rule false own' = true.
Proof.
  unfold fields_ok, field_of. rewrite !andb_true_iff, !forallb_forall, !negb_true_iff.
  intros [[[Hp Hs] Hk] Hh] Hl Hin Hkp Hks Hko. rewrite !Hl, Hkp, Hks. split_and!; [done..| |].
  - intros key Hkey%list_elem_of_In. apply Hk, list_elem_of_In. by apply Hin.
  - apply existsb_false_in. intros key Hkey. apply (existsb_false_out _ _ Hh) in Hkey. unfold host_input in *. rewrite Hl.
    destruct (decide (key = js "out")) as [->|Ho]; [by rewrite Hko|]. destruct (keep key); [|done].
    rewrite (bool_decide_eq_false_2 (key = js "out")), !andb_false_r in * by done. by destruct (lookup_key key own) as [[]|].
Qed.

Lemma is_record_command fields : is_record (JObject fields) = bool_decide (command_of fields = js "record").
Proof.
  unfold is_record, command_of, is_text. destruct (field_of "command" fields) as [[]|]; try done.
Qed.

(** A part of a command whose steps go on is one as it is sent. *)
Lemma part_sent dir d command rule start f :
  part_ok None d command rule start f = true → fields_ok d command rule start = fields_ok d command rule false →
  (∀ own l, f = JObject own → field_of "batchSteps" own = Some (JArray l) →
     Forall (fun v => step_ok None d v = true → step_ok (Some dir) d v = true) l) →
  part_ok (Some dir) d command rule false f = true.
Proof.
  intros Hp Hstart Hl. destruct f as [| | | | | |own]; try done. cbn [part_ok] in *. rewrite Hstart in Hp.
  apply andb_true_iff in Hp as [-> Hs]. rewrite andb_true_l. destruct (field_of "batchSteps" own) as [[| | | | |l|]|] eqn:E; try done.
  specialize (Hl own l eq_refl E). rewrite forallb_forall in *. intros v Hv. rewrite Forall_forall in Hl.
  apply Hl; [by apply list_elem_of_In|by apply Hs].
Qed.

Lemma step_sent dir d v : step_ok None d v = true → step_ok (Some dir) d v = true.
Proof.
  enough ((step_ok None d v = true → step_ok (Some dir) d v = true) ∧ match v with
    | JArray l => Forall (fun v => step_ok None d v = true → step_ok (Some dir) d v = true) l
    | JObject own => ∀ l, field_of "batchSteps" own = Some (JArray l) →
        Forall (fun v => step_ok None d v = true → step_ok (Some dir) d v = true) l
    | _ => True
    end) by tauto.
  induction v as [v Hv|l IH|fields IH] using json_nested_ind.
  - by destruct v.
  - split; [done|]. eapply Forall_impl; [exact IH|]. by intros v [].
  - rewrite Forall_forall in IH. split; [|intros l Hl; by apply lookup_key_elem, IH in Hl as [_ ?]].
    unfold step_ok. rewrite !confined_unfold, is_record_command. unfold path_free, excused, record_start.
    case_bool_decide as Hr; [done|]. rewrite !andb_false_r. change (negb false) with true. rewrite !andb_true_l.
    destruct (own _ _) as [rule|]; [|done]. cbv zeta. rewrite !andb_true_iff. intros [[Hpath Hflags] Hinput].
    assert (∀ key f, field_of key fields = Some f → part_ok None d (command_of fields) rule false f = true →
              part_ok (Some dir) d (command_of fields) rule false f = true) as Hpart.
    { intros key f Hk Hf. apply (part_sent _ _ _ _ false); [done..|]. intros own' l -> Hl. apply lookup_key_elem in Hk. by apply (IH _ Hk). }
    split_and!; [done| |].
    + destruct (field_of "flags" fields) eqn:E; [by eapply Hpart|done].
    + destruct (field_of "input" fields) eqn:E; [by eapply Hpart|done].
Qed.

Lemma lookup_filter_keys (keys : list units) key fields :
  lookup_key key (base.filter (fun entry => fst entry ∈ keys) fields) = if bool_decide (key ∈ keys) then lookup_key key fields else None.
Proof.
  induction fields as [|[k v] fields IH]; [by case_bool_decide|]. rewrite filter_cons. cbn [fst lookup_key].
  destruct (decide (k = key)) as [->|Hk]; case_bool_decide as Hin; destruct (decide (_ ∈ keys)); try done; cbn;
    rewrite ?decide_True, ?decide_False by done; done.
Qed.

(** Parts as they are sent: [keep] says which keys a filter leaves. *)
Lemma part_filtered (keep : units → bool) dir d rule start own own' :
  part_ok None d (js "record") rule start (JObject own) = true →
  (∀ key, lookup_key key own' = if keep key then lookup_key key own else None) → (∀ key, key ∈ map fst own' → key ∈ map fst own) →
  keep (js "platform") = true → keep (hd_selector d) = true → keep (js "out") = false →
  part_ok (Some dir) d (js "record") rule false (JObject own') = true.
Proof.
  intros Hp Hl Hin Hkp Hks Hko. cbn [part_ok] in *. apply andb_true_iff in Hp as [Hf Hs].
  rewrite (filtered_fields_ok keep _ _ _ start own), andb_true_l by done. unfold field_of in *. rewrite Hl.
  destruct (keep (js "batchSteps")); [|done]. destruct (lookup_key _ own) as [[| | | | |l|]|]; try done.
  rewrite forallb_forall in *. intros v Hv. apply step_sent. by apply Hs.
Qed.
Lemma part_without_out dir d rule start f :
  part_ok None d (js "record") rule start f = true →
  part_ok (Some dir) d (js "record") rule false (JObject (obj_without [js "out"] (object_of (Some f)))) = true.
Proof.
  destruct f as [| | | | | |own]; try done. intros Hp.
  eapply (part_filtered (fun key => bool_decide (key ∉ [js "out"]))); [exact Hp| | |done| |done].
  - intros key. rewrite lookup_obj_without. cbn [object_of]. destruct (decide _), (bool_decide_reflect (key ∉ [js "out"])); done || tauto.
  - intros key (e & -> & He)%list_elem_of_fmap. apply list_elem_of_filter in He as [_ He]. by apply list_elem_of_fmap_2.
  - unfold hd_selector. by destruct (hd_backend d).
Qed.

Definition recording_path (dir : units) (fields : object) : units :=
  dir ++ js "/recording" ++ match positionals_of fields !! 1%nat with Some (JString p) => extname p | _ => js ".mp4" end.

Lemma record_started_lookup dir fields :
  let sent := record_started dir fields in
  field_of "command" sent = field_of "command" fields ∧
  field_of "positionals" sent = Some (JArray [JString (js "start"); JString (recording_path dir fields)]) ∧
  field_of "flags" sent = Some (JObject (obj_without [js "out"] (object_of (field_of "flags" fields)))) ∧
  field_of "input" sent = match field_of "input" fields with
                          | Some (JObject input) => Some (JObject (obj_without [js "out"] input))
                          | v => v
                          end.
Proof.
  cbv zeta. unfold record_started, field_of. cbv zeta. rewrite !(lookup_obj_set (js "input")).
  rewrite (decide_False (P := js "flags" = js "input")) by done.
  destruct (lookup_key (js "input") fields) as [[]|] eqn:Hi; rewrite !lookup_obj_set;
    repeat (rewrite decide_False by done || rewrite decide_True by done); rewrite ?Hi; done.
Qed.

Lemma starts_with_app a b : starts_with a (a ++ b) = true.
Proof. induction a as [|x a IH]; cbn; [by destruct b|]. by rewrite Z.eqb_refl. Qed.
Lemma recording_path_ok dir fields : recorded (Some dir) [JString (js "start"); JString (recording_path dir fields)] = true.
Proof.
  cbn [recorded]. unfold recording_path. rewrite (bool_decide_eq_true_2 (js "start" = _)), andb_true_l by done.
  rewrite (app_assoc dir). apply andb_true_iff. split.
  - apply starts_with_app.
  - apply bool_decide_eq_true. rewrite drop_app_length. destruct (_ !! 1%nat) as [[]|]; try apply extname_no_slash; apply (bool_decide_unpack _); vm_compute; done.
Qed.
Lemma record_started_confined dir d fields :
  command_of fields = js "record" → confined None d (JObject fields) = true →
  confined (Some dir) d (JObject (record_started dir fields)) = true.
Proof.
  intros Hc. destruct (record_started_lookup dir fields) as (Ec & Ep & Ef & Ei). rewrite !confined_unfold.
  assert (command_of (record_started dir fields) = js "record") as -> by (unfold command_of in *; by rewrite Ec).
  assert (positionals_of (record_started dir fields) = [JString (js "start"); JString (recording_path dir fields)]) as ->
    by (unfold positionals_of; by rewrite Ep).
  rewrite Ef, Ei, Hc. destruct (own _ _) as [rule|]; [|done]. cbv zeta. unfold path_free.
  rewrite !(bool_decide_eq_true_2 (js "record" = js "record")), recording_path_ok by done.
  rewrite !andb_true_iff. intros [[_ Hf] Hi]. split_and!; [done| |].
  - destruct (field_of "flags" fields) as [f|]; [by eapply part_without_out|done].
  - destruct (field_of "input" fields) as [f|]; [|done]. destruct f as [| | | | | |own']; try done. by eapply (part_without_out _ _ _ _ (JObject own')).
Qed.

Lemma recordStop_confined dir d fields :
  command_of fields = js "record" → confined None d (JObject fields) = true → confined (Some dir) d (JObject (recordStop fields)) = true.
Proof.
  intros Hc. rewrite !confined_unfold, Hc.
  assert (command_of (recordStop fields) = js "record") as -> by done.
  assert (positionals_of (recordStop fields) = [JString (js "stop")]) as -> by done.
  assert (field_of "flags" (recordStop fields) = Some (JObject (base.filter (fun entry => fst entry ∈ RECORD_STOP_KEYS)
            (object_of (field_of "flags" fields))))) as ->.
  { unfold recordStop, field_of. by destruct (lookup_key (js "session") fields). }
  assert (field_of "input" (recordStop fields) = None) as ->.
  { unfold recordStop, field_of. by destruct (lookup_key (js "session") fields), (lookup_key (js "meta") fields). }
  destruct (own _ _) as [rule|]; [|done]. cbv zeta. rewrite !andb_true_iff. intros [[_ Hf] _]. split_and!; [done| |done].
  destruct (field_of "flags" fields) as [[| | | | | |own']|]; try done.
  eapply (part_filtered (fun key => bool_decide (key ∈ RECORD_STOP_KEYS))); [exact Hf|intros key; apply lookup_filter_keys| |done| |done].
  - intros key (e & -> & He)%list_elem_of_fmap. apply list_elem_of_filter in He as [_ He]. by apply list_elem_of_fmap_2.
  - unfold hd_selector. by destruct (hd_backend d).
Qed.

(** Once it is pinned. *)
Lemma pinned_request body lease backend rpc :
  hl_backend (le_scope lease) = Some backend →
  pinLease toLowerCase body lease = Ok (PinRpc rpc) →
  let scope := le_scope lease in
  ∃ params, field_of "params" rpc = Some (JObject params) ∧
    ((rpc_method rpc ∈ COMMAND_METHODS ∧
      confined None (lease_device backend scope) (JObject params) = true ∧
      ∃ meta, field_of "meta" params = Some (JObject meta) ∧
        carries (device_identity backend scope) meta) ∨
     (rpc_method rpc ∈ DEVICE_LEASE_METHODS ∧ field_of "command" params = None ∧
      carries (device_owner scope ++ [text_entry "backend" (backend_text backend)]) params)).
Proof.
  intros Hb Hp. cbv zeta. unfold pinLease in Hp. rewrite Hb in Hp.
  destruct (body ≫= _) as [[| | | | | |fields]|]; try done.
  destruct (field_of "method" fields) as [[]|] eqn:Hm; try done.
  destruct (field_of "params" fields) as [[| | | | | |params]|] eqn:Hpar; try done.
  unfold pinDeviceRequest in Hp. set (d := lease_device backend (le_scope lease)) in *.
  set (id := request_id _) in Hp. clearbody id.
  assert (Hmethod : ∀ v, rpc_method (obj_set (js "params") v fields) = rpc_method fields).
  { intros v. unfold rpc_method, field_of. by rewrite lookup_obj_set. }
  assert (Hset : ∀ v, field_of "params" (obj_set (js "params") v fields) = Some v).
  { intros v. unfold field_of. rewrite lookup_obj_set. by rewrite decide_True. }
  destruct (is_android d && _); [done|]. case_bool_decide as Hcmd.
  - destruct (inspectDeviceCommand _ _ _ _) as [[r|]|e] eqn:Hi; try done.
    destruct (pins_all id d (JObject params) params eq_refl Hi) as (p & Hpin & _ & Hc).
    cbn [mbind result_bind] in Hp. rewrite Hpin in Hp. cbn [mbind result_bind] in Hp.
    injection Hp as <-. eexists. split; [apply Hset|]. left. rewrite Hmethod.
    split; [done|]. split.
    + rewrite confined_set_meta. by destruct p.
    + eexists. split; [|apply (device_meta_carries backend (le_scope lease) (field_of "meta" params))].
      unfold field_of. rewrite lookup_obj_set. by rewrite decide_True.
  - case_bool_decide as Hle; [|done]. destruct (is_android d && _); [done|].
    injection Hp as <-. eexists. split; [apply Hset|]. right. rewrite Hmethod. split; [done|].
    split; [unfold client_text; by destruct (field_of "leaseId" params) as [[]|], (field_of "session" params) as [[]|], (ends_with _ _)|].
    rewrite !app_assoc. unfold client_text.
    destruct (field_of "leaseId" params) as [[]|]; destruct (field_of "session" params) as [[]|];
      destruct (ends_with _ _); repeat constructor.
Qed.

Lemma carries_set_artifacts backend scope v meta :
  carries (device_identity backend scope) meta → carries (device_identity backend scope) (obj_set (js "clientArtifactPaths") v meta).
Proof.
  unfold carries, device_identity, device_owner. cbn [app]. rewrite !Forall_cons, !lookup_obj_set.
  intros Hc. repeat (rewrite decide_False by done). destruct_and! Hc. split_and!; done || constructor.
Qed.
Lemma record_sent_meta backend scope dir (stop : bool) fields meta :
  field_of "meta" fields = Some (JObject meta) → carries (device_identity backend scope) meta →
  ∃ meta', field_of "meta" (if stop then recordStop fields else record_started dir fields) = Some (JObject meta') ∧
    carries (device_identity backend scope) meta'.
Proof.
  intros Hm Hc. destruct stop.
  - exists meta. split; [|done]. unfold recordStop, field_of in *. rewrite Hm. by destruct (lookup_key (js "session") fields).
  - eexists. split; [unfold record_started, field_of; cbv zeta; rewrite lookup_obj_set; by rewrite decide_True|].
    unfold field_of in Hm. rewrite Hm. by apply carries_set_artifacts.
Qed.

(** C4: a hosted device's client acts on that device alone. Every request that the host sends on to
    the agent-device daemon is a command or a lease call. A command names the lease's device at every
    level of its batches, has only commands of the policy with the keys they take, and carries no host
    input but the name of a screenshot that the daemon returns; it opens, closes and pushes nothing by
    a host path. A recording, never one of a batch, is written in the directory that the host made for
    it, whatever [out] or path the client asked for. A command's metadata carries the session's tenant,
    run, client, device and backend. A lease call carries the same owner. *)
Theorem device_request_confined body lease backend rpc dir :
  hl_backend (le_scope lease) = Some backend →
  pinLease toLowerCase body lease = Ok (PinRpc rpc) →
  let scope := le_scope lease in
  let sent := relayed dir rpc in
  ∃ params, field_of "params" sent = Some (JObject params) ∧
    ((rpc_method sent ∈ COMMAND_METHODS ∧
      confined (Some dir) (lease_device backend scope) (JObject params) = true ∧
      ∃ meta, field_of "meta" params = Some (JObject meta) ∧
        carries (device_identity backend scope) meta) ∨
     (rpc_method sent ∈ DEVICE_LEASE_METHODS ∧
      carries (device_owner scope ++ [text_entry "backend" (backend_text backend)]) params)).
Proof.
  intros Hb Hp. cbv zeta. destruct (pinned_request _ _ _ _ Hb Hp) as (params & Hpar & Hreq). cbv zeta in Hreq.
  unfold relayed. rewrite Hpar. cbn [object_of]. destruct (is_text (field_of "command" params) (js "record")) eqn:Hrec.
  - destruct Hreq as [(Hm & Hc & meta & Hmeta & Hcar)|(_ & Hcmd & _)]; [|by rewrite Hcmd in Hrec].
    assert (command_of params = js "record") as Hcmd.
    { apply (bool_decide_eq_true_1 (command_of params = js "record")). by rewrite <- is_record_command. }
    eexists. split; [unfold field_of; rewrite lookup_obj_set; by rewrite decide_True|]. left. split_and!.
    + unfold rpc_method, field_of in *. by rewrite lookup_obj_set.
    + destruct (is_text (head _) _); [by apply recordStop_confined|by apply record_started_confined].
    + by eapply record_sent_meta.
  - exists params. split; [done|]. destruct Hreq as [(Hm & Hc & Hmeta)|(Hm & _ & Hcar)]; [left|by right]. split; [done|]. split; [|done].
    assert (step_ok (Some dir) (lease_device backend (le_scope lease)) (JObject params) = true) as Hs.
    { apply step_sent. unfold step_ok. rewrite Hc. cbn [is_record]. by rewrite Hrec. }
    by apply andb_true_iff in Hs as [_ ?].
Qed.

Lemma lookup_key_none key fields : key ∉ map fst fields → lookup_key key fields = None.
Proof.
  induction fields as [|[k v] fields IH]; cbn; [done|]. rewrite not_elem_of_cons.
  intros [Hk Hf]. rewrite decide_False by done. by apply IH.
Qed.

Lemma plain_fields_pass id d command rule start flags :
  (∀ key, key ∈ map fst flags → key ∈ allowed_keys rule ∧
     key ∉ DEVICE_SELECTORS ∧ key ∉ HOST_INPUTS ∧ key ≠ js "shutdown") →
  inspect_fields id d command rule start (Some (JObject flags)) = None.
Proof.
  intros Hf.
  assert (Hnone : ∀ key, key ∈ DEVICE_SELECTORS ∨ key ∈ HOST_INPUTS ∨ key = js "shutdown" →
    lookup_key key flags = None).
  { intros key Hk. apply lookup_key_none. intros Hin. destruct (Hf key Hin). tauto. }
  unfold inspect_fields, other_device, other_serial, field_of.
  rewrite !Hnone by (left; apply list_elem_of_In; cbn; tauto). rewrite Hnone by tauto.
  assert (Hhost : ∀ screenshot, existsb (host_input screenshot start flags) HOST_INPUTS = false).
  { intros screenshot. rewrite (existsb_same _ (fun _ => false)).
    - generalize HOST_INPUTS. intros l. by induction l.
    - intros key Hk. unfold host_input. by rewrite Hnone by tauto. }
  rewrite Hhost. destruct (find _ _) as [u|] eqn:Hu; [|by destruct (is_android d)].
  apply find_some in Hu as [Hin%list_elem_of_In Hn]. destruct (Hf u Hin) as [Ha _].
  by rewrite bool_decide_eq_true_2 in Hn.
Qed.

(** A client may do what the policy lists. A command of the policy whose positionals are not
    checked, with options it takes that are not host inputs and do not pick a device, passes
    inspection and is pinned, and its options keep their values. *)
Theorem plain_command_accepted id d command rule params flags :
  own command rules = Some rule → dc_positionals rule = None →
  field_of "command" params = Some (JString command) →
  field_of "flags" params = Some (JObject flags) → field_of "input" params = None →
  field_of "runtime" params = None → field_of "serial" params = None →
  (∀ key, key ∈ map fst flags → key ∈ map snd (dc_flags rule) ++ dc_keys rule ∧
     key ∉ DEVICE_SELECTORS ++ DEVICE_CLIENT_AMBIENT_INPUTS ∧ key ∉ HOST_INPUTS ∧
     key ∉ [js "shutdown"; js "batchSteps"; js "platform"]) →
  inspectDeviceCommand toLowerCase id d (JObject params) = Ok None ∧
  ∃ flags', pinDeviceCommand d (JObject params)
              = Ok (pinned_command params (JObject flags') None) ∧
    ∀ key v, lookup_key key flags = Some v → lookup_key key flags' = Some v.
Proof.
  intros Hr Hpos Hc Hfl Hin Hrt Hse Hkeys.
  assert (Hpass : inspect_fields id d command rule (record_start command params)
    (Some (JObject flags)) = None).
  { apply plain_fields_pass. intros key Hk. destruct (Hkeys key Hk) as (Ha & Hn & Hh & Hs).
    rewrite elem_of_app in Hn. rewrite !not_elem_of_cons in Hs. unfold allowed_keys.
    rewrite !elem_of_app in *. tauto. }
  assert (Hbatch : field_of "batchSteps" flags = None).
  { apply lookup_key_none. intros Hk. destruct (Hkeys _ Hk) as (_ & _ & _ & Hs).
    rewrite !not_elem_of_cons in Hs. tauto. }
  split.
  - rewrite inspect_unfold. unfold inspect_own, command_of, other_serial.
    rewrite Hc, Hr, Hse, andb_false_r, Hrt, Hfl, Hin. cbn [object_of length].
    rewrite Hpass. cbn [or_else inspect_fields]. rewrite Hpos. cbn -[js].
    fold (field_of "batchSteps" flags). by rewrite Hbatch.
  - rewrite pin_unfold, Hfl, Hin. cbn [pin_fields]. rewrite Hbatch. cbn [mbind result_bind].
    exists (obj_merge (pinned_source flags) (device_entries d None)).
    split; [reflexivity|]. intros key v Hk.
    rewrite with_device_lookup; [done|]. apply lookup_key_in in Hk.
    destruct (Hkeys key Hk) as (_ & Hn & _ & Hs). rewrite !not_elem_of_cons in *. tauto.
Qed.

(** ** A hosted macOS app *)

Definition no_selector (fields : object) : Prop := ∀ key, key ∈ DEVICE_SELECTORS → lookup_key key fields = None.

(** What the metadata of a macOS command says whatever the client sent. *)
Definition macos_identity (lease : Lease) : object :=
  lease_owner lease
  ++ [text_entry "tenantId" (hl_tenant (le_scope lease)); text_entry "leaseBackend" (js "macos-app");
      text_entry "sessionIsolation" (js "tenant")].

Lemma without_selectors fields : no_selector (withoutDeviceSelectors fields).
Proof.
  intros key Hk. unfold withoutDeviceSelectors. rewrite lookup_obj_without. by rewrite decide_True.
Qed.

Lemma no_selector_merge a b :
  no_selector a → Forall (fun entry => fst entry ∉ DEVICE_SELECTORS) b → no_selector (obj_merge a b).
Proof.
  intros Ha Hb key Hk. rewrite lookup_obj_merge, (lookup_key_none key (reverse b)); [by apply Ha|].
  intros (e & -> & He)%list_elem_of_fmap. rewrite elem_of_reverse in He.
  rewrite Forall_forall in Hb. by apply (Hb e).
Qed.

Lemma pinStep_command step : step_command (pinStep step) = step_command step.
Proof.
  destruct step as [| | | | | |fields]; try done. unfold step_command, pinStep, field, field_of.
  rewrite lookup_obj_merge, lookup_obj_without, (decide_False (P := js "command" ∈ _))
    by (apply (bool_decide_unpack _); vm_compute; done).
  destruct (lookup_key (js "input") fields) as [[]|]; reflexivity.
Qed.

(** The flags and the metadata of a pinned macOS command. *)
Definition macos_flags (params : object) : object :=
  let steps := batch_steps (field_of "flags" params) in
  obj_merge (withoutDeviceSelectors (field_of "flags" params))
    ([text_entry "platform" (js "macos")]
     ++ match steps with [] => [] | _ => [(js "batchSteps", JArray (map pinStep steps))] end).

Definition macos_meta (lease : Lease) (params : object) : object :=
  obj_merge (pickClientMeta (field_of "meta" params)) (macos_identity lease).

Lemma macos_params_lookup lease params :
  field_of "command" (macos_params lease params) = field_of "command" params ∧
  field_of "runtime" (macos_params lease params) = None ∧
  field_of "flags" (macos_params lease params) = Some (JObject (macos_flags params)) ∧
  field_of "meta" (macos_params lease params) = Some (JObject (macos_meta lease params)).
Proof.
  unfold macos_params, field_of. cbv zeta. rewrite !lookup_obj_merge, !lookup_obj_without.
  rewrite (decide_False (P := js "command" ∈ _)) by (apply (bool_decide_unpack _); vm_compute; done).
  rewrite (decide_True (P := js "runtime" ∈ _)) by (apply (bool_decide_unpack _); vm_compute; done).
  destruct (lookup_key (js "input") params) as [[]|]; split_and!; reflexivity.
Qed.

Lemma macos_flags_ok params :
  no_selector (macos_flags params) ∧
  field_of "platform" (macos_flags params) = Some (JString (js "macos")) ∧
  batch_steps (Some (JObject (macos_flags params)))
  = map pinStep (batch_steps (field_of "flags" params)).
Proof.
  unfold macos_flags. cbv zeta. set (flags := field_of "flags" params).
  destruct (batch_steps flags) as [|step steps] eqn:Hs; split_and!.
  - apply no_selector_merge; [apply without_selectors|]. apply (bool_decide_unpack _). vm_compute. done.
  - unfold field_of. by rewrite lookup_obj_merge.
  - unfold batch_steps, field_of in *. cbn [object_of]. rewrite lookup_obj_merge.
    unfold withoutDeviceSelectors. rewrite lookup_obj_without, (decide_False (P := js "batchSteps" ∈ _))
      by (apply (bool_decide_unpack _); vm_compute; done).
    destruct (lookup_key (js "batchSteps") (object_of flags)) as [[]|]; cbn in *; by subst.
  - apply no_selector_merge; [apply without_selectors|].
    repeat constructor; apply (bool_decide_unpack _); vm_compute; done.
  - unfold field_of. by rewrite lookup_obj_merge.
  - unfold batch_steps, field_of. cbn [object_of]. by rewrite lookup_obj_merge.
Qed.

(** A client of a hosted macOS app acts under the app's lease alone. Every command that goes
    on, and every step of its batch, is one of the allowed commands; its flags pick macOS and no
    other device; it sends no runtime; and its metadata carries the lease, its owner and the
    tenant. *)
Theorem macos_request_confined body lease rpc :
  hl_backend (le_scope lease) = None →
  pinLease toLowerCase body lease = Ok (PinRpc rpc) →
  rpc_method rpc ∈ COMMAND_METHODS →
  ∃ params flags meta, field_of "params" rpc = Some (JObject params) ∧
    isAllowedCommand (field_of "command" params) = true ∧ field_of "runtime" params = None ∧
    field_of "flags" params = Some (JObject flags) ∧ no_selector flags ∧
    field_of "platform" flags = Some (JString (js "macos")) ∧
    Forall (fun step => isAllowedCommand (step_command step) = true)
      (batch_steps (Some (JObject flags))) ∧
    field_of "meta" params = Some (JObject meta) ∧ carries (macos_identity lease) meta.
Proof.
  intros Hb Hp Hm. unfold pinLease in Hp. rewrite Hb in Hp.
  destruct (body ≫= _) as [[| | | | | |fields]|]; try done.
  destruct (field_of "method" fields) as [[]|]; try done.
  destruct (field_of "params" fields) as [[| | | | | |params]|]; try done.
  set (id := request_id _) in Hp. clearbody id. injection Hp as Hp. unfold pin_macos in Hp.
  assert (Hmethod : ∀ v, rpc_method (obj_set (js "params") v fields) = rpc_method fields).
  { intros v. unfold rpc_method, field_of. by rewrite lookup_obj_set. }
  case_bool_decide as Hcmd; [|case_bool_decide as Hle; [|done]; simplify_eq; by rewrite Hmethod in Hm].
  destruct (isAllowedCommand _) eqn:Hallow; [|done]. cbn [negb] in Hp.
  destruct (find _ _) eqn:Hfind; [done|]. injection Hp as <-.
  destruct (macos_params_lookup lease params) as (Hc & Hrt & Hfl & Hme).
  destruct (macos_flags_ok params) as (Hsel & Hpl & Hst).
  exists (macos_params lease params), (macos_flags params), (macos_meta lease params).
  rewrite Hc, Hst. split_and!; [|done..| |done|].
  - unfold field_of. rewrite lookup_obj_set. by rewrite decide_True.
  - apply Forall_map, Forall_forall. intros step Hstep%list_elem_of_In. rewrite pinStep_command.
    by apply (find_none _ _ Hfind), negb_false_iff in Hstep.
  - apply carries_merge. apply (bool_decide_unpack _). vm_compute. done.
Qed.

End Facts.

(** ** Concrete requests *)

Section Witnesses.

(** The text of a request, which parses to it. *)
#[local] Instance one_request (request : json) : NodeText := {|
  buffer_toString := fun _ => js "request"; JSON_parse := fun _ => Some request;
  JSON_stringify := fun _ => []; JSON_stringify_2 := fun _ => [] |}.

Definition click : json :=
  JObject [(js "command", JString (js "click")); (js "positionals", JArray [JString (js "@e1")]);
           (js "flags", JObject [(js "count", JNumber 2)])].

(** A batch with client state of its own and a click. *)
Definition batch : json :=
  JObject [(js "id", JNumber 7); (js "method", JString (js "agent_device.command"));
    (js "params", JObject
      [(js "command", JString (js "batch"));
       (js "flags", JObject [(js "cwd", JString (js "/Users/me")); (js "udid", JString (js "U1"));
                             (js "batchSteps", JArray [click])]);
       (js "meta", JObject [(js "debug", JBool true); (js "tenantId", JString (js "another"))])])].

Definition scope_of (backend : option Backend) (key : string) : Lease :=
  {| le_id := js "lease"; le_scope :=
       {| hl_tenant := js "stim.s"; hl_runId := js "s"; hl_clientId := js "agent";
          hl_deviceKey := js key; hl_backend := backend |} |}.

Definition ios_lease : Lease := scope_of (Some IosInstance) "ios:mobile:U1".
Definition mac_lease : Lease := scope_of None "com.app@42".

Definition pinned_rpc (request : json) (lease : Lease) : object :=
  match pinLease (H := one_request request) id (Some []) lease with
  | Ok (PinRpc rpc) => rpc
  | _ => []
  end.

(** A client that asks for a recording of its own choice. *)
Definition record : json :=
  JObject [(js "id", JNumber 8); (js "method", JString (js "agent_device.command"));
    (js "params", JObject
      [(js "command", JString (js "record")); (js "positionals", JArray [JString (js "start")]);
       (js "flags", JObject [(js "out", JString (js "/Users/host/.ssh/x"))]);
       (js "meta", JObject [(js "clientArtifactPaths", JObject [(js "outPath", JString (js "here.mp4"))])])])].

(** C4 where a client starts a recording with a path of the host: it is not sent. *)
Lemma device_request_confined_witness :
  pinLease (H := one_request record) id (Some []) ios_lease = Ok (PinRpc (pinned_rpc record ios_lease)) ∧
  ∃ params flags, field_of "params" (relayed (js "/tmp/r") (pinned_rpc record ios_lease)) = Some (JObject params) ∧
    positionals_of params = [JString (js "start"); JString (js "/tmp/r/recording.mp4")] ∧
    field_of "flags" params = Some (JObject flags) ∧ field_of "out" flags = None ∧
    @confined (one_request record) id (Some (js "/tmp/r")) (lease_device IosInstance (le_scope ios_lease)) (JObject params) = true.
Proof.
  assert (pinLease (H := one_request record) id (Some []) ios_lease
          = Ok (PinRpc (pinned_rpc record ios_lease))) as Hpin by (vm_compute; reflexivity).
  split; [exact Hpin|].
  destruct (@device_request_confined (one_request record) id (Some []) ios_lease IosInstance
              (pinned_rpc record ios_lease) (js "/tmp/r") eq_refl Hpin) as (params & Hp & Hreq).
  assert (field_of "params" (relayed (js "/tmp/r") (pinned_rpc record ios_lease))
    = Some (JObject (object_of (field_of "params" (relayed (js "/tmp/r") (pinned_rpc record ios_lease)))))) as Hsome
    by (vm_compute; reflexivity).
  rewrite Hsome in Hp. injection Hp as <-. eexists _, _. split; [exact Hsome|]. split; [vm_compute; reflexivity|].
  split; [vm_compute; reflexivity|]. split; [vm_compute; reflexivity|].
  destruct Hreq as [(_ & Hc & _)|[Hm _]]; [exact Hc|].
  exfalso. revert Hm. apply (bool_decide_unpack _). vm_compute. exact I.
Defined.

Lemma macos_request_confined_witness :
  pinLease (H := one_request batch) id (Some []) mac_lease = Ok (PinRpc (pinned_rpc batch mac_lease)) ∧
  ∃ params, field_of "params" (pinned_rpc batch mac_lease) = Some (JObject params).
Proof.
  assert (H : pinLease (H := one_request batch) id (Some []) mac_lease
              = Ok (PinRpc (pinned_rpc batch mac_lease))) by (vm_compute; reflexivity).
  assert (Hm : rpc_method (pinned_rpc batch mac_lease) ∈ COMMAND_METHODS)
    by (apply (bool_decide_unpack _); vm_compute; exact I).
  split; [exact H|].
  destruct (@macos_request_confined (one_request batch) id (Some []) mac_lease
              (pinned_rpc batch mac_lease) eq_refl H Hm) as (params & _ & _ & Hp & _).
  exists params. exact Hp.
Defined.

Definition ios_device : HostDevice := {| hd_backend := IosInstance; hd_id := js "U1" |}.

Lemma plain_command_accepted_witness :
  inspectDeviceCommand (H := one_request batch) id JNull ios_device click = Ok None.
Proof.
  destruct (own (js "click") (@DEVICE_COMMAND_RULES (one_request batch) id)) as [rule|] eqn:Hr;
    [|vm_compute in Hr; discriminate Hr].
  apply (@plain_command_accepted (one_request batch) id JNull ios_device (js "click") rule _
           [(js "count", JNumber 2)] Hr).
  - assert (Hc : dc_positionals <$> own (js "click") (@DEVICE_COMMAND_RULES (one_request batch) id)
                 = Some None) by reflexivity.
    rewrite Hr in Hc. injection Hc as Hc. exact Hc.
  - reflexivity.
  - reflexivity.
  - reflexivity.
  - reflexivity.
  - reflexivity.
  - intros key Hk. apply list_elem_of_singleton in Hk as ->.
    assert (Hc : bool_decide (js "count" ∈ map snd (default [] (dc_flags <$>
      own (js "click") (@DEVICE_COMMAND_RULES (one_request batch) id)))) = true) by (vm_compute; reflexivity).
    rewrite Hr in Hc. apply bool_decide_eq_true in Hc.
    split; [apply elem_of_app; left; exact Hc|].
    split; [|split]; apply (bool_decide_unpack _); vm_compute; exact I.
Defined.

End Witnesses.
