(* ===== verification/Connection.v ===== *)
(** * A phone's connection to a machine: [apps/mobile/src/lib/connection.ts]

    [StimConnection] as a state and one operation for each entry: its methods, the socket's
    events, its timers and the reactions of its promises. An operation returns the new state and
    its effects in order. A promise that settles queues its reaction, which runs as an operation of
    its own; a socket, a timer, a subscription and a session object are numbers. Texts are those of
    the source language. The validators of the protocol, which a build generates, and whether a
    socket's [send] throws are parameters. Listeners are effects: one that calls back into the
    connection does so as an operation of its own. Fields of a message are read as the schema its
    validator checked types them. *)

From Stdlib Require Import ZArith Lia.
From S2P Require Import Prelude.
From S2P Require Import Bytes.
From S2P Require Import Json.
Open Scope Z_scope.

(** ** Data *)

Inductive ConnectionState :=
| StateConnecting
| StateOpen (server protocol : option json) (actions : option (list json))
    (capabilities hostCapabilities deviceId deviceName : option json)
| StateWaiting (retryInMs : Z) (reason : units)
| StateRefused (code reason : units)
| StateClosed.

Record SessionClose := { sc_error : option units; sc_reason : option units }.

Inductive FailureStage := AtParse | AtEnvelope | AtResult | AtEvent | AtError.

(** A report names the stage and the method or event, or a class of error; the schema location it
    adds is read off the validators. *)
Inductive Failure :=
| RpcFailure (stage : FailureStage) (name : units)
| ConnectionFailure (errorClass : units)
| PairingFailure (errorClass : units).

(** What a promise is rejected with. *)
Inductive Rejection :=
| RequestError (code message : units)
| PlainError (message : units).

Definition rejection_message (r : Rejection) : units :=
  match r with RequestError _ m | PlainError m => m end.

Record Subscription := {
  su_method : units;
  su_params : json;
  su_onSubscribed : bool;
  su_onVideo : bool;
  su_video : option (nat * units);
  su_serverId : option units;
  su_retryMs : Z;
  su_retry : option nat;
}.

(** Who waits for a request: [hello], a subscription, an unsubscription, or a caller. *)
Inductive Waiter :=
| WaitHello (socket session : nat) (early : list nat)
| WaitSubscribe (socket sub : nat) (session : option nat)
| WaitUnsubscribe
| WaitCaller.

Record Pending := { pe_id : Z; pe_method : units; pe_waiter : Waiter }.

Record Reaction := { re_id : Z; re_waiter : Waiter; re_outcome : Rejection + json }.

Inductive TimerKind := TimerReconnect | TimerSubscribe (socket : option nat) (sub : nat).

Inductive Effect :=
| OnState (state : ConnectionState)
| CreateSocket (socket : nat)
| SocketSend (socket : nat) (message : json)
| SocketClosed (socket : nat)
| SetTimer (timer : nat) (ms : Z)
| ClearTimer (timer : nat)
| OnEvent (sub : nat) (event : json)
| OnSubscribed (sub : nat) (result : json)
| OnVideo (sub : nat) (stream : option (nat * units))
| DisposeVideo (stream : nat * units)
| OnControlEnded (listener : nat) (event : json)
| OnNotification (listener : nat) (event : json)
| Settled (id : option Z) (outcome : Rejection + json)
| ReportFailure (failure : Failure).

Record Conn := {
  co_socket : option nat;
  co_nextSocket : nat;
  co_nextId : Z;
  co_pending : list Pending;
  co_heap : list Subscription;
  co_subscriptions : list nat;
  co_controlListeners : list nat;
  co_notificationListeners : list nat;
  co_retryMs : Z;
  co_lastInvalidAt : option Z;
  co_timer : option nat;
  co_timers : list (nat * TimerKind);
  co_nextTimer : nat;
  co_stopped : bool;
  co_open : bool;
  co_accepted : list nat;
  co_nextSession : nat;
  co_reactions : list Reaction;
}.

Inductive PairingScope := ScopeControl | ScopeRead.

Definition pairingScope (state : ConnectionState) : option PairingScope :=
  match state with
  | StateOpen _ _ _ (Some (JArray capabilities)) _ _ _ =>
      Some (if existsb (fun v => match v with
                                 | JString s => bool_decide (s = js "control")
                                 | _ => false
                                 end) capabilities then ScopeControl else ScopeRead)
  | StateOpen _ _ _ _ _ _ _ => Some ScopeRead
  | _ => None
  end.

(** ** Constants *)

Definition MIN_RETRY_MS : Z := 1000.
Definition MAX_EARLY_SUBSCRIPTIONS : nat := 8.
Definition MAX_RETRY_MS : Z := 30000.
Definition INVALID_BACKOFF_MS : Z := 60000.
Definition REFUSAL_CODES : list units :=
  [js "unauthorized"; js "pairing-expired"; js "protocol-unsupported"].
Definition PHONE_API : Z := 2.
Definition ACTIONS : list units := [js "reload"; js "stop"].

Definition ERROR_CODES : list units :=
  map js ["unauthorized"; "pairing-expired"; "protocol-unsupported"; "unknown-secret";
          "home-unavailable"; "bad-request"; "unknown-method"; "already-authenticated";
          "unknown-subscription"; "unknown-workspace"; "limit-exceeded"; "slow-client";
          "status-failed"; "logs-failed"; "stim-failed"; "frames-failed"; "forbidden";
          "unknown-action"; "action-busy"; "action-failed"; "device-busy"; "unknown-session";
          "no-recording"; "build-refused"; "build-busy"; "job-unavailable"; "job-refused";
          "job-needs-package"].

Definition safeName (value : units) : units :=
  if bool_decide (value ∈ ERROR_CODES) then value else js "other".

(** ** Operations as state and effects *)

Definition Act : Type := Conn → Conn * list Effect.

Definition skip : Act := fun c => (c, []).
Definition emit (e : Effect) : Act := fun c => (c, [e]).
Definition update (f : Conn → Conn) : Act := fun c => (f c, []).
Definition ask (k : Conn → Act) : Act := fun c => k c c.
Definition andThen (a b : Act) : Act := fun c =>
  let '(c, e1) := a c in let '(c, e2) := b c in (c, e1 ++ e2).
Infix "->>" := andThen (at level 60, right associativity) : stim_scope.
Open Scope stim_scope.

Fixpoint each {A} (l : list A) (f : A → Act) : Act :=
  match l with [] => skip | x :: l => f x ->> each l f end.

Section Setters.
Variable c : Conn.

Definition set_link (socket : option nat) (open : bool) : Conn :=
  {| co_socket := socket; co_nextSocket := co_nextSocket c; co_nextId := co_nextId c;
     co_pending := co_pending c; co_heap := co_heap c; co_subscriptions := co_subscriptions c;
     co_controlListeners := co_controlListeners c;
     co_notificationListeners := co_notificationListeners c; co_retryMs := co_retryMs c;
     co_lastInvalidAt := co_lastInvalidAt c; co_timer := co_timer c; co_timers := co_timers c;
     co_nextTimer := co_nextTimer c; co_stopped := co_stopped c; co_open := open;
     co_accepted := co_accepted c; co_nextSession := co_nextSession c;
     co_reactions := co_reactions c |}.

Definition set_fresh (nextSocket : nat) (nextId : Z) (nextTimer nextSession : nat) : Conn :=
  {| co_socket := co_socket c; co_nextSocket := nextSocket; co_nextId := nextId;
     co_pending := co_pending c; co_heap := co_heap c; co_subscriptions := co_subscriptions c;
     co_controlListeners := co_controlListeners c;
     co_notificationListeners := co_notificationListeners c; co_retryMs := co_retryMs c;
     co_lastInvalidAt := co_lastInvalidAt c; co_timer := co_timer c; co_timers := co_timers c;
     co_nextTimer := nextTimer; co_stopped := co_stopped c; co_open := co_open c;
     co_accepted := co_accepted c; co_nextSession := nextSession; co_reactions := co_reactions c |}.

Definition set_requests (pending : list Pending) (reactions : list Reaction) : Conn :=
  {| co_socket := co_socket c; co_nextSocket := co_nextSocket c; co_nextId := co_nextId c;
     co_pending := pending; co_heap := co_heap c; co_subscriptions := co_subscriptions c;
     co_controlListeners := co_controlListeners c;
     co_notificationListeners := co_notificationListeners c; co_retryMs := co_retryMs c;
     co_lastInvalidAt := co_lastInvalidAt c; co_timer := co_timer c; co_timers := co_timers c;
     co_nextTimer := co_nextTimer c; co_stopped := co_stopped c; co_open := co_open c;
     co_accepted := co_accepted c; co_nextSession := co_nextSession c; co_reactions := reactions |}.

Definition set_subs (heap : list Subscription) (subscriptions : list nat) : Conn :=
  {| co_socket := co_socket c; co_nextSocket := co_nextSocket c; co_nextId := co_nextId c;
     co_pending := co_pending c; co_heap := heap; co_subscriptions := subscriptions;
     co_controlListeners := co_controlListeners c;
     co_notificationListeners := co_notificationListeners c; co_retryMs := co_retryMs c;
     co_lastInvalidAt := co_lastInvalidAt c; co_timer := co_timer c; co_timers := co_timers c;
     co_nextTimer := co_nextTimer c; co_stopped := co_stopped c; co_open := co_open c;
     co_accepted := co_accepted c; co_nextSession := co_nextSession c;
     co_reactions := co_reactions c |}.

Definition set_listeners (control notification : list nat) : Conn :=
  {| co_socket := co_socket c; co_nextSocket := co_nextSocket c; co_nextId := co_nextId c;
     co_pending := co_pending c; co_heap := co_heap c; co_subscriptions := co_subscriptions c;
     co_controlListeners := control; co_notificationListeners := notification;
     co_retryMs := co_retryMs c; co_lastInvalidAt := co_lastInvalidAt c; co_timer := co_timer c;
     co_timers := co_timers c; co_nextTimer := co_nextTimer c; co_stopped := co_stopped c;
     co_open := co_open c; co_accepted := co_accepted c; co_nextSession := co_nextSession c;
     co_reactions := co_reactions c |}.

Definition set_retry (retryMs : Z) (lastInvalidAt : option Z) : Conn :=
  {| co_socket := co_socket c; co_nextSocket := co_nextSocket c; co_nextId := co_nextId c;
     co_pending := co_pending c; co_heap := co_heap c; co_subscriptions := co_subscriptions c;
     co_controlListeners := co_controlListeners c;
     co_notificationListeners := co_notificationListeners c; co_retryMs := retryMs;
     co_lastInvalidAt := lastInvalidAt; co_timer := co_timer c; co_timers := co_timers c;
     co_nextTimer := co_nextTimer c; co_stopped := co_stopped c; co_open := co_open c;
     co_accepted := co_accepted c; co_nextSession := co_nextSession c;
     co_reactions := co_reactions c |}.

Definition set_timers (timer : option nat) (timers : list (nat * TimerKind)) : Conn :=
  {| co_socket := co_socket c; co_nextSocket := co_nextSocket c; co_nextId := co_nextId c;
     co_pending := co_pending c; co_heap := co_heap c; co_subscriptions := co_subscriptions c;
     co_controlListeners := co_controlListeners c;
     co_notificationListeners := co_notificationListeners c; co_retryMs := co_retryMs c;
     co_lastInvalidAt := co_lastInvalidAt c; co_timer := timer; co_timers := timers;
     co_nextTimer := co_nextTimer c; co_stopped := co_stopped c; co_open := co_open c;
     co_accepted := co_accepted c; co_nextSession := co_nextSession c;
     co_reactions := co_reactions c |}.

Definition set_flags (stopped : bool) (accepted : list nat) : Conn :=
  {| co_socket := co_socket c; co_nextSocket := co_nextSocket c; co_nextId := co_nextId c;
     co_pending := co_pending c; co_heap := co_heap c; co_subscriptions := co_subscriptions c;
     co_controlListeners := co_controlListeners c;
     co_notificationListeners := co_notificationListeners c; co_retryMs := co_retryMs c;
     co_lastInvalidAt := co_lastInvalidAt c; co_timer := co_timer c; co_timers := co_timers c;
     co_nextTimer := co_nextTimer c; co_stopped := stopped; co_open := co_open c;
     co_accepted := accepted; co_nextSession := co_nextSession c; co_reactions := co_reactions c |}.

End Setters.

(** The fields of a new [StimConnection]. *)
Definition new_Conn : Conn :=
  {| co_socket := None; co_nextSocket := 0; co_nextId := 1; co_pending := []; co_heap := [];
     co_subscriptions := []; co_controlListeners := []; co_notificationListeners := [];
     co_retryMs := MIN_RETRY_MS; co_lastInvalidAt := None; co_timer := None; co_timers := [];
     co_nextTimer := 0; co_stopped := false; co_open := false; co_accepted := [];
     co_nextSession := 0; co_reactions := [] |}.

(** ** Subscriptions *)

Section Subs.
Variable s : Subscription.

Definition sub_link (serverId : option units) (video : option (nat * units)) : Subscription :=
  {| su_method := su_method s; su_params := su_params s; su_onSubscribed := su_onSubscribed s;
     su_onVideo := su_onVideo s; su_video := video; su_serverId := serverId;
     su_retryMs := su_retryMs s; su_retry := su_retry s |}.

Definition sub_retry (retryMs : Z) (retry : option nat) : Subscription :=
  {| su_method := su_method s; su_params := su_params s; su_onSubscribed := su_onSubscribed s;
     su_onVideo := su_onVideo s; su_video := su_video s; su_serverId := su_serverId s;
     su_retryMs := retryMs; su_retry := retry |}.

End Subs.

Definition with_sub (sub : nat) (k : Subscription → Act) : Act := ask (fun c =>
  match co_heap c !! sub with Some s => k s | None => skip end).

Definition set_sub (sub : nat) (s : Subscription) : Act :=
  update (fun c => set_subs c (<[sub := s]> (co_heap c)) (co_subscriptions c)).

(** [this.setTimer] and [this.clearTimer]. *)
Definition set_timer (kind : TimerKind) (ms : Z) (assign : nat → Act) : Act := ask (fun c =>
  let timer := co_nextTimer c in
  update (fun c => set_fresh c (co_nextSocket c) (co_nextId c) (S timer) (co_nextSession c)) ->>
  update (fun c => set_timers c (co_timer c) (co_timers c ++ [(timer, kind)])) ->>
  assign timer ->> emit (SetTimer timer ms)).

Definition clear_timer (timer : nat) : Act :=
  update (fun c => set_timers c (co_timer c)
                     (base.filter (fun t => fst t ≠ timer) (co_timers c))) ->>
  emit (ClearTimer timer).

Definition clear_own_timer : Act := ask (fun c =>
  match co_timer c with Some timer => clear_timer timer | None => skip end) ->>
  update (fun c => set_timers c None (co_timers c)).

Definition cancelRetry (sub : nat) : Act := with_sub sub (fun s =>
  match su_retry s with Some timer => clear_timer timer | None => skip end ->>
  with_sub sub (fun s => set_sub sub (sub_retry s (su_retryMs s) None))).

Definition endVideo (sub : nat) : Act := with_sub sub (fun s =>
  match su_video s with
  | None => skip
  | Some video =>
      set_sub sub (sub_link s (su_serverId s) None) ->>
      (if su_onVideo s then emit (OnVideo sub None) else skip) ->> emit (DisposeVideo video)
  end).

(** ** Requests *)

(** Settles the promise of a pending request: its reaction is queued. *)
Definition settle (p : Pending) (outcome : Rejection + json) : Act :=
  update (fun c => set_requests c (co_pending c)
    (co_reactions c ++ [{| re_id := pe_id p; re_waiter := pe_waiter p; re_outcome := outcome |}])).

Definition failPending (reason : units) : Act :=
  ask (fun c => each (co_pending c) (fun p => settle p (inl (PlainError reason)))) ->>
  update (fun c => set_requests c [] (co_reactions c)).

Definition detach (reason : units) : Act :=
  update (fun c => set_link c None false) ->>
  ask (fun c => each (co_subscriptions c) (fun sub =>
    with_sub sub (fun s => set_sub sub (sub_link s None (su_video s))) ->>
    cancelRetry sub ->> endVideo sub)) ->>
  failPending reason.

Definition scheduleRetry (reason : units) : Act := ask (fun c =>
  let delay := co_retryMs c in
  update (fun c => set_retry c (Z.min (co_retryMs c * 2) MAX_RETRY_MS) (co_lastInvalidAt c)) ->>
  emit (OnState (StateWaiting delay reason)) ->>
  set_timer TimerReconnect delay (fun timer =>
    update (fun c => set_timers c (Some timer) (co_timers c)))).

Definition connect : Act :=
  emit (OnState StateConnecting) ->>
  ask (fun c =>
    let socket := co_nextSocket c in
    emit (CreateSocket socket) ->>
    update (fun c => set_fresh c (S socket) (co_nextId c) (co_nextTimer c) (co_nextSession c)) ->>
    update (fun c => set_link c (Some socket) (co_open c))).

Section Protocol.
Context `{!NodeText}.

(** The validators of [receive-protocol.ts], and a socket's [send], which may throw. *)
Variable isRpcResult : units → json → bool.
Variable isRpcError : json → bool.
Variable isRpcEventName : units → bool.
Variable isRpcEvent : json → bool.
Variable send_error : nat → Z → option units.
Variable client : json.

Definition send (socket : nat) (method : units) (params : json) (waiter : Waiter) : Act :=
  ask (fun c =>
    let id := co_nextId c in
    let p := {| pe_id := id; pe_method := method; pe_waiter := waiter |} in
    update (fun c => set_fresh c (co_nextSocket c) (id + 1) (co_nextTimer c) (co_nextSession c)) ->>
    match send_error socket id with
    | None =>
        update (fun c => set_requests c (co_pending c ++ [p]) (co_reactions c)) ->>
        emit (SocketSend socket (JObject [(js "id", JNumber id); (js "method", JString method);
                                          (js "params", params)]))
    | Some message => settle p (inl (PlainError message))
    end).

(** [request], and the promise it rejects at once when there is no connection. *)
Definition request (method : units) (params : json) (waiter : Waiter) : Act := ask (fun c =>
  match co_open c, co_socket c with
  | true, Some socket => send socket method params waiter
  | _, _ =>
      match waiter with
      | WaitCaller => emit (Settled None (inl (PlainError (js "Not connected."))))
      | _ => skip
      end
  end).

Definition unsubscribe_params (serverId : units) : json :=
  JObject [(js "subscription", JString serverId)].

Definition sendSubscribe (socket sub : nat) (session : option nat) : Act := with_sub sub (fun s =>
  send socket (su_method s) (su_params s) (WaitSubscribe socket sub session)).

Definition result_subscription (result : json) : units :=
  match field "subscription" result with Some (JString id) => id | _ => [] end.

(** The two reactions of [sendSubscribe]. *)
Definition subscribed (socket sub : nat) (result : json) : Act := ask (fun c =>
  let id := result_subscription result in
  if bool_decide (sub ∈ co_subscriptions c) then
    with_sub sub (fun s => set_sub sub (sub_link s (Some id) (su_video s)) ->>
      (if su_onSubscribed s then emit (OnSubscribed sub result) else skip)) ->>
    endVideo sub ->>
    with_sub sub (fun s =>
      match field "video" result with
      | Some (JString v) =>
          if su_onVideo s && bool_decide (v = js "h264") then
            set_sub sub (sub_link (sub_retry s MIN_RETRY_MS (su_retry s)) (su_serverId s)
                           (Some (socket, id))) ->>
            emit (OnVideo sub (Some (socket, id)))
          else skip
      | _ => skip
      end)
  else request (js "unsubscribe") (unsubscribe_params id) WaitUnsubscribe).

Definition subscribe_failed (sub : nat) (session : option nat) (error : Rejection) : Act :=
  ask (fun c =>
    if match session with Some n => negb (bool_decide (n ∈ co_accepted c)) | None => false end
    then skip
    else emit (OnEvent sub (JObject
      [(js "event", JString (js "error"));
       (js "error", JObject [(js "code", JString (js "subscribe-failed"));
                             (js "message", JString (rejection_message error))])]))).

(** ** The session *)

Definition text_or_empty (v : option json) : units :=
  match v with Some (JString s) => s | _ => [] end.

Definition outdatedServer (hello : json) : option units :=
  let api := match field "phoneApi" hello with Some (JNumber n) => n | _ => 0 end in
  if PHONE_API <=? api then None
  else
    let server := field "server" hello in
    let mac := text_or_empty (server ≫= field "name") in
    let stim := text_or_empty (server ≫= field "stim") in
    let runs := mac ++ js " runs stim " ++ stim ++ js ". " in
    let desktop := js "Update Stim Desktop (Stim > Check for Updates)." in
    let owner := field "host" hello ≫= field "owner" in
    let owned name := match owner with Some (JString o) => bool_decide (o = js name) | _ => false end in
    Some (if owned "desktop" then runs ++ desktop
          else if owned "service"
          then runs ++ js "On " ++ mac ++ js ", run npm i -g stim@latest && stim service install."
          else if owned "cli"
          then runs ++ js "On " ++ mac ++ js ", run npm i -g stim@latest, then restart stim serve."
          else runs ++ desktop ++ js " If Stim Desktop is not installed on " ++ mac
               ++ js ", run npm i -g stim@latest && stim service install.").

Definition keyStorageProblem (event : SessionClose) : option units :=
  match sc_error event with
  | Some e =>
      if includes (js "client-key-unavailable") e
      then Some (js "This phone could not read its Stim key from secure storage. Unlock the phone and reopen Stim.")
      else None
  | None => None
  end.

Definition sessionRefusal (event : SessionClose) : option (units * units) :=
  if bool_decide (sc_error event = Some (js "server-key-mismatch"))
  then Some (js "server-key-mismatch",
             js "The machine's key does not match the pairing code or the key this phone paired with.")
  else if bool_decide (sc_reason event = Some (js "unknown-secret"))
  then Some (js "unknown-secret",
             js "This pairing code expired or was already used. Show a new one on the machine.")
  else if bool_decide (sc_reason event = Some (js "unauthorized"))
  then Some (js "unauthorized", js "The machine no longer knows this phone.")
  else if bool_decide (sc_reason event = Some (js "protocol-unsupported"))
  then Some (js "protocol-unsupported", js "The machine speaks a newer protocol. Update the app.")
  else None.

Definition LOST : units := js "Connection lost.".

Definition refuse_state (code reason : units) : Act :=
  update (fun c => set_flags c true (co_accepted c)) ->> emit (OnState (StateRefused code reason)).

Definition retry_unless_stopped (reason : units) : Act := ask (fun c =>
  if co_stopped c then skip else scheduleRetry reason).

(** [onopen]: [hello], and the first video subscriptions with it. *)
Definition on_open (socket : nat) : Act := ask (fun c =>
  if bool_decide (co_socket c = Some socket) then
    let session := co_nextSession c in
    let early := take MAX_EARLY_SUBSCRIPTIONS
      (List.filter (fun sub => match co_heap c !! sub with Some s => su_onVideo s | None => false end)
         (co_subscriptions c)) in
    update (fun c => set_fresh c (co_nextSocket c) (co_nextId c) (co_nextTimer c) (S session)) ->>
    send socket (js "hello") (JObject [(js "client", client)]) (WaitHello socket session early) ->>
    each early (fun sub => sendSubscribe socket sub (Some session))
  else skip).

Definition open_state (hello : json) : ConnectionState :=
  let known v := match v with JString a => bool_decide (a ∈ ACTIONS) | _ => false end in
  StateOpen (field "server" hello) (field "protocol" hello)
    (match field "actions" hello with Some (JArray l) => Some (List.filter known l) | _ => None end)
    (field "capabilities" hello)
    (Some (default (JArray []) (field "host" hello ≫= field "capabilities")))
    (field "device" hello ≫= field "id") (field "device" hello ≫= field "name").

Definition hello_accepted (now : Z) (socket session : nat) (early : list nat) (hello : json) : Act :=
  ask (fun c =>
    if negb (bool_decide (co_socket c = Some socket)) then skip
    else
      match outdatedServer hello with
      | Some outdated =>
          emit (ReportFailure (ConnectionFailure (js "refused:server-outdated"))) ->>
          detach outdated ->> emit (SocketClosed socket) ->>
          refuse_state (js "server-outdated") outdated
      | None =>
          update (fun c => set_flags c (co_stopped c) (session :: co_accepted c)) ->>
          update (fun c => set_link c (co_socket c) true) ->>
          (if match co_lastInvalidAt c with
              | Some at_ => INVALID_BACKOFF_MS <? now - at_
              | None => true
              end
           then update (fun c => set_retry c MIN_RETRY_MS (co_lastInvalidAt c)) else skip) ->>
          emit (OnState (open_state hello)) ->>
          ask (fun c => each (co_subscriptions c) (fun sub =>
            if bool_decide (sub ∈ early) then skip else sendSubscribe socket sub None))
      end).

Definition hello_rejected (socket : nat) (error : Rejection) : Act := ask (fun c =>
  if negb (bool_decide (co_socket c = Some socket)) then skip
  else
    match error with
    | RequestError code message =>
        if bool_decide (code ∈ REFUSAL_CODES) then
          emit (ReportFailure (ConnectionFailure (js "refused:" ++ safeName code))) ->>
          detach message ->> emit (SocketClosed socket) ->> refuse_state code message
        else
          emit (ReportFailure (ConnectionFailure (js "request-error:" ++ safeName code))) ->>
          detach LOST ->> emit (SocketClosed socket) ->> retry_unless_stopped LOST
    | PlainError _ => detach LOST ->> emit (SocketClosed socket) ->> retry_unless_stopped LOST
    end).

Definition on_close (socket : nat) (event : SessionClose) : Act := ask (fun c =>
  if negb (bool_decide (co_socket c = Some socket)) then skip
  else
    let lost := default LOST (keyStorageProblem event) in
    (match keyStorageProblem event with
     | Some _ => emit (ReportFailure (ConnectionFailure (js "key-storage")))
     | None => skip
     end) ->>
    match sessionRefusal event with
    | Some (code, reason) =>
        detach reason ->>
        emit (ReportFailure (ConnectionFailure (js "refused:" ++ safeName code))) ->>
        refuse_state code reason
    | None => detach lost ->> retry_unless_stopped lost
    end).

(** ** Messages *)

Definition close_socket (socket : option nat) : Act :=
  match socket with Some s => emit (SocketClosed s) | None => skip end.

Definition invalidMessage (now : Z) : Act :=
  update (fun c => set_retry c (co_retryMs c) (Some now)) ->>
  ask (fun c =>
    let reason := js "The machine sent an invalid RPC message. Reconnecting." in
    detach reason ->> close_socket (co_socket c) ->> retry_unless_stopped reason).

Definition resubscribeLater (sub : nat) : Act := ask (fun c =>
  let socket := co_socket c in
  with_sub sub (fun s =>
    let delay := su_retryMs s in
    set_sub sub (sub_link s None (su_video s)) ->>
    endVideo sub ->>
    with_sub sub (fun s =>
      set_sub sub (sub_retry s (Z.min (su_retryMs s * 2) MAX_RETRY_MS) (su_retry s))) ->>
    set_timer (TimerSubscribe socket sub) delay (fun timer =>
      with_sub sub (fun s => set_sub sub (sub_retry s (su_retryMs s) (Some timer)))))).

Definition remove_pending (id : Z) : Act :=
  update (fun c => set_requests c (base.filter (fun p => pe_id p ≠ id) (co_pending c))
                     (co_reactions c)).

Definition rpc_error (error : json) : Rejection :=
  RequestError (text_or_empty (field "code" error)) (text_or_empty (field "message" error)).

Definition response_stage (result error : option json) : FailureStage :=
  match result, error with
  | Some _, None => AtResult
  | None, Some _ => AtError
  | _, _ => AtEnvelope
  end.

Definition receive_response (now : Z) (p : Pending) (message : json) : Act :=
  remove_pending (pe_id p) ->>
  let result := field "result" message in
  let error := field "error" message in
  let invalid :=
    emit (ReportFailure (RpcFailure (response_stage result error) (pe_method p))) ->>
    settle p (inl (PlainError (js "The machine sent an invalid RPC response."))) ->>
    invalidMessage now in
  match error, result with
  | Some e, None => if isRpcError e then settle p (inl (rpc_error e)) else invalid
  | None, Some r => if isRpcResult (pe_method p) r then settle p (inr r) else invalid
  | _, _ => invalid
  end.

(** The subscriptions an event is for. *)
Definition deliver (event : units) (message : json) (sub : nat) : Act := with_sub sub (fun s =>
  match su_serverId s, field "subscription" message with
  | Some id, Some (JString target) =>
      if bool_decide (id = target) then
        (if bool_decide (event = js "error") then resubscribeLater sub
         else with_sub sub (fun s => set_sub sub (sub_retry s MIN_RETRY_MS (su_retry s)))) ->>
        emit (OnEvent sub message)
      else skip
  | _, _ => skip
  end).

Definition known_subscription (c : Conn) (message : json) : bool :=
  match field "subscription" message with
  | Some (JString target) =>
      existsb (fun sub => bool_decide ((co_heap c !! sub ≫= su_serverId) = Some target))
        (co_subscriptions c)
  | _ => true
  end.

Definition receive_event (now : Z) (message : json) : Act := ask (fun c =>
  match field "event" message with
  | Some (JString event) =>
      if negb (isRpcEventName event) || negb (known_subscription c message) then skip
      else if negb (isRpcEvent message)
      then emit (ReportFailure (RpcFailure AtEvent event)) ->> invalidMessage now
      else if bool_decide (event = js "control-ended")
      then each (co_controlListeners c) (fun l => emit (OnControlEnded l message))
      else if bool_decide (event = js "notification")
      then each (co_notificationListeners c) (fun l => emit (OnNotification l message))
      else each (co_subscriptions c) (deliver event message)
  | _ => skip
  end).

Definition find_pending (id : json) (c : Conn) : option Pending :=
  match id with
  | JNumber n => find (fun p => bool_decide (pe_id p = n)) (co_pending c)
  | _ => None
  end.

Definition receive (now : Z) (text : units) : Act :=
  match JSON_parse text with
  | None => emit (ReportFailure (RpcFailure AtParse (js "message"))) ->> invalidMessage now
  | Some (JObject _ as message) =>
      match field "id" message with
      | Some id => ask (fun c =>
          match find_pending id c with
          | None => skip
          | Some p => receive_response now p message
          end)
      | None => receive_event now message
      end
  | Some _ => emit (ReportFailure (RpcFailure AtEnvelope (js "message"))) ->> invalidMessage now
  end.

Definition on_message (now : Z) (socket : nat) (text : units) : Act := ask (fun c =>
  if bool_decide (co_socket c = Some socket) then receive now text else skip).

(** ** Entries *)

Definition start : Act := update (fun c => set_flags c false (co_accepted c)) ->> connect.

Definition retryNow : Act := ask (fun c =>
  if co_stopped c then skip
  else match co_timer c with None => skip | Some _ => clear_own_timer ->> connect end).

Definition reconnect : Act := ask (fun c =>
  if co_stopped c then skip
  else clear_own_timer ->> detach (js "Reconnecting.") ->> close_socket (co_socket c) ->> connect).

Definition close : Act :=
  update (fun c => set_flags c true (co_accepted c)) ->> clear_own_timer ->>
  ask (fun c => each (co_subscriptions c) cancelRetry ->> close_socket (co_socket c)) ->>
  update (fun c => set_link c None (co_open c)) ->>
  failPending (js "Connection closed.") ->> emit (OnState StateClosed).

Definition subscribe (method : units) (params : json) (onSubscribed onVideo : bool) : Act :=
  ask (fun c =>
    let sub := length (co_heap c) in
    update (fun c => set_subs c
      (co_heap c ++ [{| su_method := method; su_params := params; su_onSubscribed := onSubscribed;
                        su_onVideo := onVideo; su_video := None; su_serverId := None;
                        su_retryMs := MIN_RETRY_MS; su_retry := None |}])
      (co_subscriptions c ++ [sub])) ->>
    match co_open c, co_socket c with
    | true, Some socket => sendSubscribe socket sub None
    | _, _ => skip
    end).

Definition unsubscribe (sub : nat) : Act :=
  update (fun c => set_subs c (co_heap c) (base.filter (fun x => x ≠ sub) (co_subscriptions c))) ->>
  cancelRetry sub ->> endVideo sub ->>
  with_sub sub (fun s => ask (fun c =>
    match non_empty (su_serverId s) with
    | Some id => if co_open c then request (js "unsubscribe") (unsubscribe_params id) WaitUnsubscribe
                 else skip
    | None => skip
    end)).

(** A listener is added, and removed by the function that adding it returned. *)
Definition listen (listener : nat) (on : bool) (l : list nat) : list nat :=
  if on then if bool_decide (listener ∈ l) then l else l ++ [listener]
  else base.filter (fun x => x ≠ listener) l.

Definition onControlEnded (listener : nat) (on : bool) : Act := update (fun c =>
  set_listeners c (listen listener on (co_controlListeners c)) (co_notificationListeners c)).

Definition onNotification (listener : nat) (on : bool) : Act := update (fun c =>
  set_listeners c (co_controlListeners c) (listen listener on (co_notificationListeners c))).

(** A timer that fires is no longer set. *)
Definition timer_fires (timer : nat) : Act := ask (fun c =>
  match find (fun t => bool_decide (fst t = timer)) (co_timers c) with
  | None => skip
  | Some (_, kind) =>
      update (fun c => set_timers c (co_timer c)
                         (base.filter (fun t => fst t ≠ timer) (co_timers c))) ->>
      match kind with
      | TimerReconnect =>
          update (fun c => set_timers c None (co_timers c)) ->>
          ask (fun c => if co_stopped c then skip else connect)
      | TimerSubscribe socket sub =>
          with_sub sub (fun s => set_sub sub (sub_retry s (su_retryMs s) None)) ->>
          ask (fun c =>
            match socket with
            | Some s =>
                if bool_decide (co_socket c = Some s) && co_open c
                   && bool_decide (sub ∈ co_subscriptions c)
                then sendSubscribe s sub None else skip
            | None => skip
            end)
      end
  end).

(** The first queued reaction runs. *)
Definition react (now : Z) : Act := ask (fun c =>
  match co_reactions c with
  | [] => skip
  | r :: rest =>
      update (fun c => set_requests c (co_pending c) rest) ->>
      match re_waiter r, re_outcome r with
      | WaitHello socket session early, inr hello => hello_accepted now socket session early hello
      | WaitHello socket _ _, inl error => hello_rejected socket error
      | WaitSubscribe socket sub _, inr result => subscribed socket sub result
      | WaitSubscribe _ sub session, inl error => subscribe_failed sub session error
      | WaitUnsubscribe, _ => skip
      | WaitCaller, outcome => emit (Settled (Some (re_id r)) outcome)
      end
  end).

(** Everything that can happen to a connection once it started. *)
Inductive Op :=
| OpRetryNow | OpReconnect | OpClose
| OpRequest (method : units) (params : json)
| OpSubscribe (method : units) (params : json) (onSubscribed onVideo : bool)
| OpUnsubscribe (sub : nat)
| OpControlListener (listener : nat) (on : bool)
| OpNotificationListener (listener : nat) (on : bool)
| OpSocketOpen (socket : nat)
| OpSocketMessage (now : Z) (socket : nat) (text : units)
| OpSocketClose (socket : nat) (event : SessionClose)
| OpTimer (timer : nat)
| OpReact (now : Z).

Definition perform (op : Op) : Act :=
  match op with
  | OpRetryNow => retryNow
  | OpReconnect => reconnect
  | OpClose => close
  | OpRequest method params => request method params WaitCaller
  | OpSubscribe method params onSubscribed onVideo => subscribe method params onSubscribed onVideo
  | OpUnsubscribe sub => unsubscribe sub
  | OpControlListener listener on => onControlEnded listener on
  | OpNotificationListener listener on => onNotification listener on
  | OpSocketOpen socket => on_open socket
  | OpSocketMessage now socket text => on_message now socket text
  | OpSocketClose socket event => on_close socket event
  | OpTimer timer => timer_fires timer
  | OpReact now => react now
  end.

(** A started connection through a series of operations. *)
Definition run (ops : list Op) : Conn * list Effect := (start ->> each ops perform) new_Conn.

(** ** Pairing

    [pair] as the handlers of its socket and its timeout. *)

Record Paired := { pd_serverKey : units; pd_serverName : units; pd_serverId : option units }.

Record Pairing := {
  pr_done : bool;
  pr_serverKey : option units;
  pr_outcome : option (Rejection + Paired);
}.

Inductive PairEffect :=
| PairSetTimeout (ms : Z)
| PairClearTimeout
| PairSend (message : json)
| PairClose
| PairReport (failure : Failure)
| PairUncaught (message : units).

Definition PAIRING_TIMEOUT_MS : Z := 15000.

Definition pair : Pairing * list PairEffect :=
  ({| pr_done := false; pr_serverKey := None; pr_outcome := None |},
   [PairSetTimeout PAIRING_TIMEOUT_MS]).

(** [finish] with what it settles the promise with and what that reports. *)
Definition finish (p : Pairing) (reports : list Failure) (outcome : Rejection + Paired) :
    Pairing * list PairEffect :=
  if pr_done p then (p, [])
  else ({| pr_done := true; pr_serverKey := pr_serverKey p; pr_outcome := Some outcome |},
        [PairClearTimeout; PairClose] ++ map PairReport reports).

Definition pair_fail (p : Pairing) (errorClass : units) (error : Rejection) :
    Pairing * list PairEffect := finish p [PairingFailure errorClass] (inl error).

Definition unreachable (endpoint : units) : Rejection :=
  PlainError (js "Cannot reach " ++ endpoint
              ++ js ". Check that Tailscale is connected on this phone.").

Definition INVALID_PAIRING : Rejection :=
  PlainError (js "The machine sent an invalid pairing response.").

Definition pair_on_timeout (endpoint : units) (p : Pairing) : Pairing * list PairEffect :=
  pair_fail p (js "timeout") (unreachable endpoint).

(** The handler of [onopen] assigns the key before [send], which may throw. *)
Definition pair_on_open (key : units) (thrown : option units) (p : Pairing) :
    Pairing * list PairEffect :=
  ({| pr_done := pr_done p; pr_serverKey := Some key; pr_outcome := pr_outcome p |},
   match thrown with
   | None => [PairSend (JObject [(js "id", JNumber 1); (js "method", JString (js "hello"));
                                 (js "params", JObject [(js "client", client)])])]
   | Some message => [PairUncaught message]
   end).

(** What the answer to [hello] settles the promise with. A result that is not there is not valid. *)
Definition pair_answer (serverKey : option units) (message : json) :
    list Failure * (Rejection + Paired) :=
  let result := field "result" message in
  let error := field "error" message in
  let invalid := ([RpcFailure (response_stage result error) (js "hello");
                   PairingFailure (js "invalid-response")], inl INVALID_PAIRING) in
  let answered :=
    match error, result, non_empty serverKey with
    | None, Some r, Some key =>
        if isRpcResult (js "hello") r then
          let server := field "server" r in
          ([], inr {| pd_serverKey := key;
                      pd_serverName := text_or_empty (server ≫= field "name");
                      pd_serverId := non_empty (Some (text_or_empty (server ≫= field "id"))) |})
        else invalid
    | _, _, _ => invalid
    end in
  match error, result with
  | Some e, None =>
      if isRpcError e then
        ([PairingFailure (js "request-error:" ++ safeName (text_or_empty (field "code" e)))],
         inl (rpc_error e))
      else answered
  | _, _ => answered
  end.

Definition pair_on_message (text : units) (p : Pairing) : Pairing * list PairEffect :=
  match JSON_parse text with
  | None => pair_fail p (js "invalid-response") INVALID_PAIRING
  | Some (JObject _ as message) =>
      match field "id" message with
      | Some (JNumber 1) =>
          let '(reports, outcome) := pair_answer (pr_serverKey p) message in finish p reports outcome
      | _ => (p, [])
      end
  | Some _ => (p, [])
  end.

Definition pair_on_close (endpoint : units) (event : SessionClose) (p : Pairing) :
    Pairing * list PairEffect :=
  match sessionRefusal event, keyStorageProblem event with
  | Some (code, reason), _ => pair_fail p (js "refused:" ++ code) (PlainError reason)
  | None, Some problem => pair_fail p (js "key-storage") (PlainError problem)
  | None, None => pair_fail p (js "closed") (unreachable endpoint)
  end.

Inductive PairEvent :=
| PairTimeout
| PairOpen (key : units) (thrown : option units)
| PairMessage (text : units)
| PairClosed (event : SessionClose).

Definition pair_event (endpoint : units) (e : PairEvent) : Pairing → Pairing * list PairEffect :=
  match e with
  | PairTimeout => pair_on_timeout endpoint
  | PairOpen key thrown => pair_on_open key thrown
  | PairMessage text => pair_on_message text
  | PairClosed event => pair_on_close endpoint event
  end.

Fixpoint pair_run (endpoint : units) (events : list PairEvent) (p : Pairing) :
    Pairing * list PairEffect :=
  match events with
  | [] => (p, [])
  | e :: events =>
      let '(p, effects) := pair_event endpoint e p in
      let '(p, rest) := pair_run endpoint events p in (p, effects ++ rest)
  end.

End Protocol.
