(* ===== verification/ConnectionFacts.v ===== *)
(** * A connection never gets stuck and never doubles

    Whatever happens to a started connection, in whatever order, it is on a socket or waiting for a
    retry unless it stopped, a lost socket leaves no request pending, and it never holds two
    sockets. *)

From Stdlib Require Import ZArith Lia.
From S2P Require Import Prelude.
From S2P Require Import Bytes.
From S2P Require Import Json.
From S2P Require Import Connection.
Open Scope Z_scope.
Open Scope stim_scope.

(** ** What every step keeps *)

Definition delay_ok (ms : Z) : Prop := MIN_RETRY_MS <= ms <= MAX_RETRY_MS.

Definition sub_ok (c : Conn) (s : Subscription) : Prop :=
  delay_ok (su_retryMs s) ∧
  ∀ t, su_retry s = Some t → (t < co_nextTimer c)%nat ∧ co_timer c ≠ Some t.

Record Base (c : Conn) : Prop := {
  ba_reconnect : ∀ t, (t, TimerReconnect) ∈ co_timers c ↔ co_timer c = Some t;
  ba_nodup : NoDup (fst <$> co_timers c);
  ba_fresh : Forall (fun t => (fst t < co_nextTimer c)%nat) (co_timers c);
  ba_subs : Forall (sub_ok c) (co_heap c);
  ba_retry : delay_ok (co_retryMs c);
}.

(** An effect that opens or closes no socket. *)
Definition quiet (e : Effect) : Prop :=
  match e with CreateSocket _ | SocketClosed _ => False | _ => True end.

(** The state is the same as far as the link is concerned. *)
Definition same_link (c c' : Conn) : Prop :=
  co_socket c' = co_socket c ∧ co_timer c' = co_timer c ∧ co_stopped c' = co_stopped c ∧
  (co_socket c = None → co_pending c = [] → co_pending c' = []).

Definition guard (connected : bool) (c : Conn) : Prop := connected = true → is_Some (co_socket c).

(** An action that keeps the base and the link at a state, and from every state, one with a
    socket when [connected]. *)
Definition ok_at (c : Conn) (a : Act) : Prop :=
  Base (fst (a c)) ∧ same_link c (fst (a c)) ∧ Forall quiet (snd (a c)).

Definition keeps (connected : bool) (a : Act) : Prop := ∀ c, Base c → guard connected c → ok_at c a.

Lemma keeps_weaken a b : keeps false a → keeps b a.
Proof. intros Ha c Hc _. by apply Ha. Qed.

Lemma same_link_trans c1 c2 c3 : same_link c1 c2 → same_link c2 c3 → same_link c1 c3.
Proof.
  intros (S1 & T1 & P1 & Q1) (S2 & T2 & P2 & Q2). split_and!; [congruence..|].
  intros Hs Hp. apply Q2; [congruence|auto].
Qed.

Lemma keeps_skip b : keeps b skip.
Proof. intros c Hc _. repeat split; try apply Hc; try done; cbn; auto. Qed.

Lemma keeps_emit b e : quiet e → keeps b (emit e).
Proof. intros He c Hc _. split; [done|]. split; [by repeat split|]. by repeat constructor. Qed.

Lemma ok_then b c a1 a2 : guard b c → ok_at c a1 → keeps b a2 → ok_at c (a1 ->> a2).
Proof.
  intros Hg (Hb & Hl & Hq) H2. unfold ok_at, andThen. destruct (a1 c) as [c1 e1]. cbn in *.
  destruct (H2 c1 Hb) as (Hb' & Hl' & Hq').
  { intros Hb'. destruct Hl as [-> _]. by apply Hg. }
  destruct (a2 c1) as [c2 e2]. cbn in *.
  split; [done|]. split; [by eapply same_link_trans|by apply Forall_app].
Qed.

Lemma keeps_then b a1 a2 : keeps b a1 → keeps b a2 → keeps b (a1 ->> a2).
Proof. intros H1 H2 c Hc Hg. eapply ok_then; [exact Hg|by apply H1|done]. Qed.

Lemma keeps_ask b (k : Conn → Act) : (∀ c, keeps b (k c)) → keeps b (ask k).
Proof. intros Hk c Hc Hg. by apply (Hk c). Qed.

(** The state asked for may be used where it is the one acted on. *)
Lemma keeps_ask_here b (k : Conn → Act) :
  (∀ c, Base c → guard b c → ok_at c (k c)) → keeps b (ask k).
Proof. intros Hk c Hc Hg. by apply Hk. Qed.

Lemma keeps_each b {A} (l : list A) f : (∀ x, x ∈ l → keeps b (f x)) → keeps b (each l f).
Proof.
  induction l as [|x l IH]; intros Hf; cbn [each]; [apply keeps_skip|].
  apply keeps_then; [apply Hf; left|]. apply IH. intros y Hy. apply Hf. by right.
Qed.

Create HintDb keeps.
#[export] Hint Resolve keeps_skip keeps_then keeps_ask keeps_each : keeps.
#[export] Hint Extern 1 (keeps _ (emit _)) => apply keeps_emit; exact I : keeps.
#[export] Hint Extern 2 (keeps true _) => apply keeps_weaken : keeps.

(** An update that leaves alone the fields the base and the link read. *)
Lemma keeps_update b f :
  (∀ c, co_timers (f c) = co_timers c ∧ co_timer (f c) = co_timer c ∧
        co_nextTimer (f c) = co_nextTimer c ∧ co_heap (f c) = co_heap c ∧
        co_retryMs (f c) = co_retryMs c ∧ same_link c (f c)) → keeps b (update f).
Proof.
  intros Hf c [Hr Hn Hfr Hs Hre] _. destruct (Hf c) as (E1 & E2 & E3 & E4 & E5 & Hl).
  split; [|split; [done|by constructor]]. cbn. constructor.
  - by rewrite E1, E2.
  - by rewrite E1.
  - by rewrite E1, E3.
  - rewrite E4. unfold sub_ok. rewrite E2, E3. done.
  - by rewrite E5.
Qed.

(** ** Subscriptions and timers *)

Lemma keeps_with_sub b sub k :
  (∀ c s, Base c → guard b c → co_heap c !! sub = Some s → ok_at c (k s)) →
  keeps b (with_sub sub k).
Proof.
  intros Hk. apply keeps_ask_here. intros c Hc Hg.
  destruct (co_heap c !! sub) as [s|] eqn:Hs; [by apply Hk|by apply (keeps_skip b)].
Qed.

Lemma keeps_with_sub_any b sub k : (∀ s, keeps b (k s)) → keeps b (with_sub sub k).
Proof. intros Hk. apply keeps_with_sub. intros c s Hc Hg _. by apply Hk. Qed.

(** Storing a subscription that the base accepts. *)
Lemma set_sub_keeps sub s c :
  Base c → sub_ok c s → ok_at c (set_sub sub s).
Proof.
  intros [Hr Hn Hf Hs Hre] Hok. split; [|split; [by repeat split|constructor]].
  constructor; try done. cbn. apply Forall_insert; [exact Hs|exact Hok].
Qed.

Lemma heap_sub_ok c sub s : Base c → co_heap c !! sub = Some s → sub_ok c s.
Proof. intros Hc Hs. eapply Forall_lookup_1; [apply ba_subs, Hc|exact Hs]. Qed.

(** The same, for a change of the stored subscription. *)
Lemma keeps_set_sub b sub f :
  (∀ c s, sub_ok c s → sub_ok c (f s)) → keeps b (with_sub sub (fun s => set_sub sub (f s))).
Proof.
  intros Hf. apply keeps_with_sub. intros c s Hc _ Hs. apply set_sub_keeps; [done|].
  by apply Hf, (heap_sub_ok c sub).
Qed.

Lemma NoDup_fmap_fst_inj {A B} (l : list (A * B)) x y :
  NoDup (fst <$> l) → x ∈ l → y ∈ l → fst x = fst y → x = y.
Proof.
  induction l as [|z l IH]; cbn; [by intros _ ?%elem_of_nil|].
  intros [Hz Hn]%NoDup_cons [->|Hx]%elem_of_cons [->|Hy]%elem_of_cons E; [done| | |by apply IH].
  - destruct Hz. rewrite E. by apply list_elem_of_fmap_2.
  - destruct Hz. rewrite <- E. by apply list_elem_of_fmap_2.
Qed.

Lemma base_filter_timers c t :
  Base c → co_timer c ≠ Some t →
  Base (set_timers c (co_timer c) (base.filter (fun x => fst x ≠ t) (co_timers c))).
Proof.
  intros [Hr Hn Hf Hs Hre] Ht. constructor; cbn; try done.
  - intros u. rewrite list_elem_of_filter, Hr. split; [tauto|]. intros Hu. split; [|done].
    cbn. intros ->. congruence.
  - eapply sublist_NoDup; [exact Hn|]. apply fmap_sublist, sublist_filter.
  - apply Forall_forall. intros x [_ Hx]%list_elem_of_filter.
    rewrite Forall_forall in Hf. by apply Hf.
Qed.

Lemma clear_timer_keeps t c :
  Base c → co_timer c ≠ Some t → ok_at c (clear_timer t).
Proof.
  intros Hc Ht. split; [by apply base_filter_timers|]. split; [by repeat split|by repeat constructor].
Qed.


Lemma sub_ok_link c s serverId video : sub_ok c s → sub_ok c (sub_link s serverId video).
Proof. done. Qed.

Lemma sub_ok_retry c s ms :
  delay_ok ms → sub_ok c s → sub_ok c (sub_retry s ms (su_retry s)).
Proof. intros Hms [_ Ht]. by split. Qed.

Lemma delay_min : delay_ok MIN_RETRY_MS.
Proof. unfold delay_ok, MIN_RETRY_MS, MAX_RETRY_MS. lia. Qed.

Lemma delay_doubled ms : delay_ok ms → delay_ok (Z.min (ms * 2) MAX_RETRY_MS).
Proof. unfold delay_ok, MIN_RETRY_MS, MAX_RETRY_MS. lia. Qed.

Lemma cancelRetry_keeps b sub : keeps b (cancelRetry sub).
Proof.
  apply keeps_with_sub. intros c s Hc Hg Hs.
  assert (Hset : keeps b (with_sub sub (fun s => set_sub sub (sub_retry s (su_retryMs s) None)))).
  { apply keeps_set_sub. intros c' s' [Hms _]. by split. }
  eapply ok_then; [exact Hg| |exact Hset].
  destruct (su_retry s) as [t|] eqn:Ht; [|by apply (keeps_skip b)].
  apply clear_timer_keeps; [done|]. by apply (heap_sub_ok c sub s Hc Hs).
Qed.

Lemma endVideo_keeps b sub : keeps b (endVideo sub).
Proof.
  apply keeps_with_sub. intros c s Hc Hg Hs. destruct (su_video s); [|by apply (keeps_skip b)].
  eapply ok_then; [exact Hg| |].
  - apply set_sub_keeps; [done|]. exact (heap_sub_ok c sub s Hc Hs).
  - destruct (su_onVideo s); auto with keeps.
Qed.

#[export] Hint Resolve cancelRetry_keeps endVideo_keeps : keeps.

(** The state in which a new timer is assigned. *)
Definition timed (kind : TimerKind) (c : Conn) : Conn :=
  set_timers (set_fresh c (co_nextSocket c) (co_nextId c) (S (co_nextTimer c)) (co_nextSession c))
    (co_timer c) (co_timers c ++ [(co_nextTimer c, kind)]).

Lemma set_timer_at kind ms assign c :
  set_timer kind ms assign c =
    let '(c', e) := assign (co_nextTimer c) (timed kind c) in (c', e ++ [SetTimer (co_nextTimer c) ms]).
Proof.
  unfold set_timer, ask, andThen, update, emit. cbn.
  change (set_timers _ _ _) with (timed kind c). by destruct (assign _ _).
Qed.

(** A timer for a subscription. *)
Lemma set_timer_sub_keeps b socket sub ms :
  keeps b (set_timer (TimerSubscribe socket sub) ms (fun timer =>
    with_sub sub (fun s => set_sub sub (sub_retry s (su_retryMs s) (Some timer))))).
Proof.
  apply keeps_ask_here. intros c Hc Hg. set (t := co_nextTimer c).
  set (c1 := timed (TimerSubscribe socket sub) c).
  destruct Hc as [Hr Hn Hf Hs Hre].
  assert (Hnt : co_timer c ≠ Some t).
  { intros E. apply Hr in E. rewrite Forall_forall in Hf. apply Hf in E. cbn in E. lia. }
  assert (Hb1 : Base c1).
  { constructor; cbn; [| | | |done].
    - intros u. rewrite elem_of_app, list_elem_of_singleton, Hr. naive_solver.
    - rewrite fmap_app. apply NoDup_app. split; [done|]. split; [|apply NoDup_singleton].
      intros x (e & -> & He)%list_elem_of_fmap Hx. apply list_elem_of_singleton in Hx.
      rewrite Forall_forall in Hf. apply Hf in He. cbn in Hx. lia.
    - apply Forall_app. split; [eapply Forall_impl; [exact Hf|]; cbn; lia|]. repeat constructor.
    - eapply Forall_impl; [exact Hs|]. intros s [Hms Ht]. split; [done|]. cbn.
      intros u Hu. destruct (Ht u Hu). split; [lia|done]. }
  assert (Hset : ok_at c1 (with_sub sub (fun s => set_sub sub (sub_retry s (su_retryMs s) (Some t))))).
  { unfold ok_at, with_sub, ask. destruct (co_heap c1 !! sub) as [s|] eqn:Hsub; [|by apply (keeps_skip false)].
    apply set_sub_keeps; [done|]. destruct (heap_sub_ok c1 sub s Hb1 Hsub) as [Hms _].
    split; [done|]. cbn. intros u [= <-]. split; [lia|done]. }
  change (ok_at c (set_timer (TimerSubscribe socket sub) ms (fun timer =>
    with_sub sub (fun s => set_sub sub (sub_retry s (su_retryMs s) (Some timer)))))).
  unfold ok_at. rewrite set_timer_at. fold t c1.
  destruct Hset as (Hb2 & Hl2 & Hq2). destruct (with_sub _ _ c1) as [c2 e2]. cbn in *.
  split; [done|]. split; [exact Hl2|]. apply Forall_app. split; [done|by repeat constructor].
Qed.

Lemma resubscribeLater_keeps b sub : keeps b (resubscribeLater sub).
Proof.
  apply keeps_ask. intros c0. apply keeps_with_sub. intros c s Hc Hg Hs. cbv zeta.
  eapply ok_then; [exact Hg| |].
  - apply set_sub_keeps; [done|]. exact (heap_sub_ok c sub s Hc Hs).
  - apply keeps_then; [apply endVideo_keeps|]. apply keeps_then; [|apply set_timer_sub_keeps].
    apply (keeps_set_sub b sub (fun s => sub_retry s (Z.min (su_retryMs s * 2) MAX_RETRY_MS) (su_retry s))).
    intros c' s' Hok. apply sub_ok_retry; [|done]. apply delay_doubled, Hok.
Qed.

(** ** Requests *)

Lemma settle_keeps b p outcome : keeps b (settle p outcome).
Proof. apply keeps_update. intros c. by repeat split. Qed.

Lemma remove_pending_keeps b id : keeps b (remove_pending id).
Proof.
  apply keeps_update. intros c. split_and!; try done. split_and!; try done.
  intros _ Hp. cbn. by rewrite Hp.
Qed.

Lemma failPending_keeps b reason : keeps b (failPending reason).
Proof.
  apply keeps_then; [apply keeps_ask; intros c; apply keeps_each; intros; apply settle_keeps|].
  apply keeps_update. intros c. by repeat split.
Qed.

Lemma failPending_clears reason c : co_pending (fst (failPending reason c)) = [].
Proof.
  unfold failPending, andThen. by destruct (ask _ c) as [c1 e1].
Qed.

#[export] Hint Resolve resubscribeLater_keeps settle_keeps remove_pending_keeps failPending_keeps : keeps.

(** ** Losing and making a link *)

(** The sockets that were made and neither closed nor reported closed. *)
Definition track (effects : list Effect) (live : list nat) : list nat :=
  fold_left (fun live e =>
    match e with
    | CreateSocket s => s :: live
    | SocketClosed s => base.filter (fun x => x ≠ s) live
    | _ => live
    end) effects live.

Lemma track_app e1 e2 live : track (e1 ++ e2) live = track e2 (track e1 live).
Proof. apply fold_left_app. Qed.

Lemma track_quiet effects live : Forall quiet effects → track effects live = live.
Proof. induction 1 as [|e l He Hl IH]; [done|]. destruct e; done. Qed.

(** An action takes states and live sockets of one kind to another. *)
Definition from (P : Conn → list nat → Prop) (a : Act) (Q : Conn → list nat → Prop) : Prop :=
  ∀ c live, P c live → Q (fst (a c)) (track (snd (a c)) live).

Lemma from_then P Q R a1 a2 : from P a1 Q → from Q a2 R → from P (a1 ->> a2) R.
Proof.
  intros H1 H2 c live Hp. specialize (H1 c live Hp). unfold andThen.
  destruct (a1 c) as [c1 e1]. cbn in H1. specialize (H2 c1 _ H1).
  destruct (a2 c1) as [c2 e2]. cbn in *. by rewrite track_app.
Qed.

Lemma from_ask P Q k : (∀ c0, from (fun c live => c = c0 ∧ P c live) (k c0) Q) → from P (ask k) Q.
Proof. intros Hk c live Hp. by apply (Hk c). Qed.

Lemma from_ask_any P Q k : (∀ c0, from P (k c0) Q) → from P (ask k) Q.
Proof. intros Hk c live Hp. by apply (Hk c). Qed.

Lemma from_emit P e : quiet e → from P (emit e) P.
Proof. intros He c live Hp. cbn [emit fst snd]. rewrite (track_quiet [e]); [done|]. by constructor. Qed.

Lemma from_skip P : from P skip P.
Proof. by intros c live Hp. Qed.

(** The link is [os], which no timer waits for. *)
Definition Linked (os : option nat) (stopped : bool) (c : Conn) (live : list nat) : Prop :=
  Base c ∧ co_timer c = None ∧ co_stopped c = stopped ∧ co_socket c = os ∧
  ∀ s, s ∈ live → os = Some s.

(** There is no link, no timer and no request; only [os] may still be open. *)
Definition Detached (os : option nat) (stopped : bool) (c : Conn) (live : list nat) : Prop :=
  Base c ∧ co_timer c = None ∧ co_stopped c = stopped ∧ co_socket c = None ∧ co_pending c = [] ∧
  ∀ s, s ∈ live → os = Some s.

(** What holds between operations. *)
Definition Status (c : Conn) : Prop :=
  if co_stopped c then co_socket c = None ∧ co_timer c = None
  else (is_Some (co_socket c) ∧ co_timer c = None) ∨ (co_socket c = None ∧ is_Some (co_timer c)).

Definition Good (c : Conn) (live : list nat) : Prop :=
  Base c ∧ (co_socket c = None → co_pending c = []) ∧ Status c ∧
  ∀ s, s ∈ live → co_socket c = Some s.

Lemma from_keeps b (P : Conn → list nat → Prop) a :
  (∀ c live, P c live → Good c live ∧ guard b c) → keeps b a → from P a Good.
Proof.
  intros HP Ha c live [(Hb & Hp & Hs & Hl) Hg]%HP.
  destruct (Ha c Hb Hg) as (Hb' & (S1 & T1 & P1 & Q1) & Hq).
  rewrite track_quiet by done. unfold Good, Status in *. rewrite S1, T1, P1. split_and!; auto.
Qed.

Lemma from_keeps_good a : keeps false a → from Good a Good.
Proof. by apply from_keeps. Qed.

Lemma from_keeps_linked a os st : keeps false a → from (Linked os st) a (Linked os st).
Proof.
  intros Ha c live (Hb & Ht & Hst & Hs & Hl).
  destruct (Ha c Hb) as (Hb' & (S1 & T1 & P1 & Q1) & Hq); [done|].
  rewrite track_quiet by done. unfold Linked. rewrite S1, T1, P1. split_and!; auto.
Qed.

Lemma from_keeps_detached a os st : keeps false a → from (Detached os st) a (Detached os st).
Proof.
  intros Ha c live (Hb & Ht & Hst & Hs & Hp & Hl).
  destruct (Ha c Hb) as (Hb' & (S1 & T1 & P1 & Q1) & Hq); [done|].
  rewrite track_quiet by done. unfold Detached. rewrite S1, T1, P1. split_and!; auto.
Qed.

Lemma from_failPending os st reason :
  from (fun c live => Linked None st c [] ∧ ∀ s, s ∈ live → os = Some s) (failPending reason)
    (Detached os st).
Proof.
  intros c live [(Hb & Ht & Hst & Hs & _) Hl].
  destruct (failPending_keeps false reason c Hb) as (Hb' & (S1 & T1 & P1 & Q1) & Hq); [done|].
  rewrite track_quiet by done. unfold Detached. rewrite S1, T1, P1, failPending_clears. by split_and!.
Qed.

Lemma from_unlink (Q : list nat → Prop) os st open :
  from (fun c live => Linked os st c [] ∧ Q live) (update (fun c => set_link c None (open c)))
    (fun c live => Linked None st c [] ∧ Q live).
Proof.
  intros c live [(Hb & Ht & Hst & Hs & _) Hl]. split; [|done].
  split_and!; try done; [|by intros s ?%elem_of_nil]. by destruct Hb; constructor.
Qed.

Lemma from_detach_any os ls st reason :
  from (fun c live => Linked os st c [] ∧ ∀ s, s ∈ live → ls = Some s) (detach reason)
    (Detached ls st).
Proof.
  eapply (from_then _ (fun c live => Linked None st c [] ∧ ∀ s, s ∈ live → ls = Some s)).
  { apply (from_unlink (fun live => ∀ s, s ∈ live → ls = Some s) os st (fun _ => false)). }
  eapply from_then; [|apply from_failPending].
  intros c live [Hlk Hl].
  assert (Hk : keeps false (ask (fun c => each (co_subscriptions c) (fun sub =>
    with_sub sub (fun s => set_sub sub (sub_link s None (su_video s))) ->>
    cancelRetry sub ->> endVideo sub)))).
  { apply keeps_ask. intros c0. apply keeps_each. intros sub _. apply keeps_then; [|auto with keeps].
    by apply (keeps_set_sub false sub (fun s => sub_link s None (su_video s))). }
  pose proof (from_keeps_linked _ None st Hk c [] Hlk) as Hlk'.
  destruct Hlk as (Hb & _). destruct (Hk c Hb) as (_ & _ & Hq); [done|].
  rewrite track_quiet in * by done. by split.
Qed.

Lemma from_detach os st reason : from (Linked os st) (detach reason) (Detached os st).
Proof.
  intros c live (Hb & Ht & Hst & Hs & Hl). apply (from_detach_any os). split; [|done].
  split_and!; try done. by intros s ?%elem_of_nil.
Qed.

Lemma from_close_socket os st : from (Detached os st) (close_socket os) (Detached None st).
Proof.
  intros c live (Hb & Ht & Hst & Hs & Hp & Hl). destruct os as [s|]; [|cbn; by split_and!].
  cbn. split_and!; try done. intros x [Hx Hin]%list_elem_of_filter. apply Hl in Hin. congruence.
Qed.

Lemma close_socket_state os c : fst (close_socket os c) = c.
Proof. by destruct os. Qed.

Lemma close_socket_live os c live :
  (∀ s, s ∈ live → os = Some s) → track (snd (close_socket os c)) live = [].
Proof.
  intros Hl. destruct os as [s|]; cbn.
  - apply filter_none, Forall_forall. intros x Hx Hn. apply Hl in Hx. congruence.
  - destruct live as [|x live]; [done|]. discriminate (Hl x). left.
Qed.

Lemma detached_good st c live : Detached None st c live → (st = true) → Good c live.
Proof.
  intros (Hb & Ht & Hst & Hs & Hp & Hl) ->. split_and!; try done.
  - unfold Status. by rewrite Hst.
  - intros s Hin. by apply Hl in Hin.
Qed.

Lemma from_refuse st code reason : from (Detached None st) (refuse_state code reason) Good.
Proof.
  intros c live (Hb & Ht & Hst & Hs & Hp & Hl). cbn. split_and!; try done.
  - by destruct Hb; constructor.
  - intros s Hin. by apply Hl in Hin.
Qed.

Lemma from_connect : from (Detached None false) connect Good.
Proof.
  intros c live (Hb & Ht & Hst & Hs & Hp & Hl). unfold connect, andThen, ask, emit, update. cbn.
  split_and!; cbn; try done.
  - by destruct Hb; constructor.
  - unfold Status. cbn. rewrite Hst, Ht. left. by split.
  - intros x [->|Hin]%elem_of_cons; [done|]. by apply Hl in Hin.
Qed.

Lemma base_timed_reconnect c :
  Base c → co_timer c = None →
  Base (set_timers (timed TimerReconnect c) (Some (co_nextTimer c)) (co_timers (timed TimerReconnect c))).
Proof.
  intros [Hr Hn Hf Hs Hre] Ht. constructor; cbn; [| | | |done].
  - intros u. rewrite elem_of_app, list_elem_of_singleton, Hr, Ht. naive_solver.
  - rewrite fmap_app. apply NoDup_app. split; [done|]. split; [|apply NoDup_singleton].
    intros x (e & -> & He)%list_elem_of_fmap Hx. apply list_elem_of_singleton in Hx.
    rewrite Forall_forall in Hf. apply Hf in He. cbn in Hx. lia.
  - apply Forall_app. split; [eapply Forall_impl; [exact Hf|]; cbn; lia|]. repeat constructor.
  - eapply Forall_impl; [exact Hs|]. intros s [Hms Hu]. split; [done|]. cbn.
    intros u E. destruct (Hu u E). split; [lia|]. intros [= E']. lia.
Qed.

Lemma from_scheduleRetry reason : from (Detached None false) (scheduleRetry reason) Good.
Proof.
  intros c live (Hb & Ht & Hst & Hs & Hp & Hl). unfold scheduleRetry, ask. set (delay := co_retryMs c).
  set (c1 := set_retry c (Z.min (co_retryMs c * 2) MAX_RETRY_MS) (co_lastInvalidAt c)).
  assert (Hb1 : Base c1).
  { destruct Hb as [Hr Hn Hf Hsu Hre]. constructor; try done. by apply delay_doubled. }
  unfold andThen at 1. cbn [update]. fold c1. unfold andThen at 1. cbn [emit].
  rewrite set_timer_at. cbn [update fst snd app track fold_left].
  split_and!; [exact (base_timed_reconnect c1 Hb1 Ht)|done| |].
  - unfold Status. cbn. rewrite Hst. right. by split.
  - intros s Hin. by apply Hl in Hin.
Qed.

Lemma from_retry_unless_stopped st reason : from (Detached None st) (retry_unless_stopped reason) Good.
Proof.
  intros c live Hd. unfold retry_unless_stopped, ask. destruct st.
  - pose proof Hd as (_ & _ & Hst & _). rewrite Hst. by eapply detached_good.
  - pose proof Hd as (_ & _ & Hst & _). rewrite Hst. by apply from_scheduleRetry.
Qed.

Lemma base_clear_own c :
  Base c →
  Base (set_timers c None (match co_timer c with
                           | Some t => base.filter (fun x => fst x ≠ t) (co_timers c)
                           | None => co_timers c
                           end)).
Proof.
  intros [Hr Hn Hf Hs Hre].
  assert (Hsub : match co_timer c with
    | Some t => base.filter (fun x => fst x ≠ t) (co_timers c) | None => co_timers c
    end `sublist_of` co_timers c) by (destruct (co_timer c); [apply sublist_filter|done]).
  constructor; cbn; try done.
  - intros u. split; [|done]. intros Hu. exfalso.
    assert (Hin : (u, TimerReconnect) ∈ co_timers c) by (by eapply elem_of_sublist).
    apply Hr in Hin. rewrite Hin in Hu. apply list_elem_of_filter in Hu. naive_solver.
  - eapply sublist_NoDup; [exact Hn|]. by apply fmap_sublist.
  - apply Forall_forall. intros x Hx. rewrite Forall_forall in Hf. apply Hf. by eapply elem_of_sublist.
  - eapply Forall_impl; [exact Hs|]. intros s [Hms Ht]. split; [done|]. cbn.
    intros t E. by destruct (Ht t E).
Qed.

Lemma clear_own_timer_at c :
  fst (clear_own_timer c) = set_timers c None (match co_timer c with
                           | Some t => base.filter (fun x => fst x ≠ t) (co_timers c)
                           | None => co_timers c
                           end) ∧ Forall quiet (snd (clear_own_timer c)).
Proof.
  unfold clear_own_timer, andThen, ask. destruct (co_timer c); cbn; by repeat constructor.
Qed.

Lemma from_clear_own_timer os st :
  from (fun c live => Base c ∧ co_stopped c = st ∧ co_socket c = os ∧ ∀ s, s ∈ live → os = Some s)
    clear_own_timer (Linked os st).
Proof.
  intros c live (Hb & Hst & Hs & Hl). destruct (clear_own_timer_at c) as [-> Hq].
  rewrite track_quiet by done. split_and!; cbn; try done. by apply base_clear_own.
Qed.

(** A state with a socket is linked by it, and one without holds no live socket. *)
Lemma good_linked c live s :
  Good c live → co_socket c = Some s → Linked (Some s) false c live.
Proof.
  intros (Hb & Hp & Hst & Hl) Hs. unfold Status in Hst. rewrite Hs in Hst.
  destruct (co_stopped c) eqn:E; [naive_solver|]. destruct Hst as [[_ Ht]|[? _]]; [|done].
  split_and!; try done. intros x Hx. rewrite <- Hs. by apply Hl.
Qed.

Section Protocol.
Context `{!NodeText}.
Variable isRpcResult : units → json → bool.
Variable isRpcError : json → bool.
Variable isRpcEventName : units → bool.
Variable isRpcEvent : json → bool.
Variable send_error : nat → Z → option units.
Variable client : json.

Lemma send_keeps socket method params waiter : keeps true (send send_error socket method params waiter).
Proof.
  apply keeps_ask_here. intros c Hc Hg. eapply ok_then; [exact Hg| |].
  - apply (keeps_update true); [|done|done]. intros c'. by repeat split.
  - destruct (send_error _ _); [auto with keeps|].
    apply keeps_then; [|auto with keeps]. intros c' Hc' Hg'.
    destruct (Hg' eq_refl) as [s Hs]. split; [by destruct Hc'; constructor|].
    split; [split_and!; try done; intros E; congruence|constructor].
Qed.

Lemma request_keeps method params waiter : keeps false (request send_error method params waiter).
Proof.
  apply keeps_ask_here. intros c Hc _. destruct (co_open c), (co_socket c) as [s|] eqn:Hs;
    try (destruct waiter; apply (keeps_skip false) || apply (keeps_emit false); done).
  apply send_keeps; [done|]. by intros _; exists s.
Qed.

Lemma sendSubscribe_keeps socket sub session : keeps true (sendSubscribe send_error socket sub session).
Proof. apply keeps_with_sub_any. intros s. apply send_keeps. Qed.

#[local] Hint Resolve send_keeps request_keeps sendSubscribe_keeps : keeps.

Lemma subscribed_keeps socket sub result : keeps false (subscribed send_error socket sub result).
Proof.
  apply keeps_ask. intros c0. cbv zeta. case_bool_decide; [|auto with keeps].
  apply keeps_then; [|apply keeps_then; [auto with keeps|]]; apply keeps_with_sub; intros c s Hc Hg Hs.
  - eapply ok_then; [exact Hg| |destruct (su_onSubscribed s); auto with keeps].
    apply set_sub_keeps; [done|]. exact (heap_sub_ok c sub s Hc Hs).
  - destruct (field "video" result) as [[]|]; try by apply (keeps_skip false).
    destruct (_ && _); [|by apply (keeps_skip false)].
    eapply ok_then; [exact Hg| |auto with keeps].
    apply set_sub_keeps; [done|]. apply sub_ok_link, sub_ok_retry; [apply delay_min|].
    exact (heap_sub_ok c sub s Hc Hs).
Qed.

Lemma subscribe_failed_keeps sub session error : keeps false (subscribe_failed sub session error).
Proof. apply keeps_ask. intros c. destruct (match session with Some _ => _ | None => _ end); auto with keeps. Qed.

Lemma deliver_keeps event message sub : keeps false (deliver event message sub).
Proof.
  apply keeps_with_sub_any. intros s.
  destruct (su_serverId s), (field "subscription" message) as [[]|]; auto with keeps.
  case_bool_decide; [|auto with keeps]. apply keeps_then; [|auto with keeps].
  case_bool_decide; [auto with keeps|].
  apply (keeps_set_sub false sub (fun s => sub_retry s MIN_RETRY_MS (su_retry s))).
  intros c' s' Hok. apply sub_ok_retry; [apply delay_min|done].
Qed.

(** ** The operations *)

Lemma from_retryNow : from Good retryNow Good.
Proof.
  apply from_ask. intros c0. destruct (co_stopped c0) eqn:Hst; [by intros c live [_ Hg]|].
  destruct (co_timer c0) as [t|] eqn:Ht; [|by intros c live [_ Hg]].
  eapply (from_then _ (Detached None false)); [|apply from_connect].
  intros c live (-> & Hb & Hp & Hs & Hl). unfold Status in Hs. rewrite Hst, Ht in Hs.
  destruct Hs as [[_ ?]|[Hs _]]; [done|].
  destruct (from_clear_own_timer None false c0 live) as (Hb' & Ht' & Hst' & Hs' & Hl').
  { split_and!; try done. intros s Hin. rewrite <- Hs. by apply Hl. }
  split_and!; try done. destruct (clear_own_timer_at c0) as [-> _]. cbn. by apply Hp.
Qed.

Lemma from_reconnect : from Good reconnect Good.
Proof.
  apply from_ask. intros c0. destruct (co_stopped c0) eqn:Hst; [by intros c live [_ Hg]|].
  eapply (from_then _ (Linked (co_socket c0) false)).
  { intros c live (-> & Hb & Hp & Hs & Hl). by apply from_clear_own_timer. }
  eapply from_then; [apply from_detach|]. eapply from_then; [apply from_close_socket|].
  apply from_connect.
Qed.

Lemma from_close : from Good close Good.
Proof.
  intros c live (Hb & Hp & Hs & Hl). set (os := co_socket c).
  refine (from_then (fun c' live' => c' = c ∧ live' = live)
    (fun c live => Base c ∧ co_stopped c = true ∧ co_socket c = os ∧ ∀ s, s ∈ live → os = Some s)
    Good _ _ _ _ c live (conj eq_refl eq_refl)).
  { intros c' live' [-> ->]. split_and!; try done. by destruct Hb; constructor. }
  eapply from_then; [apply from_clear_own_timer|].
  eapply (from_then _ (fun c live => Linked os true c [] ∧ live = [])).
  - apply from_ask. intros c0 c1 live1 [-> Hlk]. pose proof Hlk as (_ & _ & _ & -> & _).
    refine (from_then (Linked os true) (Linked os true)
      (fun c live => Linked os true c [] ∧ live = []) _ _ _ _ c0 live1 Hlk).
    + apply from_keeps_linked, keeps_each. auto with keeps.
    + intros c2 live2 (Hb2 & Ht2 & Hst2 & Hs2 & Hl2). rewrite close_socket_state.
      split; [split_and!; try done; by intros x ?%elem_of_nil|].
      apply close_socket_live, Hl2.
  - eapply from_then; [apply (from_unlink (fun live => live = []) os true co_open)|].
    eapply from_then; [|apply from_emit; done].
    intros c2 live2 [Hlk ->]. eapply detached_good; [|done].
    apply (from_failPending None true). split; [done|]. by intros s ?%elem_of_nil.
Qed.


Lemma from_subscribe method params onSubscribed onVideo :
  from Good (subscribe send_error method params onSubscribed onVideo) Good.
Proof.
  apply from_keeps_good, keeps_ask_here. intros c Hc _. set (b := bool_decide (is_Some (co_socket c))).
  apply (ok_then b).
  - intros E. by apply bool_decide_eq_true in E.
  - destruct Hc as [Hr Hn Hf Hs Hre]. split; [|split; [by repeat split|constructor]].
    constructor; try done. apply Forall_app. split; [done|]. constructor; [|done].
    split; [apply delay_min|done].
  - subst b. destruct (co_open c), (co_socket c) as [s|]; auto with keeps.
Qed.

Lemma from_unsubscribe sub : from Good (unsubscribe send_error sub) Good.
Proof.
  apply from_keeps_good. apply keeps_then; [apply keeps_update; intros c; by repeat split|].
  apply keeps_then; [auto with keeps|]. apply keeps_then; [auto with keeps|].
  apply keeps_with_sub_any. intros s. apply keeps_ask. intros c.
  destruct (non_empty _); [|auto with keeps]. destruct (co_open c); auto with keeps.
Qed.

Lemma from_on_open socket : from Good (on_open send_error client socket) Good.
Proof.
  apply from_keeps_good, keeps_ask_here. intros c Hc _. case_bool_decide as Hs; [|by apply (keeps_skip false)].
  cbv zeta. apply (ok_then true); [intros _; rewrite Hs; eauto| |].
  - apply (keeps_update true); [intros c'; by repeat split|done|intros _; rewrite Hs; eauto].
  - apply keeps_then; [auto with keeps|]. apply keeps_each. auto with keeps.
Qed.

(** The socket goes, and with it the link. *)
Lemma from_lost socket reason (P : Conn → list nat → Prop) :
  (∀ c live, P c live → Good c live ∧ co_socket c = Some socket) →
  from P (detach reason ->> emit (SocketClosed socket)) (Detached None false).
Proof.
  intros HP. eapply (from_then _ (Detached (Some socket) false)).
  - intros c live [Hg Hs]%HP. apply from_detach. by apply good_linked.
  - exact (from_close_socket (Some socket) false).
Qed.

Lemma from_assoc P Q a1 a2 a3 : from P ((a1 ->> a2) ->> a3) Q → from P (a1 ->> a2 ->> a3) Q.
Proof.
  intros Ha c live Hp. specialize (Ha c live Hp). unfold andThen in *.
  destruct (a1 c) as [c1 e1], (a2 c1) as [c2 e2], (a3 c2) as [c3 e3]. cbn in *. by rewrite app_assoc.
Qed.

Lemma from_hello_rejected socket error : from Good (hello_rejected socket error) Good.
Proof.
  apply from_ask. intros c0. case_bool_decide as Hs; cbn [negb]; [|by intros c live [_ Hg]].
  assert (HP : ∀ c live, (c = c0 ∧ Good c live) → Good c live ∧ co_socket c = Some socket)
    by (by intros c live [-> Hg]).
  destruct error as [code message|message]; [case_bool_decide|].
  - eapply from_then; [by apply from_emit|]. apply from_assoc.
    eapply from_then; [by apply from_lost|apply from_refuse].
  - eapply from_then; [by apply from_emit|]. apply from_assoc.
    eapply from_then; [by apply from_lost|apply from_retry_unless_stopped].
  - apply from_assoc. eapply from_then; [by apply from_lost|apply from_retry_unless_stopped].
Qed.

Lemma from_hello_accepted now socket session early hello :
  from Good (hello_accepted send_error now socket session early hello) Good.
Proof.
  apply from_ask. intros c0. case_bool_decide as Hs; cbn [negb]; [|by intros c live [_ Hg]].
  destruct (outdatedServer hello) as [outdated|].
  - eapply from_then; [by apply from_emit|]. apply from_assoc.
    eapply from_then; [apply from_lost; by intros c live [-> Hg]|apply from_refuse].
  - apply (from_keeps true); [intros c live [-> Hg]; split; [done|intros _; rewrite Hs; eauto]|].
    apply keeps_then; [apply keeps_update; intros c; by repeat split|].
    apply keeps_then; [apply keeps_update; intros c; by repeat split|].
    apply keeps_then; [|apply keeps_then; [auto with keeps|]].
    + destruct (match co_lastInvalidAt c0 with Some _ => _ | None => _ end); [|auto with keeps].
      intros c Hc _. split; [|split; [by repeat split|constructor]].
      destruct Hc. by constructor.
    + apply keeps_ask. intros c. apply keeps_each. intros sub _. case_bool_decide; auto with keeps.
Qed.

Lemma from_on_close socket event :
  from (fun c live => Good c live ∧ socket ∉ live) (on_close socket event) Good.
Proof.
  apply from_ask. intros c0. case_bool_decide as Hs; cbn [negb]; [|by intros c live (_ & Hg & _)].
  assert (Hd : ∀ reason, from (fun c live => c = c0 ∧ Good c live ∧ socket ∉ live) (detach reason)
    (Detached None false)).
  { intros reason c live (-> & Hg & Hn). pose proof (good_linked c0 live socket Hg Hs) as Hlk.
    assert (live = []) as ->.
    { destruct live as [|x live]; [done|]. destruct Hlk as (_ & _ & _ & _ & Hl).
      destruct Hn. injection (Hl x ltac:(left)) as ->. left. }
    apply (from_detach_any (Some socket)). split; [done|]. by intros s ?%elem_of_nil. }
  cbv zeta. eapply from_then.
  { destruct (keyStorageProblem event); [by apply from_emit|apply from_skip]. }
  destruct (sessionRefusal event) as [[code reason]|].
  - eapply from_then; [apply Hd|]. eapply from_then; [by apply from_emit|apply from_refuse].
  - eapply from_then; [apply Hd|apply from_retry_unless_stopped].
Qed.

(** An operation on the current socket. *)
Definition Current (c : Conn) (live : list nat) : Prop := Good c live ∧ is_Some (co_socket c).

Lemma from_keeps_current a : keeps true a → from Current a Current.
Proof.
  intros Ha c live [Hg Hs]. assert (Hgd : guard true c) by (by intros _). split.
  - apply (from_keeps true Current); [intros c' live' [? ?]; split; [done|by intros _]|done|by split].
  - destruct Hg as (Hb & _). destruct (Ha c Hb Hgd) as (_ & (-> & _) & _). done.
Qed.

Lemma from_invalidMessage now : from Current (invalidMessage now) Good.
Proof.
  eapply from_then.
  { apply (from_keeps_current (update (fun c => set_retry c (co_retryMs c) (Some now)))).
    apply keeps_update. intros c. by repeat split. }
  apply from_ask. intros c0. cbv zeta.
  destruct (co_socket c0) as [s|] eqn:Hs; [|by intros c live (-> & _ & [x Hx]); congruence].
  apply from_assoc. eapply from_then; [|apply (from_retry_unless_stopped false)].
  apply from_lost. by intros c live (-> & Hg & _).
Qed.

Lemma from_current_emit e : quiet e → from Current (emit e) Current.
Proof. intros He. by apply from_emit. Qed.

Lemma from_receive_response now p message :
  from Current (receive_response isRpcResult isRpcError now p message) Good.
Proof.
  eapply from_then; [apply from_keeps_current; auto with keeps|]. cbv zeta.
  assert (Hinv : from Current
    (emit (ReportFailure (RpcFailure (response_stage (field "result" message) (field "error" message))
       (pe_method p))) ->>
     settle p (inl (PlainError (js "The machine sent an invalid RPC response."))) ->>
     invalidMessage now) Good).
  { eapply from_then; [by apply from_emit|]. eapply from_then; [|apply from_invalidMessage].
    apply from_keeps_current; auto with keeps. }
  assert (Hset : ∀ outcome, from Current (settle p outcome) Good).
  { intros outcome c live [Hg _]. by apply from_keeps_good; [apply settle_keeps|]. }
  destruct (field "error" message), (field "result" message); auto; case_match; auto.
Qed.

Lemma from_receive_event now message :
  from Current (receive_event isRpcEventName isRpcEvent now message) Good.
Proof.
  assert (Hk : ∀ a, keeps false a → from Current a Good).
  { intros a Ha c live [Hg _]. by apply from_keeps_good. }
  apply from_ask_any. intros c0. destruct (field "event" message) as [[]|]; auto with keeps.
  destruct (_ || _); [auto with keeps|]. destruct (negb (isRpcEvent message)).
  { eapply from_then; [by apply from_emit|apply from_invalidMessage]. }
  apply Hk. repeat case_bool_decide; apply keeps_each; auto with keeps.
  intros sub _. apply deliver_keeps.
Qed.

Lemma from_on_message now socket text :
  from Good (on_message isRpcResult isRpcError isRpcEventName isRpcEvent now socket text) Good.
Proof.
  apply from_ask. intros c0. case_bool_decide as Hs; [|by intros c live [_ Hg]].
  intros c live [-> Hg]. assert (Hc : Current c0 live) by (split; [done|rewrite Hs; eauto]).
  revert Hc. generalize c0 live. clear. change (from Current
    (receive isRpcResult isRpcError isRpcEventName isRpcEvent now text) Good). unfold receive.
  assert (Hbad : ∀ stage, from Current
    (emit (ReportFailure (RpcFailure stage (js "message"))) ->> invalidMessage now) Good).
  { intros stage. eapply from_then; [by apply from_emit|apply from_invalidMessage]. }
  destruct (JSON_parse text) as [[]|]; auto.
  destruct (field "id" _); [|apply from_receive_event].
  apply from_ask_any. intros c1. destruct (find_pending _ _); [apply from_receive_response|].
  intros c2 live2 [Hg _]. done.
Qed.

Lemma from_timer_fires timer : from Good (timer_fires send_error timer) Good.
Proof.
  apply from_ask. intros c0.
  destruct (find _ (co_timers c0)) as [[t kind]|] eqn:Hf; [|by intros c live [_ Hg]].
  apply find_some in Hf as [Hin%list_elem_of_In Ht]. apply bool_decide_eq_true in Ht. cbn in Ht. subst t.
  destruct kind as [|socket sub].
  - eapply (from_then _ (fun c live => c = set_timers c0 (co_timer c0)
      (base.filter (fun x => fst x ≠ timer) (co_timers c0)) ∧ Good c0 live)).
    { by intros c live [-> Hg]. }
    eapply (from_then _ (Detached None false)).
    + intros c live [-> (Hb & Hp & Hs & Hl)]. pose proof (proj1 (ba_reconnect _ Hb _) Hin) as Ht.
      unfold Status in Hs. rewrite Ht in Hs.
      destruct (co_stopped c0) eqn:Hst; [naive_solver|]. destruct Hs as [[_ ?]|[Hs _]]; [done|].
      pose proof (base_clear_own c0 Hb) as Hb'. rewrite Ht in Hb'.
      split_and!; try done; [by apply Hp|]. intros s Hx. rewrite <- Hs. by apply Hl.
    + apply from_ask. intros c1. destruct (co_stopped c1) eqn:Hst; [|].
      * intros c live (-> & _ & _ & E & _). congruence.
      * intros c live [-> Hd]. by apply from_connect.
  - eapply (from_then _ Good).
    { intros c live (-> & Hb & Hg). split; [|done]. apply base_filter_timers; [done|].
      intros E. apply (ba_reconnect _ Hb) in E.
      assert (Hk : (timer, TimerReconnect) = (timer, TimerSubscribe socket sub)); [|done].
      eapply NoDup_fmap_fst_inj; [apply Hb|exact E|exact Hin|done]. }
    apply from_keeps_good. apply keeps_then.
    + apply (keeps_set_sub false sub (fun s => sub_retry s (su_retryMs s) None)).
      intros c s [Hms _]. by split.
    + apply keeps_ask_here. intros c Hc _. destruct socket as [s|]; [|by apply (keeps_skip false)].
      case_bool_decide as Hs; [|by apply (keeps_skip false)]. cbn [andb].
      destruct (_ && _); [|by apply (keeps_skip false)].
      apply sendSubscribe_keeps; [done|]. intros _. rewrite Hs. eauto.
Qed.

Lemma from_react now : from Good (react send_error now) Good.
Proof.
  apply from_ask_any. intros c0. destruct (co_reactions c0) as [|r rest]; [apply from_skip|].
  eapply from_then; [apply from_keeps_good, keeps_update; intros c; by repeat split|].
  destruct (re_waiter r) as [socket session early|socket sub session| |], (re_outcome r) as [error|v].
  - apply from_hello_rejected.
  - apply from_hello_accepted.
  - apply from_keeps_good, subscribe_failed_keeps.
  - apply from_keeps_good, subscribed_keeps.
  - apply from_skip.
  - apply from_skip.
  - by apply from_emit.
  - by apply from_emit.
Qed.

(** ** Every series of operations *)

Abbreviation performed := (perform isRpcResult isRpcError isRpcEventName isRpcEvent send_error client).

(** A socket that reports its close is not live any more. *)
Definition closes (op : Op) (live : list nat) : list nat :=
  match op with OpSocketClose s _ => base.filter (fun x => x ≠ s) live | _ => live end.

Lemma perform_good op c live :
  Good c live → Good (fst (performed op c)) (track (snd (performed op c)) (closes op live)).
Proof.
  intros Hg. destruct op; cbn [perform closes].
  - by apply from_retryNow.
  - by apply from_reconnect.
  - by apply from_close.
  - by apply from_keeps_good; [apply request_keeps|].
  - by apply from_subscribe.
  - by apply from_unsubscribe.
  - apply from_keeps_good; [|done]. apply keeps_update. intros c'. by repeat split.
  - apply from_keeps_good; [|done]. apply keeps_update. intros c'. by repeat split.
  - by apply from_on_open.
  - by apply from_on_message.
  - apply from_on_close. split.
    + destruct Hg as (Hb & Hp & Hs & Hl). split_and!; try done.
      intros s [_ Hin]%list_elem_of_filter. by apply Hl.
    + by intros [? _]%list_elem_of_filter.
  - by apply from_timer_fires.
  - by apply from_react.
Qed.

Lemma start_good : Good (fst (start new_Conn)) (track (snd (start new_Conn)) []).
Proof.
  refine (from_then (fun c live => c = new_Conn ∧ live = []) (Detached None false) Good
    (update (fun c => set_flags c false (co_accepted c))) connect _ from_connect
    new_Conn [] (conj eq_refl eq_refl)).
  intros c live [-> ->]. split_and!; try done; [|by intros s ?%elem_of_nil].
  constructor; cbn; try done; [|constructor]. intros t. split; [by intros ?%elem_of_nil|done].
Qed.

(** A connection never gets stuck. Whatever happens to it once it started, and in whatever
    order: unless it was closed or refused it is on a socket or it waits for a retry whose timer is
    set, never both and never neither; once stopped it has no socket and no timer; without a socket
    no request is left waiting; and its retry delay stays between 1 and 30 seconds. *)
Theorem connection_progress ops :
  let c := fst (run isRpcResult isRpcError isRpcEventName isRpcEvent send_error client ops) in
  (if co_stopped c then co_socket c = None ∧ co_timer c = None
   else (is_Some (co_socket c) ∧ co_timer c = None)
        ∨ (co_socket c = None ∧ ∃ t, co_timer c = Some t ∧ (t, TimerReconnect) ∈ co_timers c)) ∧
  (co_socket c = None → co_pending c = []) ∧ 1000 <= co_retryMs c <= 30000.
Proof.
  cbv zeta.
  assert (Hall : ∀ ops c live, Good c live → ∃ live', Good (fst (each ops performed c)) live').
  { clear ops. intros ops. induction ops as [|op ops IH]; intros c live Hg; [by exists live|].
    cbn [each]. unfold andThen. apply (perform_good op) in Hg.
    destruct (performed op c) as [c1 e1]. cbn in Hg. destruct (IH c1 _ Hg) as [live' Hg'].
    destruct (each ops _ c1) as [c2 e2]. by exists live'. }
  destruct (Hall ops _ _ start_good) as [live Hg]. unfold run, andThen.
  destruct (start new_Conn) as [c1 e1]. cbn [fst] in Hg.
  destruct (each ops _ c1) as [c e2]. cbn [fst] in *.
  destruct Hg as (Hb & Hp & Hs & _). split_and!; [|done|apply Hb..]. unfold Status in Hs.
  destruct (co_stopped c); [done|]. destruct Hs as [?|[Hn [t Ht]]]; [by left|].
  right. split; [done|]. exists t. split; [done|]. by apply (ba_reconnect c Hb).
Qed.

(** The connection and its live sockets through a series of operations. *)
Fixpoint sockets_after (ops : list Op) (c : Conn) (live : list nat) : Conn * list nat :=
  match ops with
  | [] => (c, live)
  | op :: ops =>
      let '(c', e) := performed op c in sockets_after ops c' (track e (closes op live))
  end.

(** A connection never holds two sockets. At any time the only socket it made that it has not
    closed, and that has not reported its close, is the one it uses. *)
Theorem one_live_socket ops :
  let '(c, live) := sockets_after ops (fst (start new_Conn)) (track (snd (start new_Conn)) []) in
  ∀ s, s ∈ live → co_socket c = Some s.
Proof.
  assert (Hall : ∀ ops c live, Good c live →
    let '(c', live') := sockets_after ops c live in Good c' live').
  { clear ops. intros ops. induction ops as [|op ops IH]; intros c live Hg; [done|].
    cbn [sockets_after]. apply (perform_good op) in Hg. destruct (performed op c) as [c1 e1].
    by apply IH. }
  specialize (Hall ops _ _ start_good). destruct (sockets_after _ _ _) as [c live].
  by destruct Hall as (_ & _ & _ & ?).
Qed.

(** ** Pairing *)

Abbreviation paired_after := (pair_run isRpcResult isRpcError client).
Abbreviation paired_event := (pair_event isRpcResult isRpcError client).

(** The promise is settled exactly when the pairing is done, and resolves with a key that the
    socket reported. *)
Definition pairing_ok (keys : list units) (p : Pairing) : Prop :=
  pr_done p = bool_decide (is_Some (pr_outcome p)) ∧
  (∀ key, pr_serverKey p = Some key → key ∈ keys) ∧
  (∀ d, pr_outcome p = Some (inr d) → pd_serverKey d ∈ keys ∧ pd_serverKey d ≠ []).

Definition reported_key (e : PairEvent) : list units :=
  match e with PairOpen key _ => [key] | _ => [] end.

Lemma pair_answer_key serverKey message d :
  snd (pair_answer isRpcResult isRpcError serverKey message) = inr d →
  serverKey = Some (pd_serverKey d) ∧ pd_serverKey d ≠ [].
Proof.
  unfold pair_answer. destruct serverKey as [[|u key]|]; cbn -[js];
    repeat case_match; intros [=]; subst; cbn; by simplify_eq.
Qed.

Lemma finish_ok keys p reports outcome :
  pairing_ok keys p → (∀ d, outcome = inr d → pd_serverKey d ∈ keys ∧ pd_serverKey d ≠ []) →
  pairing_ok keys (fst (finish p reports outcome)).
Proof.
  intros Hp Hnew. unfold finish. destruct (pr_done p) eqn:Hdone; [exact Hp|].
  destruct Hp as (Hd & Hk & Ho).
  split_and!; [symmetry; apply bool_decide_true; by eexists|done|]. cbn. intros d [= ->]. by apply Hnew.
Qed.

Lemma pair_fail_ok keys p errorClass error :
  pairing_ok keys p → pairing_ok keys (fst (pair_fail p errorClass error)).
Proof. intros Hp. by apply finish_ok. Qed.

Lemma pairing_weaken keys keys' p : pairing_ok keys p → keys ⊆ keys' → pairing_ok keys' p.
Proof. intros (Hd & Hk & Ho) Hs. split_and!; [done|eauto|]. intros d Hd'. destruct (Ho d Hd'). eauto. Qed.

Lemma pair_event_ok endpoint e keys p :
  pairing_ok keys p → pairing_ok (keys ++ reported_key e) (fst (paired_event endpoint e p)).
Proof.
  intros Hp. apply (pairing_weaken _ (keys ++ reported_key e)) in Hp; [|set_solver].
  destruct e as [|key thrown|text|event]; cbn [pair_event].
  - by apply pair_fail_ok.
  - destruct Hp as (Hd & Hk & Ho). split_and!; [done| |done]. cbn. intros k [= <-]. set_solver.
  - unfold pair_on_message. destruct (JSON_parse text) as [v|]; [|by apply pair_fail_ok].
    destruct v as [| | | | | |fields]; try done.
    destruct (field "id" _) as [[| |[|[]|]| | | |]|]; try done.
    destruct (pair_answer _ _ _ _) as [reports outcome] eqn:Ha. apply finish_ok; [done|].
    intros d ->. destruct (pair_answer_key (pr_serverKey p) (JObject fields) d) as [Hk ?];
      [by rewrite Ha|]. split; [|done]. destruct Hp as (_ & Hkeys & _). by apply Hkeys.
  - unfold pair_on_close. destruct (sessionRefusal event) as [[code reason]|]; [by apply pair_fail_ok|].
    destruct (keyStorageProblem event); by apply pair_fail_ok.
Qed.

Lemma pair_event_settled endpoint e p :
  pr_done p = true → pr_done (fst (paired_event endpoint e p)) = true ∧
  pr_outcome (fst (paired_event endpoint e p)) = pr_outcome p ∧
  PairClose ∉ snd (paired_event endpoint e p).
Proof.
  intros Hd. assert (Hf : ∀ reports outcome, finish p reports outcome = (p, [])).
  { intros. unfold finish. by rewrite Hd. }
  assert (Hn : PairClose ∉ (snd (p, [] : list PairEffect))) by apply not_elem_of_nil.
  destruct e; cbn [pair_event]; unfold pair_on_timeout, pair_on_message, pair_on_close, pair_fail;
    repeat case_match; rewrite ?Hf; try done.
  cbn. split_and!; [done|done|]. case_match; set_solver.
Qed.

(** Pairing settles, once and no later than its timeout, with the key the session reported: after any
    events the timeout leaves the promise settled; a settled promise keeps its value and the socket is
    not closed again; and a promise that resolves carries a key that an [onopen] reported. *)
Lemma pairing_settles endpoint events :
  let p := fst (paired_after endpoint events (fst pair)) in
  is_Some (pr_outcome (fst (pair_on_timeout endpoint p))) ∧
  (is_Some (pr_outcome p) → ∀ later,
     pr_outcome (fst (paired_after endpoint later p)) = pr_outcome p ∧
     PairClose ∉ snd (paired_after endpoint later p)) ∧
  (∀ d, pr_outcome p = Some (inr d) → pd_serverKey d ∈ concat (map reported_key events)).
Proof.
  cbv zeta. assert (Hok : ∀ events keys p, pairing_ok keys p →
    pairing_ok (keys ++ concat (map reported_key events)) (fst (paired_after endpoint events p))).
  { clear events. intros events. induction events as [|e events IH]; intros keys p Hp; cbn.
    { by rewrite app_nil_r. }
    apply (pair_event_ok endpoint e) in Hp. destruct (paired_event endpoint e p) as [p' ef].
    specialize (IH _ _ Hp). rewrite <- app_assoc in IH.
    cbn in IH |- *. destruct (paired_after endpoint events p'). exact IH. }
  assert (Hset : ∀ later p, pr_done p = true →
    pr_outcome (fst (paired_after endpoint later p)) = pr_outcome p ∧
    PairClose ∉ snd (paired_after endpoint later p)).
  { clear Hok. intros later. induction later as [|e later IH]; intros p Hd; cbn.
    { split; [done|apply not_elem_of_nil]. }
    pose proof (pair_event_settled endpoint e p Hd) as (Hd' & Ho & Hc).
    destruct (paired_event endpoint e p) as [p' ef]. destruct (IH p' Hd') as [Ho' Hc'].
    destruct (paired_after endpoint later p'). cbn in *. split; [congruence|set_solver]. }
  destruct (Hok events [] (fst pair)) as (Hd & _ & Ho).
  { by split_and!. }
  set (p := fst (paired_after endpoint events (fst pair))) in *. clearbody p. split_and!.
  - unfold pair_on_timeout, pair_fail, finish. destruct (pr_done p); [|by eexists].
    by apply (bool_decide_eq_true_1 _), eq_sym.
  - intros Hs later. apply Hset. rewrite Hd. by apply bool_decide_true.
  - intros d Hd'. by apply Ho.
Qed.

End Protocol.
