(* ===== verification/FileSystem.v ===== *)
(** * Processes and the file system of a claim store

    What [core/ownership-claim.ts] uses of [node:fs], [process.kill], [unique-pid] and
    [randomUUID]: the store is the tree below one claim set's root, a program is a tree of system
    calls, and a pool runs many of them, one call of one live process at a time. A call may fail
    with a fault that changes nothing. The parent of the root exists and is a directory; there are
    no symbolic links; the platform is not Windows. *)

From Stdlib Require Import ZArith Lia.
From S2P Require Import Prelude.
From S2P Require Import Bytes.
From S2P Require Import Json.
Open Scope Z_scope.

(** ** The tree below a root *)

Inductive Entry := EFile (text : units) | EDir (files : gmap units units).

Inductive Store := SMissing | SFile | SDir (entries : gmap units Entry).

(** [[]] is the root, [[d]] an entry of it, [[d; n]] an entry of that. *)
Abbreviation Path := (list units).

Inductive errno :=
| ENOENT | EEXIST | ENOTEMPTY | EINVAL | ENOTDIR | EISDIR | EPERM | EOther (code : units).

#[export] Instance errno_eq_dec : EqDecision errno.
Proof. solve_decision. Defined.

Definition errno_text (e : errno) : units :=
  match e with
  | ENOENT => js "ENOENT" | EEXIST => js "EEXIST" | ENOTEMPTY => js "ENOTEMPTY"
  | EINVAL => js "EINVAL" | ENOTDIR => js "ENOTDIR" | EISDIR => js "EISDIR" | EPERM => js "EPERM"
  | EOther code => code
  end.

Definition entries (st : Store) : gmap units Entry :=
  match st with SDir m => m | _ => ∅ end.

Definition files (st : Store) (d : units) : gmap units units :=
  match entries st !! d with Some (EDir f) => f | _ => ∅ end.

Inductive Node := NFile (text : units) | NDir (names : list units).

Definition node (st : Store) (p : Path) : result errno Node :=
  match st, p with
  | SMissing, _ => Throw ENOENT
  | SFile, [] => Ok (NFile [])
  | SFile, _ => Throw ENOTDIR
  | SDir m, [] => Ok (NDir (map fst (map_to_list m)))
  | SDir m, d :: p =>
      match m !! d, p with
      | None, _ => Throw ENOENT
      | Some (EFile t), [] => Ok (NFile t)
      | Some (EFile _), _ => Throw ENOTDIR
      | Some (EDir f), [] => Ok (NDir (map fst (map_to_list f)))
      | Some (EDir f), [n] => match f !! n with Some t => Ok (NFile t) | None => Throw ENOENT end
      | Some (EDir f), n :: _ => Throw (match f !! n with Some _ => ENOTDIR | None => ENOENT end)
      end
  end.

Inductive Mutation :=
| Mkdir (p : Path) | MkdirRecursive (p : Path) | WriteFile (p : Path) (text : units)
| Rename (p q : Path) | Unlink (p : Path) | Rmdir (p : Path).

(** An entry of the root takes the place of another, or of none. *)
Definition rename_entry (m : gmap units Entry) (s d : units) : result errno (gmap units Entry) :=
  match m !! s, m !! d with
  | None, _ => Throw ENOENT
  | Some (EDir f), Some (EDir g) =>
      if decide (s = d) then Ok m
      else if decide (g = ∅) then Ok (<[d := EDir f]> (delete s m)) else Throw ENOTEMPTY
  | Some (EDir f), Some (EFile _) => Throw ENOTDIR
  | Some (EFile _), Some (EDir _) => Throw EISDIR
  | Some e, _ => Ok (<[d := e]> (delete s m))
  end.

Definition change (c : Mutation) (st : Store) : result errno Store :=
  match c, st with
  | Mkdir [], SMissing | MkdirRecursive [], SMissing => Ok (SDir ∅)
  | Mkdir [], _ | MkdirRecursive [], SFile => Throw EEXIST
  | MkdirRecursive [], SDir _ => Ok st
  | MkdirRecursive [d], SMissing => Ok (SDir {[d := EDir ∅]})
  | Mkdir [d], SDir m =>
      match m !! d with None => Ok (SDir (<[d := EDir ∅]> m)) | Some _ => Throw EEXIST end
  | MkdirRecursive [d], SDir m =>
      match m !! d with
      | None => Ok (SDir (<[d := EDir ∅]> m))
      | Some (EDir _) => Ok st
      | Some (EFile _) => Throw EEXIST
      end
  | WriteFile [d] text, SDir m =>
      match m !! d with
      | Some (EDir _) => Throw EISDIR
      | _ => Ok (SDir (<[d := EFile text]> m))
      end
  | WriteFile [d; n] text, SDir m =>
      match m !! d with
      | Some (EDir f) => Ok (SDir (<[d := EDir (<[n := text]> f)]> m))
      | Some (EFile _) => Throw ENOTDIR
      | None => Throw ENOENT
      end
  | Rename [s] [d], SDir m => m' ← rename_entry m s d; Ok (SDir m')
  | Rename [s] [d; n], SDir m =>
      match m !! s, m !! d with
      | Some (EFile t), Some (EDir f) => Ok (SDir (<[d := EDir (<[n := t]> f)]> (delete s m)))
      | None, _ | _, None => Throw ENOENT
      | Some (EDir _), _ => Throw EINVAL
      | _, Some (EFile _) => Throw ENOTDIR
      end
  | Unlink [d], SDir m =>
      match m !! d with
      | Some (EFile _) => Ok (SDir (delete d m))
      | Some (EDir _) => Throw EPERM
      | None => Throw ENOENT
      end
  | Unlink [d; n], SDir m =>
      match m !! d with
      | Some (EDir f) =>
          match f !! n with
          | Some _ => Ok (SDir (<[d := EDir (delete n f)]> m))
          | None => Throw ENOENT
          end
      | Some (EFile _) => Throw ENOTDIR
      | None => Throw ENOENT
      end
  | Rmdir [], SDir m => if decide (m = ∅) then Ok SMissing else Throw ENOTEMPTY
  | Rmdir [d], SDir m =>
      match m !! d with
      | Some (EDir f) => if decide (f = ∅) then Ok (SDir (delete d m)) else Throw ENOTEMPTY
      | Some (EFile _) => Throw ENOTDIR
      | None => Throw ENOENT
      end
  | Rmdir [], SFile => Throw ENOTDIR
  | Unlink [], SDir _ => Throw EPERM
  | Mkdir _, SFile | MkdirRecursive _, SFile | WriteFile (_ :: _) _, SFile
  | Rename _ _, SFile | Unlink _, SFile | Rmdir _, SFile => Throw ENOTDIR
  | _, SMissing => Throw ENOENT
  | _, _ => Throw EINVAL
  end.

(** ** Processes *)

Record ClaimOwner := { pid : Z; processToken : units }.

#[export] Instance ClaimOwner_eq_dec : EqDecision ClaimOwner.
Proof. solve_decision. Defined.

Inductive ProcessIdentityStatus := Same | Different | Gone | Unknown.

Inductive ClaimMode := Exclusive | Shared.

#[export] Instance ClaimMode_eq_dec : EqDecision ClaimMode.
Proof. solve_decision. Defined.

#[export] Instance ClaimMode_countable : Countable ClaimMode.
Proof.
  apply (inj_countable' (fun m => match m with Exclusive => true | Shared => false end)
    (fun b : bool => if b then Exclusive else Shared)). by intros [].
Defined.

(** ** Calls and programs

    [Lstat] answers whether the path is a directory; [CheckToken] is [unique-pid]'s [check], [None]
    where it fails; [GroupAlive] is [process.kill(-pid, 0)]. [Now] is [Date.now()], [SleepUntil] the
    rest of a sleep that ends at a time, and [DelayUntil] of one that a signal may cut short, which
    it then answers; [Aborted] asks that signal. [StatParent] is [stat] of the directory that the
    set is in. [Enter] and [Leave] mark that a client starts and stops to rely on its claim;
    they do nothing. *)

Inductive call : Type → Type :=
| Lstat (p : Path) : call (result errno bool)
| Readdir (p : Path) : call (result errno (list units))
| ReadFile (p : Path) : call (result errno units)
| Change (c : Mutation) : call (result errno unit)
| CheckToken (token : units) : call (option ProcessIdentityStatus)
| GroupAlive (group : Z) : call bool
| Capture : call (result units units)
| RandomUUID : call units
| DateText : call units
| Now : call Z
| SleepUntil (time : Z) : call unit
| DelayUntil (time : Z) : call bool
| Aborted : call bool
| StatParent : call (result errno unit)
| Enter (mode : ClaimMode) (claimId : units) : call unit
| Leave : call unit.

Inductive prog (A : Type) : Type :=
| Done (a : A)
| Call {B : Type} (c : call B) (k : B → prog A).
Arguments Done {A} a.
Arguments Call {A B} c k.

Fixpoint prog_bind {A B} (f : A → prog B) (p : prog A) : prog B :=
  match p with
  | Done a => f a
  | Call c k => Call c (fun b => prog_bind f (k b))
  end.

(** ** Worlds

    Besides the store and the processes a world remembers the claim ids that were handed out, and to
    which program, the claims that were published, in order, those that are gone, which programs
    rely on a claim, and the time, in milliseconds, which does not go back. A process that starts later counts as alive before. *)

Record World := {
  w_store : Store;
  w_alive : gset units;
  w_groups : gset units;
  w_ids : gmap units nat;
  w_published : list (ClaimMode * units);
  w_gone : gset units;
  w_inside : gmap nat (ClaimMode * units);
  w_clock : Z;
}.

Definition EXCLUSIVE_DIR : units := js "exclusive".
Definition SHARED_DIR : units := js "shared".
Definition CLAIM_SUFFIX : units := js ".claim".
Definition CHILD_SUFFIX : units := js ".child".
Definition STAGING_PREFIX : units := js ".staging-".

Definition claim_dir (m : ClaimMode) : units :=
  match m with Exclusive => EXCLUSIVE_DIR | Shared => SHARED_DIR end.
Definition claim_name (claimId : units) : units := claimId ++ CLAIM_SUFFIX.
Definition child_name (claimId : units) : units := claimId ++ CHILD_SUFFIX.

(** The claim a file name stands for. *)
Definition claim_of_name (name : units) : option units :=
  if ends_with CLAIM_SUFFIX name
  then Some (take (length name - length CLAIM_SUFFIX) name) else None.

Definition present_in (st : Store) (m : ClaimMode) : list (ClaimMode * units) :=
  omap (fun '(name, _) => pair m <$> claim_of_name name) (map_to_list (files st (claim_dir m))).

Definition present (st : Store) : list (ClaimMode * units) :=
  present_in st Exclusive ++ present_in st Shared.

(** The store changes; claims that appear are published, claims that vanish are gone. *)
Definition set_store (w : World) (st : Store) : World :=
  {| w_store := st; w_alive := w_alive w; w_groups := w_groups w; w_ids := w_ids w;
     w_published := w_published w
       ++ base.filter (fun c => c ∉ present (w_store w)) (present st);
     w_gone := w_gone w
       ∪ list_to_set (snd <$> base.filter (fun c => c ∉ present st) (present (w_store w)));
     w_inside := w_inside w;
     w_clock := w_clock w |}.

Definition add_id (w : World) (claimId : units) (a : nat) : World :=
  {| w_store := w_store w; w_alive := w_alive w; w_groups := w_groups w;
     w_ids := <[claimId := a]> (w_ids w); w_published := w_published w; w_gone := w_gone w;
     w_inside := w_inside w;
     w_clock := w_clock w |}.

Definition set_inside (w : World) (inside : gmap nat (ClaimMode * units)) : World :=
  {| w_store := w_store w; w_alive := w_alive w; w_groups := w_groups w; w_ids := w_ids w;
     w_published := w_published w; w_gone := w_gone w; w_inside := inside;
     w_clock := w_clock w |}.

(** A process ends, and a process group loses its last member. *)
Definition end_process (w : World) (token : units) : World :=
  {| w_store := w_store w; w_alive := w_alive w ∖ {[token]}; w_groups := w_groups w;
     w_ids := w_ids w; w_published := w_published w; w_gone := w_gone w; w_inside := w_inside w;
     w_clock := w_clock w |}.
Definition end_group (w : World) (token : units) : World :=
  {| w_store := w_store w; w_alive := w_alive w; w_groups := w_groups w ∖ {[token]};
     w_ids := w_ids w; w_published := w_published w; w_gone := w_gone w; w_inside := w_inside w;
     w_clock := w_clock w |}.

(** Time passes. *)
Definition set_clock (w : World) (time : Z) : World :=
  {| w_store := w_store w; w_alive := w_alive w; w_groups := w_groups w; w_ids := w_ids w;
     w_published := w_published w; w_gone := w_gone w; w_inside := w_inside w; w_clock := time |}.

Definition lstat (st : Store) (p : Path) : result errno bool :=
  n ← node st p; Ok (match n with NDir _ => true | NFile _ => false end).
Definition readdir (st : Store) (p : Path) : result errno (list units) :=
  match node st p with
  | Ok (NDir l) => Ok l
  | Ok (NFile _) => Throw ENOTDIR
  | Throw e => Throw e
  end.
Definition readFile (st : Store) (p : Path) : result errno units :=
  match node st p with
  | Ok (NFile t) => Ok t
  | Ok (NDir _) => Throw EISDIR
  | Throw e => Throw e
  end.

(** The length of the text of a UUID. *)
Definition UUID_LENGTH : nat := 36.

Section Pool.
(** The process a program runs in, and the group number [unique-pid] finds in a token. *)
Variable proc : nat → ClaimOwner.
Variable decode_pid : units → option Z.

Definition token_of (a : nat) : units := processToken (proc a).

(** A call that failed with a fault: the code never means that a path is absent, except where a
    recursive [mkdir] meets the removal of a directory it made. *)
Definition faulty {A} (missing : bool) (r : result errno A) : Prop :=
  ∃ e, r = Throw e ∧ (e = ENOENT → missing = true).

Definition answers (a : nat) {B} (c : call B) (w w' : World) : B → Prop :=
  match c in call B return B → Prop with
  | Lstat p => fun r => w' = w ∧ (r = lstat (w_store w) p ∨ faulty false r)
  | Readdir p => fun r => w' = w ∧ (r = readdir (w_store w) p ∨ faulty false r)
  | ReadFile p => fun r => w' = w ∧ (r = readFile (w_store w) p ∨ faulty false r)
  | Change c => fun r =>
      match change c (w_store w) with
      | Ok st => w' = set_store w st ∧ r = Ok tt
      | Throw e => w' = w ∧ r = Throw e
      end
      ∨ w' = w ∧ faulty (match c with MkdirRecursive _ => true | _ => false end) r
  | CheckToken token => fun r =>
      w' = w ∧
      (r = None ∨ if decide (token ∈ w_alive w) then r = Some Same
                  else r = Some Gone ∨ r = Some Different)
  | GroupAlive group => fun r =>
      w' = w ∧ (r = false → ∀ token, decode_pid token = Some group → token ∉ w_groups w)
  | Capture => fun r => w' = w ∧ (r = Ok (token_of a) ∨ ∃ reason, r = Throw reason)
  | RandomUUID => fun claimId =>
      w_ids w !! claimId = None ∧ length claimId = UUID_LENGTH ∧ w' = add_id w claimId a
  | DateText => fun _ => w' = w
  | Now => fun r => w' = w ∧ r = w_clock w
  | SleepUntil time => fun _ => w' = w ∧ time <= w_clock w
  | DelayUntil time => fun r => w' = w ∧ (r = true ∨ r = false ∧ time <= w_clock w)
  | Aborted => fun _ => w' = w
  | StatParent => fun _ => w' = w
  | Enter m claimId => fun _ => w' = set_inside w (<[a := (m, claimId)]> (w_inside w))
  | Leave => fun _ => w' = set_inside w (delete a (w_inside w))
  end.

(** ** The pool *)

Abbreviation pool := (nat → prog unit).

Definition update_pool (ps : pool) (a : nat) (p : prog unit) : pool :=
  fun b => if decide (b = a) then p else ps b.

Inductive pool_step : World * pool → World * pool → Prop :=
| step_call w ps a {B} (c : call B) k w' b :
    ps a = Call c k → token_of a ∈ w_alive w → answers a c w w' b →
    pool_step (w, ps) (w', update_pool ps a (k b))
| step_end w ps token : pool_step (w, ps) (end_process w token, ps)
| step_end_group w ps token : pool_step (w, ps) (end_group w token, ps)
| step_tick w ps time : w_clock w <= time → pool_step (w, ps) (set_clock w time, ps).

Definition pool_steps : World * pool → World * pool → Prop := rtc pool_step.

End Pool.

(** ** Runs

    An interpreter: calls never fail, processes are alive or gone as the world says, nothing is aborted, and
    ids and dates are given. [run_alone] runs one program, to which time passes only while it sleeps;
    [run_schedule] gives programs their calls in a given order, ends processes and lets time pass. *)

Record Env := {
  env_uuid : nat → units;
  env_date : units;
  env_proc : nat → ClaimOwner;
  env_decode : units → option Z;
}.

Section Run.
Variable env : Env.

Definition exec (a : nat) {B} (c : call B) (w : World) : World * B :=
  match c in call B return World * B with
  | Lstat p => (w, lstat (w_store w) p)
  | Readdir p => (w, readdir (w_store w) p)
  | ReadFile p => (w, readFile (w_store w) p)
  | Change c =>
      match change c (w_store w) with
      | Ok st => (set_store w st, Ok tt)
      | Throw e => (w, Throw e)
      end
  | CheckToken token => (w, Some (if decide (token ∈ w_alive w) then Same else Gone))
  | GroupAlive group =>
      (w, existsb (fun token => bool_decide (env_decode env token = Some group))
            (elements (w_groups w)))
  | Capture => (w, Ok (token_of (env_proc env) a))
  | RandomUUID => let claimId := env_uuid env (size (w_ids w)) in (add_id w claimId a, claimId)
  | DateText => (w, env_date env)
  | Now => (w, w_clock w)
  | SleepUntil time => (set_clock w (Z.max time (w_clock w)), tt)
  | DelayUntil time => (set_clock w (Z.max time (w_clock w)), false)
  | Aborted => (w, false)
  | StatParent => (w, Ok tt)
  | Enter m claimId => (set_inside w (<[a := (m, claimId)]> (w_inside w)), tt)
  | Leave => (set_inside w (delete a (w_inside w)), tt)
  end.

Fixpoint run_alone (a : nat) {A} (p : prog A) (w : World) : World * A :=
  match p with
  | Done x => (w, x)
  | Call c k => let '(w, b) := exec a c w in run_alone a (k b) w
  end.

Lemma run_alone_bind a {A B} (f : A → prog B) (p : prog A) w :
  run_alone a (prog_bind f p) w = let '(w, x) := run_alone a p w in run_alone a (f x) w.
Proof. revert w. induction p as [x|C c k IH]; intros w; cbn; [done|]. by destruct (exec a c w). Qed.

(** A new id is new, and a sleep is over. *)
Definition call_ready {B} (c : call B) (w : World) : bool :=
  match c with
  | RandomUUID =>
      let claimId := env_uuid env (size (w_ids w)) in
      bool_decide (w_ids w !! claimId = None) && (length claimId =? UUID_LENGTH)%nat
  | SleepUntil time | DelayUntil time => time <=? w_clock w
  | _ => true
  end.

Lemma exec_answers a {B} (c : call B) w :
  call_ready c w = true → answers (env_proc env) (env_decode env) a c w (fst (exec a c w)) (snd (exec a c w)).
Proof.
  destruct c; cbn; intros Hr; try (split; [done|by left]); try done.
  - left. by destruct (change c (w_store w)).
  - split; [done|]. right. case_decide; [done|by left].
  - split; [done|]. intros Hf t Ht Hin. apply not_true_iff_false in Hf. apply Hf, existsb_exists.
    exists t. split; [by apply list_elem_of_In, elem_of_elements|]. by apply bool_decide_eq_true.
  - apply andb_true_iff in Hr as [Hn Hl]. apply bool_decide_eq_true in Hn. apply Nat.eqb_eq in Hl.
    by split_and!.
  - apply Z.leb_le in Hr. rewrite Z.max_r by done. by destruct w.
  - apply Z.leb_le in Hr. rewrite Z.max_r by done. split; [by destruct w|by right].
Qed.

Inductive Turn :=
| Run (a calls : nat)
| EndProcess (token : units)
| EndGroup (token : units)
| Tick (ms : nat).

Definition run_call (a : nat) (c : World * (nat → prog unit)) : option (World * (nat → prog unit)) :=
  match snd c a with
  | Done _ => None
  | Call call k =>
      if bool_decide (token_of (env_proc env) a ∈ w_alive (fst c)) && call_ready call (fst c) then
        let '(w, b) := exec a call (fst c) in Some (w, update_pool (snd c) a (k b))
      else None
  end.

Fixpoint run_calls (a calls : nat) (c : World * (nat → prog unit)) : option (World * (nat → prog unit)) :=
  match calls with O => Some c | S n => c ← run_call a c; run_calls a n c end.

Fixpoint run_schedule (turns : list Turn) (c : World * (nat → prog unit)) :
    option (World * (nat → prog unit)) :=
  match turns with
  | [] => Some c
  | Run a n :: turns => c ← run_calls a n c; run_schedule turns c
  | EndProcess token :: turns => run_schedule turns (end_process (fst c) token, snd c)
  | EndGroup token :: turns => run_schedule turns (end_group (fst c) token, snd c)
  | Tick ms :: turns => run_schedule turns (set_clock (fst c) (w_clock (fst c) + Z.of_nat ms), snd c)
  end.

Abbreviation steps := (pool_steps (env_proc env) (env_decode env)).

Lemma run_call_step a c c' : run_call a c = Some c' → pool_step (env_proc env) (env_decode env) c c'.
Proof.
  destruct c as [w ps]. unfold run_call. cbn. destruct (ps a) as [x|B call k] eqn:Hp; [done|].
  destruct (_ && _) eqn:Hc; [|done]. apply andb_true_iff in Hc as [Ha Hr]. apply bool_decide_eq_true in Ha.
  pose proof (exec_answers a call w Hr) as Hans. destruct (exec a call w) as [w' b]. intros [= <-].
  by econstructor.
Qed.

Lemma run_calls_steps a n c c' : run_calls a n c = Some c' → steps c c'.
Proof.
  revert c. induction n as [|n IH]; intros c; cbn; [intros [= <-]; constructor|].
  intros (c1 & H1 & H2)%bind_Some. econstructor; [by eapply run_call_step|by apply IH].
Qed.

Lemma run_schedule_steps turns c c' : run_schedule turns c = Some c' → steps c c'.
Proof.
  revert c. induction turns as [|[a n|token|token|ms] turns IH]; intros c; cbn; [intros [= <-]; constructor|..].
  - intros (c1 & H1 & H2)%bind_Some. etrans; [by eapply run_calls_steps|by apply IH].
  - intros H. etrans; [|by apply IH]. destruct c. apply rtc_once. constructor.
  - intros H. etrans; [|by apply IH]. destruct c. apply rtc_once. constructor.
  - intros H. etrans; [|by apply IH]. destruct c. apply rtc_once. constructor. cbn. lia.
Qed.

End Run.
