(* ===== verification/OwnershipClaim.v ===== *)
(** * Ownership claims: [packages/core/ownership-claim.ts]

    Claims are files of a claim set. An exclusive claim is a directory renamed into place, so there is
    one at a time; a shared claim is a file of its own; and a claim is acquired once its owner,
    after publishing it, finds no live claim of the other mode. Each function is a program of the
    system calls it makes, on a platform that is not Windows. [process-identity.ts] is the part of
    it that a claim asks for. Paths are relative to the claim set's root; the texts of refusals
    are modelled up to the reason they give. *)

From Stdlib Require Import ZArith Lia.
From S2P Require Import Prelude.
From S2P Require Import Bytes.
From S2P Require Import Json.
From S2P Require Import FileSystem.
Open Scope Z_scope.

(** ** Data *)

Record ClaimHolder := {
  ch_path : Path;
  ch_claimId : units;
  ch_mode : ClaimMode;
  ch_owner : ClaimOwner;
  ch_startedAt : units;
  ch_details : json;
  ch_child : option ClaimOwner;
  ch_childDeclared : bool;
}.

Record ClaimHandle := {
  ha_path : Path;
  ha_claimId : units;
  ha_mode : ClaimMode;
  ha_owner : ClaimOwner;
  ha_startedAt : units;
  ha_details : json;
}.

Inductive ClaimAttempt :=
| Acquired (claim : ClaimHandle) (reaped : list ClaimHolder)
| Held (holder : ClaimHolder) (reaped : list ClaimHolder)
| WaitingFor (holders : list ClaimHolder) (pending : ClaimHandle) (reaped : list ClaimHolder).

Record ClaimSetState := {
  cs_exclusive : option ClaimHolder;
  cs_shared : list ClaimHolder;
  cs_reaped : list ClaimHolder;
}.

Record ClaimSurvey := {
  sv_live : list ClaimHolder;
  sv_dead : list ClaimHolder;
  sv_unresolved : list (Path * units);
  sv_orphans : list Path;
}.

(** What the functions throw: a refusal, an unavailable store or identity, or the error of a call. *)
Inductive claim_error :=
| ClaimRefused (claimPath : Path) (reason : units) (blockingFile : bool)
| ClaimUnavailable (reason : units)
| Errno (e : errno).

Definition PUBLISH_ATTEMPTS : nat := 64.

(** ** Programs that throw *)

Definition P (A : Type) : Type := prog (result claim_error A).

#[export] Instance P_ret : MRet P := fun A a => Done (Ok a).
#[export] Instance P_bind : MBind P := fun A B f p =>
  prog_bind (fun r => match r with Ok a => f a | Throw e => Done (Throw e) end) p.

Definition raise {A} (e : claim_error) : P A := Done (Throw e).
Definition ask {B} (c : call B) : P B := Call c (fun b => Done (Ok b)).

(** [try { p } catch (e) { h(e) }]. *)
Definition catch {A} (p : P A) (h : claim_error → P A) : P A :=
  prog_bind (fun r => match r with Ok a => Done (Ok a) | Throw e => h e end) p.

(** A call of [node:fs] that throws its error. *)
Definition sys {B} (c : call (result errno B)) : P B :=
  Call c (fun r => Done (match r with Ok b => Ok b | Throw e => Throw (Errno e) end)).

Fixpoint each {A} (l : list A) (body : A → P unit) : P unit :=
  match l with
  | [] => mret tt
  | x :: l => _ ← body x; each l body
  end.

(** ** [process-identity.ts] *)

Section Claims.
Context `{!NodeText}.
(** [unique-pid]'s [decode], and [process.pid]. *)
Variable decode_pid : units → option Z.
Variable own_pid : Z.

Definition inspectProcessIdentity (record : ClaimOwner) : P ProcessIdentityStatus :=
  if decide (decode_pid (processToken record) = Some (pid record)) then
    r ← ask (CheckToken (processToken record)); mret (default Unknown r)
  else mret Unknown.

Definition selfOwner : P ClaimOwner :=
  captured ← ask Capture;
  match captured with
  | Ok token => mret {| pid := own_pid; processToken := token |}
  | Throw reason => raise (ClaimUnavailable reason)
  end.

(** ** Records *)

Definition childPath (claimPath : Path) : Path :=
  match claimPath with
  | [d; n] => [d; take (length n - length CLAIM_SUFFIX) n ++ CHILD_SUFFIX]
  | _ => claimPath
  end.

Definition MAX_SAFE_INTEGER : Z := 2 ^ 53 - 1.

Definition asOwner (record : option json) : option ClaimOwner :=
  match record with
  | Some v =>
      match field "pid" v, field "processToken" v with
      | Some (JNumber n), Some (JString ((_ :: _) as token)) =>
          if (0 <? n) && (n <=? MAX_SAFE_INTEGER)
          then Some {| pid := n; processToken := token |} else None
      | _, _ => None
      end
  | None => None
  end.

Inductive Reading (A : Type) := Absent | Unreadable (reason : units) | Read (a : A).
Arguments Absent {A}.
Arguments Unreadable {A} reason.
Arguments Read {A} a.

Definition NOT_JSON : units := js "its record is missing, truncated or not valid JSON".

Definition readRecord (path : Path) (what : units) : P (Reading units) :=
  r ← ask (ReadFile path);
  mret match r with
       | Ok text => Read text
       | Throw ENOENT => Absent
       | Throw e => Unreadable (js "its " ++ what ++ js " could not be read (" ++ errno_text e ++ js ")")
       end.

(** The record of a child file's text; the text [null] has no fields to read. *)
Definition child_record (text : units) : Reading (option ClaimOwner) :=
  match JSON_parse text with
  | Some v => Read (asOwner (field "record" v))
  | None => Unreadable NOT_JSON
  end.

Definition readChild (claimPath : Path) : P (Reading (option ClaimOwner)) :=
  r ← readRecord (childPath claimPath) (js "child record");
  mret match r with
       | Read text => child_record text
       | Absent => Absent
       | Unreadable reason => Unreadable reason
       end.

Definition claim_details (details : option json) : json :=
  match details with Some ((JObject _ | JArray _) as v) => v | _ => JObject [] end.

Definition claim_text (v : option json) : units := match v with Some (JString s) => s | _ => [] end.

(** The id and owner of a claim's text. *)
Definition claim_record (text : units) : option (json * units * ClaimOwner) :=
  v ← JSON_parse text;
  owner ← asOwner (field "owner" v);
  match field "claimId" v with
  | Some (JString ((_ :: _) as claimId)) => Some (v, claimId, owner)
  | _ => None
  end.

Definition readClaim (path : Path) (mode : ClaimMode) : P (Reading ClaimHolder) :=
  r ← readRecord path (js "record");
  match r with
  | Absent => mret Absent
  | Unreadable reason => mret (Unreadable reason)
  | Read text =>
      match claim_record text with
      | None => mret (Unreadable NOT_JSON)
      | Some (v, claimId, owner) =>
          child ← readChild path;
          let holder child declared :=
            {| ch_path := path; ch_claimId := claimId; ch_mode := mode; ch_owner := owner;
               ch_startedAt := claim_text (field "startedAt" v);
               ch_details := claim_details (field "details" v);
               ch_child := child; ch_childDeclared := declared |} in
          mret match child with
               | Unreadable reason => Unreadable reason
               | Absent => Read (holder None false)
               | Read record => Read (holder record true)
               end
      end
  end.

(** ** Liveness *)

Inductive Liveness := LLive | LDead | LUnknown.

Definition processGroupAlive (group : Z) : P bool :=
  if (group <=? 1) || (MAX_SAFE_INTEGER <? group) then mret false else ask (GroupAlive group).

Definition childLiveness (claimPath : Path) : P (option Liveness) :=
  child ← readChild claimPath;
  match child with
  | Absent => mret None
  | Unreadable _ | Read None => mret (Some LUnknown)
  | Read (Some record) =>
      status ← inspectProcessIdentity record;
      match status with
      | Same => mret (Some LLive)
      | Gone => alive ← processGroupAlive (pid record);
                mret (Some (if alive : bool then LLive else LDead))
      | _ => mret (Some LUnknown)
      end
  end.

Definition claimLiveness (holder : ClaimHolder) : P Liveness :=
  status ← inspectProcessIdentity (ch_owner holder);
  match status with
  | Same => mret LLive
  | Unknown => mret LUnknown
  | _ => child ← childLiveness (ch_path holder); mret (default LDead child)
  end.

(** ** Surveys *)

Inductive Listing := Names (l : list units) | UnreadableDir.

Definition names (dir : Path) : P Listing :=
  entry ← ask (Lstat dir);
  match entry with
  | Throw ENOENT => mret (Names [])
  | Throw _ | Ok false => mret UnreadableDir
  | Ok true =>
      r ← ask (Readdir dir);
      mret match r with
           | Ok l => Names (stable_sort units_le l)
           | Throw ENOENT => Names []
           | Throw _ => UnreadableDir
           end
  end.

Definition add_live (h : ClaimHolder) (s : ClaimSurvey) : ClaimSurvey :=
  {| sv_live := sv_live s ++ [h]; sv_dead := sv_dead s; sv_unresolved := sv_unresolved s;
     sv_orphans := sv_orphans s |}.
Definition add_dead (h : ClaimHolder) (s : ClaimSurvey) : ClaimSurvey :=
  {| sv_live := sv_live s; sv_dead := sv_dead s ++ [h]; sv_unresolved := sv_unresolved s;
     sv_orphans := sv_orphans s |}.
Definition add_unresolved (path : Path) (reason : units) (s : ClaimSurvey) : ClaimSurvey :=
  {| sv_live := sv_live s; sv_dead := sv_dead s; sv_unresolved := sv_unresolved s ++ [(path, reason)];
     sv_orphans := sv_orphans s |}.
Definition add_orphans (l : list Path) (s : ClaimSurvey) : ClaimSurvey :=
  {| sv_live := sv_live s; sv_dead := sv_dead s; sv_unresolved := sv_unresolved s;
     sv_orphans := sv_orphans s ++ l |}.

(** One claim file of a directory. *)
Definition survey_claim (path : Path) (mode : ClaimMode) (into : ClaimSurvey) : P ClaimSurvey :=
  r ← readClaim path mode;
  match r with
  | Absent => mret into
  | Unreadable reason => mret (add_unresolved path reason into)
  | Read holder =>
      liveness ← claimLiveness holder;
      mret match liveness with
           | LLive => add_live holder into
           | LDead => add_dead holder into
           | LUnknown =>
               add_unresolved path
                 (if ch_childDeclared holder && negb (bool_decide (is_Some (ch_child holder)))
                  then js "it spawned the process that holds it and was killed before recording which one"
                  else js "its process identity token does not decode, so the holder cannot be identified")
                 into
           end
  end.

Fixpoint survey_claims (dir : units) (mode : ClaimMode) (listed : list units) (into : ClaimSurvey) :
    P ClaimSurvey :=
  match listed with
  | [] => mret into
  | name :: listed =>
      if ends_with CLAIM_SUFFIX name then
        into ← survey_claim [dir; name] mode into; survey_claims dir mode listed into
      else survey_claims dir mode listed into
  end.

(** The child files of a listing whose claim is not in it. *)
Definition is_orphan (listed : list units) (name : units) : bool :=
  ends_with CHILD_SUFFIX name &&
  negb (bool_decide (take (length name - length CHILD_SUFFIX) name ++ CLAIM_SUFFIX
                     ∈ List.filter (ends_with CLAIM_SUFFIX) listed)).

Definition survey (dir : units) (mode : ClaimMode) (into : ClaimSurvey) : P ClaimSurvey :=
  listing ← names [dir];
  match listing with
  | UnreadableDir => mret (add_unresolved [dir] (js "its directory could not be read") into)
  | Names listed =>
      let claims := List.filter (ends_with CLAIM_SUFFIX) listed in
      let orphans := List.filter (is_orphan listed) listed in
      into ← survey_claims dir mode listed (add_orphans (map (fun name => [dir; name]) orphans) into);
      let foreign := List.filter (fun name => negb (bool_decide (name ∈ orphans))) listed in
      mret match foreign, claims with
           | _ :: _, [] => add_unresolved [dir] (js "it holds files Stim did not write") into
           | _, _ => into
           end
  end.

Definition no_claims : ClaimSurvey :=
  {| sv_live := []; sv_dead := []; sv_unresolved := []; sv_orphans := [] |}.

Definition readClaimSet : P ClaimSurvey :=
  entry ← ask (Lstat []);
  match entry with
  | Throw ENOENT => mret no_claims
  | Throw _ => mret (add_unresolved [] (js "its directory could not be read") no_claims)
  | Ok false => mret (add_unresolved [] (js "it is not a real directory") no_claims)
  | Ok true =>
      state ← survey EXCLUSIVE_DIR Exclusive no_claims;
      survey SHARED_DIR Shared state
  end.

(** ** Removing what is dead *)

Definition refuse {A} (claimPath : Path) (reason : units) : P A :=
  raise (ClaimRefused claimPath reason false).

Definition removeOrRefuse (path claimPath : Path) : P unit :=
  r ← ask (Change (Unlink path));
  match r with
  | Ok _ | Throw ENOENT => mret tt
  | Throw e =>
      refuse claimPath (js "the claim left behind could not be removed (" ++ errno_text e ++ js ")")
  end.

Definition reap (holder : ClaimHolder) : P bool :=
  again ← readClaim (ch_path holder) (ch_mode holder);
  match again with
  | Absent => mret true
  | Unreadable _ => mret false
  | Read again =>
      if decide (ch_claimId again = ch_claimId holder) then
        _ ← removeOrRefuse (childPath (ch_path holder)) (ch_path holder);
        _ ← removeOrRefuse (ch_path holder) (ch_path holder);
        mret true
      else mret false
  end.

Definition tidy (dir : Path) : P unit := _ ← ask (Change (Rmdir dir)); mret tt.

Fixpoint reap_all (dead : list ClaimHolder) : P (list ClaimHolder) :=
  match dead with
  | [] => mret []
  | holder :: dead =>
      reaped ← reap holder;
      rest ← reap_all dead;
      mret (if reaped : bool then holder :: rest else rest)
  end.

Definition of_mode (mode : ClaimMode) (l : list ClaimHolder) : list ClaimHolder :=
  List.filter (fun h => bool_decide (ch_mode h = mode)) l.

Definition inspectClaimSet : P ClaimSetState :=
  state ← readClaimSet;
  match sv_unresolved state with
  | (path, reason) :: _ => refuse path reason
  | [] =>
      _ ← each (sv_orphans state) (fun orphan => removeOrRefuse orphan orphan);
      reaped ← reap_all (sv_dead state);
      _ ← (match of_mode Exclusive (sv_live state) with [] => tidy [EXCLUSIVE_DIR] | _ => mret tt end);
      _ ← (match of_mode Shared (sv_live state) with [] => tidy [SHARED_DIR] | _ => mret tt end);
      mret {| cs_exclusive := head (of_mode Exclusive (sv_live state));
              cs_shared := of_mode Shared (sv_live state); cs_reaped := reaped |}
  end.

(** ** Publishing *)

(** A path, its parent, and so on up to the root. *)
Fixpoint levels_of (n : nat) (path : Path) : list Path :=
  match n with O => [path] | S n' => path :: levels_of n' (take n' path) end.
Definition levels (path : Path) : list Path := levels_of (length path) path.

(** The levels that are missing, deepest first, up to one that is there. *)
Fixpoint missing_levels (l : list Path) : P (list Path) :=
  match l with
  | [] => mret []
  | level :: l =>
      entry ← ask (Lstat level);
      match entry with
      | Ok _ => mret []
      | Throw ENOENT => rest ← missing_levels l; mret (level :: rest)
      | Throw e => raise (Errno e)
      end
  end.

Definition make_level (level : Path) : P unit :=
  r ← ask (Change (Mkdir level));
  match r with
  | Ok _ | Throw EEXIST => mret tt
  | Throw e => raise (Errno e)
  end.

Definition createClaimDir (path : Path) : P unit :=
  r ← ask (Change (MkdirRecursive path));
  match r with
  | Ok _ => mret tt
  | Throw ENOENT =>
      missing ← missing_levels (levels path); each (reverse missing) make_level
  | Throw e => raise (Errno e)
  end.

(** [rmSync(path, { force: true })]. *)
Definition rm_force (path : Path) : P unit :=
  r ← ask (Change (Unlink path));
  match r with Ok _ | Throw ENOENT => mret tt | Throw e => raise (Errno e) end.

(** [rmSync(path, { recursive: true, force: true })] of a file, or of a directory of files. *)
Definition rm_recursive (path : Path) : P unit :=
  entry ← ask (Lstat path);
  match entry with
  | Throw ENOENT => mret tt
  | Throw e => raise (Errno e)
  | Ok false => rm_force path
  | Ok true =>
      r ← ask (Readdir path);
      match r with
      | Throw ENOENT => mret tt
      | Throw e => raise (Errno e)
      | Ok l =>
          _ ← each l (fun name => rm_force (path ++ [name]));
          r ← ask (Change (Rmdir path));
          match r with Ok _ | Throw ENOENT => mret tt | Throw e => raise (Errno e) end
      end
  end.

Definition removeStaging (staging : Path) (recursive : bool) : P unit :=
  if recursive then rm_recursive staging else rm_force staging.

(** Whether an error means that another process is at the store, and if so whether it denied access,
    which only Windows answers. *)
Definition contention (error : claim_error) : option bool :=
  match error with
  | Errno (EEXIST | ENOTEMPTY | ENOENT | EINVAL) => Some false
  | _ => None
  end.

(** The level that is not a directory. *)
Fixpoint blocking_level (l : list Path) : P (option Path) :=
  match l with
  | [] => mret None
  | level :: l =>
      r ← ask (Lstat level);
      match r with
      | Ok false => mret (Some level)
      | Ok true | Throw (ENOENT | ENOTDIR) => blocking_level l
      | Throw _ => mret None
      end
  end.

Definition refuseNonDirectory {A} (path : Path) : P A :=
  blocking ← blocking_level (levels path);
  match blocking with
  | None => raise (ClaimUnavailable
      (js "the non-directory path could not be identified; the claim store may have changed"))
  | Some level =>
      raise (ClaimRefused level (js "the claim path is a file, not a claim directory") true)
  end.

Definition staging_name (claimId : units) : units := STAGING_PREFIX ++ claimId.

(** [inl denied] where another process is at the store. *)
Definition publishExclusive (payload claimId : units) : P (bool + Path) :=
  let staging := [staging_name claimId] in
  catch
    (_ ← createClaimDir staging;
     _ ← sys (Change (WriteFile (staging ++ [claim_name claimId]) payload));
     _ ← sys (Change (Rename staging [EXCLUSIVE_DIR]));
     mret (inr [EXCLUSIVE_DIR; claim_name claimId]))
    (fun error =>
     _ ← removeStaging staging true;
     match contention error with
     | Some denied => mret (inl denied)
     | None =>
         match error with
         | Errno ENOTDIR => refuseNonDirectory [EXCLUSIVE_DIR]
         | _ => raise error
         end
     end).

Definition publishShared (payload claimId : units) : P (bool + Path) :=
  let staging := [staging_name claimId] in
  let target := [SHARED_DIR; claim_name claimId] in
  catch
    (_ ← createClaimDir [SHARED_DIR];
     _ ← sys (Change (WriteFile staging payload));
     _ ← sys (Change (Rename staging target));
     mret (inr target))
    (fun error =>
     _ ← removeStaging staging false;
     match contention error with
     | Some denied => mret (inl denied)
     | None => raise error
     end).

(** ** Releasing *)

Definition releaseClaim (handle : ClaimHandle) : P bool :=
  current ← readClaim (ha_path handle) (ha_mode handle);
  match current with
  | Absent => mret true
  | Unreadable _ => mret false
  | Read current =>
      if decide (ch_claimId current = ha_claimId handle) then
        removed ← catch (_ ← rm_force (childPath (ha_path handle));
                         _ ← rm_force (ha_path handle); mret true)
                    (fun _ => mret false);
        if removed : bool then
          _ ← tidy [claim_dir (ha_mode handle)]; _ ← tidy []; mret true
        else mret false
      else mret false
  end.

(** ** Acquiring *)

Definition settleOrRelease (claim : ClaimHandle) : P ClaimSetState :=
  catch inspectClaimSet (fun error => _ ← releaseClaim claim; raise error).

Definition mode_text (mode : ClaimMode) : units :=
  match mode with Exclusive => js "exclusive" | Shared => js "shared" end.

Definition owner_json (owner : ClaimOwner) : json :=
  JObject [(js "pid", JNumber (pid owner)); (js "processToken", JString (processToken owner))].

Definition payload_json (claimId : units) (mode : ClaimMode) (owner : ClaimOwner) (startedAt : units)
    (details : json) : json :=
  JObject [(js "claimId", JString claimId); (js "mode", JString (mode_text mode));
           (js "owner", owner_json owner); (js "startedAt", JString startedAt);
           (js "details", details)].

(** What a published claim comes to. *)
Definition settle_published (claim : ClaimHandle) (reaped : list ClaimHolder) : P ClaimAttempt :=
  settled ← settleOrRelease claim;
  let reaped := reaped ++ cs_reaped settled in
  match ha_mode claim, cs_exclusive settled, cs_shared settled with
  | Shared, None, _ => mret (Acquired claim reaped)
  | Shared, Some holder, _ => _ ← releaseClaim claim; mret (Held holder reaped)
  | Exclusive, _, [] => mret (Acquired claim reaped)
  | Exclusive, _, holders => mret (WaitingFor holders claim reaped)
  end.

(** After the last attempt. *)
Definition give_up_claim (mode : ClaimMode) (denied : bool) (reaped : list ClaimHolder) :
    P ClaimAttempt :=
  contender ← inspectClaimSet;
  let reaped := reaped ++ cs_reaped contender in
  match cs_exclusive contender, mode, cs_shared contender with
  | Some holder, _, _ | None, Exclusive, holder :: _ => mret (Held holder reaped)
  | _, _, _ =>
      if denied
      then raise (ClaimUnavailable (js "access was denied on every one of 64 attempts to publish it"))
      else refuse [] (js "another process took and gave up the claim on every one of 64 attempts to take it")
  end.

(** An attempt: [inl denied] where another process was at the store. *)
Definition attempt_claim (mode : ClaimMode) (details : json) (owner : ClaimOwner)
    (reaped : list ClaimHolder) : P ((bool * list ClaimHolder) + ClaimAttempt) :=
  made ← catch (_ ← createClaimDir []; mret None)
    (fun error =>
     match error with
     | Errno (EEXIST | ENOTDIR) => refuseNonDirectory []
     | _ => match contention error with Some denied => mret (Some denied) | None => raise error end
     end);
  match made with
  | Some denied => mret (inl (denied, reaped))
  | None =>
      state ← inspectClaimSet;
      let reaped := reaped ++ cs_reaped state in
      match cs_exclusive state with
      | Some holder => mret (inr (Held holder reaped))
      | None =>
          claimId ← ask RandomUUID;
          startedAt ← ask DateText;
          let payload := JSON_stringify (payload_json claimId mode owner startedAt details) in
          published ← match mode with
                      | Shared => publishShared payload claimId
                      | Exclusive => publishExclusive payload claimId
                      end;
          match published with
          | inl denied => mret (inl (denied, reaped))
          | inr path =>
              attempt ← settle_published
                {| ha_path := path; ha_claimId := claimId; ha_mode := mode; ha_owner := owner;
                   ha_startedAt := startedAt; ha_details := details |} reaped;
              mret (inr attempt)
          end
      end
  end.

Fixpoint attempts (n : nat) (mode : ClaimMode) (details : json) (owner : ClaimOwner) (denied : bool)
    (reaped : list ClaimHolder) : P ClaimAttempt :=
  match n with
  | O => give_up_claim mode denied reaped
  | S n =>
      r ← attempt_claim mode details owner reaped;
      match r with
      | inl (why, reaped) => attempts n mode details owner (denied && why) reaped
      | inr attempt => mret attempt
      end
  end.

Definition tryAcquireClaim (mode : ClaimMode) (details : json) : P ClaimAttempt :=
  owner ← selfOwner; attempts PUBLISH_ATTEMPTS mode details owner true [].

Definition settleClaim (pending : ClaimHandle) : P ClaimAttempt :=
  state ← inspectClaimSet;
  mret match cs_shared state with
       | [] => Acquired pending (cs_reaped state)
       | holders => WaitingFor holders pending (cs_reaped state)
       end.

(** ** Children and details *)

(** A file is written aside and renamed into place. *)
Definition write_aside (staging target : Path) (text : units) : P unit :=
  catch (_ ← sys (Change (WriteFile staging text)); sys (Change (Rename staging target)))
    (fun error => _ ← rm_force staging; raise error).

Definition writeChild (handle : ClaimHandle) (record : json) : P unit :=
  write_aside [STAGING_PREFIX ++ js "child-" ++ ha_claimId handle] (childPath (ha_path handle))
    (JSON_stringify (JObject [(js "record", record)])).

Definition markClaimChildPending (handle : ClaimHandle) : P unit := writeChild handle JNull.

Definition setClaimChild (handle : ClaimHandle) (record : json) : P unit :=
  match asOwner (Some record) with
  | None => raise (ClaimUnavailable (js "the child process identity was not a pid and token pair"))
  | Some child => writeChild handle (owner_json child)
  end.

Definition clearClaimChild (handle : ClaimHandle) : P unit := rm_force (childPath (ha_path handle)).

Definition updateClaimDetails (handle : ClaimHandle) (details : json) : P (option ClaimHandle) :=
  current ← readClaim (ha_path handle) (ha_mode handle);
  match current with
  | Read current =>
      if decide (ch_claimId current = ha_claimId handle) then
        _ ← write_aside [STAGING_PREFIX ++ js "details-" ++ ha_claimId handle] (ha_path handle)
              (JSON_stringify (payload_json (ha_claimId handle) (ha_mode handle) (ha_owner handle)
                                 (ha_startedAt handle) details));
        mret (Some {| ha_path := ha_path handle; ha_claimId := ha_claimId handle;
                      ha_mode := ha_mode handle; ha_owner := ha_owner handle;
                      ha_startedAt := ha_startedAt handle; ha_details := details |})
      else mret None
  | _ => mret None
  end.

(** ** Clearing a free set *)

Inductive ClaimSetClearance :=
| Cleared
| ClearHeld (holder : option ClaimHolder)
| ClearRefused (reason : units)
| ClearFailed (reason : units).

Definition tidySet : P unit :=
  _ ← tidy [EXCLUSIVE_DIR]; _ ← tidy [SHARED_DIR]; tidy [].

Definition removeAbandonedStaging : P unit :=
  listing ← names [];
  match listing with
  | UnreadableDir => mret tt
  | Names listed =>
      each (List.filter (starts_with STAGING_PREFIX) listed) (fun name => rm_recursive [name])
  end.

Definition error_text (error : claim_error) : units :=
  match error with
  | ClaimRefused _ reason _ => reason
  | ClaimUnavailable reason => reason
  | Errno e => errno_text e
  end.

Definition after_clearing : P ClaimSetClearance :=
  _ ← tidySet;
  remaining ← names [];
  match remaining with
  | UnreadableDir => mret (ClearFailed (js "its directory could not be read"))
  | Names remaining =>
      after ← readClaimSet;
      mret match sv_live after, sv_unresolved after, remaining with
           | holder :: _, _, _ => ClearHeld (Some holder)
           | [], (_, reason) :: _, _ => ClearRefused reason
           | [], [], _ :: _ => ClearFailed (js "it still holds " ++ join_with (js ", ") remaining)
           | [], [], [] => Cleared
           end
  end.

Definition clearFreeClaimSet : P ClaimSetClearance :=
  attempt ← catch (attempt ← tryAcquireClaim Exclusive (JObject []); mret (inr attempt))
    (fun error => mret (inl match error with
                            | Errno e => ClearFailed (errno_text e)
                            | _ => ClearRefused (error_text error)
                            end));
  match attempt with
  | inl clearance => mret clearance
  | inr (Held holder _) => mret (ClearHeld (Some holder))
  | inr (WaitingFor holders pending _) => _ ← releaseClaim pending; mret (ClearHeld (head holders))
  | inr (Acquired claim _) =>
      failed ← catch (_ ← removeAbandonedStaging; mret None)
                 (fun error => mret (Some (ClearFailed (error_text error))));
      _ ← releaseClaim claim;
      match failed with Some clearance => mret clearance | None => after_clearing end
  end.

(** ** A client

    What a program may do with one claim, one command after the other: it takes, settles and releases
    it, names the child that works for it and changes its details. It relies on the claim from when
    it acquired it until it starts to release it. *)

Inductive Command :=
| CmdAcquire (mode : ClaimMode) (details : json)
| CmdSettle
| CmdRelease
| CmdMarkChild
| CmdSetChild (record : json)
| CmdClearChild
| CmdUpdate (details : json)
| CmdInspect.

(** A program's claim, and whether it was acquired. *)
Abbreviation Holding := (option (bool * ClaimHandle)).

Definition holding_of (attempt : result claim_error ClaimAttempt) (otherwise : Holding) : Holding :=
  match attempt with
  | Ok (Acquired claim _) => Some (true, claim)
  | Ok (WaitingFor _ pending _) => Some (false, pending)
  | Ok (Held _ _) => None
  | Throw _ => otherwise
  end.

(** A claim that was just acquired is entered. *)
Definition entering (holding : Holding) : prog Holding :=
  match holding with
  | Some (true, claim) => Call (Enter (ha_mode claim) (ha_claimId claim)) (fun _ => Done holding)
  | _ => Done holding
  end.

Definition try_ {A} (p : P A) : prog unit := prog_bind (fun _ => Done tt) p.

Definition command (cmd : Command) (holding : Holding) : prog Holding :=
  match cmd, holding with
  | CmdAcquire mode details, None =>
      prog_bind (fun r => entering (holding_of r None)) (tryAcquireClaim mode details)
  | CmdSettle, Some (false, claim) =>
      prog_bind (fun r => entering (holding_of r holding)) (settleClaim claim)
  | CmdRelease, Some (true, claim) =>
      Call Leave (fun _ => prog_bind (fun _ => Done None) (releaseClaim claim))
  | CmdRelease, Some (false, claim) => prog_bind (fun _ => Done None) (releaseClaim claim)
  | CmdMarkChild, Some (true, claim) =>
      prog_bind (fun _ => Done holding) (try_ (markClaimChildPending claim))
  | CmdSetChild record, Some (true, claim) =>
      prog_bind (fun _ => Done holding) (try_ (setClaimChild claim record))
  | CmdClearChild, Some (true, claim) =>
      prog_bind (fun _ => Done holding) (try_ (clearClaimChild claim))
  | CmdUpdate details, Some (true, claim) =>
      prog_bind (fun r => Done match r with
                               | Ok (Some claim') => Some (true, claim')
                               | _ => holding
                               end) (updateClaimDetails claim details)
  | CmdInspect, _ => prog_bind (fun _ => Done holding) (try_ inspectClaimSet)
  | _, _ => Done holding
  end.

Fixpoint client (cmds : list Command) (holding : Holding) : prog unit :=
  match cmds with
  | [] => Done tt
  | cmd :: cmds => prog_bind (fun holding => client cmds holding) (command cmd holding)
  end.

End Claims.
