(* ===== verification/ClaimLogic.v ===== *)
(** * Reasoning about claims between processes

    The invariant of a claim set, what one program guarantees to the others with each call, and what it
    may rely on between two calls of its own; proofs of programs against both. *)

From Stdlib Require Import ZArith Lia.
From S2P Require Import Prelude.
From S2P Require Import Bytes.
From S2P Require Import Json.
From S2P Require Import FileSystem.
From S2P Require Import OwnershipClaim.
Open Scope Z_scope.

(** ** Names *)

Lemma ends_with_spec suffix s : ends_with suffix s = true ↔ ∃ a, s = a ++ suffix.
Proof.
  induction s as [|u s IH]; cbn.
  - rewrite orb_false_r, bool_decide_eq_true. split; [intros <-; by exists []|].
    intros [a Ha]. by destruct a; [|done].
  - rewrite orb_true_iff, bool_decide_eq_true, IH. split.
    + intros [<-|[a ->]]; [by exists []|by exists (u :: a)].
    + intros [[|u' a] Ha]; cbn in Ha; [by left|]. simplify_eq. right. by exists a.
Qed.

Lemma take_app_suffix {A} (a s : list A) : take (length (a ++ s) - length s) (a ++ s) = a.
Proof. rewrite length_app, Nat.add_sub. apply take_app_length. Qed.

Lemma claim_of_name_spec n i : claim_of_name n = Some i ↔ n = claim_name i.
Proof.
  unfold claim_of_name, claim_name. destruct (ends_with CLAIM_SUFFIX n) eqn:He.
  - apply ends_with_spec in He as [a ->]. rewrite take_app_suffix. split; [by intros [= ->]|].
    intros Ha. by apply app_inv_tail in Ha as ->.
  - split; [done|]. intros ->. assert (ends_with CLAIM_SUFFIX (i ++ CLAIM_SUFFIX) = true); [|congruence].
    apply ends_with_spec. by exists i.
Qed.

Lemma claim_name_inj i j : claim_name i = claim_name j → i = j.
Proof. by intros ?%app_inv_tail. Qed.

Lemma child_name_inj i j : child_name i = child_name j → i = j.
Proof. by intros ?%app_inv_tail. Qed.

Lemma claim_not_child i j : claim_name i ≠ child_name j.
Proof. unfold claim_name, child_name. intros H. by apply app_inj_2 in H as [_ H]. Qed.

Lemma claim_ends i : ends_with CLAIM_SUFFIX (claim_name i) = true.
Proof. apply ends_with_spec. by exists i. Qed.

Lemma child_not_claim_end i : ends_with CLAIM_SUFFIX (child_name i) = false.
Proof.
  apply not_true_iff_false. intros [a Ha]%ends_with_spec. by apply (claim_not_child a i).
Qed.

Lemma childPath_claim d i : childPath [d; claim_name i] = [d; child_name i].
Proof. cbn [childPath]. unfold claim_name, child_name. by rewrite take_app_suffix. Qed.

Lemma claim_dir_inj m m' : claim_dir m = claim_dir m' → m = m'.
Proof. by destruct m, m'. Qed.

(** The names a program writes aside for one claim. *)
Definition staging_names (i : units) : list units :=
  [staging_name i; STAGING_PREFIX ++ js "child-" ++ i; STAGING_PREFIX ++ js "details-" ++ i].

Lemma staging_not_dir i n m : n ∈ staging_names i → n ≠ claim_dir m.
Proof.
  unfold staging_names. rewrite !elem_of_cons, elem_of_nil.
  intros [->|[->|[->|[]]]]; by destruct m.
Qed.

Lemma staging_disjoint i j n :
  length i = UUID_LENGTH → length j = UUID_LENGTH →
  n ∈ staging_names i → n ∈ staging_names j → i = j.
Proof.
  intros Hi Hj. unfold staging_names. rewrite !elem_of_cons, elem_of_nil.
  intros [->|[->|[->|[]]]] [He|[He|[He|[]]]]; unfold staging_name in He; apply app_inv_head in He;
    try done; try (apply app_inv_head in He; done);
    apply (f_equal length) in He; rewrite ?length_app, Hi, Hj in He; vm_compute in He; lia.
Qed.

(** ** Claims that are present *)

Lemma elem_present st m i :
  (m, i) ∈ present st ↔ is_Some (files st (claim_dir m) !! claim_name i).
Proof.
  assert (Hin : ∀ m', (m, i) ∈ present_in st m' ↔
    m = m' ∧ is_Some (files st (claim_dir m') !! claim_name i)).
  { intros m'. unfold present_in. rewrite list_elem_of_omap. split.
    - intros ([n t] & Hn & Hc). apply elem_of_map_to_list in Hn.
      destruct (claim_of_name n) as [j|] eqn:Hj; [|done]. cbn in Hc. simplify_eq.
      apply claim_of_name_spec in Hj as ->. split; [done|]. by exists t.
    - intros [-> [t Ht]]. exists (claim_name i, t). split; [by apply elem_of_map_to_list|].
      by rewrite (proj2 (claim_of_name_spec _ _) eq_refl). }
  unfold present. rewrite elem_of_app, !Hin. destruct m; naive_solver.
Qed.

Lemma NoDup_present st : NoDup (present st).
Proof.
  assert (Hin : ∀ m, NoDup (present_in st m)).
  { intros m. unfold present_in. pose proof (NoDup_fst_map_to_list (files st (claim_dir m))) as Hn.
    induction (map_to_list (files st (claim_dir m))) as [|[n t] l IH]; cbn; [constructor|].
    apply NoDup_cons in Hn as [Hn Hl]. destruct (claim_of_name n) as [i|] eqn:Hi; cbn; [|by apply IH].
    apply NoDup_cons. split; [|by apply IH]. intros ([n' t'] & Hin & Hc)%list_elem_of_omap.
    destruct (claim_of_name n') as [j|] eqn:Hj; [|done]. cbn in Hc. simplify_eq.
    apply claim_of_name_spec in Hi as ->. apply claim_of_name_spec in Hj as ->.
    apply Hn. apply list_elem_of_fmap. by exists (claim_name i, t'). }
  unfold present. apply NoDup_app. split_and!; [apply Hin| |apply Hin].
  intros [m i] He Hs. unfold present_in in He, Hs. apply list_elem_of_omap in He as ([? ?] & _ & He).
  apply list_elem_of_omap in Hs as ([? ?] & _ & Hs). destruct (claim_of_name _), (claim_of_name _); naive_solver.
Qed.

Lemma filter_single {A} `{EqDecision A} (P : A → Prop) `{!∀ x, Decision (P x)} l y :
  NoDup l → y ∈ l → (∀ x, x ∈ l → P x ↔ x = y) → base.filter P l = [y].
Proof.
  induction l as [|x l IH]; intros Hn Hy Hp; [by apply elem_of_nil in Hy|].
  apply NoDup_cons in Hn as [Hx Hn]. rewrite filter_cons.
  assert (Hrest : P x → base.filter P l = []).
  { intros Px. apply filter_none, Forall_forall. intros z Hz Pz.
    apply Hp in Px; [|by left]. apply Hp in Pz; [|by right]. by subst. }
  destruct (decide (P x)) as [Px|Px].
  - rewrite Hrest by done. f_equal. by apply Hp; [left|].
  - apply IH; [done| |]; [|intros z Hz; apply Hp; by right].
    apply elem_of_cons in Hy as [->|Hy]; [|done]. destruct Px. apply Hp; [by left|done].
Qed.

Lemma set_store_gone w st i :
  i ∈ w_gone (set_store w st) ↔
  i ∈ w_gone w ∨ ∃ m, (m, i) ∈ present (w_store w) ∧ (m, i) ∉ present st.
Proof.
  cbn. rewrite elem_of_union, elem_of_list_to_set, list_elem_of_fmap. split.
  - intros [?|([m j] & -> & [? ?]%list_elem_of_filter)]; [by left|]. right. by exists m.
  - intros [?|(m & ? & ?)]; [by left|]. right. exists (m, i). split; [done|].
    by apply list_elem_of_filter.
Qed.

Lemma set_store_no_new w st :
  (∀ c, c ∈ present st → c ∈ present (w_store w)) → w_published (set_store w st) = w_published w.
Proof.
  intros H. cbn. rewrite filter_none; [apply app_nil_r|]. apply Forall_forall. intros c Hc Hn.
  by apply Hn, H.
Qed.

Lemma set_store_one w st c :
  c ∈ present st → c ∉ present (w_store w) →
  (∀ c', c' ∈ present st → c' = c ∨ c' ∈ present (w_store w)) →
  w_published (set_store w st) = w_published w ++ [c].
Proof.
  intros Hc Hn Hall. cbn. f_equal. apply filter_single; [apply NoDup_present|done|].
  intros x Hx. split; [|by intros ->]. intros Hnx. by destruct (Hall x Hx).
Qed.

(** ** The invariant *)

Section Logic.
Context {Htext : NodeText}.
Variable proc : nat → ClaimOwner.
Variable decode_pid : units → option Z.

Abbreviation token_of := (token_of proc).
Abbreviation claim_files w m := (files (w_store w) (claim_dir m)).

(** Nobody works under a claim any more: its owner ended, and so did its child, if it named one, with
    the child's group. *)
Definition dead (w : World) (i : units) : Prop :=
  ∃ b, w_ids w !! i = Some b ∧ token_of b ∉ w_alive w ∧
    ∀ m t, claim_files w m !! child_name i = Some t →
      ∃ o, child_record t = Read _ (Some o) ∧ processToken o ∉ w_alive w ∧
        processToken o ∉ w_groups w.

Definition other_mode (m : ClaimMode) : ClaimMode :=
  match m with Exclusive => Shared | Shared => Exclusive end.

(** Every claim of the other mode that was published before some time after this one was is gone or
    dead. *)
Definition acquired (w : World) (m : ClaimMode) (i : units) : Prop :=
  ∃ k n, w_published w !! k = Some (m, i) ∧ (k < n)%nat ∧ (n <= length (w_published w))%nat ∧
    ∀ j s, (j < n)%nat → w_published w !! j = Some (other_mode m, s) → s ∈ w_gone w ∨ dead w s.

Record inv (w : World) : Prop := {
  inv_dirs m t : entries (w_store w) !! claim_dir m ≠ Some (EFile t);
  inv_present m i : is_Some (claim_files w m !! claim_name i) ↔
                    (m, i) ∈ w_published w ∧ i ∉ w_gone w;
  inv_record m i t v j o : claim_files w m !! claim_name i = Some t →
    claim_record t = Some (v, j, o) → j = i ∧ ∃ b, w_ids w !! i = Some b ∧ o = proc b;
  inv_names m n t : claim_files w m !! n = Some t →
    ∃ i, (m, i) ∈ w_published w ∧ (n = claim_name i ∨ n = child_name i);
  inv_one i j : is_Some (claim_files w Exclusive !! claim_name i) →
                is_Some (claim_files w Exclusive !! claim_name j) → i = j;
  inv_published : NoDup (snd <$> w_published w);
  inv_ids m i : (m, i) ∈ w_published w → is_Some (w_ids w !! i);
  inv_lengths i b : w_ids w !! i = Some b → length i = UUID_LENGTH;
  inv_gone i : i ∈ w_gone w → ∃ m, (m, i) ∈ w_published w;
  inv_staging i n : length i = UUID_LENGTH → n ∈ staging_names i → is_Some (entries (w_store w) !! n) →
    is_Some (w_ids w !! i);
  inv_groups token g : token ∈ w_groups w → decode_pid token = Some g → 1 < g <= MAX_SAFE_INTEGER;
  inv_inside a m i : w_inside w !! a = Some (m, i) →
    w_ids w !! i = Some a ∧ acquired w m i ∧ (i ∈ w_gone w → dead w i);
}.

(** ** What holds from then on *)

Record mono (w w' : World) : Prop := {
  mono_published : w_published w `prefix_of` w_published w';
  mono_gone : w_gone w ⊆ w_gone w';
  mono_alive : w_alive w' ⊆ w_alive w;
  mono_groups : w_groups w' ⊆ w_groups w;
  mono_ids i b : w_ids w !! i = Some b → w_ids w' !! i = Some b;
  mono_dead i : dead w i → dead w' i;
  mono_child i b m t : w_ids w !! i = Some b → token_of b ∉ w_alive w →
    claim_files w m !! child_name i = Some t →
    claim_files w' m !! child_name i = Some t ∨ dead w' i ∨ i ∈ w_gone w';
  mono_clock : w_clock w <= w_clock w';
}.

#[local] Instance mono_preorder : PreOrder mono.
Proof using Type.
  clear decode_pid.
  split; [by split; auto|].
  intros w1 w2 w3 [P1 G1 A1 R1 I1 D1 C1 T1] [P2 G2 A2 R2 I2 D2 C2 T2].
  split; [by etrans|set_solver..|eauto|eauto| |lia].
  intros i b m t Hi Ha Ht. destruct (C1 i b m t Hi Ha Ht) as [Ht'|[?|?]]; [|by eauto|by eauto].
  apply (C2 i b m t); [by eauto|set_solver|done].
Qed.

(** What others leave to a program: its staging files, its claims, its ids. *)
Record own (a : nat) (w w' : World) : Prop := {
  own_staging i n : w_ids w !! i = Some a → n ∈ staging_names i →
    entries (w_store w') !! n = entries (w_store w) !! n;
  own_gone i : w_ids w !! i = Some a → i ∈ w_gone w' → i ∈ w_gone w;
  own_ids i : w_ids w' !! i = Some a → w_ids w !! i = Some a;
  own_published m i : w_ids w !! i = Some a → (m, i) ∈ w_published w' → (m, i) ∈ w_published w;
  own_inside : w_inside w' !! a = w_inside w !! a;
}.

Lemma own_refl a w : own a w w.
Proof. by split. Qed.

Definition alive (a : nat) (w : World) : Prop := token_of a ∈ w_alive w.

Definition rely (a : nat) (w w' : World) : Prop := mono w w' ∧ (alive a w' → own a w w').

(** A program removes only its own claims and dead ones, and leaves alone what is the others'. *)
Record guar (a : nat) (w w' : World) : Prop := {
  guar_mono : mono w w';
  guar_gone i : i ∈ w_gone w' → i ∈ w_gone w ∨ dead w i ∨ w_ids w !! i = Some a;
  guar_child m i : claim_files w' m !! child_name i ≠ claim_files w m !! child_name i →
    i ∈ w_gone w ∨ dead w i ∨ w_ids w !! i = Some a;
  guar_own b : b ≠ a → alive b w' → own b w w';
}.

Lemma rely_refl a w : rely a w w.
Proof. split; [done|]. intros _. apply own_refl. Qed.

Lemma rely_trans a w1 w2 w3 : rely a w1 w2 → rely a w2 w3 → rely a w1 w3.
Proof.
  intros [M1 O1] [M2 O2]. split; [by etrans|]. intros H3. destruct (O2 H3) as [S2 G2 I2 P2 N2].
  assert (alive a w2) as H2 by (by eapply mono_alive).
  destruct (O1 H2) as [S1 G1 I1 P1 N1]. split.
  - intros i n Hi Hn. rewrite (S2 i n), (S1 i n); [done..| |done]. by eapply mono_ids.
  - intros i Hi Hg. apply (G1 i Hi), (G2 i); [by eapply mono_ids|done].
  - auto.
  - intros m i Hi Hp. apply (P1 m i Hi), (P2 m i); [by eapply mono_ids|done].
  - congruence.
Qed.

Lemma guar_rely a b w w' : guar a w w' → b ≠ a → rely b w w'.
Proof. intros [Hm _ _ Ho] Hb. split; [done|]. intros Ha. by apply Ho. Qed.

Lemma guar_refl a w : guar a w w.
Proof. split; [done|by left|done|]. intros b _ _. apply own_refl. Qed.

(** ** Persistent facts *)

Lemma published_mono w w' k c :
  mono w w' → w_published w !! k = Some c → w_published w' !! k = Some c.
Proof. intros [Hp _ _ _ _ _ _ _] Hk. by eapply prefix_lookup_Some. Qed.

Lemma elem_published_mono w w' c : mono w w' → c ∈ w_published w → c ∈ w_published w'.
Proof. intros [[l ->] _ _ _ _ _ _ _] Hc. apply elem_of_app. by left. Qed.

Lemma acquired_mono w w' m i : mono w w' → acquired w m i → acquired w' m i.
Proof.
  intros Hm (k & n & Hk & Hkn & Hn & Hall). exists k, n.
  assert (length (w_published w) <= length (w_published w'))%nat.
  { destruct Hm as [[l ->] _ _ _ _ _ _ _]. rewrite length_app. lia. }
  split_and!; [by eapply published_mono|done|lia|]. intros j s Hj Hs.
  assert (w_published w !! j = Some (other_mode m, s)) as Hs'.
  { destruct Hm as [[l Hl] _ _ _ _ _ _ _]. rewrite Hl, lookup_app_l in Hs; [done|]. lia. }
  destruct (Hall j s Hj Hs'); [left|right]; [by eapply mono_gone|by eapply mono_dead].
Qed.

Lemma alive_not_dead a w i : alive a w → w_ids w !! i = Some a → ¬ dead w i.
Proof. intros Ha Hi (b & Hb & Hn & _). rewrite Hi in Hb. simplify_eq. done. Qed.

(** Two claims of one id are one. *)
Lemma published_mode w m m' i : inv w → (m, i) ∈ w_published w → (m', i) ∈ w_published w → m = m'.
Proof.
  intros Hi H1 H2. apply list_elem_of_lookup in H1 as [k1 H1]. apply list_elem_of_lookup in H2 as [k2 H2].
  pose proof (inv_published w Hi) as Hn.
  assert (k1 = k2) as ->; [|congruence].
  eapply NoDup_lookup; [exact Hn| |]; rewrite list_lookup_fmap; [rewrite H1|rewrite H2]; done.
Qed.

(** Programs that rely on claims under which somebody works: only shared claims go together. *)
Lemma inv_excludes w a b m i m' j :
  inv w → a ≠ b → w_inside w !! a = Some (m, i) → w_inside w !! b = Some (m', j) →
  ¬ dead w i → ¬ dead w j → m = Shared ∧ m' = Shared.
Proof.
  intros Hinv Hab Ha Hb Hdi Hdj. assert (Hcross : ∀ i j, acquired w Exclusive i → acquired w Shared j →
    i ∉ w_gone w → j ∉ w_gone w → ¬ dead w i → ¬ dead w j → False).
  { clear. intros i j (k & n & Hk & Hkn & _ & Hall) (k' & n' & Hk' & Hkn' & _ & Hall') Hi Hj Hdi Hdj.
    destruct (decide (k' < n)%nat) as [Hlt|Hge].
    - destruct (Hall k' j Hlt Hk'); done.
    - destruct (Hall' k i) as [?|?]; [lia|done|done|done]. }
  destruct (inv_inside w Hinv _ _ _ Ha) as (Hia & Haq & Hga).
  destruct (inv_inside w Hinv _ _ _ Hb) as (Hjb & Hbq & Hgb).
  assert (i ∉ w_gone w) as Hni by naive_solver. assert (j ∉ w_gone w) as Hnj by naive_solver.
  assert (Hpres : ∀ m i, acquired w m i → i ∉ w_gone w → is_Some (claim_files w m !! claim_name i)).
  { intros m0 i0 (k & _ & Hk & _) Hn. apply (inv_present w Hinv). split; [|done].
    by eapply list_elem_of_lookup_2. }
  destruct m, m'; [|by destruct (Hcross i j)|by destruct (Hcross j i)|done].
  assert (i = j) as <- by (apply (inv_one w Hinv); by apply Hpres). congruence.
Qed.

(** ** Changes of the store *)

(** A program may remove a dead claim, and its own once it does not rely on it. *)
Definition removable (a : nat) (w : World) (i : units) : Prop :=
  dead w i ∨ (w_ids w !! i = Some a ∧ ∀ m, w_inside w !! a ≠ Some (m, i)).

Lemma dead_set_store w st i :
  (∀ m t, files st (claim_dir m) !! child_name i = Some t →
     claim_files w m !! child_name i = Some t) → dead w i → dead (set_store w st) i.
Proof. intros Hc (b & Hb & Ha & Hm). exists b. split_and!; [done|done|]. eauto. Qed.

(** Staging entries of other programs stay. *)
Definition spares (a : nat) (w : World) (st : Store) : Prop :=
  ∀ i n, length i = UUID_LENGTH → w_ids w !! i ≠ Some a → n ∈ staging_names i →
    entries st !! n = entries (w_store w) !! n.

Lemma spares_staging a w st i n :
  inv w → spares a w st → length i = UUID_LENGTH → n ∈ staging_names i → is_Some (entries st !! n) →
  is_Some (w_ids w !! i).
Proof.
  intros Hi Hs Hl Hn He. destruct (decide (w_ids w !! i = Some a)) as [->|Hne]; [by eexists|].
  rewrite (Hs i n Hl Hne Hn) in He. by eapply (inv_staging w Hi).
Qed.

Section Shrink.
Context (a : nat) (w : World) (st : Store) (Hinv : inv w) (Halive : alive a w).
Hypothesis Hdirs : ∀ m t, entries st !! claim_dir m ≠ Some (EFile t).
Hypothesis Hsub : ∀ m n t, files st (claim_dir m) !! n = Some t → claim_files w m !! n = Some t.
Hypothesis Hclaims : ∀ m i, is_Some (claim_files w m !! claim_name i) →
  files st (claim_dir m) !! claim_name i = None → removable a w i.
Hypothesis Hchildren : ∀ m i, is_Some (claim_files w m !! child_name i) →
  files st (claim_dir m) !! child_name i = None →
  i ∈ w_gone w ∨ dead w i ∨ w_ids w !! i = Some a.
Hypothesis Hspares : spares a w st.

Lemma shrink_published : w_published (set_store w st) = w_published w.
Proof.
  apply set_store_no_new. intros [m i]. rewrite !elem_present. intros [t Ht]. exists t. by apply Hsub.
Qed.

Lemma shrink_gone i : i ∈ w_gone (set_store w st) → i ∈ w_gone w ∨ removable a w i.
Proof.
  rewrite set_store_gone. intros [?|(m & Hp & Hn)]; [by left|]. right.
  rewrite elem_present in Hp. rewrite elem_present in Hn. apply (Hclaims m); [done|].
  by apply eq_None_not_Some.
Qed.

Lemma shrink_mono : mono w (set_store w st).
Proof.
  split; try done.
  - by rewrite shrink_published.
  - cbn. set_solver.
  - intros i. apply dead_set_store. intros m t. apply Hsub.
  - intros i b m t Hi Hb Ht. cbn. destruct (files st (claim_dir m) !! child_name i) as [t'|] eqn:E.
    { apply Hsub in E. left. congruence. }
    destruct (Hchildren m i) as [?|[?|Hia]]; [by eexists|done|..].
    + right. right. set_solver.
    + right. left. apply dead_set_store; [|done]. intros m' t''. apply Hsub.
    + rewrite Hi in Hia. simplify_eq. done.
Qed.

Lemma shrink_inv : inv (set_store w st).
Proof.
  pose proof shrink_mono as Hm. pose proof shrink_published as Hp.
  assert (Hk : ∀ m i, is_Some (files st (claim_dir m) !! claim_name i) →
    is_Some (claim_files w m !! claim_name i)) by (intros m i [t Ht]; exists t; by apply Hsub).
  split; rewrite ?Hp.
  - done.
  - intros m i. rewrite set_store_gone. split.
    + intros Hs. apply Hk in Hs as Hs'. apply (inv_present w Hinv) in Hs' as [Hpub Hg].
      split; [done|]. intros [?|(m' & Hpr & Hn)]; [done|]. rewrite elem_present in Hpr. rewrite elem_present in Hn.
      apply (inv_present w Hinv) in Hpr as [Hpub' _].
      by rewrite (published_mode w m' m i Hinv Hpub' Hpub) in Hn.
    + intros [Hpub Hg]. assert (is_Some (claim_files w m !! claim_name i)) as Hs.
      { apply (inv_present w Hinv). split; [done|]. intros ?. apply Hg. by left. }
      cbn. destruct (files st (claim_dir m) !! claim_name i) eqn:E; [done|]. exfalso. apply Hg. right.
      exists m. rewrite !elem_present, E. split; [done|by intros [? [=]]].
  - intros m i t v j o Ht. apply (inv_record w Hinv m i t), Hsub, Ht.
  - intros m n t Ht. apply (inv_names w Hinv m n t), Hsub, Ht.
  - intros i j H1 H2. apply (inv_one w Hinv); by apply (Hk Exclusive).
  - apply (inv_published w Hinv).
  - apply (inv_ids w Hinv).
  - apply (inv_lengths w Hinv).
  - intros i [Hg|Hr]%set_store_gone; [by apply (inv_gone w Hinv)|].
    destruct Hr as (m & Hpr & _). rewrite elem_present in Hpr. exists m. by apply (inv_present w Hinv).
  - intros i n. by apply (spares_staging a w st).
  - apply (inv_groups w Hinv).
  - intros b m i Hb. destruct (inv_inside w Hinv b m i Hb) as (Hi & Ha & Hg).
    split_and!; [done|by eapply acquired_mono|]. intros [Hg'|[Hd|[Hia Hni]]]%shrink_gone.
    + by apply (mono_dead _ _ Hm), Hg.
    + by apply (mono_dead _ _ Hm).
    + rewrite Hi in Hia. simplify_eq. by destruct (Hni m).
Qed.

Lemma shrink_guar : guar a w (set_store w st).
Proof.
  split.
  - apply shrink_mono.
  - intros i [?|[?|[? _]]]%shrink_gone; auto.
  - intros m i Hne. cbn in Hne. apply (Hchildren m).
    + destruct (claim_files w m !! child_name i) eqn:E; [done|].
      destruct (files st (claim_dir m) !! child_name i) eqn:E'; [|done].
      apply Hsub in E'. congruence.
    + destruct (files st (claim_dir m) !! child_name i) eqn:E'; [|done].
      apply Hsub in E'. congruence.
  - intros b Hb Hal. split; [| |done| |done].
    + intros i n Hi. apply Hspares; [by eapply (inv_lengths w Hinv)|congruence].
    + intros i Hi [?|[Hd|[Hia _]]]%shrink_gone; [done| |congruence].
      by destruct (alive_not_dead b w i Hal Hi).
    + intros m i _. by rewrite shrink_published.
Qed.
End Shrink.

(** A claim, or what a program writes of its own claim. *)
Section Write.
Context (a : nat) (w : World) (st : Store) (m : ClaimMode) (i n t : units).
Hypothesis Hinv : inv w.
Hypothesis Halive : alive a w.
Hypothesis Hid : w_ids w !! i = Some a.
Hypothesis Hdirs : ∀ m t, entries st !! claim_dir m ≠ Some (EFile t).
Hypothesis Hfiles : files st (claim_dir m) = <[n := t]> (claim_files w m).
Hypothesis Hother : files st (claim_dir (other_mode m)) = claim_files w (other_mode m).
Hypothesis Hname : n = claim_name i ∨ (n = child_name i ∧ is_Some (claim_files w m !! claim_name i)).
Hypothesis Hrecord : n = claim_name i → ∀ v j o, claim_record t = Some (v, j, o) → j = i ∧ o = proc a.
Hypothesis Hfresh : is_Some (claim_files w m !! claim_name i) ∨
  (∀ m', (m', i) ∉ w_published w) ∧ (m = Exclusive → claim_files w m = ∅).
Hypothesis Hspares : spares a w st.

Lemma write_lookup m' n' :
  files st (claim_dir m') !! n' =
  if decide (m' = m ∧ n' = n) then Some t else claim_files w m' !! n'.
Proof.
  destruct (decide (m' = m)) as [->|Hm].
  - rewrite Hfiles. destruct (decide (n' = n)) as [->|Hn].
    + rewrite decide_True by done. apply lookup_insert_eq.
    + rewrite decide_False by naive_solver. by apply lookup_insert_ne.
  - rewrite decide_False by naive_solver. assert (m' = other_mode m) as -> by (by destruct m, m').
    by rewrite Hother.
Qed.

Lemma write_claim m' j :
  is_Some (files st (claim_dir m') !! claim_name j) ↔
  is_Some (claim_files w m' !! claim_name j) ∨ (m' = m ∧ j = i).
Proof.
  rewrite write_lookup. case_decide as Hd.
  - destruct Hd as [-> Hd]. split; [|by eexists]. intros _.
    pose proof Hname as [->|[-> _]]; [|by destruct (claim_not_child j i)].
    right. split; [done|]. by apply claim_name_inj.
  - split; [by left|]. intros [?|[-> ->]]; [done|]. pose proof Hname as [->|[_ ?]]; [|done].
    by destruct Hd.
Qed.

Lemma write_gone : w_gone (set_store w st) = w_gone w.
Proof.
  apply leibniz_equiv. intros j. rewrite set_store_gone. split; [|by left].
  intros [?|(m' & H1 & H2)]; [done|]. rewrite elem_present in H1. rewrite elem_present, write_claim in H2. naive_solver.
Qed.

Lemma write_cases :
  (is_Some (claim_files w m !! claim_name i) ∧ w_published (set_store w st) = w_published w) ∨
  (n = claim_name i ∧ (∀ m', (m', i) ∉ w_published w) ∧ (m = Exclusive → claim_files w m = ∅) ∧
   w_published (set_store w st) = w_published w ++ [(m, i)]).
Proof.
  destruct (decide (is_Some (claim_files w m !! claim_name i))) as [E|E].
  - left. split; [done|]. apply set_store_no_new. intros [m' j]. rewrite !elem_present, write_claim.
    by intros [?|[-> ->]].
  - right. pose proof Hfresh as [?|[Hf He]]; [done|]. pose proof Hname as [Hn|[_ ?]]; [|done].
    split_and!; [done..|]. apply set_store_one.
    + rewrite elem_present, write_claim. by right.
    + by rewrite elem_present.
    + intros [m' j]. rewrite !elem_present, write_claim. intros [?|[-> ->]]; [by right|by left].
Qed.

Lemma write_mono : mono w (set_store w st).
Proof.
  split; try done.
  - destruct write_cases as [[_ ->]|(_ & _ & _ & ->)]; [done|]. by eexists.
  - by rewrite write_gone.
  - intros j Hj. apply dead_set_store; [|done]. intros m' t'. rewrite write_lookup. case_decide as Hd; [|done].
    destruct Hd as [-> Hd]. pose proof Hname as [->|[-> _]]; [by destruct (claim_not_child i j)|].
    apply child_name_inj in Hd as ->. by destruct (alive_not_dead a w i).
  - intros j b m' t' Hj Hb Ht. cbn [w_store set_store]. rewrite write_lookup.
    case_decide as Hd; [|by left]. destruct Hd as [-> Hd].
    pose proof Hname as [->|[-> _]]; [by destruct (claim_not_child i j)|].
    apply child_name_inj in Hd as ->. rewrite Hid in Hj. simplify_eq. done.
Qed.

Lemma write_elem_published m' j :
  (m', j) ∈ w_published (set_store w st) ↔ (m', j) ∈ w_published w ∨ (m' = m ∧ j = i).
Proof.
  destruct write_cases as [[Hs ->]|(_ & _ & _ & ->)].
  - split; [by left|]. intros [?|[-> ->]]; [done|]. by apply (inv_present w Hinv).
  - rewrite elem_of_app, list_elem_of_singleton. naive_solver.
Qed.

Lemma write_not_gone : i ∉ w_gone w.
Proof.
  destruct write_cases as [[Hs _]|(_ & Hf & _)]; [by apply (inv_present w Hinv) in Hs as [_ ?]|].
  intros [m' Hm']%(inv_gone w Hinv). by destruct (Hf m').
Qed.

Lemma write_inv : inv (set_store w st).
Proof.
  pose proof write_mono as Hm. pose proof write_not_gone as Hng. split; rewrite ?write_gone.
  - done.
  - intros m' j. cbn [w_store set_store]. rewrite write_claim, write_elem_published, (inv_present w Hinv).
    naive_solver.
  - intros m' j t' v j' o. cbn [w_store set_store w_ids]. rewrite write_lookup. case_decide as Hd.
    + destruct Hd as [-> Hd]. intros [= <-] Hr. assert (j = i) as ->.
      { pose proof Hname as [->|[-> _]]; [by apply claim_name_inj|by destruct (claim_not_child j i)]. }
      destruct (Hrecord (eq_sym Hd) _ _ _ Hr) as [-> ->]. eauto.
    + by apply (inv_record w Hinv).
  - intros m' n' t'. cbn [w_store set_store]. rewrite write_lookup. case_decide as Hd.
    + intros _. exists i. rewrite write_elem_published. naive_solver.
    + intros (j & ? & ?)%(inv_names w Hinv). exists j. rewrite write_elem_published. naive_solver.
  - intros j j'. cbn [w_store set_store]. rewrite !write_claim.
    assert (Hsame : ∀ k, Exclusive = m → is_Some (claim_files w Exclusive !! claim_name k) → k = i).
    { intros k Hk0 Hk. destruct write_cases as [[Hs _]|(_ & _ & He & _)].
      - apply (inv_one w Hinv); [done|]. by rewrite Hk0.
      - rewrite Hk0, He, lookup_empty in Hk by done. by destruct Hk. }
    intros [H1|[E1 ->]] [H2|[E2 ->]]; [by apply (inv_one w Hinv)|by apply Hsame|symmetry; by apply Hsame|done].
  - destruct write_cases as [[_ ->]|(_ & Hf & _ & ->)]; [apply (inv_published w Hinv)|].
    rewrite fmap_app. apply NoDup_app. split_and!; [apply (inv_published w Hinv)| |apply NoDup_singleton].
    intros j Hj Hi. apply list_elem_of_singleton in Hi as ->. cbn in Hj.
    apply list_elem_of_fmap in Hj as ([m' j] & -> & Hj). by destruct (Hf m').
  - intros m' j. rewrite write_elem_published. intros [?|[-> ->]]; [by eapply (inv_ids w Hinv)|by eexists].
  - apply (inv_lengths w Hinv).
  - intros j (m' & Hm')%(inv_gone w Hinv). exists m'. rewrite write_elem_published. by left.
  - intros j n'. by apply (spares_staging a w st).
  - apply (inv_groups w Hinv).
  - intros b m' j Hb. destruct (inv_inside w Hinv b m' j Hb) as (Hi & Ha & Hg).
    split_and!; [done|by eapply acquired_mono|]. intros Hj. by apply (mono_dead _ _ Hm), Hg.
Qed.

Lemma write_guar : guar a w (set_store w st).
Proof.
  split; rewrite ?write_gone.
  - apply write_mono.
  - by left.
  - intros m' j. cbn [w_store set_store]. rewrite write_lookup. case_decide as Hd; [|done].
    intros _. right. right. destruct Hd as [_ Hd].
    pose proof Hname as [->|[-> _]]; [by destruct (claim_not_child i j)|]. by apply child_name_inj in Hd as ->.
  - intros b Hb Hal. split; rewrite ?write_gone; try done.
    + intros j n' Hj. apply Hspares; [by eapply (inv_lengths w Hinv)|congruence].
    + intros m' j Hj. rewrite write_elem_published. intros [?|[-> ->]]; [done|congruence].
Qed.
End Write.

(** ** Programs

    Whatever the others do between its calls, each call of the program keeps the invariant, gives the
    others their guarantee and is a step of [G]; when it is done, [Q] holds. *)

Fixpoint ok (a : nat) (G : World → World → Prop) {A} (p : prog A) (Q : A → World → Prop) (w : World) :
    Prop :=
  match p with
  | Done x => Q x w
  | Call c k =>
      ∀ w1, rely a w w1 → inv w1 → alive a w1 →
      ∀ w2 b, answers proc decode_pid a c w1 w2 b →
        inv w2 ∧ guar a w1 w2 ∧ G w1 w2 ∧ ok a G (k b) Q w2
  end.

(** A step of a program that leaves its own mark alone, and one that also keeps its claims. *)
Definition loose (a : nat) (w w' : World) : Prop := w_inside w' !! a = w_inside w !! a.
Definition calm (a : nat) (w w' : World) : Prop :=
  loose a w w' ∧ ∀ i, w_ids w !! i = Some a → i ∈ w_gone w' → i ∈ w_gone w.

Lemma loose_refl a w : loose a w w.
Proof. done. Qed.

Lemma calm_refl a w : calm a w w.
Proof. by split. Qed.

Lemma own_calm a w w' : own a w w' → calm a w w'.
Proof. intros [_ Hg _ _ Hi]. by split. Qed.

Lemma calm_trans a w1 w2 w3 : mono w1 w2 → calm a w1 w2 → calm a w2 w3 → calm a w1 w3.
Proof.
  intros Hm [L1 G1] [L2 G2]. split; [unfold loose in *; congruence|]. intros i Hi Hg.
  apply G1, G2; [done| |done]. by eapply mono_ids.
Qed.

(** ** Rules *)

Lemma ok_weaken a (G G' : World → World → Prop) {A} (p : prog A) (Q Q' : A → World → Prop) w :
  (∀ w1 w2, G w1 w2 → G' w1 w2) → (∀ x w, Q x w → Q' x w) → ok a G p Q w → ok a G' p Q' w.
Proof.
  intros HG HQ. revert w. induction p as [x|B c k IH]; intros w; cbn; [apply HQ|].
  intros H w1 Hr Hi Ha w2 b Hb. destruct (H w1 Hr Hi Ha w2 b Hb) as (? & ? & ? & ?). auto.
Qed.

Lemma ok_mono a G {A} (p : prog A) (Q Q' : A → World → Prop) w :
  ok a G p Q w → (∀ x w, Q x w → Q' x w) → ok a G p Q' w.
Proof. intros H HQ. by eapply ok_weaken. Qed.

Lemma ok_bind a G {A B} (p : prog A) (f : A → prog B) Q w :
  ok a G p (fun x w => ok a G (f x) Q w) w → ok a G (prog_bind f p) Q w.
Proof.
  revert w. induction p as [x|C c k IH]; intros w; cbn; [done|].
  intros H w1 Hr Hi Ha w2 b Hb. destruct (H w1 Hr Hi Ha w2 b Hb) as (? & ? & ? & ?). auto.
Qed.

Lemma ok_rely a G {A} (p : prog A) (Q : A → World → Prop) w w' :
  (∀ x w w', rely a w w' → Q x w → Q x w') → rely a w w' → ok a G p Q w → ok a G p Q w'.
Proof.
  intros HQ Hr. destruct p as [x|B c k]; cbn; [by apply HQ|].
  intros H w1 Hr1. apply H. by eapply rely_trans.
Qed.

(** What passed while a program ran. *)
Lemma ok_past a G (R : World → World → Prop) {A} (p : prog A) (Q : A → World → Prop) w :
  (∀ w, R w w) → (∀ w1 w2 w3, mono w1 w2 → R w1 w2 → R w2 w3 → R w1 w3) →
  (∀ w1 w2, rely a w1 w2 → alive a w2 → R w1 w2) → (∀ w1 w2, guar a w1 w2 → G w1 w2 → R w1 w2) →
  ok a G p Q w → ok a G p (fun x w' => R w w' ∧ mono w w' ∧ Q x w') w.
Proof.
  intros Hrefl Htrans Hrely Hguar. revert w. induction p as [x|B c k IH]; intros w; cbn; [done|].
  intros H w1 Hr Hi Ha w2 b Hb. destruct (H w1 Hr Hi Ha w2 b Hb) as (Hi2 & Hg & HG & Hok).
  split_and!; [done..|]. specialize (IH b w2 Hok). eapply ok_mono; [exact IH|].
  intros x w' (HR & Hm & HQ). destruct Hr as [Hm1 Ho1]. destruct Hg as [Hm2 Hg2 Hc2 Ho2].
  split_and!; [|by do 2 (etrans; [done|])|done].
  eapply (Htrans w w1); [done|by apply Hrely|]. eapply (Htrans w1 w2); [done| |done].
  by apply Hguar.
Qed.

Lemma ok_later a G {A} (p : prog A) (Q : A → World → Prop) w :
  ok a G p Q w → ok a G p (fun x w' => mono w w' ∧ Q x w') w.
Proof.
  intros H. eapply ok_mono; [apply (ok_past a G (fun _ _ => True)); [done..|exact H]|].
  by intros x w' (_ & ? & ?).
Qed.

Lemma ok_loose a {A} (p : prog A) (Q : A → World → Prop) w :
  ok a (loose a) p Q w → ok a (loose a) p (fun x w' => loose a w w' ∧ mono w w' ∧ Q x w') w.
Proof.
  apply ok_past; [apply loose_refl| | |done].
  - unfold loose. congruence.
  - intros w1 w2 [_ Ho] Ha. by destruct (own_calm _ _ _ (Ho Ha)).
Qed.

Lemma ok_calm a {A} (p : prog A) (Q : A → World → Prop) w :
  ok a (calm a) p Q w → ok a (calm a) p (fun x w' => calm a w w' ∧ mono w w' ∧ Q x w') w.
Proof.
  apply ok_past; [apply calm_refl| |intros w1 w2 [_ Ho] Ha; by apply own_calm, Ho|done].
  intros w1 w2 w3. apply calm_trans.
Qed.

Lemma ok_calm_loose a {A} (p : prog A) (Q : A → World → Prop) w :
  ok a (calm a) p Q w → ok a (loose a) p Q w.
Proof. apply ok_weaken; [by intros w1 w2 [? _]|done]. Qed.

(** ** Programs that throw: [E] holds when they do. *)

Definition okp (a : nat) (G : World → World → Prop) {A} (p : P A) (Q : A → World → Prop)
    (w : World) : Prop :=
  ok a G p (fun r w => match r with Ok x => Q x w | Throw _ => True end) w.

Lemma okp_ret a G {A} (x : A) (Q : A → World → Prop) w : Q x w → okp a G (mret x) Q w.
Proof. done. Qed.

Lemma okp_raise a G {A} e (Q : A → World → Prop) w : okp a G (raise e) Q w.
Proof. done. Qed.

Lemma okp_bind a G {A B} (p : P A) (f : A → P B) (Q : B → World → Prop) w :
  okp a G p (fun x w => okp a G (f x) Q w) w → okp a G (p ≫= f) Q w.
Proof.
  intros H. apply ok_bind. eapply ok_mono; [exact H|]. by intros [x|e] w'.
Qed.

Lemma okp_mono a G {A} (p : P A) (Q Q' : A → World → Prop) w :
  okp a G p Q w → (∀ x w, Q x w → Q' x w) → okp a G p Q' w.
Proof. intros H HQ. eapply ok_mono; [exact H|]. intros [x|e] w'; [apply HQ|done]. Qed.

Lemma okp_later a G {A} (p : P A) (Q : A → World → Prop) w :
  okp a G p Q w → okp a G p (fun x w' => mono w w' ∧ Q x w') w.
Proof. intros H. eapply ok_mono; [apply ok_later, H|]. intros [x|e] w'; naive_solver. Qed.

Lemma okp_calm a {A} (p : P A) (Q : A → World → Prop) w :
  okp a (calm a) p Q w → okp a (calm a) p (fun x w' => calm a w w' ∧ mono w w' ∧ Q x w') w.
Proof. intros H. eapply ok_mono; [apply ok_calm, H|]. intros [x|e] w'; naive_solver. Qed.

Lemma okp_loose a {A} (p : P A) (Q : A → World → Prop) w :
  okp a (loose a) p Q w → okp a (loose a) p (fun x w' => loose a w w' ∧ mono w w' ∧ Q x w') w.
Proof. intros H. eapply ok_mono; [apply ok_loose, H|]. intros [x|e] w'; naive_solver. Qed.

Lemma okp_calm_loose a {A} (p : P A) (Q : A → World → Prop) w :
  okp a (calm a) p Q w → okp a (loose a) p Q w.
Proof. apply ok_calm_loose. Qed.

Lemma okp_catch a {A} (p : P A) h (Q : A → World → Prop) w :
  okp a (loose a) p Q w →
  (∀ e w', loose a w w' → mono w w' → okp a (loose a) (h e) Q w') →
  okp a (loose a) (catch p h) Q w.
Proof.
  intros Hp Hh. apply ok_bind. eapply ok_mono; [apply ok_loose, Hp|].
  intros [x|e] w' (Hl & Hm & HQ); [done|]. by apply Hh.
Qed.

Lemma okp_catch_calm a {A} (p : P A) h (Q : A → World → Prop) w :
  okp a (calm a) p Q w →
  (∀ e w', calm a w w' → mono w w' → okp a (calm a) (h e) Q w') →
  okp a (calm a) (catch p h) Q w.
Proof.
  intros Hp Hh. apply ok_bind. eapply ok_mono; [apply ok_calm, Hp|].
  intros [x|e] w' (Hl & Hm & HQ); [done|]. by apply Hh.
Qed.

(** ** Calls *)

(** A call that only reads. *)
Lemma okp_read a (G : World → World → Prop) {B} (c : call B) (Q : B → World → Prop) w :
  (∀ w, G w w) → (∀ w1 w2 b, answers proc decode_pid a c w1 w2 b → w2 = w1) →
  (∀ w1 b, rely a w w1 → inv w1 → alive a w1 → answers proc decode_pid a c w1 w1 b → Q b w1) →
  okp a G (ask c) Q w.
Proof.
  intros HG Hro HQ w1 Hr Hi Ha w2 b Hb. pose proof (Hro w1 w2 b Hb) as ->.
  split_and!; [done|apply guar_refl|done|]. by apply HQ.
Qed.

(** A change of the store, made or refused. *)
Lemma okp_change a (G : World → World → Prop) c (Q : result errno unit → World → Prop) w :
  (∀ w, G w w) →
  (∀ w1 st, rely a w w1 → inv w1 → alive a w1 → change c (w_store w1) = Ok st →
     inv (set_store w1 st) ∧ guar a w1 (set_store w1 st) ∧ G w1 (set_store w1 st) ∧
     Q (Ok tt) (set_store w1 st)) →
  (∀ w1 e, rely a w w1 → inv w1 → alive a w1 → Q (Throw e) w1) →
  okp a G (ask (Change c)) Q w.
Proof.
  intros HG Hok Hfail w1 Hr Hi Ha w2 b. cbn [answers]. intros [H|[-> (e & -> & _)]].
  - destruct (change c (w_store w1)) as [st|e] eqn:Hc; destruct H as [-> ->].
    + by apply Hok.
    + split_and!; [done|apply guar_refl|done|]. by apply Hfail.
  - split_and!; [done|apply guar_refl|done|]. by apply Hfail.
Qed.

End Logic.

#[export] Existing Instance mono_preorder.
