(* ===== verification/ClaimSteps.v ===== *)
(** * What the programs of a claim set do, call by call

    For each function of [OwnershipClaim.v] up to publishing and releasing: whatever other programs do
    between its calls, each call keeps the invariant and the guarantee of [ClaimLogic.v], and its
    answer says what the callers rely on. *)

From Stdlib Require Import ZArith Lia.
From S2P Require Import Prelude.
From S2P Require Import Bytes.
From S2P Require Import Json.
From S2P Require Import FileSystem.
From S2P Require Import OwnershipClaim.
From S2P Require Import ClaimLogic.
Open Scope Z_scope.

(** ** What calls read and change *)

Lemma readFile_ok st d n t : readFile st [d; n] = Ok t → files st d !! n = Some t.
Proof.
  unfold readFile, node, files, entries. destruct st as [| |m]; try done.
  destruct (m !! d) as [[|f]|]; try done. destruct (f !! n); by intros [= ->].
Qed.

Lemma readFile_absent st d n : readFile st [d; n] = Throw ENOENT → files st d !! n = None.
Proof.
  unfold readFile, node, files, entries. destruct st as [| |m]; try done.
  destruct (m !! d) as [[|f]|]; try done. by destruct (f !! n).
Qed.

Lemma readdir_ok st d l n : readdir st [d] = Ok l → n ∈ l ↔ is_Some (files st d !! n).
Proof.
  unfold readdir, node, files, entries. destruct st as [| |m]; try done.
  destruct (m !! d) as [[|f]|]; try done. intros [= <-].
  change (map fst (map_to_list f)) with ((map_to_list f).*1).
  rewrite list_elem_of_fmap. split.
  - intros ([k t] & -> & Hk%elem_of_map_to_list). by exists t.
  - intros [t Ht]. exists (n, t). split; [done|]. by apply elem_of_map_to_list.
Qed.

Lemma node_absent st d : node st [d] = Throw ENOENT → files st d = ∅.
Proof.
  unfold node, files, entries. destruct st as [| |m]; try done. by destruct (m !! d) as [[|f]|].
Qed.

Lemma lstat_absent st d : lstat st [d] = Throw ENOENT → files st d = ∅.
Proof.
  unfold lstat. intros H. apply node_absent. destruct (node st [d]); [done|]. by injection H as ->.
Qed.

Lemma readdir_absent st d : readdir st [d] = Throw ENOENT → files st d = ∅.
Proof.
  unfold readdir. intros H. apply node_absent.
  destruct (node st [d]) as [[|]|]; [done..|]. by injection H as ->.
Qed.

Lemma files_insert st d e d' :
  files (SDir (<[d := e]> (entries st))) d' =
  if decide (d' = d) then match e with EDir f => f | EFile _ => ∅ end else files st d'.
Proof.
  unfold files. cbn. case_decide as Hd; [by subst; rewrite lookup_insert_eq|].
  by rewrite lookup_insert_ne.
Qed.

Lemma files_delete st d d' :
  files (SDir (delete d (entries st))) d' = if decide (d' = d) then ∅ else files st d'.
Proof.
  unfold files. cbn. case_decide as Hd; [by subst; rewrite lookup_delete_eq|].
  by rewrite lookup_delete_ne.
Qed.

(** A directory made, an empty one removed: no file changes. *)
Lemma change_mkdir c p st st' :
  (c = Mkdir p ∨ c = MkdirRecursive p) → (length p <= 1)%nat → change c st = Ok st' →
  entries st' = entries st ∨
  ∃ d, p = [d] ∧ entries st !! d = None ∧ entries st' = <[d := EDir ∅]> (entries st).
Proof.
  intros Hc Hp. destruct p as [|d [|]]; [| |cbn in Hp; lia];
    destruct Hc as [-> | ->], st as [| |m]; cbn; intros Hch; cases_in Hch; simplify_eq/=;
    first [left; reflexivity | right; exists d; by split_and!].
Qed.

Lemma change_rmdir p st st' :
  (length p <= 1)%nat → change (Rmdir p) st = Ok st' →
  entries st' = entries st ∨
  ∃ d, p = [d] ∧ entries st !! d = Some (EDir ∅) ∧ entries st' = delete d (entries st).
Proof.
  intros Hp. destruct p as [|d [|]]; [| |cbn in Hp; lia];
    destruct st as [| |m]; cbn; intros Hch; cases_in Hch; simplify_eq/=;
    first [left; reflexivity | right; exists d; by split_and!].
Qed.

Lemma change_unlink_in d n st st' :
  change (Unlink [d; n]) st = Ok st' →
  ∃ f t, entries st !! d = Some (EDir f) ∧ f !! n = Some t ∧
    entries st' = <[d := EDir (delete n f)]> (entries st).
Proof. destruct st as [| |m]; cbn; intros Hch; cases_in Hch; simplify_eq/=; eauto 10. Qed.

Lemma change_unlink d st st' :
  change (Unlink [d]) st = Ok st' →
  ∃ t, entries st !! d = Some (EFile t) ∧ entries st' = delete d (entries st).
Proof. destruct st as [| |m]; cbn; intros Hch; cases_in Hch; simplify_eq/=; eauto 10. Qed.

Lemma change_write d t st st' :
  change (WriteFile [d] t) st = Ok st' →
  (∀ f, entries st !! d ≠ Some (EDir f)) ∧ entries st' = <[d := EFile t]> (entries st).
Proof. destruct st as [| |m]; cbn; intros Hch; cases_in Hch; simplify_eq/=; split; congruence. Qed.

Lemma change_write_in d n t st st' :
  change (WriteFile [d; n] t) st = Ok st' →
  ∃ f, entries st !! d = Some (EDir f) ∧ entries st' = <[d := EDir (<[n := t]> f)]> (entries st).
Proof. destruct st as [| |m]; cbn; intros Hch; cases_in Hch; simplify_eq/=; eauto. Qed.

Lemma change_rename_dir s d st st' f :
  s ≠ d → entries st !! s = Some (EDir f) → change (Rename [s] [d]) st = Ok st' →
  (entries st !! d = None ∨ entries st !! d = Some (EDir ∅)) ∧
  entries st' = <[d := EDir f]> (delete s (entries st)).
Proof.
  intros Hsd Hs. destruct st as [| |m]; cbn in *; try done. unfold rename_entry. rewrite Hs.
  intros Hch. cases_in Hch; simplify_eq/=; naive_solver.
Qed.

Lemma change_rename_in s d n st st' :
  change (Rename [s] [d; n]) st = Ok st' →
  ∃ t f, entries st !! s = Some (EFile t) ∧ entries st !! d = Some (EDir f) ∧
    entries st' = <[d := EDir (<[n := t]> f)]> (delete s (entries st)).
Proof. destruct st as [| |m]; cbn; intros Hch; cases_in Hch; simplify_eq/=; eauto 10. Qed.

Section Claims.
Context {Htext : NodeText}.
Variable proc : nat → ClaimOwner.
Variable decode_pid : units → option Z.

Abbreviation inv := (ClaimLogic.inv proc decode_pid).
Abbreviation dead := (ClaimLogic.dead proc).
Abbreviation mono := (ClaimLogic.mono proc).
Abbreviation alive := (ClaimLogic.alive proc).
Abbreviation rely := (ClaimLogic.rely proc).
Abbreviation guar := (ClaimLogic.guar proc).
Abbreviation removable := (ClaimLogic.removable proc).
Abbreviation ok := (ClaimLogic.ok proc decode_pid).
Abbreviation okp := (ClaimLogic.okp proc decode_pid).
Abbreviation claim_files w m := (files (w_store w) (claim_dir m)).

(** ** Steps of the store *)

Definition step_ok (G : World → World → Prop) (a : nat) (w : World) (st : Store) : Prop :=
  inv (set_store w st) ∧ guar a w (set_store w st) ∧ G w (set_store w st).

(** The entries a program may change: its staging entries, and the directories of claims. *)
Definition mine (a : nat) (w : World) (d : units) : Prop :=
  ∃ i, w_ids w !! i = Some a ∧ d ∈ staging_names i.

Lemma spares_entry a w st d :
  inv w → mine a w d ∨ (∃ m, d = claim_dir m) →
  (∀ d', d' ≠ d → entries st !! d' = entries (w_store w) !! d') → spares a w st.
Proof.
  intros Hinv Hd He i n Hl Hi Hn. apply He. intros ->. destruct Hd as [(j & Hj & Hd)|[m ->]].
  - assert (length j = UUID_LENGTH) as Hlj by (by eapply (inv_lengths _ _ w Hinv)).
    by rewrite (staging_disjoint i j d Hl Hlj Hn Hd) in Hi.
  - by eapply staging_not_dir.
Qed.

Lemma shrink_step a w st :
  inv w → alive a w → (∀ m t, entries st !! claim_dir m ≠ Some (EFile t)) →
  (∀ m n t, files st (claim_dir m) !! n = Some t → claim_files w m !! n = Some t) →
  (∀ m i, is_Some (claim_files w m !! claim_name i) →
     files st (claim_dir m) !! claim_name i = None → removable a w i) →
  (∀ m i, is_Some (claim_files w m !! child_name i) →
     files st (claim_dir m) !! child_name i = None →
     i ∈ w_gone w ∨ dead w i ∨ w_ids w !! i = Some a) →
  spares a w st → step_ok (loose a) a w st.
Proof. intros. split_and!; [by eapply shrink_inv|by eapply shrink_guar|done]. Qed.

Lemma shrink_step_calm a w st :
  step_ok (loose a) a w st → alive a w →
  (∀ m i, is_Some (claim_files w m !! claim_name i) →
     files st (claim_dir m) !! claim_name i = None → dead w i) → step_ok (calm a) a w st.
Proof.
  intros (Hi & Hg & Hl) Ha Hdead. split_and!; [done|done|]. split; [done|]. intros i Hid.
  rewrite set_store_gone. intros [?|(m & Hp & Hn)]; [done|]. rewrite elem_present in Hp, Hn.
  apply eq_None_not_Some in Hn. by destruct (alive_not_dead proc a w i Ha Hid (Hdead m i Hp Hn)).
Qed.

(** A calm step that publishes nothing. *)
Definition still (a : nat) (w w' : World) : Prop :=
  calm a w w' ∧ ∀ m i, w_ids w !! i = Some a → (m, i) ∈ w_published w' → (m, i) ∈ w_published w.

Lemma still_refl a w : still a w w.
Proof. split; [apply calm_refl|done]. Qed.

Lemma still_trans a w1 w2 w3 : mono w1 w2 → still a w1 w2 → still a w2 w3 → still a w1 w3.
Proof.
  intros Hm [C1 P1] [C2 P2]. split; [by eapply calm_trans|]. intros m i Hi Hp.
  apply P1, P2; [done| |done]. by eapply mono_ids.
Qed.

Lemma still_rely a w w' : rely a w w' → alive a w' → still a w w'.
Proof.
  intros [_ Ho] Ha. split; [by apply own_calm, Ho|]. intros m i. apply (own_published _ _ _ (Ho Ha)).
Qed.

Lemma step_weaken (G G' : World → World → Prop) a w st :
  (∀ w w', G w w' → G' w w') → step_ok G a w st → step_ok G' a w st.
Proof. intros HG (? & ? & ?). split_and!; auto. Qed.

Lemma step_still a w st : step_ok (still a) a w st → step_ok (calm a) a w st.
Proof. apply step_weaken. by intros w1 w2 []. Qed.

(** No file of a claim directory changes. *)
Lemma quiet_step a w st :
  inv w → alive a w → (∀ m t, entries st !! claim_dir m ≠ Some (EFile t)) →
  (∀ m, files st (claim_dir m) = claim_files w m) → spares a w st → step_ok (still a) a w st.
Proof.
  intros Hi Ha Hd Hf Hs.
  assert (w_published (set_store w st) = w_published w) as Hp.
  { apply shrink_published. by intros m n t; rewrite Hf. }
  apply (step_weaken (fun w1 w2 => calm a w1 w2 ∧ w_published w2 = w_published w1)).
  { intros w1 w2 [? Hp']. split; [done|]. by rewrite Hp'. }
  enough (step_ok (calm a) a w st) as (? & ? & ?) by done.
  assert (Hno : ∀ m n, is_Some (claim_files w m !! n) → files st (claim_dir m) !! n = None → False).
  { intros m n. rewrite Hf. intros [t ->]. done. }
  apply shrink_step_calm; [|done|by intros; exfalso; eapply Hno].
  apply shrink_step; try done; [by intros m n t; rewrite Hf|by intros; exfalso; eapply Hno..].
Qed.

(** An entry of the root that is [mine], or an empty claim directory, changes. *)
Lemma quiet_insert a w st d e :
  inv w → alive a w → entries st = <[d := e]> (entries (w_store w)) →
  mine a w d ∨ (∃ m, d = claim_dir m ∧ e = EDir ∅ ∧ claim_files w m = ∅) → step_ok (still a) a w st.
Proof.
  intros Hi Ha He Hd.
  assert (Hmine : mine a w d → ∀ m, claim_dir m ≠ d).
  { intros (i & _ & Hn) m Hm. by eapply staging_not_dir; [exact Hn|]. }
  apply quiet_step; try done.
  - intros m t. rewrite He. destruct (decide (claim_dir m = d)) as [Hm|Hm].
    + destruct Hd as [Hd|(m' & _ & -> & _)]; [by destruct (Hmine Hd m)|].
      by rewrite Hm, lookup_insert_eq.
    + rewrite lookup_insert_ne by done. apply (inv_dirs _ _ w Hi).
  - intros m. transitivity (files (SDir (<[d := e]> (entries (w_store w)))) (claim_dir m)).
    { unfold files. by rewrite He. }
    rewrite files_insert. case_decide as Hm; [|done].
    destruct Hd as [Hd|(m' & -> & -> & Hf)]; [by destruct (Hmine Hd m)|].
    by apply claim_dir_inj in Hm as ->.
  - apply (spares_entry a w st d); [done|destruct Hd as [?|(m & ? & _)]; eauto|].
    intros d' Hd'. by rewrite He, lookup_insert_ne.
Qed.

Lemma quiet_delete a w st d :
  inv w → alive a w → entries st = delete d (entries (w_store w)) →
  mine a w d ∨ (∃ m, d = claim_dir m ∧ claim_files w m = ∅) → step_ok (still a) a w st.
Proof.
  intros Hi Ha He Hd.
  apply quiet_step; try done.
  - intros m t. rewrite He, lookup_delete_Some. intros [_ Ht]. by apply (inv_dirs _ _ w Hi) in Ht.
  - intros m. transitivity (files (SDir (delete d (entries (w_store w)))) (claim_dir m)).
    { unfold files. by rewrite He. }
    rewrite files_delete. case_decide as Hm; [|done].
    destruct Hd as [(i & _ & Hn)|(m' & -> & Hf)].
    + destruct (staging_not_dir i d m Hn). by subst.
    + by apply claim_dir_inj in Hm as ->.
  - apply (spares_entry a w st d); [done|destruct Hd as [?|(m & ? & _)]; eauto|].
    intros d' Hd'. by rewrite He, lookup_delete_ne.
Qed.

Lemma quiet_same a w st :
  inv w → alive a w → entries st = entries (w_store w) → step_ok (still a) a w st.
Proof.
  intros Hi Ha He. apply quiet_step; try done.
  - intros m t. rewrite He. apply (inv_dirs _ _ w Hi).
  - intros m. unfold files. by rewrite He.
  - intros i n _ _ _. by rewrite He.
Qed.

(** ** Calls that change the store *)

Lemma okp_mut a (G : World → World → Prop) c (Q : result errno unit → World → Prop) w :
  (∀ w, G w w) →
  (∀ w1 st, rely a w w1 → inv w1 → alive a w1 → change c (w_store w1) = Ok st →
     step_ok G a w1 st ∧ Q (Ok tt) (set_store w1 st)) →
  (∀ w1 e, rely a w w1 → inv w1 → alive a w1 → Q (Throw e) w1) → okp a G (ask (Change c)) Q w.
Proof.
  intros HG Hok Hfail. apply okp_change; [done| |done]. intros w1 st Hr Hi Ha Hc.
  destruct (Hok w1 st Hr Hi Ha Hc) as [(? & ? & ?) ?]. done.
Qed.

Lemma okp_sys_mut a (G : World → World → Prop) c (Q : unit → World → Prop) w :
  (∀ w, G w w) →
  (∀ w1 st, rely a w w1 → inv w1 → alive a w1 → change c (w_store w1) = Ok st →
     step_ok G a w1 st ∧ Q tt (set_store w1 st)) → okp a G (sys (Change c)) Q w.
Proof.
  intros HG Hok.
  assert (okp a G (ask (Change c)) (fun r w => r = Ok tt → Q tt w) w) as H.
  { apply okp_mut; [done| |done]. intros w1 st Hr Hi Ha Hc. by destruct (Hok w1 st Hr Hi Ha Hc). }
  intros w1 Hr Hi Ha w2 b Hb. destruct (H w1 Hr Hi Ha w2 b Hb) as (? & ? & ? & HQ).
  split_and!; [done..|]. destruct b as [[]|e]; [by apply HQ|done].
Qed.

Lemma okp_each a (G : World → World → Prop) (I : World → Prop) {A} (l : list A) body w :
  (∀ w w', mono w w' → I w → I w') → I w →
  (∀ x w, x ∈ l → I w → okp a G (body x) (fun _ _ => True) w) →
  okp a G (each l body) (fun _ _ => True) w.
Proof.
  intros HI Hw Hb. revert w Hw. induction l as [|x l IH]; intros w Hw; [done|]. cbn [each].
  apply okp_bind. eapply okp_mono; [apply okp_later, Hb; [by left|done]|].
  intros [] w' [Hm _]. apply IH; [|by eapply HI]. intros y w2 Hy. apply Hb. by right.
Qed.

Lemma mine_mono a w w' d : mono w w' → mine a w d → mine a w' d.
Proof. intros Hm (i & Hi & Hd). exists i. split; [|done]. by eapply mono_ids. Qed.

(** The directories a program makes and removes: its staging directory, those of the claims and the
    root. *)
Definition dir_of (a : nat) (w : World) (p : Path) : Prop :=
  p = [] ∨ ∃ d, p = [d] ∧ (mine a w d ∨ ∃ m, d = claim_dir m).

Lemma dir_of_mono a w w' p : mono w w' → dir_of a w p → dir_of a w' p.
Proof.
  intros Hm [?|(d & ? & [?|?])]; [by left|right; exists d..]; (split; [done|]); [left|by right].
  by eapply mine_mono.
Qed.

(** A staging directory that is not made yet, or still empty, stays so. *)
Definition bare (w : World) (d : units) : Prop :=
  entries (w_store w) !! d = None ∨ entries (w_store w) !! d = Some (EDir ∅).
Definition making (a : nat) (w w' : World) : Prop :=
  still a w w' ∧ ∀ d, mine a w d → bare w d → bare w' d.

Lemma making_refl a w : making a w w.
Proof. split; [apply still_refl|done]. Qed.

Lemma bare_rely a w w' d : rely a w w' → alive a w' → mine a w d → bare w d → bare w' d.
Proof.
  intros [_ Ho] Ha (i & Hi & Hd). unfold bare. by rewrite (own_staging _ _ _ (Ho Ha) i d).
Qed.

Lemma okp_making a {A} (p : P A) (Q : A → World → Prop) w :
  okp a (making a) p Q w → okp a (calm a) p (fun x w' => making a w w' ∧ mono w w' ∧ Q x w') w.
Proof.
  intros H. apply (ok_past proc decode_pid a (making a) (making a)) in H; [|apply making_refl| | |done].
  - eapply (ok_weaken proc decode_pid a (making a)); [by intros w1 w2 [[? _] _]| |exact H].
    intros [x|e] w'; naive_solver.
  - intros w1 w2 w3 Hm [S1 H1] [S2 H2]. split; [by eapply still_trans|].
    intros d Hd Hb. apply H2; [by eapply mine_mono|]. by apply H1.
  - intros w1 w2 Hr Ha. split; [by apply still_rely|]. intros d. by apply (bare_rely a).
Qed.

Lemma mkdir_ok a c p (Q : result errno unit → World → Prop) w :
  c = Mkdir p ∨ c = MkdirRecursive p → dir_of a w p → (∀ r w', mono w w' → Q r w') →
  okp a (making a) (ask (Change c)) Q w.
Proof.
  intros Hc Hp HQ. apply okp_mut; [apply making_refl| |intros w1 e [Hm _] _ _; by apply HQ].
  intros w1 st [Hm _] Hi Ha Hst. apply (dir_of_mono a w w1) in Hp; [|done].
  assert (length p <= 1)%nat as Hl by (destruct Hp as [->|(d & -> & _)]; cbn; lia).
  assert (step_ok (making a) a w1 st) as Hs.
  { destruct (change_mkdir c p _ st Hc Hl Hst) as [He|(d & -> & Hn & He)].
    - destruct (quiet_same a w1 st Hi Ha He) as (H1 & H2 & H3). split_and!; [done|done|].
      split; [done|]. unfold bare. cbn. by rewrite He.
    - destruct (quiet_insert a w1 st d (EDir ∅) Hi Ha He) as (H1 & H2 & H3).
      { destruct Hp as [|(d' & [= <-] & [?|[m ->]])]; [done|by left|]. right. exists m.
        split_and!; [done..|]. unfold files. by rewrite Hn. }
      split_and!; [done|done|]. split; [done|]. intros d' _. unfold bare. cbn. rewrite He.
      destruct (decide (d = d')) as [<-|]; [rewrite lookup_insert_eq; by right|].
      by rewrite lookup_insert_ne. }
  split; [done|]. apply HQ. etrans; [done|]. by destruct Hs as (_ & [? _ _ _] & _).
Qed.

(** What a call that does not change the world answers does not matter. *)
Lemma okp_ask a (G : World → World → Prop) {B} (c : call B) (Q : B → World → Prop) w :
  (∀ w, G w w) → (∀ w1 w2 b, answers proc decode_pid a c w1 w2 b → w2 = w1) →
  (∀ b w1, rely a w w1 → Q b w1) → okp a G (ask c) Q w.
Proof. intros HG Hro HQ. apply okp_read; [done..|]. intros. by apply HQ. Qed.

Lemma missing_levels_ok a l (Q : list Path → World → Prop) w :
  (∀ l' w', l' ⊆ l → mono w w' → Q l' w') → okp a (making a) (missing_levels l) Q w.
Proof.
  revert Q w. induction l as [|p l IH]; intros Q w HQ; [by apply okp_ret, HQ|]. cbn [missing_levels].
  apply okp_bind, okp_ask; [apply making_refl|by intros w1 w2 b [-> _]|].
  intros r w1 [Hm _]. destruct r as [b|[]]; try apply okp_raise.
  - apply okp_ret, HQ; [set_solver|done].
  - apply okp_bind, IH. intros l' w' Hl Hm'. apply okp_ret, HQ; [set_solver|by etrans].
Qed.

Lemma make_level_ok a p w : dir_of a w p → okp a (making a) (make_level p) (fun _ _ => True) w.
Proof.
  intros Hp. apply okp_bind. eapply mkdir_ok; [by left|done|]. by intros [[]|[]] w' Hm.
Qed.

Lemma createClaimDir_ok a p w :
  dir_of a w p →
  okp a (calm a) (createClaimDir p)
    (fun _ w' => making a w w' ∧ mono w w') w.
Proof.
  intros Hp. eapply okp_mono; [apply (okp_making a _ (fun _ _ => True))|naive_solver].
  apply okp_bind. eapply mkdir_ok; [by right|done|].
  intros [[]|[]] w1 Hm; try done. apply okp_bind, missing_levels_ok. intros l w2 Hl Hm2.
  apply (okp_each _ _ (fun w => ∀ q, q ∈ levels p → dir_of a w q)).
  - intros w3 w4 Hm3 Hq q Hin. eapply dir_of_mono; [done|]. by apply Hq.
  - intros q Hq. apply (dir_of_mono a w); [by etrans|]. destruct Hp as [->|(d & -> & Hd)].
    + cbn in Hq. apply list_elem_of_singleton in Hq as ->. by left.
    + cbn in Hq. apply elem_of_cons in Hq as [->|Hq]; [right; by exists d|].
      apply list_elem_of_singleton in Hq as ->. by left.
  - intros q w3 Hq Hd. apply make_level_ok, Hd. by apply Hl, elem_of_reverse.
Qed.

Lemma step_mono (G : World → World → Prop) a w st : step_ok G a w st → mono w (set_store w st).
Proof. by intros (_ & [? _ _ _] & _). Qed.

(** What a program does to its own staging entries. *)
Lemma stage_file_ok a d t (Q : unit → World → Prop) w :
  mine a w d →
  (∀ w', mono w w' → still a w w' → entries (w_store w') !! d = Some (EFile t) → Q tt w') →
  okp a (calm a) (sys (Change (WriteFile [d] t))) Q w.
Proof.
  intros Hd HQ. apply okp_sys_mut; [apply calm_refl|]. intros w1 st Hr Hi Ha Hst.
  apply change_write in Hst as [_ He]. pose proof Hr as [Hm _].
  assert (step_ok (still a) a w1 st) as Hs.
  { eapply quiet_insert; [done|done|exact He|]. left. by eapply mine_mono. }
  split; [by apply step_still|]. pose proof (step_mono _ _ _ _ Hs) as Hm1.
  apply HQ; [by etrans| |cbn; rewrite He; apply lookup_insert_eq].
  eapply (still_trans a w w1); [done|by apply still_rely|by apply Hs].
Qed.

Lemma stage_in_ok a d n t (Q : unit → World → Prop) w :
  mine a w d → bare w d →
  (∀ w', mono w w' → still a w w' → entries (w_store w') !! d = Some (EDir {[n := t]}) → Q tt w') →
  okp a (calm a) (sys (Change (WriteFile [d; n] t))) Q w.
Proof.
  intros Hd Hb HQ. apply okp_sys_mut; [apply calm_refl|]. intros w1 st Hr Hi Ha Hst.
  apply change_write_in in Hst as (f & Hf & He). apply (bare_rely a w w1) in Hb; [|done..].
  assert (f = ∅) as -> by (destruct Hb; congruence). pose proof Hr as [Hm _].
  assert (step_ok (still a) a w1 st) as Hs.
  { eapply quiet_insert; [done|done|exact He|]. left. by eapply mine_mono. }
  split; [by apply step_still|]. pose proof (step_mono _ _ _ _ Hs) as Hm1.
  apply HQ; [by etrans| |cbn; rewrite He; apply lookup_insert_eq].
  eapply (still_trans a w w1); [done|by apply still_rely|by apply Hs].
Qed.

(** A file may be unlinked: a staging file, the child of a claim that is gone, dead or one's own, and a
    dead claim. *)
Definition disposable (a : nat) (w : World) (p : Path) : Prop :=
  (∃ d, mine a w d ∧ (p = [d] ∨ ∃ n, p = [d; n])) ∨
  (∃ m i, p = [claim_dir m; child_name i] ∧ (i ∈ w_gone w ∨ dead w i ∨ w_ids w !! i = Some a)) ∨
  (∃ m i, p = [claim_dir m; claim_name i] ∧ dead w i).

Lemma disposable_mono a w w' p : mono w w' → disposable a w p → disposable a w' p.
Proof.
  intros Hm [(d & Hd & Hp)|[(m & i & Hp & Hi)|(m & i & Hp & Hi)]].
  - left. exists d. split; [by eapply mine_mono|done].
  - right. left. exists m, i. split; [done|].
    destruct Hi as [?|[?|?]]; [left; by eapply mono_gone|right; left; by eapply mono_dead|].
    right. right. by eapply mono_ids.
  - right. right. exists m, i. split; [done|]. by eapply mono_dead.
Qed.

Lemma files_unlink st st' m n f :
  entries st !! claim_dir m = Some (EDir f) →
  entries st' = <[claim_dir m := EDir (delete n f)]> (entries st) →
  (∀ m' t, entries st !! claim_dir m' ≠ Some (EFile t)) →
  (∀ m' t, entries st' !! claim_dir m' ≠ Some (EFile t)) ∧
  ∀ m' n', files st' (claim_dir m') !! n' =
    if decide (m' = m ∧ n' = n) then None else files st (claim_dir m') !! n'.
Proof.
  intros Hf He Hd. split.
  - intros m' t. rewrite He, lookup_insert. case_decide; [done|apply Hd].
  - intros m' n'. unfold files at 1. rewrite He, lookup_insert. case_decide as Hm.
    + apply claim_dir_inj in Hm as <-. unfold files. rewrite Hf, lookup_delete.
      repeat case_decide; naive_solver.
    + rewrite decide_False by naive_solver. done.
Qed.

(** A file of a claim directory goes. *)
Lemma unlink_step a w st m n :
  inv w → alive a w → change (Unlink [claim_dir m; n]) (w_store w) = Ok st →
  (∀ i, n = claim_name i → removable a w i) →
  (∀ i, n = child_name i → i ∈ w_gone w ∨ dead w i ∨ w_ids w !! i = Some a) →
  step_ok (loose a) a w st.
Proof.
  intros Hi Ha Hst Hc Hk. apply change_unlink_in in Hst as (f & t & Hf & _ & He).
  destruct (files_unlink (w_store w) st m n f Hf He (inv_dirs _ _ w Hi)) as [Hd Hl].
  apply shrink_step; try done.
  - intros m' n' t'. rewrite Hl. by case_decide.
  - intros m' i [t' Ht]. rewrite Hl, Ht. case_decide as Hn; [|done]. intros _. apply Hc. by destruct Hn.
  - intros m' i [t' Ht]. rewrite Hl, Ht. case_decide as Hn; [|done]. intros _. apply Hk. by destruct Hn.
  - apply (spares_entry a w st (claim_dir m)); [done|right; by exists m|]. intros d' Hd'.
    by rewrite He, lookup_insert_ne.
Qed.

Lemma unlink_step_calm a w st m n :
  inv w → alive a w → change (Unlink [claim_dir m; n]) (w_store w) = Ok st →
  (∀ i, n = claim_name i → dead w i) →
  (∀ i, n = child_name i → i ∈ w_gone w ∨ dead w i ∨ w_ids w !! i = Some a) →
  step_ok (calm a) a w st.
Proof.
  intros Hi Ha Hst Hc Hk. apply shrink_step_calm; [|done|].
  - eapply unlink_step; [done..| |done]. intros i Hn. left. by apply Hc.
  - apply change_unlink_in in Hst as (f & t & Hf & _ & He).
    destruct (files_unlink (w_store w) st m n f Hf He (inv_dirs _ _ w Hi)) as [_ Hl].
    intros m' i [t' Ht]. rewrite Hl, Ht. case_decide as Hn; [|done]. intros _. apply Hc. by destruct Hn.
Qed.

Lemma unlink_ok a p (Q : result errno unit → World → Prop) w :
  disposable a w p → (∀ r w', mono w w' → Q r w') → okp a (calm a) (ask (Change (Unlink p))) Q w.
Proof.
  intros Hp HQ. apply okp_mut; [apply calm_refl| |intros w1 e [Hm _] _ _; by apply HQ].
  intros w1 st [Hm _] Hi Ha Hst. apply (disposable_mono a w w1) in Hp; [|done].
  assert (step_ok (calm a) a w1 st) as Hs.
  { destruct Hp as [(d & Hd & [->|[n ->]])|[(m & i & -> & Hdi)|(m & i & -> & Hdi)]].
    - apply change_unlink in Hst as (t & _ & He). eapply step_still, quiet_delete; [done..|by left].
    - apply change_unlink_in in Hst as (f & t & _ & _ & He). eapply step_still, quiet_insert; [done..|by left].
    - eapply unlink_step_calm; [done..| |].
      + intros j Hj. by destruct (claim_not_child j i).
      + by intros j ->%child_name_inj.
    - eapply unlink_step_calm; [done..| |].
      + by intros j ->%claim_name_inj.
      + intros j Hj. by destruct (claim_not_child i j). }
  split; [done|]. apply HQ. etrans; [done|by eapply step_mono].
Qed.

Lemma rmdir_ok a p (Q : result errno unit → World → Prop) w :
  dir_of a w p → (∀ r w', mono w w' → Q r w') → okp a (calm a) (ask (Change (Rmdir p))) Q w.
Proof.
  intros Hp HQ. apply okp_mut; [apply calm_refl| |intros w1 e [Hm _] _ _; by apply HQ].
  intros w1 st [Hm _] Hi Ha Hst. apply (dir_of_mono a w w1) in Hp; [|done].
  assert (length p <= 1)%nat as Hl by (destruct Hp as [->|(d & -> & _)]; cbn; lia).
  assert (step_ok (calm a) a w1 st) as Hs.
  { destruct (change_rmdir p _ st Hl Hst) as [He|(d & -> & Hn & He)]; [by apply step_still, quiet_same|].
    eapply step_still, quiet_delete; [done..|].
    destruct Hp as [|(d' & [= <-] & [?|[m ->]])]; [done|by left|]. right. exists m.
    split; [done|]. unfold files. by rewrite Hn. }
  split; [done|]. apply HQ. etrans; [done|by eapply step_mono].
Qed.

Lemma tidy_ok a p (Q : unit → World → Prop) w :
  dir_of a w p → (∀ w', mono w w' → Q tt w') → okp a (calm a) (tidy p) Q w.
Proof. intros Hp HQ. apply okp_bind, rmdir_ok; [done|]. intros r w' Hm. by apply okp_ret, HQ. Qed.

Lemma rm_force_ok a p (Q : unit → World → Prop) w :
  disposable a w p → (∀ w', mono w w' → Q tt w') → okp a (calm a) (rm_force p) Q w.
Proof.
  intros Hp HQ. apply okp_bind, unlink_ok; [done|]. intros [[]|[]] w' Hm; try done; by apply okp_ret, HQ.
Qed.

Lemma rm_recursive_ok a d w : mine a w d → okp a (calm a) (rm_recursive [d]) (fun _ _ => True) w.
Proof.
  intros Hd. apply okp_bind, okp_ask; [apply calm_refl|by intros w1 w2 b [-> _]|].
  intros r w1 [Hm _]. apply (mine_mono a w w1) in Hd; [|done].
  destruct r as [[]|[]]; try done.
  2: { apply rm_force_ok; [|done]. left. exists d. split; [done|by left]. }
  apply okp_bind, okp_ask; [apply calm_refl|by intros w2 w3 b [-> _]|].
  intros r w2 [Hm2 _]. apply (mine_mono a w1 w2) in Hd; [|done].
  destruct r as [l|[]]; try done.
  apply okp_bind. eapply okp_mono; [apply okp_later, (okp_each _ _ (fun w => mine a w d)); [|done|]|].
  - intros w3 w4. apply mine_mono.
  - intros n w3 _ Hd3. apply rm_force_ok; [|done]. left. exists d. split; [done|right; by exists n].
  - intros [] w3 [Hm3 _]. apply okp_bind, rmdir_ok; [|by intros [[]|[]]].
    right. exists d. split; [done|]. left. by eapply mine_mono.
Qed.

(** ** Reading a claim *)

(** A claim that nobody needs any more. *)
Definition settled (w : World) (i : units) : Prop := i ∈ w_gone w ∨ dead w i.

Lemma settled_mono w w' i : mono w w' → settled w i → settled w' i.
Proof. intros Hm [?|?]; [left; by eapply mono_gone|right; by eapply mono_dead]. Qed.

Lemma readRecord_ok a d n what (Q : Reading units → World → Prop) w :
  (∀ r w1, rely a w w1 → inv w1 →
     match r with
     | Read _ t => files (w_store w1) d !! n = Some t
     | Absent _ => files (w_store w1) d !! n = None
     | Unreadable _ _ => True
     end → Q r w1) → okp a (calm a) (readRecord [d; n] what) Q w.
Proof.
  intros HQ. apply okp_bind, okp_read; [apply calm_refl|by intros w1 w2 b [-> _]|].
  intros w1 r Hr Hi _ [_ Hb]. apply okp_ret, HQ; [done|done|].
  destruct Hb as [->|(e & -> & He)].
  - destruct (readFile (w_store w1) [d; n]) as [t|[]] eqn:Hf; try done;
      [by apply readFile_ok|by apply readFile_absent].
  - destruct e; try done. by specialize (He eq_refl).
Qed.

Lemma readChild_ok a m i (Q : Reading (option ClaimOwner) → World → Prop) w :
  (∀ r w1, rely a w w1 → inv w1 →
     match r with
     | Read _ o => ∃ t, claim_files w1 m !! child_name i = Some t ∧ child_record t = Read _ o
     | Absent _ => claim_files w1 m !! child_name i = None
     | Unreadable _ _ => True
     end → Q r w1) → okp a (calm a) (readChild [claim_dir m; claim_name i]) Q w.
Proof.
  intros HQ. unfold readChild. rewrite childPath_claim. apply okp_bind, readRecord_ok.
  intros [|e|t] w1 Hr Hi Ht; apply okp_ret, HQ; try done.
  destruct (child_record t) eqn:Hc; try done; [|by exists t].
  unfold child_record in Hc. by destruct (JSON_parse t).
Qed.

Lemma inspectProcessIdentity_ok a record (Q : ProcessIdentityStatus → World → Prop) w :
  inv w →
  (∀ s w1, rely a w w1 → inv w1 →
     (s = Gone ∨ s = Different →
      processToken record ∉ w_alive w1 ∧ decode_pid (processToken record) = Some (pid record)) →
     Q s w1) → okp a (calm a) (inspectProcessIdentity decode_pid record) Q w.
Proof.
  intros Hw HQ. unfold inspectProcessIdentity. case_decide as Hd; cycle 1.
  { apply okp_ret, HQ; [apply rely_refl|done|]. by intros [|]. }
  apply okp_bind, okp_read; [apply calm_refl|by intros w1 w2 b [-> _]|].
  intros w1 r Hr Hi _ [_ Hb]. apply okp_ret, HQ; [done|done|].
  intros Hs. split; [|done]. destruct Hb as [->|Hb]; [by destruct Hs|].
  case_decide; [subst; by destruct Hs|done].
Qed.

Lemma processGroupAlive_ok a group (Q : bool → World → Prop) w :
  inv w →
  (∀ r w1, rely a w w1 → inv w1 →
     (r = false → ∀ token, decode_pid token = Some group → token ∉ w_groups w1) → Q r w1) →
  okp a (calm a) (processGroupAlive group) Q w.
Proof.
  intros Hi HQ. unfold processGroupAlive. destruct (_ || _) eqn:Hg.
  - apply okp_ret, HQ; [apply rely_refl|done|]. intros _ token Ht Hin.
    assert (1 < group <= MAX_SAFE_INTEGER); [|lia]. by apply (inv_groups _ _ w Hi token).
  - apply okp_read; [apply calm_refl|by intros w1 w2 b [-> _]|]. intros w1 r Hr Hi1 _ [_ Hb]. by apply HQ.
Qed.

(** The child of a claim is in the directory of the claim. *)
Lemma child_mode w m m' i :
  inv w → (m, i) ∈ w_published w → is_Some (claim_files w m' !! child_name i) → m' = m.
Proof.
  intros Hi Hp [t Ht]. destruct (inv_names _ _ w Hi m' (child_name i) t Ht) as (j & Hj & [He|He]).
  - by destruct (claim_not_child j i).
  - apply child_name_inj in He as ->. by eapply published_mode.
Qed.

Lemma childLiveness_ok a m i b (Q : option Liveness → World → Prop) w :
  (m, i) ∈ w_published w → w_ids w !! i = Some b → token_of proc b ∉ w_alive w →
  (∀ r w1, mono w w1 → (default LDead r = LDead → settled w1 i) → Q r w1) →
  okp a (calm a) (childLiveness decode_pid [claim_dir m; claim_name i]) Q w.
Proof.
  intros Hp Hid Hb HQ. apply okp_bind, readChild_ok. intros r w1 [Hm _] Hi Hr.
  apply (elem_published_mono proc w w1) in Hp; [|done]. apply (mono_ids proc _ _ Hm) in Hid.
  assert (token_of proc b ∉ w_alive w1) as Hb1 by (intros ?; by apply Hb, (mono_alive proc _ _ Hm)).
  destruct r as [|e|[o|]]; try (apply okp_ret, HQ; done).
  - apply okp_ret, HQ; [done|]. intros _. right. exists b. split_and!; [done..|]. intros m' t Ht.
    rewrite (child_mode w1 m m' i Hi Hp ltac:(by eexists)) in Ht. congruence.
  - destruct Hr as (t & Ht & Hc).
    apply okp_bind, inspectProcessIdentity_ok; [done|]. intros s w2 [Hm2 _] Hi2 Hs.
    destruct s; try (apply okp_ret, HQ; [by etrans|done]). destruct Hs as [Hs Hdec]; [by left|].
    apply okp_bind, processGroupAlive_ok; [done|]. intros alive w3 [Hm3 _] Hi3 Hg.
    apply okp_ret, HQ; [by repeat (etrans; [done|])|]. destruct alive; [done|]. intros _.
    assert (mono w1 w3) as Hm13 by (by etrans).
    destruct (mono_child proc w1 w3 Hm13 i b m t) as [Ht3|[?|?]]; [done..| |by right|by left].
    right. exists b. split_and!.
    + by eapply mono_ids.
    + intros ?. by apply Hb1, (mono_alive proc w1 w3 Hm13).
    + intros m' t' Ht'. exists o. assert (m' = m ∧ t' = t) as [-> ->].
      { assert (m' = m) as ->; [|by simplify_eq]. apply (child_mode w3 m m' i); [done| |by eexists].
        by eapply elem_published_mono. }
      split_and!; [done| |by apply Hg]. intros ?. by apply Hs, (mono_alive proc w2 w3 Hm3).
Qed.

(** What a survey knows of a claim it read. *)
Record holds (w : World) (m : ClaimMode) (i : units) (h : ClaimHolder) : Prop := {
  holds_path : ch_path h = [claim_dir m; claim_name i];
  holds_id : ch_claimId h = i;
  holds_mode : ch_mode h = m;
  holds_published : (m, i) ∈ w_published w;
  holds_owner : ∃ b, w_ids w !! i = Some b ∧ ch_owner h = proc b;
}.

Lemma holds_mono w w' m i h : mono w w' → holds w m i h → holds w' m i h.
Proof.
  intros Hm [H1 H2 H3 H4 (b & H5 & H6)]. split; [done..|by eapply elem_published_mono|].
  exists b. split; [|done]. by eapply mono_ids.
Qed.

Lemma readClaim_ok a m i (Q : Reading ClaimHolder → World → Prop) w :
  (∀ r w1, rely a w w1 → inv w1 →
     match r with
     | Read _ h => holds w1 m i h ∧ i ∉ w_gone w
     | Absent _ => (m, i) ∈ w_published w → i ∈ w_gone w1
     | Unreadable _ _ => True
     end → Q r w1) → okp a (calm a) (readClaim [claim_dir m; claim_name i] m) Q w.
Proof.
  intros HQ. apply okp_bind, readRecord_ok. intros [|e|t] w1 Hr Hi Ht; pose proof Hr as [Hm _].
  - apply okp_ret, HQ; [done..|]. intros Hp. apply (elem_published_mono proc w w1) in Hp; [|done].
    destruct (decide (i ∈ w_gone w1)) as [|Hg]; [done|].
    destruct (proj2 (inv_present _ _ w1 Hi m i) (conj Hp Hg)). congruence.
  - by apply okp_ret, HQ.
  - destruct (claim_record t) as [[[v j] o]|] eqn:Hc; [|by apply okp_ret, HQ].
    destruct (inv_record _ _ w1 Hi m i t v j o Ht Hc) as (-> & b & Hb & ->).
    destruct (proj1 (inv_present _ _ w1 Hi m i) ltac:(by eexists)) as [Hp Hg].
    assert (i ∉ w_gone w) as Hg0 by (intros ?; by apply Hg, (mono_gone proc w w1 Hm)).
    apply okp_bind, readChild_ok. intros r w2 Hr2 Hi2 _. pose proof Hr2 as [Hm2 _].
    assert (∀ c d, holds w2 m i
      {| ch_path := [claim_dir m; claim_name i]; ch_claimId := i; ch_mode := m; ch_owner := proc b;
         ch_startedAt := claim_text (field "startedAt" v);
         ch_details := claim_details (field "details" v); ch_child := c; ch_childDeclared := d |}) as Hh.
    { intros c d. split; [done..|by eapply elem_published_mono|]. exists b. split; [by eapply mono_ids|done]. }
    destruct r as [|e|o]; apply okp_ret, HQ; (done || by eapply rely_trans).
Qed.

Lemma claimLiveness_ok a m i h (Q : Liveness → World → Prop) w :
  inv w → holds w m i h → (∀ r w1, mono w w1 → (r = LDead → settled w1 i) → Q r w1) →
  okp a (calm a) (claimLiveness decode_pid h) Q w.
Proof.
  intros Hi [Hp _ _ Hpub (b & Hb & Ho)] HQ. apply okp_bind, inspectProcessIdentity_ok; [done|].
  intros s w1 [Hm _] Hi1 Hs.
  assert (s = Gone ∨ s = Different →
    okp a (calm a) (child ← childLiveness decode_pid (ch_path h); mret (default LDead child)) Q w1) as Hchild.
  { intros Hs'. destruct (Hs Hs') as [Hd _]. rewrite Ho in Hd. rewrite Hp.
    apply okp_bind, (childLiveness_ok a m i b); [by eapply elem_published_mono|by eapply mono_ids|done|].
    intros r w2 Hm2 Hr. apply okp_ret, HQ; [by etrans|done]. }
  destruct s; [|by apply Hchild; right|by apply Hchild; left|]; by apply okp_ret, HQ.
Qed.

(** ** Surveys *)

Lemma names_ok a m (Q : Listing → World → Prop) w :
  (∀ r w1, rely a w w1 → inv w1 →
     match r with
     | Names l => ∀ n, n ∈ l ↔ is_Some (claim_files w1 m !! n)
     | UnreadableDir => True
     end → Q r w1) → okp a (calm a) (names [claim_dir m]) Q w.
Proof.
  intros HQ. assert (Hempty : ∀ w1, claim_files w1 m = ∅ → ∀ n, n ∈ [] ↔ is_Some (claim_files w1 m !! n)).
  { intros w1 -> n. rewrite lookup_empty, elem_of_nil. split; [done|by intros [? [=]]]. }
  apply okp_bind, okp_read; [apply calm_refl|by intros w1 w2 b [-> _]|].
  intros w1 r Hr Hi _ [_ Hb]. destruct r as [[]|e]; [|by apply okp_ret, HQ|].
  - apply okp_bind, okp_read; [apply calm_refl|by intros w2 w3 b' [-> _]|].
    intros w2 r Hr2 Hi2 _ [_ Hb2]. apply okp_ret, HQ; [by eapply rely_trans|done|].
    destruct Hb2 as [->|(e & -> & He)]; [|destruct e; try done; by specialize (He eq_refl)].
    destruct (readdir (w_store w2) [claim_dir m]) as [l|[]] eqn:Hl; try done.
    + intros n. rewrite <- (readdir_ok _ _ _ n Hl). by rewrite stable_sort_perm.
    + by apply Hempty, readdir_absent.
  - destruct e; try (by apply okp_ret, HQ). apply okp_ret, HQ; [done..|].
    destruct Hb as [Hb|(e & [= <-] & He)]; [|by specialize (He eq_refl)].
    by apply Hempty, lstat_absent.
Qed.

(** What a survey says of the claims it lists as dead, and of the files it lists as orphans. *)
Record surveyed (w : World) (s : ClaimSurvey) : Prop := {
  surveyed_dead h : h ∈ sv_dead s → ∃ m i, holds w m i h ∧ settled w i;
  surveyed_orphans p : p ∈ sv_orphans s → ∃ m i, p = [claim_dir m; child_name i] ∧ i ∈ w_gone w;
}.

Lemma surveyed_mono w w' s : mono w w' → surveyed w s → surveyed w' s.
Proof.
  intros Hm [Hd Ho]. split.
  - intros h (m & i & ? & ?)%Hd. exists m, i. split; [by eapply holds_mono|by eapply settled_mono].
  - intros p (m & i & ? & ?)%Ho. exists m, i. split; [done|by eapply mono_gone].
Qed.

(** A claim is settled, or the survey shows that one of its mode is not. *)
Definition accounted (w : World) (s : ClaimSurvey) (m : ClaimMode) (i : units) : Prop :=
  settled w i ∨ (∃ h, h ∈ sv_live s ∧ ch_mode h = m) ∨ sv_unresolved s ≠ [].

Definition extends (s s' : ClaimSurvey) : Prop :=
  sv_live s ⊆ sv_live s' ∧ (sv_unresolved s ≠ [] → sv_unresolved s' ≠ []).

Lemma extends_refl s : extends s s.
Proof. done. Qed.

Lemma extends_trans s1 s2 s3 : extends s1 s2 → extends s2 s3 → extends s1 s3.
Proof. intros [L1 U1] [L2 U2]. split; [by etrans|auto]. Qed.

Lemma accounted_mono w w' s s' m i :
  mono w w' → extends s s' → accounted w s m i → accounted w' s' m i.
Proof.
  intros Hm [Hl Hu] [?|[(h & ? & ?)|?]]; [left; by eapply settled_mono|right; left; eauto|right; right; auto].
Qed.

Lemma extends_unresolved path reason s : extends s (add_unresolved path reason s).
Proof. split; [done|]. cbn. intros _. by destruct (sv_unresolved s). Qed.

Lemma extends_live h s : extends s (add_live h s).
Proof. split; [cbn; set_solver|done]. Qed.

Lemma accounted_unresolved w path reason s m i : accounted w (add_unresolved path reason s) m i.
Proof. right. right. cbn. by destruct (sv_unresolved s). Qed.

Lemma survey_claim_ok a m i into (Q : ClaimSurvey → World → Prop) w :
  surveyed w into →
  (∀ s w1, mono w w1 → surveyed w1 s → extends into s →
     ((m, i) ∈ w_published w → accounted w1 s m i) → Q s w1) →
  okp a (calm a) (survey_claim decode_pid [claim_dir m; claim_name i] m into) Q w.
Proof.
  intros Hs HQ. apply okp_bind, readClaim_ok. intros r w1 [Hm _] Hi Hr.
  apply (surveyed_mono w w1) in Hs; [|done].
  destruct r as [|reason|h].
  - apply okp_ret, HQ; [done|done|apply extends_refl|]. intros Hp. left. left. by apply Hr.
  - apply okp_ret, HQ; [done|by split; apply Hs|apply extends_unresolved|].
    intros _. apply accounted_unresolved.
  - destruct Hr as [Hh _]. apply okp_bind, (claimLiveness_ok a m i); [done..|].
    intros r w2 Hm2 Hr. apply (surveyed_mono w1 w2) in Hs; [|done].
    apply (holds_mono w1 w2) in Hh; [|done].
    assert (mono w w2) as Hm02 by (by etrans). destruct r; apply okp_ret, HQ; try done.
    + split; apply Hs.
    + apply extends_live.
    + intros _. right. left. exists h. split; [cbn; set_solver|by apply Hh].
    + split; [|apply Hs]. intros h' [?| ->%list_elem_of_singleton]%elem_of_app; [by apply Hs|].
      exists m, i. split; [done|by apply Hr].
    + intros _. left. by apply Hr.
    + split; apply Hs.
    + apply extends_unresolved.
    + intros _. apply accounted_unresolved.
Qed.

Lemma survey_claims_ok a m listed into (Q : ClaimSurvey → World → Prop) w :
  surveyed w into →
  (∀ s w1, mono w w1 → surveyed w1 s → extends into s →
     (∀ i, claim_name i ∈ listed → (m, i) ∈ w_published w → accounted w1 s m i) → Q s w1) →
  okp a (calm a) (survey_claims decode_pid (claim_dir m) m listed into) Q w.
Proof.
  revert into Q w. induction listed as [|n listed IH]; intros into Q w Hs HQ.
  { apply okp_ret, HQ; [done|done|apply extends_refl|]. by intros i ?%elem_of_nil. }
  cbn [survey_claims]. destruct (ends_with CLAIM_SUFFIX n) eqn:He.
  - apply ends_with_spec in He as [i ->]. change (i ++ CLAIM_SUFFIX) with (claim_name i) in *.
    apply okp_bind, survey_claim_ok; [done|]. intros s w1 Hm Hs1 He1 Hi.
    apply IH; [done|]. intros s' w2 Hm2 Hs2 He2 Hall.
    apply HQ; [by etrans|done|by eapply extends_trans|]. intros j [->%claim_name_inj|Hj]%elem_of_cons Hp.
    + eapply accounted_mono; [done..|]. by apply Hi.
    + apply Hall; [done|]. by eapply elem_published_mono.
  - apply IH; [done|]. intros s w1 Hm Hs1 He1 Hall. apply HQ; [done..|].
    intros i [<-|Hj]%elem_of_cons; [by rewrite claim_ends in He|by apply Hall].
Qed.

(** A child whose claim is not in the listing that has it: the claim is gone. *)
Lemma orphan_gone w m listed n :
  inv w → (∀ n, n ∈ listed ↔ is_Some (claim_files w m !! n)) →
  n ∈ List.filter (is_orphan listed) listed → ∃ i, n = child_name i ∧ i ∈ w_gone w.
Proof.
  intros Hi Hl [Hin Ho]%list_elem_of_In%filter_In. apply list_elem_of_In in Hin.
  unfold is_orphan in Ho. apply andb_true_iff in Ho as [He Ho]. apply ends_with_spec in He as [i ->].
  exists i. split; [done|]. rewrite take_app_suffix in Ho.
  apply negb_true_iff, bool_decide_eq_false in Ho. apply Hl in Hin as [t Ht].
  destruct (inv_names _ _ w Hi m _ t Ht) as (j & Hj & [Hn|Hn]); [by destruct (claim_not_child j i)|].
  apply child_name_inj in Hn as <-. destruct (decide (i ∈ w_gone w)) as [|Hg]; [done|]. destruct Ho.
  apply list_elem_of_In, filter_In. split; [|apply claim_ends].
  apply list_elem_of_In, Hl, (inv_present _ _ w Hi). done.
Qed.

Lemma survey_ok a m into (Q : ClaimSurvey → World → Prop) w :
  surveyed w into →
  (∀ s w1, mono w w1 → surveyed w1 s → extends into s →
     (∀ i, (m, i) ∈ w_published w → accounted w1 s m i) → Q s w1) →
  okp a (calm a) (survey decode_pid (claim_dir m) m into) Q w.
Proof.
  intros Hs HQ. apply okp_bind, names_ok. intros [l|] w1 [Hm _] Hi Hl; cycle 1.
  { apply okp_ret, HQ; [done| |apply extends_unresolved|intros i _; apply accounted_unresolved].
    apply (surveyed_mono w w1) in Hs; [|done]. split; apply Hs. }
  apply okp_bind, survey_claims_ok.
  { apply (surveyed_mono w w1) in Hs; [|done]. split; [apply Hs|]. cbn.
    intros p [?|Hp]%elem_of_app; [by apply Hs|]. apply list_elem_of_In, in_map_iff in Hp as (n & <- & Hn).
    apply list_elem_of_In in Hn. destruct (orphan_gone w1 m l n Hi Hl Hn) as (i & -> & ?). eauto. }
  intros s w2 Hm2 Hs2 He2 Hall.
  assert (∀ i, (m, i) ∈ w_published w → accounted w2 s m i) as Hacc.
  { intros i Hp. apply (elem_published_mono proc w w1) in Hp; [|done].
    destruct (decide (i ∈ w_gone w1)) as [Hg|Hg]; [left; left; by eapply mono_gone|].
    apply Hall; [|done]. apply Hl. by apply (inv_present _ _ w1 Hi). }
  cbv zeta. apply okp_ret. assert (extends into s) as He by exact He2.
  repeat case_match; try (apply HQ; [by etrans|done..]).
  apply HQ; [by etrans|split; apply Hs2|eapply extends_trans; [exact He|apply extends_unresolved]|].
  intros i _. apply accounted_unresolved.
Qed.

Lemma readClaimSet_ok a (Q : ClaimSurvey → World → Prop) w :
  (∀ s w1, mono w w1 → surveyed w1 s →
     (∀ m i, (m, i) ∈ w_published w → accounted w1 s m i) → Q s w1) →
  okp a (calm a) (readClaimSet decode_pid) Q w.
Proof.
  intros HQ. assert (∀ w, surveyed w no_claims) as Hno by (intros w'; by split; intros ? ?%elem_of_nil).
  apply okp_bind, okp_read; [apply calm_refl|by intros w1 w2 b [-> _]|].
  intros w1 r Hr Hi _ [_ Hb]. pose proof Hr as [Hm _].
  assert (∀ path reason, Q (add_unresolved path reason no_claims) w1) as Hun.
  { intros path reason. apply HQ; [done|split; apply Hno|]. intros m i _. apply accounted_unresolved. }
  destruct r as [[]|e].
  - apply okp_bind, (survey_ok a Exclusive); [done|]. intros s w2 Hm2 Hs2 _ H2.
    apply (survey_ok a Shared); [done|]. intros s' w3 Hm3 Hs3 He3 H3.
    apply HQ; [by repeat (etrans; [done|])|done|]. intros m i Hp.
    apply (elem_published_mono proc w w1) in Hp; [|done].
    destruct m; [eapply accounted_mono; [done..|by apply H2]|].
    apply H3. by eapply elem_published_mono.
  - apply okp_ret, Hun.
  - destruct e; try (apply okp_ret, Hun). apply okp_ret, HQ; [done..|]. intros m i Hp. left. left.
    destruct Hb as [Hb|(e & [= <-] & He)]; [|by specialize (He eq_refl)].
    apply (elem_published_mono proc w w1) in Hp; [|done].
    destruct (decide (i ∈ w_gone w1)) as [|Hg]; [done|].
    destruct (proj2 (inv_present _ _ w1 Hi m i) (conj Hp Hg)) as [t Ht].
    unfold files, entries in Ht. destruct (w_store w1); done.
Qed.

(** ** Removing what is dead *)

Lemma removeOrRefuse_ok a p claim (Q : unit → World → Prop) w :
  disposable a w p → (∀ w', mono w w' → Q tt w') → okp a (calm a) (removeOrRefuse p claim) Q w.
Proof.
  intros Hp HQ. apply okp_bind, unlink_ok; [done|]. intros [[]|[]] w' Hm; try done; by apply okp_ret, HQ.
Qed.

Lemma reap_ok a m i h (Q : bool → World → Prop) w :
  holds w m i h → settled w i → (∀ r w', mono w w' → Q r w') → okp a (calm a) (reap h) Q w.
Proof.
  intros Hh Hs HQ. pose proof Hh as [Hp Hid Hmo _ _]. unfold reap. rewrite Hp, Hmo, childPath_claim.
  apply okp_bind, readClaim_ok. intros [|r|h'] w1 [Hm _] Hi Hr; [by apply okp_ret, HQ..|].
  destruct Hr as [Hh' Hg]. destruct Hs as [?|Hd]; [done|]. apply (mono_dead proc w w1) in Hd; [|done].
  case_decide; [|by apply okp_ret, HQ].
  apply okp_bind, removeOrRefuse_ok; [right; left; exists m, i; by auto|]. intros w2 Hm2.
  apply okp_bind, removeOrRefuse_ok.
  { right. right. exists m, i. split; [done|]. by eapply mono_dead. }
  intros w3 Hm3. apply okp_ret, HQ. by repeat (etrans; [done|]).
Qed.

Lemma reap_all_ok a l (Q : list ClaimHolder → World → Prop) w :
  (∀ h, h ∈ l → ∃ m i, holds w m i h ∧ settled w i) → (∀ r w', mono w w' → Q r w') →
  okp a (calm a) (reap_all l) Q w.
Proof.
  revert Q w. induction l as [|h l IH]; intros Q w Hl HQ; [by apply okp_ret, HQ|]. cbn [reap_all].
  destruct (Hl h) as (m & i & Hh & Hs); [by left|].
  apply okp_bind, (reap_ok a m i); [done..|]. intros r w1 Hm.
  apply okp_bind, IH.
  - intros h' Hh'. destruct (Hl h') as (m' & i' & ? & ?); [by right|]. exists m', i'.
    split; [by eapply holds_mono|by eapply settled_mono].
  - intros r' w2 Hm2. apply okp_ret, HQ. by etrans.
Qed.

Lemma of_mode_live s m w i :
  accounted w s m i → sv_unresolved s = [] → of_mode m (sv_live s) = [] → settled w i.
Proof.
  intros [?|[(h & Hin & Hh)|?]] Hu Hl; [done| |done]. exfalso.
  assert (h ∈ of_mode m (sv_live s)) as Ho.
  { apply list_elem_of_In, filter_In. split; [by apply list_elem_of_In|]. by apply bool_decide_eq_true. }
  rewrite Hl in Ho. by apply elem_of_nil in Ho.
Qed.

Lemma inspectClaimSet_ok a (Q : ClaimSetState → World → Prop) w :
  (∀ cs w1, mono w w1 →
     (∀ i, (Exclusive, i) ∈ w_published w → cs_exclusive cs = None → settled w1 i) →
     (∀ i, (Shared, i) ∈ w_published w → cs_shared cs = [] → settled w1 i) → Q cs w1) →
  okp a (calm a) (inspectClaimSet decode_pid) Q w.
Proof.
  intros HQ. apply okp_bind, readClaimSet_ok. intros s w1 Hm Hs Hacc.
  destruct (sv_unresolved s) as [|[path reason] l] eqn:Hu; [|done].
  apply okp_bind. eapply okp_mono.
  { apply okp_later, (okp_each a (calm a) (fun w => surveyed w s)); [by intros ? ? ?; apply surveyed_mono|done|].
    intros p w2 Hp Hs2. apply removeOrRefuse_ok; [|done]. right. left.
    destruct (surveyed_orphans _ _ Hs2 p Hp) as (m & i & -> & Hg). exists m, i. auto. }
  intros [] w2 [Hm2 _]. apply okp_bind, reap_all_ok.
  { intros h Hh. destruct (surveyed_dead _ _ Hs h Hh) as (m & i & ? & ?). exists m, i.
    split; [by eapply holds_mono|by eapply settled_mono]. }
  intros r w3 Hm3.
  assert (∀ m (l : list ClaimHolder) (Q : unit → World → Prop) w, (∀ w', mono w w' → Q tt w') →
    okp a (calm a) (match l with [] => tidy [claim_dir m] | _ => mret tt end) Q w) as Htidy.
  { intros m l Q' w' HQ'. destruct l; [|by apply okp_ret, HQ'].
    apply tidy_ok; [|done]. right. eauto. }
  apply okp_bind, (Htidy Exclusive). intros w4 Hm4. apply okp_bind, (Htidy Shared). intros w5 Hm5.
  assert (mono w1 w5) as Hm15 by (by repeat (etrans; [done|])).
  apply okp_ret, HQ; [by etrans| |]; intros i Hp Hc; (eapply settled_mono; [exact Hm15|]);
    (eapply of_mode_live; [by apply Hacc|done|]); [|done].
  cbn in Hc. by destruct (of_mode Exclusive (sv_live s)).
Qed.

(** ** Publishing *)

Lemma write_step a w st m i n t :
  inv w → alive a w → w_ids w !! i = Some a →
  (∀ m t, entries st !! claim_dir m ≠ Some (EFile t)) →
  files st (claim_dir m) = <[n := t]> (claim_files w m) →
  files st (claim_dir (other_mode m)) = claim_files w (other_mode m) →
  (n = claim_name i → ∀ v j o, claim_record t = Some (v, j, o) → j = i ∧ o = proc a) →
  (is_Some (claim_files w m !! claim_name i) ∧ (n = claim_name i ∨ n = child_name i)) ∨
  (n = claim_name i ∧ (∀ m', (m', i) ∉ w_published w) ∧ (m = Exclusive → claim_files w m = ∅)) →
  spares a w st →
  step_ok (calm a) a w st ∧ (m, i) ∈ w_published (set_store w st) ∧ i ∉ w_gone (set_store w st).
Proof.
  intros Hi Ha Hid Hd Hf Ho Hr Hc Hs.
  assert (n = claim_name i ∨ (n = child_name i ∧ is_Some (claim_files w m !! claim_name i))) as Hn by naive_solver.
  assert (is_Some (claim_files w m !! claim_name i) ∨
    (∀ m', (m', i) ∉ w_published w) ∧ (m = Exclusive → claim_files w m = ∅)) as Hfr by naive_solver.
  assert (w_gone (set_store w st) = w_gone w) as Hg by (by eapply write_gone).
  split; [split_and!|split].
  - by eapply write_inv.
  - by eapply write_guar.
  - split; [done|]. by rewrite Hg.
  - eapply write_elem_published; [done..|]. by right.
  - rewrite Hg. by eapply write_not_gone.
Qed.

(** A staging file takes its place in a claim directory. *)
Lemma rename_in_ok a s m i n t (Q : unit → World → Prop) w :
  w_ids w !! i = Some a → s ∈ staging_names i → entries (w_store w) !! s = Some (EFile t) →
  (n = claim_name i → ∀ v j o, claim_record t = Some (v, j, o) → j = i ∧ o = proc a) →
  ((m, i) ∈ w_published w ∧ i ∉ w_gone w ∧ (n = claim_name i ∨ n = child_name i)) ∨
  (n = claim_name i ∧ m = Shared ∧ ∀ m', (m', i) ∉ w_published w) →
  (∀ w1, mono w w1 → (m, i) ∈ w_published w1 → i ∉ w_gone w1 → Q tt w1) →
  okp a (calm a) (sys (Change (Rename [s] [claim_dir m; n]))) Q w.
Proof.
  intros Hid Hs He Hrec Hc HQ. apply okp_sys_mut; [apply calm_refl|].
  intros w1 st [Hm Hown] Hi Ha Hst. specialize (Hown Ha).
  apply change_rename_in in Hst as (t' & f & Ht & Hf & Hst).
  rewrite (own_staging _ _ _ Hown i s Hid Hs), He in Ht. simplify_eq.
  assert (Hsd : ∀ m', s ≠ claim_dir m') by (intros m'; by eapply staging_not_dir).
  assert (Hid1 := mono_ids proc w w1 Hm i a Hid).
  destruct (write_step a w1 st m i n t') as (Hstep & Hp & Hg); [done..| | | |done| | |].
  - intros m' x. rewrite Hst, lookup_insert. case_decide; [done|]. rewrite lookup_delete_ne by done.
    apply (inv_dirs _ _ w1 Hi).
  - unfold files. by rewrite Hst, lookup_insert_eq, Hf.
  - unfold files. by rewrite Hst, lookup_insert_ne, lookup_delete_ne by (done || by destruct m).
  - destruct Hc as [(Hp & Hg & Hn)|(-> & -> & Hp)].
    + left. split; [|done]. apply (inv_present _ _ w1 Hi). split; [by eapply elem_published_mono|].
      intros ?. by apply Hg, (own_gone _ _ _ Hown).
    + right. split_and!; [done| |done]. intros m' Hm'. by eapply (Hp m'), (own_published _ _ _ Hown).
  - intros j x Hl Hj Hx. rewrite Hst. rewrite lookup_insert_ne by (intros <-; by eapply staging_not_dir).
    apply lookup_delete_ne. intros <-. apply Hj.
    by rewrite (staging_disjoint j i s Hl (inv_lengths _ _ w1 Hi i a Hid1) Hx Hs).
  - split; [done|]. apply HQ; [|done|done]. etrans; [done|by eapply step_mono].
Qed.

(** A staging directory becomes the directory of the exclusive claim. *)
Lemma rename_dir_ok a i t (Q : unit → World → Prop) w :
  w_ids w !! i = Some a →
  entries (w_store w) !! staging_name i = Some (EDir {[claim_name i := t]}) →
  (∀ v j o, claim_record t = Some (v, j, o) → j = i ∧ o = proc a) →
  (∀ m', (m', i) ∉ w_published w) →
  (∀ w1, mono w w1 → (Exclusive, i) ∈ w_published w1 → i ∉ w_gone w1 → Q tt w1) →
  okp a (calm a) (sys (Change (Rename [staging_name i] [EXCLUSIVE_DIR]))) Q w.
Proof.
  intros Hid He Hrec Hp HQ. apply okp_sys_mut; [apply calm_refl|].
  intros w1 st [Hm Hown] Hi Ha Hst. specialize (Hown Ha).
  assert (staging_name i ∈ staging_names i) as Hs by (by left).
  rewrite <- (own_staging _ _ _ Hown i _ Hid Hs) in He.
  assert (Hsd : ∀ m', staging_name i ≠ claim_dir m') by (intros m'; by eapply staging_not_dir).
  apply (change_rename_dir _ _ _ _ _ (Hsd Exclusive) He) in Hst as [Hx Hst].
  assert (Hid1 := mono_ids proc w w1 Hm i a Hid).
  assert (claim_files w1 Exclusive = ∅) as Hempty.
  { unfold files. by destruct Hx as [->| ->]. }
  destruct (write_step a w1 st Exclusive i (claim_name i) t) as (Hstep & Hpub & Hg); [done..| | | |done| | |].
  - intros m' x. rewrite Hst, lookup_insert. case_decide; [done|]. rewrite lookup_delete_ne by done.
    apply (inv_dirs _ _ w1 Hi).
  - rewrite Hempty. unfold files. by rewrite Hst, lookup_insert_eq.
  - unfold files. by rewrite Hst, lookup_insert_ne, lookup_delete_ne.
  - right. split_and!; [done| |done]. intros m' Hm'. by eapply (Hp m'), (own_published _ _ _ Hown).
  - intros j x Hl Hj Hxn. rewrite Hst.
    rewrite lookup_insert_ne by (intros <-; by eapply (staging_not_dir _ _ Exclusive)).
    apply lookup_delete_ne. intros <-. apply Hj.
    by rewrite (staging_disjoint j i _ Hl (inv_lengths _ _ w1 Hi i a Hid1) Hxn Hs).
  - split; [done|]. apply HQ; [|done|done]. etrans; [done|by eapply step_mono].
Qed.

Lemma blocking_level_ok a l (Q : option Path → World → Prop) w :
  (∀ r w', Q r w') → okp a (calm a) (blocking_level l) Q w.
Proof.
  intros HQ. revert w. induction l as [|p l IH]; intros w; [by apply okp_ret|]. cbn [blocking_level].
  apply okp_bind, okp_ask; [apply calm_refl|by intros w1 w2 b [-> _]|].
  intros r w1 _. destruct r as [[]|[]]; try apply IH; by apply okp_ret.
Qed.

Lemma refuseNonDirectory_ok a {A} p (Q : A → World → Prop) w : okp a (calm a) (refuseNonDirectory p) Q w.
Proof. apply okp_bind, blocking_level_ok. by intros [level|] w'. Qed.

(** A program gets a new id: no claim of it is published, nothing is staged for it. *)
Record fresh_id (a : nat) (w : World) (i : units) : Prop := {
  fresh_mine : w_ids w !! i = Some a;
  fresh_unpublished m : (m, i) ∉ w_published w;
  fresh_bare : bare w (staging_name i);
}.

Lemma fresh_rely a w w' i : rely a w w' → alive a w' → fresh_id a w i → fresh_id a w' i.
Proof.
  intros Hr Ha [Hi Hu Hb]. pose proof Hr as [Hm Ho]. split.
  - by eapply mono_ids.
  - intros m Hp. by eapply (Hu m), (own_published _ _ _ (Ho Ha)).
  - apply (bare_rely a w); [done..| |done]. exists i. split; [done|by left].
Qed.

Lemma add_id_mono w i a : w_ids w !! i = None → mono w (add_id w i a).
Proof.
  intros Hn. assert (∀ j b, w_ids w !! j = Some b → <[i := a]> (w_ids w) !! j = Some b) as Hk.
  { intros j b Hj. rewrite lookup_insert_ne; [done|congruence]. }
  split; try done; cbn; [|by left]. intros j (b & Hb & Hd & Hm). exists b. split_and!; [by apply Hk|done|done].
Qed.

Lemma add_id_inv w i a :
  inv w → w_ids w !! i = None → length i = UUID_LENGTH → inv (add_id w i a).
Proof.
  intros Hi Hn Hl. pose proof (add_id_mono w i a Hn) as Hm.
  assert (∀ j b, w_ids w !! j = Some b → <[i := a]> (w_ids w) !! j = Some b) as Hk.
  { intros j b Hj. rewrite lookup_insert_ne; [done|congruence]. }
  split; try apply Hi; cbn.
  - intros m j t v j' o Ht Hc. destruct (inv_record _ _ w Hi m j t v j' o Ht Hc) as (-> & b & Hb & ->).
    split; [done|]. eauto.
  - intros m j Hp. destruct (inv_ids _ _ w Hi m j Hp) as [b Hb]. exists b. by apply Hk.
  - intros j b. rewrite lookup_insert. case_decide; [by intros; subst|apply (inv_lengths _ _ w Hi)].
  - intros j n Hj Hs He. destruct (inv_staging _ _ w Hi j n Hj Hs He) as [b Hb]. exists b. by apply Hk.
  - intros b m j Hb. destruct (inv_inside _ _ w Hi b m j Hb) as (H1 & H2 & H3).
    split_and!; [by apply Hk|by eapply acquired_mono|]. intros Hg. by apply (mono_dead proc w _ Hm), H3.
Qed.

Lemma add_id_guar w i a : inv w → w_ids w !! i = None → guar a w (add_id w i a).
Proof.
  intros Hi Hn. split; [by apply add_id_mono|by left|done|]. intros b Hb _. split; try done.
  intros j. cbn. rewrite lookup_insert_Some. intros [[_ ->]|[_ ?]]; done.
Qed.

Lemma RandomUUID_ok a (Q : units → World → Prop) w :
  (∀ i w1, mono w w1 → fresh_id a w1 i → Q i w1) → okp a (calm a) (ask RandomUUID) Q w.
Proof.
  intros HQ w1 [Hm _] Hi Ha w2 i (Hn & Hl & ->). split_and!.
  - by apply add_id_inv.
  - by apply add_id_guar.
  - by split.
  - apply HQ; [etrans; [done|by apply add_id_mono]|]. split.
    + apply lookup_insert_eq.
    + intros m Hp. destruct (inv_ids _ _ w1 Hi m i Hp). congruence.
    + left. apply eq_None_not_Some. intros He.
      destruct (inv_staging _ _ w1 Hi i (staging_name i) Hl ltac:(by left) He). congruence.
Qed.

(** What is published under an id names the id and its owner. *)
Definition records (a : nat) (i t : units) : Prop :=
  ∀ v j o, claim_record t = Some (v, j, o) → j = i ∧ o = proc a.

Definition published_path (m : ClaimMode) (i : units) (r : bool + Path) (w : World) : Prop :=
  match r with
  | inl _ => True
  | inr p => p = [claim_dir m; claim_name i] ∧ (m, i) ∈ w_published w ∧ i ∉ w_gone w
  end.

Lemma fresh_staging a w i : fresh_id a w i → mine a w (staging_name i).
Proof. intros [Hi _ _]. exists i. split; [done|by left]. Qed.


Lemma unpublished_still a w w' i :
  still a w w' → w_ids w !! i = Some a → (∀ m, (m, i) ∉ w_published w) → ∀ m, (m, i) ∉ w_published w'.
Proof. intros [_ Hp] Hi Hu m Hin. by eapply (Hu m), Hp. Qed.

Lemma publishExclusive_ok a payload i (Q : bool + Path → World → Prop) w :
  fresh_id a w i → records a i payload →
  (∀ r w1, mono w w1 → published_path Exclusive i r w1 → Q r w1) →
  okp a (calm a) (publishExclusive payload i) Q w.
Proof.
  intros Hf Hrec HQ. pose proof (fresh_staging a w i Hf) as Hmine. apply okp_catch_calm.
  - apply okp_bind. eapply okp_mono; [apply createClaimDir_ok; right; eauto|].
    intros [] w1 [[Hs1 Hb1] Hm1]. pose proof Hf as [Hid Hu Hb].
    assert (Hid1 := mono_ids proc w w1 Hm1 i a Hid).
    apply okp_bind, stage_in_ok; [by eapply mine_mono|by apply Hb1|]. intros w2 Hm2 Hs2 He.
    apply okp_bind, rename_dir_ok with (t := payload).
    + by eapply mono_ids.
    + done.
    + done.
    + eapply (unpublished_still a w1); [done..|]. by eapply (unpublished_still a w).
    + intros w3 Hm3 Hp3 Hg3. apply okp_ret, HQ; [by repeat (etrans; [done|])|done].
  - intros e w1 _ Hm. apply okp_bind. eapply okp_mono; [apply okp_later, rm_recursive_ok|].
    { by eapply mine_mono. }
    intros [] w2 [Hm2 _]. destruct (contention e); [apply okp_ret, HQ; [by etrans|done]|].
    destruct e as [| |[]]; try done. apply refuseNonDirectory_ok.
Qed.

Lemma publishShared_ok a payload i (Q : bool + Path → World → Prop) w :
  fresh_id a w i → records a i payload →
  (∀ r w1, mono w w1 → published_path Shared i r w1 → Q r w1) →
  okp a (calm a) (publishShared payload i) Q w.
Proof.
  intros Hf Hrec HQ. pose proof (fresh_staging a w i Hf) as Hmine. apply okp_catch_calm.
  - apply okp_bind. eapply okp_mono; [apply createClaimDir_ok; right; exists (claim_dir Shared); eauto|].
    intros [] w1 [[Hs1 _] Hm1]. pose proof Hf as [Hid Hu Hb].
    assert (Hid1 := mono_ids proc w w1 Hm1 i a Hid).
    apply okp_bind, stage_file_ok; [by eapply mine_mono|]. intros w2 Hm2 Hs2 He.
    apply okp_bind, (rename_in_ok a _ Shared i (claim_name i) payload).
    + by eapply mono_ids.
    + by left.
    + done.
    + done.
    + right. split_and!; [done..|]. eapply (unpublished_still a w1); [done..|].
      by eapply (unpublished_still a w).
    + intros w3 Hm3 Hp3 Hg3. apply okp_ret, HQ; [by repeat (etrans; [done|])|done].
  - intros e w1 _ Hm. apply okp_bind, rm_force_ok.
    { left. exists (staging_name i). split; [by eapply mine_mono|by left]. }
    intros w2 Hm2. destruct (contention e); [apply okp_ret, HQ; [by etrans|done]|done].
Qed.

(** ** Handles *)

Record handle_ok (a : nat) (w : World) (c : ClaimHandle) : Prop := {
  handle_path : ha_path c = [claim_dir (ha_mode c); claim_name (ha_claimId c)];
  handle_mine : w_ids w !! ha_claimId c = Some a;
  handle_published : (ha_mode c, ha_claimId c) ∈ w_published w;
  handle_owner : ha_owner c = proc a;
}.

Lemma handle_mono a w w' c : mono w w' → handle_ok a w c → handle_ok a w' c.
Proof.
  intros Hm [? ? ? ?]. split; [done|by eapply mono_ids|by eapply elem_published_mono|done].
Qed.

(** A program's id that it does not rely on. *)
Definition outside (a : nat) (w : World) (i : units) : Prop :=
  w_ids w !! i = Some a ∧ ∀ m, w_inside w !! a ≠ Some (m, i).

Lemma outside_loose a w w' i : mono w w' → loose a w w' → outside a w i → outside a w' i.
Proof. intros Hm Hl [Hi Ho]. split; [by eapply mono_ids|]. unfold loose in Hl. by rewrite Hl. Qed.

Lemma rely_loose a w w' : rely a w w' → alive a w' → loose a w w'.
Proof. intros Hr Ha. by apply (still_rely a w w' Hr Ha). Qed.

(** A calm program in a loose one. *)
Lemma okp_calmly a {A} (p : P A) (Q : A → World → Prop) w :
  okp a (calm a) p (fun x w' => calm a w w' → mono w w' → Q x w') w → okp a (loose a) p Q w.
Proof.
  intros H. apply okp_calm_loose. eapply okp_mono; [apply okp_calm, H|]. naive_solver.
Qed.

Lemma unlink_own_ok a m i (Q : result errno unit → World → Prop) w :
  outside a w i → (∀ r w', mono w w' → Q r w') →
  okp a (loose a) (ask (Change (Unlink [claim_dir m; claim_name i]))) Q w.
Proof.
  intros Ho HQ. apply okp_mut; [apply loose_refl| |intros w1 e [Hm _] _ _; by apply HQ].
  intros w1 st Hr Hi Ha Hst. pose proof Hr as [Hm _].
  assert (step_ok (loose a) a w1 st) as Hs.
  { eapply unlink_step; [done..| |].
    - intros j <-%claim_name_inj. right. apply (outside_loose a w w1); [done|by apply rely_loose|done].
    - intros j Hj. by destruct (claim_not_child i j). }
  split; [done|]. apply HQ. etrans; [done|by eapply step_mono].
Qed.

Lemma releaseClaim_ok a c (Q : bool → World → Prop) w :
  handle_ok a w c → outside a w (ha_claimId c) → (∀ r w', mono w w' → Q r w') →
  okp a (loose a) (releaseClaim c) Q w.
Proof.
  intros [Hp Hid _ _] Ho HQ. unfold releaseClaim. rewrite Hp, childPath_claim.
  apply okp_bind, okp_calmly, readClaim_ok. intros [|r|h'] w1 _ _ _ [Hl _] Hm; [by apply okp_ret, HQ..|].
  case_decide; [|by apply okp_ret, HQ]. apply (outside_loose a w w1) in Ho; [|done..].
  apply okp_bind. eapply okp_mono.
  { apply okp_later, (okp_catch proc decode_pid a _ _ (fun _ _ => True)); [|done].
    apply okp_bind, okp_calmly, rm_force_ok; [right; left; do 2 eexists; split; [done|right; right; apply Ho]|].
    intros w2 _ [Hl2 _] Hm2. apply (outside_loose a w1 w2) in Ho; [|done..].
    apply okp_bind, okp_bind, unlink_own_ok; [done|]. by intros [[]|[]] w3 Hm3. }
  intros [] w2 [Hm2 _]; [|apply okp_ret, HQ; by etrans].
  apply okp_bind, okp_calmly, tidy_ok; [right; eauto|]. intros w3 _ _ Hm3.
  apply okp_bind, okp_calmly, tidy_ok; [by left|]. intros w4 _ _ Hm4.
  apply okp_ret, HQ. by repeat (etrans; [done|]).
Qed.

End Claims.
