(* ===== verification/OwnershipClaimFacts.v ===== *)
(** * Ownership claims exclude one another

    Any number of programs in any number of processes take, use and release claims of one set, their
    system calls interleaved in any way, calls failing and processes ending at any time: two
    programs rely on claims at once only if both claims are shared, also where only the child that
    works for a claim is left; and nobody removes a claim under which somebody still works. *)

From Stdlib Require Import ZArith Lia.
From S2P Require Import Prelude.
From S2P Require Import Bytes.
From S2P Require Import Json.
From S2P Require Import FileSystem.
From S2P Require Import OwnershipClaim.
From S2P Require Import ClaimLogic.
From S2P Require Import ClaimSteps.
Open Scope Z_scope.

(** ** JSON text

    A value that survives its text: its numbers are safe integers, its keys are distinct and none looks
    like an array index, which an object would enumerate first. *)

Fixpoint plain (v : json) : bool :=
  match v with
  | JNull | JBool _ | JString _ => true
  | JNumber n => (- MAX_SAFE_INTEGER <=? n) && (n <=? MAX_SAFE_INTEGER)
  | JDouble _ => false
  | JArray l => forallb plain l
  | JObject fields =>
      bool_decide (NoDup (map fst fields))
      && forallb (fun '(k, v) => negb (match k with u :: _ => is_digit u | [] => false end) && plain v)
           fields
  end.

Class ClaimLaws `(NodeText) : Prop := {
  parse_plain v : plain v = true → JSON_parse (JSON_stringify v) = Some v;
}.

Definition plain_command (cmd : Command) : bool :=
  match cmd with CmdAcquire _ details | CmdUpdate details => plain details | _ => true end.

Section Claims.
Context {Htext : NodeText} {Hlaws : ClaimLaws Htext}.
Variable proc : nat → ClaimOwner.
Variable decode_pid : units → option Z.
Hypothesis Hpid : ∀ a, 0 < pid (proc a) <= MAX_SAFE_INTEGER.

Abbreviation inv := (ClaimLogic.inv proc decode_pid).
Abbreviation dead := (ClaimLogic.dead proc).
Abbreviation acquired := (ClaimLogic.acquired proc).
Abbreviation mono := (ClaimLogic.mono proc).
Abbreviation alive := (ClaimLogic.alive proc).
Abbreviation rely := (ClaimLogic.rely proc).
Abbreviation guar := (ClaimLogic.guar proc).
Abbreviation ok := (ClaimLogic.ok proc decode_pid).
Abbreviation okp := (ClaimLogic.okp proc decode_pid).
Abbreviation settled := (ClaimSteps.settled proc).
Abbreviation handle_ok := (ClaimSteps.handle_ok proc).
Abbreviation records := (ClaimSteps.records proc).
Abbreviation claim_files w m := (files (w_store w) (claim_dir m)).
Abbreviation tryAcquireClaim a := (OwnershipClaim.tryAcquireClaim decode_pid (pid (proc a))).

Lemma payload_records a i m s details :
  plain details = true → records a i (JSON_stringify (payload_json i m (proc a) s details)).
Proof using Hlaws Hpid.
  intros Hd v j o. unfold claim_record. rewrite parse_plain; cycle 1.
  { change (plain (payload_json i m (proc a) s details))
      with (plain (JNumber (pid (proc a))) && true && (plain details && true)).
    rewrite Hd. pose proof (Hpid a). cbn [plain andb]. rewrite !andb_true_r.
    apply andb_true_iff. split; apply Z.leb_le; lia. }
  cbn [mbind option_bind].
  change (field "owner" (payload_json i m (proc a) s details)) with (Some (owner_json (proc a))).
  change (field "claimId" (payload_json i m (proc a) s details)) with (Some (JString i)).
  unfold asOwner. change (field "pid" (owner_json (proc a))) with (Some (JNumber (pid (proc a)))).
  change (field "processToken" (owner_json (proc a))) with (Some (JString (processToken (proc a)))).
  destruct (processToken (proc a)) as [|u l] eqn:Ht; [done|].
  destruct ((0 <? pid (proc a)) && (pid (proc a) <=? MAX_SAFE_INTEGER)); [|done]. cbn.
  destruct i as [|x i]; [done|]. intros [= <- <- <-]. split; [done|].
  destruct (proc a) as [p t]. cbn in *. by subst.
Qed.

(** ** Acquiring *)

(** Whatever claim of the other mode was published when a look began is settled after it. *)
Lemma acquired_after w w' m i :
  mono w w' → (m, i) ∈ w_published w →
  (∀ s, (other_mode m, s) ∈ w_published w → settled w' s) → acquired w' m i.
Proof.
  intros Hm Hp Hall. apply list_elem_of_lookup in Hp as [k Hk].
  assert (Hlt := lookup_lt_Some _ _ _ Hk). pose proof (mono_published proc w w' Hm) as [l Hl].
  exists k, (length (w_published w)). split_and!; [by eapply published_mono|done| |].
  - rewrite Hl, length_app. lia.
  - intros j s Hj. rewrite Hl, lookup_app_l by done. intros Hs. apply Hall.
    by eapply list_elem_of_lookup_2.
Qed.

Definition attempt_ok (a : nat) (attempt : ClaimAttempt) (w : World) : Prop :=
  match attempt with
  | Acquired c _ => handle_ok a w c ∧ ha_claimId c ∉ w_gone w ∧ acquired w (ha_mode c) (ha_claimId c)
  | WaitingFor _ c _ => handle_ok a w c ∧ ha_claimId c ∉ w_gone w ∧ ha_mode c = Exclusive
  | Held _ _ => True
  end.

(** A look at the set by a program that has a claim. *)
Lemma inspect_with_claim a c (Q : ClaimSetState → World → Prop) w :
  handle_ok a w c → ha_claimId c ∉ w_gone w →
  (∀ cs w1, calm a w w1 → mono w w1 → handle_ok a w1 c → ha_claimId c ∉ w_gone w1 →
     ((match ha_mode c with Exclusive => cs_shared cs = [] | Shared => cs_exclusive cs = None end) →
      acquired w1 (ha_mode c) (ha_claimId c)) → Q cs w1) →
  okp a (calm a) (inspectClaimSet decode_pid) Q w.
Proof.
  intros Hc Hg HQ. pose proof Hc as [_ Hid Hp _].
  eapply okp_mono; [apply okp_calm, (inspectClaimSet_ok _ _ _ (fun cs w1 =>
    (∀ i, (Exclusive, i) ∈ w_published w → cs_exclusive cs = None → settled w1 i) ∧
    (∀ i, (Shared, i) ∈ w_published w → cs_shared cs = [] → settled w1 i))); naive_solver|].
  intros cs w1 (Hcalm & Hm & He & Hs). apply HQ; [done|done|by eapply handle_mono| |].
  - intros ?. by apply Hg, Hcalm.
  - intros Hnone. apply (acquired_after w); [done..|]. intros s Hin.
    destruct (ha_mode c); cbn in Hin; [by apply Hs|by apply He].
Qed.

Lemma settle_published_ok a c reaped (Q : ClaimAttempt → World → Prop) w :
  handle_ok a w c → ha_claimId c ∉ w_gone w → outside a w (ha_claimId c) →
  (∀ r w1, mono w w1 → attempt_ok a r w1 → Q r w1) →
  okp a (loose a) (settle_published decode_pid c reaped) Q w.
Proof.
  intros Hc Hg Ho HQ. apply okp_bind, okp_catch.
  - apply okp_calm_loose, (inspect_with_claim a c); [done..|]. intros cs w1 [Hl _] Hm Hc1 Hg1 Ha.
    destruct (ha_mode c) eqn:Hmode.
    + destruct (cs_shared cs) as [|h l]; apply okp_ret, HQ; try done.
      split_and!; [done..|]. rewrite Hmode. by apply Ha.
    + destruct (cs_exclusive cs) as [h|].
      * apply okp_bind, releaseClaim_ok; [done|by eapply outside_loose|]. intros r w2 Hm2.
        apply okp_ret, HQ; [by etrans|done].
      * apply okp_ret, HQ; [done|]. split_and!; [done..|]. rewrite Hmode. by apply Ha.
  - intros e w1 Hl Hm. apply okp_bind, releaseClaim_ok; [by eapply handle_mono|by eapply outside_loose|].
    by intros r w2 _.
Qed.

Lemma publish_ok a m payload i (Q : bool + Path → World → Prop) w :
  fresh_id a w i → records a i payload →
  (∀ r w1, mono w w1 → published_path m i r w1 → Q r w1) →
  okp a (calm a) (match m with
                  | Shared => publishShared payload i
                  | Exclusive => publishExclusive payload i
                  end) Q w.
Proof. intros Hf Hr HQ. destruct m; [by eapply publishExclusive_ok|by eapply publishShared_ok]. Qed.

Lemma attempt_claim_ok a m details reaped (Q : (bool * list ClaimHolder) + ClaimAttempt → World → Prop) w :
  plain details = true → w_inside w !! a = None →
  (∀ r w1, mono w w1 → loose a w w1 → match r with inr att => attempt_ok a att w1 | inl _ => True end → Q r w1) →
  okp a (loose a) (attempt_claim decode_pid m details (proc a) reaped) Q w.
Proof using Hlaws Hpid.
  intros Hd Hn HQ. apply okp_bind, okp_calmly.
  eapply okp_mono; [apply (okp_catch_calm _ _ _ _ _ (fun _ _ => True))|].
  { apply okp_bind. eapply okp_mono; [apply createClaimDir_ok; by left|]. by intros [] w1 _. }
  { intros e w1 _ _. destruct e as [| |[]]; (apply refuseNonDirectory_ok || done). }
  intros [denied|] w1 _ [Hl1 _] Hm1; [by apply okp_ret, HQ|].
  apply okp_bind, okp_calmly, inspectClaimSet_ok. intros cs w2 Hm2 _ _ [Hl2 _] _.
  assert (loose a w w2) as Hl02 by (unfold loose in *; congruence). assert (mono w w2) as Hm02 by (by etrans).
  destruct (cs_exclusive cs) as [h|]; [by apply okp_ret, HQ|].
  apply okp_bind, okp_calmly, RandomUUID_ok. intros i w3 Hm3 Hf [Hl3 _] _.
  apply okp_bind, okp_calmly, okp_read; [apply calm_refl|by intros w4 w5 b ->|].
  intros w4 date Hr4 _ Ha4 _ [Hl4 _] Hm4. apply (fresh_rely proc a w3 w4) in Hf; [|done..].
  cbv zeta. apply okp_bind, okp_calmly, publish_ok; [done|by apply payload_records|].
  intros r w5 Hm5 Hp [Hl5 _] _. assert (mono w w5) as Hm05 by (by repeat (etrans; [done|])).
  assert (loose a w w5) as Hl05 by (unfold loose in *; congruence).
  destruct r as [denied|p]; [by apply okp_ret, HQ|]. destruct Hp as (-> & Hp & Hg).
  assert (w_ids w5 !! i = Some a) as Hid by (by eapply mono_ids, Hf).
  apply okp_bind. eapply okp_mono; [apply okp_loose, (settle_published_ok a _ _ (attempt_ok a))|].
  - by split.
  - done.
  - split; [done|]. intros m'. unfold loose in Hl05. by rewrite Hl05, Hn.
  - done.
  - intros att w6 (Hl6 & Hm6 & Hatt). apply okp_ret, HQ; [by etrans|unfold loose in *; congruence|done].
Qed.

Lemma attempts_ok a n m details denied reaped (Q : ClaimAttempt → World → Prop) w :
  plain details = true → w_inside w !! a = None →
  (∀ r w1, attempt_ok a r w1 → Q r w1) →
  okp a (loose a) (attempts decode_pid n m details (proc a) denied reaped) Q w.
Proof using Hlaws Hpid.
  intros Hd Hn HQ. revert denied reaped w Hn. induction n as [|n IH]; intros denied reaped w Hn.
  - apply okp_bind, okp_calm_loose, inspectClaimSet_ok. intros cs w1 _ _ _.
    destruct (cs_exclusive cs), m, (cs_shared cs), denied; try done; by apply okp_ret, HQ.
  - apply okp_bind, attempt_claim_ok; [done..|]. intros [[why r]|att] w1 Hm Hl Hatt; [|by apply okp_ret, HQ].
    apply IH. unfold loose in Hl. congruence.
Qed.

Lemma tryAcquireClaim_ok a m details (Q : ClaimAttempt → World → Prop) w :
  plain details = true → w_inside w !! a = None →
  (∀ r w1, attempt_ok a r w1 → Q r w1) → okp a (loose a) (tryAcquireClaim a m details) Q w.
Proof using Hlaws Hpid.
  intros Hd Hn HQ. apply okp_bind, okp_bind, okp_calmly, okp_read;
    [apply calm_refl|by intros w1 w2 b [-> _]|].
  intros w1 r Hr _ Ha [_ Hb] [Hl _] _. destruct r as [token|reason]; [|done].
  apply okp_ret. destruct Hb as [[= ->]|[? [=]]].
  assert ({| pid := pid (proc a); processToken := token_of proc a |} = proc a) as ->.
  { unfold token_of. by destruct (proc a). }
  apply attempts_ok; [done| |done]. unfold loose in Hl. congruence.
Qed.

Lemma settleClaim_ok a c (Q : ClaimAttempt → World → Prop) w :
  handle_ok a w c → ha_claimId c ∉ w_gone w → ha_mode c = Exclusive →
  (∀ r w1, attempt_ok a r w1 → Q r w1) → okp a (calm a) (settleClaim decode_pid c) Q w.
Proof.
  intros Hc Hg Hmode HQ. apply okp_bind, (inspect_with_claim a c); [done..|].
  intros cs w1 _ _ Hc1 Hg1 Ha. rewrite Hmode in Ha.
  destruct (cs_shared cs); apply okp_ret, HQ; split_and!; try done. rewrite Hmode. by apply Ha.
Qed.

(** ** Children and details *)

Lemma write_aside_ok a c s n t (Q : unit → World → Prop) w :
  handle_ok a w c → ha_claimId c ∉ w_gone w → s ∈ staging_names (ha_claimId c) →
  n = child_name (ha_claimId c) ∨ (n = claim_name (ha_claimId c) ∧ records a (ha_claimId c) t) →
  (∀ w1, mono w w1 → Q tt w1) →
  okp a (calm a) (write_aside [s] [claim_dir (ha_mode c); n] t) Q w.
Proof.
  intros Hc Hg Hs Hn HQ. pose proof Hc as [_ Hid Hp _].
  assert (Hmine : mine a w s) by (by exists (ha_claimId c)). apply okp_catch_calm.
  - apply okp_bind, stage_file_ok; [done|]. intros w1 Hm [[_ Hgone] _] He.
    apply (rename_in_ok _ _ a s (ha_mode c) (ha_claimId c) n t).
    + by eapply mono_ids.
    + done.
    + done.
    + destruct Hn as [->|[_ ?]]; [|done]. intros He'. by destruct (claim_not_child _ _ (eq_sym He')).
    + left. split_and!; [by eapply elem_published_mono| |naive_solver]. intros ?. by apply Hg, Hgone.
    + intros w2 Hm2 _ _. apply HQ. by etrans.
  - intros e w1 _ Hm. apply okp_bind, rm_force_ok; [|done].
    left. exists s. split; [by eapply mine_mono|by left].
Qed.

Lemma writeChild_ok a c record w :
  handle_ok a w c → ha_claimId c ∉ w_gone w →
  okp a (calm a) (writeChild c record) (fun _ _ => True) w.
Proof.
  intros Hc Hg. unfold writeChild. rewrite (handle_path _ _ _ _ Hc), childPath_claim.
  apply write_aside_ok; [done|done|right; by left|by left|done].
Qed.

Lemma updateClaimDetails_ok a c details (Q : option ClaimHandle → World → Prop) w :
  handle_ok a w c → ha_claimId c ∉ w_gone w → plain details = true →
  (∀ r w1, mono w w1 →
     match r with
     | Some c' => handle_ok a w1 c' ∧ ha_claimId c' = ha_claimId c ∧ ha_mode c' = ha_mode c
     | None => True
     end → Q r w1) → okp a (calm a) (updateClaimDetails c details) Q w.
Proof using Hlaws Hpid.
  intros Hc Hg Hd HQ. unfold updateClaimDetails. rewrite (handle_path _ _ _ _ Hc).
  apply okp_bind. eapply okp_mono; [apply okp_calm, (readClaim_ok _ _ _ _ _ (fun _ _ => True)); done|].
  intros r w1 ([_ Hg1] & Hm & _). destruct r as [|r|h]; [by apply okp_ret, HQ..|].
  case_decide; [|by apply okp_ret, HQ].
  assert (ha_claimId c ∉ w_gone w1) as Hn1 by (intros ?; by apply Hg, Hg1; [apply Hc|]).
  apply (handle_mono proc a w w1) in Hc; [|done].
  apply okp_bind, write_aside_ok; [done|done|do 2 right; by left| |].
  - right. split; [done|]. rewrite (handle_owner _ _ _ _ Hc). by apply payload_records.
  - intros w2 Hm2. apply okp_ret, HQ; [by etrans|]. split_and!; [|done|done].
    apply (handle_mono proc a w1 w2) in Hc; [|done]. destruct Hc. by split.
Qed.

(** ** Clients *)

Definition holding_ok (a : nat) (holding : option (bool * ClaimHandle)) (w : World) : Prop :=
  match holding with
  | Some (true, c) =>
      handle_ok a w c ∧ ha_claimId c ∉ w_gone w ∧ w_inside w !! a = Some (ha_mode c, ha_claimId c)
  | Some (false, c) =>
      handle_ok a w c ∧ ha_claimId c ∉ w_gone w ∧ ha_mode c = Exclusive ∧ w_inside w !! a = None
  | None => w_inside w !! a = None
  end.

Lemma holding_calm a w w' h : mono w w' → calm a w w' → holding_ok a h w → holding_ok a h w'.
Proof.
  intros Hm [Hl Hg]. unfold loose in Hl. destruct h as [[[] c]|]; cbn; rewrite ?Hl; [| |done].
  - intros (Hc & ? & ?). split_and!; [by eapply handle_mono| |done].
    intros Hin. apply Hg in Hin; [done|apply Hc].
  - intros (Hc & ? & ? & ?). split_and!; [by eapply handle_mono| |done|done].
    intros Hin. apply Hg in Hin; [done|apply Hc].
Qed.

Lemma set_inside_mono w inside : mono w (set_inside w inside).
Proof using Type.
  clear Hlaws Hpid. by split; auto.
Qed.

(** A change of a program's own mark. *)
Lemma set_inside_step a w inside :
  inv w → (∀ b, b ≠ a → inside !! b = w_inside w !! b) →
  (∀ m i, inside !! a = Some (m, i) → w_ids w !! i = Some a ∧ acquired w m i ∧ i ∉ w_gone w) →
  inv (set_inside w inside) ∧ guar a w (set_inside w inside).
Proof using Type.
  clear Hlaws Hpid.
  intros Hi Hb Ha. split.
  - split; try apply Hi. intros b m i. cbn. destruct (decide (b = a)) as [->|Hne].
    + intros (H1 & H2 & H3)%Ha. by split_and!.
    + rewrite Hb by done. apply (inv_inside _ _ w Hi).
  - split; [apply set_inside_mono|by left|done|]. intros b Hne _. split; try done. by apply Hb.
Qed.

Abbreviation any := (fun _ _ : World => True).

(** An attempt's claim is entered as soon as it is acquired. *)
Lemma entering_ok a r otherwise w :
  w_inside w !! a = None →
  match r with Ok att => attempt_ok a att w | Throw _ => holding_ok a otherwise w end →
  (∀ c, otherwise ≠ Some (true, c)) →
  ok a any (entering (holding_of r otherwise)) (holding_ok a) w.
Proof using Type.
  clear Hlaws Hpid.
  intros Hn Hr Hother. destruct r as [[c l|h l|hs c l]|e]; cbn [holding_of entering].
  - intros w1 [Hm Ho] Hi Ha w2 [] ->. specialize (Ho Ha). destruct Hr as (Hc & Hg & Hacq).
    assert (ha_claimId c ∉ w_gone w1) as Hg1 by (intros ?; apply Hg, (own_gone _ _ _ Ho); [apply Hc|done]).
    destruct (set_inside_step a w1 (<[a := (ha_mode c, ha_claimId c)]> (w_inside w1))) as [H1 H2]; [done|..].
    + intros b Hb. by rewrite lookup_insert_ne.
    + intros m i. rewrite lookup_insert_eq. intros [= <- <-].
      split_and!; [by eapply mono_ids, Hc|by eapply acquired_mono|done].
    + split_and!; [done..|]. split_and!; [|done|apply lookup_insert_eq].
      eapply handle_mono; [apply set_inside_mono|]. by eapply handle_mono.
  - done.
  - by destruct Hr as (? & ? & ?).
  - destruct otherwise as [[[] c]|]; [by destruct (Hother c)|done|done].
Qed.

Lemma ok_leave a (G : World → World → Prop) {A} (k : unit → prog A) (Q : A → World → Prop) w :
  (∀ w1 w2, w_inside w2 !! a = None → G w1 w2) →
  (∀ w', mono w w' → w_inside w' !! a = None → ok a G (k tt) Q w') → ok a G (Call Leave k) Q w.
Proof using Type.
  clear Hlaws Hpid.
  intros HG HQ w1 [Hm _] Hi Ha w2 [] ->.
  destruct (set_inside_step a w1 (delete a (w_inside w1))) as [H1 H2]; [done|..].
  - intros b Hb. by rewrite lookup_delete_ne.
  - intros m i. by rewrite lookup_delete_eq.
  - split_and!; [done|done|apply HG, lookup_delete_eq|].
    apply HQ; [etrans; [done|apply set_inside_mono]|apply lookup_delete_eq].
Qed.

(** A command that keeps the holding. *)
Lemma ok_keeping a {A} (p : P A) h w :
  okp a (calm a) p (fun _ _ => True) w → holding_ok a h w →
  ok a any (prog_bind (fun _ => Done h) (try_ p)) (holding_ok a) w.
Proof.
  intros Hp Hh. apply ok_bind. unfold try_. apply ok_bind.
  eapply (ok_weaken proc decode_pid a (calm a)); [done| |apply ok_calm, Hp].
  intros r w' (Hc & Hm & _). by eapply holding_calm.
Qed.

Lemma release_ok a c w :
  handle_ok a w c → w_inside w !! a = None →
  ok a any (prog_bind (fun _ => Done None) (releaseClaim c)) (holding_ok a) w.
Proof.
  intros Hc Hn. apply ok_bind. eapply (ok_weaken proc decode_pid a (loose a)); [done| |apply ok_loose].
  2: { apply (releaseClaim_ok proc decode_pid a c (fun _ _ => True)); [done| |done].
       split; [apply Hc|]. intros m. congruence. }
  intros r w' (Hl & _ & _). cbn. unfold loose in Hl. congruence.
Qed.

Lemma command_ok a cmd h w :
  plain_command cmd = true → holding_ok a h w →
  ok a any (command decode_pid (pid (proc a)) cmd h) (holding_ok a) w.
Proof using Hlaws Hpid.
  intros Hp Hh. destruct cmd as [m details| | | |record| |details|]; cbn [plain_command] in Hp; cycle 7.
  { apply ok_keeping; [|done]. by apply inspectClaimSet_ok. }
  all: destruct h as [[[] c]|]; try exact Hh; cbn [command].
  - apply ok_bind. eapply (ok_weaken proc decode_pid a (loose a)); [done| |apply ok_loose].
    2: { apply (tryAcquireClaim_ok a m details (attempt_ok a)); [done|exact Hh|done]. }
    intros r w' (Hl & _ & Hr). unfold loose in Hl. cbn in Hh.
    apply entering_ok; [congruence| |done]. destruct r; [done|]. cbn. congruence.
  - destruct Hh as (Hc & Hg & Hmode & Hn). apply ok_bind.
    eapply (ok_weaken proc decode_pid a (calm a)); [done| |apply ok_calm].
    2: { by apply (settleClaim_ok a c (attempt_ok a)). }
    intros r w' (Hcalm & Hm & Hr). assert (holding_ok a (Some (false, c)) w') as Hh by (by eapply holding_calm).
    apply entering_ok; [by apply Hh|by destruct r|done].
  - destruct Hh as (Hc & _ & _). apply ok_leave; [done|]. intros w' Hm Hn. apply release_ok; [|done].
    by eapply handle_mono.
  - destruct Hh as (Hc & _ & _ & Hn). by apply release_ok.
  - apply ok_keeping; [|done]. by apply writeChild_ok; apply Hh.
  - apply ok_keeping; [|done]. unfold setClaimChild. destruct (asOwner (Some record)); [|done].
    by apply writeChild_ok; apply Hh.
  - apply ok_keeping; [|done]. destruct Hh as (Hc & _ & _). unfold clearClaimChild.
    rewrite (handle_path _ _ _ _ Hc), childPath_claim. apply rm_force_ok; [|done].
    right. left. do 2 eexists. split; [done|]. right. right. apply Hc.
  - pose proof Hh as (Hc & Hg & Hin). apply ok_bind.
    eapply (ok_weaken proc decode_pid a (calm a)); [done| |apply ok_calm].
    2: { apply (updateClaimDetails_ok a c details (fun r w1 => match r with
          | Some c' => handle_ok a w1 c' ∧ ha_claimId c' = ha_claimId c ∧ ha_mode c' = ha_mode c
          | None => True end)); [done..|by intros r w1 _]. }
    intros r w' (Hcalm & Hm & Hr). assert (holding_ok a (Some (true, c)) w') as Hh' by (by eapply holding_calm).
    destruct r as [[c'|]|]; [|done..]. destruct Hr as (Hc' & Hi' & Hm'). cbn [ClaimLogic.ok holding_ok].
    rewrite Hi', Hm'. by destruct Hh' as (_ & ? & ?).
Qed.

Lemma client_ok a cmds h w :
  forallb plain_command cmds = true → holding_ok a h w →
  ok a any (client decode_pid (pid (proc a)) cmds h) (fun _ _ => True) w.
Proof using Hlaws Hpid.
  revert h w. induction cmds as [|cmd cmds IH]; intros h w Hp Hh; [done|].
  cbn in Hp. apply andb_true_iff in Hp as [H1 H2]. cbn [client]. apply ok_bind.
  eapply ok_mono; [by apply command_ok|]. intros h' w' Hh'. by apply IH.
Qed.

(** ** The pool *)

Lemma end_process_mono w token : mono w (end_process w token).
Proof using Type.
  clear Hlaws Hpid.
  split; try done; cbn; [set_solver| |by left]. intros i (b & Hb & Hd & Hm). exists b. split_and!; [done|set_solver|].
  intros m t Ht. destruct (Hm m t Ht) as (o & ? & ? & ?). exists o. split_and!; [done|set_solver|done].
Qed.

Lemma end_group_mono w token : mono w (end_group w token).
Proof using Type.
  clear Hlaws Hpid.
  split; try done; cbn; [set_solver| |by left]. intros i (b & Hb & Hd & Hm). exists b. split_and!; [done|done|].
  intros m t Ht. destruct (Hm m t Ht) as (o & ? & ? & ?). exists o. split_and!; [done|done|set_solver].
Qed.

Lemma set_clock_mono w time : w_clock w <= time → mono w (set_clock w time).
Proof using Type.
  clear Hlaws Hpid. by split; auto.
Qed.

(** A world in which only the processes and the time changed. *)
Lemma inv_processes w w' :
  mono w w' → w_store w' = w_store w → w_ids w' = w_ids w → w_published w' = w_published w →
  w_gone w' = w_gone w → w_inside w' = w_inside w → inv w → inv w'.
Proof using Type.
  clear Hlaws Hpid.
  intros Hm Hs Hids Hp Hg Hin Hi. split; rewrite ?Hs, ?Hids, ?Hp, ?Hg, ?Hin; try apply Hi.
  - intros token g Ht. by apply (inv_groups _ _ w Hi), (mono_groups proc w w' Hm).
  - intros a m i Ha. destruct (inv_inside _ _ w Hi a m i Ha) as (H1 & H2 & H3).
    split_and!; [done|by eapply acquired_mono|]. intros ?. by apply (mono_dead proc w w' Hm), H3.
Qed.

(** Each program is proved, with steps of its own kind. *)
Definition pool_ok (G : nat → World → World → Prop) (c : World * (nat → prog unit)) : Prop :=
  inv (fst c) ∧ ∀ a, ok a (G a) (snd c a) (fun _ _ => True) (fst c).

Lemma pool_rely G w w' (ps : nat → prog unit) a :
  rely a w w' → ok a G (ps a) (fun _ _ => True) w → ok a G (ps a) (fun _ _ => True) w'.
Proof using Type.
  clear Hlaws Hpid. intros Hr. by apply ok_rely.
Qed.

(** A call moves only the mark of the program that makes it. *)
Lemma answers_inside a b {B} (c : call B) w w' r :
  answers proc decode_pid a c w w' r → b ≠ a → w_inside w' !! b = w_inside w !! b.
Proof using Type.
  clear Hlaws Hpid. intros Hb Hne. destruct c; cbn in Hb; try (by rewrite Hb); try (by rewrite (proj1 Hb)).
  - destruct Hb as [H|[-> _]]; [|done]. destruct (change c (w_store w)); by destruct H as [-> _].
  - by destruct Hb as (_ & _ & ->).
  - rewrite Hb. cbn. by rewrite lookup_insert_ne.
  - rewrite Hb. cbn. by rewrite lookup_delete_ne.
Qed.

Lemma pool_step_ok G c c' :
  pool_step proc decode_pid c c' → pool_ok G c →
  pool_ok G c' ∧
  (w_inside (fst c') = w_inside (fst c) ∨
   ∃ a, G a (fst c) (fst c') ∧ ∀ b, b ≠ a → w_inside (fst c') !! b = w_inside (fst c) !! b).
Proof using Type.
  clear Hlaws Hpid. intros Hstep [Hi Hok].
  destruct Hstep as [w ps a B call k w' b Hp Ha Hb|w ps token|w ps token|w ps time Ht]; cbn in *.
  - pose proof (Hok a) as Hc. rewrite Hp in Hc.
    destruct (Hc w (rely_refl proc a w) Hi Ha w' b Hb) as (Hi' & Hg & HG & Hk).
    split; [split; [done|]|].
    + intros a'. cbn. unfold update_pool. case_decide as Ha'; [by subst|].
      eapply pool_rely; [|apply Hok]. by eapply guar_rely.
    + right. exists a. split; [done|]. intros b' Hb'. by eapply answers_inside.
  - split; [|by left]. split; [eapply (inv_processes w); try done; apply end_process_mono|]. intros a.
    apply (pool_rely _ w); [|apply Hok]. split; [apply end_process_mono|]. by split.
  - split; [|by left]. split; [eapply (inv_processes w); try done; apply end_group_mono|]. intros a.
    apply (pool_rely _ w); [|apply Hok]. split; [apply end_group_mono|]. by split.
  - split; [|by left]. split; [eapply (inv_processes w); try done; by apply set_clock_mono|]. intros a.
    apply (pool_rely _ w); [|apply Hok]. split; [by apply set_clock_mono|]. by split.
Qed.

(** Before any program ran. *)
Record initial (w : World) : Prop := {
  initial_store : w_store w = SMissing;
  initial_ids : w_ids w = ∅;
  initial_published : w_published w = [];
  initial_gone : w_gone w = ∅;
  initial_inside : w_inside w = ∅;
  initial_groups token g : token ∈ w_groups w → decode_pid token = Some g → 1 < g <= MAX_SAFE_INTEGER;
}.

Lemma initial_inv w : initial w → inv w.
Proof using Type.
  clear Hlaws Hpid.
  intros [Hs Hids Hp Hg Hin Hgr].
  assert (∀ m, claim_files w m = ∅) as Hf by (intros m; unfold files; by rewrite Hs).
  split; try done.
  - intros m t. by rewrite Hs.
  - intros m i. rewrite Hf, Hp, lookup_empty, elem_of_nil. split; [by intros [? [=]]|by intros [[] _]].
  - intros m i t v j o. by rewrite Hf.
  - intros m n t. by rewrite Hf.
  - intros i j [t Ht]. by rewrite Hf in Ht.
  - rewrite Hp. constructor.
  - intros m i. rewrite Hp. by intros ?%elem_of_nil.
  - intros i b. by rewrite Hids.
  - intros i. rewrite Hg. set_solver.
  - intros i n _ _ [e He]. by rewrite Hs in He.
  - intros a m i. by rewrite Hin.
Qed.

Variable cmds : nat → list Command.
Hypothesis Hplain : ∀ a, forallb plain_command (cmds a) = true.

(** What clients that started in an initial world can come to. *)
Definition clients (a : nat) : prog unit := client decode_pid (pid (proc a)) (cmds a) None.
Definition reachable (c : World * (nat → prog unit)) : Prop :=
  ∃ w0, initial w0 ∧ pool_steps proc decode_pid (w0, clients) c.

Lemma reachable_ok c : reachable c → pool_ok (fun _ => any) c.
Proof using Hlaws Hpid Hplain.
  intros (w0 & Hw0 & Hsteps). assert (pool_ok (fun _ => any) (w0, clients)) as H0.
  { split; [by apply initial_inv|]. intros a. apply client_ok; [apply Hplain|]. cbn.
    by rewrite (initial_inside _ Hw0). }
  unfold pool_steps in Hsteps. revert H0. generalize (w0, clients) Hsteps.
  induction 1 as [|c1 c2 c3 Hstep _ IH]; [done|]. intros H1. by eapply IH, pool_step_ok.
Qed.

(** ** Exclusion *)

(** C2: however the system calls of any clients interleave, whatever calls fail and whatever processes
    end, two programs that rely on claims under which somebody (the owner, the child it named or
    that child's process group) may still work both have shared claims. *)
Theorem claims_exclude w ps a b m i m' j :
  reachable (w, ps) → a ≠ b → w_inside w !! a = Some (m, i) → w_inside w !! b = Some (m', j) →
  ¬ dead w i → ¬ dead w j → m = Shared ∧ m' = Shared.
Proof using Hlaws Hpid Hplain.
  intros Hr Hab Ha Hb. apply (inv_excludes proc decode_pid w a b); [|done..].
  by apply (reachable_ok (w, ps)).
Qed.

(** Only a call that changes the store removes a claim file. *)
Lemma answers_store a {B} (c : call B) w w' r :
  answers proc decode_pid a c w w' r →
  (∀ d, files (w_store w') d = files (w_store w) d) ∨
  (w_inside w' = w_inside w ∧ w_alive w' = w_alive w ∧ w_ids w' = w_ids w).
Proof.
  destruct c; cbn; try (intros [-> _]; by left); try (intros ->; by left).
  - intros [H|[-> _]]; [|by left]. destruct (change c (w_store w)); destruct H as [-> _]; [by right|by left].
  - intros (_ & _ & ->). by left.
Qed.

(** C34: a step takes a claim's file away only if nobody works under the claim any more, or it is a
    step of the program the claim belongs to, which does not rely on it; and it changes the record
    of a claim's child only if the claim is gone or dead, or it is a step of that program. *)
Theorem claim_kept w ps w' ps' m i :
  reachable (w, ps) → pool_step proc decode_pid (w, ps) (w', ps') →
  (is_Some (files (w_store w) (claim_dir m) !! claim_name i) →
   files (w_store w') (claim_dir m) !! claim_name i = None →
   dead w i ∨ ∃ a, w_ids w !! i = Some a ∧ w_inside w !! a ≠ Some (m, i) ∧ ∀ b, b ≠ a → ps' b = ps b) ∧
  (files (w_store w') (claim_dir m) !! child_name i ≠ files (w_store w) (claim_dir m) !! child_name i →
   i ∈ w_gone w ∨ dead w i ∨ ∃ a, w_ids w !! i = Some a ∧ ∀ b, b ≠ a → ps' b = ps b).
Proof using Hlaws Hpid Hplain.
  intros Hr Hstep. destruct (reachable_ok _ Hr) as [Hi Hok].
  pose proof (proj1 (proj1 (pool_step_ok _ _ _ Hstep (reachable_ok _ Hr)))) as Hi'. cbn in Hi, Hok, Hi'.
  inversion Hstep as [? ? a B c k ? r Hp Ha Hb|? ? token|? ? token|? ? time]; simplify_eq; cbn in *.
  2,3,4: split; [by intros [? ->]|done].
  pose proof (Hok a) as Hc. rewrite Hp in Hc.
  destruct (Hc w (rely_refl proc a w) Hi Ha w' r Hb) as (_ & Hg & _ & _).
  assert (∀ b, b ≠ a → update_pool ps a (k r) b = ps b) as Hps.
  { intros b Hba. unfold update_pool. by rewrite decide_False. }
  split.
  - intros Hs Hn. apply (inv_present _ _ w Hi) in Hs as Hpub. destruct Hpub as [Hpub Hng].
    assert (i ∈ w_gone w') as Hg'.
    { destruct (decide (i ∈ w_gone w')) as [|Hn']; [done|].
      apply (elem_published_mono proc w w') in Hpub; [|apply Hg].
      destruct (proj2 (inv_present _ _ w' Hi' m i) (conj Hpub Hn')). congruence. }
    destruct (guar_gone _ _ _ _ Hg i Hg') as [?|[?|Hid]]; [done|by left|right]. exists a.
    split_and!; [done| |done]. intros Hin.
    destruct (answers_store a c w w' r Hb) as [Hsame|(Hin' & Hal & Hids)].
    + rewrite Hsame in Hn. by rewrite Hn in Hs; destruct Hs.
    + rewrite <- Hin' in Hin. destruct (inv_inside _ _ w' Hi' a m i Hin) as (Hid' & _ & Hdead).
      apply (alive_not_dead proc a w' i); [|done|by apply Hdead]. unfold ClaimLogic.alive. by rewrite Hal.
  - intros Hne. destruct (guar_child _ _ _ _ Hg m i Hne) as [?|[?|Hid]]; [by left|by right; left|].
    right. right. by exists a.
Qed.

End Claims.

(** ** A concrete text

    Values as prefix codes, for the runs below. *)

Module ClaimText.

Fixpoint print (v : json) : units :=
  match v with
  | JNull => [0]
  | JBool b => [1; if b then 1 else 0]
  | JNumber n => [2; n]
  | JDouble bits => [3; bits]
  | JString s => 4 :: Z.of_nat (length s) :: s
  | JArray l => 5 :: Z.of_nat (length l) :: concat (map print l)
  | JObject fields =>
      6 :: Z.of_nat (length fields)
        :: concat (map (fun '(k, v) => Z.of_nat (length k) :: k ++ print v) fields)
  end.

Section Parse.
Variable value : units → option (json * units).

Fixpoint values (n : nat) (s : units) : option (list json * units) :=
  match n with
  | O => Some ([], s)
  | S n => '(v, s) ← value s; '(l, s) ← values n s; Some (v :: l, s)
  end.

Fixpoint members (n : nat) (s : units) : option (list (units * json) * units) :=
  match n with
  | O => Some ([], s)
  | S n =>
      match s with
      | k :: s =>
          '(v, s') ← value (drop (Z.to_nat k) s);
          '(l, s') ← members n s'; Some ((take (Z.to_nat k) s, v) :: l, s')
      | [] => None
      end
  end.
End Parse.

Fixpoint parse (fuel : nat) (s : units) : option (json * units) :=
  match fuel with
  | O => None
  | S fuel =>
      match s with
      | 0 :: s => Some (JNull, s)
      | 1 :: b :: s => Some (JBool (b =? 1), s)
      | 2 :: n :: s => Some (JNumber n, s)
      | 3 :: bits :: s => Some (JDouble bits, s)
      | 4 :: n :: s => Some (JString (take (Z.to_nat n) s), drop (Z.to_nat n) s)
      | 5 :: n :: s => '(l, s) ← values (parse fuel) (Z.to_nat n) s; Some (JArray l, s)
      | 6 :: n :: s => '(l, s) ← members (parse fuel) (Z.to_nat n) s; Some (JObject l, s)
      | _ => None
      end
  end.

Lemma parse_print v : ∀ rest fuel, (length (print v) <= fuel)%nat → parse fuel (print v ++ rest) = Some (v, rest).
Proof.
  induction v as [v Hv|l Hl|fields Hf] using json_nested_ind; intros rest [|fuel] Hlen; try (cbn in Hlen; lia).
  - destruct v; cbn in Hlen; lia.
  - destruct v as [| [] | | |s| |]; try done. cbn [print parse app]. rewrite Nat2Z.id.
    by rewrite take_app_length, drop_app_length.
  - cbn [print parse app]. rewrite Nat2Z.id. cbn in Hlen. apply le_S_n, Nat.lt_le_incl in Hlen.
    enough (values (parse fuel) (length l) (concat (map print l) ++ rest) = Some (l, rest)) as -> by done.
    induction Hl as [|v l Hv Hl IH]; [done|]. cbn in *. rewrite length_app in Hlen.
    rewrite <- app_assoc, Hv by lia. cbn. rewrite IH by lia. done.
  - cbn [print parse app]. rewrite Nat2Z.id. cbn in Hlen. apply le_S_n, Nat.lt_le_incl in Hlen.
    set (member := fun '(k, v) => Z.of_nat (length k) :: k ++ print v) in *.
    enough (members (parse fuel) (length fields) (concat (map member fields) ++ rest)
            = Some (fields, rest)) as -> by done.
    induction fields as [|[k v] fields IH]; [done|]. apply Forall_cons in Hf as [Hv Hf].
    cbn in *. rewrite !length_app in Hlen. rewrite Nat2Z.id, <- !app_assoc, drop_app_length, take_app_length.
    rewrite Hv by lia. cbn. rewrite IH by (done || lia). done.
Qed.

Definition text : NodeText :=
  {| buffer_toString := fun _ => [];
     JSON_parse := fun s => fst <$> parse (length s) s;
     JSON_stringify := print; JSON_stringify_2 := print |}.

#[global] Instance laws : ClaimLaws text.
Proof.
  split. intros v _. cbn. pose proof (parse_print v [] (length (print v)) (le_n _)) as H.
  rewrite app_nil_r in H. by rewrite H.
Qed.

(** Two programs in two processes, and a third. *)
Definition env : Env :=
  {| env_uuid := fun n => replicate 35 97 ++ [Z.of_nat n]; env_date := js "2026-01-01";
     env_proc := fun a =>
       {| pid := 100 + Z.of_nat (a `min` 3); processToken := [100 + Z.of_nat (a `min` 3)] |};
     env_decode := fun token => match token with [n] => Some n | _ => None end |}.

Definition world0 : World :=
  {| w_store := SMissing; w_alive := {[ [100]; [101]; [102] ]}; w_groups := ∅; w_ids := ∅;
     w_published := []; w_gone := ∅; w_inside := ∅; w_clock := 0 |}.

#[local] Existing Instance text.

Definition nth_id (n : nat) : units := env_uuid env n.

(** Two programs take shared claims. *)
Definition cmds (a : nat) : list Command :=
  match a with
  | 0%nat | 1%nat => [CmdAcquire Shared (JObject []); CmdRelease]
  | _ => []
  end.

Definition start : World * (nat → prog unit) := (world0, clients (env_proc env) (env_decode env) cmds).
Definition after (turns : list Turn) : World * (nat → prog unit) :=
  default start (run_schedule env turns start).

Lemma pids_safe a : 0 < pid (env_proc env a) <= MAX_SAFE_INTEGER.
Proof. cbn [env_proc env pid]. unfold MAX_SAFE_INTEGER. lia. Qed.

Lemma cmds_plain a : forallb plain_command (cmds a) = true.
Proof. by destruct a as [|[|a]]. Qed.

Lemma after_reachable turns :
  match run_schedule env turns start with Some _ => true | None => false end = true →
  reachable (env_proc env) (env_decode env) cmds (after turns).
Proof.
  destruct (run_schedule env turns start) as [c|] eqn:Hc; [|done]. intros _. exists world0. split.
  - by split.
  - unfold after. rewrite Hc. by apply run_schedule_steps in Hc.
Qed.

(** A claim of a live owner is not dead. *)
Lemma owner_works w i a :
  w_ids w !! i = Some a → token_of (env_proc env) a ∈ w_alive w → ¬ ClaimLogic.dead (env_proc env) w i.
Proof. intros Hi Ha. by apply (alive_not_dead (env_proc env) a). Qed.

(** Their calls interleaved, both programs have come to rely on their claims. *)
Definition both : list Turn := [Run 0 14; Run 1 9; Run 0 5; Run 1 4; Run 0 2; Run 1 14].

(** C2 where two programs hold shared claims at once. *)
Lemma claims_exclude_witness :
  w_inside (fst (after both)) !! 0%nat = Some (Shared, nth_id 0) ∧
  w_inside (fst (after both)) !! 1%nat = Some (Shared, nth_id 1) ∧ Shared = Shared ∧ Shared = Shared.
Proof.
  assert (w_inside (fst (after both)) !! 0%nat = Some (Shared, nth_id 0)) as H0 by (vm_compute; reflexivity).
  assert (w_inside (fst (after both)) !! 1%nat = Some (Shared, nth_id 1)) as H1 by (vm_compute; reflexivity).
  split; [exact H0|split; [exact H1|]].
  apply (claims_exclude (env_proc env) (env_decode env) pids_safe cmds cmds_plain (fst (after both))
    (snd (after both)) 0 1 Shared (nth_id 0) Shared (nth_id 1)); [|discriminate|exact H0|exact H1|..].
  - rewrite <- surjective_pairing. apply after_reachable. vm_compute. reflexivity.
  - apply (owner_works _ _ 0); vm_compute; reflexivity.
  - apply (owner_works _ _ 1); vm_compute; reflexivity.
Defined.

Definition next (a : nat) (c : World * (nat → prog unit)) : World * (nat → prog unit) :=
  default c (run_call env a c).

Lemma next_step a c :
  match run_call env a c with Some _ => true | None => false end = true →
  pool_step (env_proc env) (env_decode env) c (next a c).
Proof.
  unfold next. destruct (run_call env a c) as [c'|] eqn:Hc; [|done]. intros _.
  by apply (run_call_step env a).
Qed.

(** The first program is about to remove its claim. *)
Definition releasing : list Turn := both ++ [Run 0 4].

(** C34 where a program releases its claim. *)
Lemma claim_kept_witness :
  is_Some (files (w_store (fst (after releasing))) SHARED_DIR !! claim_name (nth_id 0)) ∧
  (ClaimLogic.dead (env_proc env) (fst (after releasing)) (nth_id 0) ∨
   ∃ a, w_ids (fst (after releasing)) !! nth_id 0 = Some a ∧
     w_inside (fst (after releasing)) !! a ≠ Some (Shared, nth_id 0) ∧
     ∀ b, b ≠ a → snd (next 0 (after releasing)) b = snd (after releasing) b).
Proof.
  assert (is_Some (files (w_store (fst (after releasing))) SHARED_DIR !! claim_name (nth_id 0))) as Hs.
  { apply not_eq_None_Some. vm_compute. discriminate. }
  split; [exact Hs|].
  apply (claim_kept (env_proc env) (env_decode env) pids_safe cmds cmds_plain (fst (after releasing))
    (snd (after releasing)) (fst (next 0 (after releasing))) (snd (next 0 (after releasing))) Shared (nth_id 0)).
  - rewrite <- surjective_pairing. apply after_reachable. vm_compute. reflexivity.
  - rewrite <- !surjective_pairing. apply next_step. vm_compute. reflexivity.
  - exact Hs.
  - vm_compute. reflexivity.
Defined.

(** ** Clearing a free set

    [clearFreeClaimSet] removes every staging entry, also one that a live process is about to rename: if
    the clearing process ends between the removal of the file in it and of the directory, and its
    own claim is then reaped, the live process renames an empty directory into place and takes
    its claim as acquired, although no file of it is there. *)

Definition clearing (a : nat) : prog unit :=
  match a with
  | 0%nat => client (env_decode env) 100 [CmdAcquire Exclusive (JObject [])] None
  | 1%nat => prog_bind (fun _ => Done tt) (clearFreeClaimSet (env_decode env) 101)
  | _ => client (env_decode env) 102 [CmdInspect; CmdAcquire Exclusive (JObject [])] None
  end.

Definition clearing_turns : list Turn :=
  [Run 0 11; Run 1 25; EndProcess [101]; Run 2 15; Run 0 8; Run 2 20].

(** C40: clearing a claim set can break the exclusion. When the process that clears is killed after it emptied the
    staging directory of a contender, and its claim is reaped, the contender publishes an empty
    directory, takes its claim as acquired, and a third process acquires another: two live programs
    rely on exclusive claims at once. *)
Theorem clearing_breaks_exclusion :
  ∃ w ps, pool_steps (env_proc env) (env_decode env) (world0, clearing) (w, ps) ∧
    w_inside w !! 0%nat = Some (Exclusive, nth_id 0) ∧ w_inside w !! 2%nat = Some (Exclusive, nth_id 2) ∧
    token_of (env_proc env) 0 ∈ w_alive w ∧ token_of (env_proc env) 2 ∈ w_alive w.
Proof.
  set (c := default (world0, clearing) (run_schedule env clearing_turns (world0, clearing))).
  exists (fst c), (snd c). split.
  - rewrite <- surjective_pairing. apply (run_schedule_steps env clearing_turns).
    assert (match run_schedule env clearing_turns (world0, clearing) with Some _ => true | None => false end
            = true) as H by (vm_compute; reflexivity).
    unfold c. by destruct (run_schedule env clearing_turns (world0, clearing)).
  - split_and!; vm_compute; reflexivity.
Qed.

End ClaimText.
