(* ===== verification/ClaimRuns.v ===== *)
(** * One program at a claim set

    What the functions of [ownership-claim.ts] come to when nobody else is at the store: a free claim is
    taken, its file names its owner, and releasing it leaves no trace; a claim of a live owner keeps
    others out and stays; a claim of an owner that ended is taken over. *)

From Stdlib Require Import ZArith Lia.
From S2P Require Import Prelude.
From S2P Require Import Bytes.
From S2P Require Import Json.
From S2P Require Import FileSystem.
From S2P Require Import OwnershipClaim.
From S2P Require Import ClaimLogic.
From S2P Require Import ClaimSteps.
From S2P Require Import OwnershipClaimFacts.
Open Scope Z_scope.

Section Runs.
Context {Htext : NodeText} {Hlaws : ClaimLaws Htext}.
Variables (env : Env) (a : nat).

Abbreviation decode_pid := (env_decode env).
Abbreviation owner := (env_proc env a).

(** The program, alone in a world, answers [r] and leaves the store [st]; no process ends and
    no time passes. *)
Definition runs {A} (p : prog A) (w : World) (r : A) (st : Store) : Prop :=
  ∃ w', run_alone env a p w = (w', r) ∧ w_store w' = st ∧ w_alive w' = w_alive w ∧
    w_clock w' = w_clock w.

Lemma runs_done {A} (x : A) w : runs (Done x) w x (w_store w).
Proof. by exists w. Qed.

Lemma runs_call {A B} (c : call B) (k : B → prog A) w w1 b r st :
  exec env a c w = (w1, b) → w_alive w1 = w_alive w ∧ w_clock w1 = w_clock w → runs (k b) w1 r st →
  runs (Call c k) w r st.
Proof.
  intros Hc [Ha Ht] (w' & Hr & Hs & Ha' & Ht'). exists w'. cbn. rewrite Hc.
  split_and!; [done..|congruence|congruence].
Qed.

Lemma runs_prog_bind {A B} (p : prog A) (f : A → prog B) w x r st st' :
  runs p w x st → (∀ w', w_store w' = st → w_alive w' = w_alive w → runs (f x) w' r st') →
  runs (prog_bind f p) w r st'.
Proof.
  intros (w1 & H1 & Hs & Ha & Ht) H2. destruct (H2 w1 Hs Ha) as (w2 & H3 & Hs2 & Ha2 & Ht2).
  exists w2. rewrite run_alone_bind, H1. split_and!; [done..|congruence|congruence].
Qed.

Lemma runs_bind {A B} (p : P A) (f : A → P B) w x r st st' :
  runs p w (Ok x) st → (∀ w', w_store w' = st → w_alive w' = w_alive w → runs (f x) w' r st') →
  runs (p ≫= f) w r st'.
Proof. intros H1 H2. by eapply runs_prog_bind. Qed.

Lemma runs_catch {A} (p : P A) h w x st : runs p w (Ok x) st → runs (catch p h) w (Ok x) st.
Proof. intros H. eapply runs_prog_bind; [exact H|]. intros w' <- _. apply runs_done. Qed.

Lemma runs_ret {A} (x : A) w : runs (mret x : P A) w (Ok x) (w_store w).
Proof. apply runs_done. Qed.

(** A call that reads, and one that changes the store. *)
Lemma runs_ask {B} (c : call B) w b : exec env a c w = (w, b) → runs (ask c) w (Ok b) (w_store w).
Proof. intros Hc. eapply runs_call; [exact Hc|done|apply runs_done]. Qed.

Lemma runs_change c w :
  runs (ask (Change c)) w (Ok (match change c (w_store w) with Ok _ => Ok tt | Throw e => Throw e end))
    (match change c (w_store w) with Ok st => st | Throw _ => w_store w end).
Proof.
  destruct (change c (w_store w)) as [st|e] eqn:Hc.
  - eapply runs_call; [cbn; by rewrite Hc|done|]. apply (runs_done _ (set_store w st)).
  - eapply runs_call; [cbn; by rewrite Hc|done|]. apply runs_done.
Qed.

Lemma runs_sys c w st : change c (w_store w) = Ok st → runs (sys (Change c)) w (Ok tt) st.
Proof.
  intros Hc. eapply runs_call; [cbn; by rewrite Hc|done|]. apply (runs_done _ (set_store w st)).
Qed.

(** Symbolic execution: a bind whose first part is known. *)
Ltac step H := eapply runs_bind; [apply H|]; cbv beta; cbn [w_store].

(** The store of one claim. *)
Definition single (m : ClaimMode) (i t : units) : Store :=
  SDir {[claim_dir m := EDir {[claim_name i := t]}]}.

Lemma tidy_runs d w st :
  st = match change (Rmdir d) (w_store w) with Ok st => st | Throw _ => w_store w end →
  runs (tidy d) w (Ok tt) st.
Proof.
  intros ->. eapply runs_bind; [apply runs_change|]. intros w' <- _. apply runs_ret.
Qed.

Lemma names_empty d w : node (w_store w) [d] = Throw ENOENT → runs (names [d]) w (Ok (Names [])) (w_store w).
Proof.
  intros Hn. eapply runs_bind; [apply runs_ask; cbn; unfold lstat; by rewrite Hn|].
  intros w' <- _. apply runs_ret.
Qed.

Lemma add_orphans_nil s : add_orphans [] s = s.
Proof. destruct s. unfold add_orphans. cbn. by rewrite app_nil_r. Qed.

Lemma survey_empty d m into w :
  node (w_store w) [d] = Throw ENOENT → runs (survey decode_pid d m into) w (Ok into) (w_store w).
Proof.
  intros Hn. eapply runs_bind; [by apply names_empty|]. intros w' Hs _. cbn.
  rewrite add_orphans_nil, <- Hs. apply runs_ret.
Qed.

Section Single.
Variables (m : ClaimMode) (i t : units) (v : json) (o : ClaimOwner).
Hypothesis Hrecord : claim_record t = Some (v, i, o).
Hypothesis Hdecode : decode_pid (processToken o) = Some (pid o).

Definition holder : ClaimHolder :=
  {| ch_path := [claim_dir m; claim_name i]; ch_claimId := i; ch_mode := m; ch_owner := o;
     ch_startedAt := claim_text (field "startedAt" v);
     ch_details := claim_details (field "details" v); ch_child := None; ch_childDeclared := false |}.

Lemma single_claim : readFile (single m i t) [claim_dir m; claim_name i] = Ok t.
Proof. unfold readFile, node, single. by rewrite !lookup_singleton_eq. Qed.

Lemma single_child : readFile (single m i t) [claim_dir m; child_name i] = Throw ENOENT.
Proof.
  unfold readFile, node, single. rewrite lookup_singleton_eq, lookup_singleton_ne; [done|apply claim_not_child].
Qed.

Lemma readChild_single w :
  w_store w = single m i t →
  runs (readChild [claim_dir m; claim_name i]) w (Ok (Absent _)) (single m i t).
Proof.
  intros Hs. unfold readChild, readRecord. rewrite childPath_claim, <- Hs.
  eapply (runs_bind _ _ _ (Absent _)); [|intros w' <- _; apply runs_ret].
  eapply runs_bind; [apply runs_ask; cbn; by rewrite Hs, single_child|]. intros w' <- _. apply runs_ret.
Qed.

Lemma readClaim_single w :
  w_store w = single m i t →
  runs (readClaim [claim_dir m; claim_name i] m) w (Ok (Read _ holder)) (single m i t).
Proof using Hrecord.
  intros Hs. eapply (runs_bind _ _ _ (Read _ t) _ (w_store w)).
  { eapply runs_bind; [apply runs_ask; cbn; by rewrite Hs, single_claim|]. intros w' <- _. apply runs_ret. }
  intros w' Hs' _. cbv beta iota. rewrite Hrecord.
  eapply runs_bind; [apply readChild_single; congruence|]. intros w'' <- _. apply runs_ret.
Qed.

Lemma inspectProcessIdentity_runs w :
  runs (inspectProcessIdentity decode_pid o) w
    (Ok (if decide (processToken o ∈ w_alive w) then Same else Gone)) (w_store w).
Proof using Hdecode.
  unfold inspectProcessIdentity. rewrite decide_True by done.
  eapply runs_bind; [by apply runs_ask|]. intros w' <- _. apply runs_ret.
Qed.

Lemma claimLiveness_single w :
  w_store w = single m i t →
  runs (claimLiveness decode_pid holder) w
    (Ok (if decide (processToken o ∈ w_alive w) then LLive else LDead)) (single m i t).
Proof using Hdecode.
  intros Hs. eapply runs_bind; [apply inspectProcessIdentity_runs|]. intros w' Hs' _.
  case_decide; [rewrite <- Hs, <- Hs'; apply runs_ret|].
  eapply (runs_bind _ _ _ None); [|intros w'' <- _; apply runs_ret]. unfold childLiveness.
  eapply runs_bind; [apply readChild_single; congruence|]. intros w'' <- _. apply runs_ret.
Qed.

Lemma claim_not_orphan l : is_orphan l (claim_name i) = false.
Proof.
  unfold is_orphan. destruct (ends_with CHILD_SUFFIX (claim_name i)) eqn:He; [|done].
  apply ends_with_spec in He as [j Hj]. by destruct (claim_not_child i j).
Qed.

(** A look at one claim's directory. *)
Lemma survey_single into w :
  w_store w = single m i t →
  runs (survey decode_pid (claim_dir m) m into) w
    (Ok (if decide (processToken o ∈ w_alive w) then add_live holder into else add_dead holder into))
    (single m i t).
Proof using Hrecord Hdecode.
  intros Hs. eapply (runs_bind _ _ _ (Names [claim_name i]) _ (single m i t)).
  { eapply runs_bind; [apply runs_ask; cbn; unfold lstat, node; rewrite Hs; unfold single; by rewrite lookup_singleton_eq|].
    intros w' Hs' _. cbv beta iota.
    eapply runs_bind; [apply runs_ask; cbn; unfold readdir, node; rewrite Hs', Hs; unfold single; by rewrite lookup_singleton_eq|].
    intros w'' Hs'' _. rewrite map_to_list_singleton, <- Hs, <- Hs', <- Hs''. apply runs_ret. }
  intros w' Hs' Ha. cbv beta iota zeta. cbn [List.filter survey_claims]. rewrite claim_not_orphan, claim_ends.
  cbn [map]. rewrite add_orphans_nil.
  set (s := if decide (processToken o ∈ w_alive w) then add_live holder into else add_dead holder into).
  eapply (runs_bind _ _ _ s _ (single m i t)).
  { eapply (runs_bind _ _ _ s _ (single m i t)); [|intros w2 <- _; apply runs_ret]. unfold survey_claim.
    eapply runs_bind; [by apply readClaim_single|]. intros w2 Hs2 Ha2. cbv beta iota.
    eapply runs_bind; [by apply claimLiveness_single|]. intros w3 <- _. rewrite Ha2, Ha. unfold s.
    case_decide; apply runs_ret. }
  intros w2 <- _. cbn. case_bool_decide as Hb; [by apply elem_of_nil in Hb|]. apply runs_ret.
Qed.

End Single.

(** ** A look at the whole set *)

Lemma each_nil {A} (body : A → P unit) w : runs (each [] body) w (Ok tt) (w_store w).
Proof. apply runs_ret. Qed.

(** The directories are tidied away where they are empty. *)
Lemma inspect_runs s st1 st2 st3 reaped w :
  runs (readClaimSet decode_pid) w (Ok s) (w_store w) → sv_unresolved s = [] → sv_orphans s = [] →
  (∀ w', w_store w' = w_store w → w_alive w' = w_alive w → runs (reap_all (sv_dead s)) w' (Ok reaped) st1) →
  st2 = match of_mode Exclusive (sv_live s) with
        | [] => match change (Rmdir [EXCLUSIVE_DIR]) st1 with Ok st => st | Throw _ => st1 end
        | _ => st1
        end →
  st3 = match of_mode Shared (sv_live s) with
        | [] => match change (Rmdir [SHARED_DIR]) st2 with Ok st => st | Throw _ => st2 end
        | _ => st2
        end →
  runs (inspectClaimSet decode_pid) w
    (Ok {| cs_exclusive := head (of_mode Exclusive (sv_live s)); cs_shared := of_mode Shared (sv_live s);
           cs_reaped := reaped |}) st3.
Proof.
  intros Hr Hu Ho Hd H2 H3. eapply runs_bind; [exact Hr|]. intros w1 Hs1 Ha1. cbv beta. rewrite Hu, Ho.
  eapply runs_bind; [apply each_nil|]. intros w2 Hs2 Ha2.
  eapply runs_bind; [apply Hd; congruence|]. intros w3 Hs3 _.
  eapply (runs_bind _ _ _ tt _ st2).
  { destruct (of_mode Exclusive (sv_live s)); [apply tidy_runs|]; rewrite ?Hs3; [done|].
    rewrite H2, <- Hs3. apply runs_ret. }
  intros w4 Hs4 _. eapply (runs_bind _ _ _ tt _ st3).
  { destruct (of_mode Shared (sv_live s)); [apply tidy_runs|]; rewrite ?Hs4; [done|].
    rewrite H3, <- Hs4. apply runs_ret. }
  intros w5 <- _. apply runs_ret.
Qed.

Lemma readClaimSet_runs m st s s1 s2 w :
  w_store w = SDir m → st = SDir m → s = s2 →
  (∀ w', w_store w' = st → w_alive w' = w_alive w →
     runs (survey decode_pid EXCLUSIVE_DIR Exclusive no_claims) w' (Ok s1) st) →
  (∀ w', w_store w' = st → w_alive w' = w_alive w →
     runs (survey decode_pid SHARED_DIR Shared s1) w' (Ok s2) st) →
  runs (readClaimSet decode_pid) w (Ok s) st.
Proof.
  intros Hs -> -> H1 H2. eapply runs_bind; [apply runs_ask; cbn; by rewrite Hs|].
  intros w1 Hs1 Ha1. cbv beta iota. eapply runs_bind; [apply H1; congruence|].
  intros w2 Hs2 Ha2. apply H2; congruence.
Qed.

Definition look (exclusive : option ClaimHolder) (shared reaped : list ClaimHolder) : ClaimSetState :=
  {| cs_exclusive := exclusive; cs_shared := shared; cs_reaped := reaped |}.

Lemma inspect_empty w :
  w_store w = SDir ∅ → runs (inspectClaimSet decode_pid) w (Ok (look None [] [])) (SDir ∅).
Proof.
  intros Hs. apply (inspect_runs no_claims (SDir ∅) (SDir ∅)); try done.
  - rewrite Hs. apply (readClaimSet_runs ∅ _ _ no_claims no_claims); try done;
      intros w' Hs' _; rewrite <- Hs'; apply survey_empty; by rewrite Hs'.
  - intros w' Hs' _. rewrite <- Hs, <- Hs'. apply runs_ret.
Qed.

Lemma node_other m i t : node (single m i t) [claim_dir (other_mode m)] = Throw ENOENT.
Proof. unfold node, single. rewrite lookup_singleton_ne; [done|]. by destruct m. Qed.

Lemma readClaimSet_single m i t v o w :
  claim_record t = Some (v, i, o) → decode_pid (processToken o) = Some (pid o) →
  w_store w = single m i t →
  runs (readClaimSet decode_pid) w
    (Ok ((if decide (processToken o ∈ w_alive w) then add_live else add_dead) (holder m i v o) no_claims))
    (single m i t).
Proof.
  intros Hr Hd Hs. set (s := (if decide (processToken o ∈ w_alive w) then add_live else add_dead)
    (holder m i v o) no_claims).
  assert (∀ w', w_store w' = single m i t → w_alive w' = w_alive w →
    runs (survey decode_pid (claim_dir m) m no_claims) w' (Ok s) (single m i t)) as Hone.
  { intros w' Hs' Ha. pose proof (survey_single m i t v o Hr Hd no_claims w' Hs') as H.
    rewrite Ha in H. unfold s. by case_decide. }
  assert (∀ into w', w_store w' = single m i t →
    runs (survey decode_pid (claim_dir (other_mode m)) (other_mode m) into) w' (Ok into) (single m i t)) as Hother.
  { intros into w' Hs'. rewrite <- Hs'. apply survey_empty. rewrite Hs'. apply node_other. }
  destruct m.
  - eapply (readClaimSet_runs _ _ s s s); [exact Hs|done|done|exact Hone|]. intros w' Hs' _. by apply Hother.
  - eapply (readClaimSet_runs _ _ s no_claims s); [exact Hs|done|done| |exact Hone]. intros w' Hs' _. by apply Hother.
Qed.

Lemma inspect_live m i t v o w :
  claim_record t = Some (v, i, o) → decode_pid (processToken o) = Some (pid o) →
  processToken o ∈ w_alive w → w_store w = single m i t →
  runs (inspectClaimSet decode_pid) w
    (Ok match m with
        | Exclusive => look (Some (holder m i v o)) [] []
        | Shared => look None [holder m i v o] []
        end) (single m i t).
Proof.
  intros Hr Hd Ha Hs. pose proof (readClaimSet_single m i t v o w Hr Hd Hs) as H.
  rewrite decide_True in H by done.
  assert (∀ w', w_store w' = w_store w → w_alive w' = w_alive w →
    runs (reap_all []) w' (Ok []) (single m i t)) as Hreap.
  { intros w' Hs' _. rewrite <- Hs, <- Hs'. apply runs_ret. }
  assert (∀ d, d ≠ claim_dir m → single m i t = match change (Rmdir [d]) (single m i t) with
    Ok st => st | Throw _ => single m i t end) as Hkeep.
  { intros d Hne. cbn. by rewrite lookup_singleton_ne. }
  destruct m.
  - apply (inspect_runs (add_live (holder Exclusive i v o) no_claims) (single Exclusive i t)
      (single Exclusive i t)); [by rewrite Hs|done|done|exact Hreap|done|by apply (Hkeep SHARED_DIR)].
  - apply (inspect_runs (add_live (holder Shared i v o) no_claims) (single Shared i t)
      (single Shared i t)); [by rewrite Hs|done|done|exact Hreap|by apply (Hkeep EXCLUSIVE_DIR)|done].
Qed.

(** A dead claim goes, and its directory. *)
Definition emptied (m : ClaimMode) : Store := SDir {[claim_dir m := EDir ∅]}.

Lemma unlink_single m i t : change (Unlink [claim_dir m; claim_name i]) (single m i t) = Ok (emptied m).
Proof. unfold single, emptied. cbn. by rewrite !lookup_singleton_eq, insert_singleton_eq, delete_singleton_eq. Qed.

Lemma unlink_no_child m i t :
  change (Unlink [claim_dir m; child_name i]) (single m i t) = Throw ENOENT.
Proof.
  unfold single. cbn. rewrite lookup_singleton_eq, lookup_singleton_ne; [done|apply claim_not_child].
Qed.

Lemma rmdir_emptied m : change (Rmdir [claim_dir m]) (emptied m) = Ok (SDir ∅).
Proof. unfold emptied. cbn. rewrite lookup_singleton_eq, decide_True by done. by rewrite delete_singleton_eq. Qed.

Lemma reap_single m i t v o w :
  claim_record t = Some (v, i, o) → w_store w = single m i t →
  runs (reap_all [holder m i v o]) w (Ok [holder m i v o]) (emptied m).
Proof.
  intros Hr Hs. eapply (runs_bind _ _ _ true _ (emptied m)).
  - unfold reap. cbn [holder ch_path ch_mode ch_claimId]. rewrite childPath_claim.
    eapply runs_bind; [by apply readClaim_single|]. intros w1 Hs1 _. cbn [holder ch_claimId].
    rewrite decide_True by done.
    eapply (runs_bind _ _ _ tt _ (single m i t)).
    { eapply runs_bind; [apply runs_change|]. rewrite Hs1, unlink_no_child. intros w2 <- _. apply runs_ret. }
    intros w2 Hs2 _. eapply (runs_bind _ _ _ tt _ (emptied m)).
    { eapply runs_bind; [apply runs_change|]. rewrite Hs2, unlink_single. intros w3 <- _. apply runs_ret. }
    intros w3 <- _. apply runs_ret.
  - intros w1 <- _. apply runs_ret.
Qed.

Lemma inspect_dead m i t v o w :
  claim_record t = Some (v, i, o) → decode_pid (processToken o) = Some (pid o) →
  processToken o ∉ w_alive w → w_store w = single m i t →
  runs (inspectClaimSet decode_pid) w (Ok (look None [] [holder m i v o])) (SDir ∅).
Proof.
  intros Hr Hd Ha Hs. pose proof (readClaimSet_single m i t v o w Hr Hd Hs) as H.
  rewrite decide_False in H by done.
  assert (change (Rmdir [EXCLUSIVE_DIR]) (SDir ∅) = Throw ENOENT ∧
          change (Rmdir [SHARED_DIR]) (SDir ∅) = Throw ENOENT) as [He1 He2] by done.
  pose proof (rmdir_emptied m) as Hm.
  apply (inspect_runs (add_dead (holder m i v o) no_claims) (emptied m)
    match m with Exclusive => SDir ∅ | Shared => emptied m end); [by rewrite Hs|done|done|..].
  - intros w' Hs' _. eapply reap_single; [exact Hr|congruence].
  - cbn [sv_live of_mode add_dead no_claims List.filter]. destruct m; cbn [claim_dir] in Hm; [by rewrite Hm|done].
  - cbn [sv_live of_mode add_dead no_claims List.filter]. destruct m; cbn [claim_dir] in Hm; [by rewrite He2|by rewrite Hm].
Qed.

(** ** Taking and releasing *)

Hypothesis Hpid : 0 < pid owner <= MAX_SAFE_INTEGER.
Hypothesis Htoken : processToken owner ≠ [].
Hypothesis Hdecode : decode_pid (processToken owner) = Some (pid owner).
Hypothesis Huuid : ∀ n, env_uuid env n ≠ [].

Definition payload (m : ClaimMode) (i : units) (details : json) : units :=
  JSON_stringify (payload_json i m owner (env_date env) details).

Lemma payload_record m i details :
  plain details = true → i ≠ [] →
  claim_record (payload m i details) = Some (payload_json i m owner (env_date env) details, i, owner).
Proof using Hlaws Hpid Htoken.
  clear Hdecode. intros Hd Hi. unfold claim_record, payload. rewrite parse_plain; cycle 1.
  { change (plain (payload_json i m owner (env_date env) details))
      with (plain (JNumber (pid owner)) && true && (plain details && true)).
    rewrite Hd. pose proof Hpid. cbn [plain andb]. rewrite !andb_true_r.
    apply andb_true_iff. split; apply Z.leb_le; lia. }
  cbn [mbind option_bind].
  change (field "owner" (payload_json i m owner (env_date env) details)) with (Some (owner_json owner)).
  change (field "claimId" (payload_json i m owner (env_date env) details)) with (Some (JString i)).
  unfold asOwner. change (field "pid" (owner_json owner)) with (Some (JNumber (pid owner))).
  change (field "processToken" (owner_json owner)) with (Some (JString (processToken owner))).
  pose proof Hpid as Hp. pose proof Htoken as Ht. destruct owner as [p tok]. cbn in *.
  destruct tok as [|u l]; [done|]. replace (0 <? p) with true by (symmetry; apply Z.ltb_lt; lia).
  replace (p <=? MAX_SAFE_INTEGER) with true by (symmetry; apply Z.leb_le; lia). cbn. by destruct i.
Qed.

Lemma staging_ne m i : claim_dir m ≠ staging_name i.
Proof. intros H. eapply (staging_not_dir i _ m); [by left|]. by symmetry. Qed.

Lemma publish_runs m i text w :
  w_store w = SDir ∅ →
  runs (match m with Shared => publishShared text i | Exclusive => publishExclusive text i end) w
    (Ok (inr [claim_dir m; claim_name i])) (single m i text).
Proof.
  intros Hs. pose proof (staging_ne m i) as Hne. destruct m; apply runs_catch.
  - eapply (runs_bind _ _ _ tt _ (SDir {[staging_name i := EDir ∅]})).
    { eapply runs_bind; [apply runs_change|]. rewrite Hs. cbn [app change]. rewrite lookup_empty, insert_empty.
      intros w' <- _. apply runs_ret. }
    intros w1 Hs1 _.
    eapply (runs_bind _ _ _ tt _ (SDir {[staging_name i := EDir {[claim_name i := text]}]})).
    { apply runs_sys. rewrite Hs1. cbn [app change]. by rewrite lookup_singleton_eq, insert_singleton_eq, insert_empty. }
    intros w2 Hs2 _. eapply (runs_bind _ _ _ tt _ (single Exclusive i text)).
    { apply runs_sys. rewrite Hs2. cbn [app change]. unfold rename_entry.
      rewrite lookup_singleton_eq, lookup_singleton_ne by done. cbn [mbind result_bind].
      by rewrite delete_singleton_eq, insert_empty. }
    intros w3 <- _. apply runs_ret.
  - eapply (runs_bind _ _ _ tt _ (emptied Shared)).
    { eapply runs_bind; [apply runs_change|]. rewrite Hs. cbn [change]. rewrite lookup_empty, insert_empty.
      intros w' Hw _. replace (emptied Shared) with (w_store w') by exact Hw. apply runs_ret. }
    intros w1 Hs1 _.
    eapply (runs_bind _ _ _ tt _ (SDir (<[staging_name i := EFile text]> {[SHARED_DIR := EDir ∅]}))).
    { apply runs_sys. rewrite Hs1. unfold emptied. cbn [app change claim_dir]. by rewrite lookup_singleton_ne. }
    intros w2 Hs2 _. eapply (runs_bind _ _ _ tt _ (single Shared i text)).
    { apply runs_sys. rewrite Hs2. cbn [app change]. rewrite lookup_insert_eq, lookup_insert_ne by done.
      rewrite lookup_singleton_eq, delete_insert_id by (by apply lookup_singleton_ne).
      by rewrite insert_singleton_eq, insert_empty. }
    intros w3 <- _. apply runs_ret.
Qed.

Definition handle_of (m : ClaimMode) (i : units) (details : json) : ClaimHandle :=
  {| ha_path := [claim_dir m; claim_name i]; ha_claimId := i; ha_mode := m; ha_owner := owner;
     ha_startedAt := env_date env; ha_details := details |}.

Lemma settle_runs m i details reaped w :
  plain details = true → i ≠ [] → processToken owner ∈ w_alive w →
  w_store w = single m i (payload m i details) →
  runs (settle_published decode_pid (handle_of m i details) reaped) w
    (Ok (Acquired (handle_of m i details) reaped)) (single m i (payload m i details)).
Proof using Hlaws Hpid Htoken Hdecode.
  intros Hd Hi Ha Hs. pose proof (payload_record m i details Hd Hi) as Hr.
  eapply runs_bind; [apply runs_catch; by eapply inspect_live|]. intros w' <- _.
  destruct m; cbn; rewrite app_nil_r; apply runs_ret.
Qed.

(** A bind whose answer depends on an id that is drawn on the way. *)
Lemma runs_bind_some {A B} (p : P A) (f : A → P B) w x st (r : units → result claim_error B)
    (st' : units → Store) (Q : units → Prop) :
  runs p w (Ok x) st →
  (∀ w', w_store w' = st → w_alive w' = w_alive w → ∃ i, runs (f x) w' (r i) (st' i) ∧ Q i) →
  ∃ i, runs (p ≫= f) w (r i) (st' i) ∧ Q i.
Proof.
  intros (w1 & H1 & Hs & Ha & Ht) H2. destruct (H2 w1 Hs Ha) as (i & (w2 & H3 & Hs2 & Ha2 & Ht2) & HQ).
  exists i. split; [|done]. exists w2. unfold mbind, P_bind. rewrite run_alone_bind, H1.
  split_and!; [done..|congruence|congruence].
Qed.

Lemma createClaimDir_root w :
  w_store w ≠ SFile →
  runs (createClaimDir []) w (Ok tt) (match w_store w with SMissing => SDir ∅ | st => st end).
Proof.
  intros Hf. eapply runs_bind; [apply runs_change|]. destruct (w_store w); [|done|];
    cbn [change]; intros w' <- _; apply runs_ret.
Qed.

(** An attempt at a set that a look leaves empty. *)
Lemma attempt_runs m details found w :
  plain details = true → processToken owner ∈ w_alive w → w_store w ≠ SFile →
  (∀ w', w_store w' = match w_store w with SMissing => SDir ∅ | st => st end → w_alive w' = w_alive w →
     runs (inspectClaimSet decode_pid) w' (Ok (look None [] found)) (SDir ∅)) →
  ∃ i, runs (attempt_claim decode_pid m details owner []) w
         (Ok (inr (Acquired (handle_of m i details) found))) (single m i (payload m i details)) ∧ i ≠ [].
Proof using Hlaws Hpid Htoken Hdecode Huuid.
  intros Hd Ha Hfile Hlook.
  eapply (runs_bind_some _ _ _ None (match w_store w with SMissing => SDir ∅ | st => st end)).
  { apply runs_catch. eapply runs_bind; [by apply createClaimDir_root|]. intros w' <- _. apply runs_ret. }
  intros w1 Hs1 Ha1. cbv beta iota. eapply runs_bind_some; [by apply Hlook|]. intros w2 Hs2 Ha2.
  cbn [look cs_reaped cs_exclusive app]. eapply (runs_bind_some _ _ _ (env_uuid env (size (w_ids w2))) (SDir ∅)).
  { eapply runs_call; [done|done|]. rewrite <- Hs2. apply (runs_done _ (add_id w2 _ a)). }
  intros w3 Hs3 Ha3. cbv beta. exists (env_uuid env (size (w_ids w2))). split; [|apply Huuid].
  pose proof (Huuid (size (w_ids w2))) as Hi. generalize dependent (env_uuid env (size (w_ids w2))). intros i Hi.
  eapply runs_bind; [by apply runs_ask|]. intros w4 Hs4 Ha4. cbv beta zeta.
  eapply runs_bind; [apply publish_runs; congruence|]. intros w5 Hs5 Ha5. cbv beta iota.
  eapply runs_bind; [apply (settle_runs m i details); [done|done|congruence|exact Hs5]|].
  intros w6 <- _. apply runs_ret.
Qed.

Lemma acquire_runs m details found w :
  plain details = true → processToken owner ∈ w_alive w → w_store w ≠ SFile →
  (∀ w', w_store w' = match w_store w with SMissing => SDir ∅ | st => st end → w_alive w' = w_alive w →
     runs (inspectClaimSet decode_pid) w' (Ok (look None [] found)) (SDir ∅)) →
  ∃ i, runs (tryAcquireClaim decode_pid (pid owner) m details) w
         (Ok (Acquired (handle_of m i details) found)) (single m i (payload m i details)) ∧ i ≠ [].
Proof using Hlaws Hpid Htoken Hdecode Huuid.
  intros Hd Ha Hfile Hlook. eapply (runs_bind_some _ _ _ owner (w_store w)).
  { eapply runs_bind; [by apply runs_ask|]. intros w' <- _. cbv beta iota.
    assert ({| pid := pid owner; processToken := token_of (env_proc env) a |} = owner) as ->.
    { unfold token_of. by destruct owner. }
    apply runs_ret. }
  intros w1 Hs1 Ha1. destruct (attempt_runs m details found w1) as (i & Hr & Hi);
    [done|congruence|congruence|rewrite Hs1, Ha1; exact Hlook|].
  exists i. split; [|done]. eapply runs_bind; [exact Hr|]. intros w2 <- _. apply runs_ret.
Qed.

Lemma release_runs m i details w :
  plain details = true → i ≠ [] → w_store w = single m i (payload m i details) →
  runs (releaseClaim (handle_of m i details)) w (Ok true) SMissing.
Proof using Hlaws Hpid Htoken.
  intros Hd Hi Hs. pose proof (payload_record m i details Hd Hi) as Hr.
  unfold releaseClaim. cbn [handle_of ha_path ha_mode ha_claimId]. rewrite childPath_claim.
  eapply runs_bind; [by eapply readClaim_single|]. intros w1 Hs1 _. cbn [holder ch_claimId].
  rewrite decide_True by done. eapply (runs_bind _ _ _ true _ (emptied m)).
  { apply runs_catch. eapply (runs_bind _ _ _ tt _ (single m i (payload m i details))).
    - eapply runs_bind; [apply runs_change|]. rewrite Hs1, unlink_no_child. intros w' <- _. apply runs_ret.
    - intros w2 Hs2 _. eapply (runs_bind _ _ _ tt _ (emptied m)); [|intros w3 <- _; apply runs_ret].
      eapply runs_bind; [apply runs_change|]. rewrite Hs2, unlink_single. intros w' <- _. apply runs_ret. }
  intros w2 Hs2 _. eapply (runs_bind _ _ _ tt _ (SDir ∅)).
  { apply tidy_runs. by rewrite Hs2, rmdir_emptied. }
  intros w3 Hs3 _. eapply (runs_bind _ _ _ tt _ SMissing).
  { apply tidy_runs. by rewrite Hs3. }
  intros w4 <- _. apply runs_ret.
Qed.

Lemma held_runs i0 t0 v0 o m details w :
  claim_record t0 = Some (v0, i0, o) → decode_pid (processToken o) = Some (pid o) →
  w_store w = single Exclusive i0 t0 → processToken o ∈ w_alive w →
  runs (tryAcquireClaim decode_pid (pid owner) m details) w
    (Ok (Held (holder Exclusive i0 v0 o) [])) (single Exclusive i0 t0).
Proof using Type.
  intros Hr0 Ho Hs Hlive. eapply (runs_bind _ _ _ owner _ (w_store w)).
  { eapply runs_bind; [by apply runs_ask|]. intros w' <- _. cbv beta iota.
    assert ({| pid := pid owner; processToken := token_of (env_proc env) a |} = owner) as ->.
    { clear. unfold token_of. by destruct (env_proc env a). }
    apply runs_ret. }
  intros w1 Hs1 Ha1. eapply (runs_bind _ _ _ (inr (Held (holder Exclusive i0 v0 o) [])) _ (single Exclusive i0 t0)).
  { eapply (runs_bind _ _ _ None _ (w_store w1)).
    { apply runs_catch. eapply runs_bind; [apply createClaimDir_root; by rewrite Hs1, Hs|].
      rewrite Hs1, Hs. intros w2 Hs2 _. replace (single Exclusive i0 t0) with (w_store w2) by exact Hs2.
      apply runs_ret. }
    intros w2 Hs2 Ha2. cbv beta iota.
    eapply runs_bind; [eapply inspect_live; [exact Hr0|exact Ho|by rewrite Ha2, Ha1|by rewrite Hs2, Hs1, Hs]|].
    intros w3 <- _. apply runs_ret. }
  intros w2 <- _. apply runs_ret.
Qed.

(** ** What is taken and what is left *)

(** A free claim is acquired at once, and its file records its id and its owner; releasing it removes
    every file and directory that taking it made. *)
Theorem claim_roundtrip m details w :
  plain details = true → processToken owner ∈ w_alive w → w_store w = SMissing →
  ∃ i t v, runs (tryAcquireClaim decode_pid (pid owner) m details) w
             (Ok (Acquired (handle_of m i details) [])) (single m i t) ∧
    claim_record t = Some (v, i, owner) ∧ claim_details (field "details" v) = claim_details (Some details) ∧
    ∀ w', w_store w' = single m i t → runs (releaseClaim (handle_of m i details)) w' (Ok true) SMissing.
Proof using Hlaws Hpid Htoken Hdecode Huuid.
  intros Hd Ha Hs. destruct (acquire_runs m details [] w) as (i & Hr & Hi); [done|done|by rewrite Hs| |].
  { intros w' Hs' _. rewrite Hs in Hs'. by apply inspect_empty. }
  exists i, (payload m i details), (payload_json i m owner (env_date env) details).
  split_and!; [done|by apply payload_record|done|]. intros w' Hs'. by apply release_runs.
Qed.

(** An exclusive claim of a process that lives is found and left alone; a claim of one that ended
    and named no child is removed, reported, and its place taken. *)
Theorem claim_holder_decides m0 i0 t0 v0 o m details w :
  claim_record t0 = Some (v0, i0, o) → decode_pid (processToken o) = Some (pid o) →
  w_store w = single m0 i0 t0 → plain details = true → processToken owner ∈ w_alive w →
  (processToken o ∈ w_alive w → m0 = Exclusive →
   runs (tryAcquireClaim decode_pid (pid owner) m details) w
     (Ok (Held (holder m0 i0 v0 o) [])) (single m0 i0 t0)) ∧
  (processToken o ∉ w_alive w →
   ∃ i t v, runs (tryAcquireClaim decode_pid (pid owner) m details) w
              (Ok (Acquired (handle_of m i details) [holder m0 i0 v0 o])) (single m i t) ∧
     claim_record t = Some (v, i, owner)).
Proof using Hlaws Hpid Htoken Hdecode Huuid.
  intros Hr0 Ho Hs Hd Ha. split.
  - intros Hlive ->. by apply held_runs.
  - intros Hend. destruct (acquire_runs m details [holder m0 i0 v0 o] w) as (i & Hr & Hi);
      [done|done|by rewrite Hs| |].
    { intros w' Hs' Ha'. rewrite Hs in Hs'. eapply inspect_dead; [exact Hr0|exact Ho|by rewrite Ha'|exact Hs']. }
    exists i, (payload m i details), (payload_json i m owner (env_date env) details).
    split; [done|by apply payload_record].
Qed.

End Runs.

Section Witnesses.
Import ClaimText.
#[local] Existing Instance text.

Lemma env_owner_safe : 0 < pid (env_proc env 0) <= MAX_SAFE_INTEGER.
Proof. split; vm_compute; congruence. Qed.

Lemma env_uuid_nonempty n : env_uuid env n ≠ [].
Proof. done. Qed.

(** [claim_roundtrip] in an empty world. *)
Lemma claim_roundtrip_witness :
  ∃ i t v, runs env 0 (tryAcquireClaim (env_decode env) 100 Shared (JObject [])) world0
             (Ok (Acquired (handle_of env 0 Shared i (JObject [])) [])) (single Shared i t) ∧
    claim_record t = Some (v, i, env_proc env 0).
Proof.
  destruct (claim_roundtrip env 0 env_owner_safe ltac:(discriminate) eq_refl env_uuid_nonempty Shared (JObject [])
    world0) as (i & t & v & Hr & Hc & _); [reflexivity|vm_compute; reflexivity|reflexivity|].
  exists i, t, v. split; [exact Hr|exact Hc].
Defined.

(** The claim of a process that ended. *)
Definition left_behind : units :=
  JSON_stringify (payload_json (js "id") Exclusive {| pid := 900; processToken := [900] |} [] (JObject [])).
Definition crashed_world : World := set_store world0 (single Exclusive (js "id") left_behind).

(** [claim_holder_decides] where the holder ended. *)
Lemma claim_holder_decides_witness :
  ∃ i t v h, runs env 0 (tryAcquireClaim (env_decode env) 100 Exclusive (JObject [])) crashed_world
               (Ok (Acquired (handle_of env 0 Exclusive i (JObject [])) [h])) (single Exclusive i t) ∧
    claim_record t = Some (v, i, env_proc env 0).
Proof.
  assert (claim_record left_behind = Some (payload_json (js "id") Exclusive {| pid := 900; processToken := [900] |}
    [] (JObject []), js "id", {| pid := 900; processToken := [900] |})) as Hr by (vm_compute; reflexivity).
  destruct (claim_holder_decides env 0 env_owner_safe ltac:(discriminate) eq_refl env_uuid_nonempty
    Exclusive (js "id") left_behind _ _ Exclusive (JObject []) crashed_world Hr) as [_ H];
    [reflexivity|reflexivity|reflexivity|vm_compute; reflexivity|].
  destruct H as (i & t & v & Ht & Hc); [vm_compute; congruence|].
  exists i, t, v. eexists. split; [exact Ht|exact Hc].
Defined.

End Witnesses.
