(* ===== verification/DirLock.v ===== *)
(** * Directory locks: [packages/core/dir-lock.ts]

    A lock is the exclusive claim of a set of its own, waited for by polling, with the depth to which the
    holder has nested it. A program here is one thread of control of a process: [lockDepths] has the
    lock at a depth above zero only while the synchronous body of that same thread runs, so the depth
    is passed along. The marks [Enter] and [Leave] say when a body starts and ends. *)

From Stdlib Require Import ZArith Lia.
From S2P Require Import Prelude.
From S2P Require Import Bytes.
From S2P Require Import Json.
From S2P Require Import FileSystem.
From S2P Require Import OwnershipClaim.
Open Scope Z_scope.

(** What is thrown: an error of the claim or of [statSync], a timeout, the reason of a signal, or whatever
    the caller's functions throw. [OutOfTurns] is no error of the code: it is where the polls that the
    model grants end. *)
Inductive lock_error :=
| LockClaim (error : claim_error)
| LockTimeout
| LockAborted
| LockThrown
| OutOfTurns.

(** Programs that throw. *)
Definition L (A : Type) : Type := prog (result lock_error A).

#[export] Instance L_ret : MRet L := fun A a => Done (Ok a).
#[export] Instance L_bind : MBind L := fun A B f p =>
  prog_bind (fun r => match r with Ok a => f a | Throw e => Done (Throw e) end) p.

Definition throw {A} (e : lock_error) : L A := Done (Throw e).
Definition query {B} (c : call B) : L B := Call c (fun b => Done (Ok b)).
Definition of_claim {A} (r : result claim_error A) : result lock_error A :=
  match r with Ok a => Ok a | Throw e => Throw (LockClaim e) end.
Definition lift {A} (p : P A) : L A := prog_bind (fun r => Done (of_claim r)) p.

Definition DEFAULT_LOCK_WAIT_MS : Z := 12000.
Definition DEFAULT_LOCK_POLL_MS : Z := 25.

(** [ensureParent] is what the caller's function comes to; [signal] says whether there is one. *)
Record DirLockOptions := {
  waitMs : Z;
  pollMs : Z;
  ensureParent : result lock_error unit;
  signal : bool;
}.

Definition DEFAULT_OPTIONS : DirLockOptions :=
  {| waitMs := DEFAULT_LOCK_WAIT_MS; pollMs := DEFAULT_LOCK_POLL_MS; ensureParent := Ok tt;
     signal := false |}.

(** A body, given the depth [lockDepths] has, and the depth it leaves. *)
Abbreviation Depth := (option Z) (only parsing).
Definition Body (A : Type) : Type := Depth → prog (result lock_error A * Depth).

Section DirLock.
Context `{!NodeText}.
Variable decode_pid : units → option Z.
Variable own_pid : Z.

Definition prepareDirLock (options : DirLockOptions) : L unit :=
  _ ← (Done (ensureParent options) : L unit);
  r ← query StatParent;
  match r with Ok _ => mret tt | Throw e => throw (LockClaim (Errno e)) end.

Definition attemptDirLock : L (option ClaimHandle) :=
  attempt ← lift (tryAcquireClaim decode_pid own_pid Exclusive (JObject []));
  match attempt with
  | Acquired claim _ => mret (Some claim)
  | WaitingFor _ pending _ => _ ← lift (releaseClaim pending); mret None
  | Held _ _ => mret None
  end.

Definition nestedDirLock {A} (fn : Body A) : Body A := fun depth =>
  prog_bind (fun '(r, depth) => Done (r, Some (default 1 depth - 1))) (fn (Some (default 0 depth + 1))).

(** [releaseClaim] in a [finally]: what it throws replaces what the body came to. *)
Definition finally_release {A} (claim : ClaimHandle) (r : result lock_error A) : L A :=
  prog_bind (fun released => Done (_ ← of_claim released; r)) (releaseClaim claim).

Definition holdDirLock {A} (claim : ClaimHandle) (fn : Body A) : prog (result lock_error A * Depth) :=
  Call (Enter Exclusive (ha_claimId claim)) (fun _ =>
    prog_bind (fun '(r, _) =>
      Call Leave (fun _ => prog_bind (fun r => Done (r, Some 0)) (finally_release claim r)))
      (fn (Some 1))).

Definition throwIfAborted (options : DirLockOptions) : L unit :=
  if signal options then
    aborted ← query Aborted;
    if aborted : bool then throw LockAborted else mret tt
  else mret tt.

(** [sleepSync(ms)], and [delay(ms, undefined, { signal })]. *)
Definition sleepSync (ms : Z) : L unit := start ← query Now; query (SleepUntil (start + ms)).
Definition delay (ms : Z) (options : DirLockOptions) : L unit :=
  if signal options then
    start ← query Now;
    aborted ← query (DelayUntil (start + ms));
    if aborted : bool then throw LockAborted else mret tt
  else sleepSync ms.

(** The loop that polls, of [withDirLock] and of [acquireDirLockAsync]. *)
Fixpoint wait_lock (turns : nat) (async : bool) (options : DirLockOptions) (deadline : Z) :
    L ClaimHandle :=
  match turns with
  | O => throw OutOfTurns
  | S turns =>
      held ← attemptDirLock;
      match held with
      | Some claim => mret claim
      | None =>
          now ← query Now;
          if deadline <=? now then throw LockTimeout
          else
            _ ← (if async then delay (pollMs options) options else sleepSync (pollMs options));
            wait_lock turns async options deadline
      end
  end.

(** A poll takes [pollMs] at least, so that many polls reach the deadline. *)
Definition wait_turns (options : DirLockOptions) : nat := Z.to_nat (waitMs options / pollMs options) + 2.

Definition acquire_lock (async : bool) (options : DirLockOptions) : L ClaimHandle :=
  _ ← prepareDirLock options;
  start ← query Now;
  wait_lock (wait_turns options) async options (start + waitMs options).

Definition withDirLock {A} (options : DirLockOptions) (fn : Body A) : Body A := fun depth =>
  if 0 <? default 0 depth then nestedDirLock fn depth
  else
    prog_bind (fun r => match r with
                        | Ok held => holdDirLock held fn
                        | Throw e => Done (Throw e, depth)
                        end) (acquire_lock false options).

Definition acquireDirLockAsync (options : DirLockOptions) : L ClaimHandle :=
  _ ← throwIfAborted options; acquire_lock true options.

(** A body that first looks at the signal. *)
Definition unless_aborted {A} (options : DirLockOptions) (fn : Body A) : Body A := fun depth =>
  prog_bind (fun r => match r with Ok _ => fn depth | Throw e => Done (Throw e, depth) end)
    (throwIfAborted options).

Definition withDirLockAsync {A} (options : DirLockOptions) (fn : Body A) : Body A :=
  unless_aborted options (fun depth =>
    if 0 <? default 0 depth then nestedDirLock fn depth
    else
      prog_bind (fun r => match r with
                          | Ok held => holdDirLock held (unless_aborted options fn)
                          | Throw e => Done (Throw e, depth)
                          end) (acquireDirLockAsync options)).

(** The body of a transaction runs at the depth the lock has. *)
Definition withDirLockTransaction {A} (options : DirLockOptions) (fn : Body A) : Body A := fun depth =>
  prog_bind (fun r => match r with
    | Ok claim =>
        Call (Enter Exclusive (ha_claimId claim)) (fun _ =>
          prog_bind (fun '(r, depth) =>
            Call Leave (fun _ => prog_bind (fun r => Done (r, depth)) (finally_release claim r)))
            (unless_aborted options fn depth))
    | Throw e => Done (Throw e, depth)
    end) (acquireDirLockAsync options).

(** ** Users of a lock

    A body works, takes the lock again inside itself, returns or throws; the body of a transaction,
    which is not reentrant, only works. A user locks any number of times, whatever it is thrown. *)

Inductive LockBody :=
| BodyReturn
| BodyThrow
| BodyWork (rest : LockBody)
| BodyLock (options : DirLockOptions) (inner rest : LockBody).

Fixpoint run_body (body : LockBody) : Body unit := fun depth =>
  match body with
  | BodyReturn => Done (Ok tt, depth)
  | BodyThrow => Done (Throw LockThrown, depth)
  | BodyWork rest => Call Now (fun _ => run_body rest depth)
  | BodyLock options inner rest =>
      prog_bind (fun '(r, depth) => match r with
                                    | Ok _ => run_body rest depth
                                    | Throw e => Done (Throw e, depth)
                                    end) (withDirLock options (run_body inner) depth)
  end.

Fixpoint work_body (steps : nat) (throws : bool) : LockBody :=
  match steps with
  | O => if throws then BodyThrow else BodyReturn
  | S steps => BodyWork (work_body steps throws)
  end.

Inductive LockUse :=
| UseSync (options : DirLockOptions) (body : LockBody)
| UseAsync (options : DirLockOptions) (body : LockBody)
| UseTransaction (options : DirLockOptions) (steps : nat) (throws : bool).

Definition use_lock (use : LockUse) : Body unit :=
  match use with
  | UseSync options body => withDirLock options (run_body body)
  | UseAsync options body => withDirLockAsync options (run_body body)
  | UseTransaction options steps throws => withDirLockTransaction options (run_body (work_body steps throws))
  end.

Fixpoint lock_user (uses : list LockUse) (depth : Depth) : prog unit :=
  match uses with
  | [] => Done tt
  | use :: uses => prog_bind (fun '(_, depth) => lock_user uses depth) (use_lock use depth)
  end.

End DirLock.
