(* ===== verification/DirLockFacts.v ===== *)
(** * Directory locks exclude, wait long enough and unwind

    Over the exclusion of claims: bodies of one lock never overlap, in any interleaving; a wait ends, with a
    timeout only once its time is over; the depth of a lock is what it was once a body is left, by a
    return or by a throw; and alone, a free lock is taken, the body run and everything removed. *)

From Stdlib Require Import ZArith Lia.
From S2P Require Import Prelude.
From S2P Require Import Bytes.
From S2P Require Import Json.
From S2P Require Import FileSystem.
From S2P Require Import OwnershipClaim.
From S2P Require Import ClaimLogic.
From S2P Require Import ClaimSteps.
From S2P Require Import OwnershipClaimFacts.
From S2P Require Import ClaimRuns.
From S2P Require Import DirLock.
Open Scope Z_scope.

(** ** Every way a program can end *)

(** Whatever its calls answer, a program ends in [Q]. *)
Fixpoint leaves {A} (p : prog A) (Q : A → Prop) : Prop :=
  match p with Done x => Q x | Call c k => ∀ b, leaves (k b) Q end.

Lemma leaves_mono {A} (p : prog A) (Q Q' : A → Prop) : leaves p Q → (∀ x, Q x → Q' x) → leaves p Q'.
Proof. intros H HQ. induction p as [x|B c k IH]; cbn in *; [by apply HQ|]. intros b. by apply IH. Qed.

Lemma leaves_bind {A B} (f : A → prog B) (p : prog A) Q :
  leaves p (fun x => leaves (f x) Q) → leaves (prog_bind f p) Q.
Proof. intros H. induction p as [x|C c k IH]; cbn in *; [done|]. intros b. by apply IH. Qed.

Lemma leaves_any {A} (p : prog A) (Q : A → Prop) : (∀ x, Q x) → leaves p Q.
Proof. intros H. induction p as [x|C c k IH]; cbn; [done|]. intros b. by apply IH. Qed.

Lemma leaves_then {A B} (f : A → prog B) (p : prog A) Q :
  (∀ x, leaves (f x) Q) → leaves (prog_bind f p) Q.
Proof. intros H. by apply leaves_bind, leaves_any. Qed.

(** What a call may answer at a time: readings are of the clock, and a sleep is over. *)
Definition timely (now : Z) {B} (c : call B) : B → Prop :=
  match c in call B return B → Prop with
  | Now => fun b => b = now
  | SleepUntil time => fun _ => time <= now
  | DelayUntil time => fun b => b = false → time <= now
  | _ => fun _ => True
  end.

(** Whatever its calls answer, and however long they take, a program that starts at a time ends in [Q]: the
    clock does not go back. *)
Fixpoint timed {A} (now : Z) (p : prog A) (Q : A → Z → Prop) : Prop :=
  match p with
  | Done x => Q x now
  | Call c k => ∀ later b, now <= later → timely later c b → timed later (k b) Q
  end.

Lemma timed_mono {A} now (p : prog A) (Q Q' : A → Z → Prop) :
  timed now p Q → (∀ x later, now <= later → Q x later → Q' x later) → timed now p Q'.
Proof.
  revert now. induction p as [x|B c k IH]; intros now H HQ; cbn in *; [by apply HQ; [lia|]|].
  intros later b Hl Hb. eapply IH; [by apply H|]. intros x t Ht. apply HQ. lia.
Qed.

Lemma timed_bind {A B} now (f : A → prog B) (p : prog A) Q :
  timed now p (fun x later => timed later (f x) Q) → timed now (prog_bind f p) Q.
Proof.
  revert now. induction p as [x|C c k IH]; intros now H; cbn in *; [done|]. intros later b Hl Hb. by apply IH, H.
Qed.

Lemma timed_any {A} now (p : prog A) (Q : A → Z → Prop) :
  (∀ x later, now <= later → Q x later) → timed now p Q.
Proof.
  revert now. induction p as [x|C c k IH]; intros now H; cbn; [apply H; lia|]. intros later b Hl _.
  apply IH. intros x t Ht. apply H. lia.
Qed.

Lemma timed_leaves {A} now (p : prog A) (Q : A → Z → Prop) (R : A → Prop) :
  leaves p R → timed now p Q → timed now p (fun x later => R x ∧ Q x later).
Proof.
  revert now. induction p as [x|C c k IH]; intros now HR H; cbn in *; [done|].
  intros later b Hl Hb. by apply IH; [|apply H].
Qed.

Section Lock.
Context {Htext : NodeText}.
Variable decode_pid : units → option Z.
Variable own_pid : Z.

Abbreviation attemptDirLock := (DirLock.attemptDirLock decode_pid own_pid).
Abbreviation wait_lock := (DirLock.wait_lock decode_pid own_pid).
Abbreviation withDirLock := (DirLock.withDirLock decode_pid own_pid).
Abbreviation run_body := (DirLock.run_body decode_pid own_pid).
Abbreviation use_lock := (DirLock.use_lock decode_pid own_pid).

(** ** Waiting *)

(** A wait that ends at [deadline] does not run out of turns, and times out only then. *)
Definition waited (deadline : Z) (r : result lock_error ClaimHandle) (now : Z) : Prop :=
  r ≠ Throw OutOfTurns ∧ (r = Throw LockTimeout → deadline <= now).

Lemma attempt_no_wait : leaves attemptDirLock (fun r => match r with
  | Throw LockTimeout | Throw OutOfTurns => False
  | _ => True
  end).
Proof.
  unfold attemptDirLock. apply leaves_bind, leaves_bind, leaves_any.
  intros [[]|e]; cbn [of_claim leaves]; try done. apply leaves_bind, leaves_bind, leaves_any. by intros [].
Qed.

Lemma pause_timed async options now :
  timed now (if async : bool then delay (pollMs options) options else sleepSync (pollMs options))
    (fun r later => match r with
       | Ok _ => now + pollMs options <= later
       | Throw LockAborted => True
       | Throw _ => False
       end).
Proof.
  assert (timed now (sleepSync (pollMs options)) (fun r later => match r with
       | Ok _ => now + pollMs options <= later | Throw LockAborted => True | Throw _ => False end)) as Hs.
  { intros t1 start H1 ->. cbn. intros t2 b H2 Hb. lia. }
  destruct async; [|done]. unfold delay. destruct (signal options); [|done].
  intros t1 start H1 ->. cbn. intros t2 [] H2 Hb; [done|]. cbn. specialize (Hb eq_refl). lia.
Qed.

Lemma wait_lock_timed turns async options deadline now :
  0 < pollMs options → deadline <= now + (Z.of_nat turns - 1) * pollMs options → (0 < turns)%nat →
  timed now (wait_lock turns async options deadline) (waited deadline).
Proof.
  intros Hp. revert now. induction turns as [|turns IH]; intros now Hd Ht; [lia|].
  apply timed_bind. eapply timed_mono.
  { apply timed_leaves; [apply attempt_no_wait|]. by apply (timed_any now _ (fun _ _ => True)). }
  intros [[c|]|e] t1 Ht1 [He _].
  - done.
  - intros t2 n Ht2 ->. cbn. case_match eqn:Hn; [by split; [|intros _; lia]|].
    apply timed_bind. eapply timed_mono; [apply pause_timed|]. intros [[]|[]] t3 Ht3 H3; try done.
    apply IH; nia.
  - split; [|intros [= ->]]; [by intros [= ->]|done].
Qed.

Lemma wait_turns_enough options :
  0 < pollMs options → waitMs options <= (Z.of_nat (wait_turns options) - 1) * pollMs options.
Proof.
  intros Hp. unfold wait_turns. pose proof (Z.div_mod (waitMs options) (pollMs options) ltac:(lia)).
  pose proof (Z.mod_pos_bound (waitMs options) (pollMs options) Hp). rewrite Nat2Z.inj_add.
  destruct (Z_le_gt_dec 0 (waitMs options / pollMs options)); [rewrite Z2Nat.id by done; nia|nia].
Qed.

Lemma acquire_lock_timed async options now :
  0 < pollMs options → ensureParent options = Ok tt ∨ ensureParent options = Throw LockThrown →
  timed now (acquire_lock decode_pid own_pid async options) (waited (now + waitMs options)).
Proof.
  intros Hp He. apply timed_bind. destruct He as [He|He]; unfold prepareDirLock; rewrite He; cbn; [|done].
  intros t1 [u|e] H1 _; cbn; [|done]. intros t2 start H2 ->. eapply timed_mono; [apply wait_lock_timed; [done| |]|].
  - pose proof (wait_turns_enough options Hp). lia.
  - unfold wait_turns. lia.
  - intros r t3 H3 [Ha Hb]. split; [done|]. intros Hr. specialize (Hb Hr). lia.
Qed.

(** ** Depths *)

(** A body leaves the lock at the depth it found it at. *)
Definition restores {A} (fn : Body A) : Prop :=
  ∀ depth, 0 <= default 0 depth → leaves (fn depth) (fun '(_, depth') => default 0 depth' = default 0 depth).

Lemma nested_restores {A} (fn : Body A) : restores fn → restores (nestedDirLock fn).
Proof.
  intros Hf depth Hd. apply leaves_bind. eapply leaves_mono; [apply Hf; cbn; lia|]. intros [r d'] Hr. cbn in *.
  destruct d'; cbn in *; lia.
Qed.

Lemma hold_restores {A} claim (fn : Body A) depth :
  0 <= default 0 depth → ¬ 0 < default 0 depth →
  leaves (holdDirLock claim fn) (fun '(_, depth') => default 0 depth' = default 0 depth).
Proof.
  intros H1 H2 _. apply leaves_then. intros [r d'] _. apply leaves_then. intros r'. cbn. lia.
Qed.

Lemma unless_aborted_restores {A} options (fn : Body A) : restores fn → restores (unless_aborted options fn).
Proof. intros Hf depth Hd. apply leaves_then. intros [[]|e]; [by apply Hf|done]. Qed.

Lemma withDirLock_restores {A} options (fn : Body A) : restores fn → restores (withDirLock options fn).
Proof.
  intros Hf depth Hd. unfold withDirLock. destruct (0 <? default 0 depth) eqn:Hn; [by apply nested_restores|].
  apply leaves_then. intros [c|e]; [|done]. apply hold_restores; [done|lia].
Qed.

Lemma run_body_restores body : restores (run_body body).
Proof.
  induction body as [| |rest IH|options inner IHi rest IHr]; intros depth Hd; [done|done| |].
  - intros _. by apply IH.
  - apply leaves_bind. eapply leaves_mono; [by apply withDirLock_restores|].
    intros [[[]|e] d'] Hd'; [|done]. rewrite <- Hd'. apply IHr. lia.
Qed.

Lemma use_restores use : restores (use_lock use).
Proof.
  destruct use as [options body|options body|options steps throws]; cbn [DirLock.use_lock].
  - apply withDirLock_restores, run_body_restores.
  - apply unless_aborted_restores. intros depth Hd. destruct (0 <? default 0 depth) eqn:Hn.
    + by apply nested_restores; [apply run_body_restores|].
    + apply leaves_then. intros [c|e]; [|done]. apply hold_restores; [done|lia].
  - intros depth Hd. apply leaves_then. intros [c|e]; [|done]. intros _. apply leaves_bind.
    eapply leaves_mono; [by apply (unless_aborted_restores _ _ (run_body_restores _))|].
    intros [r d'] Hd' _. apply leaves_then. by intros r'.
Qed.

(** A result that no wait gives. *)
Definition unwaited {A} (r : result lock_error A) : Prop := r ≠ Throw OutOfTurns ∧ r ≠ Throw LockTimeout.

(** A body inside the lock never waits: what it throws is its own. *)
Lemma body_unwaited body depth :
  0 < default 0 depth →
  leaves (run_body body depth)
    (fun '(r, depth') => (r = Ok tt ∨ r = Throw LockThrown) ∧ default 0 depth' = default 0 depth).
Proof.
  revert depth. induction body as [| |rest IH|options inner IHi rest IHr]; intros depth Hd.
  - by split; [left|].
  - by split; [right|].
  - intros _. by apply IH.
  - cbn [DirLock.run_body]. unfold withDirLock. rewrite (proj2 (Z.ltb_lt _ _) Hd). apply leaves_bind, leaves_bind.
    eapply leaves_mono; [apply IHi; cbn; lia|]. intros [r d'] [Hr Hd']. cbn [leaves default] in *.
    assert (default 1 d' - 1 = default 0 depth) as He by (destruct d'; cbn in *; lia). rewrite He.
    destruct r as [[]|e]; [|by destruct Hr as [|[= ->]]; [|split; [right|]]].
    eapply leaves_mono; [apply IHr; cbn; lia|]. by intros [r' d''].
Qed.

Lemma work_unwaited steps throws depth :
  leaves (run_body (work_body steps throws) depth) (fun '(r, _) => r = Ok tt ∨ r = Throw LockThrown).
Proof. induction steps as [|steps IH]; [destruct throws; cbn; auto|]. intros _. apply IH. Qed.

Lemma hold_unwaited {A} claim (fn : Body A) :
  leaves (fn (Some 1)) (fun '(r, _) => unwaited r) → leaves (holdDirLock claim fn) (fun '(r, _) => unwaited r).
Proof.
  intros Hf _. apply leaves_bind. eapply leaves_mono; [exact Hf|]. intros [r d'] Hr _.
  apply leaves_bind, leaves_bind, leaves_any. by intros [b|e].
Qed.

Lemma aborted_unwaited {A} options (fn : Body A) depth :
  leaves (fn depth) (fun '(r, _) => unwaited r) → leaves (unless_aborted options fn depth) (fun '(r, _) => unwaited r).
Proof.
  intros Hf. apply leaves_bind. unfold throwIfAborted. destruct (signal options); [|exact Hf]. by intros [].
Qed.

(** A wait for the lock, then what is done under it. *)
Lemma wait_then {A} now deadline (p : L ClaimHandle) (f : result lock_error ClaimHandle → prog (result lock_error A * Depth)) :
  timed now p (waited deadline) → (∀ c, leaves (f (Ok c)) (fun '(r, _) => unwaited r)) →
  (∀ e, ∃ d, f (Throw e) = Done (Throw e, d)) →
  timed now (prog_bind f p)
    (fun '(r, _) later => r ≠ Throw OutOfTurns ∧ (r = Throw LockTimeout → deadline <= later)).
Proof.
  intros Hp Hok Hthrow. apply timed_bind. eapply timed_mono; [exact Hp|]. intros [c|e] t Ht [H1 H2].
  - eapply timed_mono; [apply (timed_leaves _ _ (fun _ _ => True)); [apply Hok|by apply timed_any]|].
    intros [r d] t' _ [[Hr Hr'] _]. by split; [|intros ?].
  - destruct (Hthrow e) as [d ->]. cbn. split; [by intros [= ->]|]. intros [= ->]. by apply H2.
Qed.

Definition use_options (use : LockUse) : DirLockOptions :=
  match use with UseSync o _ | UseAsync o _ | UseTransaction o _ _ => o end.

Lemma body_left body : leaves (run_body body (Some 1)) (fun '(r, _) => unwaited r).
Proof. eapply leaves_mono; [by apply body_unwaited|]. by intros [r d] [[->| ->] _]. Qed.

Lemma work_left steps throws depth :
  leaves (run_body (work_body steps throws) depth) (fun '(r, _) => unwaited r).
Proof. eapply leaves_mono; [apply work_unwaited|]. by intros [r d] [->| ->]. Qed.

(** How a use of a lock ends, in time. *)
Definition in_time (deadline : Z) (x : result lock_error unit * Depth) (later : Z) : Prop :=
  x.1 ≠ Throw OutOfTurns ∧ (x.1 = Throw LockTimeout → deadline <= later).

Lemma unwaited_in_time now deadline (p : prog (result lock_error unit * Depth)) :
  leaves p (fun '(r, _) => unwaited r) → timed now p (in_time deadline).
Proof.
  intros Hp. eapply timed_mono; [apply (timed_leaves _ _ (fun _ _ => True)); [exact Hp|by apply timed_any]|].
  intros [r d] t _ [[H1 H2] _]. by split; [|intros ?].
Qed.

Lemma nested_in_time now deadline body depth :
  0 < default 0 depth → timed now (nestedDirLock (run_body body) depth) (in_time deadline).
Proof.
  intros Hd. apply unwaited_in_time, leaves_bind. eapply leaves_mono; [apply body_unwaited; cbn; lia|].
  by intros [r d] [[->| ->] _].
Qed.

Lemma acquire_async_timed options now :
  0 < pollMs options → ensureParent options = Ok tt ∨ ensureParent options = Throw LockThrown →
  timed now (acquireDirLockAsync decode_pid own_pid options) (waited (now + waitMs options)).
Proof.
  intros Hp He. apply timed_bind.
  apply (timed_mono _ _ (fun r later => now <= later ∧ match r with
    Throw LockTimeout | Throw OutOfTurns => False | _ => True end)).
  { unfold throwIfAborted. destruct (signal options); [|by split; [lia|]]. intros t [] Ht _; by split. }
  intros [[]|e] t Ht [_ H]; [|by split; [intros [= ->]|intros [= ->]]].
  eapply timed_mono; [by apply acquire_lock_timed|]. intros r t' Ht' [H1 H2]. split; [done|].
  intros Hr. specialize (H2 Hr). lia.
Qed.

(** C36: a wait for a lock ends, and not too early. Whatever the calls answer and however long they take, as
    long as the clock does not go back and a sleep lasts, a use of the lock ends within the turns that
    [waitMs] and [pollMs] give, and times out only once [waitMs] have passed. *)
Theorem lock_waits use depth now :
  0 < pollMs (use_options use) →
  ensureParent (use_options use) = Ok tt ∨ ensureParent (use_options use) = Throw LockThrown →
  timed now (use_lock use depth) (in_time (now + waitMs (use_options use))).
Proof.
  intros Hp He. destruct use as [options body|options body|options steps throws]; cbn [use_options] in *.
  - cbn [DirLock.use_lock]. unfold withDirLock.
    destruct (0 <? default 0 depth) eqn:Hn; [apply nested_in_time; lia|].
    eapply timed_mono; [apply wait_then; [by apply acquire_lock_timed| |by eexists]|by intros [r d]].
    intros c. apply hold_unwaited, body_left.
  - apply timed_bind. apply (timed_mono _ _ (fun r later => now <= later ∧ (∀ e, r = Throw e → e = LockAborted))).
    { unfold throwIfAborted. destruct (signal options); [|by split; [lia|]]. intros t [] Ht _; split; try done. by intros e [=]. }
    intros [[]|e] t Ht [_ H]; [|by rewrite (H e)].
    destruct (0 <? default 0 depth) eqn:Hn; [apply nested_in_time; lia|].
    eapply timed_mono; [apply wait_then; [by apply acquire_async_timed| |by eexists]|].
    + intros c. apply hold_unwaited, aborted_unwaited, body_left.
    + intros [r d] t' Ht' [H1 H2]. split; [done|]. intros Hr. specialize (H2 Hr). lia.
  - eapply timed_mono; [apply wait_then; [by apply acquire_async_timed| |by eexists]|by intros [r d]].
    intros c _. apply leaves_bind. eapply leaves_mono; [apply aborted_unwaited, work_left|].
    intros [r d] Hr _. apply leaves_bind, leaves_bind, leaves_any. by intros [b|e].
Qed.

(** Locks unwind. Every use of a lock leaves it at the depth it found it at, whether it returns or throws
    and wherever it is cut short; and a body that takes the lock it is in never waits for it. *)
Theorem lock_unwinds use depth :
  0 <= default 0 depth →
  leaves (use_lock use depth) (fun '(_, depth') => default 0 depth' = default 0 depth) ∧
  ∀ options body, 0 < default 0 depth →
    leaves (withDirLock options (run_body body) depth) (fun '(r, _) => r = Ok tt ∨ r = Throw LockThrown).
Proof.
  intros Hd. split; [by apply use_restores|]. intros options body Hd'. unfold withDirLock.
  rewrite (proj2 (Z.ltb_lt _ _) Hd'). apply leaves_bind. eapply leaves_mono; [apply body_unwaited; cbn; lia|].
  by intros [r d] [Hr _].
Qed.
End Lock.

(** ** Exclusion *)

Section Exclusion.
Context {Htext : NodeText} {Hlaws : ClaimLaws Htext}.
Variable proc : nat → ClaimOwner.
Variable decode_pid : units → option Z.
Hypothesis Hpid : ∀ a, 0 < pid (proc a) <= MAX_SAFE_INTEGER.

Abbreviation inv := (ClaimLogic.inv proc decode_pid).
Abbreviation mono := (ClaimLogic.mono proc).
Abbreviation alive := (ClaimLogic.alive proc).
Abbreviation rely := (ClaimLogic.rely proc).
Abbreviation ok := (ClaimLogic.ok proc decode_pid).
Abbreviation holding_ok := (OwnershipClaimFacts.holding_ok proc).
Abbreviation attemptDirLock a := (DirLock.attemptDirLock decode_pid (pid (proc a))).
Abbreviation acquire_lock a := (DirLock.acquire_lock decode_pid (pid (proc a))).
Abbreviation run_body a := (DirLock.run_body decode_pid (pid (proc a))).
Abbreviation use_lock a := (DirLock.use_lock decode_pid (pid (proc a))).

Lemma ok_leaves a G {A} (p : prog A) (Q : A → World → Prop) (R : A → Prop) w :
  leaves p R → ok a G p Q w → ok a G p (fun x w' => R x ∧ Q x w') w.
Proof.
  revert w. induction p as [x|B c k IH]; intros w HR H; cbn in *; [done|].
  intros w1 Hr Hi Ha w2 b Hb. destruct (H w1 Hr Hi Ha w2 b Hb) as (? & ? & ? & ?). auto.
Qed.

(** A call that leaves the world alone. *)
Definition reads {B} (c : call B) : Prop := ∀ a w1 w2 b, answers proc decode_pid a c w1 w2 b → w2 = w1.

Lemma ok_query a {A B} (c : call B) (k : B → prog A) (Q : A → World → Prop) w :
  reads c → (∀ w1 b, mono w w1 → loose a w w1 → ok a (loose a) (k b) Q w1) → ok a (loose a) (Call c k) Q w.
Proof.
  intros Hc HQ w1 Hr Hi Ha w2 b Hb. pose proof (Hc a w1 w2 b Hb) as ->.
  split_and!; [done|apply guar_refl|done|]. apply HQ; [apply Hr|by apply (rely_loose proc)].
Qed.

(** The lock was taken. *)
Definition grabbed (a : nat) (w : World) (c : ClaimHandle) : Prop :=
  handle_ok proc a w c ∧ ha_claimId c ∉ w_gone w ∧ acquired proc w Exclusive (ha_claimId c) ∧
  ha_mode c = Exclusive.

Lemma acquired_mode a m details :
  leaves (tryAcquireClaim decode_pid (pid (proc a)) m details)
    (fun r => match r with Ok (Acquired c _) => ha_mode c = m | _ => True end).
Proof.
  apply leaves_then. intros [owner|e]; [|done]. generalize true, (@nil ClaimHolder).
  induction PUBLISH_ATTEMPTS as [|n IH]; intros denied reaped.
  - apply leaves_then. intros [cs|e]; [|done]. destruct (cs_exclusive cs), m, (cs_shared cs), denied; done.
  - cbn [attempts]. apply leaves_bind.
    apply (leaves_mono _ (fun r => match r with Ok (inr (Acquired c _)) => ha_mode c = m | _ => True end)).
    2: { intros [[[why found]|[]]|]; (done || (intros _; apply IH)). }
    apply leaves_then. intros [[?|]|e]; [done| |done]. apply leaves_then. intros [cs|e]; [|done].
    destruct (cs_exclusive cs); [done|]. apply leaves_then. intros [i|e]; [|done].
    apply leaves_then. intros [date|e]; [|done]. apply leaves_then. intros [[?|path]|e]; [done| |done].
    apply leaves_bind. apply (leaves_mono _ (fun r => match r with Ok (Acquired c _) => ha_mode c = m | _ => True end));
      [|by intros [[]|]].
    apply leaves_then. intros [cs'|e]; [|done]. destruct m; cbn [ha_mode].
    + by destruct (cs_shared cs').
    + destruct (cs_exclusive cs'); [|done]. apply leaves_then. by intros [].
Qed.

Lemma attempt_lock_ok a (Q : result lock_error (option ClaimHandle) → World → Prop) w :
  w_inside w !! a = None →
  (∀ r w', mono w w' → loose a w w' → (∀ c, r = Ok (Some c) → grabbed a w' c) → Q r w') →
  ok a (loose a) (attemptDirLock a) Q w.
Proof using Hlaws Hpid.
  intros Hn HQ. apply ok_bind, ok_bind. eapply ok_mono.
  { eapply ok_loose, ok_leaves; [apply acquired_mode|].
    by apply (tryAcquireClaim_ok proc decode_pid Hpid a Exclusive (JObject []) (attempt_ok proc a)). }
  intros [att|e] w1 (Hl & Hm & Hmode & Ha); [|by apply HQ]. destruct att as [c l|h l|hs c l]; cbn [of_claim].
  - destruct Ha as (Hc & Hg & Haq). rewrite Hmode in Haq. apply HQ; [done..|]. by intros ? [= <-].
  - by apply HQ.
  - destruct Ha as (Hc & Hg & _). apply ok_bind, ok_bind. eapply ok_mono.
    { apply ok_loose, (releaseClaim_ok proc decode_pid a c (fun _ _ => True)); [done| |done].
      split; [apply Hc|]. intros m. unfold loose in Hl. congruence. }
    intros [b|e] w2 (Hl2 & Hm2 & _); (apply HQ; [by etrans|unfold loose in *; congruence|by intros ? [=]]).
Qed.

Lemma reads_now : reads Now.
Proof. by intros a w1 w2 b [-> _]. Qed.

Lemma pause_ok a async options (Q : result lock_error unit → World → Prop) w :
  (∀ r w', mono w w' → loose a w w' → Q r w') →
  ok a (loose a) (if async : bool then delay (pollMs options) options else sleepSync (pollMs options)) Q w.
Proof.
  intros HQ. assert (ok a (loose a) (sleepSync (pollMs options)) Q w) as Hs.
  { apply ok_query; [apply reads_now|]. intros w1 start Hm1 Hl1. cbn [prog_bind].
    apply ok_query; [by intros ???? [-> _]|]. intros w2 b Hm2 Hl2.
    apply HQ; [by etrans|unfold loose in *; congruence]. }
  destruct async; [|done]. unfold delay. destruct (signal options); [|done].
  apply ok_query; [apply reads_now|]. intros w1 start Hm1 Hl1. cbn [prog_bind].
  apply ok_query; [by intros ???? [-> _]|]. intros w2 [] Hm2 Hl2;
    (apply HQ; [by etrans|unfold loose in *; congruence]).
Qed.

Lemma wait_lock_ok a turns async options deadline (Q : result lock_error ClaimHandle → World → Prop) w :
  w_inside w !! a = None →
  (∀ r w', mono w w' → loose a w w' → (∀ c, r = Ok c → grabbed a w' c) → Q r w') →
  ok a (loose a) (DirLock.wait_lock decode_pid (pid (proc a)) turns async options deadline) Q w.
Proof using Hlaws Hpid.
  revert w. induction turns as [|turns IH]; intros w Hn HQ; [by apply HQ|].
  apply ok_bind, attempt_lock_ok; [done|]. intros [[c|]|e] w1 Hm1 Hl1 Hc; [apply HQ; naive_solver| |by apply HQ].
  apply ok_query; [apply reads_now|]. intros w2 now Hm2 Hl2. cbn [prog_bind].
  assert (mono w w2) as Hm by (by etrans). assert (loose a w w2) as Hl by (unfold loose in *; congruence).
  destruct (deadline <=? now); [by apply HQ|]. apply ok_bind, pause_ok. intros [[]|e] w3 Hm3 Hl3.
  - apply IH; [unfold loose in *; congruence|]. intros r w4 Hm4 Hl4.
    apply HQ; [by repeat (etrans; [done|])|unfold loose in *; congruence].
  - apply HQ; [by etrans|unfold loose in *; congruence|done].
Qed.

Lemma acquire_lock_ok a async options (Q : result lock_error ClaimHandle → World → Prop) w :
  w_inside w !! a = None →
  (∀ r w', mono w w' → loose a w w' → (∀ c, r = Ok c → grabbed a w' c) → Q r w') →
  ok a (loose a) (acquire_lock a async options) Q w.
Proof using Hlaws Hpid.
  intros Hn HQ. unfold DirLock.acquire_lock, prepareDirLock.
  destruct (ensureParent options) as [[]|e]; [|by apply HQ].
  apply ok_query; [by intros ???? ->|]. intros w1 [u|e] Hm1 Hl1; [|by apply HQ].
  apply ok_query; [apply reads_now|]. intros w2 start Hm2 Hl2. cbn [prog_bind].
  apply wait_lock_ok; [unfold loose in *; congruence|]. intros r w3 Hm3 Hl3.
  apply HQ; [by repeat (etrans; [done|])|unfold loose in *; congruence].
Qed.

Lemma throwIfAborted_ok a options (Q : result lock_error unit → World → Prop) w :
  (∀ r w', mono w w' → loose a w w' → Q r w') → ok a (loose a) (throwIfAborted options) Q w.
Proof.
  intros HQ. unfold throwIfAborted. destruct (signal options); [|by apply HQ].
  apply ok_query; [by intros ???? ->|]. intros w1 [] Hm Hl; by apply HQ.
Qed.

(** Bodies leave the claims of the lock alone. *)
Lemma body_ok a body depth w :
  0 < default 0 depth → ok a (calm a) (run_body a body depth) (fun _ _ => True) w.
Proof.
  revert depth w. induction body as [| |rest IH|options inner IHi rest IHr]; intros depth w Hd; [done|done| |].
  - intros w1 Hr Hi Ha w2 b [-> _]. split_and!; [done|apply guar_refl|apply calm_refl|]. by apply IH.
  - cbn [DirLock.run_body]. unfold DirLock.withDirLock. rewrite (proj2 (Z.ltb_lt _ _) Hd). apply ok_bind, ok_bind.
    eapply ok_mono; [eapply ok_leaves; [apply body_unwaited; cbn; lia|apply IHi; cbn; lia]|].
    intros [r d'] w' [[_ Hd'] _]. cbn [ClaimLogic.ok]. destruct r as [[]|e]; [|done]. apply IHr.
    destruct d'; cbn in *; lia.
Qed.

Lemma work_ok a steps throws depth w : ok a (calm a) (run_body a (work_body steps throws) depth) (fun _ _ => True) w.
Proof.
  revert w. induction steps as [|steps IH]; intros w; [by destruct throws|].
  intros w1 Hr Hi Ha w2 b [-> _]. split_and!; [done|apply guar_refl|apply calm_refl|]. apply IH.
Qed.

Lemma aborted_ok a {A} options (fn : Body A) depth w :
  (∀ w', ok a (calm a) (fn depth) (fun _ _ => True) w') →
  ok a (calm a) (unless_aborted options fn depth) (fun _ _ => True) w.
Proof.
  intros Hf. apply ok_bind. unfold throwIfAborted. destruct (signal options); [|apply Hf].
  intros w1 Hr Hi Ha w2 b ->. split_and!; [done|apply guar_refl|apply calm_refl|]. by destruct b; [|apply Hf].
Qed.

(** A step after which a program is inside only as before, or exclusively. *)
Definition exclusively (a : nat) (w w' : World) : Prop :=
  ∀ m i, w_inside w' !! a = Some (m, i) → m = Exclusive ∨ w_inside w !! a = Some (m, i).

Lemma loose_exclusively a w w' : loose a w w' → exclusively a w w'.
Proof. intros Hl m i. rewrite Hl. by right. Qed.

Lemma calm_exclusively a w w' : calm a w w' → exclusively a w w'.
Proof. intros [Hl _]. by apply loose_exclusively. Qed.

(** What a program does under the lock: it is inside while the body runs, and outside after. *)
Lemma locked_ok a c {A} (q : prog (result lock_error A * Depth)) (g : Depth → Depth) w :
  w_inside w !! a = None → grabbed a w c → (∀ w', ok a (calm a) q (fun _ _ => True) w') →
  ok a (exclusively a) (Call (Enter Exclusive (ha_claimId c)) (fun _ => prog_bind (fun '(r, depth) =>
    Call Leave (fun _ => prog_bind (fun r => Done (r, g depth)) (finally_release c r))) q))
    (fun _ w' => w_inside w' !! a = None) w.
Proof.
  intros Hn (Hc & Hg & Haq & Hmode) Hq w1 Hr Hi Ha w2 [] Hb. rewrite <- Hmode in Hb, Haq.
  destruct (entering_ok proc decode_pid a (Ok (Acquired c [])) None w Hn ltac:(done) ltac:(done) w1 Hr Hi Ha w2 tt Hb)
    as (Hi2 & Hg2 & _ & Hh). split_and!; [done|done| |].
  { intros m i. destruct Hh as (_ & _ & ->). intros [= <- _]. by left. } cbn [prog_bind ClaimLogic.ok] in *.
  apply ok_bind. eapply (ok_weaken proc decode_pid a (calm a)); [apply calm_exclusively| |apply ok_calm, Hq].
  intros [r d] w3 (Hcalm & Hm3 & _). apply (holding_calm proc a w2 w3) in Hh as (Hc3 & _ & _); [|done..].
  apply ok_leave; [by intros ? ? Hout m i; rewrite Hout|]. intros w4 Hm4 Hn4. apply ok_bind, ok_bind.
  eapply (ok_weaken proc decode_pid a (loose a)); [apply loose_exclusively| |apply ok_loose].
  2: { apply (releaseClaim_ok proc decode_pid a c (fun _ _ => True)); [by eapply handle_mono| |done].
       split; [by eapply mono_ids, Hc3|]. intros m. congruence. }
  intros rel w5 (Hl & _ & _). cbn. unfold loose in Hl. congruence.
Qed.

(** A program that waits for the lock. *)
Definition waits (a : nat) (p : L ClaimHandle) (w : World) : Prop :=
  ∀ Q : result lock_error ClaimHandle → World → Prop,
    (∀ r w', mono w w' → loose a w w' → (∀ c, r = Ok c → grabbed a w' c) → Q r w') → ok a (loose a) p Q w.

Lemma wait_locked a (p : L ClaimHandle) (f : result lock_error ClaimHandle → prog (result lock_error unit * Depth)) w :
  waits a p w → w_inside w !! a = None → (∀ e, ∃ d, f (Throw e) = Done (Throw e, d)) →
  (∀ c w', w_inside w' !! a = None → grabbed a w' c → ok a (exclusively a) (f (Ok c)) (fun _ w' => w_inside w' !! a = None) w') →
  ok a (exclusively a) (prog_bind f p) (fun _ w' => w_inside w' !! a = None) w.
Proof.
  intros Hp Hn Hthrow Hok. apply ok_bind. eapply (ok_weaken proc decode_pid a (loose a)); [apply loose_exclusively| |].
  2: { apply (Hp (fun r w' => w_inside w' !! a = None ∧ ∀ c, r = Ok c → grabbed a w' c)).
       intros r w' _ Hl Hc. split; [unfold loose in Hl; congruence|done]. }
  intros [c|e] w' [Hn' Hc]; [by apply Hok, Hc|]. by destruct (Hthrow e) as [d ->].
Qed.

Lemma acquire_async_ok a options w :
  w_inside w !! a = None → waits a (acquireDirLockAsync decode_pid (pid (proc a)) options) w.
Proof using Hlaws Hpid.
  intros Hn Q HQ. apply ok_bind, throwIfAborted_ok. intros [[]|e] w1 Hm1 Hl1; [|by apply HQ].
  apply acquire_lock_ok; [unfold loose in *; congruence|]. intros r w2 Hm2 Hl2.
  apply HQ; [by etrans|unfold loose in *; congruence].
Qed.

Lemma nested_ok a body depth w :
  0 < default 0 depth → w_inside w !! a = None →
  ok a (exclusively a) (nestedDirLock (run_body a body) depth) (fun _ w' => w_inside w' !! a = None) w.
Proof.
  intros Hd Hn. apply ok_bind. eapply (ok_weaken proc decode_pid a (calm a)); [apply calm_exclusively| |].
  2: { apply ok_calm, body_ok. cbn. lia. }
  intros [r d] w' ([Hl _] & _ & _). cbn. unfold loose in Hl. congruence.
Qed.

Lemma use_ok a use depth w :
  w_inside w !! a = None → ok a (exclusively a) (use_lock a use depth) (fun _ w' => w_inside w' !! a = None) w.
Proof using Hlaws Hpid.
  intros Hn. destruct use as [options body|options body|options steps throws]; cbn [DirLock.use_lock].
  - unfold DirLock.withDirLock. destruct (0 <? default 0 depth) eqn:Hd; [apply nested_ok; [lia|done]|].
    apply wait_locked; [intros Q; by apply acquire_lock_ok|done|by eexists|]. intros c w' Hn' Hc.
    apply (locked_ok a c _ (fun _ => Some 0)); [done..|]. intros w2. by apply body_ok.
  - apply ok_bind. eapply (ok_weaken proc decode_pid a (loose a)); [apply loose_exclusively| |].
    2: { apply (throwIfAborted_ok a options (fun _ w' => w_inside w' !! a = None)).
         intros r w' _ Hl. unfold loose in Hl. congruence. }
    intros [[]|e] w' Hn'; [|done]. destruct (0 <? default 0 depth) eqn:Hd; [apply nested_ok; [lia|done]|].
    apply wait_locked; [by apply acquire_async_ok|done|by eexists|]. intros c w2 Hn2 Hc.
    apply (locked_ok a c _ (fun _ => Some 0)); [done..|]. intros w3. apply aborted_ok. intros w4. by apply body_ok.
  - apply wait_locked; [by apply acquire_async_ok|done|by eexists|]. intros c w2 Hn2 Hc.
    apply (locked_ok a c _ (fun d => d)); [done..|]. intros w3. apply aborted_ok. intros w4. apply work_ok.
Qed.

Lemma user_ok a uses depth w :
  w_inside w !! a = None → ok a (exclusively a) (lock_user decode_pid (pid (proc a)) uses depth) (fun _ _ => True) w.
Proof using Hlaws Hpid.
  revert depth w. induction uses as [|use uses IH]; intros depth w Hn; [done|]. cbn [lock_user]. apply ok_bind.
  eapply ok_mono; [by apply use_ok|]. intros [r d] w' Hn'. by apply IH.
Qed.

(** ** Users of one lock *)

Variable uses : nat → list LockUse.

Definition lock_users (a : nat) : prog unit := lock_user decode_pid (pid (proc a)) (uses a) None.

Lemma users_ok w0 c :
  initial decode_pid w0 → pool_steps proc decode_pid (w0, lock_users) c →
  pool_ok proc decode_pid exclusively c ∧ ∀ a m i, w_inside (fst c) !! a = Some (m, i) → m = Exclusive.
Proof using Hlaws Hpid.
  intros Hw0. assert (pool_ok proc decode_pid exclusively (w0, lock_users) ∧
    ∀ a m i, w_inside (fst (w0, lock_users)) !! a = Some (m, i) → m = Exclusive) as H0.
  { split; [|intros a m i; cbn; by rewrite (initial_inside _ _ Hw0)]. split; [by apply initial_inv|].
    intros a. apply user_ok. cbn. by rewrite (initial_inside _ _ Hw0). }
  unfold pool_steps. revert H0. generalize (w0, lock_users). intros c0 H0 Hsteps. revert H0.
  induction Hsteps as [|c1 c2 c3 Hstep _ IH]; [done|]. intros [Hok Hex]. apply IH.
  destruct (pool_step_ok proc decode_pid _ _ _ Hstep Hok) as [Hok' Hin]. split; [done|]. intros b m i Hb.
  destruct Hin as [Hin|(a & HG & Hin)]; [rewrite Hin in Hb; eauto|].
  destruct (decide (b = a)) as [->|Hne]; [|rewrite Hin in Hb by done; eauto].
  destruct (HG m i Hb); eauto.
Qed.

(** C7: a lock excludes. However the calls of any users of one lock interleave, whatever calls fail and
    whatever processes end, of two programs whose processes live at most one is in a body, be it of
    [withDirLock], [withDirLockAsync] or [withDirLockTransaction]. *)
Theorem lock_excludes w0 w ps a b :
  initial decode_pid w0 → pool_steps proc decode_pid (w0, lock_users) (w, ps) → a ≠ b →
  token_of proc a ∈ w_alive w → token_of proc b ∈ w_alive w →
  w_inside w !! a = None ∨ w_inside w !! b = None.
Proof using Hlaws Hpid.
  intros Hw0 Hsteps Hab Ha Hb. destruct (users_ok w0 _ Hw0 Hsteps) as [[Hi _] Hex]. cbn in Hi, Hex.
  destruct (w_inside w !! a) as [[m i]|] eqn:Hia; [|by left]. right.
  destruct (w_inside w !! b) as [[m' j]|] eqn:Hib; [|done].
  destruct (inv_excludes proc decode_pid w a b m i m' j) as [-> _]; try done.
  - eapply (alive_not_dead proc a); [done|]. by apply (inv_inside _ _ w Hi a m i).
  - eapply (alive_not_dead proc b); [done|]. by apply (inv_inside _ _ w Hi b m' j).
  - by specialize (Hex a Shared i Hia).
Qed.
End Exclusion.

(** ** A program alone *)

Section Alone.
Context {Htext : NodeText} {Hlaws : ClaimLaws Htext}.
Variables (env : Env) (a : nat).

Abbreviation decode_pid := (env_decode env).
Abbreviation owner := (env_proc env a).
Abbreviation runs := (ClaimRuns.runs env a).
Abbreviation run := (run_alone env a).
Abbreviation withDirLock := (DirLock.withDirLock decode_pid (pid owner)).

Hypothesis Hpid : 0 < pid owner <= MAX_SAFE_INTEGER.
Hypothesis Htoken : processToken owner ≠ [].
Hypothesis Hdecode : decode_pid (processToken owner) = Some (pid owner).
Hypothesis Huuid : ∀ n, env_uuid env n ≠ [].

Lemma run_bind {A B} (p : L A) (f : A → L B) w w1 x :
  run p w = (w1, Ok x) → run (p ≫= f) w = run (f x) w1.
Proof using Type. intros H. unfold mbind, L_bind. by rewrite run_alone_bind, H. Qed.

Lemma run_prepare options w : ensureParent options = Ok tt → run (prepareDirLock options) w = (w, Ok tt).
Proof using Type. intros H. unfold prepareDirLock. by rewrite H. Qed.

Lemma runs_lift {A} (p : P A) w r st : runs p w r st → runs (lift p) w (of_claim r) st.
Proof using Type. intros H. eapply runs_prog_bind; [exact H|]. intros w' <- _. apply runs_done. Qed.

(** The attempt at a lock that is held. *)
Lemma attempt_held i0 t0 v0 o w :
  claim_record t0 = Some (v0, i0, o) → decode_pid (processToken o) = Some (pid o) →
  w_store w = single Exclusive i0 t0 → processToken o ∈ w_alive w →
  runs (attemptDirLock decode_pid (pid owner)) w (Ok None) (single Exclusive i0 t0).
Proof using Type.
  intros Hr Ho Hs Hl. eapply runs_prog_bind; [by apply runs_lift, held_runs|].
  intros w' <- _. apply runs_done.
Qed.

(** The poll of a lock that stays held. *)
Lemma wait_held i0 t0 v0 o options deadline turns w :
  claim_record t0 = Some (v0, i0, o) → decode_pid (processToken o) = Some (pid o) →
  w_store w = single Exclusive i0 t0 → processToken o ∈ w_alive w → 0 < pollMs options →
  deadline <= w_clock w + (Z.of_nat turns - 1) * pollMs options → (0 < turns)%nat →
  w_clock w < deadline + pollMs options →
  ∃ w', run (wait_lock decode_pid (pid owner) turns false options deadline) w = (w', Throw LockTimeout) ∧
    w_store w' = w_store w ∧ deadline <= w_clock w' < deadline + pollMs options.
Proof using Type.
  intros Hr Ho Hs Hl Hp. revert w Hs Hl. induction turns as [|turns IH]; intros w Hs Hl Hd Ht Hlt; [lia|].
  destruct (attempt_held i0 t0 v0 o w Hr Ho Hs Hl) as (w1 & H1 & Hs1 & Ha1 & Ht1).
  cbn [wait_lock]. rewrite (run_bind _ _ _ _ _ H1). cbv beta iota. cbn [mbind L_bind query prog_bind run_alone exec].
  destruct (deadline <=? w_clock w1) eqn:Hn.
  { exists w1. split_and!; [done|congruence|lia|lia]. }
  cbn [prog_bind run_alone exec sleepSync mbind L_bind query].
  set (w2 := set_clock w1 (Z.max (w_clock w1 + pollMs options) (w_clock w1))).
  assert (w_clock w2 = w_clock w1 + pollMs options) as Hc2 by (cbn; lia).
  destruct (IH w2) as (w' & Hw' & Hs' & Hb); [done|cbn; congruence|nia|nia|lia|].
  exists w'. split_and!; [exact Hw'|cbn in Hs'; congruence|lia|lia].
Qed.

Abbreviation lock_handle i := (handle_of env a Exclusive i (JObject [])).
Abbreviation lock_store i := (single Exclusive i (payload env a Exclusive i (JObject []))).

Lemma attempt_free w :
  w_store w = SMissing → processToken owner ∈ w_alive w →
  ∃ i, runs (attemptDirLock decode_pid (pid owner)) w (Ok (Some (lock_handle i))) (lock_store i) ∧ i ≠ [].
Proof using Hlaws Hpid Htoken Hdecode Huuid.
  intros Hs Ha. destruct (acquire_runs env a Hpid Htoken Hdecode Huuid Exclusive (JObject []) [] w) as (i & Hr & Hi);
    [done|done|by rewrite Hs| |].
  { intros w' Hs' _. rewrite Hs in Hs'. by apply inspect_empty. }
  exists i. split; [|done]. eapply runs_prog_bind; [by apply runs_lift|]. intros w' <- _. apply runs_done.
Qed.

Lemma hold_alone {A} i (fn : Body A) w w2 r d :
  i ≠ [] → w_store w = lock_store i →
  run (fn (Some 1)) (set_inside w (<[a := (Exclusive, i)]> (w_inside w))) = (w2, (r, d)) →
  w_store w2 = lock_store i →
  ∃ w', run (holdDirLock (lock_handle i) fn) w = (w', (r, Some 0)) ∧ w_store w' = SMissing.
Proof using Hlaws Hpid Htoken.
  intros Hi Hs Hf Hs2. cbn [holdDirLock run_alone exec handle_of ha_claimId]. rewrite run_alone_bind, Hf.
  cbn [run_alone exec]. set (w3 := set_inside w2 (delete a (w_inside w2))).
  destruct (release_runs env a Hpid Htoken Exclusive i (JObject []) w3) as (w4 & Hr & Hs4 & _); [done..|].
  exists w4. unfold finally_release. by rewrite !run_alone_bind, Hr.
Qed.

(** What [withDirLock] does when nobody interferes. A free lock is taken at once: the body runs while the
    set holds this process's claim, its result or error is handed on, and no file or directory is
    left. A lock that a live process holds throughout is waited for and given up between [waitMs] and
    [waitMs + pollMs] later, with its holder's claim untouched. *)
Theorem lock_alone {A} options (fn : Body A) depth w :
  default 0 depth <= 0 → ensureParent options = Ok tt → processToken owner ∈ w_alive w →
  (w_store w = SMissing → ∀ r d,
     (∀ i t v w1, w_store w1 = single Exclusive i t → claim_record t = Some (v, i, owner) →
        w_inside w1 !! a = Some (Exclusive, i) →
        ∃ w2, run (fn (Some 1)) w1 = (w2, (r, d)) ∧ w_store w2 = w_store w1) →
     ∃ w', run (withDirLock options fn depth) w = (w', (r, Some 0)) ∧ w_store w' = SMissing) ∧
  (∀ i t v o, w_store w = single Exclusive i t → claim_record t = Some (v, i, o) →
     decode_pid (processToken o) = Some (pid o) → processToken o ∈ w_alive w →
     0 < pollMs options → 0 <= waitMs options →
     ∃ w', run (withDirLock options fn depth) w = (w', (Throw LockTimeout, depth)) ∧ w_store w' = w_store w ∧
       waitMs options <= w_clock w' - w_clock w < waitMs options + pollMs options).
Proof using Hlaws Hpid Htoken Hdecode Huuid.
  intros Hd He Ha. unfold DirLock.withDirLock. rewrite (proj2 (Z.ltb_ge _ _) Hd), run_alone_bind.
  unfold acquire_lock. rewrite (run_bind _ _ _ _ _ (run_prepare options w He)).
  cbn [mbind L_bind query prog_bind run_alone exec]. split.
  - intros Hs r d Hf. destruct (attempt_free w Hs Ha) as (i & (w1 & H1 & Hs1 & Ha1 & _) & Hi).
    unfold wait_turns. rewrite Nat.add_comm. cbn [Nat.add wait_lock]. rewrite (run_bind _ _ _ _ _ H1).
    cbn [mret L_ret run_alone].
    destruct (Hf i (payload env a Exclusive i (JObject [])) (payload_json i Exclusive owner (env_date env) (JObject []))
      (set_inside w1 (<[a := (Exclusive, i)]> (w_inside w1)))) as (w2 & H2 & Hs2).
    + done.
    + by apply payload_record.
    + apply lookup_insert_eq.
    + apply (hold_alone i fn w1 w2 r d); [done|done|exact H2|by rewrite Hs2].
  - intros i t v o Hs Hr Ho Hl Hp Hw.
    destruct (wait_held i t v o options (w_clock w + waitMs options) (wait_turns options) w) as (w' & H1 & H2 & H3);
      [done..| | |lia|].
    + pose proof (wait_turns_enough options Hp). lia.
    + unfold wait_turns. lia.
    + exists w'. rewrite H1. split_and!; [done|done|lia|lia].
Qed.
End Alone.

(** ** Instances *)

Section Witnesses.
Import ClaimText.
#[local] Existing Instance text.

Definition nested_use : LockUse := UseSync DEFAULT_OPTIONS (BodyLock DEFAULT_OPTIONS BodyThrow BodyReturn).

(** C36 for the default options. *)
Lemma lock_waits_witness :
  timed 0 (use_lock (env_decode env) 100 nested_use None) (in_time 12000).
Proof. apply (lock_waits (env_decode env) 100 nested_use None 0); [reflexivity|left; reflexivity]. Defined.

(** [lock_unwinds] where a nested body throws. *)
Lemma lock_unwinds_witness :
  leaves (use_lock (env_decode env) 100 nested_use None) (fun '(_, depth') => default 0 depth' = 0).
Proof. apply (lock_unwinds (env_decode env) 100 nested_use None). discriminate. Defined.

(** Two programs use the lock, the second while the first is in its body. *)
Definition two_uses (a : nat) : list LockUse :=
  match a with 0%nat | 1%nat => [UseSync DEFAULT_OPTIONS (BodyWork BodyReturn)] | _ => [] end.
Definition two_users : World * (nat → prog unit) := (world0, lock_users (env_proc env) (env_decode env) two_uses).
Definition turns : list Turn := [Run 0 23; Run 1 14; Tick 25; Run 1 6].
Definition contended : World * (nat → prog unit) := default two_users (run_schedule env turns two_users).

Lemma contended_steps :
  match run_schedule env turns two_users with Some _ => true | None => false end = true →
  pool_steps (env_proc env) (env_decode env) two_users contended.
Proof.
  unfold contended. destruct (run_schedule env turns two_users) as [c|] eqn:Hc; [|done]. intros _.
  by apply run_schedule_steps in Hc.
Qed.

(** C7 where the first program is in its body. *)
Lemma lock_excludes_witness :
  w_inside (fst contended) !! 0%nat = Some (Exclusive, nth_id 0) ∧ w_inside (fst contended) !! 1%nat = None.
Proof.
  assert (w_inside (fst contended) !! 0%nat = Some (Exclusive, nth_id 0)) as H0 by (vm_compute; reflexivity).
  split; [exact H0|].
  destruct (lock_excludes (env_proc env) (env_decode env) pids_safe two_uses world0 (fst contended) (snd contended) 0 1)
    as [H|H]; [by split| |discriminate|vm_compute; reflexivity|vm_compute; reflexivity| |exact H].
  - rewrite <- surjective_pairing. apply contended_steps. vm_compute. reflexivity.
  - rewrite H0 in H. discriminate.
Defined.

(** [lock_alone] where the lock is free and the body throws. *)
Lemma lock_alone_witness :
  ∃ w', run_alone env 0 (withDirLock (env_decode env) 100 DEFAULT_OPTIONS
          (run_body (env_decode env) 100 BodyThrow) None) world0 = (w', (Throw LockThrown, Some 0)) ∧
    w_store w' = SMissing.
Proof.
  destruct (lock_alone env 0 env_owner_safe ltac:(discriminate) eq_refl env_uuid_nonempty DEFAULT_OPTIONS
    (run_body (env_decode env) 100 BodyThrow) None world0) as [H _];
    [discriminate|reflexivity|vm_compute; reflexivity|].
  apply (H eq_refl (Throw LockThrown) (Some 1)).
  intros i t v w1 _ _ _. exists w1. split; reflexivity.
Defined.
End Witnesses.
