(* ===== verification/Registry.v ===== *)
(** * The registry of clients: [packages/server/src/registry.ts]

    A server keeps the clients it accepts in three files, apart by what they may do: phones that read or control,
    machines that build, machines that use its devices. Another file keeps the secrets of pairing
    tokens and setup tickets, each spent once. Every operation that writes runs under one lock.

    A file is what its text parses to: where the code keeps the text of an entry it cannot read, the
    model keeps its value. Members of an object are written in one order. A write replaces its
    file at once or fails; the state has how many more succeed, so a run that fails, or is cut off,
    after any write is a run of the model. *)

From Stdlib Require Import ZArith Lia.
From S2P Require Import Prelude.
From S2P Require Import Bytes.
From S2P Require Import Json.
From S2P Require Import Noise.
From S2P Require Import NoiseSession.
From S2P Require Import Policy.
Open Scope Z_scope.

(** ** Capabilities and pushes *)

Inductive Capability := CapRead | CapControl | CapBuild | CapDeviceHost.

#[export] Instance Capability_eq_dec : EqDecision Capability.
Proof. solve_decision. Defined.

Definition capability_text (c : Capability) : units :=
  match c with
  | CapRead => js "read" | CapControl => js "control" | CapBuild => js "build"
  | CapDeviceHost => js "device-host"
  end.

Definition CAPABILITIES : list Capability := [CapRead; CapControl; CapBuild; CapDeviceHost].

(** [array.includes(text)]. *)
Definition has_text (text : units) (l : list json) : bool :=
  existsb (fun v => match v with JString s => bool_decide (s = text) | _ => false end) l.

Definition parseCapabilities (value : option json) : list Capability :=
  match value with
  | Some (JArray l) => List.filter (fun c => has_text (capability_text c) l) CAPABILITIES
  | _ => []
  end.

Definition capabilitiesFor (control : bool) : list Capability :=
  if control then [CapRead; CapControl] else [CapRead].

Inductive PushEvent :=
| PushStarted | PushStuck | PushLooping | PushFinished | PushMachine | PushControl | PushAttention.
Inductive NotificationLevel := LevelAlert | LevelSilent.

#[export] Instance PushEvent_eq_dec : EqDecision PushEvent.
Proof. solve_decision. Defined.
#[export] Instance NotificationLevel_eq_dec : EqDecision NotificationLevel.
Proof. solve_decision. Defined.

Definition push_event_text (e : PushEvent) : units :=
  match e with
  | PushStarted => js "started" | PushStuck => js "stuck" | PushLooping => js "looping"
  | PushFinished => js "finished" | PushMachine => js "machine" | PushControl => js "control"
  | PushAttention => js "attention"
  end.
Definition level_text (l : NotificationLevel) : units :=
  match l with LevelAlert => js "alert" | LevelSilent => js "silent" end.

Definition PUSH_EVENTS : list PushEvent :=
  [PushStarted; PushStuck; PushLooping; PushFinished; PushMachine; PushControl; PushAttention].
Definition NOTIFICATION_LEVELS : list NotificationLevel := [LevelAlert; LevelSilent].

Definition pushEvents (events : list json) : list PushEvent :=
  List.filter (fun e => has_text (push_event_text e) events) PUSH_EVENTS.

Definition parse_level (entry : units * json) : option (PushEvent * NotificationLevel) :=
  event ← List.find (fun e => bool_decide (push_event_text e = fst entry)) PUSH_EVENTS;
  level ← List.find (fun l => match snd entry with
                              | JString s => bool_decide (level_text l = s)
                              | _ => false
                              end) NOTIFICATION_LEVELS;
  Some (event, level).

Definition parseLevels (value : json) : option (list (PushEvent * NotificationLevel)) :=
  match value with JObject entries => mapM parse_level entries | _ => None end.

Record QuietHours := { qh_start : Z; qh_end : Z; qh_timeZone : units }.

Definition minuteOfDay (value : option json) : option Z :=
  match value with
  | Some (JNumber n) => if (0 <=? n) && (n <? 1440) then Some n else None
  | _ => None
  end.

Definition text_of (value : option json) : option units :=
  match value with Some (JString s) => Some s | _ => None end.

Definition DEFAULT_STUCK_MINUTES : Z := 15.

Definition validStuckMinutes (value : option json) : option Z :=
  match value with
  | Some (JNumber n) => if (1 <=? n) && (n <=? 240) then Some n else None
  | _ => None
  end.

Record PushRegistration := {
  pu_token : units;
  pu_events : list PushEvent;
  pu_levels : option (list (PushEvent * NotificationLevel));
  pu_ref : units;
  pu_registeredAt : units;
  pu_stuckMinutes : Z;
  pu_quietHours : option QuietHours;
}.

(** [PUSH_TOKEN_PATTERN]. *)
Definition push_token_after (prefix token : units) : bool :=
  starts_with prefix token &&
  match reverse (drop (length prefix) token) with
  | 93 :: rest =>
      (1 <=? length rest)%nat && (length rest <=? 256)%nat
      && forallb (fun u => negb (u =? 93) && negb (is_space u)) rest
  | _ => false
  end.
Definition push_token (token : units) : bool :=
  push_token_after (js "ExpoPushToken[") token || push_token_after (js "ExponentPushToken[") token.

(** What the code asks of [Intl] and of Unicode: whether a time zone is known, and whether a code point is in the
    category [Cf]. *)
Class Locale := {
  validTimeZone : units → bool;
  is_format : Z → bool;
}.

Section Parse.
Context `{!Locale}.

Definition parseQuietHours (value : option json) : option QuietHours :=
  match value with
  | Some (JObject fields) =>
      start ← minuteOfDay (field_of "start" fields);
      end_ ← minuteOfDay (field_of "end" fields);
      timeZone ← text_of (field_of "timeZone" fields);
      if validTimeZone timeZone then Some {| qh_start := start; qh_end := end_; qh_timeZone := timeZone |}
      else None
  | _ => None
  end.

Definition parsePush (value : option json) : option PushRegistration :=
  match value with
  | Some (JObject fields) =>
      token ← text_of (field_of "token" fields);
      if push_token token then
        ref ← text_of (field_of "ref" fields);
        match field_of "events" fields with
        | Some (JArray events) =>
            registeredAt ← text_of (field_of "registeredAt" fields);
            Some {| pu_token := token; pu_events := pushEvents events;
                    pu_levels := match field_of "levels" fields with Some v => parseLevels v | None => None end;
                    pu_ref := ref; pu_registeredAt := registeredAt;
                    pu_stuckMinutes := default DEFAULT_STUCK_MINUTES
                                         (validStuckMinutes (field_of "stuckMinutes" fields));
                    pu_quietHours := parseQuietHours (field_of "quietHours" fields) |}
        | _ => None
        end
      else None
  | _ => None
  end.

(** ** Records *)

Record PairedDevice := {
  dv_id : units;
  dv_name : units;
  dv_publicKey : units;
  dv_from : option units;
  dv_pairedAt : units;
  dv_lastSeenAt : option units;
  dv_capabilities : list Capability;
  dv_push : option PushRegistration;
  dv_setupJournal : option units;
  dv_clientApp : option units;
  dv_clientVersion : option units;
}.

(** [KEY_PATTERN] and [JOURNAL_PATTERN]. *)
Definition is_key (s : units) : bool :=
  (length s =? 43)%nat && forallb (fun u => is_alnum u || (u =? 95) || (u =? 45)) s.
Definition is_journal (s : units) : bool := hex_text 64 s.

(** A string for which [p] holds. *)
Definition text_if (p : units → bool) (value : option json) : option units :=
  s ← text_of value; if p s then Some s else None.

Definition parseDevice (value : json) : option PairedDevice :=
  match value with
  | JObject fields =>
      id ← text_of (field_of "id" fields);
      name ← text_of (field_of "name" fields);
      pairedAt ← text_of (field_of "pairedAt" fields);
      publicKey ← text_if is_key (field_of "publicKey" fields);
      Some {| dv_id := id; dv_name := name; dv_publicKey := publicKey;
              dv_from := text_of (field_of "from" fields);
              dv_pairedAt := pairedAt;
              dv_lastSeenAt := text_of (field_of "lastSeenAt" fields);
              dv_capabilities := parseCapabilities (field_of "capabilities" fields);
              dv_push := parsePush (field_of "push" fields);
              dv_setupJournal := text_if is_journal (field_of "setupJournal" fields);
              dv_clientApp := non_empty (text_of (field_of "clientApp" fields));
              dv_clientVersion := non_empty (text_of (field_of "clientVersion" fields)) |}
  | _ => None
  end.
End Parse.

(** ** Names *)

Section Names.
Context `{!Locale}.

Definition is_control (c : Z) : bool := ((0 <=? c) && (c <=? 31)) || ((127 <=? c) && (c <=? 159)).
Definition is_surrogate (c : Z) : bool := is_high c || is_low c.

(** The code points of a string, a lone surrogate as itself. *)
Fixpoint code_points (s : units) : list Z :=
  match s with
  | [] => []
  | u :: s' =>
      match s' with
      | lo :: s'' => if is_high u && is_low lo then combine_pair u lo :: code_points s'' else u :: code_points s'
      | [] => [u]
      end
  end.

(** [[\p{Cc}\p{Cf}\p{Cs}]] but for U+200D. *)
Definition is_hidden (c : Z) : bool :=
  negb (c =? 0x200D) && (is_control c || is_format c || is_surrogate c).

(** [.replace(/\s+/g, ' ')]. *)
Fixpoint collapse_spaces (after : bool) (s : units) : units :=
  match s with
  | [] => []
  | u :: s =>
      if is_space u then (if after then collapse_spaces true s else 32 :: collapse_spaces true s)
      else u :: collapse_spaces false s
  end.

(** [.replace(/[\ud800-\udbff]$/, '')]. *)
Definition drop_high (s : units) : units :=
  match reverse s with
  | u :: rest => if is_high u then reverse rest else s
  | [] => s
  end.

Definition MAX_CLIENT_NAME : nat := 64.

Definition cleanClientText (text : units) : units :=
  let shown := concat (map units_of_scalar
    (List.filter (fun c => is_space c || negb (is_hidden c)) (code_points text))) in
  trim (drop_high (take MAX_CLIENT_NAME (trim (collapse_spaces false shown)))).

Definition pairingName (name fallback : units) : units :=
  match cleanClientText name with [] => fallback | clean => clean end.

Definition personName (name : units) : option units :=
  let trimmed := trim name in
  if (length trimmed =? 0)%nat || (MAX_CLIENT_NAME <? length trimmed)%nat then None
  else if existsb (fun c => is_hidden c || (c =? 0x2028) || (c =? 0x2029)) (code_points trimmed) then None
  else Some trimmed.
End Names.

Definition DESKTOP_CLIENT_APPS : list units := [js "Stim Desktop"; js "Stim Dev"].
Definition isDesktopClient (device : PairedDevice) : bool :=
  match dv_clientApp device with Some app => bool_decide (app ∈ DESKTOP_CLIENT_APPS) | None => false end.

(** ** What is written *)

Definition opt_member (key : string) (v : option json) : list (units * json) :=
  match v with Some v => [(js key, v)] | None => [] end.
Definition or_null (v : option json) : json := default JNull v.

Definition quiet_json (q : QuietHours) : json :=
  JObject [(js "start", JNumber (qh_start q)); (js "end", JNumber (qh_end q));
           (js "timeZone", JString (qh_timeZone q))].

Definition push_json (p : PushRegistration) : json :=
  JObject ([(js "token", JString (pu_token p));
            (js "events", JArray (map (fun e => JString (push_event_text e)) (pu_events p)))]
    ++ opt_member "levels" ((fun l => JObject (map (fun '(e, v) => (push_event_text e, JString (level_text v))) l))
                              <$> pu_levels p)
    ++ [(js "ref", JString (pu_ref p)); (js "registeredAt", JString (pu_registeredAt p));
        (js "stuckMinutes", JNumber (pu_stuckMinutes p));
        (js "quietHours", or_null (quiet_json <$> pu_quietHours p))]).

Definition device_json (d : PairedDevice) : json :=
  JObject ([(js "id", JString (dv_id d)); (js "name", JString (dv_name d));
            (js "publicKey", JString (dv_publicKey d))]
    ++ opt_member "from" (JString <$> dv_from d)
    ++ [(js "pairedAt", JString (dv_pairedAt d)); (js "lastSeenAt", or_null (JString <$> dv_lastSeenAt d));
        (js "capabilities", JArray (map (fun c => JString (capability_text c)) (dv_capabilities d)))]
    ++ opt_member "push" (push_json <$> dv_push d)
    ++ opt_member "setupJournal" (JString <$> dv_setupJournal d)
    ++ opt_member "clientApp" (JString <$> dv_clientApp d)
    ++ opt_member "clientVersion" (JString <$> dv_clientVersion d)).

(** ** Files *)

(** A file that does not exist, one that cannot be read (or whose directory cannot), and the value of one's text,
    [None] where it does not parse. *)
Inductive RegistryFile := FileMissing | FileUnreadable | FileText (value : option json).

Inductive RegistryName := Devices | BuildClients | HostClients.

#[export] Instance RegistryName_eq_dec : EqDecision RegistryName.
Proof. solve_decision. Defined.

Definition REGISTRIES : list RegistryName := [Devices; BuildClients; HostClients].

Record Files := {
  fl_devices : RegistryFile;
  fl_build : RegistryFile;
  fl_host : RegistryFile;
  fl_secrets : RegistryFile;
}.

Definition registry_file (n : RegistryName) (f : Files) : RegistryFile :=
  match n with Devices => fl_devices f | BuildClients => fl_build f | HostClients => fl_host f end.

Definition set_registry (n : RegistryName) (v : RegistryFile) (f : Files) : Files :=
  match n with
  | Devices => {| fl_devices := v; fl_build := fl_build f; fl_host := fl_host f; fl_secrets := fl_secrets f |}
  | BuildClients => {| fl_devices := fl_devices f; fl_build := v; fl_host := fl_host f; fl_secrets := fl_secrets f |}
  | HostClients => {| fl_devices := fl_devices f; fl_build := fl_build f; fl_host := v; fl_secrets := fl_secrets f |}
  end.
Definition set_secrets (v : RegistryFile) (f : Files) : Files :=
  {| fl_devices := fl_devices f; fl_build := fl_build f; fl_host := fl_host f; fl_secrets := v |}.

(** [RegistryUnavailable] with its cause, a write that fails, a time that is no date, a secret of the wrong
    length, and random ids of which none is free. *)
Inductive registry_error :=
| CannotRead | CannotParse | NotAnObject | NoDevicesList | NewerVersion (version : json)
| WriteFailed
| InvalidDate
| BadSecret
| OutOfIds.

Record Store := { st_files : Files; st_writes : nat }.

Abbreviation R := (M Store registry_error).

Definition read_files : R Files := gets st_files.

(** [writeText]: the file is replaced at once. *)
Definition write_files (change : Files → Files) : R unit := fun s =>
  match st_writes s with
  | O => (s, Throw WriteFailed)
  | S n => ({| st_files := change (st_files s); st_writes := n |}, Ok tt)
  end.

Definition REGISTRY_VERSION : Z := 2.

(** [readRegistryFile]. *)
Definition readRegistryFile (file : RegistryFile) : result registry_error (option (list (units * json))) :=
  match file with
  | FileMissing => Ok None
  | FileUnreadable => Throw CannotRead
  | FileText None => Throw CannotParse
  | FileText (Some (JObject fields)) => Ok (Some fields)
  | FileText (Some _) => Throw NotAnObject
  end.

(** [version > 2] of a number; the bits of a double above 2 follow those of 2, up to infinity. *)
Definition newer_version (version : option json) : option json :=
  match version with
  | Some (JNumber n) => if REGISTRY_VERSION <? n then version else None
  | Some (JDouble bits) =>
      if (0x4000000000000000 <? bits) && (bits <=? 0x7FF0000000000000) then version else None
  | _ => None
  end.

Section Registry.
Context `{!Locale}.

Record Slot := { sl_value : json; sl_device : option PairedDevice }.

Definition slotId (slot : Slot) : option units :=
  match sl_device slot with
  | Some d => Some (dv_id d)
  | None => text_of (field "id" (sl_value slot))
  end.

Record Contents := { ct_slots : list Slot; ct_others : list (units * json); ct_newer : option json }.

Definition slot_of (value : json) : Slot := {| sl_value := value; sl_device := parseDevice value |}.

Definition readContents (file : RegistryFile) : result registry_error Contents :=
  let none := {| ct_slots := []; ct_others := []; ct_newer := None |} in
  registry ← readRegistryFile file;
  match registry with
  | None => Ok none
  | Some fields =>
      match newer_version (field_of "version" fields) with
      | Some newer => Ok {| ct_slots := []; ct_others := []; ct_newer := Some newer |}
      | None =>
          match field_of "version" fields with
          | Some (JNumber version) =>
              if decide (version = REGISTRY_VERSION) then
                match field_of "devices" fields with
                | Some (JArray devices) =>
                    Ok {| ct_slots := map slot_of devices;
                          ct_others := obj_without [js "version"; js "devices"] fields; ct_newer := None |}
                | _ => Throw NoDevicesList
                end
              else Ok none
          | _ => Ok none
          end
      end
  end.

Definition contents (n : RegistryName) : R Contents :=
  files ← read_files; lift (readContents (registry_file n files)).

Definition slot_records (slots : list Slot) : list PairedDevice := omap sl_device slots.

Definition readRecords (n : RegistryName) : R (list PairedDevice) :=
  c ← contents n; mret (slot_records (ct_slots c)).

(** [recordsOrNone]: no registry read throws anything else. *)
Definition recordsOrNone (file : RegistryFile) : list PairedDevice :=
  match readContents file with Ok c => slot_records (ct_slots c) | Throw _ => [] end.

Definition refuseNewer (newer : option json) : R unit :=
  match newer with None => mret tt | Some version => throw (NewerVersion version) end.

(** [remaining.splice(remaining.findIndex((each) => each.id === id), 1)]. *)
Fixpoint take_record (id : units) (remaining : list PairedDevice) : option (PairedDevice * list PairedDevice) :=
  match remaining with
  | [] => None
  | d :: rest =>
      if decide (dv_id d = id) then Some (d, rest)
      else '(found, rest) ← take_record id rest; Some (found, d :: rest)
  end.

(** The entries that take the place of [slots], and the records left over. *)
Fixpoint place_records (slots : list Slot) (remaining : list PairedDevice) : list json * list PairedDevice :=
  match slots with
  | [] => ([], remaining)
  | slot :: slots =>
      match sl_device slot with
      | None => let '(entries, rest) := place_records slots remaining in (sl_value slot :: entries, rest)
      | Some d =>
          match take_record (dv_id d) remaining with
          | Some (found, remaining) =>
              let '(entries, rest) := place_records slots remaining in (device_json found :: entries, rest)
          | None => place_records slots remaining
          end
      end
  end.

Definition registry_json (entries : list json) (others : list (units * json)) : json :=
  JObject ([(js "version", JNumber REGISTRY_VERSION); (js "devices", JArray entries)] ++ others).

Definition writeRecords (n : RegistryName) (devices : list PairedDevice) : R unit :=
  c ← contents n;
  _ ← refuseNewer (ct_newer c);
  let '(entries, remaining) := place_records (ct_slots c) devices in
  write_files (set_registry n (FileText (Some (registry_json (entries ++ map device_json remaining) (ct_others c))))).

Record UnreadableRecord := {
  ur_file : RegistryName; ur_index : option nat; ur_id : option units; ur_version : option json;
}.

Definition unreadable_slot (n : RegistryName) (index : nat) (slot : Slot) : list UnreadableRecord :=
  match sl_device slot with
  | Some _ => []
  | None =>
      [{| ur_file := n; ur_index := Some index;
          ur_id := non_empty (Some (cleanClientText (default [] (slotId slot)))); ur_version := None |}]
  end.

Definition readUnreadable (files : Files) : list UnreadableRecord :=
  concat (map (fun n =>
    match readContents (registry_file n files) with
    | Throw _ => []
    | Ok c =>
        match ct_newer c with
        | Some version => [{| ur_file := n; ur_index := None; ur_id := None; ur_version := Some version |}]
        | None => concat (imap (unreadable_slot n) (ct_slots c))
        end
    end) REGISTRIES).

Record Registries := {
  rg_devices : list PairedDevice; rg_build : list PairedDevice; rg_deviceHost : list PairedDevice;
}.

Definition readRegistries : R Registries :=
  devices ← readRecords Devices;
  build ← readRecords BuildClients;
  deviceHost ← readRecords HostClients;
  mret {| rg_devices := devices; rg_build := build; rg_deviceHost := deviceHost |}.

Definition buildClientsReadable (files : Files) : bool :=
  match fl_build files with
  | FileText (Some (JObject fields)) =>
      match field_of "version" fields, field_of "devices" fields with
      | Some (JNumber version), Some (JArray _) => version =? REGISTRY_VERSION
      | _, _ => false
      end
  | _ => false
  end.

(** ** Secrets *)

Inductive SecretKind := KindPairing | KindSetup.

#[export] Instance SecretKind_eq_dec : EqDecision SecretKind.
Proof. solve_decision. Defined.

Record SecretRecord := {
  sc_lookup : units;
  sc_psk : units;
  sc_kind : SecretKind;
  sc_capabilities : list Capability;
  sc_expiresAt : units;
  sc_journal : option units;
  sc_spentBy : option units;
}.

Definition kind_text (k : SecretKind) : units :=
  match k with KindPairing => js "pairing" | KindSetup => js "setup" end.

Definition parse_kind (value : option json) : option SecretKind :=
  s ← text_of value; List.find (fun k => bool_decide (kind_text k = s)) [KindPairing; KindSetup].

Definition parse_secret (entry : json) : option SecretRecord :=
  match entry with
  | JObject fields =>
      lookup ← text_if (hex_text 32) (field_of "lookup" fields);
      psk ← text_if (hex_text 64) (field_of "psk" fields);
      kind ← parse_kind (field_of "kind" fields);
      expiresAt ← text_of (field_of "expiresAt" fields);
      Some {| sc_lookup := lookup; sc_psk := psk; sc_kind := kind;
              sc_capabilities := parseCapabilities (field_of "capabilities" fields);
              sc_expiresAt := expiresAt;
              sc_journal := text_if is_journal (field_of "journal" fields);
              sc_spentBy := text_if is_key (field_of "spentBy" fields) |}
  | _ => None
  end.

Definition secrets_in (file : RegistryFile) : result registry_error (list SecretRecord) :=
  registry ← readRegistryFile file;
  Ok (match field_of "secrets" (default [] registry) with
      | Some (JArray secrets) => omap parse_secret secrets
      | _ => []
      end).

Definition readSecrets : R (list SecretRecord) :=
  files ← read_files; lift (secrets_in (fl_secrets files)).

Definition secret_json (s : SecretRecord) : json :=
  JObject ([(js "lookup", JString (sc_lookup s)); (js "psk", JString (sc_psk s));
            (js "kind", JString (kind_text (sc_kind s)));
            (js "capabilities", JArray (map (fun c => JString (capability_text c)) (sc_capabilities s)));
            (js "expiresAt", JString (sc_expiresAt s))]
    ++ opt_member "journal" (JString <$> sc_journal s)
    ++ opt_member "spentBy" (JString <$> sc_spentBy s)).

Definition writeSecrets (secrets : list SecretRecord) : R unit :=
  write_files (set_secrets (FileText (Some (JObject
    [(js "version", JNumber 1); (js "secrets", JArray (map secret_json secrets))])))).

(** ** Operations on secrets *)

Context `{!NodeDate} `{!NodeCrypto}.

Definition PAIRING_TTL_MS : Z := 5 * 60000.

Definition unexpired (now : Z) (s : SecretRecord) : bool :=
  match Date_parse (sc_expiresAt s) with Some at_ => now <? at_ | None => false end.

Definition iso (time : Z) : R units :=
  match toISOString time with Some s => mret s | None => throw InvalidDate end.

Definition new_secret (values : SecretValues) (kind : SecretKind) (capabilities : list Capability)
    (expiresAt : units) : SecretRecord :=
  {| sc_lookup := hex (sv_lookup values); sc_psk := hex (sv_psk values); sc_kind := kind;
     sc_capabilities := capabilities; sc_expiresAt := expiresAt;
     sc_journal := match kind with KindSetup => Some (sv_journal values) | KindPairing => None end;
     sc_spentBy := None |}.

Definition storeSecret (secret : bytes) (kind : SecretKind) (capabilities : list Capability)
    (expiresAt : units) (now : Z) : R SecretValues :=
  match secretValues secret with
  | Throw _ => throw BadSecret
  | Ok values =>
      secrets ← readSecrets;
      let kept := List.filter (fun each =>
        unexpired now each && negb (bool_decide (sc_lookup each = hex (sv_lookup values)))) secrets in
      _ ← writeSecrets (kept ++ [new_secret values kind capabilities expiresAt]);
      mret values
  end.

(** The random bytes of the token are given. *)
Definition createPairingToken (random : bytes) (now : Z) (capabilities : list Capability) : R (units * units) :=
  let token := newSecret random in
  expiresAt ← iso (now + PAIRING_TTL_MS);
  match decodeSecret token with
  | None => throw BadSecret
  | Some secret => _ ← storeSecret secret KindPairing capabilities expiresAt now; mret (token, expiresAt)
  end.

Definition storeSetupSecret (ticket : bytes) (capabilities : list Capability) (expiresAt : units) (now : Z) :
    R unit :=
  _ ← storeSecret ticket KindSetup capabilities expiresAt now; mret tt.

Definition dropSetupSecret (journal : units) : R unit :=
  secrets ← readSecrets;
  let kept := List.filter (fun s =>
    negb (bool_decide (sc_journal s = Some journal)) || bool_decide (is_Some (sc_spentBy s))) secrets in
  if (length kept =? length secrets)%nat then mret tt else writeSecrets kept.

Definition find_secret (lookup : units) (now : Z) (secrets : list SecretRecord) : option SecretRecord :=
  List.find (fun s => bool_decide (sc_lookup s = lookup) && unexpired now s) secrets.

(** The PSK, in hex. *)
Definition secretPsk (lookup : units) (now : Z) : R (option units) :=
  secrets ← readSecrets; mret (sc_psk <$> find_secret lookup now secrets).

(** ** Spending *)

Record KeyRecords := {
  kr_device : option PairedDevice; kr_build : option PairedDevice; kr_host : option PairedDevice;
}.

Definition with_key (publicKey : units) (l : list PairedDevice) : option PairedDevice :=
  List.find (fun d => bool_decide (dv_publicKey d = publicKey)) l.

Definition recordsForKey (publicKey : units) (registries : Registries) : KeyRecords :=
  {| kr_device := with_key publicKey (rg_devices registries);
     kr_build := with_key publicKey (rg_build registries);
     kr_host := with_key publicKey (rg_deviceHost registries) |}.

(** [newDeviceId], over the ids that [newId] draws. *)
Definition newDeviceId (draws : list units) : R units :=
  devices ← contents Devices; build ← contents BuildClients; host ← contents HostClients;
  let taken := omap slotId (ct_slots devices ++ ct_slots build ++ ct_slots host) in
  match List.find (fun id => negb (bool_decide (id ∈ taken))) draws with
  | Some id => mret id
  | None => throw OutOfIds
  end.

Definition without_key (publicKey : units) (l : list PairedDevice) : list PairedDevice :=
  List.filter (fun d => negb (bool_decide (dv_publicKey d = publicKey))) l.

(** [secret.spentBy = publicKey] in [secrets]: the first with that lookup. *)
Fixpoint mark_spent (lookup publicKey : units) (secrets : list SecretRecord) : list SecretRecord :=
  match secrets with
  | [] => []
  | s :: secrets =>
      if decide (sc_lookup s = lookup) then
        {| sc_lookup := sc_lookup s; sc_psk := sc_psk s; sc_kind := sc_kind s;
           sc_capabilities := sc_capabilities s; sc_expiresAt := sc_expiresAt s;
           sc_journal := sc_journal s; sc_spentBy := Some publicKey |} :: secrets
      else s :: mark_spent lookup publicKey secrets
  end.

(** Who spends a secret: the key the handshake authenticated, the name it sent and where it came from. *)
Record Spender := { sp_publicKey : units; sp_name : units; sp_from : units }.

Definition new_record (who : Spender) (secret : SecretRecord) (at_ id : units) (capabilities : list Capability)
    (fallback : units) : PairedDevice :=
  {| dv_id := id; dv_name := pairingName (sp_name who) fallback; dv_publicKey := sp_publicKey who;
     dv_from := Some (sp_from who); dv_pairedAt := at_; dv_lastSeenAt := Some at_;
     dv_capabilities := capabilities; dv_push := None; dv_setupJournal := non_empty (sc_journal secret);
     dv_clientApp := None; dv_clientVersion := None |}.

(** One record of the key in one registry, in place of an earlier one. *)
Definition add_record (n : RegistryName) (who : Spender) (secret : SecretRecord) (at_ : units)
    (capabilities : list Capability) (fallback : units) (draws : list units) : R PairedDevice :=
  id ← newDeviceId draws;
  let device := new_record who secret at_ id capabilities fallback in
  records ← readRecords n;
  _ ← writeRecords n (without_key (sp_publicKey who) records ++ [device]);
  mret device.

Definition client_registry (c : Capability) : option RegistryName :=
  match c with CapBuild => Some BuildClients | CapDeviceHost => Some HostClients | _ => None end.

Definition spend_targets (secret : SecretRecord) : list RegistryName :=
  match sc_kind secret with
  | KindPairing => [Devices]
  | KindSetup =>
      omap (fun c => if bool_decide (c ∈ sc_capabilities secret) then client_registry c else None)
        [CapBuild; CapDeviceHost]
  end.

(** The record of one capability of a setup ticket, if it has it. *)
Definition add_client (c : Capability) (n : RegistryName) (who : Spender) (secret : SecretRecord) (at_ : units)
    (draws : list units) : R (option PairedDevice) :=
  if bool_decide (c ∈ sc_capabilities secret) then
    created ← add_record n who secret at_ [c] (js "Machine") draws; mret (Some created)
  else mret None.

(** The ids drawn for the first record and for a second one are given. *)
Definition spendSecret (lookup : units) (who : Spender) (now : Z) (draws draws' : list units) :
    R (option KeyRecords) :=
  all ← readSecrets;
  let secrets := List.filter (unexpired now) all in
  match List.find (fun s => bool_decide (sc_lookup s = lookup)) secrets with
  | None => _ ← writeSecrets secrets; mret None
  | Some secret =>
      match sc_spentBy secret with
      | Some key =>
          if decide (key = sp_publicKey who) then
            registries ← readRegistries; mret (Some (recordsForKey (sp_publicKey who) registries))
          else mret None
      | None =>
          at_ ← iso now;
          _ ← for_each (spend_targets secret) (fun n => c ← contents n; refuseNewer (ct_newer c));
          let spend := writeSecrets (mark_spent lookup (sp_publicKey who) secrets) in
          match sc_kind secret with
          | KindPairing =>
              device ← add_record Devices who secret at_ (sc_capabilities secret) (js "Phone") draws;
              _ ← spend;
              mret (Some {| kr_device := Some device; kr_build := None; kr_host := None |})
          | KindSetup =>
              build ← add_client CapBuild BuildClients who secret at_ draws;
              host ← add_client CapDeviceHost HostClients who secret at_ draws';
              _ ← spend;
              mret (Some {| kr_device := None; kr_build := build; kr_host := host |})
          end
      end
  end.

(** ** Operations on records *)

Definition TOUCH_INTERVAL_MS : Z := 60000.

Definition set_seen (due : bool) (at_ app version : units) (d : PairedDevice) : PairedDevice :=
  {| dv_id := dv_id d; dv_name := dv_name d; dv_publicKey := dv_publicKey d; dv_from := dv_from d;
     dv_pairedAt := dv_pairedAt d;
     dv_lastSeenAt := if due then Some at_ else dv_lastSeenAt d;
     dv_capabilities := dv_capabilities d; dv_push := dv_push d; dv_setupJournal := dv_setupJournal d;
     dv_clientApp := match app with [] => dv_clientApp d | _ => Some app end;
     dv_clientVersion := match app, version with
                         | [], _ => dv_clientVersion d
                         | _, [] => None
                         | _, _ => Some version
                         end |}.
Definition set_name (name : units) (d : PairedDevice) : PairedDevice :=
  {| dv_id := dv_id d; dv_name := name; dv_publicKey := dv_publicKey d; dv_from := dv_from d;
     dv_pairedAt := dv_pairedAt d; dv_lastSeenAt := dv_lastSeenAt d; dv_capabilities := dv_capabilities d;
     dv_push := dv_push d; dv_setupJournal := dv_setupJournal d; dv_clientApp := dv_clientApp d;
     dv_clientVersion := dv_clientVersion d |}.
Definition set_capabilities (capabilities : list Capability) (d : PairedDevice) : PairedDevice :=
  {| dv_id := dv_id d; dv_name := dv_name d; dv_publicKey := dv_publicKey d; dv_from := dv_from d;
     dv_pairedAt := dv_pairedAt d; dv_lastSeenAt := dv_lastSeenAt d; dv_capabilities := capabilities;
     dv_push := dv_push d; dv_setupJournal := dv_setupJournal d; dv_clientApp := dv_clientApp d;
     dv_clientVersion := dv_clientVersion d |}.
Definition set_push (push : option PushRegistration) (d : PairedDevice) : PairedDevice :=
  {| dv_id := dv_id d; dv_name := dv_name d; dv_publicKey := dv_publicKey d; dv_from := dv_from d;
     dv_pairedAt := dv_pairedAt d; dv_lastSeenAt := dv_lastSeenAt d; dv_capabilities := dv_capabilities d;
     dv_push := push; dv_setupJournal := dv_setupJournal d; dv_clientApp := dv_clientApp d;
     dv_clientVersion := dv_clientVersion d |}.

Definition with_id (id : units) (l : list PairedDevice) : option PairedDevice :=
  List.find (fun d => bool_decide (dv_id d = id)) l.

(** A change of the record that [find] gives. *)
Fixpoint update_first (id : units) (f : PairedDevice → PairedDevice) (l : list PairedDevice) : list PairedDevice :=
  match l with
  | [] => []
  | d :: l => if decide (dv_id d = id) then f d :: l else d :: update_first id f l
  end.

Definition is_due (now : Z) (lastSeenAt : option units) : bool :=
  match lastSeenAt with
  | None => true
  | Some s => match Date_parse s with Some at_ => TOUCH_INTERVAL_MS <=? Z.abs (now - at_) | None => false end
  end.

(** The loop of [touchDevice] over the registries. *)
Fixpoint touch_in (registries : list RegistryName) (id app version : units) (now : Z) : R unit :=
  match registries with
  | [] => mret tt
  | n :: registries =>
      records ← readRecords n;
      match with_id id records with
      | None => touch_in registries id app version now
      | Some found =>
          let due := is_due now (dv_lastSeenAt found) in
          let missing := negb (bool_decide (app = [])) && bool_decide (dv_clientApp found = None) in
          if due || missing then
            at_ ← (if due then iso now else mret []);
            writeRecords n (update_first id (set_seen due at_ app version) records)
          else mret tt
      end
  end.

(** What the client named in [hello]. *)
Definition touchDevice (id : units) (name version : option json) (now : Z) : R unit :=
  let clean v := match text_of v with Some s => cleanClientText s | None => [] end in
  touch_in REGISTRIES id (clean name) (clean version) now.

Inductive GrantOutcome := Granted | GrantUnknown | BuildMismatch | DeviceHostMismatch.

Definition grantDevice (id : units) (capabilities : list Capability) : R GrantOutcome :=
  devices ← readRecords Devices;
  match with_id id devices with
  | Some _ =>
      if bool_decide (CapBuild ∈ capabilities) then mret BuildMismatch
      else if bool_decide (CapDeviceHost ∈ capabilities) then mret DeviceHostMismatch
      else _ ← writeRecords Devices (update_first id (set_capabilities capabilities) devices); mret Granted
  | None =>
      build ← readRecords BuildClients;
      match with_id id build with
      | Some _ => mret BuildMismatch
      | None =>
          host ← readRecords HostClients;
          match with_id id host with Some _ => mret DeviceHostMismatch | None => mret GrantUnknown end
      end
  end.

Definition has_push_token (token : units) (d : PairedDevice) : bool :=
  bool_decide ((pu_token <$> dv_push d) = Some token).

Definition drop_push (token : units) (l : list PairedDevice) : list PairedDevice :=
  map (fun d => if has_push_token token d then set_push None d else d) l.

Definition setDevicePush (id : units) (push : option PushRegistration) : R bool :=
  devices ← readRecords Devices;
  match with_id id devices with
  | None => mret false
  | Some _ =>
      let devices := match push with Some p => drop_push (pu_token p) devices | None => devices end in
      _ ← writeRecords Devices (update_first id (set_push push) devices);
      mret true
  end.

Definition dropPushToken (token : units) : R unit :=
  devices ← readRecords Devices;
  if existsb (has_push_token token) devices then writeRecords Devices (drop_push token devices) else mret tt.

Inductive RenameOutcome := Renamed | RenameUnknown | InvalidName.

Fixpoint rename_in (registries : list RegistryName) (id clean : units) : R RenameOutcome :=
  match registries with
  | [] => mret RenameUnknown
  | n :: registries =>
      records ← readRecords n;
      match with_id id records with
      | None => rename_in registries id clean
      | Some _ => _ ← writeRecords n (update_first id (set_name clean) records); mret Renamed
      end
  end.

Definition renameDevice (id name : units) : R RenameOutcome :=
  match personName name with
  | None => mret InvalidName
  | Some clean => rename_in REGISTRIES id clean
  end.

Definition without_id (id : units) (l : list PairedDevice) : list PairedDevice :=
  List.filter (fun d => negb (bool_decide (dv_id d = id))) l.

Fixpoint revoke_in (registries : list RegistryName) (id : units) : R bool :=
  match registries with
  | [] => mret false
  | n :: registries =>
      records ← readRecords n;
      let remaining := without_id id records in
      if (length remaining =? length records)%nat then revoke_in registries id
      else _ ← writeRecords n remaining; mret true
  end.

Definition revokeDevice (id : units) : R bool := revoke_in REGISTRIES id.

(** ** [authenticate] of [server.ts], once the handshake is done, while the socket stays open *)

(** The records the client is let in with, a refusal, or an error other than [RegistryUnavailable], which
    [authenticate] throws on. *)
Inductive Admission := Accepted (records : KeyRecords) | Refused (code : units) | Failed (error : registry_error).

Definition is_unavailable (e : registry_error) : bool :=
  match e with
  | CannotRead | CannotParse | NotAnObject | NoDevicesList | NewerVersion _ => true
  | WriteFailed | InvalidDate | BadSecret | OutOfIds => false
  end.

Definition no_records (r : KeyRecords) : bool :=
  match kr_device r, kr_build r, kr_host r with None, None, None => true | _, _, _ => false end.

Definition admit_records (records : KeyRecords) : Admission :=
  if no_records records then Refused (js "unauthorized") else Accepted records.

(** [name] is that of the payload, [None] where the payload does not parse. *)
Definition admit_client (accepted : HandshakeMode) (lookup : units) (name : option units) (publicKey from : units)
    (now : Z) (draws draws' : list units) : Store → Store * Admission := fun s =>
  match accepted with
  | MODE_FIRST_CONTACT =>
      match name with
      | None => (s, Refused (js "bad-request"))
      | Some name =>
          match spendSecret lookup {| sp_publicKey := publicKey; sp_name := name; sp_from := from |} now draws draws' s with
          | (s, Ok (Some records)) => (s, admit_records records)
          | (s, Ok None) => (s, Refused (js "unknown-secret"))
          | (s, Throw e) => (s, if is_unavailable e then Refused (js "home-unavailable") else Failed e)
          end
      end
  | MODE_RETURNING =>
      match readRegistries s with
      | (s, Ok registries) => (s, admit_records (recordsForKey publicKey registries))
      | (s, Throw _) => (s, Refused (js "home-unavailable"))
      end
  end.
End Registry.
