(* ===== verification/RegistryFacts.v ===== *)
(** * The registry of clients

    What a registry file holds after a write, the changes each operation makes, and what they leave true over any
    sequence of operations, writes that fail and restarts included. *)

From Stdlib Require Import ZArith Lia.
From S2P Require Import Prelude.
From S2P Require Import Bytes.
From S2P Require Import Json.
From S2P Require Import Noise.
From S2P Require Import NoiseFacts.
From S2P Require Import NoiseSession.
From S2P Require Import Policy.
From S2P Require Import Registry.
Open Scope Z_scope.

(** ** Records through JSON *)

Lemma field_app key a b :
  field_of key (a ++ b) = match field_of key a with Some v => Some v | None => field_of key b end.
Proof. apply lookup_key_app. Qed.

Lemma field_member key key' v :
  field_of key (opt_member key' v) = if decide (js key' = js key) then v else None.
Proof. destruct v; cbn; [|by case_decide]. unfold field_of. cbn. by case_decide. Qed.

Lemma field_here key v fields : field_of key ((js key, v) :: fields) = Some v.
Proof. unfold field_of. cbn. by rewrite decide_True. Qed.

Lemma field_skip key key' v fields :
  bool_decide (js key' = js key) = false → field_of key ((js key', v) :: fields) = field_of key fields.
Proof. intros H%bool_decide_eq_false. unfold field_of. cbn. by rewrite decide_False. Qed.

Lemma field_nil key : field_of key [] = None.
Proof. done. Qed.

Lemma member_here key v : field_of key (opt_member key v) = v.
Proof. rewrite field_member. by rewrite decide_True. Qed.

Lemma member_skip key key' v :
  bool_decide (js key' = js key) = false → field_of key (opt_member key' v) = None.
Proof. intros H%bool_decide_eq_false. rewrite field_member. by rewrite decide_False. Qed.

(** Finds each member of an object that the code builds. *)
Ltac fields :=
  repeat first
    [ rewrite field_app | rewrite field_here | rewrite member_here | rewrite field_nil
    | rewrite field_skip by (vm_compute; reflexivity) | rewrite member_skip by (vm_compute; reflexivity) ].

Lemma has_text_map {A} `{!EqDecision A} (f : A → units) x (l : list A) :
  (∀ y, f y = f x → y = x) → has_text (f x) (map (fun y => JString (f y)) l) = bool_decide (x ∈ l).
Proof.
  intros Hf. unfold has_text. apply eq_bool_prop_intro. rewrite bool_decide_spec, Is_true_true.
  rewrite existsb_exists. setoid_rewrite in_map_iff. split.
  - intros (v & (y & <- & Hy) & Hv). case_bool_decide as Hq; [|done].
    apply Hf in Hq as ->. by apply list_elem_of_In.
  - intros Hx. exists (JString (f x)). split; [exists x; split; [done|by apply list_elem_of_In]|].
    by rewrite bool_decide_eq_true_2.
Qed.

Lemma capability_text_inj a b : capability_text a = capability_text b → a = b.
Proof. destruct a, b; vm_compute; congruence. Qed.
Lemma push_event_text_inj a b : push_event_text a = push_event_text b → a = b.
Proof. destruct a, b; vm_compute; congruence. Qed.

(** What is read back of a list of capabilities or events: those it has, in the order of the constant. *)
Definition canonical {A} `{!EqDecision A} (all l : list A) : list A := List.filter (fun x => bool_decide (x ∈ l)) all.

Lemma elem_of_canonical {A} `{!EqDecision A} (all l : list A) x : x ∈ canonical all l ↔ x ∈ all ∧ x ∈ l.
Proof. unfold canonical. by rewrite list_elem_of_In, filter_In, bool_decide_eq_true, <- list_elem_of_In. Qed.

Lemma canonical_idem {A} `{!EqDecision A} (p : A → bool) (all : list A) :
  canonical all (List.filter p all) = List.filter p all.
Proof.
  unfold canonical. apply filter_ext_in. intros x Hx.
  apply eq_bool_prop_intro. rewrite bool_decide_spec, Is_true_true, list_elem_of_In, filter_In. tauto.
Qed.

Lemma capabilities_read l :
  parseCapabilities (Some (JArray (map (fun c => JString (capability_text c)) l))) = canonical CAPABILITIES l.
Proof.
  unfold parseCapabilities, canonical. apply filter_ext. intros c.
  apply has_text_map. intros y. apply capability_text_inj.
Qed.

Lemma capabilities_canonical v : canonical CAPABILITIES (parseCapabilities v) = parseCapabilities v.
Proof. destruct v as [[]|]; try done. apply canonical_idem. Qed.

Lemma events_read l : pushEvents (map (fun e => JString (push_event_text e)) l) = canonical PUSH_EVENTS l.
Proof.
  unfold pushEvents, canonical. apply filter_ext. intros c. apply has_text_map. intros y. apply push_event_text_inj.
Qed.

Lemma level_read e v : parse_level (push_event_text e, JString (level_text v)) = Some (e, v).
Proof. destruct e, v; vm_compute; reflexivity. Qed.

Lemma levels_read l :
  parseLevels (JObject (map (fun '(e, v) => (push_event_text e, JString (level_text v))) l)) = Some l.
Proof.
  cbn. apply mapM_Some. rewrite Forall2_fmap_l. apply Forall2_same_length_lookup_2; [done|].
  intros i [e v] y Hx Hy. simplify_eq. apply level_read.
Qed.

Lemma text_if_string p s : text_if p (Some (JString s)) = if p s then Some s else None.
Proof. done. Qed.

Lemma text_if_read p s : text_if p (JString <$> s) = s ↔ (∀ t, s = Some t → p t = true).
Proof.
  destruct s as [t|]; cbn; [|naive_solver].
  split; [intros H t' [= <-]; by destruct (p t)|intros H; by rewrite (H t)].
Qed.

Lemma text_if_valid p v t : text_if p v = Some t → p t = true.
Proof. destruct v as [[]|]; cbn; try done. destruct (p s) eqn:?; naive_solver. Qed.

Lemma non_empty_read v : non_empty (text_of (JString <$> non_empty v)) = non_empty v.
Proof. by destruct v as [[|]|]. Qed.

Lemma text_read s : text_of (JString <$> s) = s.
Proof. by destruct s. Qed.

Lemma null_read s : text_of (Some (or_null (JString <$> s))) = s.
Proof. by destruct s. Qed.

Section Records.
Context `{LO : !Locale}.

(** What is read back of a record that is written. *)
Definition written (d : PairedDevice) : option PairedDevice := parseDevice (device_json d).

Lemma written_eq d :
  written d =
  if is_key (dv_publicKey d) then
    Some {| dv_id := dv_id d; dv_name := dv_name d; dv_publicKey := dv_publicKey d; dv_from := dv_from d;
            dv_pairedAt := dv_pairedAt d; dv_lastSeenAt := dv_lastSeenAt d;
            dv_capabilities := canonical CAPABILITIES (dv_capabilities d);
            dv_push := parsePush (push_json <$> dv_push d);
            dv_setupJournal := text_if is_journal (JString <$> dv_setupJournal d);
            dv_clientApp := non_empty (dv_clientApp d); dv_clientVersion := non_empty (dv_clientVersion d) |}
  else None.
Proof.
  unfold written, device_json, parseDevice. fields.
  rewrite capabilities_read. destruct d as [id name key from at_ seen caps push journal app version]; cbn.
  destruct (is_key key); cbn; [|done].
  destruct from, seen, push, journal, app, version; done.
Qed.

Lemma quiet_read v q : parseQuietHours v = Some q → parseQuietHours (Some (quiet_json q)) = Some q.
Proof.
  destruct v as [[]|]; cbn [parseQuietHours]; try done. intros H.
  apply bind_Some in H as (a & Ha & H). apply bind_Some in H as (b & Hb & H).
  apply bind_Some in H as (z & Hz & H). destruct (validTimeZone z) eqn:Ez; simplify_eq.
  unfold quiet_json. cbn [qh_start qh_end qh_timeZone]. fields.
  assert (∀ v m, minuteOfDay v = Some m → minuteOfDay (Some (JNumber m)) = Some m) as Hm.
  { intros [[]|] m; cbn; try done. intros Hm. by destruct (_ && _) eqn:E in Hm; simplify_eq; rewrite E. }
  rewrite (Hm _ _ Ha), (Hm _ _ Hb). cbn. by rewrite Ez.
Qed.

Lemma stuck_read v : validStuckMinutes (Some (JNumber (default DEFAULT_STUCK_MINUTES (validStuckMinutes v))))
  = Some (default DEFAULT_STUCK_MINUTES (validStuckMinutes v)).
Proof.
  destruct v as [[]|]; try (vm_compute; reflexivity).
  unfold validStuckMinutes at 2 3. destruct ((1 <=? n) && (n <=? 240)) eqn:E; [|vm_compute; reflexivity].
  cbn. by rewrite E.
Qed.

Lemma push_read v p : parsePush v = Some p → parsePush (Some (push_json p)) = Some p.
Proof.
  destruct v as [[]|]; cbn [parsePush]; try done. intros H.
  apply bind_Some in H as (token & Ht & H). destruct (push_token token) eqn:Et; [|done].
  apply bind_Some in H as (ref & Hr & H).
  destruct (field_of "events" fields) as [[]|]; try done.
  apply bind_Some in H as (at_ & Ha & H). injection H as <-.
  unfold push_json, parsePush. cbn [pu_token pu_events pu_levels pu_ref pu_registeredAt pu_stuckMinutes pu_quietHours].
  fields. cbn [text_of mbind option_bind]. rewrite Et, events_read, stuck_read. cbn [default]. f_equal. f_equal.
  - apply canonical_idem.
  - destruct (field_of "levels" fields) as [w|]; [|done]. destruct (parseLevels w); [|done].
    cbn [fmap option_fmap option_map]. by rewrite levels_read.
  - destruct (parseQuietHours (field_of "quietHours" fields)) as [q|] eqn:Eq; [|done].
    cbn [fmap option_fmap option_map or_null default]. by eapply quiet_read.
Qed.

(** A record that a registry holds is written and read back as it is: what a read drops or puts in order, a read
    of what was written would drop and put in order again. *)
Theorem device_roundtrip v d : parseDevice v = Some d → parseDevice (device_json d) = Some d.
Proof.
  intros H. change (written d = Some d). rewrite written_eq.
  destruct v; try done. unfold parseDevice in H.
  apply bind_Some in H as (id & Hid & H). apply bind_Some in H as (name & Hn & H).
  apply bind_Some in H as (at_ & Ha & H). apply bind_Some in H as (key & Hk & H). injection H as <-.
  cbn -[canonical parseCapabilities parsePush text_if non_empty text_of field_of].
  rewrite (text_if_valid _ _ _ Hk), capabilities_canonical. f_equal. f_equal.
  - destruct (parsePush (field_of "push" fields)) as [p|] eqn:Ep; [by eapply push_read|done].
  - apply text_if_read. intros t. apply text_if_valid.
  - by destruct (text_of (field_of "clientApp" fields)) as [[|]|].
  - by destruct (text_of (field_of "clientVersion" fields)) as [[|]|].
Qed.

Lemma parsed_key v d : parseDevice v = Some d → is_key (dv_publicKey d) = true.
Proof.
  destruct v; try done. unfold parseDevice. intros H.
  apply bind_Some in H as (id & Hid & H). apply bind_Some in H as (name & Hn & H).
  apply bind_Some in H as (at_ & Ha & H). apply bind_Some in H as (key & Hk & H). injection H as <-.
  exact (text_if_valid _ _ _ Hk).
Qed.

Lemma secret_written s :
  parse_secret (secret_json s) =
  if hex_text 32 (sc_lookup s) && hex_text 64 (sc_psk s) then
    Some {| sc_lookup := sc_lookup s; sc_psk := sc_psk s; sc_kind := sc_kind s;
            sc_capabilities := canonical CAPABILITIES (sc_capabilities s); sc_expiresAt := sc_expiresAt s;
            sc_journal := text_if is_journal (JString <$> sc_journal s);
            sc_spentBy := text_if is_key (JString <$> sc_spentBy s) |}
  else None.
Proof.
  unfold secret_json, parse_secret. fields. rewrite capabilities_read.
  destruct s as [lookup psk kind caps at_ journal spent].
  cbn [sc_lookup sc_psk sc_kind sc_capabilities sc_expiresAt sc_journal sc_spentBy]. rewrite !text_if_string.
  destruct (hex_text 32 lookup); [|done]. cbn [mbind option_bind andb].
  destruct (hex_text 64 psk); [|done]. cbn [mbind option_bind andb].
  destruct kind, journal, spent; done.
Qed.

(** A record with the same access: its id, its key and its capabilities. *)
Definition same_access (d d' : PairedDevice) : Prop :=
  dv_id d' = dv_id d ∧ dv_publicKey d' = dv_publicKey d ∧ dv_capabilities d' ⊆ dv_capabilities d.

Lemma written_access d d' : written d = Some d' → same_access d d'.
Proof.
  rewrite written_eq. destruct (is_key _); intros H; simplify_eq. repeat split.
  intros c. cbn [dv_capabilities]. rewrite elem_of_canonical. tauto.
Qed.

Lemma written_some d : is_key (dv_publicKey d) = true → is_Some (written d).
Proof. rewrite written_eq. intros ->. done. Qed.

(** ** What a write leaves in the file *)

Definition unreadable (slots : list Slot) : list json :=
  omap (fun slot => match sl_device slot with None => Some (sl_value slot) | Some _ => None end) slots.

Lemma take_record_perm id l d rest : take_record id l = Some (d, rest) → l ≡ₚ d :: rest.
Proof.
  revert d rest. induction l as [|e l IH]; intros d rest; cbn; [done|].
  case_decide; intros Ht; [by simplify_eq|].
  apply bind_Some in Ht as ([f r] & Hf & Ht). simplify_eq. rewrite (IH _ _ Hf). apply Permutation_swap.
Qed.

Lemma place_records_written slots ds entries rest :
  Forall (fun slot => sl_device slot = parseDevice (sl_value slot)) slots →
  place_records slots ds = (entries, rest) →
  omap parseDevice (entries ++ map device_json rest) ≡ₚ omap written ds.
Proof.
  assert (∀ l, omap parseDevice (map device_json l) = omap written l) as Hmap.
  { induction l as [|d l IH]; [done|]. cbn -[parseDevice device_json]. fold (written d). rewrite IH. by destruct (written d). }
  revert ds entries rest. induction slots as [|slot slots IH]; intros ds entries rest Hs H; cbn in H.
  - simplify_eq. cbn -[parseDevice device_json]. by rewrite Hmap.
  - apply Forall_cons in Hs as [Hs1 Hs]. destruct (sl_device slot) as [d|].
    + destruct (take_record (dv_id d) ds) as [[f l]|] eqn:E; [|by apply IH].
      destruct (place_records slots l) as [entries' rest'] eqn:Ep. simplify_eq. cbn -[parseDevice device_json].
      rewrite (take_record_perm _ _ _ _ E). cbn -[parseDevice device_json]. fold (written f).
      destruct (written f); [apply perm_skip|]; exact (IH _ _ _ Hs Ep).
    + destruct (place_records slots ds) as [entries' rest'] eqn:Ep. simplify_eq. cbn -[parseDevice device_json].
      rewrite <- Hs1. exact (IH _ _ _ Hs Ep).
Qed.

Lemma place_records_unreadable slots ds entries rest :
  Forall (fun slot => sl_device slot = parseDevice (sl_value slot)) slots →
  Forall (fun d => is_key (dv_publicKey d) = true) ds →
  place_records slots ds = (entries, rest) →
  unreadable (map slot_of (entries ++ map device_json rest)) = unreadable slots.
Proof.
  assert (∀ d l, is_key (dv_publicKey d) = true →
    unreadable (map slot_of (device_json d :: l)) = unreadable (map slot_of l)) as Hd.
  { intros d l Hk. unfold unreadable. cbn -[parseDevice device_json]. fold (written d). by destruct (written_some d Hk) as [? ->]. }
  revert ds entries rest. induction slots as [|slot slots IH]; intros ds entries rest Hs Hk H; cbn in H.
  - simplify_eq. rewrite app_nil_l. induction Hk as [|d l Hk _ IHl]; [done|].
    change (map device_json (d :: l)) with (device_json d :: map device_json l). by rewrite Hd.
  - apply Forall_cons in Hs as [Hs1 Hs]. unfold unreadable at 2. cbn -[parseDevice device_json]. fold (unreadable slots).
    destruct (sl_device slot) as [d|].
    + destruct (take_record (dv_id d) ds) as [[f l]|] eqn:E; [|by eapply IH].
      destruct (place_records slots l) as [entries' rest'] eqn:Ep. simplify_eq.
      rewrite (take_record_perm _ _ _ _ E) in Hk. apply Forall_cons in Hk as [Hf Hl].
      rewrite <- app_comm_cons, Hd by done. by eapply IH.
    + destruct (place_records slots ds) as [entries' rest'] eqn:Ep. simplify_eq.
      unfold unreadable. cbn -[parseDevice device_json]. rewrite <- Hs1. f_equal. by eapply IH.
Qed.
End Records.

(** ** The state of a store *)

Section Stores.
Context `{LO : !Locale}.

Definition registry (n : RegistryName) (s : Store) : result registry_error Contents :=
  readContents (registry_file n (st_files s)).
Definition records_of (n : RegistryName) (s : Store) : list PairedDevice :=
  recordsOrNone (registry_file n (st_files s)).
Definition secrets_of (s : Store) : list SecretRecord :=
  match secrets_in (fl_secrets (st_files s)) with Ok l => l | Throw _ => [] end.

(** [n] was written with [ds], and nothing else. *)
Record wrote (n : RegistryName) (ds : list PairedDevice) (s s' : Store) : Prop := {
  wrote_files : ∃ c c', registry n s = Ok c ∧ ct_newer c = None ∧ registry n s' = Ok c' ∧ ct_newer c' = None ∧
    ct_others c' = ct_others c ∧
    (Forall (fun d => is_key (dv_publicKey d) = true) ds → unreadable (ct_slots c') = unreadable (ct_slots c));
  wrote_records : records_of n s' ≡ₚ omap written ds;
  wrote_others : ∀ m, m ≠ n → registry_file m (st_files s') = registry_file m (st_files s);
  wrote_secrets : fl_secrets (st_files s') = fl_secrets (st_files s);
}.

(** The secrets were written, and nothing else. *)
Record wrote_secret (secrets : list SecretRecord) (s s' : Store) : Prop := {
  ws_secrets : secrets_of s' = omap (parse_secret ∘ secret_json) secrets;
  ws_registries : ∀ n, registry_file n (st_files s') = registry_file n (st_files s);
}.

Lemma slots_parsed file c : readContents file = Ok c →
  Forall (fun slot => sl_device slot = parseDevice (sl_value slot)) (ct_slots c).
Proof.
  unfold readContents. intros H. apply result_bind_inv in H as (r & _ & H).
  destruct r as [fields|]; [|simplify_eq; constructor].
  destruct (newer_version _); [simplify_eq; constructor|].
  destruct (field_of "version" fields) as [[]|]; simplify_eq; try constructor.
  case_decide; simplify_eq; [|constructor].
  destruct (field_of "devices" fields) as [[]|]; simplify_eq. cbn [ct_slots].
  apply Forall_forall. intros slot (v & -> & _)%list_elem_of_fmap. done.
Qed.

Lemma others_apart file c : readContents file = Ok c →
  obj_without [js "version"; js "devices"] (ct_others c) = ct_others c.
Proof.
  unfold readContents. intros H. apply result_bind_inv in H as (r & _ & H).
  destruct r as [fields|]; [|by simplify_eq].
  destruct (newer_version _); [by simplify_eq|].
  destruct (field_of "version" fields) as [[]|]; simplify_eq; try done.
  case_decide; simplify_eq; [|done].
  destruct (field_of "devices" fields) as [[]|]; simplify_eq. cbn [ct_others].
  unfold obj_without. rewrite list_filter_filter. apply list_filter_iff. intros [k v]. tauto.
Qed.

Lemma registry_json_read entries others :
  obj_without [js "version"; js "devices"] others = others →
  readContents (FileText (Some (registry_json entries others)))
  = Ok {| ct_slots := map slot_of entries; ct_others := others; ct_newer := None |}.
Proof.
  intros Ho. unfold readContents, registry_json. cbn [readRegistryFile mbind result_bind].
  rewrite <- app_comm_cons. fields. cbn [newer_version]. rewrite decide_True by done.
  rewrite <- app_comm_cons. fields. do 2 f_equal.
  unfold obj_without in *. rewrite <- Ho at 2. done.
Qed.

Lemma registry_set n v f : registry_file n (set_registry n v f) = v.
Proof. by destruct n. Qed.
Lemma registry_set_other m n v f : m ≠ n → registry_file m (set_registry n v f) = registry_file m f.
Proof. by destruct m, n. Qed.
Lemma secrets_set n v f : fl_secrets (set_registry n v f) = fl_secrets f.
Proof. by destruct n. Qed.

Lemma contents_eq n s : contents n s = (s, registry n s).
Proof. done. Qed.

Lemma slot_records_map entries : slot_records (map slot_of entries) = omap parseDevice entries.
Proof. induction entries as [|v l IH]; [done|]. cbn -[parseDevice]. rewrite <- IH. done. Qed.

Lemma writeRecords_cases n ds s :
  (∃ e, writeRecords n ds s = (s, Throw e)) ∨ (∃ s', writeRecords n ds s = (s', Ok tt) ∧ wrote n ds s s').
Proof.
  unfold writeRecords, mbind, M_bind. rewrite contents_eq. destruct (registry n s) as [c|e] eqn:Ec; [|by eauto].
  unfold refuseNewer. destruct (ct_newer c) eqn:En; [by eauto|]. cbn [mret M_ret].
  destruct (place_records (ct_slots c) ds) as [entries rest] eqn:Ep.
  unfold write_files. destruct (st_writes s) as [|k]; [by eauto|].
  right. eexists. split; [done|].
  pose proof (registry_json_read (entries ++ map device_json rest) _ (others_apart _ _ Ec)) as Hr.
  pose proof (slots_parsed _ _ Ec) as Hs. split.
  - exists c, {| ct_slots := map slot_of (entries ++ map device_json rest); ct_others := ct_others c; ct_newer := None |}.
    unfold registry. cbn [st_files]. rewrite registry_set. split_and!; try done.
    intros Hk. cbn [ct_slots]. by eapply place_records_unreadable.
  - unfold records_of, recordsOrNone. cbn [st_files]. rewrite registry_set, Hr. cbn [ct_slots].
    rewrite slot_records_map. by eapply place_records_written.
  - intros m Hm. cbn [st_files]. by apply registry_set_other.
  - cbn [st_files]. apply secrets_set.
Qed.

Lemma writeSecrets_cases secrets s :
  writeSecrets secrets s = (s, Throw WriteFailed) ∨
  (∃ s', writeSecrets secrets s = (s', Ok tt) ∧ wrote_secret secrets s s').
Proof.
  unfold writeSecrets, write_files. destruct (st_writes s) as [|k]; [by left|].
  right. eexists. split; [done|]. split; [|by intros []].
  unfold secrets_of. cbn [st_files set_secrets fl_secrets]. unfold secrets_in. cbn [readRegistryFile mbind result_bind].
  cbn [from_option]. unfold id. fields. generalize secrets. intros l.
  induction l as [|x l IH]; [done|]. cbn -[parse_secret secret_json]. rewrite IH. done.
Qed.

Lemma readRecords_eq n s :
  readRecords n s = (s, c ← registry n s; mret (slot_records (ct_slots c))).
Proof. unfold readRecords, mbind, M_bind. rewrite contents_eq. by destruct (registry n s). Qed.

Lemma records_read n s c : registry n s = Ok c → records_of n s = slot_records (ct_slots c).
Proof. unfold records_of, recordsOrNone, registry. by intros ->. Qed.

Lemma records_keyed n s : Forall (fun d => is_key (dv_publicKey d) = true) (records_of n s).
Proof.
  unfold records_of, recordsOrNone. destruct (readContents _) as [c|] eqn:Ec; [|constructor].
  apply slots_parsed in Ec. unfold slot_records. revert Ec.
  induction (ct_slots c) as [|slot l IH]; intros Hs; [constructor|].
  apply Forall_cons in Hs as [H1 Hs]. cbn. destruct (sl_device slot) eqn:E; [|by apply IH].
  constructor; [by eapply parsed_key|by apply IH].
Qed.
End Stores.

(** ** A record *)

Module SampleRecord.
#[global] Instance locale : Locale := {| validTimeZone _ := true; is_format _ := false |}.

Definition value : json := JObject
  [(js "id", JString (js "01")); (js "name", JString (js "Phone")); (js "publicKey", JString (replicate 43 97));
   (js "pairedAt", JString (js "now")); (js "lastSeenAt", JNull);
   (js "capabilities", JArray [JString (js "control"); JNumber 3; JString (js "read")]);
   (js "push", JObject [(js "token", JString (js "ExpoPushToken[x]")); (js "ref", JString (js "r"));
                        (js "events", JArray [JString (js "stuck"); JString (js "started")]);
                        (js "levels", JObject [(js "stuck", JString (js "silent"))]);
                        (js "registeredAt", JString (js "then")); (js "stuckMinutes", JNumber 500);
                        (js "quietHours", JObject [(js "start", JNumber 60); (js "end", JNumber 1439);
                                                   (js "timeZone", JString (js "UTC"))])])].

Lemma device_roundtrip_witness :
  ∃ d, parseDevice value = Some d ∧ parseDevice (device_json d) = Some d ∧ dv_capabilities d = [CapRead; CapControl]
    ∧ (pu_stuckMinutes <$> dv_push d) = Some 15.
Proof.
  destruct (parseDevice value) as [d|] eqn:E; [|exfalso; vm_compute in E; discriminate].
  exists d. split; [done|]. split; [apply (device_roundtrip value d E)|].
  vm_compute in E. injection E as <-. split; reflexivity.
Defined.
End SampleRecord.
