(* ===== verification/RegistryRuns.v ===== *)
(** * Runs of registry operations

    Each operation makes a sequence of changes of a few kinds; what holds over any run is proved by cases of the
    change. A run may stop after any write, and a server that restarts writes again. *)

From Stdlib Require Import ZArith Lia.
From S2P Require Import Prelude.
From S2P Require Import Bytes.
From S2P Require Import Json.
From S2P Require Import Noise.
From S2P Require Import NoiseFacts.
From S2P Require Import NoiseSession.
From S2P Require Import Policy.
From S2P Require Import Registry.
From S2P Require Import RegistryFacts.
Open Scope Z_scope.

(** The exported operations, and a restart, from which on [writes] writes succeed. *)
Inductive Op :=
| CreatePairing (random : bytes) (now : Z) (capabilities : list Capability)
| StoreSetup (ticket : bytes) (capabilities : list Capability) (expiresAt : units) (now : Z)
| DropSetup (journal : units)
| Spend (lookup : units) (who : Spender) (now : Z) (draws draws' : list units)
| Touch (id : units) (name version : option json) (now : Z)
| Grant (id : units) (capabilities : list Capability)
| SetPush (id : units) (push : option PushRegistration)
| DropPush (token : units)
| Rename (id name : units)
| Revoke (id : units)
| Restart (writes : nat).

Section Runs.
Context `{LO : !Locale} `{DA : !NodeDate} `{CR : !NodeCrypto}.

Definition run_op (op : Op) (s : Store) : Store :=
  match op with
  | CreatePairing random now capabilities => fst (createPairingToken random now capabilities s)
  | StoreSetup ticket capabilities expiresAt now => fst (storeSetupSecret ticket capabilities expiresAt now s)
  | DropSetup journal => fst (dropSetupSecret journal s)
  | Spend lookup who now draws draws' => fst (spendSecret lookup who now draws draws' s)
  | Touch id name version now => fst (touchDevice id name version now s)
  | Grant id capabilities => fst (grantDevice id capabilities s)
  | SetPush id push => fst (setDevicePush id push s)
  | DropPush token => fst (dropPushToken token s)
  | Rename id name => fst (renameDevice id name s)
  | Revoke id => fst (revokeDevice id s)
  | Restart writes => {| st_files := st_files s; st_writes := writes |}
  end.

Definition run_ops (ops : list Op) (s : Store) : Store := fold_left (fun s op => run_op op s) ops s.

(** The secret an operation stores, what it is good for, and the lookup it is found by. *)
Definition op_stores (op : Op) : option (bytes * SecretKind * list Capability) :=
  match op with
  | CreatePairing random _ capabilities =>
      secret ← decodeSecret (newSecret random); Some (secret, KindPairing, capabilities)
  | StoreSetup ticket capabilities _ _ => Some (ticket, KindSetup, capabilities)
  | _ => None
  end.
Definition op_lookup (op : Op) : option units :=
  '(secret, _, _) ← op_stores op;
  match secretValues secret with Ok values => Some (hex (sv_lookup values)) | Throw _ => None end.

(** A record that keeps its access. *)
Definition edited (d d' : PairedDevice) : Prop :=
  dv_id d' = dv_id d ∧ dv_publicKey d' = dv_publicKey d ∧ dv_capabilities d' = dv_capabilities d.

(** What a secret gives in a registry. *)
Definition gives (secret : SecretRecord) (n : RegistryName) (capabilities : list Capability) : Prop :=
  match n with
  | Devices => sc_kind secret = KindPairing ∧ capabilities = sc_capabilities secret
  | BuildClients => sc_kind secret = KindSetup ∧ capabilities = [CapBuild] ∧ CapBuild ∈ sc_capabilities secret
  | HostClients => sc_kind secret = KindSetup ∧ capabilities = [CapDeviceHost] ∧ CapDeviceHost ∈ sc_capabilities secret
  end.

(** A secret that [lookup] names and that nobody has spent. *)
Definition unspent (lookup : units) (now : Z) (secret : SecretRecord) (s : Store) : Prop :=
  secret ∈ secrets_of s ∧ sc_lookup secret = lookup ∧ unexpired now secret = true ∧ sc_spentBy secret = None.

Inductive change : Op → Store → Store → Prop :=
| change_remove id n s s' :
    wrote n (without_id id (records_of n s)) s s' → change (Revoke id) s s'
| change_edit op n ds s s' :
    Forall2 edited (records_of n s) ds → wrote n ds s s' → change op s s'
| change_grant id capabilities s s' :
    CapBuild ∉ capabilities → CapDeviceHost ∉ capabilities →
    wrote Devices (update_first id (set_capabilities capabilities) (records_of Devices s)) s s' →
    change (Grant id capabilities) s s'
| change_add lookup who now draws draws' n secret d s s' :
    unspent lookup now secret s → gives secret n (dv_capabilities d) → dv_publicKey d = sp_publicKey who →
    (∀ m e, e ∈ records_of m s → dv_id e ≠ dv_id d) →
    wrote n (without_key (sp_publicKey who) (records_of n s) ++ [d]) s s' →
    change (Spend lookup who now draws draws') s s'
| change_spend lookup who now draws draws' secret s s' :
    unspent lookup now secret s →
    wrote_secret (mark_spent lookup (sp_publicKey who) (List.filter (unexpired now) (secrets_of s))) s s' →
    change (Spend lookup who now draws draws') s s'
| change_forget op secrets s s' :
    secrets `sublist_of` secrets_of s → wrote_secret secrets s s' → change op s s'
| change_store op secret kind capabilities values expiresAt kept s s' :
    op_stores op = Some (secret, kind, capabilities) → secretValues secret = Ok values →
    kept `sublist_of` secrets_of s → Forall (fun each => sc_lookup each ≠ hex (sv_lookup values)) kept →
    wrote_secret (kept ++ [new_secret values kind capabilities expiresAt]) s s' → change op s s'
| change_restart op s s' : st_files s' = st_files s → change op s s'.

(** [m] makes changes of [C] from [s]. *)
Definition leads (C : Store → Store → Prop) {A} (m : R A) (s : Store) : Prop := rtc C s (fst (m s)).

Section Leads.
Context (C : Store → Store → Prop).

Lemma leads_ret {A} (a : A) s : leads C (mret a) s.
Proof. apply rtc_refl. Qed.

Lemma leads_throw {A} e s : leads C (throw e : R A) s.
Proof. apply rtc_refl. Qed.

Lemma leads_bind {A B} (m : R A) (f : A → R B) s :
  leads C m s → (∀ a s', m s = (s', Ok a) → leads C (f a) s') → leads C (m ≫= f) s.
Proof.
  unfold leads, mbind, M_bind. intros Hm Hf. destruct (m s) as [s' [a|e]]; [|done].
  etrans; [exact Hm|]. by apply Hf.
Qed.

Lemma leads_assoc {A B D} (m : R A) (g : A → R B) (f : B → R D) s :
  leads C (m ≫= fun a => g a ≫= f) s → leads C ((m ≫= g) ≫= f) s.
Proof. unfold leads, mbind, M_bind. by destruct (m s) as [s' [a|e]]. Qed.

Lemma leads_quiet {A B} (m : R A) (f : A → R B) s :
  fst (m s) = s → (∀ a, m s = (s, Ok a) → leads C (f a) s) → leads C (m ≫= f) s.
Proof.
  intros Hm Hf. apply leads_bind; [unfold leads; by rewrite Hm|].
  intros a s' H. assert (s' = s) as -> by (by rewrite H in Hm). by apply Hf.
Qed.

Lemma leads_still {A B} (m : R A) (f : A → R B) s :
  preserves eq m → (∀ a, leads C (f a) s) → leads C (m ≫= f) s.
Proof. intros Hm Hf. apply leads_quiet; [symmetry; apply Hm|]. intros a _. apply Hf. Qed.

Lemma leads_read {B} n (f : list PairedDevice → R B) s :
  leads C (f (records_of n s)) s → leads C (readRecords n ≫= f) s.
Proof.
  intros Hf. apply leads_quiet; [by rewrite readRecords_eq|]. intros l. rewrite readRecords_eq. intros H.
  destruct (registry n s) as [c|] eqn:E; [|done]. rewrite (records_read _ _ _ E) in Hf. injection H as <-. exact Hf.
Qed.

Lemma leads_secrets {B} (f : list SecretRecord → R B) s :
  leads C (f (secrets_of s)) s → leads C (readSecrets ≫= f) s.
Proof.
  intros Hf. apply leads_quiet; [done|]. unfold readSecrets. cbn. intros l [= H].
  unfold secrets_of in Hf. by rewrite H in Hf.
Qed.

Lemma leads_write n ds s : (∀ s', wrote n ds s s' → C s s') → leads C (writeRecords n ds) s.
Proof.
  intros H. unfold leads. destruct (writeRecords_cases n ds s) as [[e ->]|(s' & -> & Hw)]; [done|].
  apply rtc_once. by apply H.
Qed.

Lemma leads_write_then {B} n ds (f : unit → R B) s :
  (∀ s', wrote n ds s s' → C s s') → (∀ s', wrote n ds s s' → leads C (f tt) s') → leads C (writeRecords n ds ≫= f) s.
Proof.
  intros H Hf. apply leads_bind; [by apply leads_write|]. intros [] s' E.
  destruct (writeRecords_cases n ds s) as [[e E']|(s1 & E' & Hw)]; rewrite E' in E; simplify_eq. by apply Hf.
Qed.

Lemma leads_wsecret secrets s : (∀ s', wrote_secret secrets s s' → C s s') → leads C (writeSecrets secrets) s.
Proof.
  intros H. unfold leads. destruct (writeSecrets_cases secrets s) as [->|(s' & -> & Hw)]; [done|].
  apply rtc_once. by apply H.
Qed.

Lemma leads_wsecret_then {B} secrets (b : B) s :
  (∀ s', wrote_secret secrets s s' → C s s') → leads C (_ ← writeSecrets secrets; mret b) s.
Proof. intros H. apply leads_bind; [by apply leads_wsecret|]. intros. apply leads_ret. Qed.
End Leads.

(** ** The changes of each operation *)

Lemma edited_refl d : edited d d.
Proof. done. Qed.

Lemma update_first_edited id f l : (∀ d, edited d (f d)) → Forall2 edited l (update_first id f l).
Proof.
  intros Hf. induction l as [|d l IH]; cbn; [constructor|].
  case_decide; constructor; auto using edited_refl. by apply Forall_Forall2_diag, Forall_true.
Qed.

Lemma drop_push_edited token l : Forall2 edited l (drop_push token l).
Proof.
  unfold drop_push. induction l as [|d l IH]; cbn; constructor; [|done]. by destruct (has_push_token token d).
Qed.

Lemma edited_trans l1 l2 l3 : Forall2 edited l1 l2 → Forall2 edited l2 l3 → Forall2 edited l1 l3.
Proof.
  intros H1 H2. revert l3 H2. induction H1 as [|x y l1 l2 (?&?&?) _ IH]; intros l3 H2.
  - apply Forall2_nil_inv_l in H2 as ->. constructor.
  - apply Forall2_cons_inv_l in H2 as (z & l & (?&?&?) & Hl & ->). constructor; [|by apply IH].
    repeat split; congruence.
Qed.

Lemma leads_edit op n ds s : Forall2 edited (records_of n s) ds → leads (change op) (writeRecords n ds) s.
Proof. intros H. apply leads_write. intros s' Hw. by eapply change_edit. Qed.

Lemma leads_edit_then {B} op n ds (b : B) s :
  Forall2 edited (records_of n s) ds → leads (change op) (_ ← writeRecords n ds; mret b) s.
Proof.
  intros H. apply leads_bind; [by apply leads_edit|]. intros. apply leads_ret.
Qed.

Lemma touch_leads op ns id app version now s : leads (change op) (touch_in ns id app version now) s.
Proof.
  induction ns as [|n ns IH]; cbn [touch_in]; [apply leads_ret|]. apply leads_read.
  destruct (with_id id _) as [d|]; [|done]. destruct (_ || _); [|apply leads_ret].
  assert (∀ at_, leads (change op)
    (writeRecords n (update_first id (set_seen (is_due now (dv_lastSeenAt d)) at_ app version) (records_of n s))) s).
  { intros at_. by apply leads_edit, update_first_edited. }
  apply leads_quiet; [|done]. destruct (is_due _ _); [|done]. unfold iso. by destruct (toISOString now).
Qed.

Lemma rename_leads op ns id clean s : leads (change op) (rename_in ns id clean) s.
Proof.
  induction ns as [|n ns IH]; cbn [rename_in]; [apply leads_ret|]. apply leads_read.
  destruct (with_id id _); [|done]. by apply leads_edit_then, update_first_edited.
Qed.

Lemma revoke_leads ns id s : leads (change (Revoke id)) (revoke_in ns id) s.
Proof.
  induction ns as [|n ns IH]; cbn [revoke_in]; [apply leads_ret|]. apply leads_read.
  destruct (_ =? _)%nat; [done|]. apply leads_write_then; intros s' Hw; [by eapply change_remove|apply leads_ret].
Qed.

Lemma grant_leads id capabilities s : leads (change (Grant id capabilities)) (grantDevice id capabilities) s.
Proof.
  apply leads_read. destruct (with_id id _).
  - case_bool_decide; [apply leads_ret|]. case_bool_decide; [apply leads_ret|].
    apply leads_write_then; intros s' Hw; [by eapply change_grant|apply leads_ret].
  - apply leads_read. destruct (with_id id _); [apply leads_ret|]. apply leads_read.
    destruct (with_id id _); apply leads_ret.
Qed.

Lemma push_leads op id push s : leads (change op) (setDevicePush id push) s.
Proof.
  apply leads_read. destruct (with_id id _); [|apply leads_ret]. apply leads_edit_then.
  eapply edited_trans; [|by apply update_first_edited].
  destruct push; [apply drop_push_edited|]. by apply Forall_Forall2_diag, Forall_true.
Qed.

Lemma drop_push_leads op token s : leads (change op) (dropPushToken token) s.
Proof. apply leads_read. destruct (existsb _ _); [|apply leads_ret]. apply leads_edit, drop_push_edited. Qed.

Lemma list_filter_sublist {A} (p : A → bool) l : List.filter p l `sublist_of` l.
Proof. induction l as [|x l IH]; cbn; [constructor|]. destruct (p x); by constructor. Qed.

Lemma drop_setup_leads op journal s : leads (change op) (dropSetupSecret journal) s.
Proof.
  apply leads_secrets. cbv beta zeta. destruct (_ =? _)%nat; [apply leads_ret|]. apply leads_wsecret. intros s' Hw.
  eapply change_forget; [apply list_filter_sublist|exact Hw].
Qed.

Lemma store_leads op secret kind capabilities expiresAt now s :
  op_stores op = Some (secret, kind, capabilities) →
  leads (change op) (storeSecret secret kind capabilities expiresAt now) s.
Proof.
  intros Ho. unfold storeSecret. destruct (secretValues secret) as [values|] eqn:Ev; [|apply leads_throw].
  apply leads_secrets. apply leads_wsecret_then. intros s' Hw.
  eapply change_store; [exact Ho|exact Ev|apply list_filter_sublist| |exact Hw].
  apply Forall_forall. intros each He. apply list_elem_of_In, filter_In in He as [_ He].
  apply andb_prop in He as [_ He]. apply negb_true_iff, bool_decide_eq_false in He. done.
Qed.

Lemma records_ids n s c e :
  registry n s = Ok c → e ∈ records_of n s → dv_id e ∈ omap slotId (ct_slots c).
Proof.
  intros Hc. rewrite (records_read _ _ _ Hc). unfold slot_records. rewrite !list_elem_of_omap.
  intros (slot & Hs & Hd). exists slot. split; [done|]. unfold slotId. by rewrite Hd.
Qed.

Lemma newDeviceId_fresh draws s s' id :
  newDeviceId draws s = (s', Ok id) → s' = s ∧ ∀ m e, e ∈ records_of m s → dv_id e ≠ id.
Proof.
  unfold newDeviceId. intros H.
  apply bind_ok_inv in H as (a & s1 & H1 & H). rewrite contents_eq in H1. simplify_eq.
  apply bind_ok_inv in H as (b & s2 & H2 & H). rewrite contents_eq in H2. simplify_eq.
  apply bind_ok_inv in H as (c & s3 & H3 & H). rewrite contents_eq in H3. simplify_eq.
  destruct (List.find _ draws) as [id'|] eqn:E; [|done]. injection H as -> ->. split; [done|].
  apply find_some in E as [_ E]. apply negb_true_iff, bool_decide_eq_false in E.
  intros m e He <-. apply E. rewrite !omap_app, !elem_of_app.
  destruct m; [left|right; left|right; right]; by eapply records_ids.
Qed.

Lemma newDeviceId_quiet draws : preserves eq (newDeviceId draws).
Proof. unfold newDeviceId, contents, read_files. preserve. Qed.

Definition fresh (d : PairedDevice) (s : Store) : Prop := ∀ m e, e ∈ records_of m s → dv_id e ≠ dv_id d.

(** Asks what the change of a record that is added is, and what follows it. *)
Lemma leads_add {B} op n who secret at_ capabilities fallback draws (f : PairedDevice → R B) s :
  (∀ d s', dv_publicKey d = sp_publicKey who → dv_capabilities d = capabilities → fresh d s →
    wrote n (without_key (sp_publicKey who) (records_of n s) ++ [d]) s s' →
    change op s s' ∧ leads (change op) (f d) s') →
  leads (change op) (add_record n who secret at_ capabilities fallback draws ≫= f) s.
Proof.
  intros Hf. unfold leads, add_record, mbind, M_bind.
  destruct (newDeviceId draws s) as [s1 [id|]] eqn:Eid; cycle 1.
  { pose proof (newDeviceId_quiet draws s) as Hq. rewrite Eid in Hq. cbn in Hq. subst. apply rtc_refl. }
  apply newDeviceId_fresh in Eid as [-> Hfresh]. rewrite readRecords_eq.
  destruct (registry n s) as [c|] eqn:Ec; [|apply rtc_refl]. cbn [mbind result_bind].
  rewrite <- (records_read _ _ _ Ec). unfold mret, result_ret, M_ret. set (d := new_record _ _ _ _ _ _).
  destruct (writeRecords_cases n (without_key (sp_publicKey who) (records_of n s) ++ [d]) s) as [[e ->]|(s' & -> & Hw)];
    [apply rtc_refl|].
  destruct (Hf d s') as [Hc Hl]; [done|done|done|done|]. eapply rtc_l; [exact Hc|exact Hl].
Qed.

Lemma wrote_unspent n ds s s' lookup now secret :
  wrote n ds s s' → unspent lookup now secret s → unspent lookup now secret s'.
Proof. intros Hw. unfold unspent, secrets_of. by rewrite (wrote_secrets _ _ _ _ Hw). Qed.

Lemma wrote_secrets_of n ds s s' : wrote n ds s s' → secrets_of s' = secrets_of s.
Proof. intros Hw. unfold secrets_of. by rewrite (wrote_secrets _ _ _ _ Hw). Qed.

Lemma leads_client {B} c n lookup who now draws draws' secret at_ mine (f : option PairedDevice → R B) s :
  client_registry c = Some n → sc_kind secret = KindSetup → unspent lookup now secret s →
  (∀ o s', unspent lookup now secret s' → secrets_of s' = secrets_of s →
    leads (change (Spend lookup who now draws draws')) (f o) s') →
  leads (change (Spend lookup who now draws draws')) (add_client c n who secret at_ mine ≫= f) s.
Proof.
  intros Hc Hk Hu Hf. unfold add_client. case_bool_decide as Hin; [|by apply Hf].
  apply leads_assoc, leads_add. intros d s' Hd Hcap Hfr Hw. split.
  - eapply change_add; try done. rewrite Hcap. by destruct c; simplify_eq/=; split_and!.
  - apply Hf; [by eapply wrote_unspent|by eapply wrote_secrets_of].
Qed.

Lemma refuse_still l : preserves eq (for_each l (fun n => c ← contents n; refuseNewer (ct_newer c))).
Proof. induction l; cbn [for_each]; unfold contents, read_files, refuseNewer in *; preserve. Qed.

Lemma spend_leads lookup who now draws draws' s :
  leads (change (Spend lookup who now draws draws')) (spendSecret lookup who now draws draws') s.
Proof.
  apply leads_secrets. cbv beta zeta.
  destruct (List.find _ _) as [secret|] eqn:Ef; cycle 1.
  { apply leads_wsecret_then. intros s' Hw. eapply change_forget; [apply list_filter_sublist|exact Hw]. }
  destruct (sc_spentBy secret) eqn:Es.
  { case_decide; [|apply leads_ret]. apply leads_still; [|intros; apply leads_ret].
    unfold readRegistries, readRecords, contents, read_files. preserve. }
  apply find_some in Ef as [Hin Hl]. apply filter_In in Hin as [Hin Hx]. rewrite bool_decide_eq_true in Hl.
  assert (Hu : unspent lookup now secret s) by (repeat split; try done; by apply list_elem_of_In).
  apply leads_still; [unfold iso; preserve|]. intros at_. apply leads_still; [apply refuse_still|].
  intros _. destruct (sc_kind secret) eqn:Ek.
  - apply leads_add. intros d s' Hd Hcap Hfr Hw. split; [by eapply change_add; try done; rewrite Hcap|].
    apply leads_wsecret_then. intros s'' Hs. eapply change_spend; [by eapply wrote_unspent|].
    by rewrite (wrote_secrets_of _ _ _ _ Hw).
  - apply leads_client; [done..|]. intros o s1 Hu1 E1. apply leads_client; [done..|]. intros o' s2 Hu2 E2.
    apply leads_wsecret_then. intros s'' Hs. eapply change_spend; [exact Hu2|]. by rewrite E2, E1.
Qed.

Lemma op_changes op s : rtc (change op) s (run_op op s).
Proof.
  destruct op; cbn [run_op].
  - unfold createPairingToken. apply leads_still; [unfold iso; preserve|]. intros at_.
    destruct (decodeSecret _) as [secret|] eqn:Ed; [|apply leads_throw].
    apply leads_bind; [|intros; apply leads_ret]. apply store_leads. cbn [op_stores]. by rewrite Ed.
  - apply leads_bind; [|intros; apply leads_ret]. by apply store_leads.
  - apply drop_setup_leads.
  - apply spend_leads.
  - apply touch_leads.
  - apply grant_leads.
  - apply push_leads.
  - apply drop_push_leads.
  - unfold renameDevice. destruct (personName name); [apply rename_leads|apply leads_ret].
  - apply revoke_leads.
  - apply rtc_once. by apply change_restart.
Qed.

(** What the types of the code say of the arguments: pairing tokens give no client capabilities, setup tickets only
    those, and a key is the one a handshake authenticated. *)
Definition typed (op : Op) : Prop :=
  match op with
  | CreatePairing _ _ capabilities => CapBuild ∉ capabilities ∧ CapDeviceHost ∉ capabilities
  | StoreSetup _ capabilities _ _ => capabilities ⊆ [CapBuild; CapDeviceHost]
  | Spend _ who _ _ _ => is_key (sp_publicKey who) = true
  | _ => True
  end.

Lemma run_invariant (ok : Op → Prop) (P : Store → Prop) :
  (∀ op s s', ok op → P s → change op s s' → P s') →
  ∀ ops s, Forall ok ops → P s → P (run_ops ops s).
Proof.
  intros Hstep ops. induction ops as [|op ops IH]; intros s Hok HP; [done|].
  apply Forall_cons in Hok as [Hop Hok]. apply IH; [done|].
  revert HP. induction (op_changes op s) as [|s s1 s' Hc _ IHr]; [done|]. intros HP. by eapply IHr, Hstep.
Qed.

(** ** Where records and secrets come from *)

Lemma wrote_in n ds s s' m d :
  wrote n ds s s' → d ∈ records_of m s' →
  (m = n ∧ ∃ e, e ∈ ds ∧ same_access e d) ∨ (m ≠ n ∧ d ∈ records_of m s).
Proof.
  intros Hw Hd. destruct (decide (m = n)) as [->|Hm]; [left|right]; split; try done.
  - rewrite (wrote_records _ _ _ _ Hw) in Hd. apply list_elem_of_omap in Hd as (e & He & Hd).
    exists e. split; [done|]. by apply written_access.
  - unfold records_of in *. by rewrite (wrote_others _ _ _ _ Hw) in Hd.
Qed.

Lemma wrote_secret_records secrets s s' n : wrote_secret secrets s s' → records_of n s' = records_of n s.
Proof. intros Hw. unfold records_of. by rewrite (ws_registries _ _ _ Hw). Qed.

Lemma update_first_in id f l d :
  d ∈ update_first id f l → d ∈ l ∨ ∃ e, e ∈ l ∧ dv_id e = id ∧ d = f e.
Proof.
  induction l as [|e l IH]; cbn; [by left|]. case_decide; rewrite !elem_of_cons.
  - intros [->|Hd]; [right; exists e; rewrite elem_of_cons; auto|auto].
  - intros [->|Hd]; [auto|]. destruct (IH Hd) as [?|(x & ? & ?)]; [auto|]. right. exists x. rewrite elem_of_cons. auto.
Qed.

Lemma parsed_secret v x : parse_secret v = Some x → parse_secret (secret_json x) = Some x.
Proof.
  intros Hp. rewrite secret_written. destruct v; try done. unfold parse_secret in Hp.
  apply bind_Some in Hp as (lookup & Hl & Hp). apply bind_Some in Hp as (psk & Hk & Hp).
  apply bind_Some in Hp as (kind & _ & Hp). apply bind_Some in Hp as (at_ & _ & Hp). injection Hp as <-.
  cbn [sc_lookup sc_psk sc_kind sc_capabilities sc_expiresAt sc_journal sc_spentBy].
  rewrite (text_if_valid _ _ _ Hl), (text_if_valid _ _ _ Hk), capabilities_canonical. cbn [andb]. f_equal. f_equal.
  - apply text_if_read. intros t. apply text_if_valid.
  - apply text_if_read. intros t. apply text_if_valid.
Qed.

(** A secret that is read back as it is. *)
Definition stored (x : SecretRecord) : Prop := parse_secret (secret_json x) = Some x.

Lemma secrets_stored s : Forall stored (secrets_of s).
Proof.
  unfold secrets_of. destruct (secrets_in _) as [l|] eqn:E; [|constructor].
  unfold secrets_in in E. apply result_bind_inv in E as (r & _ & [= <-]).
  apply Forall_forall. intros x Hx. destruct (field_of _ _) as [[]|]; try by apply elem_of_nil in Hx.
  apply list_elem_of_omap in Hx as (v & _ & Hv). by eapply parsed_secret.
Qed.

Lemma omap_stored l : Forall stored l → omap (parse_secret ∘ secret_json) l = l.
Proof. induction 1 as [|x l Hx _ IH]; [done|]. cbn -[parse_secret secret_json]. by rewrite Hx, IH. Qed.

Lemma stored_sublist l s : l `sublist_of` secrets_of s → Forall stored l.
Proof.
  intros Hl. apply Forall_forall. intros x Hx. apply (elem_of_sublist _ (secrets_of s)) in Hx; [|done].
  pose proof (secrets_stored s) as Hs. rewrite Forall_forall in Hs. by apply Hs.
Qed.

Lemma mark_spent_in lookup key l x :
  x ∈ mark_spent lookup key l →
  x ∈ l ∨ ∃ y, y ∈ l ∧ sc_lookup y = lookup ∧ sc_lookup x = lookup ∧ sc_kind x = sc_kind y ∧
    sc_capabilities x = sc_capabilities y ∧ sc_spentBy x = Some key.
Proof.
  induction l as [|y l IH]; cbn; [by left|]. case_decide; rewrite !elem_of_cons.
  - intros [->|Hx]; [right; exists y; rewrite elem_of_cons; split_and!; auto|auto].
  - intros [->|Hx]; [auto|]. destruct (IH Hx) as [?|(z & ? & ?)]; [auto|]. right. exists z. rewrite elem_of_cons. auto.
Qed.

Lemma mark_spent_stored lookup key l : is_key key = true → Forall stored l → Forall stored (mark_spent lookup key l).
Proof.
  intros Hk. induction 1 as [|x l Hx Hl IH]; cbn; [constructor|]. case_decide; constructor; try done.
  unfold stored in *. rewrite secret_written in *. cbn [sc_lookup sc_psk sc_kind sc_capabilities sc_expiresAt sc_journal sc_spentBy].
  destruct (_ && _); [|done]. destruct x as [l1 p1 k1 c1 e1 j1 s1].
  cbn [sc_lookup sc_psk sc_kind sc_capabilities sc_expiresAt sc_journal sc_spentBy] in *.
  revert Hx. generalize (canonical CAPABILITIES c1), (text_if is_journal (JString <$> j1)), (text_if is_key (JString <$> s1)).
  intros a b d [= -> -> _]. cbn [fmap option_fmap option_map]. by rewrite text_if_string, Hk.
Qed.
End Runs.
