(* ===== verification/RegistrySafety.v ===== *)
(** * What the registry keeps safe

    Over any run of operations: which capabilities a registry can hold, whose approval a record has, that a
    revoked client stays out, that a secret lets in one key, and that what this version cannot read is kept. *)

From Stdlib Require Import ZArith Lia.
From S2P Require Import Prelude.
From S2P Require Import Bytes.
From S2P Require Import Json.
From S2P Require Import Noise.
From S2P Require Import NoiseFacts.
From S2P Require Import NoiseSession.
From S2P Require Import Policy.
From S2P Require Import Registry.
From S2P Require Import RegistryFacts.
From S2P Require Import RegistryRuns.
Open Scope Z_scope.

Section Safety.
Context `{LO : !Locale} `{DA : !NodeDate} `{CR : !NodeCrypto}.

(** ** Where a secret comes from *)

Inductive secret_origin (op : Op) (s : Store) (x : SecretRecord) : Prop :=
| secret_kept : x ∈ secrets_of s → secret_origin op s x
| secret_spent lookup who now draws draws' secret y :
    op = Spend lookup who now draws draws' → unspent lookup now secret s → y ∈ secrets_of s →
    sc_lookup y = lookup → sc_lookup x = lookup → sc_kind x = sc_kind y → sc_capabilities x = sc_capabilities y →
    sc_spentBy x = Some (sp_publicKey who) → secret_origin op s x
| secret_new secret kind capabilities :
    op_stores op = Some (secret, kind, capabilities) → op_lookup op = Some (sc_lookup x) → sc_kind x = kind →
    sc_capabilities x ⊆ capabilities → sc_spentBy x = None → secret_origin op s x.

Lemma secrets_after op s s' x : typed op → change op s s' → x ∈ secrets_of s' → secret_origin op s x.
Proof.
  intros Ht Hc. destruct Hc as [id n s s' Hw|op n ds s s' _ Hw|id capabilities s s' _ _ Hw
    |lookup who now draws draws' n secret d s s' _ _ _ _ Hw|lookup who now draws draws' secret s s' Hu Hw
    |op secrets s s' Hsub Hw|op secret kind capabilities values expiresAt kept s s' Ho Hv Hsub _ Hw|op s s' Hf];
    try (rewrite (wrote_secrets_of _ _ _ _ Hw); by constructor).
  - rewrite (ws_secrets _ _ _ Hw), omap_stored; cycle 1.
    { apply mark_spent_stored; [exact Ht|]. eapply stored_sublist, list_filter_sublist. }
    assert (∀ y, y ∈ List.filter (unexpired now) (secrets_of s) → y ∈ secrets_of s) as Hin.
    { intros y Hy. eapply elem_of_sublist; [exact Hy|apply list_filter_sublist]. }
    intros [Hx|(y & Hy & H1 & H2 & H3 & H4 & H5)]%mark_spent_in; [apply secret_kept; by apply Hin|].
    eapply secret_spent; eauto.
  - rewrite (ws_secrets _ _ _ Hw), omap_stored by (by eapply stored_sublist).
    intros Hx. apply secret_kept. by eapply elem_of_sublist.
  - rewrite (ws_secrets _ _ _ Hw), omap_app, elem_of_app, omap_stored by (by eapply stored_sublist).
    intros [Hx|Hx]; [apply secret_kept; by eapply elem_of_sublist|].
    apply list_elem_of_omap in Hx as (y & ->%list_elem_of_singleton & Hx). cbn [compose] in Hx.
    rewrite secret_written in Hx. destruct (_ && _); [|done]. apply (inj Some) in Hx as <-.
    eapply secret_new; [exact Ho|unfold op_lookup; rewrite Ho; cbn; by rewrite Hv|done| |done].
    intros c Hcc. by apply elem_of_canonical in Hcc as [_ Hcc].
  - intros Hx. apply secret_kept. unfold secrets_of in *. by rewrite Hf in Hx.
Qed.

(** ** Where a record comes from *)

Inductive record_origin (op : Op) (s : Store) (n : RegistryName) (d : PairedDevice) : Prop :=
| record_kept e : e ∈ records_of n s → same_access e d → record_origin op s n d
| record_granted e capabilities :
    op = Grant (dv_id d) capabilities → n = Devices → e ∈ records_of n s → dv_id e = dv_id d →
    dv_publicKey e = dv_publicKey d → dv_capabilities d ⊆ capabilities →
    CapBuild ∉ capabilities → CapDeviceHost ∉ capabilities → record_origin op s n d
| record_added lookup who now draws draws' secret capabilities :
    op = Spend lookup who now draws draws' → unspent lookup now secret s → gives secret n capabilities →
    dv_publicKey d = sp_publicKey who → dv_capabilities d ⊆ capabilities → record_origin op s n d.

Lemma records_after op s s' n d : change op s s' → d ∈ records_of n s' → record_origin op s n d.
Proof.
  intros Hc. destruct Hc as [id m s s' Hw|op m ds s s' He Hw|id capabilities s s' Hb Hh Hw
    |lookup who now draws draws' m secret e s s' Hu Hg Hk _ Hw|lookup who now draws draws' secret s s' Hu Hw
    |op secrets s s' Hsub Hw|op secret kind capabilities values expiresAt kept s s' Ho Hv Hsub _ Hw|op s s' Hf];
    try (rewrite (wrote_secret_records _ _ _ _ Hw); intros Hd; by eapply record_kept).
  - intros [[-> (e & He & Ha)]|[_ Hd]]%(wrote_in _ _ _ _ _ _ Hw); [|by eapply record_kept].
    eapply record_kept; [|exact Ha]. eapply elem_of_sublist; [exact He|apply list_filter_sublist].
  - intros [[-> (e & Hin & Ha)]|[_ Hd]]%(wrote_in _ _ _ _ _ _ Hw); [|by eapply record_kept].
    apply list_elem_of_lookup in Hin as [i Hi].
    destruct (Forall2_lookup_r _ _ _ _ _ He Hi) as (e0 & Hi0 & E1 & E2 & E3). destruct Ha as (A1 & A2 & A3).
    eapply record_kept; [by eapply list_elem_of_lookup_2|].
    repeat split; [congruence|congruence|by rewrite <- E3].
  - intros [[-> (e & Hin & A1 & A2 & A3)]|[_ Hd]]%(wrote_in _ _ _ _ _ _ Hw); [|by eapply record_kept].
    apply update_first_in in Hin as [Hin|(e0 & Hin & <- & ->)]; [by eapply record_kept|]. cbn in *.
    eapply record_granted; eauto. by rewrite A1.
  - intros [[-> (e0 & Hin & A1 & A2 & A3)]|[_ Hd]]%(wrote_in _ _ _ _ _ _ Hw); [|by eapply record_kept].
    rewrite elem_of_app, list_elem_of_singleton in Hin. destruct Hin as [Hin| ->].
    + eapply record_kept; [|done]. eapply elem_of_sublist; [exact Hin|apply list_filter_sublist].
    + eapply record_added; [done|exact Hu|exact Hg|congruence|done].
  - intros Hd. eapply record_kept; [|done]. unfold records_of in *. by rewrite Hf in Hd.
Qed.

(** ** Registries apart *)

Definition allowed (n : RegistryName) (c : Capability) : bool :=
  match n, c with
  | Devices, (CapRead | CapControl) | BuildClients, CapBuild | HostClients, CapDeviceHost => true
  | _, _ => false
  end.
Definition secret_allowed (kind : SecretKind) (c : Capability) : bool :=
  match kind with
  | KindPairing => allowed Devices c
  | KindSetup => allowed BuildClients c || allowed HostClients c
  end.

Definition apart (s : Store) : Prop :=
  (∀ n d c, d ∈ records_of n s → c ∈ dv_capabilities d → allowed n c = true) ∧
  (∀ x c, x ∈ secrets_of s → c ∈ sc_capabilities x → secret_allowed (sc_kind x) c = true).

Lemma typed_stores op secret kind capabilities c :
  typed op → op_stores op = Some (secret, kind, capabilities) → c ∈ capabilities → secret_allowed kind c = true.
Proof.
  destruct op; cbn; try done.
  - intros [Hb Hh] H Hc. apply bind_Some in H as (? & _ & H). simplify_eq. by destruct c.
  - intros Hsub H Hc. simplify_eq. apply Hsub in Hc. by destruct c; [set_solver..| |].
Qed.

Lemma apart_change op s s' : typed op → apart s → change op s s' → apart s'.
Proof.
  intros Ht [Hr Hs] Hc. split.
  - intros n d c Hd Hin. destruct (records_after _ _ _ _ _ Hc Hd) as
      [e He (_ & _ & Hsub)|e capabilities _ -> _ _ _ Hsub Hb Hh|lookup who now draws draws' secret capabilities _ Hu Hg _ Hsub].
    + by eapply Hr, Hsub.
    + apply Hsub in Hin. by destruct c.
    + apply Hsub in Hin. destruct Hu as (Hu & _). destruct n; cbn in Hg; destruct_and!; subst.
      * specialize (Hs _ _ Hu Hin). by rewrite H in Hs.
      * apply list_elem_of_singleton in Hin as ->. done.
      * apply list_elem_of_singleton in Hin as ->. done.
  - intros x c Hx Hin. destruct (secrets_after _ _ _ _ Ht Hc Hx) as
      [Hx0|lookup who now draws draws' secret y _ _ Hy _ _ Hk Hcap _|secret kind capabilities Ho _ Hk Hsub _].
    + by eapply Hs.
    + rewrite Hk. rewrite Hcap in Hin. by eapply Hs.
    + subst. by eapply typed_stores, Hsub.
Qed.

(** C6: the registries stay apart, over any sequence of operations, failed writes and restarts: a paired phone never
    has a client capability, a build client never has another one than to build and a device-host client than to use
    devices, whatever names, ids, grants and pushes the operations are asked for; so also are the secrets that
    have not been spent yet. *)
Theorem registries_stay_apart ops s : Forall typed ops → apart s → apart (run_ops ops s).
Proof. apply run_invariant. intros op s1 s2. apply apart_change. Qed.

(** ** What this version cannot read *)

(** From [s] to [s'] the file of [n] keeps its entries that do not parse to a record, in their order, and its other
    members; one that cannot be read, or that a newer version wrote, is not changed. *)
Definition kept (n : RegistryName) (s s' : Store) : Prop :=
  match registry n s with
  | Ok {| ct_slots := slots; ct_others := others; ct_newer := None |} =>
      ∃ slots', registry n s' = Ok {| ct_slots := slots'; ct_others := others; ct_newer := None |} ∧
        unreadable slots' = unreadable slots
  | _ => registry_file n (st_files s') = registry_file n (st_files s)
  end.

Lemma kept_same n s s' : registry_file n (st_files s') = registry_file n (st_files s) → kept n s s'.
Proof.
  intros Hf. unfold kept. assert (registry n s' = registry n s) as Hr by (unfold registry; by rewrite Hf).
  rewrite Hr. destruct (registry n s) as [[slots others []]|]; eauto.
Qed.

Lemma kept_trans n s1 s2 s3 : kept n s1 s2 → kept n s2 s3 → kept n s1 s3.
Proof.
  unfold kept. intros H1 H2. destruct (registry n s1) as [[slots others [v|]]|e] eqn:E1.
  - assert (registry n s2 = registry n s1) as Hr by (unfold registry; by rewrite H1).
    rewrite Hr, E1 in H2. by rewrite H2.
  - destruct H1 as (slots2 & H1 & Hu). rewrite H1 in H2. destruct H2 as (slots3 & H2 & Hu2).
    exists slots3. split; [done|]. by rewrite Hu2.
  - assert (registry n s2 = registry n s1) as Hr by (unfold registry; by rewrite H1).
    rewrite Hr, E1 in H2. by rewrite H2.
Qed.

Lemma kept_wrote n m ds s s' :
  wrote m ds s s' → Forall (fun d => is_key (dv_publicKey d) = true) ds → kept n s s'.
Proof.
  intros Hw Hk. destruct (decide (n = m)) as [->|Hn]; [|by apply kept_same, (wrote_others _ _ _ _ Hw)].
  destruct (wrote_files _ _ _ _ Hw) as ([slots others v] & [slots' others' v'] & H1 & H2 & H3 & H4 & H5 & H6).
  cbn in *. subst. unfold kept. rewrite H1. exists slots'. split; [done|]. by apply H6.
Qed.

Lemma keyed_edited l l' :
  Forall2 edited l l' → Forall (fun d => is_key (dv_publicKey d) = true) l →
  Forall (fun d => is_key (dv_publicKey d) = true) l'.
Proof.
  induction 1 as [|d d' l l' (_ & Hk & _) _ IH]; [done|]. rewrite !Forall_cons. rewrite Hk. naive_solver.
Qed.

Lemma keyed_sublist n s l :
  l `sublist_of` records_of n s → Forall (fun d => is_key (dv_publicKey d) = true) l.
Proof.
  intros Hl. apply Forall_forall. intros d Hd. pose proof (records_keyed n s) as Hk. rewrite Forall_forall in Hk.
  apply Hk. by eapply elem_of_sublist.
Qed.

Lemma kept_change n op s s' : typed op → change op s s' → kept n s s'.
Proof.
  intros Ht Hc. destruct Hc as [id m s s' Hw|op m ds s s' He Hw|id capabilities s s' Hb Hh Hw
    |lookup who now draws draws' m secret e s s' Hu Hg Hk _ Hw|lookup who now draws draws' secret s s' Hu Hw
    |op secrets s s' Hsub Hw|op secret kind capabilities values expiresAt rest s s' Ho Hv Hsub _ Hw|op s s' Hf];
    try (apply kept_same, (ws_registries _ _ _ Hw)).
  - eapply kept_wrote; [exact Hw|]. eapply keyed_sublist, list_filter_sublist.
  - eapply kept_wrote; [exact Hw|]. eapply keyed_edited; [exact He|apply records_keyed].
  - eapply kept_wrote; [exact Hw|]. apply Forall_forall. intros d Hd.
    pose proof (records_keyed Devices s) as Hk. rewrite Forall_forall in Hk.
    apply update_first_in in Hd as [Hd|(e & Hd & _ & ->)]; by apply Hk in Hd.
  - eapply kept_wrote; [exact Hw|]. apply Forall_app. split; [eapply keyed_sublist, list_filter_sublist|].
    apply Forall_singleton. by rewrite Hk.
  - apply kept_same. by rewrite Hf.
Qed.

(** No operation loses what this version cannot read, over any sequence of them: entries of a registry that do not
    parse to a record, written by hand or by another version, stay in their order, as do the file's other members,
    and a file that cannot be read, or that a newer version wrote, stays as it is. *)
Theorem unreadable_kept n ops s : Forall typed ops → kept n s (run_ops ops s).
Proof.
  intros Ht. revert ops s Ht. intros ops s0 Ht. apply (run_invariant typed (kept n s0)); [|done|by apply kept_same].
  intros op s s' Hop Hk Hc. eapply kept_trans; [exact Hk|]. by eapply kept_change.
Qed.

(** ** One key per secret *)

Definition spent_only (lookup key : units) (s : Store) : Prop :=
  ∀ x, x ∈ secrets_of s → sc_lookup x = lookup → sc_spentBy x = Some key.

Lemma spent_only_change lookup key op s s' :
  typed op → op_lookup op ≠ Some lookup → spent_only lookup key s → change op s s' → spent_only lookup key s'.
Proof.
  intros Ht Ho Hs Hc x Hx Hl. destruct (secrets_after _ _ _ _ Ht Hc Hx) as
    [Hx0|l who now draws draws' secret y _ (Hin & Hl' & _ & Hn) _ _ Hl2 _ _ _|secret kind capabilities _ Hl2 _ _ _].
  - by apply Hs.
  - exfalso. assert (sc_lookup secret = lookup) as Hl3 by congruence. rewrite (Hs _ Hin Hl3) in Hn. done.
  - congruence.
Qed.

(** ** Records and secrets are told apart *)

Definition distinct (s : Store) : Prop :=
  NoDup (sc_lookup <$> secrets_of s) ∧
  (∀ n, NoDup (dv_publicKey <$> records_of n s) ∧ NoDup (dv_id <$> records_of n s)) ∧
  (∀ m n d e, d ∈ records_of m s → e ∈ records_of n s → dv_id d = dv_id e → m = n).

Lemma NoDup_sublist {A} (l1 l2 : list A) : l1 `sublist_of` l2 → NoDup l2 → NoDup l1.
Proof. intros Hs Hn. by eapply sublist_NoDup. Qed.

Lemma written_sublist {A} (f : PairedDevice → A) ds :
  (∀ d d', written d = Some d' → f d' = f d) → (f <$> omap written ds) `sublist_of` (f <$> ds).
Proof.
  intros Hf. induction ds as [|d ds IH]; [constructor|]. cbn -[written].
  destruct (written d) as [d'|] eqn:E; cbn; [|by constructor]. rewrite (Hf _ _ E). by constructor.
Qed.

Lemma wrote_NoDup {A} (f : PairedDevice → A) n ds s s' :
  (∀ d d', written d = Some d' → f d' = f d) → wrote n ds s s' → NoDup (f <$> ds) → NoDup (f <$> records_of n s').
Proof.
  intros Hf Hw Hd. rewrite (wrote_records _ _ _ _ Hw). eapply NoDup_sublist; [by apply written_sublist|done].
Qed.

Lemma distinct_wrote n ds s s' :
  distinct s → wrote n ds s s' → NoDup (dv_publicKey <$> ds) → NoDup (dv_id <$> ds) →
  (∀ d, d ∈ ds → (∃ e, e ∈ records_of n s ∧ dv_id e = dv_id d) ∨ fresh d s) → distinct s'.
Proof.
  intros (Hl & Hn & Hx) Hw Hk Hi Hids. split_and!.
  - by rewrite (wrote_secrets_of _ _ _ _ Hw).
  - intros m. destruct (decide (m = n)) as [->|Hm].
    + split; eapply wrote_NoDup; eauto; intros d d' (? & ? & _)%written_access; done.
    + unfold records_of in *. by rewrite (wrote_others _ _ _ _ Hw).
  - intros m m' d e Hd He E.
    apply (wrote_in _ _ _ _ _ _ Hw) in Hd as [[-> (d0 & Hd & A1 & _)]|[Hm Hd]];
      apply (wrote_in _ _ _ _ _ _ Hw) in He as [[-> (e0 & He & B1 & _)]|[Hm' He]]; [done| | |by eapply Hx].
    + destruct (Hids _ Hd) as [(d1 & Hd1 & E1)|Hf]; [|by destruct (Hf _ _ He); congruence].
      eapply Hx; [exact Hd1|exact He|congruence].
    + destruct (Hids _ He) as [(e1 & He1 & E1)|Hf]; [|by destruct (Hf _ _ Hd); congruence].
      eapply Hx; [exact Hd|exact He1|congruence].
Qed.

Lemma distinct_sublist n ds s s' : distinct s → ds `sublist_of` records_of n s → wrote n ds s s' → distinct s'.
Proof.
  intros Ht Hs Hw. pose proof Ht as (_ & Hn & _). destruct (Hn n) as [Hk Hi].
  eapply distinct_wrote; [done|exact Hw| | |].
  - eapply NoDup_sublist; [by apply fmap_sublist|done].
  - eapply NoDup_sublist; [by apply fmap_sublist|done].
  - intros d Hd. left. exists d. split; [by eapply elem_of_sublist|done].
Qed.

(** Records that stand in the places of the old ones, under their ids and keys. *)
Lemma distinct_same n ds s s' :
  distinct s → dv_id <$> ds = dv_id <$> records_of n s → dv_publicKey <$> ds = dv_publicKey <$> records_of n s →
  wrote n ds s s' → distinct s'.
Proof.
  intros Ht Ei Ek Hw. pose proof Ht as (_ & Hn & _). destruct (Hn n) as [Hk Hi].
  eapply distinct_wrote; [done|exact Hw|by rewrite Ek|by rewrite Ei|].
  intros d Hd. left. apply (list_elem_of_fmap_2 dv_id) in Hd. rewrite Ei in Hd.
  apply list_elem_of_fmap in Hd as (e & E & He). by exists e.
Qed.

Lemma edited_fmap l l' :
  Forall2 edited l l' → dv_id <$> l' = dv_id <$> l ∧ dv_publicKey <$> l' = dv_publicKey <$> l.
Proof. induction 1 as [|d d' l l' (? & ? & _) _ [IH1 IH2]]; [done|]. cbn. split; congruence. Qed.

Lemma update_first_fmap {A} (g : PairedDevice → A) id f l :
  (∀ d, g (f d) = g d) → g <$> update_first id f l = g <$> l.
Proof. intros Hf. induction l as [|d l IH]; cbn; [done|]. case_decide; cbn; [by rewrite Hf|by rewrite IH]. Qed.

Lemma mark_spent_lookups lookup key l : sc_lookup <$> mark_spent lookup key l = sc_lookup <$> l.
Proof. induction l as [|x l IH]; cbn; [done|]. case_decide; cbn; [done|by rewrite IH]. Qed.

Lemma distinct_secrets secrets s s' :
  distinct s → wrote_secret secrets s s' → NoDup (sc_lookup <$> omap (parse_secret ∘ secret_json) secrets) → distinct s'.
Proof.
  intros (Hl & Hn & Hx) Hw Hs. split_and!.
  - by rewrite (ws_secrets _ _ _ Hw).
  - intros n. rewrite (wrote_secret_records _ _ _ _ Hw). apply Hn.
  - intros m n d e. rewrite !(wrote_secret_records _ _ _ _ Hw). apply Hx.
Qed.

Lemma distinct_add n who d s s' :
  distinct s → dv_publicKey d = sp_publicKey who → fresh d s →
  wrote n (without_key (sp_publicKey who) (records_of n s) ++ [d]) s s' → distinct s'.
Proof.
  intros Ht Hk Hf Hw. pose proof Ht as (_ & Hn & _). destruct (Hn n) as [Hkeys Hids].
  assert (without_key (sp_publicKey who) (records_of n s) `sublist_of` records_of n s) as Hsub by apply list_filter_sublist.
  eapply distinct_wrote; [done|exact Hw| | |].
  - rewrite fmap_app. apply NoDup_app. split_and!; [by eapply NoDup_sublist; [apply fmap_sublist|]| |apply NoDup_singleton].
    intros k (e & -> & He)%list_elem_of_fmap E%list_elem_of_singleton.
    apply list_elem_of_In, filter_In in He as [_ He]. apply negb_true_iff, bool_decide_eq_false in He. congruence.
  - rewrite fmap_app. apply NoDup_app. split_and!; [by eapply NoDup_sublist; [apply fmap_sublist|]| |apply NoDup_singleton].
    intros k (e & -> & He)%list_elem_of_fmap E%list_elem_of_singleton.
    apply (Hf n e); [by eapply elem_of_sublist|done].
  - intros e He. rewrite elem_of_app, list_elem_of_singleton in He. destruct He as [He| ->]; [left|by right].
    exists e. split; [by eapply elem_of_sublist|done].
Qed.

Lemma distinct_change op s s' : typed op → distinct s → change op s s' → distinct s'.
Proof.
  intros Hop Ht Hc. pose proof Ht as (Hl & _). destruct Hc as [id m s s' Hw|op m ds s s' He Hw|id capabilities s s' Hb Hh Hw
    |lookup who now draws draws' m secret e s s' Hu Hg Hk Hf Hw|lookup who now draws draws' secret s s' Hu Hw
    |op secrets s s' Hsub Hw|op secret kind capabilities values expiresAt rest s s' Ho Hv Hsub Hr Hw|op s s' Hf].
  - eapply distinct_sublist; [done| |exact Hw]. apply list_filter_sublist.
  - apply edited_fmap in He as [E1 E2]. by eapply distinct_same.
  - eapply distinct_same; [done|..|exact Hw]; by apply update_first_fmap.
  - by eapply distinct_add.
  - eapply distinct_secrets; [done|exact Hw|]. rewrite omap_stored, mark_spent_lookups.
    + eapply NoDup_sublist; [apply fmap_sublist, list_filter_sublist|done].
    + apply mark_spent_stored; [exact Hop|]. eapply stored_sublist, list_filter_sublist.
  - eapply distinct_secrets; [done|exact Hw|]. rewrite omap_stored by (by eapply stored_sublist).
    eapply NoDup_sublist; [by apply fmap_sublist|done].
  - eapply distinct_secrets; [done|exact Hw|]. rewrite omap_app, omap_stored, fmap_app by (by eapply stored_sublist).
    apply NoDup_app. split_and!; [by eapply NoDup_sublist; [apply fmap_sublist|]| |].
    + intros l (x & -> & Hx)%list_elem_of_fmap (y & E & Hy)%list_elem_of_fmap. rewrite Forall_forall in Hr.
      apply Hr in Hx. apply list_elem_of_omap in Hy as (z & ->%list_elem_of_singleton & Hy). cbn [compose] in Hy.
      rewrite secret_written in Hy. destruct (_ && _); [|done]. apply (inj Some) in Hy as <-. done.
    + cbn -[parse_secret secret_json]. destruct (parse_secret _); [apply NoDup_singleton|constructor].
  - unfold distinct, secrets_of, records_of in *. by rewrite Hf.
Qed.

(** Over any sequence of operations, failed writes and restarts, no two records of a registry have one key, no two
    records of any registries have one id, and no two secrets one lookup: what the code finds by the first match is
    the only one. *)
Theorem registry_distinct ops s : Forall typed ops → distinct s → distinct (run_ops ops s).
Proof. apply run_invariant. intros op s1 s2. apply distinct_change. Qed.

(** ** Spending *)

Lemma NoDup_fmap_inj {A B} (f : A → B) l x y : NoDup (f <$> l) → x ∈ l → y ∈ l → f x = f y → x = y.
Proof.
  intros Hn [i Hi]%list_elem_of_lookup [j Hj]%list_elem_of_lookup E.
  assert (i = j) as ->; [|congruence].
  eapply NoDup_lookup; [exact Hn| |]; rewrite list_lookup_fmap; [by rewrite Hi|by rewrite Hj, E].
Qed.

Lemma mark_spent_all lookup key l x :
  NoDup (sc_lookup <$> l) → x ∈ mark_spent lookup key l → sc_lookup x = lookup → sc_spentBy x = Some key.
Proof.
  induction l as [|y l IH]; cbn; [by intros _ ?%elem_of_nil|]. intros [Hy Hn]%NoDup_cons.
  case_decide as E; rewrite elem_of_cons; intros [->|Hx] Hl; try done.
  - destruct Hy. rewrite E, <- Hl. by apply list_elem_of_fmap_2.
  - by apply IH.
Qed.

Lemma readSecrets_inv s s' l : readSecrets s = (s', Ok l) → s' = s ∧ l = secrets_of s.
Proof. unfold readSecrets. cbn. intros [= <- H]. split; [done|]. unfold secrets_of. by rewrite H. Qed.

Lemma writeSecrets_inv secrets s s' : writeSecrets secrets s = (s', Ok tt) → wrote_secret secrets s s'.
Proof. destruct (writeSecrets_cases secrets s) as [->|(s1 & -> & Hw)]; intros H; by simplify_eq. Qed.

Lemma still_ok {A} (m : R A) s s' a : preserves eq m → m s = (s', Ok a) → s' = s.
Proof. intros Hm H. specialize (Hm s). by rewrite H in Hm. Qed.

Lemma write_last {A} secrets (a : A) s s' r :
  (_ ← writeSecrets secrets; mret a : R A) s = (s', Ok r) → wrote_secret secrets s s'.
Proof. intros ([] & s1 & H & [= <- <-])%bind_ok_inv. by apply writeSecrets_inv. Qed.

(** A spend that returns records left the secret spent by its key. *)
Lemma spend_marks lookup who now draws draws' s s' r :
  distinct s → is_key (sp_publicKey who) = true → spendSecret lookup who now draws draws' s = (s', Ok (Some r)) →
  spent_only lookup (sp_publicKey who) s'.
Proof.
  intros (Hl & _) Hk H. unfold spendSecret in H.
  apply bind_ok_inv in H as (l & s0 & [-> ->]%readSecrets_inv & H).
  set (live := List.filter (unexpired now) (secrets_of s)) in *.
  assert (∀ s1, wrote_secret (mark_spent lookup (sp_publicKey who) live) s1 s' → spent_only lookup (sp_publicKey who) s') as Hdone.
  { intros s1 Hw x Hx. rewrite (ws_secrets _ _ _ Hw), omap_stored in Hx.
    - eapply mark_spent_all; [|exact Hx]. eapply NoDup_sublist; [apply fmap_sublist, list_filter_sublist|done].
    - apply mark_spent_stored; [done|]. eapply stored_sublist, list_filter_sublist. }
  destruct (List.find _ live) as [secret|] eqn:Ef; [|by apply bind_ok_inv in H as ([] & ? & _ & [=])].
  apply find_some in Ef as [Hin Hx]. apply filter_In in Hin as [Hin _]. apply bool_decide_eq_true in Hx.
  destruct (sc_spentBy secret) eqn:Es.
  - case_decide; [|done]. subst. apply bind_ok_inv in H as (? & s1 & H1 & [= <- _]).
    apply still_ok in H1 as ->; [|unfold readRegistries, readRecords, contents, read_files; preserve].
    intros y Hx' E. rewrite <- Es. f_equal. eapply NoDup_fmap_inj; [exact Hl|done|by apply list_elem_of_In|done].
  - apply bind_ok_inv in H as (at_ & s1 & _ & H). apply bind_ok_inv in H as (? & s2 & _ & H).
    destruct (sc_kind secret).
    + apply bind_ok_inv in H as (? & s3 & _ & H). eapply Hdone, write_last, H.
    + apply bind_ok_inv in H as (? & s3 & _ & H). apply bind_ok_inv in H as (? & s4 & _ & H).
      eapply Hdone, write_last, H.
Qed.

(** A secret that another key spent gives nothing and changes no registry. *)
Lemma spend_refused lookup key who now draws draws' s s' r :
  spent_only lookup key s → sp_publicKey who ≠ key → spendSecret lookup who now draws draws' s = (s', r) →
  (∀ records, r ≠ Ok (Some records)) ∧ ∀ n, registry_file n (st_files s') = registry_file n (st_files s).
Proof.
  intros Hs Hk. unfold spendSecret, mbind at 1, M_bind at 1. destruct (readSecrets s) as [s0 [l|e]] eqn:El.
  2: { unfold readSecrets in El. cbn in El. injection El as <- _. by intros [= <- <-]. }
  apply readSecrets_inv in El as [-> ->]. cbv zeta. destruct (List.find _ _) as [secret|] eqn:Ef.
  - apply find_some in Ef as [Hin Hx]. apply filter_In in Hin as [Hin _]. apply bool_decide_eq_true in Hx.
    rewrite (Hs secret) by (done || by apply list_elem_of_In). rewrite decide_False by done. intros [= <- <-]. done.
  - unfold mbind, M_bind. destruct (writeSecrets_cases (List.filter (unexpired now) (secrets_of s)) s) as
      [->|(s1 & -> & Hw)]; intros [= <- <-]; [done|]. split; [done|]. intros n. apply (ws_registries _ _ _ Hw).
Qed.

(** C10: a pairing token or setup ticket lets in one key. Once a spend returned records to a key, no other key gets any
    by it, nor changes a registry by trying, whatever operations, failed writes and restarts come between, as long as the same
    secret is not stored again. *)
Theorem secret_admits_one_key lookup who now draws draws' s s1 r ops other now' draws2 draws2' s2 r2 :
  distinct s → is_key (sp_publicKey who) = true → spendSecret lookup who now draws draws' s = (s1, Ok (Some r)) →
  Forall typed ops → Forall (fun op => op_lookup op ≠ Some lookup) ops →
  sp_publicKey other ≠ sp_publicKey who →
  spendSecret lookup other now' draws2 draws2' (run_ops ops s1) = (s2, r2) →
  (∀ records, r2 ≠ Ok (Some records)) ∧
  ∀ n, registry_file n (st_files s2) = registry_file n (st_files (run_ops ops s1)).
Proof.
  intros Ht Hk Hs Hty Hst Hne H. eapply spend_refused; [|exact Hne|exact H].
  apply (run_invariant (fun op => typed op ∧ op_lookup op ≠ Some lookup)).
  - intros op s3 s4 [Hop Hop']. by apply spent_only_change.
  - by apply Forall_and.
  - by eapply spend_marks.
Qed.

(** ** Revocation *)

Lemma readRecords_inv n s s' l :
  readRecords n s = (s', Ok l) → s' = s ∧ l = records_of n s.
Proof.
  rewrite readRecords_eq. intros [= <- H]. split; [done|]. destruct (registry n s) as [c|] eqn:E; [|done].
  rewrite (records_read _ _ _ E). injection H as <-. done.
Qed.

Lemma without_id_all id l : length (without_id id l) = length l → ∀ d, d ∈ l → dv_id d ≠ id.
Proof.
  unfold without_id. induction l as [|e l IH]; cbn; [by intros _ d ?%elem_of_nil|].
  pose proof (filter_length_le (fun d => negb (bool_decide (dv_id d = id))) l).
  case_bool_decide as E; cbn; [lia|]. intros [=] d [->|Hd]%elem_of_cons; [done|by apply IH].
Qed.

Lemma without_id_some id l : length (without_id id l) ≠ length l → ∃ d, d ∈ l ∧ dv_id d = id.
Proof.
  intros Hl. unfold without_id in Hl. induction l as [|e l IH]; cbn in *; [done|].
  destruct (decide (dv_id e = id)) as [E|E]; [exists e; split; [left|done]|].
  rewrite bool_decide_eq_false_2 in Hl by done. cbn in Hl. destruct IH as (d & Hd & ?); [lia|].
  exists d. split; [by right|done].
Qed.

Lemma revoke_in_result ns id s s' b :
  revoke_in ns id s = (s', Ok b) →
  if b then ∃ n d, wrote n (without_id id (records_of n s)) s s' ∧ d ∈ records_of n s ∧ dv_id d = id
  else s' = s ∧ ∀ n d, n ∈ ns → d ∈ records_of n s → dv_id d ≠ id.
Proof.
  induction ns as [|n ns IH]; cbn [revoke_in].
  { intros [= <- <-]. split; [done|]. by intros n d ?%elem_of_nil. }
  intros (l & s0 & [-> ->]%readRecords_inv & H)%bind_ok_inv. destruct (_ =? _)%nat eqn:E.
  - apply Nat.eqb_eq in E. pose proof (without_id_all _ _ E) as Hno. apply IH in H. destruct b; [done|].
    destruct H as [-> H]. split; [done|]. intros m d [->|Hm]%elem_of_cons; [apply Hno|by apply H].
  - apply Nat.eqb_neq in E. apply without_id_some in E as (d & Hd & Hid).
    apply bind_ok_inv in H as ([] & s1 & H & [= <- <-]). exists n, d. split_and!; try done.
    destruct (writeRecords_cases n (without_id id (records_of n s)) s) as [[e Hw]|(s2 & Hw & ?)];
      rewrite Hw in H; by simplify_eq.
Qed.

(** The key has no record in the registry. *)
Definition keyless (n : RegistryName) (key : units) (s : Store) : Prop :=
  ∀ d, d ∈ records_of n s → dv_publicKey d ≠ key.

Definition spends_as (key : units) (op : Op) : bool :=
  match op with Spend _ who _ _ _ => bool_decide (sp_publicKey who = key) | _ => false end.

Lemma keyless_change n key op s s' :
  spends_as key op = false → keyless n key s → change op s s' → keyless n key s'.
Proof.
  intros Ho Hs Hc d Hd. destruct (records_after _ _ _ _ _ Hc Hd) as
    [e He (_ & Hk & _)|e capabilities _ _ He _ Hk _ _ _|lookup who now draws draws' secret capabilities -> _ _ Hk _].
  - rewrite Hk. by apply Hs.
  - rewrite <- Hk. by apply Hs.
  - cbn in Ho. apply bool_decide_eq_false in Ho. congruence.
Qed.

(** C9: [revokeDevice] that returns true leaves no record with the id in any registry, and the registry that held it has no
    record of the key it was for until that key spends a secret again, whatever other operations, failed writes and restarts follow; false means no
    registry held it, and changes nothing. *)
Theorem revoked_stays_out id s s' b :
  distinct s → revokeDevice id s = (s', Ok b) →
  (∀ m e, e ∈ records_of m s' → dv_id e ≠ id) ∧
  (b = true → ∃ n d, d ∈ records_of n s ∧ dv_id d = id ∧
     ∀ ops, Forall (fun op => spends_as (dv_publicKey d) op = false) ops → keyless n (dv_publicKey d) (run_ops ops s')) ∧
  (b = false → s' = s).
Proof.
  intros (_ & Hn & Hx) H. apply revoke_in_result in H. destruct b; cycle 1.
  { destruct H as [-> H]. split_and!; try done. intros m e. apply H. destruct m; unfold REGISTRIES; set_solver. }
  destruct H as (n & d & Hw & Hd & <-). split_and!; try done.
  - intros m e He. apply (wrote_in _ _ _ _ _ _ Hw) in He as [[-> (e0 & He & A1 & _)]|[Hm He]].
    + apply list_elem_of_In, filter_In in He as [_ He]. apply negb_true_iff, bool_decide_eq_false in He. congruence.
    + intros E. apply Hm. by eapply Hx.
  - intros _. exists n, d. split_and!; try done. intros ops Ho.
    eapply run_invariant; [intros op s1 s2; apply keyless_change|exact Ho|].
    intros e He. apply (wrote_in _ _ _ _ _ _ Hw) in He as [[_ (e0 & He & _ & A2 & _)]|[? _]]; [|done].
    apply list_elem_of_In, filter_In in He as [He Hne]. apply negb_true_iff, bool_decide_eq_false in Hne.
    intros E. apply Hne. f_equal. destruct (Hn n) as [Hk _].
    eapply NoDup_fmap_inj; [exact Hk|by apply list_elem_of_In|done|congruence].
Qed.

(** ** Approval *)

(** A grant of the operations gave the capability to the record. *)
Definition granted_in (ops : list Op) (n : RegistryName) (id : units) (c : Capability) : Prop :=
  n = Devices ∧ ∃ capabilities, Grant id capabilities ∈ ops ∧ c ∈ capabilities.

(** One of the operations spent [secret] for [key] while nobody had, and the secret is for the registry. *)
Definition spent_in (ops : list Op) (s : Store) (n : RegistryName) (key : units) (secret : SecretRecord) : Prop :=
  ∃ before after lookup who now draws draws' capabilities,
    ops = before ++ Spend lookup who now draws draws' :: after ∧ sp_publicKey who = key ∧
    unspent lookup now secret (run_ops before s) ∧ gives secret n capabilities.

Lemma unspent_back lookup who now draws draws' s s' secret :
  is_key (sp_publicKey who) = true → change (Spend lookup who now draws draws') s s' →
  unspent lookup now secret s' → unspent lookup now secret s.
Proof.
  intros Hk Hc (Hin & Hl & He & Hs). repeat split; try done.
  destruct (secrets_after (Spend lookup who now draws draws') _ _ _ Hk Hc Hin) as
    [Hx|l w t d d' x y _ _ _ _ _ _ _ Hsp|x kind capabilities Ho _ _ _ _]; [done|congruence|done].
Qed.

Lemma gives_in secret n capabilities c : gives secret n capabilities → c ∈ capabilities → c ∈ sc_capabilities secret.
Proof.
  destruct n; cbn; [intros [_ ->]; done|intros (_ & -> & Hc) ->%list_elem_of_singleton; done..].
Qed.

(** Where a record comes from over one operation. *)
Definition traced_op (op : Op) (s : Store) (n : RegistryName) (d : PairedDevice) : Prop :=
  (∃ e, e ∈ records_of n s ∧ dv_id e = dv_id d ∧ dv_publicKey e = dv_publicKey d ∧
     ∀ c, c ∈ dv_capabilities d → c ∈ dv_capabilities e ∨ granted_in [op] n (dv_id d) c) ∨
  (∃ lookup who now draws draws' secret capabilities,
     op = Spend lookup who now draws draws' ∧ sp_publicKey who = dv_publicKey d ∧ unspent lookup now secret s ∧
     gives secret n capabilities ∧ dv_capabilities d ⊆ sc_capabilities secret).

Lemma trace_op op s s' n d :
  typed op → rtc (change op) s s' → d ∈ records_of n s' → traced_op op s n d.
Proof.
  intros Ht Hr. induction Hr as [s|s s1 s' Hc _ IH]; intros Hd.
  { left. exists d. split_and!; auto. }
  destruct (IH Hd) as [(e & He & E1 & E2 & E3)|(lookup & who & now & draws & draws' & secret & capabilities & -> & Hk & Hu & Hg)].
  2: { right. do 7 eexists. split_and!; [done|done| |exact (proj1 Hg)|exact (proj2 Hg)]. by eapply unspent_back. }
  destruct (records_after _ _ _ _ _ Hc He) as
    [e0 He0 (A1 & A2 & A3)|e0 capabilities -> -> He0 A1 A2 A3 _ _
    |lookup who now draws draws' secret capabilities -> Hu Hg Hk Hsub].
  - left. exists e0. split_and!; [done|congruence|congruence|]. intros c Hc'. destruct (E3 c Hc'); auto.
  - left. exists e0. split_and!; [done|congruence|congruence|]. intros c Hc'. right. split; [done|].
    destruct (E3 c Hc') as [Hc2|[_ Hc2]].
    + exists capabilities. rewrite E1, list_elem_of_singleton. auto.
    + rewrite E1 in Hc2. destruct Hc2 as (cs & Hin & ?). rewrite <- E1. by exists cs; rewrite E1.
  - right. do 7 eexists. split_and!; [done|congruence|exact Hu|exact Hg|]. intros c Hc'.
    destruct (E3 c Hc') as [Hc2|(_ & cs & Hin & _)]; [|by apply list_elem_of_singleton in Hin].
    by eapply gives_in, Hsub.
Qed.

(** And over a run. *)
Lemma trace_run ops s n d :
  Forall typed ops → d ∈ records_of n (run_ops ops s) →
  (∃ e, e ∈ records_of n s ∧ dv_publicKey e = dv_publicKey d) ∨
  (∃ secret, spent_in ops s n (dv_publicKey d) secret ∧
     ∀ c, c ∈ dv_capabilities d → c ∈ sc_capabilities secret ∨ granted_in ops n (dv_id d) c).
Proof.
  revert d. induction ops as [|op ops IH] using rev_ind; intros d Ht Hd; [by left; exists d|].
  apply Forall_app in Ht as [Ht Hop]. apply Forall_cons in Hop as [Hop _].
  unfold run_ops in Hd. rewrite fold_left_app in Hd. fold (run_ops ops s) in Hd. cbn [fold_left] in Hd.
  destruct (trace_op _ _ _ _ _ Hop (op_changes op (run_ops ops s)) Hd) as
    [(e & He & E1 & E2 & E3)|(lookup & who & now & draws & draws' & secret & capabilities & -> & Hk & Hu & Hg & Hsub)].
  - destruct (IH e Ht He) as [(e0 & He0 & E0)|(secret & (b & a & l & w & t & r & r' & cs & -> & Hw) & Hs)].
    { left. exists e0. split; [done|congruence]. }
    right. exists secret. split.
    + exists b, (a ++ [op]), l, w, t, r, r', cs. rewrite <- E2, <- app_assoc. done.
    + intros c Hc. destruct (E3 c Hc) as [He'|(-> & caps & Hin & Hcc)].
      * destruct (Hs c He') as [?|(-> & caps & Hin & Hcc)]; [by left|right]. split; [done|].
        exists caps. rewrite <- E1. split; [|done]. rewrite elem_of_app. by left.
      * right. split; [done|]. exists caps. split; [|done]. rewrite elem_of_app. by right.
  - right. exists secret. split; [|by intros c Hc; left; apply Hsub].
    exists ops, [], lookup, who, now, draws, draws', capabilities. done.
Qed.

Definition kr_of (n : RegistryName) (r : KeyRecords) : option PairedDevice :=
  match n with Devices => kr_device r | BuildClients => kr_build r | HostClients => kr_host r end.

Lemma readRegistries_inv s s' r :
  readRegistries s = (s', Ok r) →
  s' = s ∧ rg_devices r = records_of Devices s ∧ rg_build r = records_of BuildClients s ∧
  rg_deviceHost r = records_of HostClients s.
Proof.
  unfold readRegistries.
  intros (a & s1 & [-> ->]%readRecords_inv & H)%bind_ok_inv.
  apply bind_ok_inv in H as (b & s2 & [-> ->]%readRecords_inv & H).
  apply bind_ok_inv in H as (c & s3 & [-> ->]%readRecords_inv & [= <- <-]). done.
Qed.

Lemma records_for_key s s' r key n d :
  readRegistries s = (s', Ok r) → kr_of n (recordsForKey key r) = Some d → d ∈ records_of n s ∧ dv_publicKey d = key.
Proof.
  intros (_ & E1 & E2 & E3)%readRegistries_inv H.
  assert (with_key key (records_of n s) = Some d) as Hf by (destruct n; cbn in H; congruence).
  apply find_some in Hf as [Hin Hk]. rewrite list_elem_of_In. by apply bool_decide_eq_true in Hk.
Qed.

(** C5: a returning client is let in only by approval. If a server that started with no records lets in the key a
    handshake authenticated, then each record it lets it in with is that key's, an earlier operation spent an unspent, unexpired
    secret for that key, and each capability of the record was stored with that secret by the person who made it, or was granted to
    the record since. *)
Theorem client_was_approved ops s lookup name key from now draws draws' s' r :
  (∀ n, records_of n s = []) → Forall typed ops →
  admit_client MODE_RETURNING lookup name key from now draws draws' (run_ops ops s) = (s', Accepted r) →
  s' = run_ops ops s ∧ (∃ n, is_Some (kr_of n r)) ∧
  ∀ n d, kr_of n r = Some d →
    dv_publicKey d = key ∧
    ∃ secret, spent_in ops s n key secret ∧
      ∀ c, c ∈ dv_capabilities d → c ∈ sc_capabilities secret ∨ granted_in ops n (dv_id d) c.
Proof.
  intros He Ht H. cbn [admit_client] in H.
  destruct (readRegistries (run_ops ops s)) as [s1 [rs|]] eqn:Er; [|done].
  unfold admit_records in H. destruct (no_records _) eqn:En; [done|]. injection H as <- <-.
  split_and!; [by apply readRegistries_inv in Er as [-> _]| |].
  - unfold no_records in En. destruct (recordsForKey key rs) as [[d|] [b|] [h|]]; try done;
      first [by exists Devices|by exists BuildClients|by exists HostClients].
  - intros n d Hd. destruct (records_for_key _ _ _ _ _ _ Er Hd) as [Hin <-]. split; [done|].
    destruct (trace_run _ _ _ _ Ht Hin) as [(e & Hin' & _)|Hs]; [|done]. rewrite He in Hin'. by apply elem_of_nil in Hin'.
Qed.
End Safety.

(** ** A run: a phone pairs, a machine is set up, a grant, a repeat, a revocation *)

Module Sample.
#[global] Instance locale : Locale := {| validTimeZone _ := true; is_format _ := false |}.
#[global] Instance dates : NodeDate := {|
  Date_parse s := match s with [65; t] => Some t | _ => None end;
  toISOString t := Some [65; t];
|}.

Definition phone : units := replicate 43 97.
Definition machine : units := replicate 43 98.
Definition as_key (key : units) : Spender := {| sp_publicKey := key; sp_name := js " My  phone "; sp_from := js "tailnet" |}.
Definition ticket : bytes := replicate 32 x07.
Definition pair_op : Op := CreatePairing (replicate 32 x05) 0 [CapRead].
Definition setup_op : Op := StoreSetup ticket [CapBuild; CapDeviceHost] [65; 900] 0.
Definition token_lookup : units := default [] (op_lookup pair_op).
Definition ticket_lookup : units := default [] (op_lookup setup_op).
Definition spend_token (key : units) : Op := Spend token_lookup (as_key key) 1 [js "01"] [].
Definition spend_ticket (key : units) : Op := Spend ticket_lookup (as_key key) 1 [js "01"; js "02"] [js "02"; js "03"].
Definition grant_op : Op := Grant (js "01") [CapRead; CapControl].

(** [devices.json] with an entry this version cannot read and another member; the rest missing. *)
Definition odd_entry : json := JObject [(js "id", JNumber 7)].
Definition start : Store :=
  {| st_files := {| fl_devices := FileText (Some (JObject
                      [(js "version", JNumber 2); (js "note", JNull); (js "devices", JArray [odd_entry])]));
                    fl_build := FileMissing; fl_host := FileMissing; fl_secrets := FileMissing |};
     st_writes := 40 |}.
Definition ops : list Op := [pair_op; setup_op; spend_token phone; grant_op; spend_ticket machine].

Lemma ops_typed : Forall typed ops.
Proof. unfold ops. repeat (apply Forall_cons_2; [first [vm_compute; reflexivity|cbn; set_solver]|]). constructor. Qed.

Lemma start_records n : records_of n start = [].
Proof. by destruct n. Qed.

Lemma start_distinct : distinct start.
Proof.
  split_and!; [constructor| |].
  - intros n. rewrite start_records. split; constructor.
  - intros m n d e. rewrite !start_records. by intros ?%elem_of_nil.
Qed.

Lemma start_apart : apart start.
Proof. split; [intros n d c; rewrite start_records; by intros ?%elem_of_nil|by intros x c ?%elem_of_nil]. Qed.

Lemma registries_stay_apart_witness :
  apart (run_ops ops start) ∧ map dv_capabilities (records_of Devices (run_ops ops start)) = [[CapRead; CapControl]].
Proof.
  split; [apply (registries_stay_apart ops start ops_typed start_apart)|vm_compute; reflexivity].
Defined.

Lemma unreadable_kept_witness : kept Devices start (run_ops ops start) ∧
  match registry Devices (run_ops ops start) with Ok c => unreadable (ct_slots c) | Throw _ => [] end = [odd_entry].
Proof. split; [apply (unreadable_kept Devices ops start ops_typed)|vm_compute; reflexivity]. Defined.

Lemma registry_distinct_witness : distinct (run_ops ops start) ∧
  map dv_id (records_of HostClients (run_ops ops start)) = [js "03"].
Proof. split; [apply (registry_distinct ops start ops_typed start_distinct)|vm_compute; reflexivity]. Defined.

Lemma run_distinct l : Forall typed l → distinct (run_ops l start).
Proof. intros Hl. eapply run_invariant; [intros op s1 s2; apply distinct_change|exact Hl|apply start_distinct]. Qed.

Definition paired : Store := run_ops [pair_op] start.

Lemma paired_distinct : distinct paired.
Proof. apply run_distinct. repeat constructor; cbn; set_solver. Qed.

Lemma secret_admits_one_key_witness :
  let s1 := fst (spendSecret token_lookup (as_key phone) 1 [js "01"; js "02"] [] paired) in
  let attempt := spendSecret token_lookup (as_key machine) 2 [js "01"; js "02"] [] (run_ops [Restart 5] s1) in
  (∀ records, snd attempt ≠ Ok (Some records)) ∧
  ∀ n, registry_file n (st_files (fst attempt)) = registry_file n (st_files (run_ops [Restart 5] s1)).
Proof.
  intros s1 attempt.
  eapply (secret_admits_one_key token_lookup (as_key phone) 1 [js "01"; js "02"] [] paired s1 _ [Restart 5]
    (as_key machine) 2 [js "01"; js "02"] [] (fst attempt) (snd attempt)).
  - exact paired_distinct.
  - vm_compute. reflexivity.
  - vm_compute. reflexivity.
  - repeat constructor.
  - repeat constructor. vm_compute. discriminate.
  - refine (bool_decide_eq_false_1 (machine = phone) _). reflexivity.
  - exact (surjective_pairing attempt).
Defined.

Definition running : Store := run_ops ops start.

Lemma phone_revoked : snd (revokeDevice (js "01") running) = Ok true.
Proof. vm_compute. reflexivity. Qed.

Lemma revoked_stays_out_witness :
  let '(s', r) := revokeDevice (js "01") running in
  r = Ok true ∧ ∀ m e, e ∈ records_of m s' → dv_id e ≠ js "01".
Proof.
  destruct (revokeDevice (js "01") running) as [s' r] eqn:E.
  pose proof phone_revoked as Hr. rewrite E in Hr. cbn in Hr. subst. split; [done|].
  apply (revoked_stays_out (js "01") running s' true (run_distinct ops ops_typed) E).
Defined.

Lemma machine_accepted :
  match snd (admit_client MODE_RETURNING [] None machine (js "tailnet") 2 [] [] (run_ops ops start)) with
  | Accepted _ => True
  | _ => False
  end.
Proof. vm_compute. exact I. Qed.

Lemma client_was_approved_witness :
  match admit_client MODE_RETURNING [] None machine (js "tailnet") 2 [] [] (run_ops ops start) with
  | (s', Accepted r) =>
      s' = run_ops ops start ∧ (∃ n, is_Some (kr_of n r)) ∧
      ∀ n d, kr_of n r = Some d → dv_publicKey d = machine ∧
        ∃ secret, spent_in ops start n machine secret ∧
          ∀ c, c ∈ dv_capabilities d → c ∈ sc_capabilities secret ∨ granted_in ops n (dv_id d) c
  | _ => False
  end.
Proof.
  destruct (admit_client MODE_RETURNING [] None machine (js "tailnet") 2 [] [] (run_ops ops start)) as [s' a] eqn:E.
  pose proof machine_accepted as Ha. rewrite E in Ha. destruct a as [r|code|e]; [|done..].
  apply (client_was_approved ops start [] None machine (js "tailnet") 2 [] [] s' r start_records ops_typed E).
Defined.
End Sample.
