(* ===== verification/JsonSpans.v ===== *)
(** * Where values are in a JSON text: [packages/server/src/json-spans.ts]

    The registry copies entries that it cannot read as the text they have in the file; these functions find
    that text. A loop that never ends, which a text that is not JSON may cause, runs out of fuel; the fuel of a loop is the length of the text. *)

From Stdlib Require Import ZArith Lia.
From S2P Require Import Prelude.
From S2P Require Import Bytes.
From S2P Require Import Json.
Open Scope Z_scope.

(** [SPACE] and [VALUE_END]. *)
Definition SPACE (u : Z) : bool := (u =? 32) || (u =? 9) || (u =? 10) || (u =? 13).
Definition VALUE_END (u : Z) : bool := SPACE u || (u =? 44) || (u =? 93) || (u =? 125).

Definition is_open (u : Z) : bool := (u =? 123) || (u =? 91).
Definition is_close (u : Z) : bool := (u =? 125) || (u =? 93).

Inductive scan_error := OutOfFuel | BadKey.
Abbreviation scan := (result scan_error).

(** [while (index < text.length && p(text.charAt(index))) index++]. *)
Fixpoint skip_while (fuel : nat) (p : Z → bool) (text : units) (index : nat) : nat :=
  match fuel with
  | O => index
  | S fuel =>
      match text !! index with
      | Some u => if p u then skip_while fuel p text (S index) else index
      | None => index
      end
  end.

Definition skipSpace (text : units) (from : nat) : nat := skip_while (length text) SPACE text from.

(** The loop over a string, past its first quote: the index of the last one. *)
Fixpoint skip_string (fuel : nat) (text : units) (index : nat) : scan nat :=
  match fuel with
  | O => Throw OutOfFuel
  | S fuel =>
      match text !! index with
      | Some 34 => mret index
      | Some 92 => skip_string fuel text (index + 2)
      | _ => skip_string fuel text (index + 1)
      end
  end.

(** The loop over an object or an array. *)
Fixpoint skip_nested (fuel : nat) (text : units) (index : nat) (depth : Z) : scan nat :=
  match fuel with
  | O => Throw OutOfFuel
  | S fuel =>
      match text !! index with
      | Some 34 => last ← skip_string (length text) text (index + 1); skip_nested fuel text (last + 1) depth
      | Some u =>
          if is_open u then skip_nested fuel text (index + 1) (depth + 1)
          else if is_close u then
            if depth - 1 =? 0 then mret (index + 1)%nat else skip_nested fuel text (index + 1) (depth - 1)
          else skip_nested fuel text (index + 1) depth
      | None => skip_nested fuel text (index + 1) depth
      end
  end.

Definition skipValue (text : units) (from : nat) : scan nat :=
  match text !! from with
  | Some 34 => last ← skip_string (length text) text (from + 1); mret (last + 1)%nat
  | Some u =>
      if is_open u then skip_nested (length text) text from 0
      else mret (skip_while (length text) (fun u => negb (VALUE_END u)) text from)
  | None => mret (skip_while (length text) (fun u => negb (VALUE_END u)) text from)
  end.

(** [text.slice(start, end)]. *)
Definition slice (text : units) (start end_ : nat) : units := take (end_ - start) (drop start text).

(** What [visit] is called with; no key in an array. *)
Record MemberSpan := { ms_key : option json; ms_start : nat; ms_end : nat; ms_member : nat }.

Section Spans.
Context `{!NodeText}.

(** The key of a member, and the index of its value. *)
Definition member_key (text : units) (index : nat) : scan (json * nat) :=
  keyEnd ← skipValue text index;
  match JSON_parse (slice text index keyEnd) with
  | None => Throw BadKey
  | Some key => mret (key, skipSpace text (skipSpace text keyEnd + 1))
  end.

Fixpoint each_member (fuel : nat) (object : bool) (text : units) (index : nat) : scan (list MemberSpan) :=
  match fuel with
  | O => Throw OutOfFuel
  | S fuel =>
      let index := skipSpace text index in
      match text !! index with
      | Some 125 | Some 93 => mret []
      | _ =>
          '(key, start) ← (if object then '(key, start) ← member_key text index; mret (Some key, start)
                           else mret (None, index));
          end_ ← skipValue text start;
          let after := skipSpace text end_ in
          rest ← each_member fuel object text (match text !! after with Some 44 => (after + 1)%nat | _ => after end);
          mret ({| ms_key := key; ms_start := start; ms_end := end_; ms_member := index |} :: rest)
      end
  end.

Definition eachMember (text : units) (from : nat) : scan (list MemberSpan) :=
  each_member (length text) (bool_decide (text !! from = Some 123)) text (from + 1).

Definition key_is (member : units) (key : option json) : bool :=
  match key with Some (JString k) => bool_decide (k = member) | _ => false end.

Definition arrayElementSpans (text member : units) : scan (option (list (nat * nat))) :=
  visited ← eachMember text (skipSpace text 0);
  match last (List.filter (fun m => key_is member (ms_key m)) visited) with
  | None => mret None
  | Some array =>
      if decide (text !! ms_start array = Some 91) then
        elements ← eachMember text (ms_start array);
        mret (Some (map (fun m => (ms_start m, ms_end m)) elements))
      else mret None
  end.

Definition otherMembers (text : units) (omit : list units) : scan (list units) :=
  visited ← eachMember text (skipSpace text 0);
  mret (map (fun m => slice text (ms_member m) (ms_end m))
    (List.filter (fun m => negb (existsb (fun o => key_is o (ms_key m)) omit)) visited)).
End Spans.
