(* ===== verification/JsonSpansFacts.v ===== *)
(** * Where values are in a JSON text

    The grammar of JSON texts, with their white space, and what the scanner finds in them. *)

From Stdlib Require Import ZArith Lia.
From S2P Require Import Prelude.
From S2P Require Import Bytes.
From S2P Require Import Json.
From S2P Require Import JsonSpans.
Open Scope Z_scope.

(** ** Texts

    A text as a tree that keeps its white space. A string is what is between its quotes; a scalar is a number,
    [true], [false] or [null]. *)

Record Key := { ky_before : units; ky_body : units; ky_colon : units; ky_value : units }.

#[warnings="-register-all"] Inductive cst :=
| CScalar (t : units)
| CString (body : units)
| CArray (space : units) (items : list (units * cst * units))
| CObject (space : units) (members : list (Key * cst * units)).

Definition quoted (body : units) : units := 34 :: body ++ [34].
Definition key_text (k : Key) : units := quoted (ky_body k) ++ ky_colon k ++ [58] ++ ky_value k.

Definition list_text (space : units) (parts : list units) : units :=
  match parts with [] => space | _ => join_with [44] parts end.

Fixpoint render (c : cst) : units :=
  match c with
  | CScalar t => t
  | CString body => quoted body
  | CArray space items =>
      91 :: list_text space (map (fun '(before, item, after) => before ++ render item ++ after) items) ++ [93]
  | CObject space members =>
      123 :: list_text space (map (fun '(k, item, after) => ky_before k ++ key_text k ++ render item ++ after) members)
        ++ [125]
  end.

Definition spaces (s : units) : bool := forallb SPACE s.
Definition plain (u : Z) : bool := negb (u =? 34) && negb (is_open u) && negb (is_close u).

(** What is between the quotes of a string: no quote but behind a backslash. *)
Fixpoint string_body (s : units) : bool :=
  match s with
  | [] => true
  | 34 :: _ => false
  | 92 :: s => match s with [] => false | _ :: s => string_body s end
  | _ :: s => string_body s
  end.

Definition key_wf (k : Key) : bool :=
  spaces (ky_before k) && string_body (ky_body k) && spaces (ky_colon k) && spaces (ky_value k).

Fixpoint wf (c : cst) : bool :=
  match c with
  | CScalar t => negb (bool_decide (t = [])) && forallb (fun u => plain u && negb (VALUE_END u)) t
  | CString body => string_body body
  | CArray space items =>
      spaces space && forallb (fun '(before, item, after) => spaces before && wf item && spaces after) items
  | CObject space members =>
      spaces space && forallb (fun '(k, item, after) => key_wf k && wf item && spaces after) members
  end.

Section Induction.
Variable P : cst → Prop.
Hypothesis Hscalar : ∀ t, P (CScalar t).
Hypothesis Hstring : ∀ body, P (CString body).
Hypothesis Harray : ∀ space items, Forall (fun i => P (snd (fst i))) items → P (CArray space items).
Hypothesis Hobject : ∀ space members, Forall (fun m => P (snd (fst m))) members → P (CObject space members).

Fixpoint cst_nested_ind (c : cst) : P c :=
  match c with
  | CScalar t => Hscalar t
  | CString body => Hstring body
  | CArray space items =>
      Harray space items ((fix go l := match l return Forall (fun i => P (snd (fst i))) l with
                                       | [] => Forall_nil_2 _
                                       | (b, i, a) :: l => Forall_cons_2 _ (b, i, a) _ (cst_nested_ind i) (go l)
                                       end) items)
  | CObject space members =>
      Hobject space members ((fix go l := match l return Forall (fun m => P (snd (fst m))) l with
                                          | [] => Forall_nil_2 _
                                          | (b, i, a) :: l => Forall_cons_2 _ (b, i, a) _ (cst_nested_ind i) (go l)
                                          end) members)
  end.
End Induction.

(** ** Reading at an index *)

Lemma lookup_mid (pre : units) u post : (pre ++ u :: post) !! length pre = Some u.
Proof. by rewrite lookup_app_r, Nat.sub_diag by lia. Qed.

Lemma snoc_mid (pre : units) u post : pre ++ u :: post = (pre ++ [u]) ++ post.
Proof. by rewrite <- app_assoc. Qed.

Lemma length_snoc (pre : units) u : length (pre ++ [u]) = (length pre + 1)%nat.
Proof. rewrite length_app. cbn. lia. Qed.

Lemma skip_while_over fuel p pre mid post :
  forallb p mid = true → (∀ u, head post = Some u → p u = false) → (length mid <= fuel)%nat →
  skip_while fuel p (pre ++ mid ++ post) (length pre) = (length pre + length mid)%nat.
Proof.
  revert fuel pre. induction mid as [|u mid IH]; intros fuel pre Hm Hp Hf.
  - destruct fuel as [|fuel]; cbn [skip_while app length]; [lia|].
    destruct post as [|v post]; [rewrite lookup_ge_None_2 by (rewrite app_nil_r; lia)|rewrite lookup_mid, (Hp v) by done]; lia.
  - destruct fuel as [|fuel]; cbn in Hf; [lia|]. cbn [skip_while app length].
    cbn in Hm. apply andb_prop in Hm as [Hu Hm]. rewrite lookup_mid, Hu.
    rewrite snoc_mid. replace (S (length pre)) with (length (pre ++ [u])) by (rewrite length_snoc; lia).
    rewrite IH by (done || lia). rewrite length_snoc. lia.
Qed.

(** White space up to what is not. *)
Lemma skipSpace_over pre mid post :
  spaces mid = true → (∀ u, head post = Some u → SPACE u = false) →
  skipSpace (pre ++ mid ++ post) (length pre) = (length pre + length mid)%nat.
Proof. intros Hm Hp. apply skip_while_over; [done|done|]. rewrite !length_app. lia. Qed.

Lemma skip_string_over n fuel pre body post :
  (length body <= n)%nat → string_body body = true → (n < fuel)%nat →
  skip_string fuel (pre ++ body ++ 34 :: post) (length pre) = Ok (length pre + length body)%nat.
Proof.
  revert fuel pre body. induction n as [|n IH]; intros fuel pre body Hn Hb Hf;
    (destruct fuel as [|fuel]; [lia|]); cbn [skip_string].
  - destruct body; [|cbn in Hn; lia]. cbn [app]. rewrite lookup_mid. cbn. f_equal. lia.
  - destruct body as [|u body]; [cbn [app]; rewrite lookup_mid; cbn; f_equal; lia|]. cbn [app]. rewrite lookup_mid.
    destruct (decide (u = 92)) as [->|H92].
    + destruct body as [|v body]; [done|]. cbn [app]. rewrite (snoc_mid pre 92), (snoc_mid (pre ++ [92]) v).
      replace (length pre + 2)%nat with (length ((pre ++ [92]) ++ [v])) by (rewrite !length_snoc; lia).
      cbn in Hn, Hb. rewrite IH by (done || lia). rewrite !length_snoc. cbn. f_equal. lia.
    + destruct (decide (u = 34)) as [->|H34]; [done|]. rewrite (snoc_mid pre u).
      assert (string_body body = true) as Hb'.
      { cbn in Hb. repeat (case_match; simplify_eq; try done). }
      replace (match u with 34 => mret (length pre) | 92 => _ | _ => _ end) with
        (skip_string fuel ((pre ++ [u]) ++ body ++ 34 :: post) (length pre + 1))
        by (repeat (case_match; simplify_eq; try done)).
      rewrite <- length_snoc with (u := u). cbn in Hn. rewrite IH by (done || lia). rewrite length_snoc. cbn. f_equal. lia.
Qed.

(** ** Objects and arrays *)

(** Inside brackets, the scanner gets over [t] in as many turns as it has characters at most, at the same depth. *)
Definition passes (t : units) : Prop := ∀ pre post depth, 1 <= depth →
  ∃ turns, (turns <= length t)%nat ∧ ∀ fuel,
    skip_nested (turns + fuel) (pre ++ t ++ post) (length pre) depth
    = skip_nested fuel (pre ++ t ++ post) (length pre + length t) depth.

Lemma passes_nil : passes [].
Proof. intros pre post depth _. exists 0%nat. split; [done|]. intros fuel. by rewrite Nat.add_0_r. Qed.

Lemma passes_app a b : passes a → passes b → passes (a ++ b).
Proof.
  intros Ha Hb pre post depth Hd.
  destruct (Ha pre (b ++ post) depth Hd) as (n & Hn & En). destruct (Hb (pre ++ a) post depth Hd) as (m & Hm & Em).
  exists (n + m)%nat. rewrite length_app. split; [lia|]. intros fuel.
  rewrite <- app_assoc, <- Nat.add_assoc, En. rewrite <- app_assoc, length_app in Em. rewrite Em. f_equal. lia.
Qed.

Lemma passes_plain u : plain u = true → passes [u].
Proof.
  intros Hu pre post depth _. exists 1%nat. split; [done|]. intros fuel. cbn [skip_nested Nat.add app length].
  rewrite lookup_mid. unfold plain in Hu. apply andb_prop in Hu as [Hu Hc]. apply andb_prop in Hu as [Hq Ho].
  apply negb_true_iff in Hc, Ho. rewrite Hc, Ho. apply negb_true_iff, Z.eqb_neq in Hq.
  repeat (case_match; simplify_eq; try done).
Qed.

Lemma passes_all t : forallb plain t = true → passes t.
Proof.
  induction t as [|u t IH]; [intros _; apply passes_nil|]. intros [Hu Ht]%andb_prop.
  change (u :: t) with ([u] ++ t). apply passes_app; [by apply passes_plain|by apply IH].
Qed.

Lemma passes_string body : string_body body = true → passes (quoted body).
Proof.
  intros Hb pre post depth _. exists 1%nat. unfold quoted. rewrite !length_cons, length_app. split; [cbn; lia|].
  intros fuel. cbn [Nat.add skip_nested app]. rewrite lookup_mid. rewrite <- app_assoc. cbn [app].
  rewrite (snoc_mid pre 34), <- length_snoc with (u := 34).
  rewrite (skip_string_over (length body)) by (done || rewrite !length_app; cbn; lia).
  cbn [mbind result_bind]. rewrite length_snoc. cbn [length]. f_equal. lia.
Qed.

Lemma nested_open fuel pre o post depth : is_open o = true →
  skip_nested (S fuel) (pre ++ o :: post) (length pre) depth
  = skip_nested fuel (pre ++ o :: post) (length pre + 1) (depth + 1).
Proof. intros [ ->%Z.eqb_eq | ->%Z.eqb_eq ]%orb_prop; cbn [skip_nested]; by rewrite lookup_mid. Qed.

Lemma nested_close fuel pre c post depth : is_close c = true →
  skip_nested (S fuel) (pre ++ c :: post) (length pre) depth
  = if depth - 1 =? 0 then Ok (length pre + 1)%nat
    else skip_nested fuel (pre ++ c :: post) (length pre + 1) (depth - 1).
Proof. intros [ ->%Z.eqb_eq | ->%Z.eqb_eq ]%orb_prop; cbn [skip_nested]; by rewrite lookup_mid. Qed.

(** From one bracket, over what is inside, to the other. *)
Lemma nested_bracket o t c pre post depth :
  is_open o = true → is_close c = true → passes t → 0 <= depth →
  ∃ turns, (turns <= length t)%nat ∧ ∀ fuel,
    skip_nested (S (turns + S fuel)) (pre ++ (o :: t ++ [c]) ++ post) (length pre) depth
    = if depth =? 0 then Ok (length pre + length (o :: t ++ [c]))%nat
      else skip_nested fuel (pre ++ (o :: t ++ [c]) ++ post) (length pre + length (o :: t ++ [c])) depth.
Proof.
  intros Ho Hc Ht Hd. destruct (Ht (pre ++ [o]) (c :: post) (depth + 1)) as (n & Hn & En); [lia|].
  exists n. split; [done|]. intros fuel. cbn [app]. rewrite nested_open by done.
  rewrite <- app_assoc. cbn [app]. rewrite (snoc_mid pre o), <- length_snoc with (u := o), En.
  rewrite (app_assoc _ t), <- length_app, nested_close by done.
  replace (depth + 1 - 1) with depth by lia. rewrite !length_app. cbn [length]. rewrite length_app. cbn [length].
  replace (length pre + 1 + length t + 1)%nat with (length pre + S (length t + 1))%nat by lia. done.
Qed.

Lemma passes_bracket o t c :
  is_open o = true → is_close c = true → passes t → passes (o :: t ++ [c]).
Proof.
  intros Ho Hc Ht pre post depth Hd.
  destruct (nested_bracket o t c pre post depth Ho Hc Ht) as (n & Hn & En); [lia|].
  exists (S (n + 1)). split; [cbn; rewrite length_app; cbn; lia|]. intros fuel.
  replace (S (n + 1) + fuel)%nat with (S (n + S fuel)) by lia. rewrite En.
  by replace (depth =? 0) with false by lia.
Qed.

Lemma spaces_plain s : spaces s = true → forallb plain s = true.
Proof.
  unfold spaces. rewrite !forallb_forall. intros H u Hu. specialize (H u Hu).
  unfold SPACE, plain, is_open, is_close in *. lia.
Qed.

Lemma passes_spaces s : spaces s = true → passes s.
Proof. intros H. by apply passes_all, spaces_plain. Qed.

Lemma passes_join parts : Forall passes parts → passes (join_with [44] parts).
Proof.
  induction 1 as [|t parts Ht Hp IH]; [apply passes_nil|]. destruct parts as [|t' parts]; [done|].
  change (passes (t ++ [44] ++ join_with [44] (t' :: parts))). apply passes_app; [done|].
  apply passes_app; [by apply passes_plain|done].
Qed.

Lemma passes_list space parts : spaces space = true → Forall passes parts → passes (list_text space parts).
Proof. intros Hs Hp. destruct parts; [by apply passes_spaces|by apply passes_join]. Qed.

Lemma passes_key k : key_wf k = true → passes (ky_before k) ∧ passes (key_text k).
Proof.
  unfold key_wf. intros [[[H1 H2]%andb_prop H3]%andb_prop H4]%andb_prop. split; [by apply passes_spaces|].
  unfold key_text. repeat apply passes_app; [by apply passes_string|by apply passes_spaces|by apply passes_plain|by apply passes_spaces].
Qed.

Definition item_text (i : units * cst * units) : units := let '(before, item, after) := i in before ++ render item ++ after.
Definition member_text (m : Key * cst * units) : units :=
  let '(k, item, after) := m in ky_before k ++ key_text k ++ render item ++ after.

Lemma passes_items space items :
  wf (CArray space items) = true → Forall (fun i => wf (snd (fst i)) = true → passes (render (snd (fst i)))) items →
  passes (list_text space (map item_text items)).
Proof.
  cbn [wf]. intros [Hs Hw]%andb_prop IH. apply passes_list; [done|].
  rewrite forallb_forall in Hw. apply Forall_fmap, Forall_forall. intros [[b i] a] Hin. cbv beta iota.
  rewrite Forall_forall in IH. specialize (IH _ Hin). apply list_elem_of_In, Hw in Hin.
  apply andb_prop in Hin as [[Hb Hi]%andb_prop Ha].
  repeat apply passes_app; [by apply passes_spaces|by apply IH|by apply passes_spaces].
Qed.

Lemma passes_members space members :
  wf (CObject space members) = true → Forall (fun m => wf (snd (fst m)) = true → passes (render (snd (fst m)))) members →
  passes (list_text space (map member_text members)).
Proof.
  cbn [wf]. intros [Hs Hw]%andb_prop IH. apply passes_list; [done|].
  rewrite forallb_forall in Hw. apply Forall_fmap, Forall_forall. intros [[k i] a] Hin. cbv beta iota.
  rewrite Forall_forall in IH. specialize (IH _ Hin). apply list_elem_of_In, Hw in Hin.
  apply andb_prop in Hin as [[[Hk1 Hk2]%passes_key Hi]%andb_prop Ha].
  apply passes_app; [done|]. apply passes_app; [done|]. apply passes_app; [by apply IH|by apply passes_spaces].
Qed.

Lemma passes_render c : wf c = true → passes (render c).
Proof.
  induction c as [t|body|space items IH|space members IH] using cst_nested_ind; intros Hw.
  - cbn in Hw. apply andb_prop in Hw as [_ Hw]. apply passes_all. rewrite !forallb_forall in *. intros u Hu.
    by apply Hw, andb_prop in Hu as [? _].
  - by apply passes_string.
  - apply (passes_bracket 91); [done|done|]. by apply passes_items.
  - apply (passes_bracket 123); [done|done|]. by apply passes_members.
Qed.

(** ** A value *)

(** What may come after a scalar: the end of the text, or a character that ends a value. *)
Definition ends (post : units) : Prop := ∀ u, head post = Some u → VALUE_END u = true.

Lemma head_render c : wf c = true → ∃ u rest, render c = u :: rest ∧ VALUE_END u = false.
Proof.
  destruct c as [t|body|space items|space members]; cbn [wf render]; intros Hw; [|by do 2 eexists..].
  apply andb_prop in Hw as [Hn Hw]. destruct t as [|u t]; [done|]. cbn in Hw. exists u, t. split; [done|].
  apply andb_prop in Hw as [[_ Hu]%andb_prop _]. by apply negb_true_iff in Hu.
Qed.

Lemma skipValue_bracket o t c pre post :
  is_open o = true → is_close c = true → passes t →
  skipValue (pre ++ (o :: t ++ [c]) ++ post) (length pre) = Ok (length pre + length (o :: t ++ [c]))%nat.
Proof.
  intros Ho Hc Ht. unfold skipValue. destruct (nested_bracket o t c pre post 0 Ho Hc Ht) as (n & Hn & En); [lia|].
  assert (∃ fuel, length (pre ++ (o :: t ++ [c]) ++ post) = S (n + S fuel)) as [fuel Hf].
  { exists (length (pre ++ (o :: t ++ [c]) ++ post) - n - 2)%nat. rewrite !length_app. cbn. rewrite length_app. cbn. lia. }
  replace (pre ++ (o :: t ++ [c]) ++ post) with (pre ++ o :: (t ++ [c]) ++ post) in * by done.
  rewrite lookup_mid, Ho, Hf, En. by apply orb_prop in Ho as [ ->%Z.eqb_eq | ->%Z.eqb_eq ].
Qed.

Lemma skipValue_over c pre post :
  wf c = true → (∀ t, c = CScalar t → ends post) →
  skipValue (pre ++ render c ++ post) (length pre) = Ok (length pre + length (render c))%nat.
Proof.
  intros Hw He. destruct c as [t|body|space items|space members]; cbn [render] in *.
  - cbn in Hw. apply andb_prop in Hw as [Hn Hw]. assert (forallb (fun u => negb (VALUE_END u)) t = true) as Hv.
    { rewrite !forallb_forall in *. intros u Hu. by apply Hw, andb_prop in Hu as [_ ?]. }
    pose proof (skip_while_over (length (pre ++ t ++ post)) (fun u => negb (VALUE_END u)) pre t post Hv) as Hs.
    rewrite <- Hs; [|intros u Hu; by rewrite (He t eq_refl u Hu)|rewrite !length_app; lia].
    destruct t as [|u t]; [done|]. cbn in Hw. apply andb_prop in Hw as [[Hu _]%andb_prop _].
    unfold skipValue. cbn [app]. rewrite lookup_mid. unfold plain in Hu.
    apply andb_prop in Hu as [[Hq Ho]%andb_prop _]. apply negb_true_iff in Hq, Ho. apply Z.eqb_neq in Hq. rewrite Ho.
    repeat (case_match; simplify_eq; try done).
  - unfold skipValue, quoted. cbn [app]. rewrite lookup_mid, <- app_assoc. cbn [app].
    rewrite (snoc_mid pre 34), <- length_snoc with (u := 34).
    rewrite (skip_string_over (length body)) by (done || rewrite !length_app; cbn; lia).
    cbn [mbind result_bind mret result_ret]. rewrite length_snoc. cbn [length]. rewrite length_app. cbn. f_equal. lia.
  - apply skipValue_bracket; [done|done|]. apply passes_items; [done|]. apply Forall_true. intros i. apply passes_render.
  - apply skipValue_bracket; [done|done|]. apply passes_members; [done|]. apply Forall_true. intros i. apply passes_render.
Qed.

(** ** The members of an object and the elements of an array

    An entry is one or the other: a key or none, the white space before, the value and the white space after. *)

Record Entry := { en_key : option Key; en_before : units; en_value : cst; en_after : units }.

Definition label (ko : option Key) : units := match ko with Some k => key_text k | None => [] end.
Definition entry_text (e : Entry) : units :=
  en_before e ++ label (en_key e) ++ render (en_value e) ++ en_after e.

Section Members.
Context `{NT : !NodeText}.

Definition key_value (ko : option Key) : option json := k ← ko; JSON_parse (quoted (ky_body k)).

Definition entry_ok (object : bool) (e : Entry) : Prop :=
  spaces (en_before e) = true ∧ wf (en_value e) = true ∧ spaces (en_after e) = true ∧
  match en_key e with
  | None => object = false
  | Some k => object = true ∧ key_wf k = true ∧ is_Some (JSON_parse (quoted (ky_body k)))
  end.

(** The span is the entry's. *)
Definition located (text : units) (e : Entry) (m : MemberSpan) : Prop :=
  ∃ pre post, text = pre ++ label (en_key e) ++ render (en_value e) ++ post ∧ ends post ∧
    ms_member m = length pre ∧ ms_start m = (length pre + length (label (en_key e)))%nat ∧
    ms_end m = (ms_start m + length (render (en_value e)))%nat ∧ ms_key m = key_value (en_key e).

Lemma slice_mid pre mid post : slice (pre ++ mid ++ post) (length pre) (length pre + length mid) = mid.
Proof.
  unfold slice. rewrite drop_app_length. replace (_ - _)%nat with (length mid) by lia. by rewrite take_app_length.
Qed.

Lemma VALUE_END_space u : VALUE_END u = false → SPACE u = false.
Proof. unfold VALUE_END. by destruct (SPACE u). Qed.

(** The same at any index, with the text cut where it suits. *)
Lemma skipSpace_at text i pre mid post :
  text = pre ++ mid ++ post → i = length pre → spaces mid = true → (∀ u, head post = Some u → SPACE u = false) →
  skipSpace text i = (i + length mid)%nat.
Proof. intros -> ->. apply skipSpace_over. Qed.

Lemma skipValue_at text i pre c post :
  text = pre ++ render c ++ post → i = length pre → wf c = true → (∀ t, c = CScalar t → ends post) →
  skipValue text i = Ok (i + length (render c))%nat.
Proof. intros -> ->. apply skipValue_over. Qed.

Lemma lookup_at (text pre : units) u post i : text = pre ++ u :: post → i = length pre → text !! i = Some u.
Proof. intros -> ->. apply lookup_mid. Qed.

Lemma value_not_space v post u : wf v = true → head (render v ++ post) = Some u → VALUE_END u = false.
Proof. intros Hv. destruct (head_render v Hv) as (w & rest & -> & Hw). cbn. by intros [= <-]. Qed.

Lemma member_key_over k pre post v key :
  key_wf k = true → wf v = true → JSON_parse (quoted (ky_body k)) = Some key →
  member_key (pre ++ key_text k ++ render v ++ post) (length pre)
  = Ok (key, (length pre + length (key_text k))%nat).
Proof.
  unfold key_wf. intros [[[H1 H2]%andb_prop H3]%andb_prop H4]%andb_prop Hv Hk. unfold member_key, key_text.
  rewrite <- !app_assoc. rewrite (skipValue_over (CString (ky_body k))) by done. cbn [mbind result_bind render].
  rewrite slice_mid, Hk. set (q := quoted (ky_body k)). unfold mret, result_ret. do 2 f_equal.
  rewrite (skipSpace_at _ (length pre + length q) (pre ++ q) (ky_colon k) ([58] ++ ky_value k ++ render v ++ post));
    [|by rewrite <- !app_assoc|by rewrite length_app|done|by intros ? [= <-]].
  rewrite (skipSpace_at _ _ (pre ++ q ++ ky_colon k ++ [58]) (ky_value k) (render v ++ post));
    [|by rewrite <- !app_assoc|rewrite !length_app; cbn; lia|done|].
  - rewrite !length_app. cbn. lia.
  - intros u Hu. by eapply VALUE_END_space, value_not_space.
Qed.

(** What comes after an entry: a comma, or the bracket that closes. *)
Definition stops (u : Z) : Prop := u = 44 ∨ is_close u = true.

Lemma stops_end u : stops u → VALUE_END u = true ∧ SPACE u = false.
Proof.
  unfold stops, is_close, VALUE_END. intros [->|[ ->%Z.eqb_eq | ->%Z.eqb_eq ]%orb_prop]; done.
Qed.

Lemma after_ends after u rest : spaces after = true → stops u → ends (after ++ u :: rest).
Proof.
  intros Ha Hu w. destruct after as [|x after]; cbn; [intros [= <-]; by apply stops_end|].
  intros [= <-]. cbn in Ha. apply andb_prop in Ha as [Hx _]. unfold VALUE_END. by rewrite Hx.
Qed.

(** One turn of [eachMember] at a member. *)
Lemma each_member_go fuel object text index w :
  text !! skipSpace text index = Some w → VALUE_END w = false →
  each_member (S fuel) object text index =
  ('(key, start) ← (if object then '(key, start) ← member_key text (skipSpace text index); mret (Some key, start)
                    else mret (None, skipSpace text index));
   end_ ← skipValue text start;
   let after := skipSpace text end_ in
   rest ← each_member fuel object text (match text !! after with Some 44 => (after + 1)%nat | _ => after end);
   mret ({| ms_key := key; ms_start := start; ms_end := end_; ms_member := skipSpace text index |} :: rest)).
Proof.
  intros Hw He. cbn [each_member]. rewrite Hw.
  assert (w ≠ 125 ∧ w ≠ 93) as [H1 H2] by (split; intros ->; done).
  repeat (case_match; simplify_eq; try done).
Qed.

Lemma each_member_stop fuel object text index w :
  text !! skipSpace text index = Some w → is_close w = true → each_member (S fuel) object text index = Ok [].
Proof. intros Hw [ ->%Z.eqb_eq | ->%Z.eqb_eq ]%orb_prop; cbn [each_member]; by rewrite Hw. Qed.

(** The key of an entry, and where its value starts. *)
Lemma entry_key object e pre post :
  entry_ok object e →
  (if object then '(key, start) ← member_key (pre ++ label (en_key e) ++ render (en_value e) ++ post) (length pre);
                  mret (Some key, start)
   else mret (None, length pre)) = (Ok (key_value (en_key e), length pre + length (label (en_key e))))%nat.
Proof.
  intros (_ & Hv & _ & Hk). destruct (en_key e) as [k|]; cbn [label key_value].
  - destruct Hk as (-> & Hkw & key & Hkey). rewrite (member_key_over _ _ _ _ key) by done. cbn. by rewrite Hkey.
  - rewrite Hk. unfold mret, result_ret. do 2 f_equal. cbn. lia.
Qed.

Lemma each_member_entry fuel object e pre u rest :
  entry_ok object e → stops u →
  let text := pre ++ entry_text e ++ u :: rest in
  let next := (length pre + length (entry_text e) + (if decide (u = 44%Z) then 1 else 0))%nat in
  ∃ m, located text e m ∧
    each_member (S fuel) object text (length pre)
    = (ms ← each_member fuel object text next; Ok (m :: ms)).
Proof.
  intros (Hb & Hv & Ha & Hk) Hu text next. destruct e as [ko before v after].
  unfold entry_text in text, next. cbn [en_key en_before en_value en_after] in *.
  set (post := after ++ u :: rest).
  assert (text = (pre ++ before) ++ label ko ++ render v ++ post) as Ht
    by (unfold text, post; by rewrite <- !app_assoc).
  assert (head (label ko ++ render v ++ post) = head (label ko ++ render v)) as Hh.
  { destruct (head_render v Hv) as (w & r & -> & _). by destruct (label ko). }
  assert (∃ w, head (label ko ++ render v) = Some w ∧ VALUE_END w = false) as (w & Hw & Hw').
  { destruct ko; [by eexists|]. destruct (head_render v Hv) as (w & r & -> & ?). by exists w. }
  set (m := {| ms_key := key_value ko; ms_start := length (pre ++ before) + length (label ko);
               ms_end := length (pre ++ before) + length (label ko) + length (render v);
               ms_member := length (pre ++ before) |}).
  exists m. split.
  { exists (pre ++ before), post. split_and!; try done. by apply after_ends. }
  assert (skipSpace text (length pre) = length (pre ++ before)) as Hs.
  { rewrite (skipSpace_at text _ pre before (label ko ++ render v ++ post)), length_app;
      [done|by rewrite Ht, <- !app_assoc|done|done|rewrite Hh, Hw; intros ? [= <-]; by apply VALUE_END_space]. }
  assert (text !! length (pre ++ before) = Some w) as Hl.
  { rewrite Ht. destruct (label ko ++ render v ++ post) as [|w' r'] eqn:El; [by rewrite Hw in Hh|].
    cbn in Hh. rewrite Hw in Hh. injection Hh as ->. apply lookup_mid. }
  rewrite (each_member_go _ _ _ _ w) by (by rewrite ?Hs). rewrite Hs. rewrite Ht at 1.
  pose proof (entry_key object {| en_key := ko; en_before := before; en_value := v; en_after := after |}
    (pre ++ before) post) as Hkey. cbn [en_key en_value] in Hkey. rewrite Hkey by (by split_and!). clear Hkey.
  cbn [mbind result_bind].
  rewrite (skipValue_at text _ ((pre ++ before) ++ label ko) v post);
    [|by rewrite Ht, <- !app_assoc|by rewrite !length_app|done|by intros; apply after_ends].
  cbn [mbind result_bind]. cbv zeta.
  rewrite (skipSpace_at text _ ((pre ++ before) ++ label ko ++ render v) after (u :: rest));
    [|by rewrite Ht; unfold post; rewrite <- !app_assoc|rewrite !length_app; lia|done|intros ? [= <-]; by apply stops_end].
  rewrite (lookup_at text ((pre ++ before) ++ label ko ++ render v ++ after) u rest);
    [|by rewrite Ht; unfold post; rewrite <- !app_assoc|rewrite !length_app; lia].
  replace (match u with 44 => _ | _ => _ end) with next; [done|].
  unfold next. rewrite !length_app. destruct (decide (u = 44)) as [->|Hu44]; [lia|].
  repeat (case_match; simplify_eq; try lia).
Qed.

Lemma each_member_entries object entries fuel pre c post :
  entries ≠ [] → Forall (entry_ok object) entries → is_close c = true → (length entries < fuel)%nat →
  let text := pre ++ join_with [44] (map entry_text entries) ++ c :: post in
  ∃ ms, each_member fuel object text (length pre) = Ok ms ∧ Forall2 (located text) entries ms.
Proof.
  intros Hne Hok Hc. revert fuel pre. induction Hok as [|e entries He Hok IH]; intros fuel pre Hf; [done|].
  destruct fuel as [|fuel]; [lia|]. destruct entries as [|e' entries].
  - cbn [map join_with]. destruct (each_member_entry fuel object e pre c post He) as (m & Hm & E); [by right|].
    exists [m]. split; [|by repeat constructor]. rewrite E. rewrite decide_False by (by intros ->).
    destruct fuel as [|fuel]; [cbn in Hf; lia|]. rewrite Nat.add_0_r.
    assert (skipSpace (pre ++ entry_text e ++ c :: post) (length pre + length (entry_text e))
            = (length pre + length (entry_text e))%nat) as Hs.
    { rewrite (skipSpace_at _ _ (pre ++ entry_text e) [] (c :: post));
        [cbn; lia|by rewrite <- app_assoc|by rewrite length_app|done|].
      intros ? [= <-]. by apply stops_end; right. }
    rewrite (each_member_stop _ _ _ _ c); [done| |done]. rewrite Hs, app_assoc, <- length_app. apply lookup_mid.
  - change (join_with [44] (map entry_text (e :: e' :: entries)))
      with (entry_text e ++ [44] ++ join_with [44] (map entry_text (e' :: entries))).
    set (more := join_with [44] (map entry_text (e' :: entries))) in *. rewrite <- !app_assoc. cbn [app].
    destruct (each_member_entry fuel object e pre 44 (more ++ c :: post) He) as (m & Hm & E); [by left|].
    rewrite E, decide_True by done.
    destruct (IH ltac:(done) fuel (pre ++ entry_text e ++ [44])) as (ms & Ems & Hms); [cbn in *; lia|].
    replace ((pre ++ entry_text e ++ [44]) ++ more ++ c :: post) with (pre ++ entry_text e ++ 44 :: more ++ c :: post) in *
      by (by rewrite <- !app_assoc).
    replace (length (pre ++ entry_text e ++ [44])) with (length pre + length (entry_text e) + 1)%nat in Ems
      by (rewrite !length_app; cbn; lia).
    rewrite Ems. exists (m :: ms). split; [done|by constructor].
Qed.

Lemma entries_length object entries :
  Forall (entry_ok object) entries → (length entries <= length (join_with [44%Z] (map entry_text entries)))%nat.
Proof.
  induction 1 as [|e entries (_ & Hv & _) _ IH]; [done|].
  assert (1 <= length (entry_text e))%nat as He.
  { destruct (head_render _ Hv) as (u & r & E & _). unfold entry_text. rewrite E, !length_app. cbn. lia. }
  destruct entries as [|e' entries]; [cbn; lia|].
  change (map entry_text (e :: e' :: entries)) with (entry_text e :: map entry_text (e' :: entries)) in *.
  change (join_with [44] (entry_text e :: map entry_text (e' :: entries)))
    with (entry_text e ++ [44] ++ join_with [44] (map entry_text (e' :: entries))).
  rewrite !length_app. cbn [length] in *. lia.
Qed.

(** [eachMember] at a bracket. *)
Lemma eachMember_entries o space entries c pre post :
  is_open o = true → is_close c = true → spaces space = true →
  Forall (entry_ok (o =? 123)) entries →
  let text := pre ++ (o :: list_text space (map entry_text entries) ++ [c]) ++ post in
  ∃ ms, eachMember text (length pre) = Ok ms ∧ Forall2 (located text) entries ms.
Proof.
  intros Ho Hc Hs Hok text. unfold eachMember.
  assert (text !! length pre = Some o) as Hl by apply lookup_mid.
  assert (bool_decide (text !! length pre = Some 123) = (o =? 123)) as ->.
  { rewrite Hl. destruct (Z.eqb_spec o 123) as [->|Hne]; case_bool_decide; simplify_eq; done. }
  pose proof (entries_length _ _ Hok) as Hlen.
  assert (text = (pre ++ [o]) ++ list_text space (map entry_text entries) ++ c :: post) as Ht
    by (unfold text; cbn; by rewrite <- !app_assoc).
  rewrite <- length_snoc with (u := o). destruct entries as [|e entries].
  - exists []. split; [|done]. cbn [map list_text] in Ht.
    destruct (length text) as [|fuel] eqn:El; [unfold text in El; rewrite length_app in El; cbn in El; lia|].
    rewrite (each_member_stop _ _ _ _ c); [done| |done].
    rewrite (skipSpace_at text _ (pre ++ [o]) space (c :: post));
      [|done|done|done|intros ? [= <-]; by apply stops_end; right].
    apply (lookup_at _ ((pre ++ [o]) ++ space) _ post); [by rewrite Ht, <- !app_assoc|by rewrite !length_app].
  - rewrite Ht. apply each_member_entries; [done|done|done|]. rewrite !length_app. cbn [list_text map] in *. cbn [length] in *. lia.
Qed.

Definition item_entry (i : units * cst * units) : Entry :=
  let '(before, item, after) := i in {| en_key := None; en_before := before; en_value := item; en_after := after |}.
Definition member_entry (m : Key * cst * units) : Entry :=
  let '(k, item, after) := m in
  {| en_key := Some k; en_before := ky_before k; en_value := item; en_after := after |}.

Lemma item_entries items : map entry_text (map item_entry items) = map item_text items.
Proof. rewrite map_map. apply map_ext. by intros [[b i] a]. Qed.
Lemma member_entries members : map entry_text (map member_entry members) = map member_text members.
Proof. rewrite map_map. apply map_ext. by intros [[b i] a]. Qed.

(** Each key of the object is a string that [JSON.parse] reads. *)
Definition keys_parse (members : list (Key * cst * units)) : Prop :=
  Forall (fun m => is_Some (JSON_parse (quoted (ky_body (fst (fst m)))))) members.

Definition named (member : units) (m : Key * cst * units) : bool :=
  key_is member (JSON_parse (quoted (ky_body (fst (fst m))))).

Lemma items_ok space items : wf (CArray space items) = true → Forall (entry_ok false) (map item_entry items).
Proof.
  cbn [wf]. intros [_ Hw]%andb_prop. rewrite forallb_forall in Hw. apply Forall_fmap, Forall_forall.
  intros [[b i] a] Hin. apply list_elem_of_In, Hw in Hin. apply andb_prop in Hin as [[Hb Hi]%andb_prop Ha].
  by split_and!.
Qed.

Lemma members_ok space members :
  wf (CObject space members) = true → keys_parse members → Forall (entry_ok true) (map member_entry members).
Proof.
  cbn [wf]. intros [_ Hw]%andb_prop Hp. rewrite forallb_forall in Hw. apply Forall_fmap, Forall_forall.
  intros [[k i] a] Hin. unfold keys_parse in Hp. rewrite Forall_forall in Hp. specialize (Hp _ Hin).
  apply list_elem_of_In, Hw in Hin. apply andb_prop in Hin as [[Hk Hi]%andb_prop Ha].
  assert (spaces (ky_before k) = true) as Hb by (unfold key_wf in Hk; by repeat apply andb_prop in Hk as [Hk _]).
  by split_and!.
Qed.

(** The members of the object that a text holds. *)
Lemma object_members lead space members trail :
  spaces lead = true → wf (CObject space members) = true → keys_parse members →
  let text := lead ++ render (CObject space members) ++ trail in
  ∃ ms, eachMember text (skipSpace text 0) = Ok ms ∧ Forall2 (located text) (map member_entry members) ms.
Proof.
  intros Hl Hw Hp text.
  assert (skipSpace text 0 = length lead) as ->.
  { rewrite (skipSpace_at text 0 [] lead (render (CObject space members) ++ trail)); [done..|by intros ? [= <-]]. }
  pose proof (members_ok _ _ Hw Hp) as Hok. cbn [wf] in Hw. apply andb_prop in Hw as [Hs _].
  pose proof (eachMember_entries 123 space (map member_entry members) 125 lead trail eq_refl eq_refl Hs Hok) as H.
  rewrite member_entries in H. exact H.
Qed.

Lemma located_slice text e m : located text e m → slice text (ms_start m) (ms_end m) = render (en_value e).
Proof.
  intros (pre & post & -> & _ & _ & Hs & He & _). rewrite He, Hs, app_assoc, <- length_app. apply slice_mid.
Qed.

Lemma located_member text e m :
  located text e m → slice text (ms_member m) (ms_end m) = label (en_key e) ++ render (en_value e).
Proof.
  intros (pre & post & -> & _ & Hm & Hs & He & _). rewrite He, Hs, Hm, (app_assoc (label _)).
  rewrite <- Nat.add_assoc, <- length_app. apply slice_mid.
Qed.

Lemma Forall2_filter {A B} (R : A → B → Prop) (p : A → bool) (q : B → bool) l k :
  Forall2 (fun a b => R a b ∧ q b = p a) l k → Forall2 R (List.filter p l) (List.filter q k).
Proof.
  induction 1 as [|a b l k [Hr Hq] _ IH]; cbn; [constructor|]. rewrite Hq. destruct (p a); [by constructor|done].
Qed.

Lemma Forall2_last {A B} (R : A → B → Prop) l k :
  Forall2 R l k → match last l, last k with Some a, Some b => R a b | None, None => True | _, _ => False end.
Proof.
  induction 1 as [|a b l k Hr Hl IH]; [done|]. rewrite !last_cons.
  destruct (last l), (last k); done.
Qed.

Lemma located_named text members ms p q :
  Forall2 (located text) (map member_entry members) ms →
  (∀ m s, ms_key s = JSON_parse (quoted (ky_body (fst (fst m)))) → q s = p m) →
  Forall2 (fun m s => located text (member_entry m) s) (List.filter p members) (List.filter q ms).
Proof.
  intros H Hq. apply Forall2_filter. rewrite Forall2_fmap_l in H. eapply Forall2_impl; [exact H|].
  intros [[k i] a] s Hl. split; [done|]. apply Hq. destruct Hl as (? & ? & _ & _ & _ & _ & _ & Hk). exact Hk.
Qed.

(** The spans that [arrayElementSpans] finds in any JSON text that holds an object, however it is spaced and nested and
    whatever brackets and quotes its strings hold, are those of the elements of the array that the last member of the name
    is: cut out of the text they are the elements' own texts, in order. There are none when there is no such
    member or it is no array. The scanner always comes to an end. *)
Theorem element_spans_exact lead space members trail member :
  spaces lead = true → wf (CObject space members) = true → keys_parse members →
  let text := lead ++ render (CObject space members) ++ trail in
  ∃ r, arrayElementSpans text member = Ok r ∧
    (fun spans => map (fun '(start, end_) => slice text start end_) spans) <$> r =
    match last (List.filter (named member) members) with
    | Some (_, CArray _ items, _) => Some (map (fun '(_, item, _) => render item) items)
    | _ => None
    end.
Proof.
  intros Hl Hw Hp text. destruct (object_members lead space members trail Hl Hw Hp) as (ms & Em & Hm).
  fold text in Em, Hm. clearbody text. unfold arrayElementSpans. rewrite Em. cbn [mbind result_bind].
  pose proof (Forall2_last _ _ _ (located_named text members ms (named member) (fun s => key_is member (ms_key s)) Hm
    ltac:(intros m s E; cbv beta; by rewrite E))) as Hla.
  destruct (last (List.filter (named member) members)) as [[[k v] a]|] eqn:Ela; destruct (last (List.filter _ ms)) as [s|]; try done;
    [|by exists None].
  assert (wf v = true) as Hv.
  { apply last_Some_elem_of, list_elem_of_In, filter_In in Ela as [Hin _]. cbn [wf] in Hw.
    apply andb_prop in Hw as [_ Hw]. rewrite forallb_forall in Hw. apply Hw in Hin. by apply andb_prop in Hin as [[_ ?]%andb_prop _]. }
  destruct Hla as (pre & post & Ht & _ & _ & Hs & _ & _). cbn [member_entry en_key en_value label] in Ht, Hs.
  rewrite app_assoc in Ht. rewrite <- length_app in Hs.
  destruct (head_render v Hv) as (u & rest & Eu & Hu).
  rewrite (lookup_at text (pre ++ key_text k) u (rest ++ post)) by (done || by rewrite Ht, Eu).
  destruct v as [t|body|sp items|sp ms'].
  - rewrite decide_False; [by exists None|]. intros [= ->]. cbn in Eu. rewrite Eu in Hv. done.
  - injection Eu as <- _. by exists None.
  - injection Eu as <- _. rewrite decide_True by done. pose proof (items_ok _ _ Hv) as Hok. cbn [wf] in Hv.
    apply andb_prop in Hv as [Hsp _].
    destruct (eachMember_entries 91 sp (map item_entry items) 93 (pre ++ key_text k) post eq_refl eq_refl Hsp Hok)
      as (es & Ees & Hes). rewrite item_entries in Ees, Hes.
    replace (_ ++ (91 :: _) ++ post) with text in Ees, Hes by exact Ht. rewrite Hs, Ees. cbn [mbind result_bind].
    eexists. split; [done|]. cbn. f_equal. rewrite map_map. rewrite Forall2_fmap_l in Hes. clear -Hes.
    induction Hes as [|[[b i] a] m items es Hl _ IH]; [done|]. cbn. rewrite IH. f_equal. exact (located_slice _ _ _ Hl).
  - injection Eu as <- _. by exists None.
Qed.

(** The texts that [otherMembers] gives are those of the members whose names are not left out, each from
    its key to the end of its value, in order. *)
Theorem other_members_exact lead space members trail omit :
  spaces lead = true → wf (CObject space members) = true → keys_parse members →
  otherMembers (lead ++ render (CObject space members) ++ trail) omit =
  Ok (map (fun '(k, item, _) => key_text k ++ render item)
        (List.filter (fun m => negb (existsb (fun o => named o m) omit)) members)).
Proof.
  intros Hl Hw Hp. destruct (object_members lead space members trail Hl Hw Hp) as (ms & Em & Hm).
  set (text := lead ++ render (CObject space members) ++ trail) in *. clearbody text.
  unfold otherMembers. rewrite Em. cbn [mbind result_bind]. unfold mret, result_ret. f_equal.
  pose proof (located_named _ members ms (fun m => negb (existsb (fun o => named o m) omit))
    (fun s => negb (existsb (fun o => key_is o (ms_key s)) omit)) Hm
    ltac:(intros m s E; cbv beta; rewrite E; done)) as Hf.
  induction Hf as [|[[k i] a] m l es Hlo _ IH]; [done|]. cbn. rewrite IH. f_equal. exact (located_member _ _ _ Hlo).
Qed.
End Members.

(** ** A registry file with brackets and quotes in its strings, and a repeated key *)

Module SampleText.
#[global] Instance node_text : NodeText := {|
  buffer_toString b := map Z_of_byte b;
  JSON_parse s := Some (JString (removelast (tail s)));
  JSON_stringify _ := [];
  JSON_stringify_2 _ := [];
|}.

Definition key (name : string) : Key :=
  {| ky_before := [10; 32]; ky_body := js name; ky_colon := []; ky_value := [32] |}.
Definition odd : cst :=
  CObject [] [(key "id", CScalar (js "7"), [32]); (key "x", CString (js "]}" ++ [92; 34] ++ js "{["), [])].
Definition members : list (Key * cst * units) :=
  [(key "devices", CArray [] [([], CScalar (js "0"), [])], []); (key "version", CScalar (js "2"), [10]);
   (key "note", CArray [32] [], []); (key "devices", CArray [] [([], odd, [32]); ([9], CScalar (js "null"), [])], [10])].

Lemma members_wf : wf (CObject [] members) = true.
Proof. vm_compute. reflexivity. Qed.
Lemma members_keys : keys_parse members.
Proof. repeat constructor; by eexists. Qed.

Definition text : units := [10] ++ render (CObject [] members) ++ [10].

Lemma element_spans_exact_witness :
  ∃ r, arrayElementSpans text (js "devices") = Ok r ∧
    (fun spans => map (fun '(start, end_) => slice text start end_) spans) <$> r = Some [render odd; js "null"].
Proof. exact (element_spans_exact [10] [] members [10] (js "devices") eq_refl members_wf members_keys). Defined.

Lemma other_members_exact_witness :
  otherMembers text [js "version"; js "devices"] = Ok [quoted (js "note") ++ js ": [ ]"].
Proof.
  exact (other_members_exact [10] [] members [10] [js "version"; js "devices"] eq_refl members_wf members_keys).
Defined.
End SampleText.
