(* ===== verification/NdjsonTail.v ===== *)
(** * Tails of log files: [packages/core/state/ndjson.ts] and [packages/core/state/ndjson-tail.ts]

    A log is lines of JSON in a file and in the file it was last rotated to. A tail reads both again and
    again, only what was appended since, and follows a rotation.

    A file is its id (device and inode) and its bytes. A call of a tail looks at the disk four times; what it
    finds each time is given, so other programs may write, rotate and replace the files between any two. [advance] opens
    a file and reads it within its size at that time. *)

From Stdlib Require Import ZArith Lia.
From S2P Require Import Prelude.
From S2P Require Import Bytes.
From S2P Require Import Json.
Open Scope Z_scope.

(** ** [buffer.toString('utf-8')]: the UTF-8 decoder of the Encoding Standard

    A sequence that is cut off or not well formed reads as U+FFFD, and the byte that broke it is read again. *)

Record Utf8State := { us_needed : nat; us_point : Z; us_lower : Z; us_upper : Z }.

Definition utf8_start : Utf8State := {| us_needed := 0; us_point := 0; us_lower := 0x80; us_upper := 0xBF |}.

(** The first byte of a sequence. *)
Definition utf8_lead (b : Z) : Utf8State * units :=
  if b <=? 0x7F then (utf8_start, [b])
  else if (0xC2 <=? b) && (b <=? 0xDF) then
    ({| us_needed := 1; us_point := b - 0xC0; us_lower := 0x80; us_upper := 0xBF |}, [])
  else if (0xE0 <=? b) && (b <=? 0xEF) then
    ({| us_needed := 2; us_point := b - 0xE0;
        us_lower := if b =? 0xE0 then 0xA0 else 0x80; us_upper := if b =? 0xED then 0x9F else 0xBF |}, [])
  else if (0xF0 <=? b) && (b <=? 0xF4) then
    ({| us_needed := 3; us_point := b - 0xF0;
        us_lower := if b =? 0xF0 then 0x90 else 0x80; us_upper := if b =? 0xF4 then 0x8F else 0xBF |}, [])
  else (utf8_start, [0xFFFD]).

Definition utf8_byte (st : Utf8State) (b : Z) : Utf8State * units :=
  match us_needed st with
  | O => utf8_lead b
  | S needed =>
      if (us_lower st <=? b) && (b <=? us_upper st) then
        let point := us_point st * 64 + (b - 0x80) in
        match needed with
        | O => (utf8_start, units_of_scalar point)
        | _ => ({| us_needed := needed; us_point := point; us_lower := 0x80; us_upper := 0xBF |}, [])
        end
      else let '(st, out) := utf8_lead b in (st, 0xFFFD :: out)
  end.

Fixpoint utf8_run (st : Utf8State) (b : bytes) : Utf8State * units :=
  match b with
  | [] => (st, [])
  | x :: b =>
      let '(st, out) := utf8_byte st (Z_of_byte x) in
      let '(st, rest) := utf8_run st b in (st, out ++ rest)
  end.

Definition utf8_toString (b : bytes) : units :=
  let '(st, out) := utf8_run utf8_start b in
  match us_needed st with O => out | _ => out ++ [0xFFFD] end.

(** ** [ndjson.ts] *)

Section Ndjson.
Context `{!NodeText}.

Definition parseNdjsonLine (line : units) : option json :=
  match trim line with
  | [] => None
  | trimmed => match JSON_parse trimmed with Some (JObject fields) => Some (JObject fields) | _ => None end
  end.

Definition parseNdjsonText (text : units) : list json :=
  match text with [] => [] | _ => omap parseNdjsonLine (removelast (split_on 10 text)) end.

(** What a path leads to. *)
Record LogFile := { lf_id : Z; lf_bytes : bytes }.
Record LogDisk := { ld_rotated : option LogFile; ld_current : option LogFile }.

Definition readNdjsonGenerations (disk : LogDisk) : list json :=
  let read file := match file with Some f => parseNdjsonText (utf8_toString (lf_bytes f)) | None => [] end in
  read (ld_rotated disk) ++ read (ld_current disk).

(** ** [ndjson-tail.ts] *)

Record Generation := { gn_id : option Z; gn_offset : nat; gn_head : bytes; gn_records : list json }.

Definition HEAD_BYTES : nat := 64.

(** [generation] and [reset], with the id the code then sets. *)
Definition generation (id : option Z) : Generation :=
  {| gn_id := id; gn_offset := 0; gn_head := []; gn_records := [] |}.

Definition readAt (file : LogFile) (len position : nat) : bytes := take len (drop position (lf_bytes file)).

(** [buffer.lastIndexOf(0x0a)]. *)
Fixpoint last_newline (b : bytes) : option nat :=
  match b with
  | [] => None
  | x :: b =>
      match last_newline b with
      | Some i => Some (S i)
      | None => if decide (x = x0a) then Some 0%nat else None
      end
  end.

(** Whether the file is not the one the generation has read. *)
Definition replaced (gen : Generation) (file : LogFile) : bool :=
  negb (bool_decide (gn_id gen = Some (lf_id file)))
  || (length (lf_bytes file) <? gn_offset gen)%nat
  || ((0 <? length (gn_head gen))%nat
      && negb (bool_decide (readAt file (length (gn_head gen)) 0 = gn_head gen))).

Definition advance (gen : Generation) (file : option LogFile) : Generation * bool :=
  match file with
  | None => (generation None, bool_decide (is_Some (gn_id gen)))
  | Some f =>
      let '(gen, changed) :=
        if replaced gen f then
          (generation (Some (lf_id f)), bool_decide (is_Some (gn_id gen)) || (0 <? length (gn_records gen))%nat)
        else (gen, false) in
      let len := (length (lf_bytes f) - gn_offset gen)%nat in
      if (len =? 0)%nat then (gen, changed)
      else
        let buffer := readAt f len (gn_offset gen) in
        match last_newline buffer with
        | None => (gen, changed)
        | Some end_ =>
            let line := take (S end_) buffer in
            let added := parseNdjsonText (utf8_toString line) in
            ({| gn_id := gn_id gen;
                gn_offset := gn_offset gen + S end_;
                gn_head := if (length (gn_head gen) <? HEAD_BYTES)%nat then take HEAD_BYTES (gn_head gen ++ line)
                           else gn_head gen;
                gn_records := gn_records gen ++ added |},
             changed || (0 <? length added)%nat)
        end
  end.

Definition statId (file : option LogFile) : option Z := lf_id <$> file.

Record Tail := { tl_rotated : Generation; tl_current : Generation; tl_all : list json }.

Definition createNdjsonTail : Tail :=
  {| tl_rotated := generation None; tl_current := generation None; tl_all := [] |}.

(** What the four looks of one call find: the current file, then the rotated one, by their ids; then the
    rotated file and the current one, which are read. *)
Record Looks := { lk_current_id : LogDisk; lk_rotated_id : LogDisk; lk_rotated : LogDisk; lk_current : LogDisk }.

Definition was_rotated (t : Tail) (looks : Looks) : bool :=
  bool_decide (is_Some (gn_id (tl_current t)))
  && negb (bool_decide (statId (ld_current (lk_current_id looks)) = gn_id (tl_current t)))
  && bool_decide (statId (ld_rotated (lk_rotated_id looks)) = gn_id (tl_current t)).

Definition read_tail (t : Tail) (looks : Looks) : Tail :=
  let moved := was_rotated t looks in
  let '(rotated, current) :=
    if moved then (tl_current t, generation None) else (tl_rotated t, tl_current t) in
  let '(rotated, changed1) := advance rotated (ld_rotated (lk_rotated looks)) in
  let '(current, changed2) := advance current (ld_current (lk_current looks)) in
  {| tl_rotated := rotated; tl_current := current;
     tl_all := if moved || changed1 || changed2 then gn_records rotated ++ gn_records current else tl_all t |}.
End Ndjson.
