(* ===== verification/NdjsonTailFacts.v ===== *)
(** * Tails of log files

    A tail gives what a full read gives, whatever happened to the files between its calls and between the looks of a call. *)

From Stdlib Require Import ZArith Lia.
From S2P Require Import Prelude.
From S2P Require Import Bytes.
From S2P Require Import Json.
From S2P Require Import NdjsonTail.
Open Scope Z_scope.

(** ** Decoding line by line *)

Lemma utf8_run_app st a b :
  utf8_run st (a ++ b) =
  let '(st1, out1) := utf8_run st a in let '(st2, out2) := utf8_run st1 b in (st2, out1 ++ out2).
Proof.
  revert st. induction a as [|x a IH]; intros st; cbn [utf8_run app].
  - by destruct (utf8_run st b).
  - destruct (utf8_byte st (Z_of_byte x)) as [st1 out]. rewrite IH.
    destruct (utf8_run st1 a) as [st2 out2]. destruct (utf8_run st2 b). by rewrite app_assoc.
Qed.

(** Whatever came before it, a line feed leaves the decoder at its start, and only a line feed gives one. *)
Definition no_feed (out : units) : Prop := Forall (fun u => u ≠ 10) out.

Lemma utf8_byte_feed st :
  us_lower st = 0x80 ∨ us_lower st = 0xA0 ∨ us_lower st = 0x90 →
  ∃ out, utf8_byte st 10 = (utf8_start, out ++ [10]) ∧ no_feed out.
Proof.
  intros Hl. unfold utf8_byte. destruct (us_needed st); [by exists []; split; [|constructor]|].
  replace ((us_lower st <=? 10) && (10 <=? us_upper st)) with false by (destruct Hl as [-> | [-> | ->]]; done).
  exists [0xFFFD]. split; [done|]. by repeat constructor.
Qed.

(** A state in the middle of a sequence. *)
Definition utf8_wf (st : Utf8State) : Prop :=
  (us_lower st = 0x80 ∨ us_lower st = 0xA0 ∨ us_lower st = 0x90) ∧
  us_upper st <= 0xBF ∧ 0 <= us_point st ∧
  match us_needed st with
  | 0%nat => st = utf8_start
  | 1%nat => 2 <= us_point st
  | 2%nat => us_point st = 0 → us_lower st = 0xA0
  | 3%nat => us_point st = 0 → us_lower st = 0x90
  | _ => False
  end.

Lemma scalar_no_feed c : 0x80 <= c → no_feed (units_of_scalar c).
Proof.
  intros Hc. unfold units_of_scalar. destruct (c <? 0x10000) eqn:E; repeat constructor; Z.div_mod_to_equations; lia.
Qed.

Lemma utf8_start_wf : utf8_wf utf8_start.
Proof. repeat split; cbn; lia. Qed.

Lemma utf8_lead_wf b : 0 <= b → utf8_wf (fst (utf8_lead b)) ∧ (b ≠ 10 → no_feed (snd (utf8_lead b))).
Proof.
  intros Hb. unfold utf8_lead.
  repeat match goal with |- context [if ?c then _ else _] => destruct c eqn:? end; cbn [fst snd];
    (split; [|intros; repeat constructor; lia]); try apply utf8_start_wf; repeat split; cbn; lia.
Qed.

Lemma utf8_byte_wf st b :
  0 <= b → utf8_wf st → utf8_wf (fst (utf8_byte st b)) ∧ (b ≠ 10 → no_feed (snd (utf8_byte st b))).
Proof.
  intros Hb (Hl & Hu & Hp & Hn). unfold utf8_byte. destruct (us_needed st) as [|needed] eqn:En.
  { by apply utf8_lead_wf. }
  destruct ((us_lower st <=? b) && (b <=? us_upper st)) eqn:Eb.
  - destruct needed as [|[|[|]]]; cbn [fst snd]; [| | |done].
    + split; [apply utf8_start_wf|]. intros _. apply scalar_no_feed. lia.
    + split; [|constructor]. repeat split; cbn; lia.
    + split; [|constructor]. repeat split; cbn; lia.
  - pose proof (utf8_lead_wf b Hb) as [Hw Hf]. destruct (utf8_lead b) as [st' out]. cbn [fst snd] in *.
    split; [done|]. intros Hne. constructor; [done|by apply Hf].
Qed.

Lemma utf8_run_wf st b : utf8_wf st → utf8_wf (fst (utf8_run st b)).
Proof.
  revert st. induction b as [|x b IH]; intros st Hw; [done|]. cbn [utf8_run].
  destruct (utf8_byte_wf st (Z_of_byte x) (proj1 (Z_of_byte_range x)) Hw) as [Hw' _].
  destruct (utf8_byte st (Z_of_byte x)) as [st1 out]. specialize (IH st1 Hw').
  by destruct (utf8_run st1 b).
Qed.

Lemma Z_of_byte_feed x : Z_of_byte x = 10 → x = x0a.
Proof. by destruct x. Qed.

Lemma utf8_run_no_feed st b : utf8_wf st → x0a ∉ b → no_feed (snd (utf8_run st b)).
Proof.
  revert st. induction b as [|x b IH]; intros st Hw Hn; [constructor|]. cbn [utf8_run].
  destruct (utf8_byte_wf st (Z_of_byte x) (proj1 (Z_of_byte_range x)) Hw) as [Hw' Hf].
  rewrite not_elem_of_cons in Hn. destruct Hn as [Hx Hn].
  destruct (utf8_byte st (Z_of_byte x)) as [st1 out]. specialize (IH st1 Hw' Hn).
  destruct (utf8_run st1 b). apply Forall_app. split; [|done]. apply Hf. by intros E%Z_of_byte_feed.
Qed.

(** Text up to and with a line feed is decoded by itself, and ends in one. *)
Lemma utf8_line line rest :
  ∃ out, utf8_toString (line ++ [x0a]) = out ++ [10] ∧
    utf8_toString (line ++ [x0a] ++ rest) = out ++ [10] ++ utf8_toString rest.
Proof.
  unfold utf8_toString. rewrite app_assoc, (utf8_run_app _ (line ++ [x0a])), (utf8_run_app _ line).
  pose proof (utf8_run_wf utf8_start line utf8_start_wf) as (Hl & _).
  destruct (utf8_run utf8_start line) as [st out]. cbn [fst] in Hl. cbn [utf8_run].
  destruct (utf8_byte_feed st Hl) as (more & E & _). change (Z_of_byte x0a) with 10. rewrite E.
  exists (out ++ more). cbn [us_needed utf8_start]. destruct (utf8_run utf8_start rest) as [st2 out2].
  rewrite app_nil_r, <- !app_assoc. split; [done|]. destruct (us_needed st2); rewrite <- ?app_assoc; done.
Qed.

Lemma toString_no_feed b : x0a ∉ b → no_feed (utf8_toString b).
Proof.
  intros Hn. unfold utf8_toString. pose proof (utf8_run_no_feed utf8_start b utf8_start_wf Hn) as Hf.
  destruct (utf8_run utf8_start b) as [st out]. destruct (us_needed st); [done|].
  apply Forall_app. split; [done|]. by repeat constructor.
Qed.

(** ** Lines *)

Lemma split_on_nonempty sep s : split_on sep s ≠ [].
Proof. induction s as [|u s IH]; cbn; [done|]. destruct (split_on sep s); [done|]. by destruct (u =? sep). Qed.

Lemma split_on_app sep a b : split_on sep (a ++ sep :: b) = split_on sep a ++ split_on sep b.
Proof.
  induction a as [|u a IH]; cbn.
  - pose proof (split_on_nonempty sep b). destruct (split_on sep b); [done|]. by rewrite Z.eqb_refl.
  - rewrite IH. pose proof (split_on_nonempty sep a). destruct (split_on sep a); [done|]. cbn. by destruct (u =? sep).
Qed.

Lemma split_on_none sep s : Forall (fun u => u ≠ sep) s → split_on sep s = [s].
Proof. induction 1 as [|u s Hu _ IH]; cbn; [done|]. rewrite IH. by apply Z.eqb_neq in Hu as ->. Qed.

Section Tails.
Context `{NT : !NodeText}.

Definition parsed (b : bytes) : list json := parseNdjsonText (utf8_toString b).

Lemma parse_eq text : parseNdjsonText text = omap parseNdjsonLine (removelast (split_on 10 text)).
Proof. by destruct text. Qed.

(** Bytes that end where a line ends. *)
Definition complete (b : bytes) : Prop := b = [] ∨ ∃ l, b = l ++ [x0a].

Lemma parsed_app a b : complete a → parsed (a ++ b) = parsed a ++ parsed b.
Proof.
  intros [->|[l ->]]; [done|]. unfold parsed. rewrite <- app_assoc.
  destruct (utf8_line l b) as (out & -> & ->). rewrite !parse_eq. cbn [app]. rewrite !split_on_app.
  rewrite !removelast_app by apply split_on_nonempty. rewrite omap_app. by rewrite app_nil_r.
Qed.

Lemma parsed_rest b : x0a ∉ b → parsed b = [].
Proof. intros Hn. unfold parsed. rewrite parse_eq, split_on_none; [done|]. by apply toString_no_feed. Qed.

Lemma complete_app a b : complete a → complete b → complete (a ++ b).
Proof. intros Ha [->|[l ->]]; [by rewrite app_nil_r|]. right. exists (a ++ l). by rewrite app_assoc. Qed.

Lemma last_newline_some b i :
  last_newline b = Some i →
  ∃ l r, b = (l ++ [x0a]) ++ r ∧ take (S i) b = l ++ [x0a] ∧ length (l ++ [x0a]) = S i ∧ x0a ∉ r.
Proof.
  assert (∀ c, last_newline c = None → x0a ∉ c) as Hnone.
  { induction c as [|x c IH]; cbn; [intros _; apply not_elem_of_nil|].
    destruct (last_newline c); [done|]. case_decide; [done|]. intros _.
    rewrite not_elem_of_cons. split; [congruence|by apply IH]. }
  revert i. induction b as [|x b IH]; intros i; cbn [last_newline]; [done|].
  destruct (last_newline b) as [j|] eqn:E.
  - intros [= <-]. destruct (IH j eq_refl) as (l & r & -> & Ht & Hl & Hr). exists (x :: l), r.
    split_and!; [done| |cbn; lia|done]. cbn [take]. rewrite Ht. done.
  - case_decide; [|done]. intros [= <-]. subst. exists [], b. split_and!; [done|done|done|by apply Hnone].
Qed.

Lemma last_newline_none b : last_newline b = None → x0a ∉ b.
Proof.
  induction b as [|x b IH]; cbn; [intros _; apply not_elem_of_nil|].
  destruct (last_newline b); [done|]. case_decide; [done|]. intros _.
  rewrite not_elem_of_cons. split; [congruence|by apply IH].
Qed.

(** ** The files a disk has over time

    Each file has an inode number, which another may have had before it, and only grows: whatever a look finds of it is a
    prefix of what it comes to hold. *)

Variable ident : nat → Z.
Variable content : nat → bytes.

(** Two files that have one inode number in turn differ in the first bytes of their complete lines. *)
Hypothesis told_apart : ∀ u v line,
  ident u = ident v → complete line → line ≠ [] → line `prefix_of` content u →
  take HEAD_BYTES line `prefix_of` content v → u = v.

Definition genuine (file : option LogFile) : Prop :=
  match file with Some f => ∃ u, lf_id f = ident u ∧ lf_bytes f `prefix_of` content u | None => True end.

Definition genuine_looks (looks : Looks) : Prop :=
  genuine (ld_rotated (lk_rotated looks)) ∧ genuine (ld_current (lk_current looks)).

(** [b] is what the generation has read. *)
Definition has_read (gen : Generation) (b : bytes) : Prop :=
  complete b ∧ gn_offset gen = length b ∧ gn_head gen = take HEAD_BYTES b ∧ gn_records gen = parsed b.

Definition gen_ok (gen : Generation) : Prop :=
  ∃ b, has_read gen b ∧ (b = [] ∨ ∃ u, gn_id gen = Some (ident u) ∧ b `prefix_of` content u).

Definition read_of (file : option LogFile) : list json :=
  match file with Some f => parsed (lf_bytes f) | None => [] end.

Lemma has_read_new id : has_read (generation id) [].
Proof. split_and!; try done. by left. Qed.

Lemma gen_ok_new id : gen_ok (generation id).
Proof. exists []. split; [apply has_read_new|by left]. Qed.

(** A file that is not taken for another one begins with what was read. *)
Lemma not_replaced gen f b u :
  lf_id f = ident u → lf_bytes f `prefix_of` content u → has_read gen b →
  (b = [] ∨ ∃ v, gn_id gen = Some (ident v) ∧ b `prefix_of` content v) →
  replaced gen f = false → gn_id gen = Some (lf_id f) ∧ b `prefix_of` lf_bytes f.
Proof.
  intros Hid Hf (Hc & Ho & Hh & _) Hb Hr. unfold replaced in Hr.
  apply orb_false_iff in Hr as [Hr H3]. apply orb_false_iff in Hr as [H1 H2].
  apply negb_false_iff, bool_decide_eq_true in H1. apply Nat.ltb_ge in H2. rewrite Ho in H2.
  split; [done|]. destruct Hb as [->|(v & Hv & Hpre)]; [apply prefix_nil|].
  destruct b as [|x b]; [apply prefix_nil|].
  apply andb_false_iff in H3 as [H3|H3]; [apply Nat.ltb_ge in H3; rewrite Hh in H3; cbn in H3; lia|].
  apply negb_false_iff, bool_decide_eq_true in H3. unfold readAt in H3. rewrite drop_0, Hh in H3.
  assert (v = u) as ->.
  { eapply told_apart; [congruence|exact Hc|done|exact Hpre|].
    etrans; [|exact Hf]. rewrite <- H3. apply prefix_take. }
  destruct (prefix_weak_total (x :: b) (lf_bytes f) (content u) Hpre Hf) as [Hp|Hp]; [done|].
  apply prefix_length_eq in Hp; [by rewrite Hp|done].
Qed.

(** What [advance] does once it knows that the file begins with what was read. *)
Definition grow (gen : Generation) (f : LogFile) (changed : bool) : Generation * bool :=
  let len := (length (lf_bytes f) - gn_offset gen)%nat in
  if (len =? 0)%nat then (gen, changed)
  else
    let buffer := readAt f len (gn_offset gen) in
    match last_newline buffer with
    | None => (gen, changed)
    | Some end_ =>
        let line := take (S end_) buffer in
        let added := parseNdjsonText (utf8_toString line) in
        ({| gn_id := gn_id gen;
            gn_offset := gn_offset gen + S end_;
            gn_head := if (length (gn_head gen) <? HEAD_BYTES)%nat then take HEAD_BYTES (gn_head gen ++ line)
                       else gn_head gen;
            gn_records := gn_records gen ++ added |},
         changed || (0 <? length added)%nat)
    end.

Lemma advance_grow gen f :
  advance gen (Some f) =
  if replaced gen f then
    grow (generation (Some (lf_id f))) f (bool_decide (is_Some (gn_id gen)) || (0 <? length (gn_records gen))%nat)
  else grow gen f false.
Proof. unfold advance. by destruct (replaced gen f). Qed.

Lemma head_grows (b line : bytes) :
  (if (length (take HEAD_BYTES b) <? HEAD_BYTES)%nat then take HEAD_BYTES (take HEAD_BYTES b ++ line)
   else take HEAD_BYTES b) = take HEAD_BYTES (b ++ line).
Proof.
  rewrite length_take. destruct (_ <? _)%nat eqn:E.
  - apply Nat.ltb_lt in E. by rewrite (take_ge b) by lia.
  - apply Nat.ltb_ge in E. by rewrite take_app_le by lia.
Qed.

Lemma grow_ok gen f b u changed :
  has_read gen b → gn_id gen = Some (lf_id f) → lf_id f = ident u →
  b `prefix_of` lf_bytes f → lf_bytes f `prefix_of` content u →
  let '(gen', changed') := grow gen f changed in
  gen_ok gen' ∧ gn_records gen' = parsed (lf_bytes f) ∧
  (changed' = false → changed = false ∧ gn_records gen' = gn_records gen).
Proof.
  intros (Hc & Ho & Hh & Hr) Hi Hu [k Hk] Hf. unfold grow.
  assert (gen_ok gen) as Hok.
  { exists b. split; [done|]. right. exists u. split; [congruence|]. etrans; [|exact Hf]. by exists k. }
  assert (readAt f (length (lf_bytes f) - gn_offset gen) (gn_offset gen) = k) as ->.
  { unfold readAt. rewrite Ho, Hk, drop_app_length, length_app. apply take_ge. lia. }
  rewrite Hr, Hk, parsed_app by done. destruct (_ =? 0)%nat eqn:El.
  { apply Nat.eqb_eq in El. rewrite length_app, Ho in El. destruct k; [|cbn in El; lia].
    rewrite (parsed_rest []), app_nil_r by apply not_elem_of_nil. done. }
  destruct (last_newline k) as [i|] eqn:En; cycle 1.
  { apply last_newline_none in En. by rewrite (parsed_rest k), app_nil_r. }
  destruct (last_newline_some _ _ En) as (l & r & Hk' & -> & Hl & Hn).
  rewrite Hh, head_grows. fold (parsed (l ++ [x0a])).
  assert (complete (l ++ [x0a])) as Hcl by (right; by exists l).
  assert (parsed k = parsed (l ++ [x0a])) as Hp by (rewrite Hk', parsed_app, (parsed_rest r), app_nil_r by done; done).
  cbn [gn_records]. rewrite Hp. split_and!; [|done|].
  - exists (b ++ l ++ [x0a]). split.
    + split_and!; [by apply complete_app|cbn; by rewrite length_app, Ho, Hl|done|]. cbn [gn_records]. by rewrite (parsed_app b).
    + right. exists u. split; [cbn; congruence|]. etrans; [|exact Hf]. rewrite Hk, Hk'. apply prefix_app, prefix_app_r. done.
  - intros [-> Hz]%orb_false_iff. split; [done|]. apply Nat.ltb_ge in Hz.
    destruct (parsed (l ++ [x0a])); [by rewrite app_nil_r|cbn in Hz; lia].
Qed.

Lemma advance_ok gen file :
  gen_ok gen → genuine file →
  let '(gen', changed) := advance gen file in
  gen_ok gen' ∧ gn_records gen' = read_of file ∧ (changed = false → gn_records gen' = gn_records gen).
Proof.
  intros (b & Hb & Hp) Hg. destruct file as [f|]; cycle 1.
  { cbn. split_and!; [apply gen_ok_new|done|]. intros Hi%bool_decide_eq_false.
    destruct Hp as [->|(u & Hu & _)]; [|by destruct Hi; rewrite Hu]. by destruct Hb as (_ & _ & _ & ->). }
  destruct Hg as (u & Hu & Hf). rewrite advance_grow. destruct (replaced gen f) eqn:Er.
  - pose proof (grow_ok (generation (Some (lf_id f))) f [] u
      (bool_decide (is_Some (gn_id gen)) || (0 <? length (gn_records gen))%nat)
      (has_read_new _) eq_refl Hu (prefix_nil _) Hf) as H.
    destruct (grow _ f _) as [gen' changed]. destruct H as (H1 & H2 & H3). split_and!; [done|done|].
    intros Hc. destruct (H3 Hc) as [[_ Hz]%orb_false_iff ->]. apply Nat.ltb_ge in Hz.
    destruct (gn_records gen); [done|cbn in Hz; lia].
  - destruct (not_replaced gen f b u Hu Hf Hb Hp Er) as [Hi Hpre].
    pose proof (grow_ok gen f b u false Hb Hi Hu Hpre Hf) as H. destruct (grow gen f false) as [gen' changed].
    destruct H as (H1 & H2 & H3). split_and!; [done|done|]. intros Hc. by destruct (H3 Hc).
Qed.

Definition tail_ok (t : Tail) : Prop :=
  gen_ok (tl_rotated t) ∧ gen_ok (tl_current t) ∧ tl_all t = gn_records (tl_rotated t) ++ gn_records (tl_current t).

Lemma read_tail_ok t looks :
  tail_ok t → genuine_looks looks →
  tail_ok (read_tail t looks) ∧
  tl_all (read_tail t looks) = read_of (ld_rotated (lk_rotated looks)) ++ read_of (ld_current (lk_current looks)).
Proof.
  intros (Hr & Hc & Ha) [Hgr Hgc]. unfold read_tail.
  assert (∀ rotated current moved, gen_ok rotated → gen_ok current →
    (moved = false → rotated = tl_rotated t ∧ current = tl_current t) →
    let '(rotated', changed1) := advance rotated (ld_rotated (lk_rotated looks)) in
    let '(current', changed2) := advance current (ld_current (lk_current looks)) in
    let t' := {| tl_rotated := rotated'; tl_current := current';
                 tl_all := if moved || changed1 || changed2 then gn_records rotated' ++ gn_records current' else tl_all t |} in
    tail_ok t' ∧
    tl_all t' = read_of (ld_rotated (lk_rotated looks)) ++ read_of (ld_current (lk_current looks))) as Hgo.
  { intros rotated current moved H1 H2 Hm.
    pose proof (advance_ok rotated _ H1 Hgr) as A1. pose proof (advance_ok current _ H2 Hgc) as A2.
    destruct (advance rotated _) as [rotated' c1], (advance current _) as [current' c2].
    destruct A1 as (K1 & R1 & U1), A2 as (K2 & R2 & U2). cbn [tl_all tl_rotated tl_current]. rewrite <- R1, <- R2.
    destruct (moved || c1 || c2) eqn:E; [done|].
    apply orb_false_iff in E as [[Em E1]%orb_false_iff E2]. destruct (Hm Em) as [-> ->].
    assert (tl_all t = gn_records rotated' ++ gn_records current') as Hall by (rewrite (U1 E1), (U2 E2); done).
    split; [|done]. by split_and!. }
  destruct (was_rotated t looks).
  - pose proof (Hgo (tl_current t) (generation None) true Hc (gen_ok_new _) ltac:(done)) as H.
    destruct (advance (tl_current t) _), (advance (generation None) _). exact H.
  - pose proof (Hgo (tl_rotated t) (tl_current t) false Hr Hc ltac:(done)) as H.
    destruct (advance (tl_rotated t) _), (advance (tl_current t) _). exact H.
Qed.

(** What each call of a tail returns. *)
Fixpoint tail_reads (t : Tail) (calls : list Looks) : list (list json) :=
  match calls with
  | [] => []
  | looks :: calls => let t := read_tail t looks in tl_all t :: tail_reads t calls
  end.

(** The disk as the last two looks of a call find it. *)
Definition read_disk (looks : Looks) : LogDisk :=
  {| ld_rotated := ld_rotated (lk_rotated looks); ld_current := ld_current (lk_current looks) |}.

(** C39: a tail gives, at each call, the records that a full read of the log and of its rotated generation gives at the times it
    looks at them, however the files were appended to, rotated, removed and replaced since the last call and
    between the looks of one call, although it reads only what was appended. Two files with one inode number, one
    after the other, must differ in the first bytes of their lines, as the code's comment says. *)
Theorem tail_reads_all calls :
  Forall genuine_looks calls →
  tail_reads createNdjsonTail calls = map (fun looks => readNdjsonGenerations (read_disk looks)) calls.
Proof.
  intros Hc. assert (tail_ok createNdjsonTail) as Ht by (split_and!; [apply gen_ok_new..|done]).
  revert Ht. generalize createNdjsonTail. induction Hc as [|looks calls Hl _ IH]; intros t Ht; [done|].
  cbn [tail_reads map]. destruct (read_tail_ok t looks Ht Hl) as [Ht' ->]. rewrite (IH _ Ht'). done.
Qed.
End Tails.

(** ** A log that is rotated in the middle of a line, and whose inode number is used again *)

Module SampleTail.
#[global] Instance node_text : NodeText := {|
  buffer_toString b := map Z_of_byte b;
  JSON_parse s := Some (JObject [(s, JNull)]);
  JSON_stringify _ := [];
  JSON_stringify_2 _ := [];
|}.

Definition ident (u : nat) : Z := 5.
Definition content (u : nat) : bytes :=
  match u with 0%nat => ascii "a" ++ [x0a] ++ ascii "b" ++ [x0a] | 1%nat => ascii "c" ++ [x0a] | _ => [] end.

Lemma prefix_head {A} (x y : A) l k : (x :: l) `prefix_of` (y :: k) → x = y.
Proof. intros [r H]. by injection H. Qed.

Lemma sample_apart u v line :
  ident u = ident v → complete line → line ≠ [] → line `prefix_of` content u →
  take HEAD_BYTES line `prefix_of` content v → u = v.
Proof.
  intros _ _ Hne Hu Hv. destruct line as [|x l]; [done|]. change (take HEAD_BYTES (x :: l)) with (x :: take 63 l) in Hv.
  destruct u as [|[|u]], v as [|[|v]]; try done; cbn in Hu, Hv;
    try (apply prefix_nil_inv in Hu; discriminate); try (apply prefix_nil_inv in Hv; discriminate);
    apply prefix_head in Hu, Hv; congruence.
Qed.

Definition log (u n : nat) : option LogFile := Some {| lf_id := ident u; lf_bytes := take n (content u) |}.
Definition still (disk : LogDisk) : Looks :=
  {| lk_current_id := disk; lk_rotated_id := disk; lk_rotated := disk; lk_current := disk |}.
Definition calls : list Looks :=
  [still {| ld_rotated := None; ld_current := log 0 3 |};
   still {| ld_rotated := log 0 4; ld_current := log 1 2 |}].

Lemma calls_genuine : Forall (genuine_looks ident content) calls.
Proof.
  assert (∀ u n, genuine ident content (log u n)) as H by (intros u n; exists u; split; [done|apply prefix_take]).
  repeat constructor; try apply H.
Qed.

Lemma tail_reads_all_witness :
  tail_reads createNdjsonTail calls = map (fun looks => readNdjsonGenerations (read_disk looks)) calls ∧
  map length (tail_reads createNdjsonTail calls) = [1%nat; 3%nat].
Proof. split; [apply (tail_reads_all ident content sample_apart calls calls_genuine)|vm_compute; reflexivity]. Defined.
End SampleTail.
