(* ===== verification/Video.v ===== *)
(** * Video and frames: [packages/server/src/video.ts], [frame-delivery.ts] and the records of [recorder.ts]

    The binary message of an access unit and of the same unit in a recording, which of a stream's
    units a subscriber gets, the encoder's bitrate, and the delivery of still frames. Offsets,
    flags and widths are those of the code; a write out of its range throws. The time a unit was
    captured is the 64 bits of its double. *)

From Stdlib Require Import ZArith Lia.
From S2P Require Import Prelude.
From S2P Require Import Bytes.
From S2P Require Import Json.
Open Scope Z_scope.

(** ** [Buffer] *)

Inductive range_error := RangeError.

(** [buffer.write...(value, at)] in a buffer that has room there. *)
Definition put (at_ : nat) (b buffer : bytes) : bytes :=
  take at_ buffer ++ b ++ drop (at_ + length b) buffer.

(** [writeUInt8], [writeUInt16BE] and [writeUInt32BE] throw out of range; [writeDoubleBE] takes any
    number. *)
Definition writeUInt (width at_ : nat) (value : Z) (buffer : bytes) : result range_error bytes :=
  if (0 <=? value) && (value <? 256 ^ Z.of_nat width)
  then Ok (put at_ (write_be width value) buffer) else Throw RangeError.
Definition writeDoubleBE (at_ : nat) (bits : Z) (buffer : bytes) : bytes := put at_ (write_be 8 bits) buffer.

Definition readUInt (width at_ : nat) (buffer : bytes) : Z := read_be (subarray at_ (at_ + width) buffer).
Definition readDoubleBE (at_ : nat) (buffer : bytes) : Z := readUInt 8 at_ buffer.

(** [Buffer.from(text, 'ascii')] keeps the low byte of each code unit; [toString('ascii')] the low seven
    bits of each byte. *)
Definition from_ascii (s : units) : bytes := map byte_of_Z s.
Definition to_ascii (b : bytes) : units := map (fun x => Z.land (Z_of_byte x) 127) b.

(** ** Access units *)

Inductive Posture := Folded | Unfolded.

Record AccessUnit := {
  au_keyframe : bool;
  au_capturedAt : Z;
  au_width : Z;
  au_height : Z;
  au_posture : option Posture;
  au_artworkTurns : option Z;
  au_data : bytes;
}.

Definition VIDEO_HEADER_VERSION : Z := 1.
Definition VIDEO_KEYFRAME : Z := 1.
Definition VIDEO_FOLDED : Z := 2.
Definition VIDEO_UNFOLDED : Z := 4.
Definition VIDEO_ARTWORK : Z := 32.
Definition FIXED_HEADER_BYTES : nat := 21.

Definition posture_bits (posture : option Posture) : Z :=
  match posture with Some Folded => VIDEO_FOLDED | Some Unfolded => VIDEO_UNFOLDED | None => 0 end.

(** [n << 3] on 32 bits. *)
Definition shift_left_3 (n : Z) : Z :=
  let v := (n * 8) mod 2 ^ 32 in if v <? 2 ^ 31 then v else v - 2 ^ 32.

Definition artwork_bits (turns : option Z) : Z :=
  match turns with None => 0 | Some turns => Z.lor VIDEO_ARTWORK (shift_left_3 turns) end.

Definition keyframe_bit (keyframe : bool) : Z := if keyframe then VIDEO_KEYFRAME else 0.

Definition videoPacket (subscription : units) (sequence : Z) (unit : AccessUnit) :
    result range_error bytes :=
  let id := from_ascii subscription in
  let header := replicate (FIXED_HEADER_BYTES + length id) x00 in
  header ← writeUInt 1 0 VIDEO_HEADER_VERSION header;
  header ← writeUInt 1 1 (Z.lor (Z.lor (keyframe_bit (au_keyframe unit)) (posture_bits (au_posture unit)))
                            (artwork_bits (au_artworkTurns unit))) header;
  header ← writeUInt 2 2 (Z.of_nat (length header)) header;
  header ← writeUInt 4 4 (sequence mod 2 ^ 32) header;
  header ← Ok (writeDoubleBE 8 (au_capturedAt unit) header);
  header ← writeUInt 2 16 (au_width unit) header;
  header ← writeUInt 2 18 (au_height unit) header;
  header ← writeUInt 1 20 (Z.of_nat (length id)) header;
  header ← Ok (put FIXED_HEADER_BYTES id header);
  Ok (header ++ au_data unit).

Definition videoSubscription (packet : bytes) : option units :=
  if (length packet <? FIXED_HEADER_BYTES)%nat || negb (readUInt 1 0 packet =? VIDEO_HEADER_VERSION)
  then None
  else
    let headerBytes := (FIXED_HEADER_BYTES + Z.to_nat (readUInt 1 20 packet))%nat in
    if (length packet <? headerBytes)%nat || negb (readUInt 2 2 packet =? Z.of_nat headerBytes)
    then None
    else Some (to_ascii (subarray FIXED_HEADER_BYTES headerBytes packet)).

Definition has_bit (flags bit : Z) : bool := negb (Z.land flags bit =? 0).

Definition accessUnitOf (packet : bytes) : option AccessUnit :=
  match videoSubscription packet with
  | None => None
  | Some _ =>
      let flags := readUInt 1 1 packet in
      Some {| au_keyframe := has_bit flags VIDEO_KEYFRAME;
              au_capturedAt := readDoubleBE 8 packet;
              au_width := readUInt 2 16 packet;
              au_height := readUInt 2 18 packet;
              au_posture := if has_bit flags VIDEO_FOLDED then Some Folded
                            else if has_bit flags VIDEO_UNFOLDED then Some Unfolded else None;
              au_artworkTurns := if has_bit flags VIDEO_ARTWORK
                                 then Some (Z.land (Z.shiftr flags 3) 3) else None;
              au_data := subarray_from (Z.to_nat (readUInt 2 2 packet)) packet |}
  end.

(** [Ok None] where the packet is not one of [upstream]'s. *)
Definition rewriteVideoSubscription (packet : bytes) (upstream subscription : units) :
    result range_error (option bytes) :=
  if decide (videoSubscription packet = Some upstream) then
    let id := from_ascii subscription in
    let header := subarray 0 FIXED_HEADER_BYTES packet in
    header ← writeUInt 2 2 (Z.of_nat (FIXED_HEADER_BYTES + length id)) header;
    header ← writeUInt 1 20 (Z.of_nat (length id)) header;
    Ok (Some (header ++ id ++ subarray_from (FIXED_HEADER_BYTES + length upstream) packet))
  else Ok None.

(** ** Records of a recording *)

Definition RECORD_HEADER_BYTES : nat := 13.

Definition recordBytes (unit : AccessUnit) : result range_error bytes :=
  let header := replicate (4 + RECORD_HEADER_BYTES) x00 in
  header ← writeUInt 4 0 (Z.of_nat (RECORD_HEADER_BYTES + length (au_data unit))) header;
  header ← writeUInt 1 4 (Z.lor (keyframe_bit (au_keyframe unit)) (posture_bits (au_posture unit))) header;
  header ← Ok (writeDoubleBE 5 (au_capturedAt unit) header);
  header ← writeUInt 2 13 (au_width unit) header;
  header ← writeUInt 2 15 (au_height unit) header;
  Ok (header ++ au_data unit).

(** [readUnitsFrom(bytes)] from an offset on; each turn takes at least 17 bytes, so the number of bytes
    is fuel enough. *)
Fixpoint read_units (fuel at_ : nat) (b : bytes) : list AccessUnit :=
  match fuel with
  | O => []
  | S fuel =>
      if (at_ + 4 <=? length b)%nat then
        let length_ := Z.to_nat (readUInt 4 at_ b) in
        if (length_ <? 13)%nat || (length b <? at_ + 4 + length_)%nat then []
        else
          let flags := readUInt 1 (at_ + 4) b in
          {| au_keyframe := has_bit flags VIDEO_KEYFRAME;
             au_capturedAt := readDoubleBE (at_ + 5) b;
             au_width := readUInt 2 (at_ + 13) b;
             au_height := readUInt 2 (at_ + 15) b;
             au_posture := if has_bit flags VIDEO_UNFOLDED then Some Unfolded
                           else if has_bit flags VIDEO_FOLDED then Some Folded else None;
             au_artworkTurns := None;
             au_data := subarray (at_ + 17) (at_ + 4 + length_) b |}
          :: read_units fuel (at_ + (4 + length_)) b
      else []
  end.

Definition readUnitsFrom (b : bytes) : list AccessUnit := read_units (length b) 0 b.

(** ** The gate of one subscriber *)

Record VideoGate := { vg_waiting : bool; vg_congestedBytes : Z }.

Inductive Verdict := Send | Drop | Congested.

#[export] Instance Verdict_eq_dec : EqDecision Verdict.
Proof. solve_decision. Defined.

Definition new_gate (congestedBytes : Z) : VideoGate :=
  {| vg_waiting := true; vg_congestedBytes := congestedBytes |}.
Definition set_waiting (waiting : bool) (g : VideoGate) : VideoGate :=
  {| vg_waiting := waiting; vg_congestedBytes := vg_congestedBytes g |}.

Definition admit_unit (keyframe : bool) (bufferedBytes : Z) (g : VideoGate) : VideoGate * Verdict :=
  if vg_congestedBytes g <? bufferedBytes then
    if vg_waiting g then (g, Drop) else (set_waiting true g, Congested)
  else if vg_waiting g && negb keyframe then (g, Drop)
  else (set_waiting false g, Send).

Definition reset_gate (g : VideoGate) : VideoGate := set_waiting true g.

(** ** The bitrate of one encoder *)

Record VideoLimits := {
  vl_congestedBytes : Z;
  vl_startBitrate : Z;
  vl_minBitrate : Z;
  vl_maxBitrate : Z;
  vl_recoverMs : Z;
}.

Definition DEFAULT_VIDEO_LIMITS : VideoLimits :=
  {| vl_congestedBytes := 256 * 1024; vl_startBitrate := 3000000; vl_minBitrate := 250000;
     vl_maxBitrate := 8000000; vl_recoverMs := 2000 |}.

(** [cutAt] is [None] for [-Infinity]. *)
Record Bitrate := {
  br_value : Z;
  br_calmSince : Z;
  br_cutAt : option Z;
  br_ceiling : Z;
  br_limits : VideoLimits;
}.

Definition new_bitrate (limits : VideoLimits) (now : Z) : Bitrate :=
  {| br_value := vl_startBitrate limits; br_calmSince := now; br_cutAt := None;
     br_ceiling := vl_maxBitrate limits; br_limits := limits |}.

Definition limit_bitrate (ceiling : Z) (b : Bitrate) : Bitrate :=
  let ceiling := Z.min (vl_maxBitrate (br_limits b)) (Z.max (vl_minBitrate (br_limits b)) ceiling) in
  {| br_value := Z.min (br_value b) ceiling; br_calmSince := br_calmSince b; br_cutAt := br_cutAt b;
     br_ceiling := ceiling; br_limits := br_limits b |}.

Definition set_bitrate (next : Z) (b : Bitrate) : Bitrate * option Z :=
  if next =? br_value b then (b, None)
  else ({| br_value := next; br_calmSince := br_calmSince b; br_cutAt := br_cutAt b;
           br_ceiling := br_ceiling b; br_limits := br_limits b |}, Some next).

Definition set_times (calmSince : Z) (cutAt : option Z) (b : Bitrate) : Bitrate :=
  {| br_value := br_value b; br_calmSince := calmSince; br_cutAt := cutAt;
     br_ceiling := br_ceiling b; br_limits := br_limits b |}.

(** [Math.round] of half and of five quarters of an integer. *)
Definition round_half (v : Z) : Z := (v + 1) / 2.
Definition round_five_quarters (v : Z) : Z := (5 * v + 2) / 4.

Definition congested (now : Z) (b : Bitrate) : Bitrate * option Z :=
  let b := set_times now (br_cutAt b) b in
  if match br_cutAt b with Some cutAt => now - cutAt <? vl_recoverMs (br_limits b) | None => false end
  then (b, None)
  else
    let b := set_times (br_calmSince b) (Some now) b in
    set_bitrate (Z.max (vl_minBitrate (br_limits b)) (round_half (br_value b))) b.

Definition tick (now : Z) (b : Bitrate) : Bitrate * option Z :=
  if now - br_calmSince b <? vl_recoverMs (br_limits b) then (b, None)
  else
    let b := set_times now (br_cutAt b) b in
    set_bitrate (Z.min (br_ceiling b) (round_five_quarters (br_value b))) b.

(** ** Still frames: [LatestFrames]

    [retry] is the delay of the timer that is set, in milliseconds times [fps], so that it is an
    integer. *)

Definition FRAME_RETRY_MS : Z := 50.
Definition FRAME_BUFFER_FRAMES : Z := 2.

Section LatestFrames.
Context {T : Type} (data_length : T → Z).

Record LatestFrames := {
  lf_pending : option T;
  lf_retry : option Z;
  lf_sentAt : Z;
  lf_stopped : bool;
  lf_fps : Z;
}.

Definition new_frames (fps : Z) : LatestFrames :=
  {| lf_pending := None; lf_retry := None; lf_sentAt := 0; lf_stopped := false; lf_fps := fps |}.

Definition set_retry (retry : option Z) (f : LatestFrames) : LatestFrames :=
  {| lf_pending := lf_pending f; lf_retry := retry; lf_sentAt := lf_sentAt f;
     lf_stopped := lf_stopped f; lf_fps := lf_fps f |}.
Definition set_pending (frame : T) (f : LatestFrames) : LatestFrames :=
  {| lf_pending := Some frame; lf_retry := lf_retry f; lf_sentAt := lf_sentAt f;
     lf_stopped := lf_stopped f; lf_fps := lf_fps f |}.

(** The frame that is sent, if one is. *)
Definition flush_frames (now buffered : Z) (f : LatestFrames) : LatestFrames * option T :=
  let f := set_retry None f in
  match lf_pending f, lf_stopped f with
  | Some frame, false =>
      let wait := (lf_sentAt f - now) * lf_fps f + 1000 in
      if 0 <? wait then (set_retry (Some wait) f, None)
      else if FRAME_BUFFER_FRAMES * data_length frame <? buffered
      then (set_retry (Some (FRAME_RETRY_MS * lf_fps f)) f, None)
      else ({| lf_pending := None; lf_retry := lf_retry f; lf_sentAt := now;
               lf_stopped := lf_stopped f; lf_fps := lf_fps f |}, Some frame)
  | _, _ => (f, None)
  end.

Definition push_frame (frame : T) (now buffered : Z) (f : LatestFrames) : LatestFrames * option T :=
  if lf_stopped f then (f, None)
  else
    let f := set_pending frame f in
    match lf_retry f with None => flush_frames now buffered f | Some _ => (f, None) end.

Definition stop_frames (f : LatestFrames) : LatestFrames :=
  {| lf_pending := None; lf_retry := None; lf_sentAt := lf_sentAt f; lf_stopped := true;
     lf_fps := lf_fps f |}.
End LatestFrames.
Arguments LatestFrames : clear implicits.
