(* ===== verification/VideoFacts.v ===== *)
(** * Video messages, recordings and delivery

    A video message carries its unit and its subscription, and rewriting the subscription is sending the
    unit on the other one; a recording that ends in the middle of a unit reads back every whole one;
    what a gate lets through can be decoded; the bitrate stays in its limits and is not cut twice in
    a recovery time; still frames keep their rate and the latest one is not lost. *)

From Stdlib Require Import ZArith Lia.
From S2P Require Import Prelude.
From S2P Require Import Bytes.
From S2P Require Import Json.
From S2P Require Import Video.
Open Scope Z_scope.

(** ** Buffers *)

Lemma put_here x b c : length b = length x → put 0 x (b ++ c) = x ++ c.
Proof. intros H. unfold put. cbn. by rewrite drop_app_exact. Qed.

Lemma put_skip k j x p q : length p = k → put (k + j) x (p ++ q) = p ++ put j x q.
Proof.
  intros <-. unfold put. rewrite take_app_add, <- app_assoc. do 2 f_equal.
  by rewrite <- Nat.add_assoc, drop_app_add.
Qed.

Lemma readUInt_here w b c : length b = w → readUInt w 0 (b ++ c) = read_be b.
Proof. intros H. unfold readUInt. by rewrite subarray_prefix. Qed.

Lemma readUInt_skip w k j p q : length p = k → readUInt w (k + j) (p ++ q) = readUInt w j q.
Proof.
  intros <-. unfold readUInt, subarray. rewrite drop_app_add. do 2 f_equal. lia.
Qed.

Lemma read_written n z : 0 <= z < 256 ^ Z.of_nat n → read_be (write_be n z) = z.
Proof. intros H. rewrite read_write_be. by apply Z.mod_small. Qed.

Lemma writeUInt_ok w at_ v b :
  0 <= v < 256 ^ Z.of_nat w → writeUInt w at_ v b = Ok (put at_ (write_be w v) b).
Proof.
  intros [H1 H2]. unfold writeUInt. by rewrite (proj2 (Z.leb_le _ _) H1), (proj2 (Z.ltb_lt _ _) H2).
Qed.

Lemma ascii_roundtrip s : Forall (fun u => 0 <= u < 128) s → to_ascii (from_ascii s) = s.
Proof.
  unfold to_ascii, from_ascii. induction 1 as [|u s Hu Hs IH]; [done|]. cbn. rewrite IH. f_equal.
  rewrite Z_of_byte_small by lia. change 127 with (Z.ones 7). rewrite Z.land_ones by lia.
  apply Z.mod_small. cbn. lia.
Qed.

Lemma length_from_ascii s : length (from_ascii s) = length s.
Proof. apply length_map. Qed.

(** ** The layout of a message *)

(** A unit whose fields fit their places, and a subscription that is one byte long at most. *)
Record unit_ok (u : AccessUnit) : Prop := {
  ok_captured : 0 <= au_capturedAt u < 256 ^ 8;
  ok_width : 0 <= au_width u < 256 ^ 2;
  ok_height : 0 <= au_height u < 256 ^ 2;
  ok_turns t : au_artworkTurns u = Some t → 0 <= t < 4;
}.

Definition id_ok (s : units) : Prop := Forall (fun u => 0 <= u < 128) s ∧ (length s <= 255)%nat.

Definition flags_of (u : AccessUnit) : Z :=
  Z.lor (Z.lor (keyframe_bit (au_keyframe u)) (posture_bits (au_posture u)))
    (artwork_bits (au_artworkTurns u)).

(** Each flag reads back what was written. *)
Lemma flags_read u :
  unit_ok u →
  0 <= flags_of u < 256 ∧
  has_bit (flags_of u) VIDEO_KEYFRAME = au_keyframe u ∧
  (if has_bit (flags_of u) VIDEO_FOLDED then Some Folded
   else if has_bit (flags_of u) VIDEO_UNFOLDED then Some Unfolded else None) = au_posture u ∧
  (if has_bit (flags_of u) VIDEO_ARTWORK then Some (Z.land (Z.shiftr (flags_of u) 3) 3) else None)
  = au_artworkTurns u.
Proof.
  intros [_ _ _ Ht]. destruct u as [k c w h p [t|] d]; unfold flags_of; cbn in *.
  - specialize (Ht t eq_refl). assert (t = 0 ∨ t = 1 ∨ t = 2 ∨ t = 3) as Hc by lia.
    destruct Hc as [->|[->|[->| ->]]]; destruct k, p as [[]|]; vm_compute; split_and!; congruence.
  - destruct k, p as [[]|]; vm_compute; split_and!; congruence.
Qed.

Definition layout (s : units) (sequence : Z) (u : AccessUnit) : bytes :=
  write_be 1 VIDEO_HEADER_VERSION ++ write_be 1 (flags_of u)
  ++ write_be 2 (Z.of_nat (FIXED_HEADER_BYTES + length s)) ++ write_be 4 (sequence mod 2 ^ 32)
  ++ write_be 8 (au_capturedAt u) ++ write_be 2 (au_width u) ++ write_be 2 (au_height u)
  ++ write_be 1 (Z.of_nat (length s)) ++ from_ascii s ++ au_data u.

(** A field is written where it belongs. *)
Ltac fill :=
  rewrite ?put_skip, put_here by (rewrite ?length_write_be, ?length_replicate; done).

Lemma videoPacket_layout s sequence u :
  unit_ok u → (length s <= 255)%nat → videoPacket s sequence u = Ok (layout s sequence u).
Proof.
  intros Hu Hs. destruct (flags_read u Hu) as [Hf _]. destruct Hu as [Hc Hw Hh _].
  unfold videoPacket. fold (flags_of u). rewrite length_from_ascii.
  assert (replicate (FIXED_HEADER_BYTES + length s) x00 =
    replicate 1 x00 ++ replicate 1 x00 ++ replicate 2 x00 ++ replicate 4 x00 ++ replicate 8 x00
    ++ replicate 2 x00 ++ replicate 2 x00 ++ replicate 1 x00 ++ replicate (length s) x00) as ->.
  { by rewrite <- !replicate_add. }
  rewrite writeUInt_ok by done. cbn [mbind result_bind]. fill.
  rewrite writeUInt_ok by done. cbn [mbind result_bind].
  change (put 1) with (put (1 + 0)). fill.
  match goal with |- context [writeUInt 2 2 (Z.of_nat (length ?h))] =>
    replace (length h) with (FIXED_HEADER_BYTES + length s)%nat
      by (rewrite !length_app, !length_write_be, !length_replicate; done) end.
  rewrite writeUInt_ok by (unfold FIXED_HEADER_BYTES; cbn; lia). cbn [mbind result_bind].
  change (put 2) with (put (1 + (1 + 0))). fill.
  rewrite writeUInt_ok by (pose proof (Z.mod_pos_bound sequence (2 ^ 32)); lia). cbn [mbind result_bind].
  change (put 4) with (put (1 + (1 + (2 + 0)))). fill.
  unfold writeDoubleBE. change (put 8) with (put (1 + (1 + (2 + (4 + 0))))). fill.
  rewrite writeUInt_ok by done. cbn [mbind result_bind].
  change (put 16) with (put (1 + (1 + (2 + (4 + (8 + 0)))))). fill.
  rewrite writeUInt_ok by done. cbn [mbind result_bind].
  change (put 18) with (put (1 + (1 + (2 + (4 + (8 + (2 + 0))))))). fill.
  rewrite writeUInt_ok by (cbn; lia). cbn [mbind result_bind].
  change (put 20) with (put (1 + (1 + (2 + (4 + (8 + (2 + (2 + 0)))))))). fill.
  change (put FIXED_HEADER_BYTES) with (put (1 + (1 + (2 + (4 + (8 + (2 + (2 + (1 + 0))))))))).
  rewrite !put_skip by (rewrite ?length_write_be; done).
  rewrite <- (app_nil_r (replicate (length s) x00)), put_here by (by rewrite length_replicate, length_from_ascii).
  unfold layout. by rewrite <- !app_assoc, app_nil_l.
Qed.

Ltac skip_fields := rewrite ?readUInt_skip, readUInt_here by (rewrite ?length_write_be; done).

Lemma layout_reads s sequence u :
  unit_ok u → (length s <= 255)%nat →
  readUInt 1 0 (layout s sequence u) = VIDEO_HEADER_VERSION ∧
  readUInt 1 1 (layout s sequence u) = flags_of u ∧
  readUInt 2 2 (layout s sequence u) = Z.of_nat (FIXED_HEADER_BYTES + length s) ∧
  readUInt 4 4 (layout s sequence u) = sequence mod 2 ^ 32 ∧
  readUInt 8 8 (layout s sequence u) = au_capturedAt u ∧
  readUInt 2 16 (layout s sequence u) = au_width u ∧
  readUInt 2 18 (layout s sequence u) = au_height u ∧
  readUInt 1 20 (layout s sequence u) = Z.of_nat (length s).
Proof.
  intros Hu Hs. destruct (flags_read u Hu) as [Hf _]. destruct Hu as [Hc Hw Hh _]. unfold layout.
  split_and!.
  - skip_fields. by rewrite read_written.
  - change (readUInt 1 1) with (readUInt 1 (1 + 0)). skip_fields. by rewrite read_written.
  - change (readUInt 2 2) with (readUInt 2 (1 + (1 + 0))). skip_fields.
    rewrite read_written; [done|]. unfold FIXED_HEADER_BYTES. cbn. lia.
  - change (readUInt 4 4) with (readUInt 4 (1 + (1 + (2 + 0)))). skip_fields.
    rewrite read_written; [done|]. pose proof (Z.mod_pos_bound sequence (2 ^ 32)). cbn. lia.
  - change (readUInt 8 8) with (readUInt 8 (1 + (1 + (2 + (4 + 0))))). skip_fields. by rewrite read_written.
  - change (readUInt 2 16) with (readUInt 2 (1 + (1 + (2 + (4 + (8 + 0)))))). skip_fields.
    by rewrite read_written.
  - change (readUInt 2 18) with (readUInt 2 (1 + (1 + (2 + (4 + (8 + (2 + 0))))))). skip_fields.
    by rewrite read_written.
  - change (readUInt 1 20) with (readUInt 1 (1 + (1 + (2 + (4 + (8 + (2 + (2 + 0)))))))). skip_fields.
    rewrite read_written; [done|]. cbn. lia.
Qed.

(** The fixed header of a message, and what follows it. *)
Lemma layout_split s sequence u :
  ∃ fixed, length fixed = FIXED_HEADER_BYTES ∧ layout s sequence u = fixed ++ from_ascii s ++ au_data u.
Proof.
  exists (write_be 1 VIDEO_HEADER_VERSION ++ write_be 1 (flags_of u)
    ++ write_be 2 (Z.of_nat (FIXED_HEADER_BYTES + length s)) ++ write_be 4 (sequence mod 2 ^ 32)
    ++ write_be 8 (au_capturedAt u) ++ write_be 2 (au_width u) ++ write_be 2 (au_height u)
    ++ write_be 1 (Z.of_nat (length s))).
  split; [by rewrite !length_app, !length_write_be|]. unfold layout. by rewrite <- !app_assoc.
Qed.

Lemma layout_length s sequence u :
  length (layout s sequence u) = (FIXED_HEADER_BYTES + (length s + length (au_data u)))%nat.
Proof.
  destruct (layout_split s sequence u) as (fixed & Hf & ->).
  by rewrite !length_app, Hf, length_from_ascii.
Qed.

Lemma videoSubscription_layout s sequence u :
  unit_ok u → id_ok s → videoSubscription (layout s sequence u) = Some s.
Proof.
  intros Hu [Ha Hs]. destruct (layout_reads s sequence u Hu Hs) as (Hv & _ & Hl & _ & _ & _ & _ & Hn).
  unfold videoSubscription. rewrite Hv, Hn, Hl, Nat2Z.id, layout_length, Z.eqb_refl, Z.eqb_refl.
  rewrite !(proj2 (Nat.ltb_ge _ _)) by lia. cbn [orb negb]. f_equal.
  destruct (layout_split s sequence u) as (fixed & Hf & ->).
  rewrite (subarray_middle fixed (from_ascii s)); [by apply ascii_roundtrip|done|].
  by rewrite length_from_ascii.
Qed.

Lemma accessUnitOf_layout s sequence u :
  unit_ok u → id_ok s → accessUnitOf (layout s sequence u) = Some u.
Proof.
  intros Hu Hid. unfold accessUnitOf. rewrite videoSubscription_layout by done. destruct Hid as [Ha Hs].
  destruct (layout_reads s sequence u Hu Hs) as (_ & Hf & Hl & _ & Hc & Hw & Hh & _).
  destruct (flags_read u Hu) as (_ & Hk & Hp & Ht).
  unfold readDoubleBE. rewrite Hf, Hl, Hc, Hw, Hh, Hk, Hp, Ht, Nat2Z.id.
  destruct (layout_split s sequence u) as (fixed & Hfix & Hlay). unfold FIXED_HEADER_BYTES in *.
  rewrite Hlay, (app_assoc fixed), (subarray_from_suffix (fixed ++ from_ascii s)).
  - by destruct u.
  - by rewrite length_app, Hfix, length_from_ascii.
Qed.

(** A video message of a unit whose fields fit reads back as that unit, on that subscription, with the
    sequence number modulo 2^32. *)
Theorem packet_roundtrip s sequence u :
  unit_ok u → id_ok s →
  ∃ p, videoPacket s sequence u = Ok p ∧ videoSubscription p = Some s ∧ accessUnitOf p = Some u ∧
    readUInt 4 4 p = sequence mod 2 ^ 32.
Proof.
  intros Hu Hs. exists (layout s sequence u). split_and!.
  - apply videoPacket_layout; [done|apply Hs].
  - by apply videoSubscription_layout.
  - by apply accessUnitOf_layout.
  - apply layout_reads; [done|apply Hs].
Qed.

(** The fixed header as its fields. *)
Definition fixed_header (n : nat) (sequence : Z) (u : AccessUnit) : bytes :=
  write_be 1 VIDEO_HEADER_VERSION ++ write_be 1 (flags_of u)
  ++ write_be 2 (Z.of_nat (FIXED_HEADER_BYTES + n)) ++ write_be 4 (sequence mod 2 ^ 32)
  ++ write_be 8 (au_capturedAt u) ++ write_be 2 (au_width u) ++ write_be 2 (au_height u)
  ++ write_be 1 (Z.of_nat n).

Lemma fixed_header_length n sequence u : length (fixed_header n sequence u) = FIXED_HEADER_BYTES.
Proof. unfold fixed_header. by rewrite !length_app, !length_write_be. Qed.

Lemma layout_fixed s sequence u :
  layout s sequence u = fixed_header (length s) sequence u ++ from_ascii s ++ au_data u.
Proof. unfold layout, fixed_header. by rewrite <- !app_assoc. Qed.

Lemma rewrite_layout s s' sequence u :
  unit_ok u → id_ok s → (length s' <= 255)%nat →
  rewriteVideoSubscription (layout s sequence u) s s' = Ok (Some (layout s' sequence u)).
Proof.
  intros Hu Hs Hs'. unfold rewriteVideoSubscription.
  rewrite decide_True by (by apply videoSubscription_layout). rewrite length_from_ascii.
  rewrite !layout_fixed, subarray_prefix by apply fixed_header_length.
  rewrite (app_assoc (fixed_header (length s) sequence u)), (subarray_from_suffix (fixed_header _ _ _ ++ from_ascii s))
    by (by rewrite length_app, fixed_header_length, length_from_ascii).
  unfold fixed_header.
  rewrite writeUInt_ok by (unfold FIXED_HEADER_BYTES; cbn; lia). cbn [mbind result_bind].
  change (put 2) with (put (1 + (1 + 0))). fill.
  rewrite writeUInt_ok by (cbn; lia). cbn [mbind result_bind].
  change (put 20) with (put (1 + (1 + (2 + (4 + (8 + (2 + (2 + 0)))))))).
  rewrite !put_skip by (rewrite ?length_write_be; done).
  rewrite <- (app_nil_r (write_be 1 (Z.of_nat (length s)))), put_here by (by rewrite !length_write_be).
  by rewrite app_nil_r.
Qed.

(** A message that is relayed on another subscription is the message that would have been sent on it;
    one of any other subscription is not relayed. *)
Theorem packet_rewrite s s' sequence u p upstream :
  unit_ok u → id_ok s → id_ok s' → videoPacket s sequence u = Ok p →
  rewriteVideoSubscription p upstream s'
  = if decide (upstream = s) then (p' ← videoPacket s' sequence u; Ok (Some p')) else Ok None.
Proof.
  intros Hu Hs [_ Hs'] Hp. rewrite videoPacket_layout in Hp by (done || apply Hs). injection Hp as <-.
  case_decide as Hup.
  - subst. rewrite rewrite_layout, videoPacket_layout by done. done.
  - unfold rewriteVideoSubscription. rewrite videoSubscription_layout by done.
    rewrite decide_False by congruence. done.
Qed.

(** ** Recordings *)

Definition record_flags (u : AccessUnit) : Z :=
  Z.lor (keyframe_bit (au_keyframe u)) (posture_bits (au_posture u)).

Definition record_layout (u : AccessUnit) : bytes :=
  write_be 4 (Z.of_nat (RECORD_HEADER_BYTES + length (au_data u))) ++ write_be 1 (record_flags u)
  ++ write_be 8 (au_capturedAt u) ++ write_be 2 (au_width u) ++ write_be 2 (au_height u) ++ au_data u.

(** A unit that a recording keeps: it has no artwork, and its length fits 32 bits. *)
Definition recordable (u : AccessUnit) : Prop :=
  unit_ok u ∧ au_artworkTurns u = None ∧ Z.of_nat (RECORD_HEADER_BYTES + length (au_data u)) < 256 ^ 4.

Lemma record_flags_read u :
  0 <= record_flags u < 256 ∧ has_bit (record_flags u) VIDEO_KEYFRAME = au_keyframe u ∧
  (if has_bit (record_flags u) VIDEO_UNFOLDED then Some Unfolded
   else if has_bit (record_flags u) VIDEO_FOLDED then Some Folded else None) = au_posture u.
Proof.
  unfold record_flags. destruct (au_keyframe u), (au_posture u) as [[]|]; vm_compute; split_and!; congruence.
Qed.

Lemma recordBytes_layout u : recordable u → recordBytes u = Ok (record_layout u).
Proof.
  intros ([Hc Hw Hh _] & _ & Hl). destruct (record_flags_read u) as [Hf _].
  unfold recordBytes. fold (record_flags u).
  change (replicate (4 + RECORD_HEADER_BYTES) x00)
    with (replicate 4 x00 ++ replicate 1 x00 ++ replicate 8 x00 ++ replicate 2 x00 ++ replicate 2 x00 ++ []).
  rewrite writeUInt_ok by (split; [lia|done]). cbn [mbind result_bind]. fill.
  rewrite writeUInt_ok by done. cbn [mbind result_bind]. change (put 4) with (put (4 + 0)). fill.
  unfold writeDoubleBE. change (put 5) with (put (4 + (1 + 0))). fill.
  rewrite writeUInt_ok by done. cbn [mbind result_bind]. change (put 13) with (put (4 + (1 + (8 + 0)))). fill.
  rewrite writeUInt_ok by done. cbn [mbind result_bind].
  change (put 15) with (put (4 + (1 + (8 + (2 + 0))))). fill.
  unfold record_layout. by rewrite <- !app_assoc.
Qed.

Lemma subarray_skip k i j p q : length p = k → subarray (k + i) (k + j) (p ++ q) = subarray i j q.
Proof. intros <-. unfold subarray. rewrite drop_app_add. f_equal. lia. Qed.

Lemma read_units_shift fuel p at_ b :
  read_units fuel (length p + at_) (p ++ b) = read_units fuel at_ b.
Proof.
  revert at_. induction fuel as [|fuel IH]; intros at_; [done|]. cbn [read_units].
  rewrite length_app. unfold readDoubleBE. rewrite <- !Nat.add_assoc, !readUInt_skip by done.
  replace (length p + (at_ + 4) <=? length p + length b)%nat with (at_ + 4 <=? length b)%nat
    by (apply eq_true_iff_eq; rewrite !Nat.leb_le; lia).
  destruct (at_ + 4 <=? length b)%nat; [|done]. set (n := Z.to_nat (readUInt 4 at_ b)).
  replace (length p + length b <? length p + (at_ + (4 + n)))%nat with (length b <? at_ + (4 + n))%nat
    by (apply eq_true_iff_eq; rewrite !Nat.ltb_lt; lia).
  destruct (_ || _); [done|]. f_equal; [|apply IH].
  by rewrite subarray_skip.
Qed.

Lemma record_length u : length (record_layout u) = (4 + (RECORD_HEADER_BYTES + length (au_data u)))%nat.
Proof. unfold record_layout. by rewrite !length_app, !length_write_be. Qed.

Lemma record_size u rest :
  recordable u →
  readUInt 4 0 (record_layout u ++ rest) = Z.of_nat (RECORD_HEADER_BYTES + length (au_data u)).
Proof.
  intros (_ & _ & Hl). unfold record_layout. rewrite <- app_assoc, readUInt_here by apply length_write_be.
  apply read_written. split; [lia|done].
Qed.

(** The first record of a recording. *)
Lemma read_units_record fuel u rest :
  recordable u → read_units (S fuel) 0 (record_layout u ++ rest) = u :: read_units fuel 0 rest.
Proof.
  intros Hr. pose proof (record_size u rest Hr) as Hsize. pose proof Hr as ([Hc Hw Hh _] & Ht & _).
  destruct (record_flags_read u) as (Hf & Hk & Hp). cbn [read_units]. rewrite Hsize, Nat2Z.id, length_app, record_length.
  unfold RECORD_HEADER_BYTES in *.
  rewrite (proj2 (Nat.leb_le _ _)), !(proj2 (Nat.ltb_ge _ _)) by lia. cbn [orb].
  assert (record_layout u ++ rest = write_be 4 (Z.of_nat (13 + length (au_data u))) ++ write_be 1 (record_flags u)
    ++ write_be 8 (au_capturedAt u) ++ write_be 2 (au_width u) ++ write_be 2 (au_height u) ++ au_data u ++ rest)
    as Hb by (unfold record_layout; by rewrite <- !app_assoc).
  f_equal.
  - rewrite Hb. unfold readDoubleBE. cbn [Nat.add].
    change (readUInt 1 4) with (readUInt 1 (4 + 0)). change (readUInt 8 5) with (readUInt 8 (4 + (1 + 0))).
    change (readUInt 2 13) with (readUInt 2 (4 + (1 + (8 + 0)))).
    change (readUInt 2 15) with (readUInt 2 (4 + (1 + (8 + (2 + 0))))).
    rewrite !readUInt_skip, !readUInt_here, !read_written by (rewrite ?length_write_be; done).
    rewrite Hk, Hp. destruct u as [k c w h p t d]. cbn in *. subst t. f_equal.
    by rewrite Nat.sub_0_r, drop_0, take_app_length.
  - rewrite <- (read_units_shift fuel (record_layout u) 0 rest), record_length.
    by rewrite Nat.add_0_r.
Qed.

(** The bytes of a record that is not whole yet give nothing. *)
Lemma read_units_partial fuel u n :
  recordable u → (n < length (record_layout u))%nat → read_units fuel 0 (take n (record_layout u)) = [].
Proof.
  intros Hr Hn. destruct fuel as [|fuel]; [done|]. cbn [read_units].
  rewrite length_take_le by lia. destruct (0 + 4 <=? n)%nat eqn:H4; [|done]. apply Nat.leb_le in H4.
  assert (readUInt 4 0 (take n (record_layout u)) = Z.of_nat (RECORD_HEADER_BYTES + length (au_data u))) as ->.
  { rewrite <- (record_size u [] Hr), app_nil_r. unfold readUInt, subarray. rewrite !drop_0, take_take.
    do 2 f_equal. lia. }
  rewrite Nat2Z.id. replace (n <? _)%nat with true; [by rewrite orb_true_r|].
  symmetry. apply Nat.ltb_lt. rewrite record_length in Hn. lia.
Qed.

Lemma read_units_all us tail fuel :
  Forall recordable us → (length us <= fuel)%nat → (∀ fuel, read_units fuel 0 tail = []) →
  read_units fuel 0 (concat (map record_layout us) ++ tail) = us.
Proof.
  intros Hus Hfuel Ht. revert fuel Hfuel. induction Hus as [|u us Hu Hus IH]; intros fuel Hfuel; [apply Ht|].
  destruct fuel as [|fuel]; [cbn in Hfuel; lia|]. cbn [map concat]. rewrite <- app_assoc, read_units_record by done.
  f_equal. apply IH. cbn in Hfuel. lia.
Qed.

Lemma records_count us : (length us <= length (concat (map record_layout us)))%nat.
Proof.
  induction us as [|u us IH]; [done|]. cbn [map concat length]. rewrite length_app, record_length.
  unfold RECORD_HEADER_BYTES. lia.
Qed.

(** A recording reads back every unit that was written whole, also where the last one was cut off. *)
Theorem recording_readable us last n records bytes_last :
  Forall recordable us → recordable last → mapM recordBytes us = Ok records →
  recordBytes last = Ok bytes_last → (n < length bytes_last)%nat →
  readUnitsFrom (concat records ++ take n bytes_last) = us.
Proof.
  intros Hus Hl Hr Hb Hn. rewrite recordBytes_layout in Hb by done. injection Hb as <-.
  assert (records = map record_layout us) as ->.
  { clear Hl Hn. revert records Hr. induction Hus as [|u us Hu _ IH]; intros records Hr; [by injection Hr|].
    cbn in Hr. rewrite recordBytes_layout in Hr by done. cbn in Hr.
    apply result_bind_inv in Hr as (rest & Hrest & Hr). injection Hr as <-. cbn. f_equal. by apply IH. }
  unfold readUnitsFrom. apply read_units_all; [done| |].
  - rewrite length_app. pose proof (records_count us). lia.
  - intros fuel. by apply read_units_partial.
Qed.

(** ** The gate *)

Inductive GateEvent := GateUnit (keyframe : bool) (bufferedBytes : Z) | GateReset.

Definition gate_step (e : GateEvent) (g : VideoGate) : VideoGate * option Verdict :=
  match e with
  | GateUnit keyframe buffered => let '(g, v) := admit_unit keyframe buffered g in (g, Some v)
  | GateReset => (reset_gate g, None)
  end.

(** What becomes of each event. *)
Fixpoint gate_trace (g : VideoGate) (es : list GateEvent) : list (GateEvent * option Verdict) :=
  match es with
  | [] => []
  | e :: es => let '(g, v) := gate_step e g in (e, v) :: gate_trace g es
  end.

(** The gate waits unless it sent the last unit. *)
Lemma gate_step_waiting e g :
  vg_waiting (fst (gate_step e g)) = negb (bool_decide (snd (gate_step e g) = Some Send)).
Proof.
  destruct e as [k b|]; cbn; [|done]. unfold admit_unit.
  destruct (vg_congestedBytes g <? b), (vg_waiting g) eqn:Hw, k; cbn; by rewrite ?Hw.
Qed.

Lemma gate_step_verdict e g :
  (snd (gate_step e g) = Some Send → vg_waiting g = true → ∃ b, e = GateUnit true b) ∧
  (snd (gate_step e g) = Some Congested → vg_waiting g = false).
Proof.
  destruct e as [k b|]; cbn; [|done]. unfold admit_unit.
  destruct (vg_congestedBytes g <? b), (vg_waiting g) eqn:Hw, k; cbn; naive_solver.
Qed.

Lemma gate_trace_next g es n e v :
  gate_trace g es !! S n = Some (e, v) →
  ∃ e' v' g', gate_trace g es !! n = Some (e', v') ∧ snd (gate_step e g') = v ∧
    vg_waiting g' = negb (bool_decide (v' = Some Send)).
Proof.
  revert g n. induction es as [|e0 es IH]; intros g n; [done|]. cbn [gate_trace].
  destruct (gate_step e0 g) as [g1 v1] eqn:H1. destruct n as [|n]; [|apply IH]. intros Hl.
  destruct es as [|e1 es]; [done|]. cbn [gate_trace] in Hl. destruct (gate_step e1 g1) as [g2 v2] eqn:H2.
  cbn in Hl. simplify_eq. exists e0, v1, g1. rewrite H2. split_and!; [done|done|].
  pose proof (gate_step_waiting e0 g) as Hw. by rewrite H1 in Hw.
Qed.

(** A subscriber gets a unit that is not a keyframe only right after it got the unit before, with no
    reset between, so it can decode whatever it gets; and congestion is reported only after a unit
    was sent. *)
Theorem gate_sends_decodable congestedBytes es n e v :
  gate_trace (new_gate congestedBytes) es !! n = Some (e, v) →
  (∃ b, v = Some Send ∧ e = GateUnit false b) ∨ v = Some Congested →
  ∃ k k' b', n = S k ∧ gate_trace (new_gate congestedBytes) es !! k = Some (GateUnit k' b', Some Send).
Proof.
  intros Hn Hv. destruct n as [|n].
  - destruct es as [|e0 es]; [done|]. cbn [gate_trace] in Hn.
    destruct (gate_step e0 (new_gate congestedBytes)) as [g1 v1] eqn:H1. cbn in Hn. simplify_eq.
    destruct (gate_step_verdict e (new_gate congestedBytes)) as [Hs Hc]. rewrite H1 in Hs, Hc. cbn in Hs, Hc.
    destruct Hv as [(b & -> & ->)| ->]; [|by specialize (Hc eq_refl)].
    by destruct (Hs eq_refl eq_refl).
  - destruct (gate_trace_next _ _ _ _ _ Hn) as (e' & v' & g' & Hp & Hstep & Hw).
    destruct (gate_step_verdict e g') as [Hs Hc]. rewrite Hstep in Hs, Hc.
    assert (v' = Some Send) as ->.
    { destruct Hv as [(b & -> & ->)| ->].
      - destruct (vg_waiting g') eqn:Hg; [by destruct (Hs eq_refl eq_refl)|].
        symmetry in Hw. by apply negb_false_iff, bool_decide_eq_true in Hw.
      - rewrite Hc in Hw by done. symmetry in Hw. by apply negb_false_iff, bool_decide_eq_true in Hw. }
    destruct e' as [k b|]; [by exists n, k, b|]. exfalso.
    clear Hn Hstep Hs Hc Hw. revert Hp. generalize (new_gate congestedBytes) n. clear.
    induction es as [|e0 es IH]; intros g n; [done|]. cbn [gate_trace]. destruct (gate_step e0 g) as [g1 v1] eqn:H1.
    destruct n as [|n]; [|apply IH]. cbn. intros ?. by simplify_eq/=.
Qed.

(** ** The bitrate *)

Inductive BitrateOp := Limit (ceiling : Z) | CongestedAt (now : Z) | TickAt (now : Z).

Definition bitrate_op (op : BitrateOp) (b : Bitrate) : Bitrate * option Z :=
  match op with
  | Limit ceiling => (limit_bitrate ceiling b, None)
  | CongestedAt now => congested now b
  | TickAt now => tick now b
  end.

Definition bitrate_after (ops : list BitrateOp) (b : Bitrate) : Bitrate :=
  fold_left (fun b op => fst (bitrate_op op b)) ops b.

(** When the bitrate was cut. *)
Fixpoint cuts (ops : list BitrateOp) (b : Bitrate) : list Z :=
  match ops with
  | [] => []
  | op :: ops =>
      let '(b', changed) := bitrate_op op b in
      match op, changed with
      | CongestedAt now, Some _ => now :: cuts ops b'
      | _, _ => cuts ops b'
      end
  end.

Definition limits_ok (l : VideoLimits) : Prop :=
  0 <= vl_recoverMs l ∧ 0 <= vl_minBitrate l ∧ vl_minBitrate l <= vl_startBitrate l <= vl_maxBitrate l.

Definition bitrate_ok (b : Bitrate) : Prop :=
  0 <= vl_minBitrate (br_limits b) <= br_value b ∧ br_value b <= br_ceiling b <= vl_maxBitrate (br_limits b).

Lemma bitrate_op_ok op b : bitrate_ok b → bitrate_ok (fst (bitrate_op op b)).
Proof.
  unfold bitrate_ok. intros [H1 H2].
  destruct op as [c|now|now]; cbn; unfold congested, tick, set_bitrate, round_half, round_five_quarters; cbn.
  - lia.
  - destruct (match br_cutAt b with Some _ => _ | None => _ end); cbn; [lia|].
    case_match; cbn; [lia|].
    assert ((br_value b + 1) / 2 < br_value b + 1) by (apply Z.div_lt_upper_bound; lia). lia.
  - destruct (_ <? _); cbn; [lia|]. case_match; cbn; [lia|].
    assert (br_value b <= (5 * br_value b + 2) / 4) by (apply Z.div_le_lower_bound; lia). lia.
Qed.

(** A cut comes a recovery time or more after the one before it. *)
Lemma cuts_spaced ops b :
  0 <= vl_recoverMs (br_limits b) →
  Sorted (fun t1 t2 => vl_recoverMs (br_limits b) <= t2 - t1)
    (match br_cutAt b with Some t => t :: cuts ops b | None => cuts ops b end).
Proof.
  revert b. induction ops as [|op ops IH]; intros b Hr; [destruct (br_cutAt b); repeat constructor|].
  cbn [cuts]. destruct (bitrate_op op b) as [b' changed] eqn:Hop. specialize (IH b').
  assert (br_limits b' = br_limits b ∧
    (br_cutAt b' = br_cutAt b ∧ (∀ now, op = CongestedAt now → changed = None) ∨
     ∃ now, op = CongestedAt now ∧ br_cutAt b' = Some now ∧
       ∀ t, br_cutAt b = Some t → vl_recoverMs (br_limits b) <= now - t)) as [Hlim Hcases].
  { destruct op as [c|now|now]; cbn in Hop.
    - simplify_eq. by (split; [|left]).
    - unfold congested, set_bitrate in Hop. cbn in Hop.
      destruct (match br_cutAt b with Some _ => _ | None => _ end) eqn:Hc; [simplify_eq; cbn; split; [done|by left]|].
      assert (∀ t, br_cutAt b = Some t → vl_recoverMs (br_limits b) <= now - t) as Hsp.
      { intros t Ht. rewrite Ht in Hc. by apply Z.ltb_ge in Hc. }
      destruct (_ =? _); simplify_eq; cbn; (split; [done|]); right; by exists now.
    - unfold tick, set_bitrate in Hop. cbn in Hop. destruct (_ <? _); [|destruct (_ =? _)]; simplify_eq; by (split; [|left]). }
  rewrite Hlim in IH. specialize (IH Hr). destruct Hcases as [[Hcut Hch]|(now & -> & Hcut & Hsp)]; rewrite Hcut in IH.
  - destruct op as [c|now|now]; [done| |done]. by rewrite (Hch now eq_refl).
  - assert (Sorted (fun t1 t2 => vl_recoverMs (br_limits b) <= t2 - t1) (cuts ops b')) as Hrest
      by (by inversion IH).
    assert (∀ l, Sorted (fun t1 t2 => vl_recoverMs (br_limits b) <= t2 - t1) (now :: l) →
      Sorted (fun t1 t2 => vl_recoverMs (br_limits b) <= t2 - t1)
        (match br_cutAt b with Some t => t :: now :: l | None => now :: l end)) as Hcons.
    { intros l Hl. destruct (br_cutAt b); [|done]. constructor; [done|]. constructor. by apply Hsp. }
    destruct changed; [by apply Hcons|]. destruct (br_cutAt b) as [t|]; [|done]. constructor; [done|].
    inversion IH as [|? ? _ Hhd]; subst. specialize (Hsp t eq_refl). inversion Hhd; subst; constructor; lia.
Qed.

(** After any changes the bitrate is between the least and the ceiling, which is within the limits;
    and it is not cut twice within a recovery time. *)
Theorem bitrate_bounded limits now ops :
  limits_ok limits →
  let b := bitrate_after ops (new_bitrate limits now) in
  vl_minBitrate limits <= br_value b <= br_ceiling b ∧ br_ceiling b <= vl_maxBitrate limits ∧
  Sorted (fun t1 t2 => vl_recoverMs limits <= t2 - t1) (cuts ops (new_bitrate limits now)).
Proof.
  intros (Hr & Hmin & Hstart) b.
  assert (br_limits b = limits ∧ bitrate_ok b) as [Hl Hb].
  { unfold b, bitrate_after.
    assert (br_limits (new_bitrate limits now) = limits ∧ bitrate_ok (new_bitrate limits now)) as H0.
    { split; [done|]. unfold bitrate_ok. cbn. lia. }
    revert H0. generalize (new_bitrate limits now). induction ops as [|op ops IH]; intros b0 [Hl Hb]; [done|].
    cbn. apply IH. split; [|by apply bitrate_op_ok]. rewrite <- Hl.
    destruct op; cbn; unfold congested, tick, set_bitrate; repeat case_match; done. }
  unfold bitrate_ok in Hb. rewrite Hl in Hb. split_and!; [lia..|].
  by apply (cuts_spaced ops (new_bitrate limits now)).
Qed.

(** ** Still frames *)

Section Frames.
Context {T : Type} (data_length : T → Z).

Inductive FrameEvent := PushAt (frame : T) (now buffered : Z) | TimerAt (now buffered : Z) | StopNow.

Definition frame_step (e : FrameEvent) (f : LatestFrames T) : LatestFrames T * option (Z * T) :=
  match e with
  | PushAt frame now buffered =>
      let '(f, sent) := push_frame data_length frame now buffered f in (f, pair now <$> sent)
  | TimerAt now buffered =>
      match lf_retry f with
      | Some _ => let '(f, sent) := flush_frames data_length now buffered f in (f, pair now <$> sent)
      | None => (f, None)
      end
  | StopNow => (stop_frames f, None)
  end.

(** The frames that are sent, and when. *)
Fixpoint frames_run (es : list FrameEvent) (f : LatestFrames T) : LatestFrames T * list (Z * T) :=
  match es with
  | [] => (f, [])
  | e :: es =>
      let '(f, sent) := frame_step e f in
      let '(f, rest) := frames_run es f in (f, match sent with Some s => s :: rest | None => rest end)
  end.

Lemma frames_run_app es1 es2 f :
  frames_run (es1 ++ es2) f =
  (fst (frames_run es2 (fst (frames_run es1 f))),
   snd (frames_run es1 f) ++ snd (frames_run es2 (fst (frames_run es1 f)))).
Proof.
  revert f. induction es1 as [|e es1 IH]; intros f; cbn; [by destruct (frames_run es2 f)|].
  destruct (frame_step e f) as [f1 sent]. rewrite IH. destruct (frames_run es1 f1) as [f2 rest]. cbn.
  by destruct sent.
Qed.

Lemma stopped_sends_nothing es f : lf_stopped f = true → snd (frames_run es f) = [].
Proof.
  revert f. induction es as [|e es IH]; intros f Hs; [done|]. cbn.
  assert (snd (frame_step e f) = None ∧ lf_stopped (fst (frame_step e f)) = true) as [H1 H2].
  { destruct e as [t now b|now b|]; cbn; unfold push_frame, flush_frames; cbn; rewrite ?Hs; [done| |done].
    destruct (lf_retry f); [|done]. by destruct (lf_pending f). }
  destruct (frame_step e f) as [f1 sent]. cbn in *. subst sent. specialize (IH f1 H2).
  destruct (frames_run es f1). done.
Qed.

(** One step: the rate, the timer, and the latest frame. *)
Definition frames_ok (fps : Z) (latest : option T) (sends : list (Z * T)) (f : LatestFrames T) : Prop :=
  lf_fps f = fps ∧ Sorted (fun s1 s2 => 1000 <= (fst s2 - fst s1) * fps) sends ∧
  (∀ s, last sends = Some s → lf_sentAt f = fst s) ∧
  (lf_stopped f = false →
   (lf_pending f ≠ None → lf_retry f ≠ None) ∧
   (lf_pending f = latest ∨ lf_pending f = None ∧ snd <$> last sends = latest)).

Definition latest_after (e : FrameEvent) (latest : option T) : option T :=
  match e with PushAt frame _ _ => Some frame | _ => latest end.

Lemma Sorted_snoc {A} (R : A → A → Prop) l x :
  Sorted R l → (∀ y, last l = Some y → R y x) → Sorted R (l ++ [x]).
Proof.
  induction 1 as [|y l Hl IH Hhd]; intros Hx; [repeat constructor|]. cbn. constructor.
  - apply IH. intros z Hz. apply Hx. destruct l; [done|]. done.
  - destruct l as [|z l]; cbn; [constructor; by apply Hx|]. inversion Hhd; subst. by constructor.
Qed.

Lemma flush_ok fps latest sends now buffered f :
  lf_fps f = fps → Sorted (fun s1 s2 => 1000 <= (fst s2 - fst s1) * fps) sends →
  (∀ s, last sends = Some s → lf_sentAt f = fst s) →
  (lf_stopped f = false → lf_pending f = latest ∨ lf_pending f = None ∧ snd <$> last sends = latest) →
  let '(f', sent) := flush_frames data_length now buffered f in
  frames_ok fps latest (match pair now <$> sent with Some s => sends ++ [s] | None => sends end) f'.
Proof.
  intros Hfps Hs Hlast Hl. unfold flush_frames. cbn.
  destruct (lf_pending f) as [t|] eqn:Hp; [|by split_and!; cbn; rewrite ?Hp; naive_solver].
  destruct (lf_stopped f) eqn:Hst; [by split_and!; cbn; rewrite ?Hst|].
  assert (latest = Some t) as -> by (destruct (Hl eq_refl) as [?|[? _]]; congruence).
  destruct (0 <? _) eqn:Hw; [by split_and!; cbn; rewrite ?Hp; auto|]. apply Z.ltb_ge in Hw.
  destruct (_ <? buffered) eqn:Hb; [by split_and!; cbn; rewrite ?Hp; auto|].
  split_and!; cbn; [done| | |].
  - apply Sorted_snoc; [done|]. intros s Hls. cbn. rewrite <- (Hlast s Hls), <- Hfps. lia.
  - intros s. rewrite last_snoc. by intros [= <-].
  - intros _. split; [done|]. right. by rewrite last_snoc.
Qed.

Lemma frame_step_ok fps latest sends e f :
  frames_ok fps latest sends f →
  let '(f', sent) := frame_step e f in
  frames_ok fps (latest_after e latest) (match sent with Some s => sends ++ [s] | None => sends end) f'.
Proof.
  intros (Hfps & Hs & Hlast & Hl). destruct e as [t now b|now b|]; cbn [frame_step latest_after].
  - unfold push_frame. destruct (lf_stopped f) eqn:Hst; [by split_and!; rewrite ?Hst|].
    cbn [lf_retry set_pending]. destruct (lf_retry f) as [r|] eqn:Hr.
    + split_and!; cbn; rewrite ?Hr; [done|done|done|]. intros _. split; [done|by left].
    + pose proof (flush_ok fps (Some t) sends now b (set_pending t f) Hfps Hs Hlast) as H.
      destruct (flush_frames data_length now b (set_pending t f)) as [f' sent]. apply H. intros _. by left.
  - destruct (lf_retry f) as [r|] eqn:Hr; [|by split_and!; rewrite ?Hr].
    pose proof (flush_ok fps latest sends now b f Hfps Hs Hlast) as H.
    destruct (flush_frames data_length now b f) as [f' sent]. apply H. intros Hst. by apply Hl.
  - split_and!; cbn; done.
Qed.

(** Frames are sent no faster than their rate; while the delivery runs, a frame that waits has a
    timer set, and the latest frame either waits or was the last one sent; once it is stopped
    nothing is sent any more. *)
Theorem frames_latest fps es es' :
  let '(f, sends) := frames_run es (new_frames fps) in
  Sorted (fun s1 s2 => 1000 <= (fst s2 - fst s1) * fps) sends ∧
  (lf_stopped f = false →
   (lf_pending f ≠ None → lf_retry f ≠ None) ∧
   (let latest := fold_left (fun l e => latest_after e l) es None in
    lf_pending f = latest ∨ lf_pending f = None ∧ snd <$> last sends = latest)) ∧
  snd (frames_run (es ++ StopNow :: es') (new_frames fps)) = sends.
Proof.
  assert (∀ es f latest sends, frames_ok fps latest sends f →
    frames_ok fps (fold_left (fun l e => latest_after e l) es latest) (sends ++ snd (frames_run es f))
      (fst (frames_run es f))) as Hrun.
  { clear. induction es as [|e es IH]; intros f latest sends Hok; cbn; [by rewrite app_nil_r|].
    pose proof (frame_step_ok fps latest sends e f Hok) as H. destruct (frame_step e f) as [f1 sent].
    specialize (IH f1 _ _ H). destruct (frames_run es f1) as [f2 rest]. cbn in *.
    destruct sent; [|done]. by rewrite <- app_assoc in IH. }
  assert (frames_ok fps None [] (new_frames fps)) as H0.
  { split_and!; [done|constructor|done|]. intros _. split; [done|by left]. }
  specialize (Hrun es _ _ _ H0). rewrite frames_run_app. destruct (frames_run es (new_frames fps)) as [f sends].
  destruct Hrun as (_ & Hs & _ & Hl). split_and!; [done|done|]. cbn.
  pose proof (stopped_sends_nothing es' (stop_frames f) eq_refl) as Hn.
  destruct (frames_run es' (stop_frames f)). cbn in *. by rewrite Hn, app_nil_r.
Qed.
End Frames.

(** ** Witnesses *)

Definition sample : AccessUnit :=
  {| au_keyframe := true; au_capturedAt := 4785074604081152000; au_width := 390; au_height := 844;
     au_posture := Some Unfolded; au_artworkTurns := Some 3; au_data := ascii "unit" |}.
Definition recorded : AccessUnit :=
  {| au_keyframe := false; au_capturedAt := 4785074604081152000; au_width := 390; au_height := 844;
     au_posture := None; au_artworkTurns := None; au_data := ascii "unit" |}.

Lemma sample_ok : unit_ok sample.
Proof. split; cbn; [lia..|]. intros t [= <-]. lia. Qed.

Lemma sample_id_ok (s : string) :
  forallb (fun u => (0 <=? u) && (u <? 128)) (js s) = true → (length (js s) <=? 255)%nat = true → id_ok (js s).
Proof.
  intros H Hl. split; [|by apply Nat.leb_le]. apply Forall_forall. intros u Hu.
  rewrite forallb_forall in H. specialize (H u ltac:(by apply list_elem_of_In)). lia.
Qed.

(** [packet_roundtrip] for a keyframe with artwork. *)
Lemma packet_roundtrip_witness :
  ∃ p, videoPacket (js "s7") (2 ^ 32 + 5) sample = Ok p ∧ videoSubscription p = Some (js "s7") ∧
    accessUnitOf p = Some sample ∧ readUInt 4 4 p = (2 ^ 32 + 5) mod 2 ^ 32.
Proof. apply (packet_roundtrip (js "s7") (2 ^ 32 + 5) sample sample_ok), sample_id_ok; reflexivity. Defined.

(** [packet_rewrite] for a relayed keyframe. *)
Lemma packet_rewrite_witness :
  ∃ p, videoPacket (js "host") 9 sample = Ok p ∧
    rewriteVideoSubscription p (js "host") (js "s12")
    = (p' ← videoPacket (js "s12") 9 sample; Ok (Some p')).
Proof.
  exists (layout (js "host") 9 sample). assert (videoPacket (js "host") 9 sample = Ok (layout (js "host") 9 sample)) as Hp
    by (vm_compute; reflexivity).
  split; [exact Hp|].
  apply (packet_rewrite (js "host") (js "s12") 9 sample (layout (js "host") 9 sample) (js "host") sample_ok);
    [apply sample_id_ok; reflexivity..|exact Hp].
Defined.

Lemma recorded_ok : recordable recorded.
Proof. split_and!; [split; cbn; [lia..|done]|done|cbn; lia]. Qed.

(** [recording_readable] for a recording cut off in its second unit. *)
Lemma recording_readable_witness :
  readUnitsFrom (concat [record_layout recorded] ++ take 20 (record_layout recorded)) = [recorded].
Proof.
  apply (recording_readable [recorded] recorded 20 [record_layout recorded] (record_layout recorded)).
  - constructor; [exact recorded_ok|constructor].
  - exact recorded_ok.
  - vm_compute; reflexivity.
  - vm_compute; reflexivity.
  - cbn. lia.
Defined.

(** [gate_sends_decodable] for the second unit of a stream. *)
Lemma gate_sends_decodable_witness :
  ∃ k k' b', 1%nat = S k ∧
    gate_trace (new_gate 10) [GateUnit true 0; GateUnit false 3; GateUnit false 11] !! k
    = Some (GateUnit k' b', Some Send).
Proof.
  apply (gate_sends_decodable 10 [GateUnit true 0; GateUnit false 3; GateUnit false 11] 1
    (GateUnit false 3) (Some Send)); [reflexivity|]. left. exists 3. split; reflexivity.
Defined.

(** [bitrate_bounded] for the default limits. *)
Lemma bitrate_bounded_witness :
  let b := bitrate_after [CongestedAt 100; CongestedAt 200; CongestedAt 2500; TickAt 9000; Limit 1000000]
    (new_bitrate DEFAULT_VIDEO_LIMITS 0) in
  250000 <= br_value b <= br_ceiling b.
Proof.
  apply (bitrate_bounded DEFAULT_VIDEO_LIMITS 0
    [CongestedAt 100; CongestedAt 200; CongestedAt 2500; TickAt 9000; Limit 1000000]).
  unfold limits_ok; cbn; lia.
Defined.
