(* ===== verification/KeyedDelta.v ===== *)
(** * Keyed deltas: [packages/core/state/keyed-delta.ts]

    A subscription sends a list of entities once in full and then only what changed. [KeyedEntities] is the
    sender's record of what it sent; [applyKeyedDelta] is what the receiver does with a delta. A
    JavaScript [Map] is the list of its entries in insertion order. *)

From Stdlib Require Import ZArith Lia.
From S2P Require Import Prelude.
From S2P Require Import Bytes.
From S2P Require Import Json.
Open Scope Z_scope.

(** ** [Map] *)

Section Map.
Context {A : Type}.
Abbreviation Map := (list (units * A)).

Fixpoint map_get (k : units) (m : Map) : option A :=
  match m with
  | [] => None
  | (k', v) :: m => if decide (k' = k) then Some v else map_get k m
  end.

(** [map.set(k, v)]: an existing key keeps its place. *)
Fixpoint map_set (k : units) (v : A) (m : Map) : Map :=
  match m with
  | [] => [(k, v)]
  | (k', v') :: m => if decide (k' = k) then (k', v) :: m else (k', v') :: map_set k v m
  end.

Fixpoint map_delete (k : units) (m : Map) : Map :=
  match m with
  | [] => []
  | (k', v) :: m => if decide (k' = k) then m else (k', v) :: map_delete k m
  end.

(** [new Map(entries)]. *)
Definition map_of (entries : list (units * A)) : Map :=
  fold_left (fun m '(k, v) => map_set k v m) entries [].
End Map.

Section Keyed.
Context {T : Type} (key : T → units) (stringify : T → units).

Record KeyedDelta := { kd_upsert : list T; kd_remove : list units }.

(** The entities last sent, as key and JSON. *)
Record KeyedEntities := { ke_sent : list (units * units) }.

Definition new_entities : KeyedEntities := {| ke_sent := [] |}.

Definition reset (entities : list T) : KeyedEntities :=
  {| ke_sent := map_of (map (fun e => (key e, stringify e)) entities) |}.

(** The loop over [entities]: what is sent now, and what changed. *)
Fixpoint next_loop (before : list (units * units)) (entities : list T)
    (sent : list (units * units)) (upsert : list T) : list (units * units) * list T :=
  match entities with
  | [] => (sent, upsert)
  | e :: entities =>
      let json := stringify e in
      next_loop before entities (map_set (key e) json sent)
        (if decide (map_get (key e) before = Some json) then upsert else upsert ++ [e])
  end.

Definition next (entities : list T) (s : KeyedEntities) : KeyedEntities * option KeyedDelta :=
  let '(sent, upsert) := next_loop (ke_sent s) entities [] [] in
  let remove := List.filter (fun k => negb (bool_decide (is_Some (map_get k sent)))) (map fst (ke_sent s)) in
  ({| ke_sent := sent |},
   match upsert, remove with [], [] => None | _, _ => Some {| kd_upsert := upsert; kd_remove := remove |} end).

(** The [flatMap]: what stays of [entities], and the replacements that were not used. *)
Fixpoint replace_loop (removed : list units) (entities : list T) (replaced : list (units * T)) :
    list T * list (units * T) :=
  match entities with
  | [] => ([], replaced)
  | e :: entities =>
      let id := key e in
      if decide (id ∈ removed) then replace_loop removed entities replaced
      else
        let '(rest, unused) := replace_loop removed entities (map_delete id replaced) in
        (default e (map_get id replaced) :: rest, unused)
  end.

Definition applyKeyedDelta (entities : list T) (delta : KeyedDelta) : list T :=
  let '(next, unused) :=
    replace_loop (kd_remove delta) entities (map_of (map (fun e => (key e, e)) (kd_upsert delta))) in
  next ++ map snd unused.
End Keyed.
Arguments KeyedDelta : clear implicits.
