(* ===== verification/KeyedDeltaFacts.v ===== *)
(** * A receiver of keyed deltas follows the sender

    Whatever lists of entities the sender goes through, a receiver that starts from the full list and
    applies every delta has the same entities as the sender, up to their order and to what their
    JSON does not tell apart; and nothing is sent when nothing changed. *)

From Stdlib Require Import ZArith Lia.
From S2P Require Import Prelude.
From S2P Require Import Bytes.
From S2P Require Import Json.
From S2P Require Import KeyedDelta.
Open Scope Z_scope.

(** ** Maps *)

Section Map.
Context {A : Type}.
Implicit Types m entries : list (units * A).

Lemma map_get_set k v k' m :
  map_get k' (map_set k v m) = if decide (k = k') then Some v else map_get k' m.
Proof.
  induction m as [|[k0 v0] m IH]; cbn; [done|].
  destruct (decide (k0 = k)) as [->|Hk]; cbn; [by destruct (decide (k = k'))|].
  rewrite IH. destruct (decide (k0 = k')) as [->|]; [|done]. by rewrite decide_False.
Qed.

Lemma map_get_elem k m : is_Some (map_get k m) ↔ k ∈ m.*1.
Proof.
  induction m as [|[k0 v0] m IH]; cbn; [split; [by intros [? [=]]|by intros ?%elem_of_nil]|].
  rewrite elem_of_cons, <- IH. destruct (decide (k0 = k)) as [->|]; naive_solver.
Qed.

Lemma map_get_in k v m : NoDup m.*1 → (k, v) ∈ m ↔ map_get k m = Some v.
Proof.
  induction m as [|[k0 v0] m IH]; cbn; [intros _; split; [by intros ?%elem_of_nil|done]|].
  rewrite NoDup_cons, elem_of_cons. intros [H1 H2]. rewrite IH by done. case_decide as Hk; [subst|naive_solver].
  split; [|by intros [= ->]; left]. intros [[= ->]|Hg]; [done|]. destruct H1. apply map_get_elem. by rewrite Hg.
Qed.

Lemma map_set_keys k v m k' : k' ∈ (map_set k v m).*1 ↔ k' = k ∨ k' ∈ m.*1.
Proof.
  rewrite <- !map_get_elem, map_get_set. case_decide; [subst|]; naive_solver.
Qed.

Lemma NoDup_map_set k v m : NoDup m.*1 → NoDup (map_set k v m).*1.
Proof.
  induction m as [|[k0 v0] m IH]; cbn; [intros _; apply NoDup_singleton|].
  rewrite NoDup_cons. intros [H1 H2]. destruct (decide (k0 = k)) as [->|Hk]; cbn; rewrite NoDup_cons; [done|].
  split; [|by apply IH]. rewrite map_set_keys. intros [->|?]; done.
Qed.

Lemma map_get_delete k k' m :
  NoDup m.*1 → map_get k' (map_delete k m) = if decide (k = k') then None else map_get k' m.
Proof.
  induction m as [|[k0 v0] m IH]; cbn; [by case_decide|]. rewrite NoDup_cons. intros [H1 H2].
  destruct (decide (k0 = k)) as [->|Hk]; cbn.
  - destruct (decide (k = k')) as [<-|]; [|done]. destruct (map_get k m) eqn:Hg; [|done].
    destruct H1. apply map_get_elem. by rewrite Hg.
  - rewrite IH by done. destruct (decide (k0 = k')) as [->|]; [|done]. by rewrite decide_False.
Qed.

Lemma NoDup_map_delete k m : NoDup m.*1 → NoDup (map_delete k m).*1.
Proof.
  induction m as [|[k0 v0] m IH]; cbn; [done|]. rewrite NoDup_cons. intros [H1 H2].
  destruct (decide (k0 = k)); cbn; [done|]. apply NoDup_cons. split; [|by apply IH].
  rewrite <- map_get_elem, map_get_delete by done. case_decide; [by intros [? [=]]|]. by rewrite map_get_elem.
Qed.

Lemma map_of_snoc entries k v : map_of (entries ++ [(k, v)]) = map_set k v (map_of entries).
Proof. unfold map_of. by rewrite fold_left_app. Qed.

Lemma NoDup_map_of entries : NoDup (map_of entries : list (units * A)).*1.
Proof.
  induction entries as [|[k v] entries IH] using rev_ind; [constructor|].
  rewrite map_of_snoc. by apply NoDup_map_set.
Qed.

Lemma map_get_of entries k :
  NoDup entries.*1 → map_get k (map_of entries : list (units * A)) = map_get k entries.
Proof.
  induction entries as [|[k0 v] entries IH] using rev_ind; [done|]. rewrite fmap_app, NoDup_app.
  intros (H1 & H2 & _). rewrite map_of_snoc, map_get_set, IH by done.
  assert (map_get k (entries ++ [(k0, v)]) =
    match map_get k entries with Some x => Some x | None => if decide (k0 = k) then Some v else None end) as ->.
  { clear. induction entries as [|[k1 v1] l IH]; cbn; [done|]. destruct (decide (k1 = k)); [done|exact IH]. }
  case_decide; [|by destruct (map_get k entries)]. subst. destruct (map_get k entries) eqn:Hg; [|done].
  destruct (H2 k); [apply map_get_elem; by rewrite Hg|set_solver].
Qed.
End Map.

(** ** The sender *)

Section Keyed.
Context {T : Type} (key : T → units) (stringify : T → units).

(** The JSON of each key of a list. *)
Definition entry (e : T) : units * units := (key e, stringify e).

Lemma next_loop_spec before entities sent upsert :
  let '(sent', upsert') := next_loop key stringify before entities sent upsert in
  sent' = fold_left (fun m '(k, v) => map_set k v m) (map entry entities) sent ∧
  upsert' = upsert ++ List.filter (fun e => negb (bool_decide (map_get (key e) before = Some (stringify e)))) entities.
Proof.
  revert sent upsert. induction entities as [|e entities IH]; intros sent upsert; cbn.
  { by rewrite app_nil_r. }
  specialize (IH (map_set (key e) (stringify e) sent)
    (if decide (map_get (key e) before = Some (stringify e)) then upsert else upsert ++ [e])).
  destruct (next_loop _ _ _ _ _ _) as [sent' upsert']. destruct IH as [-> ->]. split; [done|].
  destruct (decide (map_get (key e) before = Some (stringify e))) as [Hd|Hd].
  - by rewrite bool_decide_eq_true_2.
  - rewrite bool_decide_eq_false_2 by done. cbn. by rewrite <- app_assoc.
Qed.

(** What changed, and what is gone. *)
Definition changed (before : list (units * units)) (entities : list T) : list T :=
  List.filter (fun e => negb (bool_decide (map_get (key e) before = Some (stringify e)))) entities.
Definition vanished (before : list (units * units)) (entities : list T) : list units :=
  List.filter (fun k => negb (bool_decide (is_Some (map_get k (map_of (map entry entities)))))) (map fst before).

Lemma next_spec entities s :
  next key stringify entities s =
  (reset key stringify entities,
   match changed (ke_sent s) entities, vanished (ke_sent s) entities with
   | [], [] => None
   | u, r => Some {| kd_upsert := u; kd_remove := r |}
   end).
Proof.
  unfold next. pose proof (next_loop_spec (ke_sent s) entities [] []) as H.
  destruct (next_loop _ _ _ _ _ _) as [sent upsert]. destruct H as [-> ->].
  fold (map_of (map entry entities)). fold (vanished (ke_sent s) entities). fold (changed (ke_sent s) entities).
  cbn [app]. by destruct (changed (ke_sent s) entities), (vanished (ke_sent s) entities).
Qed.

Lemma map_get_entries entities k :
  NoDup (key <$> entities) → map_get k (map_of (map entry entities)) = map_get k (map entry entities).
Proof.
  intros Hn. apply map_get_of. change (map entry entities) with (entry <$> entities).
  by rewrite <- list_fmap_compose.
Qed.

Lemma changed_elem before entities e :
  e ∈ changed before entities ↔ e ∈ entities ∧ map_get (key e) before ≠ Some (stringify e).
Proof.
  unfold changed. rewrite !list_elem_of_In, filter_In, negb_true_iff, bool_decide_eq_false. done.
Qed.

(** ** The receiver *)

Lemma replace_loop_spec removed entities (replaced : list (units * T)) :
  NoDup (key <$> entities) → NoDup replaced.*1 →
  let '(rest, unused) := replace_loop key removed entities replaced in
  rest = map (fun e => default e (map_get (key e) replaced))
           (List.filter (fun e => negb (bool_decide (key e ∈ removed))) entities) ∧
  NoDup unused.*1 ∧
  ∀ k, map_get k unused =
    if decide (k ∈ (key <$> entities) ∧ k ∉ removed) then None else map_get k replaced.
Proof.
  revert replaced. induction entities as [|e entities IH]; intros replaced Hn Hr; cbn [replace_loop].
  { split_and!; [done|done|]. intros k. rewrite decide_False; [done|]. intros [H _]. by apply elem_of_nil in H. }
  rewrite fmap_cons, NoDup_cons in Hn. destruct Hn as [He Hn]. case_decide as Hrem.
  - specialize (IH replaced Hn Hr). destruct (replace_loop _ _ _ _) as [rest unused].
    destruct IH as (-> & Hu & Hg). split_and!; [|done|].
    + cbn. by rewrite bool_decide_eq_true_2.
    + intros k. rewrite Hg. apply decide_ext. set_solver.
  - specialize (IH (map_delete (key e) replaced) Hn (NoDup_map_delete _ _ Hr)).
    destruct (replace_loop _ _ _ _) as [rest unused]. destruct IH as (-> & Hu & Hg). split_and!; [|done|].
    + cbn. rewrite bool_decide_eq_false_2 by done. cbn. f_equal. apply map_ext_in. intros x Hx.
      apply filter_In in Hx as [Hx _]. rewrite map_get_delete, decide_False; [done| |done].
      intros Heq. apply He. rewrite Heq. apply list_elem_of_fmap. exists x. split; [done|by apply list_elem_of_In].
    + intros k. rewrite Hg, map_get_delete by done. destruct (decide (key e = k)) as [<-|Hk].
      * destruct (decide (key e ∈ (key <$> e :: entities) ∧ key e ∉ removed)) as [_|Hno]; [by case_decide|].
        destruct Hno. split; [rewrite fmap_cons; by left|done].
      * apply decide_ext. set_solver.
Qed.

(** The receiver's list agrees with the sender's record. *)
Definition follows (c : list T) (sent : list (units * units)) : Prop :=
  NoDup (key <$> c) ∧ NoDup sent.*1 ∧ ∀ k, map_get k (map entry c) = map_get k sent.

Lemma map_get_map {A} (f : T → A) (l : list T) k v :
  NoDup (key <$> l) → map_get k (map (fun e => (key e, f e)) l) = Some v ↔ ∃ e, e ∈ l ∧ key e = k ∧ f e = v.
Proof.
  induction l as [|e l IH]; cbn; [intros _; split; [done|by intros (e & ?%elem_of_nil & _)]|].
  rewrite NoDup_cons. intros [He Hn]. destruct (decide (key e = k)) as [<-|Hk].
  - split; [intros [= <-]; exists e; split_and!; [by left|done|done]|].
    intros (e' & [->|Hin]%elem_of_cons & Hk & <-); [done|]. destruct He. rewrite <- Hk.
    by apply list_elem_of_fmap_2.
  - rewrite IH by done. split; [intros (e' & ? & ? & ?); exists e'; split_and!; [by right|done|done]|].
    intros (e' & [->|Hin]%elem_of_cons & ? & ?); [done|]. by exists e'.
Qed.

Lemma map_get_map_none {A} (f : T → A) (l : list T) k :
  map_get k (map (fun e => (key e, f e)) l) = None ↔ k ∉ (key <$> l).
Proof.
  rewrite eq_None_not_Some, map_get_elem.
  change (map (fun e => (key e, f e)) l) with ((fun e => (key e, f e)) <$> l). by rewrite <- list_fmap_compose.
Qed.

Lemma reset_follows entities : NoDup (key <$> entities) → follows entities (ke_sent (reset key stringify entities)).
Proof.
  intros Hn. split_and!; [done|apply NoDup_map_of|]. intros k. cbn. by rewrite map_get_entries.
Qed.

Lemma key_inj_on l x y : NoDup (key <$> l) → x ∈ l → y ∈ l → key x = key y → x = y.
Proof.
  intros Hn Hx Hy Hk. assert (map_get (key y) (map (fun e => (key e, e)) l) = Some x) as H1
    by (apply map_get_map; [done|by exists x]).
  assert (map_get (key y) (map (fun e => (key e, e)) l) = Some y) as H2
    by (apply map_get_map; [done|by exists y]).
  congruence.
Qed.

Lemma NoDup_fmap_filter (f : T → bool) l : NoDup (key <$> l) → NoDup (key <$> List.filter f l).
Proof.
  induction l as [|e l IH]; cbn; [done|]. rewrite NoDup_cons. intros [H1 H2]. destruct (f e); [|by apply IH].
  cbn. apply NoDup_cons. split; [|by apply IH]. intros (x & Hx & Hin)%list_elem_of_fmap. apply H1. rewrite Hx.
  apply list_elem_of_fmap_2. apply list_elem_of_In, filter_In in Hin as [Hin _]. by apply list_elem_of_In.
Qed.

Section Step.
Context (c entities : list T) (sent : list (units * units)).
Hypothesis Hfollows : follows c sent.
Hypothesis Hnodup : NoDup (key <$> entities).

Abbreviation upsert := (changed sent entities).
Abbreviation remove := (vanished sent entities).
Abbreviation replaced := (map_of (map (fun e => (key e, e)) upsert)).
Abbreviation kept := (List.filter (fun e => negb (bool_decide (key e ∈ remove))) c).

Lemma vanished_elem k : k ∈ remove ↔ k ∈ (key <$> c) ∧ k ∉ (key <$> entities).
Proof using Hfollows Hnodup.
  unfold vanished. rewrite list_elem_of_In, filter_In, <- list_elem_of_In, negb_true_iff, bool_decide_eq_false.
  change (map fst sent) with sent.*1. rewrite <- map_get_elem. destruct Hfollows as (_ & _ & Hf).
  rewrite <- Hf, map_get_entries by done. rewrite !map_get_elem. unfold entry.
  change (map (fun e => (key e, stringify e))) with (fmap (M := list) (fun e => (key e, stringify e))).
  by rewrite <- !list_fmap_compose.
Qed.

Lemma replaced_get k e : map_get k replaced = Some e ↔ e ∈ upsert ∧ key e = k.
Proof using Hnodup.
  pose proof (NoDup_fmap_filter (fun e => negb (bool_decide (map_get (key e) sent = Some (stringify e))))
    entities Hnodup : NoDup (key <$> upsert)) as Hn.
  rewrite map_get_of; [rewrite map_get_map by done; naive_solver|].
  change (map (fun e => (key e, e)) upsert) with ((fun e => (key e, e)) <$> upsert).
  by rewrite <- list_fmap_compose.
Qed.

Lemma kept_elem e : e ∈ kept ↔ e ∈ c ∧ key e ∈ (key <$> entities).
Proof using Hfollows Hnodup.
  rewrite list_elem_of_In, filter_In, <- list_elem_of_In, negb_true_iff, bool_decide_eq_false, vanished_elem.
  split; intros [H1 H2]; (split; [done|]).
  - destruct (decide (key e ∈ (key <$> entities))); [done|]. destruct H2. split; [|done].
    by apply list_elem_of_fmap_2.
  - tauto.
Qed.

Lemma replaced_key e : key (default e (map_get (key e) replaced)) = key e.
Proof using Hnodup.
  destruct (map_get (key e) replaced) as [r|] eqn:Hr; [|done]. by apply replaced_get in Hr as [_ ?].
Qed.

(** What the receiver comes to: the entities it keeps, each replaced when it changed, then the new ones. *)
Lemma apply_shape :
  ∃ unused : list (units * T),
    applyKeyedDelta key c {| kd_upsert := upsert; kd_remove := remove |} =
      map (fun e => default e (map_get (key e) replaced)) kept ++ unused.*2 ∧
    NoDup unused.*1 ∧ ∀ k x, (k, x) ∈ unused ↔ x ∈ upsert ∧ key x = k ∧ k ∉ (key <$> c).
Proof using Hfollows Hnodup.
  unfold applyKeyedDelta. cbn [kd_upsert kd_remove].
  pose proof (replace_loop_spec remove c replaced (proj1 Hfollows) (NoDup_map_of _)) as H.
  destruct (replace_loop _ _ _ _) as [rest unused]. destruct H as (-> & Hu & Hg).
  exists unused. split_and!; [done|done|]. intros k x. rewrite map_get_in, Hg by done.
  case_decide as Hk; [|rewrite replaced_get; split; [|tauto]].
  - split; [done|]. tauto.
  - intros [Hx <-]. split_and!; [done|done|]. intros Hc. apply Hk. split; [done|].
    rewrite vanished_elem. intros [_ Hne]. apply Hne. apply changed_elem in Hx as [? _].
    by apply list_elem_of_fmap_2.
Qed.

Lemma apply_elem x :
  x ∈ applyKeyedDelta key c {| kd_upsert := upsert; kd_remove := remove |} ↔
  (∃ e, e ∈ c ∧ key e ∈ (key <$> entities) ∧ x = default e (map_get (key e) replaced)) ∨
  (x ∈ upsert ∧ key x ∉ (key <$> c)).
Proof using Hfollows Hnodup.
  destruct apply_shape as (unused & -> & _ & Hu). rewrite elem_of_app.
  assert (x ∈ unused.*2 ↔ x ∈ upsert ∧ key x ∉ (key <$> c)) as ->.
  { rewrite list_elem_of_fmap. split; [intros ([k e] & -> & Hin%Hu); cbn; naive_solver|].
    intros [? ?]. exists (key x, x). split; [done|]. by apply Hu. }
  rewrite list_elem_of_In, in_map_iff. setoid_rewrite <- list_elem_of_In. setoid_rewrite kept_elem. naive_solver.
Qed.

Lemma apply_NoDup : NoDup (key <$> applyKeyedDelta key c {| kd_upsert := upsert; kd_remove := remove |}).
Proof using Hfollows Hnodup.
  destruct apply_shape as (unused & -> & Hn & Hu). rewrite fmap_app.
  assert (key <$> map (fun e => default e (map_get (key e) replaced)) kept = key <$> kept) as ->.
  { change (map ?f kept) with (f <$> kept). rewrite <- list_fmap_compose. apply list_fmap_ext.
    intros _ e _. apply replaced_key. }
  assert (key <$> unused.*2 = unused.*1) as ->.
  { rewrite <- list_fmap_compose. apply list_fmap_ext. intros _ [k x] Hin%list_elem_of_lookup_2%Hu. cbn. tauto. }
  apply NoDup_app. split_and!; [apply NoDup_fmap_filter, Hfollows| |done].
  intros k (e & -> & He)%list_elem_of_fmap Hk%list_elem_of_fmap. destruct Hk as ([k x] & Hke & Hin%Hu).
  cbn in Hke. apply kept_elem in He as [He _]. destruct Hin as (_ & _ & []). subst k. by apply list_elem_of_fmap_2.
Qed.

(** An entity that was not resent is one the receiver has, with the same JSON. *)
Lemma unchanged_kept e :
  e ∈ entities → e ∉ upsert →
  (∃ e0, e0 ∈ c ∧ key e0 = key e ∧ stringify e0 = stringify e) ∧ map_get (key e) replaced = None.
Proof using Hfollows Hnodup.
  intros He Hne. split.
  - pose proof Hfollows as (Hc & _ & Hf). apply map_get_map; [done|].
    change (map_get (key e) (map entry c) = Some (stringify e)). rewrite Hf.
    apply dec_stable. intros Hd. apply Hne. by apply changed_elem.
  - apply eq_None_not_Some. intros [r Hr]. apply replaced_get in Hr as [Hr Hk]. apply Hne.
    pose proof (proj1 (proj1 (changed_elem _ _ _) Hr)) as Hin. by rewrite <- (key_inj_on entities r e).
Qed.

Lemma resent_or_not e : e ∈ entities → e ∈ upsert ∨ e ∉ upsert.
Proof.
  intros He. rewrite changed_elem. destruct (decide (map_get (key e) sent = Some (stringify e))); naive_solver.
Qed.

(** The receiver follows the sender over one delta. *)
Lemma step_follows :
  follows (applyKeyedDelta key c {| kd_upsert := upsert; kd_remove := remove |})
    (ke_sent (reset key stringify entities)).
Proof using Hfollows Hnodup.
  split_and!; [apply apply_NoDup|apply NoDup_map_of|]. intros k. unfold reset. cbn [ke_sent].
  change (map (fun e => (key e, stringify e)) entities) with (map entry entities).
  rewrite (map_get_entries entities k Hnodup). apply option_eq. intros v. unfold entry.
  rewrite !map_get_map by (apply apply_NoDup || done). setoid_rewrite apply_elem.
  pose proof Hfollows as (Hc & _ & _). split.
  - intros (x & [(e & He & Hke & ->)|[Hx _]] & <- & <-); [|by apply changed_elem in Hx as [? _]; exists x].
    apply list_elem_of_fmap in Hke as (e1 & Hk & He1). destruct (resent_or_not e1 He1) as [Hu|Hu].
    + assert (map_get (key e) replaced = Some e1) as -> by (by apply replaced_get). by exists e1.
    + destruct (unchanged_kept e1 He1 Hu) as [(e0 & He0 & Hk0 & Hs) Hr]. rewrite Hk, Hr. cbn.
      rewrite (key_inj_on c e e0) by congruence. by exists e1.
  - intros (e & He & <- & <-). destruct (resent_or_not e He) as [Hu|Hu].
    + exists e. split; [|done]. destruct (decide (key e ∈ (key <$> c))) as [Hin|]; [left|by right].
      apply list_elem_of_fmap in Hin as (e0 & Hk & He0). exists e0. rewrite <- Hk. split_and!; [done| |].
      * by apply list_elem_of_fmap_2.
      * by rewrite (proj2 (replaced_get (key e) e)).
    + destruct (unchanged_kept e He Hu) as [(e0 & He0 & Hk0 & Hs) Hr]. exists e0. split; [left|done].
      exists e0. rewrite Hk0, Hr. split_and!; [done| |done]. by apply list_elem_of_fmap_2.
Qed.
End Step.

(** ** A whole subscription *)

(** The sender goes through [snapshots] after a full list, and the receiver applies each delta it is sent. *)
Fixpoint subscription (s : KeyedEntities) (c : list T) (snapshots : list (list T)) : KeyedEntities * list T :=
  match snapshots with
  | [] => (s, c)
  | entities :: snapshots =>
      let '(s, delta) := next key stringify entities s in
      subscription s (from_option (applyKeyedDelta key c) c delta) snapshots
  end.

(** Keys and JSON, without the order. *)
Definition same_entities (a b : list T) : Prop := map entry a ≡ₚ map entry b.

Lemma follows_same c entities :
  NoDup (key <$> entities) → follows c (ke_sent (reset key stringify entities)) → same_entities c entities.
Proof.
  intros Hn (Hc & _ & Hf).
  assert (∀ l, NoDup (key <$> l) → NoDup ((map entry l).*1)) as Hkeys.
  { intros l Hl. change (map entry l) with (entry <$> l). by rewrite <- list_fmap_compose. }
  apply NoDup_Permutation; [by eapply NoDup_fmap_1, Hkeys|by eapply NoDup_fmap_1, Hkeys|].
  intros [k v]. rewrite !map_get_in by (by apply Hkeys). by rewrite Hf, <- map_get_entries.
Qed.

Lemma next_follows c s entities :
  follows c (ke_sent s) → NoDup (key <$> entities) →
  let '(s', delta) := next key stringify entities s in
  s' = reset key stringify entities ∧ follows (from_option (applyKeyedDelta key c) c delta) (ke_sent s').
Proof.
  intros Hf Hn. rewrite next_spec. split; [done|]. pose proof (step_follows c entities (ke_sent s) Hf Hn) as H.
  destruct (changed _ _) eqn:Hch, (vanished _ _) eqn:Hva; [|exact H..]. cbn [from_option].
  assert (applyKeyedDelta key c {| kd_upsert := []; kd_remove := [] |} = c) as <-; [|exact H].
  assert (replace_loop key [] c [] = (c, [])) as Hl.
  { clear. induction c as [|e c IH]; [done|]. cbn. rewrite IH. by case_decide as Hd; [apply elem_of_nil in Hd|]. }
  unfold applyKeyedDelta. cbn [kd_upsert kd_remove map map_of fold_left]. rewrite Hl. apply app_nil_r.
Qed.

Lemma same_get prev entities k :
  NoDup (key <$> prev) → NoDup (key <$> entities) → same_entities prev entities →
  map_get k (map entry prev) = map_get k (map entry entities).
Proof.
  intros Hp Hn Hs. apply option_eq. intros v. unfold entry. rewrite !map_get_map by done.
  assert (∀ l, (∃ e, e ∈ l ∧ key e = k ∧ stringify e = v) ↔ (k, v) ∈ map entry l) as Hin.
  { intros l. rewrite list_elem_of_In, in_map_iff. setoid_rewrite <- list_elem_of_In. unfold entry. naive_solver. }
  rewrite !Hin. unfold same_entities in Hs. by rewrite Hs.
Qed.

(** Nothing is sent exactly when nothing changed. *)
Lemma next_silent prev entities :
  NoDup (key <$> prev) → NoDup (key <$> entities) →
  (next key stringify entities (reset key stringify prev)).2 = None ↔ same_entities prev entities.
Proof.
  intros Hp Hn. pose proof (reset_follows prev Hp) as Hf. split.
  - pose proof (next_follows prev _ entities Hf Hn) as H. destruct (next _ _ _ _) as [s delta]. cbn. intros ->.
    destruct H as [-> H]. by apply follows_same.
  - intros Hs. rewrite next_spec. cbn [snd].
    assert (changed (ke_sent (reset key stringify prev)) entities = []) as ->.
    { apply elem_of_nil_inv. intros e [He Hd]%changed_elem. apply Hd. destruct Hf as (_ & _ & <-).
      rewrite (same_get prev entities) by done. apply map_get_map; [done|]. by exists e. }
    assert (vanished (ke_sent (reset key stringify prev)) entities = []) as ->; [|done].
    apply elem_of_nil_inv. intros k [Hk Hd]%(vanished_elem prev); [|done..].
    apply (map_get_map_none stringify) in Hd. change (map_get k (map entry entities) = None) in Hd.
    rewrite <- (same_get prev entities k Hp Hn Hs) in Hd. by apply map_get_map_none in Hd.
Qed.

Lemma subscription_follows snapshots c s :
  follows c (ke_sent s) → Forall (fun l => NoDup (key <$> l)) snapshots →
  let '(s', c') := subscription s c snapshots in
  follows c' (ke_sent s') ∧ (snapshots ≠ [] → s' = reset key stringify (List.last snapshots [])).
Proof.
  revert c s. induction snapshots as [|l snapshots IH]; intros c s Hf Hn; [done|].
  inversion Hn as [|?? Hl Hrest]; subst. cbn [subscription].
  pose proof (next_follows c s l Hf Hl) as H. destruct (next _ _ _ _) as [s1 delta]. destruct H as [-> H].
  specialize (IH _ _ H Hrest). destruct (subscription _ _ _) as [s' c'] eqn:Hsub. destruct IH as [H1 H2].
  split; [done|]. intros _. destruct snapshots; [by simplify_eq/=|]. by apply H2.
Qed.

(** C35: where no list holds two entities of one key, a receiver that holds the first list and applies each delta it is sent holds the entities of the sender's
    last list (the same keys with the same JSON, in whatever order), and a change of list sends nothing
    exactly when no entity appeared, vanished or changed. *)
Theorem delta_stream first snapshots :
  Forall (fun l => NoDup (key <$> l)) (first :: snapshots) →
  same_entities (subscription (reset key stringify first) first snapshots).2 (List.last (first :: snapshots) []) ∧
  ∀ prev entities, prev ∈ first :: snapshots → entities ∈ first :: snapshots →
    (next key stringify entities (reset key stringify prev)).2 = None ↔ same_entities prev entities.
Proof.
  intros Hall. split.
  - pose proof Hall as Hall'. inversion Hall' as [|?? Hf Hrest]; subst.
    pose proof (subscription_follows snapshots first _ (reset_follows first Hf) Hrest) as H.
    destruct (subscription _ _ _) as [s' c'] eqn:Hsub. destruct H as [H1 H2]. cbn [snd].
    destruct snapshots as [|l snapshots]; [cbn in Hsub; injection Hsub as <- <-; exact (Permutation_refl _)|].
    rewrite H2 in H1 by done.
    apply follows_same; [|exact H1]. rewrite Forall_forall in Hrest. apply Hrest.
    change (List.last (first :: l :: snapshots) []) with (List.last (l :: snapshots) []).
    clear. revert l. induction snapshots as [|l' t IH]; intros l; [by left|]. right. apply IH.
  - rewrite Forall_forall in Hall. intros prev entities Hp He. apply next_silent; by apply Hall.
Qed.
End Keyed.

(** C35 where a device boots, another leaves and a third is unchanged. *)
Lemma delta_stream_witness :
  let key := fun e : Z * Z => [e.1] in
  let stringify := fun e : Z * Z => [e.1; e.2] in
  same_entities key stringify
    (subscription key stringify (reset key stringify [(1, 0); (2, 0)]) [(1, 0); (2, 0)]
       [[(2, 0); (1, 5)]; [(3, 1); (1, 5)]]).2
    [(3, 1); (1, 5)].
Proof.
  refine (proj1 (delta_stream (fun e : Z * Z => [e.1]) (fun e : Z * Z => [e.1; e.2]) [(1, 0); (2, 0)]
    [[(2, 0); (1, 5)]; [(3, 1); (1, 5)]] _)).
  apply (bool_decide_unpack _). reflexivity.
Defined.
