(* ===== verification/Limits.v ===== *)
(** * Limits of the server: [packages/server/src/server.ts] and [packages/server/src/frames.ts]

    [FailureLimiter] counts failed authentications of a peer, [PendingConnections] the connections of a listener that have not
    authenticated, and [Limiter] runs tasks, so many at a time. A JavaScript [Map] is the list of its
    entries in insertion order; a socket is a number. *)

From Stdlib Require Import ZArith Lia.
From S2P Require Import Prelude.
From S2P Require Import Bytes.
From S2P Require Import Json.
From S2P Require Import KeyedDelta.
Open Scope Z_scope.

(** ** [FailureLimiter] *)

Definition MAX_LIMITED_PEERS : nat := 4096.

Record FailureLimiter := { fl_failures : list (units * list Z); fl_max : nat; fl_windowMs : Z }.

Definition new_FailureLimiter (max : nat) (windowMs : Z) : FailureLimiter :=
  {| fl_failures := []; fl_max := max; fl_windowMs := windowMs |}.

Definition set_failures (failures : list (units * list Z)) (l : FailureLimiter) : FailureLimiter :=
  {| fl_failures := failures; fl_max := fl_max l; fl_windowMs := fl_windowMs l |}.

Definition in_window (windowMs now at_ : Z) : bool := now - at_ <? windowMs.

Definition recent (key : units) (now : Z) (l : FailureLimiter) : FailureLimiter * list Z :=
  let kept := List.filter (in_window (fl_windowMs l) now) (default [] (map_get key (fl_failures l))) in
  match kept with
  | [] => (set_failures (map_delete key (fl_failures l)) l, kept)
  | _ => (set_failures (map_set key kept (fl_failures l)) l, kept)
  end.

Definition blocked (key : units) (now : Z) (l : FailureLimiter) : FailureLimiter * bool :=
  let '(l, kept) := recent key now l in (l, (fl_max l <=? length kept)%nat).

Definition record_failure (key : units) (now : Z) (l : FailureLimiter) : FailureLimiter :=
  let '(l, kept) := recent key now l in
  let others := map_delete key (fl_failures l) in
  let others := match others with
                | (oldest, _) :: _ =>
                    if (MAX_LIMITED_PEERS <=? length others)%nat then map_delete oldest others else others
                | [] => others
                end in
  set_failures (map_set key (kept ++ [now]) others) l.

(** ** [PendingConnections] *)

Definition MAX_PENDING_CONNECTIONS : nat := 64.
Definition MAX_PENDING_PER_PEER : nat := 16.

Record PendingConnections := {
  pc_peers : gmap nat (list Z);
  pc_counts : gmap (list Z) Z;
  pc_max : Z;
  pc_perPeer : Z;
}.

Definition new_PendingConnections (max perPeer : Z) : PendingConnections :=
  {| pc_peers := ∅; pc_counts := ∅; pc_max := max; pc_perPeer := perPeer |}.

(** The socket and its remote address, [''] where it has none. *)
Definition admit_socket (socket : nat) (peer : units) (p : PendingConnections) : PendingConnections * bool :=
  let count := default 0 (pc_counts p !! peer) in
  if (pc_max p <=? Z.of_nat (size (pc_peers p))) || (pc_perPeer p <=? count) then (p, false)
  else ({| pc_peers := <[socket := peer]> (pc_peers p); pc_counts := <[peer := count + 1]> (pc_counts p);
           pc_max := pc_max p; pc_perPeer := pc_perPeer p |}, true).

Definition settle_socket (socket : nat) (p : PendingConnections) : PendingConnections :=
  match pc_peers p !! socket with
  | None => p
  | Some peer =>
      let left := default 1 (pc_counts p !! peer) - 1 in
      {| pc_peers := delete socket (pc_peers p);
         pc_counts := if 0 <? left then <[peer := left]> (pc_counts p) else delete peer (pc_counts p);
         pc_max := pc_max p; pc_perPeer := pc_perPeer p |}
  end.

(** ** [Limiter] *)

(** A task is a number. [lm_started] is the tasks that have begun, the last first. *)
Record Limiter := { lm_active : Z; lm_waiting : list nat; lm_max : Z; lm_started : list nat }.

Definition new_Limiter (max : Z) : Limiter := {| lm_active := 0; lm_waiting := []; lm_max := max; lm_started := [] |}.

(** [run] up to its task, or to its wait. *)
Definition run_task (task : nat) (l : Limiter) : Limiter :=
  if lm_max l <=? lm_active l then
    {| lm_active := lm_active l; lm_waiting := lm_waiting l ++ [task]; lm_max := lm_max l; lm_started := lm_started l |}
  else
    {| lm_active := lm_active l + 1; lm_waiting := lm_waiting l; lm_max := lm_max l;
       lm_started := task :: lm_started l |}.

(** [finally], once a task settled. *)
Definition finish_task (l : Limiter) : Limiter :=
  match lm_waiting l with
  | next :: waiting =>
      {| lm_active := lm_active l; lm_waiting := waiting; lm_max := lm_max l; lm_started := next :: lm_started l |}
  | [] => {| lm_active := lm_active l - 1; lm_waiting := []; lm_max := lm_max l; lm_started := lm_started l |}
  end.
