(* ===== verification/LimitsFacts.v ===== *)
(** * Limits of the server

    The limiter blocks a peer exactly when it failed too often, within a bounded memory; the pending connections
    are counted exactly; the tasks of a limiter begin in turn. *)

From Stdlib Require Import ZArith Lia.
From S2P Require Import Prelude.
From S2P Require Import Bytes.
From S2P Require Import Json.
From S2P Require Import KeyedDelta.
From S2P Require Import KeyedDeltaFacts.
From S2P Require Import Limits.
Open Scope Z_scope.

(** ** [FailureLimiter]

    A history is what was asked of a limiter, the latest first. *)

Inductive LimitEvent := Failed (key : units) (now : Z) | Asked (key : units) (now : Z).

Definition event_time (e : LimitEvent) : Z := match e with Failed _ t | Asked _ t => t end.

Section FailureLimiter.
Context (max : nat) (windowMs : Z).

Fixpoint limiter_after (history : list LimitEvent) : FailureLimiter :=
  match history with
  | [] => new_FailureLimiter max windowMs
  | Failed key now :: history => record_failure key now (limiter_after history)
  | Asked key now :: history => fst (blocked key now (limiter_after history))
  end.

(** The clock does not run backwards. *)
Fixpoint clocked (history : list LimitEvent) : Prop :=
  match history with
  | [] => True
  | e :: history => Forall (fun e' => event_time e' <= event_time e) history ∧ clocked history
  end.

(** The times at which a key failed, the first first. *)
Fixpoint failures_of (key : units) (history : list LimitEvent) : list Z :=
  match history with
  | [] => []
  | Failed key' now :: history =>
      if decide (key' = key) then failures_of key history ++ [now] else failures_of key history
  | Asked _ _ :: history => failures_of key history
  end.

(** The other keys that failed since the key last did. *)
Fixpoint others_since (key : units) (history : list LimitEvent) : list units :=
  match history with
  | [] => []
  | Failed key' _ :: history =>
      if decide (key' = key) then []
      else if decide (key' ∈ others_since key history) then others_since key history
      else key' :: others_since key history
  | Asked _ _ :: history => others_since key history
  end.

(** At some time so many other keys had failed since the key last did that its failures may be forgotten. *)
Fixpoint crowded (key : units) (history : list LimitEvent) : bool :=
  match history with
  | [] => false
  | e :: history => (MAX_LIMITED_PEERS <=? length (others_since key (e :: history)))%nat || crowded key history
  end.

Definition in_window_at (now : Z) (times : list Z) : list Z := List.filter (in_window windowMs now) times.

Lemma window_window now now' times :
  now <= now' → in_window_at now' (in_window_at now times) = in_window_at now' times.
Proof.
  intros Hn. unfold in_window_at. induction times as [|t times IH]; [done|]. cbn.
  unfold in_window in *. destruct (now - t <? windowMs) eqn:E1; cbn; destruct (now' - t <? windowMs) eqn:E2; try (by rewrite IH); try done.
  lia.
Qed.

Lemma in_window_app now a b : in_window_at now (a ++ b) = in_window_at now a ++ in_window_at now b.
Proof. apply List.filter_app. Qed.

Lemma limiter_constants history :
  fl_max (limiter_after history) = max ∧ fl_windowMs (limiter_after history) = windowMs.
Proof.
  induction history as [|[key now|key now] history [IH1 IH2]]; [done| |]; cbn [limiter_after];
    unfold record_failure, blocked, recent; repeat case_match; simplify_eq/=; auto.
Qed.

(** What [recent] leaves for a key. *)
Lemma recent_get key now l k :
  NoDup (fl_failures l).*1 →
  default [] (map_get k (fl_failures (fst (recent key now l)))) =
  if decide (k = key) then snd (recent key now l) else default [] (map_get k (fl_failures l)).
Proof.
  intros Hn. unfold recent. destruct (List.filter _ _) as [|t times] eqn:E; cbn [fst snd fl_failures set_failures].
  - rewrite map_get_delete by done. by repeat case_decide; subst.
  - rewrite map_get_set. by repeat case_decide; subst.
Qed.

Definition keys (l : FailureLimiter) : list units := (fl_failures l).*1.
Definition without (key : units) (ks : list units) : list units := List.filter (fun k => negb (bool_decide (k = key))) ks.

Lemma map_delete_keys {A} key (m : list (units * A)) : NoDup m.*1 → (map_delete key m).*1 = without key m.*1.
Proof.
  induction m as [|[k v] m IH]; cbn; [done|]. rewrite NoDup_cons. intros [H1 H2].
  case_bool_decide as E; destruct (decide (k = key)) as [->|]; try done; cbn; [|by rewrite IH].
  symmetry. apply forallb_filter_id, forallb_forall. intros x Hx%list_elem_of_In.
  apply negb_true_iff, bool_decide_eq_false. by intros ->.
Qed.

Lemma map_set_same_keys {A} key v (m : list (units * A)) : key ∈ m.*1 → (map_set key v m).*1 = m.*1.
Proof.
  induction m as [|[k w] m IH]; cbn; [by intros ?%elem_of_nil|]. rewrite elem_of_cons.
  case_decide; [done|]. intros [->|Hk]; [done|]. cbn. by rewrite IH.
Qed.

Lemma map_set_new_keys {A} key v (m : list (units * A)) : key ∉ m.*1 → (map_set key v m).*1 = m.*1 ++ [key].
Proof.
  induction m as [|[k w] m IH]; cbn; [done|]. rewrite not_elem_of_cons. intros [Hk Hm].
  rewrite decide_False by congruence. cbn. by rewrite IH.
Qed.

Lemma elem_of_without key ks k : k ∈ without key ks ↔ k ∈ ks ∧ k ≠ key.
Proof.
  unfold without. rewrite !list_elem_of_In, filter_In, negb_true_iff, bool_decide_eq_false. done.
Qed.

Lemma without_sublist key ks : without key ks `sublist_of` ks.
Proof. unfold without. induction ks as [|k ks IH]; cbn; [constructor|]. case_bool_decide; by constructor. Qed.

Lemma without_twice key ks : without key (without key ks) = without key ks.
Proof.
  unfold without. induction ks as [|k ks IH]; cbn; [done|]. case_bool_decide; cbn; [exact IH|].
  rewrite bool_decide_eq_false_2 by done. cbn. by rewrite IH.
Qed.

Lemma NoDup_without key ks : NoDup ks → NoDup (without key ks).
Proof. intros H. eapply sublist_NoDup; [exact H|apply without_sublist]. Qed.

Lemma recent_keys key now l :
  NoDup (keys l) → keys (fst (recent key now l)) = keys l ∨ keys (fst (recent key now l)) = without key (keys l).
Proof.
  intros Hn. unfold recent, keys in *. destruct (List.filter _ _) as [|t times] eqn:E; cbn [fst fl_failures set_failures].
  - right. by apply map_delete_keys.
  - left. apply map_set_same_keys, map_get_elem. destruct (map_get key (fl_failures l)); [done|discriminate].
Qed.

(** What is left of the other keys to make room. *)
Definition evict (ks : list units) : list units := if (MAX_LIMITED_PEERS <=? length ks)%nat then tail ks else ks.

Lemma record_keys key now l :
  NoDup (keys l) → keys (record_failure key now l) = evict (without key (keys l)) ++ [key].
Proof.
  intros Hn. unfold record_failure. pose proof (recent_keys key now l Hn) as Hk.
  destruct (recent key now l) as [l' kept]. cbn [fst] in Hk. unfold keys in Hn, Hk.
  assert (NoDup (fl_failures l').*1) as Hn' by (destruct Hk as [-> | ->]; [done|by apply NoDup_without]).
  set (others := map_delete key (fl_failures l')).
  assert (others.*1 = without key (keys l)) as Ho.
  { unfold others. rewrite map_delete_keys by done. unfold keys. destruct Hk as [-> | ->]; [done|apply without_twice]. }
  assert (key ∉ others.*1) as Hnk by (rewrite Ho, elem_of_without; tauto).
  unfold keys in *. cbn [fl_failures set_failures]. rewrite map_set_new_keys.
  - f_equal. rewrite <- Ho. unfold evict. rewrite length_fmap. destruct others as [|[o v] others]; [done|].
    destruct (_ <=? _)%nat; [|done]. cbn. by rewrite decide_True.
  - destruct others as [|[o v] others]; [done|]. destruct (_ <=? _)%nat; [|done].
    cbn [map_delete]. rewrite decide_True by done. set_solver.
Qed.

(** The keys behind a key, which failed after it did. *)
Fixpoint behind (key : units) (ks : list units) : list units :=
  match ks with [] => [] | k :: ks => if decide (k = key) then ks else behind key ks end.

Lemma behind_absent key ks : key ∉ ks → behind key ks = [].
Proof.
  induction ks as [|k ks IH]; cbn; [done|]. rewrite not_elem_of_cons. intros [H1 H2].
  rewrite decide_False by congruence. by apply IH.
Qed.

Lemma behind_without key k ks : k ≠ key → behind k (without key ks) ⊆ behind k ks.
Proof.
  intros Hne. induction ks as [|x ks IH]; cbn; [done|]. case_bool_decide as E; cbn.
  - rewrite decide_False by congruence. done.
  - case_decide; [|done]. apply sublist_subseteq, without_sublist.
Qed.

Lemma behind_evict k ks : NoDup ks → behind k (evict ks) ⊆ behind k ks.
Proof.
  intros Hn. unfold evict. destruct (_ <=? _)%nat; [|done]. destruct ks as [|x ks]; [done|]. cbn.
  apply NoDup_cons in Hn as [Hx _]. case_decide; [|done]. subst. rewrite behind_absent by done. set_solver.
Qed.

Lemma behind_snoc k ks key : behind k (ks ++ [key]) ⊆ behind k ks ++ [key].
Proof. induction ks as [|x ks IH]; cbn; [case_decide; set_solver|]. by case_decide. Qed.

Lemma NoDup_evict ks : NoDup ks → NoDup (evict ks).
Proof. intros Hn. unfold evict. destruct (_ <=? _)%nat; [|done]. destruct ks; [done|]. by apply NoDup_cons in Hn as [_ ?]. Qed.

Lemma elem_of_evict k ks : k ∈ evict ks → k ∈ ks.
Proof. unfold evict. destruct (_ <=? _)%nat; [|done]. destruct ks; [done|]. by right. Qed.

Lemma max_peers_positive : (0 < MAX_LIMITED_PEERS)%nat.
Proof. unfold MAX_LIMITED_PEERS. lia. Qed.

Lemma length_evict ks : (length ks <= MAX_LIMITED_PEERS → length (evict ks) < MAX_LIMITED_PEERS)%nat.
Proof.
  pose proof max_peers_positive. intros H'. unfold evict.
  destruct (Nat.leb_spec MAX_LIMITED_PEERS (length ks)); [|done]. destruct ks; cbn in *; lia.
Qed.

Lemma NoDup_others key history : NoDup (others_since key history).
Proof.
  induction history as [|[k t|k t] history IH]; cbn; [constructor| |done].
  case_decide; [constructor|]. case_decide; [done|]. by apply NoDup_cons.
Qed.

(** The keys of a limiter: told apart, bounded in number, in the order in which they last failed. *)
Lemma limiter_keys history :
  NoDup (keys (limiter_after history)) ∧ (length (keys (limiter_after history)) <= MAX_LIMITED_PEERS)%nat ∧
  ∀ k, behind k (keys (limiter_after history)) ⊆ others_since k history.
Proof.
  induction history as [|[key now|key now] history (Hn & Hl & Hb)]; cbn [limiter_after].
  - split_and!; [constructor|cbn; lia|done].
  - set (ks := keys (limiter_after history)) in *. rewrite record_keys by done. fold ks.
    pose proof (NoDup_without key _ Hn) as Hw. assert (key ∉ evict (without key ks)) as Hnk.
    { intros Hk%elem_of_evict. apply elem_of_without in Hk as [_ ?]. done. }
    split_and!.
    + apply NoDup_app. split_and!; [by apply NoDup_evict|set_solver|apply NoDup_singleton].
    + rewrite length_app. cbn. pose proof (length_evict (without key ks)) as He.
      pose proof (sublist_length _ _ (without_sublist key ks)). lia.
    + intros k. cbn [others_since]. destruct (decide (key = k)) as [->|Hne].
      { clear -Hnk. induction (evict (without k ks)) as [|x l IH]; cbn; [by rewrite decide_True|].
        apply not_elem_of_cons in Hnk as [H1 H2]. rewrite decide_False by congruence. by apply IH. }
      etrans; [apply behind_snoc|]. pose proof (behind_evict k _ Hw). pose proof (behind_without key k ks ltac:(congruence)).
      specialize (Hb k). case_decide; set_solver.
  - unfold blocked. pose proof (recent_keys key now _ Hn) as Hk. destruct (recent key now _) as [l' kept]. cbn [fst] in *.
    destruct Hk as [-> | ->]; [done|]. split_and!; [by apply NoDup_without| |].
    + pose proof (sublist_length _ _ (without_sublist key (keys (limiter_after history)))). lia.
    + intros k. cbn [others_since]. etrans; [|apply Hb]. destruct (decide (k = key)) as [->|]; [|by apply behind_without].
      rewrite behind_absent by (rewrite elem_of_without; tauto). set_solver.
Qed.

(** What a limiter holds of a key after another one failed: all, or nothing where the key was the oldest. *)
Lemma record_get key now l k :
  NoDup (keys l) →
  default [] (map_get k (fl_failures (record_failure key now l))) =
  if decide (k = key) then snd (recent key now l) ++ [now]
  else if decide (k ∈ without key (keys l) ∧ k ∉ evict (without key (keys l))) then []
  else default [] (map_get k (fl_failures l)).
Proof.
  intros Hn. pose proof (record_keys key now l Hn) as Hrk. pose proof (recent_get key now l k Hn) as Hg.
  pose proof (recent_keys key now l Hn) as Hk. unfold keys in Hn, Hk, Hrk. unfold record_failure in *.
  destruct (recent key now l) as [l' kept]. cbn [fst snd] in *.
  assert (NoDup (fl_failures l').*1) as Hn' by (destruct Hk as [-> | ->]; [done|by apply NoDup_without]).
  cbn [fl_failures set_failures] in *. rewrite map_get_set.
  destruct (decide (k = key)) as [->|Hne]; [by rewrite decide_True|]. rewrite decide_False by congruence.
  set (others := map_delete key (fl_failures l')) in *.
  assert (NoDup others.*1) as Hno by (by apply NoDup_map_delete).
  assert (map_get k others = map_get k (fl_failures l')) as Ho.
  { unfold others. rewrite map_get_delete by done. by rewrite decide_False by congruence. }
  assert (others.*1 = without key (fl_failures l).*1) as Hok.
  { unfold others. rewrite map_delete_keys by done. destruct Hk as [-> | ->]; [done|apply without_twice]. }
  unfold keys. rewrite <- Hok. destruct others as [|[o v] rest] eqn:Eo.
  { rewrite Ho, Hg. destruct (decide _) as [[[]%elem_of_nil _]|]; done. }
  unfold evict. rewrite length_fmap. destruct (MAX_LIMITED_PEERS <=? length ((o, v) :: rest))%nat.
  - cbn [map_delete]. rewrite decide_True by done. cbn [tail fmap list_fmap fst].
    cbn in Hno. apply NoDup_cons in Hno as [Hno _]. destruct (decide (k = o)) as [->|Hko].
    + rewrite (proj2 (eq_None_not_Some _)) by (by rewrite map_get_elem). by rewrite decide_True by (split; [left|done]).
    + rewrite decide_False by (cbn; rewrite elem_of_cons; tauto). rewrite <- Hg, <- Ho. cbn. by rewrite decide_False by congruence.
  - rewrite decide_False by tauto. by rewrite Ho, Hg.
Qed.

(** The oldest key goes only when as many others failed since it did. *)
Lemma evicted_crowded key now history k :
  k ≠ key → k ∈ without key (keys (limiter_after history)) → k ∉ evict (without key (keys (limiter_after history))) →
  crowded k (Failed key now :: history) = true.
Proof.
  intros Hne Hin Hout. cbn [crowded]. apply orb_true_iff. left. apply Nat.leb_le.
  destruct (limiter_keys history) as (Hn & _ & Hb). specialize (Hb k). set (ks := keys (limiter_after history)) in *.
  pose proof (NoDup_without key _ Hn) as Hw. pose proof (behind_without key k ks Hne) as Hbw.
  assert (key ∉ without key ks) as Hnk by (rewrite elem_of_without; tauto).
  unfold evict in Hout. destruct (Nat.leb_spec MAX_LIMITED_PEERS (length (without key ks))) as [Hle|]; [|done].
  destruct (without key ks) as [|x rest] eqn:E; [by apply elem_of_nil in Hin|].
  assert (x = k) as -> by (apply elem_of_cons in Hin as [->|?]; done).
  cbn [behind] in Hbw. rewrite decide_True in Hbw by done. cbn [length] in Hle.
  apply NoDup_cons in Hw as [_ Hw]. apply not_elem_of_cons in Hnk as [_ Hnk].
  assert (key :: rest ⊆ others_since k (Failed key now :: history)) as Hsub.
  { cbn [others_since]. rewrite decide_False by congruence. case_decide; set_solver. }
  etrans; [exact Hle|]. change (S (length rest)) with (length (key :: rest)).
  apply submseteq_length, NoDup_submseteq; [by apply NoDup_cons|]. intros y Hy. by apply Hsub.
Qed.

Lemma recent_kept key now l :
  snd (recent key now l) = List.filter (in_window (fl_windowMs l) now) (default [] (map_get key (fl_failures l))).
Proof. unfold recent. by destruct (List.filter _ _). Qed.

Lemma recent_max key now l : fl_max (fst (recent key now l)) = fl_max l.
Proof. unfold recent. by destruct (List.filter _ _). Qed.

Lemma list_filter_sub {A} (p : A → bool) l k : l `sublist_of` k → List.filter p l `sublist_of` k.
Proof. intros H. etrans; [|exact H]. clear. induction l as [|x l IH]; cbn; [constructor|]. destruct (p x); by constructor. Qed.

(** What a limiter holds of a key. *)
Lemma limiter_holds history k :
  clocked history →
  default [] (map_get k (fl_failures (limiter_after history))) `sublist_of` failures_of k history ∧
  (crowded k history = false → ∀ now, Forall (fun e => event_time e <= now) history →
    in_window_at now (default [] (map_get k (fl_failures (limiter_after history))))
    = in_window_at now (failures_of k history)).
Proof.
  induction history as [|e history IH]; [done|]. cbn [clocked]. intros [Hle Hc]. destruct (IH Hc) as [IHs IHe]. clear IH.
  destruct (limiter_keys history) as (Hn & _). destruct (limiter_constants history) as [_ Hw].
  assert (∀ t, t = event_time e → crowded k history = false → ∀ now, t <= now →
    in_window_at now (in_window_at t (default [] (map_get k (fl_failures (limiter_after history)))))
    = in_window_at now (failures_of k history)) as Hwin.
  { intros t -> Hcr now Hnow. rewrite window_window by done. apply IHe; [done|]. eapply Forall_impl; [exact Hle|]. cbn. intros; lia. }
  destruct e as [key t|key t]; cbn [event_time failures_of limiter_after] in *.
  - rewrite record_get by done. rewrite recent_kept, Hw. fold (in_window_at t).
    destruct (decide (k = key)) as [->|Hne].
    + rewrite decide_True by done. split.
      { apply sublist_app; [|done]. by apply list_filter_sub. }
      cbn [crowded]. intros [_ Hcr]%orb_false_iff now [Hnow _]%Forall_cons.
      rewrite !in_window_app. f_equal. by apply Hwin.
    + rewrite (decide_False (P := key = k)) by congruence. destruct (decide _) as [[H1 H2]|Hno].
      { split; [apply sublist_nil_l|]. intros Hcr. by rewrite (evicted_crowded key t history k) in Hcr. }
      split; [done|]. cbn [crowded]. intros [_ Hcr]%orb_false_iff now [Hnow Hall]%Forall_cons. by apply IHe.
  - unfold blocked. pose proof (recent_get key t (limiter_after history) k Hn) as Hg.
    pose proof (recent_kept key t (limiter_after history)) as Hk. rewrite Hw in Hk.
    destruct (recent key t (limiter_after history)) as [l' kept]. cbn [fst snd] in *. rewrite Hg, Hk.
    destruct (decide (k = key)) as [->|Hne].
    + split; [by apply list_filter_sub|]. cbn [crowded]. intros [_ Hcr]%orb_false_iff now [Hnow _]%Forall_cons. by apply Hwin.
    + split; [done|]. cbn [crowded]. intros [_ Hcr]%orb_false_iff now [Hnow Hall]%Forall_cons. by apply IHe.
Qed.

(** The limiter blocks a peer only if the peer failed [max] times or more within the window, and blocks every
    peer that did, unless 4096 other peers failed since one of its failures, when it may be forgotten; it never remembers
    more peers than that. *)
Theorem limiter_exact history key now :
  clocked history → Forall (fun e => event_time e <= now) history →
  let count := length (in_window_at now (failures_of key history)) in
  let answer := snd (blocked key now (limiter_after history)) in
  (answer = true → (max <= count)%nat) ∧
  (crowded key history = false → answer = (max <=? count)%nat) ∧
  (length (fl_failures (limiter_after history)) <= MAX_LIMITED_PEERS)%nat.
Proof.
  intros Hc Hn count answer. destruct (limiter_holds history key Hc) as [Hs He].
  destruct (limiter_constants history) as [Hm Hw]. destruct (limiter_keys history) as (_ & Hl & _).
  assert (answer = (max <=? length (in_window_at now (default [] (map_get key (fl_failures (limiter_after history))))))%nat) as Ha.
  { unfold answer, blocked. pose proof (recent_kept key now (limiter_after history)) as Hk. rewrite Hw in Hk.
    assert (fl_max (fst (recent key now (limiter_after history))) = max) as Hm'
      by (by rewrite recent_max).
    destruct (recent key now (limiter_after history)) as [l' kept]. cbn [fst snd] in *. by rewrite Hm', Hk. }
  split_and!.
  - rewrite Ha. intros Hle%Nat.leb_le. etrans; [exact Hle|]. apply sublist_length. unfold in_window_at. clear -Hs.
    induction Hs as [|x l k Hs IH|x l k Hs IH]; cbn; [done| |]; destruct (in_window windowMs now x); by constructor || done.
  - intros Hcr. rewrite Ha. unfold count. by rewrite He.
  - unfold keys in Hl. by rewrite length_fmap in Hl.
Qed.
End FailureLimiter.

(** ** [PendingConnections] *)

(** A socket connects or is settled, by authenticating or by closing; the latest first. *)
Inductive PendingEvent := Connects (socket : nat) (peer : units) | Settles (socket : nat).

Section Pending.
Context (max perPeer : Z).

Fixpoint pending_after (history : list PendingEvent) : PendingConnections :=
  match history with
  | [] => new_PendingConnections max perPeer
  | Connects socket peer :: history => fst (admit_socket socket peer (pending_after history))
  | Settles socket :: history => settle_socket socket (pending_after history)
  end.

(** A socket connects once. *)
Fixpoint connects_once (history : list PendingEvent) : Prop :=
  match history with
  | [] => True
  | e :: history =>
      match e with
      | Connects socket _ => Forall (fun e => match e with Connects s _ => s ≠ socket | Settles _ => True end) history
      | Settles _ => True
      end ∧ connects_once history
  end.

(** How many pending sockets come from a peer. *)
Definition pending_of (peer : units) (p : PendingConnections) : Z :=
  Z.of_nat (size (filter (fun entry : nat * units => snd entry = peer) (pc_peers p))).

Definition pending_ok (p : PendingConnections) : Prop :=
  pc_max p = max ∧ pc_perPeer p = perPeer ∧
  (∀ peer, default 0 (pc_counts p !! peer) = pending_of peer p) ∧
  (∀ peer count, pc_counts p !! peer = Some count → 0 < count).

Lemma admit_ok socket peer p :
  pending_ok p → pc_peers p !! socket = None → pending_ok (fst (admit_socket socket peer p)).
Proof.
  intros (Hm & Hp & Hc & Hpos) Hs. unfold admit_socket. destruct (_ || _); [done|]. cbn [fst].
  split_and!; [done|done| |]; cbn.
  - intros q. unfold pending_of. cbn. destruct (decide (peer = q)) as [->|Hne].
    + rewrite lookup_insert_eq, map_filter_insert_True by done.
      rewrite map_size_insert_None by (apply map_lookup_filter_None; by left). cbn. specialize (Hc q). unfold pending_of in Hc. lia.
    + rewrite lookup_insert_ne, map_filter_insert_False by done. rewrite delete_id by done. apply Hc.
  - intros q count. destruct (decide (peer = q)) as [->|Hne].
    + rewrite lookup_insert_eq. intros [= <-]. specialize (Hc q). unfold pending_of in Hc. lia.
    + rewrite lookup_insert_ne by done. apply Hpos.
Qed.

Lemma settle_ok socket p : pending_ok p → pending_ok (settle_socket socket p).
Proof.
  intros (Hm & Hp & Hc & Hpos). unfold settle_socket. destruct (pc_peers p !! socket) as [peer|] eqn:Es; [|done].
  assert (∀ q, pending_of q {| pc_peers := delete socket (pc_peers p); pc_counts := pc_counts p; pc_max := pc_max p; pc_perPeer := pc_perPeer p |}
    = pending_of q p - if decide (q = peer) then 1 else 0) as Hd.
  { intros q. unfold pending_of. cbn. rewrite map_filter_delete. destruct (decide (q = peer)) as [->|Hne].
    - assert (filter (fun entry : nat * units => snd entry = peer) (pc_peers p) !! socket = Some peer) as Hf
        by (by apply map_lookup_filter_Some).
      rewrite map_size_delete_Some by eauto. assert (size (filter (fun entry : nat * units => snd entry = peer) (pc_peers p)) ≠ 0%nat).
      { apply map_size_non_empty_iff. intros E. by rewrite E in Hf. }
      lia.
    - rewrite delete_id; [lia|]. apply map_lookup_filter_None. right. intros x Hx. cbn. congruence. }
  assert (default 1 (pc_counts p !! peer) = pending_of peer p) as Hpeer.
  { pose proof (Hc peer) as H. specialize (Hd peer). rewrite decide_True in Hd by done.
    destruct (pc_counts p !! peer); [done|]. cbn in *. unfold pending_of in *. cbn in *. lia. }
  cbv zeta. rewrite Hpeer. split_and!; [done|done| |]; cbn.
  - intros q. change (pending_of q _) with (pending_of q {| pc_peers := delete socket (pc_peers p); pc_counts := pc_counts p; pc_max := pc_max p; pc_perPeer := pc_perPeer p |}).
    rewrite Hd. destruct (decide (q = peer)) as [->|Hne].
    + destruct (0 <? _) eqn:E; [by rewrite lookup_insert_eq|]. rewrite lookup_delete_eq. cbn. specialize (Hd peer).
      rewrite decide_True in Hd by done. unfold pending_of in *. lia.
    + rewrite Z.sub_0_r, <- Hc. destruct (0 <? _); [by rewrite lookup_insert_ne|by rewrite lookup_delete_ne].
  - intros q count. destruct (0 <? _) eqn:E; [|intros [_ H]%lookup_delete_Some; by eapply Hpos].
    destruct (decide (peer = q)) as [->|Hne]; [rewrite lookup_insert_eq; intros [= <-]; lia|].
    rewrite lookup_insert_ne by done. apply Hpos.
Qed.

Lemma pending_connected history socket peer :
  pc_peers (pending_after history) !! socket = Some peer → Connects socket peer ∈ history.
Proof.
  induction history as [|[s q|s] history IH]; cbn [pending_after]; [done| |].
  - unfold admit_socket. destruct (_ || _); cbn [fst pc_peers]; [right; auto|].
    intros [[-> ->]|[_ H]]%lookup_insert_Some; [left|right; auto].
  - unfold settle_socket. destruct (pc_peers (pending_after history) !! s); cbn [pc_peers]; [|right; auto].
    intros [_ H]%lookup_delete_Some. right. auto.
Qed.

Lemma pending_after_ok history : connects_once history → pending_ok (pending_after history).
Proof.
  induction history as [|[s q|s] history IH]; cbn [pending_after connects_once].
  - intros _. split_and!; [done|done| |done]. intros peer. unfold pending_of. cbn. by rewrite map_filter_empty, map_size_empty.
  - intros [Hs Ho]. apply admit_ok; [by apply IH|]. apply eq_None_not_Some. intros [peer H%pending_connected].
    rewrite Forall_forall in Hs. by specialize (Hs _ H).
  - intros [_ Ho]. by apply settle_ok, IH.
Qed.

Lemma pending_total history :
  connects_once history → Z.of_nat (size (pc_peers (pending_after history))) <= Z.max 0 max ∧
  ∀ peer, pending_of peer (pending_after history) <= Z.max 0 perPeer.
Proof.
  induction history as [|[s q|s] history IH]; cbn [pending_after connects_once].
  - intros _. split; [cbn; rewrite map_size_empty; lia|]. intros peer. unfold pending_of. cbn. rewrite map_filter_empty, map_size_empty. lia.
  - intros Hh. pose proof (pending_after_ok (Connects s q :: history) Hh) as (_ & _ & Hc' & _). destruct Hh as [Hs Ho].
    destruct (IH Ho) as [IHt IHp]. pose proof (pending_after_ok history Ho) as (Hm & Hp & Hc & _).
    cbn [pending_after] in Hc'. revert Hc'. unfold admit_socket. rewrite Hm, Hp.
    destruct (_ || _) eqn:E; cbn [fst]; [done|]. intros Hc'. apply orb_false_iff in E as [E1 E2]. split.
    + cbn. pose proof (map_size_insert s q (pc_peers (pending_after history))) as Hi.
      destruct (pc_peers (pending_after history) !! s); cbn in Hi; lia.
    + intros peer. rewrite <- Hc'. cbn. destruct (decide (q = peer)) as [->|Hne].
      * rewrite lookup_insert_eq. cbn. lia.
      * rewrite lookup_insert_ne, Hc by done. apply IHp.
  - intros [_ Ho]. destruct (IH Ho) as [IHt IHp]. unfold settle_socket.
    destruct (pc_peers (pending_after history) !! s) as [peer|]; [|done]. unfold pending_of. cbn. split.
    + etrans; [|exact IHt]. apply inj_le, map_subseteq_size, delete_subseteq.
    + intros q. etrans; [|apply (IHp q)]. unfold pending_of. apply inj_le, map_subseteq_size, map_filter_subseteq_mono, delete_subseteq.
Qed.

(** The sockets of a listener that have not authenticated are counted exactly, in all and by the address they come from: a new
    one is let in just when both counts are below their bounds, so neither is ever passed, and a socket that
    authenticates or closes, once or more often, no longer counts. *)
Theorem pending_exact history socket peer :
  connects_once history →
  let p := pending_after history in
  (Z.of_nat (size (pc_peers p)) <= Z.max 0 max ∧ ∀ q, pending_of q p <= Z.max 0 perPeer) ∧
  snd (admit_socket socket peer p) = (Z.of_nat (size (pc_peers p)) <? max) && (pending_of peer p <? perPeer) ∧
  pc_peers (settle_socket socket p) = delete socket (pc_peers p) ∧
  settle_socket socket (settle_socket socket p) = settle_socket socket p.
Proof.
  intros Ho p. pose proof (pending_after_ok history Ho) as (Hm & Hp & Hc & _). fold p in Hm, Hp, Hc.
  split_and!; [apply pending_total, Ho|apply pending_total, Ho| | |].
  - unfold admit_socket. rewrite Hm, Hp, Hc. destruct (max <=? _) eqn:E1, (perPeer <=? _) eqn:E2; cbn; symmetry;
      [apply andb_false_iff; lia..|apply andb_true_iff; lia].
  - unfold settle_socket. destruct (pc_peers p !! socket) eqn:E; [done|]. by rewrite delete_id.
  - unfold settle_socket at 2 3. destruct (pc_peers p !! socket) eqn:E; unfold settle_socket; cbn [pc_peers];
      [by rewrite lookup_delete_eq|by rewrite E].
Qed.
End Pending.

(** ** [Limiter] *)

(** A task is run, or one that has begun settles; the latest first. *)
Inductive TaskEvent := Runs (task : nat) | Finishes.

Section Tasks.
Context (max : Z).

Fixpoint limited_after (history : list TaskEvent) : Limiter :=
  match history with
  | [] => new_Limiter max
  | Runs task :: history => run_task task (limited_after history)
  | Finishes :: history => finish_task (limited_after history)
  end.

(** The tasks in the order in which they were run, and how many have settled. *)
Fixpoint tasks_of (history : list TaskEvent) : list nat :=
  match history with
  | [] => []
  | Runs task :: history => tasks_of history ++ [task]
  | Finishes :: history => tasks_of history
  end.
Fixpoint finished (history : list TaskEvent) : Z :=
  match history with
  | [] => 0
  | Runs _ :: history => finished history
  | Finishes :: history => finished history + 1
  end.

(** Only a task that has begun settles, once. *)
Fixpoint settles_begun (history : list TaskEvent) : Prop :=
  match history with
  | [] => True
  | Runs _ :: history => settles_begun history
  | Finishes :: history =>
      finished history < Z.of_nat (length (lm_started (limited_after history))) ∧ settles_begun history
  end.

(** A limiter has at most [max] tasks under way, as many as have begun and not settled, makes a task wait only while
    it has that many, and begins the tasks in the order in which they were run, each once: those that began
    followed by those that wait are the tasks. *)
Theorem tasks_in_turn history :
  0 < max → settles_begun history →
  let l := limited_after history in
  lm_active l = Z.of_nat (length (lm_started l)) - finished history ∧
  0 <= lm_active l <= max ∧
  (lm_waiting l ≠ [] → lm_active l = max) ∧
  reverse (lm_started l) ++ lm_waiting l = tasks_of history.
Proof.
  intros Hmax Hs. assert (lm_max (limited_after history) = max) as Hm.
  { clear. induction history as [|[task|] history IH]; cbn [limited_after]; [done| |];
      unfold run_task, finish_task; repeat case_match; done. }
  revert Hm. induction history as [|[task|] history IH]; cbn [limited_after settles_begun finished tasks_of] in *.
  - intros _. split_and!; cbn; try lia; done.
  - intros Hm. destruct (IH Hs) as (IH1 & IH2 & IH3 & IH4).
    { revert Hm. unfold run_task. by case_match. }
    assert (lm_max (limited_after history) = max) as Hm' by (revert Hm; unfold run_task; by case_match).
    unfold run_task. rewrite Hm'. destruct (Z.leb_spec max (lm_active (limited_after history)));
      cbn [lm_active lm_started lm_waiting length].
    + split_and!; try lia. by rewrite <- IH4, app_assoc.
    + assert (lm_waiting (limited_after history) = []) as Hw.
      { destruct (lm_waiting _); [done|]. specialize (IH3 ltac:(done)). lia. }
      rewrite Hw in *. rewrite app_nil_r in *. split_and!; try lia; [done|]. by rewrite reverse_cons, IH4.
  - destruct Hs as [Hf Hs]. intros Hm.
    assert (lm_max (limited_after history) = max) as Hm' by (revert Hm; unfold finish_task; by case_match).
    destruct (IH Hs Hm') as (IH1 & IH2 & IH3 & IH4). unfold finish_task.
    destruct (lm_waiting (limited_after history)) as [|next waiting];
      cbn [lm_active lm_started lm_waiting length].
    + split_and!; try lia; [done|]. exact IH4.
    + specialize (IH3 ltac:(done)). split_and!; try lia. by rewrite reverse_cons, <- app_assoc.
Qed.
End Tasks.

(** ** Samples *)

Module SampleLimits.
Definition peer : units := js "10.0.0.1".
Definition failures : list LimitEvent := [Failed peer 50; Asked peer 30; Failed (js "other") 20; Failed peer 10].

Lemma limiter_exact_witness :
  let count := length (in_window_at 60 60 (failures_of peer failures)) in
  let answer := snd (blocked peer 60 (limiter_after 2 60 failures)) in
  (answer = true → (2 <= count)%nat) ∧ (crowded peer failures = false → answer = (2 <=? count)%nat) ∧
  (length (fl_failures (limiter_after 2 60 failures)) <= MAX_LIMITED_PEERS)%nat.
Proof. apply (limiter_exact 2 60 failures peer 60); cbn; repeat constructor; cbn; lia. Defined.

Definition sockets : list PendingEvent := [Settles 1; Connects 2 peer; Connects 1 peer].

Lemma pending_exact_witness :
  snd (admit_socket 3 peer (pending_after 64 1 sockets)) = true ∧
  settle_socket 1 (settle_socket 1 (pending_after 64 1 sockets)) = settle_socket 1 (pending_after 64 1 sockets).
Proof.
  assert (connects_once sockets) as Ho by (cbn; repeat constructor; lia). split.
  - destruct (pending_exact 64 1 sockets 3 peer Ho) as (_ & -> & _). vm_compute. reflexivity.
  - apply (pending_exact 64 1 sockets 1 peer Ho).
Defined.

Definition tasks : list TaskEvent := [Finishes; Runs 3; Runs 2; Runs 1].

Lemma tasks_in_turn_witness :
  reverse (lm_started (limited_after 2 tasks)) ++ lm_waiting (limited_after 2 tasks) = [1; 2; 3]%nat ∧
  lm_active (limited_after 2 tasks) = 2.
Proof.
  assert (settles_begun 2 tasks) as Hs by (repeat split; vm_compute; done). split; [|reflexivity].
  apply (tasks_in_turn 2 tasks ltac:(lia) Hs).
Defined.
End SampleLimits.
