(* ===== verification/OffloadJobs.v ===== *)
(** * Offload jobs: [packages/server/src/offload-jobs.ts]

    A server runs the builds of other machines as jobs: processes of the client's own Stim build, to which the client's
    connection is spliced. [OffloadJobs] as a state and one operation for each method, event of a process, timer
    and continuation of [start] after an [await]. An operation returns the new state and its effects in
    order. A job object, a socket, a timer and a promise are numbers; the record of a turn, [Turn], holds
    what the operation finds outside: the clock, the files, the settings and the sockets. Removing a directory does
    not fail; [tn_disk] is whether one can be made. *)

From Stdlib Require Import ZArith Lia.
From S2P Require Import Prelude.
From S2P Require Import Bytes.
From S2P Require Import Json.
From S2P Require Import KeyedDelta.
From S2P Require Import Noise.
From S2P Require Import NoiseSession.
Open Scope Z_scope.

(** ** Constants and patterns *)

Definition MAX_PACKAGE_BYTES : Z := 256 * 1024 ^ 2.
Definition MAX_BUFFERED : Z := 16 * 1024 * 1024.
Definition STOP_GRACE_MS : Z := 10000.
Definition CLOSE_ABNORMAL : Z := 1006.
Definition CLOSE_JOB_BAD_REQUEST : Z := 4400.
Definition JOB_BAD_REQUEST : Z := 64.
Definition FAILED_FETCH_MS : Z := 10 * 60000.
Definition NOT_ACCEPTED : units :=
  js "This machine takes only published Stim builds. To take this build, run stim settings set server.acceptClientBuilds true on it.".

Definition OFFLOAD_JOB_KINDS : list units := [js "offload-build"; js "offload-probe"].

(** [d+.d+.d+] and what follows it. *)
Definition dotted (s : units) : option (units * units * units * units) :=
  let '(a, s) := span is_digit s in
  match a, s with
  | _ :: _, 46 :: s =>
      let '(b, s) := span is_digit s in
      match b, s with
      | _ :: _, 46 :: s => let '(c, s) := span is_digit s in match c with _ :: _ => Some (a, b, c, s) | [] => None end
      | _, _ => None
      end
  | _, _ => None
  end.

(** [VERSION]. *)
Definition is_version (s : units) : bool :=
  match dotted s with
  | Some (_, _, _, []) => true
  | Some (_, _, _, 45 :: ((_ :: _) as rest)) => forallb (fun u => is_alnum u || (u =? 46) || (u =? 45)) rest
  | _ => false
  end.

Definition is_build_id (s : units) : bool := hex_text 12 s.

Definition is_name_char (u : Z) : bool := is_alnum u || (u =? 46) || (u =? 95) || (u =? 45).

(** [BUILD_REPO_PATTERN]. *)
Definition is_repo (s : units) : bool :=
  match s with u :: s => is_alnum u && (length s <=? 79)%nat && forallb is_name_char s | [] => false end.

Definition is_package_name (s : units) : bool :=
  let stem := take (length s - 4) s in
  ends_with (js ".tgz") s && (1 <=? length stem)%nat && (length stem <=? 200)%nat && forallb is_name_char stem.

(** The value of decimal digits. *)
Definition digits_value (s : units) : Z := fold_left (fun n u => 10 * n + (u - 48)) s 0.

(** ** Data *)

(** Why an install failed; [None] when it did not. *)
Record JobFailure := { fa_failure : units; fa_mismatch : bool }.
Definition InstallFailure : Type := option JobFailure.

Inductive JobAnswer :=
| JobStarted (job : units)
| UploadReady (upload : units)
| Refused (code message : units)
| Rejected.

Record JobClient := { jc_id : units; jc_name : units }.

(** The object that a running job is; its [child] is whether its input ended or was destroyed, what its output
    left half read, and the sockets that wait for its input to drain. *)
Record Job := {
  jo_id : units;
  jo_kind : units;
  jo_client : units;
  jo_repo : units;
  jo_socket : option nat;
  jo_grace : option nat;
  jo_ended : bool;
  jo_destroyed : bool;
  jo_reader : bytes;
  jo_drains : list nat;
}.

(** [up_bytes] is what [hash] was updated with. *)
Record Upload := {
  up_id : units;
  up_dir : units;
  up_name : units;
  up_size : Z;
  up_sha256 : units;
  up_received : Z;
  up_bytes : bytes;
}.

(** What an install process is for. *)
Inductive InstallFor := ForFetch | ForUpload (dir : units).

(** The arguments of a [start] that is past its checks. *)
Record Request := {
  rq_client : JobClient;
  rq_socket : nat;
  rq_kind : units;
  rq_stim : units;
  rq_build : units;
  rq_repo : units;
}.

(** A [start] that awaits an install. *)
Record Starting := { sg_request : Request; sg_promise : nat; sg_fetch : bool }.

Record Jobs := {
  oj_heap : list Job;
  oj_jobs : list (units * nat);
  oj_spliced : gmap nat nat;
  oj_uploads : gmap nat Upload;
  oj_fetches : list (units * nat);
  oj_failed : list (units * (JobFailure * Z));
  oj_closed : bool;
  oj_timers : list (nat * nat);
  oj_polls : list (nat * (nat * nat));
  oj_installs : list (nat * (units * InstallFor));
  oj_settled : list (nat * InstallFailure);
  oj_starting : list Starting;
  oj_next : nat;
}.

Definition new_Jobs : Jobs :=
  {| oj_heap := []; oj_jobs := []; oj_spliced := ∅; oj_uploads := ∅; oj_fetches := []; oj_failed := [];
     oj_closed := false; oj_timers := []; oj_polls := []; oj_installs := []; oj_settled := []; oj_starting := [];
     oj_next := 0 |}.

Inductive JobEffect :=
| WriteStdin (job : nat) (frame : bytes)
| EndStdin (job : nat)
| PauseSocket (socket : nat)
| ResumeSocket (socket : nat)
| CloseSocket (socket : nat) (code : Z)
| SendFrame (socket : nat) (job : nat) (data : bytes) (binary : bool)
| PauseStdout (job : nat)
| ResumeStdout (job : nat)
| SignalJob (job : nat) (signal : units)
| KillLater (job : nat) (ms : Z)
| SetTimer (timer : nat) (ms : Z)
| ClearTimer (timer : nat)
| MakeDir (dir : units)
| RemoveDir (dir : units)
| AppendFile (path : units) (frame : bytes)
| RecordUse (build : units) (version : option units)
| SpawnInstall (promise : nat) (build : units) (source : units * units)
| SpawnJob (job : nat) (cli kind : units)
| BecameIdle (client : units)
| Answered (socket : nat) (answer : JobAnswer).

(** The CLI script of a build, or why it cannot run. *)
Inductive Entry := Runs (cli : units) | CannotRun (why : units).

Record Turn := {
  tn_now : Z;
  tn_admit : units → option units;
  tn_manifest : units → option json;
  tn_accepts : bool;
  tn_open : nat → bool;
  tn_uuid : units;
  tn_root : units;
  tn_disk : bool;
}.

(** ** Parts of the state *)

Section Setters.
Variable s : Jobs.

Definition set_running (heap : list Job) (jobs : list (units * nat)) (spliced : gmap nat nat) : Jobs :=
  {| oj_heap := heap; oj_jobs := jobs; oj_spliced := spliced; oj_uploads := oj_uploads s; oj_fetches := oj_fetches s;
     oj_failed := oj_failed s; oj_closed := oj_closed s; oj_timers := oj_timers s; oj_polls := oj_polls s;
     oj_installs := oj_installs s; oj_settled := oj_settled s; oj_starting := oj_starting s; oj_next := oj_next s |}.

Definition set_uploads (uploads : gmap nat Upload) : Jobs :=
  {| oj_heap := oj_heap s; oj_jobs := oj_jobs s; oj_spliced := oj_spliced s; oj_uploads := uploads;
     oj_fetches := oj_fetches s; oj_failed := oj_failed s; oj_closed := oj_closed s; oj_timers := oj_timers s;
     oj_polls := oj_polls s; oj_installs := oj_installs s; oj_settled := oj_settled s;
     oj_starting := oj_starting s; oj_next := oj_next s |}.

Definition set_fetches (fetches : list (units * nat)) (failed : list (units * (JobFailure * Z))) : Jobs :=
  {| oj_heap := oj_heap s; oj_jobs := oj_jobs s; oj_spliced := oj_spliced s; oj_uploads := oj_uploads s;
     oj_fetches := fetches; oj_failed := failed; oj_closed := oj_closed s; oj_timers := oj_timers s;
     oj_polls := oj_polls s; oj_installs := oj_installs s; oj_settled := oj_settled s;
     oj_starting := oj_starting s; oj_next := oj_next s |}.

Definition set_waits (timers : list (nat * nat)) (polls : list (nat * (nat * nat))) : Jobs :=
  {| oj_heap := oj_heap s; oj_jobs := oj_jobs s; oj_spliced := oj_spliced s; oj_uploads := oj_uploads s;
     oj_fetches := oj_fetches s; oj_failed := oj_failed s; oj_closed := oj_closed s; oj_timers := timers;
     oj_polls := polls; oj_installs := oj_installs s; oj_settled := oj_settled s;
     oj_starting := oj_starting s; oj_next := oj_next s |}.

Definition set_installs (installs : list (nat * (units * InstallFor))) (settled : list (nat * InstallFailure))
    (starting : list Starting) : Jobs :=
  {| oj_heap := oj_heap s; oj_jobs := oj_jobs s; oj_spliced := oj_spliced s; oj_uploads := oj_uploads s;
     oj_fetches := oj_fetches s; oj_failed := oj_failed s; oj_closed := oj_closed s; oj_timers := oj_timers s;
     oj_polls := oj_polls s; oj_installs := installs; oj_settled := settled; oj_starting := starting;
     oj_next := oj_next s |}.

Definition set_closed (closed : bool) (next : nat) : Jobs :=
  {| oj_heap := oj_heap s; oj_jobs := oj_jobs s; oj_spliced := oj_spliced s; oj_uploads := oj_uploads s;
     oj_fetches := oj_fetches s; oj_failed := oj_failed s; oj_closed := closed; oj_timers := oj_timers s;
     oj_polls := oj_polls s; oj_installs := oj_installs s; oj_settled := oj_settled s;
     oj_starting := oj_starting s; oj_next := next |}.
End Setters.

Section Job.
Variable j : Job.

Definition job_link (socket grace : option nat) : Job :=
  {| jo_id := jo_id j; jo_kind := jo_kind j; jo_client := jo_client j; jo_repo := jo_repo j; jo_socket := socket;
     jo_grace := grace; jo_ended := jo_ended j; jo_destroyed := jo_destroyed j; jo_reader := jo_reader j;
     jo_drains := jo_drains j |}.

Definition job_child (ended destroyed : bool) (reader : bytes) (drains : list nat) : Job :=
  {| jo_id := jo_id j; jo_kind := jo_kind j; jo_client := jo_client j; jo_repo := jo_repo j;
     jo_socket := jo_socket j; jo_grace := jo_grace j; jo_ended := ended; jo_destroyed := destroyed;
     jo_reader := reader; jo_drains := drains |}.

Definition job_end : Job := job_child true (jo_destroyed j) (jo_reader j) (jo_drains j).

(** [child.stdin.writable]. *)
Definition writable : bool := negb (jo_ended j) && negb (jo_destroyed j).
End Job.

Definition set_job (ref : nat) (f : Job → Job) (s : Jobs) : Jobs :=
  set_running s (alter f ref (oj_heap s)) (oj_jobs s) (oj_spliced s).

Definition fresh (s : Jobs) : nat * Jobs := (oj_next s, set_closed s (oj_closed s) (S (oj_next s))).

(** [clearTimeout] of a handle that may be [null]. *)
Definition clear_grace (grace : option nat) (s : Jobs) : Jobs * list JobEffect :=
  match grace with
  | Some timer =>
      (set_waits s (List.filter (fun t => negb (Nat.eqb (fst t) timer)) (oj_timers s)) (oj_polls s),
       [ClearTimer timer])
  | None => (s, [])
  end.

(** ** Sockets and processes *)

Definition live (s : Jobs) : list (units * units) :=
  omap (fun '(_, ref) => j ← oj_heap s !! ref; Some (jo_client j, jo_repo j)) (oj_jobs s).

Definition running (s : Jobs) : nat :=
  length (List.filter (fun '(_, ref) => match oj_heap s !! ref with
                                        | Some j => bool_decide (jo_kind j = js "offload-build")
                                        | None => false
                                        end) (oj_jobs s)).

Definition owns (socket : nat) (s : Jobs) : bool := bool_decide (is_Some (oj_spliced s !! socket)).

(** [full] is whether [write] returned false. A frame too large for its length throws. *)
Definition deliver (socket : nat) (data : bytes) (binary full : bool) (s : Jobs) : Jobs * list JobEffect :=
  match oj_spliced s !! socket ≫= fun ref => pair ref <$> oj_heap s !! ref with
  | Some (ref, j) =>
      if jo_destroyed j then (s, [])
      else
        match jobFrame data binary with
        | Throw _ => (s, [])
        | Ok frame =>
            if full then
              (set_job ref (fun j => job_child j (jo_ended j) (jo_destroyed j) (jo_reader j) (jo_drains j ++ [socket])) s,
               [WriteStdin ref frame; PauseSocket socket])
            else (s, [WriteStdin ref frame])
        end
  | None => (s, [])
  end.

(** The [drain] event of a job's input. *)
Definition on_drain (ref : nat) (s : Jobs) : Jobs * list JobEffect :=
  match oj_heap s !! ref with
  | Some j =>
      (set_job ref (fun j => job_child j (jo_ended j) (jo_destroyed j) (jo_reader j) []) s,
       map ResumeSocket (jo_drains j))
  | None => (s, [])
  end.

(** A job's input is destroyed: its process no longer reads. *)
Definition stdin_breaks (ref : nat) (s : Jobs) : Jobs :=
  set_job ref (fun j => job_child j (jo_ended j) true (jo_reader j) (jo_drains j)) s.

Inductive Received := NoUpload | TooLarge (message : units) | Taken | AppendThrows.

Definition file_of (u : Upload) : units := up_dir u ++ js "/" ++ up_name u.

(** [ok] is whether the file takes the frame. *)
Definition receive (socket : nat) (frame : bytes) (ok : bool) (s : Jobs) : Jobs * list JobEffect * Received :=
  match oj_uploads s !! socket with
  | None => (s, [], NoUpload)
  | Some u =>
      if up_size u <? up_received u + Z.of_nat (length frame) then
        (s, [], TooLarge (up_name u ++ js " is larger than it said"))
      else if negb ok then (s, [], AppendThrows)
      else
        (set_uploads s (<[socket := {| up_id := up_id u; up_dir := up_dir u; up_name := up_name u; up_size := up_size u;
                                       up_sha256 := up_sha256 u;
                                       up_received := up_received u + Z.of_nat (length frame);
                                       up_bytes := up_bytes u ++ frame |}]> (oj_uploads s)),
         [AppendFile (file_of u) frame], Taken)
  end.

(** [limits.detachGraceMs], [machine], the id of this server's build and its script, the process id and the version of
    Node as text, and that version; SHA-256 in hex. *)
Record OffloadJobsOptions := {
  op_detachGraceMs : Z;
  op_machine : units;
  op_own : units;
  op_stimCli : units;
  op_pid : units;
  op_versions : units;
  op_node : Z * Z * Z;
  op_sha256 : bytes → units;
}.

Section Operations.
Context `{!NodeText} (o : OffloadJobsOptions).
Abbreviation detachGraceMs := (op_detachGraceMs o).
Abbreviation machine := (op_machine o).
Abbreviation own := (op_own o).
Abbreviation stimCli := (op_stimCli o).
Abbreviation pid_text := (op_pid o).
Abbreviation node_text := (op_versions o).
Abbreviation digest_of := (op_sha256 o).

Definition end_stdin (ref : nat) (s : Jobs) : Jobs * list JobEffect := (set_job ref job_end s, [EndStdin ref]).

Definition disconnected (socket : nat) (code : Z) (s : Jobs) : Jobs * list JobEffect :=
  let e1 := match oj_uploads s !! socket with Some u => [RemoveDir (up_dir u)] | None => [] end in
  let s := set_uploads s (delete socket (oj_uploads s)) in
  match oj_spliced s !! socket with
  | None => (s, e1)
  | Some ref =>
      let s := set_running s (oj_heap s) (oj_jobs s) (delete socket (oj_spliced s)) in
      let s := set_job ref (fun j => job_link j None (jo_grace j)) s in
      if negb (code =? CLOSE_ABNORMAL) || oj_closed s then
        let '(s, e2) := end_stdin ref s in (s, e1 ++ e2)
      else
        let '(timer, s) := fresh s in
        let s := set_waits s (oj_timers s ++ [(timer, ref)]) (oj_polls s) in
        (set_job ref (fun j => job_link j (jo_socket j) (Some timer)) s, e1 ++ [SetTimer timer detachGraceMs])
  end.

(** The timer that [disconnected] sets. *)
Definition grace_fires (timer : nat) (s : Jobs) : Jobs * list JobEffect :=
  match List.find (fun t => Nat.eqb (fst t) timer) (oj_timers s) with
  | Some (_, ref) =>
      end_stdin ref (set_waits s (List.filter (fun t => negb (Nat.eqb (fst t) timer)) (oj_timers s)) (oj_polls s))
  | None => (s, [])
  end.

(** ** Builds *)

(** [v === text] and [v === true]. *)
Definition says (v : option json) (text : units) : bool :=
  match v with Some (JString s) => bool_decide (s = text) | _ => false end.
Definition is_yes (v : option json) : bool := match v with Some (JBool b) => b | _ => false end.

Definition text_of_value (v : option json) : result type_error units :=
  match v with Some v => js_String v | None => mret (js "undefined") end.

Definition version_value (a b c : Z) : Z := a * 1000000 + b * 1000 + c.

Definition meetsNode (engines : option json) : result type_error bool :=
  text ← text_of_value engines;
  let floor :=
    match trim text with
    | 62 :: 61 :: rest =>
        match dotted rest with
        | Some (a, b, c, []) => version_value (digits_value a) (digits_value b) (digits_value c)
        | _ => 0
        end
    | _ => 0
    end in
  let '(major, minor, patch) := op_node o in
  mret (floor <=? version_value major minor patch).

Definition tree_of (t : Turn) (build : units) : units := tn_root t ++ js "/" ++ build.

Definition entry (t : Turn) (build : units) : result type_error (option Entry) :=
  if bool_decide (own = build) then mret (Some (Runs stimCli))
  else
    match tn_manifest t build with
    | Some (JObject manifest) =>
        if says (field_of "build" manifest) build then
          meets ← meetsNode (field_of "engines" manifest);
          if meets : bool then mret (Some (Runs (tree_of t build ++ js "/dist/cli.mjs")))
          else
            version ← text_of_value (field_of "version" manifest);
            engines ← text_of_value (field_of "engines" manifest);
            mret (Some (CannotRun (machine ++ js " runs Node " ++ node_text ++ js "; stim " ++ version
                                   ++ js " needs Node " ++ engines ++ js ". Update Node on " ++ machine ++ js ".")))
        else mret None
    | _ => mret None
    end.

Definition refusal (t : Turn) (client : JobClient) (s : Jobs) : option units :=
  if oj_closed s then Some (js "This machine is stopping.") else tn_admit t (jc_id client).

Definition cannotInstall (stim failure : units) : units :=
  js "worker " ++ machine ++ js " cannot install stim " ++ stim ++ js " (" ++ failure
  ++ js "); building locally. On " ++ machine ++ js " run: stim engine install " ++ stim.

(** ** Installs *)

Definition install (build : units) (source : units * units) (use : InstallFor) (s : Jobs) :
    nat * Jobs * list JobEffect :=
  let '(promise, s) := fresh s in
  (promise, set_installs s (oj_installs s ++ [(promise, (build, use))]) (oj_settled s) (oj_starting s),
   [RecordUse build (if bool_decide (fst source = js "release") then Some (snd source) else None);
    SpawnInstall promise build source]).

Definition fetch (stim build : units) (s : Jobs) : nat * Jobs * list JobEffect :=
  match map_get build (oj_fetches s) with
  | Some promise => (promise, s, [])
  | None =>
      let '(promise, s, e) := install build (js "release", stim) ForFetch s in
      (promise, set_fetches s (map_set build promise (oj_fetches s)) (oj_failed s), e)
  end.

(** What the install printed; [None] where it is not JSON. Reading a member of [null] throws. *)
Definition reply_outcome (build : units) (reply : option json) : result type_error InstallFailure :=
  match reply with
  | Some JNull => Throw Json.TypeError
  | _ =>
      let member (key : string) := reply ≫= field key in
      if says (member "build") build then mret None
      else
        failure ← match member "error" with
                  | None | Some JNull => mret (js "the install failed")
                  | Some e => js_String e
                  end;
        mret (Some {| fa_failure := failure; fa_mismatch := is_yes (member "mismatch") |})
  end.

(** A promise of [install] settles; the reactions of [fetch] and [finally] run. *)
Definition settle_install (t : Turn) (promise : nat) (outcome : InstallFailure) (s : Jobs) : Jobs * list JobEffect :=
  match List.find (fun i => Nat.eqb (fst i) promise) (oj_installs s) with
  | None => (s, [])
  | Some (_, (build, use)) =>
      let s := set_installs s (List.filter (fun i => negb (Nat.eqb (fst i) promise)) (oj_installs s))
                 (oj_settled s ++ [(promise, outcome)]) (oj_starting s) in
      match use with
      | ForFetch =>
          (set_fetches s (map_delete build (oj_fetches s))
             (match outcome with
              | Some failure => map_set build (failure, tn_now t) (oj_failed s)
              | None => map_delete build (oj_failed s)
              end), [])
      | ForUpload dir => (s, [RemoveDir dir])
      end
  end.

(** The events [error] and [close] of an install process; the first settles its promise. *)
Definition install_errors (t : Turn) (promise : nat) (message : units) (s : Jobs) : Jobs * list JobEffect :=
  settle_install t promise (Some {| fa_failure := message; fa_mismatch := false |}) s.

Definition install_closes (t : Turn) (promise : nat) (reply : option json) (s : Jobs) : Jobs * list JobEffect :=
  match List.find (fun i => Nat.eqb (fst i) promise) (oj_installs s) with
  | Some (_, (build, _)) =>
      match reply_outcome build reply with Ok outcome => settle_install t promise outcome s | Throw _ => (s, []) end
  | None => (s, [])
  end.

(** ** Starting a job *)

Definition refused (socket : nat) (code message : units) (s : Jobs) : Jobs * list JobEffect :=
  (s, [Answered socket (Refused code message)]).

Definition attachSocket (ref socket : nat) (s : Jobs) : Jobs * list JobEffect :=
  let '(s, e) := clear_grace (oj_heap s !! ref ≫= jo_grace) s in
  let s := set_job ref (fun j => job_link j (Some socket) None) s in
  (set_running s (oj_heap s) (oj_jobs s) (<[socket := ref]> (oj_spliced s)), e).

Definition spawn (t : Turn) (r : Request) (cli : units) (s : Jobs) : nat * Jobs * list JobEffect :=
  let ref := length (oj_heap s) in
  let job := {| jo_id := tn_uuid t; jo_kind := rq_kind r; jo_client := jc_id (rq_client r); jo_repo := rq_repo r;
                jo_socket := None; jo_grace := None; jo_ended := false; jo_destroyed := false; jo_reader := [];
                jo_drains := [] |} in
  (ref, set_running s (oj_heap s ++ [job]) (map_set (tn_uuid t) ref (oj_jobs s)) (oj_spliced s),
   [SpawnJob ref cli (rq_kind r)]).

(** [start] from where it has an entry. *)
Definition launch (t : Turn) (r : Request) (found : Entry) (s : Jobs) : Jobs * list JobEffect :=
  match found with
  | CannotRun why => refused (rq_socket r) (js "job-refused") why s
  | Runs cli =>
      match refusal t (rq_client r) s with
      | Some late => refused (rq_socket r) (js "build-busy") late s
      | None =>
          if negb (tn_open t (rq_socket r)) then
            refused (rq_socket r) (js "build-refused") (js "The connection closed.") s
          else
            let '(ref, s, e1) := spawn t r cli s in
            let '(s, e2) := attachSocket ref (rq_socket r) s in
            (s, e1 ++ e2 ++ [Answered (rq_socket r) (JobStarted (tn_uuid t))])
      end
  end.

(** [start] once an install succeeded. *)
Definition installed (t : Turn) (r : Request) (s : Jobs) : Jobs * list JobEffect :=
  match entry t (rq_build r) with
  | Throw _ => (s, [Answered (rq_socket r) Rejected])
  | Ok None =>
      refused (rq_socket r) (js "job-refused") (cannotInstall (rq_stim r) (js "the installed build is gone")) s
  | Ok (Some found) => launch t r found s
  end.

Definition after_upload (t : Turn) (r : Request) (failed : InstallFailure) (s : Jobs) : Jobs * list JobEffect :=
  match failed with
  | Some failed => refused (rq_socket r) (js "job-refused") (cannotInstall (rq_stim r) (fa_failure failed)) s
  | None => installed t r s
  end.

Definition after_fetch (t : Turn) (r : Request) (failed : InstallFailure) (s : Jobs) : Jobs * list JobEffect :=
  match failed with
  | Some failed =>
      if fa_mismatch failed then
        if tn_accepts t then
          refused (rq_socket r) (js "job-needs-package")
            (machine ++ js " cannot fetch this build of stim " ++ rq_stim r ++ js " from npm.") s
        else refused (rq_socket r) (js "forbidden") NOT_ACCEPTED s
      else refused (rq_socket r) (js "job-refused") (cannotInstall (rq_stim r) (fa_failure failed)) s
  | None => installed t r s
  end.

Definition await (r : Request) (promise : nat) (is_fetch : bool) (s : Jobs) : Jobs :=
  set_installs s (oj_installs s) (oj_settled s)
    (oj_starting s ++ [{| sg_request := r; sg_promise := promise; sg_fetch := is_fetch |}]).

(** A [start] goes on once the promise it awaits has settled. *)
Definition resume (t : Turn) (i : nat) (s : Jobs) : Jobs * list JobEffect :=
  match oj_starting s !! i with
  | Some g =>
      match List.find (fun p => Nat.eqb (fst p) (sg_promise g)) (oj_settled s) with
      | Some (_, outcome) =>
          let s := set_installs s (oj_installs s) (oj_settled s) (delete i (oj_starting s)) in
          (if sg_fetch g then after_fetch else after_upload) t (sg_request g) outcome s
      | None => (s, [])
      end
  | None => (s, [])
  end.

(** The fields of a package that [prepareUpload] accepts. *)
Definition package_of (value : json) : option (units * Z * units) :=
  match field "name" value, field "size" value, field "sha256" value with
  | Some (JString name), Some (JNumber size), Some (JString digest) =>
      if is_package_name name && (0 <? size) && (size <=? MAX_PACKAGE_BYTES) && hex_text 64 digest
      then Some (name, size, digest) else None
  | _, _, _ => None
  end.

Definition prepareUpload (t : Turn) (socket : nat) (value : json) (s : Jobs) : Jobs * list JobEffect :=
  if negb (tn_accepts t) then refused socket (js "forbidden") NOT_ACCEPTED s
  else
    match package_of value with
    | None =>
        refused socket (js "bad-request")
          (js "A package is a .tgz name, a size up to 268435456 bytes and its sha256.") s
    | Some (name, size, digest) =>
        let e1 := match oj_uploads s !! socket with Some previous => [RemoveDir (up_dir previous)] | None => [] end in
        let dir := tn_root t ++ js "/.tmp-" ++ pid_text ++ js "-upload-" ++ tn_uuid t in
        if negb (tn_disk t) then (s, e1 ++ [Answered socket Rejected])
        else
        (set_uploads s (<[socket := {| up_id := tn_uuid t; up_dir := dir; up_name := name; up_size := size;
                                       up_sha256 := digest; up_received := 0; up_bytes := [] |}]> (oj_uploads s)),
         e1 ++ [MakeDir dir; Answered socket (UploadReady (tn_uuid t))])
    end.

Definition attach (client : JobClient) (socket : nat) (id : units) (s : Jobs) : Jobs * list JobEffect :=
  let none := refused socket (js "bad-request") (js "No such job for this device; it ended.") s in
  match map_get id (oj_jobs s) ≫= fun ref => pair ref <$> oj_heap s !! ref with
  | Some (ref, j) =>
      if bool_decide (jo_client j = jc_id client) && writable j then
        let s := match jo_socket j with
                 | Some old => set_running s (oj_heap s) (oj_jobs s) (delete old (oj_spliced s))
                 | None => s
                 end in
        let '(s, e) := attachSocket ref socket s in (s, e ++ [Answered socket (JobStarted (jo_id j))])
      else none
  | None => none
  end.

(** What [job.start] asks for, where its parameters are well-formed. *)
Definition request_of (client : JobClient) (socket : nat) (params : json) : option Request :=
  match field "kind" params, field "stim" params, field "build" params, field "repo" params with
  | Some (JString kind), Some (JString stim), Some (JString build), Some (JString repo) =>
      if bool_decide (kind ∈ OFFLOAD_JOB_KINDS) && is_version stim && is_build_id build && is_repo repo then
        Some {| rq_client := client; rq_socket := socket; rq_kind := kind; rq_stim := stim; rq_build := build;
                rq_repo := repo |}
      else None
  | _, _, _, _ => None
  end.

(** [start] with an upload that is said to be complete. *)
Definition take_upload (r : Request) (id : units) (s : Jobs) : Jobs * list JobEffect :=
  let none := refused (rq_socket r) (js "bad-request") (js "No such upload on this connection.") s in
  match oj_uploads s !! rq_socket r with
  | Some u =>
      if negb (bool_decide (up_id u = id)) then none
      else
        let s := set_uploads s (delete (rq_socket r) (oj_uploads s)) in
        if negb (up_received u =? up_size u) || negb (bool_decide (digest_of (up_bytes u) = up_sha256 u)) then
          (s, [RemoveDir (up_dir u);
               Answered (rq_socket r) (Refused (js "bad-request") (up_name u ++ js " did not arrive whole."))])
        else
          let '(promise, s, e) := install (rq_build r) (js "from", up_dir u) (ForUpload (up_dir u)) s in
          (await r promise false s, e)
  | None => none
  end.

(** [start] of a build that npm may have. *)
Definition start_fetch (t : Turn) (r : Request) (wait : bool) (s : Jobs) : Jobs * list JobEffect :=
  let recent := map_get (rq_build r) (oj_failed s) ≫= fun '(failure, at_) =>
    if tn_now t - at_ <? FAILED_FETCH_MS then Some failure else None in
  match recent with
  | Some failure => after_fetch t r (Some failure) s
  | None =>
      let '(promise, s, e) := fetch (rq_stim r) (rq_build r) s in
      if wait then (await r promise true s, e)
      else
        (s, e ++ [Answered (rq_socket r) (Refused (js "job-unavailable")
               (machine ++ js " is installing stim " ++ rq_stim r
                ++ js " to run this Mac's builds; it takes them once that finishes."))])
  end.

(** [start] of a build that is not installed. *)
Definition start_missing (t : Turn) (r : Request) (params : json) (s : Jobs) : Jobs * list JobEffect :=
  match field "upload" params, field "package" params with
  | Some (JString id), _ => take_upload r id s
  | _, Some package => prepareUpload t (rq_socket r) package s
  | _, None =>
      if is_yes (field "pack" params) then
        if tn_accepts t then
          refused (rq_socket r) (js "job-needs-package")
            (machine ++ js " runs only builds it is sent for this Stim.") s
        else refused (rq_socket r) (js "forbidden") NOT_ACCEPTED s
      else start_fetch t r (is_yes (field "wait" params)) s
  end.

Definition start (t : Turn) (client : JobClient) (socket : nat) (params : json) (s : Jobs) : Jobs * list JobEffect :=
  if owns socket s then refused socket (js "bad-request") (js "This connection already runs a job.") s
  else
    match field "attach" params with
    | Some (JString id) => attach client socket id s
    | _ =>
        match request_of client socket params with
        | None =>
            refused socket (js "bad-request")
              (js "job.start needs kind, stim, a 12-hex build and repo, or attach.") s
        | Some r =>
            match refusal t client s with
            | Some why => refused socket (js "build-busy") why s
            | None =>
                match entry t (rq_build r) with
                | Throw _ => (s, [Answered socket Rejected])
                | Ok (Some (Runs cli)) =>
                    let '(s, e) := launch t r (Runs cli) s in (s, RecordUse (rq_build r) (Some (rq_stim r)) :: e)
                | Ok (Some found) => launch t r found s
                | Ok None => start_missing t r params s
                end
            end
        end
    end.

(** ** Events of a job's process *)

(** [buffered] is the socket's [bufferedAmount] after the frames. *)
Definition on_stdout (ref : nat) (chunk : bytes) (buffered : Z) (s : Jobs) : Jobs * list JobEffect :=
  match oj_heap s !! ref with
  | None => (s, [])
  | Some j =>
      let '(rest, frames) := push chunk (jo_reader j) in
      let s := set_job ref (fun j => job_child j (jo_ended j) (jo_destroyed j) rest (jo_drains j)) s in
      match frames, jo_socket j with
      | Throw _, _ => (s, [SignalJob ref (js "SIGTERM")])
      | Ok _, None => (s, [])
      | Ok frames, Some socket =>
          let e := map (fun '(data, binary) => SendFrame socket ref data binary) frames in
          if buffered <=? MAX_BUFFERED then (s, e)
          else
            let '(timer, s) := fresh s in
            (set_waits s (oj_timers s) (oj_polls s ++ [(timer, (ref, socket))]), e ++ [PauseStdout ref])
      end
  end.

(** A tick of the interval that waits for the socket. *)
Definition poll_fires (t : Turn) (timer : nat) (buffered : Z) (s : Jobs) : Jobs * list JobEffect :=
  match List.find (fun p => Nat.eqb (fst p) timer) (oj_polls s) with
  | Some (_, (ref, socket)) =>
      if bool_decide (oj_heap s !! ref ≫= jo_socket = Some socket) && tn_open t socket && (MAX_BUFFERED <? buffered)
      then (s, [])
      else
        (set_waits s (oj_timers s) (List.filter (fun p => negb (Nat.eqb (fst p) timer)) (oj_polls s)),
         [ClearTimer timer; ResumeStdout ref])
  | None => (s, [])
  end.

Definition job_client (s : Jobs) (ref : nat) : option units := jo_client <$> oj_heap s !! ref.

(** [close] of a job's process, with its exit code. *)
Definition on_exit (ref : nat) (code : option Z) (s : Jobs) : Jobs * list JobEffect :=
  match oj_heap s !! ref with
  | None => (s, [])
  | Some j =>
      let '(s, e1) := clear_grace (jo_grace j) s in
      let s := set_running s (oj_heap s) (map_delete (jo_id j) (oj_jobs s)) (oj_spliced s) in
      let '(s, e2) :=
        match jo_socket j with
        | Some socket =>
            (set_running s (oj_heap s) (oj_jobs s) (delete socket (oj_spliced s)),
             [CloseSocket socket (if bool_decide (code = Some 0) then 1000
                                  else if bool_decide (code = Some JOB_BAD_REQUEST) then CLOSE_JOB_BAD_REQUEST
                                  else 1011)])
        | None => (s, [])
        end in
      let others := existsb (fun '(_, ref) => bool_decide (job_client s ref = Some (jo_client j))) (oj_jobs s) in
      (s, e1 ++ e2 ++ if others then [] else [BecameIdle (jo_client j)])
  end.

Definition stop_job (ref : nat) (s : Jobs) : Jobs * list JobEffect :=
  (set_job ref job_end s, [EndStdin ref; SignalJob ref (js "SIGTERM"); KillLater ref STOP_GRACE_MS]).

(** The loop of [stop] over the jobs of a client, or all. *)
Fixpoint stop_jobs (refs : list nat) (s : Jobs) : Jobs * list JobEffect :=
  match refs with
  | [] => (s, [])
  | ref :: refs => let '(s, e1) := stop_job ref s in let '(s, e2) := stop_jobs refs s in (s, e1 ++ e2)
  end.

Definition stop (client : option units) (s : Jobs) : Jobs * list JobEffect :=
  stop_jobs (List.filter (fun ref => match client with
                                     | None => true
                                     | Some client => bool_decide (job_client s ref = Some client)
                                     end) (map snd (oj_jobs s))) s.

Definition close (s : Jobs) : Jobs * list JobEffect := stop None (set_closed s true (oj_next s)).

(** [jobMethod] of [handlers/build.ts], for a session that may build. *)
Definition jobMethod (allowed : bool) (t : Turn) (client : JobClient) (socket : nat) (params : json) (s : Jobs) :
    Jobs * list JobEffect :=
  if negb allowed then
    refused socket (js "forbidden")
      (js "job.start needs build access, which this machine has not granted this device.") s
  else start t client socket params s.
End Operations.
