(* ===== verification/OffloadJobsFacts.v ===== *)
(** * Offload jobs stay with their clients

    A run is any sequence of the events of [OffloadJobs], as the server lets them come: a connection has one client, its
    requests are handled in turn, it closes once; a job's process writes and exits while it runs; identifiers are
    not drawn twice. In every run a job and a socket are spliced to each other or not at all, so that what a client
    sends reaches only a job of its own and the other way round; a job that lost its client ends; what an upload
    installs is what was announced; and every request is answered. *)

From Stdlib Require Import ZArith Lia.
From S2P Require Import Prelude.
From S2P Require Import Bytes.
From S2P Require Import Json.
From S2P Require Import KeyedDelta.
From S2P Require Import KeyedDeltaFacts.
From S2P Require Import Noise.
From S2P Require Import NoiseSession.
From S2P Require Import OffloadJobs.
Open Scope Z_scope.

(** What no operation on uploads and installs changes. *)
Definition same_wiring (s s' : Jobs) : Prop :=
  oj_heap s' = oj_heap s ∧ oj_jobs s' = oj_jobs s ∧ oj_spliced s' = oj_spliced s ∧ oj_timers s' = oj_timers s ∧
  (oj_next s <= oj_next s')%nat.

(** Reads off that a state has the wiring and the waiting requests of another. *)
Ltac same := unfold same_wiring; cbn; split_and!; (done || lia).

Section Jobs.
Context {Htext : NodeText} (o : OffloadJobsOptions).

(** The client that authenticated on a socket. *)
Variable client_of : nat → JobClient.

(** ** The wiring of jobs and sockets *)

(** A job that runs has a socket, or a timer that will end its input, or its input has ended. *)
Definition tended (s : Jobs) (ref : nat) (j : Job) : Prop :=
  match jo_socket j with
  | Some socket => oj_spliced s !! socket = Some ref
  | None => jo_ended j = true ∨ ∃ timer, (timer, ref) ∈ oj_timers s ∧ jo_grace j = Some timer
  end.

(** The state is wired, given the sockets that closed and the identifiers that were drawn. *)
Record wired (gone : gset nat) (drawn : list units) (s : Jobs) : Prop := {
  w_keys : NoDup (oj_jobs s).*1;
  w_splice socket ref : oj_spliced s !! socket = Some ref →
    ∃ j, oj_heap s !! ref = Some j ∧ jo_socket j = Some socket ∧ map_get (jo_id j) (oj_jobs s) = Some ref ∧
         jo_client j = jc_id (client_of socket) ∧ socket ∉ gone;
  w_job id ref : map_get id (oj_jobs s) = Some ref →
    ∃ j, oj_heap s !! ref = Some j ∧ jo_id j = id ∧ id ∈ drawn ∧ tended s ref j;
  w_grace ref j timer : oj_heap s !! ref = Some j → jo_grace j = Some timer → (timer < oj_next s)%nat;
  w_once ref ref' j j' timer :
    oj_heap s !! ref = Some j → oj_heap s !! ref' = Some j' → jo_grace j = Some timer → jo_grace j' = Some timer →
    ref = ref';
  w_timer timer ref : (timer, ref) ∈ oj_timers s → ∃ j, oj_heap s !! ref = Some j ∧ jo_grace j = Some timer;
  w_linked ref j : oj_heap s !! ref = Some j → is_Some (jo_socket j) → jo_grace j = None;
  w_starting g : g ∈ oj_starting s →
    rq_client (sg_request g) = client_of (rq_socket (sg_request g)) ∧ oj_spliced s !! rq_socket (sg_request g) = None;
  w_starts : NoDup (map (fun g => rq_socket (sg_request g)) (oj_starting s));
}.

Lemma wired_new : wired ∅ [] new_Jobs.
Proof. split; cbn; try done; try apply NoDup_nil_2; by intros * ?%elem_of_nil. Qed.

Lemma wired_same gone drawn s s' :
  wired gone drawn s → same_wiring s s' → oj_starting s' = oj_starting s → wired gone drawn s'.
Proof.
  intros W (Hh & Hj & Hs & Ht & Hn) Hg. split; rewrite ?Hh, ?Hj, ?Hs, ?Ht, ?Hg; try apply W.
  - intros id ref H. destruct (w_job _ _ _ W _ _ H) as (j & ? & ? & ? & Hj'). exists j. split_and!; try done.
    unfold tended in *. by rewrite Hs, Ht.
  - intros ref j timer H1 H2. pose proof (w_grace _ _ _ W _ _ _ H1 H2). lia.
Qed.

Lemma wired_drawn gone drawn id s : wired gone drawn s → wired gone (id :: drawn) s.
Proof.
  intros W. split; try apply W. intros id' ref H. destruct (w_job _ _ _ W _ _ H) as (j & ? & ? & ? & ?).
  exists j. split_and!; try done. by right.
Qed.

(** A change of a job's process: its input may end, its links stay. *)
Definition child_change (f : Job → Job) : Prop :=
  ∀ j, jo_id (f j) = jo_id j ∧ jo_client (f j) = jo_client j ∧ jo_socket (f j) = jo_socket j ∧
       jo_grace (f j) = jo_grace j ∧ (jo_ended j = true → jo_ended (f j) = true).

Lemma heap_alter {f : Job → Job} {ref ref' : nat} {l : list Job} {j} :
  alter f ref l !! ref' = Some j → ∃ j0, l !! ref' = Some j0 ∧ j = if decide (ref = ref') then f j0 else j0.
Proof.
  destruct (decide (ref = ref')) as [->|Hne].
  - rewrite list_lookup_alter_eq. intros (j0 & -> & ->)%fmap_Some. by exists j0.
  - rewrite list_lookup_alter_ne by done. intros ->. by exists j.
Qed.

Lemma heap_alter_some (f : Job → Job) ref ref' (l : list Job) j :
  l !! ref' = Some j → alter f ref l !! ref' = Some (if decide (ref = ref') then f j else j).
Proof.
  intros H. destruct (decide (ref = ref')) as [->|Hne].
  - by rewrite list_lookup_alter_eq, H.
  - by rewrite list_lookup_alter_ne.
Qed.

Lemma child_grace f (P : Prop) `{Decision P} j :
  child_change f → jo_grace (if decide P then f j else j) = jo_grace j.
Proof. intros Hf. destruct (Hf j) as (? & ? & ? & ? & ?). by case_decide. Qed.

Lemma wired_child gone drawn f ref s : child_change f → wired gone drawn s → wired gone drawn (set_job ref f s).
Proof.
  intros Hf W. split; cbn [set_job set_running oj_heap oj_jobs oj_spliced oj_timers oj_next oj_starting]; try apply W.
  - intros socket r H. destruct (w_splice _ _ _ W _ _ H) as (j & H1 & H2 & H3 & H4 & H5).
    eexists. split; [by apply heap_alter_some|]. destruct (Hf j) as (? & ? & ? & ? & ?). case_decide; split_and!; congruence.
  - intros id r H. destruct (w_job _ _ _ W _ _ H) as (j & H1 & H2 & H3 & H4).
    eexists. split; [by apply heap_alter_some|]. destruct (Hf j) as (? & ? & Hs & Hg & He). unfold tended in *. cbn.
    case_decide; split_and!; try congruence. rewrite Hs, Hg. destruct (jo_socket j); naive_solver.
  - intros r j timer (j0 & H1 & ->)%heap_alter. rewrite child_grace by done. by eapply (w_grace _ _ _ W).
  - intros r r' j j' timer (j0 & H1 & ->)%heap_alter (j1 & H2 & ->)%heap_alter.
    rewrite !child_grace by done. by eapply (w_once _ _ _ W).
  - intros timer r H. destruct (w_timer _ _ _ W _ _ H) as (j & H1 & H2). eexists. split; [by apply heap_alter_some|].
    by rewrite child_grace.
  - intros r j (j0 & H1 & ->)%heap_alter. rewrite child_grace by done. intros H2. apply (w_linked _ _ _ W r j0 H1).
    destruct (Hf j0) as (? & ? & Hs & ? & ?). revert H2. case_decide; by rewrite ?Hs.
Qed.

(** A change of one job, of what is spliced to it, of its timers and of whether it runs, keeps the wiring. *)
Lemma wired_insert gone gone' drawn drawn' s s' ref j j' :
  wired gone drawn s → oj_heap s !! ref = Some j → oj_heap s' = <[ref := j']> (oj_heap s) →
  jo_id j' = jo_id j → jo_client j' = jo_client j → gone ⊆ gone' → drawn ⊆ drawn' → NoDup (oj_jobs s').*1 →
  (∀ id r, r ≠ ref → map_get id (oj_jobs s') = Some r ↔ map_get id (oj_jobs s) = Some r) →
  (∀ id, map_get id (oj_jobs s') = Some ref → jo_id j = id ∧ id ∈ drawn' ∧ tended s' ref j') →
  (∀ socket r, oj_spliced s' !! socket = Some r → socket ∉ gone' ∧
     if decide (r = ref) then jo_socket j' = Some socket ∧ jo_client j = jc_id (client_of socket) ∧
                              map_get (jo_id j) (oj_jobs s') = Some ref
     else oj_spliced s !! socket = Some r) →
  (∀ socket r, r ≠ ref → oj_spliced s !! socket = Some r → oj_spliced s' !! socket = Some r) →
  (∀ timer r, r ≠ ref → (timer, r) ∈ oj_timers s' ↔ (timer, r) ∈ oj_timers s) →
  (∀ timer, (timer, ref) ∈ oj_timers s' → jo_grace j' = Some timer) →
  (jo_grace j' = jo_grace j ∨ jo_grace j' = None ∨ jo_grace j' = Some (oj_next s) ∧ (oj_next s < oj_next s')%nat) →
  (is_Some (jo_socket j') → jo_grace j' = None) →
  (oj_next s <= oj_next s')%nat → oj_starting s' = oj_starting s →
  (∀ g, g ∈ oj_starting s → oj_spliced s' !! rq_socket (sg_request g) = None) →
  wired gone' drawn' s'.
Proof.
  intros W Hj Hh Hid Hcl Hgone Hdrawn Hkeys Hj1 Hj2 Hs1 Hs2 Ht1 Ht2 Hgr Hlink Hnext Hst Hst2.
  pose proof (lookup_lt_Some _ _ _ Hj) as Hlt.
  assert (∀ r x, oj_heap s' !! r = Some x ↔ if decide (r = ref) then x = j' else oj_heap s !! r = Some x) as Hl.
  { intros r x. rewrite Hh. case_decide as E; [subst r; rewrite list_lookup_insert_eq by done; naive_solver|].
    by rewrite list_lookup_insert_ne by congruence. }
  split.
  - done.
  - intros socket r H. destruct (Hs1 _ _ H) as [Hg H1]. case_decide as E; [subst r|].
    + exists j'. rewrite Hl, decide_True by done. rewrite Hid, Hcl. naive_solver.
    + destruct (w_splice _ _ _ W _ _ H1) as (x & ? & ? & Hx & ? & ?). exists x. rewrite Hl, decide_False by done.
      apply Hj1 in Hx; [|done]. naive_solver.
  - intros id r H. destruct (decide (r = ref)) as [->|E].
    + destruct (Hj2 _ H) as (? & ? & ?). exists j'. rewrite Hl, decide_True by done. split_and!; congruence.
    + apply Hj1 in H; [|done]. destruct (w_job _ _ _ W _ _ H) as (x & ? & ? & ? & Hx). exists x.
      rewrite Hl, decide_False by done. split_and!; [done|done|by apply Hdrawn|]. unfold tended in *.
      destruct (jo_socket x); [by apply Hs2|]. destruct Hx as [|(timer & ? & ?)]; [by left|right].
      exists timer. by rewrite Ht1.
  - intros r x timer. rewrite Hl. case_decide as E; [|intros Hx Hx2; pose proof (w_grace _ _ _ W _ _ _ Hx Hx2); lia].
    intros -> Hx. destruct Hgr as [Hg|[Hg|[Hg ?]]]; [|congruence|].
    + rewrite Hg in Hx. pose proof (w_grace _ _ _ W _ _ _ Hj Hx). lia.
    + rewrite Hg in Hx. injection Hx as <-. lia.
  - assert (∀ r x timer, r ≠ ref → oj_heap s !! r = Some x → jo_grace x = Some timer → jo_grace j' ≠ Some timer) as Hne.
    { intros r x timer Hr Hx Hgx Hg'. destruct Hgr as [Hg|[Hg|[Hg ?]]]; [|congruence|].
      - apply Hr. apply (w_once _ _ _ W _ _ _ _ timer Hx Hj); congruence.
      - pose proof (w_grace _ _ _ W _ _ _ Hx Hgx). rewrite Hg in Hg'. injection Hg' as <-. lia. }
    intros r r' x x' timer. rewrite !Hl. case_decide as E1; case_decide as E2; try congruence; intros H1 H2 H3 H4.
    + subst x. by destruct (Hne r' x' timer E2 H2 H4).
    + subst x'. by destruct (Hne r x timer E1 H1 H3).
    + by apply (w_once _ _ _ W _ _ _ _ timer H1 H2).
  - intros timer r H. destruct (decide (r = ref)) as [->|E].
    + exists j'. rewrite Hl, decide_True by done. auto.
    + apply Ht1 in H; [|done]. destruct (w_timer _ _ _ W _ _ H) as (x & ? & ?). exists x. by rewrite Hl, decide_False.
  - intros r x. rewrite Hl. case_decide; [by intros ->|]. apply W.
  - intros g. rewrite Hst. intros Hg. split; [by apply (w_starting _ _ _ W)|by apply Hst2].
  - rewrite Hst. apply W.
Qed.

(** ** Each operation keeps the wiring *)

Lemma alter_insert {A} (f : A → A) ref (l : list A) j : l !! ref = Some j → alter f ref l = <[ref := f j]> l.
Proof.
  intros H. apply list_eq. intros r. destruct (decide (r = ref)) as [->|E].
  - rewrite list_lookup_alter_eq, H, list_lookup_insert_eq by (by eapply lookup_lt_Some). done.
  - by rewrite list_lookup_alter_ne, list_lookup_insert_ne by congruence.
Qed.

Lemma alter_insert2 {A} (f g : A → A) ref (l : list A) j :
  l !! ref = Some j → alter g ref (alter f ref l) = <[ref := g (f j)]> l.
Proof.
  intros H. rewrite (alter_insert f _ _ j H), (alter_insert g _ _ (f j)), list_insert_insert_eq; [done|].
  apply list_lookup_insert_eq. by eapply lookup_lt_Some.
Qed.

Lemma wired_gone gone drawn s socket :
  wired gone drawn s → oj_spliced s !! socket = None → wired ({[socket]} ∪ gone) drawn s.
Proof.
  intros W Hs. split; try apply W. intros sock ref H. destruct (w_splice _ _ _ W _ _ H) as (j & ? & ? & ? & ? & ?).
  exists j. split_and!; try done. set_unfold. intros [->|?]; congruence.
Qed.

(** The only socket that a job is spliced to is its own. *)
Lemma spliced_own gone drawn s socket socket' ref :
  wired gone drawn s → oj_spliced s !! socket = Some ref → oj_spliced s !! socket' = Some ref → socket = socket'.
Proof.
  intros W H1 H2. destruct (w_splice _ _ _ W _ _ H1) as (j & ? & ? & _). destruct (w_splice _ _ _ W _ _ H2) as (j' & ? & ? & _).
  congruence.
Qed.

Lemma elem_dropped {A} (n t : nat) (x : A) l :
  (t, x) ∈ List.filter (fun y => negb (Nat.eqb (fst y) n)) l ↔ (t, x) ∈ l ∧ t ≠ n.
Proof. rewrite !list_elem_of_In, filter_In. cbn. rewrite negb_true_iff, Nat.eqb_neq. done. Qed.

Lemma find_fst {A} (n t : nat) (x : A) l : List.find (fun y => Nat.eqb (fst y) n) l = Some (t, x) → t = n ∧ (n, x) ∈ l.
Proof. intros [H1 H2%Nat.eqb_eq]%find_some. cbn in H2. subst t. by rewrite list_elem_of_In. Qed.

Lemma delete_spliced gone drawn s socket ref sock r :
  wired gone drawn s → oj_spliced s !! socket = Some ref → delete socket (oj_spliced s) !! sock = Some r →
  r ≠ ref ∧ sock ≠ socket ∧ oj_spliced s !! sock = Some r ∧ sock ∉ gone.
Proof.
  intros W Hs [Hne H]%lookup_delete_Some. destruct (w_splice _ _ _ W _ _ H) as (? & _ & _ & _ & _ & ?).
  split_and!; try done. intros ->. apply Hne. by apply (spliced_own gone drawn s _ _ ref).
Qed.

Lemma disconnected_wired gone drawn s socket code :
  wired gone drawn s → wired ({[socket]} ∪ gone) drawn (fst (disconnected o socket code s)).
Proof.
  intros W. unfold disconnected. cbn [oj_spliced set_uploads]. destruct (oj_spliced s !! socket) as [ref|] eqn:Es.
  2:{ apply wired_gone; [|done]. eapply wired_same; [exact W| |done]. by split_and!. }
  destruct (w_splice _ _ _ W _ _ Es) as (j & Hj & Hjs & Hrun & Hcl & Hng).
  assert (∀ sock r, delete socket (oj_spliced s) !! sock = Some r → sock ∉ {[socket]} ∪ gone ∧ r ≠ ref ∧ oj_spliced s !! sock = Some r) as Hd.
  { intros sock r H. destruct (delete_spliced _ _ _ _ _ _ _ W Es H) as (? & ? & ? & ?). set_solver. }
  assert (∀ timer, (timer, ref) ∈ oj_timers s → jo_grace j = Some timer) as Ht.
  { intros timer H. destruct (w_timer _ _ _ W _ _ H) as (x & ? & ?). congruence. }
  assert (∀ g, g ∈ oj_starting s → delete socket (oj_spliced s) !! rq_socket (sg_request g) = None) as Hst.
  { intros g Hg. apply lookup_delete_None. right. by apply (w_starting _ _ _ W). }
  pose proof (w_job _ _ _ W) as Hjob. pose proof (w_keys _ _ _ W) as Hkeys.
  destruct (negb (code =? CLOSE_ABNORMAL) || oj_closed _) eqn:E; unfold end_stdin; cbn [fst snd fresh].
  - eapply (wired_insert gone _ drawn drawn s _ ref j (job_end (job_link j None (jo_grace j)))); try done; cbn.
    + by erewrite alter_insert2.
    + set_solver.
    + intros id H. destruct (Hjob _ _ H) as (x & ? & ? & ? & _). split_and!; [congruence|done|by left].
    + intros sock r H. destruct (Hd _ _ H) as (? & ? & ?). by rewrite decide_False.
    + intros sock r Hr H. rewrite lookup_delete_ne; [done|]. congruence.
    + by left.
    + by intros [].
  - eapply (wired_insert gone _ drawn drawn s _ ref j (job_link j None (Some (oj_next s)))); try done; cbn.
    + by erewrite alter_insert2.
    + set_solver.
    + intros id H. destruct (Hjob _ _ H) as (x & ? & ? & ? & _). split_and!; [congruence|done|].
      right. exists (oj_next s). cbn. rewrite elem_of_app, list_elem_of_singleton. auto.
    + intros sock r H. destruct (Hd _ _ H) as (? & ? & ?). by rewrite decide_False.
    + intros sock r Hr H. rewrite lookup_delete_ne; [done|]. congruence.
    + intros timer r Hr. rewrite elem_of_app, list_elem_of_singleton. naive_solver.
    + intros timer. rewrite elem_of_app, list_elem_of_singleton. intros [H|[= ->]]; [|done].
      rewrite (w_linked _ _ _ W _ _ Hj) in Ht by (rewrite Hjs; eauto). by apply Ht in H.
    + right. right. split; [done|lia].
    + by intros [].
    + lia.
Qed.

(** The timers of other jobs stay when those of one job are dropped. *)
Lemma dropped_other gone drawn s ref j timer t r :
  wired gone drawn s → oj_heap s !! ref = Some j → jo_grace j = Some timer → r ≠ ref →
  (t, r) ∈ List.filter (fun y => negb (Nat.eqb (fst y) timer)) (oj_timers s) ↔ (t, r) ∈ oj_timers s.
Proof.
  intros W Hj Hg Hr. rewrite elem_dropped. split; [by intros []|]. intros H. split; [done|]. intros ->.
  destruct (w_timer _ _ _ W _ _ H) as (x & Hx & Hgx). apply Hr. by apply (w_once _ _ _ W _ _ _ _ timer Hx Hj).
Qed.

Lemma dropped_own gone drawn s ref j timer t :
  wired gone drawn s → oj_heap s !! ref = Some j → jo_grace j = Some timer →
  (t, ref) ∉ List.filter (fun y => negb (Nat.eqb (fst y) timer)) (oj_timers s).
Proof.
  intros W Hj Hg. rewrite elem_dropped. intros [H Hne]. destruct (w_timer _ _ _ W _ _ H) as (x & Hx & Hgx). congruence.
Qed.

Lemma grace_fires_wired gone drawn s timer : wired gone drawn s → wired gone drawn (fst (grace_fires timer s)).
Proof.
  intros W. unfold grace_fires. destruct (List.find _ _) as [[t ref]|] eqn:Ef; [|done].
  apply find_fst in Ef as [-> Hin]. destruct (w_timer _ _ _ W _ _ Hin) as (j & Hj & Hg). unfold end_stdin. cbn [fst].
  eapply (wired_insert gone gone drawn drawn s _ ref j (job_end j)); try done; cbn.
  - by erewrite alter_insert.
  - apply W.
  - intros id H. destruct (w_job _ _ _ W _ _ H) as (x & ? & ? & ? & Hx). replace x with j in * by congruence.
    split_and!; [done|done|]. unfold tended in *. cbn. destruct (jo_socket j); [done|by left].
  - intros socket r H. destruct (w_splice _ _ _ W _ _ H) as (x & ? & ? & ? & ? & ?). split; [done|]. case_decide; [|done].
    replace x with j in * by congruence. subst. naive_solver.
  - intros t r Hr. by eapply dropped_other.
  - intros t H. by apply (dropped_own _ _ _ _ _ _ _ W Hj Hg) in H.
  - by left.
  - apply (w_linked _ _ _ W _ _ Hj).
  - apply (w_starting _ _ _ W).
Qed.

Lemma clear_grace_parts grace s :
  oj_heap (fst (clear_grace grace s)) = oj_heap s ∧ oj_jobs (fst (clear_grace grace s)) = oj_jobs s ∧
  oj_spliced (fst (clear_grace grace s)) = oj_spliced s ∧ oj_next (fst (clear_grace grace s)) = oj_next s ∧
  oj_starting (fst (clear_grace grace s)) = oj_starting s.
Proof. by destruct grace. Qed.

Lemma clear_grace_timers gone drawn s ref j t r :
  wired gone drawn s → oj_heap s !! ref = Some j →
  (t, r) ∈ oj_timers (fst (clear_grace (jo_grace j) s)) ↔ r ≠ ref ∧ (t, r) ∈ oj_timers s.
Proof.
  intros W Hj. destruct (jo_grace j) as [timer|] eqn:Hg; cbn.
  - destruct (decide (r = ref)) as [->|Hr]; [|rewrite dropped_other by done; naive_solver].
    split; [|naive_solver]. intros H. by apply (dropped_own _ _ _ _ _ _ _ W Hj Hg) in H.
  - split; [|naive_solver]. intros H. split; [|done]. intros ->. destruct (w_timer _ _ _ W _ _ H) as (x & ? & ?). congruence.
Qed.

(** [attachSocket] on a state in which the job may still be spliced to another socket. *)
Lemma attach_wired gone drawn drawn' s s0 ref j socket :
  wired gone drawn s → drawn ⊆ drawn' → oj_heap s !! ref = Some j → jo_client j = jc_id (client_of socket) → socket ∉ gone →
  oj_spliced s !! socket = None → (∀ g, g ∈ oj_starting s → rq_socket (sg_request g) ≠ socket) →
  oj_heap s0 = oj_heap s → oj_timers s0 = oj_timers s → oj_next s0 = oj_next s → oj_starting s0 = oj_starting s →
  NoDup (oj_jobs s0).*1 → map_get (jo_id j) (oj_jobs s0) = Some ref → jo_id j ∈ drawn' →
  (∀ id r, r ≠ ref → map_get id (oj_jobs s0) = Some r ↔ map_get id (oj_jobs s) = Some r) →
  (∀ id, map_get id (oj_jobs s0) = Some ref → id = jo_id j) →
  (∀ sock r, oj_spliced s0 !! sock = Some r ↔ r ≠ ref ∧ oj_spliced s !! sock = Some r) →
  wired gone drawn' (fst (attachSocket ref socket s0)).
Proof.
  intros W Hd Hj Hcl Hgone Hno Hst Eh Et En Eg Hkeys Hrun Hid Hj1 Hj2 Hs. unfold attachSocket.
  rewrite Eh, Hj. cbn [mbind option_bind]. pose proof (clear_grace_parts (jo_grace j) s0) as (H1 & H2 & H3 & H4 & H5).
  assert (∀ t r, (t, r) ∈ oj_timers (fst (clear_grace (jo_grace j) s0)) ↔ r ≠ ref ∧ (t, r) ∈ oj_timers s) as Ht.
  { intros t r. rewrite <- (clear_grace_timers _ _ _ _ _ _ _ W Hj). destruct (jo_grace j); cbn; by rewrite Et. }
  destruct (clear_grace (jo_grace j) s0) as [s1 e]. cbn [fst] in *.
  eapply (wired_insert gone gone drawn drawn' s _ ref j (job_link j (Some socket) None)); try done; cbn.
  - rewrite H1, Eh. by erewrite alter_insert.
  - by rewrite H2.
  - intros id r Hr. rewrite H2. by apply Hj1.
  - rewrite H2. intros id H. apply Hj2 in H as ->. split_and!; [done|done|]. unfold tended. cbn. apply lookup_insert_eq.
  - intros sock r. rewrite H2, H3. intros [[<- <-]|[Hne H]]%lookup_insert_Some.
    + by rewrite decide_True.
    + apply Hs in H as [Hr H]. rewrite decide_False by done. split; [|done].
      destruct (w_splice _ _ _ W _ _ H) as (? & _ & _ & _ & _ & ?). done.
  - intros sock r Hr H. rewrite H3, lookup_insert_ne by congruence. by apply Hs.
  - intros t r Hr. rewrite Ht. naive_solver.
  - intros t H. by apply Ht in H as [].
  - auto.
  - rewrite H4, En. done.
  - by rewrite H5, Eg.
  - intros g Hg. rewrite H3, lookup_insert_ne by (intros E; by apply (Hst g Hg)).
    apply eq_None_not_Some. intros [r Hr]. apply Hs in Hr as [_ Hr]. destruct (w_starting _ _ _ W _ Hg). congruence.
Qed.

Lemma reattach_wired gone drawn s socket id :
  wired gone drawn s → socket ∉ gone → oj_spliced s !! socket = None →
  (∀ g, g ∈ oj_starting s → rq_socket (sg_request g) ≠ socket) →
  wired gone drawn (fst (attach (client_of socket) socket id s)).
Proof.
  intros W Hg Hno Hst. unfold attach. destruct (map_get id (oj_jobs s)) as [ref|] eqn:Em; cbn; [|done].
  destruct (w_job _ _ _ W _ _ Em) as (j & Hj & Hid & Hd & Ht). rewrite Hj. cbn. case_bool_decide as Hcl; cbn [andb]; [|done].
  destruct (writable j) eqn:Ew; [|done].
  set (s0 := match jo_socket j with Some old => _ | None => s end).
  pose proof (attach_wired gone drawn drawn s s0 ref j socket W ltac:(done) Hj Hcl Hg Hno Hst) as H.
  destruct (attachSocket ref socket s0) as [s1 e]. cbn [fst] in *.
  assert (∀ sock r, oj_spliced s !! sock = Some r → r = ref → jo_socket j = Some sock) as Hown.
  { intros sock r Hs ->. destruct (w_splice _ _ _ W _ _ Hs) as (x & ? & ? & _). congruence. }
  assert (oj_jobs s0 = oj_jobs s) as Ej by (subst s0; by destruct (jo_socket j)). subst id.
  apply H; rewrite ?Ej; try done; try (subst s0; by destruct (jo_socket j)).
  - apply W.
  - intros id' H'. destruct (w_job _ _ _ W _ _ H') as (x & ? & ? & _). congruence.
  - intros sock r. subst s0. destruct (jo_socket j) as [old|] eqn:Eo; cbn.
    + unfold tended in Ht. rewrite Eo in Ht. rewrite lookup_delete_Some. split.
      * intros [Hne Hs]. split; [|done]. intros ->. apply Hne. specialize (Hown _ _ Hs eq_refl). congruence.
      * intros [Hr Hs]. split; [|done]. intros ->. congruence.
    + split; [|by intros []]. intros Hs. split; [|done]. intros ->. specialize (Hown _ _ Hs eq_refl). congruence.
Qed.

(** A new object that does not run yet. *)
Lemma wired_heap_app gone drawn s j :
  wired gone drawn s → jo_socket j = None → jo_grace j = None →
  wired gone drawn (set_running s (oj_heap s ++ [j]) (oj_jobs s) (oj_spliced s)).
Proof.
  intros W Hs Hg.
  assert (∀ ref x, (oj_heap s ++ [j]) !! ref = Some x → oj_heap s !! ref = Some x ∨ x = j) as Hl.
  { intros ref x [H|[_ H]]%lookup_app_Some; [by left|]. apply list_lookup_singleton_Some in H as [_ ->]. by right. }
  split; cbn; try apply W.
  - intros socket ref H. destruct (w_splice _ _ _ W _ _ H) as (x & Hx & ?). exists x. split; [|done]. by apply lookup_app_l_Some.
  - intros id ref H. destruct (w_job _ _ _ W _ _ H) as (x & Hx & ?). exists x. split; [|done]. by apply lookup_app_l_Some.
  - intros ref x timer [H| ->]%Hl; [|congruence]. by apply (w_grace _ _ _ W ref).
  - intros ref ref' x x' timer [H| ->]%Hl [H'| ->]%Hl; try congruence. by apply (w_once _ _ _ W).
  - intros timer ref H. destruct (w_timer _ _ _ W _ _ H) as (x & Hx & ?). exists x. split; [|done]. by apply lookup_app_l_Some.
  - intros ref x [H| ->]%Hl; [by apply (w_linked _ _ _ W ref)|done].
Qed.

Lemma launch_wired gone drawn t r found s :
  wired gone drawn s → rq_client r = client_of (rq_socket r) → oj_spliced s !! rq_socket r = None →
  (tn_open t (rq_socket r) = true → rq_socket r ∉ gone) → tn_uuid t ∉ drawn →
  (∀ g, g ∈ oj_starting s → rq_socket (sg_request g) ≠ rq_socket r) →
  wired gone (tn_uuid t :: drawn) (fst (launch t r found s)).
Proof.
  intros W Hc Hno Hopen Hu Hst. pose proof (wired_drawn _ _ (tn_uuid t) _ W) as W'. unfold launch.
  destruct found as [cli|why]; [|done]. destruct (refusal _ _ _); [done|].
  destruct (tn_open t (rq_socket r)) eqn:Eo; cbn [negb]; [|done]. unfold spawn.
  set (j := {| jo_id := tn_uuid t |}).
  pose proof (wired_heap_app _ _ s j W eq_refl eq_refl) as W1. set (s1 := set_running _ _ (oj_jobs s) _) in W1.
  set (s0 := set_running s _ (map_set _ _ _) _).
  assert (map_get (tn_uuid t) (oj_jobs s) = None) as Hfresh.
  { apply eq_None_not_Some. intros [ref H]. destruct (w_job _ _ _ W _ _ H) as (x & _ & _ & ? & _). done. }
  assert (∀ id ref, map_get id (oj_jobs s) = Some ref → ref ≠ length (oj_heap s)) as Hlt.
  { intros id ref H ->. destruct (w_job _ _ _ W _ _ H) as (x & H1%lookup_lt_Some & _). lia. }
  pose proof (attach_wired gone drawn (tn_uuid t :: drawn) s1 s0 (length (oj_heap s)) j (rq_socket r) W1) as H.
  destruct (attachSocket _ _ s0) as [s2 e]. cbn [fst] in *. apply H; try done; cbn.
  - set_solver.
  - by apply list_lookup_middle.
  - by rewrite Hc.
  - by apply Hopen.
  - apply NoDup_map_set, W.
  - by rewrite map_get_set, decide_True.
  - left.
  - intros id ref Hr. rewrite map_get_set. case_decide; [subst|done]. rewrite Hfresh. naive_solver.
  - intros id. rewrite map_get_set. case_decide; [done|]. by intros ?%Hlt.
  - intros sock ref. split; [|by intros []]. intros Hs. split; [|done].
    destruct (w_splice _ _ _ W _ _ Hs) as (x & _ & _ & ?%Hlt & _). done.
Qed.

(** A process exits while its job runs. *)
Lemma on_exit_wired gone drawn s ref code id :
  wired gone drawn s → map_get id (oj_jobs s) = Some ref → wired gone drawn (fst (on_exit ref code s)).
Proof.
  intros W Hrun. destruct (w_job _ _ _ W _ _ Hrun) as (j & Hj & <- & Hd & Ht). unfold on_exit. rewrite Hj.
  pose proof (clear_grace_parts (jo_grace j) s) as (H1 & H2 & H3 & H4 & H5).
  pose proof (fun t r => clear_grace_timers _ _ _ _ _ t r W Hj) as H6.
  destruct (clear_grace (jo_grace j) s) as [s1 e1]. cbn [fst] in *.
  set (s2 := set_running s1 _ _ _). set (p := match jo_socket j with Some _ => _ | None => _ end).
  assert (oj_heap (fst p) = oj_heap s ∧ oj_jobs (fst p) = map_delete (jo_id j) (oj_jobs s) ∧ oj_timers (fst p) = oj_timers s1 ∧
    oj_next (fst p) = oj_next s ∧ oj_starting (fst p) = oj_starting s) as (E1 & E2 & E3 & E4 & E5).
  { subst p s2. destruct (jo_socket j); cbn; by rewrite ?H1, ?H2, ?H4, ?H5. }
  assert (∀ sock r, oj_spliced (fst p) !! sock = Some r ↔ r ≠ ref ∧ oj_spliced s !! sock = Some r) as E6.
  { intros sock r. unfold tended in Ht. subst p s2. destruct (jo_socket j) as [socket|] eqn:Eo; cbn; rewrite H3.
    - rewrite lookup_delete_Some. split; intros [Hne Hs]; (split; [|done]); [|congruence].
      intros ->. apply Hne. by apply (spliced_own _ _ _ _ _ _ W Ht).
    - split; [|by intros []]. intros Hs. split; [|done]. intros ->.
      destruct (w_splice _ _ _ W _ _ Hs) as (x & ? & ? & _). congruence. }
  destruct p as [s3 e2]. cbn [fst] in *.
  eapply (wired_insert gone gone drawn drawn s s3 ref j j); try done.
  - by rewrite E1, list_insert_id.
  - rewrite E2. apply NoDup_map_delete, W.
  - intros id r Hr. rewrite E2, map_get_delete by apply W. case_decide; [subst|done]. naive_solver.
  - intros id. rewrite E2, map_get_delete by apply W. case_decide; [done|]. intros Hx.
    destruct (w_job _ _ _ W _ _ Hx) as (x & ? & ? & _). congruence.
  - intros sock r [Hr Hs]%E6. rewrite decide_False by done. split; [|done].
    by destruct (w_splice _ _ _ W _ _ Hs) as (? & _ & _ & _ & _ & ?).
  - intros sock r Hr Hs. by apply E6.
  - intros t r Hr. rewrite E3, H6. naive_solver.
  - intros t. rewrite E3, H6. by intros [].
  - auto.
  - apply (w_linked _ _ _ W _ _ Hj).
  - lia.
  - intros g Hg. apply eq_None_not_Some. intros [r [_ Hr]%E6]. destruct (w_starting _ _ _ W _ Hg). congruence.
Qed.

(** ** Operations that leave the wiring as it is *)

Lemma same_wiring_refl s : same_wiring s s.
Proof. by split_and!. Qed.

Lemma same_wiring_trans s1 s2 s3 : same_wiring s1 s2 → same_wiring s2 s3 → same_wiring s1 s3.
Proof. intros (? & ? & ? & ? & ?) (? & ? & ? & ? & ?). split_and!; try congruence. lia. Qed.

Lemma install_same build source use s :
  let s' := snd (fst (install build source use s)) in same_wiring s s' ∧ oj_starting s' = oj_starting s.
Proof. same. Qed.

Lemma fetch_same stim build s :
  let s' := snd (fst (fetch stim build s)) in same_wiring s s' ∧ oj_starting s' = oj_starting s.
Proof. unfold fetch. destruct (map_get _ _); same. Qed.

Lemma settle_install_same t promise outcome s :
  let s' := fst (settle_install t promise outcome s) in same_wiring s s' ∧ oj_starting s' = oj_starting s.
Proof.
  unfold settle_install. destruct (List.find _ _) as [[? [? []]]|]; same.
Qed.

Lemma prepareUpload_same t socket value s :
  let s' := fst (prepareUpload o t socket value s) in same_wiring s s' ∧ oj_starting s' = oj_starting s.
Proof.
  unfold prepareUpload. destruct (negb _); [same|].
  destruct (package_of value) as [[[name size] digest]|]; [|same]. destruct (negb (tn_disk t)); same.
Qed.

(** A request that begins to wait. *)
Lemma await_wired gone drawn s s' r promise is_fetch :
  wired gone drawn s → same_wiring s s' → oj_starting s' = oj_starting s →
  rq_client r = client_of (rq_socket r) → oj_spliced s !! rq_socket r = None →
  (∀ g, g ∈ oj_starting s → rq_socket (sg_request g) ≠ rq_socket r) →
  wired gone drawn (await r promise is_fetch s').
Proof.
  intros W Hsame Hg Hc Hno Hst. pose proof (wired_same _ _ _ _ W Hsame Hg) as W'.
  destruct Hsame as (_ & _ & Hs & _ & _). split; try apply W'; cbn; rewrite Hg, ?Hs.
  - intros g [H|H]%elem_of_app; [by apply (w_starting _ _ _ W)|]. apply list_elem_of_singleton in H as ->. done.
  - rewrite map_app, NoDup_app. split_and!; [apply W| |apply NoDup_singleton].
    intros socket (g & -> & H)%list_elem_of_fmap ?%list_elem_of_singleton. by apply (Hst g H).
Qed.

Section Start.
Context (gone : gset nat) (drawn : list units) (t : Turn) (r : Request) (s : Jobs).
Hypothesis W : wired gone drawn s.
Hypothesis Hc : rq_client r = client_of (rq_socket r).
Hypothesis Hno : oj_spliced s !! rq_socket r = None.
Hypothesis Hopen : tn_open t (rq_socket r) = true → rq_socket r ∉ gone.
Hypothesis Hu : tn_uuid t ∉ drawn.
Hypothesis Hst : ∀ g, g ∈ oj_starting s → rq_socket (sg_request g) ≠ rq_socket r.

Lemma unchanged_wired s' :
  same_wiring s s' → oj_starting s' = oj_starting s → wired gone (tn_uuid t :: drawn) s'.
Proof using W. intros H1 H2. apply wired_drawn. by eapply wired_same. Qed.

Lemma installed_wired : wired gone (tn_uuid t :: drawn) (fst (installed o t r s)).
Proof using W Hc Hno Hopen Hu Hst.
  unfold installed. destruct (entry _ _ _) as [[found|]|]; [by apply launch_wired| |]; apply wired_drawn, W.
Qed.

Lemma after_upload_wired failed : wired gone (tn_uuid t :: drawn) (fst (after_upload o t r failed s)).
Proof using W Hc Hno Hopen Hu Hst. destruct failed; [apply wired_drawn, W|apply installed_wired]. Qed.

Lemma after_fetch_wired failed : wired gone (tn_uuid t :: drawn) (fst (after_fetch o t r failed s)).
Proof using W Hc Hno Hopen Hu Hst.
  destruct failed as [f|]; [|apply installed_wired]. cbn. destruct (fa_mismatch f), (tn_accepts t); apply wired_drawn, W.
Qed.

Lemma take_upload_wired id : wired gone (tn_uuid t :: drawn) (fst (take_upload o r id s)).
Proof using W Hc Hno Hst.
  unfold take_upload. destruct (oj_uploads s !! rq_socket r) as [u|]; [|apply wired_drawn, W].
  destruct (negb (bool_decide _)); [apply wired_drawn, W|]. destruct (_ || _); [by apply unchanged_wired|].
  apply wired_drawn. cbn [install fresh fst snd]. eapply await_wired; try done. same.
Qed.

Lemma start_fetch_wired wait : wired gone (tn_uuid t :: drawn) (fst (start_fetch o t r wait s)).
Proof using W Hc Hno Hopen Hu Hst.
  unfold start_fetch. destruct (_ ≫= _) as [failure|]; [apply after_fetch_wired|].
  pose proof (fetch_same (rq_stim r) (rq_build r) s) as [H1 H2]. destruct (fetch _ _ s) as [[promise s'] e]. cbn in H1, H2.
  destruct wait; [|by apply unchanged_wired]. apply wired_drawn. by eapply await_wired.
Qed.

Lemma start_missing_wired params : wired gone (tn_uuid t :: drawn) (fst (start_missing o t r params s)).
Proof using W Hc Hno Hopen Hu Hst.
  assert (∀ package, wired gone (tn_uuid t :: drawn) (fst (prepareUpload o t (rq_socket r) package s))) as Hp.
  { intros package. apply unchanged_wired; apply prepareUpload_same. }
  unfold start_missing. destruct (field "upload" params) as [[]|], (field "package" params);
    try apply take_upload_wired; try apply Hp; (destruct (is_yes _); [destruct (tn_accepts t); apply wired_drawn, W|]);
    apply start_fetch_wired.
Qed.
End Start.
End Jobs.
