(* ===== verification/OffloadJobsRuns.v ===== *)
(** * Runs of offload jobs

    What happens to [OffloadJobs] as events, the runs the server allows, and the theorems on them: jobs are confined to
    their clients and tended, uploads are checked, and requests answered. *)

From Stdlib Require Import ZArith Lia.
From S2P Require Import Prelude.
From S2P Require Import Bytes.
From S2P Require Import Json.
From S2P Require Import KeyedDelta.
From S2P Require Import KeyedDeltaFacts.
From S2P Require Import Noise.
From S2P Require Import NoiseSession.
From S2P Require Import OffloadJobs.
From S2P Require Import OffloadJobsFacts.
Open Scope Z_scope.

Inductive JobEvent :=
| Starts (allowed : bool) (t : Turn) (socket : nat) (params : json)
| Resumes (t : Turn) (i : nat)
| Sends (socket : nat) (data : bytes) (binary full : bool)
| Uploads (socket : nat) (frame : bytes) (ok : bool)
| Closes (socket : nat) (code : Z)
| GraceFires (timer : nat)
| Prints (ref : nat) (chunk : bytes) (buffered : Z)
| PollFires (t : Turn) (timer : nat) (buffered : Z)
| Drains (ref : nat)
| StdinBreaks (ref : nat)
| Exits (ref : nat) (code : option Z)
| InstallErrors (t : Turn) (promise : nat) (message : units)
| InstallCloses (t : Turn) (promise : nat) (reply : option json)
| Stops (client : option units)
| ServerCloses.

(** The state, the sockets that closed and the identifiers that were drawn. *)
Record Config := { cf_jobs : Jobs; cf_gone : gset nat; cf_drawn : list units }.

Section Runs.
Context {Htext : NodeText} (o : OffloadJobsOptions).

(** The client that authenticated on a socket. *)
Variable client_of : nat → JobClient.

Definition perform (ev : JobEvent) (s : Jobs) : Jobs * list JobEffect :=
  match ev with
  | Starts allowed t socket params => jobMethod o allowed t (client_of socket) socket params s
  | Resumes t i => resume o t i s
  | Sends socket data binary full => deliver socket data binary full s
  | Uploads socket frame ok => fst (receive socket frame ok s)
  | Closes socket code => disconnected o socket code s
  | GraceFires timer => grace_fires timer s
  | Prints ref chunk buffered => on_stdout ref chunk buffered s
  | PollFires t timer buffered => poll_fires t timer buffered s
  | Drains ref => on_drain ref s
  | StdinBreaks ref => (stdin_breaks ref s, [])
  | Exits ref code => on_exit ref code s
  | InstallErrors t promise message => install_errors t promise message s
  | InstallCloses t promise reply => install_closes t promise reply s
  | Stops client => stop client s
  | ServerCloses => close s
  end.

Definition turn_of (ev : JobEvent) : option Turn :=
  match ev with Starts _ t _ _ | Resumes t _ => Some t | _ => None end.

Definition after (ev : JobEvent) (c : Config) : Config :=
  {| cf_jobs := fst (perform ev (cf_jobs c));
     cf_gone := match ev with Closes socket _ => {[socket]} ∪ cf_gone c | _ => cf_gone c end;
     cf_drawn := match turn_of ev with Some t => tn_uuid t :: cf_drawn c | None => cf_drawn c end |}.

(** A turn draws a new identifier and finds no closed socket open. *)
Definition turn_ok (c : Config) (t : Turn) : Prop :=
  tn_uuid t ∉ cf_drawn c ∧ length (tn_uuid t) = 36%nat ∧ ∀ socket, tn_open t socket = true → socket ∉ cf_gone c.

(** The events the server lets come: a connection that is open, and has no request under way, asks; it closes once;
    a job's process prints and exits while it runs. *)
Definition lawful (c : Config) (ev : JobEvent) : Prop :=
  match ev with
  | Starts _ t socket _ =>
      turn_ok c t ∧ socket ∉ cf_gone c ∧ ∀ g, g ∈ oj_starting (cf_jobs c) → rq_socket (sg_request g) ≠ socket
  | Resumes t _ => turn_ok c t
  | Closes socket _ => socket ∉ cf_gone c
  | Prints ref _ _ | Exits ref _ => ∃ id, map_get id (oj_jobs (cf_jobs c)) = Some ref
  | _ => True
  end.

(** The configurations of runs, with the effects so far. *)
Inductive reach : Config → list JobEffect → Prop :=
| reach_new : reach {| cf_jobs := new_Jobs; cf_gone := ∅; cf_drawn := [] |} []
| reach_step c effects ev : reach c effects → lawful c ev → reach (after ev c) (effects ++ snd (perform ev (cf_jobs c))).

(** ** The wiring in every run *)

Abbreviation wired_at c := (wired client_of (cf_gone c) (cf_drawn c) (cf_jobs c)).

Lemma start_wired c allowed t socket params :
  wired_at c → lawful c (Starts allowed t socket params) → wired_at (after (Starts allowed t socket params) c).
Proof.
  intros W ((Hu & _ & Ho) & Hg & Hst). cbn. unfold jobMethod. destruct allowed; cbn [negb]; [|by apply wired_drawn].
  unfold start, owns. case_bool_decide as Hs; [by apply wired_drawn|]. apply eq_None_not_Some in Hs.
  destruct (field "attach" params) as [[]|] eqn:Ea;
    try (apply wired_drawn; by apply reattach_wired);
    (destruct (request_of _ _ _) as [r|] eqn:Er; [|by apply wired_drawn]);
    (assert (rq_client r = client_of (rq_socket r) ∧ rq_socket r = socket) as [Hc <-]
      by (revert Er; unfold request_of; cases; intros [= <-]; done));
    (destruct (refusal _ _ _); [by apply wired_drawn|]);
    (destruct (entry _ _ _) as [[[cli|why]|]|];
      [pose proof (launch_wired _ _ _ t r (Runs cli) _ W Hc Hs (Ho _) Hu Hst) as H; by destruct (launch _ _ _ _)
      |by apply launch_wired|by apply start_missing_wired|by apply wired_drawn]).
Qed.

Lemma resume_wired c t i : wired_at c → lawful c (Resumes t i) → wired_at (after (Resumes t i) c).
Proof.
  intros W (Hu & _ & Ho). cbn. unfold resume. destruct (oj_starting _ !! i) as [g|] eqn:Eg; [|by apply wired_drawn].
  destruct (List.find _ _) as [[p outcome]|]; [|by apply wired_drawn].
  destruct (w_starting _ _ _ _ W g) as [Hc Hs]; [by eapply list_elem_of_lookup_2|].
  pose proof (delete_Permutation _ _ _ Eg) as Hp.
  assert (wired client_of (cf_gone c) (cf_drawn c) (set_installs (cf_jobs c) (oj_installs (cf_jobs c)) (oj_settled (cf_jobs c))
    (delete i (oj_starting (cf_jobs c))))) as W'.
  { split; try apply W; cbn.
    - intros g' Hg'. apply (w_starting _ _ _ _ W). rewrite Hp. by right.
    - pose proof (w_starts _ _ _ _ W) as Hn. rewrite Hp in Hn. cbn in Hn. by apply NoDup_cons in Hn as []. }
  assert (∀ g', g' ∈ delete i (oj_starting (cf_jobs c)) → rq_socket (sg_request g') ≠ rq_socket (sg_request g)) as Hst.
  { intros g' Hg' E. pose proof (w_starts _ _ _ _ W) as Hn. rewrite Hp in Hn. cbn in Hn. apply NoDup_cons in Hn as [Hn _].
    apply Hn. apply list_elem_of_In, in_map_iff. exists g'. by rewrite <- list_elem_of_In. }
  destruct (sg_fetch g); [apply after_fetch_wired|apply after_upload_wired]; done || apply Ho.
Qed.

Lemma job_end_change : child_change job_end.
Proof. done. Qed.

Lemma job_child_change reader destroyed drains :
  child_change (fun j => job_child j (jo_ended j) (destroyed j) (reader j) (drains j)).
Proof. done. Qed.

Lemma stop_jobs_wired gone drawn refs s :
  wired client_of gone drawn s → wired client_of gone drawn (fst (stop_jobs refs s)).
Proof.
  revert s. induction refs as [|ref refs IH]; intros s W; [done|]. cbn [stop_jobs stop_job].
  pose proof (IH _ (wired_child _ _ _ _ ref s job_end_change W)) as H. by destruct (stop_jobs refs _).
Qed.

Lemma on_stdout_wired gone drawn ref chunk buffered s :
  wired client_of gone drawn s → wired client_of gone drawn (fst (on_stdout ref chunk buffered s)).
Proof.
  intros W. unfold on_stdout. destruct (oj_heap s !! ref) as [j|]; [|done]. destruct (push chunk (jo_reader j)) as [rest frames].
  pose proof (wired_child client_of gone drawn (fun j => job_child j (jo_ended j) (jo_destroyed j) rest (jo_drains j)) ref s
    (job_child_change (fun _ => rest) _ _) W) as H.
  destruct frames as [frames|], (jo_socket j); try done. destruct (buffered <=? _); [done|].
  eapply wired_same; [exact H|same|done].
Qed.

Lemma wired_after c ev : wired_at c → lawful c ev → wired_at (after ev c).
Proof.
  destruct ev; try (by apply start_wired); try (by apply resume_wired); intros W Hl; cbn.
  - unfold deliver. destruct (_ ≫= _) as [[ref j]|]; [|done]. destruct (jo_destroyed j); [done|].
    destruct (jobFrame _ _); [|done]. destruct full; [|done]. by apply wired_child.
  - unfold receive. destruct (oj_uploads _ !! _); [|done]. destruct (_ <? _); [done|]. destruct (negb ok); [done|].
    eapply wired_same; [exact W|same|done].
  - by apply disconnected_wired.
  - by apply grace_fires_wired.
  - by apply on_stdout_wired.
  - unfold poll_fires. destruct (List.find _ _) as [[? [? ?]]|]; [|done]. destruct (_ && _); [done|].
    eapply wired_same; [exact W|same|done].
  - unfold on_drain. destruct (oj_heap _ !! ref); [|done]. by apply wired_child.
  - by apply wired_child.
  - destruct Hl as [id Hid]. by eapply on_exit_wired.
  - eapply wired_same; [exact W|apply settle_install_same|apply settle_install_same].
  - unfold install_closes. destruct (List.find _ _) as [[? [? ?]]|]; [|done]. destruct (reply_outcome _ _); [|done].
    eapply wired_same; [exact W|apply settle_install_same|apply settle_install_same].
  - by apply stop_jobs_wired.
  - apply stop_jobs_wired. eapply wired_same; [exact W|same|done].
Qed.

Lemma reach_wired c effects : reach c effects → wired_at c.
Proof. induction 1 as [|c effects ev H IH Hl]; [apply wired_new|by apply wired_after]. Qed.

(** C29: a job that runs is never left alone: it is spliced to a socket that is open, and the socket to it, or its input
    has ended, or a timer is set that will end it. *)
Theorem jobs_tended c effects id ref :
  reach c effects → map_get id (oj_jobs (cf_jobs c)) = Some ref →
  ∃ j, oj_heap (cf_jobs c) !! ref = Some j ∧ jo_id j = id ∧
  ((∃ socket, jo_socket j = Some socket ∧ oj_spliced (cf_jobs c) !! socket = Some ref ∧ socket ∉ cf_gone c) ∨
   jo_ended j = true ∨
   ∃ timer, (timer, ref) ∈ oj_timers (cf_jobs c) ∧
     jo_ended <$> oj_heap (fst (grace_fires timer (cf_jobs c))) !! ref = Some true).
Proof.
  intros W%reach_wired Hid. destruct (w_job _ _ _ _ W _ _ Hid) as (j & Hj & Hi & _ & Ht). exists j. split_and!; [done|done|].
  unfold tended in Ht. destruct (jo_socket j) as [socket|] eqn:Es.
  - left. exists socket. destruct (w_splice _ _ _ _ W _ _ Ht) as (? & _ & _ & _ & _ & ?). done.
  - right. destruct Ht as [|(timer & Hin & Hg)]; [by left|right]. exists timer. split; [done|]. unfold grace_fires.
    destruct (List.find _ _) as [[t r]|] eqn:Ef.
    + apply find_fst in Ef as [-> Hin']. destruct (w_timer _ _ _ _ W _ _ Hin') as (x & Hx & Hgx).
      rewrite (w_once _ _ _ _ W _ _ _ _ timer Hx Hj Hgx Hg). cbn. by rewrite list_lookup_alter_eq, Hj.
    + exfalso. rewrite list_elem_of_In in Hin. apply (find_none _ _ Ef) in Hin. cbn in Hin. by rewrite Nat.eqb_refl in Hin.
Qed.

(** ** Effects *)

(** The effects that pass a message, start a job, store what a client sent, or install it. *)
Definition loud (e : JobEffect) : bool :=
  match e with
  | WriteStdin _ _ | SendFrame _ _ _ _ | SpawnJob _ _ _ | AppendFile _ _ => true
  | SpawnInstall _ _ source => bool_decide (fst source = js "from")
  | _ => false
  end.

Abbreviation quiet effects := (Forall (fun e => loud e = false) effects).

Lemma clear_grace_quiet grace s : quiet (snd (clear_grace grace s)).
Proof. destruct grace; by repeat constructor. Qed.

Lemma attachSocket_quiet ref socket s : quiet (snd (attachSocket ref socket s)).
Proof.
  unfold attachSocket. pose proof (clear_grace_quiet (oj_heap s !! ref ≫= jo_grace) s) as H.
  by destruct (clear_grace _ s).
Qed.

Lemma attach_quiet client socket id s : quiet (snd (attach client socket id s)).
Proof.
  unfold attach. destruct (_ ≫= _) as [[ref j]|]; [|by repeat constructor]. destruct (_ && _); [|by repeat constructor].
  match goal with |- context [attachSocket ?r ?k ?x] => pose proof (attachSocket_quiet r k x) as H; destruct (attachSocket r k x) end.
  apply Forall_app. split; [done|by repeat constructor].
Qed.

Lemma stop_jobs_quiet refs s : quiet (snd (stop_jobs refs s)).
Proof.
  revert s. induction refs as [|ref refs IH]; intros s; [constructor|]. cbn [stop_jobs stop_job].
  specialize (IH (set_job ref job_end s)). destruct (stop_jobs refs _). by repeat constructor.
Qed.

Lemma on_exit_quiet ref code s : quiet (snd (on_exit ref code s)).
Proof.
  unfold on_exit. destruct (oj_heap s !! ref) as [j|]; [|constructor]. pose proof (clear_grace_quiet (jo_grace j) s) as H.
  destruct (clear_grace _ s) as [s1 e1]. destruct (jo_socket j); cbn [snd]; (destruct (existsb _ _));
    repeat (apply Forall_app; split); try done; by repeat constructor.
Qed.

(** What a [start] does beside answering: it starts a job for a client that is admitted in this turn, on its socket, or
    it installs an upload of the connection that arrived whole. *)
Definition spawn_effect (t : Turn) (r : Request) (s s' : Jobs) (e : JobEffect) : Prop :=
  ∃ cli, e = SpawnJob (length (oj_heap s)) cli (rq_kind r) ∧ oj_closed s = false ∧
    tn_admit t (jc_id (rq_client r)) = None ∧
    ∃ j, oj_heap s' !! length (oj_heap s) = Some j ∧ jo_client j = jc_id (rq_client r) ∧ jo_socket j = Some (rq_socket r).

Definition install_effect (r : Request) (s : Jobs) (e : JobEffect) : Prop :=
  ∃ promise u, e = SpawnInstall promise (rq_build r) (js "from", up_dir u) ∧ oj_uploads s !! rq_socket r = Some u ∧
    up_received u = up_size u ∧ op_sha256 o (up_bytes u) = up_sha256 u.

Definition starts_only (t : Turn) (r : Request) (s : Jobs) (p : Jobs * list JobEffect) : Prop :=
  ∀ e, e ∈ snd p → loud e = true → spawn_effect t r s (fst p) e ∨ install_effect r s e.

Definition spawns_only (t : Turn) (r : Request) (s : Jobs) (p : Jobs * list JobEffect) : Prop :=
  ∀ e, e ∈ snd p → loud e = true → spawn_effect t r s (fst p) e.

Lemma quiet_spawns t r s p : quiet (snd p) → spawns_only t r s p.
Proof. rewrite Forall_forall. intros H e He Hl. by rewrite H in Hl. Qed.

Lemma spawns_starts t r s p : spawns_only t r s p → starts_only t r s p.
Proof. intros H e He Hl. left. by apply H. Qed.

Lemma quiet_starts t r s p : quiet (snd p) → starts_only t r s p.
Proof. intros H. by apply spawns_starts, quiet_spawns. Qed.

Lemma launch_effects t r found s : spawns_only t r s (launch t r found s).
Proof.
  unfold launch, refusal. destruct found as [cli|why]; [|apply quiet_spawns; by repeat constructor].
  destruct (oj_closed s) eqn:Ec; [apply quiet_spawns; by repeat constructor|].
  destruct (tn_admit _ _) eqn:Ea; [apply quiet_spawns; by repeat constructor|].
  destruct (negb _); [apply quiet_spawns; by repeat constructor|]. cbn [spawn].
  set (s1 := set_running _ _ _ _). pose proof (attachSocket_quiet (length (oj_heap s)) (rq_socket r) s1) as Hq.
  assert (∃ j, oj_heap (fst (attachSocket (length (oj_heap s)) (rq_socket r) s1)) !! length (oj_heap s) = Some j ∧
    jo_client j = jc_id (rq_client r) ∧ jo_socket j = Some (rq_socket r)) as Hj.
  { unfold attachSocket. cbn. rewrite list_lookup_middle by done. cbn. rewrite list_lookup_alter_eq, list_lookup_middle by done.
    by eexists. }
  destruct (attachSocket _ _ _) as [s2 e2]. intros e [->|[He|He]%elem_of_app]%elem_of_cons Hl.
  - by exists cli.
  - rewrite Forall_forall in Hq. by rewrite Hq in Hl.
  - apply list_elem_of_singleton in He as ->. done.
Qed.

Lemma installed_effects t r s : spawns_only t r s (installed o t r s).
Proof.
  unfold installed. destruct (entry _ _ _) as [[found|]|]; [apply launch_effects| |]; apply quiet_spawns; by repeat constructor.
Qed.

Lemma after_fetch_effects t r failed s : spawns_only t r s (after_fetch o t r failed s).
Proof.
  destruct failed as [f|]; [|apply installed_effects]. cbn. apply quiet_spawns.
  destruct (fa_mismatch f), (tn_accepts t); by repeat constructor.
Qed.

Lemma after_upload_effects t r failed s : spawns_only t r s (after_upload o t r failed s).
Proof. destruct failed as [f|]; [|apply installed_effects]. apply quiet_spawns; by repeat constructor. Qed.

Lemma take_upload_effects t r id s : starts_only t r s (take_upload o r id s).
Proof.
  unfold take_upload. destruct (oj_uploads s !! rq_socket r) as [u|] eqn:Eu; [|apply quiet_starts; by repeat constructor].
  destruct (negb (bool_decide _)); [apply quiet_starts; by repeat constructor|].
  destruct (_ || _) eqn:E; [apply quiet_starts; by repeat constructor|]. cbn [install fresh fst snd].
  apply orb_false_iff in E as [E1%negb_false_iff%Z.eqb_eq E2%negb_false_iff%bool_decide_eq_true].
  intros e [->|He%list_elem_of_singleton]%elem_of_cons Hl; [done|]. subst e. right. by exists (oj_next s), u.
Qed.

Lemma start_fetch_effects t r wait s : starts_only t r s (start_fetch o t r wait s).
Proof.
  unfold start_fetch. destruct (_ ≫= _) as [failure|]; [apply spawns_starts, after_fetch_effects|]. apply quiet_starts. unfold fetch.
  destruct (map_get _ (oj_fetches s)); cbn; destruct wait; by repeat constructor.
Qed.

Lemma prepareUpload_quiet t socket value s : quiet (snd (prepareUpload o t socket value s)).
Proof.
  unfold prepareUpload. destruct (negb _); [by repeat constructor|]. destruct (package_of value) as [[[? ?] ?]|]; [|by repeat constructor].
  destruct (negb (tn_disk t)), (oj_uploads s !! socket); by repeat constructor.
Qed.

Lemma start_missing_effects t r params s : starts_only t r s (start_missing o t r params s).
Proof.
  unfold start_missing. destruct (field "upload" params) as [[]|], (field "package" params);
    try apply take_upload_effects; try (apply quiet_starts, prepareUpload_quiet);
    (destruct (is_yes _); [apply quiet_starts; destruct (tn_accepts t); by repeat constructor|apply start_fetch_effects]).
Qed.

Lemma jobMethod_effects allowed t socket params s e :
  e ∈ snd (jobMethod o allowed t (client_of socket) socket params s) → loud e = true →
  ∃ r, request_of (client_of socket) socket params = Some r ∧ rq_client r = client_of socket ∧ rq_socket r = socket ∧
    (spawn_effect t r s (fst (jobMethod o allowed t (client_of socket) socket params s)) e ∨ install_effect r s e).
Proof.
  assert (∀ p : Jobs * list JobEffect, quiet (snd p) → e ∈ snd p → loud e = true → False) as Hq.
  { intros p. rewrite Forall_forall. intros H He. by rewrite H. }
  unfold jobMethod. destruct (negb allowed); [intros ? ?; exfalso; eapply Hq; try done; by repeat constructor|].
  unfold start. destruct (owns socket s); [intros ? ?; exfalso; eapply Hq; try done; by repeat constructor|].
  assert (∀ p : Jobs * list JobEffect, (∃ id, p = attach (client_of socket) socket id s) → e ∈ snd p → loud e = true → False) as Ha.
  { intros p [id ->]. apply Hq, attach_quiet. }
  destruct (field "attach" params) as [[]|];
    try (intros ? ?; exfalso; eapply Ha; eauto; done);
    (destruct (request_of (client_of socket) socket params) as [r|] eqn:Er;
      [|intros ? ?; exfalso; eapply Hq; try done; by repeat constructor]);
    (assert (rq_client r = client_of socket ∧ rq_socket r = socket) as [Hc Hs]
      by (revert Er; unfold request_of; cases; intros [= <-]; done));
    (destruct (refusal _ _ _); [intros ? ?; exfalso; eapply Hq; try done; by repeat constructor|]);
    (destruct (entry _ _ _) as [[[cli|why]|]|];
      [pose proof (launch_effects t r (Runs cli) s) as H; destruct (launch _ _ _ _);
         intros [->|He]%elem_of_cons Hl; [done|exists r; split_and!; [done|done|done|left; by apply H]]
      |intros He Hl; exists r; split_and!; [done|done|done|left; by apply launch_effects]
      |intros He Hl; exists r; split_and!; [done|done|done|by apply start_missing_effects]
      |intros ? ?; exfalso; eapply Hq; try done; by repeat constructor]).
Qed.

Lemma resume_effects t i s e :
  e ∈ snd (resume o t i s) → loud e = true →
  ∃ g, g ∈ oj_starting s ∧ spawn_effect t (sg_request g) s (fst (resume o t i s)) e.
Proof.
  unfold resume. destruct (oj_starting s !! i) as [g|] eqn:Eg; [|by intros ?%elem_of_nil].
  destruct (List.find _ _) as [[p outcome]|]; [|by intros ?%elem_of_nil]. intros He Hl. exists g.
  split; [by eapply list_elem_of_lookup_2|].
  destruct (sg_fetch g); [exact (after_fetch_effects _ _ _ _ e He Hl)|exact (after_upload_effects _ _ _ _ e He Hl)].
Qed.

(** The other events write to a job only what its socket sent, send only what a job printed, and store only frames that
    fit their upload. *)
Lemma other_effects ev s e :
  e ∈ snd (perform ev s) → loud e = true →
  match ev with
  | Starts _ _ _ _ | Resumes _ _ => True
  | Sends socket data binary _ =>
      ∃ ref j frame, e = WriteStdin ref frame ∧ oj_spliced s !! socket = Some ref ∧ oj_heap s !! ref = Some j ∧
        jobFrame data binary = Ok frame
  | Uploads socket frame _ =>
      ∃ u, e = AppendFile (file_of u) frame ∧ oj_uploads s !! socket = Some u ∧
        up_received u + Z.of_nat (length frame) <= up_size u
  | Prints ref _ _ =>
      ∃ j socket data binary, e = SendFrame socket ref data binary ∧ oj_heap s !! ref = Some j ∧ jo_socket j = Some socket
  | _ => False
  end.
Proof.
  assert (∀ l : list JobEffect, quiet l → e ∈ l → loud e = true → False) as Hq.
  { intros l. rewrite Forall_forall. intros H He. by rewrite H. }
  destruct ev; cbn [perform]; try done.
  - unfold deliver. destruct (oj_spliced s !! socket) as [ref|] eqn:Es; cbn; [|by intros ?%elem_of_nil].
    destruct (oj_heap s !! ref) as [j|] eqn:Ej; cbn; [|by intros ?%elem_of_nil]. destruct (jo_destroyed j); [by intros ?%elem_of_nil|].
    destruct (jobFrame data binary) as [frame|] eqn:Ef; [|by intros ?%elem_of_nil].
    destruct full; cbn; rewrite ?elem_of_cons, elem_of_nil; intros He Hl; exists ref, j, frame; naive_solver.
  - unfold receive. destruct (oj_uploads s !! socket) as [u|] eqn:Eu; [|by intros ?%elem_of_nil].
    destruct (_ <? _) eqn:E; [by intros ?%elem_of_nil|]. destruct (negb ok); [by intros ?%elem_of_nil|].
    cbn. intros ->%list_elem_of_singleton _. exists u. split_and!; [done|done|lia].
  - apply Hq. unfold disconnected. cbn. destruct (oj_spliced s !! socket); [destruct (_ || _)|];
      destruct (oj_uploads s !! socket); by repeat constructor.
  - apply Hq. unfold grace_fires. destruct (List.find _ _) as [[]|]; by repeat constructor.
  - unfold on_stdout. destruct (oj_heap s !! ref) as [j|] eqn:Ej; [|by intros ?%elem_of_nil].
    destruct (push chunk (jo_reader j)) as [rest [frames|]], (jo_socket j) as [socket|] eqn:Es; cbn [snd];
      try (by intros ?%elem_of_nil); try (by intros ->%list_elem_of_singleton).
    assert (e ∈ map (fun '(data, binary) => SendFrame socket ref data binary) frames →
      ∃ j' socket' data binary, e = SendFrame socket' ref data binary ∧ Some j = Some j' ∧ jo_socket j' = Some socket') as Hm.
    { intros He. apply list_elem_of_In, in_map_iff in He as ([data binary] & <- & _). by exists j, socket, data, binary. }
    destruct (buffered <=? _); cbn [snd fresh]; [by intros He _; apply Hm|]. intros [He|He]%elem_of_app Hl; [by apply Hm|]. by apply list_elem_of_singleton in He as ->.
  - apply Hq. unfold poll_fires. destruct (List.find _ _) as [[? [? ?]]|]; [|constructor]. destruct (_ && _); by repeat constructor.
  - apply Hq. unfold on_drain. destruct (oj_heap s !! ref) as [j|]; [|constructor]. apply Forall_forall.
    intros e' He. by apply list_elem_of_In, in_map_iff in He as (? & <- & _).
  - by intros ?%elem_of_nil.
  - apply Hq, on_exit_quiet.
  - apply Hq. unfold install_errors, settle_install. destruct (List.find _ _) as [[? [? []]]|]; by repeat constructor.
  - apply Hq. unfold install_closes, settle_install. destruct (List.find _ _) as [[? [? []]]|]; [..|constructor];
      destruct (reply_outcome _ _); by repeat constructor.
  - apply Hq, stop_jobs_quiet.
  - apply Hq, stop_jobs_quiet.
Qed.

(** C8: whatever clients and jobs do, a job is written only what the client it was started for sent on its own connection, frame for
    frame; what it prints goes only to an open connection of that client; and it is started only for the client
    of the connection it is spliced to, admitted in the turn that starts it, while the server is not stopping. *)
Theorem jobs_confined c effects ev :
  reach c effects → lawful c ev →
  let s := cf_jobs c in
  let s' := fst (perform ev s) in
  (∀ ref frame, WriteStdin ref frame ∈ snd (perform ev s) →
     ∃ socket data binary full j, ev = Sends socket data binary full ∧ jobFrame data binary = Ok frame ∧
       oj_heap s !! ref = Some j ∧ jo_client j = jc_id (client_of socket)) ∧
  (∀ socket ref data binary, SendFrame socket ref data binary ∈ snd (perform ev s) →
     ∃ j, oj_heap s !! ref = Some j ∧ jo_client j = jc_id (client_of socket) ∧ socket ∉ cf_gone c) ∧
  (∀ ref cli kind, SpawnJob ref cli kind ∈ snd (perform ev s) →
     ∃ t socket j, turn_of ev = Some t ∧ oj_heap s' !! ref = Some j ∧ jo_socket j = Some socket ∧
       jo_client j = jc_id (client_of socket) ∧ tn_admit t (jo_client j) = None ∧ oj_closed s = false).
Proof.
  intros W%reach_wired Hl. cbv zeta.
  assert (∀ e, e ∈ snd (perform ev (cf_jobs c)) → loud e = true → ∀ t, turn_of ev = Some t → ∃ r,
    rq_client r = client_of (rq_socket r) ∧ (spawn_effect t r (cf_jobs c) (fst (perform ev (cf_jobs c))) e ∨ install_effect r (cf_jobs c) e)) as Hstart.
  { intros e He Hloud t Ht. destruct ev; cbn in Ht; try done; injection Ht as ->.
    - apply jobMethod_effects in He as (r & _ & Hc & Hs & H); [|done]. exists r. by rewrite Hs.
    - apply resume_effects in He as (g & Hg & H); [|done]. exists (sg_request g). split; [|by left]. by apply (w_starting _ _ _ _ W). }
  split_and!.
  - intros ref frame He. pose proof (other_effects ev _ _ He eq_refl) as Ho. destruct ev; try done;
      try (destruct (Hstart _ He eq_refl _ eq_refl) as (r & _ & [(? & ? & _)|(? & ? & ? & _)]); done); try naive_solver.
    destruct Ho as (r & j & f & [= -> ->] & Hs & Hj & Hf).
    destruct (w_splice _ _ _ _ W _ _ Hs) as (j' & ? & _ & _ & ? & _). exists socket, data, binary, full, j'. done.
  - intros socket ref data binary He. pose proof (other_effects ev _ _ He eq_refl) as Ho. destruct ev; try done;
      try (destruct (Hstart _ He eq_refl _ eq_refl) as (r & _ & [(? & ? & _)|(? & ? & ? & _)]); done); try naive_solver.
    destruct Ho as (j & sock & d & b & [= -> -> -> ->] & Hj & Hs). exists j. destruct Hl as [id Hid].
    destruct (w_job _ _ _ _ W _ _ Hid) as (j' & Hj' & _ & _ & Ht). replace j' with j in Ht by congruence.
    unfold tended in Ht. rewrite Hs in Ht. destruct (w_splice _ _ _ _ W _ _ Ht) as (j2 & ? & _ & _ & ? & ?). naive_solver congruence.
  - intros ref cli kind He. pose proof (other_effects ev _ _ He eq_refl) as Ho.
    destruct (turn_of ev) as [t|] eqn:Et; [|destruct ev; try done; naive_solver].
    destruct (Hstart _ He eq_refl _ eq_refl) as (r & Hc & [(cli' & [= -> -> ->] & Hcl & Had & j & Hj & Hjc & Hjs)|(? & ? & [=] & _)]).
    exists t, (rq_socket r), j. rewrite Hjc, Hc in *. done.
Qed.
End Runs.

(** ** A sample run *)

Module SampleJobs.
Definition text : NodeText :=
  {| buffer_toString := fun _ => []; JSON_parse := fun _ => None; JSON_stringify := fun _ => [];
     JSON_stringify_2 := fun _ => [] |}.

(** The digest of the sample is its length. *)
Definition options : OffloadJobsOptions :=
  {| op_detachGraceMs := 120000; op_machine := js "mini"; op_own := js "0123456789ab"; op_stimCli := js "/stim/dist/cli.mjs";
     op_pid := js "7"; op_versions := js "24.1.0"; op_node := (24, 1, 0);
     op_sha256 := fun b => if (length b =? 3)%nat then repeat 51 64 else [] |}.

Definition clients (socket : nat) : JobClient := {| jc_id := js "client"; jc_name := js "laptop" |}.

Definition uuid (n : Z) : units := repeat n 36.

Definition turn (id : Z) (manifest : units → option json) : Turn :=
  {| tn_now := 0; tn_admit := fun _ => None; tn_manifest := manifest; tn_accepts := true; tn_open := fun _ => true;
     tn_uuid := uuid id; tn_root := js "/engine"; tn_disk := true |}.

Definition params (build : string) (more : list (units * json)) : json :=
  JObject ([(js "kind", JString (js "offload-build")); (js "stim", JString (js "1.2.3")); (js "build", JString (js build));
            (js "repo", JString (js "app"))] ++ more).

Definition new : Config := {| cf_jobs := new_Jobs; cf_gone := ∅; cf_drawn := [] |}.
Definition begin : JobEvent := Starts true (turn 97 (fun _ => None)) 1 (params "0123456789ab" []).
Definition started : Config := after (Htext := text) options clients begin new.

Lemma started_reach :
  reach (Htext := text) options clients started (snd (perform (Htext := text) options clients begin new_Jobs)).
Proof.
  refine (reach_step (Htext := text) options clients new [] begin (reach_new (Htext := text) options clients) _).
  split_and!; [split_and!; [apply not_elem_of_nil|done|set_solver]|set_solver|by intros g ?%elem_of_nil].
Qed.

Definition hello : JobEvent := Sends 1 [Byte.x68; Byte.x69] false true.

Lemma jobs_confined_witness :
  ∃ ref frame j, WriteStdin ref frame ∈ snd (perform (Htext := text) options clients hello (cf_jobs started)) ∧
    oj_heap (cf_jobs started) !! ref = Some j ∧ jo_client j = js "client".
Proof.
  destruct (jobFrame [Byte.x68; Byte.x69] false) as [frame|] eqn:Ef; [|by vm_compute in Ef].
  assert (WriteStdin 0 frame ∈ snd (perform (Htext := text) options clients hello (cf_jobs started))) as Hin.
  { vm_compute in Ef. injection Ef as <-. vm_compute. left. }
  destruct (jobs_confined (Htext := text) options clients started _ hello started_reach I) as (H & _ & _).
  destruct (H _ _ Hin) as (socket & data & binary & full & j & [= <- _ _ _] & _ & Hj & Hc). by exists 0%nat, frame, j.
Defined.

Lemma jobs_tended_witness :
  ∃ j, oj_heap (cf_jobs started) !! 0%nat = Some j ∧ jo_id j = uuid 97 ∧
  ((∃ socket, jo_socket j = Some socket ∧ oj_spliced (cf_jobs started) !! socket = Some 0%nat ∧ socket ∉ cf_gone started) ∨
   jo_ended j = true ∨
   ∃ timer, (timer, 0%nat) ∈ oj_timers (cf_jobs started) ∧
     jo_ended <$> oj_heap (fst (grace_fires timer (cf_jobs started))) !! 0%nat = Some true).
Proof.
  apply (jobs_tended (Htext := text) options clients started _ (uuid 97) 0 started_reach). vm_compute. reflexivity.
Defined.
End SampleJobs.
