(* ===== verification/OffloadJobsUploads.v ===== *)
(** * Uploads and answers of offload jobs

    In every run, the file of an upload holds what its connection sent since it announced it, an upload is installed only
    with the size and digest that were announced, and a [job.start] is answered once. *)

From Stdlib Require Import ZArith Lia.
From S2P Require Import Prelude.
From S2P Require Import Bytes.
From S2P Require Import Json.
From S2P Require Import KeyedDelta.
From S2P Require Import KeyedDeltaFacts.
From S2P Require Import Noise.
From S2P Require Import NoiseSession.
From S2P Require Import OffloadJobs.
From S2P Require Import OffloadJobsFacts.
From S2P Require Import OffloadJobsRuns.
Open Scope Z_scope.

Section Uploads.
Context {Htext : NodeText} (o : OffloadJobsOptions) (client_of : nat → JobClient).
Abbreviation perform := (perform o client_of).
Abbreviation reach := (reach o client_of).
Abbreviation after := (after o client_of).

(** What was appended to a file. *)
Fixpoint appended (path : units) (effects : list JobEffect) : bytes :=
  match effects with
  | [] => []
  | AppendFile p frame :: effects => (if decide (p = path) then frame else []) ++ appended path effects
  | _ :: effects => appended path effects
  end.

Lemma appended_app path e1 e2 : appended path (e1 ++ e2) = appended path e1 ++ appended path e2.
Proof. induction e1 as [|[] e1 IH]; cbn; rewrite ?IH, ?app_assoc; done. Qed.

Lemma appended_none path effects : (∀ frame, AppendFile path frame ∉ effects) → appended path effects = [].
Proof.
  induction effects as [|e effects IH]; [done|]. intros H.
  assert (appended path effects = []) as IH' by (apply IH; intros f Hf; apply (H f); by right).
  destruct e; cbn; rewrite ?IH'; try done. case_decide; [subst|done]. destruct (H frame). left.
Qed.

(** ** The paths of uploads *)

Definition upload_dir (root id : units) : units := root ++ js "/.tmp-" ++ op_pid o ++ js "-upload-" ++ id.

(** An upload whose directory carries its id. *)
Definition placed (u : Upload) : Prop :=
  (∃ root, up_dir u = upload_dir root (up_id u)) ∧ length (up_id u) = 36%nat ∧ is_package_name (up_name u) = true.

Lemma no_slash name : is_package_name name = true → 47 ∉ name.
Proof.
  unfold is_package_name. intros H Hin. apply andb_true_iff in H as [[[He _]%andb_true_iff _]%andb_true_iff Hf].
  rewrite <- (take_drop (length name - 4) name) in Hin. apply elem_of_app in Hin as [Hin|Hin].
  - rewrite forallb_forall in Hf. apply list_elem_of_In, Hf in Hin. done.
  - assert (∀ s, ends_with (js ".tgz") s = true → drop (length s - 4) s = js ".tgz") as Hd.
    { induction s as [|u s IH]; cbn [ends_with]; [by rewrite bool_decide_false|]. intros [E%bool_decide_eq_true|E]%orb_true_iff; [by rewrite E|].
      specialize (IH E). assert (4 <= length s)%nat as Hlen.
      { pose proof (f_equal length IH) as H. rewrite length_drop in H. cbn in H. lia. }
      cbn [length]. replace (S (length s) - 4)%nat with (S (length s - 4)) by lia. done. }
    rewrite Hd, list_elem_of_In in Hin by done. revert Hin. vm_compute. by intros [?|[?|[?|[?|[]]]]].
Qed.

Lemma split_last (a a' b b' : units) : 47 ∉ b → 47 ∉ b' → a ++ 47 :: b = a' ++ 47 :: b' → a = a'.
Proof.
  intros Hb Hb' H. apply (f_equal reverse) in H. rewrite !reverse_app, !reverse_cons, <- !app_assoc in H. cbn in H.
  rewrite <- elem_of_reverse in Hb, Hb'. revert H Hb Hb'. generalize (reverse b) (reverse b'). clear.
  induction l as [|x l IH]; intros [|y l'] H Hb Hb'; cbn in *; simplify_eq.
  - by apply (inj reverse).
  - destruct Hb'. left.
  - destruct Hb. left.
  - apply (IH l'); [done|..]; set_solver.
Qed.

Lemma placed_id u u' : placed u → placed u' → file_of u = file_of u' → up_id u = up_id u'.
Proof.
  intros ([root Hr] & Hl & Hn%no_slash) ([root' Hr'] & Hl' & Hn'%no_slash) H. unfold file_of in H.
  apply split_last in H; [|done..]. rewrite Hr, Hr' in H. unfold upload_dir in H.
  rewrite !(app_assoc _ _ (up_id _)), !app_assoc in H. apply app_inj_2 in H as [_ ?]; [done|congruence].
Qed.

(** ** How uploads change *)

(** The upload that [prepareUpload] sets up. *)
Definition fresh_upload (t : Turn) (u : Upload) : Prop :=
  up_id u = tn_uuid t ∧ up_dir u = upload_dir (tn_root t) (tn_uuid t) ∧ is_package_name (up_name u) = true ∧
  0 < up_size u <= MAX_PACKAGE_BYTES ∧ up_received u = 0 ∧ up_bytes u = [].

Definition uploads_step (t : Turn) (socket : nat) (s s' : Jobs) : Prop :=
  ∀ k u, oj_uploads s' !! k = Some u → oj_uploads s !! k = Some u ∨ (k = socket ∧ fresh_upload t u).

Lemma same_uploads t socket s s' : oj_uploads s' = oj_uploads s → uploads_step t socket s s'.
Proof. intros E k u. rewrite E. by left. Qed.

Lemma fewer_uploads t socket k s s' : oj_uploads s' = delete k (oj_uploads s) → uploads_step t socket s s'.
Proof. intros E k' u. rewrite E. intros [_ H]%lookup_delete_Some. by left. Qed.

Lemma clear_grace_uploads grace s : oj_uploads (fst (clear_grace grace s)) = oj_uploads s.
Proof. by destruct grace. Qed.

Lemma attachSocket_uploads ref socket s : oj_uploads (fst (attachSocket ref socket s)) = oj_uploads s.
Proof.
  unfold attachSocket. pose proof (clear_grace_uploads (oj_heap s !! ref ≫= jo_grace) s) as H. by destruct (clear_grace _ s).
Qed.

Lemma attach_uploads client socket id s : oj_uploads (fst (attach client socket id s)) = oj_uploads s.
Proof.
  unfold attach. destruct (_ ≫= _) as [[ref j]|]; [|done]. destruct (_ && _); [|done].
  match goal with |- context [attachSocket ?r ?k ?x] => pose proof (attachSocket_uploads r k x) as H; destruct (attachSocket r k x) end.
  cbn in *. rewrite H. by destruct (jo_socket j).
Qed.

Lemma launch_uploads t r found s : oj_uploads (fst (launch t r found s)) = oj_uploads s.
Proof.
  unfold launch. destruct found; [|done]. destruct (refusal _ _ _); [done|]. destruct (negb _); [done|]. cbn [spawn].
  match goal with |- context [attachSocket ?r ?k ?x] => pose proof (attachSocket_uploads r k x) as H; destruct (attachSocket r k x) end.
  done.
Qed.

Lemma installed_uploads t r s : oj_uploads (fst (installed o t r s)) = oj_uploads s.
Proof. unfold installed. destruct (entry _ _ _) as [[found|]|]; [apply launch_uploads|done|done]. Qed.

Lemma after_fetch_uploads t r failed s : oj_uploads (fst (after_fetch o t r failed s)) = oj_uploads s.
Proof. destruct failed as [f|]; [|apply installed_uploads]. cbn. by destruct (fa_mismatch f), (tn_accepts t). Qed.

Lemma after_upload_uploads t r failed s : oj_uploads (fst (after_upload o t r failed s)) = oj_uploads s.
Proof. destruct failed; [done|apply installed_uploads]. Qed.

Lemma start_fetch_uploads t r wait s : oj_uploads (fst (start_fetch o t r wait s)) = oj_uploads s.
Proof.
  unfold start_fetch. destruct (_ ≫= _); [apply after_fetch_uploads|]. unfold fetch.
  destruct (map_get _ (oj_fetches s)); cbn; by destruct wait.
Qed.

Lemma take_upload_uploads t r id s : uploads_step t (rq_socket r) s (fst (take_upload o r id s)).
Proof.
  unfold take_upload. destruct (oj_uploads s !! rq_socket r); [|by apply same_uploads].
  destruct (negb _); [by apply same_uploads|]. by destruct (_ || _); eapply fewer_uploads.
Qed.

Lemma prepareUpload_uploads t socket value s : uploads_step t socket s (fst (prepareUpload o t socket value s)).
Proof.
  unfold prepareUpload. destruct (negb _); [by apply same_uploads|].
  destruct (package_of value) as [[[name size] digest]|] eqn:Ep; [|by apply same_uploads].
  destruct (negb (tn_disk t)); [by apply same_uploads|]. intros k u. cbn. intros [[<- <-]|[_ ?]]%lookup_insert_Some; [right|by left].
  revert Ep. unfold package_of. destruct (field "name" value) as [[]|], (field "size" value) as [[]|], (field "sha256" value) as [[]|]; try done.
  destruct (_ && _) eqn:E; [|done]. intros [= <- <- <-]. apply andb_true_iff in E as [[[E1 E2]%andb_true_iff E3]%andb_true_iff _].
  split; [done|]. unfold fresh_upload. cbn. split_and!; try done; lia.
Qed.

Lemma start_uploads allowed t client socket params s :
  uploads_step t socket s (fst (jobMethod o allowed t client socket params s)).
Proof.
  unfold jobMethod. destruct (negb allowed); [by apply same_uploads|]. unfold start. destruct (owns socket s); [by apply same_uploads|].
  assert (∀ r, request_of client socket params = Some r → uploads_step t socket s (fst (start_missing o t r params s))) as Hm.
  { intros r Er. assert (rq_socket r = socket) as <- by (revert Er; unfold request_of; cases; intros [= <-]; done).
    unfold start_missing. destruct (field "upload" params) as [[]|], (field "package" params);
      try apply take_upload_uploads; try apply prepareUpload_uploads;
      (destruct (is_yes _); [apply same_uploads; by destruct (tn_accepts t)|apply same_uploads, start_fetch_uploads]). }
  destruct (field "attach" params) as [[]|]; try (apply same_uploads, attach_uploads);
    (destruct (request_of client socket params) as [r|]; [|by apply same_uploads]);
    (destruct (refusal _ _ _); [by apply same_uploads|]);
    (destruct (entry _ _ _) as [[[cli|why]|]|];
      [pose proof (launch_uploads t r (Runs cli) s); destruct (launch _ _ _ _); by apply same_uploads
      |by apply same_uploads|by apply Hm|by apply same_uploads]).
Qed.

Lemma stop_jobs_uploads refs s : oj_uploads (fst (stop_jobs refs s)) = oj_uploads s.
Proof.
  revert s. induction refs as [|ref refs IH]; intros s; [done|]. cbn [stop_jobs stop_job].
  specialize (IH (set_job ref job_end s)). by destruct (stop_jobs refs _).
Qed.

(** Beside frames, only a [start] adds an upload, to its own connection. *)
Lemma perform_uploads ev s k u :
  oj_uploads (fst (perform ev s)) !! k = Some u →
  oj_uploads s !! k = Some u ∨
  (∃ allowed t params, ev = Starts allowed t k params ∧ fresh_upload t u) ∨
  (∃ frame u0, ev = Uploads k frame true ∧ snd (perform ev s) = [AppendFile (file_of u0) frame] ∧
     oj_uploads s !! k = Some u0 ∧ up_received u0 + Z.of_nat (length frame) <= up_size u0 ∧
     u = {| up_id := up_id u0; up_dir := up_dir u0; up_name := up_name u0; up_size := up_size u0; up_sha256 := up_sha256 u0;
            up_received := up_received u0 + Z.of_nat (length frame); up_bytes := up_bytes u0 ++ frame |}).
Proof.
  destruct ev; cbn [OffloadJobsRuns.perform].
  - intros [H|[-> H]]%start_uploads; [by left|]. right. left. eauto.
  - unfold resume. destruct (oj_starting s !! i); [|by left]. destruct (List.find _ _) as [[]|]; [|by left].
    destruct (sg_fetch _); [rewrite after_fetch_uploads|rewrite after_upload_uploads]; by left.
  - unfold deliver. destruct (_ ≫= _) as [[ref j]|]; [|by left]. destruct (jo_destroyed j); [by left|].
    destruct (jobFrame _ _); [|by left]. destruct full; by left.
  - unfold receive. destruct (oj_uploads s !! socket) as [u0|] eqn:Eu; [|by left]. destruct (_ <? _) eqn:E; [by left|].
    destruct ok; [|by left]. cbn. intros [[<- <-]|[_ ?]]%lookup_insert_Some; [|by left]. right. right.
    exists frame, u0. split_and!; try done. lia.
  - unfold disconnected. cbn. destruct (oj_spliced s !! socket); [destruct (_ || _)|];
      cbn; intros [_ ?]%lookup_delete_Some; by left.
  - unfold grace_fires. destruct (List.find _ _) as [[]|]; by left.
  - unfold on_stdout. destruct (oj_heap s !! ref) as [j|]; [|by left].
    destruct (push chunk (jo_reader j)) as [rest [frames|]], (jo_socket j); try (by left). destruct (buffered <=? _); by left.
  - unfold poll_fires. destruct (List.find _ _) as [[? [? ?]]|]; [|by left]. destruct (_ && _); by left.
  - unfold on_drain. destruct (oj_heap s !! ref); by left.
  - by left.
  - unfold on_exit. destruct (oj_heap s !! ref) as [j|]; [|by left]. pose proof (clear_grace_uploads (jo_grace j) s) as Hc.
    destruct (clear_grace _ s) as [s1 e1]. cbn in Hc. destruct (jo_socket j); cbn; rewrite Hc; by left.
  - unfold install_errors, settle_install. destruct (List.find _ _) as [[? [? []]]|]; by left.
  - unfold install_closes, settle_install. destruct (List.find _ _) as [[? [? []]]|]; [..|by left];
      destruct (reply_outcome _ _); by left.
  - unfold stop. rewrite stop_jobs_uploads. by left.
  - unfold close, stop. rewrite stop_jobs_uploads. by left.
Qed.

(** ** Uploads in every run *)

Definition upload_ok (drawn : list units) (effects : list JobEffect) (u : Upload) : Prop :=
  placed u ∧ up_id u ∈ drawn ∧ 0 < up_size u <= MAX_PACKAGE_BYTES ∧
  up_received u = Z.of_nat (length (up_bytes u)) ∧ up_received u <= up_size u ∧ up_bytes u = appended (file_of u) effects.

Record uploads_ok (c : Config) (effects : list JobEffect) : Prop := {
  uk_each k u : oj_uploads (cf_jobs c) !! k = Some u → upload_ok (cf_drawn c) effects u;
  uk_ids k k' u u' : oj_uploads (cf_jobs c) !! k = Some u → oj_uploads (cf_jobs c) !! k' = Some u' → up_id u = up_id u' → k = k';
  uk_files path frame : AppendFile path frame ∈ effects → ∃ u, placed u ∧ path = file_of u ∧ up_id u ∈ cf_drawn c;
}.

(** Only a frame of an upload is appended, to its file. *)
Lemma append_event ev s path frame :
  AppendFile path frame ∈ snd (perform ev s) → ∃ k ok u, ev = Uploads k frame ok ∧ oj_uploads s !! k = Some u ∧ path = file_of u.
Proof.
  intros H. pose proof (other_effects o client_of ev s _ H eq_refl) as Ho. destruct ev; try done; try naive_solver.
  - apply jobMethod_effects in H as (r & _ & _ & _ & [(? & ? & _)|(? & ? & ? & _)]); done.
  - apply resume_effects in H as (g & _ & (? & ? & _)); done.
Qed.

Lemma after_drawn c ev : cf_drawn c ⊆ cf_drawn (after ev c).
Proof. cbn. destruct (turn_of ev); [set_solver|done]. Qed.

Lemma upload_kept c effects ev k u :
  uploads_ok c effects → oj_uploads (cf_jobs c) !! k = Some u →
  oj_uploads (fst (perform ev (cf_jobs c))) !! k = Some u → (∀ frame ok, ev ≠ Uploads k frame ok) →
  upload_ok (cf_drawn (after ev c)) (effects ++ snd (perform ev (cf_jobs c))) u.
Proof.
  intros U Hu _ Hev. destruct (uk_each _ _ U _ _ Hu) as (Hp & Hd & ? & ? & ? & Hb).
  split_and!; try apply Hp; try done; try lia; [by apply after_drawn|].
  rewrite appended_app, <- Hb, appended_none; [by rewrite app_nil_r|]. intros frame Ha.
  apply append_event in Ha as (k' & ok & u' & -> & Hu' & Hf). destruct (uk_each _ _ U _ _ Hu') as (Hp' & _).
  apply (Hev frame ok). f_equal. apply (uk_ids _ _ U _ _ _ _ Hu' Hu). symmetry. by apply placed_id.
Qed.

(** A frame is appended to the upload, or nothing happens. *)
Lemma frame_uploads s k frame ok u :
  oj_uploads (fst (perform (Uploads k frame ok) s)) !! k = Some u → snd (perform (Uploads k frame ok) s) ≠ [] →
  ∃ u0, snd (perform (Uploads k frame ok) s) = [AppendFile (file_of u0) frame] ∧ oj_uploads s !! k = Some u0 ∧
    up_received u0 + Z.of_nat (length frame) <= up_size u0 ∧
    u = {| up_id := up_id u0; up_dir := up_dir u0; up_name := up_name u0; up_size := up_size u0; up_sha256 := up_sha256 u0;
           up_received := up_received u0 + Z.of_nat (length frame); up_bytes := up_bytes u0 ++ frame |}.
Proof.
  cbn [OffloadJobsRuns.perform]. unfold receive. destruct (oj_uploads s !! k) as [u0|] eqn:Eu; [|done].
  destruct (_ <? _) eqn:E; [done|]. destruct ok; [|done]. cbn. rewrite lookup_insert_eq. intros [= <-] _.
  exists u0. split_and!; try done. lia.
Qed.

Lemma grown_ok c effects ev k u0 frame :
  uploads_ok c effects → snd (perform ev (cf_jobs c)) = [AppendFile (file_of u0) frame] →
  oj_uploads (cf_jobs c) !! k = Some u0 → up_received u0 + Z.of_nat (length frame) <= up_size u0 →
  upload_ok (cf_drawn (after ev c)) (effects ++ snd (perform ev (cf_jobs c)))
    {| up_id := up_id u0; up_dir := up_dir u0; up_name := up_name u0; up_size := up_size u0; up_sha256 := up_sha256 u0;
       up_received := up_received u0 + Z.of_nat (length frame); up_bytes := up_bytes u0 ++ frame |}.
Proof.
  intros U He H0 Hfit. destruct (uk_each _ _ U _ _ H0) as (Hp & Hd & Hs & Hr & Hle & Hb).
  split_and!; try done; cbn [up_size up_received up_bytes up_id]; try lia.
  - by apply after_drawn.
  - rewrite length_app. lia.
  - rewrite He, appended_app, Hb. cbn. by rewrite decide_True, app_nil_r by done.
Qed.

Lemma uploads_after c effects ev :
  uploads_ok c effects → lawful c ev → uploads_ok (after ev c) (effects ++ snd (perform ev (cf_jobs c))).
Proof.
  intros U Hl. split.
  - intros k u Hu. destruct (perform_uploads _ _ _ _ Hu) as [H|[(allowed & t & params & -> & Hf)|(frame & u0 & -> & He & H0 & Hfit & ->)]].
    + destruct (snd (perform ev (cf_jobs c))) as [|e es] eqn:Ee.
      * destruct (uk_each _ _ U _ _ H) as (? & ? & ?). rewrite app_nil_r. split; [done|]. split; [by apply after_drawn|done].
      * destruct ev; try (rewrite <- Ee; by apply (upload_kept c effects _ k)).
        destruct (decide (socket = k)) as [->|Hne]; [|rewrite <- Ee; apply (upload_kept c effects _ k); [done..|congruence]].
        destruct (frame_uploads (cf_jobs c) k frame ok u Hu) as (u0 & He & H0 & Hfit & ->); [by rewrite Ee|].
        rewrite <- Ee. by apply (grown_ok _ _ _ k).
    + destruct Hf as (Hid & Hdir & Hn & Hs & Hr & Hb). destruct Hl as ((Hnew & Hlen & _) & _).
      assert (placed u) as Hp by (split_and!; [exists (tn_root t); by rewrite Hid|by rewrite Hid|done]).
      split_and!; try done; cbn; try (rewrite ?Hid, ?Hr, ?Hb; cbn; lia || by left).
      rewrite Hb, appended_none; [done|]. intros frame [H|H]%elem_of_app.
      * apply (uk_files _ _ U) in H as (u' & Hp' & Hf & Hd). apply Hnew. by rewrite <- Hid, (placed_id _ _ Hp Hp' Hf).
      * by apply (append_event (Starts allowed t k params)) in H as (? & ? & ? & ? & _).
    + by apply (grown_ok _ _ _ k).
  - assert (∀ k u, oj_uploads (cf_jobs (after ev c)) !! k = Some u →
      (∃ u0, oj_uploads (cf_jobs c) !! k = Some u0 ∧ up_id u = up_id u0) ∨
      ∃ allowed t params, ev = Starts allowed t k params ∧ up_id u = tn_uuid t) as Hold.
    { intros k u Hu. destruct (perform_uploads _ _ _ _ Hu) as [H|[(allowed & t & params & -> & Hf & _)|(frame & u0 & -> & He & H0 & _ & ->)]];
        [left; eauto|right; eauto 6|left; eauto]. }
    intros k k' u u' Hu Hu' E.
    destruct (Hold _ _ Hu) as [(u0 & H0 & Hid)|(a & t & p & Hev & Hid)], (Hold _ _ Hu') as [(u0' & H0' & Hid')|(a' & t' & p' & Hev' & Hid')].
    + apply (uk_ids _ _ U _ _ _ _ H0 H0'). congruence.
    + subst ev. destruct Hl as ((Hnew & _) & _). destruct Hnew. rewrite <- Hid', <- E, Hid. by apply (uk_each _ _ U _ _ H0).
    + subst ev. destruct Hl as ((Hnew & _) & _). destruct Hnew. rewrite <- Hid, E, Hid'. by apply (uk_each _ _ U _ _ H0').
    + congruence.
  - intros path frame [H|H]%elem_of_app.
    + destruct (uk_files _ _ U _ _ H) as (u & ? & ? & ?). exists u. split_and!; try done. by apply after_drawn.
    + apply append_event in H as (k & ok & u & -> & Hu & ->). destruct (uk_each _ _ U _ _ Hu) as (? & ? & _). by exists u.
Qed.

Lemma reach_uploads c effects : reach c effects → uploads_ok c effects.
Proof.
  induction 1 as [|c effects ev H IH Hl]; [|by apply uploads_after]. split; cbn; try done. by intros ? ? ?%elem_of_nil.
Qed.

(** C25: what a client sent is installed only when all of it arrived: the file of the upload that this connection announced then
    holds as many bytes as were announced, at most 256 MiB, whose digest is the announced one, for the build that is
    asked for; and no file of an upload ever holds more than was announced. *)
Theorem uploads_checked c effects ev promise build dir :
  reach c effects → lawful c ev →
  (∀ k u, oj_uploads (cf_jobs c) !! k = Some u →
     Z.of_nat (length (appended (file_of u) effects)) <= up_size u <= MAX_PACKAGE_BYTES) ∧
  (SpawnInstall promise build (js "from", dir) ∈ snd (perform ev (cf_jobs c)) →
   ∃ allowed t socket params u, ev = Starts allowed t socket params ∧ field "build" params = Some (JString build) ∧
     oj_uploads (cf_jobs c) !! socket = Some u ∧ dir = up_dir u ∧
     Z.of_nat (length (appended (file_of u) effects)) = up_size u ∧
     op_sha256 o (appended (file_of u) effects) = up_sha256 u).
Proof.
  intros U%reach_uploads Hl. split.
  { intros k u Hu. destruct (uk_each _ _ U _ _ Hu) as (_ & _ & ? & ? & ? & <-). lia. }
  intros H. pose proof (other_effects o client_of ev _ _ H eq_refl) as Ho. destruct ev; try done; try naive_solver.
  - apply jobMethod_effects in H as (r & Hr & Hc & Hs & [(? & ? & _)|(n & u & [= -> -> ->] & Hu & Hsize & Hdigest)]); [done| |done].
    rewrite Hs in Hu. exists allowed, t, socket, params, u. destruct (uk_each _ _ U _ _ Hu) as (_ & _ & _ & Hlen & _ & Hb).
    rewrite <- Hb. split_and!; try done; [|congruence]. revert Hr. unfold request_of. cases; by intros [= <-].
  - apply resume_effects in H as (g & _ & (? & ? & _)); done.
Qed.
End Uploads.

(** ** A sample run *)

Module SampleUpload.
Import SampleJobs.
#[local] Existing Instance text.
Abbreviation run := (OffloadJobsRuns.after options clients).

Definition package : json :=
  JObject [(js "name", JString (js "stim.tgz")); (js "size", JNumber 3); (js "sha256", JString (repeat 51 64))].
Definition none (_ : units) : option json := None.
Definition announce : JobEvent := Starts true (turn 98 none) 1 (params "ffffffffffff" [(js "package", package)]).
Definition frame : JobEvent := Uploads 1 [Byte.x61; Byte.x62; Byte.x63] true.
Definition complete : JobEvent := Starts true (turn 99 none) 1 (params "ffffffffffff" [(js "upload", JString (uuid 98))]).
Definition uploaded : Config := run frame (run announce new).

Lemma uploaded_reach : ∃ effects, reach options clients uploaded effects.
Proof.
  eexists. eapply reach_step; [eapply reach_step; [constructor|]|done].
  split_and!; [split_and!; [apply not_elem_of_nil|done|set_solver]|set_solver|by intros g ?%elem_of_nil].
Qed.

Lemma uploads_checked_witness :
  ∃ effects u, oj_uploads (cf_jobs uploaded) !! 1%nat = Some u ∧ appended (file_of u) effects ≠ [] ∧
    Z.of_nat (length (appended (file_of u) effects)) = up_size u.
Proof.
  destruct uploaded_reach as [effects Hr]. exists effects.
  assert (lawful uploaded complete) as Hl.
  { split_and!; [split_and!; [|done|]| |by intros g ?%elem_of_nil]; try set_solver. }
  destruct (uploads_checked options clients uploaded effects complete 0 (js "ffffffffffff") (js "/engine/.tmp-7-upload-" ++ uuid 98) Hr Hl)
    as [_ H].
  destruct H as (allowed & t & socket & ps & u & [= <- <- <- <-] & _ & Hu & _ & Hlen & _); [vm_compute; right; left|].
  exists u. split_and!; [done| |done]. intros E. rewrite E in Hlen. vm_compute in Hu. injection Hu as <-. done.
Defined.
End SampleUpload.
