(* ===== verification/OffloadJobsAnswers.v ===== *)
(** * Answers of offload jobs

    In every run a [job.start] is answered once, in its turn or once the install that it awaits has ended, which makes
    every request that awaits it go on; and a build is fetched by one install at a time, however many connections ask
    for it. *)

From Stdlib Require Import ZArith Lia.
From S2P Require Import Prelude.
From S2P Require Import Bytes.
From S2P Require Import Json.
From S2P Require Import KeyedDelta.
From S2P Require Import KeyedDeltaFacts.
From S2P Require Import Noise.
From S2P Require Import NoiseSession.
From S2P Require Import OffloadJobs.
From S2P Require Import OffloadJobsFacts.
From S2P Require Import OffloadJobsRuns.
Open Scope Z_scope.

(** The answers among effects. *)
Definition answers (effects : list JobEffect) : list (nat * JobAnswer) :=
  omap (fun e => match e with Answered socket a => Some (socket, a) | _ => None end) effects.

Lemma answers_app e1 e2 : answers (e1 ++ e2) = answers e1 ++ answers e2.
Proof. apply omap_app. Qed.

(** Neither a wait nor an install changes. *)
Definition same_waits (s s' : Jobs) : Prop :=
  oj_installs s' = oj_installs s ∧ oj_settled s' = oj_settled s ∧ oj_starting s' = oj_starting s ∧
  oj_fetches s' = oj_fetches s ∧ (oj_next s <= oj_next s')%nat.

Ltac waits := unfold same_waits; cbn; split_and!; (done || lia).

Section Answers.
Context {Htext : NodeText} (o : OffloadJobsOptions) (client_of : nat → JobClient).
Abbreviation perform := (perform o client_of).
Abbreviation reach := (reach o client_of).
Abbreviation after := (after o client_of).

(** An operation that answers one request and leaves the others. *)
Definition answers_one (socket : nat) (s : Jobs) (p : Jobs * list JobEffect) : Prop :=
  same_waits s (fst p) ∧ ∃ a, answers (snd p) = [(socket, a)].

(** An operation that answers none. *)
Definition answers_none (s : Jobs) (p : Jobs * list JobEffect) : Prop := same_waits s (fst p) ∧ answers (snd p) = [].

Lemma refused_one socket code message s : answers_one socket s (refused socket code message s).
Proof. split; [waits|by eexists]. Qed.

Lemma clear_grace_none grace s : answers_none s (clear_grace grace s).
Proof. destruct grace; (split; [waits|done]). Qed.

Lemma attachSocket_none ref socket s : answers_none s (attachSocket ref socket s).
Proof.
  unfold attachSocket. destruct (clear_grace_none (oj_heap s !! ref ≫= jo_grace) s) as [H1 H2].
  destruct (clear_grace _ s). split; [exact H1|done].
Qed.

Lemma attach_one client socket id s : answers_one socket s (attach client socket id s).
Proof.
  unfold attach. destruct (_ ≫= _) as [[ref j]|]; [|apply refused_one]. destruct (_ && _); [|apply refused_one].
  match goal with |- context [attachSocket ?r ?k ?x] => destruct (attachSocket_none r k x) as [H1 H2]; destruct (attachSocket r k x) end.
  cbn [fst snd] in *. split; [|eexists; cbn [snd]; by rewrite answers_app, H2]. by destruct (jo_socket j).
Qed.

Lemma launch_one t r found s : answers_one (rq_socket r) s (launch t r found s).
Proof.
  unfold launch. destruct found; [|apply refused_one]. destruct (refusal _ _ _); [apply refused_one|].
  destruct (negb _); [apply refused_one|]. cbn [spawn].
  match goal with |- context [attachSocket ?r ?k ?x] => destruct (attachSocket_none r k x) as [H1 H2]; destruct (attachSocket r k x) end.
  split; [exact H1|]. cbn [snd fst] in *. eexists. by rewrite !answers_app, H2.
Qed.

Lemma installed_one t r s : answers_one (rq_socket r) s (installed o t r s).
Proof.
  unfold installed. destruct (entry _ _ _) as [[found|]|]; [apply launch_one|apply refused_one|]. split; [waits|by eexists].
Qed.

Lemma after_fetch_one t r failed s : answers_one (rq_socket r) s (after_fetch o t r failed s).
Proof.
  destruct failed as [f|]; [|apply installed_one]. cbn. destruct (fa_mismatch f), (tn_accepts t); apply refused_one.
Qed.

Lemma after_upload_one t r failed s : answers_one (rq_socket r) s (after_upload o t r failed s).
Proof. destruct failed as [f|]; [apply refused_one|apply installed_one]. Qed.

Lemma prepareUpload_one t socket value s : answers_one socket s (prepareUpload o t socket value s).
Proof.
  unfold prepareUpload. destruct (negb _); [apply refused_one|]. destruct (package_of value) as [[[name size] digest]|]; [|apply refused_one].
  destruct (negb (tn_disk t)), (oj_uploads s !! socket); (split; [waits|by eexists]).
Qed.

(** ** The installs that requests wait for *)

Record waits_ok (s : Jobs) : Prop := {
  wo_nodup : NoDup (oj_installs s).*1;
  wo_next p : p ∈ (oj_installs s).*1 → (p < oj_next s)%nat;
  wo_keys : NoDup (oj_fetches s).*1;
  wo_fetch build p : map_get build (oj_fetches s) = Some p ↔ (p, (build, ForFetch)) ∈ oj_installs s;
  wo_apart p : p ∈ (oj_settled s).*1 → p ∉ (oj_installs s).*1 ∧ (p < oj_next s)%nat;
  wo_waits g : g ∈ oj_starting s → sg_promise g ∈ (oj_installs s).*1 ∨ sg_promise g ∈ (oj_settled s).*1;
}.

Lemma waits_same s s' : waits_ok s → same_waits s s' → waits_ok s'.
Proof.
  intros W (H1 & H2 & H3 & H4 & H5). split; rewrite ?H1, ?H2, ?H3, ?H4; try apply W; [intros p Hp%W; lia|].
  intros p [? ?]%(wo_apart _ W). split; [done|lia].
Qed.

Lemma await_waits r promise is_fetch s :
  waits_ok s → promise ∈ (oj_installs s).*1 → waits_ok (await r promise is_fetch s).
Proof.
  intros W Hp. split; cbn; try apply W. intros g [H|H]%elem_of_app; [by apply (wo_waits _ W)|].
  apply list_elem_of_singleton in H as ->. by left.
Qed.

(** A new install has a new number. *)
Lemma new_install s n entry :
  waits_ok s → n = oj_next s →
  NoDup (oj_installs s ++ [(n, entry)]).*1 ∧ (∀ p, p ∈ (oj_installs s ++ [(n, entry)]).*1 → (p < S (oj_next s))%nat) ∧
  n ∈ (oj_installs s ++ [(n, entry)]).*1.
Proof.
  intros W ->. rewrite fmap_app. cbn. split_and!.
  - apply NoDup_app. split_and!; [apply W| |apply NoDup_singleton]. intros p Hp%W ->%list_elem_of_singleton. lia.
  - intros p [Hp%W| ->%list_elem_of_singleton]%elem_of_app; lia.
  - apply elem_of_app. right. left.
Qed.

Lemma new_apart s n entry :
  waits_ok s → n = oj_next s → ∀ p, p ∈ (oj_settled s).*1 →
  p ∉ (oj_installs s ++ [(n, entry)]).*1 ∧ (p < S (oj_next s))%nat.
Proof.
  intros W -> p [Hp Hl]%(wo_apart _ W). split; [|lia]. rewrite fmap_app. cbn.
  intros [H| ->%list_elem_of_singleton]%elem_of_app; [done|lia].
Qed.

Lemma upload_install s build source dir :
  waits_ok s →
  let '(promise, s', e) := install build source (ForUpload dir) s in
  waits_ok s' ∧ promise ∈ (oj_installs s').*1 ∧ oj_starting s' = oj_starting s ∧ oj_settled s' = oj_settled s ∧ answers e = [].
Proof.
  intros W. cbn. destruct (new_install s _ (build, ForUpload dir) W eq_refl) as (H1 & H2 & H3). split_and!; try done.
  split; cbn; try done; [apply W| | |].
  - intros b p. rewrite elem_of_app, list_elem_of_singleton, (wo_fetch _ W). naive_solver.
  - by apply new_apart.
  - intros g [H|H]%W; [|by right]. left. rewrite fmap_app. apply elem_of_app. by left.
Qed.

Lemma fetch_install s stim build :
  waits_ok s →
  let '(promise, s', e) := fetch stim build s in
  waits_ok s' ∧ promise ∈ (oj_installs s').*1 ∧ oj_starting s' = oj_starting s ∧ oj_settled s' = oj_settled s ∧ answers e = [].
Proof.
  intros W. unfold fetch. destruct (map_get build (oj_fetches s)) as [p|] eqn:Ef.
  - split_and!; try done. apply (wo_fetch _ W) in Ef. by apply (list_elem_of_fmap_2 fst) in Ef.
  - cbn. destruct (new_install s _ (build, ForFetch) W eq_refl) as (H1 & H2 & H3). split_and!; try done.
    split; cbn; try done; [apply NoDup_map_set, W| | |].
    + intros b p. rewrite map_get_set, elem_of_app, list_elem_of_singleton, <- (wo_fetch _ W). case_decide; naive_solver.
    + by apply new_apart.
    + intros g [H|H]%W; [|by right]. left. rewrite fmap_app. apply elem_of_app. by left.
Qed.

Lemma NoDup_dropped {A} n (l : list (nat * A)) :
  NoDup l.*1 → NoDup (List.filter (fun i => negb (Nat.eqb (fst i) n)) l).*1.
Proof.
  induction l as [|[k x] l IH]; cbn; [done|]. rewrite NoDup_cons. intros [H1 H2]. destruct (negb _); [|by apply IH].
  cbn. apply NoDup_cons. split; [|by apply IH]. intros ([q y] & -> & [H _]%elem_dropped)%list_elem_of_fmap.
  apply H1. by apply (list_elem_of_fmap_2 fst) in H.
Qed.

Lemma settle_waits t promise outcome s :
  waits_ok s →
  waits_ok (fst (settle_install t promise outcome s)) ∧ oj_starting (fst (settle_install t promise outcome s)) = oj_starting s ∧
  answers (snd (settle_install t promise outcome s)) = [].
Proof.
  intros W. unfold settle_install. destruct (List.find _ _) as [[n [build use]]|] eqn:Ef; [|by split_and!].
  apply find_fst in Ef as [-> Hin].
  assert (NoDup (List.filter (fun i => negb (Nat.eqb (fst i) promise)) (oj_installs s)).*1) as Hn by apply NoDup_dropped, W.
  assert (∀ p, p ∈ (List.filter (fun i => negb (Nat.eqb (fst i) promise)) (oj_installs s)).*1 ↔ p ∈ (oj_installs s).*1 ∧ p ≠ promise) as Hp.
  { intros p. rewrite !list_elem_of_fmap.
    split; [intros ([q e] & -> & H%elem_dropped)|intros [([q e] & -> & H) Hne]]; cbn in *.
    - split; [|apply H]. exists (q, e). split; [done|apply H].
    - exists (q, e). split; [done|]. by apply elem_dropped. }
  assert (∀ g, g ∈ oj_starting s → sg_promise g ∈ (List.filter (fun i => negb (Nat.eqb (fst i) promise)) (oj_installs s)).*1 ∨
    sg_promise g ∈ (oj_settled s ++ [(promise, outcome)]).*1) as Hw.
  { intros g Hg. rewrite Hp, fmap_app, elem_of_app. change ([(promise, outcome)].*1) with [promise]. rewrite list_elem_of_singleton.
    destruct (decide (sg_promise g = promise)); [by right; right|]. destruct (wo_waits _ W _ Hg); naive_solver. }
  assert (∀ p b, (p, (b, ForFetch)) ∈ oj_installs s → p = promise → (b, ForFetch) = (build, use)) as Hone.
  { intros p b H ->. apply list_elem_of_lookup in H as [i Hi]. apply list_elem_of_lookup in Hin as [k Hk].
    pose proof (NoDup_lookup _ i k promise (wo_nodup _ W)) as E. rewrite !list_lookup_fmap, Hi, Hk in E.
    specialize (E eq_refl eq_refl). congruence. }
  assert (∀ p, p ∈ (oj_settled s ++ [(promise, outcome)]).*1 →
    p ∉ (List.filter (fun i => negb (Nat.eqb (fst i) promise)) (oj_installs s)).*1 ∧ (p < oj_next s)%nat) as Ha.
  { intros p. rewrite fmap_app, elem_of_app, Hp. change ([(promise, outcome)].*1) with [promise].
    rewrite list_elem_of_singleton. intros [[? ?]%(wo_apart _ W)| ->]; [naive_solver|]. split; [naive_solver|].
    apply (wo_next _ W). by apply (list_elem_of_fmap_2 fst) in Hin. }
  destruct use as [|dir]; (split; [|by split]); split; cbn; try done; try (intros p [? ?]%Hp; by apply W); try apply W.
  - apply NoDup_map_delete, W.
  - intros b p. rewrite map_get_delete by apply W. rewrite elem_dropped, <- (wo_fetch _ W). case_decide as Hb.
    + subst b. split; [done|]. intros [H%(wo_fetch _ W) Hne]. apply (wo_fetch _ W) in Hin. apply (wo_fetch _ W) in H. congruence.
    + split; [|by intros []]. intros H. split; [done|]. intros ->. apply Hb.
      specialize (Hone _ _ (proj1 (wo_fetch _ W _ _) H) eq_refl). congruence.
  - intros b p. rewrite elem_dropped, <- (wo_fetch _ W). split; [|by intros []]. intros H. split; [done|]. intros ->.
    specialize (Hone _ _ (proj1 (wo_fetch _ W _ _) H) eq_refl). congruence.
Qed.

(** ** How an install ended *)

(** How an install ended, once it has. *)
Definition outcome_of (s : Jobs) (promise : nat) : option InstallFailure :=
  snd <$> List.find (fun p => Nat.eqb (fst p) promise) (oj_settled s).

Lemma find_new {A} (l : list (nat * A)) k p x :
  List.find (fun q => Nat.eqb (fst q) p) (l ++ [(k, x)])
  = match List.find (fun q => Nat.eqb (fst q) p) l with Some y => Some y | None => if Nat.eqb k p then Some (k, x) else None end.
Proof. induction l as [|[q y] l IH]; cbn; [done|]. by destruct (Nat.eqb q p). Qed.

Lemma find_absent {A} (l : list (nat * A)) p : p ∉ l.*1 → List.find (fun q => Nat.eqb (fst q) p) l = None.
Proof.
  induction l as [|[q y] l IH]; cbn; [done|]. intros [Hne Hl]%not_elem_of_cons.
  destruct (Nat.eqb_spec q p); [done|by apply IH].
Qed.

Lemma find_present {A} (l : list (nat * A)) p :
  p ∈ l.*1 → ∃ x, List.find (fun q => Nat.eqb (fst q) p) l = Some (p, x) ∧ (p, x) ∈ l.
Proof.
  induction l as [|[q y] l IH]; cbn; [by intros ?%elem_of_nil|]. destruct (Nat.eqb_spec q p) as [->|Hne].
  - intros _. exists y. split; [done|left].
  - intros [?|Hp]%elem_of_cons; [done|]. destruct (IH Hp) as (x & ? & ?). exists x. split; [done|by right].
Qed.

Lemma settle_outcome t promise outcome s :
  waits_ok s → promise ∈ (oj_installs s).*1 →
  let s' := fst (settle_install t promise outcome s) in
  promise ∉ (oj_installs s').*1 ∧ outcome_of s' promise = Some outcome.
Proof.
  intros W Hp. cbv zeta. assert (outcome_of s promise = None) as Hno.
  { unfold outcome_of. rewrite find_absent; [done|]. by intros [? _]%(wo_apart _ W). }
  unfold outcome_of in *. unfold settle_install. destruct (find_present _ _ Hp) as ([build use] & -> & _).
  apply fmap_None in Hno.
  destruct use; cbn [fst oj_installs oj_settled set_fetches set_installs]; rewrite find_new, Hno, Nat.eqb_refl;
    (split; [|done]); by intros ([q e] & -> & [_ Hne]%elem_dropped)%list_elem_of_fmap.
Qed.

Lemma settle_keeps_fetch t promise outcome s p x :
  outcome_of s p = Some x → outcome_of (fst (settle_install t promise outcome s)) p = Some x.
Proof.
  unfold settle_install. destruct (List.find _ (oj_installs s)) as [[n [build use]]|]; [|done]. unfold outcome_of.
  destruct use; cbn [fst oj_settled set_fetches set_installs]; rewrite find_new; by destruct (List.find _ (oj_settled s)).
Qed.

(** ** Each event *)

(** A request is answered in its turn, or begins to wait. *)
Definition answered_or_waits (socket : nat) (s : Jobs) (p : Jobs * list JobEffect) : Prop :=
  waits_ok (fst p) ∧ oj_settled (fst p) = oj_settled s ∧
  ((∃ a, answers (snd p) = [(socket, a)] ∧ oj_starting (fst p) = oj_starting s) ∨
   (∃ g, answers (snd p) = [] ∧ rq_socket (sg_request g) = socket ∧ oj_starting (fst p) = oj_starting s ++ [g])).

Lemma one_answered socket s p : waits_ok s → answers_one socket s p → answered_or_waits socket s p.
Proof.
  intros W [H1 [a H2]]. split_and!; [by eapply waits_same|apply H1|]. left. exists a. split; [done|]. apply H1.
Qed.

Lemma take_upload_answers r id s : waits_ok s → answered_or_waits (rq_socket r) s (take_upload o r id s).
Proof.
  intros W. unfold take_upload. destruct (oj_uploads s !! rq_socket r) as [u|]; [|by apply one_answered, refused_one].
  destruct (negb (bool_decide _)); [by apply one_answered, refused_one|].
  destruct (_ || _); [apply one_answered; [done|]; split; [waits|by eexists]|].
  set (s0 := set_uploads _ _). assert (waits_ok s0) as W0 by (eapply waits_same; [exact W|waits]).
  pose proof (upload_install s0 (rq_build r) (js "from", up_dir u) (up_dir u) W0) as H.
  destruct (install _ _ _ s0) as [[promise s'] e]. destruct H as (H1 & H2 & H3 & H5 & H4).
  split_and!; [by apply await_waits|exact H5|]. right. eexists. split_and!; [exact H4| |cbn; by rewrite H3]. done.
Qed.

Lemma start_fetch_answers t r wait s : waits_ok s → answered_or_waits (rq_socket r) s (start_fetch o t r wait s).
Proof.
  intros W. unfold start_fetch. destruct (_ ≫= _); [by apply one_answered, after_fetch_one|].
  pose proof (fetch_install s (rq_stim r) (rq_build r) W) as H. destruct (fetch _ _ s) as [[promise s'] e].
  destruct H as (H1 & H2 & H3 & H5 & H4). destruct wait.
  - split_and!; [by apply await_waits|exact H5|]. right. eexists. split_and!; [exact H4| |cbn; by rewrite H3]. done.
  - split_and!; [done|exact H5|]. left. eexists. cbn. by rewrite answers_app, H4.
Qed.

Lemma jobMethod_answers allowed t client socket params s :
  waits_ok s → answered_or_waits socket s (jobMethod o allowed t client socket params s).
Proof.
  intros W. unfold jobMethod. destruct (negb allowed); [by apply one_answered, refused_one|]. unfold start.
  destruct (owns socket s); [by apply one_answered, refused_one|].
  assert (∀ r, request_of client socket params = Some r → answered_or_waits socket s (start_missing o t r params s)) as Hm.
  { intros r Er. assert (rq_socket r = socket) as <- by (revert Er; unfold request_of; cases; intros [= <-]; done).
    unfold start_missing. destruct (field "upload" params) as [[]|], (field "package" params);
      try (by apply take_upload_answers); try (by apply one_answered, prepareUpload_one);
      (destruct (is_yes _); [destruct (tn_accepts t); by apply one_answered, refused_one|by apply start_fetch_answers]). }
  assert (∀ r found, request_of client socket params = Some r → answers_one socket s (launch t r found s)) as Hl.
  { intros r found Er. assert (rq_socket r = socket) as <- by (revert Er; unfold request_of; cases; intros [= <-]; done).
    apply launch_one. }
  destruct (field "attach" params) as [[]|]; try (by apply one_answered, attach_one);
    (destruct (request_of client socket params) as [r|]; [|by apply one_answered, refused_one]);
    (destruct (refusal _ _ _); [by apply one_answered, refused_one|]);
    (destruct (entry _ _ _) as [[[cli|why]|]|];
      [apply one_answered; [done|]; destruct (Hl r (Runs cli) eq_refl) as [H1 H2]; by destruct (launch _ _ _ _)
      |by apply one_answered; [|apply Hl]|by apply Hm|apply one_answered; [done|]; split; [waits|by eexists]]).
Qed.

Lemma stop_jobs_none refs s : answers_none s (stop_jobs refs s).
Proof.
  revert s. induction refs as [|ref refs IH]; intros s; [split; [waits|done]|]. cbn [stop_jobs stop_job].
  destruct (IH (set_job ref job_end s)) as [H1 H2]. destruct (stop_jobs refs _). split; [exact H1|exact H2].
Qed.

Lemma on_stdout_none ref chunk buffered s : answers_none s (on_stdout ref chunk buffered s).
Proof.
  unfold on_stdout. destruct (oj_heap s !! ref) as [j|]; [|split; [waits|done]].
  destruct (push chunk (jo_reader j)) as [rest [frames|]], (jo_socket j) as [socket|]; try (split; [waits|done]).
  assert (answers (map (fun '(data, binary) => SendFrame socket ref data binary) frames) = []) as H
    by (clear; induction frames as [|[] frames IH]; done).
  destruct (buffered <=? _); (split; [waits|cbn [snd fresh]]); [exact H|by rewrite answers_app, H].
Qed.

Lemma on_exit_none ref code s : answers_none s (on_exit ref code s).
Proof.
  unfold on_exit. destruct (oj_heap s !! ref) as [j|]; [|split; [waits|done]].
  destruct (clear_grace_none (jo_grace j) s) as [H1 H2]. destruct (clear_grace _ s) as [s1 e1]. cbn [fst snd] in *.
  destruct (jo_socket j); (split; [exact H1|]); cbn [snd]; rewrite !answers_app, H2; by destruct (existsb _ _).
Qed.

(** Events other than requests, their continuations and the ends of installs. *)
Definition apart (ev : JobEvent) : bool :=
  match ev with Starts _ _ _ _ | Resumes _ _ | InstallErrors _ _ _ | InstallCloses _ _ _ => false | _ => true end.

Lemma apart_none ev s : apart ev = true → answers_none s (perform ev s).
Proof.
  destruct ev; intros H; try done; cbn [OffloadJobsRuns.perform].
  - unfold deliver. destruct (_ ≫= _) as [[ref j]|]; [|split; [waits|done]]. destruct (jo_destroyed j); [split; [waits|done]|].
    destruct (jobFrame _ _); [|split; [waits|done]]. destruct full; (split; [waits|done]).
  - unfold receive. destruct (oj_uploads s !! socket); [|split; [waits|done]]. destruct (_ <? _); [split; [waits|done]|].
    destruct (negb ok); (split; [waits|done]).
  - unfold disconnected. cbn. destruct (oj_spliced s !! socket); [destruct (_ || _)|]; destruct (oj_uploads s !! socket);
      (split; [waits|done]).
  - unfold grace_fires. destruct (List.find _ _) as [[]|]; (split; [waits|done]).
  - apply on_stdout_none.
  - unfold poll_fires. destruct (List.find _ _) as [[? [? ?]]|]; [|split; [waits|done]]. destruct (_ && _); (split; [waits|done]).
  - unfold on_drain. destruct (oj_heap s !! ref) as [j|]; [|split; [waits|done]]. split; [waits|]. cbn.
    by induction (jo_drains j).
  - apply on_exit_none.
  - apply stop_jobs_none.
  - unfold close, stop. match goal with |- context [stop_jobs ?l ?x] => destruct (stop_jobs_none l x) as [H1 H2] end.
    split; [exact H1|exact H2].
Qed.

(** A continuation whose install has ended. *)
Definition ready (s : Jobs) (i : nat) : bool :=
  match oj_starting s !! i with
  | Some g => bool_decide (is_Some (outcome_of s (sg_promise g)))
  | None => false
  end.

(** The answer to a request whose install ended so: a refusal where it failed. *)
Definition fits_outcome (outcome : InstallFailure) (a : JobAnswer) : Prop :=
  match outcome with Some _ => ∃ code message, a = Refused code message | None => True end.

Lemma resume_answers t i s :
  waits_ok s →
  waits_ok (fst (resume o t i s)) ∧ oj_settled (fst (resume o t i s)) = oj_settled s ∧
  if ready s i then
    ∃ g outcome a, oj_starting s !! i = Some g ∧ outcome_of s (sg_promise g) = Some outcome ∧
      answers (snd (resume o t i s)) = [(rq_socket (sg_request g), a)] ∧ fits_outcome outcome a ∧
      oj_starting (fst (resume o t i s)) = delete i (oj_starting s)
  else resume o t i s = (s, []).
Proof.
  intros W. unfold resume, ready, outcome_of. destruct (oj_starting s !! i) as [g|] eqn:Eg; [|done].
  destruct (List.find _ _) as [[p outcome]|] eqn:Ef; [|done]. cbn.
  set (s0 := set_installs s _ _ _).
  assert (waits_ok s0) as W0.
  { split; cbn; try apply W. intros g' Hg'. apply (wo_waits _ W). rewrite (delete_Permutation _ _ _ Eg). by right. }
  set (goes_on := if sg_fetch g then after_fetch o else after_upload o).
  assert (answers_one (rq_socket (sg_request g)) s0 (goes_on t (sg_request g) outcome s0)) as [H1 [a H2]].
  { unfold goes_on. destruct (sg_fetch g); [apply after_fetch_one|apply after_upload_one]. }
  assert (fits_outcome outcome a) as Hf.
  { destruct outcome as [f|]; [|done]. revert H2. unfold goes_on, after_fetch, after_upload.
    destruct (sg_fetch g); [destruct (fa_mismatch f); [destruct (tn_accepts t)|]|]; cbn; intros [= <-]; unfold fits_outcome; eauto. }
  split_and!; [by eapply waits_same|apply H1|]. exists g, outcome, a. split_and!; [done|by rewrite Ef|done..|apply H1].
Qed.

Lemma waits_after c ev : waits_ok (cf_jobs c) → waits_ok (cf_jobs (after ev c)).
Proof.
  intros W. destruct (apart ev) eqn:Ea.
  { destruct (apart_none ev (cf_jobs c) Ea) as [H _]. by eapply waits_same. }
  destruct ev; try done; cbn.
  - by apply jobMethod_answers.
  - by apply resume_answers.
  - by apply settle_waits.
  - unfold install_closes. destruct (List.find _ _) as [[? [? ?]]|]; [|done]. destruct (reply_outcome _ _); [|done].
    by apply settle_waits.
Qed.

Lemma reach_waits c effects : reach c effects → waits_ok (cf_jobs c).
Proof.
  induction 1 as [|c effects ev H IH Hl]; [|by apply waits_after].
  split; cbn; try apply NoDup_nil_2; try (by intros ? ?%elem_of_nil). intros build p. by rewrite elem_of_nil.
Qed.

(** The install that a request waits for has not ended, or the request is ready. *)
Lemma waits_ready s i g : waits_ok s → oj_starting s !! i = Some g → ready s i = true ∨ sg_promise g ∈ (oj_installs s).*1.
Proof.
  intros W Hg. destruct (wo_waits _ W g) as [H|H]; [by eapply list_elem_of_lookup_2|by right|]. left. unfold ready.
  rewrite Hg. apply bool_decide_eq_true. unfold outcome_of. destruct (find_present _ _ H) as (x & -> & _). by eexists.
Qed.

Lemma outcomes_stay ev s p x : waits_ok s → outcome_of s p = Some x → outcome_of (fst (perform ev s)) p = Some x.
Proof.
  intros W Hx. assert (∀ s', oj_settled s' = oj_settled s → outcome_of s' p = Some x) as Hsame.
  { intros s' E. unfold outcome_of. by rewrite E. }
  destruct (apart ev) eqn:Ea; [apply Hsame; by destruct (apart_none ev s Ea) as [(_ & -> & _) _]|].
  destruct ev; try done; cbn.
  - apply Hsame. by apply jobMethod_answers.
  - apply Hsame. by apply resume_answers.
  - by apply settle_keeps_fetch.
  - unfold install_closes. destruct (List.find _ _) as [[? [? ?]]|]; [|done]. destruct (reply_outcome _ _); [|done].
    by apply settle_keeps_fetch.
Qed.

(** The install ended so: it no longer runs, its outcome is known, and every request that waits for it is ready. *)
Definition ended (s : Jobs) (promise : nat) (outcome : InstallFailure) : Prop :=
  promise ∉ (oj_installs s).*1 ∧ outcome_of s promise = Some outcome ∧
  ∀ i g, oj_starting s !! i = Some g → sg_promise g = promise → ready s i = true.

Lemma settle_ends t promise outcome s :
  waits_ok s → promise ∈ (oj_installs s).*1 → ended (fst (settle_install t promise outcome s)) promise outcome.
Proof.
  intros W Hp. destruct (settle_outcome t promise outcome s W Hp) as [H1 H2]. split_and!; [done|done|].
  intros i g Hg Hpr. unfold ready. rewrite Hg, Hpr, H2. by apply bool_decide_eq_true.
Qed.

Lemma installs_unique s p x y : waits_ok s → (p, x) ∈ oj_installs s → (p, y) ∈ oj_installs s → x = y.
Proof.
  intros W [i Hi]%list_elem_of_lookup [k Hk]%list_elem_of_lookup.
  pose proof (NoDup_lookup _ i k p (wo_nodup _ W)) as E. rewrite !list_lookup_fmap, Hi, Hk in E.
  specialize (E eq_refl eq_refl). congruence.
Qed.

Lemma closes_ends t promise reply build use s :
  waits_ok s → (promise, (build, use)) ∈ oj_installs s →
  match reply_outcome build reply with
  | Ok outcome => ended (fst (install_closes t promise reply s)) promise outcome
  | Throw _ => install_closes t promise reply s = (s, [])
  end.
Proof.
  intros W Hin. assert (promise ∈ (oj_installs s).*1) as Hp by by apply (list_elem_of_fmap_2 fst) in Hin.
  unfold install_closes. destruct (find_present _ _ Hp) as ([build' use'] & -> & Hin').
  pose proof (installs_unique _ _ _ _ W Hin Hin') as [= <- <-].
  destruct (reply_outcome build reply); [by apply settle_ends|done].
Qed.

Lemma no_answer_closes t promise reply s :
  waits_ok s → answers (snd (install_closes t promise reply s)) = [] ∧
    oj_starting (fst (install_closes t promise reply s)) = oj_starting s.
Proof.
  intros W. unfold install_closes. destruct (List.find _ _) as [[? [build ?]]|]; [|done].
  destruct (reply_outcome _ _) as [outcome|]; [|done]. destruct (settle_waits t promise outcome _ W) as (_ & ? & ?). by split.
Qed.

(** C30: every [job.start] is answered just once: in its own turn, or it begins to wait for an install that runs, which ends
    in one of two ways. When the process of the install fails, the install has failed with that message; when it exits,
    the install has succeeded or failed as what it printed says. In both cases the install is over, every request that
    waits for it is ready, its outcome stays, and a ready request that goes on is answered, with a refusal where the
    install failed. Only an exit after which what was printed cannot be read, [null] or an error that no text can be made
    of, leaves the install and those who wait as they were. No other event answers a request. However many requests
    ask for a build, one install fetches it at a time. *)
Theorem starts_answered c effects ev :
  reach c effects →
  let s := cf_jobs c in
  let s' := fst (perform ev s) in
  let told := answers (snd (perform ev s)) in
  (∀ build p p', (p, (build, ForFetch)) ∈ oj_installs s → (p', (build, ForFetch)) ∈ oj_installs s → p = p') ∧
  (∀ g i, oj_starting s !! i = Some g → ready s i = true ∨ sg_promise g ∈ (oj_installs s).*1) ∧
  (∀ p outcome, outcome_of s p = Some outcome → outcome_of s' p = Some outcome) ∧
  match ev with
  | Starts _ _ socket _ =>
      (∃ a, told = [(socket, a)] ∧ oj_starting s' = oj_starting s) ∨
      (∃ g, told = [] ∧ rq_socket (sg_request g) = socket ∧ oj_starting s' = oj_starting s ++ [g])
  | Resumes _ i =>
      if ready s i then
        ∃ g outcome a, oj_starting s !! i = Some g ∧ outcome_of s (sg_promise g) = Some outcome ∧
          told = [(rq_socket (sg_request g), a)] ∧ fits_outcome outcome a ∧ oj_starting s' = delete i (oj_starting s)
      else s' = s ∧ told = []
  | InstallErrors _ p message =>
      told = [] ∧ oj_starting s' = oj_starting s ∧
      (p ∈ (oj_installs s).*1 → ended s' p (Some {| fa_failure := message; fa_mismatch := false |}))
  | InstallCloses _ p reply =>
      told = [] ∧ oj_starting s' = oj_starting s ∧
      (∀ build use, (p, (build, use)) ∈ oj_installs s →
         match reply_outcome build reply with Ok outcome => ended s' p outcome | Throw _ => s' = s end)
  | _ => told = [] ∧ oj_starting s' = oj_starting s
  end.
Proof.
  intros W%reach_waits. cbv zeta. split_and!.
  - intros build p p' H1%(wo_fetch _ W) H2%(wo_fetch _ W). congruence.
  - intros g i. by apply waits_ready.
  - intros p x. by apply outcomes_stay.
  - destruct (apart ev) eqn:Ea.
    { destruct (apart_none ev (cf_jobs c) Ea) as [H1 H2]. destruct ev; try done; (split; [exact H2|apply H1]). }
    destruct ev; try done.
    + by apply jobMethod_answers.
    + destruct (resume_answers t i _ W) as (_ & _ & H). destruct (ready _ i); [done|]. cbn. by rewrite H.
    + destruct (settle_waits t promise (Some {| fa_failure := message; fa_mismatch := false |}) _ W) as (_ & ? & ?).
      split_and!; [done|done|]. by apply settle_ends.
    + destruct (no_answer_closes t promise reply _ W) as [? ?]. split_and!; [done|done|]. intros build use Hin.
      pose proof (closes_ends t promise reply build use _ W Hin) as Hc. cbn.
      destruct (reply_outcome build reply); [done|by rewrite Hc].
Qed.
End Answers.

(** ** A sample run *)

Module SampleAnswers.
Import SampleJobs.
#[local] Existing Instance text.

(** A request that waits for the install of a build, which is the first, and the install fails. *)
Definition asks : JobEvent :=
  Starts true (turn 97 (fun _ => None)) 1 (params "111111111111" [(js "wait", JBool true)]).
Definition waiting : Config := OffloadJobsRuns.after options clients asks new.
Definition fails : JobEvent := InstallErrors (turn 98 (fun _ => None)) 0 (js "spawn npm ENOENT").

Lemma waiting_reach : OffloadJobsRuns.reach options clients waiting (snd (OffloadJobsRuns.perform options clients asks new_Jobs)).
Proof.
  refine (reach_step options clients new [] asks (reach_new options clients) _).
  split_and!; [split_and!; [apply not_elem_of_nil|done|set_solver]|set_solver|by intros g ?%elem_of_nil].
Qed.

(** C30 where a request waits for an install whose process fails: the request is ready. *)
Lemma starts_answered_witness :
  length (oj_starting (cf_jobs waiting)) = 1%nat ∧
  ended (fst (OffloadJobsRuns.perform options clients fails (cf_jobs waiting))) 0
    (Some {| fa_failure := js "spawn npm ENOENT"; fa_mismatch := false |}) ∧
  ready (fst (OffloadJobsRuns.perform options clients fails (cf_jobs waiting))) 0 = true.
Proof.
  destruct (starts_answered options clients waiting _ fails waiting_reach) as (_ & _ & _ & _ & _ & He).
  split_and!; [vm_compute; reflexivity|apply He; vm_compute; left|vm_compute; reflexivity].
Defined.
End SampleAnswers.
