(* ===== verification/BuildSlots.v ===== *)
(** * Build slots: [engine/build-slots.ts] and [engine/wait-queue.ts] of [packages/stim-cli/src], [core/state/build-capacity.ts]

    A run that builds takes one of so many slots, each an ownership claim; a run that finds none free waits in a queue of
    shared claims, in arrival order, until a slot is free or its ceiling is reached. The queue, the ceiling and the
    loop that waits are functions of what they read outside: the record of a round, [Round], holds the clock, the
    settings, the queue and the slots as the round finds them, and what its attempts at claims come to. A
    synchronous round reads one clock. *)

From Stdlib Require Import ZArith Lia.
From S2P Require Import Prelude.
From S2P Require Import Bytes.
From S2P Require Import Json.
From S2P Require Import Policy.
From S2P Require Import FileSystem.
From S2P Require Import OwnershipClaim.
Open Scope Z_scope.

(** ** The queue *)

Inductive WaitResource := WaitBuild | WaitBoot.

Definition QUEUE (resource : WaitResource) : units * units :=
  match resource with
  | WaitBuild => (js "build-waits", js "build wait")
  | WaitBoot => (js "device-waits", js "device wait")
  end.

Definition MINUTE_MS : Z := 60000.

(** [String.prototype.localeCompare], and [Number(value) || 0] where the value is not an integer, a boolean or [null]. *)
Class Collation := {
  localeCompare : units → units → Z;
  Number_other : json → Z;
}.

Section Queue.
Context `{!Collation}.

Definition number_or_0 (v : option json) : Z :=
  match v with
  | None | Some JNull | Some (JBool false) => 0
  | Some (JBool true) => 1
  | Some (JNumber n) => n
  | Some v => Number_other v
  end.

Definition sequence_of (holder : ClaimHolder) : Z := number_or_0 (field "sequence" (ch_details holder)).

(** The comparison of the sort is not positive. *)
Definition waiter_le (a b : ClaimHolder) : bool :=
  let bySequence := sequence_of a - sequence_of b in
  let byStart := localeCompare (ch_startedAt a) (ch_startedAt b) in
  if negb (bySequence =? 0) then bySequence <=? 0
  else if negb (byStart =? 0) then byStart <=? 0
  else localeCompare (ch_claimId a) (ch_claimId b) <=? 0.

(** What an exclusive claim on the queue throws. *)
Inductive queue_error := QueueHeld.

Definition liveWaiters (survey : ClaimSetState) : result queue_error (list ClaimHolder) :=
  match cs_exclusive survey with
  | Some _ => Throw QueueHeld
  | None => Ok (stable_sort waiter_le (cs_shared survey))
  end.

Definition ticket_sequence (waiters : list ClaimHolder) : Z := fold_right Z.max 0 (map sequence_of waiters) + 1.

(** The details of the claim, and what the attempt at it comes to. *)
Definition ticket_details (details : list (units * json)) (waiters : list ClaimHolder) : json :=
  JObject (obj_set (js "sequence") (JNumber (ticket_sequence waiters)) details).

Definition takeWaitTicket (attempt : ClaimAttempt) : result queue_error ClaimHandle :=
  match attempt with Acquired claim _ => Ok claim | _ => Throw QueueHeld end.

Fixpoint index_where {A} (p : A → bool) (l : list A) : option nat :=
  match l with [] => None | x :: l => if p x then Some O else S <$> index_where p l end.

Definition queuePosition (waiters : list ClaimHolder) (ticket : option ClaimHandle) : Z :=
  match ticket ≫= fun t => index_where (fun h => bool_decide (ch_claimId h = ha_claimId t)) waiters with
  | Some index => Z.of_nat index + 1
  | None => Z.of_nat (length waiters) + 1
  end.

(** [listWaiting]: the entry of each waiter of a queue, with its place. *)
Record DaemonWaiter := {
  dw_resource : WaitResource;
  dw_position : Z;
  dw_workspace : option units;
  dw_label : units;
  dw_platform : option units;
  dw_since : units;
}.

Definition text_member (key : string) (details : json) : option units :=
  match field key details with Some (JString s) => Some s | _ => None end.

Definition waiting_entry (resource : WaitResource) (index : nat) (holder : ClaimHolder) : DaemonWaiter :=
  let root := text_member "root" (ch_details holder) in
  {| dw_resource := resource; dw_position := Z.of_nat index + 1; dw_workspace := root;
     dw_label := match text_member "displayName" (ch_details holder) with
                 | Some name => name
                 | None => default (js "a run") root
                 end;
     dw_platform := text_member "platform" (ch_details holder); dw_since := ch_startedAt holder |}.

(** A queue that cannot be read, [None], is skipped. *)
Definition listWaiting (survey : WaitResource → option ClaimSetState) : list DaemonWaiter :=
  concat (map (fun resource =>
    match survey resource with
    | Some found =>
        match liveWaiters found with Ok waiters => imap (waiting_entry resource) waiters | Throw _ => [] end
    | None => []
    end) [WaitBuild; WaitBoot]).
End Queue.

(** ** The ceiling *)

Definition ABSOLUTE_WAIT_CEILING_MS : Z := 90 * MINUTE_MS.

Definition positionCeilingMs (position : Z) : Z := Z.max (10 * MINUTE_MS) (position * 5 * MINUTE_MS).

Inductive WaitOverdue :=
| OverdueAbsolute (waitedMs : Z)
| OverdueUnverified (position waitedMs : Z) (reason : units).

(** [ce_position] is [None] where it is [Infinity]. *)
Record Ceiling := {
  ce_started : Z;
  ce_position : option Z;
  ce_since : option Z;
  ce_reason : units;
}.

Definition waitCeiling (now : Z) : Ceiling :=
  {| ce_started := now; ce_position := None; ce_since := None; ce_reason := [] |}.

Definition update (next : Z) (unverified : option units) (now : Z) (c : Ceiling) : Ceiling :=
  {| ce_started := ce_started c;
     ce_position := Some next;
     ce_since :=
       match unverified with
       | None => None
       | Some _ =>
           match ce_since c with
           | None => Some now
           | Some since =>
               if match ce_position c with Some position => next <? position | None => true end then Some now
               else Some since
           end
       end;
     ce_reason := default [] unverified |}.

Definition overdue (now : Z) (c : Ceiling) : option WaitOverdue :=
  if ABSOLUTE_WAIT_CEILING_MS <=? now - ce_started c then Some (OverdueAbsolute (now - ce_started c))
  else
    match ce_since c, ce_position c with
    | Some since, Some position =>
        if positionCeilingMs position <=? now - since then Some (OverdueUnverified position (now - since) (ce_reason c))
        else None
    | _, _ => None
    end.

(** ** Slots *)

Record BuildSlotRecord := {
  br_pid : option Z;
  br_index : option Z;
  br_projectRoot : option units;
  br_startedAt : option units;
  br_logFile : option units;
  br_client : option units;
}.

Definition int_member (key : string) (details : json) : option Z :=
  match field key details with Some (JNumber n) => Some n | _ => None end.

Definition toRecord (holder : ClaimHolder) : BuildSlotRecord :=
  let details := ch_details holder in
  {| br_pid := Some (pid (ch_owner holder));
     br_index := int_member "index" details;
     br_projectRoot := text_member "projectRoot" details;
     br_startedAt := non_empty (Some (ch_startedAt holder));
     br_logFile := text_member "logFile" details;
     br_client := match field "offloaded" details with
                  | Some (JBool true) => text_member "client" details
                  | _ => None
                  end |}.

Record BuildSlotInfo := {
  bs_path : units;
  bs_name : units;
  bs_record : option BuildSlotRecord;
  bs_reading : SlotReading;
}.

Definition SLOT_PREFIX : units := js "slot-".

(** The directory as [readdir] and [stat] find it: each name, whether it is a directory, and its claims. [None] where
    the directory cannot be read. [to_index] is [Number], [None] where it is not finite. *)
Definition listBuildSlots (to_index : units → option Z) (dir : units) (names : option (list (units * bool * ClaimSurvey))) :
    list BuildSlotInfo :=
  omap (fun '(name, is_dir, survey) =>
    if starts_with SLOT_PREFIX name && is_dir then
      let holder := match sv_live survey, sv_dead survey with
                    | h :: _, _ | [], h :: _ => Some h
                    | [], [] => None
                    end in
      Some {| bs_path := dir ++ js "/" ++ name; bs_name := name; bs_record := toRecord <$> holder;
              bs_reading := {| sr_index := to_index (drop (length SLOT_PREFIX) name);
                               sr_alive := bool_decide (sv_live survey ≠ []);
                               sr_unresolved := bool_decide (sv_unresolved survey ≠ []) |} |}
    else None) (default [] names).

Record SlotHolder := {
  sh_slot : Z;
  sh_workspace : option units;
  sh_client : option units;
  sh_since : option units;
  sh_unresolved : bool;
}.

Definition slot_holder (max : Z) (info : BuildSlotInfo) : option SlotHolder :=
  let member (f : BuildSlotRecord → option units) : option units := bs_record info ≫= f in
  match sr_index (bs_reading info) with
  | None => None
  | Some index =>
      if max <=? index then None
      else if sr_alive (bs_reading info) then
        Some {| sh_slot := index; sh_workspace := member br_projectRoot; sh_client := member br_client;
                sh_since := member br_startedAt; sh_unresolved := false |}
      else if sr_unresolved (bs_reading info) then
        Some {| sh_slot := index; sh_workspace := None; sh_client := None; sh_since := None; sh_unresolved := true |}
      else None
  end.

(** [max], [inUse] and [holders]. *)
Definition buildSlotUsage (max : Z) (slots : list BuildSlotInfo) : Z * nat * list SlotHolder :=
  let holders := stable_sort (fun a b => sh_slot a <=? sh_slot b) (omap (slot_holder max) slots) in
  (max, length holders, holders).

(** ** An attempt at a slot *)

(** What [tryAcquireClaim] does on the directory of a slot. *)
Definition SlotAttempt : Type := result claim_error ClaimAttempt.

Definition is_refusal (e : claim_error) : bool := match e with ClaimRefused _ _ _ => true | _ => false end.

Inductive SlotClaim :=
| SlotTaken (claim : ClaimHandle) (index : nat) (released : list ClaimHandle)
| SlotsBusy (released : list ClaimHandle)
| SlotThrows (e : claim_error) (released : list ClaimHandle).

(** The loop over the slots from [index], with the first refusal, whether one was busy, and the pending claims that were
    released. *)
Fixpoint try_slots (index : nat) (attempts : list SlotAttempt) (refusal : option claim_error) (busy : bool)
    (released : list ClaimHandle) : SlotClaim :=
  match attempts with
  | [] => match refusal, busy with Some e, false => SlotThrows e released | _, _ => SlotsBusy released end
  | Throw e :: attempts =>
      if is_refusal e then
        try_slots (S index) attempts (match refusal with None => Some e | _ => refusal end) busy released
      else SlotThrows e released
  | Ok (Acquired claim _) :: _ => SlotTaken claim index released
  | Ok (WaitingFor _ pending _) :: attempts => try_slots (S index) attempts refusal true (released ++ [pending])
  | Ok (Held _ _) :: attempts => try_slots (S index) attempts refusal true released
  end.

(** [attempts index] is what the attempt at a slot would come to. *)
Definition tryAcquireBuildSlotClaim (max : Z) (attempts : nat → SlotAttempt) : SlotClaim :=
  try_slots 0 (map attempts (seq 0 (Z.to_nat max))) None false [].

Record BuildSlotHandle := {
  bh_slotWaitMs : option Z;
  bh_slot : option (ClaimHandle * nat);
}.

(** No slot means that their number is not limited. *)
Definition unlimited : BuildSlotHandle := {| bh_slotWaitMs := None; bh_slot := None |}.

(** ** Waiting for a slot *)

Inductive slot_error :=
| Cancelled
| PoolDisabled
| EngineSwitched (version : units)
| SlotQueueHeld
| SlotClaimError (e : claim_error)
| AtCapacity (elapsed max position : Z) (waiting : nat) (due : WaitOverdue).

Record Round := {
  rd_now : Z;
  rd_cancelled : bool;
  rd_disabled : bool;
  rd_switched : option units;
  rd_max : Z;
  rd_queue : result claim_error ClaimSetState;
  rd_slots : list BuildSlotInfo;
  rd_attempts : nat → SlotAttempt;
  rd_ticket : result claim_error ClaimAttempt;
  rd_interrupted : bool;
}.

Record SlotOptions := {
  so_automatic : bool;
  so_progressMs : Z;
  so_ceilingMs : option Z;
  so_intervalMs : Z;
}.

(** [ReleasedClaim] is a call of [releaseClaim] that returned, whatever it returned; [ReleaseThrew] is one that threw. *)
Inductive SlotEffect :=
| OpWaiting (waiting : bool)
| TriedSlots (position max : Z)
| WaitingForSlot (info : option (Z * Z * Z))
| SlotLine (max position : Z) (waiting : nat) (elapsedMs : Z)
| SwitchLine (version : units) (running : nat)
| Sleeps (ms : Z)
| TookTicket (ticket : ClaimHandle)
| ReleasedClaim (claim : ClaimHandle)
| ReleaseThrew (claim : ClaimHandle)
| DeclaredSpawns (claim : ClaimHandle)
| StoppedDeclaring (claim : ClaimHandle)
| WaiterClosed
| NotifiedReleased.

Record Waiting := {
  wt_started : Z;
  wt_lastProgress : Z;
  wt_ceiling : Ceiling;
  wt_ticket : option ClaimHandle;
}.

(** A round returns, throws, begins anew with a ticket, or sleeps. *)
Inductive RoundEnd :=
| RoundReturns (handle : BuildSlotHandle)
| RoundThrows (e : slot_error)
| RoundAgain
| RoundSleeps.

Section Acquire.
Context `{!Collation} (o : SlotOptions).

Definition unverified_reason (busy : list BuildSlotInfo) : option units :=
  match List.filter (fun s => sr_unresolved (bs_reading s)) busy with
  | [] => None
  | slots => Some (js "the holder of " ++ join_with (js ", ") (map bs_path slots) ++ js " cannot be verified")
  end.

Definition with_ticket (w : Waiting) (ticket : ClaimHandle) : Waiting :=
  {| wt_started := wt_started w; wt_lastProgress := wt_lastProgress w; wt_ceiling := wt_ceiling w;
     wt_ticket := Some ticket |}.

(** A round from where it has a ticket and no slot. *)
Definition round_waits (r : Round) (position : Z) (waiters : list ClaimHolder) (w : Waiting) :
    Waiting * list SlotEffect * RoundEnd :=
  let max := rd_max r in
  let now := rd_now r in
  let busy := List.filter (fun s => match sr_index (bs_reading s) with
                                    | Some index => (index <? max) && (sr_alive (bs_reading s) || sr_unresolved (bs_reading s))
                                    | None => false
                                    end) (rd_slots r) in
  let ceiling := update position (unverified_reason busy) now (wt_ceiling w) in
  let elapsed := now - wt_started w in
  let due := match so_ceilingMs o with
             | None => overdue now ceiling
             | Some ms => if ms <=? elapsed then Some (OverdueAbsolute elapsed) else None
             end in
  let e1 := [WaitingForSlot (Some (wt_started w, max, position))] in
  let w := {| wt_started := wt_started w; wt_lastProgress := wt_lastProgress w; wt_ceiling := ceiling; wt_ticket := wt_ticket w |} in
  match due with
  | Some due => (w, e1, RoundThrows (AtCapacity elapsed max position (length waiters) due))
  | None =>
      let progress := so_progressMs o <=? now - wt_lastProgress w in
      let e2 := if progress then [SlotLine max position (length waiters) elapsed] else [] in
      let w := {| wt_started := wt_started w; wt_lastProgress := if progress then now else wt_lastProgress w;
                  wt_ceiling := ceiling; wt_ticket := wt_ticket w |} in
      (w, e1 ++ e2 ++ [Sleeps (so_intervalMs o)], if rd_interrupted r then RoundThrows Cancelled else RoundSleeps)
  end.

(** A round that did not take a slot: it joins the queue, or waits. *)
Definition round_misses (r : Round) (position : Z) (waiters : list ClaimHolder) (w : Waiting) :
    Waiting * list SlotEffect * RoundEnd :=
  match wt_ticket w with
  | Some _ => round_waits r position waiters w
  | None =>
      match rd_ticket r with
      | Throw e => (w, [], RoundThrows (SlotClaimError e))
      | Ok attempt =>
          match takeWaitTicket attempt with
          | Throw _ => (w, [], RoundThrows SlotQueueHeld)
          | Ok ticket => (with_ticket w ticket, [TookTicket ticket; OpWaiting true], RoundAgain)
          end
      end
  end.

Definition round (r : Round) (w : Waiting) : Waiting * list SlotEffect * RoundEnd :=
  if rd_cancelled r then (w, [], RoundThrows Cancelled)
  else if so_automatic o && rd_disabled r then (w, [], RoundThrows PoolDisabled)
  else
    match rd_switched r, rd_queue r with
    | Some version, _ => (w, [], RoundThrows (EngineSwitched version))
    | None, Throw e => (w, [], RoundThrows (SlotClaimError e))
    | None, Ok survey =>
        match liveWaiters survey with
        | Throw _ => (w, [], RoundThrows SlotQueueHeld)
        | Ok waiters =>
            let max := rd_max r in
            let position := queuePosition waiters (wt_ticket w) in
            let turn := slotTurn position max (busySlots (map bs_reading (rd_slots r)) max) in
            if negb (st_claim turn) then round_misses r position waiters w
            else if max <=? 0 then (w, [TriedSlots position max], RoundReturns
                     {| bh_slotWaitMs := Some (match wt_ticket w with
                                               | Some _ => Z.max 0 (rd_now r - wt_started w)
                                               | None => 0
                                               end); bh_slot := None |})
            else
              match tryAcquireBuildSlotClaim max (rd_attempts r) with
              | SlotThrows e released => (w, TriedSlots position max :: map ReleasedClaim released, RoundThrows (SlotClaimError e))
              | SlotsBusy released =>
                  let '(w, e, end_) := round_misses r position waiters w in
                  (w, TriedSlots position max :: map ReleasedClaim released ++ e, end_)
              | SlotTaken claim index released =>
                  (w, TriedSlots position max :: map ReleasedClaim released ++ [DeclaredSpawns claim],
                   RoundReturns {| bh_slotWaitMs := Some (match wt_ticket w with
                                                          | Some _ => Z.max 0 (rd_now r - wt_started w)
                                                          | None => 0
                                                          end);
                                   bh_slot := Some (claim, index) |})
              end
        end
    end.

(** The loop; [None] where the rounds run out. *)
Fixpoint wait_rounds (rounds : list Round) (w : Waiting) :
    Waiting * list SlotEffect * option (result slot_error BuildSlotHandle) :=
  match rounds with
  | [] => (w, [], None)
  | r :: rounds =>
      let '(w, e1, end_) := round r w in
      match end_ with
      | RoundReturns handle => (w, e1, Some (Ok handle))
      | RoundThrows e => (w, e1, Some (Throw e))
      | RoundAgain | RoundSleeps => let '(w, e2, out) := wait_rounds rounds w in (w, e1 ++ e2, out)
      end
  end.

(** The loop and its [finally]; [release] is what [releaseClaim] of the ticket comes to. What it throws takes the place of
    what the loop came to, and the waiter is then not closed. *)
Definition wait_slot (now : Z) (rounds : list Round) (release : result claim_error bool) :
    list SlotEffect * option (result slot_error BuildSlotHandle) :=
  let '(w, e, out) := wait_rounds rounds {| wt_started := now; wt_lastProgress := now; wt_ceiling := waitCeiling now;
                                            wt_ticket := None |} in
  match out, wt_ticket w, release with
  | None, _, _ => (e, None)
  | Some _, Some ticket, Throw err => (e ++ [OpWaiting false; ReleaseThrew ticket], Some (Throw (SlotClaimError err)))
  | Some _, Some ticket, Ok _ =>
      (e ++ [OpWaiting false; ReleasedClaim ticket] ++ [WaiterClosed; WaitingForSlot None], out)
  | Some _, None, _ => (e ++ [WaiterClosed; WaitingForSlot None], out)
  end.

(** A look at the staged build while a miss is held before its slot: the version that is staged, the builds that run, and
    whether the sleep was interrupted. *)
Record Hold := { hd_staged : option units; hd_running : nat; hd_interrupted : bool }.

(** [holdForSwitch] up to its last look; [None] where the looks run out. *)
Fixpoint hold_looks (looks : list Hold) (held : bool) : list SlotEffect * option (result slot_error bool) :=
  match looks with
  | [] => ([], None)
  | look :: looks =>
      match hd_staged look with
      | None => ([], Some (Ok held))
      | Some version =>
          let e1 := if held then [] else [OpWaiting true; SwitchLine version (hd_running look)] in
          if hd_interrupted look then (e1 ++ [Sleeps (so_intervalMs o)], Some (Throw Cancelled))
          else let '(e2, out) := hold_looks looks true in (e1 ++ [Sleeps (so_intervalMs o)] ++ e2, out)
      end
  end.

Definition holdForSwitch (looks : list Hold) (switched : option units) : list SlotEffect * option (result slot_error unit) :=
  let '(e, out) := hold_looks looks false in
  match out with
  | None => (e, None)
  | Some (Throw err) => (e, Some (Throw err))
  | Some (Ok held) =>
      match switched with
      | Some version => (e, Some (Throw (EngineSwitched version)))
      | None => (e ++ (if held then [OpWaiting false] else []), Some (Ok tt))
      end
  end.

(** [acquireBuildSlot]: whether it is cancelled or its pool disabled at the start, the hold, the slots there are and the
    clock when it begins to wait, the rounds, and what the release of the ticket comes to. *)
Definition acquireBuildSlot (cancelled disabled : bool) (looks : list Hold) (switched : option units) (firstMax now : Z)
    (rounds : list Round) (release : result claim_error bool) :
    list SlotEffect * option (result slot_error BuildSlotHandle) :=
  if cancelled then ([], Some (Throw Cancelled))
  else if so_automatic o && disabled then ([], Some (Throw PoolDisabled))
  else
    match holdForSwitch looks switched with
    | (e, None) => (e, None)
    | (e, Some (Throw err)) => (e ++ [WaiterClosed], Some (Throw err))
    | (e, Some (Ok _)) =>
        if firstMax <=? 0 then (e ++ [WaiterClosed], Some (Ok unlimited))
        else let '(e', out) := wait_slot now rounds release in (e ++ e', out)
    end.
End Acquire.

(** [released] is what [releaseClaim] returned. *)
Definition releaseBuildSlot (handle : option BuildSlotHandle) (released : bool) : bool * list SlotEffect :=
  match handle ≫= bh_slot with
  | None => (false, [])
  | Some (claim, _) => (released, StoppedDeclaring claim :: ReleasedClaim claim :: if released then [NotifiedReleased] else [])
  end.
