(* ===== verification/BuildSlotsFacts.v ===== *)
(** * Waiting for a build slot

    The ceiling of a wait against the history of what it was told, the order of the queue, and the loop that waits: it
    tries only in its turn by the queue it finds, gives its ticket back, and ends. *)

From Stdlib Require Import ZArith Lia.
From stdpp Require Import sorting.
From S2P Require Import Prelude.
From S2P Require Import Bytes.
From S2P Require Import Json.
From S2P Require Import Policy.
From S2P Require Import FileSystem.
From S2P Require Import OwnershipClaim.
From S2P Require Import BuildSlots.
Open Scope Z_scope.

(** ** The ceiling *)

(** What a waiter was told: its position, why a holder cannot be verified, and when; the latest first. *)
Record Told := { to_position : Z; to_unverified : option units; to_at : Z }.

Fixpoint ceiling_after (started : Z) (history : list Told) : Ceiling :=
  match history with
  | [] => waitCeiling started
  | t :: history => update (to_position t) (to_unverified t) (to_at t) (ceiling_after started history)
  end.

Definition unverified (t : Told) : Prop := is_Some (to_unverified t).

(** In what it was told in a row, the position never improved. *)
Fixpoint stuck (stretch : list Told) : Prop :=
  match stretch with
  | t :: ((t' :: _) as rest) => to_position t' <= to_position t ∧ stuck rest
  | _ => True
  end.

(** The time only goes on. *)
Fixpoint in_time (history : list Told) : Prop :=
  match history with
  | t :: ((t' :: _) as rest) => to_at t' <= to_at t ∧ in_time rest
  | _ => True
  end.

(** At [now] the latest that it was told, for as long as its position allows, is that a holder cannot be verified, and it
    did not move up meanwhile. *)
Definition stalled (now : Z) (history : list Told) : Prop :=
  ∃ stretch first rest, history = (stretch ++ [first]) ++ rest ∧ Forall unverified (stretch ++ [first]) ∧
    stuck (stretch ++ [first]) ∧
    positionCeilingMs (default 0 (to_position <$> head history)) <= now - to_at first.

(** The longest such stretch. *)
Fixpoint stretch_of (history : list Told) : list Told :=
  match history with
  | [] => []
  | t :: history =>
      match to_unverified t with
      | None => []
      | Some _ =>
          t :: match stretch_of history with
               | [] => []
               | (t' :: _) as stretch => if to_position t <? to_position t' then [] else stretch
               end
      end
  end.

Lemma stretch_head history t stretch : stretch_of history = t :: stretch → ∃ rest, history = t :: rest.
Proof. destruct history as [|t0 rest]; [done|]. cbn. destruct (to_unverified t0); [|done]. intros [= -> _]. eauto. Qed.

Lemma ceiling_position started history :
  ce_position (ceiling_after started history) = to_position <$> head history ∧ ce_started (ceiling_after started history) = started.
Proof. induction history as [|t history [_ IH]]; done. Qed.

Lemma ceiling_since started history :
  ce_since (ceiling_after started history) = to_at <$> last (stretch_of history).
Proof.
  induction history as [|t history IH]; [done|]. cbn [ceiling_after update ce_since stretch_of].
  destruct (to_unverified t); [|done]. rewrite IH. destruct (ceiling_position started history) as [-> _].
  destruct (stretch_of history) as [|t' stretch] eqn:E; [done|]. destruct (stretch_head _ _ _ E) as [rest ->].
  destruct (last (t' :: stretch)) as [x|] eqn:El; [|by apply last_None in El]. cbn [head fmap option_fmap option_map].
  destruct (to_position t <? to_position t'); [done|]. by rewrite last_cons_cons, El.
Qed.

(** The longest stretch is one, and any other is a beginning of it. *)
Lemma stretch_of_ok history :
  stretch_of history `prefix_of` history ∧ Forall unverified (stretch_of history) ∧ stuck (stretch_of history).
Proof.
  induction history as [|t history (IH1 & IH2 & IH3)]; [by split_and!|]. cbn [stretch_of].
  destruct (to_unverified t) eqn:Eu; [|split_and!; [apply prefix_nil|done|done]].
  assert (unverified t) as Hu by (unfold unverified; rewrite Eu; eauto).
  destruct (stretch_of history) as [|t' stretch] eqn:E.
  { split_and!; [apply prefix_cons, prefix_nil|by repeat constructor|done]. }
  destruct (Z.ltb_spec (to_position t) (to_position t')).
  - split_and!; [apply prefix_cons, prefix_nil|by repeat constructor|done].
  - split_and!; [by apply prefix_cons|by constructor|]. cbn. split; [lia|done].
Qed.

Lemma stretch_longest history stretch :
  stretch `prefix_of` history → Forall unverified stretch → stuck stretch → stretch `prefix_of` stretch_of history.
Proof.
  revert stretch. induction history as [|t history IH]; intros [|t0 stretch] Hp Hu Hs; try apply prefix_nil.
  { by apply prefix_nil_not in Hp. }
  pose proof (prefix_cons_inv_1 _ _ _ _ Hp) as ->.
  apply prefix_cons_inv_2 in Hp. apply Forall_cons in Hu as [[why Hu] Hus]. cbn [stretch_of]. rewrite Hu. apply prefix_cons.
  assert (stuck stretch) as Hs' by (destruct stretch; [done|apply Hs]).
  specialize (IH stretch Hp Hus Hs'). destruct stretch as [|t1 stretch]; [apply prefix_nil|].
  destruct (stretch_of history) as [|t2 rest]; [done|]. pose proof (prefix_cons_inv_1 _ _ _ _ IH) as ->.
  destruct Hs as [Hs _]. destruct (Z.ltb_spec (to_position t) (to_position t2)); [lia|done].
Qed.

Lemma in_time_last history stretch x y :
  in_time history → stretch `prefix_of` history → last stretch = Some x → y ∈ stretch → to_at x <= to_at y.
Proof.
  revert stretch y. induction history as [|t history IH]; intros [|t0 stretch] y Ht Hp Hl Hy; try done; [by apply prefix_nil_not in Hp|].
  pose proof (prefix_cons_inv_1 _ _ _ _ Hp) as ->. apply prefix_cons_inv_2 in Hp.
  destruct stretch as [|t1 stretch]; [injection Hl as <-; by apply list_elem_of_singleton in Hy as ->|].
  rewrite last_cons_cons in Hl. destruct history as [|t2 history]; [by apply prefix_nil_not in Hp|].
  pose proof (prefix_cons_inv_1 _ _ _ _ Hp) as ->. destruct Ht as [H1 H2].
  apply elem_of_cons in Hy as [->|Hy]; [|by eapply IH].
  pose proof (IH (t2 :: stretch) t2 H2 Hp Hl ltac:(left)). lia.
Qed.

Lemma stalled_iff now history :
  in_time history →
  stalled now history ↔
    ∃ first, last (stretch_of history) = Some first ∧
      positionCeilingMs (default 0 (to_position <$> head history)) <= now - to_at first.
Proof.
  intros Ht. destruct (stretch_of_ok history) as (Hp & Hu & Hs). split.
  - intros (stretch & first & rest & Hh & Hu' & Hs' & Hc).
    assert (stretch ++ [first] `prefix_of` stretch_of history) as Hl by (apply stretch_longest; [by exists rest|done|done]).
    destruct (last (stretch_of history)) as [x|] eqn:Ex.
    + exists x. split; [done|]. pose proof (in_time_last history (stretch_of history) x first Ht Hp Ex) as H.
      assert (first ∈ stretch_of history) as Hin by (destruct Hl as [k ->]; rewrite !elem_of_app, list_elem_of_singleton; auto).
      specialize (H Hin). lia.
    + apply last_None in Ex. rewrite Ex in Hl. destruct Hl as [k Hl]. by destruct stretch.
  - intros (first & Hl & Hc). apply last_Some in Hl as [stretch Hl]. rewrite Hl in *. destruct Hp as [rest Hp].
    exists stretch, first, rest. by split_and!.
Qed.

(** A wait is overdue exactly when it lasted 90 minutes in all, or when it was told without a break, for ten minutes or five for
    each place in the queue, that a holder cannot be verified, and its position did not improve meanwhile; so never
    before 90 minutes while every holder is known to be alive or it moves up. *)
Theorem ceiling_exact started history now :
  in_time history →
  ((∃ ms, overdue now (ceiling_after started history) = Some (OverdueAbsolute ms)) ↔
     ABSOLUTE_WAIT_CEILING_MS <= now - started) ∧
  ((∃ position ms reason, overdue now (ceiling_after started history) = Some (OverdueUnverified position ms reason)) ↔
     now - started < ABSOLUTE_WAIT_CEILING_MS ∧ stalled now history).
Proof.
  intros Ht. rewrite (stalled_iff now history Ht). unfold overdue. destruct (ceiling_position started history) as [Hp Hs].
  rewrite Hs, Hp, ceiling_since. destruct (Z.leb_spec ABSOLUTE_WAIT_CEILING_MS (now - started)).
  { split; [split; [done|intros _; by eexists]|]. split; [by intros (? & ? & ? & ?)|lia]. }
  assert (∀ P : option WaitOverdue, (∀ ms, P ≠ Some (OverdueAbsolute ms)) →
    (∃ ms, P = Some (OverdueAbsolute ms)) ↔ ABSOLUTE_WAIT_CEILING_MS <= now - started) as Hno.
  { intros P HP. split; [intros (ms & ?); by destruct (HP ms)|lia]. }
  destruct (stretch_of history) as [|t stretch] eqn:E; cbn [last fmap option_fmap option_map].
  { split; [by apply Hno|]. split; [by intros (? & ? & ? & ?)|by intros (_ & ? & ? & _)]. }
  destruct (stretch_head _ _ _ E) as [rest ->]. cbn [head fmap option_fmap option_map default].
  destruct (last (t :: stretch)) as [first|] eqn:El; [|by apply last_None in El]. cbn [fmap option_fmap option_map].
  destruct (Z.leb_spec (positionCeilingMs (to_position t)) (now - to_at first)); (split; [by apply Hno|]).
  - split; intros _; [split; [lia|by exists first]|by repeat eexists].
  - split; [by intros (? & ? & ? & ?)|]. intros (_ & x & [= <-] & Hx). cbn in Hx. lia.
Qed.

(** ** The order of the queue *)

(** What a comparison of texts promises. *)
Class CollationLaws `(Collation) : Prop := {
  compare_anti a b : Z.sgn (localeCompare a b) = - Z.sgn (localeCompare b a);
  compare_trans a b c : localeCompare a b <= 0 → localeCompare b c <= 0 → localeCompare a c <= 0;
}.

Section Queue.
Context {HC : Collation} {HL : CollationLaws HC}.

(** Two steps up that come to none are none. *)
Lemma compare_strict a b c :
  localeCompare a b <= 0 → localeCompare b c <= 0 → localeCompare a c = 0 → localeCompare a b = 0 ∧ localeCompare b c = 0.
Proof using HL.
  intros H1 H2 H3. pose proof (compare_anti a c). pose proof (compare_anti a b). pose proof (compare_anti b c).
  assert (localeCompare b a <= 0) by (apply (compare_trans b c a); lia).
  assert (localeCompare c b <= 0) by (apply (compare_trans c a b); lia). lia.
Qed.

Lemma waiter_total : le_total waiter_le.
Proof using HL.
  intros a b. unfold waiter_le. pose proof (compare_anti (ch_startedAt a) (ch_startedAt b)).
  pose proof (compare_anti (ch_claimId a) (ch_claimId b)).
  destruct (Z.eqb_spec (sequence_of a - sequence_of b) 0), (Z.eqb_spec (sequence_of b - sequence_of a) 0); cbn; try lia.
  destruct (Z.eqb_spec (localeCompare (ch_startedAt a) (ch_startedAt b)) 0), (Z.eqb_spec (localeCompare (ch_startedAt b) (ch_startedAt a)) 0); cbn; lia.
Qed.

Lemma waiter_trans : le_trans waiter_le.
Proof using HL.
  intros a b c. unfold waiter_le.
  destruct (Z.eqb_spec (sequence_of a - sequence_of b) 0) as [E1|E1], (Z.eqb_spec (sequence_of b - sequence_of c) 0) as [E2|E2]; cbn [negb].
  2-4: intros; rewrite (proj2 (Z.eqb_neq (sequence_of a - sequence_of c) 0)) by lia; cbn [negb]; lia.
  rewrite (proj2 (Z.eqb_eq (sequence_of a - sequence_of c) 0)) by lia. cbn [negb]. clear E1 E2.
  pose proof (compare_trans (ch_startedAt a) (ch_startedAt b) (ch_startedAt c)) as Ht.
  pose proof (compare_strict (ch_startedAt a) (ch_startedAt b) (ch_startedAt c)) as Hs.
  pose proof (compare_trans (ch_claimId a) (ch_claimId b) (ch_claimId c)) as Hi. revert Ht Hs Hi.
  generalize (localeCompare (ch_startedAt a) (ch_startedAt b)) (localeCompare (ch_startedAt b) (ch_startedAt c))
    (localeCompare (ch_startedAt a) (ch_startedAt c)). intros x y z Ht Hs Hi.
  destruct (Z.eqb_spec x 0), (Z.eqb_spec y 0), (Z.eqb_spec z 0); cbn [negb]; rewrite !Z.leb_le; intros; try lia; try (by apply Hi; lia).
Qed.

(** What a holder's own handle would be. *)
Definition ticket_of (h : ClaimHolder) : ClaimHandle :=
  {| ha_path := ch_path h; ha_claimId := ch_claimId h; ha_mode := ch_mode h; ha_owner := ch_owner h;
     ha_startedAt := ch_startedAt h; ha_details := ch_details h |}.

Lemma index_where_at (l : list ClaimHolder) i h :
  NoDup (map ch_claimId l) → l !! i = Some h →
  index_where (fun x => bool_decide (ch_claimId x = ch_claimId h)) l = Some i.
Proof.
  revert i. induction l as [|x l IH]; intros [|i] Hn Hi; try done; cbn in *.
  - injection Hi as ->. by rewrite bool_decide_true.
  - apply NoDup_cons in Hn as [Hx Hn]. rewrite bool_decide_false; [by rewrite (IH i)|]. intros E. apply Hx. rewrite E.
    apply list_elem_of_In, in_map, list_elem_of_In. by eapply list_elem_of_lookup_2.
Qed.

Lemma position_at waiters i h :
  NoDup (map ch_claimId waiters) → waiters !! i = Some h → queuePosition waiters (Some (ticket_of h)) = Z.of_nat i + 1.
Proof. intros Hn Hi. unfold queuePosition. cbn. by rewrite (index_where_at _ i). Qed.

Lemma sequence_max waiters h : h ∈ waiters → sequence_of h < ticket_sequence waiters.
Proof.
  unfold ticket_sequence. induction waiters as [|x waiters IH]; [by intros ?%elem_of_nil|].
  intros [->|H%IH]%elem_of_cons; cbn; lia.
Qed.

(** The queue is in arrival order: a run that joins it gets a number after that of every run it found waiting, so that in every
    later look at the queue each of those that still waits is before it; and distinct waiters have distinct places, counted from one. *)
Theorem queue_in_order survey waiters later details joiner :
  liveWaiters survey = Ok waiters → cs_exclusive later = None → NoDup (map ch_claimId (cs_shared later)) →
  ch_details joiner = ticket_details details waiters → joiner ∈ cs_shared later →
  ∃ queue, liveWaiters later = Ok queue ∧ queue ≡ₚ cs_shared later ∧
  (∀ h, h ∈ cs_shared survey → h ∈ cs_shared later →
     1 <= queuePosition queue (Some (ticket_of h)) < queuePosition queue (Some (ticket_of joiner))) ∧
  (∀ i h, queue !! i = Some h → queuePosition queue (Some (ticket_of h)) = Z.of_nat i + 1).
Proof using HL.
  intros Hw He Hn Hd Hj. unfold liveWaiters in *. destruct (cs_exclusive survey); [done|]. injection Hw as <-. rewrite He.
  set (queue := stable_sort waiter_le (cs_shared later)). exists queue. split; [done|].
  assert (queue ≡ₚ cs_shared later) as Hp by apply stable_sort_perm. split; [done|].
  assert (NoDup (map ch_claimId queue)) as Hnq by (by rewrite Hp).
  split; [|intros i h Hi; by apply position_at]. intros h Hh Hh'.
  assert (sequence_of joiner = ticket_sequence (stable_sort waiter_le (cs_shared survey))) as Hs.
  { unfold sequence_of. rewrite Hd. unfold ticket_details, field, field_of. by rewrite lookup_obj_set, decide_True. }
  assert (sequence_of h < sequence_of joiner) as Hlt.
  { rewrite Hs. apply sequence_max. by rewrite stable_sort_perm. }
  assert (h ∈ queue) as [i Hi]%list_elem_of_lookup by (by rewrite Hp).
  assert (joiner ∈ queue) as [k Hk]%list_elem_of_lookup by (by rewrite Hp).
  rewrite (position_at queue i h), (position_at queue k joiner) by done.
  enough (i < k)%nat by lia. destruct (decide (i < k)%nat) as [|Hge]; [done|]. exfalso.
  destruct (decide (i = k)) as [->|Hne]; [assert (h = joiner) as -> by congruence; lia|].
  pose proof (stable_sort_sorted waiter_le (cs_shared later) waiter_total waiter_trans) as Hsort. fold queue in Hsort.
  assert (waiter_le joiner h = true) as Hle.
  { eapply (StronglySorted_app_1_elem_of (fun a b => waiter_le a b = true) (take i queue) (drop i queue)).
    - by rewrite take_drop.
    - apply list_elem_of_lookup. exists k. rewrite lookup_take_lt by lia. done.
    - apply list_elem_of_lookup. exists 0%nat. rewrite lookup_drop, Nat.add_0_r. done. }
  unfold waiter_le in Hle. destruct (Z.eqb_spec (sequence_of joiner - sequence_of h) 0); cbn in Hle; lia.
Qed.
End Queue.

(** ** The loop *)

Section Loop.
Context {HC : Collation} (o : SlotOptions).

Definition limit : Z := default ABSOLUTE_WAIT_CEILING_MS (so_ceilingMs o).

(** The state of a wait that began at [started]. *)
Definition begun (started : Z) (w : Waiting) : Prop := wt_started w = started ∧ ce_started (wt_ceiling w) = started.

(** A round that does not end the wait leaves it with a ticket; past the limit it ends a wait that has one. *)
Lemma round_goes_on started r w w' e end_ :
  begun started w → round o r w = (w', e, end_) → end_ = RoundAgain ∨ end_ = RoundSleeps →
  begun started w' ∧ is_Some (wt_ticket w') ∧ (is_Some (wt_ticket w) → rd_now r - started < limit).
Proof.
  intros [Hs Hc].
  assert (∀ position waiters w' e end_, round_misses o r position waiters w = (w', e, end_) → end_ = RoundAgain ∨ end_ = RoundSleeps →
    begun started w' ∧ is_Some (wt_ticket w') ∧ (is_Some (wt_ticket w) → rd_now r - started < limit)) as Hm.
  { clear w' e end_. intros position waiters w' e end_. unfold round_misses. destruct (wt_ticket w) as [ticket|] eqn:Et.
    - unfold round_waits. rewrite Et, Hs. unfold limit. set (c := update _ _ _ _).
      assert (ce_started c = started) as Hc' by done.
      destruct (so_ceilingMs o) as [ms|]; cbn [default].
      + destruct (Z.leb_spec ms (rd_now r - started)); [by intros [= <- <- <-] []|].
        intros [= <- <- <-] _. split; [done|]. split; [by eexists|]. intros _. done.
      + destruct (overdue (rd_now r) c) eqn:Eo; [by intros [= <- <- <-] []|]. intros [= <- <- <-] H. split; [done|]. split; [by eexists|].
        intros _. unfold overdue in Eo. rewrite Hc' in Eo. destruct (Z.leb_spec ABSOLUTE_WAIT_CEILING_MS (rd_now r - started)); done.
    - destruct (rd_ticket r) as [attempt|]; [|by intros [= <- <- <-] []].
      destruct (takeWaitTicket attempt) as [ticket|]; [|by intros [= <- <- <-] []].
      intros [= <- <- <-] _. split; [done|]. split; [by eexists|]. by intros []. }
  unfold round. destruct (rd_cancelled r); [by intros [= <- <- <-] []|]. destruct (_ && _); [by intros [= <- <- <-] []|].
  destruct (rd_switched r); [by intros [= <- <- <-] []|]. destruct (rd_queue r) as [survey|]; [|by intros [= <- <- <-] []].
  destruct (liveWaiters survey) as [waiters|]; [|by intros [= <- <- <-] []]. destruct (negb _); [apply Hm|].
  destruct (_ <=? 0); [by intros [= <- <- <-] []|].
  destruct (tryAcquireBuildSlotClaim _ _) as [claim index released|released|err released]; try (by intros [= <- <- <-] []).
  destruct (round_misses _ _ _ _ _) as [[w2 e2] end2] eqn:Er. intros [= <- <- <-] H. by apply (Hm _ _ _ _ _ Er).
Qed.

Lemma rounds_end started rounds w r :
  begun started w → is_Some (wt_ticket w) → r ∈ rounds → limit <= rd_now r - started →
  is_Some (snd (wait_rounds o rounds w)).
Proof.
  revert w. induction rounds as [|r0 rounds IH]; intros w Hb Ht Hin Hl; [by apply elem_of_nil in Hin|]. cbn.
  destruct (round o r0 w) as [[w' e1] end_] eqn:Er.
  assert (end_ = RoundAgain ∨ end_ = RoundSleeps → is_Some (snd (wait_rounds o rounds w'))) as Hgo.
  { intros H. destruct (round_goes_on _ _ _ _ _ _ Hb Er H) as (Hb' & Ht' & Hlt). apply IH; try done.
    apply elem_of_cons in Hin as [->|?]; [|done]. specialize (Hlt Ht). lia. }
  destruct end_; cbn; try (by eexists); destruct (wait_rounds o rounds w') as [[? ?] ?]; apply Hgo; auto.
Qed.

(** C28: a wait for a build slot ends: where a round that sleeps takes its interval at least, it has returned or thrown after as many
    rounds as the ceiling has intervals, and three. *)
Theorem wait_ends now rounds release :
  0 < so_intervalMs o →
  (∀ k r, rounds !! k = Some r → now + so_intervalMs o * (Z.of_nat k - 1) <= rd_now r) →
  (Z.to_nat (limit / so_intervalMs o) + 3 <= length rounds)%nat →
  is_Some (snd (wait_slot o now rounds release)).
Proof.
  intros Hi Hclock Hlen. set (k := (Z.to_nat (limit / so_intervalMs o) + 2)%nat).
  destruct (lookup_lt_is_Some_2 rounds k) as [r Hr]; [lia|]. pose proof (Hclock _ _ Hr) as Hnow.
  assert (limit <= rd_now r - now) as Hlim.
  { pose proof (Z.div_mod limit (so_intervalMs o) ltac:(lia)). pose proof (Z.mod_pos_bound limit (so_intervalMs o) Hi).
    assert (limit / so_intervalMs o + 1 <= Z.of_nat k - 1) by lia. nia. }
  unfold wait_slot. set (w0 := {| wt_started := now |}).
  enough (is_Some (snd (wait_rounds o rounds w0))) as [out H] by (destruct (wait_rounds o rounds w0) as [[w e] ?]; cbn in H; subst; by destruct (wt_ticket w), release).
  destruct rounds as [|r0 rounds]; [done|]. assert (∃ n, k = S n) as [n Ek] by (exists (pred k); lia). rewrite Ek in Hr. cbn in Hr. cbn.
  destruct (round o r0 w0) as [[w' e1] end_] eqn:Er.
  assert (end_ = RoundAgain ∨ end_ = RoundSleeps → is_Some (snd (wait_rounds o rounds w'))) as Hgo.
  { intros H. assert (begun now w0) as Hb by (by split). destruct (round_goes_on now _ _ _ _ _ Hb Er H) as (Hb' & Ht' & _).
    apply (rounds_end now rounds w' r Hb' Ht'); [|done]. by eapply list_elem_of_lookup_2. }
  destruct end_; cbn; try (by eexists); destruct (wait_rounds o rounds w') as [[? ?] ?]; apply Hgo; auto.
Qed.

(** The claims that were published and not held yet, among attempts. *)
Definition pendings (attempts : list SlotAttempt) : list ClaimHandle :=
  omap (fun a => match a with Ok (WaitingFor _ pending _) => Some pending | _ => None end) attempts.

Lemma try_slots_taken index attempts refusal busy released claim i rel :
  try_slots index attempts refusal busy released = SlotTaken claim i rel →
  ∃ k reaped, i = (index + k)%nat ∧ attempts !! k = Some (Ok (Acquired claim reaped)) ∧ rel = released ++ pendings (take k attempts).
Proof.
  revert index refusal busy released. induction attempts as [|[[claim' reaped|holder reaped|holders pending reaped]|e] attempts IH];
    intros index refusal busy released; cbn.
  - by destruct refusal, busy.
  - intros [= -> -> ->]. exists 0%nat, reaped. by rewrite Nat.add_0_r, app_nil_r.
  - intros (k & r & -> & ? & ->)%IH. exists (S k), r. split_and!; [lia|done|done].
  - intros (k & r & -> & ? & ->)%IH. exists (S k), r. split_and!; [lia|done|]. cbn. by rewrite <- app_assoc.
  - destruct (is_refusal e); [|done]. intros (k & r & -> & ? & ->)%IH. exists (S k), r. split_and!; [lia|done|done].
Qed.

(** It is the turn of a run with this ticket: its position is that of its ticket in the queue the round reads, or the one
    after all of them while it has none, and besides the slots that live runs hold there is one for it and each run
    before it. *)
Definition in_turn (r : Round) (ticket : option ClaimHandle) (position max : Z) : Prop :=
  max = rd_max r ∧
  (∃ survey waiters, rd_queue r = Ok survey ∧ liveWaiters survey = Ok waiters ∧ position = queuePosition waiters ticket) ∧
  1 <= position ∧
  position + Z.of_nat (length (List.filter sr_alive (busySlots (map bs_reading (rd_slots r)) max))) <= max.

(** What a wait returns is a slot that an attempt of one of its rounds took. *)
Definition took_slot (r : Round) (handle : BuildSlotHandle) : Prop :=
  ∃ claim index reaped, bh_slot handle = Some (claim, index) ∧ Z.of_nat index < rd_max r ∧
    rd_attempts r index = Ok (Acquired claim reaped).

Lemma position_positive waiters ticket : 1 <= queuePosition waiters ticket.
Proof. unfold queuePosition. destruct (_ ≫= _); lia. Qed.

Definition tickets (effects : list SlotEffect) : list ClaimHandle :=
  omap (fun e => match e with TookTicket t => Some t | _ => None end) effects.

Lemma tickets_app e1 e2 : tickets (e1 ++ e2) = tickets e1 ++ tickets e2.
Proof. apply omap_app. Qed.

Lemma released_tickets l : tickets (map ReleasedClaim l) = [].
Proof. by induction l. Qed.

(** What a round does: it tries in its turn, takes a ticket once, returns a slot it took in its turn, and goes on only
    with a ticket. *)
Definition round_ok (r : Round) (w : Waiting) (p : Waiting * list SlotEffect * RoundEnd) : Prop :=
  let '(w', e, end_) := p in
  (∀ position max, TriedSlots position max ∈ e → in_turn r (wt_ticket w) position max) ∧
  wt_ticket w' = match wt_ticket w with Some t => Some t | None => head (tickets e) end ∧
  (length (tickets e) <= match wt_ticket w with Some _ => 0 | None => 1 end)%nat ∧
  match end_ with
  | RoundReturns handle => took_slot r handle ∧ ∃ position, in_turn r (wt_ticket w) position (rd_max r)
  | RoundThrows _ => True
  | RoundAgain | RoundSleeps => is_Some (wt_ticket w')
  end.

Lemma round_misses_ok r position waiters w :
  let '(w', e, end_) := round_misses o r position waiters w in
  (∀ p m, TriedSlots p m ∉ e) ∧ round_ok r w (w', e, end_).
Proof.
  unfold round_misses. destruct (wt_ticket w) as [ticket|] eqn:Et.
  - unfold round_waits. rewrite Et. destruct (match so_ceilingMs o with None => _ | Some _ => _ end) as [due|]; [|destruct (_ <=? _), (rd_interrupted r)];
      (split; [|unfold round_ok; rewrite ?Et; split_and!; try done]); set_solver.
  - destruct (rd_ticket r) as [attempt|err]; [destruct (takeWaitTicket attempt) as [ticket|]|];
      (split; [|unfold round_ok; rewrite ?Et; split_and!; try done; try (cbn; lia)]); set_solver.
Qed.

Lemma round_all_ok r w : round_ok r w (round o r w).
Proof.
  assert (∀ e, round_ok r w (w, [], RoundThrows e)) as Hthrow.
  { intros e. split_and!; [by intros ? ? ?%elem_of_nil|by destruct (wt_ticket w)|cbn; lia|done]. }
  unfold round. destruct (rd_cancelled r); [apply Hthrow|]. destruct (_ && _); [apply Hthrow|].
  destruct (rd_switched r); [apply Hthrow|]. destruct (rd_queue r) as [survey|] eqn:Eq; [|apply Hthrow].
  destruct (liveWaiters survey) as [waiters|] eqn:Ew; [|apply Hthrow].
  set (position := queuePosition waiters (wt_ticket w)). pose proof (round_misses_ok r position waiters w) as Hm.
  destruct (negb _) eqn:Eturn; [destruct (round_misses _ _ _ _ _) as [[? ?] ?]; apply Hm|].
  apply negb_false_iff in Eturn. unfold slotTurn in Eturn. cbn [st_claim] in Eturn. apply Z.leb_le in Eturn.
  pose proof (position_positive waiters (wt_ticket w)) as Hpos. fold position in Hpos.
  destruct (Z.leb_spec (rd_max r) 0); [lia|].
  assert (in_turn r (wt_ticket w) position (rd_max r)) as Hin by (split_and!; [done|by exists survey, waiters|done|lia]).
  assert (∀ e rest, e = TriedSlots position (rd_max r) :: rest → (∀ p m, TriedSlots p m ∉ rest) → ∀ p m, TriedSlots p m ∈ e → in_turn r (wt_ticket w) p m) as Htried.
  { intros e rest -> Hno p m [[= -> ->]|H']%elem_of_cons; [done|]. by apply Hno in H'. }
  assert (∀ l p m, TriedSlots p m ∉ map ReleasedClaim l) as Hrel.
  { intros l p m Hl. apply list_elem_of_In, in_map_iff in Hl as (? & ? & _). done. }
  destruct (tryAcquireBuildSlotClaim _ _) as [claim index released|released|err released] eqn:Etry.
  - split_and!.
    + eapply Htried; [done|]. intros p m [?%Hrel|?%list_elem_of_singleton]%elem_of_app; done.
    + cbn. rewrite tickets_app, released_tickets. by destruct (wt_ticket w).
    + cbn. rewrite tickets_app, released_tickets. cbn. lia.
    + apply try_slots_taken in Etry as (k & reaped & -> & Hk & _). exists claim, k, reaped. split; [done|].
      apply list_lookup_fmap_Some in Hk as (n & Hk & Hn). apply lookup_seq in Hn as [-> Hn]. split; [lia|]. by rewrite Hk.
    + by exists position.
  - destruct (round_misses _ _ _ _ _) as [[w2 e2] end2]. destruct Hm as [Hno (H1 & H2 & H3 & H4)]. split_and!; try done.
    + eapply Htried; [done|]. intros p m [?%Hrel|H']%elem_of_app; [done|]. by apply (Hno p m).
    + rewrite H2. destruct (wt_ticket w); [done|]. cbn. by rewrite tickets_app, released_tickets.
    + cbn. by rewrite tickets_app, released_tickets.
  - split_and!; try done.
    + eapply Htried; [done|apply Hrel].
    + cbn. rewrite released_tickets. by destruct (wt_ticket w).
    + cbn. rewrite released_tickets. cbn. lia.
Qed.

(** The ticket that a wait has in its round [k], where it began with [first] and did [e]. *)
Definition ticket_at (first : option ClaimHandle) (k : nat) (e : list SlotEffect) : option ClaimHandle :=
  match first, k with Some t, _ => Some t | None, O => None | None, S _ => head (tickets e) end.

(** One of the rounds, in which it was the turn of the run, and of which with its position [P] holds. *)
Definition in_its_turn (rounds : list Round) (first : option ClaimHandle) (e : list SlotEffect) (P : Round → Z → Prop) : Prop :=
  ∃ k r position, rounds !! k = Some r ∧ in_turn r (ticket_at first k e) position (rd_max r) ∧ P r position.

Lemma in_its_turn_later r rounds w w1 e1 e2 P :
  wt_ticket w1 = match wt_ticket w with Some t => Some t | None => head (tickets e1) end → is_Some (wt_ticket w1) →
  in_its_turn rounds (wt_ticket w1) e2 P → in_its_turn (r :: rounds) (wt_ticket w) (e1 ++ e2) P.
Proof.
  intros Ht [t Hs] (k & r' & p & Hk & Hin & HP). exists (S k), r', p. split; [done|]. split; [|done].
  rewrite Hs in Hin. unfold ticket_at in *. rewrite Hs in Ht. destruct (wt_ticket w) as [t'|]; [by injection Ht as <-|].
  rewrite tickets_app. destruct (tickets e1); [done|]. cbn in Ht |- *. by rewrite <- Ht.
Qed.

(** A wait whose rounds are sound is sound. *)
Lemma wait_rounds_ok rounds w :
  let '(w', e, out) := wait_rounds o rounds w in
  (∀ position max, TriedSlots position max ∈ e →
     in_its_turn rounds (wt_ticket w) e (fun r p => p = position ∧ max = rd_max r)) ∧
  wt_ticket w' = match wt_ticket w with Some t => Some t | None => head (tickets e) end ∧
  (length (tickets e) <= match wt_ticket w with Some _ => 0 | None => 1 end)%nat ∧
  match out with
  | Some (Ok handle) => in_its_turn rounds (wt_ticket w) e (fun r _ => took_slot r handle)
  | _ => True
  end.
Proof.
  revert w. induction rounds as [|r rounds IH]; intros w; cbn [wait_rounds].
  { split_and!; [by intros ? ? ?%elem_of_nil|by destruct (wt_ticket w)|cbn; lia|done]. }
  pose proof (round_all_ok r w) as H. destruct (round o r w) as [[w1 e1] end_]. destruct H as (H1 & H2 & H3 & H4).
  assert (∀ e position P, in_turn r (wt_ticket w) position (rd_max r) → P r position →
    in_its_turn (r :: rounds) (wt_ticket w) e P) as Hnow.
  { intros e p P Hin HP. exists 0%nat, r, p. split; [done|]. by destruct (wt_ticket w). }
  assert (∀ e position max, TriedSlots position max ∈ e1 →
    in_its_turn (r :: rounds) (wt_ticket w) e (fun r p => p = position ∧ max = rd_max r)) as H1'.
  { intros e p m Ht%H1. pose proof Ht as [-> _]. by apply (Hnow e p). }
  destruct end_ as [handle|err| |].
  1: { split_and!; try done; [by apply H1'|]. destruct H4 as [Ht [p Hin]]. by apply (Hnow e1 p). }
  1: { split_and!; try done. by apply H1'. }
  all: specialize (IH w1); destruct (wait_rounds o rounds w1) as [[w2 e2] out]; destruct IH as (I1 & I2 & I3 & I4);
    rewrite tickets_app, length_app; split_and!.
  1, 5: intros p m [Ht|Ht]%elem_of_app; [by apply H1'|]; eapply in_its_turn_later; eauto.
  1, 4: rewrite I2, H2; destruct (wt_ticket w); [done|]; by destruct (tickets e1).
  1, 3: rewrite H2 in I3; destruct (wt_ticket w); [lia|]; destruct (tickets e1); cbn in *; lia.
  all: destruct out as [[handle|]|]; try done; eapply in_its_turn_later; eauto.
Qed.

(** C27: a run tries the slots only when it is its turn: in the queue that this round reads, the position of its ticket, or
    in the first round, where it has none, the one after all who wait, leaves a slot that no live run holds for each run
    before it and one for itself. A slot it returns with is one below the limit whose claim it acquired in such a round.
    However its wait ends, by a slot, an error or its ceiling, it took one ticket at most, and its last acts are to
    release that ticket and to close the waiter; only where that release itself throws is the waiter not closed, and the
    run throws the same. *)
Theorem slot_taken_in_turn now rounds release out :
  snd (wait_slot o now rounds release) = Some out →
  let effects := fst (wait_slot o now rounds release) in
  (∀ position max, TriedSlots position max ∈ effects →
     in_its_turn rounds None effects (fun r p => p = position ∧ max = rd_max r)) ∧
  match out with Ok handle => in_its_turn rounds None effects (fun r _ => took_slot r handle) | Throw _ => True end ∧
  ∃ e, match tickets effects, release with
       | [], _ => effects = e ++ [WaiterClosed; WaitingForSlot None]
       | [ticket], Ok _ => effects = e ++ [OpWaiting false; ReleasedClaim ticket; WaiterClosed; WaitingForSlot None]
       | [ticket], Throw err => effects = e ++ [OpWaiting false; ReleaseThrew ticket] ∧ out = Throw (SlotClaimError err)
       | _, _ => False
       end.
Proof.
  unfold wait_slot. set (w0 := {| wt_started := now |}). pose proof (wait_rounds_ok rounds w0) as H.
  destruct (wait_rounds o rounds w0) as [[w e] [result|]]; [|done]. destruct H as (H1 & H2 & H3 & H4). cbn in H1, H2, H3, H4.
  assert (∀ tail P, tickets tail = [] → in_its_turn rounds None e P → in_its_turn rounds None (e ++ tail) P) as Htail.
  { intros tail P Ht (k & r & p & Hk & Hin & HP). exists k, r, p. split; [done|]. split; [|done].
    unfold ticket_at in *. by rewrite tickets_app, Ht, app_nil_r. }
  assert (∀ tail, tickets tail = [] → (∀ p m, TriedSlots p m ∉ tail) → ∀ position max, TriedSlots position max ∈ e ++ tail →
    in_its_turn rounds None (e ++ tail) (fun r p => p = position ∧ max = rd_max r)) as Htried.
  { intros tail Ht Hno p m [Hin|Hin]%elem_of_app; [by apply Htail, H1|by apply Hno in Hin]. }
  assert (∀ e', tickets (e ++ e') = tickets e ++ tickets e') as Happ by (intros; apply tickets_app).
  destruct (wt_ticket w) as [ticket|] eqn:Et; [destruct release as [b|err]|]; cbn [fst snd]; intros [= <-]; cbv zeta.
  all: split; [apply Htried; [done|intros p m; cbn; rewrite ?elem_of_cons, elem_of_nil; naive_solver]|].
  all: split; [destruct result; try done; by apply Htail|].
  all: exists e; rewrite Happ; cbn; rewrite app_nil_r; destruct (tickets e) as [|t [|? ?]]; cbn in H2, H3; simplify_eq; done || lia.
Qed.
End Loop.

(** ** Samples *)

Module SampleSlots.
Definition told : list Told :=
  [{| to_position := 2; to_unverified := Some []; to_at := 500000 |};
   {| to_position := 1; to_unverified := Some []; to_at := 0 |};
   {| to_position := 1; to_unverified := None; to_at := 0 |}].

Lemma ceiling_exact_witness :
  overdue 600000 (ceiling_after 0 told) = Some (OverdueUnverified 2 600000 []) ∧ stalled 600000 told.
Proof.
  split; [reflexivity|]. apply (ceiling_exact 0 told 600000); [cbn; lia|]. exists 2, 600000, []. reflexivity.
Defined.

(** Texts compared by length. *)
#[global] Instance by_length : Collation :=
  {| localeCompare a b := Z.of_nat (length a) - Z.of_nat (length b); Number_other _ := 0 |}.

#[global] Instance by_length_laws : CollationLaws by_length.
Proof. split; cbn; intros; lia. Qed.

Definition holder (id : units) (sequence : Z) : ClaimHolder :=
  {| ch_path := []; ch_claimId := id; ch_mode := Shared; ch_owner := {| pid := 1; processToken := [] |}; ch_startedAt := [];
     ch_details := JObject [(js "sequence", JNumber sequence)]; ch_child := None; ch_childDeclared := false |}.

Definition queue_of (waiters : list ClaimHolder) : ClaimSetState :=
  {| cs_exclusive := None; cs_shared := waiters; cs_reaped := [] |}.
Definition first : ClaimHolder := holder (js "b") 4.
Definition second : ClaimHolder := holder (js "a") 5.

Lemma queue_in_order_witness :
  ∃ queue, liveWaiters (queue_of [second; first]) = Ok queue ∧
    1 <= queuePosition queue (Some (ticket_of first)) < queuePosition queue (Some (ticket_of second)).
Proof.
  destruct (queue_in_order (queue_of [first]) [first] (queue_of [second; first]) [] second) as (queue & H1 & _ & H2 & _).
  - reflexivity.
  - reflexivity.
  - cbn. apply NoDup_cons. split; [|apply NoDup_singleton]. rewrite list_elem_of_singleton. intros H. by vm_compute in H.
  - reflexivity.
  - left.
  - exists queue. split; [done|]. apply H2; [left|right; left].
Defined.

Definition claim : ClaimHandle := ticket_of (holder (js "c") 0).

(** A round in which the slots are held, or free. *)
Definition look (now : Z) (free : bool) : Round :=
  {| rd_now := now; rd_cancelled := false; rd_disabled := false; rd_switched := None; rd_max := 2; rd_queue := Ok (queue_of []);
     rd_slots := [];
     rd_attempts := fun i => Ok (if free && (i =? 1)%nat then Acquired claim [] else Held first []);
     rd_ticket := Ok (Acquired (ticket_of second) []); rd_interrupted := false |}.

Definition options : SlotOptions :=
  {| so_automatic := false; so_progressMs := 10000; so_ceilingMs := Some 1000; so_intervalMs := 1000 |}.

Lemma wait_ends_witness :
  is_Some (snd (wait_slot options 0 [look 0 false; look 0 false; look 1000 false; look 2000 false] (Ok true))) ∧
  snd (wait_slot options 0 [look 0 false; look 0 false; look 1000 false; look 2000 false] (Ok true))
    = Some (Throw (AtCapacity 1000 2 1 0 (OverdueAbsolute 1000))).
Proof.
  split; [|vm_compute; reflexivity]. apply (wait_ends options 0 _ (Ok true)); [reflexivity| |vm_compute; lia].
  intros [|[|[|[|k]]]] r; try done; intros [= <-]; cbn; lia.
Defined.

(** The same with runs that wait. *)
Definition with_queue (waiters : list ClaimHolder) (r : Round) : Round :=
  {| rd_now := rd_now r; rd_cancelled := rd_cancelled r; rd_disabled := rd_disabled r; rd_switched := rd_switched r;
     rd_max := rd_max r; rd_queue := Ok (queue_of waiters); rd_slots := rd_slots r; rd_attempts := rd_attempts r;
     rd_ticket := rd_ticket r; rd_interrupted := rd_interrupted r |}.

Definition two_rounds : list Round := [with_queue [first] (look 0 false); with_queue [second; first] (look 1000 true)].
Definition the_slot : BuildSlotHandle := {| bh_slotWaitMs := Some 1000; bh_slot := Some (claim, 1%nat) |}.

(** C27 where one run waits already: the second round, in which the own ticket is second of two, takes the slot, and the
    ticket is released. *)
Lemma slot_taken_in_turn_witness :
  snd (wait_slot options 0 two_rounds (Ok true)) = Some (Ok the_slot) ∧
  TriedSlots 2 2 ∈ fst (wait_slot options 0 two_rounds (Ok true)) ∧
  in_its_turn two_rounds None (fst (wait_slot options 0 two_rounds (Ok true))) (fun r _ => took_slot r the_slot) ∧
  tickets (fst (wait_slot options 0 two_rounds (Ok true))) = [ticket_of second].
Proof.
  assert (snd (wait_slot options 0 two_rounds (Ok true)) = Some (Ok the_slot)) as E by (vm_compute; reflexivity).
  destruct (slot_taken_in_turn options 0 two_rounds (Ok true) (Ok the_slot) E) as (_ & Hs & _).
  split_and!; [exact E|vm_compute; left|exact Hs|vm_compute; reflexivity].
Defined.
End SampleSlots.
