(* ===== verification/NotificationLog.v ===== *)
(** * The notification log: [server/src/notification-log.ts]

    The notifications that the rules of oversight produced, numbered and kept in a file within limits. The state is
    the file, as [readJsonObject] gives it, and what the object has loaded; the value of the file is modelled, not the
    order of its members. A call reads one clock; the name of a new log, a random one, is an argument. *)

From Stdlib Require Import ZArith Lia.
From S2P Require Import Prelude.
From S2P Require Import Bytes.
From S2P Require Import Json.
From S2P Require Import Policy.
From S2P Require Import Registry.
Open Scope Z_scope.

Inductive NotificationSuppression := SuppressedMuted | SuppressedQuiet.

#[export] Instance NotificationSuppression_eq_dec : EqDecision NotificationSuppression.
Proof. solve_decision. Defined.

Definition NOTIFICATION_SUPPRESSIONS : list NotificationSuppression := [SuppressedMuted; SuppressedQuiet].

Definition suppression_text (s : NotificationSuppression) : units :=
  match s with SuppressedMuted => js "muted" | SuppressedQuiet => js "quiet-hours" end.

(** [ne_target] is a JSON object with a [kind]. *)
Record NewEntry := {
  ne_id : units;
  ne_category : PushEvent;
  ne_title : units;
  ne_body : units;
  ne_quiet : bool;
  ne_target : json;
  ne_suppressed : option NotificationSuppression;
  ne_device : option units;
}.

Record LoggedNotification := {
  lg_seq : Z;
  lg_at : units;
  lg_entry : NewEntry;
}.

Record LogFile := {
  lf_log : units;
  lf_nextSeq : Z;
  lf_entries : list LoggedNotification;
}.

Definition LIMITS_entries : nat := 200.
Definition LIMITS_ageMs : Z := 7 * 24 * 60 * 60000.

Section Log.
Context `{!NodeDate}.

Definition int_of (value : option json) : option Z :=
  match value with Some (JNumber n) => Some n | _ => None end.

Definition bool_of (value : option json) : option bool :=
  match value with Some (JBool b) => Some b | _ => None end.

Definition event_of_text (value : option json) : option PushEvent :=
  text ← text_of value; List.find (fun e => bool_decide (push_event_text e = text)) PUSH_EVENTS.

(** [None] where it is neither absent nor one of the reasons. *)
Definition parse_suppressed (value : option json) : option (option NotificationSuppression) :=
  match value with
  | None => Some None
  | Some (JString text) =>
      Some <$> List.find (fun s => bool_decide (suppression_text s = text)) NOTIFICATION_SUPPRESSIONS
  | Some _ => None
  end.

Definition parseEntry (value : json) : option LoggedNotification :=
  match value with
  | JObject fields =>
      seq ← int_of (field_of "seq" fields);
      at_ ← text_of (field_of "at" fields);
      _ ← Date_parse at_;
      id ← text_of (field_of "id" fields);
      title ← text_of (field_of "title" fields);
      body ← text_of (field_of "body" fields);
      category ← event_of_text (field_of "category" fields);
      quiet ← bool_of (field_of "quiet" fields);
      target ← field_of "target" fields;
      _ ← text_of (field "kind" target);
      suppressed ← parse_suppressed (field_of "suppressed" fields);
      Some {| lg_seq := seq; lg_at := at_;
              lg_entry := {| ne_id := id; ne_category := category; ne_title := title; ne_body := body;
                             ne_quiet := quiet; ne_target := target; ne_suppressed := suppressed;
                             ne_device := text_of (field_of "device" fields) |} |}
  | _ => None
  end.

Definition parseLog (value : option (list (units * json))) : option LogFile :=
  fields ← value;
  log ← text_of (field_of "log" fields);
  nextSeq ← int_of (field_of "nextSeq" fields);
  Some {| lf_log := log; lf_nextSeq := nextSeq;
          lf_entries := match field_of "entries" fields with
                        | Some (JArray entries) => omap parseEntry entries
                        | _ => []
                        end |}.

(** What is written. *)
Definition entry_json (e : LoggedNotification) : json :=
  let n := lg_entry e in
  JObject ([(js "seq", JNumber (lg_seq e)); (js "at", JString (lg_at e)); (js "id", JString (ne_id n));
            (js "category", JString (push_event_text (ne_category n))); (js "title", JString (ne_title n));
            (js "body", JString (ne_body n)); (js "quiet", JBool (ne_quiet n)); (js "target", ne_target n)]
    ++ opt_member "suppressed" ((fun s => JString (suppression_text s)) <$> ne_suppressed n)
    ++ opt_member "device" (JString <$> ne_device n)).

Definition log_json (f : LogFile) : list (units * json) :=
  [(js "version", JNumber 1); (js "log", JString (lf_log f)); (js "nextSeq", JNumber (lf_nextSeq f));
   (js "entries", JArray (map entry_json (lf_entries f)))].

(** [NotificationLog]: the file and [loaded]. *)
Record Log := {
  nl_file : option (list (units * json));
  nl_loaded : option LogFile;
}.

Definition new_NotificationLog (file : option (list (units * json))) : Log :=
  {| nl_file := file; nl_loaded := None |}.

(** The getter [state]; [random] names a log that starts. *)
Definition log_state (random : units) (l : Log) : LogFile * Log :=
  match nl_loaded l with
  | Some f => (f, l)
  | None =>
      let f := default {| lf_log := random; lf_nextSeq := 1; lf_entries := [] |} (parseLog (nl_file l)) in
      (f, {| nl_file := nl_file l; nl_loaded := Some f |})
  end.

(** [slice(-n)]. *)
Definition slice_last {A} (n : nat) (l : list A) : list A := drop (length l - n) l.

Definition is_recent (now : Z) (e : LoggedNotification) : bool :=
  match Date_parse (lg_at e) with Some t => now - LIMITS_ageMs <=? t | None => false end.

Definition bounded (now : Z) (entries : list LoggedNotification) : list LoggedNotification :=
  slice_last LIMITS_entries (List.filter (is_recent now) entries).

Inductive log_error := LogInvalidDate | LogNotLocked | LogNotWritten.

(** What the lock and the write come to. *)
Inductive LogIo := LockThrows | WriteThrows | IoDone.

Definition number_entries (nextSeq : Z) (at_ : units) (entries : list NewEntry) : list LoggedNotification :=
  imap (fun i entry => {| lg_seq := nextSeq + Z.of_nat i; lg_at := at_; lg_entry := entry |}) entries.

Definition append (now : Z) (random : units) (io : LogIo) (entries : list NewEntry) (l : Log) :
    Log * result log_error (list LoggedNotification) :=
  match entries, toISOString now, io with
  | [], _, _ => (l, Ok [])
  | _, None, _ => (l, Throw LogInvalidDate)
  | _, _, LockThrows => (l, Throw LogNotLocked)
  | _, Some at_, _ =>
      let '(current, l) := match parseLog (nl_file l) with
                           | Some current => (current, l)
                           | None => log_state random l
                           end in
      let added := number_entries (lf_nextSeq current) at_ entries in
      let next := {| lf_log := lf_log current; lf_nextSeq := lf_nextSeq current + Z.of_nat (length added);
                     lf_entries := bounded now (lf_entries current ++ added) |} in
      match io with
      | IoDone => ({| nl_file := Some (log_json next); nl_loaded := Some next |}, Ok added)
      | _ => (l, Throw LogNotWritten)
      end
  end.

Definition visible (device : units) (e : LoggedNotification) : bool :=
  match ne_device (lg_entry e) with None => true | Some d => bool_decide (d = device) end.

Definition publicEntry (e : LoggedNotification) : LoggedNotification :=
  let n := lg_entry e in
  {| lg_seq := lg_seq e; lg_at := lg_at e;
     lg_entry := {| ne_id := ne_id n; ne_category := ne_category n; ne_title := ne_title n; ne_body := ne_body n;
                    ne_quiet := ne_quiet n; ne_target := ne_target n; ne_suppressed := ne_suppressed n;
                    ne_device := None |} |}.

Record NotificationsListResult := {
  nr_log : units;
  nr_cursor : Z;
  nr_notifications : list LoggedNotification;
}.

Definition list_notifications (now : Z) (random : units) (device : units) (since : Z) (l : Log) :
    Log * NotificationsListResult :=
  let '(f, l) := log_state random l in
  (l, {| nr_log := lf_log f; nr_cursor := lf_nextSeq f - 1;
         nr_notifications :=
           reverse (map publicEntry (List.filter (fun e => (since <? lg_seq e) && visible device e)
                                       (bounded now (lf_entries f)))) |}).

(** [latest], by [findLast]. *)
Definition latest (random id device : units) (l : Log) : Log * option Z :=
  let '(f, l) := log_state random l in
  (l, lg_seq <$> List.find (fun e => bool_decide (ne_id (lg_entry e) = id) && visible device e)
                   (reverse (lf_entries f))).

Definition log_id (random : units) (l : Log) : Log * units :=
  let '(f, l) := log_state random l in (l, lf_log f).
End Log.
