(* ===== verification/NotificationLogFacts.v ===== *)
(** * What the notification log keeps: [server/src/notification-log.ts]

    A file that is written is read back as it is; through calls and restarts, while the clock does not go back, the
    log holds of all that was ever appended what its limits allow, so that a cursor finds what came after it. *)

From Stdlib Require Import ZArith Lia.
From S2P Require Import Prelude.
From S2P Require Import Bytes.
From S2P Require Import Json.
From S2P Require Import Policy.
From S2P Require Import Registry.
From S2P Require Import RegistryFacts.
From S2P Require Import NotificationLog.
Open Scope Z_scope.

(** A date that is written is read as the time it was. *)
Class DateLaws `{!NodeDate} := {
  parse_written_date : ∀ t s, toISOString t = Some s → Date_parse s = Some t;
}.

Section Facts.
Context `{!NodeDate}.

(** ** The file *)

Definition target_ok (target : json) : Prop := is_Some (text_of (field "kind" target)).

Definition entry_ok (e : LoggedNotification) : Prop :=
  is_Some (Date_parse (lg_at e)) ∧ target_ok (ne_target (lg_entry e)).

Lemma event_read e : event_of_text (Some (JString (push_event_text e))) = Some e.
Proof. by destruct e. Qed.

Lemma entry_read e : entry_ok e → parseEntry (entry_json e) = Some e.
Proof.
  destruct e as [seq at_ [id cat title body quiet target sup dev]]. intros [[t Ht] [k Hk]]. cbn in Ht, Hk.
  unfold entry_json, parseEntry. cbn [lg_seq lg_at lg_entry ne_id ne_category ne_title ne_body ne_quiet ne_target ne_suppressed ne_device].
  fields. cbn [text_of int_of bool_of mbind option_bind]. rewrite Ht. cbn [mbind option_bind].
  rewrite event_read. cbn [mbind option_bind]. rewrite Hk. cbn [mbind option_bind].
  by destruct sup as [[]|], dev.
Qed.

Lemma log_read f : Forall entry_ok (lf_entries f) → parseLog (Some (log_json f)) = Some f.
Proof.
  destruct f as [log next entries]. cbn [lf_entries]. intros He.
  unfold parseLog, log_json. cbn [mbind option_bind lf_log lf_nextSeq lf_entries]. fields.
  cbn [text_of int_of mbind option_bind]. do 2 f_equal.
  induction He as [|e l Hok He IH]; [done|]. cbn -[parseEntry entry_json]. rewrite entry_read by done. by f_equal.
Qed.

(** ** Limits *)

Definition older (a b : LoggedNotification) : Prop :=
  ∃ ta tb, Date_parse (lg_at a) = Some ta ∧ Date_parse (lg_at b) = Some tb ∧ ta <= tb.

Lemma recent_later now a b : older a b → is_recent now a = true → is_recent now b = true.
Proof. intros (ta & tb & Ha & Hb & Hle). unfold is_recent. rewrite Ha, Hb. lia. Qed.

Lemma recent_sooner now now' e : now <= now' → is_recent now' e = true → is_recent now e = true.
Proof. intros Hle. unfold is_recent. destruct (Date_parse _); [lia|done]. Qed.

Lemma recent_split now l : StronglySorted older l →
  ∃ p, l = p ++ List.filter (is_recent now) l ∧ Forall (fun e => is_recent now e = false) p.
Proof.
  induction 1 as [|e l _ (p & Hp & Hold) He]; [by exists []|]. cbn. destruct (is_recent now e) eqn:E.
  - exists []. split; [|constructor]. cbn. f_equal. symmetry. apply forallb_filter_id, forallb_forall.
    intros x Hx. eapply recent_later, E. rewrite Forall_forall in He. apply He. by apply list_elem_of_In.
  - exists (e :: p). split; [cbn; by f_equal|by constructor].
Qed.

Lemma slice_last_short {A} n (l : list A) : (length l <= n)%nat → slice_last n l = l.
Proof. intros. unfold slice_last. by replace (length l - n)%nat with 0%nat by lia. Qed.

Lemma slice_last_app {A} n (l k : list A) : (n <= length k)%nat → slice_last n (l ++ k) = slice_last n k.
Proof. intros. unfold slice_last. rewrite length_app, drop_app_ge by lia. f_equal. lia. Qed.

Lemma slice_last_length {A} n (l : list A) : (n <= length l)%nat → length (slice_last n l) = n.
Proof. intros. unfold slice_last. rewrite length_drop. lia. Qed.

Lemma filter_existsb {A} (f : A → bool) l : existsb f l = false → List.filter f l = [].
Proof. induction l as [|x l IH]; cbn; [done|]. by intros [-> ?%IH]%orb_false_iff. Qed.

Lemma bounded_suffix now l : StronglySorted older l →
  ∃ p, l = p ++ bounded now l
     ∧ ((LIMITS_entries <= length (bounded now l))%nat ∨ Forall (fun e => is_recent now e = false) p).
Proof.
  intros (p & Hp & Hold)%(recent_split now). unfold bounded. set (f := List.filter (is_recent now) l) in *.
  destruct (decide (length f <= LIMITS_entries)%nat) as [Hs|Hs].
  - exists p. rewrite slice_last_short by done. auto.
  - exists (p ++ take (length f - LIMITS_entries) f). unfold slice_last at 1. rewrite <- app_assoc, take_drop.
    split; [done|]. left. rewrite slice_last_length; lia.
Qed.

Lemma sorted_app_cross (l k : list LoggedNotification) x y :
  StronglySorted older (l ++ k) → x ∈ l → y ∈ k → older x y.
Proof.
  induction l as [|z l IH]; cbn; intros Hs Hx Hy; [by apply elem_of_nil in Hx|].
  apply StronglySorted_inv in Hs as [Hs Hz]. apply elem_of_cons in Hx as [->|Hx]; [|by apply IH].
  rewrite Forall_forall in Hz. apply Hz. set_solver.
Qed.

Lemma sorted_app_left (l k : list LoggedNotification) : StronglySorted older (l ++ k) → StronglySorted older l.
Proof.
  induction l as [|z l IH]; cbn; intros Hs; [constructor|]. apply StronglySorted_inv in Hs as [Hs Hz].
  apply Forall_app in Hz as [Hz _]. constructor; auto.
Qed.

(** What was dropped at an earlier time would be dropped now. *)
Lemma bounded_again now now' l k : StronglySorted older (l ++ k) → now <= now' →
  bounded now' (bounded now l ++ k) = bounded now' (l ++ k).
Proof.
  intros Hs Hle. destruct (bounded_suffix now l (sorted_app_left _ _ Hs)) as (p & Hp & Hcase).
  set (q := bounded now l) in *. rewrite Hp in Hs |- *. rewrite <- app_assoc in Hs |- *.
  unfold bounded at 1 2. rewrite (List.filter_app (is_recent now') p). symmetry.
  destruct (existsb (is_recent now') p) eqn:E.
  - apply existsb_exists in E as (x & Hx%list_elem_of_In & Hr). apply slice_last_app.
    rewrite (forallb_filter_id _ (q ++ k)).
    + destruct Hcase as [Hcase|Hcase]; [rewrite length_app; lia|]. rewrite Forall_forall in Hcase.
      specialize (Hcase x Hx). by rewrite (recent_sooner now now' x) in Hcase.
    + apply forallb_forall. intros y Hy%list_elem_of_In. eapply recent_later, Hr. by eapply sorted_app_cross.
  - by rewrite (filter_existsb _ p).
Qed.

(** Of the entries from a place on, the limits keep what they keep of these alone. *)
Lemma bounded_later now l k :
  ∃ p, bounded now (l ++ k) = p ++ bounded now k ∧ p ⊆ l.
Proof.
  unfold bounded. rewrite List.filter_app. set (fl := List.filter _ l). set (fk := List.filter _ k).
  assert (∀ x, x ∈ fl → x ∈ l) as Hsub.
  { intros x Hx. apply list_elem_of_In. apply list_elem_of_In, filter_In in Hx. tauto. }
  destruct (decide (LIMITS_entries <= length fk)%nat) as [Hl|Hl].
  - exists []. split; [by apply slice_last_app|]. set_solver.
  - exists (drop (length (fl ++ fk) - LIMITS_entries) fl). split; [|].
    + rewrite (slice_last_short _ fk) by lia. unfold slice_last. apply drop_app_le. rewrite length_app. lia.
    + intros x Hx. apply Hsub. by eapply subseteq_drop.
Qed.

(** ** Runs *)

Inductive LogEvent :=
| LogAppends (now : Z) (random : units) (io : LogIo) (entries : list NewEntry)
| LogLists (now : Z) (random device : units) (since : Z)
| LogFinds (random id device : units)
| LogRestarts.

(** The log after an event, and what the event appended. *)
Definition log_event (event : LogEvent) (l : Log) : Log * list LoggedNotification :=
  match event with
  | LogAppends now random io entries =>
      let '(l, r) := append now random io entries l in (l, match r with Ok added => added | Throw _ => [] end)
  | LogLists now random device since => (fst (list_notifications now random device since l), [])
  | LogFinds random id device => (fst (latest random id device l), [])
  | LogRestarts => (new_NotificationLog (nl_file l), [])
  end.

Fixpoint log_run (events : list LogEvent) (l : Log) : Log * list LoggedNotification :=
  match events with
  | [] => (l, [])
  | event :: events =>
      let '(l, added) := log_event event l in let '(l, more) := log_run events l in (l, added ++ more)
  end.

(** The clock does not go back, and what is appended has a target with a kind. *)
Fixpoint genuine (t : Z) (events : list LogEvent) : Prop :=
  match events with
  | [] => True
  | LogAppends now _ _ entries :: events =>
      t <= now ∧ Forall (fun e => target_ok (ne_target e)) entries ∧ genuine now events
  | LogLists now _ _ _ :: events => t <= now ∧ genuine now events
  | _ :: events => genuine t events
  end.

(** The time after the events. *)
Fixpoint clock (t : Z) (events : list LogEvent) : Z :=
  match events with
  | [] => t
  | LogAppends now _ _ _ :: events | LogLists now _ _ _ :: events => clock now events
  | _ :: events => clock t events
  end.

Definition numbered (start : Z) (l : list LoggedNotification) : Prop :=
  ∀ i e, l !! i = Some e → lg_seq e = start + Z.of_nat i.

(** All that was appended: in order of time, none later than [t]. *)
Definition history_ok (t : Z) (h : list LoggedNotification) : Prop :=
  StronglySorted older h ∧ Forall entry_ok h ∧ numbered 1 h
  ∧ Forall (fun e => ∃ te, Date_parse (lg_at e) = Some te ∧ te <= t) h.

Definition file_of (log : units) (t : Z) (h : list LoggedNotification) : LogFile :=
  {| lf_log := log; lf_nextSeq := Z.of_nat (length h) + 1; lf_entries := bounded t h |}.

(** The log holds of the history what its limits allow; [log] names it once it has entries. *)
Definition keeps (log : units) (t : Z) (h : list LoggedNotification) (l : Log) : Prop :=
  history_ok t h ∧
  ((h = [] ∧ parseLog (nl_file l) = None ∧ (nl_loaded l = None ∨ ∃ name, nl_loaded l = Some (file_of name t [])))
   ∨ ∃ t', t' <= t ∧ nl_file l = Some (log_json (file_of log t' h))
       ∧ (nl_loaded l = None ∨ nl_loaded l = Some (file_of log t' h))).

(** The file as a call reads it. *)
Definition reads (log : units) (t : Z) (h : list LoggedNotification) (r : LogFile * Log) : Prop :=
  keeps log t h (snd r) ∧ ∃ name t', t' <= t ∧ (h ≠ [] → name = log) ∧ fst r = file_of name t' h.

Lemma bounded_sub now h : bounded now h ⊆ h.
Proof.
  intros x Hx%subseteq_drop%list_elem_of_In%filter_In. apply list_elem_of_In. tauto.
Qed.

Lemma file_read log t h : Forall entry_ok h → parseLog (Some (log_json (file_of log t h))) = Some (file_of log t h).
Proof.
  intros Hok. apply log_read. cbn [file_of lf_entries]. rewrite !Forall_forall in *.
  intros x Hx%bounded_sub. auto.
Qed.

Lemma state_reads random log t h l : keeps log t h l → reads log t h (log_state random l).
Proof.
  intros [Hh [(-> & Hf & Hl)|(t' & Ht & Hf & Hl)]]; unfold log_state.
  - destruct Hl as [Hl|[name Hl]]; rewrite Hl; [rewrite Hf; cbn|].
    + split; [split; [done|]; left; eauto|]. exists random, t. by split_and!; [lia| |].
    + split; [split; [done|]; left; eauto|]. exists name, t. by split_and!; [lia| |].
  - pose proof (file_read log t' h ltac:(apply Hh)) as Hr. rewrite <- Hf in Hr.
    destruct Hl as [Hl|Hl]; rewrite Hl; [rewrite Hr|];
      (split; [split; [done|]; right; exists t'; cbn; auto|exists log, t'; auto]).
Qed.

Lemma current_reads random log t h l : keeps log t h l →
  reads log t h (match parseLog (nl_file l) with Some current => (current, l) | None => log_state random l end).
Proof.
  intros Hk. pose proof Hk as [Hh [(-> & Hf & _)|(t' & Ht & Hf & _)]].
  - rewrite Hf. by apply state_reads.
  - rewrite Hf, file_read by apply Hh. split; [done|]. exists log, t'. auto.
Qed.

Lemma numbered_length start at_ entries : length (number_entries start at_ entries) = length entries.
Proof. apply length_imap. Qed.

Lemma numbered_app start h k :
  numbered start h → numbered (start + Z.of_nat (length h)) k → numbered start (h ++ k).
Proof.
  intros Hh Hk i e [He|[Hi He]]%lookup_app_Some; [by apply Hh|]. apply Hk in He. lia.
Qed.

Lemma number_entries_ok start at_ entries : numbered start (number_entries start at_ entries).
Proof.
  intros i e. unfold number_entries. rewrite list_lookup_imap. by intros (x & _ & ->)%fmap_Some.
Qed.

(** ** An append *)

Lemma sorted_snoc l k : StronglySorted older l → (∀ x y, x ∈ l → y ∈ k → older x y) → StronglySorted older k →
  StronglySorted older (l ++ k).
Proof.
  induction 1 as [|x l _ IH Hx]; cbn; intros Hc Hk; [done|]. constructor.
  - apply IH; [|done]. intros y z Hy. apply Hc. by right.
  - apply Forall_app. split; [done|]. apply Forall_forall. intros y Hy. apply Hc; [left|done].
Qed.

Context `{!DateLaws}.

Lemma added_entry start at_ entries e : e ∈ number_entries start at_ entries →
  lg_at e = at_ ∧ lg_entry e ∈ entries.
Proof.
  intros (i & Hi)%list_elem_of_lookup. unfold number_entries in Hi. rewrite list_lookup_imap in Hi.
  apply fmap_Some in Hi as (x & Hx & ->). split; [done|]. cbn. by eapply list_elem_of_lookup_2.
Qed.

Lemma history_append t now at_ h entries : history_ok t h → t <= now → toISOString now = Some at_ →
  Forall (fun e => target_ok (ne_target e)) entries →
  history_ok now (h ++ number_entries (Z.of_nat (length h) + 1) at_ entries).
Proof.
  intros (Hs & Hok & Hn & Ht) Hle Hat%parse_written_date He. set (added := number_entries _ _ _).
  assert (∀ e, e ∈ added → Date_parse (lg_at e) = Some now) as Hadd.
  { intros e [-> _]%added_entry. done. }
  rewrite Forall_forall in Ht. rewrite Forall_forall in He. split_and!.
  - apply sorted_snoc; [done| |].
    + intros x y Hx Hy. destruct (Ht x Hx) as (tx & Etx & Hx'). exists tx, now. split_and!; [done|auto|lia].
    + assert (∀ k, k ⊆ added → StronglySorted older k) as Hk; [|by apply Hk].
      induction k as [|x k IH]; intros Hsub; constructor; [apply IH; set_solver|].
      apply Forall_forall. intros y Hy. exists now, now. split_and!; [apply Hadd; set_solver..|lia].
  - apply Forall_app. split; [done|]. apply Forall_forall. intros e Hin. split; [rewrite Hadd by done; eauto|].
    apply added_entry in Hin as [_ Hin]. by apply He.
  - apply numbered_app; [done|]. replace (1 + Z.of_nat (length h)) with (Z.of_nat (length h) + 1) by lia.
    apply number_entries_ok.
  - apply Forall_app. split; apply Forall_forall; intros e Hin; [|by exists now; split; [auto|]].
    destruct (Ht e Hin) as (te & ? & ?). exists te. split; [done|lia].
Qed.

Lemma history_later t now h : history_ok t h → t <= now → history_ok now h.
Proof.
  intros (Hs & Hok & Hn & Ht) Hle. split_and!; try done. eapply Forall_impl; [exact Ht|].
  intros e (te & ? & ?). exists te. split; [done|lia].
Qed.

Lemma keeps_later log t now h l : keeps log t h l → t <= now → keeps log now h l.
Proof.
  intros [Hh Hc] Hle. split; [by eapply history_later|].
  destruct Hc as [(-> & Hf & Hl)|(t' & ? & ? & ?)]; [left; split_and!; [done|done|exact Hl]|right; exists t'; split_and!; [lia|done|done]].
Qed.

Lemma append_keeps log t h l now random io entries :
  keeps log t h l → t <= now → Forall (fun e => target_ok (ne_target e)) entries →
  let '(l', added) := log_event (LogAppends now random io entries) l in
  ∃ name, (h ≠ [] → name = log) ∧ keeps name now (h ++ added) l'.
Proof.
  intros Hk Hle He. cbn. unfold append.
  assert (∃ name, (h ≠ [] → name = log) ∧ keeps name now (h ++ []) l) as Hsame.
  { exists log. rewrite app_nil_r. split; [done|]. by eapply keeps_later. }
  destruct entries as [|e0 entries']; [done|]. set (entries := e0 :: entries') in *.
  destruct (toISOString now) as [at_|] eqn:Eat; [|by destruct io].
  pose proof (current_reads random log t h l Hk) as Hr.
  destruct (match parseLog (nl_file l) with Some _ => _ | None => _ end) as [current l1].
  destruct Hr as [Hk1 (name & t' & Ht' & Hname & Hc)]. cbn in Hk1, Hc. subst current.
  destruct io; [done| |].
  - exists log. rewrite app_nil_r. split; [done|]. by eapply keeps_later.
  - exists name. split; [done|]. cbn [file_of lf_nextSeq lf_log lf_entries].
    pose proof (history_append t now at_ h entries ltac:(apply Hk) Hle Eat He) as Hh. split; [done|]. right.
    exists now. rewrite bounded_again by (apply Hh || lia). split; [lia|].
    set (added := number_entries _ _ _) in *. unfold file_of. rewrite length_app.
    replace (Z.of_nat (length h) + 1 + Z.of_nat (length added)) with (Z.of_nat (length h + length added) + 1) by lia.
    split; [done|]. by right.
Qed.

Lemma event_keeps log t h l event events : keeps log t h l → genuine t (event :: events) →
  let '(l', added) := log_event event l in
  ∃ name, (h ≠ [] → name = log) ∧ keeps name (clock t [event]) (h ++ added) l' ∧ genuine (clock t [event]) events.
Proof.
  intros Hk Hg. destruct event as [now random io entries|now random device since|random id device|].
  - destruct Hg as (Hle & He & Hg). pose proof (append_keeps log t h l now random io entries Hk Hle He) as Ha.
    destruct (log_event _ l) as [l' added]. destruct Ha as (name & Hn & Ha). eauto.
  - destruct Hg as [Hle Hg]. exists log. rewrite app_nil_r. split_and!; [done| |done]. eapply keeps_later; [|exact Hle].
    destruct (state_reads random log t h l Hk) as [Hs _]. unfold list_notifications. by destruct (log_state random l).
  - exists log. rewrite app_nil_r. split_and!; [done| |done].
    destruct (state_reads random log t h l Hk) as [Hs _]. cbn. unfold latest. by destruct (log_state random l).
  - exists log. rewrite app_nil_r. split_and!; [done| |done]. destruct Hk as [Hh Hc]. split; [done|].
    destruct Hc as [(-> & Hf & _)|(t' & ? & ? & _)]; [left|right; exists t']; cbn; auto.
Qed.

Lemma run_keeps events : ∀ log t h l, keeps log t h l → genuine t events →
  let '(l', added) := log_run events l in
  ∃ name, (h ≠ [] → name = log) ∧ keeps name (clock t events) (h ++ added) l'.
Proof.
  induction events as [|event events IH]; intros log t h l Hk Hg; cbn [log_run].
  - exists log. rewrite app_nil_r. split; [done|exact Hk].
  - pose proof (event_keeps log t h l event events Hk Hg) as He. destruct (log_event event l) as [l1 added].
    destruct He as (name & Hn & Hk1 & Hg1). pose proof (IH _ _ _ _ Hk1 Hg1) as Hr.
    destruct (log_run events l1) as [l2 more]. destruct Hr as (name2 & Hn2 & Hk2). exists name2. split.
    + intros Hh. rewrite Hn2; [by apply Hn|]. by destruct h.
    + rewrite app_assoc. by destruct event.
Qed.

Lemma list_answer log t h l now random device since : keeps log t h l → t <= now →
  let answer := snd (list_notifications now random device since l) in
  nr_cursor answer = Z.of_nat (length h) ∧ (h ≠ [] → nr_log answer = log)
  ∧ nr_notifications answer
    = reverse (map publicEntry (List.filter (fun e => (since <? lg_seq e) && visible device e) (bounded now h))).
Proof.
  intros Hk Hle. destruct (state_reads random log t h l Hk) as [_ (name & t' & Ht & Hn & Hf)].
  unfold list_notifications. destruct (log_state random l) as [f l']. cbn [fst snd] in Hf |- *. subst f.
  cbn [nr_cursor nr_log nr_notifications file_of lf_log lf_nextSeq lf_entries].
  assert (bounded now (bounded t' h) = bounded now h) as ->; [|by split_and!; [lia| |]].
  rewrite <- (app_nil_r (bounded t' h)), bounded_again, app_nil_r; [done| |lia]. rewrite app_nil_r. apply Hk.
Qed.

Lemma filter_after c device p q : Forall (fun e => lg_seq e <= c) p → Forall (fun e => c < lg_seq e) q →
  List.filter (fun e => (c <? lg_seq e) && visible device e) (p ++ q) = List.filter (visible device) q.
Proof.
  intros Hp Hq. rewrite List.filter_app. rewrite filter_existsb.
  - induction Hq as [|e q He _ IH]; [done|]. cbn in IH |- *. rewrite IH. by replace (c <? lg_seq e) with true by lia.
  - induction Hp as [|e p He _ IH]; [done|]. cbn. rewrite IH. by replace (c <? lg_seq e) with false by lia.
Qed.

Lemma genuine_app t a b : genuine t (a ++ b) ↔ genuine t a ∧ genuine (clock t a) b.
Proof.
  revert t. induction a as [|event a IH]; intros t; [cbn; tauto|].
  destruct event; cbn; rewrite IH; tauto.
Qed.

Lemma new_keeps log t file : parseLog file = None → keeps log t [] (new_NotificationLog file).
Proof.
  intros Hf. split; [|left; cbn; auto]. split_and!; [constructor..| |constructor]. intros i e Hi. done.
Qed.

Lemma numbered_within h : numbered 1 h → Forall (fun e => lg_seq e <= Z.of_nat (length h)) h.
Proof.
  intros Hn. apply Forall_forall. intros e (i & Hi)%list_elem_of_lookup. pose proof (Hn _ _ Hi) as ->.
  apply lookup_lt_Some in Hi. lia.
Qed.

(** C33: a client that asks with the cursor it was last given gets just what was logged since, newest first, of what
    the limits leave and it may see. A log starts without a file that can be read, and the clock of its calls does not
    go back, through restarts either; apart from that, whatever was appended, failed to be written, was listed or
    restarted before and since, the entries that came after the cursor are numbered from it on. The limits are of the
    log, not of the client: of these entries those no older than a week are taken, of them the newest 200, and of the
    200 those are sent that are for every device or for the client's own, so a client is sent less than 200 where
    others' entries are among them. While the log has entries it keeps its name. *)
Theorem cursor_misses_nothing file t before now0 random0 device0 since0 after now random device :
  parseLog file = None →
  genuine t (before ++ LogLists now0 random0 device0 since0 :: after ++ [LogLists now random device 0]) →
  let l0 := fst (log_run before (new_NotificationLog file)) in
  let '(l1, first) := list_notifications now0 random0 device0 since0 l0 in
  let '(l2, added) := log_run after l1 in
  let '(_, answer) := list_notifications now random device (nr_cursor first) l2 in
  nr_notifications answer = reverse (map publicEntry (List.filter (visible device) (bounded now added)))
  ∧ (∀ i e, added !! i = Some e → lg_seq e = nr_cursor first + 1 + Z.of_nat i)
  ∧ nr_cursor answer = nr_cursor first + Z.of_nat (length added)
  ∧ (1 <= nr_cursor first → nr_log answer = nr_log first).
Proof.
  intros Hf Hg. apply genuine_app in Hg as [Hg0 [Hle0 Hg]]. apply genuine_app in Hg as [Hg1 [Hle _]].
  pose proof (run_keeps before [] t [] _ (new_keeps [] t file Hf) Hg0) as Hrun. cbn zeta.
  destruct (log_run before _) as [l0 h] eqn:E0. cbn [fst]. destruct Hrun as (log & _ & Hk0). cbn [app] in Hk0.
  destruct (list_answer log _ h l0 now0 random0 device0 since0 Hk0 Hle0) as (Hc & Hlog & _).
  pose proof (event_keeps log _ h l0 (LogLists now0 random0 device0 since0) [] Hk0 ltac:(by split)) as Hk1.
  cbn [log_event] in Hk1. destruct (list_notifications now0 _ _ _ l0) as [l1 first]. cbn [fst snd] in Hk1, Hc, Hlog.
  destruct Hk1 as (log1 & Hn1 & Hk1 & _). rewrite app_nil_r in Hk1. cbn [clock] in Hk1.
  pose proof (run_keeps after log1 now0 h l1 Hk1 Hg1) as Hk2. destruct (log_run after l1) as [l2 added].
  destruct Hk2 as (log2 & Hn2 & Hk2).
  destruct (list_answer log2 _ _ l2 now random device (nr_cursor first) Hk2 Hle) as (Hc2 & Hlog2 & Ha).
  destruct (list_notifications now _ _ _ l2) as [l3 answer]. cbn [snd] in Hc2, Hlog2, Ha.
  assert (numbered 1 h) as Hnum by apply Hk0.
  assert (∀ i e, added !! i = Some e → lg_seq e = nr_cursor first + 1 + Z.of_nat i) as Hadd.
  { intros i e Hi. destruct Hk2 as [(_ & _ & Hnum2 & _) _]. rewrite Hc.
    rewrite (Hnum2 (length h + i)%nat e); [lia|]. by rewrite lookup_app_r, Nat.add_comm, Nat.add_sub by lia. }
  split_and!; [|done|rewrite Hc2, Hc, length_app; lia|].
  - rewrite Ha. do 2 f_equal. destruct (bounded_later now h added) as (p & -> & Hp). apply filter_after.
    + rewrite Hc. pose proof (numbered_within h Hnum) as Hw. rewrite Forall_forall in Hw |- *. auto.
    + apply Forall_forall. intros e (i & Hi)%bounded_sub%list_elem_of_lookup. apply Hadd in Hi. lia.
  - intros H1. assert (h ≠ []) as Hh by (intros ->; cbn in Hc; lia).
    rewrite Hlog by done. rewrite Hlog2 by (by destruct h). rewrite Hn2 by done. by apply Hn1.
Qed.
End Facts.

(** ** A log *)

Module SampleLog.
#[global] Instance date : NodeDate := {|
  Date_parse s := match s with [65; t] => Some t | _ => None end;
  toISOString t := Some [65; t];
|}.
#[global] Instance date_laws : DateLaws.
Proof. split. intros t s H. by injection H as <-. Qed.

Definition note (id : string) (device : option units) : NewEntry :=
  {| ne_id := js id; ne_category := PushStuck; ne_title := []; ne_body := []; ne_quiet := false;
     ne_target := JObject [(js "kind", JString (js "machine"))]; ne_suppressed := Some SuppressedMuted;
     ne_device := device |}.

Definition before : list LogEvent := [LogAppends 5 (js "r1") IoDone [note "a" None; note "b" None]].
Definition after : list LogEvent :=
  [LogAppends 6 (js "r3") WriteThrows [note "lost" None]; LogRestarts;
   LogAppends (LIMITS_ageMs + 6) (js "r4") IoDone [note "c" None; note "d" (Some (js "phone")); note "e" (Some (js "mac"))]].

(** C33 where two entries were listed, a write failed, the server restarted and three more came, one of them for
    another device: the two others are sent, in one log. *)
Lemma cursor_misses_nothing_witness :
  let l0 := fst (log_run before (new_NotificationLog None)) in
  let '(l1, first) := list_notifications 5 (js "r2") (js "mac") 0 l0 in
  let '(l2, added) := log_run after l1 in
  let '(_, answer) := list_notifications (LIMITS_ageMs + 7) (js "r5") (js "mac") (nr_cursor first) l2 in
  nr_notifications answer
    = reverse (map publicEntry (List.filter (visible (js "mac")) (bounded (LIMITS_ageMs + 7) added)))
  ∧ map lg_seq (nr_notifications answer) = [5; 3] ∧ nr_log answer = js "r1".
Proof.
  assert (genuine 0 (before ++ LogLists 5 (js "r2") (js "mac") 0 :: after
                     ++ [LogLists (LIMITS_ageMs + 7) (js "r5") (js "mac") 0])) as Hg.
  { cbn. split_and!; try (vm_compute; discriminate); repeat constructor; vm_compute; eauto. }
  pose proof (cursor_misses_nothing None 0 before 5 (js "r2") (js "mac") 0 after (LIMITS_ageMs + 7) (js "r5")
                (js "mac") eq_refl Hg) as H.
  revert H. vm_compute. intros (H & _). by split_and!.
Defined.
End SampleLog.
