(* ===== verification/Push.v ===== *)
(** * Push notifications: [server/src/push.ts]

    [PushNotifier] looks at the status of the machine with the rules of oversight, once for the log and once for each
    device that registered, logs what they find and sends the devices what they asked for, within a limit of alerts per
    hour. The state holds its fields and what the runtime keeps for it: the timers that are set and the requests that
    are under way; what it does to other objects is a trace. A turn, [Turn], holds what is read outside: one clock, the
    paired devices, the disks. Warnings on the console are not modelled. *)

From Stdlib Require Import ZArith Lia.
From S2P Require Import Prelude.
From S2P Require Import Bytes.
From S2P Require Import Json.
From S2P Require Import Policy.
From S2P Require Import Oversight.
From S2P Require Import Oversee.
From S2P Require Import KeyedDelta.
From S2P Require Import Registry.
From S2P Require Import NotificationLog.
Open Scope Z_scope.

Record PushLimits := {
  pl_tickMs : Z;
  pl_diskMs : Z;
  pl_pullRequestMs : Z;
  pl_receiptDelayMs : Z;
  pl_perHour : Z;
  pl_summarizeAbove : nat;
  pl_resubscribeMs : Z;
}.

Definition DEFAULT_PUSH_LIMITS : PushLimits :=
  {| pl_tickMs := 30000; pl_diskMs := 60000; pl_pullRequestMs := 5 * 60000; pl_receiptDelayMs := 15 * 60000;
     pl_perHour := 20; pl_summarizeAbove := 3; pl_resubscribeMs := 30000 |}.

Record PushNotifierOptions := {
  po_name : units;
  po_whilePaired : bool;
  po_limits : PushLimits;
}.

(** The minutes after midnight in a time zone at a time, by [Intl.DateTimeFormat], the hexadecimal SHA-256 of a text,
    and [toLowerCase]. *)
Class PushRuntime := {
  minute_at : Z → units → Z;
  sha256_hex : units → units;
  toLower : units → units;
}.

Inductive PushTarget := PushHome | PushAt (target : OversightTarget).

(** [sound], [interruptionLevel] and [channelId]. *)
Record Delivery := {
  dl_sound : option units;
  dl_interruptionLevel : units;
  dl_channelId : units;
}.

Definition DELIVERY (level : NotificationLevel) : Delivery :=
  match level with
  | LevelAlert =>
      {| dl_sound := Some (js "default"); dl_interruptionLevel := js "active"; dl_channelId := js "attention" |}
  | LevelSilent => {| dl_sound := None; dl_interruptionLevel := js "passive"; dl_channelId := js "updates" |}
  end.

Record PushMessage := {
  pm_to : units;
  pm_title : units;
  pm_subtitle : option units;
  pm_body : units;
  pm_delivery : Delivery;
  pm_collapseId : option units;
  pm_threadId : option units;
  pm_ref : units;
  pm_notification : option Z;
  pm_target : PushTarget;
}.

Record ControlConflict := {
  cc_workspace : units;
  cc_title : units;
  cc_body : units;
  cc_platform : units;
  cc_slot : units;
}.

(** [bk_tokens] counts in 3,600,000ths of a push, which makes the refill exact; the rounding of a double is not
    modelled. *)
Record Bucket := { bk_tokens : Z; bk_at : Z }.
Definition HOUR_MS : Z := 3600000.

Record Registered := {
  rg_id : units;
  rg_push : PushRegistration;
  rg_state : option OversightState;
  rg_bucket : Bucket;
}.

(** The status, with the paths of the workspaces whose branch has an upstream. *)
Record StatusPayload := {
  sp_status : OversightStatus;
  sp_upstream : list units;
}.

(** [path], [branch] and [repository]. *)
Record PullRequestWorktree := { pw_path : units; pw_branch : units; pw_repository : units }.

(** What a timer calls. *)
Inductive Alarm :=
| ATick
| ADisk
| ALookups
| AWake
| AResubscribe
| AReceipts (receipts : list (units * units)).

Inductive PushEffect :=
| PSubscribes (subscription : nat)
| PUnsubscribes (subscription : nat)
| PSets (timer : nat) (alarm : Alarm) (ms : Z)
| PClears (timer : nat)
| PReadsPressure
| PLooksUp (worktrees : list PullRequestWorktree)
| PLogged (entries : list LoggedNotification)
| PSends (request : nat) (messages : list PushMessage)
| PAsksReceipts (request : nat) (ids : list units)
| PDrops (token : units).

(** What was read: [status], [volumes], [pressure] and [pullRequests]. *)
Record Seen := {
  se_status : option StatusPayload;
  se_volumes : option (list Z);
  se_pressure : option units;
  se_pullRequests : gmap units (option OversightPullRequest);
}.

(** What [unwatch] undoes, with [first] of the subscription, and [timers]. *)
Record Handles := {
  hd_unsubscribe : option nat;
  hd_first : bool;
  hd_tick : option nat;
  hd_disk : option nat;
  hd_lookups : option nat;
  hd_wake : option nat;
  hd_resubscribe : option nat;
  hd_timers : list nat;
}.

(** The timers that are set, the next identity, the requests under way and the trace. *)
Record Runtime := {
  rt_alarms : list (nat * Alarm);
  rt_next : nat;
  rt_reads : nat;
  rt_sends : list (nat * list PushMessage);
  rt_checks : list (nat * list (units * units));
  rt_trace : list PushEffect;
}.

(** [PushNotifier]. *)
Record Notifier := {
  pn_registered : list (units * Registered);
  pn_history : option OversightState;
  pn_log : Log;
  pn_seen : Seen;
  pn_handles : Handles;
  pn_lookingUp : bool;
  pn_closed : bool;
  pn_runtime : Runtime;
}.

(** What a turn reads outside: the clock, the approved devices, the leases this server holds, the disks, the kept items
    of the status feed, what a log that starts is named, and what a write of the log comes to. *)
Record Turn := {
  tn_now : Z;
  tn_devices : list PairedDevice;
  tn_ownLeases : list units;
  tn_volumes : option (list Z);
  tn_replay : list StatusPayload;
  tn_random : units;
  tn_io : LogIo;
}.

Definition no_seen : Seen := {| se_status := None; se_volumes := None; se_pressure := None; se_pullRequests := ∅ |}.

Definition new_PushNotifier (log : Log) : Notifier :=
  {| pn_registered := []; pn_history := None; pn_log := log; pn_seen := no_seen;
     pn_handles := {| hd_unsubscribe := None; hd_first := true; hd_tick := None; hd_disk := None; hd_lookups := None;
                      hd_wake := None; hd_resubscribe := None; hd_timers := [] |};
     pn_lookingUp := false; pn_closed := false;
     pn_runtime := {| rt_alarms := []; rt_next := 0; rt_reads := 0; rt_sends := []; rt_checks := []; rt_trace := [] |} |}.

(** ** Assignments *)

Section Assign.
Variable s : Notifier.

Definition set_registered (registered : list (units * Registered)) : Notifier :=
  {| pn_registered := registered; pn_history := pn_history s; pn_log := pn_log s; pn_seen := pn_seen s;
     pn_handles := pn_handles s; pn_lookingUp := pn_lookingUp s; pn_closed := pn_closed s; pn_runtime := pn_runtime s |}.
Definition set_history (history : option OversightState) : Notifier :=
  {| pn_registered := pn_registered s; pn_history := history; pn_log := pn_log s; pn_seen := pn_seen s;
     pn_handles := pn_handles s; pn_lookingUp := pn_lookingUp s; pn_closed := pn_closed s; pn_runtime := pn_runtime s |}.
Definition set_log (log : Log) : Notifier :=
  {| pn_registered := pn_registered s; pn_history := pn_history s; pn_log := log; pn_seen := pn_seen s;
     pn_handles := pn_handles s; pn_lookingUp := pn_lookingUp s; pn_closed := pn_closed s; pn_runtime := pn_runtime s |}.
Definition set_seen (seen : Seen) : Notifier :=
  {| pn_registered := pn_registered s; pn_history := pn_history s; pn_log := pn_log s; pn_seen := seen;
     pn_handles := pn_handles s; pn_lookingUp := pn_lookingUp s; pn_closed := pn_closed s; pn_runtime := pn_runtime s |}.
Definition set_handles (handles : Handles) : Notifier :=
  {| pn_registered := pn_registered s; pn_history := pn_history s; pn_log := pn_log s; pn_seen := pn_seen s;
     pn_handles := handles; pn_lookingUp := pn_lookingUp s; pn_closed := pn_closed s; pn_runtime := pn_runtime s |}.
Definition set_flags (lookingUp closed : bool) : Notifier :=
  {| pn_registered := pn_registered s; pn_history := pn_history s; pn_log := pn_log s; pn_seen := pn_seen s;
     pn_handles := pn_handles s; pn_lookingUp := lookingUp; pn_closed := closed; pn_runtime := pn_runtime s |}.
Definition set_runtime (runtime : Runtime) : Notifier :=
  {| pn_registered := pn_registered s; pn_history := pn_history s; pn_log := pn_log s; pn_seen := pn_seen s;
     pn_handles := pn_handles s; pn_lookingUp := pn_lookingUp s; pn_closed := pn_closed s; pn_runtime := runtime |}.
End Assign.

Definition set_status (status : option StatusPayload) (s : Notifier) : Notifier :=
  let e := pn_seen s in
  set_seen s {| se_status := status; se_volumes := se_volumes e; se_pressure := se_pressure e;
                se_pullRequests := se_pullRequests e |}.
Definition set_volumes (volumes : option (list Z)) (s : Notifier) : Notifier :=
  let e := pn_seen s in
  set_seen s {| se_status := se_status e; se_volumes := volumes; se_pressure := se_pressure e;
                se_pullRequests := se_pullRequests e |}.
Definition set_pressure (pressure : option units) (s : Notifier) : Notifier :=
  let e := pn_seen s in
  set_seen s {| se_status := se_status e; se_volumes := se_volumes e; se_pressure := pressure;
                se_pullRequests := se_pullRequests e |}.
Definition set_pullRequests (found : gmap units (option OversightPullRequest)) (s : Notifier) : Notifier :=
  let e := pn_seen s in
  set_seen s {| se_status := se_status e; se_volumes := se_volumes e; se_pressure := se_pressure e;
                se_pullRequests := found |}.

(** The handle of each alarm that has one; [timers] is a set. *)
Definition set_handle (alarm : Alarm) (timer : option nat) (s : Notifier) : Notifier :=
  let h := pn_handles s in
  set_handles s
    {| hd_unsubscribe := hd_unsubscribe h; hd_first := hd_first h;
       hd_tick := match alarm with ATick => timer | _ => hd_tick h end;
       hd_disk := match alarm with ADisk => timer | _ => hd_disk h end;
       hd_lookups := match alarm with ALookups => timer | _ => hd_lookups h end;
       hd_wake := match alarm with AWake => timer | _ => hd_wake h end;
       hd_resubscribe := match alarm with AResubscribe => timer | _ => hd_resubscribe h end;
       hd_timers := match alarm, timer with AReceipts _, Some t => hd_timers h ++ [t] | _, _ => hd_timers h end |}.

Definition set_subscription (unsubscribe : option nat) (first : bool) (s : Notifier) : Notifier :=
  let h := pn_handles s in
  set_handles s
    {| hd_unsubscribe := unsubscribe; hd_first := first; hd_tick := hd_tick h; hd_disk := hd_disk h;
       hd_lookups := hd_lookups h; hd_wake := hd_wake h; hd_resubscribe := hd_resubscribe h; hd_timers := hd_timers h |}.

Definition set_timers (timers : list nat) (s : Notifier) : Notifier :=
  let h := pn_handles s in
  set_handles s
    {| hd_unsubscribe := hd_unsubscribe h; hd_first := hd_first h; hd_tick := hd_tick h; hd_disk := hd_disk h;
       hd_lookups := hd_lookups h; hd_wake := hd_wake h; hd_resubscribe := hd_resubscribe h; hd_timers := timers |}.

Definition emit (e : PushEffect) (s : Notifier) : Notifier :=
  let r := pn_runtime s in
  set_runtime s {| rt_alarms := rt_alarms r; rt_next := rt_next r; rt_reads := rt_reads r; rt_sends := rt_sends r;
                   rt_checks := rt_checks r; rt_trace := rt_trace r ++ [e] |}.

Definition set_alarms (alarms : list (nat * Alarm)) (s : Notifier) : Notifier :=
  let r := pn_runtime s in
  set_runtime s {| rt_alarms := alarms; rt_next := rt_next r; rt_reads := rt_reads r; rt_sends := rt_sends r;
                   rt_checks := rt_checks r; rt_trace := rt_trace r |}.

Definition set_reads (reads : nat) (s : Notifier) : Notifier :=
  let r := pn_runtime s in
  set_runtime s {| rt_alarms := rt_alarms r; rt_next := rt_next r; rt_reads := reads; rt_sends := rt_sends r;
                   rt_checks := rt_checks r; rt_trace := rt_trace r |}.

Definition set_requests (sends : list (nat * list PushMessage)) (checks : list (nat * list (units * units))) (s : Notifier) :
    Notifier :=
  let r := pn_runtime s in
  set_runtime s {| rt_alarms := rt_alarms r; rt_next := rt_next r; rt_reads := rt_reads r; rt_sends := sends;
                   rt_checks := checks; rt_trace := rt_trace r |}.

Definition fresh_id (s : Notifier) : nat * Notifier :=
  let r := pn_runtime s in
  (rt_next r, set_runtime s {| rt_alarms := rt_alarms r; rt_next := S (rt_next r); rt_reads := rt_reads r;
                               rt_sends := rt_sends r; rt_checks := rt_checks r; rt_trace := rt_trace r |}).

(** [setTimeout] or [setInterval], its handle kept. *)
Definition start_timer (alarm : Alarm) (ms : Z) (s : Notifier) : Notifier :=
  let '(timer, s) := fresh_id s in
  let s := set_alarms (rt_alarms (pn_runtime s) ++ [(timer, alarm)]) s in
  set_handle alarm (Some timer) (emit (PSets timer alarm ms) s).

Definition without_timer {A} (timer : nat) (l : list (nat * A)) : list (nat * A) :=
  List.filter (fun a => negb (Nat.eqb (fst a) timer)) l.

(** [if (timer) clearTimeout(timer)]. *)
Definition clear_timer (timer : option nat) (s : Notifier) : Notifier :=
  match timer with
  | Some timer => emit (PClears timer) (set_alarms (without_timer timer (rt_alarms (pn_runtime s))) s)
  | None => s
  end.

(** ** A message *)

Definition OVERSIGHT_CATEGORIES : list OversightCategory :=
  [Started; Stuck; Looping; Finished; Machine; Control; Attention].

Definition category_of (e : PushEvent) : OversightCategory :=
  match e with
  | PushStarted => Started | PushStuck => Stuck | PushLooping => Looping | PushFinished => Finished
  | PushMachine => Machine | PushControl => Control | PushAttention => Attention
  end.

Definition event_of (c : OversightCategory) : PushEvent :=
  match c with
  | Started => PushStarted | Stuck => PushStuck | Looping => PushLooping | Finished => PushFinished
  | Machine => PushMachine | Control => PushControl | Attention => PushAttention
  end.

Definition wants (d : Registered) (category : OversightCategory) : bool :=
  bool_decide (event_of category ∈ pu_events (rg_push d)).

(** The JSON of [notification.target]. *)
Definition target_json (target : OversightTarget) : json :=
  JObject (match target with
           | TargetMachine => [(js "kind", JString (js "machine"))]
           | TargetWorkspace path => [(js "kind", JString (js "workspace")); (js "path", JString path)]
           | TargetDevice path platform slot =>
               [(js "kind", JString (js "device")); (js "path", JString path); (js "platform", JString platform);
                (js "slot", JString slot)]
           | TargetBuild path platform =>
               [(js "kind", JString (js "build")); (js "path", JString path); (js "platform", JString platform)]
           | TargetUrl path url => [(js "kind", JString (js "url")); (js "path", JString path); (js "url", JString url)]
           end).

Definition entryOf (n : OversightNotification) (suppressed : option NotificationSuppression) (device : option units) : NewEntry :=
  {| ne_id := no_id n; ne_category := event_of (no_category n); ne_title := no_title n; ne_body := no_body n;
     ne_quiet := no_quiet n; ne_target := target_json (no_target n); ne_suppressed := suppressed; ne_device := device |}.

Definition level_in (levels : option (list (PushEvent * NotificationLevel))) (event : PushEvent) : option NotificationLevel :=
  levels ≫= fun l => snd <$> List.find (fun p => bool_decide (fst p = event)) l.

Definition levelOf (push : PushRegistration) (n : OversightNotification) : NotificationLevel :=
  default (if no_quiet n then LevelSilent else LevelAlert) (level_in (pu_levels push) (event_of (no_category n))).

Definition is_passive (m : PushMessage) : bool := bool_decide (dl_interruptionLevel (pm_delivery m) = js "passive").

Section Notifier.
Context `{!NodeDate, !PushRuntime} (o : PushNotifierOptions).

Definition collapseId (id : units) : units := take 32 (sha256_hex id).

Definition quietNow (quietHours : option QuietHours) (now : Z) : bool :=
  match quietHours with
  | None => false
  | Some q => inQuietHours (Some (qh_start q, qh_end q)) (minute_at now (qh_timeZone q))
  end.

(** [log.latest] may load the log. *)
Definition message (t : Turn) (d : Registered) (n : OversightNotification) (log : Log) : Log * PushMessage :=
  let push := rg_push d in
  let '(log, seq) := latest (tn_random t) (no_id n) (rg_id d) log in
  (log, {| pm_to := pu_token push; pm_title := no_title n;
           pm_subtitle := match no_target n with TargetMachine => None | _ => Some (po_name o) end;
           pm_body := no_body n; pm_delivery := DELIVERY (levelOf push n);
           pm_collapseId := Some (collapseId (pu_ref push ++ [10] ++ no_id n));
           pm_threadId := non_empty (no_thread n); pm_ref := pu_ref push; pm_notification := seq;
           pm_target := PushAt (no_target n) |}).

Definition is_silent (push : PushRegistration) (n : OversightNotification) : bool :=
  match levelOf push n with LevelSilent => true | LevelAlert => false end.

Definition summary (d : Registered) (notifications : list OversightNotification) : PushMessage :=
  {| pm_to := pu_token (rg_push d); pm_title := po_name o; pm_subtitle := None;
     pm_body := number (Z.of_nat (length notifications)) ++ js " things need a look";
     pm_delivery := DELIVERY (if forallb (is_silent (rg_push d)) notifications then LevelSilent else LevelAlert);
     pm_collapseId := None; pm_threadId := None; pm_ref := pu_ref (rg_push d); pm_notification := None;
     pm_target := PushHome |}.

Definition set_bucket (bucket : Bucket) (d : Registered) : Registered :=
  {| rg_id := rg_id d; rg_push := rg_push d; rg_state := rg_state d; rg_bucket := bucket |}.

Definition take_token (now : Z) (d : Registered) : Registered * bool :=
  let b := rg_bucket d in
  let tokens := Z.min (pl_perHour (po_limits o) * HOUR_MS)
                  (bk_tokens b + (now - bk_at b) * pl_perHour (po_limits o)) in
  if tokens <? HOUR_MS then (set_bucket {| bk_tokens := tokens; bk_at := now |} d, false)
  else (set_bucket {| bk_tokens := tokens - HOUR_MS; bk_at := now |} d, true).

Definition suppression (category : OversightCategory) (devices : list Registered) (now : Z) :
    option NotificationSuppression :=
  let wanting := List.filter (fun d => wants d category) devices in
  if bool_decide (devices = []) || existsb (fun d => negb (quietNow (pu_quietHours (rg_push d)) now)) wanting then None
  else match wanting with [] => Some SuppressedMuted | _ => Some SuppressedQuiet end.

Definition record (t : Turn) (entries : list NewEntry) (s : Notifier) : Notifier :=
  match entries with
  | [] => s
  | _ =>
      let '(log, r) := append (tn_now t) (tn_random t) (tn_io t) entries (pn_log s) in
      let s := set_log s log in
      match r with Ok logged => emit (PLogged logged) s | Throw _ => s end
  end.

(** [send] up to its answer. *)
Definition send (messages : list PushMessage) (s : Notifier) : Notifier :=
  let '(request, s) := fresh_id s in
  let r := pn_runtime s in
  emit (PSends request messages) (set_requests (rt_sends r ++ [(request, messages)]) (rt_checks r) s).

(** ** A look *)

Definition input_of (t : Turn) (status : StatusPayload) (s : Notifier) : OversightInput :=
  {| oi_machine := po_name o; oi_status := Some (sp_status status); oi_volumes := se_volumes (pn_seen s);
     oi_memoryPressure := se_pressure (pn_seen s); oi_link := None; oi_pullRequests := se_pullRequests (pn_seen s);
     oi_ownLeases := tn_ownLeases t |}.

Definition lowest_stuck (registered : list Registered) : Z :=
  match omap (fun d => if wants d Stuck then Some (pu_stuckMinutes (rg_push d)) else None) registered with
  | [] => DEFAULT_STUCK_MINUTES
  | first :: rest => fold_left Z.min rest first
  end.

Definition set_state (state : OversightState) (d : Registered) : Registered :=
  {| rg_id := rg_id d; rg_push := rg_push d; rg_state := Some state; rg_bucket := rg_bucket d |}.

Definition prefs_of (t : Turn) (d : Registered) : OversightPrefs :=
  {| op_categories := map category_of (pu_events (rg_push d)); op_stuckMinutes := pu_stuckMinutes (rg_push d);
     op_quiet := quietNow (pu_quietHours (rg_push d)) (tn_now t) |}.

Fixpoint messages_of (t : Turn) (d : Registered) (notifications : list OversightNotification) (log : Log) :
    Log * list PushMessage :=
  match notifications with
  | [] => (log, [])
  | n :: notifications =>
      let '(log, m) := message t d n log in
      let '(log, rest) := messages_of t d notifications log in (log, m :: rest)
  end.

(** The messages that are passive or for which a token is left. *)
Fixpoint take_each (now : Z) (due : list PushMessage) (d : Registered) : Registered * list PushMessage :=
  match due with
  | [] => (d, [])
  | m :: due =>
      if is_passive m then let '(d, rest) := take_each now due d in (d, m :: rest)
      else
        let '(d, taken) := take_token now d in
        let '(d, rest) := take_each now due d in (d, if taken then m :: rest else rest)
  end.

(** One device: what is due to it, and when it is to be looked at again. *)
Definition look_for (t : Turn) (input : OversightInput) (d : Registered) (log : Log) :
    Registered * Log * list PushMessage * option Z :=
  let result := oversee toLower (rg_state d) input (prefs_of t d) (tn_now t) 0 in
  let d := set_state (or_state result) d in
  let '(log, due) :=
    if (pl_summarizeAbove (po_limits o) <? length (or_notifications result))%nat
    then (log, [summary d (or_notifications result)])
    else messages_of t d (or_notifications result) log in
  let '(d, messages) := take_each (tn_now t) due d in
  (d, log, messages, or_wakeAt result).

Fixpoint look_for_each (t : Turn) (input : OversightInput) (registered : list (units * Registered)) (log : Log)
    (wakeAt : option Z) : list (units * Registered) * Log * list PushMessage * option Z :=
  match registered with
  | [] => ([], log, [], wakeAt)
  | (id, d) :: registered =>
      let '(d, log, messages, at_) := look_for t input d log in
      let wakeAt := match at_ with Some at_ => earliest wakeAt at_ | None => wakeAt end in
      let '(registered, log, more, wakeAt) := look_for_each t input registered log wakeAt in
      ((id, d) :: registered, log, messages ++ more, wakeAt)
  end.

Definition set_wake (now : Z) (wakeAt : option Z) (s : Notifier) : Notifier :=
  let s := clear_timer (hd_wake (pn_handles s)) s in
  match wakeAt with
  | None => set_handle AWake None s
  | Some at_ => start_timer AWake (Z.max 0 (at_ - now)) s
  end.

Definition evaluate (t : Turn) (s : Notifier) : Notifier :=
  match se_status (pn_seen s) with
  | None => s
  | Some status =>
      if pn_closed s then s
      else
        let input := input_of t status s in
        let registered := map snd (pn_registered s) in
        let everything := oversee toLower (pn_history s) input
          {| op_categories := OVERSIGHT_CATEGORIES; op_stuckMinutes := lowest_stuck registered; op_quiet := false |}
          (tn_now t) 0 in
        let s := set_history s (Some (or_state everything)) in
        let s := record t (map (fun n => entryOf n (suppression (no_category n) registered (tn_now t)) None)
                             (or_notifications everything)) s in
        let '(registered, log, messages, wakeAt) :=
          look_for_each t input (pn_registered s) (pn_log s) (or_wakeAt everything) in
        let s := set_wake (tn_now t) wakeAt (set_log (set_registered s registered) log) in
        match messages with [] => s | _ => send messages s end
  end.

(** ** Watching *)

Definition watching (t : Turn) (s : Notifier) : bool :=
  if po_whilePaired o then negb (bool_decide (tn_devices t = [])) else negb (bool_decide (pn_registered s = [])).

(** Up to the answer of [readPressure]. *)
Definition readMachine (t : Turn) (s : Notifier) : Notifier :=
  let s := set_volumes (tn_volumes t) s in
  set_reads (S (rt_reads (pn_runtime s))) (emit PReadsPressure s).

(** From the answer of [readPressure] on, [None] where it throws. *)
Definition pressure_read (t : Turn) (pressure : option units) (s : Notifier) : Notifier :=
  evaluate t (set_pressure pressure (set_reads (pred (rt_reads (pn_runtime s))) s)).

Definition pushed_worktrees (status : StatusPayload) : list PullRequestWorktree :=
  omap (fun env =>
    match en_worktree env with
    | Some w =>
        match non_empty (wt_branch w), non_empty (wt_repository w) with
        | Some branch, Some repository =>
            if bool_decide (en_path env ∈ sp_upstream status)
            then Some {| pw_path := en_path env; pw_branch := branch; pw_repository := repository |} else None
        | _, _ => None
        end
    | None => None
    end) (os_environments (sp_status status)).

Definition lookUpPullRequests (s : Notifier) : Notifier :=
  match se_status (pn_seen s) with
  | None => s
  | Some status =>
      if pn_lookingUp s || pn_closed s || negb (existsb (fun d => wants (snd d) Finished) (pn_registered s)) then s
      else
        match pushed_worktrees status with
        | [] => s
        | worktrees => emit (PLooksUp worktrees) (set_flags s true (pn_closed s))
        end
  end.

(** From the answer of [pullRequests] on, [None] where it throws. *)
Definition pulls_found (t : Turn) (found : option (gmap units (option OversightPullRequest))) (s : Notifier) : Notifier :=
  let s := match found with
           | None => s
           | Some found => if pn_closed s || negb (watching t s) then s else evaluate t (set_pullRequests found s)
           end in
  set_flags s false (pn_closed s).

(** [item] of the listener. *)
Definition on_item (t : Turn) (status : StatusPayload) (s : Notifier) : Notifier :=
  let s := evaluate t (set_status (Some status) s) in
  if hd_first (pn_handles s) then lookUpPullRequests (set_subscription (hd_unsubscribe (pn_handles s)) false s) else s.

(** The kept items are given to the listener before [subscribeStatus] returns. *)
Definition subscribe (t : Turn) (s : Notifier) : Notifier :=
  let '(subscription, s) := fresh_id s in
  let s := emit (PSubscribes subscription) (set_subscription (hd_unsubscribe (pn_handles s)) true s) in
  let s := fold_left (fun s status => on_item t status s) (tn_replay t) s in
  set_subscription (Some subscription) (hd_first (pn_handles s)) s.

(** [failed] of the listener. *)
Definition on_failed (s : Notifier) : Notifier :=
  let s := set_status None (set_subscription None (hd_first (pn_handles s)) s) in
  start_timer AResubscribe (pl_resubscribeMs (po_limits o)) s.

Definition resubscribe_fires (t : Turn) (s : Notifier) : Notifier :=
  let s := set_handle AResubscribe None s in
  if watching t s && negb (pn_closed s) then subscribe t s else s.

Definition watch (t : Turn) (s : Notifier) : Notifier :=
  let s := match hd_disk (pn_handles s) with
           | Some _ => s
           | None => start_timer ADisk (pl_diskMs (po_limits o)) (readMachine t s)
           end in
  let s := match hd_tick (pn_handles s) with
           | Some _ => s
           | None => start_timer ATick (pl_tickMs (po_limits o)) s
           end in
  let s := match hd_lookups (pn_handles s) with
           | Some _ => s
           | None => start_timer ALookups (pl_pullRequestMs (po_limits o)) s
           end in
  match hd_unsubscribe (pn_handles s), hd_resubscribe (pn_handles s) with
  | None, None => subscribe t s
  | _, _ => s
  end.

Definition unwatch (s : Notifier) : Notifier :=
  let h := pn_handles s in
  let s := match hd_unsubscribe h with Some subscription => emit (PUnsubscribes subscription) s | None => s end in
  let s := fold_left (fun s timer => clear_timer timer s)
             [hd_tick h; hd_disk h; hd_lookups h; hd_wake h; hd_resubscribe h] s in
  let s := set_handles s {| hd_unsubscribe := None; hd_first := hd_first h; hd_tick := None; hd_disk := None;
                            hd_lookups := None; hd_wake := None; hd_resubscribe := None; hd_timers := hd_timers h |} in
  set_seen (set_history s None) no_seen.

(** ** Operations *)

(** The devices that asked for events, by their id. *)
Definition registrations (devices : list PairedDevice) : list (units * PushRegistration) :=
  map_of (omap (fun d => match dv_push d with
                         | Some push => match pu_events push with [] => None | _ => Some (dv_id d, push) end
                         | None => None
                         end) devices).

Definition with_push (push : PushRegistration) (d : Registered) : Registered :=
  {| rg_id := rg_id d; rg_push := push; rg_state := rg_state d; rg_bucket := rg_bucket d |}.

Definition new_registered (now : Z) (id : units) (push : PushRegistration) : Registered :=
  {| rg_id := id; rg_push := push; rg_state := None;
     rg_bucket := {| bk_tokens := pl_perHour (po_limits o) * HOUR_MS; bk_at := now |} |}.

(** The loop over the current registrations; the second part says whether one was added. *)
Fixpoint register_each (now : Z) (current : list (units * PushRegistration)) (registered : list (units * Registered))
    (added : bool) : list (units * Registered) * bool :=
  match current with
  | [] => (registered, added)
  | (id, push) :: current =>
      match map_get id registered with
      | Some known =>
          if bool_decide (pu_token (rg_push known) = pu_token push)
          then register_each now current (map_set id (with_push push known) registered) added
          else register_each now current (map_set id (new_registered now id push) registered) true
      | None => register_each now current (map_set id (new_registered now id push) registered) true
      end
  end.

Definition still_there (current : list (units * PushRegistration)) (registered : list (units * Registered)) :
    list (units * Registered) :=
  List.filter (fun d => bool_decide (is_Some (map_get (fst d) current))) registered.

Definition refresh (t : Turn) (s : Notifier) : Notifier :=
  if pn_closed s then s
  else
    let current := registrations (tn_devices t) in
    let '(registered, added) := register_each (tn_now t) current (still_there current (pn_registered s)) false in
    let s := set_registered s registered in
    let watched := if po_whilePaired o then length (tn_devices t) else length current in
    let s := if (0 <? watched)%nat then watch t s else unwatch s in
    if added then evaluate t s else s.

Definition conflict_notification (conflict : ControlConflict) : OversightNotification :=
  {| no_id := js "control:" ++ cc_workspace conflict ++ js ":" ++ cc_platform conflict ++ js ":" ++ cc_slot conflict;
     no_category := Control; no_title := cc_title conflict; no_body := cc_body conflict; no_quiet := true;
     no_thread := None;
     no_target := TargetDevice (cc_workspace conflict) (cc_platform conflict) (cc_slot conflict) |}.

Definition control (t : Turn) (deviceId : units) (conflict : ControlConflict) (s : Notifier) : Notifier :=
  if pn_closed s then s
  else
    let device := map_get deviceId (pn_registered s) in
    let n := conflict_notification conflict in
    let suppressed := device ≫= fun d => suppression Control [d] (tn_now t) in
    let s := record t [entryOf n suppressed (Some deviceId)] s in
    match device, suppressed with
    | Some d, None =>
        let '(log, m) := message t d n (pn_log s) in
        let s := set_log s log in
        if is_passive m then send [m] s
        else
          let '(d, taken) := take_token (tn_now t) d in
          let s := set_registered s (map_set deviceId d (pn_registered s)) in
          if taken then send [m] s else s
    | _, _ => s
    end.

Definition close (s : Notifier) : Notifier :=
  let s := unwatch (set_flags s (pn_lookingUp s) true) in
  set_timers [] (fold_left (fun s timer => clear_timer (Some timer) s) (hd_timers (pn_handles s)) s).

(** ** Tickets and receipts *)

Definition error_of (ticket : json) : option json := field "details" ticket ≫= field "error".

Definition is_unregistered (ticket : json) : bool :=
  match error_of ticket with
  | Some (JString text) => bool_decide (text = js "DeviceNotRegistered")
  | _ => false
  end.

(** What a ticket adds: a receipt to ask for, or a token to drop. *)
Definition ticket_receipt (ticket : json) : option units :=
  match field "status" ticket, field "id" ticket with
  | Some (JString status), Some (JString id) => if bool_decide (status = js "ok") then Some id else None
  | _, _ => None
  end.

Fixpoint read_tickets (tickets : list json) (messages : list PushMessage) (receipts : list (units * units)) (s : Notifier) :
    list (units * units) * Notifier :=
  match tickets, messages with
  | ticket :: tickets, m :: messages =>
      match pm_to m with
      | [] => read_tickets tickets messages receipts s
      | to =>
          match ticket_receipt ticket with
          | Some id => read_tickets tickets messages (map_set id to receipts) s
          | None => read_tickets tickets messages receipts (if is_unregistered ticket then emit (PDrops to) s else s)
          end
      end
  | _, _ => (receipts, s)
  end.

(** [send] from its answer on: [None] where it throws or is not an array. *)
Definition on_sent (request : nat) (tickets : option (list json)) (s : Notifier) : Notifier :=
  let r := pn_runtime s in
  match List.find (fun p => Nat.eqb (fst p) request) (rt_sends r) with
  | None => s
  | Some (_, messages) =>
      let s := set_requests (without_timer request (rt_sends r)) (rt_checks r) s in
      match tickets with
      | None => s
      | Some tickets =>
          if pn_closed s then s
          else
            let '(receipts, s) := read_tickets tickets messages [] s in
            match receipts with
            | [] => s
            | _ => start_timer (AReceipts receipts) (pl_receiptDelayMs (po_limits o)) s
            end
      end
  end.

Definition checkReceipts (receipts : list (units * units)) (s : Notifier) : Notifier :=
  let '(request, s) := fresh_id s in
  let r := pn_runtime s in
  emit (PAsksReceipts request (map fst receipts)) (set_requests (rt_sends r) (rt_checks r ++ [(request, receipts)]) s).

(** The callback of [later]. *)
Definition receipts_fire (timer : nat) (receipts : list (units * units)) (s : Notifier) : Notifier :=
  let s := set_timers (List.filter (fun t => negb (Nat.eqb t timer)) (hd_timers (pn_handles s))) s in
  if pn_closed s then s else checkReceipts receipts s.

(** [checkReceipts] from its answer on: the entries of the data, [None] where it throws or is not an object. *)
Definition on_checked (request : nat) (data : option (list (units * json))) (s : Notifier) : Notifier :=
  let r := pn_runtime s in
  match List.find (fun p => Nat.eqb (fst p) request) (rt_checks r) with
  | None => s
  | Some (_, receipts) =>
      let s := set_requests (rt_sends r) (without_timer request (rt_checks r)) s in
      match data with
      | None => s
      | Some data =>
          if pn_closed s then s
          else fold_left (fun s '(id, receipt) =>
                 match non_empty (map_get id receipts) with
                 | Some to => if is_unregistered receipt then emit (PDrops to) s else s
                 | None => s
                 end) data s
      end
  end.

(** ** Timers *)

Definition is_interval (alarm : Alarm) : bool := match alarm with ATick | ADisk | ALookups => true | _ => false end.

(** A timer that is set fires; a timeout is then no longer set. *)
Definition timer_fires (t : Turn) (timer : nat) (s : Notifier) : Notifier :=
  match List.find (fun a => Nat.eqb (fst a) timer) (rt_alarms (pn_runtime s)) with
  | None => s
  | Some (_, alarm) =>
      let s := if is_interval alarm then s
               else set_alarms (without_timer timer (rt_alarms (pn_runtime s))) s in
      match alarm with
      | ATick | AWake => evaluate t s
      | ADisk => readMachine t s
      | ALookups => lookUpPullRequests s
      | AResubscribe => resubscribe_fires t s
      | AReceipts receipts => receipts_fire timer receipts s
      end
  end.
End Notifier.
