(* ===== verification/PushFacts.v ===== *)
(** * The timers of [PushNotifier]

    Every timer that is set is kept where it can be cleared; after each look at the registrations the notifier watches
    just when there is someone to watch for, and once closed it sets, sends and asks nothing. *)

From Stdlib Require Import ZArith Lia.
From S2P Require Import Prelude.
From S2P Require Import Bytes.
From S2P Require Import Json.
From S2P Require Import Policy.
From S2P Require Import Oversight.
From S2P Require Import Oversee.
From S2P Require Import KeyedDelta.
From S2P Require Import Registry.
From S2P Require Import NotificationLog.
From S2P Require Import Push.
Open Scope Z_scope.

(** ** Timers and their handles *)

(** Where the identity of a timer is kept. *)
Definition kept (alarm : Alarm) (x : nat) (h : Handles) : Prop :=
  match alarm with
  | ATick => hd_tick h = Some x
  | ADisk => hd_disk h = Some x
  | ALookups => hd_lookups h = Some x
  | AWake => hd_wake h = Some x
  | AResubscribe => hd_resubscribe h = Some x
  | AReceipts _ => x ∈ hd_timers h
  end.

(** A handle other than that of the wake timer, which may have fired, stands for a timer that is set. *)
Record timed (h : Handles) (alarms : list (nat * Alarm)) (next : nat) : Prop := {
  ti_kept : ∀ x alarm, (x, alarm) ∈ alarms → kept alarm x h ∧ (x < next)%nat;
  ti_set : ∀ x alarm, alarm ∈ [ATick; ADisk; ALookups; AResubscribe] → kept alarm x h → (x, alarm) ∈ alarms;
  ti_ids : NoDup alarms.*1;
  ti_wake : ∀ x, hd_wake h = Some x → (x < next)%nat ∧ ∀ alarm, (x, alarm) ∈ alarms → alarm = AWake;
}.

Definition Timed (s : Notifier) : Prop :=
  timed (pn_handles s) (rt_alarms (pn_runtime s)) (rt_next (pn_runtime s)).

(** The intervals are set together; while they are not nothing else is; none of it once closed. *)
Record Shaped (s : Notifier) : Prop := {
  sh_tick : is_Some (hd_tick (pn_handles s)) ↔ is_Some (hd_disk (pn_handles s));
  sh_lookups : is_Some (hd_lookups (pn_handles s)) ↔ is_Some (hd_disk (pn_handles s));
  sh_off : hd_disk (pn_handles s) = None →
    hd_unsubscribe (pn_handles s) = None ∧ hd_resubscribe (pn_handles s) = None ∧ hd_wake (pn_handles s) = None
    ∧ se_status (pn_seen s) = None;
  sh_one : is_Some (hd_unsubscribe (pn_handles s)) → hd_resubscribe (pn_handles s) = None;
  sh_closed : pn_closed s = true → hd_disk (pn_handles s) = None ∧ hd_timers (pn_handles s) = [];
}.

Lemma timed_new_id h alarms n : timed h alarms n → timed h alarms (S n).
Proof.
  intros [Hk Hs Hi Hw]. split; [|done..|].
  - intros x alarm Hx. destruct (Hk x alarm Hx). split; [done|lia].
  - intros x Hx. destruct (Hw x Hx). split; [lia|done].
Qed.

Lemma elem_without {A} (x : nat) (v : A) timer l : (x, v) ∈ without_timer timer l ↔ (x, v) ∈ l ∧ x ≠ timer.
Proof.
  unfold without_timer. rewrite !list_elem_of_In, filter_In. cbn. rewrite negb_true_iff, Nat.eqb_neq. tauto.
Qed.

Lemma NoDup_filtered {A} (f : nat * A → bool) (l : list (nat * A)) : NoDup l.*1 → NoDup (List.filter f l).*1.
Proof.
  induction l as [|a l IH]; cbn; [done|]. intros [Ha Hl]%NoDup_cons. destruct (f a); [|by apply IH].
  cbn. apply NoDup_cons. split; [|by apply IH]. intros (b & Hb & Hin)%list_elem_of_fmap. apply Ha.
  rewrite Hb. apply list_elem_of_fmap. exists b. split; [done|].
  apply list_elem_of_In, filter_In in Hin as [Hin _]. by apply list_elem_of_In.
Qed.

(** Another timer: [handles] is where it is kept. *)
Lemma timed_add h h' alarms n alarm : timed h alarms n →
  (∀ x a, kept a x h → (x, a) ∈ alarms → kept a x h') →
  (∀ x a, a ∈ [ATick; ADisk; ALookups; AResubscribe] → kept a x h' → kept a x h ∨ (x, a) = (n, alarm)) →
  kept alarm n h' → (hd_wake h' = hd_wake h ∨ alarm = AWake) → timed h' (alarms ++ [(n, alarm)]) (S n).
Proof.
  intros [Hk Hs Hi Hw] Hold Hnew Hkept Hwake. split.
  - intros x a [Hx| [= -> ->]%list_elem_of_singleton]%elem_of_app; [|split; [done|lia]].
    destruct (Hk x a Hx). split; [by apply Hold|lia].
  - intros x a Ha Hx. apply elem_of_app. destruct (Hnew x a Ha Hx) as [Hh|[= -> ->]]; [left; by apply Hs|right].
    by apply list_elem_of_singleton.
  - rewrite fmap_app. apply NoDup_app. split_and!; [done| |apply NoDup_singleton].
    intros x (a & -> & Ha)%list_elem_of_fmap Hx%list_elem_of_singleton. destruct a as [x a].
    apply Hk in Ha as [_ Ha]. cbn in Hx. lia.
  - intros x Hx. destruct Hwake as [Hsame| ->].
    + rewrite Hsame in Hx. destruct (Hw x Hx) as [Hlt Ha]. split; [lia|].
      intros a [Hin| [= -> ->]%list_elem_of_singleton]%elem_of_app; [by apply Ha|lia].
    + cbn in Hkept. rewrite Hkept in Hx. injection Hx as <-. split; [lia|].
      intros a [Hin| [= ->]%list_elem_of_singleton]%elem_of_app; [|done]. apply Hk in Hin as [_ Hin]. lia.
Qed.

(** A timer that is not set may be started. *)
Lemma start_timed alarm ms s : Timed s →
  match alarm with AReceipts _ => True | _ => ∀ x, ¬ (x, alarm) ∈ rt_alarms (pn_runtime s) end →
  Timed (start_timer alarm ms s).
Proof.
  intros Ht Hfree. unfold Timed, start_timer. cbn. eapply timed_add; [exact Ht|..].
  - intros x a Hx Hin. destruct a, alarm; cbn in *; try done; try (by destruct (Hfree x)). set_solver.
  - intros x a Ha Hx. destruct alarm; destruct a; cbn in *; try (by left); try (right; congruence); set_solver.
  - destruct alarm; cbn; try done. set_solver.
  - destruct alarm; auto.
Qed.

(** A timeout that fires is no longer set; its handle may be given up. *)
Lemma timed_fired h h' alarms n timer : timed h alarms n →
  (∀ x a, kept a x h → x ≠ timer → kept a x h') →
  (∀ x a, a ∈ [ATick; ADisk; ALookups; AResubscribe] → kept a x h' → kept a x h ∧ x ≠ timer) →
  (∀ x, hd_wake h' = Some x → hd_wake h = Some x) → timed h' (without_timer timer alarms) n.
Proof.
  intros [Hk Hs Hi Hw] Hold Hnew Hwake. split.
  - intros x a [Hx Hne]%elem_without. destruct (Hk x a Hx). split; [by apply Hold|done].
  - intros x a Ha Hx. apply elem_without. destruct (Hnew x a Ha Hx). split; [by apply Hs|done].
  - by apply NoDup_filtered.
  - intros x Hx%Hwake. destruct (Hw x Hx) as [Hlt Ha]. split; [done|]. intros a [Hin _]%elem_without. auto.
Qed.

(** Two timers have two identities. *)
Lemma alarm_unique h alarms n x a b : timed h alarms n → (x, a) ∈ alarms → (x, b) ∈ alarms → a = b.
Proof.
  intros [_ _ Hi _]. clear -Hi. induction alarms as [|[y c] l IH]; [by intros ?%elem_of_nil|].
  cbn in Hi. apply NoDup_cons in Hi as [Hy Hi].
  assert (∀ d, (y, d) ∈ l → False) as Hno. { intros d Hd. apply Hy. apply list_elem_of_fmap. by exists (y, d). }
  rewrite !elem_of_cons. intros [Ha|Ha] [Hb|Hb]; simplify_eq; [done|by destruct (Hno b)|by destruct (Hno a)|by apply IH].
Qed.

(** The timer of a handle is cleared: no other is. *)
Lemma interval_apart s x y a : Timed s → hd_wake (pn_handles s) = Some y →
  a ∈ [ATick; ADisk; ALookups; AResubscribe] → kept a x (pn_handles s) → x ≠ y.
Proof.
  intros [_ Hs _ Hw] Hy Ha Hx ->. apply Hs in Hx; [|done]. destruct (Hw y Hy) as [_ Hwake].
  apply Hwake in Hx as ->. set_solver.
Qed.

Lemma set_wake_timed now wakeAt s : Timed s → Timed (set_wake now wakeAt s).
Proof.
  intros Ht. unfold set_wake.
  assert (Timed (set_handle AWake None (clear_timer (hd_wake (pn_handles s)) s))
          ∧ ∀ x, (x, AWake) ∉ rt_alarms (pn_runtime (clear_timer (hd_wake (pn_handles s)) s))) as [Hc Hno].
  { destruct (hd_wake (pn_handles s)) as [w|] eqn:E; cbn.
    - split.
      + eapply timed_fired; [exact Ht|..]; [|intros x a Ha Hx; split; [|eapply interval_apart; try done]|done];
          try (intros x []; cbn; congruence); destruct a; cbn in *; set_solver.
      + intros x [Hx Hne]%elem_without. apply Ht in Hx as [Hx _]. cbn in Hx. congruence.
    - split.
      + destruct Ht as [Hk Hs Hi Hw]. split; cbn; [|intros x [] Ha Hx; cbn in *; try set_solver; by apply Hs|done|done].
        intros x a Hx. destruct (Hk x a Hx) as [Hka ?]. split; [|done]. destruct a; cbn in *; congruence.
      + intros x Hx. apply Ht in Hx as [Hx _]. cbn in Hx. congruence. }
  destruct wakeAt as [w|]; [|exact Hc].
  assert (∀ s0, start_timer AWake (Z.max 0 (w - now)) s0 = start_timer AWake (Z.max 0 (w - now)) (set_handle AWake None s0)) as ->
    by done.
  by apply start_timed.
Qed.

(** ** A look *)

(** All of the state that a look leaves as it is. *)
Definition pushes (s : Notifier) : list (units * PushRegistration) :=
  map (fun d => (fst d, rg_push (snd d))) (pn_registered s).

Definition still (h : Handles) : Handles :=
  {| hd_unsubscribe := hd_unsubscribe h; hd_first := hd_first h; hd_tick := hd_tick h; hd_disk := hd_disk h;
     hd_lookups := hd_lookups h; hd_wake := None; hd_resubscribe := hd_resubscribe h; hd_timers := hd_timers h |}.

Definition view (s : Notifier) : Handles * Seen * bool * bool * list (units * PushRegistration) :=
  (still (pn_handles s), pn_seen s, pn_closed s, pn_lookingUp s, pushes s).

Section Facts.
Context `{!NodeDate, !PushRuntime} (o : PushNotifierOptions).

Lemma record_same t entries s :
  view (record t entries s) = view s ∧ pn_registered (record t entries s) = pn_registered s
  ∧ pn_handles (record t entries s) = pn_handles s
  ∧ rt_alarms (pn_runtime (record t entries s)) = rt_alarms (pn_runtime s)
  ∧ rt_next (pn_runtime (record t entries s)) = rt_next (pn_runtime s).
Proof. unfold record. destruct entries; [done|]. by destruct (append _ _ _ _ _) as [log []]. Qed.

Lemma take_each_push now due d : rg_push (fst (take_each o now due d)) = rg_push d.
Proof.
  revert d. induction due as [|m due IH]; intros d; [done|]. cbn. destruct (is_passive m).
  - specialize (IH d). by destruct (take_each o now due d).
  - assert (rg_push (fst (take_token o now d)) = rg_push d) as <- by (unfold take_token; by case_match).
    destruct (take_token o now d) as [d' taken]. specialize (IH d'). by destruct (take_each o now due d').
Qed.

Lemma look_for_push t input d log : rg_push (fst (fst (fst (look_for o t input d log)))) = rg_push d.
Proof.
  unfold look_for. set (result := oversee _ _ _ _ _ _). set (d' := set_state _ d).
  destruct (if (_ <? _)%nat then _ else _) as [log' due].
  pose proof (take_each_push (tn_now t) due d') as Hp. by destruct (take_each o (tn_now t) due d').
Qed.

Lemma look_for_each_push t input registered log wakeAt :
  map (fun d => (fst d, rg_push (snd d))) (fst (fst (fst (look_for_each o t input registered log wakeAt))))
  = map (fun d => (fst d, rg_push (snd d))) registered.
Proof.
  revert log wakeAt. induction registered as [|[id d] registered IH]; intros log wakeAt; [done|].
  cbn [look_for_each]. pose proof (look_for_push t input d log) as Hp.
  destruct (look_for o t input d log) as [[[d' log'] messages] at_]. cbn in Hp.
  set (wakeAt' := match at_ with Some _ => _ | None => _ end). specialize (IH log' wakeAt').
  destruct (look_for_each o t input registered log' wakeAt') as [[[r l] more] w]. cbn in IH |- *. by rewrite Hp, IH.
Qed.

Lemma set_wake_view now wakeAt s : view (set_wake now wakeAt s) = view s.
Proof. unfold set_wake. by destruct (hd_wake (pn_handles s)), wakeAt. Qed.

Lemma evaluate_view t s : view (evaluate o t s) = view s.
Proof.
  unfold evaluate. destruct (se_status (pn_seen s)) as [status|]; [|done]. destruct (pn_closed s); [done|].
  set (s1 := record _ _ _). assert (view s1 = view s) as Hs1 by (etrans; [apply record_same|done]). rewrite <- Hs1.
  set (input := input_of _ _ _ _). set (w := or_wakeAt _). clearbody input w. clearbody s1.
  pose proof (look_for_each_push t input (pn_registered s1) (pn_log s1) w) as Hp.
  destruct (look_for_each o t input _ _ w) as [[[registered log] messages] wakeAt]. cbn in Hp.
  assert (view (set_log (set_registered s1 registered) log) = view s1) as Hl.
  { unfold view, pushes. cbn. by rewrite Hp. }
  transitivity (view (set_wake (tn_now t) wakeAt (set_log (set_registered s1 registered) log)));
    [by destruct messages|by rewrite set_wake_view].
Qed.

Lemma evaluate_timed t s : Timed s → Timed (evaluate o t s).
Proof.
  intros Ht. unfold evaluate. destruct (se_status (pn_seen s)) as [status|]; [|done]. destruct (pn_closed s); [done|].
  set (s0 := set_history _ _). set (s1 := record t _ s0). assert (Timed s1) as Ht1.
  { unfold Timed, s1. match goal with |- context [record t ?e s0] => destruct (record_same t e s0) as (_ & _ & -> & -> & ->) end.
    exact Ht. }
  destruct (look_for_each o t _ _ _ _) as [[[registered log] messages] wakeAt].
  set (s2 := set_log _ log). assert (Timed (set_wake (tn_now t) wakeAt s2)) as Ht2 by by apply set_wake_timed.
  destruct messages; [done|]. by apply timed_new_id.
Qed.

(** What stays through a whole subscription. *)
Definition core (s : Notifier) : list (option nat) * list nat * bool * list (units * PushRegistration) :=
  let h := pn_handles s in
  ([hd_unsubscribe h; hd_tick h; hd_disk h; hd_lookups h; hd_resubscribe h], hd_timers h, pn_closed s, pushes s).

Lemma core_view s s' : view s' = view s → core s' = core s.
Proof.
  unfold view, core, still. intros Hv. injection Hv as Eu Ef Et Ed El Er Etm Es Ec _ Ep. by rewrite Eu, Et, Ed, El, Er, Etm, Ec, Ep.
Qed.

Definition On (s : Notifier) : Prop := hd_disk (pn_handles s) ≠ None.

Lemma shaped_core s s' : Shaped s → On s → core s' = core s → Shaped s'.
Proof.
  intros [Ht Hl Ho H1 Hc] Hd Hv. unfold core in Hv. injection Hv as Eu Et Ed El Er Etm Ec _.
  split; rewrite ?Eu, ?Et, ?Ed, ?El, ?Er, ?Etm, ?Ec; done.
Qed.

Lemma on_core s s' : core s' = core s → On s → On s'.
Proof. intros Hv. unfold core in Hv. injection Hv as _ _ Ed _ _ _ _ _. unfold On. by rewrite Ed. Qed.

Lemma evaluate_shaped t s : Shaped s → Shaped (evaluate o t s).
Proof.
  intros Hs. destruct (hd_disk (pn_handles s)) as [x|] eqn:E.
  - eapply shaped_core; [exact Hs|unfold On; by rewrite E|apply core_view, evaluate_view].
  - destruct Hs as [Ht Hl Ho H1 Hc]. unfold evaluate. destruct (Ho E) as (_ & _ & _ & ->). by split.
Qed.

(** ** A subscription *)

Lemma lookUp_same s :
  core (lookUpPullRequests s) = core s ∧ pn_handles (lookUpPullRequests s) = pn_handles s
  ∧ pn_seen (lookUpPullRequests s) = pn_seen s
  ∧ rt_alarms (pn_runtime (lookUpPullRequests s)) = rt_alarms (pn_runtime s)
  ∧ rt_next (pn_runtime (lookUpPullRequests s)) = rt_next (pn_runtime s).
Proof.
  unfold lookUpPullRequests. destruct (se_status (pn_seen s)) as [status|]; [|done]. destruct (_ || _ || _); [done|].
  by destruct (pushed_worktrees status).
Qed.

Lemma timed_same s s' : Timed s → pn_handles s' = pn_handles s →
  rt_alarms (pn_runtime s') = rt_alarms (pn_runtime s) → rt_next (pn_runtime s') = rt_next (pn_runtime s) → Timed s'.
Proof. unfold Timed. by intros Ht -> -> ->. Qed.

Lemma lookUp_timed s : Timed s → Timed (lookUpPullRequests s).
Proof. intros Ht. eapply timed_same; [exact Ht|apply lookUp_same..]. Qed.

(** The subscription is not a timer. *)
Lemma subscription_timed u first s : Timed s → Timed (set_subscription u first s).
Proof. intros [Hk Hs Hi Hw]. split; [|intros x [] Ha Hx; cbn in *; try set_solver; by apply Hs|done|done].
  intros x a Hx. destruct (Hk x a Hx). by destruct a. Qed.

Lemma on_item_ok t status s : Timed s → Timed (on_item o t status s) ∧ core (on_item o t status s) = core s.
Proof.
  intros Ht. unfold on_item. set (s1 := evaluate o t _).
  assert (core s1 = core s) as Hc by (etrans; [apply core_view, evaluate_view|done]).
  assert (Timed s1) as Ht1 by by apply evaluate_timed. destruct (hd_first (pn_handles s1)); [|done].
  split; [by apply lookUp_timed, subscription_timed|]. destruct (lookUp_same (set_subscription (hd_unsubscribe (pn_handles s1)) false s1)) as [-> _].
  by rewrite <- Hc.
Qed.

Lemma on_items_ok t l s : Timed s →
  Timed (fold_left (fun s status => on_item o t status s) l s)
  ∧ core (fold_left (fun s status => on_item o t status s) l s) = core s.
Proof.
  revert s. induction l as [|status l IH]; intros s Ht; [done|]. cbn. destruct (on_item_ok t status s Ht) as [Ht1 <-].
  by apply IH.
Qed.

Lemma subscribe_ok t s : Timed s → Shaped s → On s → hd_resubscribe (pn_handles s) = None →
  let s' := subscribe o t s in
  Timed s' ∧ Shaped s' ∧ On s' ∧ is_Some (hd_unsubscribe (pn_handles s')) ∧ pushes s' = pushes s
  ∧ pn_closed s' = pn_closed s.
Proof.
  intros Ht Hs Ho Hr. unfold subscribe. cbn. set (s1 := emit _ _).
  assert (Timed s1) as Ht1 by (apply timed_new_id; exact (subscription_timed (hd_unsubscribe (pn_handles s)) true s Ht)).
  destruct (on_items_ok t (tn_replay t) s1 Ht1) as [Ht2 Hc]. set (s2 := fold_left _ _ s1) in *.
  assert (core s1 = core s) as Hc1 by done. rewrite Hc1 in Hc.
  split_and!; [by apply subscription_timed| |by eapply on_core in Hc|by eexists|..].
  - pose proof (shaped_core s s2 Hs Ho Hc) as [Hst Hsl Hso H1 Hsc]. split; cbn; try done.
    + intros Hd. eapply on_core in Hc; [|done]. by destruct Hc.
    + intros _. unfold core in Hc. injection Hc as _ _ _ _ -> _ _ _. done.
  - unfold core in Hc. by injection Hc as _ _ _ _ _ _ _ ?.
  - unfold core in Hc. by injection Hc as _ _ _ _ _ _ ? _.
Qed.

(** ** Watching *)

Lemma not_set s alarm x : Timed s → ¬ kept alarm x (pn_handles s) → (x, alarm) ∉ rt_alarms (pn_runtime s).
Proof. intros Ht Hk Hx. by apply Ht in Hx as [Hx _]. Qed.

Lemma intervals_ok t s : Timed s → Shaped s → pn_closed s = false → hd_disk (pn_handles s) = None →
  let s1 := start_timer ADisk (pl_diskMs (po_limits o)) (readMachine t s) in
  let s2 := start_timer ATick (pl_tickMs (po_limits o)) s1 in
  let s3 := start_timer ALookups (pl_pullRequestMs (po_limits o)) s2 in
  Timed s3 ∧ Shaped s3 ∧ On s3 ∧ hd_unsubscribe (pn_handles s3) = None ∧ hd_resubscribe (pn_handles s3) = None.
Proof.
  intros Ht Hs Hc Hd s1 s2 s3. destruct Hs as [Hst Hsl Hso Hs1 Hsc]. destruct (Hso Hd) as (Hu & Hr & Hw & Hse).
  assert (hd_tick (pn_handles s) = None) as Hn1 by (apply eq_None_not_Some; rewrite Hst, Hd; by intros [? ?]).
  assert (hd_lookups (pn_handles s) = None) as Hn2 by (apply eq_None_not_Some; rewrite Hsl, Hd; by intros [? ?]).
  assert (Timed (readMachine t s)) as Ht0 by exact Ht.
  assert (Timed s1) as Ht1. { apply start_timed; [done|]. intros x. apply not_set; [done|]. cbn. by rewrite Hd. }
  assert (Timed s2) as Ht2. { apply start_timed; [done|]. intros x. apply not_set; [done|]. cbn. by rewrite Hn1. }
  assert (Timed s3) as Ht3. { apply start_timed; [done|]. intros x. apply not_set; [done|]. cbn. by rewrite Hn2. }
  split_and!; [done| |done|done|done]. split; cbn; try done; by rewrite Hc.
Qed.

Lemma watch_ok t s : Timed s → Shaped s → pn_closed s = false →
  let s' := watch o t s in
  Timed s' ∧ Shaped s' ∧ On s' ∧ (is_Some (hd_unsubscribe (pn_handles s')) ∨ is_Some (hd_resubscribe (pn_handles s')))
  ∧ pushes s' = pushes s ∧ pn_closed s' = false.
Proof.
  intros Ht Hs Hc. unfold watch. destruct (hd_disk (pn_handles s)) as [x|] eqn:Hd.
  - assert (On s) as Hon by (unfold On; by rewrite Hd). pose proof Hs as [Hst Hsl _ _ _]. rewrite Hd in Hst, Hsl.
    destruct Hst as [_ [y Hy]]; [by eexists|]. destruct Hsl as [_ [z Hz]]; [by eexists|]. rewrite Hy, Hz.
    destruct (hd_unsubscribe (pn_handles s)) as [u|] eqn:Hu; [rewrite ?Hu; eauto 10|].
    destruct (hd_resubscribe (pn_handles s)) as [r|] eqn:Hr; [rewrite ?Hr; eauto 10|].
    destruct (subscribe_ok t s Ht Hs Hon Hr) as (? & ? & ? & ? & ? & Ecl). rewrite Hc in Ecl. eauto 10.
  - destruct (intervals_ok t s Ht Hs Hc Hd) as (Ht3 & Hs3 & Hon & Hu & Hr).
    destruct Hs as [Hst Hsl _ _ _]. rewrite Hd in Hst, Hsl.
    set (s1 := start_timer ADisk _ _) in *.
    assert (hd_tick (pn_handles s1) = None) as -> by (apply eq_None_not_Some; cbn; rewrite Hst; by intros [? ?]).
    set (s2 := start_timer ATick _ s1) in *.
    assert (hd_lookups (pn_handles s2) = None) as -> by (apply eq_None_not_Some; cbn; rewrite Hsl; by intros [? ?]).
    set (s3 := start_timer ALookups _ s2) in *. rewrite Hu, Hr.
    destruct (subscribe_ok t s3 Ht3 Hs3 Hon Hr) as (? & ? & ? & ? & Ep & Ecl).
    split_and!; eauto.
Qed.

Lemma clear_same ts s : let s' := fold_left (fun s timer => clear_timer timer s) ts s in
  pn_handles s' = pn_handles s ∧ pn_seen s' = pn_seen s ∧ pn_closed s' = pn_closed s ∧ pn_registered s' = pn_registered s
  ∧ rt_next (pn_runtime s') = rt_next (pn_runtime s)
  ∧ (NoDup (rt_alarms (pn_runtime s)).*1 → NoDup (rt_alarms (pn_runtime s')).*1)
  ∧ ∀ x a, (x, a) ∈ rt_alarms (pn_runtime s') ↔ (x, a) ∈ rt_alarms (pn_runtime s) ∧ Some x ∉ ts.
Proof.
  revert s. induction ts as [|[timer|] ts IH]; intros s; cbn [fold_left clear_timer].
  - split_and!; try done. set_solver.
  - destruct (IH (emit (PClears timer) (set_alarms (without_timer timer (rt_alarms (pn_runtime s))) s)))
      as (-> & -> & -> & -> & -> & Hn & Ha).
    split_and!; try done; [intros; by apply Hn, NoDup_filtered|]. intros x a. rewrite Ha. cbn. rewrite elem_without. set_solver.
  - destruct (IH s) as (-> & -> & -> & -> & -> & Hn & Ha). split_and!; try done. intros x a. rewrite Ha. set_solver.
Qed.

(** Only receipts are waited for. *)
Definition Off (s : Notifier) : Prop :=
  hd_disk (pn_handles s) = None ∧ ∀ x a, (x, a) ∈ rt_alarms (pn_runtime s) → ∃ receipts, a = AReceipts receipts.

Lemma unwatch_ok s : Timed s →
  let s' := unwatch s in
  Timed s' ∧ (hd_timers (pn_handles s) = [] ∨ pn_closed s = false → Shaped s') ∧ Off s'
  ∧ hd_unsubscribe (pn_handles s') = None ∧ pushes s' = pushes s ∧ pn_closed s' = pn_closed s
  ∧ hd_timers (pn_handles s') = hd_timers (pn_handles s).
Proof.
  intros Ht. unfold unwatch. set (h := pn_handles s).
  set (s1 := match hd_unsubscribe h with Some _ => _ | None => _ end).
  assert (pn_handles s1 = h ∧ rt_alarms (pn_runtime s1) = rt_alarms (pn_runtime s)
    ∧ rt_next (pn_runtime s1) = rt_next (pn_runtime s) ∧ pn_registered s1 = pn_registered s ∧ pn_closed s1 = pn_closed s)
    as (Eh & Ea & En & Er & Ec) by (unfold s1; by destruct (hd_unsubscribe h)).
  set (ts := [hd_tick h; hd_disk h; hd_lookups h; hd_wake h; hd_resubscribe h]).
  destruct (clear_same ts s1) as (Eh2 & _ & Ec2 & Er2 & En2 & Hn & Ha). set (s2 := fold_left _ ts s1) in *.
  assert (∀ x a, (x, a) ∈ rt_alarms (pn_runtime s2) → (∃ receipts, a = AReceipts receipts) ∧ x ∈ hd_timers h
    ∧ (x < rt_next (pn_runtime s))%nat) as Hleft.
  { intros x a [Hx Hts]%Ha. rewrite Ea in Hx. apply Ht in Hx as [Hk Hlt].
    destruct a; cbn in Hk; try (exfalso; apply Hts; unfold ts, h; rewrite Hk; set_solver). eauto. }
  clearbody s2.
  split_and!; cbn; try done.
  - split; cbn; [|intros x [] Hin Hk; cbn in Hk; (done || set_solver)|rewrite Ea in Hn; apply Hn, Ht|done].
    intros x a Hx. destruct (Hleft x a Hx) as ([r ->] & Hin & Hlt). rewrite En2, En. done.
  - intros Hc. split; cbn; try done. rewrite Ec2, Ec. intros E. destruct Hc as [Hc|Hc]; [done|congruence].
  - split; [done|]. intros x a Hx. by apply Hleft in Hx as [? _].
  - unfold pushes. cbn. by rewrite Er2, Er.
  - by rewrite Ec2, Ec.
Qed.
End Facts.
