(* ===== verification/PushRuns.v ===== *)
(** * Runs of [PushNotifier]

    The events of a notifier in any order, the invariant of its timers through them, and what it keeps when it watches,
    stops watching and is closed. *)

From Stdlib Require Import ZArith Lia.
From S2P Require Import Prelude.
From S2P Require Import Bytes.
From S2P Require Import Json.
From S2P Require Import Policy.
From S2P Require Import Oversight.
From S2P Require Import Oversee.
From S2P Require Import KeyedDelta.
From S2P Require Import Registry.
From S2P Require Import NotificationLog.
From S2P Require Import Push.
From S2P Require Import PushFacts.
Open Scope Z_scope.

Inductive PushAction :=
| Refreshes
| Conflicts (device : units) (conflict : ControlConflict)
| Closes
| StatusCame (status : StatusPayload)
| StatusFailed
| TimerFires (timer : nat)
| PressureRead (pressure : option units)
| PullsFound (found : option (gmap units (option OversightPullRequest)))
| Sent (request : nat) (tickets : option (list json))
| Checked (request : nat) (data : option (list (units * json))).

Section Runs.
Context `{!NodeDate, !PushRuntime} (o : PushNotifierOptions).

(** The status comes while there is a subscription, and an answer once it is asked for. *)
Definition push_step (t : Turn) (action : PushAction) (s : Notifier) : Notifier :=
  match action with
  | Refreshes => refresh o t s
  | Conflicts device conflict => control o t device conflict s
  | Closes => close s
  | StatusCame status => if bool_decide (is_Some (hd_unsubscribe (pn_handles s))) then on_item o t status s else s
  | StatusFailed => if bool_decide (is_Some (hd_unsubscribe (pn_handles s))) then on_failed o s else s
  | TimerFires timer => timer_fires o t timer s
  | PressureRead pressure => if (0 <? rt_reads (pn_runtime s))%nat then pressure_read o t pressure s else s
  | PullsFound found => if pn_lookingUp s then pulls_found o t found s else s
  | Sent request tickets => on_sent o request tickets s
  | Checked request data => on_checked request data s
  end.

Definition push_run (events : list (Turn * PushAction)) (s : Notifier) : Notifier :=
  fold_left (fun s '(t, action) => push_step t action s) events s.

(** What was done from one state to a later one. *)
Definition news (s s' : Notifier) : list PushEffect :=
  drop (length (rt_trace (pn_runtime s))) (rt_trace (pn_runtime s')).

(** ** The invariant *)

Definition Ok_ (s : Notifier) : Prop := Timed s ∧ Shaped s.

(** What neither timers nor handles notice. *)
Record quiet (s s' : Notifier) : Prop := {
  qu_handles : pn_handles s' = pn_handles s;
  qu_status : se_status (pn_seen s') = se_status (pn_seen s);
  qu_closed : pn_closed s' = pn_closed s;
  qu_alarms : rt_alarms (pn_runtime s') = rt_alarms (pn_runtime s);
  qu_next : (rt_next (pn_runtime s) <= rt_next (pn_runtime s'))%nat;
}.

#[local] Instance quiet_preorder : PreOrder quiet.
Proof.
  split; [by split|]. intros a b c [H1 H2 H3 H4 H5] [K1 K2 K3 K4 K5]. split; try congruence. lia.
Qed.

Lemma quiet_ok s s' : quiet s s' → Ok_ s → Ok_ s'.
Proof.
  intros [Eh Es Ec Ea Hn] [[Hk Hs Hi Hw] [Hst Hsl Hso H1 Hsc]]. split.
  - unfold Timed. rewrite Eh, Ea. split; [|done..|].
    + intros x a Hx. destruct (Hk x a Hx). split; [done|lia].
    + intros x Hx. destruct (Hw x Hx). split; [lia|done].
  - split; rewrite Eh, ?Es, ?Ec; done.
Qed.

Lemma record_quiet t entries s : quiet s (record t entries s).
Proof.
  destruct (record_same t entries s) as (Ev & _ & Eh & Ea & En). unfold view in Ev.
  injection Ev as _ _ _ _ _ _ _ Es Ec _ _. split; [done|by rewrite Es|done|done|lia].
Qed.

Lemma send_quiet messages s : quiet s (send messages s).
Proof. split; try done. cbn. lia. Qed.

Lemma read_tickets_quiet tickets messages receipts s : quiet s (snd (read_tickets tickets messages receipts s)).
Proof.
  revert messages receipts s. induction tickets as [|k tickets IH]; intros [|m messages] receipts s; cbn; try done.
  destruct (pm_to m); [apply IH|]. destruct (ticket_receipt k); [apply IH|]. destruct (is_unregistered k); [|apply IH].
  etrans; [|apply IH]. by split.
Qed.

Lemma on_checked_quiet request data s : quiet s (on_checked request data s).
Proof.
  unfold on_checked. destruct (List.find _ _) as [[r receipts]|]; [|done]. set (s1 := set_requests _ _ s).
  assert (quiet s s1) as H1 by by split. destruct data as [data|]; [|done]. destruct (pn_closed s1); [done|].
  etrans; [exact H1|]. clearbody s1. clear H1. revert s1.
  induction data as [|[id receipt] data IH]; intros s1; [done|]. cbn. destruct (non_empty _); [|apply IH].
  destruct (is_unregistered receipt); [|apply IH]. etrans; [|apply IH]. by split.
Qed.

Lemma control_quiet t device conflict s : quiet s (control o t device conflict s).
Proof.
  unfold control. destruct (pn_closed s); [done|]. set (s1 := record t _ s).
  assert (quiet s s1) as H1 by apply record_quiet. clearbody s1. destruct (map_get device (pn_registered s)) as [d|]; [|done]. cbn [mbind option_bind].
  destruct (suppression Control [d] (tn_now t)); [done|]. destruct (message o t d _ (pn_log s1)) as [log m].
  etrans; [exact H1|]. destruct (is_passive m); [transitivity (set_log s1 log); [by split|apply send_quiet]|].
  destruct (take_token o (tn_now t) d) as [d' []]; [|by split].
  match goal with |- quiet _ (send _ ?x) => transitivity x end; [by split|apply send_quiet].
Qed.

Lemma evaluate_ok t s : Ok_ s → Ok_ (evaluate o t s).
Proof. intros [Ht Hs]. split; [by apply evaluate_timed|by apply evaluate_shaped]. Qed.

(** Whether there is someone to watch for, as a look at the registrations finds it. *)
Definition someone (t : Turn) : bool :=
  (0 <? if po_whilePaired o then length (tn_devices t) else length (registrations (tn_devices t)))%nat.

(** All that a notifier that watches keeps: its intervals, and a subscription or a timer that will make one. *)
Definition Watches (s : Notifier) : Prop :=
  ∃ tick disk lookups,
    (tick, ATick) ∈ rt_alarms (pn_runtime s) ∧ (disk, ADisk) ∈ rt_alarms (pn_runtime s)
    ∧ (lookups, ALookups) ∈ rt_alarms (pn_runtime s)
    ∧ (is_Some (hd_unsubscribe (pn_handles s)) ↔ ¬ ∃ x, (x, AResubscribe) ∈ rt_alarms (pn_runtime s)).

Lemma watches_of s : Ok_ s → On s →
  is_Some (hd_unsubscribe (pn_handles s)) ∨ is_Some (hd_resubscribe (pn_handles s)) → Watches s.
Proof.
  intros [[Hk Hset Hi Hw] [Hst Hsl Hso H1 Hsc]] Hon Hor.
  destruct (hd_disk (pn_handles s)) as [disk|] eqn:Ed; [|by destruct Hon].
  destruct Hst as [_ [tick Et]]; [done|]. destruct Hsl as [_ [lookups El]]; [done|].
  exists tick, disk, lookups. split_and!; [apply Hset; [set_solver|done]..|]. split.
  - intros Hu [x [Hx _]%Hk]. cbn in Hx. by rewrite H1 in Hx.
  - intros Hno. destruct Hor as [|[x Hx]]; [done|]. destruct Hno. exists x. apply Hset; [set_solver|done].
Qed.

Lemma evaluate_core t s : core (evaluate o t s) = core s.
Proof. apply core_view, evaluate_view. Qed.

Lemma refresh_exact t s : Ok_ s → pn_closed s = false →
  Ok_ (refresh o t s) ∧ pn_closed (refresh o t s) = false
  ∧ if someone t then Watches (refresh o t s)
    else hd_unsubscribe (pn_handles (refresh o t s)) = None ∧ Off (refresh o t s).
Proof.
  intros [Ht Hs] Hc. unfold refresh. rewrite Hc. destruct (register_each _ _ _ _ _) as [registered added].
  set (s1 := set_registered s registered). assert (Timed s1) as Ht1 by exact Ht.
  assert (Shaped s1) as Hs1 by (destruct Hs; by split). fold (someone t).
  destruct (someone t).
  - destruct (watch_ok o t s1 Ht1 Hs1 Hc) as (Ht2 & Hs2 & Hon & Hor & _ & Hc2). set (s2 := watch o t s1) in *.
    destruct added; [|by split_and!; [split| |apply watches_of; [split|..]]].
    pose proof (evaluate_core t s2) as Hcore. pose proof (evaluate_ok t s2 (conj Ht2 Hs2)) as Hok.
    split_and!; [done|unfold core in Hcore; by injection Hcore as _ _ _ _ _ _ -> _|].
    apply watches_of; [done|by eapply on_core|]. unfold core in Hcore. by injection Hcore as -> _ _ _ -> _ _ _.
  - destruct (unwatch_ok s1 Ht1) as (Ht2 & Hs2 & Hoff & Hu & _ & Hc2 & _). set (s2 := unwatch s1) in *.
    assert (Shaped s2) as Hs3 by (apply Hs2; by right). pose proof (sh_off _ Hs3 (proj1 Hoff)) as (_ & _ & _ & Est).
    assert (evaluate o t s2 = s2) as Hsame by (unfold evaluate; by rewrite Est).
    rewrite Hsame. destruct added; (split_and!; [done|by rewrite Hc2|done|done]).
Qed.

Lemma close_ok s : Ok_ s → Ok_ (close s) ∧ pn_closed (close s) = true ∧ rt_alarms (pn_runtime (close s)) = []
  ∧ hd_unsubscribe (pn_handles (close s)) = None.
Proof.
  intros [Ht Hs]. unfold close. set (s1 := set_flags s (pn_lookingUp s) true).
  destruct (unwatch_ok s1 Ht) as (Ht2 & _ & Hoff & Hu & _ & Hc2 & Htm). set (s2 := unwatch s1) in *.
  assert (fold_left (fun s timer => clear_timer (Some timer) s) (hd_timers (pn_handles s2)) s2
          = fold_left (fun s timer => clear_timer timer s) (map Some (hd_timers (pn_handles s2))) s2) as ->.
  { generalize s2 at 2 4. generalize (hd_timers (pn_handles s2)). intros l. induction l as [|x l IH]; intros s'; [done|].
    cbn. apply IH. }
  destruct (clear_same (map Some (hd_timers (pn_handles s2))) s2) as (Eh & Es & Ec & _ & En & _ & Ha).
  set (s3 := fold_left _ _ s2) in *.
  assert (rt_alarms (pn_runtime s3) = []) as Hnil.
  { destruct (rt_alarms (pn_runtime s3)) as [|[x a] l]; [done|]. exfalso.
    destruct (Ha x a) as [Hx _]. destruct Hx as [Hx Hno]; [left|]. pose proof Hx as [Hk _]%Ht2.
    destruct Hoff as [_ Hoff]. destruct (Hoff x a Hx) as [r ->]. cbn in Hk. apply Hno. by apply list_elem_of_fmap_2. }
  clearbody s3. destruct Hoff as [Hd _].
  assert (hd_tick (pn_handles s2) = None ∧ hd_lookups (pn_handles s2) = None ∧ hd_resubscribe (pn_handles s2) = None
    ∧ hd_wake (pn_handles s2) = None ∧ se_status (pn_seen s2) = None) as (E1 & E2 & E3 & E4 & E5) by done.
  split_and!; cbn; [|by rewrite Ec, Hc2|done|by rewrite Eh, Hu]. split; [split|split]; cbn; rewrite ?Hnil, ?Eh, ?Es, ?E1, ?E2, ?E3, ?E4, ?E5, ?Hd.
  all: try done; try (by intros ? ? ?%elem_of_nil); try (by apply NoDup_nil); try (intros x [] Hin; cbn; rewrite ?Eh, ?E1, ?E2, ?E3, ?Hd; (done || set_solver)).
Qed.

Lemma on_of_subscription s : Shaped s → is_Some (hd_unsubscribe (pn_handles s)) → On s.
Proof. intros [_ _ Ho _ _] [u Hu] Hd. destruct (Ho Hd) as [Hn _]. congruence. Qed.

Lemma on_of_resubscription s : Shaped s → is_Some (hd_resubscribe (pn_handles s)) → On s.
Proof. intros [_ _ Ho _ _] [u Hu] Hd. destruct (Ho Hd) as (_ & Hn & _). congruence. Qed.

Lemma item_ok t status s : Ok_ s → is_Some (hd_unsubscribe (pn_handles s)) → Ok_ (on_item o t status s).
Proof.
  intros [Ht Hs] Hu. destruct (on_item_ok o t status s Ht) as [Ht' Hc]. split; [done|].
  eapply shaped_core; [exact Hs|by apply on_of_subscription|done].
Qed.

Lemma failed_ok s : Ok_ s → is_Some (hd_unsubscribe (pn_handles s)) → Ok_ (on_failed o s).
Proof.
  intros [Ht Hs] Hu. pose proof (on_of_subscription s Hs Hu) as Hon. pose proof (sh_one _ Hs Hu) as Hr. unfold on_failed.
  set (s1 := set_status None _). assert (Timed s1) as Ht1 by exact (subscription_timed None (hd_first (pn_handles s)) s Ht).
  split; [apply start_timed; [done|]; intros x; apply not_set; [done|]; cbn; by rewrite Hr|].
  destruct Hs as [Hst Hsl Hso H1 Hsc]. split; cbn; try done.
Qed.

(** A timeout that fires while its handle still holds it. *)
Lemma fired_apart s timer alarm x a : Timed s → (timer, alarm) ∈ rt_alarms (pn_runtime s) →
  a ∈ [ATick; ADisk; ALookups; AResubscribe] → a ≠ alarm → kept a x (pn_handles s) → x ≠ timer.
Proof.
  intros Ht Hin Ha Hne Hk ->. apply (ti_set _ _ _ Ht) in Hk; [|done]. by apply Hne; eapply alarm_unique.
Qed.

Lemma wake_fired_ok s timer : Ok_ s → (timer, AWake) ∈ rt_alarms (pn_runtime s) →
  Ok_ (set_alarms (without_timer timer (rt_alarms (pn_runtime s))) s).
Proof.
  intros [Ht Hs] Hin. split; [|destruct Hs; by split].
  eapply timed_fired; [exact Ht|done|intros x a Ha Hx; split; [done|]|done].
  eapply fired_apart; [exact Ht|exact Hin|done|set_solver|done].
Qed.

Lemma resubscribe_fired_ok s timer : Ok_ s → (timer, AResubscribe) ∈ rt_alarms (pn_runtime s) →
  Ok_ (set_handle AResubscribe None (set_alarms (without_timer timer (rt_alarms (pn_runtime s))) s)).
Proof.
  intros [Ht Hs] Hin. split.
  - eapply timed_fired; [exact Ht|..|done].
    + intros x [] Hk Hx; cbn in *; try done. apply Ht in Hin as [Hr _]. cbn in Hr. congruence.
    + intros x a Ha Hx. destruct a; cbn in Hx; try done; (split; [done|]);
        (eapply fired_apart; [exact Ht|exact Hin|exact Ha|done|done]) || set_solver.
  - destruct Hs as [Hst Hsl Hso H1 Hsc]. split; cbn; try done. intros Hd. destruct (Hso Hd) as (? & ? & ? & ?). done.
Qed.

Lemma receipts_fired_ok s timer receipts : Ok_ s → (timer, AReceipts receipts) ∈ rt_alarms (pn_runtime s) →
  Ok_ (receipts_fire timer receipts (set_alarms (without_timer timer (rt_alarms (pn_runtime s))) s)).
Proof.
  intros [Ht Hs] Hin. unfold receipts_fire. set (s1 := set_timers _ _).
  assert (Ok_ s1) as Hok.
  { split.
    - eapply timed_fired; [exact Ht|..|done].
      + intros x [] Hk Hx; cbn in *; try done. apply list_elem_of_In, filter_In. rewrite <- list_elem_of_In.
        rewrite negb_true_iff, Nat.eqb_neq. done.
      + intros x a Ha Hx. assert (kept a x (pn_handles s)) as Hk by (destruct a; cbn in *; try done; set_solver).
        split; [done|]. eapply fired_apart; [exact Ht|exact Hin|exact Ha|destruct a; [done..|set_solver]|done].
    - destruct Hs as [Hst Hsl Hso H1 Hsc]. split; cbn; try done. intros Hc. destruct (Hsc Hc) as [? ->]. done. }
  destruct (pn_closed s1); [done|]. eapply quiet_ok; [|exact Hok]. split; try done. cbn. lia.
Qed.

Lemma find_alarm timer alarms p : List.find (fun a : nat * Alarm => Nat.eqb (fst a) timer) alarms = Some p →
  p ∈ alarms ∧ fst p = timer.
Proof. intros [Hin Heq]%find_some. split; [by apply list_elem_of_In|by apply Nat.eqb_eq]. Qed.

Lemma subscribed_ok t s : Ok_ s → On s → hd_resubscribe (pn_handles s) = None → Ok_ (subscribe o t s).
Proof. intros [Ht Hs] Hon Hr. by destruct (subscribe_ok o t s Ht Hs Hon Hr) as (? & ? & _). Qed.

Lemma fires_ok t timer s : Ok_ s → Ok_ (timer_fires o t timer s).
Proof.
  intros Hok. unfold timer_fires. destruct (List.find _ _) as [[x alarm]|] eqn:E; [|done].
  apply find_alarm in E as [Hin Hx]. cbn in Hx. subst x. destruct alarm; cbn [is_interval].
  - by apply evaluate_ok.
  - eapply quiet_ok; [|exact Hok]. by split.
  - destruct (lookUp_same s) as (_ & Eh & Es & Ea & En). pose proof Hok as [Ht Hs]. split; [by apply lookUp_timed|].
    destruct Hs as [Hst Hsl Hso H1 Hsc]. split; rewrite ?Eh, ?Es; try done.
    assert (pn_closed (lookUpPullRequests s) = pn_closed s) as ->; [|done].
    destruct (lookUp_same s) as (Hc & _). unfold core in Hc. by injection Hc as _ _ _ _ _ _ ? _.
  - by apply evaluate_ok, wake_fired_ok.
  - unfold resubscribe_fires. set (s1 := set_handle _ _ _). assert (Ok_ s1) as Hok1 by by apply resubscribe_fired_ok.
    destruct (watching o t s1 && negb (pn_closed s1)); [|done]. apply subscribed_ok; [done| |done].
    destruct Hok as [Ht Hs]. apply Ht in Hin as [Hr _]. eapply (on_of_resubscription s); [done|]. by eexists.
  - by apply receipts_fired_ok.
Qed.

Lemma sent_ok request tickets s : Ok_ s → Ok_ (on_sent o request tickets s).
Proof.
  intros Hok. unfold on_sent. destruct (List.find _ _) as [[r messages]|]; [|done]. set (s1 := set_requests _ _ s).
  assert (Ok_ s1) as Hok1 by (eapply quiet_ok; [|exact Hok]; by split). destruct tickets as [tickets|]; [|done].
  destruct (pn_closed s1) eqn:Ec; [done|]. pose proof (read_tickets_quiet tickets messages [] s1) as Hq.
  destruct (read_tickets tickets messages [] s1) as [receipts s2]. cbn in Hq. pose proof (quiet_ok _ _ Hq Hok1) as Hok2.
  destruct receipts; [done|]. destruct Hok2 as [Ht Hs]. split; [by apply start_timed|].
  destruct Hs as [Hst Hsl Hso H1 Hsc]. split; cbn; try done. rewrite (qu_closed _ _ Hq), Ec. done.
Qed.

Lemma found_ok t found s : Ok_ s → Ok_ (pulls_found o t found s).
Proof.
  intros Hok. unfold pulls_found. set (s1 := match found with Some _ => _ | None => _ end).
  assert (Ok_ s1) as Hok1.
  { unfold s1. destruct found as [found|]; [|done]. destruct (_ || _); [done|]. apply evaluate_ok.
    eapply quiet_ok; [|exact Hok]. by split. }
  eapply quiet_ok; [|exact Hok1]. by split.
Qed.

Lemma push_step_ok t action s : Ok_ s → Ok_ (push_step t action s).
Proof.
  intros Hok. destruct action; cbn [push_step].
  - destruct (pn_closed s) eqn:Ec; [unfold refresh; by rewrite Ec|]. by apply refresh_exact.
  - by eapply quiet_ok, Hok; apply control_quiet.
  - by apply close_ok.
  - case_bool_decide; [by apply item_ok|done].
  - case_bool_decide; [by apply failed_ok|done].
  - by apply fires_ok.
  - destruct (_ <? _)%nat; [|done]. apply evaluate_ok. eapply quiet_ok; [|exact Hok]. by split.
  - destruct (pn_lookingUp s); [by apply found_ok|done].
  - by apply sent_ok.
  - by eapply quiet_ok, Hok; apply on_checked_quiet.
Qed.

Lemma new_ok log : Ok_ (new_PushNotifier log).
Proof.
  split; [split|split]; cbn; try done; try (by intros ? ? ?%elem_of_nil); try (by apply NoDup_nil).
  intros x [] Ha Hx; cbn in Hx; (done || set_solver).
Qed.

Lemma run_ok events s : Ok_ s → Ok_ (push_run events s).
Proof.
  revert s. induction events as [|[t action] events IH]; intros s Hok; [done|]. cbn. by apply IH, push_step_ok.
Qed.

(** ** Closed *)

Lemma closed_evaluate t s : pn_closed s = true → evaluate o t s = s.
Proof. unfold evaluate. intros ->. by destruct (se_status _). Qed.

Lemma closed_silent t action s : Ok_ s → pn_closed s = true → rt_alarms (pn_runtime s) = [] →
  rt_trace (pn_runtime (push_step t action s)) = rt_trace (pn_runtime s) ∧ pn_closed (push_step t action s) = true.
Proof.
  intros [Ht Hs] Hc Ha. destruct (sh_closed _ Hs Hc) as [Hd Htm]. destruct (sh_off _ Hs Hd) as (Hu & Hr & Hw & Hse).
  assert (hd_tick (pn_handles s) = None) as E1 by (apply eq_None_not_Some; rewrite (sh_tick _ Hs), Hd; by intros [? ?]).
  assert (hd_lookups (pn_handles s) = None) as E2 by (apply eq_None_not_Some; rewrite (sh_lookups _ Hs), Hd; by intros [? ?]).
  destruct action; cbn [push_step].
  - unfold refresh. by rewrite Hc.
  - unfold control. by rewrite Hc.
  - unfold close, unwatch. cbn. rewrite Hu, E1, Hd, E2, Hw, Hr. cbn. by rewrite Htm.
  - rewrite bool_decide_eq_false_2; [done|]. rewrite Hu. by intros [? ?].
  - rewrite bool_decide_eq_false_2; [done|]. rewrite Hu. by intros [? ?].
  - unfold timer_fires. by rewrite Ha.
  - destruct (_ <? _)%nat; [|done]. unfold pressure_read. by rewrite closed_evaluate.
  - destruct (pn_lookingUp s); [|done]. unfold pulls_found. destruct found; [|done]. by rewrite Hc.
  - unfold on_sent. destruct (List.find _ _) as [[r messages]|]; [|done]. destruct tickets; [|done]. cbn. by rewrite Hc.
  - unfold on_checked. destruct (List.find _ _) as [[r receipts]|]; [|done]. destruct data; [|done]. cbn. by rewrite Hc.
Qed.

Lemma closed_forever events s : Ok_ s → pn_closed s = true →
  rt_trace (pn_runtime (push_run events s)) = rt_trace (pn_runtime s)
  ∧ rt_alarms (pn_runtime (push_run events s)) = [] ∧ pn_closed (push_run events s) = true.
Proof.
  assert (∀ s, Ok_ s → pn_closed s = true → rt_alarms (pn_runtime s) = []) as Hnone.
  { intros s0 [Ht Hs] Hc. destruct (sh_closed _ Hs Hc) as [Hd Htm]. destruct (sh_off _ Hs Hd) as (Hu & Hr & Hw & Hse).
    destruct (rt_alarms (pn_runtime s0)) as [|[x a] l] eqn:E; [done|]. exfalso.
    assert ((x, a) ∈ rt_alarms (pn_runtime s0)) as [Hk _]%Ht by (rewrite E; left).
    pose proof (sh_tick _ Hs) as H1. pose proof (sh_lookups _ Hs) as H2. rewrite Hd in H1, H2.
    destruct a; cbn in Hk; rewrite ?Hk, ?Htm in *; try congruence; try (by apply elem_of_nil in Hk);
      [destruct (proj1 H1)|destruct (proj1 H2)]; done. }
  revert s. induction events as [|[t action] events IH]; intros s Hok Hc; [split_and!; auto|]. cbn.
  destruct (closed_silent t action s Hok Hc (Hnone s Hok Hc)) as [<- Hc']. apply IH; [by apply push_step_ok|done].
Qed.

(** C32: the notifier watches just while there is someone to watch for, and leaves no timer behind: whatever happens, every
    timer that is set is kept where it will be cleared; a look at the registrations that finds someone leaves the three
    intervals set, and either a subscription to the status or a timer that will make one; one that finds nobody leaves
    neither, and no timer but those of receipts; and once closed it never sets a timer, sends or asks anything again. *)
Theorem watches_exactly log events :
  let s := push_run events (new_PushNotifier log) in
  (∀ timer alarm, (timer, alarm) ∈ rt_alarms (pn_runtime s) → kept alarm timer (pn_handles s))
  ∧ (∀ t, pn_closed s = false →
       let s' := push_step t Refreshes s in
       if someone t then Watches s'
       else hd_unsubscribe (pn_handles s') = None
            ∧ ∀ timer alarm, (timer, alarm) ∈ rt_alarms (pn_runtime s') → ∃ receipts, alarm = AReceipts receipts)
  ∧ (∀ t later, let s' := push_step t Closes s in
       rt_alarms (pn_runtime (push_run later s')) = []
       ∧ rt_trace (pn_runtime (push_run later s')) = rt_trace (pn_runtime s')).
Proof.
  intros s. assert (Ok_ s) as Hok by apply run_ok, new_ok. split_and!.
  - intros timer alarm Hin. by apply Hok in Hin as [Hk _].
  - intros t Hc. cbn zeta. destruct (refresh_exact t s Hok Hc) as (_ & _ & Hr). cbn [push_step].
    destruct (someone t); [done|]. by destruct Hr as [? [_ ?]].
  - intros t later. cbn zeta. destruct (close_ok s Hok) as (Hok' & Hc & _).
    by destruct (closed_forever later (close s) Hok' Hc) as (? & ? & _).
Qed.
End Runs.

(** ** A phone *)

Module SamplePush.
#[global] Instance date : NodeDate := {|
  Date_parse s := match s with [65; t] => Some t | _ => None end;
  toISOString t := Some [65; t];
|}.
#[global] Instance runtime : PushRuntime := {| minute_at _ _ := 0; sha256_hex s := s; toLower s := s |}.

Definition push : PushRegistration :=
  {| pu_token := js "ExpoPushToken[a]"; pu_events := [PushMachine; PushControl];
     pu_levels := Some [(PushControl, LevelAlert)]; pu_ref := js "ref"; pu_registeredAt := js "then";
     pu_stuckMinutes := 15; pu_quietHours := Some {| qh_start := 60; qh_end := 120; qh_timeZone := js "UTC" |} |}.

Definition phone : PairedDevice :=
  {| dv_id := js "phone"; dv_name := js "Phone"; dv_publicKey := []; dv_from := None; dv_pairedAt := js "then";
     dv_lastSeenAt := None; dv_capabilities := []; dv_push := Some push; dv_setupJournal := None; dv_clientApp := None;
     dv_clientVersion := None |}.

Definition options (perHour : Z) : PushNotifierOptions :=
  {| po_name := js "mac"; po_whilePaired := true;
     po_limits := {| pl_tickMs := 30000; pl_diskMs := 60000; pl_pullRequestMs := 300000; pl_receiptDelayMs := 900000;
                     pl_perHour := perHour; pl_summarizeAbove := 3; pl_resubscribeMs := 30000 |} |}.

Definition turn (now : Z) : Turn :=
  {| tn_now := now; tn_devices := [phone]; tn_ownLeases := []; tn_volumes := Some [100 * 1024 ^ 3];
     tn_replay := [{| sp_status := {| os_environments := []; os_unprovisioned := [] |}; sp_upstream := [] |}];
     tn_random := js "log"; tn_io := IoDone |}.

Definition nobody (now : Z) : Turn :=
  {| tn_now := now; tn_devices := []; tn_ownLeases := []; tn_volumes := None; tn_replay := []; tn_random := js "log";
     tn_io := IoDone |}.

Definition conflict : ControlConflict :=
  {| cc_workspace := js "/w"; cc_title := js "Taken"; cc_body := js "An agent drives it"; cc_platform := js "ios";
     cc_slot := js "1" |}.

Abbreviation start := (new_PushNotifier (new_NotificationLog None)).
Definition watched : list (Turn * PushAction) := [(turn 0, Refreshes); (turn 1, StatusFailed)].

(** C32 where a phone is paired and the status feed has failed: the next look keeps the timer that will subscribe anew, one
    that finds no device drops it, and closing leaves nothing. *)
Lemma watches_exactly_witness :
  let s := push_run (options 20) watched start in
  Watches (push_step (options 20) (turn 2) Refreshes s)
  ∧ map snd (rt_alarms (pn_runtime (push_step (options 20) (turn 2) Refreshes s))) = [ADisk; ATick; ALookups; AResubscribe]
  ∧ hd_unsubscribe (pn_handles (push_step (options 20) (nobody 2) Refreshes s)) = None
  ∧ rt_alarms (pn_runtime (push_step (options 20) (turn 3) Closes s)) = [].
Proof.
  intros s. destruct (watches_exactly (options 20) (new_NotificationLog None) watched) as (_ & Hr & Hc).
  fold s in Hr, Hc.
  split_and!.
  - by apply (Hr (turn 2)).
  - by vm_compute.
  - by apply (Hr (nobody 2)).
  - apply (Hc (turn 3) []).
Defined.
End SamplePush.
