(* ===== verification/PushSends.v ===== *)
(** * What [PushNotifier] sends

    Only a conflict or what [oversee] finds for the device at a moment of the turn, as loud as the device asked for and
    outside its quiet hours. *)

From Stdlib Require Import ZArith Lia.
From S2P Require Import Prelude.
From S2P Require Import Bytes.
From S2P Require Import Json.
From S2P Require Import Policy.
From S2P Require Import Oversight.
From S2P Require Import Oversee.
From S2P Require Import OverseeFacts.
From S2P Require Import KeyedDelta.
From S2P Require Import KeyedDeltaFacts.
From S2P Require Import Registry.
From S2P Require Import NotificationLog.
From S2P Require Import Push.
From S2P Require Import PushFacts.
From S2P Require Import PushRuns.
Open Scope Z_scope.

Section Sends.
Context `{!NodeDate, !PushRuntime} (o : PushNotifierOptions).

Section Turns.
Variables (t : Turn) (action : PushAction).

(** ** Steps that send nothing *)

Definition no_send (e : PushEffect) : Prop := match e with PSends _ _ => False | _ => True end.

Definition comes (status : StatusPayload) : Prop := status ∈ tn_replay t ∨ action = StatusCame status.

(** What was seen is still seen, or forgotten, or was read in this turn. *)
Record Reads (e e' : Seen) : Prop := {
  rd_status : ∀ status, se_status e' = Some status → se_status e = Some status ∨ comes status;
  rd_volumes : ∀ volumes, se_volumes e' = Some volumes → se_volumes e = Some volumes ∨ tn_volumes t = Some volumes;
  rd_pressure : ∀ pressure, se_pressure e' = Some pressure →
    se_pressure e = Some pressure ∨ action = PressureRead (Some pressure);
  rd_pulls : se_pullRequests e' = ∅ ∨ se_pullRequests e' = se_pullRequests e
    ∨ action = PullsFound (Some (se_pullRequests e'));
}.

#[global] Instance Reads_preorder : PreOrder Reads.
Proof.
  split; [split; auto|]. intros a b c [S1 V1 P1 L1] [S2 V2 P2 L2]. split.
  - intros x [Hx|Hx]%S2; auto.
  - intros x [Hx|Hx]%V2; auto.
  - intros x [Hx|Hx]%P2; auto.
  - destruct L2 as [L2|[L2|L2]]; rewrite ?L2; auto.
Qed.

(** The registrations are as they were, nothing was sent, and nothing is seen but what was or what the turn read. *)
Definition calm (s s' : Notifier) : Prop :=
  pn_registered s' = pn_registered s ∧ Reads (pn_seen s) (pn_seen s')
  ∧ ∃ new, rt_trace (pn_runtime s') = rt_trace (pn_runtime s) ++ new ∧ Forall no_send new.

#[global] Instance calm_preorder : PreOrder calm.
Proof.
  split.
  - intros s. split_and!; [done|done|]. exists []. by rewrite app_nil_r.
  - intros a b c (E1 & R1 & n1 & T1 & F1) (E2 & R2 & n2 & T2 & F2). split_and!; [congruence|by etrans|]. exists (n1 ++ n2).
    rewrite T2, T1, app_assoc. split; [done|by apply Forall_app].
Qed.

Lemma calm_reads s s' : pn_registered s' = pn_registered s → Reads (pn_seen s) (pn_seen s') →
  rt_trace (pn_runtime s') = rt_trace (pn_runtime s) → calm s s'.
Proof. intros E R T. split_and!; [done|done|]. exists []. by rewrite T, app_nil_r. Qed.

Lemma calm_same s s' : pn_registered s' = pn_registered s → pn_seen s' = pn_seen s →
  rt_trace (pn_runtime s') = rt_trace (pn_runtime s) → calm s s'.
Proof. intros E R T. apply calm_reads; [done| |done]. by rewrite R. Qed.

Lemma calm_emit e s s' : no_send e → pn_registered s' = pn_registered s → pn_seen s' = pn_seen s →
  rt_trace (pn_runtime s') = rt_trace (pn_runtime s) ++ [e] → calm s s'.
Proof.
  intros He E R T. split_and!; [done|by rewrite R|]. exists [e]. split; [done|by constructor].
Qed.

(** The step emits one effect, which sends nothing. *)
Ltac emits := eapply calm_emit; [|reflexivity|reflexivity|reflexivity]; exact I.

Lemma status_comes status s : comes status → calm s (set_status (Some status) s).
Proof. intros Hc. apply calm_reads; [done| |done]. split; cbn; auto. intros x [= <-]. auto. Qed.

Lemma record_calm entries s : calm s (record t entries s).
Proof.
  unfold record. destruct entries; [done|]. destruct (append _ _ _ _ _) as [log [logged|err]].
  - emits.
  - by apply calm_same.
Qed.

Lemma start_calm alarm ms s : calm s (start_timer alarm ms s).
Proof. emits. Qed.

Lemma clear_calm timer s : calm s (clear_timer timer s).
Proof. destruct timer; [emits|done]. Qed.

Lemma clears_calm ts s : calm s (fold_left (fun s timer => clear_timer timer s) ts s).
Proof. revert s. induction ts as [|timer ts IH]; intros s; [done|]. cbn. etrans; [apply clear_calm|apply IH]. Qed.

Lemma set_wake_calm now wakeAt s : calm s (set_wake now wakeAt s).
Proof.
  unfold set_wake. etrans; [apply clear_calm|]. destruct wakeAt; [apply start_calm|by apply calm_same].
Qed.

Lemma lookUp_calm s : calm s (lookUpPullRequests s).
Proof.
  unfold lookUpPullRequests. destruct (se_status (pn_seen s)); [|done]. destruct (_ || _ || _); [done|].
  destruct (pushed_worktrees _); [done|]. emits.
Qed.

Lemma unwatch_calm s : calm s (unwatch s).
Proof.
  unfold unwatch. set (s1 := match hd_unsubscribe _ with Some _ => _ | None => _ end).
  transitivity s1; [unfold s1; destruct (hd_unsubscribe _); [emits|reflexivity]|].
  etrans; [apply clears_calm|]. apply calm_reads; [done| |done]. split; cbn; auto; done.
Qed.

Lemma readMachine_calm s : calm s (readMachine t s).
Proof.
  transitivity (set_volumes (tn_volumes t) s); [|emits]. apply calm_reads; [done| |done]. split; cbn; auto.
Qed.

Lemma read_tickets_calm tickets messages receipts s : calm s (snd (read_tickets tickets messages receipts s)).
Proof.
  revert messages receipts s. induction tickets as [|k tickets IH]; intros [|m messages] receipts s; cbn; try done.
  destruct (pm_to m); [apply IH|]. destruct (ticket_receipt k); [apply IH|]. destruct (is_unregistered k); [|apply IH].
  etrans; [|apply IH]. emits.
Qed.

Lemma sent_calm request tickets s : calm s (on_sent o request tickets s).
Proof.
  unfold on_sent. destruct (List.find _ _) as [[r messages]|]; [|done]. set (s1 := set_requests _ _ s).
  assert (calm s s1) as H1 by by apply calm_same. destruct tickets as [tickets|]; [|done].
  destruct (pn_closed s1); [done|]. pose proof (read_tickets_calm tickets messages [] s1) as H2.
  destruct (read_tickets tickets messages [] s1) as [receipts s2]. cbn in H2.
  etrans; [exact H1|]. etrans; [exact H2|]. destruct receipts; [done|apply start_calm].
Qed.

Lemma checked_calm request data s : calm s (on_checked request data s).
Proof.
  unfold on_checked. destruct (List.find _ _) as [[r receipts]|]; [|done]. set (s1 := set_requests _ _ s).
  assert (calm s s1) as H1 by by apply calm_same. destruct data as [data|]; [|done]. destruct (pn_closed s1); [done|].
  etrans; [exact H1|]. clearbody s1. clear H1. revert s1.
  induction data as [|[id receipt] data IH]; intros s1; [done|]. cbn. destruct (non_empty _); [|apply IH].
  destruct (is_unregistered receipt); [|apply IH]. etrans; [|apply IH]. emits.
Qed.

Lemma close_calm s : calm s (close s).
Proof.
  unfold close. set (s1 := set_flags s _ true). transitivity s1; [by apply calm_same|].
  etrans; [apply unwatch_calm|]. set (s2 := unwatch s1).
  transitivity (fold_left (fun s timer => clear_timer (Some timer) s) (hd_timers (pn_handles s2)) s2); [|by apply calm_same].
  generalize (hd_timers (pn_handles s2)). intros l. generalize s2. induction l as [|x l IH]; intros s3; [done|].
  etrans; [apply (clear_calm (Some x))|apply IH].
Qed.

(** ** Steps that only look *)

Inductive Looks : Notifier → Notifier → Prop :=
| looks_none s : Looks s s
| looks_calm s s1 s2 : calm s s1 → Looks s1 s2 → Looks s s2
| looks_once s s2 : Looks (evaluate o t s) s2 → Looks s s2.

#[global] Instance Looks_trans : Transitive Looks.
Proof. intros a b c H1 H2. induction H1; eauto using Looks. Qed.

Lemma calm_looks s s' : calm s s' → Looks s s'.
Proof. intros H1. eapply looks_calm; [exact H1|constructor]. Qed.

Lemma evaluate_looks s s1 : calm s s1 → Looks s (evaluate o t s1).
Proof. intros H1. eapply looks_calm; [exact H1|]. apply looks_once. constructor. Qed.

Lemma item_looks status s : comes status → Looks s (on_item o t status s).
Proof.
  intros Hst. unfold on_item. set (s1 := evaluate o t _). assert (Looks s s1) as H1 by (by apply evaluate_looks, status_comes).
  etrans; [exact H1|]. destruct (hd_first (pn_handles s1)); [|constructor]. apply calm_looks.
  etrans; [|apply lookUp_calm]. by apply calm_same.
Qed.

Lemma subscribe_looks s : Looks s (subscribe o t s).
Proof.
  unfold subscribe. cbn. set (s1 := emit _ _). apply (looks_calm s s1); [emits|].
  clearbody s1. transitivity (fold_left (fun s status => on_item o t status s) (tn_replay t) s1);
    [|apply calm_looks; by apply calm_same].
  assert (∀ l, l ⊆ tn_replay t → ∀ s, Looks s (fold_left (fun s status => on_item o t status s) l s)) as Hl; [|by apply Hl].
  induction l as [|status l IH]; intros Hsub s2; [constructor|].
  cbn. etrans; [apply item_looks; left; apply Hsub; left|]. apply IH. set_solver.
Qed.

Lemma watch_looks s : Looks s (watch o t s).
Proof.
  unfold watch. set (s1 := match hd_disk _ with Some _ => _ | None => _ end).
  assert (calm s s1) as H1.
  { unfold s1. destruct (hd_disk _); [done|]. etrans; [apply readMachine_calm|apply start_calm]. }
  set (s2 := match hd_tick _ with Some _ => _ | None => _ end).
  assert (calm s1 s2) as H2 by (unfold s2; destruct (hd_tick _); [done|apply start_calm]).
  set (s3 := match hd_lookups _ with Some _ => _ | None => _ end).
  assert (calm s2 s3) as H3 by (unfold s3; destruct (hd_lookups _); [done|apply start_calm]).
  eapply looks_calm; [by etrans; [exact H1|etrans]|].
  destruct (hd_unsubscribe _); [constructor|]. destruct (hd_resubscribe _); [constructor|apply subscribe_looks].
Qed.

Lemma fires_looks timer s : Looks s (timer_fires o t timer s).
Proof.
  unfold timer_fires. destruct (List.find _ _) as [[x alarm]|]; [|constructor].
  set (s1 := if is_interval alarm then s else _). assert (calm s s1) as H1 by (unfold s1; by destruct (is_interval alarm); [|apply calm_same]).
  destruct alarm; try (by apply evaluate_looks); eapply looks_calm; [exact H1| |exact H1| |exact H1| |exact H1|].
  - apply calm_looks, readMachine_calm.
  - apply calm_looks, lookUp_calm.
  - unfold resubscribe_fires. set (s2 := set_handle _ _ s1). eapply (looks_calm s1 s2); [by apply calm_same|].
    destruct (_ && _); [apply subscribe_looks|constructor].
  - unfold receipts_fire. set (s2 := set_timers _ s1). eapply (looks_calm s1 s2); [by apply calm_same|].
    destruct (pn_closed s2); [constructor|]. apply calm_looks. emits.
Qed.

Lemma step_looks s : (∀ device conflict, action ≠ Conflicts device conflict) → action ≠ Refreshes →
  Looks s (push_step o t action s).
Proof.
  intros Hc Hr. destruct action eqn:Ea; cbn [push_step]; try done.
  - by destruct (Hc device conflict).
  - apply calm_looks, close_calm.
  - case_bool_decide; [apply item_looks; by right|constructor].
  - case_bool_decide; [|constructor]. apply calm_looks. unfold on_failed.
    etrans; [|apply start_calm]. apply calm_reads; [done| |done]. split; cbn; auto; done.
  - apply fires_looks.
  - destruct (_ <? _)%nat; [|constructor]. apply evaluate_looks. apply calm_reads; [done| |done].
    split; cbn; auto. intros x ->. auto.
  - destruct (pn_lookingUp s); [|constructor]. unfold pulls_found.
    set (s1 := match found with Some _ => _ | None => _ end). transitivity s1; [|apply calm_looks; by apply calm_same].
    unfold s1. destruct found; [|constructor]. destruct (_ || _); [constructor|]. apply evaluate_looks.
    apply calm_reads; [done| |done]. split; cbn; auto.
  - apply calm_looks, sent_calm.
  - apply calm_looks, checked_calm.
Qed.

(** A look changes the registrations and sends as [look_for_each] says. *)
Lemma evaluate_shape s : calm s (evaluate o t s) ∨ ∃ status log log' wakeAt wakeAt' messages new,
  se_status (pn_seen s) = Some status
  ∧ look_for_each o t (input_of o t status s) (pn_registered s) log wakeAt = (pn_registered (evaluate o t s), log', messages, wakeAt')
  ∧ Forall no_send new
  ∧ rt_trace (pn_runtime (evaluate o t s))
    = rt_trace (pn_runtime s) ++ new ++ match messages with
                                        | [] => []
                                        | _ => [PSends (pred (rt_next (pn_runtime (evaluate o t s)))) messages]
                                        end.
Proof.
  unfold evaluate. destruct (se_status (pn_seen s)) as [status|] eqn:Es; [|by left]. destruct (pn_closed s); [by left|]. right.
  set (s0 := set_history _ _). set (s1 := record t _ s0).
  set (input := input_of o t status s). set (w := or_wakeAt _).
  assert (calm s0 s1) as (Er & _ & n1 & T1 & F1) by apply record_calm. clearbody s1 w.
  exists status, (pn_log s1). rewrite Er. change (pn_registered s0) with (pn_registered s).
  destruct (look_for_each o t input (pn_registered s) (pn_log s1) w) as [[[registered log] messages] wakeAt] eqn:E.
  set (s2 := set_log (set_registered s1 registered) log).
  destruct (set_wake_calm (tn_now t) wakeAt s2) as (Er3 & _ & n3 & T3 & F3). set (s3 := set_wake _ _ s2) in *.
  exists log, w, wakeAt, messages, (n1 ++ n3). clearbody s3.
  assert (rt_trace (pn_runtime s3) = rt_trace (pn_runtime s) ++ n1 ++ n3) as T by (rewrite T3; cbn; rewrite T1; by rewrite app_assoc).
  destruct messages as [|m messages].
  - rewrite Er3, T, app_nil_r. split_and!; [done|exact E|by apply Forall_app|done].
  - cbn. rewrite Er3, T, <- !app_assoc. split_and!; [done|exact E|by apply Forall_app|done].
Qed.

(** ** What is sent *)

Definition asks (push : PushRegistration) (n : OversightNotification) : Prop := event_of (no_category n) ∈ pu_events push.

(** The message tells a notification that the device asked for, as loud as it asked. *)
Definition tells (push : PushRegistration) (n : OversightNotification) (m : PushMessage) : Prop :=
  asks push n ∧ pm_title m = no_title n ∧ pm_body m = no_body n ∧ pm_target m = PushAt (no_target n)
  ∧ pm_delivery m = DELIVERY (levelOf push n).

(** The message stands for these, which the device asked for; it is silent when they all are. *)
Definition sums_up (push : PushRegistration) (ns : list OversightNotification) (m : PushMessage) : Prop :=
  Forall (asks push) ns ∧ pm_title m = po_name o
  ∧ pm_body m = number (Z.of_nat (length ns)) ++ js " things need a look" ∧ pm_target m = PushHome
  ∧ pm_delivery m = DELIVERY (if forallb (is_silent push) ns then LevelSilent else LevelAlert).

Definition due (d : Registered) (m : PushMessage) : Prop :=
  pm_to m = pu_token (rg_push d) ∧ pm_ref m = pu_ref (rg_push d)
  ∧ quietNow (pu_quietHours (rg_push d)) (tn_now t) = false.

(** What the rules find for a device on an input. *)
Definition findings (input : OversightInput) (d : Registered) : list OversightNotification :=
  or_notifications (oversee toLower (rg_state d) input (prefs_of t d) (tn_now t) 0).

(** The message tells one of the notifications, or stands for more than are sent one by one. *)
Definition carries (push : PushRegistration) (ns : list OversightNotification) (m : PushMessage) : Prop :=
  ((length ns <= pl_summarizeAbove (po_limits o))%nat ∧ ∃ n, n ∈ ns ∧ tells push n m)
  ∨ ((pl_summarizeAbove (po_limits o) < length ns)%nat ∧ sums_up push ns m).

Lemma asks_category push c : c ∈ map category_of (pu_events push) → event_of c ∈ pu_events push.
Proof. intros (e & -> & He)%list_elem_of_fmap. by destruct e. Qed.

Lemma message_tells d n log : asks (rg_push d) n → quietNow (pu_quietHours (rg_push d)) (tn_now t) = false →
  due d (snd (message o t d n log)) ∧ tells (rg_push d) n (snd (message o t d n log)).
Proof. intros Ha Hq. unfold message. by destruct (latest _ _ _ _). Qed.

Lemma messages_due d ns log : Forall (asks (rg_push d)) ns → quietNow (pu_quietHours (rg_push d)) (tn_now t) = false →
  Forall (fun m => due d m ∧ ∃ n, n ∈ ns ∧ tells (rg_push d) n m) (snd (messages_of o t d ns log)).
Proof.
  intros Ha Hq. revert log. induction Ha as [|n ns Hn Ha IH]; intros log; [constructor|]. cbn.
  destruct (message_tells d n log Hn Hq) as [Hd Hm]. destruct (message o t d n log) as [log1 m].
  specialize (IH log1). destruct (messages_of o t d ns log1) as [log2 rest]. constructor.
  - split; [done|]. exists n. split; [left|done].
  - eapply Forall_impl; [exact IH|]. intros x (? & n' & ? & ?). split; [done|]. exists n'. split; [by right|done].
Qed.

Lemma take_each_sub now ms d m : m ∈ snd (take_each o now ms d) → m ∈ ms.
Proof.
  revert d. induction ms as [|m0 ms IH]; intros d; [done|]. cbn. destruct (is_passive m0).
  - specialize (IH d). destruct (take_each o now ms d). cbn in *. set_solver.
  - destruct (take_token o now d) as [d' []]; specialize (IH d'); destruct (take_each o now ms d'); cbn in *; set_solver.
Qed.

Lemma findings_asked input d n : n ∈ findings input d →
  asks (rg_push d) n ∧ quietNow (pu_quietHours (rg_push d)) (tn_now t) = false.
Proof. intros (_ & Hq & Hc)%notifications_wanted. split; [by apply asks_category|done]. Qed.

Lemma look_for_due input d log :
  Forall (fun m => due d m ∧ carries (rg_push d) (findings input d) m) (snd (fst (look_for o t input d log))).
Proof.
  unfold look_for. set (d' := set_state _ d). fold (findings input d). pose proof (findings_asked input d) as Hn.
  assert (∀ log' ms, (if (pl_summarizeAbove (po_limits o) <? length (findings input d))%nat
            then (log, [summary o d' (findings input d)]) else messages_of o t d' (findings input d) log) = (log', ms) →
    Forall (fun m => due d m ∧ carries (rg_push d) (findings input d) m) ms) as Hms.
  { intros log' ms. unfold carries. generalize dependent (findings input d). intros ns Hn.
    destruct (Nat.ltb_spec (pl_summarizeAbove (po_limits o)) (length ns)) as [Hl|Hl]; intros E.
    - injection E as <- <-. constructor; [|constructor]. destruct ns as [|n ns]; [cbn in Hl; lia|].
      split; [split_and!; try done; by apply (Hn n); left|]. right.
      split; [done|]. split_and!; try done. apply Forall_forall. intros x Hx. by apply Hn.
    - destruct ns as [|n ns]; [injection E as <- <-; constructor|].
      pose proof (messages_due d' (n :: ns) log) as Hd. rewrite E in Hd.
      assert (Forall (asks (rg_push d)) (n :: ns)) as Ha by (apply Forall_forall; intros x Hx; by apply Hn).
      destruct (Hn n ltac:(left)) as [_ Hq]. specialize (Hd Ha Hq).
      eapply Forall_impl; [exact Hd|]. intros x [? ?]. split; [done|]. by left. }
  destruct (if (_ <? _)%nat then _ else _) as [log' ms]. specialize (Hms log' ms eq_refl).
  pose proof (take_each_sub (tn_now t) ms d') as Hsub. destruct (take_each o (tn_now t) ms d') as [d2 sent]. cbn in *.
  rewrite Forall_forall in Hms |- *. auto.
Qed.

Lemma look_for_each_due input registered log wakeAt :
  Forall (fun m => ∃ id d, (id, d) ∈ registered ∧ due d m ∧ carries (rg_push d) (findings input d) m)
    (snd (fst (look_for_each o t input registered log wakeAt))).
Proof.
  revert log wakeAt. induction registered as [|[id d] registered IH]; intros log wakeAt; [constructor|].
  cbn [look_for_each]. pose proof (look_for_due input d log) as Hd.
  destruct (look_for o t input d log) as [[[d' log'] messages] at_]. cbn in Hd.
  set (wakeAt' := match at_ with Some _ => _ | None => _ end). specialize (IH log' wakeAt').
  destruct (look_for_each o t input registered log' wakeAt') as [[[r l] more] w]. cbn in IH |- *.
  apply Forall_app. split; (eapply Forall_impl; [eassumption|]); cbn.
  - intros m Hm. exists id, d. split; [left|done].
  - intros m (i & x & Hin & Hm). exists i, x. split; [by right|done].
Qed.

(** All that was sent on the way is as [P] says. *)
Definition Sends (P : PushMessage → Prop) (s s' : Notifier) : Prop :=
  ∃ new, rt_trace (pn_runtime s') = rt_trace (pn_runtime s) ++ new
    ∧ ∀ request messages m, PSends request messages ∈ new → m ∈ messages → P m.

Lemma sends_trans P s1 s2 s3 : Sends P s1 s2 → Sends P s2 s3 → Sends P s1 s3.
Proof.
  intros (n1 & T1 & H1) (n2 & T2 & H2). exists (n1 ++ n2). rewrite T2, T1, app_assoc. split; [done|].
  intros request messages m [Hin|Hin]%elem_of_app; eauto.
Qed.

Lemma sends_weaken (P Q : PushMessage → Prop) s s' : (∀ m, P m → Q m) → Sends P s s' → Sends Q s s'.
Proof. intros Hpq (new & T & Hs). exists new. split; [done|]. eauto. Qed.

Lemma calm_sends P s s' : calm s s' → Sends P s s'.
Proof.
  intros (_ & _ & new & T & F). exists new. split; [done|]. intros request messages m Hin. rewrite Forall_forall in F.
  by apply F in Hin.
Qed.

(** A moment of the turn, with a status in sight, at which the rules looked at a device: what they found is sent. *)
Definition looked_at (s0 : Notifier) (id : units) (d : Registered) (m : PushMessage) : Prop :=
  ∃ s status, Looks s0 s ∧ (id, d) ∈ pn_registered s ∧ se_status (pn_seen s) = Some status
    ∧ carries (rg_push d) (findings (input_of o t status s) d) m.

Definition from_look (s0 : Notifier) (m : PushMessage) : Prop :=
  ∃ id d, (id, rg_push d) ∈ pushes s0 ∧ due d m ∧ looked_at s0 id d m.

Lemma evaluate_pushes s : pushes (evaluate o t s) = pushes s.
Proof. pose proof (evaluate_core o t s) as Hc. unfold core in Hc. by injection Hc as _ _ _ _ _ _ _ ?. Qed.

Lemma looks_pushes s s' : Looks s s' → pushes s' = pushes s.
Proof.
  induction 1 as [s|s s1 s2 Hc _ IH|s s2 _ IH]; [done| |by rewrite IH, evaluate_pushes].
  rewrite IH. unfold pushes. by destruct Hc as [-> _].
Qed.

Lemma evaluate_sends s0 s : Looks s0 s → Sends (from_look s0) s (evaluate o t s).
Proof.
  intros Hl. destruct (evaluate_shape s) as [Hc|(status & log & log' & w & w' & messages & new & Es & E & F & T)];
    [by apply calm_sends|].
  exists (new ++ match messages with [] => [] | _ => [PSends (pred (rt_next (pn_runtime (evaluate o t s)))) messages] end).
  split; [done|]. intros request ms m [Hin|Hin]%elem_of_app Hm; [rewrite Forall_forall in F; by apply F in Hin|].
  pose proof (look_for_each_due (input_of o t status s) (pn_registered s) log w) as Hd. rewrite E in Hd. cbn in Hd.
  rewrite Forall_forall in Hd.
  assert (ms = messages) as -> by (destruct messages; [by apply elem_of_nil in Hin|]; by apply list_elem_of_singleton in Hin as [= -> ->]).
  destruct (Hd m Hm) as (id & d & Hid & Hdue & Hcar). exists id, d. split_and!; [|done|by exists s, status].
  rewrite <- (looks_pushes _ _ Hl). apply list_elem_of_fmap. by exists (id, d).
Qed.

Lemma looks_sends s0 s s' : Looks s0 s → Looks s s' → Sends (from_look s0) s s'.
Proof.
  intros Hb Hl. induction Hl as [s|s s1 s2 Hc Hl IH|s s2 Hl IH].
  - by apply calm_sends.
  - eapply sends_trans; [by apply calm_sends|]. apply IH. etrans; [exact Hb|by apply calm_looks].
  - eapply sends_trans; [by apply evaluate_sends|]. apply IH. etrans; [exact Hb|]. apply looks_once. constructor.
Qed.
End Turns.

(** ** The registrations *)

Lemma still_there_get current registered id :
  map_get id (still_there current registered)
  = if decide (is_Some (map_get id current)) then map_get id registered else None.
Proof.
  unfold still_there. induction registered as [|[i d] registered IH]; cbn; [by case_decide|].
  destruct (bool_decide (is_Some (map_get i current))) eqn:E; cbn.
  - apply bool_decide_eq_true in E. destruct (decide (i = id)) as [->|]; [by rewrite decide_True|done].
  - apply bool_decide_eq_false in E. rewrite IH. destruct (decide (i = id)) as [->|]; [by rewrite !decide_False|done].
Qed.

Lemma still_there_keys current registered : NoDup registered.*1 → NoDup (still_there current registered).*1.
Proof.
  induction registered as [|[i d] registered IH]; cbn; [done|]. intros [Hi Hr]%NoDup_cons.
  destruct (bool_decide _); [|by apply IH]. cbn. apply NoDup_cons. split; [|by apply IH].
  intros ((j & x) & -> & Hin)%list_elem_of_fmap. apply Hi. apply list_elem_of_fmap. exists (j, x). split; [done|].
  apply list_elem_of_In, filter_In in Hin as [Hin _]. by apply list_elem_of_In.
Qed.

(** What [register_each] leaves under an id: the device as it was where its token is the same, or anew. *)
Definition registers (now : Z) (id : units) (known : option Registered) (push : PushRegistration) : Registered :=
  match known with
  | Some d => if bool_decide (pu_token (rg_push d) = pu_token push) then with_push push d else new_registered o now id push
  | None => new_registered o now id push
  end.

Lemma register_each_get now current registered added id : NoDup current.*1 →
  map_get id (fst (register_each o now current registered added))
  = match map_get id current with
    | Some push => Some (registers now id (map_get id registered) push)
    | None => map_get id registered
    end.
Proof.
  revert registered added. induction current as [|[i push] current IH]; intros registered added; [done|].
  cbn -[decide]. intros [Hi Hc]%NoDup_cons.
  assert (register_each o now ((i, push) :: current) registered added
    = register_each o now current (map_set i (registers now i (map_get i registered) push) registered)
        (match map_get i registered with
         | Some known => if bool_decide (pu_token (rg_push known) = pu_token push) then added else true
         | None => true
         end)) as E.
  { cbn. unfold registers. destruct (map_get i registered); [|done]. by case_bool_decide. }
  cbn -[decide] in E. rewrite E, IH, map_get_set by done.
  destruct (decide (i = id)) as [->|Hne]; [|done].
  destruct (map_get id current) eqn:Eg; [|done]. destruct Hi. apply map_get_elem. by rewrite Eg.
Qed.

Lemma register_each_keys now current registered added : NoDup registered.*1 →
  NoDup (fst (register_each o now current registered added)).*1.
Proof.
  revert registered added. induction current as [|[i push] current IH]; intros registered added Hr; [done|]. cbn.
  destruct (map_get i registered); [case_bool_decide|]; by apply IH, NoDup_map_set.
Qed.

Lemma registrations_keys devices : NoDup (registrations devices).*1.
Proof. apply NoDup_map_of. Qed.

Lemma registers_push now id known push : rg_push (registers now id known push) = push.
Proof. unfold registers. destruct known; [|done]. by case_bool_decide. Qed.

Lemma pushes_keys registered : (map (fun d => (fst d, rg_push (snd d))) registered).*1 = (registered : list (units * Registered)).*1.
Proof. induction registered as [|[i d] l IH]; cbn; [done|]. by rewrite <- IH. Qed.

Lemma pushes_get registered id :
  map_get id (map (fun d => (fst d, rg_push (snd d))) registered) = rg_push <$> map_get id registered.
Proof. induction registered as [|[i d] l IH]; cbn; [done|]. by case_decide. Qed.

(** The devices that are registered, as a look at them leaves them. *)
Definition registered_after (t : Turn) (registered : list (units * Registered)) : list (units * Registered) :=
  fst (register_each o (tn_now t) (registrations (tn_devices t)) (still_there (registrations (tn_devices t)) registered) false).

Lemma registered_get t registered id :
  map_get id (registered_after t registered)
  = registers (tn_now t) id (map_get id registered) <$> map_get id (registrations (tn_devices t)).
Proof.
  unfold registered_after. rewrite register_each_get by apply registrations_keys. rewrite still_there_get.
  destruct (map_get id (registrations (tn_devices t))) as [push|]; [by rewrite decide_True|by rewrite decide_False by (by intros [? ?])].
Qed.

Lemma registered_pushes t registered : NoDup registered.*1 →
  map (fun d => (fst d, rg_push (snd d))) (registered_after t registered) ≡ₚ registrations (tn_devices t).
Proof.
  intros Hr. assert (NoDup (registered_after t registered).*1) as Hk by by apply register_each_keys, still_there_keys.
  apply NoDup_Permutation.
  - eapply NoDup_fmap_1. rewrite pushes_keys. exact Hk.
  - eapply NoDup_fmap_1. apply registrations_keys.
  - intros [id push]. rewrite !map_get_in by (rewrite ?pushes_keys; done || apply registrations_keys).
    rewrite pushes_get, registered_get. destruct (map_get id (registrations (tn_devices t))) as [p|]; cbn; [|done].
    by rewrite registers_push.
Qed.

Lemma refresh_looks t s : pn_closed s = false →
  Looks t Refreshes (set_registered s (registered_after t (pn_registered s))) (refresh o t s).
Proof.
  intros Hc. unfold refresh, registered_after. rewrite Hc. destruct (register_each _ _ _ _ _) as [registered added]. cbn [fst].
  set (s1 := set_registered s registered). set (s2 := if (_ <? _)%nat then _ else _).
  assert (Looks t Refreshes s1 s2) as H2 by (unfold s2; destruct (_ <? _)%nat; [apply watch_looks|apply calm_looks, unwatch_calm]).
  etrans; [exact H2|]. destruct added; [apply looks_once|]; constructor.
Qed.

(** ** A conflict *)

Lemma take_token_push now d : rg_push (fst (take_token o now d)) = rg_push d.
Proof. unfold take_token. by case_match. Qed.

Lemma pushes_set id d d' registered : map_get id registered = Some d → rg_push d' = rg_push d →
  map (fun d => (fst d, rg_push (snd d))) (map_set id d' registered) = map (fun d => (fst d, rg_push (snd d))) registered.
Proof.
  intros Hg Hp. induction registered as [|[i x] l IH]; cbn in *; [done|]. destruct (decide (i = id)) as [->|]; cbn.
  - injection Hg as ->. by rewrite Hp.
  - f_equal. by apply IH.
Qed.

(** A conflict is sent to the device it concerns, if at all. *)
Lemma control_shape t device conflict s :
  let action := Conflicts device conflict in
  calm t action s (control o t device conflict s)
  ∨ ∃ d, map_get device (pn_registered s) = Some d ∧ pn_closed s = false
    ∧ asks (rg_push d) (conflict_notification conflict)
    ∧ quietNow (pu_quietHours (rg_push d)) (tn_now t) = false
    ∧ ∃ log new, let m := snd (message o t d (conflict_notification conflict) log) in
      Forall no_send new
      ∧ let '(d', taken) := if is_passive m then (d, true) else take_token o (tn_now t) d in
        map_get device (pn_registered (control o t device conflict s)) = Some d'
        ∧ pn_registered (control o t device conflict s) = (if is_passive m then pn_registered s else map_set device d' (pn_registered s))
        ∧ ∃ request, rt_trace (pn_runtime (control o t device conflict s))
            = rt_trace (pn_runtime s) ++ new ++ if taken : bool then [PSends request [m]] else [].
Proof.
  intros action. unfold control. destruct (pn_closed s) eqn:Ec; [by left|]. set (n := conflict_notification conflict). set (s1 := record t _ s).
  assert (calm t action s s1) as Hc by apply record_calm. clearbody s1.
  destruct (map_get device (pn_registered s)) as [d|] eqn:Ed; [|by left]. cbn [mbind option_bind].
  destruct (suppression Control [d] (tn_now t)) eqn:Es; [by left|]. right. exists d.
  assert (wants d Control = true ∧ quietNow (pu_quietHours (rg_push d)) (tn_now t) = false) as [Hw Hq].
  { revert Es. unfold suppression. cbn [List.filter]. destruct (wants d Control); cbn; [|done].
    rewrite orb_false_r. by destruct (quietNow _ _). }
  apply bool_decide_eq_true in Hw. split_and!; [done|done|exact Hw|done|].
  exists (pn_log s1). destruct Hc as (Er & _ & new & T & F). exists new.
  destruct (message o t d n (pn_log s1)) as [log m]. cbn [snd]. split; [done|]. destruct (is_passive m).
  - cbn. rewrite Er, T. split_and!; [done|done|]. eexists. by rewrite <- app_assoc.
  - destruct (take_token o (tn_now t) d) as [d' taken]. destruct taken; cbn; rewrite Er, T, map_get_set, decide_True by done.
    + split_and!; [done|done|]. eexists. by rewrite <- app_assoc.
    + split_and!; [done|done|]. exists 0%nat. by rewrite app_nil_r.
Qed.

(** The message is of the conflict that came, to the device that it concerns. *)
Definition from_conflict (t : Turn) (device : units) (conflict : ControlConflict) (s : Notifier) (m : PushMessage) : Prop :=
  ∃ d, map_get device (pn_registered s) = Some d ∧ (device, rg_push d) ∈ pushes s ∧ due t d m
    ∧ tells (rg_push d) (conflict_notification conflict) m.

Lemma control_sends t device conflict s :
  pushes (control o t device conflict s) = pushes s
  ∧ Sends (from_conflict t device conflict s) s (control o t device conflict s).
Proof.
  destruct (control_shape t device conflict s) as [Hc|(d & Hd & _ & Ha & Hq & log & new & F & Hs)].
  - split; [unfold pushes; by destruct Hc as [-> _]|by eapply calm_sends].
  - destruct (message_tells t d _ log Ha Hq) as [Hdue Hm]. set (m := snd (message o t d _ log)) in *.
    assert ((device, rg_push d) ∈ pushes s) as Hin.
    { apply list_elem_of_fmap. exists (device, d). split; [done|]. revert Hd. generalize (pn_registered s). intros l.
      induction l as [|[i x] l IH]; cbn; [done|]. destruct (decide (i = device)) as [->|]; intros Hd; [injection Hd as ->; left|right; auto]. }
    assert (pushes (control o t device conflict s) = pushes s ∧ ∃ k request, rt_trace (pn_runtime (control o t device conflict s))
      = rt_trace (pn_runtime s) ++ new ++ k ∧ (k = [] ∨ k = [PSends request [m]])) as (Hp & k & request & T & Hk).
    { unfold pushes. destruct (is_passive m); [destruct Hs as (_ & -> & request & T); split; [done|]; exists [PSends request [m]], request; auto|].
      pose proof (take_token_push (tn_now t) d) as Hpush. destruct (take_token o (tn_now t) d) as [d' taken]. cbn in Hpush.
      destruct Hs as (_ & -> & request & T). split; [by eapply pushes_set|].
      exists (if taken : bool then [PSends request [m]] else []), request. split; [done|]. destruct taken; auto. }
    split; [done|]. exists (new ++ k). split; [done|]. intros r ms x [Hx|Hx]%elem_of_app Hin'.
    + rewrite Forall_forall in F. by apply F in Hx.
    + destruct Hk as [->| ->]; [by apply elem_of_nil in Hx|]. apply list_elem_of_singleton in Hx as [= -> ->].
      apply list_elem_of_singleton in Hin' as ->. by exists d.
Qed.

(** ** The theorem *)

(** The registrations that the last look at them found, while the notifier was open. *)
Definition asked_after (t : Turn) (action : PushAction) (s : Notifier) (ps : list (units * PushRegistration)) :
    list (units * PushRegistration) :=
  match action with Refreshes => if pn_closed s then ps else registrations (tn_devices t) | _ => ps end.

Fixpoint asked (events : list (Turn * PushAction)) (s : Notifier) (ps : list (units * PushRegistration)) :
    list (units * PushRegistration) :=
  match events with
  | [] => ps
  | (t, action) :: events => asked events (push_step o t action s) (asked_after t action s ps)
  end.

(** The state in which the looks of a turn start: after a look at the registrations. *)
Definition look_start (t : Turn) (action : PushAction) (s : Notifier) : Notifier :=
  match action with Refreshes => set_registered s (registered_after t (pn_registered s)) | _ => s end.

(** What a message that a turn sends to a device is about: the conflict that came over this device, or what the rules
    find for it at a moment of the turn. *)
Definition told (t : Turn) (action : PushAction) (s : Notifier) (id : units) (d : Registered) (m : PushMessage) : Prop :=
  match action with
  | Conflicts device conflict =>
      id = device ∧ map_get id (pn_registered s) = Some d ∧ tells (rg_push d) (conflict_notification conflict) m
  | _ => looked_at t action (look_start t action s) id d m
  end.

Lemma step_sends t action s : NoDup (pn_registered s).*1 →
  Sends (fun m => ∃ id d, (id, rg_push d) ∈ pushes (push_step o t action s) ∧ due t d m ∧ told t action s id d m)
    s (push_step o t action s)
  ∧ (match action with
     | Refreshes => if pn_closed s then pushes (push_step o t action s) = pushes s
                    else pushes (push_step o t action s) ≡ₚ registrations (tn_devices t)
     | _ => pushes (push_step o t action s) = pushes s
     end).
Proof.
  intros Hn. destruct action as [|device conflict| | | | | | | |] eqn:Ea; try (
    match goal with |- context [told _ ?a _ _ _ _] =>
      assert (Looks t a s (push_step o t a s)) as Hl by (by apply step_looks) end;
    rewrite (looks_pushes _ _ _ _ Hl); split; [|done];
    eapply sends_weaken; [|apply looks_sends; [constructor|exact Hl]]; done).
  - cbn [push_step]. destruct (pn_closed s) eqn:Ec; [unfold refresh; rewrite Ec; split; [by apply (calm_sends t Refreshes)|done]|].
    apply (refresh_looks t) in Ec as Hl. pose proof (looks_pushes _ _ _ _ Hl) as Hp. rewrite Hp.
    split; [|by apply registered_pushes].
    pose proof (looks_sends t Refreshes _ _ _ (looks_none _ _ _) Hl) as Hs. by eapply (sends_weaken _ _ s); [|exact Hs].
  - cbn [push_step]. destruct (control_sends t device conflict s) as [-> Hs]. split; [|done].
    eapply sends_weaken; [|exact Hs]. intros m (d & Hd & Hin & Hdue & Hm). by exists device, d.
Qed.

Lemma keys_of s ps : pushes s ≡ₚ ps → NoDup ps.*1 → NoDup (pn_registered s).*1.
Proof. intros Hp Hn. rewrite <- pushes_keys. change (NoDup (pushes s).*1). by rewrite Hp. Qed.

Lemma asked_ok t action s ps : pushes s ≡ₚ ps → NoDup ps.*1 →
  pushes (push_step o t action s) ≡ₚ asked_after t action s ps ∧ NoDup (asked_after t action s ps).*1.
Proof.
  intros Hp Hn. destruct (step_sends t action s (keys_of s ps Hp Hn)) as [_ Hs].
  destruct action; cbn in *; try (by rewrite Hs). destruct (pn_closed s); [by rewrite Hs|]. split; [done|apply registrations_keys].
Qed.

Lemma run_asked events s ps : pushes s ≡ₚ ps → NoDup ps.*1 →
  pushes (push_run o events s) ≡ₚ asked events s ps ∧ NoDup (asked events s ps).*1.
Proof.
  revert s ps. induction events as [|[t action] events IH]; intros s ps Hp Hn; [done|]. cbn.
  destruct (asked_ok t action s ps Hp Hn). by apply IH.
Qed.

End Sends.

Module SampleSends.
Import SamplePush.

Abbreviation watching_phone := (push_run (options 20) watched start).
Abbreviation new_effects :=
  (news watching_phone (push_step (options 20) (turn 2) (Conflicts (js "phone") conflict) watching_phone)).

Definition sent_in (trace : list PushEffect) : list (nat * list PushMessage) :=
  omap (fun e => match e with PSends request messages => Some (request, messages) | _ => None end) trace.

Lemma sent_in_elem request messages trace : (request, messages) ∈ sent_in trace → PSends request messages ∈ trace.
Proof. intros (e & He & Hs)%list_elem_of_omap. destruct e; try done. by injection Hs as <- <-. Qed.

Definition the_send : option (nat * PushMessage) := Eval vm_compute in
  match sent_in new_effects with [(request, [m])] => Some (request, m) | _ => None end.

End SampleSends.
