(* ===== verification/PushAlerts.v ===== *)
(** * How often [PushNotifier] alerts a device

    Each alert takes a token from the bucket of its device, which fills with time: what is sent in a stretch of time is
    paid for by what the bucket held and gained. *)

From Stdlib Require Import ZArith Lia.
From S2P Require Import Prelude.
From S2P Require Import Bytes.
From S2P Require Import Json.
From S2P Require Import Policy.
From S2P Require Import Oversight.
From S2P Require Import Oversee.
From S2P Require Import KeyedDelta.
From S2P Require Import KeyedDeltaFacts.
From S2P Require Import Registry.
From S2P Require Import NotificationLog.
From S2P Require Import Push.
From S2P Require Import PushFacts.
From S2P Require Import PushRuns.
From S2P Require Import PushSends.
Open Scope Z_scope.

(** The messages of a trace that alert a token. *)
Definition is_alert (token : units) (m : PushMessage) : bool := negb (is_passive m) && bool_decide (pm_to m = token).

Definition alerts_of (token : units) (messages : list PushMessage) : nat := length (List.filter (is_alert token) messages).

Fixpoint alerts (token : units) (trace : list PushEffect) : nat :=
  match trace with
  | [] => 0
  | PSends _ messages :: trace => alerts_of token messages + alerts token trace
  | _ :: trace => alerts token trace
  end.

Lemma alerts_app token a b : alerts token (a ++ b) = (alerts token a + alerts token b)%nat.
Proof. induction a as [|e a IH]; [done|]. cbn. rewrite IH. destruct e; lia. Qed.

Lemma alerts_none token l : Forall no_send l → alerts token l = 0%nat.
Proof. induction 1 as [|e l He _ IH]; [done|]. cbn. by destruct e. Qed.

Lemma alerts_of_app token a b : alerts_of token (a ++ b) = (alerts_of token a + alerts_of token b)%nat.
Proof. unfold alerts_of. by rewrite List.filter_app, length_app. Qed.

Lemma alerts_of_other token l : Forall (fun m => pm_to m ≠ token) l → alerts_of token l = 0%nat.
Proof.
  unfold alerts_of. induction 1 as [|m l Hm _ IH]; [done|]. cbn. unfold is_alert at 1.
  rewrite bool_decide_eq_false_2 by done. by rewrite andb_false_r.
Qed.

Section Alerts.
Context `{!NodeDate, !PushRuntime} (o : PushNotifierOptions).
Context (Hrate : 0 <= pl_perHour (po_limits o)).

(** ** The bucket *)

(** What is left in the bucket of a device at a time. *)
Definition fill (now : Z) (d : Registered) : Z :=
  Z.min (pl_perHour (po_limits o) * HOUR_MS)
    (bk_tokens (rg_bucket d) + (now - bk_at (rg_bucket d)) * pl_perHour (po_limits o)).

Definition bucket_ok (now : Z) (d : Registered) : Prop := 0 <= bk_tokens (rg_bucket d) ∧ bk_at (rg_bucket d) <= now.

Lemma fill_range now d : bucket_ok now d → 0 <= fill now d <= pl_perHour (po_limits o) * HOUR_MS.
Proof. intros [H1 H2]. unfold fill, HOUR_MS. nia. Qed.

Lemma fill_later now now' d : now <= now' → fill now' d <= fill now d + (now' - now) * pl_perHour (po_limits o).
Proof. intros Hle. unfold fill. nia. Qed.

Lemma bucket_later now now' d : now <= now' → bucket_ok now d → bucket_ok now' d.
Proof. unfold bucket_ok. lia. Qed.

Lemma fill_set now n d : fill now (set_bucket {| bk_tokens := n; bk_at := now |} d) = Z.min (pl_perHour (po_limits o) * HOUR_MS) n.
Proof. unfold fill. cbn. f_equal. lia. Qed.

Lemma take_token_spends now d : bucket_ok now d →
  let '(d', taken) := take_token o now d in
  bucket_ok now d' ∧ fill now d' + (if taken : bool then HOUR_MS else 0) = fill now d.
Proof.
  intros Hb. pose proof (fill_range now d Hb) as Hr. unfold take_token. fold (fill now d).
  destruct (Z.ltb_spec (fill now d) HOUR_MS) as [Hl|Hl]; rewrite fill_set; unfold bucket_ok;
    cbn [rg_bucket set_bucket bk_tokens bk_at]; unfold HOUR_MS in *; lia.
Qed.

Lemma take_each_spends now token due : Forall (fun m => pm_to m = token) due → ∀ d, bucket_ok now d →
  let '(d', sent) := take_each o now due d in
  bucket_ok now d' ∧ Z.of_nat (alerts_of token sent) * HOUR_MS + fill now d' = fill now d.
Proof.
  induction 1 as [|m due Hm _ IH]; intros d Hb; cbn [take_each]; [split; [done|cbn; lia]|].
  destruct (is_passive m) eqn:Ep.
  - specialize (IH d Hb). destruct (take_each o now due d) as [d' sent]. unfold alerts_of in *. cbn.
    unfold is_alert at 1. rewrite Ep. exact IH.
  - pose proof (take_token_spends now d Hb) as Ht. destruct (take_token o now d) as [d1 taken]. destruct Ht as [Hb1 Hf].
    specialize (IH d1 Hb1). destruct (take_each o now due d1) as [d' sent]. destruct IH as [Hb2 Hs]. split; [done|].
    destruct taken; [|lia]. unfold alerts_of in *. cbn. unfold is_alert at 1. rewrite Ep, bool_decide_eq_true_2 by done.
    cbn [negb andb length]. lia.
Qed.

Lemma look_for_spends t input d log : bucket_ok (tn_now t) d →
  let '(d', _, messages, _) := look_for o t input d log in
  bucket_ok (tn_now t) d' ∧ Forall (fun m => pm_to m = pu_token (rg_push d)) messages
  ∧ Z.of_nat (alerts_of (pu_token (rg_push d)) messages) * HOUR_MS + fill (tn_now t) d' = fill (tn_now t) d.
Proof.
  intros Hb. unfold look_for. set (result := oversee _ _ _ _ _ _). set (d0 := set_state _ d).
  assert (Forall (fun m => pm_to m = pu_token (rg_push d)) (snd (if (pl_summarizeAbove (po_limits o) <? length (or_notifications result))%nat
            then (log, [summary o d0 (or_notifications result)]) else messages_of o t d0 (or_notifications result) log))) as Hms.
  { destruct (_ <? _)%nat; [by repeat constructor|]. generalize (or_notifications result). intros ns. revert log. induction ns as [|n ns IH]; intros log; [constructor|]. cbn.
    unfold message at 1. destruct (latest _ _ _ _) as [log1 seq]. specialize (IH log1).
    destruct (messages_of o t d0 ns log1). by constructor. }
  destruct (if (_ <? _)%nat then _ else _) as [log' ms]. cbn in Hms.
  pose proof (take_each_spends (tn_now t) _ ms Hms d0 Hb) as Hs. pose proof (take_each_sub o (tn_now t) ms d0) as Hsub.
  destruct (take_each o (tn_now t) ms d0) as [d' sent]. cbn in Hsub. destruct Hs as [Hb' Hs]. split_and!; [done| |exact Hs].
  rewrite Forall_forall in Hms |- *. auto.
Qed.

Definition all_ok (now : Z) (registered : list (units * Registered)) : Prop := Forall (fun p => bucket_ok now (snd p)) registered.

Definition tokens (registered : list (units * Registered)) : list units := map (fun p => pu_token (rg_push (snd p))) registered.

Lemma look_for_each_spends t input : ∀ registered log wakeAt, all_ok (tn_now t) registered →
  let '(registered', _, messages, _) := look_for_each o t input registered log wakeAt in
  all_ok (tn_now t) registered' ∧ Forall (fun m => pm_to m ∈ tokens registered) messages
  ∧ ∀ id d, NoDup (tokens registered) → map_get id registered = Some d →
      ∃ d', map_get id registered' = Some d'
        ∧ Z.of_nat (alerts_of (pu_token (rg_push d)) messages) * HOUR_MS + fill (tn_now t) d' = fill (tn_now t) d.
Proof.
  induction registered as [|[i d0] registered IH]; intros log wakeAt Hok; [split_and!; [done|constructor|done]|].
  apply Forall_cons in Hok as [Hb Hok]. cbn [look_for_each]. pose proof (look_for_spends t input d0 log Hb) as Hl.
  destruct (look_for o t input d0 log) as [[[d0' log'] messages] at_]. destruct Hl as (Hb' & Hto & Hf).
  set (w := match at_ with Some _ => _ | None => _ end). specialize (IH log' w Hok).
  destruct (look_for_each o t input registered log' w) as [[[r l] more] w']. destruct IH as (Hr & Hm & Hs). split_and!.
  - by constructor.
  - apply Forall_app. split; (eapply Forall_impl; [eassumption|]); cbn; intros m; [intros ->; left|by right].
  - intros id d. cbn [tokens map snd]. intros [Hn0 Hn]%NoDup_cons Hg. cbn [map_get] in Hg |- *. rewrite alerts_of_app.
    destruct (decide (i = id)) as [->|Hne].
    + injection Hg as <-. exists d0'. split; [done|]. rewrite (alerts_of_other _ more); [lia|].
      eapply Forall_impl; [exact Hm|]. cbn. intros m Hin Heq. apply Hn0. by rewrite <- Heq.
    + destruct (Hs id d Hn Hg) as (d' & Hg' & Hf'). exists d'. split; [done|].
      rewrite (alerts_of_other _ messages); [lia|]. eapply Forall_impl; [exact Hto|]. cbn. intros m -> Heq. apply Hn0. rewrite Heq.
      apply list_elem_of_fmap. exists (id, d). split; [done|]. clear -Hg. induction registered as [|[j x] l IH]; cbn in *; [done|].
      destruct (decide (j = id)) as [->|]; [injection Hg as ->; left|right; auto].
Qed.

(** ** A turn *)

(** On the way the alerts to the token of [id] were taken from its bucket. *)
Definition Spends (now : Z) (id token : units) (s s' : Notifier) : Prop :=
  ∃ new, rt_trace (pn_runtime s') = rt_trace (pn_runtime s) ++ new
    ∧ ∀ d, map_get id (pn_registered s) = Some d → pu_token (rg_push d) = token →
        ∃ d', map_get id (pn_registered s') = Some d' ∧ pu_token (rg_push d') = token
          ∧ Z.of_nat (alerts token new) * HOUR_MS + fill now d' = fill now d.

Lemma spends_trans now id token s1 s2 s3 : Spends now id token s1 s2 → Spends now id token s2 s3 → Spends now id token s1 s3.
Proof.
  intros (n1 & T1 & H1) (n2 & T2 & H2). exists (n1 ++ n2). rewrite T2, T1, app_assoc. split; [done|].
  intros d Hd Ht. destruct (H1 d Hd Ht) as (d1 & Hd1 & Ht1 & E1). destruct (H2 d1 Hd1 Ht1) as (d2 & Hd2 & Ht2 & E2).
  exists d2. split_and!; [done|done|]. rewrite alerts_app. lia.
Qed.

Lemma calm_spends t action now id token s s' : calm t action s s' → Spends now id token s s'.
Proof.
  intros (Er & _ & new & T & F). exists new. split; [done|]. intros d Hd Ht. exists d. rewrite Er, alerts_none by done.
  split_and!; [done|done|lia].
Qed.

Definition Inv (now : Z) (s : Notifier) : Prop :=
  all_ok now (pn_registered s) ∧ NoDup (pn_registered s).*1 ∧ NoDup (tokens (pn_registered s)).

Lemma tokens_pushes s : tokens (pn_registered s) = map (fun p => pu_token (snd p)) (pushes s).
Proof. unfold tokens, pushes. by rewrite map_map. Qed.

Lemma inv_pushes now s s' : Inv now s → pushes s' = pushes s → all_ok now (pn_registered s') → Inv now s'.
Proof.
  intros (_ & Hk & Ht) Hp Hok. split_and!; [done| |by rewrite tokens_pushes, Hp, <- tokens_pushes].
  rewrite <- pushes_keys. change (NoDup (pushes s').*1). rewrite Hp. unfold pushes. by rewrite pushes_keys.
Qed.

Lemma evaluate_spends t s id token : Inv (tn_now t) s →
  all_ok (tn_now t) (pn_registered (evaluate o t s)) ∧ Spends (tn_now t) id token s (evaluate o t s).
Proof.
  intros (Hok & _ & Hn). destruct (evaluate_shape o t Closes s) as [Hc|(status & log & log' & w & w' & messages & new & _ & E & F & T)].
  - split; [by destruct Hc as [-> _]|by eapply calm_spends].
  - set (input := input_of o t status s) in *. pose proof (look_for_each_spends t input (pn_registered s) log w Hok) as Hl.
    pose proof (look_for_each_push o t input (pn_registered s) log w) as Hp. rewrite E in Hl, Hp. cbn in Hp.
    destruct Hl as (Hok' & _ & Hs). split; [done|]. eexists. split; [exact T|]. intros d Hd Ht.
    destruct (Hs id d Hn Hd) as (d' & Hd' & Hf). exists d'. split_and!; [done| |].
    + pose proof (f_equal (map_get id) Hp) as Hg. rewrite !pushes_get, Hd, Hd' in Hg. by injection Hg as ->.
    + rewrite alerts_app, alerts_none by done. rewrite <- Hf, Ht. destruct messages; [done|]. cbn [alerts]. lia.
Qed.

Lemma looks_spends t action s s' id token : Looks o t action s s' → Inv (tn_now t) s → Inv (tn_now t) s' ∧ Spends (tn_now t) id token s s'.
Proof.
  induction 1 as [s|s s1 s2 Hc Hl IH|s s2 Hl IH]; intros Hi.
  - split; [done|]. by apply (calm_spends t action), calm_same.
  - assert (Inv (tn_now t) s1) as Hi1 by (unfold Inv; by destruct Hc as [-> _]). destruct (IH Hi1) as [Hi2 Hs2].
    split; [done|]. eapply spends_trans; [by eapply calm_spends|done].
  - destruct (evaluate_spends t s id token Hi) as [Hok Hs].
    assert (pushes (evaluate o t s) = pushes s) as Hp.
    { pose proof (evaluate_core o t s) as Hc. unfold core in Hc. by injection Hc as _ _ _ _ _ _ _ ?. }
    destruct IH as [Hi2 Hs2]; [by eapply inv_pushes|]. split; [done|]. by eapply spends_trans.
Qed.

Lemma get_elem id (registered : list (units * Registered)) d : map_get id registered = Some d → (id, d) ∈ registered.
Proof.
  induction registered as [|[j x] l IH]; cbn; [done|]. destruct (decide (j = id)) as [->|]; intros Hg; [injection Hg as ->; left|right; auto].
Qed.

Lemma all_ok_get now registered id d : all_ok now registered → map_get id registered = Some d → bucket_ok now d.
Proof. intros Hok Hg%get_elem. unfold all_ok in Hok. rewrite Forall_forall in Hok. by apply (Hok (id, d)). Qed.

Lemma apart_tokens registered id i d x : NoDup (tokens registered) → map_get id registered = Some d → map_get i registered = Some x →
  i ≠ id → pu_token (rg_push x) ≠ pu_token (rg_push d).
Proof.
  intros Hn Hd Hx Hne Heq. induction registered as [|[j y] l IH]; cbn in *; [done|]. apply NoDup_cons in Hn as [Hy Hn].
  destruct (decide (j = id)) as [E1|], (decide (j = i)) as [E2|]; [congruence|..]; simplify_eq; [| |by apply IH].
  - apply Hy. rewrite <- Heq. apply get_elem in Hx. apply list_elem_of_fmap. by exists (i, x).
  - apply Hy. rewrite Heq. apply get_elem in Hd. apply list_elem_of_fmap. by exists (id, d).
Qed.

Lemma all_ok_set now id d registered : all_ok now registered → bucket_ok now d → all_ok now (map_set id d registered).
Proof.
  intros Hok Hb. induction Hok as [|[j x] l Hx Hl IH]; cbn; [constructor; [done|constructor]|].
  destruct (decide (j = id)); by constructor.
Qed.

Lemma control_spends t device conflict s id token : Inv (tn_now t) s →
  Inv (tn_now t) (control o t device conflict s) ∧ Spends (tn_now t) id token s (control o t device conflict s).
Proof.
  intros Hi. pose proof Hi as (Hok & _ & Hn). destruct (control_sends o t device conflict s) as [Hp _].
  destruct (control_shape o t device conflict s) as [Hc|(x & Hx & _ & Ha & Hq & log & new & F & Hs)].
  - split; [unfold Inv; by destruct Hc as [-> _]|by eapply calm_spends].
  - destruct (message_tells o t x _ log Ha Hq) as [[Hto _] _]. set (m := snd (message o t x _ log)) in *.
    assert (bucket_ok (tn_now t) x) as Hb by exact (all_ok_get _ _ _ _ Hok Hx).
    assert (Forall (fun m => pm_to m = pu_token (rg_push x)) [m]) as Hms by by repeat constructor.
    pose proof (take_each_spends (tn_now t) _ [m] Hms x Hb) as Ht. cbn [take_each] in Ht.
    destruct (is_passive m) eqn:Ep.
    + destruct Hs as (_ & Er & request & T). split; [eapply inv_pushes; [exact Hi|done|by rewrite Er]|].
      eexists. split; [exact T|]. intros d Hd Htok. exists d. rewrite Er, alerts_app, alerts_none by done. split_and!; [done|done|].
      cbn. unfold alerts_of, is_alert. cbn. rewrite Ep. cbn. lia.
    + destruct (take_token o (tn_now t) x) as [x' taken] eqn:Ex. destruct Hs as (Hx' & Er & request & T). destruct Ht as [Hb' Hf].
      split; [eapply inv_pushes; [exact Hi|done|rewrite Er; by apply all_ok_set]|].
      eexists. split; [exact T|]. intros d Hd Htok. rewrite alerts_app, alerts_none by done. destruct (decide (id = device)) as [->|Hne].
      * rewrite Hx in Hd. injection Hd as <-. exists x'. split_and!; [done| |].
        { pose proof (take_token_push o (tn_now t) x) as Hpush. rewrite Ex in Hpush. cbn in Hpush. by rewrite Hpush. }
        rewrite <- Hf, <- Htok. destruct taken; cbn [alerts Nat.add]; [by rewrite Nat.add_0_r|done].
      * exists d. rewrite Er, map_get_set, decide_False by done. split_and!; [done|done|].
        assert (alerts token (if taken then [PSends request [m]] else []) = 0%nat) as ->; [|lia].
        destruct taken; [|done]. cbn [alerts]. rewrite alerts_of_other; [done|]. constructor; [|done]. rewrite Hto, <- Htok.
        by eapply apart_tokens.
Qed.

Lemma registered_ok t registered : all_ok (tn_now t) registered → NoDup registered.*1 →
  all_ok (tn_now t) (registered_after o t registered).
Proof.
  intros Hok Hk. apply Forall_forall. intros [id d] Hin. cbn.
  apply map_get_in in Hin; [|by apply register_each_keys, still_there_keys]. rewrite registered_get in Hin.
  destruct (map_get id (registrations (tn_devices t))) as [push|]; [|done]. injection Hin as <-.
  unfold registers. assert (bucket_ok (tn_now t) (new_registered o (tn_now t) id push)) as Hnew.
  { unfold bucket_ok, HOUR_MS. cbn. unfold HOUR_MS. lia. }
  destruct (map_get id registered) as [d|] eqn:Ed; [|done]. case_bool_decide; [|done].
  exact (all_ok_get _ _ _ _ Hok Ed).
Qed.

(** The devices have distinct tokens, and that of [id] stays. *)
Definition distinct (t : Turn) : Prop := NoDup (map (fun p => pu_token (snd p)) (registrations (tn_devices t))).
Definition has_token (id token : units) (t : Turn) : Prop :=
  pu_token <$> map_get id (registrations (tn_devices t)) = Some token.

Lemma refresh_inv t s : Inv (tn_now t) s → distinct t → pn_closed s = false →
  Inv (tn_now t) (set_registered s (registered_after o t (pn_registered s))).
Proof.
  intros (Hok & Hk & Hn) Hd Hc. split_and!; cbn.
  - by apply registered_ok.
  - by apply register_each_keys, still_there_keys.
  - unfold tokens. pose proof (registered_pushes o t (pn_registered s) Hk) as Hp. unfold distinct in Hd. rewrite <- Hp in Hd.
    by rewrite map_map in Hd.
Qed.

Lemma inv_later now now' s : now <= now' → Inv now s → Inv now' s.
Proof.
  intros Hle (Hok & Hk & Hn). split_and!; [|done..]. eapply Forall_impl; [exact Hok|]. intros p. by apply bucket_later.
Qed.

Lemma step_inv t action s : Inv (tn_now t) s → (action = Refreshes → distinct t) → Inv (tn_now t) (push_step o t action s).
Proof.
  intros Hi Hd. destruct action; try (by eapply (looks_spends t _ s _ [] []); [apply step_looks|]).
  - cbn. destruct (pn_closed s) eqn:Ec; [unfold refresh; by rewrite Ec|].
    eapply (looks_spends t _ _ _ [] []); [by apply refresh_looks|]. apply refresh_inv; auto.
  - by apply (control_spends t device conflict s [] []).
Qed.

Lemma step_spends t action s id token : Inv (tn_now t) s → (action = Refreshes → distinct t ∧ has_token id token t) →
  Spends (tn_now t) id token s (push_step o t action s).
Proof.
  intros Hi Hd. destruct action; try (by eapply (looks_spends t _ s); [apply step_looks|]); [|by apply control_spends].
  cbn. destruct (pn_closed s) eqn:Ec; [unfold refresh; rewrite Ec; by apply (calm_spends t Refreshes), calm_same|].
  destruct (Hd eq_refl) as [Hdis Htok]. set (s1 := set_registered s (registered_after o t (pn_registered s))).
  assert (Looks o t Refreshes s1 (refresh o t s)) as Hl by by apply refresh_looks.
  apply (looks_spends t _ _ _ id token) in Hl as [_ (new & T & Hs)]; [|by apply refresh_inv].
  exists new. split; [exact T|]. intros d Hdg Ht. unfold has_token in Htok.
  destruct (map_get id (registrations (tn_devices t))) as [push|] eqn:Ep; [|done]. injection Htok as Htok.
  destruct (Hs (with_push push d)) as (d' & Hd' & Ht' & Hf); [|done|exists d'; split_and!; [done|done|exact Hf]].
  unfold s1. cbn. rewrite registered_get, Ep, Hdg. cbn. by rewrite bool_decide_eq_true_2 by congruence.
Qed.

(** ** Runs *)

Fixpoint forward (t0 : Z) (events : list (Turn * PushAction)) : Prop :=
  match events with [] => True | (t, _) :: events => t0 <= tn_now t ∧ forward (tn_now t) events end.

Definition last_now (t0 : Z) (events : list (Turn * PushAction)) : Z :=
  fold_left (fun _ event => tn_now (fst event)) events t0.

Lemma run_inv events : ∀ t0 s, Inv t0 s → forward t0 events → (∀ t, (t, Refreshes) ∈ events → distinct t) →
  Inv (last_now t0 events) (push_run o events s).
Proof.
  induction events as [|[t action] events IH]; intros t0 s Hi Hf Hd; [done|]. destruct Hf as [Hle Hf].
  apply (IH (tn_now t)); [|done|intros t' Ht'; apply Hd; by right].
  apply step_inv; [by eapply inv_later|]. intros ->. apply Hd. left.
Qed.

Lemma run_spends events id token : ∀ t0 s, Inv t0 s → forward t0 events →
  (∀ t, (t, Refreshes) ∈ events → distinct t ∧ has_token id token t) →
  ∃ new, rt_trace (pn_runtime (push_run o events s)) = rt_trace (pn_runtime s) ++ new
    ∧ ∀ d, map_get id (pn_registered s) = Some d → pu_token (rg_push d) = token →
        Z.of_nat (alerts token new) * HOUR_MS <= fill t0 d + (last_now t0 events - t0) * pl_perHour (po_limits o).
Proof.
  induction events as [|[t action] events IH]; intros t0 s Hi Hf Hd.
  - exists []. split; [by rewrite app_nil_r|]. intros d Hg _. cbn.
    pose proof (fill_range t0 d (all_ok_get _ _ _ _ (proj1 Hi) Hg)). lia.
  - destruct Hf as [Hle Hf]. assert (Inv (tn_now t) s) as Hi0 by by eapply inv_later.
    assert (action = Refreshes → distinct t ∧ has_token id token t) as Hda by (intros ->; apply Hd; left).
    destruct (step_spends t action s id token Hi0 Hda) as (n1 & T1 & Hs).
    destruct (IH (tn_now t) (push_step o t action s)) as (n2 & T2 & H2);
      [apply step_inv; [done|naive_solver]|done|intros t' Ht'; apply Hd; by right|].
    exists (n1 ++ n2). change (push_run o ((t, action) :: events) s) with (push_run o events (push_step o t action s)).
    split; [by rewrite T2, T1, app_assoc|]. intros d Hg Ht.
    destruct (Hs d Hg Ht) as (d' & Hg' & Ht' & Hfill). specialize (H2 d' Hg' Ht'). rewrite alerts_app.
    pose proof (fill_later t0 (tn_now t) d Hle). 
    change (last_now t0 ((t, action) :: events)) with (last_now (tn_now t) events). unfold HOUR_MS in *. lia.
Qed.

(** C31: a device is alerted at most so often: while it stays registered with its token, which no other device has, the
    pushes that alert it in any stretch of time are no more than its limit per hour allows at once and for that time;
    silent ones are not counted. The clock does not go back. *)
Theorem alerts_bounded log before events start t0 id token :
  (∀ t, (t, Refreshes) ∈ before ++ events → distinct t) →
  forward start before → last_now start before <= t0 → forward t0 events →
  let s := push_run o before (new_PushNotifier log) in
  (fun d => pu_token (rg_push d)) <$> map_get id (pn_registered s) = Some token →
  (∀ t, (t, Refreshes) ∈ events → has_token id token t) →
  let s' := push_run o events s in
  Z.of_nat (alerts token (news s s')) * HOUR_MS
  <= pl_perHour (po_limits o) * (HOUR_MS + (last_now t0 events - t0)).
Proof.
  intros Hd Hf Hle Hf' s Hg Ht s'. apply fmap_Some in Hg as (d & Hg & ->).
  assert (Inv t0 s) as Hi.
  { eapply inv_later; [exact Hle|]. apply run_inv; [|done|intros t Hin; apply Hd, elem_of_app; by left].
    split_and!; [constructor|constructor|constructor]. }
  destruct (run_spends events id (pu_token (rg_push d)) t0 s Hi Hf') as (new & T & Hs).
  { intros t Hin. split; [apply Hd, elem_of_app; by right|by apply Ht]. }
  fold s' in T. unfold news. rewrite T, drop_app_length. specialize (Hs d Hg eq_refl).
  pose proof (fill_range t0 d (all_ok_get _ _ _ _ (proj1 Hi) Hg)). lia.
Qed.
End Alerts.

Module SampleAlerts.
Import SamplePush.

Definition before : list (Turn * PushAction) := [(turn 0, Refreshes)].
Definition events : list (Turn * PushAction) :=
  [(turn 5, Conflicts (js "phone") conflict); (turn 6, Conflicts (js "phone") conflict); (turn 6, Refreshes);
   (turn 7, Conflicts (js "phone") conflict)].

(** C31 for a limit of two alerts per hour: of three conflicts within some milliseconds two are pushed. *)
Lemma alerts_bounded_witness :
  let s := push_run (options 2) before start in
  let s' := push_run (options 2) events s in
  let sent := alerts (js "ExpoPushToken[a]") (news s s') in
  sent = 2%nat ∧ Z.of_nat sent * HOUR_MS <= 2 * (HOUR_MS + (7 - 3)).
Proof.
  intros s s' sent. split; [by vm_compute|].
  assert (∀ now, distinct (turn now)) as Hd by (intros now; apply NoDup_singleton).
  refine (alerts_bounded (options 2) _ (new_NotificationLog None) before events 0 3 (js "phone") (js "ExpoPushToken[a]")
            _ _ _ _ _ _).
  - by vm_compute.
  - intros t Hin%list_elem_of_In. cbn in Hin. destruct_or! Hin; simplify_eq; first [apply Hd|done].
  - by cbn.
  - by vm_compute.
  - by cbn.
  - by vm_compute.
  - intros t Hin%list_elem_of_In. cbn in Hin. destruct_or! Hin; simplify_eq; by vm_compute.
Defined.
End SampleAlerts.
