(* ===== verification/ControlInput.v ===== *)
(** * Input requests of a control session: [packages/server/src/control.ts]

    What a client may ask of a device it controls: [parseControlBegin] and [parseInput], the
    [adb shell] calls that type a text or press a key on an emulator without a hardware keyboard, and
    the pieces a paste is typed in. The parameters of a request are JSON; a coordinate stays the JSON
    number it is. *)

From Stdlib Require Import ZArith Lia.
From S2P Require Import Prelude.
From S2P Require Import Bytes.
From S2P Require Import Json.
From S2P Require Import Oversight.
Open Scope Z_scope.

(** ** The protocol's values: [packages/core/protocol.ts] *)

Inductive ControlPlatform := PIos | PAndroid | PWeb | PMacos.
#[export] Instance ControlPlatform_eq_dec : EqDecision ControlPlatform.
Proof. solve_decision. Defined.

Definition platform_text (p : ControlPlatform) : units :=
  match p with PIos => js "ios" | PAndroid => js "android" | PWeb => js "web" | PMacos => js "macos" end.
Definition PLATFORMS : list ControlPlatform := [PIos; PAndroid; PWeb; PMacos].

Inductive TouchPhase := Down | Move | Up.
#[export] Instance TouchPhase_eq_dec : EqDecision TouchPhase.
Proof. solve_decision. Defined.

Definition phase_text (p : TouchPhase) : units :=
  match p with Down => js "down" | Move => js "move" | Up => js "up" end.
Definition TOUCH_PHASES : list TouchPhase := [Down; Move; Up].

Inductive RotateDirection := RotateLeft | RotateRight.
#[export] Instance RotateDirection_eq_dec : EqDecision RotateDirection.
Proof. solve_decision. Defined.

Definition direction_text (d : RotateDirection) : units :=
  match d with RotateLeft => js "left" | RotateRight => js "right" end.
Definition ROTATE_DIRECTIONS : list RotateDirection := [RotateLeft; RotateRight].

Inductive DevicePosture := Folded | HalfOpen | Unfolded.
#[export] Instance DevicePosture_eq_dec : EqDecision DevicePosture.
Proof. solve_decision. Defined.

Definition posture_text (p : DevicePosture) : units :=
  match p with Folded => js "folded" | HalfOpen => js "half-open" | Unfolded => js "unfolded" end.

Inductive InputButton := BHome | BLock | BBack | BAppSwitch.
#[export] Instance InputButton_eq_dec : EqDecision InputButton.
Proof. solve_decision. Defined.

Definition button_text (b : InputButton) : units :=
  match b with BHome => js "home" | BLock => js "lock" | BBack => js "back" | BAppSwitch => js "app-switch" end.
Definition INPUT_BUTTONS : list InputButton := [BHome; BLock; BBack; BAppSwitch].

Inductive KeyModifier := MCommand | MShift | MOption | MControl.
#[export] Instance KeyModifier_eq_dec : EqDecision KeyModifier.
Proof. solve_decision. Defined.

Definition modifier_text (k : KeyModifier) : units :=
  match k with MCommand => js "command" | MShift => js "shift" | MOption => js "option" | MControl => js "control" end.
Definition KEY_MODIFIERS : list KeyModifier := [MCommand; MShift; MOption; MControl].

(** The names of the keys. *)
Definition INPUT_KEYS : list units :=
  map js ["escape"; "tab"; "return"; "backspace"; "left"; "right"; "up"; "down"; "a"; "b"; "c"; "d"; "e"; "f"; "g"; "h";
          "i"; "j"; "k"; "l"; "m"; "n"; "o"; "p"; "q"; "r"; "s"; "t"; "u"; "v"; "w"; "x"; "y"; "z"; "0"; "1"; "2"; "3";
          "4"; "5"; "6"; "7"; "8"; "9"].

Definition MAX_INPUT_TEXT : nat := 256.
Definition MAX_CLIPBOARD_BYTES : Z := 8192.
Definition MAX_CLIPBOARD_READ_BYTES : Z := 65536.

Record SimulatorOptions := { so_canShake : bool; so_slowAnimations : option bool }.

Inductive SimulatorCommand := SimRead | SimShake | SimSlowAnimations (enabled : bool).

Record ControlBeginParams := {
  cp_workspace : units;
  cp_platform : ControlPlatform;
  cp_slot : option units;
  cp_physical : bool;
  cp_takeOver : bool;
}.

(** ** Requests *)

Inductive ErrorCode :=
| CBadRequest | CActionFailed | CUnknownSession | CForbidden | CDeviceBusy | CStatusFailed.
#[export] Instance ErrorCode_eq_dec : EqDecision ErrorCode.
Proof. solve_decision. Defined.

(** [busy] names the participant that holds the pointer. *)
Record Refusal := { rf_code : ErrorCode; rf_message : units; rf_busy : option units }.

Definition refusal (code : ErrorCode) (message : units) : Refusal :=
  {| rf_code := code; rf_message := message; rf_busy := None |}.

Definition bad_request {A} (message : units) : result Refusal A := Throw (refusal CBadRequest message).

Record TouchCommand := {
  tc_phase : TouchPhase;
  tc_x : json;
  tc_y : json;
  tc_second : option (json * json);
  tc_display : option Z;
  tc_duoRevision : option units;
}.

Inductive InputCommand :=
| ITouch (touch : TouchCommand)
| IText (text : units)
| IClipboard (text : units) (paste : bool)
| IClipboardGet
| IScroll (x y deltaX deltaY : json)
| IKey (key : units) (modifiers : list KeyModifier)
| IWindow (window : option Z)
| IButton (button : InputButton)
| IRotate (direction : RotateDirection)
| IPosture (posture : DevicePosture)
| ISimulator (command : SimulatorCommand).

Inductive InputMethod :=
| MTouch | MText | MButton | MRotate | MPosture | MSimulator | MScroll | MKey | MWindow | MClipboardSet | MClipboardGet.
#[export] Instance InputMethod_eq_dec : EqDecision InputMethod.
Proof. solve_decision. Defined.

Definition method_text (m : InputMethod) : units :=
  match m with
  | MTouch => js "input.touch" | MText => js "input.text" | MButton => js "input.button"
  | MRotate => js "input.rotate" | MPosture => js "input.posture" | MSimulator => js "input.simulator"
  | MScroll => js "input.scroll" | MKey => js "input.key" | MWindow => js "input.window"
  | MClipboardSet => js "input.clipboard.set" | MClipboardGet => js "input.clipboard.get"
  end.

Record SessionTarget := {
  sg_platform : ControlPlatform;
  sg_postures : list DevicePosture;
  sg_simulator : option SimulatorOptions;
  sg_physical : bool;
}.

(** ** Values of parameters *)

(** A member of a table by its text, as [TABLE.includes(value as Type)] reads it. *)
Definition member_of {A} (text : A → units) (table : list A) (v : option json) : option A :=
  match v with
  | Some (JString s) => List.find (fun a => bool_decide (text a = s)) table
  | _ => None
  end.

(** The doubles 1 and 1000; a double that is not an integer orders as its bits do where it is not negative. *)
Definition BITS_1 : Z := 0x3FF0000000000000.
Definition BITS_1000 : Z := 0x408F400000000000.

Definition fraction (v : option json) : bool :=
  match v with
  | Some (JNumber n) => (0 <=? n) && (n <=? 1)
  | Some (JDouble bits) => (0 <=? bits) && (bits <=? BITS_1)
  | _ => false
  end.

Definition delta (v : option json) : bool :=
  match v with
  | Some (JNumber n) => Z.abs n <=? 1000
  | Some (JDouble bits) => Z.land bits (Z.ones 63) <=? BITS_1000
  | _ => false
  end.

(** [^[A-Za-z0-9][A-Za-z0-9_-]{0,63}$]. *)
Definition SLOT_NAME (s : units) : bool :=
  match s with
  | u :: rest =>
      is_alnum u && (length rest <=? 63)%nat && forallb (fun v => is_alnum v || (v =? 95) || (v =? 45)) rest
  | [] => false
  end.

(** A code unit of [[\n\t\b]], of [TEXT] and of [PASTE_TYPEABLE]. *)
Definition is_control_key (u : Z) : bool := (u =? 10) || (u =? 9) || (u =? 8).
Definition is_printable (u : Z) : bool := (0x20 <=? u) && (u <=? 0x7e).
Definition TEXT (s : units) : bool :=
  negb (bool_decide (s = [])) && forallb (fun u => is_printable u || is_control_key u) s.
Definition PASTE_TYPEABLE (s : units) : bool :=
  negb (bool_decide (s = [])) && forallb (fun u => is_printable u || (u =? 10) || (u =? 9)) s.

Definition is_hex_i (u : Z) : bool := is_hex u || ((65 <=? u) && (u <=? 70)).

(** [^[0-9a-f]{8}(?:-[0-9a-f]{4}){3}-[0-9a-f]{12}$], in either case. *)
Definition uuid_text (s : units) : bool :=
  bool_decide (map length (split_on 45 s) = [8; 4; 4; 4; 12]%nat) && forallb (forallb is_hex_i) (split_on 45 s).

(** ** [parseControlBegin] *)

Definition bool_param (v : option json) : option (option bool) :=
  match v with None => Some None | Some (JBool b) => Some (Some b) | Some _ => None end.

Definition slot_param (v : option json) : option (option units) :=
  match v with
  | None => Some None
  | Some (JString s) => if SLOT_NAME s then Some (Some s) else None
  | Some _ => None
  end.

Definition parseControlBegin (params : json) : result Refusal ControlBeginParams :=
  match params with
  | JObject fields =>
      match obj_without (map js ["workspace"; "platform"; "slot"; "physical"; "takeOver"]) fields with
      | (_ :: _) as rest =>
          bad_request (js "control.begin does not take " ++ join_with (js ", ") (map fst rest) ++ js ".")
      | [] =>
          match field_of "workspace" fields with
          | Some (JString workspace) =>
              match member_of platform_text PLATFORMS (field_of "platform" fields) with
              | None => bad_request (js "params.platform must be ios, android, web or macos.")
              | Some platform =>
                  match slot_param (field_of "slot" fields) with
                  | None => bad_request (js "params.slot must be 1-64 letters, digits, underscores or hyphens.")
                  | Some slot =>
                      match bool_param (field_of "takeOver" fields) with
                      | None => bad_request (js "params.takeOver must be true or false.")
                      | Some takeOver =>
                          match bool_param (field_of "physical" fields) with
                          | None => bad_request (js "params.physical must be true or false.")
                          | Some physical =>
                              if default false physical && bool_decide (platform = PIos) then
                                Throw (refusal CActionFailed
                                  (js "A physical iPhone is view only: Stim shows its screen but sends it no input."))
                              else
                                Ok {| cp_workspace := workspace; cp_platform := platform; cp_slot := slot;
                                      cp_physical := default false physical; cp_takeOver := default false takeOver |}
                          end
                      end
                  end
              end
          | _ => bad_request (js "params.workspace must be an environment path from a status payload.")
          end
      end
  | _ => bad_request (js "params must be an object.")
  end.

(** ** [parseInput] *)

(** The keys a physical Android phone takes. *)
Definition DEVICE_KEYS : list units := map js ["left"; "right"; "up"; "down"; "escape"].
Definition isDeviceKey (key : units) : bool := bool_decide (key ∈ DEVICE_KEYS).
Definition isExtendedDeviceKey (key : units) (modifiers : list KeyModifier) : bool :=
  negb (isDeviceKey key) || negb (bool_decide (modifiers = [])).

Definition IOS_BUTTONS : list InputButton := [BHome; BLock].
Definition WEB_BUTTONS : list InputButton := [BBack].

(** [const { modifiers = [] } = params]. *)
Definition modifiers_param (fields : list (units * json)) : json := default (JArray []) (field_of "modifiers" fields).

(** The modifiers, where each is one of the table and none is there twice. *)
Definition parse_modifiers (v : json) : option (list KeyModifier) :=
  match v with
  | JArray l =>
      modifiers ← mapM (fun m => member_of modifier_text KEY_MODIFIERS (Some m)) l;
      guard (length l ≤ 4)%nat;; guard (NoDup modifiers);; Some modifiers
  | _ => None
  end.

Definition parseKey (fields : list (units * json)) : result Refusal InputCommand :=
  match member_of id INPUT_KEYS (field_of "key" fields), parse_modifiers (modifiers_param fields) with
  | Some key, Some modifiers => Ok (IKey key modifiers)
  | _, _ =>
      bad_request (js "input.key needs a supported native key and unique command, shift, option or control modifiers.")
  end.

Definition parseDeviceKey (platform : ControlPlatform) (physical : bool) (fields : list (units * json)) :
    result Refusal InputCommand :=
  if negb physical then parseKey fields
  else match member_of id DEVICE_KEYS (field_of "key" fields), modifiers_param fields with
       | Some key, JArray [] => Ok (IKey key [])
       | _, _ =>
           bad_request (js "An " ++ (if bool_decide (platform = PIos) then js "iOS" else js "Android")
                        ++ js " phone takes the keys " ++ join_with (js ", ") DEVICE_KEYS ++ js ", without modifiers.")
       end.

Definition MACOS_ONLY : units := js "This input is for a native macOS app window only.".

Definition parseScrollOrKey (scroll : bool) (platform : ControlPlatform) (physical : bool) (fields : list (units * json)) :
    result Refusal InputCommand :=
  if negb (bool_decide (platform = PMacos)) && negb scroll && negb (bool_decide (platform = PWeb)) then
    parseDeviceKey platform physical fields
  else if negb (bool_decide (platform = PMacos)) then bad_request MACOS_ONLY
  else if scroll then
    let x := field_of "x" fields in
    let y := field_of "y" fields in
    let deltaX := field_of "deltaX" fields in
    let deltaY := field_of "deltaY" fields in
    if negb (fraction x) || negb (fraction y) || negb (delta deltaX) || negb (delta deltaY) then
      bad_request (js "input.scroll needs x and y from 0 to 1 and finite pixel deltas from -1000 to 1000.")
    else Ok (IScroll (default JNull x) (default JNull y) (default JNull deltaX) (default JNull deltaY))
  else parseKey fields.

Definition byteLength (s : units) : Z := Z.of_nat (length (utf8_encode s)).

Definition parseClipboard (set : bool) (platform : ControlPlatform) (physical : bool) (fields : list (units * json)) :
    result Refusal InputCommand :=
  if bool_decide (platform = PWeb) || bool_decide (platform = PMacos) || (bool_decide (platform = PIos) && physical) then
    bad_request (js "Only an iOS simulator, an Android emulator and an Android phone have a clipboard to set or read.")
  else
    let text := field_of "text" fields in
    let paste := field_of "paste" fields in
    if negb set then
      match text, paste with
      | None, None => Ok IClipboardGet
      | _, _ => bad_request (js "input.clipboard.get takes only session.")
      end
    else
      match text, bool_param paste with
      | Some (JString text), Some paste =>
          if MAX_CLIPBOARD_BYTES <? byteLength text then
            bad_request (js "input.clipboard.set takes text of at most " ++ number MAX_CLIPBOARD_BYTES
                         ++ js " UTF-8 bytes and an optional paste flag.")
          else Ok (IClipboard text (default false paste))
      | _, _ =>
          bad_request (js "input.clipboard.set takes text of at most " ++ number MAX_CLIPBOARD_BYTES
                       ++ js " UTF-8 bytes and an optional paste flag.")
      end.

Definition parse_window (platform : ControlPlatform) (fields : list (units * json)) : result Refusal InputCommand :=
  if negb (bool_decide (platform = PMacos)) then bad_request MACOS_ONLY
  else match field_of "window" fields with
       | Some JNull => Ok (IWindow None)
       | Some (JNumber n) =>
           if (n <? 0) || (0xffffffff <? n) then
             bad_request (js "input.window needs a window id from 0 to 4294967295 or null.")
           else Ok (IWindow (Some n))
       | _ => bad_request (js "input.window needs a window id from 0 to 4294967295 or null.")
       end.

Definition parse_simulator (target : SessionTarget) (fields : list (units * json)) : result Refusal InputCommand :=
  match sg_simulator target with
  | Some available =>
      if negb (bool_decide (sg_platform target = PIos)) || sg_physical target then
        bad_request (js "This session has no simulator development controls.")
      else
        let action := field_of "action" fields in
        let enabled := field_of "enabled" fields in
        if existsb (fun entry => negb (bool_decide (fst entry = js "session")))
             (obj_without (map js ["action"; "enabled"]) fields) then
          bad_request (js "Unexpected simulator option parameter.")
        else
          let unsupported := bad_request (js "The session does not support that simulator option.") in
          match action, enabled with
          | Some (JString action), Some (JBool enabled) =>
              if bool_decide (action = js "slow-animations") && bool_decide (so_slowAnimations available ≠ None) then
                Ok (ISimulator (SimSlowAnimations enabled))
              else unsupported
          | Some (JString action), None =>
              if bool_decide (action = js "read") then Ok (ISimulator SimRead)
              else if bool_decide (action = js "shake") && so_canShake available then Ok (ISimulator SimShake)
              else unsupported
          | _, _ => unsupported
          end
  | None => bad_request (js "This session has no simulator development controls.")
  end.

Definition parse_posture (target : SessionTarget) (fields : list (units * json)) : result Refusal InputCommand :=
  match member_of posture_text (sg_postures target) (field_of "posture" fields) with
  | Some posture => Ok (IPosture posture)
  | None =>
      bad_request (js "This device "
        ++ match sg_postures target with
           | [] => js "has no hinge"
           | postures => js "takes these postures: " ++ join_with (js ", ") (map posture_text postures)
           end ++ js ".")
  end.

(** The second finger of a touch: none, or both of its coordinates. *)
Definition parse_second (target : SessionTarget) (fields : list (units * json)) : result Refusal (option (json * json)) :=
  match field_of "x2" fields, field_of "y2" fields with
  | None, None => Ok None
  | x2, y2 =>
      if negb (fraction x2) || negb (fraction y2) then
        bad_request (js "input.touch takes x2 and y2 together, each from 0 to 1.")
      else if bool_decide (sg_platform target = PWeb) || bool_decide (sg_platform target = PMacos)
              || (bool_decide (sg_platform target = PIos) && negb (bool_decide (sg_postures target = []))) then
        bad_request (js "This device takes one finger only.")
      else Ok (Some (default JNull x2, default JNull y2))
  end.

Definition parse_display (platform : ControlPlatform) (v : option json) : result Refusal (option Z) :=
  match v with
  | None => Ok None
  | Some (JNumber n) =>
      if (n <? 0) || (3 <? n) then bad_request (js "display must be a display index from 0 to 3.")
      else if negb (bool_decide (platform = PIos)) && negb (n =? 0) then
        bad_request (js "An emulator or a web page takes input on its main display (0) only.")
      else Ok (Some n)
  | Some _ => bad_request (js "display must be a display index from 0 to 3.")
  end.

Definition parse_revision (target : SessionTarget) (display : option Z) (v : option json) : result Refusal (option units) :=
  let refused := bad_request (js "duoRevision needs a composed Duo image revision, without a display index.") in
  match v with
  | None => Ok None
  | Some (JString s) =>
      if negb (bool_decide (sg_platform target = PIos)) || sg_physical target || bool_decide (sg_postures target = [])
         || negb (bool_decide (display = None)) || negb (uuid_text s) then refused
      else Ok (Some s)
  | Some _ => refused
  end.

Definition parse_touch (target : SessionTarget) (fields : list (units * json)) : result Refusal InputCommand :=
  let x := field_of "x" fields in
  let y := field_of "y" fields in
  match member_of phase_text TOUCH_PHASES (field_of "phase" fields) with
  | Some phase =>
      if negb (fraction x) || negb (fraction y) then
        bad_request (js "input.touch needs phase (down, move or up), and x and y from 0 to 1.")
      else
        second ← parse_second target fields;
        display ← parse_display (sg_platform target) (field_of "display" fields);
        revision ← parse_revision target display (field_of "duoRevision" fields);
        mret (ITouch {| tc_phase := phase; tc_x := default JNull x; tc_y := default JNull y; tc_second := second;
                        tc_display := display; tc_duoRevision := revision |})
  | None => bad_request (js "input.touch needs phase (down, move or up), and x and y from 0 to 1.")
  end.

Definition parse_text (fields : list (units * json)) : result Refusal InputCommand :=
  let refused := bad_request (js "input.text takes 1 to " ++ number (Z.of_nat MAX_INPUT_TEXT)
                              ++ js " printable ASCII characters, with \n, \t and \b.") in
  match field_of "text" fields with
  | Some (JString text) =>
      if bool_decide (text = []) || (MAX_INPUT_TEXT <? length text)%nat || negb (TEXT text) then refused
      else Ok (IText text)
  | _ => refused
  end.

Definition allowed_buttons (platform : ControlPlatform) : list InputButton :=
  match platform with PIos => IOS_BUTTONS | PWeb => WEB_BUTTONS | _ => INPUT_BUTTONS end.

Definition parse_button (platform : ControlPlatform) (fields : list (units * json)) : result Refusal InputCommand :=
  match member_of button_text (allowed_buttons platform) (field_of "button" fields) with
  | Some button => Ok (IButton button)
  | None =>
      bad_request (match platform with
                   | PIos => js "An iOS device" | PAndroid => js "An Android device" | PWeb => js "A web page"
                   | PMacos => js "A native macOS app"
                   end ++ js " takes these buttons: "
                   ++ join_with (js ", ") (map button_text (allowed_buttons platform)) ++ js ".")
  end.

Definition MACOS_METHODS : list InputMethod := [MTouch; MText; MScroll; MKey; MWindow].

(** The part of [parseInput] that follows the lookup of the session. *)
Definition parse_command (method : InputMethod) (target : SessionTarget) (fields : list (units * json)) :
    result Refusal InputCommand :=
  let platform := sg_platform target in
  let turns := bool_decide (method = MRotate) || bool_decide (method = MPosture) in
  if bool_decide (platform = PMacos) && negb (bool_decide (method ∈ MACOS_METHODS)) then
    bad_request (js "A native macOS app takes mouse, scroll, text, keyboard and window input only.")
  else if bool_decide (method = MWindow) then parse_window platform fields
  else if bool_decide (method = MScroll) || bool_decide (method = MKey) then
    parseScrollOrKey (bool_decide (method = MScroll)) platform (sg_physical target) fields
  else if bool_decide (method = MClipboardSet) || bool_decide (method = MClipboardGet) then
    parseClipboard (bool_decide (method = MClipboardSet)) platform (sg_physical target) fields
  else if bool_decide (platform = PWeb) && turns then bad_request (js "A web page does not rotate or fold.")
  else if sg_physical target && turns then bad_request (js "A physical device rotates and folds only in hand.")
  else match method with
       | MSimulator => parse_simulator target fields
       | MRotate =>
           match member_of direction_text ROTATE_DIRECTIONS (field_of "direction" fields) with
           | Some direction => Ok (IRotate direction)
           | None => bad_request (js "input.rotate needs direction left or right.")
           end
       | MPosture => parse_posture target fields
       | MTouch => parse_touch target fields
       | MText => parse_text fields
       | _ => parse_button platform fields
       end.

Definition unknown_session (session : units) : Refusal :=
  refusal CUnknownSession (js "No control session " ++ session ++ js " on this connection.").

(** The session and its command. *)
Definition parseInput (method : InputMethod) (params : json) (targetOf : units → option SessionTarget) :
    result Refusal (units * InputCommand) :=
  match params with
  | JObject fields =>
      match field_of "session" fields with
      | Some (JString session) =>
          match targetOf session with
          | None => Throw (unknown_session session)
          | Some target => command ← parse_command method target fields; mret (session, command)
          end
      | _ => bad_request (method_text method ++ js " needs params.session from control.begin.")
      end
  | _ => bad_request (method_text method ++ js " needs params.session from control.begin.")
  end.

(** ** Typing with [adb shell] *)

Definition button_keycode (b : InputButton) : units :=
  match b with
  | BHome => js "KEYCODE_HOME" | BBack => js "KEYCODE_BACK" | BAppSwitch => js "KEYCODE_APP_SWITCH"
  | BLock => js "KEYCODE_POWER"
  end.

(** [ANDROID_KEYS] of a code unit of [[\n\t\b]]. *)
Definition control_keycode (u : Z) : units :=
  if u =? 10 then js "KEYCODE_ENTER" else if u =? 9 then js "KEYCODE_TAB" else js "KEYCODE_DEL".

Definition ANDROID_MODIFIERS (m : KeyModifier) : units :=
  match m with
  | MCommand | MControl => js "KEYCODE_CTRL_LEFT"
  | MOption => js "KEYCODE_ALT_LEFT"
  | MShift => js "KEYCODE_SHIFT_LEFT"
  end.

Definition ANDROID_NAMED_KEYS : list (units * units) :=
  [(js "escape", js "KEYCODE_ESCAPE"); (js "tab", js "KEYCODE_TAB"); (js "return", js "KEYCODE_ENTER");
   (js "backspace", js "KEYCODE_DEL"); (js "left", js "KEYCODE_DPAD_LEFT"); (js "right", js "KEYCODE_DPAD_RIGHT");
   (js "up", js "KEYCODE_DPAD_UP"); (js "down", js "KEYCODE_DPAD_DOWN")].

(** [toUpperCase] of the text of a key, which is ASCII. *)
Definition upper (s : units) : units := map (fun u => if (97 <=? u) && (u <=? 122) then u - 32 else u) s.

Definition androidKeycode (key : units) : units :=
  match List.find (fun entry => bool_decide (fst entry = key)) ANDROID_NAMED_KEYS with
  | Some (_, keycode) => keycode
  | None => js "KEYCODE_" ++ upper key
  end.

(** [[...new Set(l)]]. *)
Fixpoint unique {A} `{EqDecision A} (l : list A) : list A :=
  match l with [] => [] | x :: l => x :: base.filter (.≠ x) (unique l) end.

(** [text.split(/([\n\t\b]+)/)], less its empty parts, which the loop skips: the longest runs of control keys and of
    other code units. *)
Fixpoint parts (s : units) : list units :=
  match s with
  | [] => []
  | u :: s =>
      match parts s with
      | ((v :: _) as part) :: rest =>
          if Bool.eqb (is_control_key u) (is_control_key v) then (u :: part) :: rest else [u] :: part :: rest
      | rest => [u] :: rest
      end
  end.

Definition SPACE : Z := 32.
Definition QUOTE : Z := 39.
Definition PERCENT : Z := 37.

(** [replaceAll(' ', '%s')] and [replaceAll("'", "'\\''")]. *)
Definition escape_spaces (s : units) : units := concat (map (fun u => if u =? SPACE then js "%s" else [u]) s).
Definition escape_quotes (s : units) : units := concat (map (fun u => if u =? QUOTE then [39; 92; 39; 39] else [u]) s).

Definition input_call (args : list units) : list units := [js "shell"; js "input"] ++ args.

Definition part_args (part : units) : list units :=
  if forallb is_control_key part then input_call (js "keyevent" :: map control_keycode part)
  else input_call [js "text"; [QUOTE] ++ escape_quotes (escape_spaces part) ++ [QUOTE]].

(** Other commands do not come here. *)
Definition adbInputArgs (command : InputCommand) : list (list units) :=
  match command with
  | IButton button => [input_call [js "keyevent"; button_keycode button]]
  | IKey key modifiers =>
      let keys := unique (map ANDROID_MODIFIERS modifiers) in
      [input_call (match keys with [] => [js "keyevent"] | _ => js "keycombination" :: keys end ++ [androidKeycode key])]
  | IText text => map part_args (parts text)
  | _ => []
  end.

(** ** The pieces a paste is typed in *)

(** [replaceAll('\r\n', '\n')]. *)
Fixpoint newlines (s : units) : units :=
  match s with
  | 13 :: ((10 :: _) as s) => newlines s
  | u :: s => u :: newlines s
  | [] => []
  end.

(** The slices of at most [n] code units; the loop runs while the offset is inside the text. *)
Fixpoint slices (fuel n : nat) (s : units) : list units :=
  match fuel, s with
  | S fuel, _ :: _ => take n s :: slices fuel n (drop n s)
  | _, _ => []
  end.

Definition pasteTypingChunks (text : units) : option (list units) :=
  let typed := newlines text in
  if negb (PASTE_TYPEABLE typed) then None else Some (slices (length typed) MAX_INPUT_TEXT typed).

(** ** The input budget *)

(** A bucket in thousandths of an input, which the refill of a millisecond at a whole rate is a whole number of. *)
Record InputBucket := { ib_tokens : Z; ib_at : Z }.

Definition take_input (now : Z) (bucket : InputBucket) (cost perSecond capacity debt : Z) : InputBucket * bool :=
  let tokens := Z.min (1000 * capacity) (ib_tokens bucket + (now - ib_at bucket) * perSecond) in
  if tokens - 1000 * cost <? - (1000 * debt) then ({| ib_tokens := tokens; ib_at := now |}, false)
  else ({| ib_tokens := tokens - 1000 * cost; ib_at := now |}, true).
