(* ===== verification/ControlInputFacts.v ===== *)
(** * Input requests of a control session: what is accepted and what is typed

    The text of [input.text] reaches an emulator through [adb shell], whose shell reads the arguments
    again: it is one word there whatever it holds, and what the device types is stated exactly. An
    accepted command fits the device of its session. *)

From Stdlib Require Import ZArith Lia.
From S2P Require Import Prelude.
From S2P Require Import Bytes.
From S2P Require Import Json.
From S2P Require Import Oversight.
From S2P Require Import ControlInput.
Open Scope Z_scope.

(** ** The shell of the device

    [adb shell] joins its arguments with spaces into one command. A word of it is made of plain code units, of what
    stands between single quotes and of a code unit after a backslash; what else the shell would read is refused here. *)

Definition BACKSLASH : Z := 92.
Definition is_plain (u : Z) : bool := is_alnum u || (u =? 95).

Fixpoint shell_read (quoted : bool) (word : option units) (s : units) : option (list units) :=
  match s with
  | [] => if quoted then None else Some (match word with Some w => [w] | None => [] end)
  | u :: s =>
      let w := default [] word in
      if quoted then
        if u =? QUOTE then shell_read false (Some w) s else shell_read true (Some (w ++ [u])) s
      else if u =? QUOTE then shell_read true (Some w) s
      else if u =? BACKSLASH then
        match s with v :: s => shell_read false (Some (w ++ [v])) s | [] => None end
      else if u =? SPACE then
        match word with Some w => cons w <$> shell_read false None s | None => shell_read false None s end
      else if is_plain u then shell_read false (Some (w ++ [u])) s
      else None
  end.

(** The words the device's shell reads of [adb shell a b c]. *)
Definition shell_words (args : list units) : option (list units) :=
  match args with
  | shell :: args => if decide (shell = js "shell") then shell_read false None (join_with [SPACE] args) else None
  | [] => None
  end.

(** [input text] reads [%s] as a space; [input keyevent] presses the keys. *)
Fixpoint input_reads (s : units) : units :=
  match s with
  | [] => []
  | u :: s' =>
      match s' with
      | v :: s'' => if (u =? PERCENT) && (v =? 115) then SPACE :: input_reads s'' else u :: input_reads s'
      | [] => [u]
      end
  end.

Definition key_types (keycode : units) : option Z :=
  if decide (keycode = js "KEYCODE_ENTER") then Some 10
  else if decide (keycode = js "KEYCODE_TAB") then Some 9
  else if decide (keycode = js "KEYCODE_DEL") then Some 8
  else None.

Definition input_types (words : list units) : option units :=
  match words with
  | input :: verb :: rest =>
      if decide (input ≠ js "input") then None
      else if decide (verb = js "text") then match rest with [w] => Some (input_reads w) | _ => None end
      else if decide (verb = js "keyevent") then mapM key_types rest
      else None
  | _ => None
  end.

(** What the calls type, one after the other. *)
Fixpoint types (calls : list (list units)) : option units :=
  match calls with
  | [] => Some []
  | args :: calls => words ← shell_words args; typed ← input_types words; rest ← types calls; Some (typed ++ rest)
  end.

(** ** The shell reads the words that were meant *)

Definition plain_word (w : units) : Prop := w ≠ [] ∧ Forall (fun u => is_plain u = true) w.

Lemma is_plain_not u : is_plain u = true → (u =? QUOTE) = false ∧ (u =? BACKSLASH) = false ∧ (u =? SPACE) = false.
Proof. unfold is_plain, is_alnum, QUOTE, BACKSLASH, SPACE. intros Hu. repeat split; lia. Qed.

Lemma shell_read_plain c w s :
  Forall (fun u => is_plain u = true) w → shell_read false (Some c) (w ++ s) = shell_read false (Some (c ++ w)) s.
Proof.
  revert c. induction w as [|u w IH]; intros c Hw; [by rewrite app_nil_r|].
  inversion Hw as [|? ? Hu Hw']; subst. destruct (is_plain_not u Hu) as (Hq & Hb & Hs).
  cbn. rewrite Hq, Hb, Hs, Hu, IH by done. by rewrite <-app_assoc.
Qed.

Lemma shell_read_word w s :
  plain_word w → shell_read false None (w ++ s) = shell_read false (Some w) s.
Proof.
  intros [Hne Hw]. destruct w as [|u w]; [done|]. inversion Hw as [|? ? Hu Hw']; subst.
  destruct (is_plain_not u Hu) as (Hq & Hb & Hs). cbn. rewrite Hq, Hb, Hs, Hu. by rewrite shell_read_plain.
Qed.

Lemma shell_read_next w s :
  plain_word w → shell_read false None (w ++ SPACE :: s) = cons w <$> shell_read false None s.
Proof. intros Hw. rewrite shell_read_word by done. done. Qed.

Lemma shell_read_words ws :
  Forall plain_word ws → shell_read false None (join_with [SPACE] ws) = Some ws.
Proof.
  induction ws as [|w ws IH]; intros Hws; [done|]. inversion Hws as [|? ? Hw Hws']; subst.
  destruct ws as [|w' ws].
  - cbn [join_with]. rewrite <-(app_nil_r w) at 1. by rewrite shell_read_word.
  - change (join_with [SPACE] (w :: w' :: ws)) with (w ++ SPACE :: join_with [SPACE] (w' :: ws)).
    rewrite shell_read_next by done. by rewrite IH.
Qed.

Lemma shell_read_quoted c w s :
  shell_read true (Some c) (escape_quotes w ++ QUOTE :: s) = shell_read false (Some (c ++ w)) s.
Proof.
  revert c. induction w as [|u w IH]; intros c; [by rewrite app_nil_r|].
  unfold escape_quotes. cbn [map concat]. fold (escape_quotes w).
  destruct (Z.eqb_spec u QUOTE) as [->|Hu].
  - cbn. rewrite IH. by rewrite <-app_assoc.
  - cbn. apply Z.eqb_neq in Hu. rewrite Hu, IH. by rewrite <-app_assoc.
Qed.

Ltac solve_plain := split; [done|]; repeat constructor.

Lemma text_words w :
  shell_words (input_call [js "text"; [QUOTE] ++ escape_quotes w ++ [QUOTE]]) = Some [js "input"; js "text"; w].
Proof.
  unfold shell_words, input_call. cbn [app]. rewrite decide_True by done.
  change (join_with [SPACE] [js "input"; js "text"; QUOTE :: escape_quotes w ++ [QUOTE]])
    with (js "input" ++ SPACE :: js "text" ++ SPACE :: QUOTE :: escape_quotes w ++ [QUOTE]).
  rewrite !shell_read_next by solve_plain.
  change (shell_read false None (QUOTE :: escape_quotes w ++ [QUOTE]))
    with (shell_read true (Some []) (escape_quotes w ++ QUOTE :: [])).
  by rewrite shell_read_quoted.
Qed.

Lemma plain_call ws :
  Forall plain_word ws → shell_words (input_call ws) = Some (js "input" :: ws).
Proof.
  intros Hws. unfold shell_words, input_call. cbn [app]. rewrite decide_True by done.
  apply shell_read_words. constructor; [solve_plain|done].
Qed.

Lemma control_keycode_plain u : plain_word (control_keycode u).
Proof. unfold control_keycode. repeat case_match; solve_plain. Qed.

Lemma key_types_control u : is_control_key u = true → key_types (control_keycode u) = Some u.
Proof.
  intros Hu. assert (u = 10 ∨ u = 9 ∨ u = 8) as [H8|[H8|H8]] by (unfold is_control_key in Hu; lia); by rewrite H8.
Qed.

(** ** What a part types *)

Definition part_types (part : units) : units := if forallb is_control_key part then part else input_reads part.

Lemma reads_cons u v s :
  input_reads (u :: v :: s) = if (u =? PERCENT) && (v =? 115) then SPACE :: input_reads s else u :: input_reads (v :: s).
Proof. done. Qed.

Lemma escape_spaces_cons u s : escape_spaces (u :: s) = (if u =? SPACE then js "%s" else [u]) ++ escape_spaces s.
Proof. done. Qed.

(** Writing a space as [%s] does not change what is read. *)
Lemma reads_escaped s : input_reads (escape_spaces s) = input_reads s.
Proof.
  induction s as [s IH] using (induction_ltof1 _ (@length Z)). unfold ltof in IH.
  destruct s as [|u [|v s]]; [done|cbn; by destruct (u =? SPACE) eqn:E; cbn; [apply Z.eqb_eq in E as ->|]|].
  assert (input_reads (escape_spaces (v :: s)) = input_reads (v :: s)) as Hv by (apply IH; cbn; lia).
  assert (input_reads (escape_spaces s) = input_reads s) as Hs by (apply IH; cbn; lia).
  rewrite reads_cons, escape_spaces_cons. destruct (Z.eqb_spec u SPACE) as [->|Hu].
  - cbn [andb]. change (SPACE =? PERCENT) with false. cbn [andb]. rewrite <-Hv. done.
  - rewrite <-Hv, <-Hs. rewrite escape_spaces_cons. cbn [app].
    destruct (Z.eqb_spec v SPACE) as [->|Hvs].
    + change (js "%s" ++ escape_spaces s) with (PERCENT :: 115 :: escape_spaces s).
      rewrite reads_cons. change (PERCENT =? 115) with false. change (SPACE =? 115) with false.
      by rewrite !andb_false_r.
    + cbn [app]. by rewrite reads_cons.
Qed.

Lemma reads_control s : forallb is_control_key s = true → input_reads s = s.
Proof.
  induction s as [|u [|v s] IH]; intros Hs; [done..|].
  apply andb_prop in Hs as [Hu Hs]. rewrite reads_cons, IH by done.
  by replace (u =? PERCENT) with false by (symmetry; unfold is_control_key, PERCENT in *; lia).
Qed.

Lemma part_args_types part :
  shell_words (part_args part) ≫= input_types = Some (part_types part).
Proof.
  unfold part_args, part_types. destruct (forallb is_control_key part) eqn:Hc.
  - rewrite plain_call by (constructor; [solve_plain|]; apply Forall_map, Forall_true; intros; apply control_keycode_plain).
    cbn. rewrite decide_False by (intros Hne; by apply Hne). rewrite decide_False by done. rewrite decide_True by done.
    apply mapM_Some. rewrite Forall2_fmap_l. apply Forall_Forall2_diag, Forall_forall.
    intros u Hu. apply key_types_control. apply (proj1 (forallb_forall _ _) Hc), list_elem_of_In, Hu.
  - rewrite text_words. cbn. rewrite decide_False by (intros Hne; by apply Hne).
    by rewrite decide_True, reads_escaped.
Qed.

(** ** The parts of a text *)

(** A part is not empty and of one class. *)
Definition part_ok (part : units) : Prop :=
  match part with [] => False | v :: _ => Forall (fun u => is_control_key u = is_control_key v) part end.

(** Two parts that follow each other are of different classes. *)
Fixpoint alternate (l : list units) : Prop :=
  match l with
  | [] => True
  | part :: rest =>
      part_ok part ∧ alternate rest ∧
      match part, rest with v :: _, (w :: _) :: _ => is_control_key v ≠ is_control_key w | _, _ => True end
  end.

Lemma parts_alternate s : alternate (parts s).
Proof.
  induction s as [|u s IH]; [done|]. cbn. destruct (parts s) as [|[|v part] rest]; cbn in IH.
  - by repeat constructor.
  - naive_solver.
  - destruct IH as (Hp & Hrest & Hne). destruct (Bool.eqb _ _) eqn:E.
    + apply Bool.eqb_prop in E. cbn. split_and!; [|done|].
      * constructor; [done|]. by rewrite E.
      * destruct rest as [|[|w ?] ?]; [done..|]. by rewrite E.
    + apply Bool.eqb_false_iff in E. cbn. split_and!; try done. by repeat constructor.
Qed.

Lemma concat_parts s : concat (parts s) = s.
Proof.
  induction s as [|u s IH]; [done|]. cbn. rewrite <-IH at 2. destruct (parts s) as [|[|v p] q]; [done..|].
  by destruct (Bool.eqb _ _).
Qed.

(** A control key starts nothing that [%] begins. *)
Lemma reads_app a b :
  match b with [] => True | v :: _ => is_control_key v = true end → input_reads (a ++ b) = input_reads a ++ input_reads b.
Proof.
  intros Hb. induction a as [a IH] using (induction_ltof1 _ (@length Z)). unfold ltof in IH.
  destruct a as [|u [|v a]]; [done| |].
  - destruct b as [|v b]; [done|]. cbn [app]. rewrite reads_cons.
    replace (v =? 115) with false by (symmetry; unfold is_control_key in Hb; lia). by rewrite andb_false_r.
  - cbn [app]. rewrite !reads_cons. destruct (_ && _); cbn [app]; f_equal.
    + apply IH. cbn. lia.
    + apply (IH (v :: a)). cbn. lia.
Qed.

Lemma control_part v p : part_ok (v :: p) → forallb is_control_key (v :: p) = is_control_key v.
Proof.
  intros Hp. inversion Hp as [|? ? _ Hp']; subst. cbn. destruct (is_control_key v); [|done]. cbn.
  apply forallb_forall. intros u Hu%list_elem_of_In. by apply (proj1 (Forall_forall _ _) Hp').
Qed.

Lemma reads_parts s : concat (map part_types (parts s)) = input_reads s.
Proof.
  rewrite <-(concat_parts s) at 2. pose proof (parts_alternate s) as Halt.
  induction (parts s) as [|[|v p] rest IH]; [done|by destruct Halt|].
  destruct Halt as (Hp & Hrest & Hne). cbn [map concat]. rewrite IH by done.
  unfold part_types. rewrite control_part by done. destruct (is_control_key v) eqn:Hv.
  - rewrite <-(control_part v p) in Hv by done. clear -Hv. induction (v :: p) as [|u l IHl]; [done|].
    apply andb_prop in Hv as [Hu Hl]. cbn [app]. rewrite IHl by done. clear -Hu.
    destruct (l ++ concat rest) as [|w ?]; [done|]. rewrite reads_cons.
    by replace (u =? PERCENT) with false by (symmetry; unfold is_control_key, PERCENT in *; lia).
  - symmetry. apply reads_app. destruct rest as [|[|w q] rest]; [done| |]; cbn in *; [naive_solver|].
    by destruct (is_control_key w).
Qed.

(** ** What is typed *)

Lemma types_parts l : types (map part_args l) = Some (concat (map part_types l)).
Proof.
  induction l as [|part l IH]; [done|]. cbn [map types concat].
  pose proof (part_args_types part) as Hp. destruct (shell_words (part_args part)) as [words|]; [|done].
  cbn in Hp |- *. rewrite Hp, IH. done.
Qed.

(** A text without the two characters that [input text] reads as a space. *)
Definition no_percent_s (s : units) : Prop := includes (js "%s") s = false.

Lemma reads_id s : no_percent_s s → input_reads s = s.
Proof.
  unfold no_percent_s. change (js "%s") with [PERCENT; 115].
  induction s as [|u [|v s] IH]; intros Hs; [done..|].
  rewrite reads_cons. cbn [includes] in Hs. apply orb_false_iff in Hs as [Hs Hrest].
  rewrite IH by done. rewrite (Z.eqb_sym u), (Z.eqb_sym v).
  cbn [starts_with] in Hs. rewrite andb_true_r in Hs. by rewrite Hs.
Qed.

(** C37: the [adb shell] calls for a text each reach the device's shell as one [input] command, whatever quotes,
    backslashes or other characters the text holds, and together type the text, every [%s] of it read as a space;
    without [%s] they type exactly the text. *)
Theorem adb_types_text (text : units) :
  types (adbInputArgs (IText text)) = Some (input_reads text) ∧
  (no_percent_s text → types (adbInputArgs (IText text)) = Some text).
Proof.
  unfold adbInputArgs. rewrite types_parts, reads_parts. split; [done|]. intros Hs. by rewrite reads_id.
Qed.

(** A text with [%s] is typed otherwise than it was sent. *)
Theorem percent_s_lost :
  types (adbInputArgs (IText (js "100%sure"))) = Some (js "100 ure").
Proof. vm_compute. reflexivity. Qed.

(** C37 where the text has quotes and a line break. *)
Lemma adb_types_text_witness :
  let text := js "it's $(a b); " ++ [10] in types (adbInputArgs (IText text)) = Some text.
Proof. cbv zeta. apply (proj2 (adb_types_text _)). vm_compute. reflexivity. Defined.

(** ** What is accepted *)

(** A device that is not held in the hand: it turns and folds when asked. *)
Definition turns (t : SessionTarget) : Prop := sg_physical t = false ∧ sg_platform t ∈ [PIos; PAndroid].
Definition has_clipboard (t : SessionTarget) : Prop :=
  sg_platform t = PAndroid ∨ (sg_platform t = PIos ∧ sg_physical t = false).
Definition two_fingers (t : SessionTarget) : Prop :=
  sg_platform t = PAndroid ∨ (sg_platform t = PIos ∧ sg_postures t = []).
Definition is_duo (t : SessionTarget) : Prop :=
  sg_platform t = PIos ∧ sg_physical t = false ∧ sg_postures t ≠ [].

Definition touch_fits (t : SessionTarget) (c : TouchCommand) : Prop :=
  fraction (Some (tc_x c)) = true ∧ fraction (Some (tc_y c)) = true ∧
  match tc_second c with
  | Some (x2, y2) => fraction (Some x2) = true ∧ fraction (Some y2) = true ∧ two_fingers t
  | None => True
  end ∧
  match tc_display c with Some n => 0 <= n <= 3 ∧ (sg_platform t ≠ PIos → n = 0) | None => True end ∧
  match tc_duoRevision c with Some s => is_duo t ∧ tc_display c = None ∧ uuid_text s = true | None => True end.

(** The commands the device of a session takes. *)
Definition fits (t : SessionTarget) (command : InputCommand) : Prop :=
  match command with
  | ITouch c => touch_fits t c
  | IText text => (0 < length text ≤ MAX_INPUT_TEXT)%nat ∧ TEXT text = true
  | IClipboard text _ => has_clipboard t ∧ byteLength text <= MAX_CLIPBOARD_BYTES
  | IClipboardGet => has_clipboard t
  | IScroll x y deltaX deltaY =>
      sg_platform t = PMacos ∧ fraction (Some x) = true ∧ fraction (Some y) = true ∧
      delta (Some deltaX) = true ∧ delta (Some deltaY) = true
  | IKey key modifiers =>
      sg_platform t ≠ PWeb ∧ key ∈ INPUT_KEYS ∧ NoDup modifiers ∧
      (sg_physical t = true → sg_platform t = PMacos ∨ (key ∈ DEVICE_KEYS ∧ modifiers = []))
  | IWindow window => sg_platform t = PMacos ∧ match window with Some n => 0 <= n <= 0xffffffff | None => True end
  | IButton button => button ∈ allowed_buttons (sg_platform t) ∧ sg_platform t ≠ PMacos
  | IRotate _ => turns t
  | IPosture posture => turns t ∧ posture ∈ sg_postures t
  | ISimulator c =>
      sg_platform t = PIos ∧ sg_physical t = false ∧
      ∃ o, sg_simulator t = Some o ∧
        match c with
        | SimRead => True | SimShake => so_canShake o = true
        | SimSlowAnimations _ => so_slowAnimations o ≠ None
        end
  end.

Lemma member_of_elem {A} (text : A → units) table v a : member_of text table v = Some a → a ∈ table.
Proof. destruct v as [[]|]; cbn; try done. intros [? _]%find_some. by apply list_elem_of_In. Qed.

Lemma fraction_default v : fraction v = true → fraction (Some (default JNull v)) = true.
Proof. by destruct v. Qed.
Lemma delta_default v : delta v = true → delta (Some (default JNull v)) = true.
Proof. by destruct v. Qed.

Create HintDb input.
#[export] Hint Resolve fraction_default delta_default member_of_elem : input.

(** Takes a parser apart: the tests it made, as facts. *)
Ltac parsed :=
  repeat first
    [ progress simplify_eq
    | match goal with
      | H : negb _ = true |- _ => apply negb_true_iff in H
      | H : negb _ = false |- _ => apply negb_false_iff in H
      | H : _ || _ = false |- _ => apply orb_false_iff in H as [? ?]
      | H : _ && _ = true |- _ => apply andb_prop in H as [? ?]
      | H : bool_decide _ = true |- _ => apply bool_decide_eq_true in H
      | H : bool_decide _ = false |- _ => apply bool_decide_eq_false in H
      | H : bad_request _ = Ok _ |- _ => discriminate H
      | H : (if ?b then _ else _) = Ok _ |- _ => destruct b eqn:?
      | H : match ?x with _ => _ end = Ok _ |- _ => destruct x eqn:?
      end ].

Lemma second_fits t fields second :
  parse_second t fields = Ok second →
  match second with
  | Some (x2, y2) => fraction (Some x2) = true ∧ fraction (Some y2) = true ∧ two_fingers t
  | None => True
  end.
Proof.
  unfold parse_second, two_fingers. intros Hp.
  destruct (field_of "x2" fields) as [x2|], (field_of "y2" fields) as [y2|]; parsed; try done.
  cbn. split_and!; [done..|]. destruct (sg_platform t); try done; [|by left].
  right. split; [done|]. destruct (sg_postures t); [done|]. by cbn in *.
Qed.

Lemma display_fits t v display :
  parse_display (sg_platform t) v = Ok display →
  match display with Some n => 0 <= n <= 3 ∧ (sg_platform t ≠ PIos → n = 0) | None => True end.
Proof.
  unfold parse_display. intros Hp. parsed; try done. split; [lia|]. intros Hios.
  match goal with H : negb (bool_decide _) && _ = false |- _ => rewrite bool_decide_eq_false_2 in H by done; cbn in H; parsed end.
  lia.
Qed.

Lemma revision_fits t display v revision :
  parse_revision t display v = Ok revision →
  match revision with Some s => is_duo t ∧ display = None ∧ uuid_text s = true | None => True end.
Proof. unfold parse_revision, is_duo. intros Hp. parsed; naive_solver. Qed.

Lemma touch_command_fits t fields command : parse_touch t fields = Ok command → fits t command.
Proof.
  unfold parse_touch. intros Hp. destruct (member_of _ _ _) as [phase|]; [|done].
  destruct (_ || _) eqn:Exy; [done|]. parsed.
  destruct (parse_second t fields) as [second|] eqn:Es; [|done]. cbn in Hp.
  destruct (parse_display _ _) as [display|] eqn:Ed; [|done]. cbn in Hp.
  destruct (parse_revision _ _ _) as [revision|] eqn:Er; [|done]. injection Hp as <-.
  unfold fits, touch_fits. cbn [tc_x tc_y tc_second tc_display tc_duoRevision]. split_and!; auto with input.
  - by apply (second_fits t fields).
  - by apply (display_fits t (field_of "display" fields)).
  - by apply (revision_fits t display (field_of "duoRevision" fields)).
Qed.

Lemma key_fits fields command :
  parseKey fields = Ok command → ∃ key modifiers, command = IKey key modifiers ∧ key ∈ INPUT_KEYS ∧ NoDup modifiers.
Proof.
  unfold parseKey. intros Hp. parsed. match goal with H : parse_modifiers _ = _ |- _ => revert H end.
  unfold parse_modifiers. destruct (modifiers_param fields); try done. intros Hm.
  apply bind_Some in Hm as (ms & _ & Hm). apply bind_Some in Hm as (_ & _ & Hm).
  apply bind_Some in Hm as (Hnd & _ & Hm). simplify_eq. eauto 6 with input.
Qed.

Lemma scroll_or_key_fits scroll t fields command :
  parseScrollOrKey scroll (sg_platform t) (sg_physical t) fields = Ok command → fits t command.
Proof.
  unfold parseScrollOrKey, parseDeviceKey. intros Hp. parsed; cbn.
  - destruct (key_fits _ _ Hp) as (? & ? & -> & ? & ?). cbn. repeat split; congruence || done.
  - split_and!; [done| |constructor|].
    + match goal with H : member_of _ _ _ = Some _ |- _ => apply member_of_elem in H; revert H end.
      clear. unfold DEVICE_KEYS, INPUT_KEYS. cbn [map]. set_solver.
    + intros _. right. eauto with input.
  - split_and!; eauto with input.
  - destruct (key_fits _ _ Hp) as (? & ? & -> & ? & ?). cbn.
    split_and!; [congruence|done..|by left].
Qed.

Lemma clipboard_fits set t fields command :
  parseClipboard set (sg_platform t) (sg_physical t) fields = Ok command → fits t command.
Proof.
  unfold parseClipboard. intros Hp.
  destruct (_ || _) eqn:Ec in Hp; [done|].
  assert (has_clipboard t) as Hc.
  { unfold has_clipboard. destruct (sg_platform t), (sg_physical t); cbn in Ec; naive_solver. }
  parsed; cbn; split_and?; try done; lia.
Qed.

Lemma simulator_fits t fields command : parse_simulator t fields = Ok command → fits t command.
Proof. unfold parse_simulator. intros Hp. parsed; cbn; eauto 10. Qed.

Lemma turns_of t : sg_platform t ≠ PMacos → sg_platform t ≠ PWeb → sg_physical t = false → turns t.
Proof. unfold turns. destruct (sg_platform t); intros; split; try done; set_solver. Qed.

Lemma macos_method (platform : ControlPlatform) (method : InputMethod) :
  bool_decide (platform = PMacos) && negb (bool_decide (method ∈ MACOS_METHODS)) = false →
  platform = PMacos → method ∈ MACOS_METHODS.
Proof. intros Hm ->. cbn in Hm. by destruct (bool_decide_reflect (method ∈ MACOS_METHODS)). Qed.

Lemma not_macos t method :
  (sg_platform t = PMacos → method ∈ MACOS_METHODS) → method ∉ MACOS_METHODS → sg_platform t ≠ PMacos.
Proof. intros Hm Hn Hp. by apply Hn, Hm. Qed.

Lemma text_fits t fields command : parse_text fields = Ok command → fits t command.
Proof.
  unfold parse_text. intros Hp. parsed. cbn. split; [|done].
  match goal with H : (_ <? _)%nat = false, H' : ?s ≠ [] |- _ => apply Nat.ltb_ge in H; destruct s; [done|] end.
  cbn in *. lia.
Qed.

Lemma window_fits t fields command : parse_window (sg_platform t) fields = Ok command → fits t command.
Proof. unfold parse_window. intros Hp. parsed; cbn; split; try done. lia. Qed.

Lemma posture_fits t fields command :
  parse_posture t fields = Ok command → ∃ posture, command = IPosture posture ∧ posture ∈ sg_postures t.
Proof. unfold parse_posture. intros Hp. parsed. eauto with input. Qed.

Lemma button_fits t fields command :
  sg_platform t ≠ PMacos → parse_button (sg_platform t) fields = Ok command → fits t command.
Proof. unfold parse_button. intros Hm Hp. parsed. cbn. eauto with input. Qed.

Lemma command_fits method t fields command : parse_command method t fields = Ok command → fits t command.
Proof.
  unfold parse_command. intros Hp. destruct (bool_decide _ && negb _) eqn:Em in Hp; [done|].
  pose proof (macos_method _ _ Em) as Hmac. clear Em.
  assert (method ∉ MACOS_METHODS → sg_platform t ≠ PMacos) as Hnm by (apply not_macos; done). clear Hmac.
  destruct method; cbn in Hp; unfold MACOS_METHODS in Hnm;
    repeat first [ rewrite andb_false_r in Hp | rewrite andb_true_r in Hp ];
    try (assert (sg_platform t ≠ PMacos) as Hm by (apply Hnm; set_solver)).
  - by apply (touch_command_fits t fields).
  - by apply (text_fits t fields).
  - by apply (button_fits t fields).
  - parsed. cbn. by apply turns_of.
  - parsed. destruct (posture_fits _ _ _ Hp) as (posture & -> & Hin). cbn. split; [by apply turns_of|done].
  - by apply (simulator_fits t fields).
  - by apply (scroll_or_key_fits true t fields).
  - by apply (scroll_or_key_fits false t fields).
  - by apply (window_fits t fields).
  - by apply (clipboard_fits true t fields).
  - by apply (clipboard_fits false t fields).
Qed.

(** C38: an input request is accepted only for a session of the connection, and its command then fits the device of
    that session: coordinates in the screen, a second finger, a display or a Duo revision only where the device has
    them, at most 256 printable characters of text, at most 8192 bytes of clipboard where there is one, the buttons
    and keys of the platform, a turn or a posture only of a device that is not held in the hand, a simulator option
    only where the session has it. *)
Theorem accepted_input_fits method params targetOf session command :
  parseInput method params targetOf = Ok (session, command) →
  ∃ target, targetOf session = Some target ∧ fits target command ∧ field "session" params = Some (JString session).
Proof.
  unfold parseInput. intros Hp. destruct params as [| | | | | |fields]; try done.
  destruct (field_of "session" fields) as [[]|] eqn:Es; try done.
  destruct (targetOf s) as [target|] eqn:Et; [|done].
  destruct (parse_command method target fields) as [c|] eqn:Ec; [|done]. injection Hp as <- <-.
  exists target. eauto using command_fits.
Qed.

(** C38 for a posture of an emulator with a hinge. *)
Lemma accepted_input_fits_witness :
  let target := {| sg_platform := PAndroid; sg_postures := [Folded; HalfOpen; Unfolded]; sg_simulator := None;
                   sg_physical := false |} in
  ∃ t, Some target = Some t ∧ fits t (IPosture HalfOpen) ∧
    field "session" (JObject [(js "session", JString (js "c1")); (js "posture", JString (js "half-open"))])
    = Some (JString (js "c1")).
Proof.
  cbv zeta. apply (accepted_input_fits MPosture _ (fun _ => Some _) (js "c1")). vm_compute. reflexivity.
Defined.

(** ** The pieces of a paste *)

Lemma concat_slices n s fuel : (0 < n)%nat → (length s ≤ fuel)%nat → concat (slices fuel n s) = s.
Proof.
  intros Hn. revert s. induction fuel as [|fuel IH]; intros s Hf; [by destruct s; cbn in *; [|lia]|].
  destruct s as [|u s]; [done|]. cbn [slices concat]. rewrite IH, take_drop; [done|]. rewrite length_drop. cbn in *. lia.
Qed.

Lemma slices_ok (p : Z → bool) n s fuel :
  (0 < n)%nat → forallb p s = true → Forall (fun c => (0 < length c ≤ n)%nat ∧ forallb p c = true) (slices fuel n s).
Proof.
  intros Hn. revert s. induction fuel as [|fuel IH]; intros s Hs; [constructor|].
  destruct s as [|u s]; [constructor|]. cbn [slices].
  rewrite <-(take_drop n (u :: s)), forallb_app in Hs. apply andb_prop in Hs as [Ht Hd].
  constructor; [split; [|done]|by apply IH]. rewrite length_take. cbn. lia.
Qed.

(** The text of a typed paste is typed whole and in order, in pieces [input.text] would take. *)
Theorem paste_typed_whole text chunks :
  pasteTypingChunks text = Some chunks →
  concat chunks = newlines text ∧ Forall (fun c => (0 < length c ≤ MAX_INPUT_TEXT)%nat ∧ TEXT c = true) chunks.
Proof.
  unfold pasteTypingChunks. destruct (PASTE_TYPEABLE (newlines text)) eqn:Ht; [|done]. cbn [negb].
  intros Hc. injection Hc as <-. unfold PASTE_TYPEABLE in Ht. apply andb_prop in Ht as [_ Ht].
  split; [apply concat_slices; unfold MAX_INPUT_TEXT; lia|].
  eapply Forall_impl; [apply slices_ok; [unfold MAX_INPUT_TEXT; lia|exact Ht]|].
  intros c [Hlen Hc]. split; [done|]. unfold TEXT. rewrite bool_decide_eq_false_2 by (intros ->; cbn in *; lia).
  cbn. apply forallb_forall. intros u Hu. apply (proj1 (forallb_forall _ _) Hc) in Hu. cbn beta in Hu.
  unfold is_control_key. destruct (is_printable u); [done|]. lia.
Qed.

(** ** The input budget *)

(** The costs of the inputs a bucket let through, [(now, cost)] in the order they came. *)
Fixpoint taken (bucket : InputBucket) (inputs : list (Z * Z)) (perSecond capacity debt : Z) : Z :=
  match inputs with
  | [] => 0
  | (now, cost) :: inputs =>
      let '(bucket, ok) := take_input now bucket cost perSecond capacity debt in
      (if ok then cost else 0) + taken bucket inputs perSecond capacity debt
  end.

(** The clock does not run backwards, and ends at [t]. *)
Fixpoint up_to (at_ : Z) (inputs : list (Z * Z)) (t : Z) : Prop :=
  match inputs with [] => at_ <= t | (now, _) :: inputs => at_ <= now ∧ up_to now inputs t end.

Lemma up_to_le at_ inputs t : up_to at_ inputs t → at_ <= t.
Proof. revert at_. induction inputs as [|[now ?] ? IH]; cbn; intros at_; [done|]. intros [? ?%IH]. lia. Qed.

(** The budget lets through what the bucket held, the debt and what the elapsed time refilled, and no more. *)
Theorem input_budget bucket inputs t perSecond capacity debt :
  up_to (ib_at bucket) inputs t → 0 <= perSecond → 0 <= capacity → 0 <= debt → - (1000 * debt) <= ib_tokens bucket →
  1000 * taken bucket inputs perSecond capacity debt
  <= ib_tokens bucket + 1000 * debt + (t - ib_at bucket) * perSecond.
Proof.
  intros Hup Hp Hcap Hd. revert bucket Hup. induction inputs as [|[now cost] inputs IH]; intros bucket Hup Hb; cbn [taken up_to] in *; [nia|].
  destruct Hup as [Hnow Hup]. pose proof (up_to_le _ _ _ Hup) as Ht.
  unfold take_input. set (tokens := Z.min _ _). assert (tokens <= ib_tokens bucket + (now - ib_at bucket) * perSecond) as Htk by (subst tokens; lia).
  assert (- (1000 * debt) <= tokens) as Hlow by (subst tokens; nia).
  destruct (Z.ltb_spec (tokens - 1000 * cost) (- (1000 * debt))) as [Hlt|Hge].
  - specialize (IH {| ib_tokens := tokens; ib_at := now |} Hup Hlow). cbn [ib_tokens ib_at] in IH. nia.
  - specialize (IH {| ib_tokens := tokens - 1000 * cost; ib_at := now |} Hup Hge). cbn [ib_tokens ib_at] in IH. nia.
Qed.
