(* ===== verification/FrameDevices.v ===== *)
(** * The device a client may see and control: [packages/server/src/frames.ts]

    [ownedDevice] reads from the status which device a workspace owns in a slot, or which physical device it leases;
    [workspaceLease] is the lease it reads, [deviceKey] names a device and [devicePostures] lists what its hinge can do.
    A status is what these functions read of it. *)

From Stdlib Require Import ZArith Lia.
From S2P Require Import Prelude.
From S2P Require Import Bytes.
From S2P Require Import Json.
From S2P Require Import Policy.
From S2P Require Import Oversight.
From S2P Require Import ControlInput.
Open Scope Z_scope.

(** ** The status *)

Record SimulatorState := {
  si_name : option units;
  si_udid : units;
  si_owned : bool;
  si_state : units;
  si_activity : option DeviceActivity;
}.

Record AndroidDeviceState := {
  ad_name : option units;
  ad_owned : bool;
  ad_physical : bool;
  ad_serial : option units;
  ad_state : option units;
  ad_activity : option DeviceActivity;
}.

Record WebBrowserState := {
  wbs_running : bool;
  wbs_pid : option Z;
  wbs_cdpEndpoint : option units;
  wbs_targetId : option units;
  wbs_activity : option DeviceActivity;
}.

(** [launchId], the process of the app and its state. *)
Record MacosAppState := { ma_launchId : units; ma_app : option Z; ma_state : units }.

Record SlotState := {
  ss_slot : units;
  ss_ios : option SimulatorState;
  ss_android : option AndroidDeviceState;
}.

Record EnvironmentState := {
  es_path : units;
  es_ios : option SimulatorState;
  es_android : option AndroidDeviceState;
  es_slots : list SlotState;
  es_web : option WebBrowserState;
  es_macos : option MacosAppState;
}.

Record DeviceLeaseState := {
  dls_slot : option units;
  dls_platform : units;
  dls_id : option units;
  dls_deviceName : option units;
  dls_holder : option units;
  dls_grantedAt : option units;
  dls_expiresAt : option units;
  dls_expired : bool;
}.

(** [None] where [environments] is not an array; [overview] is the same payload as the oversight rules read it. *)
Record StatusPayload := {
  sp_environments : option (list EnvironmentState);
  sp_deviceLeases : list DeviceLeaseState;
  sp_overview : OversightStatus;
}.

(** ** Devices *)

Inductive Device :=
| DIos (udid : units) (foldable physical : bool) (name : option units)
| DAndroid (serial : units) (physical : bool) (avdName : option units)
| DWeb (endpoint : units) (pid : Z) (targetId : units)
| DMacos (launchId : units) (pid : Z).

Definition device_platform (d : Device) : ControlPlatform :=
  match d with DIos _ _ _ _ => PIos | DAndroid _ _ _ => PAndroid | DWeb _ _ _ => PWeb | DMacos _ _ => PMacos end.

Definition device_physical (d : Device) : bool :=
  match d with DIos _ _ physical _ | DAndroid _ physical _ => physical | _ => false end.

Definition deviceKey (d : Device) : units :=
  match d with
  | DMacos launchId pid => js "macos:" ++ launchId ++ js ":" ++ number pid
  | DWeb _ pid targetId => js "web:" ++ number pid ++ js ":" ++ targetId
  | DIos udid _ _ _ => js "ios:" ++ udid
  | DAndroid serial physical _ => (if physical then js "android-device:" else js "android:") ++ serial
  end.

(** [^emulator-\d+$]. *)
Definition EMULATOR_SERIAL (s : units) : bool :=
  let digits := drop (length (js "emulator-")) s in
  starts_with (js "emulator-") s && negb (bool_decide (digits = [])) && forallb is_digit digits.

Definition slot_of (target : ControlBeginParams) : units := default (js "default") (cp_slot target).
Definition is_default (slot : units) : bool := bool_decide (slot = js "default").

Definition environment_at (workspace : units) (l : list EnvironmentState) : option EnvironmentState :=
  List.find (fun e => bool_decide (es_path e = workspace)) l.

(** The simulator and the emulator of a slot. *)
Definition slot_devices (slot : units) (e : EnvironmentState) : option (option SimulatorState * option AndroidDeviceState) :=
  if is_default slot then Some (es_ios e, es_android e)
  else (fun s => (ss_ios s, ss_android s)) <$> List.find (fun s => bool_decide (ss_slot s = slot)) (es_slots e).

(** [/\bDuo\b/]. *)
Definition is_word (u : Z) : bool := is_alnum u || (u =? 95).
Fixpoint duo_word (after_word : bool) (s : units) : bool :=
  (negb after_word && starts_with (js "Duo") s && match drop 3 s with u :: _ => negb (is_word u) | [] => true end)
  || match s with u :: s => duo_word (is_word u) s | [] => false end.

(** A path separator of either kind. *)
Definition is_separator (u : Z) : bool := (u =? 47) || (u =? 92).

Section Lookup.
Context `{!NodeDate} (now : Z) (adbEmulators : bool).

(** What the lookup of a lease asks of one. *)
Definition lease_matches (target : ControlBeginParams) (owned : option units) (l : DeviceLeaseState) : bool :=
  bool_decide (dls_holder l = Some (cp_workspace target))
  && bool_decide (dls_platform l = platform_text (cp_platform target))
  && bool_decide (default (js "default") (dls_slot l) = slot_of target)
  && negb (dls_expired l)
  && match dls_expiresAt l with
     | None => bool_decide (cp_platform target = PIos)
     | Some at_ => match Date_parse at_ with Some t => now <? t | None => false end
     end
  && match dls_id l with
     | None => false
     | Some id =>
         (adbEmulators && bool_decide (cp_platform target = PAndroid))
         || (negb (bool_decide (Some id = owned)) && negb (EMULATOR_SERIAL id))
     end.

Definition workspaceLease (payload : StatusPayload) (target : ControlBeginParams) : option DeviceLeaseState :=
  let devices := environment_at (cp_workspace target) (default [] (sp_environments payload)) ≫= slot_devices (slot_of target) in
  let owned :=
    '(ios, android) ← devices;
    if bool_decide (cp_platform target = PIos) then si_udid <$> ios else android ≫= ad_serial in
  List.find (lease_matches target owned) (sp_deviceLeases payload).

Definition owned_simulator (where_ : units) (sim : option SimulatorState) : result units Device :=
  match sim with
  | Some sim =>
      if negb (si_owned sim) then Throw (js "No simulator Stim owns runs " ++ where_ ++ js ".")
      else if negb (bool_decide (si_state sim = js "Booted")) then
        Throw (js "The simulator for " ++ where_ ++ js " is " ++ si_state sim ++ js ", not booted.")
      else Ok (DIos (si_udid sim) (duo_word false (default [] (si_name sim))) false None)
  | None => Throw (js "No simulator Stim owns runs " ++ where_ ++ js ".")
  end.

Definition owned_emulator (where_ : units) (attached : option units) (emulator : option AndroidDeviceState) :
    result units Device :=
  match emulator with
  | Some emulator =>
      if negb (ad_owned emulator) || ad_physical emulator then Throw (js "No emulator Stim owns runs " ++ where_ ++ js ".")
      else
        let avdName :=
          match non_empty (ad_name emulator) with
          | Some name => if existsb is_separator name then None else Some name
          | None => None
          end in
        let not_running := Throw (js "The emulator for " ++ where_ ++ js " is not running.") in
        let detected :=
          match non_empty (ad_serial emulator) with
          | Some serial =>
              if bool_decide (ad_state emulator = Some (js "detected")) then Ok (DAndroid serial false avdName)
              else not_running
          | None => not_running
          end in
        match attached with
        | Some key =>
            if bool_decide (ad_state emulator = Some (js "unknown")) && starts_with (js "android:") key then
              Ok (DAndroid (drop (length (js "android:")) key) false avdName)
            else detected
        | None => detected
        end
  | None => Throw (js "No emulator Stim owns runs " ++ where_ ++ js ".")
  end.

Definition owned_web (target : ControlBeginParams) (web : option WebBrowserState) : result units Device :=
  let none := Throw (js "No Stim-owned Chrome runs for " ++ cp_workspace target ++ js ". Run stim web there.") in
  if negb (is_default (slot_of target)) then
    Throw (js "A workspace has one Stim-owned Chrome, in the default slot, not in slot " ++ slot_of target ++ js ".")
  else match web with
       | Some web =>
           match wbs_running web, non_empty (wbs_cdpEndpoint web), wbs_pid web, non_empty (wbs_targetId web) with
           | true, Some endpoint, Some pid, Some targetId => if pid =? 0 then none else Ok (DWeb endpoint pid targetId)
           | _, _, _, _ => none
           end
       | None => none
       end.

Definition owned_macos (target : ControlBeginParams) (app : option MacosAppState) : result units Device :=
  let none := Throw (js "No verified owned macOS app runs for " ++ cp_workspace target ++ js ". Run stim macos there.") in
  if cp_physical target || negb (is_default (slot_of target)) then
    Throw (js "A native macOS app has only the default owned window target.")
  else match app with
       | Some {| ma_launchId := launchId; ma_app := Some pid; ma_state := state |} =>
           if bool_decide (state = js "running") then Ok (DMacos launchId pid) else none
       | _ => none
       end.

Definition leased_device (payload : StatusPayload) (target : ControlBeginParams) : result units Device :=
  match cp_platform target with
  | PWeb | PMacos => Throw (js "A web page has no physical device.")
  | PAndroid =>
      match workspaceLease payload target ≫= dls_id with
      | Some id => Ok (DAndroid id true None)
      | None =>
          Throw (cp_workspace target ++ js " leases no physical Android device in slot " ++ slot_of target
                 ++ js ". Run stim android --device there.")
      end
  | PIos =>
      match workspaceLease payload target with
      | Some l => Ok (DIos (default [] (dls_id l)) false true (non_empty (dls_deviceName l)))
      | None =>
          Throw (cp_workspace target ++ js " leases no physical iPhone in slot " ++ slot_of target
                 ++ js ". Run stim ios --device there.")
      end
  end.

Definition ownedDevice (payload : StatusPayload) (target : ControlBeginParams) (attached : option units) :
    result units Device :=
  match sp_environments payload with
  | None => Throw (js "stim status printed a payload without environments.")
  | Some environments =>
      match environment_at (cp_workspace target) environments with
      | None => Throw (cp_workspace target ++ js " is not a Stim workspace on this machine.")
      | Some environment =>
          let devices := slot_devices (slot_of target) environment in
          let where_ := platform_text (cp_platform target) ++ js " in slot " ++ slot_of target ++ js " of "
                        ++ cp_workspace target in
          if bool_decide (cp_platform target = PMacos) then owned_macos target (es_macos environment)
          else if cp_physical target then leased_device payload target
          else match cp_platform target with
               | PWeb => owned_web target (es_web environment)
               | PIos => owned_simulator where_ (devices ≫= fst)
               | _ => owned_emulator where_ attached (devices ≫= snd)
               end
      end
  end.
End Lookup.

(** [hinged] is what the emulator answers about its physical model; no answer is no hinge. *)
Definition devicePostures (d : Device) (hinged : bool) : list DevicePosture :=
  match d with
  | DWeb _ _ _ | DMacos _ _ => []
  | DIos _ foldable _ _ => if foldable then [Folded; Unfolded] else []
  | DAndroid _ physical _ => if physical then [] else if hinged then [Folded; HalfOpen; Unfolded] else []
  end.
