(* ===== verification/ControlHub.v ===== *)
(** * Control sessions: [packages/server/src/control.ts] and [pointer-grab.ts]

    [ControlHub] holds the sessions of every connection, the controls they share, one per device, and what the hub
    waits for. The objects a session or a control is are in a store, by number: session [n] is [c<n>] for a client. A
    function that waits is cut where it waits; a [Task] is what is left of it, and it goes on when what it waited for
    has come. What the hub asks of other objects is a trace of effects. *)

From Stdlib Require Import ZArith Lia.
From S2P Require Import Prelude.
From S2P Require Import Bytes.
From S2P Require Import Json.
From S2P Require Import Policy.
From S2P Require Import Oversight.
From S2P Require Import Push.
From S2P Require Import ControlInput.
From S2P Require Import FrameDevices.
Open Scope Z_scope.

(** ** The pointer: [pointer-grab.ts] *)

Record PresenceParticipant := { pp_id : units; pp_kind : units; pp_name : units; pp_color : Z }.

(** Who holds the pointer, through which session. *)
Record Holder := { ho_id : units; ho_name : units; ho_who : PresenceParticipant; ho_session : nat }.

Record Held := { hl_holder : Holder; hl_last : TouchCommand }.
Definition PointerGrab : Type := option Held.

Definition GRAB_IDLE_MS : Z := 10000.

(** A touch goes on, is dropped, or is dropped with the name of the holder that turned it away. *)
Inductive Verdict := VPass | VDropped | VBusy (name : units).

Definition grab_admits (who : Holder) (touch : TouchCommand) (grab : PointerGrab) : PointerGrab * Verdict :=
  match tc_phase touch, grab with
  | Down, Some held =>
      if negb (bool_decide (ho_id (hl_holder held) = ho_id who)) then (grab, VBusy (ho_name (hl_holder held)))
      else (Some {| hl_holder := who; hl_last := touch |}, VPass)
  | Down, None => (Some {| hl_holder := who; hl_last := touch |}, VPass)
  | _, None => (grab, VDropped)
  | phase, Some held =>
      if negb (bool_decide (ho_id (hl_holder held) = ho_id who)) then (grab, VDropped)
      else match phase with
           | Up => (None, VPass)
           | _ => (Some {| hl_holder := hl_holder held; hl_last := touch |}, VPass)
           end
  end.

Definition up_of (touch : TouchCommand) : TouchCommand :=
  {| tc_phase := Up; tc_x := tc_x touch; tc_y := tc_y touch; tc_second := tc_second touch;
     tc_display := tc_display touch; tc_duoRevision := tc_duoRevision touch |}.

(** Who let go, and the [up] that lifts the pointer. *)
Definition grab_lift (held : Held) : Holder * TouchCommand := (hl_holder held, up_of (hl_last held)).

Definition grab_release (id : units) (grab : PointerGrab) : PointerGrab * option (Holder * TouchCommand) :=
  match grab with
  | Some held => if negb (bool_decide (ho_id (hl_holder held) = id)) then (grab, None) else (None, Some (grab_lift held))
  | None => (grab, None)
  end.

Definition grab_expire (grab : PointerGrab) : PointerGrab * option (Holder * TouchCommand) :=
  (None, grab_lift <$> grab).

(** ** Data *)

Record Lease := { ls_grantedAt : option units; ls_expiresAt : units; ls_mine : bool }.

(** A connection, by number, and the paired device behind it. *)
Record Controller := { ct_id : nat; ct_device : units; ct_name : units }.

Inductive EndReason := RIdle | RDeviceGone | RFailed | RForbidden.

(** What does not change of a control; [attempt] is the opening it comes from. *)
Record ControlFacts := {
  cf_attempt : nat;
  cf_device : Device;
  cf_target : ControlBeginParams;
  cf_cwd : units;
  cf_beganAt : Z;
  cf_claim : bool;
  cf_postures : list DevicePosture;
  cf_renew : nat;
}.

(** [key] is the key of the device. A promise is the task it waits for; [pasteTypingUntil] counts thirty-seconds of a
    millisecond, which typing a character takes a whole number of. *)
Record DeviceControl := {
  dc_facts : ControlFacts;
  dc_lease : option Lease;
  dc_leaseRefused : option Refusal;
  dc_simulator : option SimulatorOptions;
  dc_grab : PointerGrab;
  dc_grabIdle : option nat;
  dc_sessions : list nat;
  dc_watched : bool;
  dc_renewing : option nat;
  dc_adb : option nat;
  dc_pasteTimer : option nat;
  dc_pasteTypingUntil : Z;
  dc_closed : bool;
}.

Definition dc_key (d : DeviceControl) : units := deviceKey (cf_device (dc_facts d)).

Record Session := {
  se_owner : Controller;
  se_control : nat;
  se_target : ControlBeginParams;
  se_permitted : bool;
  se_hostShown : bool;
  se_startedAt : Z;
  se_idle : nat;
  se_ended : bool;
  se_driver : option units;
  se_driverNoticed : bool;
  se_deviceKeyboard : bool;
}.

Inductive Alarm :=
| AIdle (session : nat)
| AGrabIdle (control : nat)
| ARenew (control : nat)
| APaste (control : nat) (chunks : list units).

(** What [stim device lock] came to; nothing where the device has no lease. *)
Inductive Locked := LNone | LGranted (lease : Lease) | LRefused (refusal : Refusal).

(** How a device is opened: from a status, or for a hosted session with its claim. *)
Inductive Opening := OpenDevice (status : StatusPayload) | OpenHosted (claim : bool).

(** A [begin] that knows its device. *)
Record Starting := {
  bg_request : nat;
  bg_owner : Controller;
  bg_target : ControlBeginParams;
  bg_cwd : units;
  bg_beganAt : Z;
  bg_device : Device;
  bg_driver : option units;
  bg_opening : Opening;
}.

Definition bg_key (s : Starting) : units := deviceKey (bg_device s).

Inductive Stage :=
| AtReleasing (release : option nat)
| AtLocking (lock : option Locked) (postures : option (list DevicePosture))
| AtSimulator (lock : Locked) (postures : list DevicePosture)
| AtDone (opened : result Refusal nat).

(** A control that is being opened, or was; [starting] is whose call it is. *)
Record Attempt := { at_starting : Starting; at_stage : Stage }.

(** What a [begin] waits for: an attempt, its own or another's, or to go on with an answer. *)
Inductive Wait := WAttempt (attempt : nat) (creator : bool) | WOpened (opened : result Refusal nat).

(** The state of a clipboard request. *)
Inductive Clip :=
| ClipQueued (previous : option nat)
| ClipReading
| ClipCopying (chunks : option (list units)) (reserved : bool)
| ClipSetting
| ClipPasting.

(** The state of a fold. *)
Inductive Fold := FoldSettled (answer : option Refusal) | FoldHelper | FoldRunning.

Inductive Task :=
| TStatus (request : nat) (owner : Controller) (target : ControlBeginParams) (cwd : units) (beganAt : Z)
| TBegin (starting : Starting) (wait : Wait)
| TRenew (control : nat)
| TRelease (control : nat) (renewing : option nat) (unlocking : bool)
| TUnlock
| TEndAll (control : nat) (reason : EndReason) (message : units)
| TAdb (request control : nat) (previous : option nat) (args : list (list units)) (running : bool)
| TClipboard (request control : nat) (set : option (units * bool)) (clip : Clip)
| TSimulator (request control : nat)
| TFold (request control : nat) (udid : units) (posture : DevicePosture) (fold : Fold).

(** What a client gets. *)
Inductive Answer :=
| AnsNull
| AnsRefused (refusal : Refusal)
| AnsBegan (session : nat) (platform : ControlPlatform) (lease : option (option units * units))
    (postures : list DevicePosture) (simulator : option SimulatorOptions)
| AnsSimulator (options : SimulatorOptions)
| AnsText (text : units)
| AnsTyped.

(** A message to the helper of a device. *)
Inductive HelperCommand := HcInput (command : InputCommand) | HcPaste | HcDeviceKeyboard (enabled : bool).

(** [HSend] names the participant whose touch it is, which the helper is not told; [HGranted] and [HUnlock] name the
    opening whose lease it is, which no command is told. [HRenews] marks the lock command of a renewal, and [HRenewed] its
    end, with the lease where it was granted. *)
Inductive HubEffect :=
| HAnswer (request : nat) (answer : Answer)
| HOpened (control : nat) (facts : ControlFacts)
| HSend (control : nat) (by_ : option Holder) (command : HelperCommand)
| HClipboard (control : nat) (request : option (units * bool))
| HDetach (control : nat)
| HLock (args : list units) (cwd : units)
| HGranted (attempt : nat) (target : ControlBeginParams) (lease : Lease)
| HRenews (attempt : nat)
| HRenewed (attempt : nat) (target : ControlBeginParams) (granted : option Lease)
| HUnlock (attempt : nat) (target : ControlBeginParams) (cwd : units)
| HAdb (control : nat) (args : list units)
| HSimctl (control : nat) (args : list units) (input : option units)
| HSimulator (control : nat) (command : SimulatorCommand)
| HFolded (udid : units) (posture : DevicePosture)
| HEnded (owner session : nat) (reason : EndReason) (message : units)
| HAudit (owner : Controller) (target : ControlBeginParams) (action : units) (durationMs : option Z)
    (reason : option units)
| HTouch (target : ControlBeginParams) (who : PresenceParticipant) (touch : TouchCommand) (at_ : Z)
| HLeave (target : ControlBeginParams) (session : nat)
| HInput (control : nat)
| HConflict (deviceId : units) (conflict : ControlConflict)
| HWatch (control : nat)
| HUnwatch (control : nat)
| HAbort (control : nat)
| HSets (timer : nat) (alarm : Alarm) (ms : Z)
| HClears (timer : nat)
| HRefresh (timer : nat).

Record ControlOptions := {
  op_idleMs : Z;
  op_renewMs : Z;
  op_leaseFor : units;
  op_adbEmulators : bool;
}.

(** What a step reads outside: the clock, whether the client may still control, whether a session is still permitted,
    whether the pool and the hub have a helper, what it says of the keyboard and of the lit panel, and whether the claim
    of a native input process could be taken. *)
Record HubTurn := {
  ht_now : Z;
  ht_allowed : bool;
  ht_permitted : bool;
  ht_pool : bool;
  ht_frameHelper : bool;
  ht_keys : bool;
  ht_litDisplay : Z;
  ht_litPosture : option DevicePosture;
  ht_claim : result units unit;
}.

Record Hub := {
  hb_sessions : list nat;
  hb_session : gmap nat Session;
  hb_controls : gmap nat DeviceControl;
  hb_byDevice : gmap units nat;
  hb_opening : gmap units nat;
  hb_attempts : gmap nat Attempt;
  hb_releasing : gmap units nat;
  hb_ownLeases : list units;
  hb_folding : gmap units nat;
  hb_changingSimulator : list units;
  hb_closing : bool;
  hb_next : nat;
  hb_tasks : gmap nat Task;
  hb_alarms : gmap nat Alarm;
  hb_fresh : nat;
  hb_trace : list HubEffect;
}.

Definition new_ControlHub : Hub :=
  {| hb_sessions := []; hb_session := ∅; hb_controls := ∅; hb_byDevice := ∅; hb_opening := ∅; hb_attempts := ∅;
     hb_releasing := ∅; hb_ownLeases := []; hb_folding := ∅; hb_changingSimulator := []; hb_closing := false; hb_next := 1;
     hb_tasks := ∅; hb_alarms := ∅; hb_fresh := 0; hb_trace := [] |}.

(** ** Assignments *)

Section AssignControl.
Variable d : DeviceControl.

Definition set_lease (v : option Lease) : DeviceControl :=
  {| dc_facts := dc_facts d; dc_lease := v; dc_leaseRefused := dc_leaseRefused d; dc_simulator := dc_simulator d;
     dc_grab := dc_grab d; dc_grabIdle := dc_grabIdle d; dc_sessions := dc_sessions d; dc_watched := dc_watched d;
     dc_renewing := dc_renewing d; dc_adb := dc_adb d; dc_pasteTimer := dc_pasteTimer d;
     dc_pasteTypingUntil := dc_pasteTypingUntil d; dc_closed := dc_closed d |}.
Definition set_leaseRefused (v : option Refusal) : DeviceControl :=
  {| dc_facts := dc_facts d; dc_lease := dc_lease d; dc_leaseRefused := v; dc_simulator := dc_simulator d;
     dc_grab := dc_grab d; dc_grabIdle := dc_grabIdle d; dc_sessions := dc_sessions d; dc_watched := dc_watched d;
     dc_renewing := dc_renewing d; dc_adb := dc_adb d; dc_pasteTimer := dc_pasteTimer d;
     dc_pasteTypingUntil := dc_pasteTypingUntil d; dc_closed := dc_closed d |}.
Definition set_simulator (v : option SimulatorOptions) : DeviceControl :=
  {| dc_facts := dc_facts d; dc_lease := dc_lease d; dc_leaseRefused := dc_leaseRefused d; dc_simulator := v;
     dc_grab := dc_grab d; dc_grabIdle := dc_grabIdle d; dc_sessions := dc_sessions d; dc_watched := dc_watched d;
     dc_renewing := dc_renewing d; dc_adb := dc_adb d; dc_pasteTimer := dc_pasteTimer d;
     dc_pasteTypingUntil := dc_pasteTypingUntil d; dc_closed := dc_closed d |}.
Definition set_grab (v : PointerGrab) : DeviceControl :=
  {| dc_facts := dc_facts d; dc_lease := dc_lease d; dc_leaseRefused := dc_leaseRefused d;
     dc_simulator := dc_simulator d; dc_grab := v; dc_grabIdle := dc_grabIdle d; dc_sessions := dc_sessions d;
     dc_watched := dc_watched d; dc_renewing := dc_renewing d; dc_adb := dc_adb d; dc_pasteTimer := dc_pasteTimer d;
     dc_pasteTypingUntil := dc_pasteTypingUntil d; dc_closed := dc_closed d |}.
Definition set_grabIdle (v : option nat) : DeviceControl :=
  {| dc_facts := dc_facts d; dc_lease := dc_lease d; dc_leaseRefused := dc_leaseRefused d;
     dc_simulator := dc_simulator d; dc_grab := dc_grab d; dc_grabIdle := v; dc_sessions := dc_sessions d;
     dc_watched := dc_watched d; dc_renewing := dc_renewing d; dc_adb := dc_adb d; dc_pasteTimer := dc_pasteTimer d;
     dc_pasteTypingUntil := dc_pasteTypingUntil d; dc_closed := dc_closed d |}.
Definition set_control_sessions (v : list nat) : DeviceControl :=
  {| dc_facts := dc_facts d; dc_lease := dc_lease d; dc_leaseRefused := dc_leaseRefused d;
     dc_simulator := dc_simulator d; dc_grab := dc_grab d; dc_grabIdle := dc_grabIdle d; dc_sessions := v;
     dc_watched := dc_watched d; dc_renewing := dc_renewing d; dc_adb := dc_adb d; dc_pasteTimer := dc_pasteTimer d;
     dc_pasteTypingUntil := dc_pasteTypingUntil d; dc_closed := dc_closed d |}.
Definition set_watched (v : bool) : DeviceControl :=
  {| dc_facts := dc_facts d; dc_lease := dc_lease d; dc_leaseRefused := dc_leaseRefused d;
     dc_simulator := dc_simulator d; dc_grab := dc_grab d; dc_grabIdle := dc_grabIdle d; dc_sessions := dc_sessions d;
     dc_watched := v; dc_renewing := dc_renewing d; dc_adb := dc_adb d; dc_pasteTimer := dc_pasteTimer d;
     dc_pasteTypingUntil := dc_pasteTypingUntil d; dc_closed := dc_closed d |}.
Definition set_renewing (v : option nat) : DeviceControl :=
  {| dc_facts := dc_facts d; dc_lease := dc_lease d; dc_leaseRefused := dc_leaseRefused d;
     dc_simulator := dc_simulator d; dc_grab := dc_grab d; dc_grabIdle := dc_grabIdle d; dc_sessions := dc_sessions d;
     dc_watched := dc_watched d; dc_renewing := v; dc_adb := dc_adb d; dc_pasteTimer := dc_pasteTimer d;
     dc_pasteTypingUntil := dc_pasteTypingUntil d; dc_closed := dc_closed d |}.
Definition set_adb (v : option nat) : DeviceControl :=
  {| dc_facts := dc_facts d; dc_lease := dc_lease d; dc_leaseRefused := dc_leaseRefused d;
     dc_simulator := dc_simulator d; dc_grab := dc_grab d; dc_grabIdle := dc_grabIdle d; dc_sessions := dc_sessions d;
     dc_watched := dc_watched d; dc_renewing := dc_renewing d; dc_adb := v; dc_pasteTimer := dc_pasteTimer d;
     dc_pasteTypingUntil := dc_pasteTypingUntil d; dc_closed := dc_closed d |}.
Definition set_pasteTimer (v : option nat) : DeviceControl :=
  {| dc_facts := dc_facts d; dc_lease := dc_lease d; dc_leaseRefused := dc_leaseRefused d;
     dc_simulator := dc_simulator d; dc_grab := dc_grab d; dc_grabIdle := dc_grabIdle d; dc_sessions := dc_sessions d;
     dc_watched := dc_watched d; dc_renewing := dc_renewing d; dc_adb := dc_adb d; dc_pasteTimer := v;
     dc_pasteTypingUntil := dc_pasteTypingUntil d; dc_closed := dc_closed d |}.
Definition set_pasteTypingUntil (v : Z) : DeviceControl :=
  {| dc_facts := dc_facts d; dc_lease := dc_lease d; dc_leaseRefused := dc_leaseRefused d;
     dc_simulator := dc_simulator d; dc_grab := dc_grab d; dc_grabIdle := dc_grabIdle d; dc_sessions := dc_sessions d;
     dc_watched := dc_watched d; dc_renewing := dc_renewing d; dc_adb := dc_adb d; dc_pasteTimer := dc_pasteTimer d;
     dc_pasteTypingUntil := v; dc_closed := dc_closed d |}.
Definition set_closed (v : bool) : DeviceControl :=
  {| dc_facts := dc_facts d; dc_lease := dc_lease d; dc_leaseRefused := dc_leaseRefused d;
     dc_simulator := dc_simulator d; dc_grab := dc_grab d; dc_grabIdle := dc_grabIdle d; dc_sessions := dc_sessions d;
     dc_watched := dc_watched d; dc_renewing := dc_renewing d; dc_adb := dc_adb d; dc_pasteTimer := dc_pasteTimer d;
     dc_pasteTypingUntil := dc_pasteTypingUntil d; dc_closed := v |}.
End AssignControl.

Section AssignHub.
Variable h : Hub.

Definition set_sessions (v : list nat) : Hub :=
  {| hb_sessions := v; hb_session := hb_session h; hb_controls := hb_controls h; hb_byDevice := hb_byDevice h;
     hb_opening := hb_opening h; hb_attempts := hb_attempts h; hb_releasing := hb_releasing h;
     hb_ownLeases := hb_ownLeases h; hb_folding := hb_folding h; hb_changingSimulator := hb_changingSimulator h;
     hb_closing := hb_closing h; hb_next := hb_next h; hb_tasks := hb_tasks h; hb_alarms := hb_alarms h;
     hb_fresh := hb_fresh h; hb_trace := hb_trace h |}.
Definition set_session (v : gmap nat Session) : Hub :=
  {| hb_sessions := hb_sessions h; hb_session := v; hb_controls := hb_controls h; hb_byDevice := hb_byDevice h;
     hb_opening := hb_opening h; hb_attempts := hb_attempts h; hb_releasing := hb_releasing h;
     hb_ownLeases := hb_ownLeases h; hb_folding := hb_folding h; hb_changingSimulator := hb_changingSimulator h;
     hb_closing := hb_closing h; hb_next := hb_next h; hb_tasks := hb_tasks h; hb_alarms := hb_alarms h;
     hb_fresh := hb_fresh h; hb_trace := hb_trace h |}.
Definition set_controls (v : gmap nat DeviceControl) : Hub :=
  {| hb_sessions := hb_sessions h; hb_session := hb_session h; hb_controls := v; hb_byDevice := hb_byDevice h;
     hb_opening := hb_opening h; hb_attempts := hb_attempts h; hb_releasing := hb_releasing h;
     hb_ownLeases := hb_ownLeases h; hb_folding := hb_folding h; hb_changingSimulator := hb_changingSimulator h;
     hb_closing := hb_closing h; hb_next := hb_next h; hb_tasks := hb_tasks h; hb_alarms := hb_alarms h;
     hb_fresh := hb_fresh h; hb_trace := hb_trace h |}.
Definition set_byDevice (v : gmap units nat) : Hub :=
  {| hb_sessions := hb_sessions h; hb_session := hb_session h; hb_controls := hb_controls h; hb_byDevice := v;
     hb_opening := hb_opening h; hb_attempts := hb_attempts h; hb_releasing := hb_releasing h;
     hb_ownLeases := hb_ownLeases h; hb_folding := hb_folding h; hb_changingSimulator := hb_changingSimulator h;
     hb_closing := hb_closing h; hb_next := hb_next h; hb_tasks := hb_tasks h; hb_alarms := hb_alarms h;
     hb_fresh := hb_fresh h; hb_trace := hb_trace h |}.
Definition set_opening (v : gmap units nat) : Hub :=
  {| hb_sessions := hb_sessions h; hb_session := hb_session h; hb_controls := hb_controls h;
     hb_byDevice := hb_byDevice h; hb_opening := v; hb_attempts := hb_attempts h; hb_releasing := hb_releasing h;
     hb_ownLeases := hb_ownLeases h; hb_folding := hb_folding h; hb_changingSimulator := hb_changingSimulator h;
     hb_closing := hb_closing h; hb_next := hb_next h; hb_tasks := hb_tasks h; hb_alarms := hb_alarms h;
     hb_fresh := hb_fresh h; hb_trace := hb_trace h |}.
Definition set_attempts (v : gmap nat Attempt) : Hub :=
  {| hb_sessions := hb_sessions h; hb_session := hb_session h; hb_controls := hb_controls h;
     hb_byDevice := hb_byDevice h; hb_opening := hb_opening h; hb_attempts := v; hb_releasing := hb_releasing h;
     hb_ownLeases := hb_ownLeases h; hb_folding := hb_folding h; hb_changingSimulator := hb_changingSimulator h;
     hb_closing := hb_closing h; hb_next := hb_next h; hb_tasks := hb_tasks h; hb_alarms := hb_alarms h;
     hb_fresh := hb_fresh h; hb_trace := hb_trace h |}.
Definition set_releasing (v : gmap units nat) : Hub :=
  {| hb_sessions := hb_sessions h; hb_session := hb_session h; hb_controls := hb_controls h;
     hb_byDevice := hb_byDevice h; hb_opening := hb_opening h; hb_attempts := hb_attempts h; hb_releasing := v;
     hb_ownLeases := hb_ownLeases h; hb_folding := hb_folding h; hb_changingSimulator := hb_changingSimulator h;
     hb_closing := hb_closing h; hb_next := hb_next h; hb_tasks := hb_tasks h; hb_alarms := hb_alarms h;
     hb_fresh := hb_fresh h; hb_trace := hb_trace h |}.
Definition set_ownLeases (v : list units) : Hub :=
  {| hb_sessions := hb_sessions h; hb_session := hb_session h; hb_controls := hb_controls h;
     hb_byDevice := hb_byDevice h; hb_opening := hb_opening h; hb_attempts := hb_attempts h;
     hb_releasing := hb_releasing h; hb_ownLeases := v; hb_folding := hb_folding h;
     hb_changingSimulator := hb_changingSimulator h; hb_closing := hb_closing h; hb_next := hb_next h;
     hb_tasks := hb_tasks h; hb_alarms := hb_alarms h; hb_fresh := hb_fresh h; hb_trace := hb_trace h |}.
Definition set_folding (v : gmap units nat) : Hub :=
  {| hb_sessions := hb_sessions h; hb_session := hb_session h; hb_controls := hb_controls h;
     hb_byDevice := hb_byDevice h; hb_opening := hb_opening h; hb_attempts := hb_attempts h;
     hb_releasing := hb_releasing h; hb_ownLeases := hb_ownLeases h; hb_folding := v;
     hb_changingSimulator := hb_changingSimulator h; hb_closing := hb_closing h; hb_next := hb_next h;
     hb_tasks := hb_tasks h; hb_alarms := hb_alarms h; hb_fresh := hb_fresh h; hb_trace := hb_trace h |}.
Definition set_changingSimulator (v : list units) : Hub :=
  {| hb_sessions := hb_sessions h; hb_session := hb_session h; hb_controls := hb_controls h;
     hb_byDevice := hb_byDevice h; hb_opening := hb_opening h; hb_attempts := hb_attempts h;
     hb_releasing := hb_releasing h; hb_ownLeases := hb_ownLeases h; hb_folding := hb_folding h;
     hb_changingSimulator := v; hb_closing := hb_closing h; hb_next := hb_next h; hb_tasks := hb_tasks h;
     hb_alarms := hb_alarms h; hb_fresh := hb_fresh h; hb_trace := hb_trace h |}.
Definition set_closing (v : bool) : Hub :=
  {| hb_sessions := hb_sessions h; hb_session := hb_session h; hb_controls := hb_controls h;
     hb_byDevice := hb_byDevice h; hb_opening := hb_opening h; hb_attempts := hb_attempts h;
     hb_releasing := hb_releasing h; hb_ownLeases := hb_ownLeases h; hb_folding := hb_folding h;
     hb_changingSimulator := hb_changingSimulator h; hb_closing := v; hb_next := hb_next h; hb_tasks := hb_tasks h;
     hb_alarms := hb_alarms h; hb_fresh := hb_fresh h; hb_trace := hb_trace h |}.
Definition set_next (v : nat) : Hub :=
  {| hb_sessions := hb_sessions h; hb_session := hb_session h; hb_controls := hb_controls h;
     hb_byDevice := hb_byDevice h; hb_opening := hb_opening h; hb_attempts := hb_attempts h;
     hb_releasing := hb_releasing h; hb_ownLeases := hb_ownLeases h; hb_folding := hb_folding h;
     hb_changingSimulator := hb_changingSimulator h; hb_closing := hb_closing h; hb_next := v; hb_tasks := hb_tasks h;
     hb_alarms := hb_alarms h; hb_fresh := hb_fresh h; hb_trace := hb_trace h |}.
Definition set_tasks (v : gmap nat Task) : Hub :=
  {| hb_sessions := hb_sessions h; hb_session := hb_session h; hb_controls := hb_controls h;
     hb_byDevice := hb_byDevice h; hb_opening := hb_opening h; hb_attempts := hb_attempts h;
     hb_releasing := hb_releasing h; hb_ownLeases := hb_ownLeases h; hb_folding := hb_folding h;
     hb_changingSimulator := hb_changingSimulator h; hb_closing := hb_closing h; hb_next := hb_next h; hb_tasks := v;
     hb_alarms := hb_alarms h; hb_fresh := hb_fresh h; hb_trace := hb_trace h |}.
Definition set_alarms (v : gmap nat Alarm) : Hub :=
  {| hb_sessions := hb_sessions h; hb_session := hb_session h; hb_controls := hb_controls h;
     hb_byDevice := hb_byDevice h; hb_opening := hb_opening h; hb_attempts := hb_attempts h;
     hb_releasing := hb_releasing h; hb_ownLeases := hb_ownLeases h; hb_folding := hb_folding h;
     hb_changingSimulator := hb_changingSimulator h; hb_closing := hb_closing h; hb_next := hb_next h;
     hb_tasks := hb_tasks h; hb_alarms := v; hb_fresh := hb_fresh h; hb_trace := hb_trace h |}.
Definition set_fresh (v : nat) : Hub :=
  {| hb_sessions := hb_sessions h; hb_session := hb_session h; hb_controls := hb_controls h;
     hb_byDevice := hb_byDevice h; hb_opening := hb_opening h; hb_attempts := hb_attempts h;
     hb_releasing := hb_releasing h; hb_ownLeases := hb_ownLeases h; hb_folding := hb_folding h;
     hb_changingSimulator := hb_changingSimulator h; hb_closing := hb_closing h; hb_next := hb_next h;
     hb_tasks := hb_tasks h; hb_alarms := hb_alarms h; hb_fresh := v; hb_trace := hb_trace h |}.
Definition set_trace (v : list HubEffect) : Hub :=
  {| hb_sessions := hb_sessions h; hb_session := hb_session h; hb_controls := hb_controls h;
     hb_byDevice := hb_byDevice h; hb_opening := hb_opening h; hb_attempts := hb_attempts h;
     hb_releasing := hb_releasing h; hb_ownLeases := hb_ownLeases h; hb_folding := hb_folding h;
     hb_changingSimulator := hb_changingSimulator h; hb_closing := hb_closing h; hb_next := hb_next h;
     hb_tasks := hb_tasks h; hb_alarms := hb_alarms h; hb_fresh := hb_fresh h; hb_trace := v |}.
End AssignHub.

Definition set_hostShown (s : Session) : Session :=
  {| se_owner := se_owner s; se_control := se_control s; se_target := se_target s; se_permitted := se_permitted s;
     se_hostShown := true; se_startedAt := se_startedAt s; se_idle := se_idle s; se_ended := se_ended s;
     se_driver := se_driver s; se_driverNoticed := se_driverNoticed s; se_deviceKeyboard := se_deviceKeyboard s |}.
Definition set_ended (s : Session) : Session :=
  {| se_owner := se_owner s; se_control := se_control s; se_target := se_target s; se_permitted := se_permitted s;
     se_hostShown := se_hostShown s; se_startedAt := se_startedAt s; se_idle := se_idle s; se_ended := true;
     se_driver := se_driver s; se_driverNoticed := se_driverNoticed s; se_deviceKeyboard := se_deviceKeyboard s |}.
Definition set_driverNoticed (s : Session) : Session :=
  {| se_owner := se_owner s; se_control := se_control s; se_target := se_target s; se_permitted := se_permitted s;
     se_hostShown := se_hostShown s; se_startedAt := se_startedAt s; se_idle := se_idle s; se_ended := se_ended s;
     se_driver := se_driver s; se_driverNoticed := true; se_deviceKeyboard := se_deviceKeyboard s |}.
Definition set_deviceKeyboard (enabled : bool) (s : Session) : Session :=
  {| se_owner := se_owner s; se_control := se_control s; se_target := se_target s; se_permitted := se_permitted s;
     se_hostShown := se_hostShown s; se_startedAt := se_startedAt s; se_idle := se_idle s; se_ended := se_ended s;
     se_driver := se_driver s; se_driverNoticed := se_driverNoticed s; se_deviceKeyboard := enabled |}.

Definition upd_control (c : nat) (f : DeviceControl → DeviceControl) (h : Hub) : Hub :=
  set_controls h (alter f c (hb_controls h)).
Definition upd_session (n : nat) (f : Session → Session) (h : Hub) : Hub :=
  set_session h (alter f n (hb_session h)).

Definition emit (e : HubEffect) (h : Hub) : Hub := set_trace h (hb_trace h ++ [e]).
Definition answer (request : nat) (a : Answer) (h : Hub) : Hub := emit (HAnswer request a) h.

(** A number no object, task or timer has. *)
Definition fresh_id (h : Hub) : nat * Hub := (hb_fresh h, set_fresh h (S (hb_fresh h))).

Definition put_task (t : nat) (task : Task) (h : Hub) : Hub := set_tasks h (<[t := task]> (hb_tasks h)).
Definition drop_task (t : nat) (h : Hub) : Hub := set_tasks h (delete t (hb_tasks h)).
Definition spawn (task : Task) (h : Hub) : nat * Hub :=
  let '(t, h) := fresh_id h in (t, put_task t task h).

(** Whether what a promise stands for is over. *)
Definition settled (p : option nat) (h : Hub) : bool :=
  match p with Some t => bool_decide (hb_tasks h !! t = None) | None => true end.

Definition start_timer (alarm : Alarm) (ms : Z) (h : Hub) : nat * Hub :=
  let '(timer, h) := fresh_id h in
  (timer, emit (HSets timer alarm ms) (set_alarms h (<[timer := alarm]> (hb_alarms h)))).
Definition clear_timer (timer : option nat) (h : Hub) : Hub :=
  match timer with
  | Some timer => emit (HClears timer) (set_alarms h (delete timer (hb_alarms h)))
  | None => h
  end.

(** ** What a status says *)

Definition activityOf (payload : StatusPayload) (target : ControlBeginParams) : option DeviceActivity :=
  if cp_physical target || bool_decide (cp_platform target = PMacos) then None
  else
    environment ← environment_at (cp_workspace target) (default [] (sp_environments payload));
    let slot := slot_of target in
    let devices := slot_devices slot environment in
    match cp_platform target return option DeviceActivity with
    | PWeb => if is_default slot then es_web environment ≫= wbs_activity else None
    | PIos => (devices ≫= fst) ≫= si_activity
    | _ => (devices ≫= snd) ≫= ad_activity
    end.

Definition DEVICE_NOUN (p : ControlPlatform) : units :=
  match p with
  | PIos => js "iOS device" | PAndroid => js "Android device" | PWeb => js "web page" | PMacos => js "native macOS app"
  end.

Definition conflictAbout (payload : StatusPayload) (target : ControlBeginParams) (body : units) : ControlConflict :=
  {| cc_workspace := cp_workspace target;
     cc_title := match List.find (fun e => bool_decide (en_path e = cp_workspace target))
                         (os_environments (sp_overview payload)) with
                 | Some environment => oversightTitle environment (sp_overview payload)
                 | None => cp_workspace target
                 end;
     cc_body := body; cc_platform := platform_text (cp_platform target); cc_slot := slot_of target |}.

Definition otherDriver (activity : option DeviceActivity) (ownLeases : list units) : option units :=
  a ← activity;
  if negb (bool_decide (da_state a = js "driven")) then None
  else
    driver ← da_driver a;
    match non_empty (dr_since driver) with
    | Some since =>
        if bool_decide (dr_tool driver = js "stim device lock") && bool_decide (since ∈ ownLeases) then None
        else Some (dr_tool driver ++ js " (since " ++ since ++ js ")")
    | None => Some (dr_tool driver)
    end.

(** ** [actions.ts]: what a command printed *)

Inductive CommandOutcome := CoOk (stdout : units) | CoFailed (message : units) (stdout : option units).

Section Hub.
Context `{!NodeDate, !NodeText} (o : ControlOptions).

Definition printed_of (outcome : CommandOutcome) : option (list (units * json)) :=
  let stdout := match outcome with CoOk stdout => Some stdout | CoFailed _ stdout => stdout end in
  match JSON_parse (trim (default [] stdout)) with Some (JObject fields) => Some fields | _ => None end.

Definition text_field (key : string) (fields : list (units * json)) : option units :=
  match field_of key fields with Some (JString s) => Some s | _ => None end.

Definition actionOutcome (outcome : CommandOutcome) : result units (list (units * json)) :=
  match outcome, printed_of outcome with
  | CoOk _, Some fields => Ok fields
  | CoOk _, None => Throw (js "The command printed output that is not a JSON object.")
  | CoFailed message _, printed =>
      match printed with
      | Some fields =>
          match text_field "message" fields with
          | Some text =>
              Throw (match text_field "code" fields with Some code => code ++ js ": " | None => [] end ++ text
                     ++ match text_field "remedy" fields with Some remedy => js " " ++ remedy | None => [] end)
          | None => Throw message
          end
      | None => Throw message
      end
  end.

(** ** Leases *)

Definition heldLease (now : Z) (status : StatusPayload) (target : ControlBeginParams) : result Refusal Lease :=
  match workspaceLease now (op_adbEmulators o) status target with
  | Some l =>
      match non_empty (dls_expiresAt l) with
      | Some expiresAt => Ok {| ls_grantedAt := dls_grantedAt l; ls_expiresAt := expiresAt; ls_mine := false |}
      | None => Throw (refusal CForbidden (cp_workspace target ++ js " does not hold the lease on this device."))
      end
  | None => Throw (refusal CForbidden (cp_workspace target ++ js " does not hold the lease on this device."))
  end.

(** A device that [stim device lock] does not cover has no arguments. *)
Definition lock_args (d : Device) (target : ControlBeginParams) : option (list units) :=
  id ← match d with DIos udid _ _ _ => Some udid | DAndroid serial _ _ => Some serial | _ => None end;
  Some ([js "device"; js "lock"; platform_text (cp_platform target); id; js "--for"; op_leaseFor o; js "--wait"; js "0";
         js "--json"]
        ++ match non_empty (cp_slot target) with
           | Some slot => if is_default slot then [] else [js "--slot"; slot]
           | None => []
           end).

(** [lock] from the outcome of its command on. *)
Definition locked_as (beganAt : Z) (outcome : CommandOutcome) : Locked :=
  match actionOutcome outcome with
  | Throw message =>
      LRefused (refusal (if starts_with (js "STIM_DEVICE_BUSY") message then CDeviceBusy else CActionFailed)
                  (js "stim device lock: " ++ message))
  | Ok output =>
      let grantedAt := text_field "grantedAt" output in
      LGranted {| ls_grantedAt := grantedAt; ls_expiresAt := default [] (text_field "expiresAt" output);
                  ls_mine := match grantedAt ≫= Date_parse with Some t => beganAt - 1000 <=? t | None => false end |}
  end.

(** [if (mine) this.ownLeases.add(grantedAt)]. *)
Definition own_lease (lock : Locked) (h : Hub) : Hub :=
  match lock with
  | LGranted {| ls_grantedAt := Some at_; ls_mine := true |} =>
      if decide (at_ ∈ hb_ownLeases h) then h else set_ownLeases h (hb_ownLeases h ++ [at_])
  | _ => h
  end.

Definition has_lease (platform : ControlPlatform) : bool := bool_decide (platform ∈ [PIos; PAndroid]).

(** [unlock], tracked until it is over. *)
Definition unlock (a : nat) (target : ControlBeginParams) (cwd : units) (h : Hub) : Hub :=
  if has_lease (cp_platform target) then snd (spawn TUnlock (emit (HUnlock a target cwd) h)) else h.

(** ** Touches *)

(** A touch that names no display goes to the lit panel. *)
Definition on_display (t : HubTurn) (touch : TouchCommand) : TouchCommand :=
  match tc_display touch, tc_duoRevision touch with
  | None, None =>
      {| tc_phase := tc_phase touch; tc_x := tc_x touch; tc_y := tc_y touch; tc_second := tc_second touch;
         tc_display := Some (ht_litDisplay t); tc_duoRevision := None |}
  | _, _ => touch
  end.

(** The presence key is made of the target's fields. *)
Definition show (t : HubTurn) (target : ControlBeginParams) (who : PresenceParticipant) (touch : TouchCommand) (h : Hub) : Hub :=
  if has_lease (cp_platform target) then emit (HTouch target who touch (ht_now t)) h else h.

Definition lift (t : HubTurn) (c : nat) (lifted : option (Holder * TouchCommand)) (h : Hub) : Hub :=
  match hb_controls h !! c with
  | None => h
  | Some d =>
      let h := upd_control c (fun d => set_grabIdle d None) (clear_timer (dc_grabIdle d) h) in
      match lifted with
      | Some (holder, up) =>
          if dc_closed d then h
          else show t (cf_target (dc_facts d)) (ho_who holder) up
                 (emit (HSend c (Some holder) (HcInput (ITouch (on_display t up)))) h)
      | None => h
      end
  end.

(** [this.lift(control, control.grab.expire())]. *)
Definition lift_expired (t : HubTurn) (c : nat) (h : Hub) : Hub :=
  match hb_controls h !! c with
  | None => h
  | Some d =>
      let '(grab, lifted) := grab_expire (dc_grab d) in lift t c lifted (upd_control c (fun d => set_grab d grab) h)
  end.

Definition expireGrab (t : HubTurn) (c : nat) (h : Hub) : Hub :=
  lift_expired t c (upd_control c (fun d => set_grabIdle d None) h).

(** ** The end of a control and of a session *)

(** The timers, the status and the input of a control that closes. *)
Definition detach (c : nat) (d : DeviceControl) (h : Hub) : Hub :=
  let h := emit (HAbort c) (upd_control c (fun d => set_closed d true) h) in
  let h := clear_timer (Some (cf_renew (dc_facts d))) h in
  let h := clear_timer (dc_grabIdle d) h in
  let h := clear_timer (dc_pasteTimer d) h in
  let h := if dc_watched d then emit (HUnwatch c) h else h in
  emit (HDetach c) h.

Definition forget_device (c : nat) (d : DeviceControl) (h : Hub) : Hub :=
  if decide (hb_byDevice h !! dc_key d = Some c) then set_byDevice h (delete (dc_key d) (hb_byDevice h)) else h.

(** The lease the hub took is released once a renewal is over. *)
Definition release_lease (c : nat) (d : DeviceControl) (h : Hub) : Hub :=
  match dc_lease d with
  | Some {| ls_mine := true |} =>
      let '(released, h) := spawn (TRelease c (dc_renewing d) false) h in
      set_releasing h (<[dc_key d := released]> (hb_releasing h))
  | _ => h
  end.

(** A control no session uses closes. *)
Definition closeIfUnused (c : nat) (h : Hub) : Hub :=
  match hb_controls h !! c with
  | None => h
  | Some d =>
      if dc_closed d || negb (bool_decide (dc_sessions d = [])) then h
      else release_lease c d (forget_device c d (detach c d h))
  end.

Definition reason_text (reason : option EndReason) : units :=
  match reason with
  | Some RIdle => js "idle" | Some RDeviceGone => js "device-gone" | Some RFailed => js "failed"
  | Some RForbidden => js "forbidden" | None => js "ended"
  end.

(** The pointer of a session that ends is lifted, and its host leaves the screen. *)
Definition let_go (t : HubTurn) (n : nat) (s : Session) (h : Hub) : Hub :=
  let holds := match hb_controls h !! se_control s ≫= dc_grab with
               | Some held => bool_decide (ho_session (hl_holder held) = n)
               | None => false
               end in
  let h := if holds then lift_expired t (se_control s) h else h in
  if se_hostShown s && has_lease (cp_platform (se_target s)) then emit (HLeave (se_target s) n) h else h.

(** It leaves the sessions of the hub and of its control. *)
Definition leave (n : nat) (s : Session) (h : Hub) : Hub :=
  upd_control (se_control s) (fun d => set_control_sessions d (base.filter (.≠ n) (dc_sessions d)))
    (set_sessions h (base.filter (.≠ n) (hb_sessions h))).

(** The keyboard of the device, the client and the audit hear of it. *)
Definition tell_end (t : HubTurn) (n : nat) (s : Session) (reason : option EndReason) (message : units) (h : Hub) : Hub :=
  let h := if se_deviceKeyboard s then emit (HSend (se_control s) None (HcDeviceKeyboard false)) h else h in
  let h := match reason with
           | Some reason => emit (HEnded (ct_id (se_owner s)) n reason message) h
           | None => h
           end in
  emit (HAudit (se_owner s) (se_target s) (js "control.end") (Some (ht_now t - se_startedAt s))
          (Some (reason_text reason ++ js ": " ++ message))) h.

Definition end_session (t : HubTurn) (n : nat) (reason : option EndReason) (message : units) (h : Hub) : Hub :=
  match hb_session h !! n with
  | None => h
  | Some s =>
      if se_ended s then h
      else
        let h := clear_timer (Some (se_idle s)) (upd_session n set_ended h) in
        closeIfUnused (se_control s) (tell_end t n s reason message (leave n s (let_go t n s h)))
  end.

Definition end_each (t : HubTurn) (reason : option EndReason) (message : units) (sessions : list nat) (h : Hub) : Hub :=
  fold_left (fun h n => end_session t n reason message h) sessions h.

Definition endAll (t : HubTurn) (c : nat) (reason : EndReason) (message : units) (h : Hub) : Hub :=
  match hb_controls h !! c with
  | Some d => end_each t (Some reason) message (dc_sessions d) h
  | None => h
  end.

(** The session a client names. *)
Definition session_id (n : nat) : units := js "c" ++ number (Z.of_nat n).
Definition find_session (id : units) (h : Hub) : option (nat * Session) :=
  n ← List.find (fun n => bool_decide (session_id n = id)) (hb_sessions h);
  s ← hb_session h !! n;
  Some (n, s).

Definition owned_by (owner : Controller) (s : Session) : bool := Nat.eqb (ct_id (se_owner s)) (ct_id owner).

Definition endById (t : HubTurn) (owner : Controller) (id : units) (message : units) (h : Hub) : Hub * bool :=
  match find_session id h with
  | Some (n, s) => if owned_by owner s then (end_session t n None message h, true) else (h, false)
  | None => (h, false)
  end.

Definition endFor (t : HubTurn) (owner : Controller) (reason : option EndReason) (message : units) (h : Hub) : Hub :=
  end_each t reason message
    (List.filter (fun n => match hb_session h !! n with Some s => owned_by owner s | None => false end) (hb_sessions h)) h.

(** What [endDevice] does; what it waits for changes nothing here. *)
Definition endDevice (t : HubTurn) (device : Device) (message : units) (h : Hub) : Hub :=
  match hb_byDevice h !! deviceKey device with
  | Some c => endAll t c RDeviceGone message h
  | None => h
  end.

Definition close (t : HubTurn) (h : Hub) : Hub :=
  let h := set_closing h true in
  end_each t None (js "stim-server stopped.") (hb_sessions h) h.

(** ** The beginning of a control *)

Definition STOPPING : Refusal := refusal CActionFailed (js "stim-server is stopping.").

Definition set_stage (a : nat) (stage : Stage) (h : Hub) : Hub :=
  set_attempts h (alter (fun at_ => {| at_starting := at_starting at_; at_stage := stage |}) a (hb_attempts h)).

(** The open control of the device, the one being opened, or one to open. *)
Definition deviceControl (s : Starting) (h : Hub) : Hub :=
  match hb_byDevice h !! bg_key s with
  | Some c => snd (spawn (TBegin s (WOpened (Ok c))) h)
  | None =>
      match hb_opening h !! bg_key s with
      | Some a => snd (spawn (TBegin s (WAttempt a false)) h)
      | None =>
          let '(a, h) := fresh_id h in
          let h := set_attempts h (<[a := {| at_starting := s; at_stage := AtReleasing (hb_releasing h !! bg_key s) |}]>
                                     (hb_attempts h)) in
          let h := set_opening h (<[bg_key s := a]> (hb_opening h)) in
          snd (spawn (TBegin s (WAttempt a true)) h)
      end
  end.

Definition begin (t : HubTurn) (request : nat) (owner : Controller) (target : ControlBeginParams) (cwd : units) (h : Hub) : Hub :=
  if hb_closing h then answer request (AnsRefused STOPPING) h
  else snd (spawn (TStatus request owner target cwd (ht_now t)) h).

(** The status the hub waits for: an item, a failure, or nothing in time. *)
Inductive StatusRead := SrItem (payload : StatusPayload) | SrFailed (message : units) | SrTimeout.

(** [begin] from its status on. *)
Definition status_read (t : HubTurn) (task : nat) (read : StatusRead) (h : Hub) : Hub :=
  match hb_tasks h !! task with
  | Some (TStatus request owner target cwd beganAt) =>
      let h := drop_task task h in
      match read with
      | SrFailed message => answer request (AnsRefused (refusal CStatusFailed message)) h
      | SrTimeout =>
          answer request (AnsRefused (refusal CStatusFailed (js "stim status did not report the device in time."))) h
      | SrItem status =>
          match ownedDevice (ht_now t) (op_adbEmulators o) status target None with
          | Throw message => answer request (AnsRefused (refusal CActionFailed message)) h
          | Ok device =>
              match if cp_physical target then heldLease (ht_now t) status target else
                      Ok {| ls_grantedAt := None; ls_expiresAt := []; ls_mine := false |} with
              | Throw r => answer request (AnsRefused r) h
              | Ok _ =>
                  deviceControl {| bg_request := request; bg_owner := owner; bg_target := target; bg_cwd := cwd;
                                   bg_beganAt := beganAt; bg_device := device;
                                   bg_driver := otherDriver (activityOf status target) (hb_ownLeases h);
                                   bg_opening := OpenDevice status |} h
              end
          end
      end
  | _ => h
  end.

Definition beginHosted (t : HubTurn) (request : nat) (owner : Controller) (target : ControlBeginParams) (cwd : units)
    (device : Device) (claim : bool) (h : Hub) : Hub :=
  if hb_closing h then answer request (AnsRefused STOPPING) h
  else deviceControl {| bg_request := request; bg_owner := owner; bg_target := target; bg_cwd := cwd;
                        bg_beganAt := ht_now t; bg_device := device; bg_driver := None; bg_opening := OpenHosted claim |} h.

(** An attempt goes on once the control before it has released its lease: [openDevice] up to the lock and the postures,
    or [openHosted]. *)
Definition attempt_released (t : HubTurn) (a : nat) (h : Hub) : Hub :=
  match hb_attempts h !! a with
  | Some {| at_starting := s; at_stage := AtReleasing release |} =>
      if negb (settled release h) then h
      else match bg_opening s with
           | OpenHosted _ => set_stage a (AtLocking (Some LNone) None) h
           | OpenDevice status =>
               if cp_physical (bg_target s) then
                 set_stage a (AtLocking (Some (match heldLease (ht_now t) status (bg_target s) with
                                               | Ok lease => LGranted lease
                                               | Throw r => LRefused r
                                               end)) None) h
               else match lock_args (bg_device s) (bg_target s) with
                    | Some args => set_stage a (AtLocking None None) (emit (HLock args (bg_cwd s)) h)
                    | None => set_stage a (AtLocking (Some LNone) None) h
                    end
           end
  | _ => h
  end.

Definition attempt_locked (a : nat) (outcome : CommandOutcome) (h : Hub) : Hub :=
  match hb_attempts h !! a with
  | Some {| at_starting := s; at_stage := AtLocking None postures |} =>
      match bg_opening s with
      | OpenDevice _ =>
          let lock := locked_as (bg_beganAt s) outcome in
          let h := set_stage a (AtLocking (Some lock) postures) (own_lease lock h) in
          match lock with LGranted lease => emit (HGranted a (bg_target s) lease) h | _ => h end
      | OpenHosted _ => h
      end
  | _ => h
  end.

Definition attempt_postures (a : nat) (hinged : bool) (h : Hub) : Hub :=
  match hb_attempts h !! a with
  | Some {| at_starting := s; at_stage := AtLocking lock None |} =>
      set_stage a (AtLocking lock (Some (devicePostures (bg_device s) hinged))) h
  | _ => h
  end.

(** [open]. *)
Definition open (t : HubTurn) (a : nat) (s : Starting) (beganAt : Z) (postures : list DevicePosture) (lease : option Lease)
    (simulator : option SimulatorOptions) (claim : bool) (h : Hub) : result Refusal nat * Hub :=
  if hb_closing h then (Throw STOPPING, h)
  else if negb (ht_pool t) then
    (Throw (refusal CActionFailed (js "Input needs the stim-frames helper, which this Mac has not built.")), h)
  else
    let '(c, h) := fresh_id h in
    let '(renew, h) := start_timer (ARenew c) (op_renewMs o) h in
    let facts := {| cf_attempt := a; cf_device := bg_device s; cf_target := bg_target s; cf_cwd := bg_cwd s; cf_beganAt := beganAt;
                    cf_claim := claim; cf_postures := postures; cf_renew := renew |} in
    let control := {| dc_facts := facts; dc_lease := lease; dc_leaseRefused := None; dc_simulator := simulator;
                      dc_grab := None; dc_grabIdle := None; dc_sessions := []; dc_watched := false; dc_renewing := None;
                      dc_adb := None; dc_pasteTimer := None; dc_pasteTypingUntil := 0; dc_closed := false |} in
    let h := emit (HOpened c facts) (set_controls h (<[c := control]> (hb_controls h))) in
    (Ok c, set_byDevice h (<[deviceKey (bg_device s) := c]> (hb_byDevice h))).

(** The rest of [openDevice] and [openHosted]. *)
Definition finish_open (t : HubTurn) (a : nat) (s : Starting) (lock : Locked) (postures : list DevicePosture)
    (simulator : option SimulatorOptions) (h : Hub) : Hub :=
  match bg_opening s with
  | OpenHosted claim =>
      let '(opened, h) := open t a s (ht_now t) postures None None claim h in set_stage a (AtDone opened) h
  | OpenDevice _ =>
      let granted := match lock with LGranted lease => Some lease | _ => None end in
      let refused := match lock with LRefused r => Some r | _ => None end in
      match refused, negb (cp_takeOver (bg_target s)) || cp_physical (bg_target s) with
      | Some r, true => set_stage a (AtDone (Throw r)) h
      | _, _ =>
          match open t a s (bg_beganAt s) postures granted simulator false h with
          | (Throw r, h) =>
              let h := match granted with
                       | Some {| ls_mine := true |} => unlock a (bg_target s) (bg_cwd s) h
                       | _ => h
                       end in
              set_stage a (AtDone (Throw r)) h
          | (Ok c, h) =>
              let h := upd_control c (fun d => set_watched (set_leaseRefused d refused) true) (emit (HWatch c) h) in
              set_stage a (AtDone (Ok c)) h
          end
      end
  end.

(** The lock and the postures are there. *)
Definition attempt_next (t : HubTurn) (a : nat) (h : Hub) : Hub :=
  match hb_attempts h !! a with
  | Some {| at_starting := s; at_stage := AtLocking (Some lock) (Some postures) |} =>
      match bg_opening s, bg_device s with
      | OpenDevice _, DIos _ _ false _ =>
          if ht_frameHelper t then set_stage a (AtSimulator lock postures) h else finish_open t a s lock postures None h
      | _, _ => finish_open t a s lock postures None h
      end
  | _ => h
  end.

Definition attempt_simulator (t : HubTurn) (a : nat) (simulator : option SimulatorOptions) (h : Hub) : Hub :=
  match hb_attempts h !! a with
  | Some {| at_starting := s; at_stage := AtSimulator lock postures |} => finish_open t a s lock postures simulator h
  | _ => h
  end.

(** [deviceControl] from the end of the attempt on: who made it forgets it, another tries again where it failed. *)
Definition attempt_over (task : nat) (h : Hub) : Hub :=
  match hb_tasks h !! task with
  | Some (TBegin s (WAttempt a creator)) =>
      match hb_attempts h !! a with
      | Some {| at_starting := made; at_stage := AtDone opened |} =>
          let h := if creator && bool_decide (hb_opening h !! bg_key made = Some a)
                   then set_opening h (delete (bg_key made) (hb_opening h)) else h in
          match creator, opened with
          | false, Throw _ => deviceControl s (drop_task task h)
          | _, _ => put_task task (TBegin s (WOpened opened)) h
          end
      | _ => h
      end
  | _ => h
  end.

Definition is_hosted (s : Starting) : bool := match bg_opening s with OpenHosted _ => true | _ => false end.

(** [audit] of a beginning. *)
Definition audit_begin (s : Starting) (h : Hub) : Hub :=
  emit (HAudit (bg_owner s) (bg_target s) (js "control.begin") None None) h.

Definition join (t : HubTurn) (c : nat) (d : DeviceControl) (s : Starting) (h : Hub) : Hub :=
  let n := hb_next h in
  let h := set_next h (S n) in
  let '(idle, h) := start_timer (AIdle n) (op_idleMs o) h in
  let session := {| se_owner := bg_owner s; se_control := c; se_target := bg_target s; se_permitted := is_hosted s;
                    se_hostShown := false; se_startedAt := ht_now t; se_idle := idle; se_ended := false;
                    se_driver := bg_driver s; se_driverNoticed := false; se_deviceKeyboard := false |} in
  let h := set_session h (<[n := session]> (hb_session h)) in
  let h := set_sessions h (hb_sessions h ++ [n]) in
  let h := upd_control c (fun d => set_control_sessions d (dc_sessions d ++ [n])) h in
  answer (bg_request s)
    (AnsBegan n (cp_platform (bg_target s)) ((fun l => (ls_grantedAt l, ls_expiresAt l)) <$> dc_lease d)
       (cf_postures (dc_facts d)) (dc_simulator d)) (audit_begin s h).

(** The loop of [begin] and [beginHosted] from the control on. *)
Definition begin_resumes (t : HubTurn) (task : nat) (h : Hub) : Hub :=
  match hb_tasks h !! task with
  | Some (TBegin s (WOpened opened)) =>
      match opened with
      | Throw r => answer (bg_request s) (AnsRefused r) (drop_task task h)
      | Ok c =>
          match hb_controls h !! c with
          | None => h
          | Some d =>
              if hb_closing h || negb (ht_allowed t) then
                answer (bg_request s)
                  (AnsRefused (refusal CForbidden
                     (if is_hosted s then js "This hosted session can no longer be controlled."
                      else js "This device can no longer control devices."))) (drop_task task (closeIfUnused c h))
              else
                match dc_leaseRefused d, negb (is_hosted s) && negb (cp_takeOver (bg_target s)) with
                | Some r, true => answer (bg_request s) (AnsRefused r) (drop_task task (closeIfUnused c h))
                | _, _ => if dc_closed d then deviceControl s (drop_task task h) else drop_task task (join t c d s h)
                end
          end
      end
  | _ => h
  end.

(** ** While a control lasts *)

Definition renew (c : nat) (h : Hub) : Hub :=
  match hb_controls h !! c with
  | None => h
  | Some d =>
      match dc_closed d, dc_lease d, lock_args (cf_device (dc_facts d)) (cf_target (dc_facts d)) with
      | false, Some {| ls_mine := true |}, Some args =>
          let h := emit (HLock args (cf_cwd (dc_facts d))) (emit (HRenews (cf_attempt (dc_facts d))) h) in
          let '(task, h) := spawn (TRenew c) h in
          upd_control c (fun d => set_renewing d (Some task)) h
      | _, _, _ => h
      end
  end.

(** [renew] from the outcome of the lock on; a refusal is only printed. *)
Definition renewed (task : nat) (outcome : CommandOutcome) (h : Hub) : Hub :=
  match hb_tasks h !! task with
  | Some (TRenew c) =>
      let h := drop_task task h in
      match hb_controls h !! c with
      | None => h
      | Some d =>
          let lock := locked_as (cf_beganAt (dc_facts d)) outcome in
          let granted := match lock with LGranted lease => Some lease | _ => None end in
          let h := own_lease lock (emit (HRenewed (cf_attempt (dc_facts d)) (cf_target (dc_facts d)) granted) h) in
          match lock, dc_lease d with
          | LGranted {| ls_expiresAt := expiresAt |}, Some l =>
              upd_control c (fun d => set_lease d (Some {| ls_grantedAt := ls_grantedAt l; ls_expiresAt := expiresAt;
                                                           ls_mine := ls_mine l |})) h
          | _, _ => h
          end
      end
  | _ => h
  end.

(** The release of a closed control: the unlock once the renewal is over, then its end. *)
Definition release_goes_on (task : nat) (h : Hub) : Hub :=
  match hb_tasks h !! task with
  | Some (TRelease c renewing false) =>
      match hb_controls h !! c with
      | Some d =>
          if negb (settled renewing h) then h
          else let facts := dc_facts d in
               let h := if has_lease (cp_platform (cf_target facts))
                        then emit (HUnlock (cf_attempt facts) (cf_target facts) (cf_cwd facts)) h else h in
               put_task task (TRelease c renewing true) h
      | None => h
      end
  | _ => h
  end.

Definition unlocked (task : nat) (h : Hub) : Hub :=
  match hb_tasks h !! task with
  | Some TUnlock => drop_task task h
  | Some (TRelease c _ true) =>
      let h := drop_task task h in
      match hb_controls h !! c with
      | Some d =>
          if decide (hb_releasing h !! dc_key d = Some task) then set_releasing h (delete (dc_key d) (hb_releasing h))
          else h
      | None => h
      end
  | _ => h
  end.

(** The sessions that have not been told of another driver. *)
Definition notice_driver (status : StatusPayload) (target : ControlBeginParams) (other tool : units) (n : nat) (h : Hub) : Hub :=
  match hb_session h !! n with
  | Some s =>
      if bool_decide (se_driver s = Some other) || se_driverNoticed s || se_ended s then h
      else emit (HConflict (ct_device (se_owner s))
                   (conflictAbout status target
                      (tool ++ js " started driving the " ++ DEVICE_NOUN (cp_platform target)
                       ++ js " you are controlling")))
             (upd_session n set_driverNoticed h)
  | None => h
  end.

Definition statusChanged (t : HubTurn) (c : nat) (latest : StatusPayload) (h : Hub) : Hub :=
  match hb_controls h !! c with
  | None => h
  | Some d =>
      if dc_closed d || negb (dc_watched d) then h
      else
        let target := cf_target (dc_facts d) in
        let resolved := ownedDevice (ht_now t) (op_adbEmulators o) latest target (Some (dc_key d)) in
        let h :=
          match cp_physical target, dc_lease d, resolved with
          | true, Some l, Ok _ =>
              match workspaceLease (ht_now t) (op_adbEmulators o) latest target ≫= dls_expiresAt with
              | Some expiresAt =>
                  upd_control c (fun d => set_lease d (Some {| ls_grantedAt := ls_grantedAt l; ls_expiresAt := expiresAt;
                                                               ls_mine := ls_mine l |})) h
              | None => h
              end
          | _, _, _ => h
          end in
        let gone message := snd (spawn (TEndAll c RDeviceGone message) h) in
        match resolved with
        | Throw message => gone message
        | Ok device =>
            if negb (bool_decide (deviceKey device = dc_key d)) then gone (js "The device changed.")
            else
              let activity := activityOf latest target in
              match otherDriver activity (hb_ownLeases h) with
              | None => h
              | Some other =>
                  let tool := default (js "An agent") (dr_tool <$> (activity ≫= da_driver)) in
                  fold_left (fun h n => notice_driver latest target other tool n h) (dc_sessions d) h
              end
        end
  end.

(** The helper of a device exits. *)
Definition helper_failed (c : nat) (message : units) (h : Hub) : Hub :=
  match hb_controls h !! c with
  | Some d => if dc_closed d then h else snd (spawn (TEndAll c RFailed message) h)
  | None => h
  end.

Definition end_all_runs (t : HubTurn) (task : nat) (h : Hub) : Hub :=
  match hb_tasks h !! task with
  | Some (TEndAll c reason message) => endAll t c reason message (drop_task task h)
  | _ => h
  end.
End Hub.
