(* ===== verification/ControlHubInput.v ===== *)
(** * Input of a control session: [ControlHub.input] of [packages/server/src/control.ts]

    What a session's client sends to its device: touches through the pointer its participants share, text and keys
    through the helper or [adb], the clipboard, folds and simulator options; and every step of the hub. *)

From Stdlib Require Import ZArith Lia.
From S2P Require Import Prelude.
From S2P Require Import Bytes.
From S2P Require Import Json.
From S2P Require Import Policy.
From S2P Require Import Oversight.
From S2P Require Import Push.
From S2P Require Import ControlInput.
From S2P Require Import FrameDevices.
From S2P Require Import ControlHub.
Open Scope Z_scope.

Definition PASTE_TYPING_CHARS_PER_SECOND : Z := 32.

Section Input.
Context `{!NodeDate, !NodeText} (o : ControlOptions).

Definition targetOf (owner : Controller) (id : units) (h : Hub) : option SessionTarget :=
  '(_, s) ← find_session id h;
  if negb (owned_by owner s) || se_ended s then None
  else
    d ← hb_controls h !! se_control s;
    Some {| sg_platform := cp_platform (se_target s); sg_postures := cf_postures (dc_facts d);
            sg_simulator := dc_simulator d;
            sg_physical := cp_physical (se_target s)
                           || match cf_device (dc_facts d) with DAndroid _ physical _ => physical | _ => false end |}.

(** ** Touches *)

Definition host (n : nat) (h : Hub) : PresenceParticipant * Hub :=
  ({| pp_id := session_id n; pp_kind := js "host"; pp_name := js "Host"; pp_color := 0 |}, upd_session n set_hostShown h).

Definition set_grab_timer (c : nat) (phase : TouchPhase) (d : DeviceControl) (h : Hub) : Hub :=
  let h := clear_timer (dc_grabIdle d) h in
  match phase with
  | Up => upd_control c (fun d => set_grabIdle d None) h
  | _ =>
      let '(timer, h) := start_timer (AGrabIdle c) GRAB_IDLE_MS h in upd_control c (fun d => set_grabIdle d (Some timer)) h
  end.

(** The holder where the touch goes on to the device, or the answer to it. *)
Definition touch (t : HubTurn) (n : nat) (s : Session) (d : DeviceControl) (command : TouchCommand)
    (participant : option PresenceParticipant) (h : Hub) : result (option Refusal) Holder * Hub :=
  let c := se_control s in
  let '(who, h) := match participant with Some who => (who, h) | None => host n h end in
  let holder := {| ho_id := pp_id who; ho_name := pp_name who; ho_who := who; ho_session := n |} in
  let '(grab, verdict) := grab_admits holder command (dc_grab d) in
  match verdict with
  | VDropped => (Throw None, h)
  | VBusy name =>
      (Throw (Some {| rf_code := CDeviceBusy; rf_message := name ++ js " is using the screen."; rf_busy := Some name |}), h)
  | VPass =>
      let h := upd_control c (fun d => set_grab d grab) h in
      let h := set_grab_timer c (tc_phase command) d h in
      (Ok holder, show t (se_target s) who command h)
  end.

Definition release (t : HubTurn) (owner : Controller) (id : units) (participant : units) (h : Hub) : Hub :=
  match find_session id h with
  | Some (_, s) =>
      if negb (owned_by owner s) then h
      else match hb_controls h !! se_control s with
           | Some d =>
               let '(grab, lifted) := grab_release participant (dc_grab d) in
               lift t (se_control s) lifted (upd_control (se_control s) (fun d => set_grab d grab) h)
           | None => h
           end
  | None => h
  end.

Definition deviceKeyboard (owner : Controller) (id : units) (enabled : bool) (h : Hub) : Hub :=
  match find_session id h with
  | Some (n, s) =>
      if negb (owned_by owner s) || se_ended s then h
      else match cf_device ∘ dc_facts <$> hb_controls h !! se_control s with
           | Some (DIos _ _ false _) =>
               emit (HSend (se_control s) None (HcDeviceKeyboard enabled)) (upd_session n (set_deviceKeyboard enabled) h)
           | _ => h
           end
  | None => h
  end.

(** ** Simulator options *)

Definition simulator (t : HubTurn) (request c : nat) (d : DeviceControl) (command : SimulatorCommand) (h : Hub) : Hub :=
  match cf_device (dc_facts d), dc_simulator d, ht_frameHelper t with
  | DIos _ _ false _, Some _, true =>
      if bool_decide (dc_key d ∈ hb_changingSimulator h) then
        answer request (AnsRefused (refusal CDeviceBusy (js "A simulator option is still changing."))) h
      else
        let h := set_changingSimulator h (hb_changingSimulator h ++ [dc_key d]) in
        snd (spawn (TSimulator request c) (emit (HSimulator c command) h))
  | _, _, _ =>
      answer request (AnsRefused (refusal CActionFailed (js "Simulator development controls are unavailable."))) h
  end.

Definition simulator_over (task : nat) (outcome : result units SimulatorOptions) (h : Hub) : Hub :=
  match hb_tasks h !! task with
  | Some (TSimulator request c) =>
      let h := drop_task task h in
      match hb_controls h !! c with
      | None => h
      | Some d =>
          let h := set_changingSimulator h (base.filter (.≠ dc_key d) (hb_changingSimulator h)) in
          match outcome with
          | Throw message => answer request (AnsRefused (refusal CActionFailed message)) h
          | Ok options =>
              if dc_closed d then answer request (AnsRefused (refusal CUnknownSession (js "The control session ended."))) h
              else answer request (AnsSimulator options) (upd_control c (fun d => set_simulator d (Some options)) h)
          end
      end
  | _ => h
  end.

(** ** Folds *)

Definition fold (t : HubTurn) (posture : DevicePosture) : Fold :=
  match ht_litPosture t with
  | None =>
      FoldSettled (Some (refusal CActionFailed (js "Subscribe to frames of this device to learn its posture first.")))
  | Some current => if decide (current = posture) then FoldSettled None else FoldHelper
  end.

Definition start_fold (t : HubTurn) (request c : nat) (udid : units) (posture : DevicePosture) (h : Hub) : Hub :=
  match hb_folding h !! udid with
  | Some _ => answer request (AnsRefused (refusal CDeviceBusy (js "The device is still folding."))) h
  | None =>
      let '(task, h) := spawn (TFold request c udid posture (fold t posture)) h in
      upd_control c (fun d => set_adb d (Some task)) (set_folding h (<[udid := task]> (hb_folding h)))
  end.

Definition answer_null (refused : option Refusal) : Answer :=
  match refused with Some r => AnsRefused r | None => AnsNull end.
Definition action_failed (message : units) : option Refusal := Some (refusal CActionFailed message).

Definition fold_settles (task request : nat) (udid : units) (refused : option Refusal) (h : Hub) : Hub :=
  let h := answer request (answer_null refused) (drop_task task h) in
  set_folding h (delete udid (hb_folding h)).

(** [native] takes the claim of a native input process where the control has one. *)
Definition native_claim (t : HubTurn) (d : DeviceControl) : result units unit :=
  if cf_claim (dc_facts d) then ht_claim t else Ok tt.

(** A step of a fold: its helper is built, or it ran. *)
Definition fold_goes_on (t : HubTurn) (task : nat) (outcome : result units units) (h : Hub) : Hub :=
  match hb_tasks h !! task with
  | Some (TFold request c udid posture fold) =>
      match fold, hb_controls h !! c with
      | FoldSettled refused, _ => fold_settles task request udid refused h
      | FoldHelper, Some d =>
          match outcome with
          | Throw message => fold_settles task request udid (action_failed message) h
          | Ok helper =>
              if dc_closed d then fold_settles task request udid None h
              else match native_claim t d with
                   | Throw message => fold_settles task request udid (action_failed message) h
                   | Ok _ =>
                       put_task task (TFold request c udid posture FoldRunning)
                         (emit (HSimctl c [js "simctl"; js "spawn"; udid; helper] None) h)
                   end
          end
      | FoldRunning, _ =>
          match outcome with
          | Throw message => fold_settles task request udid (action_failed message) h
          | Ok _ =>
              let lit := match posture with Folded => Folded | _ => Unfolded end in
              fold_settles task request udid None (emit (HFolded udid lit) h)
          end
      | FoldHelper, None => h
      end
  | _ => h
  end.

(** ** [adb] *)

(** The next call of a typed command, unless the control is closed. *)
Definition adb_next (task request c : nat) (args : list (list units)) (h : Hub) : Hub :=
  let closed := match hb_controls h !! c with Some d => dc_closed d | None => true end in
  match args with
  | call :: _ =>
      if closed then answer request AnsNull (drop_task task h)
      else put_task task (TAdb request c None args true) (emit (HAdb c call) h)
  | [] => answer request AnsNull (drop_task task h)
  end.

Definition start_adb (request c : nat) (d : DeviceControl) (command : InputCommand) (h : Hub) : Hub :=
  let '(task, h) := spawn (TAdb request c (dc_adb d) (adbInputArgs command) false) h in
  upd_control c (fun d => set_adb d (Some task)) h.

Definition adb_goes_on (task : nat) (outcome : result units unit) (h : Hub) : Hub :=
  match hb_tasks h !! task with
  | Some (TAdb request c previous args false) =>
      if settled previous h then adb_next task request c args h else h
  | Some (TAdb request c _ (_ :: args) true) =>
      match outcome with
      | Ok _ => adb_next task request c args h
      | Throw message => answer request (answer_null (action_failed message)) (drop_task task h)
      end
  | _ => h
  end.

(** ** The clipboard *)

Definition send_chunk (c : nat) (chunk : units) (h : Hub) : Hub := emit (HSend c None (HcInput (IText chunk))) h.

(** [typePaste], a piece at a time. *)
Definition feed (c : nat) (chunks : list units) (h : Hub) : Hub :=
  let h := upd_control c (fun d => set_pasteTimer d None) h in
  match hb_controls h !! c, chunks with
  | Some d, chunk :: rest =>
      if dc_closed d then h
      else
        let h := send_chunk c chunk h in
        match rest with
        | [] => h
        | _ =>
            let '(timer, h) :=
              start_timer (APaste c rest) (Z.of_nat (length chunk) * 1000 / PASTE_TYPING_CHARS_PER_SECOND) h in
            upd_control c (fun d => set_pasteTimer d (Some timer)) h
        end
  | _, _ => h
  end.

Definition clip_over (task request : nat) (a : Answer) (h : Hub) : Hub := answer request a (drop_task task h).

(** A failure, which gives the time reserved for typing back. *)
Definition clip_failed (task request c : nat) (reserved : bool) (message : units) (h : Hub) : Hub :=
  let h := if reserved then upd_control c (fun d => set_pasteTypingUntil d 0) h else h in
  clip_over task request (answer_null (action_failed message)) h.

Definition put_clip (task request c : nat) (set : option (units * bool)) (clip : Clip) (h : Hub) : Hub :=
  put_task task (TClipboard request c set clip) h.

(** [read]. *)
Definition clip_read (t : HubTurn) (task request c : nat) (d : DeviceControl) (h : Hub) : Hub :=
  match cf_device (dc_facts d) with
  | DIos udid _ _ _ =>
      match native_claim t d with
      | Throw message => clip_failed task request c false message h
      | Ok _ =>
          put_clip task request c None ClipReading (emit (HSimctl c [js "simctl"; js "pbpaste"; udid] None) h)
      end
  | _ => put_clip task request c None ClipReading (emit (HClipboard c None) h)
  end.

(** A text is copied to a simulator, and the time it takes to type is reserved first. *)
Definition clip_copy (t : HubTurn) (task request c : nat) (d : DeviceControl) (udid text : units) (paste : bool) (h : Hub) : Hub :=
  let chunks := if paste then pasteTypingChunks text else None in
  let busy := match chunks with Some _ => ht_now t * PASTE_TYPING_CHARS_PER_SECOND <? dc_pasteTypingUntil d | None => false end in
  if busy then
    clip_over task request (AnsRefused (refusal CDeviceBusy (js "The device is still typing the previous paste."))) h
  else
    let total := Z.of_nat (length (concat (default [] chunks))) in
    let reserved := bool_decide (chunks ≠ None) in
    let h := if reserved then
               upd_control c (fun d => set_pasteTypingUntil d (ht_now t * PASTE_TYPING_CHARS_PER_SECOND + total * 1000)) h
             else h in
    match native_claim t d with
    | Throw message => clip_failed task request c reserved message h
    | Ok _ =>
        put_clip task request c (Some (text, paste)) (ClipCopying chunks reserved)
          (emit (HSimctl c [js "simctl"; js "pbcopy"; udid] (Some text)) h)
    end.

Definition clip_run (t : HubTurn) (task request c : nat) (set : option (units * bool)) (h : Hub) : Hub :=
  match hb_controls h !! c with
  | None => h
  | Some d =>
      match set, cf_device (dc_facts d) with
      | None, _ => clip_read t task request c d h
      | Some (text, paste), DIos udid _ _ _ => clip_copy t task request c d udid text paste h
      | Some (text, paste), DAndroid _ physical _ =>
          put_clip task request c set ClipSetting (emit (HClipboard c (Some (text, paste && physical))) h)
      | Some _, _ => clip_over task request AnsNull h
      end
  end.

Definition clipboard (t : HubTurn) (request c : nat) (d : DeviceControl) (set : option (units * bool)) (h : Hub) : Hub :=
  match cf_device (dc_facts d) with
  | DAndroid _ false _ =>
      let '(task, h) := spawn (TClipboard request c set (ClipQueued (dc_adb d))) h in
      upd_control c (fun d => set_adb d (Some task)) h
  | _ => let '(task, h) := spawn (TClipboard request c set (ClipQueued None)) h in clip_run t task request c set h
  end.

(** A step of a clipboard request: its turn comes, or what it ran is over, with the text it read. *)
Definition clip_goes_on (t : HubTurn) (task : nat) (outcome : result units units) (h : Hub) : Hub :=
  match hb_tasks h !! task with
  | Some (TClipboard request c set clip) =>
      match hb_controls h !! c with
      | None => h
      | Some d =>
          match clip, outcome with
          | ClipQueued previous, _ => if settled previous h then clip_run t task request c set h else h
          | ClipReading, Ok text =>
              if MAX_CLIPBOARD_READ_BYTES <? byteLength text then
                clip_failed task request c false
                  (js "The device clipboard is larger than " ++ number MAX_CLIPBOARD_READ_BYTES ++ js " bytes.") h
              else clip_over task request (AnsText text) h
          | ClipCopying chunks _, Ok _ =>
              match set with
              | Some (_, true) =>
                  if dc_closed d then clip_over task request AnsNull h
                  else match chunks with
                       | None => clip_over task request AnsNull (emit (HSend c None HcPaste) h)
                       | Some chunks => clip_over task request AnsTyped (feed c chunks h)
                       end
              | _ => clip_over task request AnsNull h
              end
          | ClipSetting, Ok _ =>
              match set, cf_device (dc_facts d), dc_closed d with
              | Some (_, true), DAndroid _ false _, false =>
                  put_clip task request c set ClipPasting
                    (emit (HAdb c [js "shell"; js "input"; js "keyevent"; js "KEYCODE_PASTE"]) h)
              | _, _, _ => clip_over task request AnsNull h
              end
          | ClipPasting, Ok _ => clip_over task request AnsNull h
          | ClipCopying _ reserved, Throw message => clip_failed task request c reserved message h
          | _, Throw message => clip_failed task request c false message h
          end
      end
  | _ => h
  end.

(** ** [input] *)

(** Commands the helper of the device takes. *)
Definition to_helper (t : HubTurn) (d : DeviceControl) (command : InputCommand) : bool :=
  match cf_device (dc_facts d) with
  | DAndroid _ false _ =>
      match command with
      | ITouch _ | IRotate _ | IPosture _ => true
      | IKey key modifiers => ht_keys t && negb (isExtendedDeviceKey key modifiers)
      | _ => ht_keys t
      end
  | _ => true
  end.

(** A command that is not a touch, or a touch that was let through for [by_]. *)
Definition dispatch (t : HubTurn) (request c : nat) (d : DeviceControl) (by_ : option Holder) (command : InputCommand) (h : Hub) : Hub :=
  match command, cf_device (dc_facts d) with
  | ISimulator command, _ => simulator t request c d command h
  | IClipboard text paste, _ => clipboard t request c d (Some (text, paste)) h
  | IClipboardGet, _ => clipboard t request c d None h
  | IPosture posture, DIos udid _ _ _ => start_fold t request c udid posture h
  | _, _ =>
      if to_helper t d command then
        let command := match command with ITouch touch => ITouch (on_display t touch) | _ => command end in
        answer request AnsNull (emit (HSend c by_ (HcInput command)) h)
      else start_adb request c d command h
  end.

Definition LEASE_EXPIRED : units := js "The workspace's lease on this device expired.".
Definition HOSTED_GONE : units := js "The hosted session is no longer available.".

(** [Date.parse(expiresAt) <= now], which an invalid date does not pass. *)
Definition lease_over (now : Z) (d : DeviceControl) : bool :=
  match cp_physical (cf_target (dc_facts d)), dc_lease d with
  | true, Some l => match Date_parse (ls_expiresAt l) with Some at_ => at_ <=? now | None => false end
  | _, _ => false
  end.

Definition input (t : HubTurn) (request : nat) (owner : Controller) (id : units) (command : InputCommand)
    (participant : option PresenceParticipant) (h : Hub) : Hub :=
  match find_session id h with
  | None => answer request (AnsRefused (unknown_session id)) h
  | Some (n, s) =>
      if negb (owned_by owner s) || se_ended s then answer request (AnsRefused (unknown_session id)) h
      else if se_permitted s && negb (ht_permitted t) then
        answer request (AnsRefused (refusal CForbidden HOSTED_GONE)) (end_session t n (Some RDeviceGone) HOSTED_GONE h)
      else
        let c := se_control s in
        match hb_controls h !! c with
        | None => h
        | Some d =>
            let reads := match command with IClipboardGet => true | _ => false end in
            let h := if reads then h else emit (HRefresh (se_idle s)) h in
            if lease_over (ht_now t) d then
              answer request (AnsRefused (refusal CUnknownSession LEASE_EXPIRED)) (endAll t c RDeviceGone LEASE_EXPIRED h)
            else
              let h := if reads then h else emit (HInput c) h in
              match command with
              | ITouch command =>
                  match touch t n s d command participant h with
                  | (Throw refused, h) => answer request (answer_null refused) h
                  | (Ok holder, h) => dispatch t request c d (Some holder) (ITouch command) h
                  end
              | _ => dispatch t request c d None command h
              end
        end
  end.

(** ** Timers *)

Definition timer_fires (t : HubTurn) (timer : nat) (h : Hub) : Hub :=
  match hb_alarms h !! timer with
  | Some (ARenew c) => renew o c h
  | Some alarm =>
      let h := set_alarms h (delete timer (hb_alarms h)) in
      match alarm with
      | AIdle n => end_session t n (Some RIdle) (js "No input for 5 minutes.") h
      | AGrabIdle c => expireGrab t c h
      | ARenew c => h
      | APaste c chunks => feed c chunks h
      end
  | None => h
  end.

(** ** Steps *)

Inductive HubEvent :=
| EBegin (request : nat) (owner : Controller) (target : ControlBeginParams) (cwd : units)
| EBeginHosted (request : nat) (owner : Controller) (target : ControlBeginParams) (cwd : units) (device : Device) (claim : bool)
| EStatusRead (task : nat) (read : StatusRead)
| EAttemptReleased (attempt : nat)
| EAttemptLocked (attempt : nat) (outcome : CommandOutcome)
| EAttemptPostures (attempt : nat) (hinged : bool)
| EAttemptNext (attempt : nat)
| EAttemptSimulator (attempt : nat) (simulator : option SimulatorOptions)
| EAttemptOver (task : nat)
| EBeginResumes (task : nat)
| ERenewed (task : nat) (outcome : CommandOutcome)
| EReleaseGoesOn (task : nat)
| EUnlocked (task : nat)
| EStatusChanged (control : nat) (payload : StatusPayload)
| EHelperFailed (control : nat) (message : units)
| EEndAllRuns (task : nat)
| EInput (request : nat) (owner : Controller) (id : units) (command : InputCommand) (participant : option PresenceParticipant)
| ERelease (owner : Controller) (id participant : units)
| EDeviceKeyboard (owner : Controller) (id : units) (enabled : bool)
| ESimulatorOver (task : nat) (outcome : result units SimulatorOptions)
| EFoldGoesOn (task : nat) (outcome : result units units)
| EAdbGoesOn (task : nat) (outcome : result units unit)
| EClipGoesOn (task : nat) (outcome : result units units)
| EEndById (owner : Controller) (id : units) (message : units)
| EEndFor (owner : Controller) (reason : option EndReason) (message : units)
| EEndDevice (device : Device) (message : units)
| EClose
| ETimer (timer : nat).

Definition hub_step (t : HubTurn) (e : HubEvent) (h : Hub) : Hub :=
  match e with
  | EBegin request owner target cwd => begin t request owner target cwd h
  | EBeginHosted request owner target cwd device claim => beginHosted t request owner target cwd device claim h
  | EStatusRead task read => status_read o t task read h
  | EAttemptReleased a => attempt_released o t a h
  | EAttemptLocked a outcome => attempt_locked a outcome h
  | EAttemptPostures a hinged => attempt_postures a hinged h
  | EAttemptNext a => attempt_next o t a h
  | EAttemptSimulator a simulator => attempt_simulator o t a simulator h
  | EAttemptOver task => attempt_over task h
  | EBeginResumes task => begin_resumes o t task h
  | ERenewed task outcome => renewed task outcome h
  | EReleaseGoesOn task => release_goes_on task h
  | EUnlocked task => unlocked task h
  | EStatusChanged c payload => statusChanged o t c payload h
  | EHelperFailed c message => helper_failed c message h
  | EEndAllRuns task => end_all_runs t task h
  | EInput request owner id command participant => input t request owner id command participant h
  | ERelease owner id participant => release t owner id participant h
  | EDeviceKeyboard owner id enabled => deviceKeyboard owner id enabled h
  | ESimulatorOver task outcome => simulator_over task outcome h
  | EFoldGoesOn task outcome => fold_goes_on t task outcome h
  | EAdbGoesOn task outcome => adb_goes_on task outcome h
  | EClipGoesOn task outcome => clip_goes_on t task outcome h
  | EEndById owner id message => fst (endById t owner id message h)
  | EEndFor owner reason message => endFor t owner reason message h
  | EEndDevice device message => endDevice t device message h
  | EClose => close t h
  | ETimer timer => timer_fires t timer h
  end.

(** The hubs that steps lead to. *)
Inductive hub_reached : Hub → Prop :=
| hub_starts : hub_reached new_ControlHub
| hub_steps h t e : hub_reached h → hub_reached (hub_step t e h).
End Input.
