(* ===== verification/ControlCore.v ===== *)
(** * What the control sessions of a machine are, without the machine

    [Core] is an abstract machine of what [ControlHub] promises: which device has an open control, who is in a session on
    it, who holds its pointer, which openings, waiting clients and releases are under way, and the calls that matter to a
    device and its lease. [core_step] is one move of it; what holds of every reachable state is proved here by induction
    on the moves, and [ControlHubFacts] shows that a step of the hub is a run of moves. *)

From Stdlib Require Import ZArith Lia.
From S2P Require Import Prelude.
From S2P Require Import Bytes.
From S2P Require Import ControlInput.
Open Scope nat_scope.

(** ** State *)

(** [taken] is whether the hub took the lease and [leased] whether the platform has leases to release; [renewing] is the
    last renewal of the lease; [holder] is the participant that holds the pointer and its session. *)
Record CControl := {
  kc_key : units;
  kc_attempt : nat;
  kc_taken : bool;
  kc_leased : bool;
  kc_renewing : option nat;
  kc_closed : bool;
  kc_sessions : list nat;
  kc_holder : option (units * nat);
}.

Definition kc_mine (d : CControl) : bool := kc_taken d && kc_leased d.

(** [mine] is whether it holds a lease the hub took; [done] is the control it opened, or that it opened none. *)
Record CAttempt := { ka_key : units; ka_mine : bool; ka_done : option (option nat) }.

(** A client that waits for an attempt, its own or another's, or goes on with its outcome; a lease that is renewed, or to
    release once that renewal is over. *)
Inductive KTask :=
| KAttempt (a : nat) (creator : bool)
| KOpened (opened : option nat)
| KRenew (c : nat)
| KRelease (c : nat) (renewing : option nat) (unlocking : bool).

(** The calls on the input of a device, a touch for nobody among them, which no move makes, and on its clipboard and its
    lease; a renewal is over with a lease or without. *)
Inductive Call :=
| COpened (c : nat)
| CTouch (c : nat) (id : units) (phase : TouchPhase)
| CSent (c : nat)
| CStray (c : nat)
| CClip (c : nat)
| CDetached (c : nat)
| CGranted (a : nat)
| CRenews (a : nat)
| CRenewed (a : nat) (granted : bool)
| CUnlocked (a : nat).
#[export] Instance Call_eq_dec : EqDecision Call.
Proof. solve_decision. Defined.

(** A session is its control and whether it ended. *)
Record Core := {
  k_sessions : list nat;
  k_session : gmap nat (nat * bool);
  k_controls : gmap nat CControl;
  k_byDevice : gmap units nat;
  k_opening : gmap units nat;
  k_attempts : gmap nat CAttempt;
  k_tasks : gmap nat KTask;
  k_fresh : nat;
  k_next : nat;
  k_calls : list Call;
}.

Definition core_init : Core :=
  {| k_sessions := []; k_session := ∅; k_controls := ∅; k_byDevice := ∅; k_opening := ∅; k_attempts := ∅; k_tasks := ∅;
     k_fresh := 0; k_next := 1; k_calls := [] |}.

Section AssignCore.
Variable k : Core.

Definition put_sessions (v : list nat) : Core :=
  {| k_sessions := v; k_session := k_session k; k_controls := k_controls k; k_byDevice := k_byDevice k;
     k_opening := k_opening k; k_attempts := k_attempts k; k_tasks := k_tasks k; k_fresh := k_fresh k;
     k_next := k_next k; k_calls := k_calls k |}.
Definition put_session (v : gmap nat (nat * bool)) : Core :=
  {| k_sessions := k_sessions k; k_session := v; k_controls := k_controls k; k_byDevice := k_byDevice k;
     k_opening := k_opening k; k_attempts := k_attempts k; k_tasks := k_tasks k; k_fresh := k_fresh k;
     k_next := k_next k; k_calls := k_calls k |}.
Definition put_controls (v : gmap nat CControl) : Core :=
  {| k_sessions := k_sessions k; k_session := k_session k; k_controls := v; k_byDevice := k_byDevice k;
     k_opening := k_opening k; k_attempts := k_attempts k; k_tasks := k_tasks k; k_fresh := k_fresh k;
     k_next := k_next k; k_calls := k_calls k |}.
Definition put_byDevice (v : gmap units nat) : Core :=
  {| k_sessions := k_sessions k; k_session := k_session k; k_controls := k_controls k; k_byDevice := v;
     k_opening := k_opening k; k_attempts := k_attempts k; k_tasks := k_tasks k; k_fresh := k_fresh k;
     k_next := k_next k; k_calls := k_calls k |}.
Definition put_opening (v : gmap units nat) : Core :=
  {| k_sessions := k_sessions k; k_session := k_session k; k_controls := k_controls k; k_byDevice := k_byDevice k;
     k_opening := v; k_attempts := k_attempts k; k_tasks := k_tasks k; k_fresh := k_fresh k; k_next := k_next k;
     k_calls := k_calls k |}.
Definition put_attempts (v : gmap nat CAttempt) : Core :=
  {| k_sessions := k_sessions k; k_session := k_session k; k_controls := k_controls k; k_byDevice := k_byDevice k;
     k_opening := k_opening k; k_attempts := v; k_tasks := k_tasks k; k_fresh := k_fresh k; k_next := k_next k;
     k_calls := k_calls k |}.
Definition put_tasks (v : gmap nat KTask) : Core :=
  {| k_sessions := k_sessions k; k_session := k_session k; k_controls := k_controls k; k_byDevice := k_byDevice k;
     k_opening := k_opening k; k_attempts := k_attempts k; k_tasks := v; k_fresh := k_fresh k; k_next := k_next k;
     k_calls := k_calls k |}.
Definition put_fresh (v : nat) : Core :=
  {| k_sessions := k_sessions k; k_session := k_session k; k_controls := k_controls k; k_byDevice := k_byDevice k;
     k_opening := k_opening k; k_attempts := k_attempts k; k_tasks := k_tasks k; k_fresh := v; k_next := k_next k;
     k_calls := k_calls k |}.
Definition put_next (v : nat) : Core :=
  {| k_sessions := k_sessions k; k_session := k_session k; k_controls := k_controls k; k_byDevice := k_byDevice k;
     k_opening := k_opening k; k_attempts := k_attempts k; k_tasks := k_tasks k; k_fresh := k_fresh k; k_next := v;
     k_calls := k_calls k |}.
Definition put_calls (v : list Call) : Core :=
  {| k_sessions := k_sessions k; k_session := k_session k; k_controls := k_controls k; k_byDevice := k_byDevice k;
     k_opening := k_opening k; k_attempts := k_attempts k; k_tasks := k_tasks k; k_fresh := k_fresh k;
     k_next := k_next k; k_calls := v |}.
End AssignCore.
Definition call (l : list Call) (k : Core) : Core := put_calls k (k_calls k ++ l).
Definition put_control (c : nat) (d : CControl) (k : Core) : Core := put_controls k (<[c := d]> (k_controls k)).
Definition put_attempt (a : nat) (at_ : CAttempt) (k : Core) : Core := put_attempts k (<[a := at_]> (k_attempts k)).
Definition put_ktask (t : nat) (task : KTask) (k : Core) : Core := put_tasks k (<[t := task]> (k_tasks k)).
Definition drop_ktask (t : nat) (k : Core) : Core := put_tasks k (delete t (k_tasks k)).

Definition with_holder (holder : option (units * nat)) (d : CControl) : CControl :=
  {| kc_key := kc_key d; kc_attempt := kc_attempt d; kc_taken := kc_taken d; kc_leased := kc_leased d; kc_renewing := kc_renewing d;
     kc_closed := kc_closed d; kc_sessions := kc_sessions d; kc_holder := holder |}.
Definition with_sessions (sessions : list nat) (d : CControl) : CControl :=
  {| kc_key := kc_key d; kc_attempt := kc_attempt d; kc_taken := kc_taken d; kc_leased := kc_leased d; kc_renewing := kc_renewing d;
     kc_closed := kc_closed d; kc_sessions := sessions; kc_holder := kc_holder d |}.
Definition as_closed (d : CControl) : CControl :=
  {| kc_key := kc_key d; kc_attempt := kc_attempt d; kc_taken := kc_taken d; kc_leased := kc_leased d; kc_renewing := kc_renewing d;
     kc_closed := true; kc_sessions := kc_sessions d; kc_holder := kc_holder d |}.
Definition with_renewing (renewing : option nat) (d : CControl) : CControl :=
  {| kc_key := kc_key d; kc_attempt := kc_attempt d; kc_taken := kc_taken d; kc_leased := kc_leased d; kc_renewing := renewing;
     kc_closed := kc_closed d; kc_sessions := kc_sessions d; kc_holder := kc_holder d |}.
Definition new_control (key : units) (a : nat) (taken leased : bool) : CControl :=
  {| kc_key := key; kc_attempt := a; kc_taken := taken; kc_leased := leased; kc_renewing := None; kc_closed := false;
     kc_sessions := []; kc_holder := None |}.
Definition as_done (opened : option nat) (at_ : CAttempt) : CAttempt :=
  {| ka_key := ka_key at_; ka_mine := false; ka_done := Some opened |}.

Definition without (n : nat) (l : list nat) : list nat := base.filter (.≠ n) l.

(** A session leaves its control. *)
Definition end_core (n c : nat) (d : CControl) (k : Core) : Core :=
  put_control c (with_sessions (without n (kc_sessions d)) d)
    (put_sessions (put_session k (<[n := (c, true)]> (k_session k))) (without n (k_sessions k))).

(** A control closes, and its lease waits to be released where it has one. *)
Definition close_core (c : nat) (d : CControl) (k : Core) : Core :=
  put_fresh (put_tasks
    (call [CDetached c] (put_byDevice (put_control c (as_closed d) k) (delete (kc_key d) (k_byDevice k))))
    (if kc_taken d then <[k_fresh k := KRelease c (kc_renewing d) false]> (k_tasks k) else k_tasks k))
    (if kc_taken d then S (k_fresh k) else k_fresh k).

(** ** The moves *)

(** What the pointer does with a touch: a [down] takes it unless another holds it, the rest is the holder's. *)
Inductive pointer_moves (id : units) (n : nat) : TouchPhase → option (units * nat) → option (units * nat) → Prop :=
| pm_takes : pointer_moves id n Down None (Some (id, n))
| pm_again n' : pointer_moves id n Down (Some (id, n')) (Some (id, n))
| pm_move n' : pointer_moves id n Move (Some (id, n')) (Some (id, n'))
| pm_up n' : pointer_moves id n Up (Some (id, n')) None.

(** A client waits for something that is there. *)
Definition waits_for (k : Core) (w : KTask) : Prop :=
  match w with
  | KAttempt a creator => creator = false ∧ is_Some (k_attempts k !! a)
  | KOpened (Some c) => is_Some (k_controls k !! c)
  | KOpened None => True
  | KRenew _ | KRelease _ _ _ => False
  end.

(** A client that goes leaves no control behind that nobody uses. *)
Definition may_go (k : Core) (w : KTask) : Prop :=
  match w with
  | KAttempt _ creator => creator = false
  | KOpened None => True
  | KOpened (Some c) => ∃ d, k_controls k !! c = Some d ∧ (kc_closed d = true ∨ kc_sessions d ≠ [])
  | KRenew _ | KRelease _ _ _ => False
  end.

Inductive core_step (k : Core) : Core → Prop :=
| ks_id : core_step k (put_fresh k (S (k_fresh k)))
| ks_wait w :
    waits_for k w →
    core_step k (put_fresh (put_ktask (k_fresh k) w k) (S (k_fresh k)))
| ks_try key :
    k_byDevice k !! key = None → k_opening k !! key = None →
    let a := k_fresh k in
    core_step k (put_fresh (put_ktask (S a) (KAttempt a true)
      (put_opening (put_attempt a {| ka_key := key; ka_mine := false; ka_done := None |} k) (<[key := a]> (k_opening k))))
      (S (S a)))
| ks_grant a at_ :
    k_attempts k !! a = Some at_ → ka_done at_ = None → ka_mine at_ = false →
    core_step k (call [CGranted a] (put_attempt a {| ka_key := ka_key at_; ka_mine := true; ka_done := None |} k))
| ks_open a at_ taken leased :
    k_attempts k !! a = Some at_ → ka_done at_ = None → ka_mine at_ = taken && leased →
    let c := k_fresh k in
    core_step k (call [COpened c] (put_fresh (put_byDevice
      (put_control c (new_control (ka_key at_) a taken leased) (put_attempt a (as_done (Some c) at_) k))
      (<[ka_key at_ := c]> (k_byDevice k))) (S c)))
| ks_fail a at_ :
    k_attempts k !! a = Some at_ → ka_done at_ = None →
    core_step k (call (if ka_mine at_ then [CUnlocked a] else []) (put_attempt a (as_done None at_) k))
| ks_over t a creator at_ opened :
    k_tasks k !! t = Some (KAttempt a creator) → k_attempts k !! a = Some at_ → ka_done at_ = Some opened →
    core_step k (put_ktask t (KOpened opened)
      (put_opening k (if creator && bool_decide (k_opening k !! ka_key at_ = Some a)
                      then delete (ka_key at_) (k_opening k) else k_opening k)))
| ks_go t w :
    k_tasks k !! t = Some w → may_go k w → core_step k (drop_ktask t k)
| ks_join c d :
    k_controls k !! c = Some d → kc_closed d = false →
    let n := k_next k in
    core_step k (put_next (put_control c (with_sessions (kc_sessions d ++ [n]) d)
      (put_sessions (put_session k (<[n := (c, false)]> (k_session k))) (k_sessions k ++ [n]))) (S n))
| ks_touch c d id n phase holder :
    k_controls k !! c = Some d → kc_closed d = false → n ∈ kc_sessions d → pointer_moves id n phase (kc_holder d) holder →
    core_step k (call [CTouch c id phase] (put_control c (with_holder holder d) k))
| ks_send c d :
    k_controls k !! c = Some d → kc_closed d = false → core_step k (call [CSent c] k)
| ks_end n c d :
    k_session k !! n = Some (c, false) → k_controls k !! c = Some d → (∀ id, kc_holder d ≠ Some (id, n)) →
    without n (kc_sessions d) ≠ [] → core_step k (end_core n c d k)
| ks_last n c d :
    k_session k !! n = Some (c, false) → k_controls k !! c = Some d → (∀ id, kc_holder d ≠ Some (id, n)) →
    kc_closed d = false → without n (kc_sessions d) = [] →
    core_step k (close_core c (with_sessions (without n (kc_sessions d)) d) (end_core n c d k))
| ks_close c d :
    k_controls k !! c = Some d → kc_closed d = false → kc_sessions d = [] → core_step k (close_core c d k)
| ks_clip c :
    is_Some (k_controls k !! c) → core_step k (call [CClip c] k)
| ks_renew c d :
    k_controls k !! c = Some d → kc_closed d = false → kc_taken d = true →
    let t := k_fresh k in
    core_step k (call [CRenews (kc_attempt d)]
      (put_fresh (put_ktask t (KRenew c) (put_control c (with_renewing (Some t) d) k)) (S t)))
| ks_renewed t c d granted :
    k_tasks k !! t = Some (KRenew c) → k_controls k !! c = Some d → (granted = true → kc_leased d = true) →
    core_step k (call [CRenewed (kc_attempt d) granted] (drop_ktask t k))
| ks_unlock t c d renewing :
    k_tasks k !! t = Some (KRelease c renewing false) → k_controls k !! c = Some d →
    (∀ t', renewing = Some t' → k_tasks k !! t' = None) →
    core_step k (call (if kc_mine d then [CUnlocked (kc_attempt d)] else []) (put_ktask t (KRelease c renewing true) k))
| ks_released t c renewing :
    k_tasks k !! t = Some (KRelease c renewing true) → core_step k (drop_ktask t k).

Definition core_steps : Core → Core → Prop := rtc core_step.

(** ** Invariants *)

Record fresh_ok (k : Core) : Prop := {
  fr_controls c d : k_controls k !! c = Some d → c < k_fresh k;
  fr_attempts a at_ : k_attempts k !! a = Some at_ → a < k_fresh k;
  fr_tasks t w : k_tasks k !! t = Some w → t < k_fresh k;
  fr_sessions n s : k_session k !! n = Some s → n < k_next k;
}.

(** The devices that have a control are those with an open one, and it is the only one. *)
Definition devices_ok (k : Core) : Prop :=
  ∀ key c, k_byDevice k !! key = Some c ↔ ∃ d, k_controls k !! c = Some d ∧ kc_key d = key ∧ kc_closed d = false.

(** A control that is being opened is the only one for its device, and its client waits for it. *)
Record attempts_ok (k : Core) : Prop := {
  at_only a at_ : k_attempts k !! a = Some at_ → ka_done at_ = None →
    k_opening k !! ka_key at_ = Some a ∧ k_byDevice k !! ka_key at_ = None;
  at_waited a at_ : k_attempts k !! a = Some at_ → ka_done at_ = None → ∃ t, k_tasks k !! t = Some (KAttempt a true);
  at_there key a : k_opening k !! key = Some a → ∃ at_, k_attempts k !! a = Some at_ ∧ ka_key at_ = key;
  at_done a at_ : k_attempts k !! a = Some at_ → ka_done at_ ≠ None → ka_mine at_ = false;
  at_control c d : k_controls k !! c = Some d →
    ∃ at_, k_attempts k !! kc_attempt d = Some at_ ∧ ka_done at_ = Some (Some c) ∧ ka_key at_ = kc_key d;
  at_opened a at_ c : k_attempts k !! a = Some at_ → ka_done at_ = Some (Some c) → is_Some (k_controls k !! c);
}.

(** A session that has not ended is on an open control that knows it, and the other way round. *)
Record sessions_ok (k : Core) : Prop := {
  ss_live n : n ∈ k_sessions k ↔ ∃ c, k_session k !! n = Some (c, false);
  ss_known n c : k_session k !! n = Some (c, false) → ∃ d, k_controls k !! c = Some d ∧ n ∈ kc_sessions d;
  ss_joined c d n : k_controls k !! c = Some d → n ∈ kc_sessions d →
    k_session k !! n = Some (c, false) ∧ kc_closed d = false;
  ss_holder c d id n : k_controls k !! c = Some d → kc_holder d = Some (id, n) → n ∈ kc_sessions d;
}.

(** A client that goes on with a control, or made the attempt that opened it. *)
Definition keeper (attempts : gmap nat CAttempt) (c : nat) (w : KTask) : Prop :=
  w = KOpened (Some c) ∨ ∃ a at_, w = KAttempt a true ∧ attempts !! a = Some at_ ∧ ka_done at_ = Some (Some c).

(** An open control without a session has a client that will use or close it. *)
Definition used_ok (k : Core) : Prop :=
  ∀ c d, k_controls k !! c = Some d → kc_closed d = false → kc_sessions d = [] →
    ∃ t w, k_tasks k !! t = Some w ∧ keeper (k_attempts k) c w.

(** What a task refers to is there; a control is released at most once at a time. *)
Record tasks_ok (k : Core) : Prop := {
  tk_attempt t a creator : k_tasks k !! t = Some (KAttempt a creator) → is_Some (k_attempts k !! a);
  tk_opened t c : k_tasks k !! t = Some (KOpened (Some c)) → is_Some (k_controls k !! c);
  tk_renew t c : k_tasks k !! t = Some (KRenew c) → ∃ d, k_controls k !! c = Some d ∧ kc_taken d = true;
  tk_release t c r b : k_tasks k !! t = Some (KRelease c r b) →
    ∃ d, k_controls k !! c = Some d ∧ kc_closed d = true ∧ kc_taken d = true ∧ kc_renewing d = r;
  tk_one t t' c r r' b b' :
    k_tasks k !! t = Some (KRelease c r b) → k_tasks k !! t' = Some (KRelease c r' b') → t = t';
}.

(** Takes lookups in updated maps apart. *)
Ltac lookups :=
  repeat first
    [ progress simplify_eq/=
    | match goal with
      | H : <[_ := _]> _ !! _ = Some _ |- _ => apply lookup_insert_Some in H as [[? ?]|[? ?]]
      | H : delete _ _ !! _ = Some _ |- _ => apply lookup_delete_Some in H as [? ?]
      end ].

Ltac moves Hstep :=
  destruct Hstep as
    [ | w Hw | key Hnodev Hnoop a | a at_ Ha Hun Hnm | a at_ taken leased Ha Hun Htk0 c | a at_ Ha Hun | t a creator at_ opened Ht Ha Hdone
    | t w Ht Hgo | c d Hc Hopen n | c d id n phase holder Hc Hopen Hn Hmove | c d Hc Hopen | n c d Hs Hc Hnh Hrest
    | n c d Hs Hc Hnh Hopen Hlast | c d Hc Hopen Hnone | c Hc | c d Hc Hopen Htaken tr | t c d granted Ht Hc Hg
    | t c d renewing Ht Hc Hset | t c renewing Ht ].

Lemma fresh_step k k' : core_step k k' → fresh_ok k → fresh_ok k'.
Proof.
  intros Hstep [Fc Fa Ft Fs]. moves Hstep; split; intros; cbn in *; try (destruct (kc_taken d) eqn:Etk); lookups;
    try match goal with H : k_controls k !! _ = Some _ |- _ => apply Fc in H end;
    try match goal with H : k_attempts k !! _ = Some _ |- _ => apply Fa in H end;
    try match goal with H : k_tasks k !! _ = Some _ |- _ => apply Ft in H end;
    try match goal with H : k_session k !! _ = Some _ |- _ => apply Fs in H end; lia.
Qed.

(** A control that keeps its device and stays open or closed changes no device. *)
Lemma devices_put c d d' k byDevice :
  devices_ok k → k_controls k !! c = Some d → kc_key d' = kc_key d → kc_closed d' = kc_closed d →
  byDevice = k_byDevice k →
  ∀ key c0, byDevice !! key = Some c0 ↔
    ∃ d0, <[c := d']> (k_controls k) !! c0 = Some d0 ∧ kc_key d0 = key ∧ kc_closed d0 = false.
Proof.
  intros Hdev Hc Hk Hcl -> key c0. rewrite (Hdev key c0). destruct (decide (c = c0)) as [->|Hne].
  - rewrite lookup_insert_eq. split; intros (d0 & ? & ? & ?); simplify_eq; eexists; split_and!; eauto; congruence.
  - by rewrite lookup_insert_ne.
Qed.

Lemma devices_close c d k :
  devices_ok k → k_controls k !! c = Some d → kc_closed d = false → devices_ok (close_core c d k).
Proof.
  intros Hdev Hc Hopen key c0. cbn. destruct (decide (c = c0)) as [<-|Hne].
  - rewrite lookup_insert_eq. split; [|intros (d0 & ? & _ & ?); by simplify_eq].
    intros [Hk Hb]%lookup_delete_Some. apply Hdev in Hb as (d0 & ? & ? & _). by simplify_eq.
  - rewrite lookup_insert_ne by done. rewrite <-(Hdev key c0). split; [by intros [? ?]%lookup_delete_Some|].
    intros Hb. apply lookup_delete_Some. split; [|done]. intros <-.
    assert (k_byDevice k !! kc_key d = Some c) by (apply Hdev; eauto). congruence.
Qed.

Lemma devices_step k k' : core_step k k' → fresh_ok k → attempts_ok k → devices_ok k → devices_ok k'.
Proof.
  intros Hstep Hfr Hat Hdev. moves Hstep; try exact Hdev;
    try (by refine (devices_put _ _ _ _ _ Hdev Hc _ _ _)).
  - destruct (at_only k Hat a at_ Ha Hun) as [_ Hnone]. intros key c0. subst c. cbn.
    destruct (decide (k_fresh k = c0)) as [<-|Hne].
    + rewrite lookup_insert_eq. split.
      * intros [[<- _]|[_ Hk]]%lookup_insert_Some; [eauto|]. apply Hdev in Hk as (d & Hd & _).
        apply (fr_controls k Hfr) in Hd. lia.
      * intros (d & Hd & <- & _). simplify_eq. cbn. by rewrite lookup_insert_eq.
    + rewrite (lookup_insert_ne (k_controls k)) by done. rewrite <-(Hdev key c0). split.
      * by intros [[_ <-]|[_ Hk]]%lookup_insert_Some.
      * intros Hk. rewrite lookup_insert_ne; [done|]. congruence.
  - apply devices_close; [|by cbn; rewrite lookup_insert_eq|done].
    by refine (devices_put _ _ _ _ _ Hdev Hc _ _ _).
  - by apply devices_close.
Qed.

Lemma only_step k k' : core_step k k' → fresh_ok k → attempts_ok k →
  ∀ a at_, k_attempts k' !! a = Some at_ → ka_done at_ = None →
    k_opening k' !! ka_key at_ = Some a ∧ k_byDevice k' !! ka_key at_ = None.
Proof.
  intros Hstep Hfr Hat a0 at0 Ha0 Hun0. pose proof (at_only k Hat) as Honly.
  moves Hstep; cbn in *; try (by apply Honly); lookups; try (by apply Honly).
  - by rewrite lookup_insert_eq.
  - assert (ka_key at0 ≠ key) as Hk by (intros <-; destruct (Honly a0 at0); congruence).
    rewrite lookup_insert_ne by done. by apply Honly.
  - destruct (Honly a at_ Ha Hun) as [Hop _]. destruct (Honly a0 at0) as [Hop0 Hnone0]; [done..|].
    split; [done|]. rewrite lookup_insert_ne; [done|]. congruence.
  - destruct (Honly a0 at0 Ha0 Hun0) as [Hop0 Hnone0]. split; [|done].
    destruct (creator && _) eqn:Eb; [|done]. apply andb_prop in Eb as [_ Eb%bool_decide_eq_true].
    apply lookup_delete_Some. split; [|done]. intros Hk. rewrite Hk in Eb. simplify_eq.
  - destruct (Honly a0 at0 Ha0 Hun0) as [Hop0 Hnone0]. split; [done|]. by apply lookup_delete_None; right.
  - destruct (Honly a0 at0 Ha0 Hun0) as [Hop0 Hnone0]. split; [done|]. by apply lookup_delete_None; right.
Qed.

Lemma waited_step k k' : core_step k k' → fresh_ok k → attempts_ok k →
  ∀ a at_, k_attempts k' !! a = Some at_ → ka_done at_ = None → ∃ t, k_tasks k' !! t = Some (KAttempt a true).
Proof.
  intros Hstep Hfr Hat a0 at0 Ha0 Hun0. pose proof (at_waited k Hat) as Hwait.
  assert (∀ t, k_tasks k !! t = Some (KAttempt a0 true) → t ≠ k_fresh k ∧ t ≠ S (k_fresh k)) as Hne.
  { intros t Ht%(fr_tasks k Hfr). lia. }
  moves Hstep; cbn in *; lookups; try (by eapply Hwait);
    try (destruct (Hwait a0 at0) as [t0 Ht0]; [done..|]; destruct (Hne t0 Ht0) as [Hne1 Hne2]).
  - exists t0. by rewrite lookup_insert_ne.
  - eexists. apply lookup_insert_eq.
  - exists t0. by rewrite lookup_insert_ne.
  - exists t0. rewrite lookup_insert_ne; [done|]. intros <-. congruence.
  - exists t0. rewrite lookup_delete_ne; [done|]. intros <-. by simplify_eq.
  - exists t0. destruct (kc_taken d); [by rewrite lookup_insert_ne|done].
  - exists t0. destruct (kc_taken d); [by rewrite lookup_insert_ne|done].
  - exists t0. by rewrite lookup_insert_ne.
  - exists t0. rewrite lookup_delete_ne; [done|]. congruence.
  - exists t0. rewrite lookup_insert_ne; [done|]. congruence.
  - exists t0. rewrite lookup_delete_ne; [done|]. congruence.
Qed.

Lemma there_step k k' : core_step k k' → fresh_ok k → attempts_ok k →
  ∀ key a, k_opening k' !! key = Some a → ∃ at_, k_attempts k' !! a = Some at_ ∧ ka_key at_ = key.
Proof.
  intros Hstep Hfr Hat key0 a0 H0. pose proof (at_there k Hat) as Hthere.
  assert (∀ a at_ at', k_attempts k !! a = Some at_ → ka_key at' = ka_key at_ → k_opening k !! key0 = Some a0 →
    ∃ at0, <[a := at']> (k_attempts k) !! a0 = Some at0 ∧ ka_key at0 = key0) as Hput.
  { intros a at_ at' Ha Hk (at0 & Hat0 & <-)%Hthere. destruct (decide (a = a0)) as [->|Hn].
    - rewrite lookup_insert_eq. simplify_eq. eauto.
    - rewrite lookup_insert_ne by done. eauto. }
  moves Hstep; cbn in *; try (by apply Hthere); try (by eapply Hput).
  - apply lookup_insert_Some in H0 as [[<- <-]|[Hk H0]]; [rewrite lookup_insert_eq; eauto|].
    destruct (Hthere _ _ H0) as (at0 & Hat0 & Hk0). rewrite lookup_insert_ne; [eauto|].
    apply (fr_attempts k Hfr) in Hat0. subst a. lia.
  - destruct (creator && _); [apply lookup_delete_Some in H0 as [_ H0]|]; by apply Hthere.
Qed.

Lemma control_step k k' : core_step k k' → fresh_ok k → attempts_ok k →
  ∀ c d, k_controls k' !! c = Some d →
    ∃ at_, k_attempts k' !! kc_attempt d = Some at_ ∧ ka_done at_ = Some (Some c) ∧ ka_key at_ = kc_key d.
Proof.
  intros Hstep Hfr Hat c0 d0 H0. pose proof (at_control k Hat) as Hctl.
  moves Hstep; cbn in *; lookups; try (by apply Hctl); try (by apply (Hctl _ _ Hc));
    try (destruct (Hctl c0 d0) as (at0 & Hat0 & Hdone0 & Hk0); [done|]).
  - exists at0. rewrite lookup_insert_ne; [done|]. apply (fr_attempts k Hfr) in Hat0. subst a. lia.
  - exists at0. rewrite lookup_insert_ne; [done|]. intros ->. congruence.
  - eexists. rewrite lookup_insert_eq. eauto.
  - exists at0. rewrite lookup_insert_ne; [done|]. intros ->. congruence.
  - exists at0. rewrite lookup_insert_ne; [done|]. intros ->. congruence.
Qed.

Lemma opened_step k k' : core_step k k' → fresh_ok k → attempts_ok k →
  (∀ a at_, k_attempts k' !! a = Some at_ → ka_done at_ ≠ None → ka_mine at_ = false) ∧
  (∀ a at_ c, k_attempts k' !! a = Some at_ → ka_done at_ = Some (Some c) → is_Some (k_controls k' !! c)).
Proof.
  intros Hstep Hfr Hat. pose proof (at_done k Hat) as Hdn. pose proof (at_opened k Hat) as Hop.
  moves Hstep; cbn in *; split; intros; lookups; rewrite ?lookup_insert_is_Some'; eauto.
Qed.

Lemma attempts_step k k' : core_step k k' → fresh_ok k → attempts_ok k → attempts_ok k'.
Proof.
  intros Hstep Hfr Hat. destruct (opened_step k k' Hstep Hfr Hat) as [Hdn Hop].
  split; [by apply (only_step k)|by apply (waited_step k)|by apply (there_step k)|done|by apply (control_step k)|done].
Qed.

Lemma left_without n m l : m ∈ without n l ↔ m ≠ n ∧ m ∈ l.
Proof. unfold without. by rewrite list_elem_of_filter. Qed.

(** A control whose sessions stay changes no session. *)
Lemma sessions_put c d d' k k' :
  sessions_ok k → k_controls k !! c = Some d → k_controls k' = <[c := d']> (k_controls k) →
  k_sessions k' = k_sessions k → k_session k' = k_session k →
  kc_sessions d' = kc_sessions d → (kc_closed d' = kc_closed d ∨ kc_sessions d = []) →
  (∀ id n, kc_holder d' = Some (id, n) → n ∈ kc_sessions d) → sessions_ok k'.
Proof.
  intros [Hl Hkn Hj Hh] Hc Hcs Hs Hss Hds Hcl Hho. split; rewrite ?Hs, ?Hss, ?Hcs.
  - done.
  - intros n c0 (d0 & Hd0 & Hn)%Hkn. destruct (decide (c = c0)) as [->|Hne].
    + rewrite lookup_insert_eq. eexists. split; [done|]. simplify_eq. by rewrite Hds.
    + rewrite lookup_insert_ne by done. eauto.
  - intros c0 d0 n Hd0 Hn. lookups; [|by apply Hj]. rewrite Hds in Hn.
    destruct (Hj _ _ _ Hc Hn) as [Hsn Hopen]. split; [done|]. destruct Hcl as [->|He]; [done|].
    rewrite He in Hn. by apply not_elem_of_nil in Hn.
  - intros c0 d0 id n Hd0 Hn. lookups; [|by eapply Hh]. rewrite Hds. by eapply Hho.
Qed.

Lemma pointer_holder id n phase holder holder' id' n' :
  pointer_moves id n phase holder holder' → holder' = Some (id', n') → n' = n ∨ holder = Some (id', n').
Proof. intros []; naive_solver. Qed.

Lemma sessions_same k k' :
  k_sessions k' = k_sessions k → k_session k' = k_session k → k_controls k' = k_controls k →
  sessions_ok k → sessions_ok k'.
Proof. intros H1 H2 H3 [Hl Hkn Hj Hh]. split; rewrite ?H1, ?H2, ?H3; done. Qed.

Lemma sessions_open c d k k' :
  sessions_ok k → k_controls k !! c = None → k_controls k' = <[c := d]> (k_controls k) →
  k_sessions k' = k_sessions k → k_session k' = k_session k → kc_sessions d = [] → kc_holder d = None → sessions_ok k'.
Proof.
  intros [Hl Hkn Hj Hh] Hc Hcs Hs Hss Hds Hho. split; rewrite ?Hs, ?Hss, ?Hcs.
  - done.
  - intros n c0 (d0 & Hd0 & Hn)%Hkn. rewrite lookup_insert_ne by congruence. eauto.
  - intros c0 d0 n Hd0 Hn. lookups; [|by apply Hj]. rewrite Hds in Hn. by apply not_elem_of_nil in Hn.
  - intros c0 d0 id n Hd0 Hn. lookups. by eapply Hh.
Qed.

Lemma sessions_join k c d :
  fresh_ok k → sessions_ok k → k_controls k !! c = Some d → kc_closed d = false →
  sessions_ok (put_next (put_control c (with_sessions (kc_sessions d ++ [k_next k]) d)
      (put_sessions (put_session k (<[k_next k := (c, false)]> (k_session k))) (k_sessions k ++ [k_next k]))) (S (k_next k))).
Proof.
  intros Hfr [Hl Hkn Hj Hh] Hc Hopen.
  assert (∀ n s, k_session k !! n = Some s → n ≠ k_next k) as Hne by (intros n s Hs%(fr_sessions k Hfr); lia).
  split; cbn.
  - intros n. rewrite elem_of_app, list_elem_of_singleton, Hl. split.
    + intros [[c0 Hs]| ->]; [|rewrite lookup_insert_eq; eauto]. exists c0. rewrite lookup_insert_ne; [done|].
      apply not_eq_sym. by eapply Hne.
    + intros [c0 [[<- _]|[_ Hs]]%lookup_insert_Some]; [by right|left; eauto].
  - intros n c0 [[<- [= <-]]|[Hn Hs]]%lookup_insert_Some.
    + rewrite lookup_insert_eq. eexists. split; [done|]. cbn. set_solver.
    + destruct (Hkn n c0 Hs) as (d0 & Hd0 & Hin). destruct (decide (c = c0)) as [->|Hcc].
      * rewrite lookup_insert_eq. eexists. split; [done|]. simplify_eq. cbn. set_solver.
      * rewrite lookup_insert_ne by done. eauto.
  - intros c0 d0 n [[<- <-]|[Hcc Hd0]]%lookup_insert_Some Hn; cbn in *.
    + apply elem_of_app in Hn as [Hn| ->%list_elem_of_singleton]; [|by rewrite lookup_insert_eq].
      destruct (Hj _ _ _ Hc Hn) as [Hs _]. rewrite lookup_insert_ne; [done|]. apply not_eq_sym. by eapply Hne.
    + destruct (Hj _ _ _ Hd0 Hn) as [Hs Ho]. rewrite lookup_insert_ne; [done|]. apply not_eq_sym. by eapply Hne.
  - intros c0 d0 id n [[<- <-]|[Hcc Hd0]]%lookup_insert_Some Hn; cbn in *; [|by eapply Hh].
    apply elem_of_app. left. by eapply Hh.
Qed.

Lemma sessions_end k n c d :
  sessions_ok k → k_session k !! n = Some (c, false) → k_controls k !! c = Some d → (∀ id, kc_holder d ≠ Some (id, n)) →
  sessions_ok (end_core n c d k).
Proof.
  intros [Hl Hkn Hj Hh] Hs Hc Hnh. split; cbn.
  - intros m. rewrite left_without, Hl. split.
    + intros [Hm [c0 Hs0]]. exists c0. by rewrite lookup_insert_ne.
    + intros [c0 [[_ ?]|[Hm Hs0]]%lookup_insert_Some]; [done|]. eauto.
  - intros m c0 [[_ ?]|[Hm Hs0]]%lookup_insert_Some; [done|]. destruct (Hkn m c0 Hs0) as (d0 & Hd0 & Hin).
    destruct (decide (c = c0)) as [->|Hcc].
    + rewrite lookup_insert_eq. eexists. split; [done|]. cbn. apply left_without. by simplify_eq.
    + rewrite lookup_insert_ne by done. eauto.
  - intros c0 d0 m [[<- <-]|[Hcc Hd0]]%lookup_insert_Some Hm; cbn in *.
    + apply left_without in Hm as [Hne Hm]. rewrite lookup_insert_ne by done. by eapply Hj.
    + destruct (Hj _ _ _ Hd0 Hm) as [Hs0 Ho]. rewrite lookup_insert_ne; [done|]. congruence.
  - intros c0 d0 id m [[<- <-]|[Hcc Hd0]]%lookup_insert_Some Hm; cbn in *; [|by eapply Hh].
    apply left_without. split; [|by eapply Hh]. intros ->. by eapply Hnh.
Qed.

Lemma sessions_close c d k :
  sessions_ok k → k_controls k !! c = Some d → kc_sessions d = [] → sessions_ok (close_core c d k).
Proof.
  intros Hok Hc Hnone. eapply (sessions_put c d _ k); try done; [by right|].
  intros id n. apply (ss_holder k Hok _ _ _ _ Hc).
Qed.

Lemma sessions_step k k' : core_step k k' → fresh_ok k → sessions_ok k → sessions_ok k'.
Proof.
  intros Hstep Hfr Hok. moves Hstep; try (by apply (sessions_same k)).
  - eapply (sessions_open c); try done. apply eq_None_not_Some. intros [d0 Hd0%(fr_controls k Hfr)]. subst c. lia.
  - by apply sessions_join.
  - eapply (sessions_put c d _ k); try done; [by left|]. cbn. intros id' n' Hh.
    destruct (pointer_holder _ _ _ _ _ _ _ Hmove Hh) as [->|Hold]; [done|]. by eapply (ss_holder k Hok).
  - by apply sessions_end.
  - apply sessions_close; [by apply sessions_end|by cbn; rewrite lookup_insert_eq|done].
  - by apply sessions_close.
  - eapply (sessions_put c d _ k); try done; [by left|]. intros id n. apply (ss_holder k Hok _ _ _ _ Hc).
Qed.

(** A closed control stays closed, and its last renewal the last; a lease that was taken stays taken. *)
Definition closed_there (m : gmap nat CControl) (c : nat) (r : option nat) : Prop :=
  ∃ d, m !! c = Some d ∧ kc_closed d = true ∧ kc_taken d = true ∧ kc_renewing d = r.
Definition taken_there (m : gmap nat CControl) (c : nat) : Prop := ∃ d, m !! c = Some d ∧ kc_taken d = true.

Lemma closed_put (m : gmap nat CControl) c d' c0 r :
  (∀ d, m !! c = Some d → kc_closed d = true →
     kc_closed d' = true ∧ kc_taken d' = kc_taken d ∧ kc_renewing d' = kc_renewing d) →
  closed_there m c0 r → closed_there (<[c := d']> m) c0 r.
Proof.
  intros Hd (d & Hc & Hcl & Ht & Hr). unfold closed_there. destruct (decide (c = c0)) as [->|].
  - rewrite lookup_insert_eq. destruct (Hd d Hc Hcl) as (? & Ht' & Hr'). rewrite Ht in Ht'. rewrite Hr in Hr'. eauto.
  - rewrite lookup_insert_ne by done. eauto.
Qed.

Lemma taken_put (m : gmap nat CControl) c d' c0 :
  (∀ d, m !! c = Some d → kc_taken d' = kc_taken d) → taken_there m c0 → taken_there (<[c := d']> m) c0.
Proof.
  intros Hd (d & Hc & Ht). unfold taken_there. destruct (decide (c = c0)) as [->|].
  - rewrite lookup_insert_eq. rewrite <-(Hd d Hc) in Ht. eauto.
  - rewrite lookup_insert_ne by done. eauto.
Qed.

Lemma tasks_step k k' : core_step k k' → fresh_ok k → attempts_ok k → sessions_ok k → tasks_ok k → tasks_ok k'.
Proof.
  intros Hstep Hfr Hat Hso [Ta To Tn Tr T1].
  assert (∀ t w, k_tasks k !! t = Some w → t ≠ k_fresh k ∧ t ≠ S (k_fresh k)) as Hne by (intros t w Ht%(fr_tasks k Hfr); lia).
  moves Hstep; split; intros; cbn in *; try (destruct (kc_taken d) eqn:Etk); lookups; rewrite ?insert_insert_eq, ?lookup_insert_eq;
    try (rewrite lookup_insert_is_Some'); eauto 3;
    try (by destruct Hw); try (by apply Hw);
    try match goal with H : k_tasks k !! k_fresh k = Some _ |- _ => by destruct (Hne _ _ H) end;
    try (eapply closed_put; [|by eapply Tr]; intros d0 Hd0 Hcl; cbn; split_and!; congruence);
    try (eapply taken_put; [|by eapply Tn]; intros d0 Hd0; cbn; congruence);
    try match goal with H : k_tasks k !! _ = Some (KRelease _ _ _) |- _ = _ => destruct (Tr _ _ _ _ H) as (? & ? & ? & ?); congruence end.
  all: try (eapply closed_put; [|by eapply Tr]; intros d0 Hd0%(fr_controls k Hfr); subst c; lia).
  all: try (eapply taken_put; [|by eapply Tn]; intros d0 Hd0%(fr_controls k Hfr); subst c; lia).
  all: try (by eapply (at_opened k Hat)).
  all: try (by eexists).
Qed.

Lemma keeper_put attempts a at_ c w :
  (∀ at0, attempts !! a = Some at0 → ka_done at0 = None) → keeper attempts c w → keeper (<[a := at_]> attempts) c w.
Proof.
  intros Hun [->|(a0 & at0 & -> & Ha0 & Hd)]; [by left|]. right. exists a0, at0. split_and!; [done| |done].
  rewrite lookup_insert_ne; [done|]. intros ->. apply Hun in Ha0. congruence.
Qed.

Lemma used_step k k' :
  core_step k k' → fresh_ok k → attempts_ok k → tasks_ok k → used_ok k → used_ok k'.
Proof.
  intros Hstep Hfr Hat Htk Hused c0 d0 Hc0 Hop0 Hn0.
  assert (∀ t w, k_tasks k !! t = Some w → t ≠ k_fresh k ∧ t ≠ S (k_fresh k)) as Hne by (intros t w Ht%(fr_tasks k Hfr); lia).
  assert (k_controls k !! c0 = Some d0 → ∃ t w, k_tasks k !! t = Some w ∧ keeper (k_attempts k) c0 w) as Hold.
  { intros Hc. by eapply Hused. }
  moves Hstep; cbn in *; lookups; try (by apply Hold); try (by apply (Hused c0 d)); try (by destruct (kc_sessions d));
    try (destruct Hold as (t0 & w0 & Ht0 & Hk0); [done|]; destruct (Hne _ _ Ht0)).
  - exists t0, w0. by rewrite lookup_insert_ne.
  - exists t0, w0. subst a. rewrite lookup_insert_ne by done. split; [done|].
    apply keeper_put; [|done]. intros at0 Ha0%(fr_attempts k Hfr). lia.
  - exists t0, w0. split; [done|]. apply keeper_put; [|done]. naive_solver.
  - destruct (at_waited k Hat a at_ Ha Hun) as [t0 Ht0]. exists t0, (KAttempt a true). split; [done|].
    right. eexists _, _. rewrite lookup_insert_eq. eauto.
  - exists t0, w0. split; [done|]. apply keeper_put; [|done]. naive_solver.
  - exists t0, w0. split; [done|]. apply keeper_put; [|done]. naive_solver.
  - destruct (decide (t = t0)) as [->|Hn]; [|exists t0, w0; by rewrite lookup_insert_ne].
    exists t0, (KOpened opened). rewrite lookup_insert_eq. split; [done|]. left. simplify_eq.
    destruct Hk0 as [?|(a1 & at1 & ? & ? & ?)]; simplify_eq. done.
  - exists t0, w0. split; [|done]. rewrite lookup_delete_ne; [done|]. intros ->. simplify_eq.
    destruct Hk0 as [->|(a1 & at1 & -> & ? & ?)]; cbn in Hgo; [|done]. destruct Hgo as (d1 & ? & [?|?]); simplify_eq; congruence.
  - exists t0, w0. destruct (kc_taken d); [by rewrite lookup_insert_ne|done].
  - exists t0, w0. destruct (kc_taken d); [by rewrite lookup_insert_ne|done].
  - destruct (Hused c0 d) as (t0 & w0 & Ht0 & Hk0); [done..|]. destruct (Hne _ _ Ht0).
    exists t0, w0. by rewrite lookup_insert_ne.
  - exists t0, w0. by rewrite lookup_insert_ne.
  - exists t0, w0. split; [|done]. rewrite lookup_delete_ne; [done|]. intros ->. simplify_eq.
    by destruct Hk0 as [?|(? & ? & ? & _)].
  - exists t0, w0. split; [|done]. rewrite lookup_insert_ne; [done|]. intros ->. simplify_eq.
    by destruct Hk0 as [?|(? & ? & ? & _)].
  - exists t0, w0. split; [|done]. rewrite lookup_delete_ne; [done|]. intros ->. simplify_eq.
    by destruct Hk0 as [?|(? & ? & ? & _)].
Qed.

(** ** The pointer of a device *)

(** The input of a control: not opened yet, open with the participant whose finger is down, detached. *)
Inductive InputState := INew | IOpen (finger : option units) | IDetached.

(** What a call does to the input of [c]; [None] where it may not be made then. *)
Definition after_call (c : nat) (st : option InputState) (e : Call) : option InputState :=
  match e with
  | COpened c' => if decide (c' = c) then match st with Some INew => Some (IOpen None) | _ => None end else st
  | CTouch c' id phase =>
      if decide (c' = c) then
        match st with
        | Some (IOpen finger) =>
            match phase with
            | Down => if decide (finger = None ∨ finger = Some id) then Some (IOpen (Some id)) else None
            | Move => if decide (finger = Some id) then Some (IOpen finger) else None
            | Up => if decide (finger = Some id) then Some (IOpen None) else None
            end
        | _ => None
        end
      else st
  | CSent c' => if decide (c' = c) then match st with Some (IOpen finger) => st | _ => None end else st
  | CDetached c' => if decide (c' = c) then match st with Some (IOpen None) => Some IDetached | _ => None end else st
  | CStray c' => if decide (c' = c) then None else st
  | CClip c' => if decide (c' = c) then match st with Some INew => None | _ => st end else st
  | CGranted _ | CRenews _ | CRenewed _ _ | CUnlocked _ => st
  end.

Definition input_state (c : nat) (calls : list Call) : option InputState := fold_left (after_call c) calls (Some INew).

Definition state_of (d : option CControl) : InputState :=
  match d with
  | None => INew
  | Some d => if kc_closed d then IDetached else IOpen (fst <$> kc_holder d)
  end.

Definition pointer_ok (k : Core) : Prop := ∀ c, input_state c (k_calls k) = Some (state_of (k_controls k !! c)).

Lemma input_state_app c l e : input_state c (l ++ [e]) = after_call c (input_state c l) e.
Proof. unfold input_state. by rewrite fold_left_app. Qed.

(** A call on another control, and a control that keeps what its input is. *)
Lemma pointer_put k k' c d e :
  pointer_ok k → k_controls k' = <[c := d]> (k_controls k) → k_calls k' = k_calls k ++ [e] →
  (∀ c0, c0 ≠ c → ∀ st, after_call c0 st e = st) →
  after_call c (Some (state_of (k_controls k !! c))) e = Some (state_of (Some d)) → pointer_ok k'.
Proof.
  intros Hok Hcs Hl Hother Hc c0. rewrite Hl, Hcs, input_state_app, (Hok c0).
  destruct (decide (c0 = c)) as [->|Hne].
  - by rewrite lookup_insert_eq.
  - rewrite lookup_insert_ne by done. by apply Hother.
Qed.

Lemma pointer_same k k' :
  pointer_ok k → (∀ c, state_of (k_controls k' !! c) = state_of (k_controls k !! c)) →
  (∀ c, input_state c (k_calls k') = input_state c (k_calls k)) → pointer_ok k'.
Proof. intros Hok Hs Hl c. by rewrite Hl, Hs, (Hok c). Qed.

Lemma state_put (m : gmap nat CControl) c d d' c0 :
  m !! c = Some d → state_of (Some d') = state_of (Some d) → state_of (<[c := d']> m !! c0) = state_of (m !! c0).
Proof.
  intros Hc Hd. destruct (decide (c = c0)) as [->|Hne]; [by rewrite lookup_insert_eq, Hd, Hc|by rewrite lookup_insert_ne].
Qed.

Lemma state_open k c d : k_controls k !! c = Some d → kc_closed d = false →
  state_of (k_controls k !! c) = IOpen (fst <$> kc_holder d).
Proof. intros -> Ho. cbn. by rewrite Ho. Qed.

Lemma pointer_moves_calls c id n phase holder holder' :
  pointer_moves id n phase holder holder' →
  after_call c (Some (IOpen (fst <$> holder))) (CTouch c id phase) = Some (IOpen (fst <$> holder')).
Proof. intros []; cbn; rewrite decide_True by done; rewrite decide_True by auto; done. Qed.

Lemma pointer_close c d k :
  sessions_ok k → pointer_ok k → k_controls k !! c = Some d → kc_closed d = false → kc_sessions d = [] →
  pointer_ok (close_core c d k).
Proof.
  intros Hso Hok Hc Hopen Hnone. eapply (pointer_put k _ c); [done..| |].
  - intros c0 Hne st. cbn. by rewrite decide_False.
  - rewrite (state_open k c d) by done. cbn. rewrite decide_True by done.
    destruct (kc_holder d) as [[id n]|] eqn:Eh; [|done].
    apply (ss_holder k Hso c d id n Hc) in Eh. rewrite Hnone in Eh. by apply not_elem_of_nil in Eh.
Qed.

Lemma pointer_end n c d k : pointer_ok k → k_controls k !! c = Some d → pointer_ok (end_core n c d k).
Proof. intros Hok Hc. apply (pointer_same k); [done| |done]. intros c0. cbn. by eapply state_put. Qed.

Lemma pointer_step k k' : core_step k k' → fresh_ok k → sessions_ok k → pointer_ok k → pointer_ok k'.
Proof.
  intros Hstep Hfr Hso Hok.
  assert (∀ e c0, (∀ st, after_call c0 st e = st) → input_state c0 (k_calls k ++ [e]) = input_state c0 (k_calls k)) as Happ.
  { intros e c0 He. by rewrite input_state_app, He. }
  moves Hstep; try exact Hok.
  - by apply (pointer_same k); [| |intros; apply Happ].
  - eapply (pointer_put k _ c); [done..| |].
    + intros c0 Hne st. cbn. by rewrite decide_False.
    + assert (k_controls k !! c = None) as ->; [|cbn; by rewrite decide_True].
      apply eq_None_not_Some. intros [d0 Hd0%(fr_controls k Hfr)]. subst c. lia.
  - apply (pointer_same k); [done..|]. intros c0. cbn. destruct (ka_mine at_); [by apply Happ|by rewrite app_nil_r].
  - apply (pointer_same k); [done| |done]. intros c0. cbn. by eapply state_put.
  - eapply (pointer_put k _ c); [done..| |].
    + intros c0 Hne st. cbn. by rewrite decide_False.
    + rewrite (state_open k c d) by done. erewrite pointer_moves_calls by done. cbn. by rewrite Hopen.
  - apply (pointer_same k); [done..|]. intros c0. unfold call. cbn [k_calls put_calls]. rewrite input_state_app. cbn.
    case_decide; [subst|done].
    rewrite (Hok c0), Hc. cbn. by rewrite Hopen.
  - by apply pointer_end.
  - apply pointer_close; [by apply sessions_end|by apply pointer_end|by cbn; rewrite lookup_insert_eq|done|done].
  - by apply pointer_close.
  - apply (pointer_same k); [done..|]. intros c0. unfold call. cbn [k_calls put_calls]. rewrite input_state_app. cbn.
    case_decide; [subst|done]. destruct Hc as [d Hc]. rewrite (Hok c0), Hc. cbn. by destruct (kc_closed d).
  - apply (pointer_same k); [done| |]; intros c0; [cbn; by eapply state_put|by apply Happ].
  - apply (pointer_same k); [done..|]. intros c0. by apply Happ.
  - apply (pointer_same k); [done..|]. intros c0. cbn. destruct (kc_mine d); [by apply Happ|by rewrite app_nil_r].
Qed.

(** ** The leases the hub took *)

Definition times (e : Call) (l : list Call) : nat := length (base.filter (.= e) l).

Lemma times_app e l l' : times e (l ++ l') = times e l + times e l'.
Proof. unfold times. by rewrite filter_app, length_app. Qed.

(** What matters of an attempt, a control and the tasks to a lease. *)
Definition mine_at (at_ : option CAttempt) : bool := match at_ with Some at_ => ka_mine at_ | None => false end.
Definition lease_part (d : option CControl) : option (nat * bool * bool) :=
  (fun d => (kc_attempt d, kc_mine d, kc_closed d)) <$> d.
Definition releasing (tasks : gmap nat KTask) (c : nat) : Prop := ∃ t r, tasks !! t = Some (KRelease c r false).

(** The lease of an opening is still to be released. *)
Definition to_release (k : Core) (a : nat) : Prop :=
  mine_at (k_attempts k !! a) = true ∨
  ∃ c closed, lease_part (k_controls k !! c) = Some (a, true, closed) ∧ (closed = false ∨ releasing (k_tasks k) c).

(** A lease is granted once at most, and then either still to be released or released once. *)
Inductive lease_state (k : Core) (a : nat) : Prop :=
| l_none : times (CGranted a) (k_calls k) = 0 → times (CUnlocked a) (k_calls k) = 0 → ¬ to_release k a → lease_state k a
| l_held : times (CGranted a) (k_calls k) = 1 → times (CUnlocked a) (k_calls k) = 0 → to_release k a → lease_state k a
| l_released :
    times (CGranted a) (k_calls k) = 1 → times (CUnlocked a) (k_calls k) = 1 → ¬ to_release k a → lease_state k a.

Record leases_ok (k : Core) : Prop := {
  le_state a : lease_state k a;
  le_known a : times (CGranted a) (k_calls k) ≠ 0 → is_Some (k_attempts k !! a);
  le_ungranted a at_ :
    k_attempts k !! a = Some at_ → ka_done at_ = None → ka_mine at_ = false → times (CGranted a) (k_calls k) = 0;
}.

Lemma to_release_frame k k' :
  (∀ a, mine_at (k_attempts k' !! a) = mine_at (k_attempts k !! a)) →
  (∀ c, lease_part (k_controls k' !! c) = lease_part (k_controls k !! c)) →
  (∀ c, releasing (k_tasks k') c ↔ releasing (k_tasks k) c) → ∀ a, to_release k' a ↔ to_release k a.
Proof. intros Ha Hc Ht a. unfold to_release. rewrite Ha. setoid_rewrite Hc. setoid_rewrite Ht. done. Qed.

Lemma lease_frame k k' a :
  lease_state k a → times (CGranted a) (k_calls k') = times (CGranted a) (k_calls k) →
  times (CUnlocked a) (k_calls k') = times (CUnlocked a) (k_calls k) → (to_release k' a ↔ to_release k a) →
  lease_state k' a.
Proof.
  intros [Hg Hu Hr|Hg Hu Hr|Hg Hu Hr] Hg' Hu' Hr';
    [apply l_none|apply l_held|apply l_released]; rewrite ?Hg', ?Hu', ?Hr'; done.
Qed.

Lemma lease_part_put (m : gmap nat CControl) c d d' c0 :
  m !! c = Some d → lease_part (Some d') = lease_part (Some d) → lease_part (<[c := d']> m !! c0) = lease_part (m !! c0).
Proof.
  intros Hc Hd. destruct (decide (c = c0)) as [->|Hne]; [by rewrite lookup_insert_eq, Hd, Hc|by rewrite lookup_insert_ne].
Qed.

Lemma mine_put (m : gmap nat CAttempt) a at_ a0 :
  mine_at (<[a := at_]> m !! a0) = if decide (a = a0) then ka_mine at_ else mine_at (m !! a0).
Proof. destruct (decide (a = a0)) as [->|Hne]; [by rewrite lookup_insert_eq|by rewrite lookup_insert_ne]. Qed.

(** A task that is no release takes and leaves no place of one. *)
Lemma releasing_put tasks t w c :
  (∀ c r b, w ≠ KRelease c r b) → (∀ c r b, tasks !! t ≠ Some (KRelease c r b)) →
  releasing (<[t := w]> tasks) c ↔ releasing tasks c.
Proof.
  intros Hw Ht. split; intros (t0 & r & Ht0).
  - apply lookup_insert_Some in Ht0 as [[_ Hw0]|[_ Ht0]]; [by apply Hw in Hw0|by exists t0, r].
  - exists t0, r. rewrite lookup_insert_ne; [done|]. intros ->. by apply Ht in Ht0.
Qed.

Lemma releasing_drop tasks t c :
  (∀ c r, tasks !! t ≠ Some (KRelease c r false)) → releasing (delete t tasks) c ↔ releasing tasks c.
Proof.
  intros Ht. split; intros (t0 & r & Ht0).
  - apply lookup_delete_Some in Ht0 as [_ Ht0]. by exists t0, r.
  - exists t0, r. rewrite lookup_delete_ne; [done|]. intros ->. by apply Ht in Ht0.
Qed.

(** The moves that neither take nor release a lease. *)
Lemma leases_frame k k' :
  leases_ok k → (∀ a, times (CGranted a) (k_calls k') = times (CGranted a) (k_calls k)) →
  (∀ a, times (CUnlocked a) (k_calls k') = times (CUnlocked a) (k_calls k)) →
  (∀ a, to_release k' a ↔ to_release k a) →
  (∀ a, is_Some (k_attempts k !! a) → is_Some (k_attempts k' !! a)) →
  (∀ a at_, k_attempts k' !! a = Some at_ → ka_done at_ = None → ka_mine at_ = false →
     k_attempts k !! a = Some at_ ∨ times (CGranted a) (k_calls k) = 0) →
  leases_ok k'.
Proof.
  intros [Hs Hk Hu] Hg Hul Hr Hat Hun. split.
  - intros a. by apply (lease_frame k).
  - intros a Ha. apply Hat, Hk. by rewrite <-Hg.
  - intros a at_ Ha Hd Hm. rewrite Hg. destruct (Hun a at_ Ha Hd Hm); [by eapply Hu|done].
Qed.

(** Only the lease of [a] changes. *)
Lemma lease_only k k' a :
  leases_ok k → (∀ a0, a0 ≠ a → times (CGranted a0) (k_calls k') = times (CGranted a0) (k_calls k)) →
  (∀ a0, a0 ≠ a → times (CUnlocked a0) (k_calls k') = times (CUnlocked a0) (k_calls k)) →
  (∀ a0, a0 ≠ a → to_release k' a0 ↔ to_release k a0) → lease_state k' a → ∀ a0, lease_state k' a0.
Proof.
  intros [Hs _ _] Hg Hu Hr Ha a0. destruct (decide (a0 = a)) as [->|Hne]; [done|]. apply (lease_frame k); auto.
Qed.

Lemma times_call e e' l : times e (l ++ [e']) = times e l + (if decide (e' = e) then 1 else 0).
Proof. rewrite times_app. unfold times at 2. rewrite filter_cons, filter_nil. by case_decide. Qed.

Lemma times_other e e' l : e' ≠ e → times e (l ++ [e']) = times e l.
Proof. intros He. rewrite times_call, decide_False by done. lia. Qed.

Lemma times_if e e' l (b : bool) : e' ≠ e → times e (l ++ (if b then [e'] else [])) = times e l.
Proof. intros He. destruct b; [by apply times_other|by rewrite app_nil_r]. Qed.

(** An attempt that is under way has no control. *)
Lemma no_control k a at_ c closed mine :
  attempts_ok k → k_attempts k !! a = Some at_ → ka_done at_ = None →
  lease_part (k_controls k !! c) ≠ Some (a, mine, closed).
Proof.
  intros Hat Ha Hun Hc. destruct (k_controls k !! c) as [d|] eqn:Ed; [|done]. cbn in Hc. simplify_eq.
  destruct (at_control k Hat c d Ed) as (at0 & Ha0 & Hd0 & _). congruence.
Qed.

Lemma leases_grant k a at_ :
  attempts_ok k → leases_ok k → k_attempts k !! a = Some at_ → ka_done at_ = None → ka_mine at_ = false →
  leases_ok (call [CGranted a] (put_attempt a {| ka_key := ka_key at_; ka_mine := true; ka_done := None |} k)).
Proof.
  intros Hat Hok Ha Hun Hnm. pose proof (le_ungranted k Hok a at_ Ha Hun Hnm) as H0. split.
  - apply (lease_only k _ a Hok); cbn [k_calls call put_calls put_attempt put_attempts].
    + intros a0 Hne. apply times_other. congruence.
    + intros a0 Hne. by apply times_other.
    + intros a0 Hne. unfold to_release. cbn. rewrite mine_put, decide_False by done. done.
    + apply l_held; cbn [k_calls call put_calls put_attempt put_attempts].
      * rewrite times_call, decide_True by done. lia.
      * rewrite times_other by done. by destruct (le_state k Hok a); [|congruence..].
      * left. cbn. by rewrite mine_put, decide_True.
  - intros a0. cbn [k_calls call put_calls put_attempt put_attempts k_attempts]. rewrite times_call, lookup_insert_is_Some'.
    case_decide; simplify_eq; [by left|]. intros Hg. right. apply (le_known k Hok). lia.
  - intros a0 at0. cbn [k_calls call put_calls put_attempt put_attempts k_attempts]. intros Ha0 Hd0 Hm0. lookups.
    rewrite times_other by congruence. by eapply (le_ungranted k Hok).
Qed.

Lemma leases_open k a at_ taken leased :
  fresh_ok k → attempts_ok k → leases_ok k → k_attempts k !! a = Some at_ → ka_done at_ = None →
  ka_mine at_ = taken && leased →
  let c := k_fresh k in
  leases_ok (call [COpened c] (put_fresh (put_byDevice
      (put_control c (new_control (ka_key at_) a taken leased) (put_attempt a (as_done (Some c) at_) k))
      (<[ka_key at_ := c]> (k_byDevice k))) (S c))).
Proof.
  intros Hfr Hat Hok Ha Hun Hmine c. assert (k_controls k !! c = None) as Hnew.
  { apply eq_None_not_Some. intros [d0 Hd0%(fr_controls k Hfr)]. subst c. lia. }
  apply (leases_frame k).
  - done.
  - intros a0. cbn [k_calls call put_calls put_fresh put_byDevice put_control put_controls put_attempt put_attempts].
    by apply times_other.
  - intros a0. cbn [k_calls call put_calls put_fresh put_byDevice put_control put_controls put_attempt put_attempts].
    by apply times_other.
  - intros a0. unfold to_release. cbn. rewrite mine_put. case_decide as Hd; simplify_eq.
    + split.
      * intros [?|(c1 & cl & Hc1 & Hcl)]; [done|]. left. rewrite Ha. cbn. destruct (decide (c = c1)) as [->|Hne].
        -- rewrite lookup_insert_eq in Hc1. cbn in Hc1. rewrite Hmine. by injection Hc1.
        -- rewrite lookup_insert_ne in Hc1 by done. by apply (no_control k a0 at_) in Hc1.
      * intros [Hm|(c1 & cl & Hc1 & _)]; [|by apply (no_control k a0 at_) in Hc1]. right. exists c, false.
        rewrite lookup_insert_eq. rewrite Ha in Hm. cbn in Hm |- *. unfold kc_mine. cbn. rewrite <-Hmine, Hm. auto.
    + apply or_iff_compat_l. split; intros (c1 & cl & Hc1 & Hcl); exists c1, cl; (split; [|done]); revert Hc1;
        (destruct (decide (c = c1)) as [<-|Hne]; [rewrite lookup_insert_eq, ?Hnew; cbn; by intros; simplify_eq|by rewrite lookup_insert_ne]).
  - intros a0. cbn. rewrite lookup_insert_is_Some'. by right.
  - intros a0 at0. cbn. intros Ha0 Hd0 _. lookups. by left.
Qed.

Lemma leases_fail k a at_ :
  attempts_ok k → leases_ok k → k_attempts k !! a = Some at_ → ka_done at_ = None →
  leases_ok (call (if ka_mine at_ then [CUnlocked a] else []) (put_attempt a (as_done None at_) k)).
Proof.
  intros Hat Hok Ha Hun. split.
  - apply (lease_only k _ a Hok); cbn [k_calls call put_calls put_attempt put_attempts].
    + intros a0 Hne. by apply times_if.
    + intros a0 Hne. apply times_if. congruence.
    + intros a0 Hne. unfold to_release. cbn. rewrite mine_put, decide_False by done. done.
    + assert (¬ to_release (call (if ka_mine at_ then [CUnlocked a] else []) (put_attempt a (as_done None at_) k)) a) as Hnr.
      { intros [Hm|(c & cl & Hc & _)]; cbn in *; [by rewrite mine_put, decide_True in Hm|].
        by apply (no_control k a at_) in Hc. }
      destruct (ka_mine at_) eqn:Em.
      * destruct (le_state k Hok a) as [_ _ Hr|Hg Hu Hr|_ _ Hr];
          [destruct Hr; left; rewrite Ha; done| |destruct Hr; left; rewrite Ha; done].
        apply l_released; [|rewrite ?times_call|done]; cbn [k_calls call put_calls put_attempt put_attempts].
        -- by rewrite times_other.
        -- rewrite times_call, decide_True by done. lia.
      * pose proof (le_ungranted k Hok a at_ Ha Hun Em) as H0.
        destruct (le_state k Hok a) as [Hg Hu Hr|Hg|Hg]; [|congruence..].
        apply l_none; [..|done]; cbn [k_calls call put_calls put_attempt put_attempts]; by rewrite app_nil_r.
  - intros a0. cbn [k_calls call put_calls put_attempt put_attempts k_attempts]. rewrite times_if by done.
    rewrite lookup_insert_is_Some'. intros Hg. right. by apply (le_known k Hok).
  - intros a0 at0. cbn [k_calls call put_calls put_attempt put_attempts k_attempts]. intros Ha0 Hd0 Hm0. lookups.
    rewrite times_if by done. by eapply (le_ungranted k Hok).
Qed.

Lemma leases_close k c d :
  (∀ t w, k_tasks k !! t = Some w → t < k_fresh k) → leases_ok k → k_controls k !! c = Some d → kc_closed d = false →
  leases_ok (close_core c d k).
Proof.
  intros Hfr Hok Hc Hopen.
  assert (∀ c0, releasing (k_tasks (close_core c d k)) c0 ↔ releasing (k_tasks k) c0 ∨ (kc_taken d = true ∧ c0 = c)) as Hrel.
  { intros c0. cbn. destruct (kc_taken d); [|naive_solver]. split.
    - intros (t & r & [[_ ?]|[_ Ht]]%lookup_insert_Some); simplify_eq; [by right|left; by exists t, r].
    - intros [(t & r & Ht)|[_ ->]]; [|exists (k_fresh k), (kc_renewing d); by rewrite lookup_insert_eq].
      exists t, r. rewrite lookup_insert_ne; [done|]. apply Hfr in Ht. lia. }
  apply (leases_frame k); try done; try (intros a; cbn [k_calls close_core call put_calls put_fresh put_tasks]; by apply times_other).
  - intros a. unfold to_release. setoid_rewrite Hrel. cbn. apply or_iff_compat_l. split.
    + intros (c0 & cl & Hc0 & Hr). exists c0. destruct (decide (c = c0)) as [<-|Hne].
      * rewrite lookup_insert_eq in Hc0. cbn in Hc0. change (kc_mine (as_closed d)) with (kc_mine d) in Hc0.
        exists false. rewrite Hc. cbn. split; [congruence|by left].
      * rewrite lookup_insert_ne in Hc0 by done. exists cl. split; [done|]. naive_solver.
    + intros (c0 & cl & Hc0 & Hr). exists c0. destruct (decide (c = c0)) as [<-|Hne].
      * rewrite lookup_insert_eq. rewrite Hc in Hc0. cbn in Hc0 |- *. exists true.
        change (kc_mine (as_closed d)) with (kc_mine d). split; [congruence|]. right. right. split; [|done].
        injection Hc0 as _ Hm _. by apply andb_prop in Hm as [? _].
      * rewrite lookup_insert_ne by done. exists cl. naive_solver.
  - intros a at_ Ha _ _. by left.
Qed.

Lemma leases_end k n c d : leases_ok k → k_controls k !! c = Some d → leases_ok (end_core n c d k).
Proof.
  intros Hok Hc. apply (leases_frame k); try done; [|intros; by left].
  apply to_release_frame; [done| |done]. intros c0. cbn. by eapply lease_part_put.
Qed.

Lemma leases_unlock k t c d r :
  attempts_ok k → tasks_ok k → leases_ok k → k_tasks k !! t = Some (KRelease c r false) → k_controls k !! c = Some d →
  leases_ok (call (if kc_mine d then [CUnlocked (kc_attempt d)] else []) (put_ktask t (KRelease c r true) k)).
Proof.
  intros Hat Htk Hok Ht Hc. destruct (tk_release k Htk t c r false Ht) as (d' & Hc' & Hcl & _). simplify_eq.
  assert (∀ c0, releasing (<[t := KRelease c r true]> (k_tasks k)) c0 ↔ releasing (k_tasks k) c0 ∧ c0 ≠ c) as Hrel.
  { intros c0. split.
    - intros (t0 & r0 & [[_ ?]|[Hne Ht0]]%lookup_insert_Some); [done|]. split; [by exists t0, r0|]. intros ->.
      by destruct Hne; apply (tk_one k Htk _ _ _ _ _ _ _ Ht Ht0).
    - intros [(t0 & r0 & Ht0) Hne]. exists t0, r0. rewrite lookup_insert_ne; [done|]. intros ->. congruence. }
  assert (∀ a, (a = kc_attempt d → kc_mine d = false) →
    (to_release (call (if kc_mine d then [CUnlocked (kc_attempt d)] else []) (put_ktask t (KRelease c r true) k)) a
     ↔ to_release k a)) as Hframe.
  { intros a Ha. unfold to_release. cbn. apply or_iff_compat_l. setoid_rewrite Hrel.
    split; intros (c0 & cl & Hc0 & Hr); exists c0, cl; (split; [done|]).
    - destruct Hr as [?|[? ?]]; auto.
    - destruct Hr as [?|Hr]; [by left|right]. split; [done|]. intros ->. rewrite Hc in Hc0. cbn in Hc0. simplify_eq.
      by rewrite Ha in *. }
  destruct (kc_mine d) eqn:Em; last first.
  { apply (leases_frame k); try done; try (intros a; cbn [k_calls call put_calls put_ktask put_tasks]; by rewrite app_nil_r).
    - intros a. by apply Hframe.
    - by left. }
  split.
  - apply (lease_only k _ (kc_attempt d) Hok); cbn [k_calls call put_calls put_ktask put_tasks].
    + intros a0 Hne. by apply times_other.
    + intros a0 Hne. apply times_other. congruence.
    + intros a0 Hne. apply Hframe. congruence.
    + assert (to_release k (kc_attempt d)) as Hr.
      { right. exists c, true. rewrite Hc. cbn. rewrite Em, Hcl. split; [done|]. right. by exists t, r. }
      destruct (le_state k Hok (kc_attempt d)) as [_ _ ?|Hg Hu _|_ _ ?]; [done| |done].
      apply l_released; cbn [k_calls call put_calls put_ktask put_tasks].
      * by rewrite times_other.
      * rewrite times_call, decide_True by done. lia.
      * destruct (at_control k Hat c d Hc) as (at_ & Ha & Hd & _).
        intros [Hm|(c0 & cl & Hc0 & Hr0)]; cbn in *.
        -- rewrite Ha in Hm. cbn in Hm. rewrite (at_done k Hat _ _ Ha) in Hm by congruence. done.
        -- destruct (k_controls k !! c0) as [d0|] eqn:Ed0; [|done]. cbn in Hc0. simplify_eq.
           destruct (at_control k Hat c0 d0 Ed0) as (at0 & Ha0 & Hd0 & _).
           assert (c0 = c) as -> by congruence. rewrite Hrel in Hr0. destruct Hr0 as [?|[_ ?]]; congruence.
  - intros a0. cbn [k_calls call put_calls put_ktask put_tasks k_attempts]. rewrite times_other by done. apply (le_known k Hok).
  - intros a0 at0. cbn [k_calls call put_calls put_ktask put_tasks k_attempts]. rewrite times_other by done.
    apply (le_ungranted k Hok).
Qed.

Lemma leases_step k k' :
  core_step k k' → fresh_ok k → attempts_ok k → tasks_ok k → leases_ok k → leases_ok k'.
Proof.
  intros Hstep Hfr Hat Htk Hok.
  assert (∀ c r b, k_tasks k !! k_fresh k ≠ Some (KRelease c r b)) as Hnf by (intros c r b Ht%(fr_tasks k Hfr); lia).
  assert (∀ c r b, k_tasks k !! S (k_fresh k) ≠ Some (KRelease c r b)) as Hns by (intros c r b Ht%(fr_tasks k Hfr); lia).
  assert (∀ k', k_calls k' = k_calls k → k_attempts k' = k_attempts k → k_controls k' = k_controls k →
    (∀ c, releasing (k_tasks k') c ↔ releasing (k_tasks k) c) → leases_ok k') as Htasks.
  { intros k0 Hl Ha Hc Ht. apply (leases_frame k); rewrite ?Hl, ?Ha; try done; [|by left].
    apply to_release_frame; [by rewrite Ha|by rewrite Hc|done]. }
  moves Hstep.
  - by apply Htasks.
  - apply Htasks; [done..|]. intros c. cbn. apply releasing_put; [|done]. intros c0 r b ->. by destruct Hw.
  - apply (leases_frame k); try done; cbn.
    + apply to_release_frame; [|done|]; cbn.
      * intros a0. rewrite mine_put. case_decide; [subst|done]. subst a.
        destruct (k_attempts k !! k_fresh k) as [at0|] eqn:E; [|done]. apply (fr_attempts k Hfr) in E. lia.
      * intros c. by apply releasing_put.
    + intros a0. rewrite lookup_insert_is_Some'. by right.
    + intros a0 at0 [[<- _]|[_ Ha0]]%lookup_insert_Some _ _; [right|by left].
      destruct (decide (times (CGranted a) (k_calls k) = 0)) as [|Hg]; [done|].
      apply (le_known k Hok) in Hg as [at1 Hg%(fr_attempts k Hfr)]. subst a. lia.
  - by apply leases_grant.
  - by apply leases_open.
  - by apply leases_fail.
  - apply Htasks; [done..|]. intros c. cbn. apply releasing_put; [done|]. intros c0 r b. congruence.
  - apply Htasks; [done..|]. intros c. cbn. apply releasing_drop. intros c0 r Heq. simplify_eq. by destruct Hgo.
  - apply (leases_frame k); try done; [|by left]. apply to_release_frame; [done| |done]. intros c0. cbn. by eapply lease_part_put.
  - apply (leases_frame k); try done; try (intros a; cbn [k_calls call put_calls put_control put_controls]; by apply times_other);
      [|by left].
    apply to_release_frame; [done| |done]. intros c0. cbn. by eapply lease_part_put.
  - apply (leases_frame k); try done; try (intros a; cbn [k_calls call put_calls]; by apply times_other). by left.
  - by apply leases_end.
  - apply leases_close; [exact (fr_tasks k Hfr)|by apply leases_end|by cbn; rewrite lookup_insert_eq|done].
  - apply leases_close; [exact (fr_tasks k Hfr)|done..].
  - apply (leases_frame k); try done; try (intros a; cbn [k_calls call put_calls]; by apply times_other). by left.
  - apply (leases_frame k); try done;
      try (intros a; cbn [k_calls call put_calls put_fresh put_ktask put_tasks put_control put_controls]; by apply times_other);
      [|by left].
    apply to_release_frame; [done| |]; intros c0; cbn; [by eapply lease_part_put|by apply releasing_put].
  - apply (leases_frame k); try done; try (intros a; cbn [k_calls call put_calls drop_ktask put_tasks]; by apply times_other);
      [|by left].
    apply to_release_frame; [done..|]. intros c0. cbn. apply releasing_drop. intros c1 r. congruence.
  - by apply leases_unlock.
  - apply Htasks; [done..|]. intros c0. cbn. apply releasing_drop. intros c1 r. congruence.
Qed.

(** ** The renewals of a lease *)

(** Whether a renewal of the lease of [a] is under way after calls. *)
Definition renews_after (a : nat) (under_way : bool) (e : Call) : bool :=
  match e with
  | CRenews a' => if decide (a' = a) then true else under_way
  | CRenewed a' _ => if decide (a' = a) then false else under_way
  | _ => under_way
  end.
Definition under_way (a : nat) (calls : list Call) : bool := fold_left (renews_after a) calls false.

(** No renewal begins while another of the same lease is under way. *)
Definition one_at_a_time (calls : list Call) : Prop :=
  ∀ before a after, calls = before ++ CRenews a :: after → under_way a before = false.

(** The lease was granted and has not been released. *)
Definition held (a : nat) (calls : list Call) : Prop := times (CGranted a) calls = 1 ∧ times (CUnlocked a) calls = 0.

(** A renewal under way is the last one of its control, whose lease is held where it has one. *)
Definition renewing_ok (k : Core) : Prop :=
  one_at_a_time (k_calls k) → ∀ t c, k_tasks k !! t = Some (KRenew c) →
    ∃ d, k_controls k !! c = Some d ∧ kc_renewing d = Some t ∧ under_way (kc_attempt d) (k_calls k) = true ∧
      (kc_leased d = true → held (kc_attempt d) (k_calls k)).

(** A lease that a renewal was granted is one that is held. *)
Definition renewed_ok (calls : list Call) : Prop :=
  one_at_a_time calls → ∀ before a after, calls = before ++ CRenewed a true :: after → held a before.

(** A call that is none of the lease of [a]. *)
Definition no_lease_call (a : nat) (e : Call) : Prop :=
  e ≠ CGranted a ∧ e ≠ CUnlocked a ∧ e ≠ CRenews a ∧ ∀ granted, e ≠ CRenewed a granted.

Lemma one_before calls l : one_at_a_time (calls ++ l) → one_at_a_time calls.
Proof. intros Hone before a after ->. apply (Hone before a (after ++ l)). by rewrite <-app_assoc. Qed.

Lemma under_way_app a calls l : under_way a (calls ++ l) = fold_left (renews_after a) l (under_way a calls).
Proof. unfold under_way. by rewrite fold_left_app. Qed.

Lemma under_way_other a calls l : Forall (no_lease_call a) l → under_way a (calls ++ l) = under_way a calls.
Proof.
  rewrite under_way_app. intros Hl. induction Hl as [|e l (_ & _ & Hr & Hd) _ IH]; [done|]. cbn.
  replace (renews_after a (under_way a calls) e) with (under_way a calls); [done|].
  destruct e as [| | | | | | |a'|a' granted|]; try done; cbn; case_decide; simplify_eq; try done. by destruct (Hd granted).
Qed.

Lemma times_none e l : Forall (.≠ e) l → times e l = 0.
Proof. unfold times. induction 1 as [|x l Hx _ IH]; [done|]. by rewrite filter_cons, decide_False. Qed.

Lemma held_other a calls l : Forall (no_lease_call a) l → held a calls → held a (calls ++ l).
Proof.
  intros Hl [Hg Hu]. split; (rewrite times_app, (times_none _ l); [lia|]); (eapply Forall_impl; [exact Hl|]); by intros e (? & ? & _).
Qed.

Lemma renewed_snoc calls l :
  (∀ a granted, CRenewed a granted ∉ l) → renewed_ok calls → renewed_ok (calls ++ l).
Proof.
  intros Hno Hok Hone before a after Heq. apply app_eq_app in Heq as (m & [[-> Hl]|[-> Hm]]).
  - destruct m as [|e m]; [rewrite app_nil_r in *; cbn in Hl|].
    + destruct (Hno a true). rewrite <-Hl. left.
    + cbn in Hl. injection Hl as <- Hl. apply (Hok (one_before _ l Hone) before a m). done.
  - destruct (Hno a true). rewrite Hm. apply elem_of_app. right. left.
Qed.

(** Moves that leave the renewals and their leases. *)
Lemma renewing_frame k k' l :
  renewing_ok k → k_calls k' = k_calls k ++ l →
  (∀ t c, k_tasks k' !! t = Some (KRenew c) → k_tasks k !! t = Some (KRenew c)) →
  (∀ c d, k_controls k !! c = Some d → ∃ d', k_controls k' !! c = Some d' ∧ kc_renewing d' = kc_renewing d ∧
     kc_attempt d' = kc_attempt d ∧ kc_leased d' = kc_leased d) →
  (∀ t c d, k_tasks k' !! t = Some (KRenew c) → k_controls k !! c = Some d → Forall (no_lease_call (kc_attempt d)) l) →
  renewing_ok k'.
Proof.
  intros Hok Hl Ht Hc Hno Hone t c Htc. rewrite Hl in *.
  destruct (Hok (one_before _ _ Hone) t c (Ht t c Htc)) as (d & Hd & Hr & Hu & Hh).
  destruct (Hc c d Hd) as (d' & Hd' & Er & Ea & Em). specialize (Hno t c d Htc Hd).
  exists d'. rewrite Ea, Em, Er, under_way_other by done. split_and!; [done..|]. intros Hm. by apply held_other, Hh.
Qed.

Lemma renew_put (m : gmap nat CControl) c d d' c0 d0 :
  m !! c = Some d → kc_renewing d' = kc_renewing d → kc_attempt d' = kc_attempt d → kc_leased d' = kc_leased d →
  m !! c0 = Some d0 →
  ∃ d1, <[c := d']> m !! c0 = Some d1 ∧ kc_renewing d1 = kc_renewing d0 ∧ kc_attempt d1 = kc_attempt d0 ∧
    kc_leased d1 = kc_leased d0.
Proof.
  intros Hc Hr Ha Hl Hc0. destruct (decide (c = c0)) as [->|Hne].
  - simplify_eq. rewrite lookup_insert_eq. eauto.
  - rewrite lookup_insert_ne by done. eauto.
Qed.

(** Two controls are of two openings. *)
Lemma attempt_control k c c' d d' :
  attempts_ok k → k_controls k !! c = Some d → k_controls k !! c' = Some d' → kc_attempt d = kc_attempt d' → c = c'.
Proof.
  intros Hat Hc Hc' Heq. destruct (at_control k Hat c d Hc) as (at_ & Ha & Hd & _).
  destruct (at_control k Hat c' d' Hc') as (at' & Ha' & Hd' & _). congruence.
Qed.

(** The opening of a control is over. *)
Lemma done_apart k a at_ c d :
  attempts_ok k → k_attempts k !! a = Some at_ → ka_done at_ = None → k_controls k !! c = Some d → a ≠ kc_attempt d.
Proof. intros Hat Ha Hun Hc ->. destruct (at_control k Hat c d Hc) as (at0 & Ha0 & Hd0 & _). congruence. Qed.

Lemma open_held k c d :
  leases_ok k → k_controls k !! c = Some d → kc_closed d = false → kc_mine d = true → held (kc_attempt d) (k_calls k).
Proof.
  intros Hok Hc Ho Hm. assert (to_release k (kc_attempt d)) as Hr.
  { right. exists c, false. rewrite Hc. cbn. rewrite Hm, Ho. auto. }
  by destruct (le_state k Hok (kc_attempt d)) as [_ _ ?|Hg Hu _|_ _ ?].
Qed.

Lemma renewing_renew k c d :
  attempts_ok k → leases_ok k → (∀ t c, k_tasks k !! t = Some (KRenew c) → t < k_fresh k) → renewing_ok k →
  k_controls k !! c = Some d → kc_closed d = false → kc_taken d = true →
  renewing_ok (call [CRenews (kc_attempt d)]
    (put_fresh (put_ktask (k_fresh k) (KRenew c) (put_control c (with_renewing (Some (k_fresh k)) d) k)) (S (k_fresh k)))).
Proof.
  intros Hat Hle Hfr Hok Hc Ho Htk Hone t c0.
  cbn [k_tasks k_controls k_calls call put_calls put_fresh put_ktask put_tasks put_control put_controls] in *.
  pose proof (Hone (k_calls k) (kc_attempt d) [] eq_refl) as Hidle. intros [[<- [= <-]]|[Hne Ht]]%lookup_insert_Some.
  - rewrite lookup_insert_eq. eexists. split_and!; [done..| |].
    + rewrite under_way_app. cbn. by rewrite decide_True.
    + cbn [kc_leased kc_attempt with_renewing]. intros Hl. assert (held (kc_attempt d) (k_calls k)) as [? ?].
      { apply (open_held k c d); try done. unfold kc_mine. by rewrite Htk, Hl. }
      split; by rewrite times_other.
  - destruct (Hok (one_before _ _ Hone) t c0 Ht) as (d0 & Hd0 & Hr & Hu & Hh).
    assert (kc_attempt d0 ≠ kc_attempt d) as Hna by (intros E; congruence).
    assert (c ≠ c0) as Hcc by (intros <-; congruence). exists d0. rewrite lookup_insert_ne by done.
    assert (Forall (no_lease_call (kc_attempt d0)) [CRenews (kc_attempt d)]) as Hno.
    { constructor; [|constructor]. split_and!; congruence. }
    split_and!; [done|done|by rewrite under_way_other|]. intros Hm. by apply held_other, Hh.
Qed.

Lemma renewing_over k t c d granted :
  attempts_ok k → renewing_ok k → k_tasks k !! t = Some (KRenew c) → k_controls k !! c = Some d →
  renewing_ok (call [CRenewed (kc_attempt d) granted] (drop_ktask t k)).
Proof.
  intros Hat Hok Ht Hc Hone t0 c0. cbn [k_tasks k_controls k_calls call put_calls drop_ktask put_tasks] in *. intros [Hne Ht0]%lookup_delete_Some.
  pose proof (one_before _ _ Hone) as Hone'.
  destruct (Hok Hone' t c Ht) as (d1 & Hd1 & Hr1 & _). destruct (Hok Hone' t0 c0 Ht0) as (d0 & Hd0 & Hr & Hu & Hh). simplify_eq.
  assert (kc_attempt d0 ≠ kc_attempt d) as Hna.
  { intros Heq. assert (c0 = c) as -> by by eapply attempt_control. congruence. }
  assert (Forall (no_lease_call (kc_attempt d0)) [CRenewed (kc_attempt d) granted]) as Hno.
  { constructor; [|constructor]. split_and!; congruence. }
  exists d0. split_and!; [done|done|by rewrite under_way_other|]. intros Hm. by apply held_other, Hh.
Qed.

Lemma renewed_over k t c d granted :
  renewing_ok k → renewed_ok (k_calls k) → k_tasks k !! t = Some (KRenew c) → k_controls k !! c = Some d →
  (granted = true → kc_leased d = true) → renewed_ok (k_calls k ++ [CRenewed (kc_attempt d) granted]).
Proof.
  intros Hok Hro Ht Hc Hg Hone before a after Heq. pose proof (one_before _ _ Hone) as Hone'.
  destruct after as [|e after _] using rev_ind.
  - apply app_inj_tail in Heq as [<- [= <- ->]]. destruct (Hok Hone' t c Ht) as (d1 & Hd1 & _ & _ & Hh).
    simplify_eq. by apply Hh, Hg.
  - rewrite app_comm_cons, app_assoc in Heq. apply app_inj_tail in Heq as [Heq _]. by apply (Hro Hone' before a after).
Qed.

Lemma renewing_close k c d :
  renewing_ok k → k_controls k !! c = Some d → renewing_ok (close_core c d k).
Proof.
  intros Hok Hc. apply (renewing_frame k _ [CDetached c]); cbn; try done.
  - intros t c0. destruct (kc_taken d); [|done]. by intros [[_ ?]|[_ ?]]%lookup_insert_Some.
  - intros c0 d0. by apply renew_put with d.
  - intros t c0 d0 _ _. by repeat constructor.
Qed.

Lemma renewing_end k n c d : renewing_ok k → k_controls k !! c = Some d → renewing_ok (end_core n c d k).
Proof.
  intros Hok Hc. apply (renewing_frame k _ []); cbn; try done; [by rewrite app_nil_r|]. intros c0 d0. by apply renew_put with d.
Qed.

(** A lease is released once the renewal that its control knows is over. *)
Lemma renewing_unlock k t c d r :
  attempts_ok k → tasks_ok k → renewing_ok k → k_tasks k !! t = Some (KRelease c r false) → k_controls k !! c = Some d →
  (∀ t', r = Some t' → k_tasks k !! t' = None) →
  renewing_ok (call (if kc_mine d then [CUnlocked (kc_attempt d)] else []) (put_ktask t (KRelease c r true) k)).
Proof.
  intros Hat Htk Hok Ht Hc Hset Hone. pose proof (one_before _ _ Hone) as Hone'.
  destruct (tk_release k Htk t c r false Ht) as (d' & Hc' & _ & _ & Hr). simplify_eq. revert Hone.
  apply (renewing_frame k _ (if kc_mine d then [CUnlocked (kc_attempt d)] else [])); cbn; try done; [|by eauto|].
  - intros t0 c0. by intros [[_ ?]|[_ ?]]%lookup_insert_Some.
  - intros t0 c0 d0 [[_ ?]|[_ Ht0]]%lookup_insert_Some Hd0; [done|]. destruct (kc_mine d); [|constructor].
    constructor; [|constructor]. split_and!; try done. intros [= Heq]. assert (c = c0) as <- by by eapply attempt_control.
    destruct (Hok Hone' t0 c Ht0) as (d1 & Hd1 & Hr1 & _). simplify_eq. rewrite (Hset t0) in Ht0; done.
Qed.

Lemma renewing_step k k' :
  core_step k k' → fresh_ok k → attempts_ok k → tasks_ok k → leases_ok k → renewing_ok k → renewing_ok k'.
Proof.
  intros Hstep Hfr Hat Htk Hle Hok.
  assert (∀ k', k_calls k' = k_calls k → k_controls k' = k_controls k →
    (∀ t c, k_tasks k' !! t = Some (KRenew c) → k_tasks k !! t = Some (KRenew c)) → renewing_ok k') as Htasks.
  { intros k0 Hl Hc Ht. apply (renewing_frame k _ []); rewrite ?Hl, ?Hc; try done; [by rewrite app_nil_r|]. eauto. }
  assert (∀ k' e, k_calls k' = k_calls k ++ [e] → k_controls k' = k_controls k → k_tasks k' = k_tasks k →
    (∀ c d, k_controls k !! c = Some d → no_lease_call (kc_attempt d) e) → renewing_ok k') as Hcall.
  { intros k0 e Hl Hc Ht He. apply (renewing_frame k _ [e]); rewrite ?Hl, ?Hc, ?Ht; try done; [by eauto|].
    intros t c d _ Hd. constructor; [by eapply He|done]. }
  moves Hstep.
  - by apply Htasks.
  - apply Htasks; [done..|]. intros t c. cbn. intros [[_ ->]|[_ ?]]%lookup_insert_Some; [by destruct Hw|done].
  - apply Htasks; [done..|]. intros t c. cbn. by intros [[_ ?]|[_ ?]]%lookup_insert_Some.
  - apply (Hcall _ (CGranted a)); [done..|]. intros c d Hc. pose proof (done_apart k a at_ c d Hat Ha Hun Hc). split_and!; congruence.
  - apply (renewing_frame k _ [COpened c]); cbn; try done; [|intros; by repeat constructor].
    intros c0 d0 Hd0. exists d0. rewrite lookup_insert_ne; [done|]. apply (fr_controls k Hfr) in Hd0. subst c. lia.
  - destruct (ka_mine at_); [|apply Htasks; [|done..]; cbn; by rewrite app_nil_r].
    apply (Hcall _ (CUnlocked a)); [done..|]. intros c d Hc. pose proof (done_apart k a at_ c d Hat Ha Hun Hc). split_and!; congruence.
  - apply Htasks; [done..|]. intros t0 c. cbn. by intros [[_ ?]|[_ ?]]%lookup_insert_Some.
  - apply Htasks; [done..|]. intros t0 c. cbn. by intros [_ ?]%lookup_delete_Some.
  - apply (renewing_frame k _ []); cbn; try done; [by rewrite app_nil_r|]. intros c0 d0. by apply renew_put with d.
  - apply (renewing_frame k _ [CTouch c id phase]); cbn; try done; [intros c0 d0; by apply renew_put with d|].
    intros. by repeat constructor.
  - by apply (Hcall _ (CSent c)).
  - by apply renewing_end.
  - apply renewing_close; [by apply renewing_end|by cbn; rewrite lookup_insert_eq].
  - by apply renewing_close.
  - by apply (Hcall _ (CClip c)).
  - apply renewing_renew; try done. intros t0 c0. apply (fr_tasks k Hfr).
  - by eapply renewing_over.
  - by apply renewing_unlock.
  - apply Htasks; [done..|]. intros t0 c0. cbn. by intros [_ ?]%lookup_delete_Some.
Qed.

Lemma renewed_step k k' : core_step k k' → renewing_ok k → renewed_ok (k_calls k) → renewed_ok (k_calls k').
Proof.
  intros Hstep Hrn Hok.
  assert (∀ l, (∀ a granted, CRenewed a granted ∉ l) → renewed_ok (k_calls k ++ l)) as Hother by (intros; by apply renewed_snoc).
  moves Hstep; cbn; try exact Hok; try (apply Hother; intros a0 g0; by rewrite list_elem_of_singleton).
  - apply Hother. intros a0 g0. destruct (ka_mine at_); [by rewrite list_elem_of_singleton|apply not_elem_of_nil].
  - by apply (renewed_over k t c).
  - apply Hother. intros a0 g0. destruct (kc_mine d); [by rewrite list_elem_of_singleton|apply not_elem_of_nil].
Qed.

(** ** Every reachable state *)

Record core_ok (k : Core) : Prop := {
  ko_fresh : fresh_ok k;
  ko_devices : devices_ok k;
  ko_attempts : attempts_ok k;
  ko_sessions : sessions_ok k;
  ko_tasks : tasks_ok k;
  ko_used : used_ok k;
  ko_pointer : pointer_ok k;
  ko_leases : leases_ok k;
  ko_renewing : renewing_ok k;
  ko_renewed : renewed_ok (k_calls k);
}.

Lemma core_ok_init : core_ok core_init.
Proof.
  split; repeat split; try done.
  - intros (d & Hd & _). done.
  - intros Hn. by apply not_elem_of_nil in Hn.
  - intros [c Hc]. done.
  - intros a. apply l_none; [done..|]. intros [?|(c & cl & ? & _)]; done.
  - by destruct before.
  - by destruct before.
Qed.

Lemma core_ok_step k k' : core_step k k' → core_ok k → core_ok k'.
Proof.
  intros Hs [Hf Hd Ha Hse Ht Hu Hp Hl Hrn Hrd].
  split; eauto using fresh_step, devices_step, attempts_step, sessions_step, tasks_step, used_step, pointer_step, leases_step,
    renewing_step, renewed_step.
Qed.

Lemma core_ok_steps k k' : core_steps k k' → core_ok k → core_ok k'.
Proof. induction 1; eauto using core_ok_step. Qed.
