(* ===== verification/ControlHubFacts.v ===== *)
(** * A step of the hub is a run of the abstract machine

    [core] reads the state of [ControlCore] off a hub. [runs h h'] says that the machine gets from one to the other; it is
    shown of every operation of the hub, from the innermost out. *)

From Stdlib Require Import ZArith Lia.
From S2P Require Import Prelude.
From S2P Require Import Bytes.
From S2P Require Import Json.
From S2P Require Import Policy.
From S2P Require Import Oversight.
From S2P Require Import Push.
From S2P Require Import ControlInput.
From S2P Require Import FrameDevices.
From S2P Require Import ControlHub.
From S2P Require Import ControlHubInput.
From S2P Require Import ControlCore.
Open Scope Z_scope.

(** ** The projection *)

Definition holder_core (grab : PointerGrab) : option (units * nat) :=
  (fun held => (ho_id (hl_holder held), ho_session (hl_holder held))) <$> grab.

Definition lease_mine (lease : option Lease) : bool := match lease with Some l => ls_mine l | None => false end.

Definition control_core (d : DeviceControl) : CControl :=
  {| kc_key := dc_key d; kc_attempt := cf_attempt (dc_facts d); kc_taken := lease_mine (dc_lease d);
     kc_leased := has_lease (cp_platform (cf_target (dc_facts d))); kc_renewing := dc_renewing d; kc_closed := dc_closed d;
     kc_sessions := dc_sessions d; kc_holder := holder_core (dc_grab d) |}.

Definition session_core (s : Session) : nat * bool := (se_control s, se_ended s).

Definition locked_mine (lock : Locked) : bool := match lock with LGranted l => ls_mine l | _ => false end.

(** The lock an attempt has, which only [openDevice] takes. *)
Definition stage_mine (opening : Opening) (stage : Stage) : bool :=
  match stage with
  | AtLocking (Some lock) _ | AtSimulator lock _ => match opening with OpenDevice _ => locked_mine lock | _ => false end
  | _ => false
  end.

Definition stage_done (stage : Stage) : option (option nat) :=
  match stage with AtDone (Ok c) => Some (Some c) | AtDone (Throw _) => Some None | _ => None end.

Definition attempt_core (at_ : Attempt) : CAttempt :=
  let s := at_starting at_ in
  {| ka_key := bg_key s;
     ka_mine := stage_mine (bg_opening s) (at_stage at_) && has_lease (cp_platform (bg_target s));
     ka_done := stage_done (at_stage at_) |}.

Definition task_core (task : Task) : option KTask :=
  match task with
  | TBegin _ (WAttempt a creator) => Some (KAttempt a creator)
  | TBegin _ (WOpened (Ok c)) => Some (KOpened (Some c))
  | TBegin _ (WOpened (Throw _)) => Some (KOpened None)
  | TRenew c => Some (KRenew c)
  | TRelease c renewing unlocking => Some (KRelease c renewing unlocking)
  | _ => None
  end.

(** A touch that names nobody is none the machine makes; what [adb] is told is sent too. *)
Definition call_of (e : HubEffect) : option Call :=
  match e with
  | HOpened c _ => Some (COpened c)
  | HSend c (Some holder) (HcInput (ITouch touch)) => Some (CTouch c (ho_id holder) (tc_phase touch))
  | HSend c None (HcInput (ITouch _)) => Some (CStray c)
  | HSend c _ _ | HAdb c _ => Some (CSent c)
  | HClipboard c _ => Some (CClip c)
  | HDetach c => Some (CDetached c)
  | HGranted a target l => if ls_mine l && has_lease (cp_platform target) then Some (CGranted a) else None
  | HRenews a => Some (CRenews a)
  | HRenewed a target granted => Some (CRenewed a (bool_decide (is_Some granted) && has_lease (cp_platform target)))
  | HUnlock a _ _ => Some (CUnlocked a)
  | _ => None
  end.

Definition core (h : Hub) : Core :=
  {| k_sessions := hb_sessions h; k_session := session_core <$> hb_session h; k_controls := control_core <$> hb_controls h;
     k_byDevice := hb_byDevice h; k_opening := hb_opening h; k_attempts := attempt_core <$> hb_attempts h;
     k_tasks := omap task_core (hb_tasks h); k_fresh := hb_fresh h; k_next := hb_next h;
     k_calls := omap call_of (hb_trace h) |}.

(** ** Runs *)

Definition runs (h h' : Hub) : Prop := core_ok (core h) → core_steps (core h) (core h').

Lemma runs_refl h : runs h h.
Proof. by intros _. Qed.

Lemma runs_trans h1 h2 h3 : runs h1 h2 → runs h2 h3 → runs h1 h3.
Proof. intros H12 H23 Hok. etrans; [by apply H12|]. apply H23. eapply core_ok_steps; [by apply H12|done]. Qed.

Lemma runs_eq h h' : core h' = core h → runs h h'.
Proof. unfold runs. by intros ->. Qed.

Lemma runs_step h h' : (core_ok (core h) → core_step (core h) (core h')) → runs h h'.
Proof. intros Hs Hok. by apply rtc_once, Hs. Qed.

(** [h'] runs on from a hub with the core of [h]. *)
Lemma runs_from h h1 h2 : core h1 = core h → runs h1 h2 → runs h h2.
Proof. unfold runs. by intros ->. Qed.
Lemma runs_to h h1 h2 : core h2 = core h1 → runs h h1 → runs h h2.
Proof. unfold runs. by intros ->. Qed.

Create HintDb hub.
#[export] Hint Resolve runs_refl : hub.

(** ** What the assignments do to the core *)

Lemma core_emit e h : core (emit e h) = call (match call_of e with Some x => [x] | None => [] end) (core h).
Proof. unfold core, emit, call. cbn. rewrite omap_app. cbn. by destruct (call_of e). Qed.

Lemma core_quiet e h : call_of e = None → core (emit e h) = core h.
Proof. intros He. rewrite core_emit, He. unfold call, put_calls. cbn. by rewrite app_nil_r. Qed.

Lemma core_answer request a h : core (answer request a h) = core h.
Proof. by apply core_quiet. Qed.

Lemma core_upd_control c f h :
  core (upd_control c f h) = put_controls (core h) (control_core <$> alter f c (hb_controls h)).
Proof. done. Qed.

Lemma alter_at {A} (f : A → A) c d (m : gmap nat A) : m !! c = Some d → alter f c m = <[c := f d]> m.
Proof.
  intros Hc. apply map_eq. intros c0. destruct (decide (c = c0)) as [->|Hne].
  - by rewrite lookup_alter_eq, lookup_insert_eq, Hc.
  - by rewrite lookup_alter_ne, lookup_insert_ne.
Qed.

Lemma core_put_control c f d h :
  hb_controls h !! c = Some d → core (upd_control c f h) = put_control c (control_core (f d)) (core h).
Proof. intros Hc. rewrite core_upd_control, (alter_at f c d) by done. by rewrite fmap_insert. Qed.

Lemma put_same {A B} (g : A → B) (f : A → A) c (m : gmap nat A) :
  (∀ d, m !! c = Some d → g (f d) = g d) → g <$> alter f c m = g <$> m.
Proof.
  intros Hd. apply map_eq. intros c0. rewrite !lookup_fmap. destruct (decide (c = c0)) as [->|Hne].
  - rewrite lookup_alter_eq. destruct (m !! c0) as [d|] eqn:E; [|done]. cbn. by rewrite Hd.
  - by rewrite lookup_alter_ne.
Qed.

(** A change of a control the machine does not see. *)
Lemma core_same_control c f h :
  (∀ d, hb_controls h !! c = Some d → control_core (f d) = control_core d) → core (upd_control c f h) = core h.
Proof. intros Hd. rewrite core_upd_control. rewrite put_same by done. by destruct h. Qed.

Lemma core_same_session n f h : (∀ s, session_core (f s) = session_core s) → core (upd_session n f h) = core h.
Proof. intros Hs. unfold core, upd_session. cbn. by rewrite put_same by (intros; apply Hs). Qed.

Lemma core_put_task t task h :
  core (put_task t task h)
  = put_tasks (core h) (match task_core task with
                        | Some w => <[t := w]> (k_tasks (core h))
                        | None => delete t (k_tasks (core h))
                        end).
Proof. unfold core, put_task. cbn. rewrite omap_insert. by destruct (task_core task). Qed.

Lemma core_drop_task t h : core (drop_task t h) = drop_ktask t (core h).
Proof. unfold core, drop_task, drop_ktask. cbn. by rewrite omap_delete. Qed.

Lemma put_tasks_same k : put_tasks k (k_tasks k) = k.
Proof. by destruct k. Qed.

(** A task the machine does not see. *)
Lemma core_drop_quiet t task h : hb_tasks h !! t = Some task → task_core task = None → core (drop_task t h) = core h.
Proof.
  intros Ht Hq. rewrite core_drop_task. unfold drop_ktask. rewrite delete_id; [apply put_tasks_same|].
  cbn. by rewrite lookup_omap, Ht.
Qed.

Lemma core_put_quiet t task task' h :
  hb_tasks h !! t = Some task → task_core task = None → task_core task' = None → core (put_task t task' h) = core h.
Proof.
  intros Ht Hq Hq'. rewrite core_put_task, Hq', delete_id; [apply put_tasks_same|]. cbn. by rewrite lookup_omap, Ht.
Qed.

Lemma core_fresh h : core (snd (fresh_id h)) = put_fresh (core h) (S (k_fresh (core h))).
Proof. done. Qed.

Lemma fresh_task h : core_ok (core h) → k_tasks (core h) !! k_fresh (core h) = None.
Proof.
  intros Hok. apply eq_None_not_Some. intros [w Hw%(fr_tasks _ (ko_fresh _ Hok))]. lia.
Qed.

Lemma core_spawn task h :
  core (snd (spawn task h))
  = put_fresh (put_tasks (core h) (match task_core task with
                                   | Some w => <[k_fresh (core h) := w]> (k_tasks (core h))
                                   | None => delete (k_fresh (core h)) (k_tasks (core h))
                                   end)) (S (k_fresh (core h))).
Proof. unfold spawn. cbn [fresh_id snd]. rewrite core_put_task. done. Qed.

Lemma runs_spawn task h : task_core task = None → runs h (snd (spawn task h)).
Proof.
  intros Hq. apply runs_step. intros Hok. rewrite core_spawn, Hq, delete_id by (by apply fresh_task).
  rewrite put_tasks_same. apply ks_id.
Qed.

Lemma core_clear_timer timer h : core (clear_timer timer h) = core h.
Proof. destruct timer; [|done]. unfold clear_timer. by rewrite core_quiet. Qed.

Lemma core_start_timer alarm ms h : core (snd (start_timer alarm ms h)) = put_fresh (core h) (S (k_fresh (core h))).
Proof. unfold start_timer. cbn [fresh_id snd]. by rewrite core_quiet. Qed.

Lemma runs_start_timer alarm ms h : runs h (snd (start_timer alarm ms h)).
Proof. apply runs_step. intros _. rewrite core_start_timer. apply ks_id. Qed.

(** ** Closing a control *)

Lemma controls_clear timer h : hb_controls (clear_timer timer h) = hb_controls h.
Proof. by destruct timer. Qed.
Lemma byDevice_clear timer h : hb_byDevice (clear_timer timer h) = hb_byDevice h.
Proof. by destruct timer. Qed.

Lemma core_detach c d h :
  hb_controls h !! c = Some d →
  core (detach c d h) = call [CDetached c] (put_control c (as_closed (control_core d)) (core h)).
Proof.
  intros Hc. unfold detach. rewrite core_emit. cbn [call_of]. f_equal.
  destruct (dc_watched d); rewrite ?core_quiet by done; rewrite !core_clear_timer, core_quiet by done;
    by rewrite (core_put_control c _ d).
Qed.

Lemma byDevice_detach c d h : hb_byDevice (detach c d h) = hb_byDevice h.
Proof.
  unfold detach. cbn [emit set_trace hb_byDevice].
  destruct (dc_watched d); cbn [emit set_trace hb_byDevice]; by rewrite !byDevice_clear.
Qed.

Lemma open_device h c d :
  core_ok (core h) → hb_controls h !! c = Some d → dc_closed d = false → hb_byDevice h !! dc_key d = Some c.
Proof.
  intros Hok Hc Ho. apply (ko_devices _ Hok). exists (control_core d). cbn. by rewrite lookup_fmap, Hc.
Qed.

Lemma core_forget c d h :
  hb_byDevice h !! dc_key d = Some c →
  core (forget_device c d (detach c d h))
  = put_byDevice (core (detach c d h)) (delete (dc_key d) (hb_byDevice h)).
Proof.
  intros Hb. unfold forget_device. by rewrite byDevice_detach, Hb, decide_True.
Qed.

Lemma core_release_lease c d h :
  core (release_lease c d h)
  = if lease_mine (dc_lease d)
    then put_fresh (put_tasks (core h) (<[k_fresh (core h) := KRelease c (dc_renewing d) false]> (k_tasks (core h)))) (S (k_fresh (core h)))
    else core h.
Proof.
  unfold release_lease. destruct (dc_lease d) as [[g e []]|]; [|done..]. cbn [lease_mine ls_mine].
  change (core _) with (core (snd (spawn (TRelease c (dc_renewing d) false) h))) at 1. by rewrite core_spawn.
Qed.

Lemma core_close c d h :
  hb_byDevice h !! dc_key d = Some c → hb_controls h !! c = Some d → dc_closed d = false → dc_sessions d = [] →
  core (closeIfUnused c h) = close_core c (control_core d) (core h).
Proof.
  intros Hb Hc Ho Hn. unfold closeIfUnused. rewrite Hc, Ho, bool_decide_true by done. cbn [negb orb].
  rewrite core_release_lease, core_forget, core_detach by done. unfold close_core. cbn [kc_taken control_core].
  by destruct (lease_mine (dc_lease d)).
Qed.

Lemma core_no_close c h :
  (∀ d, hb_controls h !! c = Some d → dc_closed d = true ∨ dc_sessions d ≠ []) → closeIfUnused c h = h.
Proof.
  intros Hd. unfold closeIfUnused. destruct (hb_controls h !! c) as [d|]; [|done].
  destruct (Hd d eq_refl) as [-> | Hn]; [done|]. rewrite bool_decide_false by done. by rewrite orb_true_r.
Qed.

Lemma close_cases c h :
  (∃ d, hb_controls h !! c = Some d ∧ dc_closed d = false ∧ dc_sessions d = []) ∨ closeIfUnused c h = h.
Proof.
  destruct (hb_controls h !! c) as [d|] eqn:Hc.
  - destruct (dc_closed d) eqn:Ho; [right; apply core_no_close; naive_solver|].
    destruct (decide (dc_sessions d = [])) as [Hn|Hn]; [left; eauto|right; apply core_no_close; naive_solver].
  - right. apply core_no_close. naive_solver.
Qed.

Lemma at_core h c d : hb_controls h !! c = Some d → k_controls (core h) !! c = Some (control_core d).
Proof. intros Hc. cbn. by rewrite lookup_fmap, Hc. Qed.

Lemma runs_close c h : runs h (closeIfUnused c h).
Proof.
  destruct (close_cases c h) as [(d & Hc & Ho & Hn)| ->]; [|apply runs_refl].
  apply runs_step. intros Hok. rewrite (core_close c d) by (done || by apply open_device).
  apply ks_close; [by apply at_core|done..].
Qed.

(** ** Lifting the pointer *)

Lemma core_show t target who touch h : core (show t target who touch h) = core h.
Proof. unfold show. destruct (has_lease _); [by rewrite core_quiet|done]. Qed.

Lemma phase_on_display t touch : tc_phase (on_display t touch) = tc_phase touch.
Proof. unfold on_display. by destruct (tc_display touch), (tc_duoRevision touch). Qed.

Lemma core_grabIdle c timer h : core (upd_control c (fun d => set_grabIdle d timer) h) = core h.
Proof. by apply core_same_control. Qed.

Lemma core_lift t c d lifted h :
  hb_controls h !! c = Some d → dc_closed d = false →
  core (lift t c lifted h)
  = match lifted with Some (holder, up) => call [CTouch c (ho_id holder) (tc_phase up)] (core h) | None => core h end.
Proof.
  intros Hc Ho. unfold lift. rewrite Hc, Ho. destruct lifted as [[holder up]|].
  - rewrite core_show, core_emit. cbn [call_of]. by rewrite phase_on_display, core_grabIdle, core_clear_timer.
  - by rewrite core_grabIdle, core_clear_timer.
Qed.

Lemma core_lift_none t c h : core (lift t c None h) = core h.
Proof.
  unfold lift. destruct (hb_controls h !! c) as [d|]; [|done]. by rewrite core_grabIdle, core_clear_timer.
Qed.

(** A pointer that is held is held on an open control, through one of its sessions. *)
Lemma held_open h c d held :
  core_ok (core h) → hb_controls h !! c = Some d → dc_grab d = Some held →
  dc_closed d = false ∧ ho_session (hl_holder held) ∈ dc_sessions d.
Proof.
  intros Hok Hc Hg. pose proof (ko_sessions _ Hok) as Hso. apply at_core in Hc.
  assert (kc_holder (control_core d) = Some (ho_id (hl_holder held), ho_session (hl_holder held))) as Hh
    by (cbn; by rewrite Hg).
  pose proof (ss_holder _ Hso _ _ _ _ Hc Hh) as Hn. destruct (ss_joined _ Hso _ _ _ Hc Hn) as [_ Ho]. done.
Qed.

Lemma lookup_upd c f h d : hb_controls h !! c = Some d → hb_controls (upd_control c f h) !! c = Some (f d).
Proof. intros Hc. cbn. by rewrite lookup_alter_eq, Hc. Qed.

(** The pointer is let go where it was held. *)
Definition let_go_core (c : nat) (d : DeviceControl) (k : Core) : Core :=
  match dc_grab d with
  | Some held => call [CTouch c (ho_id (hl_holder held)) Up] (put_control c (with_holder None (control_core d)) k)
  | None => k
  end.

Lemma core_lift_held t c d held h :
  hb_controls h !! c = Some d → dc_closed d = false → dc_grab d = Some held →
  core (lift t c (Some (grab_lift held)) (upd_control c (fun d => set_grab d None) h)) = let_go_core c d (core h).
Proof.
  intros Hc Ho Hg. unfold let_go_core. rewrite Hg.
  rewrite (core_lift t c (set_grab d None)); [|by rewrite (lookup_upd c _ h d)|done].
  cbn [grab_lift tc_phase up_of]. f_equal. by rewrite (core_put_control c _ d).
Qed.

Lemma core_lift_expired t c d h :
  hb_controls h !! c = Some d → dc_closed d = false → core (lift_expired t c h) = let_go_core c d (core h).
Proof.
  intros Hc Ho. unfold lift_expired. rewrite Hc. cbn [grab_expire].
  destruct (dc_grab d) as [held|] eqn:Hg; cbn [fmap option_fmap option_map].
  - by apply core_lift_held.
  - rewrite core_lift_none. unfold let_go_core. rewrite Hg. apply core_same_control. intros d' Hd'. simplify_eq.
    unfold control_core. cbn. by rewrite Hg.
Qed.

Lemma lets_go h c d :
  core_ok (core h) → hb_controls h !! c = Some d → core_steps (core h) (let_go_core c d (core h)).
Proof.
  intros Hok Hc. unfold let_go_core. destruct (dc_grab d) as [held|] eqn:Hg; [|done].
  destruct (held_open h c d held) as [Ho Hn]; [done..|]. apply rtc_once.
  eapply (ks_touch _ c (control_core d) _ (ho_session (hl_holder held))); [by apply at_core|done|done|].
  cbn. rewrite Hg. cbn. constructor.
Qed.

Lemma runs_lift_expired t c h : runs h (lift_expired t c h).
Proof.
  intros Hok. destruct (hb_controls h !! c) as [d|] eqn:Hc; [|unfold lift_expired; by rewrite Hc].
  destruct (dc_grab d) as [held|] eqn:Hg.
  - destruct (held_open h c d held) as [Ho _]; [done..|]. rewrite (core_lift_expired t c d) by done. by apply lets_go.
  - unfold lift_expired. rewrite Hc, Hg. cbn. rewrite core_lift_none, core_same_control; [done|].
    intros d' Hd'. simplify_eq. unfold control_core. cbn. by rewrite Hg.
Qed.

Lemma runs_expireGrab t c h : runs h (expireGrab t c h).
Proof. unfold expireGrab. eapply runs_from; [apply (core_grabIdle c None)|apply runs_lift_expired]. Qed.

(** ** The end of a session *)

Lemma core_ended n s h :
  hb_session h !! n = Some s →
  core (upd_session n set_ended h) = put_session (core h) (<[n := (se_control s, true)]> (k_session (core h))).
Proof.
  intros Hs. unfold core, upd_session. cbn. rewrite (alter_at set_ended n s) by done. by rewrite fmap_insert.
Qed.

(** What the machine sees of the control after the pointer is let go. *)
Definition after_let_go (n : nat) (d : DeviceControl) : bool :=
  match dc_grab d with Some held => bool_decide (ho_session (hl_holder held) = n) | None => false end.

Lemma core_let_go t n s d h :
  hb_controls h !! se_control s = Some d → dc_closed d = false →
  core (let_go t n s h) = if after_let_go n d then let_go_core (se_control s) d (core h) else core h.
Proof.
  intros Hc Ho. unfold let_go, after_let_go. rewrite Hc. cbn [mbind option_bind].
  destruct (se_hostShown s && _); rewrite ?core_quiet by done;
    (destruct (dc_grab d) as [held|] eqn:Hg; [|done]; destruct (bool_decide _); [|done]; by apply core_lift_expired).
Qed.

Lemma core_leave n s dk h :
  k_controls (core h) !! se_control s = Some dk →
  core (leave n s h)
  = put_control (se_control s) (with_sessions (without n (kc_sessions dk)) dk)
      (put_sessions (core h) (without n (k_sessions (core h)))).
Proof.
  intros Hc. cbn in Hc. rewrite lookup_fmap in Hc. destruct (hb_controls h !! se_control s) as [d|] eqn:Hd; [|done].
  cbn in Hc. simplify_eq. unfold leave. by rewrite (core_put_control _ _ d).
Qed.

Lemma core_tell_end t n s reason message h :
  core (tell_end t n s reason message h) = call (if se_deviceKeyboard s then [CSent (se_control s)] else []) (core h).
Proof.
  unfold tell_end. rewrite core_quiet by done. destruct reason; rewrite ?core_quiet by done;
    (destruct (se_deviceKeyboard s); [by rewrite core_emit|]); unfold call, put_calls; cbn; by rewrite app_nil_r.
Qed.

Lemma session_live h n s :
  core_ok (core h) → hb_session h !! n = Some s → se_ended s = false →
  n ∈ hb_sessions h ∧
  ∃ d, hb_controls h !! se_control s = Some d ∧ n ∈ dc_sessions d ∧ dc_closed d = false.
Proof.
  intros Hok Hs He. pose proof (ko_sessions _ Hok) as Hso.
  assert (k_session (core h) !! n = Some (se_control s, false)) as Hk.
  { cbn. rewrite lookup_fmap, Hs. cbn. unfold session_core. by rewrite He. }
  split; [apply (ss_live _ Hso); by exists (se_control s)|].
  destruct (ss_known _ Hso _ _ Hk) as (dk & Hdk & Hn). pose proof Hdk as Hdk'. cbn in Hdk'. rewrite lookup_fmap in Hdk'.
  destruct (hb_controls h !! se_control s) as [d|]; [|done]. cbn in Hdk'. simplify_eq. exists d. split_and!; [done..|].
  by destruct (ss_joined _ Hso _ _ _ Hdk Hn).
Qed.

Lemma call_nil k : call [] k = k.
Proof. unfold call, put_calls. rewrite app_nil_r. by destruct k. Qed.

Lemma control_of_core h c dk :
  k_controls (core h) !! c = Some dk → ∃ d, hb_controls h !! c = Some d ∧ control_core d = dk.
Proof.
  cbn. rewrite lookup_fmap. destruct (hb_controls h !! c) as [d|]; [|done]. cbn. intros. simplify_eq. eauto.
Qed.

Section EndSession.
Context (t : HubTurn) (n : nat) (s : Session) (d : DeviceControl) (h : Hub).
Hypothesis Hok : core_ok (core h).
Hypothesis Hs : hb_session h !! n = Some s.
Hypothesis He : se_ended s = false.
Hypothesis Hc : hb_controls h !! se_control s = Some d.
Hypothesis Ho : dc_closed d = false.

Let k1 : Core := if after_let_go n d then let_go_core (se_control s) d (core h) else core h.
Let dk1 : CControl := if after_let_go n d then with_holder None (control_core d) else control_core d.
Let k2 : Core := call (if se_deviceKeyboard s then [CSent (se_control s)] else []) k1.

Lemma end_dk1 : k_controls k1 !! se_control s = Some dk1 ∧ kc_closed dk1 = false ∧ kc_key dk1 = dc_key d ∧
  kc_taken dk1 = lease_mine (dc_lease d) ∧ kc_sessions dk1 = dc_sessions d ∧ (∀ id, kc_holder dk1 ≠ Some (id, n)).
Proof.
  subst k1 dk1. unfold after_let_go, let_go_core. destruct (dc_grab d) as [held|] eqn:Hg.
  - case_bool_decide as Hn; (split; [|repeat split; try done]).
    + cbn. by rewrite lookup_insert_eq.
    + by apply at_core.
    + cbn. rewrite Hg. intros id. cbn. congruence.
  - split; [by apply at_core|]. repeat split; try done. cbn. by rewrite Hg.
Qed.

Lemma end_k2 : core_steps (core h) k2 ∧ k_controls k2 = k_controls k1 ∧ k_session k2 = k_session (core h) ∧
  k_byDevice k2 = hb_byDevice h.
Proof.
  destruct end_dk1 as (Hk & Hcl & _).
  assert (core_steps (core h) k1) as H1 by (subst k1; destruct (after_let_go n d); [by apply lets_go|done]).
  split; [|subst k2 k1; unfold let_go_core; destruct (after_let_go n d), (dc_grab d); done].
  subst k2. destruct (se_deviceKeyboard s); [|by rewrite call_nil].
  eapply rtc_r; [exact H1|]. by eapply ks_send.
Qed.

Lemma end_core_eq reason message :
  core (tell_end t n s reason message (leave n s (let_go t n s
          (clear_timer (Some (se_idle s)) (upd_session n set_ended h)))))
  = end_core n (se_control s) dk1 k2.
Proof.
  rewrite core_tell_end.
  assert (core (let_go t n s (clear_timer (Some (se_idle s)) (upd_session n set_ended h)))
    = put_session k1 (<[n := (se_control s, true)]> (k_session (core h)))) as Hlet.
  { rewrite (core_let_go t n s d) by done. subst k1.
    rewrite core_clear_timer, (core_ended n s) by done. unfold let_go_core. by destruct (after_let_go n d), (dc_grab d). }
  rewrite (core_leave n s dk1); rewrite Hlet; [|apply end_dk1].
  subst k2 k1. unfold end_core, let_go_core. by destruct (after_let_go n d), (dc_grab d).
Qed.

Lemma end_session_steps reason message : core_steps (core h) (core (end_session t n reason message h)).
Proof.
  unfold end_session. rewrite Hs, He. set (h4 := tell_end _ _ _ _ _ _).
  pose proof (end_core_eq reason message) as Heq. fold h4 in Heq.
  destruct end_dk1 as (Hk & Hcl & Hkey & Htk & Hss & Hnh). destruct end_k2 as (H2 & Hk2 & Hsess & Hby).
  assert (k_session k2 !! n = Some (se_control s, false)) as Hsn.
  { rewrite Hsess. cbn. rewrite lookup_fmap, Hs. cbn. unfold session_core. by rewrite He. }
  assert (k_controls k2 !! se_control s = Some dk1) as Hck by by rewrite Hk2.
  assert (k_controls (core h4) !! se_control s = Some (with_sessions (without n (kc_sessions dk1)) dk1)) as H4.
  { rewrite Heq. cbn. by rewrite lookup_insert_eq. }
  apply control_of_core in H4 as (d4 & Hd4 & Hcore).
  assert (dc_sessions d4 = without n (kc_sessions dk1)) as Hss4 by (change (kc_sessions (control_core d4) = without n (kc_sessions dk1)); by rewrite Hcore).
  assert (dc_closed d4 = false) as Hcl4 by (change (kc_closed (control_core d4) = false); by rewrite Hcore).
  eapply rtc_r; [exact H2|]. destruct (decide (without n (kc_sessions dk1) = [])) as [Hlast|Hrest].
  - rewrite (core_close _ d4); [|change (k_byDevice (core h4) !! kc_key (control_core d4) = Some (se_control s))|done..|by rewrite Hss4].
    + rewrite Heq, Hcore. by apply ks_last.
    + rewrite Heq, Hcore. cbn. rewrite Hkey. change (k_byDevice k2 !! dc_key d = Some (se_control s)).
      rewrite Hby. by apply open_device.
  - rewrite core_no_close; [|intros d' Hd'; right; simplify_eq; by rewrite Hss4]. rewrite Heq. by apply ks_end.
Qed.
End EndSession.

Lemma runs_end_session t n reason message h : runs h (end_session t n reason message h).
Proof.
  intros Hok. destruct (hb_session h !! n) as [s|] eqn:Hs; [|unfold end_session; by rewrite Hs].
  destruct (se_ended s) eqn:He; [unfold end_session; by rewrite Hs, He|].
  destruct (session_live h n s Hok Hs He) as (_ & d & Hc & _ & Ho). by apply (end_session_steps t n s d).
Qed.

Lemma runs_end_each t reason message sessions h : runs h (end_each t reason message sessions h).
Proof.
  unfold end_each. revert h. induction sessions as [|n sessions IH]; intros h; [apply runs_refl|]. cbn.
  eapply runs_trans; [apply runs_end_session|apply IH].
Qed.

Lemma runs_endAll t c reason message h : runs h (endAll t c reason message h).
Proof. unfold endAll. destruct (hb_controls h !! c); [apply runs_end_each|apply runs_refl]. Qed.

(** ** The beginning of a control *)

Lemma runs_wait s wait h :
  (core_ok (core h) → match task_core (TBegin s wait) with Some w => waits_for (core h) w | None => False end) →
  runs h (snd (spawn (TBegin s wait) h)).
Proof.
  intros Hw. apply runs_step. intros Hok. specialize (Hw Hok). rewrite core_spawn.
  destruct (task_core (TBegin s wait)) as [w|]; [|done]. by apply (ks_wait (core h) w).
Qed.

Lemma runs_deviceControl s h : runs h (deviceControl s h).
Proof.
  unfold deviceControl. destruct (hb_byDevice h !! bg_key s) as [c|] eqn:Hb.
  - apply runs_wait. intros Hok. apply (ko_devices _ Hok) in Hb as (d & Hd & _). by exists d.
  - destruct (hb_opening h !! bg_key s) as [a|] eqn:Ha.
    + apply runs_wait. intros Hok. destruct (at_there _ (ko_attempts _ Hok) _ _ Ha) as (at_ & Hat & _).
      split; [done|]. by exists at_.
    + apply runs_step. intros Hok. cbn [fresh_id].
      rewrite core_spawn. cbn [task_core].
      pose proof (ks_try (core h) (bg_key s) Hb Ha) as Hstep. cbv zeta in Hstep.
      match type of Hstep with core_step _ ?k => match goal with |- core_step _ ?k' => replace k' with k; [exact Hstep|] end end.
      unfold core, put_ktask, put_attempt. cbn. rewrite fmap_insert. done.
Qed.

Lemma runs_begin t request owner target cwd h : runs h (begin t request owner target cwd h).
Proof. unfold begin. destruct (hb_closing h); [by apply runs_eq, core_answer|by apply runs_spawn]. Qed.

Lemma runs_beginHosted t request owner target cwd device claim h :
  runs h (beginHosted t request owner target cwd device claim h).
Proof. unfold beginHosted. destruct (hb_closing h); [by apply runs_eq, core_answer|apply runs_deviceControl]. Qed.

Section Opening.
Context `{!NodeDate, !NodeText} (o : ControlOptions).

Lemma runs_status_read t task read h : runs h (status_read o t task read h).
Proof.
  unfold status_read. destruct (hb_tasks h !! task) as [[]|] eqn:Ht; try apply runs_refl.
  eapply runs_from; [by eapply core_drop_quiet|]. destruct read; try (by apply runs_eq, core_answer).
  destruct (ownedDevice _ _ _ _ _); [|by apply runs_eq, core_answer].
  destruct (if cp_physical target then _ else _); [apply runs_deviceControl|by apply runs_eq, core_answer].
Qed.

Lemma core_set_stage a at_ stage h :
  hb_attempts h !! a = Some at_ →
  core (set_stage a stage h) = put_attempt a (attempt_core {| at_starting := at_starting at_; at_stage := stage |}) (core h).
Proof. intros Ha. unfold core, set_stage, put_attempt. cbn. rewrite (alter_at _ a at_) by done. by rewrite fmap_insert. Qed.

Lemma put_attempt_same a at_ k : k_attempts k !! a = Some at_ → put_attempt a at_ k = k.
Proof. intros Ha. unfold put_attempt. rewrite insert_id by done. by destruct k. Qed.

Lemma attempt_at_core h a at_ : hb_attempts h !! a = Some at_ → k_attempts (core h) !! a = Some (attempt_core at_).
Proof. intros Ha. cbn. by rewrite lookup_fmap, Ha. Qed.

(** A stage the machine does not tell from the one before. *)
Lemma core_same_stage a s stage stage' h :
  hb_attempts h !! a = Some {| at_starting := s; at_stage := stage |} →
  stage_mine (bg_opening s) stage' = stage_mine (bg_opening s) stage → stage_done stage' = stage_done stage →
  core (set_stage a stage' h) = core h.
Proof.
  intros Ha Hm Hd. rewrite (core_set_stage a _ stage' h Ha). apply put_attempt_same.
  rewrite (attempt_at_core h a _ Ha). unfold attempt_core. cbn. by rewrite Hm, Hd.
Qed.

Lemma heldLease_mine now status target l : heldLease o now status target = Ok l → ls_mine l = false.
Proof.
  unfold heldLease. destruct (workspaceLease _ _ _ _) as [d|]; [|done]. destruct (non_empty _); [|done].
  intros. by simplify_eq.
Qed.

Lemma runs_attempt_released t a h : runs h (attempt_released o t a h).
Proof.
  unfold attempt_released. destruct (hb_attempts h !! a) as [[s stage]|] eqn:Ha; [|apply runs_refl].
  destruct stage as [release| | |]; try apply runs_refl. destruct (negb _); [apply runs_refl|].
  apply runs_eq. destruct (bg_opening s) as [status|claim] eqn:Eo.
  - destruct (cp_physical (bg_target s)).
    + eapply core_same_stage; [exact Ha| |done]. rewrite Eo. cbn.
      destruct (heldLease _ _ _ _) as [l|] eqn:El; [|done]. cbn. by apply heldLease_mine in El.
    + destruct (lock_args _ _ _) as [args|].
      * rewrite (core_same_stage a s (AtReleasing release)); [by rewrite core_quiet|exact Ha|by rewrite Eo|done].
      * eapply core_same_stage; [exact Ha|by rewrite Eo|done].
  - eapply core_same_stage; [exact Ha|by rewrite Eo|done].
Qed.

Lemma core_own_lease lock h : core (own_lease lock h) = core h.
Proof. unfold own_lease. destruct lock as [|[[] ? []]|]; try done. by case_decide. Qed.

Lemma attempts_own_lease lock h : hb_attempts (own_lease lock h) = hb_attempts h.
Proof. unfold own_lease. destruct lock as [|[[] ? []]|]; try done. by case_decide. Qed.

Lemma runs_attempt_locked a outcome h : runs h (attempt_locked a outcome h).
Proof.
  unfold attempt_locked. destruct (hb_attempts h !! a) as [[s stage]|] eqn:Ha; [|apply runs_refl].
  destruct stage as [|[]| |]; try apply runs_refl. destruct (bg_opening s) as [status|] eqn:Eo; [|apply runs_refl].
  set (lock := locked_as _ _). set (h1 := own_lease lock h).
  assert (core h1 = core h) as H1 by apply core_own_lease.
  assert (hb_attempts h1 !! a = Some {| at_starting := s; at_stage := AtLocking None postures |}) as Ha1.
  { unfold h1. by rewrite attempts_own_lease. }
  assert (core (set_stage a (AtLocking (Some lock) postures) h1)
    = put_attempt a {| ka_key := bg_key s; ka_mine := locked_mine lock && has_lease (cp_platform (bg_target s)); ka_done := None |}
        (core h)) as H2.
  { rewrite (core_set_stage a _ _ h1 Ha1), H1. unfold attempt_core. cbn. by rewrite Eo. }
  assert (k_attempts (core h) !! a = Some {| ka_key := bg_key s; ka_mine := false; ka_done := None |}) as Hk.
  { by rewrite (attempt_at_core h a _ Ha). }
  assert (locked_mine lock && has_lease (cp_platform (bg_target s)) = false →
    core (set_stage a (AtLocking (Some lock) postures) h1) = core h) as Hsame.
  { intros Hm. rewrite H2, Hm. by apply put_attempt_same. }
  destruct lock as [|l|r]; [apply runs_eq; by apply Hsame| |apply runs_eq; by apply Hsame].
  cbn [locked_mine] in *. destruct (ls_mine l && _) eqn:Em.
  - apply runs_step. intros Hok. rewrite core_emit. cbn [call_of]. rewrite Em, H2. by apply (ks_grant (core h) a _ Hk).
  - apply runs_eq. rewrite core_quiet by (cbn [call_of]; by rewrite Em). by apply Hsame.
Qed.

Lemma runs_attempt_postures a hinged h : runs h (attempt_postures a hinged h).
Proof.
  unfold attempt_postures. destruct (hb_attempts h !! a) as [[s stage]|] eqn:Ha; [|apply runs_refl].
  destruct stage as [|lock []| |]; try apply runs_refl.
  apply runs_eq. by apply (core_same_stage a s (AtLocking lock None)).
Qed.

(** ** Opening *)

(** A new control of a device. *)
Definition opened_core (a : nat) (s : Starting) (taken : bool) (h : Hub) : Core :=
  put_fresh (call [COpened (hb_fresh h)] (put_byDevice (put_control (hb_fresh h)
    (new_control (bg_key s) a taken (has_lease (cp_platform (bg_target s)))) (core h))
    (<[bg_key s := hb_fresh h]> (hb_byDevice h)))) (S (S (hb_fresh h))).

(** What [open] leaves: nothing, or a new control of its device. *)
Lemma open_cases t a s beganAt postures lease simulator claim h :
  (∃ r, open o t a s beganAt postures lease simulator claim h = (Throw r, h)) ∨
  ∃ h1, open o t a s beganAt postures lease simulator claim h = (Ok (hb_fresh h), h1) ∧
    hb_attempts h1 = hb_attempts h ∧
    (∃ d, hb_controls h1 !! hb_fresh h = Some d) ∧
    core h1 = opened_core a s (lease_mine lease) h.
Proof.
  unfold open. destruct (hb_closing h); [left; by eexists|]. destruct (negb _); [left; by eexists|]. right.
  eexists. split; [done|]. split; [done|]. split; [eexists; cbn; by rewrite lookup_insert_eq|].
  unfold opened_core, core, call, put_control. cbn. rewrite !omap_app, fmap_insert. cbn. by rewrite app_nil_r.
Qed.

(** The moves of an attempt that opened a control. *)
Lemma opened_steps h h1 a s stage taken :
  hb_attempts h !! a = Some {| at_starting := s; at_stage := stage |} → stage_done stage = None →
  hb_attempts h1 = hb_attempts h →
  stage_mine (bg_opening s) stage && has_lease (cp_platform (bg_target s)) = taken && has_lease (cp_platform (bg_target s)) →
  core h1 = opened_core a s taken h →
  core_steps (core h) (core (set_stage a (AtDone (Ok (hb_fresh h))) h1)).
Proof.
  intros Ha Hd Hat Hm H1. rewrite <-Hat in Ha. rewrite (core_set_stage a _ _ h1 Ha), H1. rewrite Hat in Ha.
  pose proof (ks_open (core h) a _ taken (has_lease (cp_platform (bg_target s))) (attempt_at_core h a _ Ha) Hd Hm) as Hstep.
  cbv zeta in Hstep. eapply rtc_l; [exact Hstep|]. apply rtc_once.
  match goal with |- core_step ?k _ => exact (ks_id k) end.
Qed.

Lemma failed_steps h h1 a s stage r :
  hb_attempts h !! a = Some {| at_starting := s; at_stage := stage |} → stage_done stage = None →
  hb_attempts h1 = hb_attempts h →
  core h1 = call (if stage_mine (bg_opening s) stage && has_lease (cp_platform (bg_target s)) then [CUnlocked a] else [])
              (core h) →
  core_steps (core h) (core (set_stage a (AtDone (Throw r)) h1)).
Proof.
  intros Ha Hd Hat H1. rewrite <-Hat in Ha. rewrite (core_set_stage a _ _ h1 Ha), H1. rewrite Hat in Ha.
  apply rtc_once. exact (ks_fail (core h) a _ (attempt_at_core h a _ Ha) Hd).
Qed.


(** What a stage that has a lock holds. *)
Definition stage_lock (stage : Stage) : option Locked :=
  match stage with AtLocking (Some lock) _ | AtSimulator lock _ => Some lock | _ => None end.

Lemma stage_lock_mine stage lock opening :
  stage_lock stage = Some lock →
  stage_mine opening stage = match opening with OpenDevice _ => locked_mine lock | OpenHosted _ => false end ∧
  stage_done stage = None.
Proof. destruct stage as [|[]| |]; cbn; intros; simplify_eq; done. Qed.

Lemma runs_unlock_failed a s stage r h :
  hb_attempts h !! a = Some {| at_starting := s; at_stage := stage |} → stage_done stage = None →
  stage_mine (bg_opening s) stage = true →
  runs h (set_stage a (AtDone (Throw r)) (unlock a (bg_target s) (bg_cwd s) h)).
Proof.
  intros Ha Hd Hm. unfold unlock. destruct (has_lease (cp_platform (bg_target s))) eqn:Hl.
  - set (h1 := emit (HUnlock a (bg_target s) (bg_cwd s)) h).
    apply (runs_trans h (set_stage a (AtDone (Throw r)) h1)).
    + intros _. apply (failed_steps h h1 a s stage r); [done..|]. unfold h1. rewrite core_emit. cbn [call_of].
      by rewrite Hm, Hl.
    + by apply (runs_spawn TUnlock (set_stage a (AtDone (Throw r)) h1)).
  - intros _. apply (failed_steps h h a s stage r); [done..|]. by rewrite Hm, Hl, call_nil.
Qed.

Lemma runs_failed a s stage r h :
  hb_attempts h !! a = Some {| at_starting := s; at_stage := stage |} → stage_done stage = None →
  stage_mine (bg_opening s) stage = false → runs h (set_stage a (AtDone (Throw r)) h).
Proof. intros Ha Hd Hm _. apply (failed_steps h h a s stage r); [done..|]. by rewrite Hm, call_nil. Qed.

Lemma runs_finish_open t a s stage lock postures simulator h :
  hb_attempts h !! a = Some {| at_starting := s; at_stage := stage |} → stage_lock stage = Some lock →
  runs h (finish_open o t a s lock postures simulator h).
Proof.
  intros Ha Hl. destruct (stage_lock_mine stage lock (bg_opening s) Hl) as [Hm Hd]. unfold finish_open.
  destruct (bg_opening s) as [status|claim] eqn:Eo.
  - assert (∀ r, runs h match open o t a s (bg_beganAt s) postures (match lock with LGranted l => Some l | _ => None end)
        simulator false h with
        | (Throw r, h) => set_stage a (AtDone (Throw r)) (match lock with LGranted {| ls_mine := true |} =>
            unlock a (bg_target s) (bg_cwd s) h | _ => h end)
        | (Ok c, h) => set_stage a (AtDone (Ok c))
            (upd_control c (fun d => set_watched (set_leaseRefused d r) true) (emit (HWatch c) h)) end) as Hopen.
    { intros refused. destruct (open_cases t a s (bg_beganAt s) postures (match lock with LGranted l => Some l | _ => None end)
        simulator false h) as [[r ->]|(h1 & -> & Hat & [d Hd1] & Hcore)].
      - destruct lock as [|[g e []]|]; try (by eapply runs_failed; [exact Ha|done|rewrite Eo, Hm]).
        by eapply runs_unlock_failed; [exact Ha|done|rewrite Eo, Hm].
      - intros _. eapply (opened_steps h _ a s stage); [done..| |].
        + rewrite Eo, Hm. by instantiate (1 := locked_mine lock).
        + rewrite core_same_control by done. rewrite core_quiet by done. rewrite Hcore. by destruct lock. }
    destruct lock as [|l|r0]; cbn.
    + apply (Hopen None).
    + specialize (Hopen None). destruct (open _ _ _ _ _ _ _ _ _ _) as [[] ?]; [done|]. by destruct l as [? ? []].
    + destruct (negb _ || _); [by eapply runs_failed; [exact Ha|done|rewrite Eo, Hm]|apply (Hopen (Some r0))].
  - destruct (open_cases t a s (ht_now t) postures None None claim h) as [[r ->]|(h1 & -> & Hat & _ & Hcore)].
    + by eapply runs_failed; [exact Ha|done|rewrite Eo, Hm].
    + intros _. eapply (opened_steps h h1 a s stage); [done..| |exact Hcore]. by rewrite Eo, Hm.
Qed.

Lemma runs_attempt_next t a h : runs h (attempt_next o t a h).
Proof.
  unfold attempt_next. destruct (hb_attempts h !! a) as [[s stage]|] eqn:Ha; [|apply runs_refl].
  destruct stage as [|[lock|] [postures|]| |]; try apply runs_refl.
  assert (∀ simulator, runs h (finish_open o t a s lock postures simulator h)) as Hf.
  { intros simulator. by eapply runs_finish_open. }
  destruct (bg_opening s) as [status|] eqn:Eo; [|apply Hf].
  destruct (bg_device s) as [? ? []| | |]; try apply Hf. destruct (ht_frameHelper t); [|apply Hf].
  apply runs_eq. by eapply core_same_stage; [exact Ha|rewrite Eo|].
Qed.

Lemma runs_attempt_simulator t a simulator h : runs h (attempt_simulator o t a simulator h).
Proof.
  unfold attempt_simulator. destruct (hb_attempts h !! a) as [[s stage]|] eqn:Ha; [|apply runs_refl].
  destruct stage; try apply runs_refl. by eapply runs_finish_open.
Qed.

(** ** A client goes on *)

Lemma task_at_core h t task w :
  hb_tasks h !! t = Some task → task_core task = Some w → k_tasks (core h) !! t = Some w.
Proof. intros Ht Hw. cbn. by rewrite lookup_omap, Ht. Qed.

Lemma runs_attempt_over task h : runs h (attempt_over task h).
Proof.
  unfold attempt_over. destruct (hb_tasks h !! task) as [[|s [a creator|]| | | | | | | |]|] eqn:Ht; try apply runs_refl.
  destruct (hb_attempts h !! a) as [[made stage]|] eqn:Ha; [|apply runs_refl].
  destruct stage as [| | |opened]; try apply runs_refl.
  assert (runs h (put_task task (TBegin s (WOpened opened))
    (if creator && bool_decide (hb_opening h !! bg_key made = Some a)
     then set_opening h (delete (bg_key made) (hb_opening h)) else h))) as Hover.
  { apply runs_step. intros Hok.
    assert (∃ k, stage_done (AtDone opened) = Some k ∧ task_core (TBegin s (WOpened opened)) = Some (KOpened k)) as (k & Hk & Hw)
      by (destruct opened; by eexists).
    rewrite core_put_task, Hw.
    pose proof (ks_over (core h) task a creator _ k (task_at_core _ _ _ _ Ht eq_refl) (attempt_at_core _ _ _ Ha) Hk) as Hstep.
    change (bool_decide (k_opening (core h) !! _ = Some a)) with (bool_decide (hb_opening h !! bg_key made = Some a)) in Hstep.
    by destruct (creator && bool_decide (hb_opening h !! bg_key made = Some a)). }
  destruct creator; [exact Hover|]. destruct opened as [c|r]; [exact Hover|]. cbn [andb].
  eapply runs_trans; [|apply runs_deviceControl]. apply runs_step. intros Hok. rewrite core_drop_task.
  by eapply ks_go; [eapply task_at_core|].
Qed.

Lemma core_join t c d s h :
  hb_controls h !! c = Some d →
  core (join o t c d s h)
  = let n := hb_next h in
    put_fresh (put_next (put_control c (with_sessions (dc_sessions d ++ [n]) (control_core d))
      (put_sessions (put_session (core h) (<[n := (c, false)]> (k_session (core h)))) (hb_sessions h ++ [n]))) (S n))
      (S (hb_fresh h)).
Proof.
  intros Hc. unfold join. cbn [fresh_id start_timer]. rewrite core_answer. unfold audit_begin. rewrite core_quiet by done.
  rewrite (core_put_control c _ d) by done. unfold core, put_control. cbn. rewrite fmap_insert, omap_app. cbn.
  by rewrite app_nil_r.
Qed.

Lemma runs_join t c d s h : hb_controls h !! c = Some d → dc_closed d = false → runs h (join o t c d s h).
Proof.
  intros Hc Ho _. rewrite (core_join t c d) by done. eapply rtc_l; [by apply (ks_join (core h) c _ (at_core h c d Hc))|].
  apply rtc_once. match goal with |- core_step ?k _ => exact (ks_id k) end.
Qed.

(** A client may go once its control is closed or has a session. *)
Lemma runs_go task s c h :
  hb_tasks h !! task = Some (TBegin s (WOpened (Ok c))) →
  (∃ d, hb_controls h !! c = Some d ∧ (dc_closed d = true ∨ dc_sessions d ≠ [])) → runs h (drop_task task h).
Proof.
  intros Ht (d & Hc & Hd). apply runs_step. intros Hok. rewrite core_drop_task. eapply ks_go; [by eapply task_at_core|].
  exists (control_core d). split; [by apply at_core|done].
Qed.

Lemma tasks_detach c d h : hb_tasks (detach c d h) = hb_tasks h ∧ hb_fresh (detach c d h) = hb_fresh h.
Proof. unfold detach. by destruct (dc_watched d), (dc_grabIdle d), (dc_pasteTimer d). Qed.

Lemma controls_detach c d h :
  hb_controls (release_lease c d (forget_device c d (detach c d h))) = alter (fun d => set_closed d true) c (hb_controls h).
Proof.
  unfold release_lease, forget_device.
  assert (hb_controls (detach c d h) = alter (fun d => set_closed d true) c (hb_controls h)) as Hd
    by (unfold detach; by destruct (dc_watched d), (dc_grabIdle d), (dc_pasteTimer d)).
  destruct (dc_lease d) as [[? ? []]|]; case_decide; done.
Qed.

(** Closing leaves a waiting client where it is, and a control it may leave. *)
Lemma close_go task s c h :
  core_ok (core h) → hb_tasks h !! task = Some (TBegin s (WOpened (Ok c))) → is_Some (hb_controls h !! c) →
  hb_tasks (closeIfUnused c h) !! task = Some (TBegin s (WOpened (Ok c))) ∧
  ∃ d, hb_controls (closeIfUnused c h) !! c = Some d ∧ (dc_closed d = true ∨ dc_sessions d ≠ []).
Proof.
  intros Hok Ht [d Hc]. assert ((task < hb_fresh h)%nat) as Hlt.
  { by eapply (fr_tasks _ (ko_fresh _ Hok)), task_at_core. }
  unfold closeIfUnused. rewrite Hc. destruct (dc_closed d || _) eqn:Eb.
  - split; [done|]. exists d. split; [done|]. apply orb_prop in Eb as [?|Hn]; [by left|right].
    by apply negb_true_iff, bool_decide_eq_false in Hn.
  - split.
    + destruct (tasks_detach c d h) as [Htd Hfd]. unfold release_lease, forget_device.
      destruct (dc_lease d) as [[? ? []]|]; case_decide; cbn [spawn fresh_id put_task set_tasks set_releasing set_fresh set_byDevice
        hb_tasks hb_fresh]; rewrite ?lookup_insert_ne by (rewrite Hfd; lia); by rewrite Htd.
    + rewrite controls_detach. exists (set_closed d true). rewrite lookup_alter_eq, Hc. split; [done|by left].
Qed.

Lemma runs_close_go task s c h :
  hb_tasks h !! task = Some (TBegin s (WOpened (Ok c))) → is_Some (hb_controls h !! c) →
  runs h (drop_task task (closeIfUnused c h)).
Proof.
  intros Ht Hc Hok. destruct (close_go task s c h Hok Ht Hc) as [Ht' Hd'].
  refine (runs_trans _ _ _ (runs_close c h) _ Hok). by eapply runs_go.
Qed.

Lemma runs_begin_resumes t task h : runs h (begin_resumes o t task h).
Proof.
  unfold begin_resumes. destruct (hb_tasks h !! task) as [[|s [|opened]| | | | | | | |]|] eqn:Ht; try apply runs_refl.
  destruct opened as [c|r]; last first.
  { eapply runs_to; [apply core_answer|]. apply runs_step. intros Hok. rewrite core_drop_task.
    by eapply ks_go; [eapply task_at_core|]. }
  destruct (hb_controls h !! c) as [d|] eqn:Hc; [|apply runs_refl].
  destruct (hb_closing h || _).
  { eapply runs_to; [apply core_answer|]. by eapply runs_close_go; [exact Ht|rewrite Hc]. }
  assert (runs h (if dc_closed d then deviceControl s (drop_task task h) else drop_task task (join o t c d s h))) as Hgo.
  { destruct (dc_closed d) eqn:Ho.
    - eapply runs_trans; [|apply runs_deviceControl]. by eapply runs_go; [exact Ht|exists d; auto].
    - eapply runs_trans; [by apply (runs_join t c d s)|]. eapply runs_go; [exact Ht|].
      eexists. split; [cbn; by rewrite lookup_alter_eq, Hc|]. right. cbn. by destruct (dc_sessions d). }
  destruct (dc_leaseRefused d) as [r|]; [|exact Hgo]. destruct (negb _ && _); [|exact Hgo].
  eapply runs_to; [apply core_answer|]. by eapply runs_close_go; [exact Ht|rewrite Hc].
Qed.

(** ** While a control lasts *)

Lemma runs_renew c h : runs h (renew o c h).
Proof.
  unfold renew. destruct (hb_controls h !! c) as [d|] eqn:Hc; [|apply runs_refl].
  destruct (dc_closed d) eqn:Ho; [apply runs_refl|]. destruct (dc_lease d) as [[? ? []]|] eqn:El; try apply runs_refl.
  destruct (lock_args _ _ _) as [args|]; [|apply runs_refl].
  set (h1 := emit (HLock _ _) _).
  assert (core h1 = call [CRenews (cf_attempt (dc_facts d))] (core h)) as H1.
  { unfold h1. rewrite core_quiet by done. by rewrite core_emit. }
  apply runs_step. intros _. cbn [spawn fresh_id]. rewrite (core_put_control c _ d) by done.
  change (core_step (core h) (put_control c (control_core (set_renewing d (Some (k_fresh (core h)))))
    (core (snd (spawn (TRenew c) h1))))). rewrite core_spawn, H1.
  apply (ks_renew (core h) c (control_core d)); [by apply at_core|done|]. cbn. by rewrite El.
Qed.

Lemma control_own_lease lock h : hb_controls (own_lease lock h) = hb_controls h.
Proof. unfold own_lease. destruct lock as [|[[] ? []]|]; try done. by case_decide. Qed.

Lemma runs_renewed task outcome h : runs h (renewed task outcome h).
Proof.
  unfold renewed. destruct (hb_tasks h !! task) as [[]|] eqn:Ht; try apply runs_refl.
  change (hb_controls (drop_task task h)) with (hb_controls h).
  assert (k_tasks (core h) !! task = Some (KRenew control)) as Hk by by eapply task_at_core.
  intros Hok. destruct (tk_renew _ (ko_tasks _ Hok) _ _ Hk) as (dk & Hdk & _).
  apply control_of_core in Hdk as (d & Hc & <-). rewrite Hc. set (lock := locked_as _ _).
  set (e := HRenewed _ _ _). set (h1 := own_lease lock (emit e (drop_task task h))).
  assert (∃ granted, call_of e = Some (CRenewed (cf_attempt (dc_facts d)) granted) ∧
    (granted = true → kc_leased (control_core d) = true)) as (granted & He & Hg).
  { eexists. split; [done|]. by intros [_ ?]%andb_prop. }
  assert (core h1 = call [CRenewed (cf_attempt (dc_facts d)) granted] (drop_ktask task (core h))) as H1.
  { unfold h1. by rewrite core_own_lease, core_emit, He, core_drop_task. }
  assert (hb_controls h1 = hb_controls h) as Hc1 by by unfold h1; rewrite control_own_lease.
  apply (rtc_l _ _ (core h1)).
  - rewrite H1. by apply (ks_renewed (core h) task control (control_core d)); [|apply at_core|].
  - assert (core match lock, dc_lease d with
      | LGranted {| ls_expiresAt := expiresAt |}, Some l =>
          upd_control control (fun d => set_lease d (Some {| ls_grantedAt := ls_grantedAt l; ls_expiresAt := expiresAt;
                                                             ls_mine := ls_mine l |})) h1
      | _, _ => h1 end = core h1) as Hlast; [|by rewrite <-Hlast].
    destruct lock as [|[? ? ?]|]; [done| |done]. destruct (dc_lease d) as [l|] eqn:El; [|done].
    apply core_same_control. intros d' Hd'. rewrite Hc1 in Hd'. simplify_eq. unfold control_core. cbn. by rewrite El.
Qed.

Lemma settled_core renewing h : settled renewing h = true → ∀ t, renewing = Some t → k_tasks (core h) !! t = None.
Proof. intros Hs t ->. apply bool_decide_eq_true in Hs. cbn. by rewrite lookup_omap, Hs. Qed.

Lemma runs_release_goes_on task h : runs h (release_goes_on task h).
Proof.
  unfold release_goes_on. destruct (hb_tasks h !! task) as [[| | |c renewing []| | | | | |]|] eqn:Ht; try apply runs_refl.
  destruct (hb_controls h !! c) as [d|] eqn:Hc; [|apply runs_refl].
  destruct (settled renewing h) eqn:Hset; [|apply runs_refl]. cbn [negb].
  apply runs_step. intros Hok. rewrite core_put_task. cbn [task_core].
  assert (k_tasks (core h) !! task = Some (KRelease c renewing false)) as Hk by by eapply task_at_core.
  pose proof (ks_unlock (core h) task c _ renewing Hk (at_core h c d Hc) (settled_core _ _ Hset)) as Hstep.
  destruct (tk_release _ (ko_tasks _ Hok) _ _ _ _ Hk) as (dk & Hdk & _ & Htaken & _). rewrite (at_core h c d Hc) in Hdk. simplify_eq.
  unfold kc_mine in Hstep. rewrite Htaken in Hstep. cbn [andb kc_leased control_core kc_attempt] in Hstep.
  destruct (has_lease _); [rewrite core_emit; cbn [call_of]; exact Hstep|]. by rewrite call_nil in Hstep.
Qed.

Lemma runs_unlocked task h : runs h (unlocked task h).
Proof.
  unfold unlocked. destruct (hb_tasks h !! task) as [[| | |c renewing []| | | | | |]|] eqn:Ht; try apply runs_refl.
  - change (hb_controls (drop_task task h)) with (hb_controls h).
    assert (runs h (drop_task task h)) as Hd.
    { apply runs_step. intros Hok. rewrite core_drop_task. by eapply ks_released, task_at_core. }
    destruct (hb_controls h !! c); [|done]. by case_decide.
  - by apply runs_eq; eapply core_drop_quiet.
Qed.

Lemma core_notice status target other tool n h : core (notice_driver status target other tool n h) = core h.
Proof.
  unfold notice_driver. destruct (hb_session h !! n) as [s|]; [|done]. destruct (_ || _); [done|].
  rewrite core_quiet by done. by apply core_same_session.
Qed.

Lemma runs_statusChanged t c latest h : runs h (statusChanged o t c latest h).
Proof.
  unfold statusChanged. destruct (hb_controls h !! c) as [d|] eqn:Hc; [|apply runs_refl].
  destruct (dc_closed d || _); [apply runs_refl|]. set (resolved := ownedDevice _ _ _ _ _).
  set (h1 := match cp_physical _ with true => _ | _ => _ end).
  assert (core h1 = core h) as H1.
  { unfold h1. destruct (cp_physical _); [|done]. destruct (dc_lease d) as [l|] eqn:El; [|done].
    destruct resolved; [|done]. destruct (_ ≫= _); [|done].
    apply core_same_control. intros d' Hd'. simplify_eq. unfold control_core. cbn. by rewrite El. }
  eapply runs_from; [exact H1|]. destruct resolved as [device|message]; [|by apply runs_spawn].
  destruct (negb _); [by apply runs_spawn|]. destruct (otherDriver _ _) as [other|]; [|apply runs_refl].
  apply runs_eq. set (tool := default _ _). clearbody h1 tool. clear H1. revert h1. induction (dc_sessions d) as [|n l IH]; intros h1; [done|].
  cbn [fold_left]. by rewrite IH, core_notice.
Qed.

Lemma runs_helper_failed c message h : runs h (helper_failed c message h).
Proof.
  unfold helper_failed. destruct (hb_controls h !! c) as [d|]; [|apply runs_refl].
  destruct (dc_closed d); [apply runs_refl|by apply runs_spawn].
Qed.

Lemma runs_end_all_runs t task h : runs h (end_all_runs t task h).
Proof.
  unfold end_all_runs. destruct (hb_tasks h !! task) as [[]|] eqn:Ht; try apply runs_refl.
  eapply runs_from; [by eapply core_drop_quiet|apply runs_endAll].
Qed.
End Opening.
