(* ===== verification/ControlHubRuns.v ===== *)
(** * Control sessions: what holds of every run of the hub

    Input runs on the abstract machine too, so a step of the hub is a run of it. What is proved of the machine then holds
    of the hub: one control per device, one finger on its screen, every lease released. *)

From Stdlib Require Import ZArith Lia.
From S2P Require Import Prelude.
From S2P Require Import Bytes.
From S2P Require Import Json.
From S2P Require Import Policy.
From S2P Require Import Oversight.
From S2P Require Import Push.
From S2P Require Import ControlInput.
From S2P Require Import FrameDevices.
From S2P Require Import ControlHub.
From S2P Require Import ControlHubInput.
From S2P Require Import ControlCore.
From S2P Require Import ControlHubFacts.
Open Scope Z_scope.

(** ** Sessions a client names *)

Lemma find_live h id n s :
  core_ok (core h) → find_session id h = Some (n, s) →
  hb_session h !! n = Some s ∧
  ∃ d, hb_controls h !! se_control s = Some d ∧ n ∈ dc_sessions d ∧ dc_closed d = false.
Proof.
  intros Hok Hf. unfold find_session in Hf. apply bind_Some in Hf as (m & Hm & Hf).
  apply bind_Some in Hf as (s' & Hs & Heq). simplify_eq. apply find_some in Hm as [Hin _].
  split; [done|]. apply list_elem_of_In in Hin. apply (ss_live _ (ko_sessions _ Hok)) in Hin as [c Hk].
  cbn in Hk. rewrite lookup_fmap, Hs in Hk. cbn in Hk. unfold session_core in Hk. simplify_eq.
  by destruct (session_live h n s Hok Hs) as (_ & Hd).
Qed.

(** ** Tasks the machine does not see *)

Definition quiet_task (t : nat) (h : Hub) : Prop := ∃ task, hb_tasks h !! t = Some task ∧ task_core task = None.

Lemma core_clip_over t request a h : quiet_task t h → core (clip_over t request a h) = core h.
Proof. intros (task & Ht & Hq). unfold clip_over. rewrite core_answer. by eapply core_drop_quiet. Qed.

Lemma core_put_clip t request c set clip h : quiet_task t h → core (put_clip t request c set clip h) = core h.
Proof. intros (task & Ht & Hq). unfold put_clip. by eapply core_put_quiet. Qed.

Lemma core_until c until h : core (upd_control c (fun d => set_pasteTypingUntil d until) h) = core h.
Proof. by apply core_same_control. Qed.
Lemma core_adb c adb h : core (upd_control c (fun d => set_adb d adb) h) = core h.
Proof. by apply core_same_control. Qed.

Lemma core_clip_failed t request c reserved message h :
  quiet_task t h → core (clip_failed t request c reserved message h) = core h.
Proof. intros Hq. unfold clip_failed. rewrite core_clip_over; [|by destruct reserved]. destruct reserved; [apply core_until|done]. Qed.

Lemma quiet_spawn task h : task_core task = None → quiet_task (fst (spawn task h)) (snd (spawn task h)).
Proof. intros Hq. exists task. cbn. by rewrite lookup_insert_eq. Qed.

(** ** The clipboard *)

(** The clipboard of a control is asked for. *)
Lemma runs_ask_clip c d set h h' :
  hb_controls h !! c = Some d → core h' = core (emit (HClipboard c set) h) → runs h h'.
Proof.
  intros Hc Hh. eapply runs_to; [exact Hh|]. apply runs_step. intros _. rewrite core_emit. apply ks_clip.
  by rewrite (at_core h c d).
Qed.

Lemma runs_clip_read t task request c d h :
  hb_controls h !! c = Some d → quiet_task task h → runs h (clip_read t task request c d h).
Proof.
  intros Hc Hq. unfold clip_read. destruct (cf_device _);
    try (eapply runs_ask_clip; [exact Hc|]; by rewrite core_put_clip).
  apply runs_eq. destruct (native_claim t d); [rewrite core_put_clip by done; by apply core_quiet|by apply core_clip_failed].
Qed.

Lemma core_clip_copy t task request c d udid text paste h :
  quiet_task task h → core (clip_copy t task request c d udid text paste h) = core h.
Proof.
  intros Hq. unfold clip_copy. set (chunks := if paste then _ else _).
  destruct (match chunks with Some _ => _ | None => _ end); [by apply core_clip_over|].
  set (reserved := bool_decide _). set (until := (_ + _)).
  assert (core (if reserved then upd_control c (fun d => set_pasteTypingUntil d until) h else h) = core h) as Hu
    by (destruct reserved; [apply core_until|done]).
  destruct (native_claim t d).
  - rewrite core_put_clip; [|by destruct reserved]. by rewrite core_quiet.
  - rewrite core_clip_failed; [done|by destruct reserved].
Qed.

Lemma runs_clip_run t task request c set h : quiet_task task h → runs h (clip_run t task request c set h).
Proof.
  intros Hq. unfold clip_run. destruct (hb_controls h !! c) as [d|] eqn:Hc; [|apply runs_refl].
  destruct set as [[text paste]|]; [|by apply runs_clip_read].
  destruct (cf_device _); [by apply runs_eq, core_clip_copy| |by apply runs_eq, core_clip_over..].
  eapply runs_ask_clip; [exact Hc|]. by rewrite core_put_clip.
Qed.

Lemma runs_clipboard t request c d set h : runs h (clipboard t request c d set h).
Proof.
  unfold clipboard.
  assert (∀ previous, runs h (snd (spawn (TClipboard request c set (ClipQueued previous)) h))) as Hs by (intros; by apply runs_spawn).
  assert (runs h (let '(task, h) := spawn (TClipboard request c set (ClipQueued None)) h in clip_run t task request c set h)) as Hr.
  { eapply runs_trans; [apply (Hs None)|]. by apply runs_clip_run, (quiet_spawn (TClipboard request c set (ClipQueued None))). }
  destruct (cf_device _) as [|? []| |]; try exact Hr. eapply runs_to; [|apply (Hs (dc_adb d))]. apply core_adb.
Qed.

(** Something is sent to an open device. *)
Lemma runs_send c d by_ command h :
  hb_controls h !! c = Some d → dc_closed d = false → call_of (HSend c by_ command) = Some (CSent c) →
  runs h (emit (HSend c by_ command) h).
Proof.
  intros Hc Ho He. apply runs_step. intros _. rewrite core_emit, He. by eapply ks_send; [apply at_core|].
Qed.

Lemma runs_told_adb c d args h h' :
  hb_controls h !! c = Some d → dc_closed d = false → core h' = core (emit (HAdb c args) h) → runs h h'.
Proof.
  intros Hc Ho Hh. eapply runs_to; [exact Hh|]. apply runs_step. intros _. rewrite core_emit.
  by eapply ks_send; [apply at_core|].
Qed.

Lemma runs_feed c chunks h : runs h (feed c chunks h).
Proof.
  unfold feed. set (h1 := upd_control c _ h).
  assert (core h1 = core h) as H1 by by apply core_same_control. eapply runs_from; [exact H1|].
  destruct (hb_controls h1 !! c) as [d|] eqn:Hc; [|apply runs_refl]. destruct chunks as [|chunk rest]; [apply runs_refl|].
  destruct (dc_closed d) eqn:Ho; [apply runs_refl|].
  assert (runs h1 (send_chunk c chunk h1)) as Hsend by by eapply runs_send.
  destruct rest as [|chunk' rest]; [done|]. eapply runs_trans; [exact Hsend|].
  eapply runs_to; [|apply runs_start_timer]. by apply core_same_control.
Qed.

Lemma core_feed_tasks c chunks h : hb_tasks (feed c chunks h) = hb_tasks h.
Proof.
  unfold feed. destruct (hb_controls _ !! c) as [d|]; [|done]. destruct chunks as [|chunk [|chunk' rest]]; [done| |];
    by destruct (dc_closed d).
Qed.

Lemma runs_clip_goes_on t task outcome h : runs h (clip_goes_on t task outcome h).
Proof.
  unfold clip_goes_on. destruct (hb_tasks h !! task) as [[]|] eqn:Ht; try apply runs_refl.
  assert (quiet_task task h) as Hq by by eexists.
  destruct (hb_controls h !! control) as [d|] eqn:Hc; [|apply runs_refl].
  assert (∀ a, runs h (clip_over task request a h)) as Hover by (intros; by apply runs_eq, core_clip_over).
  assert (∀ reserved message, runs h (clip_failed task request control reserved message h)) as Hfail
    by (intros; by apply runs_eq, core_clip_failed).
  destruct clip, outcome; try apply Hover; try apply Hfail;
    try (destruct (settled _ _); [by apply runs_clip_run|apply runs_refl]).
  - destruct (_ <? _); [apply Hfail|apply Hover].
  - destruct set as [[text []]|]; try apply Hover. destruct (dc_closed d) eqn:Ho; [apply Hover|].
    destruct chunks as [chunks|].
    + eapply runs_to; [apply core_clip_over|apply runs_feed]. eexists. by rewrite core_feed_tasks.
    + eapply runs_to; [by apply core_clip_over|]. by eapply runs_send.
  - destruct set as [[text []]|]; try apply Hover. destruct (cf_device _) as [|? []| |]; try apply Hover.
    destruct (dc_closed d) eqn:Ho; [apply Hover|]. eapply runs_told_adb; [exact Hc|exact Ho|]. by rewrite core_put_clip.
Qed.

(** ** Touches *)

Lemma admits_moves who touch grab grab' :
  grab_admits who touch grab = (grab', VPass) →
  pointer_moves (ho_id who) (ho_session who) (tc_phase touch) (holder_core grab) (holder_core grab').
Proof.
  unfold grab_admits. destruct grab as [held|], (tc_phase touch); try case_bool_decide as Hid; cbn; intros; simplify_eq;
    cbn; rewrite ?Hid; by constructor.
Qed.

Lemma core_dispatch_touch t request c d holder command h :
  core (dispatch t request c d (Some holder) (ITouch command) h) = call [CTouch c (ho_id holder) (tc_phase command)] (core h).
Proof.
  unfold dispatch. assert (to_helper t d (ITouch command) = true) as -> by (unfold to_helper; by destruct (cf_device (dc_facts d)) as [|? []| |]).
  by destruct (cf_device (dc_facts d)); rewrite core_answer, core_emit; cbn [call_of]; rewrite phase_on_display.
Qed.

(** The touch and the timer of the pointer are two moves of the machine. *)
Lemma core_grab_timer c phase d h :
  core (set_grab_timer c phase d h) = core h ∨ core (set_grab_timer c phase d h) = put_fresh (core h) (S (k_fresh (core h))).
Proof.
  unfold set_grab_timer. destruct phase; cbn [start_timer fresh_id]; rewrite core_grabIdle.
  all: try (right; pose proof (core_start_timer (AGrabIdle c) GRAB_IDLE_MS (clear_timer (dc_grabIdle d) h)) as Hst;
    cbn [start_timer fresh_id snd] in Hst; by rewrite Hst, core_clear_timer).
  left. by rewrite core_clear_timer.
Qed.

Lemma runs_touched t request c d n s holder command grab h :
  hb_controls h !! c = Some d → dc_closed d = false → n ∈ dc_sessions d → ho_session holder = n →
  grab_admits holder command (dc_grab d) = (grab, VPass) →
  runs h (dispatch t request c d (Some holder) (ITouch command)
            (show t (se_target s) (ho_who holder) command
               (set_grab_timer c (tc_phase command) d (upd_control c (fun d => set_grab d grab) h)))).
Proof.
  intros Hc Ho Hn Hs Hadm _. rewrite core_dispatch_touch, core_show.
  pose proof (core_grab_timer c (tc_phase command) d (upd_control c (fun d => set_grab d grab) h)) as Hcore.
  rewrite (core_put_control c _ d) in Hcore by done.
  assert (core_step (core h) (call [CTouch c (ho_id holder) (tc_phase command)]
    (put_control c (with_holder (holder_core grab) (control_core d)) (core h)))) as Hstep.
  { eapply (ks_touch _ c (control_core d) _ n); [by apply at_core|done..|]. rewrite <-Hs. by apply admits_moves. }
  destruct Hcore as [-> | ->]; [by apply rtc_once|]. eapply rtc_l; [exact Hstep|]. apply rtc_once.
  match goal with |- core_step ?k _ => exact (ks_id k) end.
Qed.

Lemma runs_input_touch t request n s d command participant h :
  hb_controls h !! se_control s = Some d → dc_closed d = false → n ∈ dc_sessions d →
  runs h match touch t n s d command participant h with
         | (Throw refused, h) => answer request (answer_null refused) h
         | (Ok holder, h) => dispatch t request (se_control s) d (Some holder) (ITouch command) h
         end.
Proof.
  intros Hc Ho Hn. unfold touch. destruct (match participant with Some who => (who, h) | None => host n h end) as [who h1] eqn:Ew.
  assert (core h1 = core h ∧ hb_controls h1 = hb_controls h) as [H1 Hc1].
  { destruct participant; simplify_eq; [done|]. unfold host in Ew. simplify_eq. split; [apply core_same_session; done|done]. }
  eapply runs_from; [exact H1|]. set (holder := {| ho_id := _ |}).
  destruct (grab_admits holder command (dc_grab d)) as [grab verdict] eqn:Hadm.
  destruct verdict; [|apply runs_eq, core_answer..].
  by apply (runs_touched t request (se_control s) d n s holder command grab h1); [rewrite Hc1|..].
Qed.

Lemma runs_release t owner id participant h : runs h (release t owner id participant h).
Proof.
  unfold release. destruct (find_session id h) as [[n s]|]; [|apply runs_refl]. destruct (negb _); [apply runs_refl|].
  destruct (hb_controls h !! se_control s) as [d|] eqn:Hc; [|apply runs_refl].
  assert (∀ grab, grab = dc_grab d → runs h (lift t (se_control s) None (upd_control (se_control s) (fun d => set_grab d grab) h)))
    as Hnone.
  { intros grab ->. apply runs_eq. rewrite core_lift_none. apply core_same_control. intros d' Hd'. by simplify_eq. }
  unfold grab_release. destruct (dc_grab d) as [held|] eqn:Hg; [|by apply Hnone].
  destruct (negb _); [by apply Hnone|]. intros Hok. destruct (held_open h (se_control s) d held) as [Ho _]; [done..|].
  rewrite (core_lift_held t _ d held) by done. by apply lets_go.
Qed.

Lemma runs_deviceKeyboard owner id enabled h : runs h (deviceKeyboard owner id enabled h).
Proof.
  unfold deviceKeyboard. destruct (find_session id h) as [[n s]|] eqn:Hf; [|apply runs_refl].
  destruct (negb _ || _); [apply runs_refl|].
  intros Hok. destruct (find_live h id n s Hok Hf) as (_ & d & Hc & _ & Ho). rewrite Hc. cbn [fmap option_fmap option_map compose].
  revert Hok. change (runs h match cf_device (dc_facts d) with
    | DIos _ _ false _ => emit (HSend (se_control s) None (HcDeviceKeyboard enabled)) (upd_session n (set_deviceKeyboard enabled) h)
    | _ => h end).
  destruct (cf_device (dc_facts d)) as [? ? []| | |]; try apply runs_refl.
  eapply runs_from; [by apply (core_same_session n (set_deviceKeyboard enabled))|]. by eapply runs_send.
Qed.

(** ** Simulator options, folds and [adb] *)

Lemma core_changing h v : core (set_changingSimulator h v) = core h.
Proof. done. Qed.

Lemma runs_simulator t request c d command h : runs h (simulator t request c d command h).
Proof.
  unfold simulator. assert (∀ a, runs h (answer request a h)) as Ha by (intros; apply runs_eq, core_answer).
  destruct (cf_device (dc_facts d)) as [? ? []| | |], (dc_simulator d), (ht_frameHelper t); try apply Ha.
  destruct (bool_decide _); [apply Ha|].
  eapply runs_from; [|apply runs_spawn; done]. by rewrite core_quiet, core_changing.
Qed.

Lemma core_simulator_set c v h : core (upd_control c (fun d => set_simulator d v) h) = core h.
Proof. by apply core_same_control. Qed.

Lemma runs_simulator_over task outcome h : runs h (simulator_over task outcome h).
Proof.
  unfold simulator_over. destruct (hb_tasks h !! task) as [[]|] eqn:Ht; try apply runs_refl. apply runs_eq.
  assert (core (drop_task task h) = core h) as Hd by by eapply core_drop_quiet.
  destruct (hb_controls _ !! control) as [d|]; [|done].
  destruct outcome; [destruct (dc_closed d)|]; rewrite core_answer, ?core_simulator_set, core_changing; done.
Qed.

Lemma runs_start_fold t request c udid posture h : runs h (start_fold t request c udid posture h).
Proof.
  unfold start_fold. destruct (hb_folding h !! udid); [apply runs_eq, core_answer|].
  eapply runs_to; [apply core_adb|]. by apply (runs_spawn (TFold request c udid posture (fold t posture))).
Qed.

Lemma core_fold_settles task request udid refused h : quiet_task task h → core (fold_settles task request udid refused h) = core h.
Proof.
  intros (w & Ht & Hq). unfold fold_settles.
  change (core (answer request (answer_null refused) (drop_task task h)) = core h).
  rewrite core_answer. by eapply core_drop_quiet.
Qed.

Lemma runs_fold_goes_on t task outcome h : runs h (fold_goes_on t task outcome h).
Proof.
  unfold fold_goes_on. destruct (hb_tasks h !! task) as [[]|] eqn:Ht; try apply runs_refl. apply runs_eq.
  assert (quiet_task task h) as Hq by by eexists.
  destruct fold, (hb_controls h !! control) as [d|], outcome; try done; try (by apply core_fold_settles);
    try (rewrite core_fold_settles by done; by apply core_quiet).
  destruct (dc_closed d); [by apply core_fold_settles|]. destruct (native_claim t d); [|by apply core_fold_settles].
  erewrite core_put_quiet; [by apply core_quiet|exact Ht|done..].
Qed.

Lemma runs_start_adb request c d command h : runs h (start_adb request c d command h).
Proof.
  unfold start_adb. eapply runs_to; [apply core_adb|].
  by apply (runs_spawn (TAdb request c (dc_adb d) (adbInputArgs command) false)).
Qed.

Lemma runs_adb_next task request c args h : quiet_task task h → runs h (adb_next task request c args h).
Proof.
  intros (w & Ht & Hq). unfold adb_next.
  assert (runs h (answer request AnsNull (drop_task task h))) as Hd
    by (apply runs_eq; rewrite core_answer; by eapply core_drop_quiet).
  destruct args as [|args rest]; [done|]. destruct (hb_controls h !! c) as [d|] eqn:Hc; [|done].
  destruct (dc_closed d) eqn:Ho; [done|]. eapply runs_told_adb; [exact Hc|exact Ho|].
  by eapply core_put_quiet; [exact Ht|..].
Qed.

Lemma runs_adb_goes_on task outcome h : runs h (adb_goes_on task outcome h).
Proof.
  unfold adb_goes_on. destruct (hb_tasks h !! task) as [[]|] eqn:Ht; try apply runs_refl.
  assert (quiet_task task h) as Hq by by eexists.
  destruct running.
  - destruct args as [|call args]; [apply runs_refl|]. destruct outcome; [by apply runs_adb_next|].
    apply runs_eq. rewrite core_answer. by eapply core_drop_quiet.
  - destruct args, (settled previous h); try apply runs_refl; by apply runs_adb_next.
Qed.

(** ** [input] *)

Definition is_touch (command : InputCommand) : bool := match command with ITouch _ => true | _ => false end.

Lemma runs_dispatch t request c d command h :
  hb_controls h !! c = Some d → dc_closed d = false → is_touch command = false →
  runs h (dispatch t request c d None command h).
Proof.
  intros Hc Ho Hn. unfold dispatch.
  assert (is_touch command = false → runs h (if to_helper t d command then
            answer request AnsNull (emit (HSend c None (HcInput (match command with ITouch touch => ITouch (on_display t touch) | _ => command end))) h)
          else start_adb request c d command h)) as Hsend.
  { intros _. destruct (to_helper t d command); [|apply runs_start_adb].
    eapply runs_to; [apply core_answer|]. eapply runs_send; [done..|]. by destruct command. }
  destruct command; try (by destruct (cf_device (dc_facts d)); apply Hsend).
  - apply runs_clipboard.
  - apply runs_clipboard.
  - destruct (cf_device (dc_facts d)); try (by apply Hsend). apply runs_start_fold.
  - apply runs_simulator.
Qed.

Section Steps.
Context `{!NodeDate, !NodeText} (o : ControlOptions).

Lemma runs_input t request owner id command participant h : runs h (input t request owner id command participant h).
Proof.
  unfold input. assert (∀ a, runs h (answer request a h)) as Ha by (intros; apply runs_eq, core_answer).
  destruct (find_session id h) as [[n s]|] eqn:Hf; [|apply Ha]. destruct (negb (owned_by _ _) || _); [apply Ha|].
  destruct (se_permitted s && _); [eapply runs_to; [apply core_answer|apply runs_end_session]|].
  intros Hok. destruct (find_live h id n s Hok Hf) as (_ & d & Hc & Hn & Ho). rewrite Hc. revert Hok.
  set (reads := match command with IClipboardGet => true | _ => false end). set (h1 := if reads then h else emit (HRefresh _) h).
  assert (core h1 = core h ∧ hb_controls h1 = hb_controls h) as [H1 Hc1] by (subst h1; destruct reads; [done|by rewrite core_quiet]).
  destruct (lease_over _ _).
  { eapply runs_from; [exact H1|]. eapply runs_to; [apply core_answer|apply runs_endAll]. }
  set (h2 := if reads then h1 else _).
  assert (core h2 = core h ∧ hb_controls h2 = hb_controls h) as [H2 Hc2]
    by (subst h2; destruct reads; [done|by rewrite core_quiet]).
  apply (runs_from _ h2); [done|]. rewrite <-Hc2 in Hc. clearbody h1 h2.
  destruct command; try (by apply runs_dispatch). by apply runs_input_touch.
Qed.

Lemma runs_timer_fires t timer h : runs h (timer_fires o t timer h).
Proof.
  unfold timer_fires. destruct (hb_alarms h !! timer) as [[n|c|c|c chunks]|]; [| | | |apply runs_refl].
  - apply (runs_from _ (set_alarms h (delete timer (hb_alarms h)))); [done|apply runs_end_session].
  - apply (runs_from _ (set_alarms h (delete timer (hb_alarms h)))); [done|apply runs_expireGrab].
  - apply runs_renew.
  - apply (runs_from _ (set_alarms h (delete timer (hb_alarms h)))); [done|apply runs_feed].
Qed.

Lemma runs_ends t h :
  (∀ owner id message, runs h (fst (endById t owner id message h))) ∧
  (∀ owner reason message, runs h (endFor t owner reason message h)) ∧
  (∀ device message, runs h (endDevice t device message h)) ∧ runs h (close t h).
Proof.
  split_and!.
  - intros owner id message. unfold endById. destruct (find_session id h) as [[n s]|]; [|exact (runs_refl h)].
    destruct (owned_by owner s); [exact (runs_end_session t n None message h)|exact (runs_refl h)].
  - intros. apply runs_end_each.
  - intros. unfold endDevice. destruct (hb_byDevice h !! deviceKey device) as [c|]; [apply runs_endAll|apply runs_refl].
  - unfold close. apply (runs_from _ (set_closing h true)); [done|apply runs_end_each].
Qed.

#[local] Hint Resolve runs_begin runs_beginHosted runs_status_read runs_attempt_released runs_attempt_locked
  runs_attempt_postures runs_attempt_next runs_attempt_simulator runs_attempt_over runs_begin_resumes : hub.
#[local] Hint Resolve runs_renewed runs_release_goes_on runs_unlocked runs_statusChanged runs_helper_failed
  runs_end_all_runs runs_timer_fires : hub.
#[local] Hint Resolve runs_input runs_release runs_deviceKeyboard runs_simulator_over runs_fold_goes_on runs_adb_goes_on
  runs_clip_goes_on : hub.

Lemma runs_hub_step t e h : runs h (hub_step o t e h).
Proof. destruct (runs_ends t h) as (Hid & Hfor & Hdev & Hclose). destruct e; cbn [hub_step]; auto with hub. Qed.

Lemma reached_steps h : hub_reached o h → core_steps core_init (core h).
Proof.
  induction 1 as [|h t e _ IH]; [done|]. etrans; [exact IH|]. apply runs_hub_step.
  by eapply core_ok_steps, core_ok_init.
Qed.

Lemma reached_ok h : hub_reached o h → core_ok (core h).
Proof. intros Hr. by eapply core_ok_steps, core_ok_init; apply reached_steps. Qed.
End Steps.
