(* ===== verification/ControlSessions.v ===== *)
(** * Control sessions: what every run of the hub keeps to

    What is proved of the abstract machine, said of the hub and of what it asks of other objects: one open control per
    device, which someone uses or is about to, one finger on its screen, input to its helper only while that is attached,
    every lease the hub took given back, and renewals only between the grant and that. *)

From Stdlib Require Import ZArith Lia.
From S2P Require Import Prelude.
From S2P Require Import Bytes.
From S2P Require Import Json.
From S2P Require Import Policy.
From S2P Require Import Oversight.
From S2P Require Import Push.
From S2P Require Import ControlInput.
From S2P Require Import FrameDevices.
From S2P Require Import ControlHub.
From S2P Require Import ControlHubInput.
From S2P Require Import ControlCore.
From S2P Require Import ControlHubFacts.
From S2P Require Import ControlHubRuns.
Open Scope Z_scope.

(** ** What a device is sent *)

(** The participant whose finger is on the screen after what was sent to the device. *)
Definition moves_finger (c : nat) (finger : option units) (e : HubEffect) : option units :=
  match e with
  | HSend c' (Some holder) (HcInput (ITouch touch)) =>
      if decide (c' = c) then match tc_phase touch with Up => None | _ => Some (ho_id holder) end else finger
  | _ => finger
  end.
Definition finger_after (c : nat) (trace : list HubEffect) : option units := fold_left (moves_finger c) trace None.

Definition opened_in (c : nat) (trace : list HubEffect) : Prop := ∃ facts, HOpened c facts ∈ trace.

(** A device is sent input, by its helper or by [adb], only between the opening of its control and its detachment, and its
    clipboard is asked for only once it is opened; a touch is of a participant, whose finger is down or who puts one down
    where none is; nobody's finger is down at the end. *)
Definition allowed_after (trace : list HubEffect) (e : HubEffect) : Prop :=
  match e with
  | HSend c by_ command =>
      opened_in c trace ∧ HDetach c ∉ trace ∧
      match command with
      | HcInput (ITouch touch) =>
          ∃ holder, by_ = Some holder ∧
            (finger_after c trace = Some (ho_id holder) ∨ (tc_phase touch = Down ∧ finger_after c trace = None))
      | _ => True
      end
  | HAdb c _ => opened_in c trace ∧ HDetach c ∉ trace
  | HClipboard c _ => opened_in c trace
  | HDetach c => opened_in c trace ∧ HDetach c ∉ trace ∧ finger_after c trace = None
  | _ => True
  end.

(** The state of the machine's automaton says the same of a trace. *)
Definition says (c : nat) (trace : list HubEffect) (st : InputState) : Prop :=
  match st with
  | INew => ¬ opened_in c trace ∧ HDetach c ∉ trace ∧ finger_after c trace = None
  | IOpen finger => opened_in c trace ∧ HDetach c ∉ trace ∧ finger_after c trace = finger
  | IDetached => opened_in c trace ∧ HDetach c ∈ trace
  end.

Definition calls_of (trace : list HubEffect) : list Call := omap call_of trace.

Lemma calls_app trace e : calls_of (trace ++ [e]) = calls_of trace ++ match call_of e with Some x => [x] | None => [] end.
Proof. unfold calls_of. rewrite omap_app. cbn. by destruct (call_of e). Qed.

Lemma calls_none c calls : fold_left (after_call c) calls None = None.
Proof. induction calls as [|e calls IH]; [done|]. cbn. destruct e; cbn; try case_decide; done. Qed.

Lemma finger_app c trace e : finger_after c (trace ++ [e]) = moves_finger c (finger_after c trace) e.
Proof. unfold finger_after. by rewrite fold_left_app. Qed.

Lemma opened_app c trace e : opened_in c (trace ++ [e]) ↔ opened_in c trace ∨ ∃ facts, e = HOpened c facts.
Proof.
  unfold opened_in. setoid_rewrite elem_of_app. setoid_rewrite list_elem_of_singleton. split.
  - intros [facts [Hin|<-]]; [left|right]; by eexists.
  - intros [[facts Hin]|[facts ->]]; exists facts; auto.
Qed.

Lemma detach_app c trace e : HDetach c ∈ trace ++ [e] ↔ HDetach c ∈ trace ∨ e = HDetach c.
Proof. rewrite elem_of_app, list_elem_of_singleton. by split; intros [?|?]; auto. Qed.

(** An effect the automaton of [c] does not see changes nothing of what a trace says. *)
Lemma says_other c trace e st :
  (∀ facts, e ≠ HOpened c facts) → e ≠ HDetach c → moves_finger c (finger_after c trace) e = finger_after c trace →
  says c trace st → says c (trace ++ [e]) st.
Proof.
  intros Ho Hd Hm Hs. destruct st; cbn in *; rewrite ?opened_app, ?detach_app, ?finger_app, ?Hm; naive_solver.
Qed.

(** An effect that neither opens nor detaches a control and moves no finger. *)
Definition still (e : HubEffect) : Prop :=
  ∀ c, e ≠ HDetach c ∧ (∀ facts, e ≠ HOpened c facts) ∧ ∀ finger, moves_finger c finger e = finger.

(** What an effect is, by the call the machine sees in it. *)
Definition seen_as (e : HubEffect) (x : option Call) : Prop :=
  match x with
  | Some (COpened c) => ∃ facts, e = HOpened c facts
  | Some (CTouch c id phase) =>
      ∃ holder touch, e = HSend c (Some holder) (HcInput (ITouch touch)) ∧ id = ho_id holder ∧ phase = tc_phase touch
  | Some (CDetached c) => e = HDetach c
  | _ => still e
  end.

Lemma call_seen e : seen_as e (call_of e).
Proof.
  destruct e as [| |c' [holder|] [[]| |]| | | |a target l| | | | | | | | | | | | | | | | | | |]; cbn; try done; eauto.
  by destruct (ls_mine l && _).
Qed.

(** A call the automaton takes keeps what it says. *)
Lemma says_step c trace e st st' :
  says c trace st → input_state c (calls_of trace) = Some st → input_state c (calls_of (trace ++ [e])) = Some st' →
  says c (trace ++ [e]) st'.
Proof.
  intros Hs Hst. rewrite calls_app. pose proof (call_seen e) as Hseen.
  assert (still e → says c (trace ++ [e]) st) as Hstill by (intros He; by apply says_other; try apply He).
  destruct (call_of e) as [[]|]; cbn in Hseen.
  all: rewrite ?app_nil_r, ?input_state_app, Hst; cbn.
  all: try (intros; simplify_eq; by apply Hstill).
  all: case_decide as Hc; [subst|intros; simplify_eq]; try done; try (by apply Hstill).
  - destruct Hseen as [facts ->], st; [|done..]. intros. simplify_eq. cbn. rewrite opened_app, detach_app, finger_app.
    cbn. naive_solver.
  - destruct Hseen as [facts ->]. apply says_other; [congruence|done..].
  - destruct Hseen as (holder & touch & -> & -> & ->), st as [|finger|]; [done| |done]. destruct Hs as (Ho & Hd & Hf).
    intros Hnext. assert (st' = IOpen (moves_finger c finger (HSend c (Some holder) (HcInput (ITouch touch))))) as ->.
    { cbn. rewrite decide_True by done. destruct (tc_phase touch); case_decide; congruence. }
    cbn [says]. rewrite opened_app, detach_app, finger_app, Hf. naive_solver.
  - destruct Hseen as (holder & touch & -> & _). apply says_other; [done..| |done]. cbn. by rewrite decide_False.
  - destruct st; [done| |done]. intros. simplify_eq. by apply Hstill.
  - destruct st; [done| |]; intros; simplify_eq; by apply Hstill.
  - destruct st as [|[finger|]|]; [done..| |done]. intros. simplify_eq. cbn. rewrite opened_app, detach_app.
    destruct Hs as (? & _). auto.
  - apply says_other; [done|congruence|done..].
Qed.

Lemma says_trace c trace st : input_state c (calls_of trace) = Some st → says c trace st.
Proof.
  revert st. induction trace as [|e trace IH] using rev_ind; intros st Hst.
  - cbn in Hst. simplify_eq. cbn. split; [by intros [facts ?%not_elem_of_nil]|]. by split; [apply not_elem_of_nil|].
  - destruct (input_state c (calls_of trace)) as [st0|] eqn:E0; [eapply says_step; [by apply IH|done..]|].
    rewrite calls_app in Hst. destruct (call_of e); rewrite ?app_nil_r, ?input_state_app, E0 in Hst; [|done].
    unfold after_call in Hst. repeat case_match; done.
Qed.

(** What the automaton takes is allowed. *)
Lemma taken_allowed trace e : (∀ c, is_Some (input_state c (calls_of (trace ++ [e])))) → allowed_after trace e.
Proof.
  intros Htaken. assert (∀ c, ∃ st, input_state c (calls_of trace) = Some st ∧ says c trace st ∧
    is_Some (match call_of e with Some x => after_call c (Some st) x | None => Some st end)) as Hst.
  { intros c. destruct (Htaken c) as [st' Hst']. rewrite calls_app in Hst'.
    destruct (input_state c (calls_of trace)) as [st|] eqn:E0.
    - exists st. split; [done|]. split; [by apply says_trace|]. destruct (call_of e); [|done].
      by rewrite input_state_app, E0 in Hst'.
    - destruct (call_of e); rewrite ?app_nil_r, ?input_state_app, E0 in Hst'; [|done].
      unfold after_call in Hst'. repeat case_match; done. }
  clear Htaken. destruct e as [| |c by_ command|c|c| | | | | |c| | | | | | | | | | | | | | |]; try done; cbn [allowed_after].
  - destruct (Hst c) as (st & _ & Hs & Ht). destruct st as [|finger|].
    + destruct by_ as [holder|], command as [[]| |]; cbn in Ht; rewrite decide_True in Ht by done; by destruct Ht.
    + destruct Hs as (Ho & Hd & Hf). split_and!; [done..|].
      destruct by_ as [holder|], command as [[]| |]; try done; cbn in Ht; rewrite decide_True in Ht by done; [|by destruct Ht].
      exists holder. split; [done|]. rewrite Hf. destruct (tc_phase touch); case_decide; (by destruct Ht) || naive_solver.
    + destruct by_ as [holder|], command as [[]| |]; cbn in Ht; rewrite decide_True in Ht by done; by destruct Ht.
  - destruct (Hst c) as (st & _ & Hs & Ht). cbn in Ht. rewrite decide_True in Ht by done.
    destruct st; [by destruct Ht|by destruct Hs..].
  - destruct (Hst c) as (st & _ & Hs & Ht). cbn in Ht. rewrite decide_True in Ht by done.
    destruct st as [|[finger|]|]; [by destruct Ht..| |by destruct Ht]. done.
  - destruct (Hst c) as (st & _ & Hs & Ht). cbn in Ht. rewrite decide_True in Ht by done.
    destruct st; [by destruct Ht| |by destruct Ht]. by destruct Hs as (? & ? & _).
Qed.

(** A trace the automaton takes is taken at every point of it. *)
Lemma taken_prefix c calls calls' : is_Some (input_state c (calls ++ calls')) → is_Some (input_state c calls).
Proof.
  unfold input_state. rewrite fold_left_app. destruct (fold_left _ calls _); [done|]. rewrite calls_none. by intros [].
Qed.

(** ** The leases the hub took *)

(** How often the lease of an opening was granted to the hub, on a platform that has leases, and released. *)
Definition grants (a : nat) (trace : list HubEffect) : nat :=
  length (List.filter (fun e => match e with
                                | HGranted a' target l => Nat.eqb a' a && (ls_mine l && has_lease (cp_platform target))
                                | _ => false
                                end) trace).
Definition unlocks (a : nat) (trace : list HubEffect) : nat :=
  length (List.filter (fun e => match e with HUnlock a' _ _ => Nat.eqb a' a | _ => false end) trace).

Lemma times_seen x e trace :
  times x (calls_of (e :: trace)) = ((if decide (call_of e = Some x) then 1 else 0) + times x (calls_of trace))%nat.
Proof.
  unfold calls_of, times. cbn. destruct (call_of e) as [y|]; [rewrite filter_cons|by rewrite decide_False].
  repeat case_decide; simplify_eq; done.
Qed.

Lemma grants_times a trace : grants a trace = times (CGranted a) (calls_of trace).
Proof.
  induction trace as [|e trace IH]; [done|]. rewrite times_seen, <-IH. unfold grants. cbn [List.filter].
  destruct e as [| |c [holder|] [[]| |]| | | |a' target l| | | | | | | | | | | | | | | | | | |]; try done; cbn [call_of].
  destruct (ls_mine l && _), (Nat.eqb_spec a' a); cbn; case_decide; simplify_eq; done.
Qed.

Lemma unlocks_times a trace : unlocks a trace = times (CUnlocked a) (calls_of trace).
Proof.
  induction trace as [|e trace IH]; [done|]. rewrite times_seen, <-IH. unfold unlocks. cbn [List.filter].
  destruct e as [| |c [holder|] [[]| |]| | | |a' target l| | |a' ? ?| | | | | | | | | | | | | | | |]; try done; cbn [call_of].
  - by destruct (ls_mine l && _).
  - destruct (Nat.eqb_spec a' a); case_decide; simplify_eq; done.
Qed.

(** Whether a renewal of the lease of an opening is under way after a trace, and that none begins while one is. *)
Definition renews_in (a : nat) (under_way : bool) (e : HubEffect) : bool :=
  match e with
  | HRenews a' => if decide (a' = a) then true else under_way
  | HRenewed a' _ _ => if decide (a' = a) then false else under_way
  | _ => under_way
  end.
Definition renewal_under_way (a : nat) (trace : list HubEffect) : bool := fold_left (renews_in a) trace false.
Definition renewals_in_turn (trace : list HubEffect) : Prop :=
  ∀ before a after, trace = before ++ HRenews a :: after → renewal_under_way a before = false.

Lemma under_way_calls a trace : under_way a (calls_of trace) = renewal_under_way a trace.
Proof.
  induction trace as [|e trace IH] using rev_ind; [done|].
  unfold renewal_under_way. rewrite calls_app, under_way_app, fold_left_app, IH. cbn. fold (renewal_under_way a trace).
  destruct e as [| |c [holder|] [[]| |]| | | |a' target l| | | | | | | | | | | | | | | | | | |]; try done.
  cbn. by destruct (ls_mine l && _).
Qed.

Lemma calls_split trace before x after :
  calls_of trace = before ++ x :: after → ∃ tb e ta, trace = tb ++ e :: ta ∧ call_of e = Some x ∧ calls_of tb = before.
Proof.
  revert before. induction trace as [|e trace IH]; intros before; [by destruct before|]. unfold calls_of. cbn.
  destruct (call_of e) as [y|] eqn:Ey.
  - destruct before as [|z before]; cbn; intros [= -> Hrest].
    + by exists [], e, trace.
    + destruct (IH before Hrest) as (tb & e' & ta & -> & He & Hb). exists (e :: tb), e', ta. split_and!; [done..|].
      unfold calls_of. cbn. by rewrite Ey, <-Hb.
  - intros Hrest. destruct (IH before Hrest) as (tb & e' & ta & -> & He & Hb). exists (e :: tb), e', ta.
    split_and!; [done..|]. unfold calls_of. cbn. by rewrite Ey, <-Hb.
Qed.

Lemma renews_call e a : call_of e = Some (CRenews a) → e = HRenews a.
Proof.
  destruct e as [| |c [holder|] [[]| |]| | | |a' target l| | | | | | | | | | | | | | | | | | |]; cbn; try congruence.
  by destruct (ls_mine l && _).
Qed.

Lemma in_turn_calls trace : renewals_in_turn trace → one_at_a_time (calls_of trace).
Proof.
  intros Hturn before a after (tb & e & ta & Ht & ->%renews_call & <-)%calls_split. rewrite under_way_calls. by eapply Hturn.
Qed.

(** ** Every run *)

Section Runs.
Context `{!NodeDate, !NodeText} (o : ControlOptions).

(** C18: Every step of the control hub is a run of moves of the abstract machine, so that whatever requests, timers,
    command outcomes and status updates come, in whatever order, the state of the hub and the calls it makes on the
    input and the leases of devices are ones the machine can come to. *)
Theorem hub_refines_machine h : hub_reached o h → core_steps core_init (core h).
Proof. induction 1 as [|h t e Hr IH]; [done|]. etrans; [exact IH|]. by apply runs_hub_step, (reached_ok o). Qed.

Lemma keeper_begins h c t w :
  k_tasks (core h) !! t = Some w → keeper (k_attempts (core h)) c w →
  ∃ t s w, hb_tasks h !! t = Some (TBegin s w) ∧
    (w = WOpened (Ok c) ∨
     ∃ a at_, w = WAttempt a true ∧ hb_attempts h !! a = Some at_ ∧ at_stage at_ = AtDone (Ok c)).
Proof.
  cbn. rewrite lookup_omap. destruct (hb_tasks h !! t) as [task|] eqn:Et; [|done]. cbn. intros Ht Hw. exists t.
  destruct Hw as [->|(a & at_ & -> & Ha & Hd)].
  - destruct task as [|s [|[]]| | | | | | | |]; simplify_eq/=. eauto.
  - rewrite lookup_fmap in Ha. destruct (hb_attempts h !! a) as [at0|] eqn:Ea; [|done]. cbn in Ha. simplify_eq.
    destruct task as [|s [|[]]| | | | | | | |]; simplify_eq/=. exists s, (WAttempt a true). split; [done|]. right.
    exists a, at0. split_and!; [done..|]. by destruct (at_stage at0) as [| | |[]]; simplify_eq/=.
Qed.

(** C19: At any time a device has one open control at most, the one the hub finds by its key; a session that has not
    ended is listed by the hub and by its control, which is open; who holds the pointer of a device does so through a
    session of its control; and an open control nobody is in a session on has a client that goes on with this control, or
    that made the opening it comes from, which is to join it or to close it. *)
Theorem one_control_per_device h :
  hub_reached o h →
  (∀ key c, hb_byDevice h !! key = Some c ↔
     ∃ d, hb_controls h !! c = Some d ∧ dc_key d = key ∧ dc_closed d = false) ∧
  (∀ n s, hb_session h !! n = Some s → se_ended s = false →
     n ∈ hb_sessions h ∧
     ∃ d, hb_controls h !! se_control s = Some d ∧ n ∈ dc_sessions d ∧ dc_closed d = false) ∧
  (∀ c d held, hb_controls h !! c = Some d → dc_grab d = Some held →
     dc_closed d = false ∧ ho_session (hl_holder held) ∈ dc_sessions d) ∧
  (∀ c d, hb_controls h !! c = Some d → dc_closed d = false → dc_sessions d = [] →
     ∃ t s w, hb_tasks h !! t = Some (TBegin s w) ∧
       (w = WOpened (Ok c) ∨
        ∃ a at_, w = WAttempt a true ∧ hb_attempts h !! a = Some at_ ∧ at_stage at_ = AtDone (Ok c))).
Proof.
  intros Hr%reached_ok. split_and!.
  - intros key c. rewrite (ko_devices _ Hr key c). split.
    + intros (dk & Hc & Hk & Ho). apply control_of_core in Hc as (d & Hc & <-). eauto.
    + intros (d & Hc & Hk & Ho). exists (control_core d). split; [by apply at_core|done].
  - intros n s. by apply session_live.
  - intros c d held. by apply held_open.
  - intros c d Hc Ho Hn. destruct (ko_used _ Hr c (control_core d) (at_core h c d Hc) Ho Hn) as (t & w & Ht & Hw).
    by apply keeper_begins with t w.
Qed.


(** C17: The lease of an opening is granted to the hub at most once and never released more often than granted, whatever
    fails or is taken back in between. A renewal is granted the lease only while the hub holds it, after that grant and
    before the release, so that none takes the lease again that was given back; for this no renewal may begin while one
    of the same lease is under way, which the limit of 30 seconds on the command sees to where renewals begin each
    minute. And once no session is left and nothing is under way, every control is closed and every lease the hub took,
    and may have renewed, has been released, once. *)
Theorem leases_given_back h :
  hub_reached o h →
  (∀ a, (unlocks a (hb_trace h) <= grants a (hb_trace h) <= 1)%nat) ∧
  (renewals_in_turn (hb_trace h) →
   ∀ before a target lease after, hb_trace h = before ++ HRenewed a target (Some lease) :: after →
     has_lease (cp_platform target) = true → grants a before = 1%nat ∧ unlocks a before = 0%nat) ∧
  (hb_sessions h = [] → hb_tasks h = ∅ →
   (∀ c d, hb_controls h !! c = Some d → dc_closed d = true) ∧
   ∀ a, unlocks a (hb_trace h) = grants a (hb_trace h)).
Proof.
  intros Hr%reached_ok. setoid_rewrite grants_times. setoid_rewrite unlocks_times.
  change (calls_of (hb_trace h)) with (k_calls (core h)). split; [|split].
  { intros a. destruct (le_state _ (ko_leases _ Hr) a); lia. }
  { intros Hturn before a target lease after Htrace Hl. apply (ko_renewed _ Hr (in_turn_calls _ Hturn) _ _ (calls_of after)).
    cbn. rewrite Htrace. unfold calls_of. rewrite omap_app. cbn. by rewrite Hl. }
  intros Hs Ht. assert (k_tasks (core h) = ∅) as Hkt by (cbn; by rewrite Ht, omap_empty).
  assert (∀ c dk, k_controls (core h) !! c = Some dk → kc_closed dk = true) as Hclosed.
  { intros c dk Hc. destruct (kc_closed dk) eqn:Ho; [done|]. destruct (kc_sessions dk) as [|n l] eqn:En.
    - destruct (ko_used _ Hr c dk Hc Ho En) as (t & w & Hw & _). by rewrite Hkt in Hw.
    - destruct (ss_joined _ (ko_sessions _ Hr) c dk n Hc) as [Hn _]; [rewrite En; left|].
      assert (n ∈ k_sessions (core h)) as Hin by (apply (ss_live _ (ko_sessions _ Hr)); by exists c).
      cbn in Hin. rewrite Hs in Hin. by apply not_elem_of_nil in Hin. }
  split.
  - intros c d Hc. by apply (Hclosed c (control_core d)), at_core.
  - intros a. destruct (le_state _ (ko_leases _ Hr) a) as [|Hg Hu Hrel|]; [congruence| |congruence].
    destruct Hrel as [Hm|(c & closed & Hc & [->|(t & r & Hrel)])].
    + destruct (k_attempts (core h) !! a) as [at_|] eqn:Ea; [|done]. cbn in Hm. destruct (ka_done at_) as [opened|] eqn:Ed.
      * rewrite (at_done _ (ko_attempts _ Hr) a at_ Ea) in Hm; congruence.
      * destruct (at_waited _ (ko_attempts _ Hr) a at_ Ea Ed) as [t Hw]. by rewrite Hkt in Hw.
    + destruct (k_controls (core h) !! c) as [dk|] eqn:Ec; [|done]. cbn in Hc. injection Hc as _ _ Ho.
      by rewrite (Hclosed c dk Ec) in Ho.
    + by rewrite Hkt in Hrel.
Qed.
End Runs.

(** ** A run *)

(** Two participants of one session: the second is turned away while the first has a finger down. The session ends with
    it down; the lease is released. *)
Module ControlSample.
#[local] Instance text : NodeText := {|
  buffer_toString := fun _ => [];
  JSON_parse := fun _ => Some (JObject [(js "grantedAt", JString [65; 1000]); (js "expiresAt", JString [65; 60000])]);
  JSON_stringify := fun _ => []; JSON_stringify_2 := fun _ => [] |}.
#[local] Instance date : NodeDate := {|
  Date_parse := fun s => match s with [65; t] => Some t | _ => None end; toISOString := fun t => Some [65; t] |}.

Definition options : ControlOptions := {| op_idleMs := 300000; op_renewMs := 60000; op_leaseFor := js "2m"; op_adbEmulators := true |}.
Definition turn : HubTurn :=
  {| ht_now := 1000; ht_allowed := true; ht_permitted := true; ht_pool := true; ht_frameHelper := false; ht_keys := true;
     ht_litDisplay := 0; ht_litPosture := None; ht_claim := Ok tt |}.
Definition target : ControlBeginParams :=
  {| cp_workspace := js "/w"; cp_platform := PIos; cp_slot := None; cp_physical := false; cp_takeOver := false |}.
Definition phone : Controller := {| ct_id := 7; ct_device := js "phone"; ct_name := js "Phone" |}.
Definition status : StatusPayload :=
  {| sp_environments := Some [{| es_path := js "/w";
       es_ios := Some {| si_name := None; si_udid := js "U"; si_owned := true; si_state := js "Booted"; si_activity := None |};
       es_android := None; es_slots := []; es_web := None; es_macos := None |}];
     sp_deviceLeases := []; sp_overview := {| os_environments := []; os_unprovisioned := [] |} |}.
Definition who (id : string) : PresenceParticipant := {| pp_id := js id; pp_kind := js "guest"; pp_name := js id; pp_color := 1 |}.
Definition finger (phase : TouchPhase) : InputCommand :=
  ITouch {| tc_phase := phase; tc_x := JNumber 1; tc_y := JNumber 2; tc_second := None; tc_display := None;
            tc_duoRevision := None |}.

Definition began : list HubEvent :=
  [EBegin 1 phone target (js "/w"); EStatusRead 0 (SrItem status); EAttemptReleased 1; EAttemptLocked 1 (CoOk (js "{}"));
   EAttemptPostures 1 false; EAttemptNext 1; EAttemptOver 2; EBeginResumes 2;
   EInput 2 phone (js "c1") (finger Down) (Some (who "a")); EInput 3 phone (js "c1") (finger Down) (Some (who "b"));
   EInput 4 phone (js "c1") (finger Move) (Some (who "a"))].
Definition ended : list HubEvent := [EEndById phone (js "c1") (js "Done."); EReleaseGoesOn 8; EUnlocked 8].

(** A renewal begins, the session ends while it is under way, and the release waits for it. *)
Definition renewed_and_ended : list HubEvent :=
  [ETimer 4; EEndById phone (js "c1") (js "Done."); EReleaseGoesOn 9; ERenewed 8 (CoOk (js "{}")); EReleaseGoesOn 9; EUnlocked 9].

Definition run (events : list HubEvent) : Hub := fold_left (fun h e => hub_step options turn e h) events new_ControlHub.

Lemma run_reached events : hub_reached options (run events).
Proof. induction events as [|e events IH] using rev_ind; unfold run; [constructor|]. rewrite fold_left_app. by constructor. Qed.

(** C18 where the client has the device with a finger down. *)
Lemma hub_refines_machine_witness : core_steps core_init (core (run began)) ∧ hb_sessions (run began) = [1%nat].
Proof. split; [exact (hub_refines_machine options _ (run_reached began))|vm_compute; reflexivity]. Defined.

(** C19 where participant [a] has a finger down on the only control. *)
Lemma one_control_per_device_witness :
  hub_reached options (run began) ∧ hb_byDevice (run began) !! js "ios:U" = Some 3%nat ∧
  ∃ d, hb_controls (run began) !! 3%nat = Some d ∧ dc_key d = js "ios:U" ∧ dc_closed d = false.
Proof.
  destruct (one_control_per_device options _ (run_reached began)) as (Hdev & _).
  assert (hb_byDevice (run began) !! js "ios:U" = Some 3%nat) as Hk by (vm_compute; reflexivity).
  split; [exact (run_reached began)|]. split; [exact Hk|]. exact (proj1 (Hdev _ _) Hk).
Defined.


Definition renewing_hub : Hub := run (began ++ renewed_and_ended).
Abbreviation renewing_trace := (hb_trace renewing_hub).

Lemma renewing_reached : hub_reached options renewing_hub.
Proof. apply run_reached. Qed.

(** The place of the end of the renewal in the trace, and what it is. *)
Definition renewal_at : option (nat * (nat * ControlBeginParams * option Lease)) := Eval vm_compute in
  head (omap (fun n => match renewing_trace !! n with
                       | Some (HRenewed a target lease) => Some (n, (a, target, lease))
                       | _ => None
                       end) (seq 0 (length renewing_trace))).

Lemma renewed_in_turn : renewals_in_turn renewing_trace.
Proof.
  intros before a after Ht. vm_compute in Ht.
  repeat (destruct before as [|e before]; [injection Ht as; simplify_eq; vm_compute; reflexivity|injection Ht as <- Ht]).
  by destruct before.
Qed.

(** C17 where the session ends while the lease is being renewed: the renewal is granted it before it is released, and in
    the end it is. *)
Lemma leases_given_back_witness :
  match renewal_at with
  | Some (n, (a, target, Some lease)) =>
      renewing_trace = take n renewing_trace ++ HRenewed a target (Some lease) :: drop (S n) renewing_trace ∧
      grants a (take n renewing_trace) = 1%nat ∧ unlocks a (take n renewing_trace) = 0%nat ∧
      ∀ a, unlocks a renewing_trace = grants a renewing_trace
  | _ => False
  end.
Proof.
  destruct (leases_given_back options renewing_hub renewing_reached) as (_ & Hrenewed & Hover).
  unfold renewal_at. match goal with |- ?tr = take ?n _ ++ HRenewed ?a ?target (Some ?lease) :: _ ∧ _ =>
    assert (tr = take n tr ++ HRenewed a target (Some lease) :: drop (S n) tr) as E by (vm_compute; reflexivity);
    destruct (Hrenewed renewed_in_turn _ _ _ _ _ E eq_refl) as [Hg Hu] end.
  split_and!; [exact E|exact Hg|exact Hu|]. refine (proj2 (Hover _ _)); vm_compute; reflexivity.
Defined.
End ControlSample.
