(* ===== verification/Programs.v ===== *)
(** * Programs that call on the machine

    A function that reads files, runs programs and waits is a tree of calls: [Ask c k] makes the call [c] and goes on with
    its answer. A signature [E] lists the calls with the type of their answers. [ex E A] is such a program that may throw.
    [wp] is what must hold before a program so that every call it makes is allowed and what it returns satisfies a
    postcondition, whatever the answers; an observer sees the calls and answers in order. *)

From Stdlib Require Import ZArith Lia.
From S2P Require Import Prelude.
From S2P Require Import Bytes.
Open Scope Z_scope.

Section Programs.
Context {E : Type → Type}.

Inductive program (A : Type) : Type :=
| Return (a : A)
| Ask {B : Type} (c : E B) (k : B → program A).
Arguments Return {A} a.
Arguments Ask {A B} c k.

Fixpoint program_bind {A B} (p : program A) (f : A → program B) : program B :=
  match p with
  | Return a => f a
  | Ask c k => Ask c (fun b => program_bind (k b) f)
  end.

Definition ex (A : Type) : Type := program (result units A).

#[export] Instance ex_ret : MRet ex := fun A a => Return (Ok a).
#[export] Instance ex_bind : MBind ex := fun A B f p =>
  program_bind p (fun r => match r with Ok a => f a | Throw e => Return (Throw e) end).

Definition throw {A} (message : units) : ex A := Return (Throw message).
Definition of_result {A} (r : result units A) : ex A := Return r.

(** A call that cannot fail, and one that may. *)
Definition call {A} (c : E A) : ex A := Ask c (fun a => Return (Ok a)).
Definition ask {A} (c : E (result units A)) : ex A := Ask c (fun r => Return r).

(** [try] with its [catch], and [finally]. *)
Definition attempt {A} (p : ex A) (handler : units → ex A) : ex A :=
  program_bind p (fun r => match r with Ok a => Return (Ok a) | Throw e => handler e end).
Definition finally {A} (p : ex A) (last : ex unit) : ex A :=
  program_bind p (fun r => program_bind last (fun l => match l with Ok _ => Return r | Throw e => Return (Throw e) end)).

(** [for (const x of l)], where [f] says whether the loop goes on. *)
Fixpoint for_while {X} (l : list X) (f : X → ex bool) : ex unit :=
  match l with
  | [] => mret tt
  | x :: l => on ← f x; if on : bool then for_while l f else mret tt
  end.
Fixpoint for_each {X} (l : list X) (f : X → ex unit) : ex unit :=
  match l with
  | [] => mret tt
  | x :: l => _ ← f x; for_each l f
  end.
Fixpoint map_each {X Y} (f : X → ex Y) (l : list X) : ex (list Y) :=
  match l with
  | [] => mret []
  | x :: l => y ← f x; ys ← map_each f l; mret (y :: ys)
  end.

(** ** Runs *)

Inductive event : Type :=
| Event {B : Type} (c : E B) (b : B).

Inductive ran {A} : program A → list event → A → Prop :=
| ran_return a : ran (Return a) [] a
| ran_ask {B} (c : E B) b k trace a : ran (k b) trace a → ran (Ask c k) (Event c b :: trace) a.

Lemma ran_inv {A} (p : program A) trace a :
  ran p trace a ↔
  match p with
  | Return a' => trace = [] ∧ a = a'
  | Ask c k => ∃ b rest, trace = Event c b :: rest ∧ ran (k b) rest a
  end.
Proof.
  split; [intros []; [done|by eauto]|]. destruct p as [a'|B c k]; [intros [-> ->]; constructor|].
  intros (b & rest & -> & Hr). by constructor.
Qed.
Lemma ran_bind {A B} (p : program A) (f : A → program B) trace b :
  ran (program_bind p f) trace b ↔ ∃ first a rest, trace = first ++ rest ∧ ran p first a ∧ ran (f a) rest b.
Proof.
  split.
  - revert trace. induction p as [a|C c k IH]; cbn; intros trace Hr; [exists [], a, trace; by repeat constructor|].
    apply ran_inv in Hr as (x & rest & -> & Hr). destruct (IH _ _ Hr) as (first & a & rest' & -> & Hp & Hf).
    exists (Event c x :: first), a, rest'. by repeat constructor.
  - intros (first & a & rest & -> & Hp & Hf). induction Hp as [a|C c x k first a _ IH]; cbn; [done|]. constructor. by apply IH.
Qed.

(** The run where [answer] answers each call, keeping a state. *)
Fixpoint execute {A S} (answer : ∀ B, E B → S → B * S) (p : program A) (s : S) : list event * A :=
  match p with
  | Return a => ([], a)
  | Ask c k =>
      let '(b, s) := answer _ c s in
      let '(trace, a) := execute answer (k b) s in (Event c b :: trace, a)
  end.

Lemma execute_ran {A S} (answer : ∀ B, E B → S → B * S) (p : program A) s :
  ran p (fst (execute answer p s)) (snd (execute answer p s)).
Proof.
  revert s. induction p as [a|B c k IH]; intros s; cbn; [constructor|].
  destruct (answer B c s) as [b s']. specialize (IH b s'). destruct (execute answer (k b) s'). by constructor.
Qed.

(** ** An observer of the calls *)

Section Observed.
Context {M : Type} (allowed : ∀ B, E B → M → Prop) (observe : ∀ B, E B → B → M → M).

Fixpoint wp {A} (p : program A) (Q : A → M → Prop) (m : M) : Prop :=
  match p with
  | Return a => Q a m
  | Ask c k => allowed _ c m ∧ ∀ b, wp (k b) Q (observe _ c b m)
  end.

Definition observed (trace : list event) (m : M) : M :=
  fold_left (fun m e => match e with Event c b => observe _ c b m end) trace m.

Lemma wp_mono {A} (p : program A) (Q Q' : A → M → Prop) m :
  wp p Q m → (∀ a m, Q a m → Q' a m) → wp p Q' m.
Proof. revert m. induction p as [a|B c k IH]; cbn; intros m Hw HQ; [auto|]. destruct Hw as [Ha Hk]. split; [done|auto]. Qed.

Lemma wp_program_bind {A B} (p : program A) (f : A → program B) Q m :
  wp p (fun a m => wp (f a) Q m) m → wp (program_bind p f) Q m.
Proof. revert m. induction p as [a|C c k IH]; cbn; intros m Hw; [done|]. destruct Hw as [Ha Hk]. split; [done|auto]. Qed.

Lemma wp_ran {A} (p : program A) Q m trace a :
  wp p Q m → ran p trace a →
  Q a (observed trace m) ∧
  ∀ before e after, trace = before ++ e :: after → match e with Event c _ => allowed _ c (observed before m) end.
Proof.
  intros Hw Hr. revert m Hw. induction Hr as [a|B c b k trace a _ IH]; intros m Hw; cbn in *.
  - split; [done|]. by intros [].
  - destruct Hw as [Ha Hk]. destruct (IH _ (Hk b)) as [HQ Hall]. split; [done|].
    intros [|e' before] e after Heq; injection Heq as <- Heq; [done|]. cbn. by eapply Hall.
Qed.

(** ** Programs that throw

    [Q] holds where the program returns and [I] where it throws. *)

Definition holds (I : M → Prop) {A} (p : ex A) (Q : A → M → Prop) (m : M) : Prop :=
  wp p (fun r m => match r with Ok a => Q a m | Throw _ => I m end) m.

Lemma holds_weaken (I I' : M → Prop) {A} (p : ex A) (Q Q' : A → M → Prop) m :
  holds I p Q m → (∀ a m, Q a m → Q' a m) → (∀ m, I m → I' m) → holds I' p Q' m.
Proof. intros Hp HQ HI. eapply wp_mono; [exact Hp|]. intros [a|e] m'; auto. Qed.

Lemma holds_ret I {A} (a : A) Q m : Q a m → holds I (mret a) Q m.
Proof. done. Qed.
Lemma holds_throw I {A} message (Q : A → M → Prop) m : I m → holds I (throw message) Q m.
Proof. done. Qed.
Lemma holds_result I {A} (r : result units A) (Q : A → M → Prop) m :
  (∀ a, r = Ok a → Q a m) → I m → holds I (of_result r) Q m.
Proof. intros HQ HI. destruct r; cbn; auto. Qed.

Lemma holds_bind I {A B} (p : ex A) (f : A → ex B) Q m :
  holds I p (fun a m => holds I (f a) Q m) m → holds I (p ≫= f) Q m.
Proof.
  intros Hp. apply wp_program_bind. eapply wp_mono; [exact Hp|]. by intros [a|e] m'.
Qed.

Lemma holds_call I {A} (c : E A) (Q : A → M → Prop) m :
  allowed _ c m → (∀ a, Q a (observe _ c a m)) → holds I (call c) Q m.
Proof. by split. Qed.

Lemma holds_ask I {A} (c : E (result units A)) (Q : A → M → Prop) m :
  allowed _ c m → (∀ a, Q a (observe _ c (Ok a) m)) → (∀ e, I (observe _ c (Throw e) m)) → holds I (ask c) Q m.
Proof. intros Ha HQ HI. split; [done|]. intros [a|e]; cbn; auto. Qed.

Lemma holds_attempt I J {A} (p : ex A) handler (Q : A → M → Prop) m :
  holds J p Q m → (∀ e m, J m → holds I (handler e) Q m) → holds I (attempt p handler) Q m.
Proof. intros Hp Hh. apply wp_program_bind. eapply wp_mono; [exact Hp|]. intros [a|e] m' Hm; [done|by apply Hh]. Qed.

(** What comes last is run whether the program throws or not. *)
Lemma holds_finally I {A} (p : ex A) last (Q : A → M → Prop) m :
  wp p (fun r m => holds I last (fun _ m => match r with Ok a => Q a m | Throw _ => I m end) m) m →
  holds I (finally p last) Q m.
Proof.
  intros Hp. apply wp_program_bind. eapply wp_mono; [exact Hp|]. intros r m' Hm. apply wp_program_bind.
  eapply wp_mono; [exact Hm|]. intros [a|e] m'' Hm''; [|done]. by destruct r.
Qed.

Lemma holds_for_while I J {X} (f : X → ex bool) l m :
  J m → (∀ x m, x ∈ l → J m → holds I (f x) (fun _ m => J m) m) → holds I (for_while l f) (fun _ m => J m) m.
Proof.
  revert m. induction l as [|x l IH]; intros m HJ Hf; [done|]. cbn [for_while]. apply holds_bind.
  eapply holds_weaken; [apply Hf; [left|done]| |done]. intros [] m' HJ'; [|done].
  apply IH; [done|]. intros y m'' Hy. apply Hf. by right.
Qed.

Lemma holds_for_each I J {X} (f : X → ex unit) l m :
  J m → (∀ x m, x ∈ l → J m → holds I (f x) (fun _ m => J m) m) → holds I (for_each l f) (fun _ m => J m) m.
Proof.
  revert m. induction l as [|x l IH]; intros m HJ Hf; [done|]. cbn [for_each]. apply holds_bind.
  eapply holds_weaken; [apply Hf; [left|done]| |done]. intros [] m' HJ'.
  apply IH; [done|]. intros y m'' Hy. apply Hf. by right.
Qed.

Lemma holds_map_each I J {X Y} (f : X → ex Y) (R : X → Y → Prop) l m :
  J m → (∀ x m, x ∈ l → J m → holds I (f x) (fun y m => R x y ∧ J m) m) →
  holds I (map_each f l) (fun ys m => Forall2 R l ys ∧ J m) m.
Proof.
  revert m. induction l as [|x l IH]; intros m HJ Hf; [by split|]. cbn [map_each]. apply holds_bind.
  eapply holds_weaken; [apply Hf; [left|done]| |done]. intros y m' [HR HJ']. apply holds_bind.
  eapply holds_weaken; [apply IH; [done|]| |done]; [intros z m'' Hz; apply Hf; by right|].
  intros ys m'' [HRs HJ'']. split; [by constructor|done].
Qed.
(** ** Programs that keep an invariant

    [keeps I p]: from [I] on, every call of [p] is allowed and [I] holds again after it, returned or thrown. *)

Definition keeps (I : M → Prop) {A} (p : ex A) : Prop := ∀ m, I m → holds I p (fun _ m => I m) m.

Section Keeps.
Context (I : M → Prop).

Lemma keeps_ret {A} (a : A) : keeps I (mret a).
Proof. by intros m Hm. Qed.
Lemma keeps_result {A} (r : result units A) : keeps I (of_result r).
Proof. intros m Hm. by apply holds_result. Qed.
Lemma keeps_bind {A B} (p : ex A) (f : A → ex B) : keeps I p → (∀ a, keeps I (f a)) → keeps I (p ≫= f).
Proof. intros Hp Hf m Hm. apply holds_bind. eapply holds_weaken; [by apply Hp| |done]. intros a m' Hm'. by apply Hf. Qed.
Lemma keeps_call {A} (c : E A) : (∀ m, I m → allowed _ c m ∧ ∀ b, I (observe _ c b m)) → keeps I (call c).
Proof. intros Hc m Hm. destruct (Hc m Hm). by apply holds_call. Qed.
Lemma keeps_asking {A} (c : E (result units A)) : (∀ m, I m → allowed _ c m ∧ ∀ b, I (observe _ c b m)) → keeps I (ask c).
Proof. intros Hc m Hm. destruct (Hc m Hm). by apply holds_ask. Qed.
Lemma keeps_attempt {A} (p : ex A) handler : keeps I p → (∀ e, keeps I (handler e)) → keeps I (attempt p handler).
Proof. intros Hp Hh m Hm. eapply holds_attempt; [by apply Hp|]. intros e m' Hm'. by apply Hh. Qed.
Lemma keeps_for_while {X} (f : X → ex bool) l : (∀ x, keeps I (f x)) → keeps I (for_while l f).
Proof. intros Hf m Hm. apply holds_for_while; [done|]. intros x m' _ Hm'. by apply Hf. Qed.
Lemma keeps_for_each {X} (f : X → ex unit) l : (∀ x, x ∈ l → keeps I (f x)) → keeps I (for_each l f).
Proof. intros Hf m Hm. apply holds_for_each; [done|]. intros x m' Hx Hm'. by apply Hf. Qed.
Lemma keeps_map_each {X Y} (f : X → ex Y) l : (∀ x, keeps I (f x)) → keeps I (map_each f l).
Proof.
  intros Hf m Hm. eapply holds_weaken; [apply (holds_map_each I I f (fun _ _ => True)); [done|]| |done].
  - intros x m' _ Hm'. eapply holds_weaken; [by apply Hf| |done]. by intros.
  - by intros ys m' [_ Hm'].
Qed.
Lemma keeps_program_bind {A B} (p : ex A) (f : result units A → ex B) :
  keeps I p → (∀ r, keeps I (f r)) → keeps I (program_bind p f).
Proof. intros Hp Hf m Hm. apply wp_program_bind. eapply wp_mono; [by apply Hp|]. intros [a|e] m' Hm'; by apply Hf. Qed.
Lemma keeps_finally {A} (p : ex A) last : keeps I p → keeps I last → keeps I (finally p last).
Proof.
  intros Hp Hl m Hm. apply holds_finally. eapply wp_mono; [by apply Hp|].
  intros [a|e] m' Hm'; (eapply holds_weaken; [by apply Hl|by intros|done]).
Qed.
End Keeps.
End Observed.

(** What is allowed, and what any calls keep. *)
Lemma holds_and {M} (allowed : ∀ B, E B → M → Prop) (observe : ∀ B, E B → B → M → M) (I J : M → Prop) {A} (p : ex A)
    (Q R : A → M → Prop) m :
  holds allowed observe I p Q m → holds (fun _ _ _ => True) observe J p R m →
  holds allowed observe (fun m => I m ∧ J m) p (fun a m => Q a m ∧ R a m) m.
Proof.
  unfold holds. revert m. induction p as [[a|e]|B c k IH]; cbn; intros m Hp Hp'; [done..|].
  destruct Hp as [Ha Hk], Hp' as [_ Hk']. split; [done|]. auto.
Qed.

(** ** Programs all of whose calls are of one class *)

Definition nothing_seen (B : Type) (c : E B) (b : B) (m : unit) : unit := m.
Definition only (P : ∀ B, E B → Prop) {A} (p : ex A) : Prop := keeps (fun B c _ => P B c) nothing_seen (fun _ => True) p.

(** ... and that return what satisfies [Q]. *)
Definition gives (P : ∀ B, E B → Prop) {A} (Q : A → Prop) (p : ex A) : Prop :=
  holds (fun B c _ => P B c) nothing_seen (fun _ => True) p (fun a _ => Q a) tt.

Lemma gives_holds {M} (allowed : ∀ B, E B → M → Prop) observe (I : M → Prop) (P : ∀ B, E B → Prop) {A} (Q : A → Prop) (p : ex A) m :
  gives P Q p → I m → (∀ B (c : E B) m, P B c → I m → allowed _ c m ∧ ∀ b, I (observe _ c b m)) →
  holds allowed observe I p (fun a m => Q a ∧ I m) m.
Proof.
  intros Hp Hm HP. unfold gives, holds in *. revert m Hm.
  induction p as [[a|e]|B c k IH]; intros m Hm; cbn in *; [done..|].
  destruct Hp as [Hc Hk]. destruct (HP B c m Hc Hm) as [Ha Ho]. split; [done|]. intros b. by apply IH.
Qed.

Lemma gives_then {M} (allowed : ∀ B, E B → M → Prop) observe (I : M → Prop) (P : ∀ B, E B → Prop) {A B} (Q : A → Prop) (p : ex A)
    (f : A → ex B) :
  gives P Q p → (∀ B (c : E B) m, P B c → I m → allowed _ c m ∧ ∀ b, I (observe _ c b m)) →
  (∀ a, Q a → keeps allowed observe I (f a)) → keeps allowed observe I (p ≫= f).
Proof.
  intros Hp HP Hf m Hm. apply holds_bind. eapply holds_weaken; [by eapply gives_holds|  |done].
  intros a m' [Ha Hm']. by apply Hf.
Qed.

Lemma only_gives (P : ∀ B, E B → Prop) {A} (p : ex A) : only P p → gives P (fun _ => True) p.
Proof. intros Hp. eapply holds_weaken; [by apply Hp|done..]. Qed.
Lemma gives_bind (P : ∀ B, E B → Prop) {A B} (R : A → Prop) (Q : B → Prop) (p : ex A) (f : A → ex B) :
  gives P R p → (∀ a, R a → gives P Q (f a)) → gives P Q (p ≫= f).
Proof. intros Hp Hf. apply holds_bind. eapply holds_weaken; [exact Hp| |done]. intros a [] Ha. by apply Hf. Qed.
Lemma gives_map_each (P : ∀ B, E B → Prop) {X Y} (Q : Y → Prop) (f : X → ex Y) l :
  (∀ x, gives P Q (f x)) → gives P (Forall Q) (map_each f l).
Proof.
  intros Hf. eapply holds_weaken; [apply (holds_map_each _ _ _ (fun _ => True) f (fun _ => Q)); [done|]| |done].
  - intros x [] _ _. eapply holds_weaken; [apply Hf| |done]. by split.
  - intros ys m [Hys _]. by eapply Forall2_Forall_r, Forall_true.
Qed.

Lemma only_keeps {M} (allowed : ∀ B, E B → M → Prop) observe (I : M → Prop) (P : ∀ B, E B → Prop) {A} (p : ex A) :
  only P p → (∀ B (c : E B) m, P B c → I m → allowed _ c m ∧ ∀ b, I (observe _ c b m)) → keeps allowed observe I p.
Proof.
  intros Hp HP m Hm. eapply holds_weaken; [by eapply gives_holds, HP; [by apply only_gives|]| |done]. by intros a m' [].
Qed.

Lemma only_ran (P : ∀ B, E B → Prop) {A} (p : ex A) trace r before {B} (c : E B) b after :
  only P p → ran p trace r → trace = before ++ Event c b :: after → P B c.
Proof. intros Hp Hr Heq. by apply (proj2 (wp_ran _ _ _ _ _ _ _ (Hp tt Logic.I) Hr) _ _ _ Heq). Qed.
End Programs.
Arguments program E A : clear implicits.
Arguments Return {E A} a.
Arguments Ask {E A B} c k.
Arguments ex E A : clear implicits.
Arguments event E : clear implicits.
Arguments keeps : simpl never.
Arguments only : simpl never.
Arguments holds : simpl never.
Arguments gives : simpl never.
