(* ===== verification/Stages.v ===== *)
(** * The stages of a workspace nobody uses: [packages/stim-cli/src/daemon/stages.ts]

    Which workspaces the daemon takes, longest idle first, and what it does to one under its locks: delete the outputs
    a build makes again, or its devices. What the code reads of files, processes and other programs is a call of [Sys];
    so is what it deletes. [idleOutputs] and [writeWorkspaceEvent] are of [daemon/idle.ts]. *)

From Stdlib Require Import ZArith Lia.
From S2P Require Import Prelude.
From S2P Require Import Bytes.
From S2P Require Import Json.
From S2P Require Import Policy.
From S2P Require Import Oversight.
From S2P Require Import Programs.
Open Scope Z_scope.

Definition DAY_MS : Z := 86400000.
Definition join_text (separator : string) (l : list units) : units :=
  match l with
  | [] => []
  | x :: l => x ++ concat (map (fun y => js separator ++ y) l)
  end.

(** [formatBytes]: dividing an integer by a power of two is exact, and [toFixed] and [Math.round] round half up. *)
Definition KIB : Z := 1024.
Definition formatBytes (bytes : Z) : units :=
  if KIB ^ 3 <=? bytes then
    let tenths := (20 * bytes + KIB ^ 3) / (2 * KIB ^ 3) in
    number (tenths / 10) ++ js "." ++ number (tenths mod 10) ++ js "G"
  else if KIB ^ 2 <=? bytes then number ((2 * bytes + KIB ^ 2) / (2 * KIB ^ 2)) ++ js "M"
  else number ((2 * bytes + KIB) / (2 * KIB)) ++ js "K".

(** ** Data *)

Record DeviceRecord := { dr_owned : bool; dr_id : option units; dr_deviceName : option units }.
Record DeviceSlot := { ds_slot : units; ds_ios : option DeviceRecord; ds_android : option DeviceRecord }.

(** A project by its device slots; reading them throws where the record is not valid. *)
Record ProjectRecord := { pj_deviceSlots : result units (list DeviceSlot) }.

(** [dormantAfterMs] is [idle.dormantDays] in milliseconds. *)
Record Config := { cg_projects : list (units * ProjectRecord); cg_dormantAfterMs : Z }.

(** What is read of [state.json]: the start and the duration of [lastBuild], [at] of the idle and of the dormant stage,
    when the windows were used, the deferred shutdowns, and of its supervisor whether it runs [metro.command] and reports
    requests. *)
Record WorkspaceState := {
  ws_lastUsedAt : option units;
  ws_lastBuild : option (option units * option Z);
  ws_idleAt : option units;
  ws_interactions : list units;
  ws_dormantAt : option units;
  ws_deferred : list (units * (units * units));
  ws_command : bool;
  ws_hmrUpdates : bool;
}.

Inductive SupervisorStatus := SvOurs | SvUnverified | SvStale | SvNone.
#[export] Instance SupervisorStatus_eq_dec : EqDecision SupervisorStatus.
Proof. solve_decision. Defined.

Record SupervisorTarget := { st_status : SupervisorStatus; st_reason : option string }.

(** A booted device of a workspace, by its platform. *)
Record OwnedDevice := { od_ios : bool; od_id : units; od_name : string; od_project : units; od_slot : units }.
#[export] Instance OwnedDevice_eq_dec : EqDecision OwnedDevice.
Proof. solve_decision. Defined.

(** What stopping a workspace came to, with the devices by their key and whether each was shut down. *)
Record StopResult := { sr_ok : bool; sr_summary : units; sr_devices : list (units * bool) }.

Inductive MaintenanceKind :=
| KDeleteParkedDevice | KEmptyCache | KDormantStage | KDeleteDependencies
| KStopGradleDaemons | KStopWatchman | KDeleteGradleVersion | KDeleteTempLeftovers | KDeleteTrash.
#[export] Instance MaintenanceKind_eq_dec : EqDecision MaintenanceKind.
Proof. solve_decision. Defined.

(** [olderThanMs] is [olderThanDays] times a day, which is a whole number of milliseconds. *)
Record MaintenanceAction := {
  ma_kind : MaintenanceKind;
  ma_target : units;
  ma_bytes : Z;
  ma_reason : units;
  ma_workspace : option units;
  ma_dir : option units;
  ma_olderThanMs : option Z;
}.

Inductive LadderOutcome := OutDone | OutKept | OutFailed | OutWould.
#[export] Instance LadderOutcome_eq_dec : EqDecision LadderOutcome.
Proof. solve_decision. Defined.

Record DaemonLadderAction := {
  la_rung : Z;
  la_kind : units;
  la_target : units;
  la_workspace : option units;
  la_outcome : LadderOutcome;
  la_bytes : Z;
  la_detail : units;
  la_restore : option units;
}.

Record ActionOutcome := { ao_status : LadderOutcome; ao_bytes : Z; ao_detail : units; ao_restore : option units }.

(** What deleting the devices of a workspace came to: failures, and each device deleted with the bytes it freed. *)
Record DevicesDeleted := { dd_failures : Z; dd_deleted : list (units * option Z) }.

Record DormantStageRecord := {
  dsr_at : Z;
  dsr_dormantMs : Z;
  dsr_deletedDevices : list units;
  dsr_archived : bool;
}.

Record ParkedDevice := { pd_id : units; pd_name : units; pd_parkedAt : units; pd_bootedUntil : option units }.

Inductive TeardownStatus := TornDown | Missing | Skipped | TeardownFailed.
#[export] Instance TeardownStatus_eq_dec : EqDecision TeardownStatus.
Proof. solve_decision. Defined.
Record TeardownOutcome := { to_status : TeardownStatus; to_reason : option units }.

(** [root], [slot], [udid], [name] and [until]. *)
Record DeferredMark := { df_root : units; df_slot : units; df_udid : units; df_name : units; df_until : units }.

Record ArtifactCandidate := { af_path : units; af_keys : list units }.
Record RankedDependency := {
  rd_candidate : ArtifactCandidate;
  rd_workspace : units;
  rd_bytes : option Z;
  rd_privateBytes : option Z;
}.

Record PruneResult := { pr_skipped : option units; pr_removed : Z; pr_failed : Z; pr_bytes : Z; pr_protectedEntries : Z }.

(** A process of the memory report: [kind] is [gradleDaemon], [kotlinDaemon] or [watchman]. *)
Record MemoryProcess := { mp_kind : units; mp_pid : Z; mp_bytes : Z; mp_reclaimable : bool; mp_detail : option units }.

Inductive LogLevel := LInfo | LWarn.
Inductive CacheName := BuildCache | MetroCaches.

(** The locks of a workspace. *)
Inductive LockName := NativeRun | MetroStart.
#[export] Instance LockName_eq_dec : EqDecision LockName.
Proof. solve_decision. Defined.

(** ** Calls

    [ProjectSettings] answers the settings, or what reading them throws. [TakeLock] takes a claim of the workspace's
    directory or throws, where it is held or cannot be taken. The error that a body under such a lock threw is asked about
    by the calls that take one: whether it is a [WorkspaceProcessCleanupError] and names this claim ([RetainsLock]), or is
    one at all ([IsCleanupError]), what [workspaceProcessLockError] makes of it ([IsLockError]), and its reason where it is
    a claim refused or unavailable ([ClaimProblem]).
    Those up to [Push] read, log or lock; the rest stop or delete something. [Push] adds to the actions the ladder returns. *)
Inductive Sys : Type → Type :=
| Now : Sys Z
| Remeasure : Sys (result units DaemonPressure)
| CanonicalPath (path : units) : Sys (result units units)
| ReadWorkspaceState (path : units) : Sys (option WorkspaceState)
| HasStateFile (path : units) : Sys bool
| DormantCheckedAt : Sys (option Z)
| HostedFacts (path : units) : Sys (result units (list Placement * list string))
| ResolveSupervisor (path : units) : Sys (result units SupervisorTarget)
| SurvivingServer (path : units) : Sys (option string)
| OwnedHere (device : OwnedDevice) : Sys bool
| CollectDevices (path : units) : Sys (result units (list OwnedDevice))
| UnseenEmulatorError (avds : list units) : Sys (result units (option string))
| IdleEvidence (path : units) (booted : list OwnedDevice) (now idleMs : Z) (locked serving driversBlock : bool) : Sys (result units IdleStopEvidence)
| ProjectSettings (path : units) : Sys IdleSettings
| WorkspaceOutputPaths (path : units) : Sys (result units (list units))
| ExistingBuildDirs (path : units) : Sys (result units (list units))
| RegenerableDirProblem (path dir : units) : Sys (result units (option units))
| MetroStoreRoot (path : units) : Sys units
| Exists (path : units) : Sys bool
| HasLogs (path : units) : Sys bool
| LoadConfig : Sys (option Config)
| TakeLock (name : LockName) (path : units) : Sys (result units unit)
| RetainsLock (name : LockName) (path error : units) : Sys bool
| ReleaseLock (name : LockName) (path : units) : Sys (result units unit)
| WorkspaceInUse (path : units) : Sys (result units (list units))
| IsCleanupError (error : units) : Sys bool
| ThrowIfAborted : Sys (result units unit)
| IsLockError (error : units) : Sys bool
| ClaimProblem (error : units) : Sys (option units)
| RemoveEmptyDir (path : units) : Sys unit
| ListDevices (path : units) : Sys (result units unit)
| Revivable (path : units) : Sys bool
| DirectorySize (path : units) : Sys (option Z)
| DeviceSweepIsScoped : Sys bool
| ReadParked (android : bool) : Sys (result units (list ParkedDevice))
| SimDataSize (udid : units) : Sys Z
| OwnedAvdDirectory (name : units) : Sys (option units)
| CompilationBlocked : Sys (result units (option units))
| CollectDependencies (protectedRoot : units) : Sys (result units (list (ArtifactCandidate * (option Z * option Z))))
| WorkspaceKey (key : units) : Sys bool
| ArtifactWorktrees : Sys (result units unit)
| RestoreProblem (path : units) : Sys (result units (option units))
| MemorySweepIsScoped : Sys bool
| RunningBuild : Sys (result units (option units))
| MemoryReport (watchman gradle : bool) (watchmanMinBytes : option Z) : Sys (result units (list MemoryProcess * list units))
| GradleVersions : Sys (result units (units * option (list Z) * list (units * bool)))
| TempLeftovers : Sys (result units (option (units * list Z)))
| Trash : Sys (result units (option (units * list (option Z))))
| SimBooted (udid : units) : Sys bool
| WorkspaceServing (path : units) : Sys bool
| Log (level : LogLevel) (name msg : units) : Sys unit
| WorkspaceEvent (path : units) (level : LogLevel) (name msg : units) : Sys (result units unit)
| RecordDormant (path : units) (record : DormantStageRecord) : Sys (result units unit)
| ClearDeferred (root slot until : units) : Sys (result units unit)
| SetDormantChecked (at_ : Z) : Sys unit
| Push (action : DaemonLadderAction) : Sys unit
| RecordStage (path : units) (at_ minutes : Z) (shutDown : list units) (freedBytes : Z) : Sys (result units unit)
| DeleteOutputs (path : units) (paths : list units) : Sys (result units Z)
| RunIdleStop (path : units) (minutes : Z) : Sys (result units StopResult)
| DeleteDevices (path : units) : Sys (result units DevicesDeleted)
| ArchiveWorkspace (path : units) : Sys (result units unit)
| Execute (plan : MaintenanceAction) : Sys (result units ActionOutcome)
| ClearArtifact (dependency : RankedDependency) (idleMs : Z) (protectedRoot : units) : Sys (result units ActionOutcome)
| PruneCache (cache : CacheName) (evictBytes : option Z) (recent : bool) : Sys (result units PruneResult)
| RemoveMemo (dir : units) : Sys (result units unit)
| ShutDownParked (udid : units) : Sys (result units TeardownOutcome)
| TeardownSim (mark : DeferredMark) : Sys (result units TeardownOutcome).

Section Stages.
Context `{!NodeDate}.

(** [Date.parse(a) > Date.parse(b)], which an invalid date does not pass. *)
Definition later (a b : units) : bool :=
  match Date_parse a, Date_parse b with Some x, Some y => y <? x | _, _ => false end.

Record StageCandidate := { sc_path : units; sc_project : ProjectRecord; sc_idleMs : Z }.

(** [devices] are the workspaces of the booted devices. *)
Record DeviceReading := { rg_devices : list units; rg_simsFailed : bool; rg_protectedRoot : option units }.

Definition projectDeviceSlots (project : ProjectRecord) : ex Sys (list DeviceSlot) := of_result (pj_deviceSlots project).
Definition owned (record : option DeviceRecord) : bool := match record with Some d => dr_owned d | None => false end.

Definition canonicalOrNull (path : units) : ex Sys (option units) :=
  attempt (p ← ask (CanonicalPath path); mret (Some p)) (fun _ => mret None).

Definition sameRoot (path : units) (root : option units) : ex Sys bool :=
  match non_empty root with
  | None => mret false
  | Some root =>
      attempt (a ← ask (CanonicalPath path); b ← ask (CanonicalPath root); mret (bool_decide (a = b))) (fun _ => mret false)
  end.

Definition runsSomething (path : units) (project : ProjectRecord) (reading : DeviceReading) : ex Sys bool :=
  if bool_decide (path ∈ rg_devices reading) then mret true
  else
    slots ← projectDeviceSlots project;
    if rg_simsFailed reading && existsb (fun s => owned (ds_ios s)) slots then mret true
    else
      hosted ← ask (HostedFacts path);
      if negb (bool_decide (fst hosted = [])) || negb (bool_decide (snd hosted = [])) then mret true
      else
        supervisor ← ask (ResolveSupervisor path);
        serves ← match st_status supervisor with
                 | SvOurs | SvUnverified => mret true
                 | SvStale => orphan ← call (SurvivingServer path); mret (bool_decide (orphan ≠ None))
                 | SvNone => mret false
                 end;
        if serves : bool then mret true
        else
          let avds := omap (fun s => match ds_android s with
                                     | Some d => if dr_owned d then non_empty (dr_id d) else None
                                     | None => None
                                     end) slots in
          match avds with
          | [] => mret false
          | _ => error ← ask (UnseenEmulatorError avds); mret (bool_decide (error ≠ None))
          end.

Definition PRESSURE_SETTING : string := "the pressure idle threshold".
Definition DORMANT_SETTING : string := "idle.dormantDays".

Definition idleFor (path : units) (thresholdMs : Z) (setting : string) (locked : bool) : ex Sys (option Z) :=
  now ← call Now;
  evidence ← ask (IdleEvidence path [] now thresholdMs locked false false);
  match decideIdleStop evidence thresholdMs now setting with
  | IdleKeep _ _ _ => mret None
  | IdleStop idleMs _ =>
      settings ← call (ProjectSettings path);
      mret match settings with
           | SettingsError _ => None
           | SettingsRead keep minutes => if keep || (minutes =? 0) then None else Some idleMs
           end
  end.

(** One workspace of the loop of [idleWorkspaces]; nothing where it is passed over. *)
Definition idle_reading (reading : DeviceReading) (thresholdMs : Z) (setting : string)
    (worthIt : units → ProjectRecord → ex Sys bool) (entry : units * ProjectRecord) :
    ex Sys (option ((units * ProjectRecord) * option Z)) :=
  let '(path, project) := entry in
  same ← sameRoot path (rg_protectedRoot reading);
  worth ← (if same : bool then mret false else worthIt path project);
  if negb worth then mret None
  else
    state ← call (ReadWorkspaceState path);
    recent ← match Date_parse (default [] (state ≫= ws_lastUsedAt)) with
             | Some used => now ← call Now; mret (now - used <? thresholdMs)
             | None => mret false
             end;
    if recent : bool then mret None
    else
      attempt
        (runs ← runsSomething path project reading;
         idleMs ← (if runs : bool then mret None else idleFor path thresholdMs setting false);
         mret (Some (entry, idleMs)))
        (fun _ => mret None).

Definition idleWorkspaces (config : Config) (reading : DeviceReading) (thresholdMs : Z) (setting : string)
    (worthIt : units → ProjectRecord → ex Sys bool) : ex Sys (list StageCandidate) :=
  readings ← map_each (idle_reading reading thresholdMs setting worthIt) (cg_projects config);
  mret (map (fun '((path, project), idleMs) => {| sc_path := path; sc_project := project; sc_idleMs := idleMs |})
          (longestIdleFirst (omap (fun r => r) readings))).

Definition hasOutputs (path : units) : ex Sys bool :=
  outputs ← ask (WorkspaceOutputPaths path);
  if negb (bool_decide (outputs = [])) then mret true
  else
    dirs ← ask (ExistingBuildDirs path);
    if negb (bool_decide (dirs = [])) then mret true
    else
      store ← call (MetroStoreRoot path);
      call (Exists store).

Definition stillIdle (path : units) (thresholdMs : Z) : ex Sys bool :=
  idle ← idleFor path thresholdMs PRESSURE_SETTING true;
  mret (bool_decide (idle ≠ None)).

Definition idleStageCandidates (config : Config) (reading : DeviceReading) (thresholdMs : Z) : ex Sys (list StageCandidate) :=
  idleWorkspaces config reading thresholdMs PRESSURE_SETTING (fun _ _ => mret true).

Definition stoppedOutputCandidates (config : Config) (reading : DeviceReading) (thresholdMs : Z) : ex Sys (list StageCandidate) :=
  idleWorkspaces config reading thresholdMs PRESSURE_SETTING (fun path _ => hasOutputs path).

(** ** The outputs of a build *)

(** The project that serves from the same Metro store. *)
Fixpoint store_sharer (path store : units) (projects : list (units * ProjectRecord)) : ex Sys (option units) :=
  match projects with
  | [] => mret None
  | (other, _) :: projects =>
      theirs ← ask (CanonicalPath other);
      mine ← ask (CanonicalPath path);
      if bool_decide (theirs = mine) then store_sharer path store projects
      else
        otherStore ← call (MetroStoreRoot other);
        a ← ask (CanonicalPath otherStore);
        b ← ask (CanonicalPath store);
        if negb (bool_decide (a = b)) then store_sharer path store projects
        else
          status ← ask (ResolveSupervisor other);
          if bool_decide (st_status status = SvNone) then store_sharer path store projects
          else
            status ← ask (ResolveSupervisor other);
            if bool_decide (st_status status = SvStale) then store_sharer path store projects else mret (Some other)
  end.

(** The paths to delete, and why others are kept. *)
Definition idleOutputs (path : units) (config : Config) : ex Sys (list units * list units) :=
  outputs ← ask (WorkspaceOutputPaths path);
  dirs ← ask (ExistingBuildDirs path);
  problems ← map_each (fun dir => problem ← ask (RegenerableDirProblem path dir); mret (dir, non_empty problem)) dirs;
  let taken := omap (fun '(dir, problem) => match problem with None => Some dir | Some _ => None end) problems in
  let kept := omap (fun '(dir, problem) => (fun why => js "kept " ++ dir ++ js ": " ++ why) <$> problem) problems in
  store ← call (MetroStoreRoot path);
  there ← call (Exists store);
  if negb there then mret (outputs ++ taken, kept)
  else
    sharer ← store_sharer path store (cg_projects config);
    mret match sharer with
         | Some other =>
             (outputs ++ taken,
              kept ++ [js "kept the Metro store " ++ store ++ js ": the running dev server of " ++ other ++ js " shares it"])
         | None => (outputs ++ taken ++ [store], kept)
         end.

Definition kept_as (detail : units) : ActionOutcome :=
  {| ao_status := OutKept; ao_bytes := 0; ao_detail := detail; ao_restore := None |}.

(** [withWorkspaceProcessLock] of [engine/workspace-process-lock.ts]: the claim is released whether the body throws or not,
    but where the body throws an error that names it; releasing it may throw too. *)
Definition withWorkspaceProcessLock {A} (name : LockName) (path : units) (body : ex Sys A) : ex Sys A :=
  _ ← ask (TakeLock name path);
  program_bind body (fun r =>
    retained ← match r with Ok _ => mret false | Throw cause => call (RetainsLock name path cause) end;
    _ ← (if retained : bool then mret tt else ask (ReleaseLock name path));
    of_result r).

Definition NATIVE_RUN_HELD : units := js "a stim ios, android, share or stop run holds its native-run.lock".

(** The [catch] of [withIdleWorkspace]: what keeps the workspace, or an error thrown on. *)
Definition idle_refused {A} (used : list units → A) (error : units) : ex Sys A :=
  cleanup ← call (IsCleanupError error);
  if cleanup : bool then throw error
  else
    _ ← ask ThrowIfAborted;
    locked ← call (IsLockError error);
    if locked : bool then mret (used [NATIVE_RUN_HELD])
    else
      problem ← call (ClaimProblem error);
      match problem with
      | Some reason => mret (used [js "its native-run.lock cannot be taken: " ++ reason])
      | None => throw error
      end.

(** [withIdleWorkspace] of [workspace/in-use.ts]: the body runs under the workspace's lock where nothing uses it. *)
Definition withIdleWorkspace {A} (path : units) (used : list units → A) (body : ex Sys A) : ex Sys A :=
  finally
    (attempt
       (withWorkspaceProcessLock NativeRun path
          (reasons ← ask (WorkspaceInUse path);
           match reasons with [] => body | _ => mret (used reasons) end))
       (idle_refused used))
    (call (RemoveEmptyDir path)).

Definition in_use (reasons : list units) : ActionOutcome := kept_as (js "in use: " ++ join_text "; " reasons).

(** [withWorkspaceProcessLock] on [metro-start], with the [catch] around it: any lock error keeps the workspace, the
    body's too. *)
Definition withMetroStart {A} (path : units) (held : A) (body : ex Sys A) : ex Sys A :=
  attempt (withWorkspaceProcessLock MetroStart path body) (fun error =>
    locked ← call (IsLockError error);
    if locked : bool then mret held else throw error).

Definition clear_outputs (path : units) (config : Config) (thresholdMs : Z) : ex Sys (option ActionOutcome) :=
  idle ← idleFor path thresholdMs PRESSURE_SETTING true;
  match idle with
  | None => mret (Some (kept_as (js "it is no longer idle")))
  | Some _ =>
      outputs ← idleOutputs path config;
      match fst outputs with
      | [] => mret None
      | paths =>
          bytes ← ask (DeleteOutputs path paths);
          mret (Some {| ao_status := OutDone; ao_bytes := bytes;
                        ao_detail := js "deleted " ++ formatBytes bytes ++ js " of regenerable build outputs"
                                     ++ match snd outputs with [] => [] | kept => js "; " ++ join_text "; " kept end;
                        ao_restore := None |})
      end
  end.

Definition clearStoppedOutputs (candidate : StageCandidate) (config : Config) (thresholdMs : Z) : ex Sys (option ActionOutcome) :=
  let path := sc_path candidate in
  withIdleWorkspace path (fun reasons => Some (in_use reasons))
    (withMetroStart path (Some (kept_as (js "a stim start holds its metro-start lock")))
       (clear_outputs path config thresholdMs)).

(** ** The dormant stage *)

Definition ownsDevice (project : ProjectRecord) : ex Sys bool :=
  slots ← projectDeviceSlots project;
  mret (existsb (fun s => owned (ds_ios s) || owned (ds_android s)) slots).

Definition alreadyDormant (path : units) : ex Sys bool :=
  state ← call (ReadWorkspaceState path);
  mret match state ≫= ws_dormantAt with
       | Some at_ => negb (later (default [] (state ≫= ws_lastUsedAt)) at_)
       | None => false
       end.

Definition dormantCandidates (config : Config) (reading : DeviceReading) (thresholdMs : Z) : ex Sys (list StageCandidate) :=
  idleWorkspaces config reading thresholdMs DORMANT_SETTING (fun path project =>
    dormant ← alreadyDormant path;
    if dormant : bool then mret false
    else owns ← ownsDevice project; if owns : bool then mret true else call (HasLogs path)).

(** The newest activity that [state.json] records. *)
Definition recordedActivityAt (path : units) : ex Sys (option Z) :=
  state ← call (ReadWorkspaceState path);
  let builtAt := build ← state ≫= ws_lastBuild; (fun at_ => at_ + default 0 (snd build)) <$> Date_parse (default [] (fst build)) in
  let times := omap (fun t => t)
    ([Date_parse (default [] (state ≫= ws_lastUsedAt)); builtAt; Date_parse (default [] (state ≫= ws_idleAt))]
     ++ map Date_parse (default [] (ws_interactions <$> state))) in
  mret match times with [] => None | t :: times => Some (fold_left Z.max times t) end.

(** The settings of a workspace do not keep it from the stages. *)
Definition settings_allow (path : units) : ex Sys bool :=
  settings ← call (ProjectSettings path);
  mret match settings with SettingsError _ => false | SettingsRead keep minutes => negb (keep || (minutes =? 0)) end.

(** Whether a workspace is pending, for one of the loop of [pendingDormant]. *)
Definition is_pending (afterMs now graceMs : Z) (simsFailed : bool) (path : units) (project : ProjectRecord) : ex Sys bool :=
  dormant ← alreadyDormant path;
  worth ← (if dormant : bool then mret false else owns ← ownsDevice project; if owns : bool then mret true else call (HasLogs path));
  if negb worth then mret false
  else
    state ← call (ReadWorkspaceState path);
    unreadable ← match state with None => call (HasStateFile path) | Some _ => mret false end;
    if unreadable : bool then mret false
    else
      unseen ← (if simsFailed then slots ← projectDeviceSlots project; mret (existsb (fun s => owned (ds_ios s)) slots) else mret false);
      if unseen : bool then mret false
      else
        hosted ← ask (HostedFacts path);
        if negb (bool_decide (fst hosted = [])) || negb (bool_decide (snd hosted = [])) then mret false
        else
          allowed ← settings_allow path;
          if negb allowed then mret false
          else
            activityAt ← recordedActivityAt path;
            mret match activityAt with Some at_ => now <? at_ + afterMs + graceMs | None => false end.

Fixpoint first_pending (afterMs now graceMs : Z) (simsFailed : bool) (projects : list (units * ProjectRecord)) : ex Sys (option units) :=
  match projects with
  | [] => mret None
  | (path, project) :: projects =>
      pending ← is_pending afterMs now graceMs simsFailed path project;
      if pending : bool then mret (Some path) else first_pending afterMs now graceMs simsFailed projects
  end.

Definition pendingDormant (config : option Config) (simsFailed : bool) (now graceMs : Z) : ex Sys (option units) :=
  match config with
  | None => mret None
  | Some config =>
      if cg_dormantAfterMs config <=? 0 then mret None
      else first_pending (cg_dormantAfterMs config) now graceMs simsFailed (cg_projects config)
  end.

Definition dormantAction (path : units) (thresholdMs : Z) (why : units) : MaintenanceAction :=
  {| ma_kind := KDormantStage; ma_target := path; ma_bytes := 0; ma_reason := why; ma_workspace := Some path;
     ma_dir := None; ma_olderThanMs := Some thresholdMs |}.
Definition dormantThresholdMs (action : MaintenanceAction) : option Z := ma_olderThanMs action.

Definition dormantRestore (path : units) (deleted : list units) : ex Sys units :=
  revives ← call (Revivable path);
  mret (if (revives : bool) && bool_decide (deleted = []) then js "stim revive" else js "stim ios or stim android").

Definition sum_bytes (deleted : list (units * option Z)) : Z := fold_left (fun sum d => sum + default 0 (snd d)) deleted 0.

Definition dormant_detail (idleMs : Z) (reason : units) (result : DevicesDeleted) (archived : bool) (restore : units) : units :=
  let deleted := map fst (dd_deleted result) in
  let unmeasured := map fst (List.filter (fun d => bool_decide (snd d = None)) (dd_deleted result)) in
  js "no activity for " ++ number (idleMs / MINUTE_MS) ++ js " minutes (" ++ reason ++ js "): "
  ++ match deleted with [] => js "no owned device to delete" | _ => js "deleted " ++ join_text ", " deleted end
  ++ match unmeasured with
     | [] => []
     | _ => js " (freed size not counted for " ++ join_text ", " unmeasured
            ++ js ": its data directory could not be measured)"
     end
  ++ (if dd_failures result =? 0 then [] else js "; " ++ number (dd_failures result) ++ js " could not be deleted and stay recorded")
  ++ js "; " ++ (if archived then js "archived its logs" else js "kept its logs (archive.enabled is off or nothing to archive)")
  ++ js "; node_modules and Pods that are copy-on-write clones stay. "
  ++ match deleted with
     | [] => restore ++ js " resumes it."
     | _ => js "The next stim ios or stim android creates a device."
     end.

(** What the stage does under the lock, once it has decided again. *)
Definition enter_dormant (action : MaintenanceAction) (config : Config) (thresholdMs : Z) : ex Sys ActionOutcome :=
  let path := ma_target action in
  idle ← idleFor path thresholdMs DORMANT_SETTING true;
  match idle with
  | None => mret (kept_as (js "it is no longer idle"))
  | Some idleMs =>
      listed ← attempt (_ ← ask (ListDevices path); mret None) (fun message => mret (Some message));
      match listed with
      | Some message =>
          mret {| ao_status := OutFailed; ao_bytes := 0;
                  ao_detail := js "its owned devices cannot be listed: " ++ message; ao_restore := None |}
      | None =>
          result ← ask (DeleteDevices path);
          logs ← call (HasLogs path);
          _ ← (if logs : bool then ask (ArchiveWorkspace path) else mret tt);
          left ← (if logs : bool then call (HasLogs path) else mret true);
          let archived := (logs : bool) && negb left in
          at_ ← call Now;
          _ ← ask (RecordDormant path {| dsr_at := at_; dsr_dormantMs := cg_dormantAfterMs config;
                                         dsr_deletedDevices := map fst (dd_deleted result); dsr_archived := archived |});
          restore ← dormantRestore path (map fst (dd_deleted result));
          let failed := negb (dd_failures result =? 0) in
          let detail := dormant_detail idleMs (ma_reason action) result archived restore in
          _ ← ask (WorkspaceEvent path (if failed then LWarn else LInfo) (js "workspace_dormant") detail);
          mret {| ao_status := if failed then OutFailed else OutDone; ao_bytes := sum_bytes (dd_deleted result);
                  ao_detail := detail; ao_restore := Some restore |}
      end
  end.

Definition enterDormantStage (action : MaintenanceAction) : ex Sys ActionOutcome :=
  let path := ma_target action in
  match dormantThresholdMs action with
  | None => mret (kept_as (js "the action names no idle threshold"))
  | Some thresholdMs =>
      config ← call LoadConfig;
      match config ≫= (fun c => if bool_decide (path ∈ map fst (cg_projects c)) then Some c else None) with
      | None => mret (kept_as (js "it is no longer a registered workspace"))
      | Some config => withIdleWorkspace path in_use (enter_dormant action config thresholdMs)
      end
  end.

Definition outcome_name (outcome : LadderOutcome) : units :=
  match outcome with
  | OutWould => js "workspace_would_dormant" | OutDone => js "workspace_dormant"
  | OutKept => js "workspace_dormant_kept" | OutFailed => js "workspace_dormant_failed"
  end.
Definition log_level (outcome : LadderOutcome) : LogLevel := match outcome with OutFailed => LWarn | _ => LInfo end.
Definition REPORT_ONLY : units := js "daemon.mode report acts on nothing".

(** [why] says [idle.dormantDays] in days; [days] is its text. *)
Definition runDormantPass (days : Z → units) (config : option Config) (act : bool) (reading : DeviceReading) : ex Sys (list DaemonLadderAction) :=
  match config with
  | None => mret []
  | Some config =>
      let afterMs := cg_dormantAfterMs config in
      if afterMs <=? 0 then mret []
      else
        candidates ← dormantCandidates config reading afterMs;
        map_each (fun candidate =>
          let path := sc_path candidate in
          let why := js "idle.dormantDays is " ++ days afterMs in
          result ← (if act then enterDormantStage (dormantAction path afterMs why)
                    else restore ← dormantRestore path [];
                         mret {| ao_status := OutWould; ao_bytes := 0; ao_detail := REPORT_ONLY; ao_restore := Some restore |});
          _ ← call (Log (log_level (ao_status result)) (outcome_name (ao_status result)) (path ++ js ": " ++ ao_detail result));
          mret {| la_rung := 4; la_kind := js "dormant-stage"; la_target := path; la_workspace := Some path;
                  la_outcome := ao_status result; la_bytes := ao_bytes result; la_detail := ao_detail result;
                  la_restore := match ao_status result with OutDone => ao_restore result | _ => None end |}) candidates
  end.
End Stages.
