(* ===== verification/LadderPasses.v ===== *)
(** * What the rungs of the pressure ladder plan

    [daemon/pressure.ts] (the level a measurement means), [daemon/dependencies.ts] (which [node_modules] and [Pods] are
    worth deleting), [daemon/booted-parked.ts] (simulators kept booted for nothing) and [planRung6] of
    [stimd/passes/sweep.ts], in [packages/stim-cli/src]. *)

From Stdlib Require Import ZArith Lia.
From stdpp Require Import pretty.
From S2P Require Import Prelude.
From S2P Require Import Bytes.
From S2P Require Import Json.
From S2P Require Import Policy.
From S2P Require Import DeviceLease.
From S2P Require Import Oversight.
From S2P Require Import Programs.
From S2P Require Import Stages.
Open Scope Z_scope.

(** ** [daemon/pressure.ts] *)

Definition MEMORY_WARNING_MS : Z := 10 * MINUTE_MS.

(** In MiB; 0 where the floor is off. *)
Record DiskThresholds := { dt_highMb : Z; dt_criticalMb : Z; dt_hardFloorMb : Z }.

(** From [disk.minFreeGb], [disk.criticalFreeGb] and [disk.hardFloorGb], in MiB. *)
Definition diskThresholds (high critical floor : option Z) : DiskThresholds :=
  let hardFloorMb := default 0 floor in
  {| dt_highMb := default 0 high; dt_criticalMb := Z.max (default 0 critical) hardFloorMb; dt_hardFloorMb := hardFloorMb |}.

Definition RANK (l : PressureLevel) : Z := match l with Normal => 0 | High => 1 | Critical => 2 end.
Definition higherLevel (a b : PressureLevel) : PressureLevel := if RANK b <=? RANK a then a else b.

(** A volume with its free space in MiB. *)
Definition volume_level (t : DiskThresholds) (freeMb : Z) : PressureLevel :=
  if (0 <? dt_criticalMb t) && (freeMb <? dt_criticalMb t) then Critical
  else if (0 <? dt_highMb t) && (freeMb <? dt_highMb t) then High
  else Normal.

(** [toFixed(digits)] of [n / unit], where [unit] is a power of two: exact, rounded half up. *)
Definition fixed_1 (n unit_ : Z) : string :=
  let tenths := (20 * n + unit_) / (2 * unit_) in pretty (tenths / 10) +:+ "." +:+ pretty (tenths mod 10).
Definition fixed_0 (n unit_ : Z) : string := pretty ((2 * n + unit_) / (2 * unit_)).
Definition gb (mb : Z) : string := fixed_1 mb KIB +:+ " GB".

(** A volume by its name. The loop assigns [critical], and the higher of the level and [high]. *)
Definition add_volume (t : DiskThresholds) (acc : PressureLevel * list string) (volume : string * Z) : PressureLevel * list string :=
  let '(level, reasons) := acc in
  let '(name, freeMb) := volume in
  match volume_level t freeMb with
  | Critical =>
      (Critical, reasons ++ [gb freeMb +:+ " free on " +:+ name +:+ ", under the " +:+ gb (dt_criticalMb t) +:+ " critical floor"])
  | High =>
      (higherLevel level High,
       reasons ++ [gb freeMb +:+ " free on " +:+ name +:+ ", under disk.minFreeGb (" +:+ gb (dt_highMb t) +:+ ")"])
  | Normal => acc
  end.
Definition diskPressure (t : DiskThresholds) (disk : list (string * Z)) : PressureLevel * list string :=
  fold_left (add_volume t) disk (Normal, []).

(** What the host says of its memory, with the bytes available and in all. *)
Inductive HostMemoryPressure := HmNormal | HmWarning | HmCritical.
#[export] Instance HostMemoryPressure_eq_dec : EqDecision HostMemoryPressure.
Proof. solve_decision. Defined.
Record MemoryMeasurement := { mm_level : HostMemoryPressure; mm_availableBytes : option Z; mm_totalBytes : Z }.

(** The level, why, and since when the host has warned. [LOW_MEMORY_SHARE] is a tenth. *)
Definition memoryPressure (m : MemoryMeasurement) (previousWarningSince : option Z) (now : Z) : PressureLevel * list string * option Z :=
  let warningSince := match mm_level m with HmNormal => None | _ => Some (default now previousWarningSince) end in
  let '(level, reasons) :=
    match mm_level m, warningSince with
    | HmCritical, _ => (Critical, ["macOS memory pressure is critical"])
    | HmWarning, Some since =>
        if MEMORY_WARNING_MS <=? now - since
        then (High, ["macOS memory pressure has been warning for " +:+ pretty ((now - since) / MINUTE_MS) +:+ " minutes"])
        else (Normal, [])
    | _, _ => (Normal, [])
    end in
  let low available :=
    (High, [fixed_1 available (KIB ^ 3) +:+ " GB of " +:+ fixed_0 (mm_totalBytes m) (KIB ^ 3) +:+ " GB memory available, under 10%"]) in
  (match level, mm_availableBytes m with
   | Normal, Some available => if available * 10 <? mm_totalBytes m then low available else (level, reasons)
   | _, _ => (level, reasons)
   end, warningSince).

(** [memoryWarningSince] is the second of the pair. *)
Definition classifyPressure (t : DiskThresholds) (disk : list (string * Z)) (m : MemoryMeasurement) (previousWarningSince : option Z)
    (now : Z) : DaemonPressure * option Z :=
  let '(onDisk, diskReasons) := diskPressure t disk in
  let '(inMemory, memoryReasons, warningSince) := memoryPressure m previousWarningSince now in
  ({| dp_level := higherLevel onDisk inMemory; dp_disk := onDisk; dp_memory := inMemory; dp_reasons := diskReasons ++ memoryReasons |},
   warningSince).

(** ** [daemon/dependencies.ts] *)

Definition REAL_BYTES_THRESHOLD : Z := 256 * KIB ^ 2.
Definition UNKNOWN_KEPT : units := js "its real size is not measured yet, or the volume cannot tell, so it stays".

Definition sharedDetail (dependency : RankedDependency) (privateBytes : Z) : units :=
  formatBytes privateBytes ++ js " of its "
  ++ match rd_bytes dependency with None => js "size" | Some bytes => formatBytes bytes end
  ++ js " is its own and the rest is shared with copy-on-write clones or hard links, under the "
  ++ formatBytes REAL_BYTES_THRESHOLD ++ js " worth deleting".

Definition private_of (dependency : RankedDependency) : Z := default 0 (rd_privateBytes dependency).
Definition is_known (dependency : RankedDependency) : bool := bool_decide (rd_privateBytes dependency ≠ None).

(** [take_unknown] is [unknown] being ['take']. *)
Definition selectDependencies (ranked : list RankedDependency) (take_unknown : bool) :
    list RankedDependency * list (RankedDependency * units) :=
  let known := List.filter is_known ranked in
  let unmeasured := List.filter (fun d => negb (is_known d)) ranked in
  let take := stable_sort (fun a b => private_of b <=? private_of a)
                (List.filter (fun d => REAL_BYTES_THRESHOLD <=? private_of d) known) in
  let kept := map (fun d => (d, sharedDetail d (private_of d)))
                (List.filter (fun d => private_of d <? REAL_BYTES_THRESHOLD) known) in
  if take_unknown then (take ++ unmeasured, kept) else (take, kept ++ map (fun d => (d, UNKNOWN_KEPT)) unmeasured).

(** The index of each idle workspace by its canonical path; of two with one path the last stands. *)
Definition rank_of (idle : list StageCandidate) : ex Sys (gmap units Z) :=
  keys ← map_each (fun c => canonicalOrNull (sc_path c)) idle;
  mret (fold_left (fun m '(i, key) => match key with
                                      | Some key => if bool_decide (key = []) then m else <[key := Z.of_nat i]> m
                                      | None => m
                                      end) (imap pair keys) ∅).

(** The first workspace key of a candidate that is ranked. *)
Fixpoint ranked_key (rank : gmap units Z) (keys : list units) : ex Sys (option units) :=
  match keys with
  | [] => mret None
  | key :: keys =>
      canonical ← canonicalOrNull key;
      if bool_decide (rank !! default [] canonical = None) then ranked_key rank keys else mret (Some key)
  end.

Definition rank_candidate (rank : gmap units Z) (entry : ArtifactCandidate * (option Z * option Z)) :
    ex Sys (option (RankedDependency * Z)) :=
  let '(candidate, (bytes, privateBytes)) := entry in
  keys ← map_each (fun key => is_workspace ← call (WorkspaceKey key); mret (key, is_workspace)) (af_keys candidate);
  key ← ranked_key rank (map fst (List.filter snd keys));
  match non_empty key with
  | None => mret None
  | Some workspace =>
      canonical ← canonicalOrNull workspace;
      mret (Some ({| rd_candidate := candidate; rd_workspace := workspace; rd_bytes := bytes; rd_privateBytes := privateBytes |},
                  default 0 (rank !! default [] canonical)))
  end.

Definition rankDependencies (idle : list StageCandidate) (protectedRoot : units) : ex Sys (list RankedDependency) :=
  rank ← rank_of idle;
  if bool_decide (rank = ∅) then mret []
  else
    found ← ask (CollectDependencies protectedRoot);
    ranked ← map_each (rank_candidate rank) found;
    mret (map fst (stable_sort (fun a b => snd a <=? snd b) (omap (fun r => r) ranked))).

Definition clearDependency (dependency : RankedDependency) (idleMs : Z) (protectedRoot : units) : ex Sys ActionOutcome :=
  attempt (ask (ClearArtifact dependency idleMs protectedRoot))
    (fun message => mret {| ao_status := OutFailed; ao_bytes := 0; ao_detail := message; ao_restore := None |}).

Definition HOUR_MS : Z := 60 * MINUTE_MS.
Definition RESTORE : units := js "stim worktree warm".
Definition VERBS (outcome : LadderOutcome) : units :=
  match outcome with
  | OutWould => js "would delete" | OutDone => js "deleted" | OutKept => js "kept" | OutFailed => js "failed to delete"
  end.

Definition dormant_dependency (act : bool) (afterMs : Z) (why : units) (dependency : RankedDependency) : ex Sys DaemonLadderAction :=
  let target := af_path (rd_candidate dependency) in
  let reason := why ++ js "; " ++ formatBytes (private_of dependency) ++ js " of it is its own" in
  result ← (if act then clearDependency dependency afterMs []
            else mret {| ao_status := OutWould; ao_bytes := 0; ao_detail := REPORT_ONLY; ao_restore := None |});
  let done := bool_decide (ao_status result = OutDone) in
  let level := log_level (ao_status result) in
  let msg := js "dormant stage: " ++ VERBS (ao_status result) ++ js " " ++ target ++ js " (" ++ formatBytes (ao_bytes result)
             ++ js " freed): " ++ ao_detail result ++ js "; " ++ reason ++ (if done then js "; restore with " ++ RESTORE else []) in
  _ ← call (Log level (js "dormant_dependencies") msg);
  _ ← (if bool_decide (ao_status result ∈ [OutDone; OutFailed])
       then attempt (ask (WorkspaceEvent (rd_workspace dependency) level (js "dormant_dependencies") msg)) (fun _ => mret tt)
       else mret tt);
  mret {| la_rung := 4; la_kind := js "delete-dependencies"; la_target := target; la_workspace := Some (rd_workspace dependency);
          la_outcome := ao_status result; la_bytes := ao_bytes result; la_detail := ao_detail result;
          la_restore := if done then Some RESTORE else None |}.

(** [dormantCheckedAt] is a variable of the module; [days] is the text of the days. *)
Definition runDormantDependencies `{!NodeDate} (days : Z → units) (config : option Config) (act : bool) (reading : DeviceReading) :
    ex Sys (list DaemonLadderAction) :=
  match config with
  | None => mret []
  | Some config =>
      let afterMs := cg_dormantAfterMs config in
      if afterMs <=? 0 then mret []
      else
        now ← call Now;
        checked ← call DormantCheckedAt;
        if match checked with Some at_ => now - at_ <? HOUR_MS | None => false end then mret []
        else
          now ← call Now;
          _ ← call (SetDormantChecked now);
          idle ← idleStageCandidates config reading afterMs;
          match idle with
          | [] => mret []
          | _ =>
              ranked ← rankDependencies idle [];
              let take := fst (selectDependencies ranked false) in
              _ ← match take with [] => mret tt | _ => ask ArtifactWorktrees end;
              map_each (dormant_dependency act afterMs (js "idle.dormantDays is " ++ days afterMs)) take
          end
  end.

(** ** [daemon/booted-parked.ts] *)

Section BootedParked.
Context `{!NodeDate}.

(** [Date.parse(at) > now]. *)
Definition after_now (at_ : units) (now : Z) : bool := match Date_parse at_ with Some t => now <? t | None => false end.
Definition isBootedParked (record : ParkedDevice) (now : Z) : bool :=
  match pd_bootedUntil record with Some until => after_now until now | None => false end.

Definition memory_why (memory : HostMemoryPressure) : option units :=
  match memory with
  | HmNormal => None
  | HmWarning => Some (js "macOS memory pressure is warning")
  | HmCritical => Some (js "macOS memory pressure is critical")
  end.

(** Why a parked simulator is due, given whether it is booted. *)
Definition parked_due (record : ParkedDevice) (live : bool) (now : Z) (memory : HostMemoryPressure) (all : bool) : option units :=
  if negb live then Some (js "it is no longer booted")
  else match memory_why memory with
       | Some why => Some why
       | None =>
           if negb (isBootedParked record now) then Some (js "its grace period has passed")
           else if all then Some (js "every booted parked simulator is taken") else None
       end.

(** [sims] is whether the list of simulators is there. *)
Definition bootedParkedDue (sims : bool) (now : Z) (memory : HostMemoryPressure) (all : bool) (records : list ParkedDevice) :
    ex Sys (list (ParkedDevice * units)) :=
  if negb sims then mret []
  else
    due ← map_each (fun record =>
      match pd_bootedUntil record with
      | None => mret None
      | Some _ => live ← call (SimBooted (pd_id record)); mret (pair record <$> parked_due record live now memory all)
      end) records;
    mret (omap (fun d => d) due).

(** The mark with why it is due, and whether the simulator is to be shut down. *)
Definition mark_due (mark : DeferredMark) (now : Z) (memory : HostMemoryPressure) (all : bool) : ex Sys (option (DeferredMark * units * bool)) :=
  live ← call (SimBooted (df_udid mark));
  mret (if negb live then Some (mark, js "it is no longer booted", false)
        else match memory_why memory with
             | Some why => Some (mark, why, true)
             | None =>
                 if match Date_parse (df_until mark) with Some until => until <=? now | None => false end then
                   Some (mark, js "its grace period has passed", true)
                 else if all then Some (mark, js "every deferred shutdown is taken", true) else None
             end).

Definition deferredShutdownDue (sims : bool) (now : Z) (memory : HostMemoryPressure) (all : bool) (marks : list DeferredMark) :
    ex Sys (list (DeferredMark * units * bool)) :=
  if negb sims then mret []
  else due ← map_each (fun mark => mark_due mark now memory all) marks; mret (omap (fun d => d) due).

(** The slot that a key names, whatever its platform. *)
Definition slot_mark (root : units) (slots : list DeviceSlot) (entry : units * (units * units)) : option DeferredMark :=
  let '(key, (udid, until)) := entry in
  slot ← snd <$> parseDeviceSlotKey key;
  s ← List.find (fun s => bool_decide (ds_slot s = slot)) slots;
  ios ← ds_ios s;
  if dr_owned ios && bool_decide (dr_id ios = Some udid) then
    Some {| df_root := root; df_slot := slot; df_udid := udid; df_name := default udid (dr_deviceName ios); df_until := until |}
  else None.

Definition readDeferredMarks (config : option Config) : ex Sys (list DeferredMark) :=
  marks ← map_each (fun '(root, project) =>
    slots ← projectDeviceSlots project;
    if negb (existsb (fun s => owned (ds_ios s)) slots) then mret []
    else state ← call (ReadWorkspaceState root); mret (omap (slot_mark root slots) (default [] (ws_deferred <$> state))))
    (match config with Some c => cg_projects c | None => [] end);
  mret (concat marks).

(** Under the workspace's lock, where the mark has not changed. *)
Definition shutDownDeferredIosSim (mark : DeferredMark) : ex Sys (option TeardownOutcome) :=
  withIdleWorkspace (df_root mark) (fun _ => None)
    (state ← call (ReadWorkspaceState (df_root mark));
     key ← match deviceSlotKey Ios (df_slot mark) with Ok key => mret key | Throw _ => throw (js DEVICE_SLOT_RULE) end;
     let current := snd <$> List.find (fun d => bool_decide (fst d = key))
                              (default [] (ws_deferred <$> state)) in
     if negb (bool_decide (current = Some (df_udid mark, df_until mark))) then mret None
     else
       outcome ← ask (TeardownSim mark);
       _ ← match to_status outcome with
           | TornDown | Missing => ask (ClearDeferred (df_root mark) (df_slot mark) (df_until mark))
           | _ => mret tt
           end;
       mret (Some outcome)).

Definition status_text (s : TeardownStatus) : units :=
  match s with
  | TornDown => js "torn-down" | Missing => js "missing" | Skipped => js "skipped" | TeardownFailed => js "failed"
  end.
Definition teardown_detail (label why : units) (done : bool) (outcome : TeardownOutcome) : units :=
  if done then js "shut down " ++ label ++ js ": " ++ why
  else js "kept " ++ label ++ js " booted: " ++ default (status_text (to_status outcome)) (to_reason outcome).

(** The actions added for one. *)
Definition shut_down_parked (act : bool) (rung : Z) (due : ParkedDevice * units) : ex Sys (list DaemonLadderAction) :=
  let '(record, why) := due in
  let target := pd_id record in
  let label := js "parked simulator " ++ pd_name record in
  let action outcome detail :=
    {| la_rung := rung; la_kind := js "shut-down-parked-device"; la_target := target; la_workspace := None;
       la_outcome := outcome; la_bytes := 0; la_detail := detail; la_restore := None |} in
  if negb act then
    _ ← call (Log LInfo (js "booted_parked_would_shut_down") (js "would shut down " ++ label ++ js ": " ++ why));
    mret [action OutWould REPORT_ONLY]
  else
    outcome ← ask (ShutDownParked target);
    let done := bool_decide (to_status outcome = TornDown) in
    let detail := teardown_detail label why done outcome in
    _ ← call (Log (if done then LInfo else LWarn) (if done then js "booted_parked_shut_down" else js "booted_parked_kept") detail);
    mret (if bool_decide (to_status outcome = Skipped) then [] else [action (if done then OutDone else OutFailed) detail]).

Definition shut_down_deferred (act : bool) (rung : Z) (due : DeferredMark * units * bool) : ex Sys (list DaemonLadderAction) :=
  let '(mark, why, shutDown) := due in
  let root := df_root mark in
  let label := js "simulator " ++ df_name mark in
  let action outcome detail restore :=
    {| la_rung := rung; la_kind := js "shut-down-deferred-device"; la_target := df_udid mark; la_workspace := Some root;
       la_outcome := outcome; la_bytes := 0; la_detail := detail; la_restore := restore |} in
  serving ← (if shutDown : bool then call (WorkspaceServing root) else mret true);
  if serving : bool then
    _ ← (if act then ask (ClearDeferred root (df_slot mark) (df_until mark)) else mret tt);
    mret []
  else if negb act then
    _ ← call (Log LInfo (js "deferred_shutdown_would_run") (root ++ js ": would shut down " ++ label ++ js ": " ++ why));
    mret [action OutWould REPORT_ONLY None]
  else
    outcome ← shutDownDeferredIosSim mark;
    match outcome with
    | None => mret []
    | Some outcome =>
        let done := bool_decide (to_status outcome ∈ [TornDown; Missing]) in
        let detail := teardown_detail label why done outcome in
        _ ← call (Log (if done then LInfo else LWarn)
                    (if done then js "deferred_shutdown_done" else js "deferred_shutdown_kept") (root ++ js ": " ++ detail));
        mret (if bool_decide (to_status outcome = Skipped) then []
              else [action (if done then OutDone else OutFailed) detail (if done then Some (js "stim ios") else None)])
    end.

Definition runBootedParkedPass (sims : bool) (memory : HostMemoryPressure) (act all : bool) (rung : Z) : ex Sys (list DaemonLadderAction) :=
  now ← call Now;
  records ← ask (ReadParked false);
  due ← bootedParkedDue sims now memory all records;
  parked ← map_each (shut_down_parked act rung) due;
  config ← call LoadConfig;
  marks ← readDeferredMarks config;
  deferred ← deferredShutdownDue sims now memory all marks;
  shut ← map_each (shut_down_deferred act rung) deferred;
  mret (concat parked ++ concat shut).

Definition RETRY_AFTER_EXPIRY_MS : Z := 10 * MINUTE_MS.
Definition retried (at_ : units) (now : Z) : bool :=
  match Date_parse at_ with Some t => now <? t + RETRY_AFTER_EXPIRY_MS | None => false end.
Definition bootedParkedPending (now : Z) : ex Sys bool :=
  records ← ask (ReadParked false);
  if existsb (fun record => match pd_bootedUntil record with Some until => retried until now | None => false end) records then mret true
  else
    config ← call LoadConfig;
    marks ← readDeferredMarks config;
    mret (existsb (fun mark => retried (df_until mark) now) marks).
End BootedParked.

(** ** [planRung6] of [stimd/passes/sweep.ts] *)

Definition plan (kind : MaintenanceKind) (target : units) (bytes : Z) (reason : units) : MaintenanceAction :=
  {| ma_kind := kind; ma_target := target; ma_bytes := bytes; ma_reason := reason; ma_workspace := None; ma_dir := None;
     ma_olderThanMs := None |}.
Definition pid_list (pids : list Z) : units := js "pid " ++ join_text ", " (map number pids).

Definition WATCHMAN_KIND : units := js "watchman".
Definition is_gradle (p : MemoryProcess) : bool := bool_decide (mp_kind p ∈ [js "gradleDaemon"; js "kotlinDaemon"]).

Definition watchmanStopBytes (underPressure : bool) : Z := if underPressure then KIB ^ 3 else 2 * KIB ^ 3.

(** [planWatchmanStop] answers [stop]. *)
Definition planWatchmanStop (daemon : MemoryProcess) (underPressure : bool) : bool :=
  negb (mp_bytes daemon <? watchmanStopBytes underPressure) && mp_reclaimable daemon.

(** The daemons that the memory report finds idle. *)
Definition plan_daemons (memory : bool) (processes : list MemoryProcess) : list MaintenanceAction :=
  let pids := map mp_pid (List.filter (fun p => mp_reclaimable p && is_gradle p) processes) in
  match pids with
  | [] => []
  | _ => [plan KStopGradleDaemons (pid_list pids) 0 (js "these Gradle and Kotlin daemons are idle")]
  end
  ++ match List.find (fun p => bool_decide (mp_kind p = WATCHMAN_KIND)) processes with
     | Some daemon =>
         if planWatchmanStop daemon memory then
           [plan KStopWatchman (js "pid " ++ number (mp_pid daemon)) 0
              (js "the shared watchman daemon holds " ++ formatBytes (mp_bytes daemon) ++ js " and nothing uses it")]
         else []
     | None => []
     end.

Definition NOT_STOPPED : units := js "it is not a daemon gc --delete --cache gradle-daemons stops".

(** The daemons to stop, or why they are kept. *)
Fixpoint blocked_by (processes : list MemoryProcess) (pids : list Z) : option units :=
  match pids with
  | [] => None
  | pid :: pids =>
      match last (List.filter (fun p => mp_pid p =? pid) processes) with
      | Some p =>
          if mp_reclaimable p then blocked_by processes pids
          else Some (js "Gradle pid " ++ number pid ++ js " keeps it: " ++ default NOT_STOPPED (mp_detail p))
      | None => Some (js "Gradle pid " ++ number pid ++ js " keeps it: " ++ NOT_STOPPED)
      end
  end.
Definition planGradleDaemonStop (blockers : list Z) : ex Sys (result units (list Z)) :=
  report ← ask (MemoryReport false true None);
  mret match List.find (starts_with (js "memory sweep skipped")) (snd report) with
       | Some skipped => Throw (js "the running Gradle processes could not be checked: " ++ skipped)
       | None => match blocked_by (fst report) blockers with Some kept => Throw kept | None => Ok blockers end
       end.

(** The unpinned Gradle versions, with the daemons that keep them; none where one of those is not to be stopped. *)
Definition plan_gradle (idleDays : Z) (actions : list MaintenanceAction) : ex Sys (list MaintenanceAction) :=
  gradle ← ask GradleVersions;
  let '(home, running, versions) := gradle in
  let deletes := existsb snd versions in
  stop ← match running with
         | None => mret None
         | Some pids => if deletes then stop ← planGradleDaemonStop pids; mret (Some stop) else mret None
         end;
  let daemons :=
    match stop with
    | Some (Ok pids) =>
        if existsb (fun a => bool_decide (ma_kind a = KStopGradleDaemons)) actions then []
        else [plan KStopGradleDaemons (pid_list pids) 0
                (js "these idle Gradle and Kotlin daemons keep unpinned Gradle versions")]
    | _ => []
    end in
  let kept := match stop with Some (Throw _) => true | _ => false end in
  mret (daemons ++
    omap (fun '(version, willDelete) =>
      if (willDelete : bool) && negb kept then
        Some {| ma_kind := KDeleteGradleVersion; ma_target := version; ma_bytes := 0;
                ma_reason := js "no registered project pins it and it is unmodified for " ++ number idleDays ++ js " days";
                ma_workspace := None; ma_dir := Some home; ma_olderThanMs := None |}
      else None) versions).

(** What is left behind in [TMPDIR] and in the worktree trash. *)
Definition plan_leftovers : ex Sys (list MaintenanceAction) :=
  leftovers ← ask TempLeftovers;
  trash ← ask Trash;
  mret (match leftovers with
        | Some (root, (_ :: _) as sizes) =>
            [plan KDeleteTempLeftovers root (fold_left Z.add sizes 0)
               (js "Stim temp directories, xctrace recordings and SwiftPM temp directories unmodified for 24 hours")]
        | _ => []
        end
        ++ match trash with
           | Some (root, (_ :: _) as sizes) =>
               [plan KDeleteTrash root (fold_left (fun sum b => sum + default 0 b) sizes 0)
                  (js "worktree removals finished moving these entries out of their worktrees")]
           | _ => []
           end).

Definition planRung6 (gradleVersionIdleDays : Z) (disk memory : bool) : ex Sys (list MaintenanceAction) :=
  scoped ← call MemorySweepIsScoped;
  daemons ← (if scoped : bool then mret []
             else
               building ← ask RunningBuild;
               report ← ask (MemoryReport true (bool_decide (building = None)) (Some (watchmanStopBytes memory)));
               mret (plan_daemons memory (fst report)));
  if negb disk then mret daemons
  else
    gradle ← (if scoped || negb (0 <? gradleVersionIdleDays) : bool then mret []
              else plan_gradle gradleVersionIdleDays daemons);
    leftovers ← plan_leftovers;
    mret (daemons ++ gradle ++ leftovers).
