(* ===== verification/Ladder.v ===== *)
(** * The pressure ladder: [packages/stim-cli/src/daemon/ladder.ts]

    Rungs that free disk or memory, from the least to the most costly, each while a measurement says that something it
    relieves is short. [executeAction] of [stimd/passes/act.ts] carries a planned action out; of its kinds the dormant
    stage is modelled, the others are the call [Execute]. [actions], that [runLadder] returns, are what it [Push]es, and
    the measurement that it returns is the last answer to [Remeasure]. *)

From Stdlib Require Import ZArith Lia.
From S2P Require Import Prelude.
From S2P Require Import Bytes.
From S2P Require Import Json.
From S2P Require Import Policy.
From S2P Require Import Oversight.
From S2P Require Import BuildSlots.
From S2P Require Import Programs.
From S2P Require Import Stages.
From S2P Require Import LadderPasses.
Open Scope Z_scope.

Definition DORMANT_HIGH_IDLE_MS : Z := 10 * MINUTE_MS.

(** Caps in bytes, an even number, so that half of one is exact; 0 where there is none. *)
Record MaintenanceSettings := {
  ms_buildCacheMax : Z;
  ms_metroCacheMax : Z;
  ms_compilationCacheMax : Z;
  ms_gradleVersionIdleDays : Z;
}.

(** [parkedOlderThanMs] is [parkedOlderThanDays] times a day. *)
Record LadderForce := { fo_level : PressureLevel; fo_why : units; fo_parkedOlderThanMs : option Z }.

Record LadderInput := {
  in_config : Config;
  in_act : bool;
  in_reading : DeviceReading;
  in_fromRung : option Z;
  in_force : option LadderForce;
  in_measure : bool;
  in_sims : bool;
  in_settings : MaintenanceSettings;
  in_buildCacheRoot : units;
  in_metroCacheRoot : units;
  in_compilationCache : units;
  in_fingerprintMemo : units;
}.

(** [stillShort] measures again where the ladder is not forced. *)
Record RungContext := {
  rc_input : LadderInput;
  rc_rung : Z;
  rc_level : PressureLevel;
  rc_relieves : list Cause;
  rc_why : units;
}.

Definition with_why (context : RungContext) (why : units) : RungContext :=
  {| rc_input := rc_input context; rc_rung := rc_rung context; rc_level := rc_level context;
     rc_relieves := rc_relieves context; rc_why := why |}.

Definition rc_act (context : RungContext) : bool := in_act (rc_input context).
Definition rc_force (context : RungContext) : option LadderForce := in_force (rc_input context).

Section Ladder.
Context `{!NodeDate, !Collation}.

Definition stillShort (context : RungContext) : ex Sys bool :=
  match rc_force context with
  | Some _ => mret true
  | None => current ← ask Remeasure; mret (bool_decide (causesOf current (rc_relieves context) ≠ []))
  end.

(** ** Actions *)

Definition verb (outcome : LadderOutcome) : units :=
  match outcome with OutWould => js "would" | OutDone => js "did" | OutKept => js "kept" | OutFailed => js "failed to" end.

(** [kind.replaceAll('-', ' ')]. *)
Definition spaced (kind : units) : units := map (fun u => if u =? 45 then 32 else u) kind.

Definition recordAction (context : RungContext) (action : DaemonLadderAction) (reason : units) : ex Sys unit :=
  _ ← call (Push action);
  let msg := js "rung " ++ number (la_rung action) ++ js ": " ++ verb (la_outcome action) ++ js " " ++ spaced (la_kind action)
             ++ js " " ++ la_target action ++ js " (" ++ formatBytes (la_bytes action) ++ js " freed): " ++ la_detail action
             ++ js "; " ++ reason
             ++ match non_empty (la_restore action) with Some restore => js "; restore with " ++ restore | None => [] end in
  let level := log_level (la_outcome action) in
  _ ← call (Log level (js "pressure_action") msg);
  match non_empty (la_workspace action) with
  | Some workspace =>
      if bool_decide (la_outcome action = OutKept)
         || (bool_decide (rc_force context ≠ None) && bool_decide (la_outcome action = OutWould)) then mret tt
      else attempt (ask (WorkspaceEvent workspace level (js "pressure_action") msg)) (fun _ => mret tt)
  | None => mret tt
  end.

Definition pathsBytes (paths : list units) : ex Sys Z :=
  sizes ← map_each (fun path => call (DirectorySize path)) paths;
  mret (fold_left (fun total size => total + default 0 size) sizes 0).

Definition idleOutputBytes (path : units) (config : Config) : ex Sys Z :=
  outputs ← idleOutputs path config; pathsBytes (fst outputs).

Definition deviceBytes (android : bool) (id : units) : ex Sys Z :=
  if negb android then call (SimDataSize id)
  else dir ← call (OwnedAvdDirectory id); match non_empty dir with Some dir => pathsBytes [dir] | None => mret 0 end.

Definition record_bytes (android : bool) (record : option DeviceRecord) : ex Sys Z :=
  match record with
  | Some d => if dr_owned d then match non_empty (dr_id d) with Some id => deviceBytes android id | None => mret 0 end else mret 0
  | None => mret 0
  end.

Definition workspaceDeviceBytes (project : ProjectRecord) : ex Sys Z :=
  slots ← projectDeviceSlots project;
  sizes ← map_each (fun s => ios ← record_bytes false (ds_ios s); android ← record_bytes true (ds_android s); mret (ios + android)) slots;
  mret (fold_left Z.add sizes 0).

Definition wouldDetail (context : RungContext) : units :=
  match rc_force context with Some _ => js "stim gc --delete would do this" | None => REPORT_ONLY end.

(** [plan.kind.replace(/^would-/, '')]. *)
Definition kind_text (kind : MaintenanceKind) : units :=
  match kind with
  | KDeleteParkedDevice => js "delete-parked-device" | KEmptyCache => js "empty-cache" | KDormantStage => js "dormant-stage"
  | KDeleteDependencies => js "delete-dependencies" | KStopGradleDaemons => js "stop-gradle-daemons"
  | KStopWatchman => js "stop-watchman" | KDeleteGradleVersion => js "delete-gradle-version"
  | KDeleteTempLeftovers => js "delete-temp-leftovers" | KDeleteTrash => js "delete-trash"
  end.

Definition executeAction (action : MaintenanceAction) : ex Sys ActionOutcome :=
  match ma_kind action with KDormantStage => enterDormantStage action | _ => ask (Execute action) end.

Definition action_of (context : RungContext) (action : MaintenanceAction) (outcome : LadderOutcome) (bytes : Z) (detail : units)
    (restore : option units) : DaemonLadderAction :=
  {| la_rung := rc_rung context; la_kind := kind_text (ma_kind action); la_target := ma_target action;
     la_workspace := non_empty (ma_workspace action); la_outcome := outcome; la_bytes := bytes; la_detail := detail;
     la_restore := non_empty restore |}.

Definition run (context : RungContext) (action : MaintenanceAction) (restore : option units) (bytes : option (ex Sys Z)) : ex Sys unit :=
  if negb (rc_act context) then
    size ← match in_measure (rc_input context), bytes with true, Some bytes => bytes | _, _ => mret (ma_bytes action) end;
    recordAction context (action_of context action OutWould size (wouldDetail context) restore) (rc_why context)
  else
    outcome ← attempt (executeAction action)
                (fun message => mret {| ao_status := OutFailed; ao_bytes := 0; ao_detail := message; ao_restore := None |});
    let restored := if bool_decide (ao_status outcome = OutDone) then from_option Some restore (ao_restore outcome) else None in
    recordAction context (action_of context action (ao_status outcome) (ao_bytes outcome) (ao_detail outcome) restored)
      (rc_why context).

Definition idle_minutes (idleMs : Z) : units := js "; idle " ++ number (idleMs / MINUTE_MS) ++ js " minutes".

(** ** The rungs *)

Definition bootedParkedRung (context : RungContext) : ex Sys unit :=
  actions ← runBootedParkedPass (in_sims (rc_input context))
              (match rc_level context with Critical => HmCritical | _ => HmWarning end) (rc_act context) true 0;
  for_each actions (fun action => call (Push action)).

Definition OUTPUTS_RESTORE : units := js "the next stim ios or stim android, from the build cache when nothing changed".

Definition clear_candidate (context : RungContext) (candidate : StageCandidate) : ex Sys unit :=
  let path := sc_path candidate in
  let config := in_config (rc_input context) in
  result ← (if rc_act context then clearStoppedOutputs candidate config PRESSURE_IDLE_MS
            else
              bytes ← (if in_measure (rc_input context) then idleOutputBytes path config else mret 0);
              mret (Some {| ao_status := OutWould; ao_bytes := bytes; ao_detail := wouldDetail context; ao_restore := None |}));
  match result with
  | None => mret tt
  | Some result =>
      recordAction context
        {| la_rung := 1; la_kind := js "delete-build-outputs"; la_target := path; la_workspace := Some path;
           la_outcome := ao_status result; la_bytes := ao_bytes result; la_detail := ao_detail result;
           la_restore := if bool_decide (ao_status result = OutDone) then Some OUTPUTS_RESTORE else None |}
        (rc_why context ++ idle_minutes (sc_idleMs candidate))
  end.

Definition idleOutputsRung (context : RungContext) : ex Sys unit :=
  candidates ← stoppedOutputCandidates (in_config (rc_input context)) (in_reading (rc_input context)) PRESSURE_IDLE_MS;
  for_while candidates (fun candidate =>
    short ← stillShort context;
    if negb short then mret false else _ ← clear_candidate context candidate; mret true).

(** [parked.toSorted], by the text of when each was parked. *)
Definition oldest_first (parked : list (bool * ParkedDevice)) : list (bool * ParkedDevice) :=
  stable_sort (fun a b => localeCompare (pd_parkedAt (snd a)) (pd_parkedAt (snd b)) <=? 0) parked.

Definition parkedRung (context : RungContext) : ex Sys unit :=
  scoped ← call DeviceSweepIsScoped;
  if scoped : bool then mret tt
  else
    ios ← ask (ReadParked false);
    android ← ask (ReadParked true);
    let parked := oldest_first (map (pair false) ios ++ map (pair true) android) in
    cutoff ← match rc_force context ≫= fo_parkedOlderThanMs with
             | None => mret None
             | Some ms => now ← call Now; mret (Some (now - ms))
             end;
    let recent (d : bool * ParkedDevice) :=
      match cutoff, Date_parse (pd_parkedAt (snd d)) with Some cutoff, Some at_ => cutoff <? at_ | _, _ => false end in
    for_while (List.filter (fun d => negb (recent d)) parked) (fun '(is_android, device) =>
      short ← (if bool_decide (rc_level context = High) then stillShort context else mret true);
      if negb short then mret false
      else
        _ ← run context (plan KDeleteParkedDevice (pd_id device) 0
                           (js "parked device " ++ pd_name device ++ js ", parked " ++ pd_parkedAt device)) None
              (Some (deviceBytes is_android (pd_id device)));
        mret true).

(** [trim]: without [evictBytes] everything unprotected goes; [recent] keeps what was used lately. *)
Definition trim (context : RungContext) (cache : CacheName) (dir : units) (evictBytes : option Z) (recent : bool) : ex Sys ActionOutcome :=
  if negb (rc_act context) then
    bytes ← (if negb (in_measure (rc_input context)) then mret 0
             else match evictBytes with
                  | Some bytes => mret bytes
                  | None => size ← call (DirectorySize dir); mret (default 0 size)
                  end);
    mret {| ao_status := OutWould; ao_bytes := bytes; ao_detail := wouldDetail context; ao_restore := None |}
  else
    result ← ask (PruneCache cache evictBytes recent);
    let kept := if pr_protectedEntries result =? 0 then []
                else js "; " ++ number (pr_protectedEntries result) ++ js " protected entries kept" in
    mret match non_empty (pr_skipped result) with
         | Some why => kept_as why
         | None =>
             if negb (pr_failed result =? 0) then
               {| ao_status := OutFailed; ao_bytes := pr_bytes result;
                  ao_detail := number (pr_failed result) ++ js " entries failed" ++ kept; ao_restore := None |}
             else if negb (pr_removed result =? 0) then
               {| ao_status := OutDone; ao_bytes := pr_bytes result; ao_detail := number (pr_removed result) ++ js " entries" ++ kept;
                  ao_restore := None |}
             else kept_as (js "no unprotected entry to evict" ++ kept)
         end.

Definition rung3 (kind : string) (target : units) (outcome : LadderOutcome) (bytes : Z) (detail : units) : DaemonLadderAction :=
  {| la_rung := 3; la_kind := js kind; la_target := target; la_workspace := None; la_outcome := outcome; la_bytes := bytes;
     la_detail := detail; la_restore := None |}.

Definition cache_reason (cache : CacheName) : units :=
  match cache with
  | BuildCache => js "; trimmed to the entries a workspace, parked device or build still uses"
  | MetroCaches => js "; emptied except what a running dev server uses"
  end.

(** The bytes to evict: everything at critical, what is over half the cap otherwise. *)
Definition to_evict (critical : bool) (dir : units) (cap : Z) : ex Sys (option (option Z)) :=
  if critical then mret (Some None)
  else
    bytes ← call (DirectorySize dir);
    mret match bytes with
         | Some bytes => if (cap =? 0) || (bytes <=? cap / 2) then None else Some (Some (bytes - cap / 2))
         | None => None
         end.

(** [cap_text] is the cap as it is written. *)
Definition trim_cache (context : RungContext) (cap_text : Z → units) (entry : CacheName * units * Z) : ex Sys unit :=
  let '(cache, dir, cap) := entry in
  let critical := bool_decide (rc_level context = Critical) in
  there ← call (Exists dir);
  short ← (if there : bool then stillShort context else mret false);
  if negb short then mret tt
  else
    evict ← to_evict critical dir cap;
    match evict with
    | None => mret tt
    | Some evict =>
        result ← trim context cache dir evict (negb critical);
        recordAction context
          (rung3 (if critical then "empty-cache" else "trim-cache") dir (ao_status result) (ao_bytes result) (ao_detail result))
          (rc_why context ++ if critical then cache_reason cache else js "; trimmed to half of its " ++ cap_text cap ++ js " GB cap")
    end.

Definition empty_compilation (context : RungContext) : ex Sys unit :=
  let dir := in_compilationCache (rc_input context) in
  let cap := ms_compilationCacheMax (in_settings (rc_input context)) in
  there ← call (Exists dir);
  short ← (if there : bool then stillShort context else mret false);
  if negb short then mret tt
  else
    size ← call (DirectorySize dir);
    match size with
    | None => mret tt
    | Some bytes =>
        if bool_decide (rc_level context = Critical) || ((0 <? cap) && (cap / 2 <? bytes)) then
          blocked ← ask CompilationBlocked;
          match non_empty blocked with
          | Some why => recordAction context (rung3 "empty-cache" dir OutKept 0 why) (rc_why context)
          | None =>
              run context {| ma_kind := KEmptyCache; ma_target := dir; ma_bytes := bytes;
                             ma_reason := js "it can only be emptied whole"; ma_workspace := None; ma_dir := Some dir;
                             ma_olderThanMs := None |} None None
          end
        else mret tt
    end.

Definition empty_memo (context : RungContext) : ex Sys unit :=
  let dir := in_fingerprintMemo (rc_input context) in
  there ← (if bool_decide (rc_level context = Critical) then call (Exists dir) else mret false);
  short ← (if there : bool then stillShort context else mret false);
  if negb short then mret tt
  else
    size ← call (DirectorySize dir);
    _ ← (if rc_act context then ask (RemoveMemo dir) else mret tt);
    recordAction context
      (rung3 "empty-cache" dir (if rc_act context then OutDone else OutWould)
         (if rc_act context || in_measure (rc_input context) then default 0 size else 0)
         (js "the next build fingerprints its tree in full")) (rc_why context).

Definition cachesRung (cap_text : Z → units) (context : RungContext) : ex Sys unit :=
  let input := rc_input context in
  let settings := in_settings input in
  _ ← for_each [(BuildCache, in_buildCacheRoot input, ms_buildCacheMax settings);
                (MetroCaches, in_metroCacheRoot input, ms_metroCacheMax settings)] (trim_cache context cap_text);
  _ ← empty_compilation context;
  empty_memo context.

Definition dormantRung (context : RungContext) : ex Sys unit :=
  let config := in_config (rc_input context) in
  if cg_dormantAfterMs config <=? 0 then mret tt
  else
    let idleMs := match rc_level context with Critical => PRESSURE_IDLE_MS | _ => DORMANT_HIGH_IDLE_MS end in
    candidates ← dormantCandidates config (in_reading (rc_input context)) idleMs;
    for_while candidates (fun candidate =>
      short ← stillShort context;
      if negb short then mret false
      else
        _ ← run (with_why context (rc_why context ++ idle_minutes (sc_idleMs candidate)))
              (dormantAction (sc_path candidate) idleMs (rc_why context)) None
              (Some (workspaceDeviceBytes (sc_project candidate)));
        mret true).

Definition rung5 (dependency : RankedDependency) (outcome : LadderOutcome) (bytes : Z) (detail : units) : DaemonLadderAction :=
  {| la_rung := 5; la_kind := js "delete-dependencies"; la_target := af_path (rd_candidate dependency);
     la_workspace := Some (rd_workspace dependency); la_outcome := outcome; la_bytes := bytes; la_detail := detail;
     la_restore := if bool_decide (outcome = OutDone) then Some (js "stim worktree warm") else None |}.

Definition dependency_why (why : units) (dependency : RankedDependency) : units :=
  match rd_privateBytes dependency with
  | None => why ++ js "; its real size is unknown"
  | Some bytes => why ++ js "; " ++ formatBytes bytes ++ js " of it is its own"
  end.

Definition dependency_plan (dependency : RankedDependency) (why : units) : MaintenanceAction :=
  {| ma_kind := KDeleteDependencies; ma_target := af_path (rd_candidate dependency); ma_bytes := private_of dependency;
     ma_reason := why; ma_workspace := Some (rd_workspace dependency); ma_dir := None; ma_olderThanMs := None |}.

Definition delete_dependency (context : RungContext) (protectedRoot : units) (dependency : RankedDependency) : ex Sys unit :=
  let why := dependency_why (rc_why context) dependency in
  if negb (rc_act context) then
    problem ← ask (RestoreProblem (af_path (rd_candidate dependency)));
    match non_empty problem with
    | Some unrestorable => recordAction context (rung5 dependency OutKept 0 unrestorable) why
    | None =>
        run (with_why context why) (dependency_plan dependency why) (Some (js "stim worktree warm"))
          (Some match rd_privateBytes dependency with
                | Some bytes => mret bytes
                | None => pathsBytes [af_path (rd_candidate dependency)]
                end)
    end
  else
    result ← clearDependency dependency PRESSURE_IDLE_MS protectedRoot;
    recordAction context (rung5 dependency (ao_status result) (ao_bytes result) (ao_detail result)) why.

Definition dependenciesRung (context : RungContext) : ex Sys unit :=
  if negb (bool_decide (rc_level context = Critical)) then mret tt
  else
    let reading := in_reading (rc_input context) in
    idle ← idleStageCandidates (in_config (rc_input context)) reading PRESSURE_IDLE_MS;
    protectedRoot ← match non_empty (rg_protectedRoot reading) with
                    | Some root => canonical ← canonicalOrNull root; mret (default [] canonical)
                    | None => mret []
                    end;
    ranked ← rankDependencies idle protectedRoot;
    let '(take, kept) := selectDependencies ranked true in
    _ ← for_each kept (fun '(dependency, detail) => recordAction context (rung5 dependency OutKept 0 detail) (rc_why context));
    _ ← match take with [] => mret tt | _ => ask ArtifactWorktrees end;
    for_while take (fun dependency =>
      short ← stillShort context;
      if negb short then mret false else _ ← delete_dependency context protectedRoot dependency; mret true).

Definition sweepRung (context : RungContext) (causes : list Cause) : ex Sys unit :=
  actions ← planRung6 (ms_gradleVersionIdleDays (in_settings (rc_input context)))
              (bool_decide (Disk ∈ causes)) (bool_decide (Memory ∈ causes));
  for_while actions (fun action =>
    short ← stillShort context;
    if negb short then mret false else _ ← run context action None None; mret true).

(** ** The ladder *)

Definition RUNG_ACTS (cap_text : Z → units) (context : RungContext) (causes : list Cause) : ex Sys unit :=
  let rung := rc_rung context in
  if rung =? 0 then bootedParkedRung context
  else if rung =? 1 then idleOutputsRung context
  else if rung =? 2 then parkedRung context
  else if rung =? 3 then cachesRung cap_text context
  else if rung =? 4 then dormantRung context
  else if rung =? 5 then dependenciesRung context
  else sweepRung context causes.

Definition runRung (cap_text : Z → units) (context : RungContext) (causes : list Cause) : ex Sys unit :=
  attempt (RUNG_ACTS cap_text context causes) (fun message =>
    call (Log LWarn (js "pressure_rung_failed") (js "rung " ++ number (rc_rung context) ++ js " failed: " ++ message))).

Definition level_text (l : PressureLevel) : units :=
  match l with Normal => js "normal" | High => js "high" | Critical => js "critical" end.
Definition pressure_why (p : DaemonPressure) : units :=
  js "pressure level " ++ level_text (dp_level p) ++ js ": " ++ join_text "; " (map js (dp_reasons p)).

Definition context_for (input : LadderInput) (rung : LadderRung) (level : PressureLevel) (why : units) : RungContext :=
  {| rc_input := input; rc_rung := lg_rung rung; rc_level := level; rc_relieves := lg_relieves rung; rc_why := why |}.

(** One rung of the loop: measured first; whether the ladder goes on. *)
Definition climb (cap_text : Z → units) (input : LadderInput) (rung : LadderRung) : ex Sys bool :=
  current ← ask Remeasure;
  match rungDecision current (lg_relieves rung) with
  | RungStop => mret false
  | RungSkip => mret true
  | RungRun causes level =>
      _ ← runRung cap_text (context_for input rung level (pressure_why current)) causes; mret true
  end.

Definition runLadder (cap_text : Z → units) (input : LadderInput) (pressure : DaemonPressure) : ex Sys unit :=
  let rungs := rungsFrom (in_fromRung input) in
  match in_force input with
  | Some force =>
      for_each rungs (fun rung => runRung cap_text (context_for input rung (fo_level force) (fo_why force)) [Disk; Memory])
  | None => if bool_decide (dp_level pressure = Normal) then mret tt else for_while rungs (climb cap_text input)
  end.
End Ladder.
