(* ===== verification/IdlePass.v ===== *)
(** * The activity pass of the daemon: [packages/stim-cli/src/daemon/idle.ts]

    Every tick it looks at each registered workspace with something running, and moves one whose last activity is older
    than its threshold into the idle stage: its dev server and devices stopped, its build outputs deleted. What it calls
    is of the signature [Sys]. *)

From Stdlib Require Import ZArith Lia.
From S2P Require Import Prelude.
From S2P Require Import Bytes.
From S2P Require Import Json.
From S2P Require Import Policy.
From S2P Require Import DeviceLease.
From S2P Require Import Oversight.
From S2P Require Import Programs.
From S2P Require Import Stages.
From S2P Require Import LadderPasses.
From S2P Require Import Ladder.
Open Scope Z_scope.

Inductive IdleOutcome := IoActive | IoKept | IoIdle | IoWouldIdle | IoFailed.
#[export] Instance IdleOutcome_eq_dec : EqDecision IdleOutcome.
Proof. solve_decision. Defined.

Record DaemonWorkspaceDecision := {
  wd_path : units;
  wd_lastActivity : option (string * units);
  wd_outcome : IdleOutcome;
  wd_detail : units;
  wd_freedBytes : option Z;
}.

(** [pressure] is the level, high or critical, and its reasons. *)
Record IdlePassInput := {
  ip_config : option Config;
  ip_now : Z;
  ip_sims : bool;
  ip_simsError : option string;
  ip_devices : list OwnedDevice;
  ip_act : bool;
  ip_pressure : option (PressureLevel * list string);
  ip_unsupervised : bool;
  ip_protectedRoot : option units;
}.

Inductive Candidate :=
| NotRunning
| CandidateKept (kept : string)
| CandidateIdle (idleMs minutes : Z) (serving : bool) (booted : list OwnedDevice).

Definition with_devices (input : IdlePassInput) (devices : list OwnedDevice) : IdlePassInput :=
  {| ip_config := ip_config input; ip_now := ip_now input; ip_sims := ip_sims input; ip_simsError := ip_simsError input;
     ip_devices := devices; ip_act := ip_act input; ip_pressure := ip_pressure input;
     ip_unsupervised := ip_unsupervised input; ip_protectedRoot := ip_protectedRoot input |}.

Section IdlePass.
Context `{!NodeDate}.

Definition level_name (l : PressureLevel) : string := match l with Normal => "normal" | High => "high" | Critical => "critical" end.

Definition thresholdName (input : IdlePassInput) : string :=
  match ip_pressure input with
  | Some (level, _) => "the 2-minute idle threshold of " +:+ level_name level +:+ " pressure"
  | None => IDLE_SETTING
  end.

Definition thresholdWhy (input : IdlePassInput) (minutes : Z) : units :=
  match ip_pressure input with
  | Some (level, reasons) => js ("pressure level " +:+ level_name level +:+ ": " +:+ join "; " reasons)
  | None => js IDLE_SETTING ++ js " is " ++ number minutes
  end.

(** [holdsDeferredShutdown] of [devices/deferred-shutdown.ts]. *)
Definition holdsDeferredShutdown (state : option WorkspaceState) (slot udid : units) (now : Z) : ex Sys bool :=
  key ← match deviceSlotKey Ios slot with Ok key => mret key | Throw _ => throw (js DEVICE_SLOT_RULE) end;
  mret match snd <$> List.find (fun d => bool_decide (fst d = key)) (default [] (ws_deferred <$> state)) with
       | Some (id, until) => bool_decide (id = udid) && after_now until now
       | None => false
       end.

Definition supervisor_status (s : SupervisorStatus) : string :=
  match s with SvOurs => "ours" | SvUnverified => "unverified" | SvStale => "stale" | SvNone => "none" end.

(** The devices of the workspace that this Stim home owns, in their order. *)
Definition owned_booted (devices : list OwnedDevice) : ex Sys (list OwnedDevice) :=
  here ← map_each (fun d => owns ← call (OwnedHere d); mret (d, owns)) devices;
  mret (map fst (List.filter snd here)).

Definition unseen_avds (slots : list DeviceSlot) (booted : list OwnedDevice) : list units :=
  let seen := map od_id (List.filter (fun d => negb (od_ios d)) booted) in
  omap (fun s => d ← ds_android s; id ← non_empty (dr_id d);
                 if dr_owned d && negb (bool_decide (id ∈ seen)) then Some id else None) slots.

(** What is read for [idleScope]. *)
Definition scope_facts (path : units) (input : IdlePassInput) (supervisor : SupervisorTarget) (state : option WorkspaceState)
    (devices booted : list OwnedDevice) (slots : list DeviceSlot) (orphan : option string) : ex Sys IdleScopeFacts :=
  protected_ ← match non_empty (ip_protectedRoot input) with
               | Some root => a ← ask (CanonicalPath root); b ← ask (CanonicalPath path); mret (bool_decide (a = b))
               | None => mret false
               end;
  deferred ← map_each (fun d => if od_ios d then holdsDeferredShutdown state (od_slot d) (od_id d) (ip_now input) else mret false) booted;
  mret {| sf_protected := protected_;
          sf_serving := bool_decide (st_status supervisor = SvOurs) || bool_decide (st_status supervisor = SvUnverified)
                        || bool_decide (orphan ≠ None);
          sf_unsupervised := ip_unsupervised input;
          sf_simsError := if existsb (fun s => owned (ds_ios s)) slots && negb (ip_sims input)
                          then Some (default "unknown error" (ip_simsError input)) else None;
          sf_booted := deferred;
          sf_foreign := map od_name (List.filter (fun d => negb (bool_decide (d ∈ booted))) devices) |}.

Definition candidate (path : units) (project : ProjectRecord) (input : IdlePassInput) : ex Sys Candidate :=
  supervisor ← ask (ResolveSupervisor path);
  state ← call (ReadWorkspaceState path);
  let devices := List.filter (fun d => bool_decide (od_project d = path)) (ip_devices input) in
  booted ← owned_booted devices;
  slots ← projectDeviceSlots project;
  orphan ← (if bool_decide (st_status supervisor = SvStale) then call (SurvivingServer path) else mret None);
  facts ← scope_facts path input supervisor state devices booted slots orphan;
  match idleScope facts with
  | ScopeOut => mret NotRunning
  | ScopeKept kept => mret (CandidateKept kept)
  | ScopeIn =>
      settings ← call (ProjectSettings path);
      hosted ← ask (HostedFacts path);
      match idleKeep {| kf_settings := settings; kf_status := supervisor_status (st_status supervisor);
                        kf_reason := st_reason supervisor; kf_command := default false (ws_command <$> state);
                        kf_hmrUpdates := default false (ws_hmrUpdates <$> state); kf_orphan := orphan;
                        kf_placements := fst hosted; kf_unreadable := snd hosted;
                        kf_pressured := bool_decide (ip_pressure input ≠ None) |} with
      | KeptBy kept => mret (CandidateKept kept)
      | IdleAfter idleMs minutes =>
          emulators ← match unseen_avds slots booted with
                      | [] => mret None
                      | unseen => ask (UnseenEmulatorError unseen)
                      end;
          mret match truthy emulators with
               | Some kept => CandidateKept kept
               | None => CandidateIdle idleMs minutes (bool_decide (st_status supervisor = SvOurs)) booted
               end
      end
  end.

Definition decide_idle (path : units) (project : ProjectRecord) (input : IdlePassInput) (locked : bool) :
    ex Sys (Candidate * option IdleStopDecision) :=
  found ← candidate path project input;
  match found with
  | CandidateIdle idleMs minutes serving booted =>
      now ← call Now;
      evidence ← ask (IdleEvidence path booted now idleMs locked serving true);
      mret (found, Some (decideIdleStop evidence idleMs now (thresholdName input)))
  | _ => mret (found, None)
  end.

(** The devices of [booted] that were shut down. *)
Definition shut_down_keys (booted : list OwnedDevice) (devices : list (units * bool)) : list units :=
  let keys := map (fun d => (if od_ios d then js "ios" else js "android") ++ js ":" ++ od_slot d) booted in
  omap (fun '(key, shut) =>
          let parts := split_on 58 key in
          let name := default [] (head parts) ++ js ":" ++ default (js "default") (nth_error parts 1) in
          if (shut : bool) && bool_decide (name ∈ keys) then Some key else None) devices.

Record StageOutcome := { so_outcome : IdleOutcome; so_detail : units; so_freedBytes : option Z }.
Definition kept_stage (detail : units) : StageOutcome := {| so_outcome := IoKept; so_detail := detail; so_freedBytes := None |}.

Definition idle_message (input : IdlePassInput) (minutes idleMs : Z) (basis : IdleStopBasis) (summary : units) (freed : Z)
    (kept : list units) (restore : units) : units :=
  js "no activity for " ++ number (idleMs / MINUTE_MS) ++ js " minutes (" ++ thresholdWhy input minutes ++ js "; last: "
  ++ js (basis_text basis) ++ js "): " ++ summary ++ js "; deleted " ++ formatBytes freed ++ js " of regenerable build outputs"
  ++ match kept with [] => [] | _ => js "; " ++ join_text "; " kept end ++ js ". Run " ++ restore ++ js " to resume it.".

(** The stage, under both locks, once it is decided again. *)
Definition stop_and_clear (path : units) (config : Config) (input : IdlePassInput) (minutes : Z) (booted : list OwnedDevice)
    (idleMs : Z) (basis : IdleStopBasis) : ex Sys StageOutcome :=
  stopped ← ask (RunIdleStop path minutes);
  if negb (sr_ok stopped) then mret {| so_outcome := IoFailed; so_detail := sr_summary stopped; so_freedBytes := None |}
  else
    outputs ← idleOutputs path config;
    freed ← ask (DeleteOutputs path (fst outputs));
    at_ ← call Now;
    _ ← ask (RecordStage path at_ minutes (shut_down_keys booted (sr_devices stopped)) freed);
    revives ← call (Revivable path);
    let restore := if revives : bool then js "stim revive" else js "stim ios or stim android" in
    let msg := idle_message input minutes idleMs basis (sr_summary stopped) freed (snd outputs) restore in
    _ ← ask (WorkspaceEvent path LInfo (js "workspace_idle") msg);
    mret {| so_outcome := IoIdle; so_detail := msg; so_freedBytes := Some freed |}.

Definition enter_idle (path : units) (project : ProjectRecord) (config : Config) (input : IdlePassInput) : ex Sys StageOutcome :=
  devices ← ask (CollectDevices path);
  again ← decide_idle path project (with_devices input devices) true;
  match again with
  | (NotRunning, _) => mret (kept_stage (js "nothing of it runs any more"))
  | (CandidateKept kept, _) => mret (kept_stage (js kept))
  | (CandidateIdle _ minutes _ booted, Some (IdleStop idleMs (basis, _))) =>
      stop_and_clear path config input minutes booted idleMs basis
  | (CandidateIdle _ _ _ _, Some (IdleKeep reason _ _)) => mret (kept_stage (js reason))
  | (CandidateIdle _ _ _ _, None) => mret (kept_stage (js "its activity cannot be read"))
  end.

Definition enterIdleStage (path : units) (project : ProjectRecord) (config : Config) (input : IdlePassInput) : ex Sys StageOutcome :=
  withIdleWorkspace path (fun reasons => kept_stage (js "in use: " ++ join_text "; " reasons))
    (withMetroStart path (kept_stage (js "a stim start holds its metro-start lock")) (enter_idle path project config input)).

(** [last] of a decision, with its time written out. *)
Definition last_activity (last_ : option (IdleStopBasis * Z)) : ex Sys (option (string * units)) :=
  match last_ with
  | None => mret None
  | Some (basis, at_) =>
      match toISOString at_ with
      | Some text => mret (Some (basis_text basis, text))
      | None => throw (js "Invalid time value")
      end
  end.

Definition decision_last (decision : option IdleStopDecision) : option (IdleStopBasis * Z) :=
  match decision with Some (IdleStop _ last_) => Some last_ | Some (IdleKeep _ _ last_) => last_ | None => None end.

(** One workspace; nothing where nothing of it runs. *)
Definition decide_one (input : IdlePassInput) (config : Config) (path : units) (project : ProjectRecord) :
    ex Sys (option DaemonWorkspaceDecision) :=
  looked ← decide_idle path project input false;
  let '(found, decision) := looked in
  match found with
  | NotRunning => mret None
  | _ =>
      last_ ← last_activity (decision_last decision);
      let entry outcome detail freed :=
        Some {| wd_path := path; wd_lastActivity := last_; wd_outcome := outcome; wd_detail := detail; wd_freedBytes := freed |} in
      match decision with
      | None => mret (entry IoKept (match found with CandidateKept kept => js kept | _ => [] end) None)
      | Some (IdleKeep reason active _) => mret (entry (if active then IoActive else IoKept) (js reason) None)
      | Some (IdleStop idleMs _) =>
          if negb (ip_act input) then
            mret (entry IoWouldIdle
                    (js "no activity for " ++ number (idleMs / MINUTE_MS) ++ js " minutes; daemon.mode report acts on nothing") None)
          else
            result ← enterIdleStage path project config input;
            mret (entry (so_outcome result) (so_detail result) (so_freedBytes result))
      end
  end.

Definition idle_event (outcome : IdleOutcome) : option (LogLevel * units) :=
  match outcome with
  | IoIdle => Some (LInfo, js "workspace_idle")
  | IoWouldIdle => Some (LInfo, js "workspace_would_idle")
  | IoFailed => Some (LWarn, js "workspace_failed")
  | _ => None
  end.

Definition tell_decision (entry : DaemonWorkspaceDecision) : ex Sys unit :=
  match idle_event (wd_outcome entry) with
  | Some (level, event) => call (Log level event (wd_path entry ++ js ": " ++ wd_detail entry))
  | None => mret tt
  end.

Definition idle_one (input : IdlePassInput) (config : Config) (entry : units * ProjectRecord) : ex Sys (option DaemonWorkspaceDecision) :=
  let '(path, project) := entry in
  decided ← attempt (decide_one input config path project) (fun message =>
    mret (Some {| wd_path := path; wd_lastActivity := None; wd_outcome := IoFailed; wd_detail := message; wd_freedBytes := None |}));
  _ ← match decided with Some entry => tell_decision entry | None => mret tt end;
  mret decided.

Definition runIdlePass (input : IdlePassInput) : ex Sys (list DaemonWorkspaceDecision) :=
  match ip_config input with
  | None => mret []
  | Some config => decisions ← map_each (idle_one input config) (cg_projects config); mret (omap (fun d => d) decisions)
  end.
End IdlePass.
