(* ===== verification/LadderFacts.v ===== *)
(** * What the pressure ladder never does

    The programs of the passes and the ladder against the calls they may make: reads wherever they only look, nothing
    destructive in report mode, nothing destructive while what it relieves is not short, nothing deleted in a workspace
    but under its lock and once it is found idle there. *)

From Stdlib Require Import ZArith Lia.
From S2P Require Import Prelude.
From S2P Require Import Bytes.
From S2P Require Import Json.
From S2P Require Import Policy.
From S2P Require Import Oversight.
From S2P Require Import BuildSlots.
From S2P Require Import Programs.
From S2P Require Import Stages.
From S2P Require Import LadderPasses.
From S2P Require Import Ladder.
Open Scope Z_scope.

(** ** Classes of calls *)

(** Calls that only look. *)
Definition reads {B} (c : Sys B) : Prop :=
  match c with
  | Remeasure | IdleEvidence _ _ _ _ _ _ _ | ProjectSettings _ | TakeLock _ _ | RetainsLock _ _ _
  | ReleaseLock _ _ | RemoveEmptyDir _ | Log _ _ _ | WorkspaceEvent _ _ _ _ | RecordDormant _ _ | ClearDeferred _ _ _
  | SetDormantChecked _ | RecordStage _ _ _ _ _ | RunIdleStop _ _ | Push _ | DeleteOutputs _ _ | DeleteDevices _ | ArchiveWorkspace _ | Execute _ | ClearArtifact _ _ _
  | PruneCache _ _ _ | RemoveMemo _ | ShutDownParked _ | TeardownSim _ => False
  | _ => True
  end.

(** Those that decide whether a workspace is idle, or tell of what was done. *)
Definition quiet {B} (c : Sys B) : Prop :=
  match c with
  | IdleEvidence _ _ _ _ _ _ _ | ProjectSettings _ | Log _ _ _ | WorkspaceEvent _ _ _ _ => True
  | c => reads c
  end.

(** Calls that stop or delete something. *)
Definition destructive {B} (c : Sys B) : Prop :=
  match c with
  | RunIdleStop _ _ | DeleteOutputs _ _ | DeleteDevices _ | ArchiveWorkspace _ | Execute _ | ClearArtifact _ _ _ | PruneCache _ _ _
  | RemoveMemo _ | ShutDownParked _ | TeardownSim _ => True
  | _ => False
  end.

(** [looks] holds what is shown to be [only quiet]; [keep] steps through a program, leaving what its calls ask. *)
Create HintDb looks discriminated.
Create HintDb kept_calls discriminated.

Ltac keep_call := let m := fresh "m" in let Hm := fresh "Hm" in intros m Hm; split; [try exact Logic.I|intros ?; try exact Hm].
Ltac keep_step :=
  lazymatch goal with
  | |- ∀ _, _ => intros ?
  | |- _ → _ => intros ?
  | |- keeps _ _ _ (mret _) => apply keeps_ret
  | |- keeps _ _ _ (of_result _) => apply keeps_result
  | |- keeps _ _ _ (throw _) => apply keeps_result
  | |- keeps _ _ _ (_ ≫= _) => apply keeps_bind
  | |- keeps _ _ _ (call _) => apply keeps_call; keep_call
  | |- keeps _ _ _ (ask _) => apply keeps_asking; keep_call
  | |- keeps _ _ _ (attempt _ _) => apply keeps_attempt
  | |- keeps _ _ _ (finally _ _) => apply keeps_finally
  | |- keeps _ _ _ (program_bind _ _) => apply keeps_program_bind
  | |- keeps _ _ _ (for_while _ _) => apply keeps_for_while
  | |- keeps _ _ _ (for_each _ _) => apply keeps_for_each
  | |- keeps _ _ _ (map_each _ _) => apply keeps_map_each
  | |- keeps _ _ _ (match ?x with _ => _ end) => destruct x eqn:?
  end.
Ltac keep_known :=
  match goal with
  | |- keeps _ _ _ _ => solve [auto with kept_calls nocore]
  | |- keeps _ nothing_seen _ ?p => change (only (@quiet) p); solve [auto with looks nocore]
  end.
Ltac keep := repeat first [keep_known | keep_step]; try solve [cbn; done].

Lemma only_mono (P P' : ∀ B, Sys B → Prop) {A} (p : ex Sys A) : only P p → (∀ B c, P B c → P' B c) → only P' p.
Proof. intros Hp HP. apply (only_keeps _ _ _ P); [done|]. auto. Qed.
Lemma reads_quiet {A} (p : ex Sys A) : only (@reads) p → only (@quiet) p.
Proof. intros Hp. apply (only_mono _ _ _ Hp). by intros B []. Qed.

Section Looks.
Context `{!NodeDate, !Collation}.

Lemma projectDeviceSlots_looks project : only (@quiet) (projectDeviceSlots project).
Proof. unfold only, projectDeviceSlots. keep. Qed.
Lemma canonicalOrNull_looks path : only (@quiet) (canonicalOrNull path).
Proof. unfold only, canonicalOrNull. keep. Qed.
Lemma sameRoot_looks path root : only (@quiet) (sameRoot path root).
Proof. unfold only, sameRoot. keep. Qed.
Lemma hasOutputs_looks path : only (@quiet) (hasOutputs path).
Proof. unfold only, hasOutputs. keep. Qed.
Lemma idleFor_looks path thresholdMs setting locked : only (@quiet) (idleFor path thresholdMs setting locked).
Proof. unfold only, idleFor. keep. Qed.
#[local] Hint Resolve projectDeviceSlots_looks canonicalOrNull_looks sameRoot_looks hasOutputs_looks idleFor_looks : looks.

Lemma store_sharer_reads path store projects : only (@reads) (store_sharer path store projects).
Proof. unfold only. induction projects as [|[other p] projects IH]; cbn [store_sharer]; keep. Qed.
Lemma idleOutputs_reads path config : only (@reads) (idleOutputs path config).
Proof. unfold only, idleOutputs. keep. apply store_sharer_reads. Qed.

Lemma runsSomething_looks path project reading : only (@quiet) (runsSomething path project reading).
Proof. unfold only, runsSomething. keep. Qed.
#[local] Hint Resolve runsSomething_looks : looks.

Lemma idleWorkspaces_looks config reading thresholdMs setting worthIt :
  (∀ path project, only (@quiet) (worthIt path project)) → only (@quiet) (idleWorkspaces config reading thresholdMs setting worthIt).
Proof. intros Hw. unfold only, idleWorkspaces, idle_reading. keep. Qed.
Lemma idleStageCandidates_looks config reading thresholdMs : only (@quiet) (idleStageCandidates config reading thresholdMs).
Proof. apply idleWorkspaces_looks. unfold only. keep. Qed.
Lemma stoppedOutputCandidates_looks config reading thresholdMs : only (@quiet) (stoppedOutputCandidates config reading thresholdMs).
Proof. apply idleWorkspaces_looks. unfold only. keep. Qed.
Lemma dormantCandidates_looks config reading thresholdMs : only (@quiet) (dormantCandidates config reading thresholdMs).
Proof. apply idleWorkspaces_looks. unfold only, alreadyDormant, ownsDevice. keep. Qed.

Lemma pathsBytes_looks paths : only (@quiet) (pathsBytes paths).
Proof. unfold only, pathsBytes. keep. Qed.
Lemma idleOutputBytes_looks path config : only (@quiet) (idleOutputBytes path config).
Proof.
  apply keeps_bind; [apply reads_quiet, idleOutputs_reads|]. intros outputs. apply pathsBytes_looks.
Qed.
#[local] Hint Resolve pathsBytes_looks : looks.
Lemma deviceBytes_looks android id : only (@quiet) (deviceBytes android id).
Proof. unfold only, deviceBytes. keep. Qed.
#[local] Hint Resolve deviceBytes_looks : looks.
Lemma workspaceDeviceBytes_looks project : only (@quiet) (workspaceDeviceBytes project).
Proof. unfold only, workspaceDeviceBytes, record_bytes. keep. Qed.

Lemma ranked_key_looks rank keys : only (@quiet) (ranked_key rank keys).
Proof. unfold only. induction keys as [|key keys IH]; cbn [ranked_key]; keep. Qed.
#[local] Hint Resolve ranked_key_looks : looks.
Lemma rankDependencies_looks idle protectedRoot : only (@quiet) (rankDependencies idle protectedRoot).
Proof. unfold only, rankDependencies, rank_of, rank_candidate. keep. Qed.
Lemma planRung6_looks idleDays disk memory : only (@quiet) (planRung6 idleDays disk memory).
Proof. unfold only, planRung6, plan_gradle, planGradleDaemonStop, plan_leftovers. keep. Qed.
Lemma bootedParkedDue_looks sims now memory all records : only (@quiet) (bootedParkedDue sims now memory all records).
Proof. unfold only, bootedParkedDue. keep. Qed.
Lemma deferredShutdownDue_looks sims now memory all marks : only (@quiet) (deferredShutdownDue sims now memory all marks).
Proof. unfold only, deferredShutdownDue, mark_due. keep. Qed.
Lemma readDeferredMarks_looks config : only (@quiet) (readDeferredMarks config).
Proof. unfold only, readDeferredMarks. keep. Qed.
Lemma to_evict_looks critical dir cap : only (@quiet) (to_evict critical dir cap).
Proof. unfold only, to_evict. keep. Qed.
End Looks.
#[export] Hint Resolve projectDeviceSlots_looks canonicalOrNull_looks idleFor_looks idleStageCandidates_looks
  stoppedOutputCandidates_looks dormantCandidates_looks pathsBytes_looks idleOutputBytes_looks deviceBytes_looks
  workspaceDeviceBytes_looks rankDependencies_looks planRung6_looks bootedParkedDue_looks deferredShutdownDue_looks
  readDeferredMarks_looks to_evict_looks : looks.

(** ** Report mode *)

(** Calls of a ladder that acts on nothing: it looks, measures, logs, and lists what it would do or keeps. Of [quiet],
    [WorkspaceEvent] writes: it appends what is listed to the workspace's own [metro.ndjson], as the code does in report
    mode too. *)
Definition reports {B} (c : Sys B) : Prop :=
  match c with
  | Remeasure => True
  | Push action => la_outcome action = OutWould ∨ la_outcome action = OutKept
  | c => quiet c
  end.

Lemma looks_report {A} (p : ex Sys A) : only (@quiet) p → only (@reports) p.
Proof. intros Hp. apply (only_mono _ _ _ Hp). by intros B []. Qed.

Section Reports.
Context `{!NodeDate, !Collation}.
Context (context : RungContext) (Hact : rc_act context = false).
#[local] Hint Resolve looks_report : kept_calls.
#[local] Ltac known := match goal with |- keeps _ _ _ ?p => change (only (@reports) p) end; solve [auto with kept_calls looks nocore].
#[local] Ltac report := rewrite ?Hact; cbn [negb]; repeat first [known | keep_step]; try solve [cbn; done].

Lemma stillShort_reports : only (@reports) (stillShort context).
Proof. unfold only, stillShort. report. Qed.
Lemma recordAction_reports c action reason :
  la_outcome action = OutWould ∨ la_outcome action = OutKept → only (@reports) (recordAction c action reason).
Proof. intros Hout. unfold only, recordAction. report. Qed.
Lemma run_reports c action restore (bytes : option (ex Sys Z)) :
  rc_act c = false → match bytes with Some p => only (@quiet) p | None => True end → only (@reports) (run c action restore bytes).
Proof.
  intros Hc Hb. unfold run. rewrite Hc. cbn [negb]. apply keeps_bind.
  - destruct (in_measure _), bytes as [p|]; [by apply looks_report|apply keeps_ret..].
  - intros size. apply recordAction_reports. by left.
Qed.

#[local] Hint Resolve stillShort_reports : kept_calls.

Lemma shut_down_parked_reports rung due : gives (@quiet) (Forall (fun a => la_outcome a = OutWould)) (shut_down_parked false rung due).
Proof. destruct due. by repeat constructor. Qed.
Lemma shut_down_deferred_reports rung due : gives (@quiet) (Forall (fun a => la_outcome a = OutWould)) (shut_down_deferred false rung due).
Proof.
  destruct due as [[mark why] []]; cbn [shut_down_deferred negb].
  - split; [done|]. intros []; [by repeat constructor|]. by repeat constructor.
  - by repeat constructor.
Qed.
Lemma runBootedParkedPass_reports sims memory all rung :
  gives (@quiet) (Forall (fun a => la_outcome a = OutWould)) (runBootedParkedPass sims memory false all rung).
Proof.
  unfold runBootedParkedPass.
  split; [done|]. intros now. split; [done|]. intros [records|]; [cbn|done].
  eapply gives_bind; [apply only_gives, bootedParkedDue_looks|]. intros due _.
  eapply gives_bind; [apply gives_map_each, shut_down_parked_reports|]. intros parked Hparked.
  split; [done|]. intros config.
  eapply gives_bind; [apply only_gives, readDeferredMarks_looks|]. intros marks _.
  eapply gives_bind; [apply only_gives, deferredShutdownDue_looks|]. intros deferred _.
  eapply gives_bind; [apply gives_map_each, shut_down_deferred_reports|]. intros shut Hshut.
  apply Forall_app. split; by apply Forall_concat.
Qed.
Lemma bootedParkedRung_reports : only (@reports) (bootedParkedRung context).
Proof.
  unfold bootedParkedRung. rewrite Hact. eapply gives_then; [apply runBootedParkedPass_reports|by intros B []|].
  intros actions Hout. apply keeps_for_each. intros action Hin.
  apply keeps_call. split; [|done]. left. rewrite Forall_forall in Hout. by apply Hout.
Qed.

#[local] Hint Extern 2 (_ ∨ _) => cbn; auto : kept_calls.
#[local] Hint Resolve recordAction_reports run_reports : kept_calls.

Lemma clear_candidate_reports candidate : only (@reports) (clear_candidate context candidate).
Proof.
  unfold clear_candidate. rewrite Hact.
  apply (gives_then _ _ _ (@quiet) (fun r => ∀ x, r = Some x → ao_status x = OutWould)); [|by intros B []|].
  - eapply gives_bind; [|by intros bytes _ x [= <-]].
    apply only_gives. destruct (in_measure _); [apply idleOutputBytes_looks|apply keeps_ret].
  - intros [x|] Hx; [|apply keeps_ret]. apply recordAction_reports. left. by apply Hx.
Qed.
#[local] Hint Resolve clear_candidate_reports : kept_calls.
Lemma idleOutputsRung_reports : only (@reports) (idleOutputsRung context).
Proof. unfold only, idleOutputsRung. report. Qed.
Lemma parkedRung_reports : only (@reports) (parkedRung context).
Proof. unfold only, parkedRung. report. all: apply run_reports; [done|apply deviceBytes_looks]. Qed.

Lemma trim_reports cache dir evict recent : gives (@quiet) (fun r => ao_status r = OutWould) (trim context cache dir evict recent).
Proof.
  unfold trim. rewrite Hact. eapply gives_bind; [|by intros bytes _]. apply only_gives. unfold only. keep.
Qed.
Lemma trim_cache_reports cap_text entry : only (@reports) (trim_cache context cap_text entry).
Proof.
  destruct entry as [[cache dir] cap]. unfold trim_cache.
  apply keeps_bind; [report|intros there]. apply keeps_bind; [report|intros short]. destruct (negb short); [apply keeps_ret|].
  apply keeps_bind; [report|intros [evict|]]; [|apply keeps_ret].
  eapply gives_then; [apply trim_reports|by intros B []|]. intros r Hr. apply recordAction_reports. by left.
Qed.
Lemma empty_compilation_reports : only (@reports) (empty_compilation context).
Proof. unfold only, empty_compilation. report. by apply run_reports. Qed.
Lemma empty_memo_reports : only (@reports) (empty_memo context).
Proof. unfold only, empty_memo. report. Qed.
#[local] Hint Resolve trim_cache_reports empty_compilation_reports empty_memo_reports : kept_calls.
Lemma cachesRung_reports cap_text : only (@reports) (cachesRung cap_text context).
Proof. unfold only, cachesRung. report. Qed.

Lemma dormantRung_reports : only (@reports) (dormantRung context).
Proof. unfold only, dormantRung. report. all: apply run_reports; [done|apply workspaceDeviceBytes_looks]. Qed.
Lemma delete_dependency_reports protectedRoot dependency : only (@reports) (delete_dependency context protectedRoot dependency).
Proof.
  unfold only, delete_dependency. report. apply run_reports; [done|].
  destruct (rd_privateBytes dependency); [apply keeps_ret|apply pathsBytes_looks].
Qed.
#[local] Hint Resolve delete_dependency_reports : kept_calls.
Lemma dependenciesRung_reports : only (@reports) (dependenciesRung context).
Proof. unfold only, dependenciesRung. report. Qed.
Lemma sweepRung_reports causes : only (@reports) (sweepRung context causes).
Proof. unfold only, sweepRung. report. by apply run_reports. Qed.

Lemma runRung_reports cap_text causes : only (@reports) (runRung cap_text context causes).
Proof.
  apply keeps_attempt; [|intros e; by apply keeps_call]. unfold RUNG_ACTS.
  repeat case_match; [apply bootedParkedRung_reports|apply idleOutputsRung_reports|apply parkedRung_reports
    |apply cachesRung_reports|apply dormantRung_reports|apply dependenciesRung_reports|apply sweepRung_reports].
Qed.
End Reports.

(** C23: a ladder that does not act changes nothing. In [daemon.mode report] and in the previews of [stim gc], whatever the
    machine answers and whether the ladder is forced or not, no call of a run is destructive, takes a workspace's lock or
    writes its state, and every action listed is one that it would do or that it keeps. Besides the daemon's log it writes
    only events, that tell of these actions, to the workspaces' logs. *)
Theorem report_mode_only_reports `{!NodeDate, !Collation} cap_text input pressure trace r before {B} (c : Sys B) b after :
  in_act input = false → ran (runLadder cap_text input pressure) trace r → trace = before ++ Event c b :: after → reports c.
Proof.
  intros Hact. apply (only_ran (@reports)). unfold runLadder.
  destruct (in_force input) as [force|].
  - apply keeps_for_each. intros rung _. by apply runRung_reports.
  - case_match; [apply keeps_ret|]. apply keeps_for_while. intros rung. unfold climb. apply keeps_bind; [by apply keeps_asking|].
    intros current. case_match; [apply keeps_ret..|]. apply keeps_bind; [by apply runRung_reports|intros []; apply keeps_ret].
Qed.

(** ** A sample machine

    One workspace, idle an hour, with outputs of 5 GiB, on a disk that is short until they are gone. *)
Module LadderSample.
#[global] Instance no_dates : NodeDate := {| Date_parse _ := None; toISOString _ := None |}.
#[global] Instance as_they_come : Collation := {| localeCompare _ _ := 0; Number_other _ := 0 |}.

Definition workspace : units := js "/w".
Definition the_config : Config :=
  {| cg_projects := [(workspace, {| pj_deviceSlots := Ok [] |})]; cg_dormantAfterMs := 0 |}.
Definition evidence (now : Z) : IdleStopEvidence :=
  {| ev_activity := [{| ac_basis := StimCommand; ac_at := Some (now - 60 * MINUTE_MS) |}]; ev_keep := [] |}.
Definition measured (disk : PressureLevel) : DaemonPressure :=
  {| dp_level := disk; dp_disk := disk; dp_memory := Normal; dp_reasons := [] |}.

(** The answers, given whether the outputs are gone. *)
Definition answer (B : Type) (c : Sys B) : bool → B * bool :=
  match c in Sys T return bool → T * bool with
  | Now => pair 1000000000
  | Remeasure => fun gone => (Ok (measured (if gone then Normal else High)), gone)
  | CanonicalPath path => pair (Ok path)
  | ReadWorkspaceState _ => pair None
  | HostedFacts _ => pair (Ok ([], []))
  | ResolveSupervisor _ => pair (Ok {| st_status := SvNone; st_reason := None |})
  | UnseenEmulatorError _ => pair (Ok None)
  | SurvivingServer _ => pair None
  | OwnedHere _ => pair true
  | CollectDevices _ => pair (Ok [])
  | RunIdleStop _ _ => pair (Ok {| sr_ok := true; sr_summary := []; sr_devices := [] |})
  | RegenerableDirProblem _ _ | RestoreProblem _ | RunningBuild | CompilationBlocked => pair (Ok None)
  | DormantCheckedAt => pair None
  | HasStateFile _ | HasLogs _ | Revivable _ | WorkspaceKey _ | MemorySweepIsScoped | SimBooted _ | WorkspaceServing _
  | Exists _ | DeviceSweepIsScoped => pair false
  | IdleEvidence _ _ now _ _ _ _ => pair (Ok (evidence now))
  | ProjectSettings _ => pair (SettingsRead false 30)
  | WorkspaceOutputPaths _ => pair (Ok [js "/w/out"])
  | ExistingBuildDirs _ => pair (Ok [])
  | MetroStoreRoot _ => pair (js "/store")
  | LoadConfig => pair (Some the_config)
  | TakeLock _ _ | ReleaseLock _ _ | ThrowIfAborted => pair (Ok tt)
  | RetainsLock _ _ _ | IsCleanupError _ | IsLockError _ => pair false
  | WorkspaceInUse _ => pair (Ok [])
  | ClaimProblem _ => pair None
  | RemoveEmptyDir _ | Log _ _ _ | SetDormantChecked _ | Push _ => pair tt
  | ListDevices _ | ArtifactWorktrees | WorkspaceEvent _ _ _ _ | RecordDormant _ _ | RecordStage _ _ _ _ _ | ClearDeferred _ _ _ | ArchiveWorkspace _
  | RemoveMemo _ => pair (Ok tt)
  | DirectorySize _ => pair (Some 1)
  | ReadParked _ => pair (Ok [])
  | SimDataSize _ => pair 0
  | OwnedAvdDirectory _ => pair None
  | CollectDependencies _ => pair (Ok [])
  | MemoryReport _ _ _ => pair (Ok ([], []))
  | GradleVersions => pair (Ok ([], None, []))
  | TempLeftovers => pair (Ok None)
  | Trash => pair (Ok None)
  | DeleteOutputs _ _ => fun _ => (Ok (5 * KIB ^ 3), true)
  | DeleteDevices _ => pair (Ok {| dd_failures := 0; dd_deleted := [] |})
  | Execute _ | ClearArtifact _ _ _ => pair (Ok (kept_as []))
  | PruneCache _ _ _ => pair (Ok {| pr_skipped := None; pr_removed := 0; pr_failed := 0; pr_bytes := 0; pr_protectedEntries := 0 |})
  | ShutDownParked _ | TeardownSim _ => pair (Ok {| to_status := TornDown; to_reason := None |})
  end.

Definition input (act : bool) : LadderInput :=
  {| in_config := the_config; in_act := act; in_reading := {| rg_devices := []; rg_simsFailed := false; rg_protectedRoot := None |};
     in_fromRung := None; in_force := None; in_measure := false; in_sims := true;
     in_settings := {| ms_buildCacheMax := 0; ms_metroCacheMax := 0; ms_compilationCacheMax := 0; ms_gradleVersionIdleDays := 30 |};
     in_buildCacheRoot := js "/b"; in_metroCacheRoot := js "/m"; in_compilationCache := js "/c"; in_fingerprintMemo := js "/f" |}.
Definition a_run (act : bool) := execute answer (runLadder number (input act) (measured High)) false.
(** The trace before the first call that a predicate picks, this call and what follows. *)
Fixpoint split_at (pick : ∀ B, Sys B → bool) (trace : list (event Sys)) : list (event Sys) * list (event Sys) :=
  match trace with
  | [] => ([], [])
  | Event c b :: rest =>
      if pick _ c then ([], trace) else let '(before, after) := split_at pick rest in (Event c b :: before, after)
  end.
Definition is_push (B : Type) (c : Sys B) : bool := match c with Push _ => true | _ => false end.
Definition is_delete (B : Type) (c : Sys B) : bool := match c with DeleteOutputs _ _ => true | _ => false end.
Definition would_delete : DaemonLadderAction :=
  {| la_rung := 1; la_kind := js "delete-build-outputs"; la_target := workspace; la_workspace := Some workspace;
     la_outcome := OutWould; la_bytes := 0; la_detail := REPORT_ONLY; la_restore := None |}.
End LadderSample.
Import LadderSample.

(** C23 where the sample ladder does not act: it lists what it would do. *)
Lemma report_mode_only_reports_witness :
  let '(before, after) := split_at is_push (fst (a_run false)) in
  fst (a_run false) = before ++ Event (Push would_delete) tt :: tail after ∧ reports (Push would_delete).
Proof.
  assert (fst (a_run false) = fst (split_at is_push (fst (a_run false))) ++ Event (Push would_delete) tt
            :: tail (snd (split_at is_push (fst (a_run false))))) as Heq by (vm_compute; reflexivity).
  destruct (split_at is_push (fst (a_run false))) as [before after]. split; [exact Heq|].
  exact (report_mode_only_reports number (input false) (measured High) _ _ before (Push would_delete) tt (tail after) eq_refl
           (execute_ran answer _ false) Heq).
Defined.
