(* ===== verification/LadderSafety.v ===== *)
(** * When the pressure ladder acts

    A ladder that is not forced stops or deletes nothing unless the latest measurement says that what this relieves is
    short. The devices and the outputs of a workspace are deleted only under its lock, once it is decided again there that
    it is idle. A rung that throws does not stop the ladder. *)

From Stdlib Require Import ZArith Lia.
From S2P Require Import Prelude.
From S2P Require Import Bytes.
From S2P Require Import Json.
From S2P Require Import Policy.
From S2P Require Import Oversight.
From S2P Require Import BuildSlots.
From S2P Require Import Programs.
From S2P Require Import Stages.
From S2P Require Import LadderPasses.
From S2P Require Import Ladder.
From S2P Require Import LadderFacts.
Open Scope Z_scope.

(** ** What is short *)

(** The causes that stopping or deleting something relieves. Rung 6 is climbed for either, and measures for either before
    each of its actions: it plans the Gradle versions, the temporary leftovers and the trash only where the disk was short
    when it began, and goes on with them while either is short. *)
Definition relieved_by {B} (c : Sys B) : list Cause :=
  match c with
  | ShutDownParked _ | TeardownSim _ => [Memory]
  | Execute action =>
      match ma_kind action with
      | KDeleteParkedDevice | KEmptyCache | KDormantStage | KDeleteDependencies => [Disk]
      | _ => [Disk; Memory]
      end
  | _ => [Disk]
  end.

(** The latest measurement. *)
Definition see_measure (B : Type) (c : Sys B) : B → option DaemonPressure → option DaemonPressure :=
  match c in Sys T return T → option DaemonPressure → option DaemonPressure with
  | Remeasure => fun r m => match r with Ok p => Some p | Throw _ => m end
  | _ => fun _ m => m
  end.
Definition short (relieves : list Cause) (m : option DaemonPressure) : Prop :=
  ∃ p, m = Some p ∧ causesOf p relieves ≠ [].
Definition when_short (B : Type) (c : Sys B) (m : option DaemonPressure) : Prop := destructive c → short (relieved_by c) m.

(** Calls that leave what is short alone: all but the measurement and what is destructive. *)
Definition mild {B} (c : Sys B) : Prop := match c with Remeasure => False | c => ¬ destructive c end.

Lemma quiet_mild {A} (p : ex Sys A) : only (@quiet) p → only (@mild) p.
Proof. intros Hp. apply (only_mono _ _ _ Hp). intros B []; cbn; tauto. Qed.
Lemma mild_short (I : option DaemonPressure → Prop) {A} (p : ex Sys A) : only (@mild) p → keeps when_short see_measure I p.
Proof.
  intros Hp. apply (only_keeps _ _ _ (@mild)); [done|]. intros B c m Hc Hm.
  destruct c; cbn in Hc; (tauto || by split; [intros []|]).
Qed.
Lemma looks_short (I : option DaemonPressure → Prop) {A} (p : ex Sys A) : only (@quiet) p → keeps when_short see_measure I p.
Proof. intros Hp. by apply mild_short, quiet_mild. Qed.

(** What rung 6 plans relieves either; none of it is the dormant stage. *)
Definition swept (action : MaintenanceAction) : Prop :=
  relieved_by (Execute action) = [Disk; Memory] ∧ ma_kind action ≠ KDormantStage.

Lemma plan_daemons_swept memory processes : Forall swept (plan_daemons memory processes).
Proof. unfold plan_daemons. apply Forall_app. split; repeat case_match; by repeat constructor. Qed.
Lemma plan_gradle_swept idleDays actions : gives (@quiet) (Forall swept) (plan_gradle idleDays actions).
Proof.
  eapply (gives_bind _ (fun _ => True)); [by apply only_gives, keeps_asking|]. intros [[home running] versions] _.
  eapply (gives_bind _ (fun _ => True)); [apply only_gives; unfold only, planGradleDaemonStop; keep|]. intros stop _. apply Forall_app. split.
  - repeat case_match; by repeat constructor.
  - apply Forall_forall. intros a ([version willDelete] & _ & Ha)%list_elem_of_omap. by destruct willDelete, stop as [[]|]; simplify_eq/=.
Qed.
Lemma plan_leftovers_swept : gives (@quiet) (Forall swept) plan_leftovers.
Proof.
  unfold plan_leftovers. split; [done|]. intros [leftovers|]; [cbn|done]. split; [done|]. intros [trash|]; [cbn|done].
  apply Forall_app. split; repeat case_match; by repeat constructor.
Qed.
Lemma planRung6_swept idleDays disk memory : gives (@quiet) (Forall swept) (planRung6 idleDays disk memory).
Proof.
  eapply (gives_bind _ (fun _ => True)); [by apply only_gives, keeps_call|]. intros scoped _.
  eapply (gives_bind _ (Forall swept)).
  { destruct scoped; [by constructor|]. split; [done|]. intros [building|]; [cbn|done].
    split; [done|]. intros [processes|]; [cbn|done]. apply plan_daemons_swept. }
  intros daemons Hd. destruct (negb disk); [done|]. eapply (gives_bind _ (Forall swept)).
  { destruct (scoped || _); [by constructor|apply plan_gradle_swept]. }
  intros gradle Hg. eapply gives_bind; [apply plan_leftovers_swept|]. intros leftovers Hl.
  apply Forall_app. split; [done|]. apply Forall_app. by split.
Qed.

Section Short.
Context `{!NodeDate, !Collation}.
#[local] Hint Resolve looks_short : kept_calls.
#[local] Ltac known := solve [auto with kept_calls looks nocore].
#[local] Ltac step := repeat first [known | keep_step]; try solve [cbn; done | by intros [] | by intros _].

Lemma recordAction_mild context action reason : only (@mild) (recordAction context action reason).
Proof. unfold only, recordAction. keep; by intros []. Qed.
Lemma recordAction_short (I : option DaemonPressure → Prop) context action reason :
  keeps when_short see_measure I (recordAction context action reason).
Proof. apply mild_short, recordAction_mild. Qed.
#[local] Hint Resolve recordAction_short : kept_calls.

Lemma locked_short I {A} name path (body : ex Sys A) :
  keeps when_short see_measure I body → keeps when_short see_measure I (withWorkspaceProcessLock name path body).
Proof. intros Hb. unfold withWorkspaceProcessLock. step. Qed.
#[local] Hint Resolve locked_short : kept_calls.
Lemma withIdleWorkspace_short I {A} path used (body : ex Sys A) :
  keeps when_short see_measure I body → keeps when_short see_measure I (withIdleWorkspace path used body).
Proof. intros Hb. unfold withIdleWorkspace, idle_refused. step. apply locked_short. step. Qed.
Lemma withMetroStart_short I {A} path held (body : ex Sys A) :
  keeps when_short see_measure I body → keeps when_short see_measure I (withMetroStart path held body).
Proof. intros Hb. unfold withMetroStart. step. Qed.

Lemma clearStoppedOutputs_short candidate config idleMs :
  keeps when_short see_measure (short [Disk]) (clearStoppedOutputs candidate config idleMs).
Proof.
  apply withIdleWorkspace_short, withMetroStart_short. unfold clear_outputs. step.
  apply looks_short, reads_quiet, idleOutputs_reads.
Qed.
Lemma enterDormantStage_short action : keeps when_short see_measure (short [Disk]) (enterDormantStage action).
Proof.
  unfold enterDormantStage. step. apply withIdleWorkspace_short. unfold enter_dormant, dormantRestore.
  step.
Qed.
Lemma executeAction_short action : keeps when_short see_measure (short (relieved_by (Execute action))) (executeAction action).
Proof.
  unfold executeAction. destruct (ma_kind action) eqn:Hk; try (apply keeps_asking; intros m Hm; split; [by intros _|done]).
  cbn. rewrite Hk. apply enterDormantStage_short.
Qed.

Lemma run_short context action restore (bytes : option (ex Sys Z)) relieves :
  relieves = relieved_by (Execute action) → match bytes with Some p => only (@quiet) p | None => True end →
  keeps when_short see_measure (short relieves) (run context action restore bytes).
Proof.
  intros -> Hb. unfold run. destruct (negb _); (apply keeps_bind; [|intros x; apply recordAction_short]).
  - destruct (in_measure _), bytes as [p|]; [by apply looks_short|apply keeps_ret..].
  - apply keeps_attempt; [apply executeAction_short|intros e; apply keeps_ret].
Qed.

(** What is done once [stillShort] answers yes starts from what is short. *)
Lemma stillShort_then context {A} (f : bool → ex Sys A) m :
  rc_force context = None → (∀ m, short (rc_relieves context) m → holds when_short see_measure (fun _ => True) (f true) (fun _ _ => True) m) →
  (∀ m, holds when_short see_measure (fun _ => True) (f false) (fun _ _ => True) m) →
  holds when_short see_measure (fun _ => True) (stillShort context ≫= f) (fun _ _ => True) m.
Proof.
  intros Hf Hyes Hno. unfold stillShort. rewrite Hf. split; [by intros []|]. intros [p|e]; [|done]. cbn.
  case_bool_decide as Hp; [|apply Hno]. apply Hyes. by exists p.
Qed.

(** From what is short or from anything, to anything. *)
Definition acts_when_short (I : option DaemonPressure → Prop) {A} (p : ex Sys A) : Prop :=
  ∀ m, I m → holds when_short see_measure (fun _ => True) p (fun _ _ => True) m.

Lemma acts_keeps I {A} (p : ex Sys A) : keeps when_short see_measure I p → acts_when_short I p.
Proof. intros Hp m Hm. by eapply holds_weaken; [by apply Hp|..]. Qed.
Lemma acts_any (I : option DaemonPressure → Prop) {A} (p : ex Sys A) : acts_when_short (fun _ => True) p → acts_when_short I p.
Proof. intros Hp m _. by apply Hp. Qed.
Lemma acts_bind I {A B} (p : ex Sys A) (f : A → ex Sys B) :
  keeps when_short see_measure I p → (∀ a, acts_when_short I (f a)) → acts_when_short I (p ≫= f).
Proof. intros Hp Hf m Hm. apply holds_bind. eapply holds_weaken; [by apply Hp| |done]. intros a m' Hm'. by apply Hf. Qed.

(** A loop that asks [stillShort] before each. *)
Lemma acts_while I {X} context (l : list X) (f : X → ex Sys unit) :
  rc_force context = None → (∀ x, keeps when_short see_measure (short (rc_relieves context)) (f x)) →
  acts_when_short I (for_while l (fun x => short ← stillShort context; if negb short then mret false else _ ← f x; mret true)).
Proof.
  intros Hforce Hf. apply acts_any. intros m _. apply holds_for_while; [done|]. intros x m' _ _.
  apply stillShort_then; [done| |done]. intros m'' Hm. cbn. apply holds_bind.
  eapply holds_weaken; [by apply Hf|done..].
Qed.

Section Rungs.
Context (context : RungContext) (Hforce : rc_force context = None).

Lemma idleOutputsRung_short : rc_relieves context = [Disk] → acts_when_short (short (rc_relieves context)) (idleOutputsRung context).
Proof.
  intros Hr. apply acts_bind; [step|]. intros candidates. apply acts_while; [done|]. rewrite Hr. intros candidate.
  unfold clear_candidate. step. apply clearStoppedOutputs_short.
Qed.
Lemma parkedRung_short : rc_relieves context = [Disk] → acts_when_short (short (rc_relieves context)) (parkedRung context).
Proof.
  intros Hr. unfold parkedRung. rewrite Hr. apply acts_bind; [step|intros []; [by apply acts_keeps, keeps_ret|]].
  do 2 (apply acts_bind; [step|intros ?]). apply acts_bind; [step|intros cutoff].
  assert (∀ is_android d, keeps when_short see_measure (short [Disk]) (run context (plan KDeleteParkedDevice (pd_id d) 0
            (js "parked device " ++ pd_name d ++ js ", parked " ++ pd_parkedAt d)) None (Some (deviceBytes is_android (pd_id d))))) as Hrun.
  { intros is_android d. apply run_short; [done|apply deviceBytes_looks]. }
  case_bool_decide.
  - apply acts_any. intros m _. apply holds_for_while; [done|]. intros [is_android d] m' _ _.
    apply stillShort_then; [done|rewrite Hr; intros m'' Hm|done]. apply holds_bind. eapply holds_weaken; [by apply Hrun|done..].
  - apply acts_keeps, keeps_for_while. intros [is_android d]. apply keeps_bind; [apply keeps_ret|]. intros []; [|apply keeps_ret].
    apply keeps_bind; [apply Hrun|intros []; apply keeps_ret].
Qed.

(** What is done where a cache is there and [stillShort] answers yes. *)
Lemma acts_where_there (there : bool) {A} (f : bool → ex Sys A) :
  keeps when_short see_measure (short (rc_relieves context)) (f true) → acts_when_short (fun _ => True) (f false) →
  acts_when_short (fun _ => True) ((if there then stillShort context else mret false) ≫= f).
Proof.
  intros Hyes Hno m _. destruct there; [|by apply (Hno m)]. apply stillShort_then; [done|by apply acts_keeps|].
  intros m'. by apply Hno.
Qed.

Lemma trim_short cache dir evict recent : keeps when_short see_measure (short [Disk]) (trim context cache dir evict recent).
Proof. unfold trim. step. Qed.
#[local] Hint Resolve trim_short : kept_calls.
Lemma trim_cache_short cap_text entry : rc_relieves context = [Disk] → acts_when_short (fun _ => True) (trim_cache context cap_text entry).
Proof.
  intros Hr. destruct entry as [[cache dir] cap]. unfold trim_cache. apply acts_bind; [step|intros there].
  apply acts_where_there; [rewrite Hr; cbn [negb]; step|by apply acts_keeps, keeps_ret].
Qed.
Lemma empty_compilation_short : rc_relieves context = [Disk] → acts_when_short (fun _ => True) (empty_compilation context).
Proof.
  intros Hr. unfold empty_compilation. apply acts_bind; [step|intros there].
  apply acts_where_there; [rewrite Hr; cbn [negb]; step; by apply run_short|by apply acts_keeps, keeps_ret].
Qed.
Lemma empty_memo_short : rc_relieves context = [Disk] → acts_when_short (fun _ => True) (empty_memo context).
Proof.
  intros Hr. unfold empty_memo. apply acts_bind; [step|intros there].
  apply acts_where_there; [rewrite Hr; cbn [negb]; step|by apply acts_keeps, keeps_ret].
Qed.
Lemma acts_then {A B} (p : ex Sys A) (f : A → ex Sys B) :
  acts_when_short (fun _ => True) p → (∀ a, acts_when_short (fun _ => True) (f a)) → acts_when_short (fun _ => True) (p ≫= f).
Proof. intros Hp Hf m Hm. apply holds_bind. eapply holds_weaken; [by apply Hp| |done]. intros a m' Hm'. by apply Hf. Qed.
Lemma cachesRung_short cap_text : rc_relieves context = [Disk] → acts_when_short (short (rc_relieves context)) (cachesRung cap_text context).
Proof.
  intros Hr. apply acts_any. unfold cachesRung. apply acts_then; [|intros _; apply acts_then]; [|by apply empty_compilation_short|].
  - intros m _. apply holds_for_each; [done|]. intros entry m' _ _. by apply trim_cache_short.
  - intros _. by apply empty_memo_short.
Qed.

Lemma dormantRung_short : rc_relieves context = [Disk] → acts_when_short (short (rc_relieves context)) (dormantRung context).
Proof.
  intros Hr. unfold dormantRung. case_match; [by apply acts_keeps, keeps_ret|]. apply acts_bind; [step|intros candidates].
  apply (acts_while _ context _ (fun candidate => run _ _ _ _)); [done|]. intros candidate. rewrite Hr.
  apply run_short; [done|apply workspaceDeviceBytes_looks].
Qed.
Lemma delete_dependency_short protectedRoot dependency :
  keeps when_short see_measure (short [Disk]) (delete_dependency context protectedRoot dependency).
Proof.
  unfold delete_dependency, clearDependency. step. apply run_short; [done|].
  destruct (rd_privateBytes dependency); [apply keeps_ret|apply pathsBytes_looks].
Qed.
#[local] Hint Resolve delete_dependency_short : kept_calls.
Lemma dependenciesRung_short : rc_relieves context = [Disk] → acts_when_short (short (rc_relieves context)) (dependenciesRung context).
Proof.
  intros Hr. unfold dependenciesRung. case_match; [by apply acts_keeps, keeps_ret|].
  apply acts_bind; [step|intros idle]. apply acts_bind; [step|intros root]. apply acts_bind; [step|intros ranked].
  destruct (selectDependencies ranked true) as [take kept]. apply acts_bind; [step|intros _]. apply acts_bind; [step|intros _].
  apply acts_while; [done|]. rewrite Hr. intros dependency. apply delete_dependency_short.
Qed.
Lemma quiet_short I : ∀ B (c : Sys B) m, quiet c → I m → when_short B c m ∧ ∀ b, I (see_measure B c b m).
Proof. intros B [] m Hc Hm; cbn in Hc; (tauto || by split; [intros []|]). Qed.
Lemma sweepRung_short causes :
  rc_relieves context = [Disk; Memory] → acts_when_short (short (rc_relieves context)) (sweepRung context causes).
Proof.
  intros Hr m Hm. apply holds_bind. eapply holds_weaken; [eapply (gives_holds _ _ (fun _ => True)); [apply planRung6_swept|done|apply quiet_short]| |done].
  intros actions m' [Hswept _]. apply holds_for_while; [done|]. intros action m'' Hin _.
  apply stillShort_then; [done|rewrite Hr; intros m3 Hm3|done]. apply holds_bind.
  rewrite Forall_forall in Hswept. eapply holds_weaken; [apply run_short; [symmetry; by apply Hswept|done|done]|done..].
Qed.

Lemma shut_down_parked_short act rung due : keeps when_short see_measure (short [Memory]) (shut_down_parked act rung due).
Proof. destruct due. unfold shut_down_parked. step. Qed.
Lemma shut_down_deferred_short act rung due : keeps when_short see_measure (short [Memory]) (shut_down_deferred act rung due).
Proof.
  destruct due as [[mark why] b]. unfold shut_down_deferred, shutDownDeferredIosSim. step. apply withIdleWorkspace_short. step.
Qed.
#[local] Hint Resolve shut_down_parked_short shut_down_deferred_short : kept_calls.
Lemma bootedParkedRung_short : rc_relieves context = [Memory] → acts_when_short (short (rc_relieves context)) (bootedParkedRung context).
Proof. intros Hr. apply acts_keeps. rewrite Hr. unfold bootedParkedRung, runBootedParkedPass. step. Qed.
End Rungs.
End Short.

Lemma elem_of_rungsFrom from rung : rung ∈ rungsFrom from → rung ∈ LADDER.
Proof. unfold rungsFrom. rewrite list_elem_of_In, filter_In, <- list_elem_of_In. by intros []. Qed.

Section Climbs.
Context `{!NodeDate, !Collation}.

Lemma runRung_short cap_text input rung level why causes :
  in_force input = None → rung ∈ LADDER →
  acts_when_short (short (lg_relieves rung)) (runRung cap_text (context_for input rung level why) causes).
Proof.
  intros Hforce Hin m Hm. unfold runRung. eapply (holds_attempt _ _ _ (fun _ => True)).
  - set (context := context_for input rung level why). assert (rc_force context = None) by done.
    revert m Hm. change (acts_when_short (short (rc_relieves context)) (RUNG_ACTS cap_text context causes)).
    repeat (apply elem_of_cons in Hin as [->|Hin]; [|]); [..|by apply not_elem_of_nil in Hin];
      [by apply bootedParkedRung_short|by apply idleOutputsRung_short|by apply parkedRung_short|by apply cachesRung_short
      |by apply dormantRung_short|by apply dependenciesRung_short|by apply sweepRung_short].
  - intros e m' _. split; [by intros []|done].
Qed.

Lemma climb_short cap_text input rung :
  in_force input = None → rung ∈ LADDER → acts_when_short (fun _ => True) (climb cap_text input rung).
Proof.
  intros Hforce Hin m _. split; [by intros []|]. intros [current|e]; [|done]. cbn. unfold rungDecision.
  case_bool_decide; [done|]. case_bool_decide as Hcauses; [done|]. apply holds_bind.
  eapply holds_weaken; [apply runRung_short; [done..|by exists current]|done..].
Qed.

(** The latest measurement of a trace. *)
Definition latest_measure (trace : list (event Sys)) : option DaemonPressure := observed see_measure trace None.

(** C20: a ladder that is not forced acts only while it is needed. Whatever the machine answers, when a run stops or
    deletes something (build outputs, parked devices, cache entries, a workspace's devices and logs, dependencies, daemons,
    booted simulators), its latest measurement before that says that disk or memory, whichever this relieves, is above
    normal. *)
Theorem ladder_acts_when_short cap_text input pressure trace r before {B} (c : Sys B) b after :
  in_force input = None → ran (runLadder cap_text input pressure) trace r → trace = before ++ Event c b :: after →
  destructive c → short (relieved_by c) (latest_measure before).
Proof.
  intros Hforce Hran Heq. assert (acts_when_short (fun _ => True) (runLadder cap_text input pressure)) as Hw.
  { unfold runLadder. rewrite Hforce. intros m _. case_match; [done|]. apply holds_for_while; [done|].
    intros rung m' Hin _. apply climb_short; [done|by eapply elem_of_rungsFrom|done]. }
  exact (proj2 (wp_ran _ _ _ _ _ _ _ (Hw None Logic.I) Hran) _ _ _ Heq).
Qed.
End Climbs.
Import LadderSample.

(** C20 where the sample ladder deletes the outputs of its workspace: the disk was short. *)
Lemma ladder_acts_when_short_witness :
  let '(before, after) := split_at is_delete (fst (a_run true)) in
  fst (a_run true) = before ++ Event (DeleteOutputs workspace [js "/w/out"]) (Ok (5 * KIB ^ 3)) :: tail after ∧
  short [Disk] (latest_measure before).
Proof.
  assert (fst (a_run true) = fst (split_at is_delete (fst (a_run true)))
            ++ Event (DeleteOutputs workspace [js "/w/out"]) (Ok (5 * KIB ^ 3)) :: tail (snd (split_at is_delete (fst (a_run true)))))
    as Heq by (vm_compute; reflexivity).
  destruct (split_at is_delete (fst (a_run true))) as [before after]. split; [exact Heq|].
  exact (ladder_acts_when_short number (input true) (measured High) _ _ before (DeleteOutputs workspace [js "/w/out"]) _ (tail after)
           eq_refl (execute_ran answer _ false) Heq Logic.I).
Defined.
