(* ===== verification/LadderLocks.v ===== *)
(** * The ladder in a workspace

    What the pressure ladder deletes of a workspace, it deletes under the workspace's lock and once what it read there says
    that the workspace is idle. The runs of the ladder, rung by rung: one that throws is logged and does not stop it. *)

From Stdlib Require Import ZArith Lia.
From S2P Require Import Prelude.
From S2P Require Import Bytes.
From S2P Require Import Json.
From S2P Require Import Policy.
From S2P Require Import PolicyFacts.
From S2P Require Import DeviceLease.
From S2P Require Import Oversight.
From S2P Require Import BuildSlots.
From S2P Require Import Programs.
From S2P Require Import Stages.
From S2P Require Import LadderPasses.
From S2P Require Import Ladder.
From S2P Require Import LadderFacts.
From S2P Require Import LadderSafety.
Open Scope Z_scope.

(** ** What was read under the lock *)

(** The workspace whose lock is held, the one whose [metro-start] lock is, and the evidence and the settings read last
    since the lock was taken. *)
Record watch := {
  w_lock : option units;
  w_metro : option units;
  w_evidence : option (units * Z * IdleStopEvidence);
  w_settings : option (units * IdleSettings);
}.

Definition nothing_watched : watch := {| w_lock := None; w_metro := None; w_evidence := None; w_settings := None |}.
Definition set_lock (lock : option units) (m : watch) : watch :=
  {| w_lock := lock; w_metro := w_metro m; w_evidence := None; w_settings := None |}.
Definition set_metro (metro : option units) (m : watch) : watch :=
  {| w_lock := w_lock m; w_metro := metro; w_evidence := w_evidence m; w_settings := w_settings m |}.

Definition held (name : LockName) (m : watch) : option units := match name with NativeRun => w_lock m | MetroStart => w_metro m end.
Definition set_held (name : LockName) : option units → watch → watch := match name with NativeRun => set_lock | MetroStart => set_metro end.
Definition put_down (name : LockName) (path : units) (m : watch) : watch :=
  if bool_decide (held name m = Some path) then set_held name None m else m.

(** A lock is put down where it is released, or where the error that its body threw names its claim: this claim is left to
    stand for the child that may still run. *)
Definition see_locks (B : Type) (c : Sys B) : B → watch → watch :=
  match c in Sys T return T → watch → watch with
  | TakeLock name path => fun r m => match r with Ok _ => set_held name (Some path) m | Throw _ => m end
  | RetainsLock name path _ => fun (retained : bool) m => if retained then put_down name path m else m
  | ReleaseLock name path => fun _ m => put_down name path m
  | IdleEvidence path _ now _ _ _ _ => fun r m =>
      match r with
      | Ok evidence => {| w_lock := w_lock m; w_metro := w_metro m; w_evidence := Some (path, now, evidence); w_settings := w_settings m |}
      | Throw _ => m
      end
  | ProjectSettings path => fun settings m =>
      {| w_lock := w_lock m; w_metro := w_metro m; w_evidence := w_evidence m; w_settings := Some (path, settings) |}
  | _ => fun _ m => m
  end.

(** Nothing keeps the workspace, and its latest activity is two minutes old at least. *)
Definition found_idle (evidence : IdleStopEvidence) (now : Z) : Prop :=
  ev_keep evidence = [] ∧
  ∃ last, is_latest (finite_activity (ev_activity evidence)) last ∧ PRESSURE_IDLE_MS <= now - snd last.

Definition idle_under_lock (path : units) (m : watch) : Prop :=
  w_lock m = Some path ∧
  (∃ now evidence, w_evidence m = Some (path, now, evidence) ∧ found_idle evidence now) ∧
  (∃ minutes, w_settings m = Some (path, SettingsRead false minutes) ∧ minutes ≠ 0).

(** A workspace's lock is taken where none is held, its [metro-start] lock under it, and what is put down is held: the
    [metro-start] lock first. *)
Definition lock_safe (B : Type) (c : Sys B) (m : watch) : Prop :=
  match c with
  | TakeLock NativeRun _ => w_lock m = None ∧ w_metro m = None
  | TakeLock MetroStart path => w_lock m = Some path ∧ w_metro m = None
  | RetainsLock NativeRun path _ | ReleaseLock NativeRun path => w_lock m = Some path ∧ w_metro m = None
  | RetainsLock MetroStart path _ | ReleaseLock MetroStart path => w_lock m = Some path ∧ w_metro m = Some path
  | DeleteOutputs path _ => idle_under_lock path m ∧ w_metro m = Some path
  | DeleteDevices path | ArchiveWorkspace path | RecordDormant path _ => idle_under_lock path m
  | TeardownSim mark => w_lock m = Some (df_root mark)
  | _ => True
  end.

Definition unlocked (m : watch) : Prop := w_lock m = None ∧ w_metro m = None.
Definition holding (path : units) (metro : option units) (m : watch) : Prop := w_lock m = Some path ∧ w_metro m = metro.

(** What neither locks nor needs a lock. *)
Definition lockless {B} (c : Sys B) : Prop :=
  match c with
  | TakeLock _ _ | RetainsLock _ _ _ | ReleaseLock _ _
  | DeleteOutputs _ _ | DeleteDevices _ | ArchiveWorkspace _ | RecordDormant _ _ | TeardownSim _ => False
  | _ => True
  end.
Lemma lockless_keeps {A} (p : ex Sys A) : only (@lockless) p → keeps lock_safe see_locks unlocked p.
Proof.
  intros Hp. apply (only_keeps _ _ _ (@lockless)); [done|].
  intros B c m Hc Hm. destruct c; try done; (split; [done|]); intros b; cbn; by repeat case_match.
Qed.
Lemma looks_lockless {A} (p : ex Sys A) : only (@quiet) p → only (@lockless) p.
Proof. intros Hp. apply (only_mono _ _ _ Hp). by intros B []. Qed.
Lemma looks_unlocked {A} (p : ex Sys A) : only (@quiet) p → keeps lock_safe see_locks unlocked p.
Proof. intros Hp. by apply lockless_keeps, looks_lockless. Qed.
(** Reads change nothing of what was read. *)
Lemma reads_unseen m {A} (p : ex Sys A) : only (@reads) p → keeps lock_safe see_locks (eq m) p.
Proof. intros Hp. apply (only_keeps _ _ _ (@reads)); [done|]. intros B c m' Hc <-. by destruct c. Qed.

(** What leaves the locks alone. *)
Definition steady {B} (c : Sys B) : Prop := match c with TakeLock _ _ | RetainsLock _ _ _ | ReleaseLock _ _ => False | _ => True end.
Lemma quiet_steady {A} (p : ex Sys A) : only (@quiet) p → only (@steady) p.
Proof. intros Hp. apply (only_mono _ _ _ Hp). by intros B []. Qed.
Lemma steady_holds I {A} (p : ex Sys A) Q path metro m :
  only (@steady) p → holding path metro m → holds lock_safe see_locks I p Q m →
  holds lock_safe see_locks (holding path metro) p (fun _ => holding path metro) m.
Proof.
  intros Hp Hm Hs. eapply holds_weaken; [eapply (holds_and _ _ _ (holding path metro) _ _ (fun _ => holding path metro)); [exact Hs|]|by intros a m' []|by intros m' []].
  eapply (only_keeps _ _ _ (@steady)); [done| |done]. intros B c m' Hc Hm'. split; [done|]. intros b. destruct c; try done; cbn; by repeat case_match.
Qed.

Section Locks.
Context `{!NodeDate, !Collation}.

Lemma put_down_held name path m : held name m = Some path → put_down name path m = set_held name None m.
Proof. intros Hm. unfold put_down. by rewrite bool_decide_true. Qed.

(** A body that keeps a lock, under it. *)
Lemma locked_holds {M} (allowed : ∀ B, Sys B → M → Prop) (observe : ∀ B, Sys B → B → M → M) (I K : M → Prop) {A} name path (body : ex Sys A) m :
  allowed _ (TakeLock name path) m → (∀ e, I (observe _ (TakeLock name path) (Throw e) m)) →
  holds allowed observe K body (fun _ => K) (observe _ (TakeLock name path) (Ok tt) m) →
  (∀ e m, K m → allowed _ (RetainsLock name path e) m ∧
     I (observe _ (RetainsLock name path e) true m) ∧ K (observe _ (RetainsLock name path e) false m)) →
  (∀ m, K m → allowed _ (ReleaseLock name path) m ∧ ∀ r, I (observe _ (ReleaseLock name path) r m)) →
  holds allowed observe I (withWorkspaceProcessLock name path body) (fun _ => I) m.
Proof.
  intros Htake Hrefused Hbody Hretain Hrelease. apply holds_bind, holds_ask; [done|intros []|done].
  apply wp_program_bind. eapply wp_mono; [exact Hbody|]. intros [a|e] m' Hm.
  - destruct (Hrelease m' Hm) as [Ha Hr]. split; [done|]. intros [[]|e]; apply Hr.
  - destruct (Hretain e m' Hm) as (Ha & Hyes & Hno). split; [done|]. intros []; [done|]. cbn.
    destruct (Hrelease _ Hno) as [Ha' Hr]. split; [done|]. intros [[]|e']; apply Hr.
Qed.

Lemma idle_refused_locks {A} (used : list units → A) error : keeps lock_safe see_locks unlocked (idle_refused used error).
Proof. apply lockless_keeps. unfold only, idle_refused. keep. Qed.
Lemma withIdleWorkspace_locks {A} path used (body : ex Sys A) :
  keeps lock_safe see_locks (holding path None) body → keeps lock_safe see_locks unlocked (withIdleWorkspace path used body).
Proof.
  intros Hb. apply keeps_finally; [|by apply keeps_call]. apply keeps_attempt; [|intros e; apply idle_refused_locks].
  intros m [Hlock Hmetro]. apply (locked_holds _ _ _ (holding path None)); [done|done| | |].
  - apply keeps_bind; [by apply keeps_asking| |done]. intros [|reason reasons]; [done|apply keeps_ret].
  - intros e m' [Hl Hm]. split_and!; [done| |done]. cbn. rewrite put_down_held; done.
  - intros m' [Hl Hm]. split; [done|]. intros r. cbn. rewrite put_down_held; done.
Qed.

Lemma idleFor_under_lock path thresholdMs setting m :
  PRESSURE_IDLE_MS <= thresholdMs → w_lock m = Some path →
  holds lock_safe see_locks (fun _ => True) (idleFor path thresholdMs setting true)
    (fun idle m' => is_Some idle → idle_under_lock path m' ∧ w_metro m' = w_metro m) m.
Proof.
  intros Hms Hlock. split; [done|]. intros now. split; [done|]. intros [evidence|e]; [|done]. cbn.
  destruct (decideIdleStop evidence thresholdMs now setting) as [idleMs last_|] eqn:Hd; [|by intros []].
  apply idle_stop_exact in Hd as (_ & Hkeep & Hlast & -> & Hle).
  split; [done|]. intros [error|keep minutes]; [by intros []|]. cbn.
  destruct keep; [by intros []|]. cbn. destruct (Z.eqb_spec minutes 0); [by intros []|]. intros _. split; [|done].
  split; [done|]. split; [|by exists minutes]. exists now, evidence. split; [done|]. split; [done|]. exists last_. split; [done|lia].
Qed.

Lemma withMetroStart_locks {A} path kept (body : ex Sys A) :
  keeps lock_safe see_locks (holding path (Some path)) body → keeps lock_safe see_locks (holding path None) (withMetroStart path kept body).
Proof.
  intros Hb. apply keeps_attempt; [|intros e; keep]. intros m [Hlock Hmetro].
  apply (locked_holds _ _ _ (holding path (Some path))); [done|done|by apply Hb| |].
  - intros e m' [Hl Hm]. split_and!; [done| |done]. cbn. rewrite put_down_held; done.
  - intros m' [Hl Hm]. split; [done|]. intros r. cbn. rewrite put_down_held; done.
Qed.
Lemma idleFor_steady path thresholdMs setting locked : only (@steady) (idleFor path thresholdMs setting locked).
Proof. apply quiet_steady, idleFor_looks. Qed.
Lemma clear_outputs_locks path config thresholdMs :
  PRESSURE_IDLE_MS <= thresholdMs → keeps lock_safe see_locks (holding path (Some path)) (clear_outputs path config thresholdMs).
Proof.
  intros Hms m Hm. apply (steady_holds (fun _ => True) _ (fun _ _ => True)); [|done|].
  { unfold only, clear_outputs. keep; [apply idleFor_steady|apply quiet_steady, reads_quiet, idleOutputs_reads]. }
  destruct Hm as [Hlock Hmetro]. apply holds_bind. eapply holds_weaken; [by apply idleFor_under_lock| |done].
  intros [idle|] m' Hidle; [|done]. destruct (Hidle ltac:(done)) as [Hunder Hm']. apply holds_bind.
  eapply holds_weaken; [by apply (reads_unseen m' _ (idleOutputs_reads _ config))| |done].
  intros [[|p paths] kept] m'' <-; [done|]. split; [by split; [|rewrite Hm']|]. by intros [].
Qed.
Lemma clearStoppedOutputs_locks candidate config thresholdMs :
  PRESSURE_IDLE_MS <= thresholdMs → keeps lock_safe see_locks unlocked (clearStoppedOutputs candidate config thresholdMs).
Proof. intros Hms. by apply withIdleWorkspace_locks, withMetroStart_locks, clear_outputs_locks. Qed.

Lemma dormantRestore_reads path deleted : only (@reads) (dormantRestore path deleted).
Proof. unfold only, dormantRestore. keep. Qed.
Lemma enter_dormant_locks action config thresholdMs :
  PRESSURE_IDLE_MS <= thresholdMs → keeps lock_safe see_locks (holding (ma_target action) None) (enter_dormant action config thresholdMs).
Proof.
  intros Hms m Hm. apply (steady_holds (fun _ => True) _ (fun _ _ => True)); [|done|].
  { unfold only, enter_dormant, dormantRestore. keep. apply idleFor_steady. }
  destruct Hm as [Hlock Hmetro]. apply holds_bind. eapply holds_weaken; [by apply idleFor_under_lock| |done].
  intros [idle|] m' Hidle; [|done]. destruct (Hidle ltac:(done)) as [Hunder _]. clear Hidle Hlock Hmetro m.
  match goal with |- holds _ _ _ ?p _ _ => enough (keeps lock_safe see_locks (eq m') p) as Hk end.
  { eapply holds_weaken; [by apply Hk|done..]. }
  unfold dormantRestore. repeat keep_step; by cbn; subst.
Qed.
Lemma enterDormantStage_locks action :
  (∀ ms, dormantThresholdMs action = Some ms → PRESSURE_IDLE_MS <= ms) → keeps lock_safe see_locks unlocked (enterDormantStage action).
Proof.
  intros Hms. unfold enterDormantStage. destruct (dormantThresholdMs action) as [ms|]; [|apply keeps_ret].
  apply keeps_bind; [by apply keeps_call|]. intros config. case_match; [|apply keeps_ret].
  apply withIdleWorkspace_locks, enter_dormant_locks. by apply Hms.
Qed.

#[local] Hint Resolve looks_unlocked : kept_calls.
#[local] Ltac known := solve [auto with kept_calls looks nocore].
#[local] Ltac step := repeat first [known | keep_step]; try solve [cbn; done].

Lemma recordAction_locks context action reason : keeps lock_safe see_locks unlocked (recordAction context action reason).
Proof. unfold recordAction. step. Qed.
#[local] Hint Resolve recordAction_locks : kept_calls.
Lemma stillShort_locks context : keeps lock_safe see_locks unlocked (stillShort context).
Proof. unfold stillShort. step. Qed.
#[local] Hint Resolve stillShort_locks : kept_calls.

(** An action of the dormant stage names a threshold of two minutes at least. *)
Definition patient (action : MaintenanceAction) : Prop :=
  ma_kind action = KDormantStage → ∀ ms, dormantThresholdMs action = Some ms → PRESSURE_IDLE_MS <= ms.

Lemma run_locks context action restore (bytes : option (ex Sys Z)) :
  patient action → match bytes with Some p => only (@quiet) p | None => True end →
  keeps lock_safe see_locks unlocked (run context action restore bytes).
Proof.
  intros Ha Hb. unfold run. destruct (negb _); (apply keeps_bind; [|intros x; apply recordAction_locks]).
  - destruct (in_measure _), bytes as [p|]; [by apply looks_unlocked|apply keeps_ret..].
  - apply keeps_attempt; [|intros e; apply keeps_ret]. unfold executeAction.
    destruct (ma_kind action) eqn:Hk; try by apply keeps_asking. by apply enterDormantStage_locks, Ha.
Qed.

Section Rungs.
Context (context : RungContext).

Lemma shut_down_deferred_locks act rung due : keeps lock_safe see_locks unlocked (shut_down_deferred act rung due).
Proof.
  destruct due as [[mark why] b]. unfold shut_down_deferred, shutDownDeferredIosSim. step.
  apply withIdleWorkspace_locks. step. by destruct Hm.
Qed.
#[local] Hint Resolve shut_down_deferred_locks : kept_calls.
Lemma bootedParkedRung_locks : keeps lock_safe see_locks unlocked (bootedParkedRung context).
Proof. unfold bootedParkedRung, runBootedParkedPass, shut_down_parked. step. Qed.
Lemma idleOutputsRung_locks : keeps lock_safe see_locks unlocked (idleOutputsRung context).
Proof. unfold idleOutputsRung, clear_candidate. step. by apply clearStoppedOutputs_locks. Qed.
Lemma parkedRung_locks : keeps lock_safe see_locks unlocked (parkedRung context).
Proof. unfold parkedRung. step; (apply run_locks; [done|apply deviceBytes_looks]). Qed.
Lemma cachesRung_locks cap_text : keeps lock_safe see_locks unlocked (cachesRung cap_text context).
Proof. unfold cachesRung, trim_cache, trim, empty_compilation, empty_memo. step. by apply run_locks. Qed.
Lemma dormantRung_locks : keeps lock_safe see_locks unlocked (dormantRung context).
Proof.
  unfold dormantRung. step; (apply run_locks; [|apply workspaceDeviceBytes_looks]).
  all: intros _ ms [= <-]; by destruct (rc_level context).
Qed.
Lemma dependenciesRung_locks : keeps lock_safe see_locks unlocked (dependenciesRung context).
Proof.
  unfold dependenciesRung, delete_dependency, clearDependency. step. apply run_locks; [done|].
  destruct (rd_privateBytes _); [apply keeps_ret|apply pathsBytes_looks].
Qed.
Lemma sweepRung_locks causes : keeps lock_safe see_locks unlocked (sweepRung context causes).
Proof.
  intros m Hm. apply holds_bind. eapply holds_weaken; [eapply (gives_holds _ _ unlocked); [apply planRung6_swept|done|]| |done].
  - intros B c m' Hc Hm'. destruct c; try done; (split; [done|]); intros b; cbn; by repeat case_match.
  - intros actions m' [Hswept Hm']. apply holds_for_while; [done|]. rewrite Forall_forall in Hswept. intros action m'' Hin.
    revert m''. match goal with |- ∀ m, _ → holds _ _ _ ?p _ m => change (keeps lock_safe see_locks unlocked p) end.
    step. apply run_locks; [|done]. intros Hk. by destruct (Hswept _ Hin).
Qed.

Lemma runRung_locks cap_text causes : keeps lock_safe see_locks unlocked (runRung cap_text context causes).
Proof.
  apply keeps_attempt; [|intros e; by apply keeps_call]. unfold RUNG_ACTS.
  repeat case_match; [apply bootedParkedRung_locks|apply idleOutputsRung_locks|apply parkedRung_locks
    |apply cachesRung_locks|apply dormantRung_locks|apply dependenciesRung_locks|apply sweepRung_locks].
Qed.
End Rungs.

Lemma runLadder_locks cap_text input pressure : keeps lock_safe see_locks unlocked (runLadder cap_text input pressure).
Proof.
  unfold runLadder. destruct (in_force input) as [force|].
  - apply keeps_for_each. intros rung _. apply runRung_locks.
  - case_match; [apply keeps_ret|]. apply keeps_for_while. intros rung. unfold climb. apply keeps_bind; [by apply keeps_asking|].
    intros current. case_match; [apply keeps_ret..|]. apply keeps_bind; [apply runRung_locks|intros []; apply keeps_ret].
Qed.

(** C21: the ladder never takes a workspace that is in use. Whatever the machine answers, forced or not, a run deletes a
    workspace's build outputs, its devices or its logs only while it holds the lock of this workspace, after the evidence
    it read under that lock said that nothing keeps the workspace and that its latest activity is two minutes old at least,
    and the settings read there do not keep it or turn its idle stop off; for the outputs it holds the [metro-start] lock
    too. A simulator whose shutdown was deferred is shut down under its workspace's lock. It takes a workspace's lock only
    while it holds none, and the [metro-start] lock only of the workspace it holds; by the end it has released each lock it
    took, the [metro-start] lock first, unless an error that the body under this lock threw names its claim, which then is
    left to stand. A release may itself throw. *)
Theorem workspaces_taken_idle cap_text input pressure trace r :
  ran (runLadder cap_text input pressure) trace r →
  unlocked (observed see_locks trace nothing_watched) ∧
  ∀ before {B} (c : Sys B) b after, trace = before ++ Event c b :: after → lock_safe B c (observed see_locks before nothing_watched).
Proof.
  intros Hran. destruct (wp_ran _ _ _ _ nothing_watched _ _ (runLadder_locks cap_text input pressure nothing_watched (conj eq_refl eq_refl)) Hran) as [Hend Hall].
  split; [by destruct r|]. intros before B c b after Heq. exact (Hall _ _ _ Heq).
Qed.
End Locks.

(** ** Climbing

    The ladder as a whole: the events of a run, rung by rung. *)

Section Climbing.
Context `{!NodeDate, !Collation} (cap_text : Z → units) (input : LadderInput).

Definition rung_failed (rung : Z) (error : units) : event Sys :=
  Event (Log LWarn (js "pressure_rung_failed") (js "rung " ++ number rung ++ js " failed: " ++ error)) tt.

(** A rung runs to its end, or throws and this is logged. *)
Inductive rung_run (context : RungContext) (causes : list Cause) : list (event Sys) → Prop :=
| rung_ended trace : ran (RUNG_ACTS cap_text context causes) trace (Ok tt) → rung_run context causes trace
| rung_threw trace error :
    ran (RUNG_ACTS cap_text context causes) trace (Throw error) → rung_run context causes (trace ++ [rung_failed (rc_rung context) error]).

(** Before each rung it is measured again: where that throws the ladder does, where the level is normal it is done, where
    nothing that the rung relieves is short the next rung is next, and so it is after a rung was run, whatever came of it. *)
Inductive climbs : list LadderRung → list (event Sys) → result units unit → Prop :=
| climbs_top : climbs [] [] (Ok tt)
| climbs_blind rung rungs error : climbs (rung :: rungs) [Event Remeasure (Throw error)] (Throw error)
| climbs_relieved rung rungs p : dp_level p = Normal → climbs (rung :: rungs) [Event Remeasure (Ok p)] (Ok tt)
| climbs_past rung rungs p trace r :
    dp_level p ≠ Normal → causesOf p (lg_relieves rung) = [] → climbs rungs trace r →
    climbs (rung :: rungs) (Event Remeasure (Ok p) :: trace) r
| climbs_rung rung rungs p causes level this trace r :
    rungDecision p (lg_relieves rung) = RungRun causes level →
    rung_run (context_for input rung level (pressure_why p)) causes this → climbs rungs trace r →
    climbs (rung :: rungs) (Event Remeasure (Ok p) :: this ++ trace) r.

(** A forced ladder runs every rung. *)
Inductive forced (force : LadderForce) : list LadderRung → list (event Sys) → Prop :=
| forced_top : forced force [] []
| forced_rung rung rungs this trace :
    rung_run (context_for input rung (fo_level force) (fo_why force)) [Disk; Memory] this → forced force rungs trace →
    forced force (rung :: rungs) (this ++ trace).

Lemma runRung_run context causes trace r : ran (runRung cap_text context causes) trace r ↔ r = Ok tt ∧ rung_run context causes trace.
Proof.
  unfold runRung, attempt. rewrite ran_bind. split.
  - intros (this & [[]|error] & rest & -> & Hthis & Hrest).
    + apply ran_inv in Hrest as [-> ->]. rewrite app_nil_r. split; [done|by constructor].
    + apply ran_inv in Hrest as ([] & rest' & -> & Hrest). apply ran_inv in Hrest as [-> ->]. split; [done|by constructor].
  - intros [-> Hrun]. destruct Hrun as [trace Hthis|trace error Hthis].
    + exists trace, (Ok tt), []. rewrite app_nil_r. split; [done|]. split; [done|constructor].
    + exists trace, (Throw error), [rung_failed (rc_rung context) error]. split; [done|]. split; [done|]. by repeat constructor.
Qed.

Lemma forced_runs force rungs trace r :
  ran (for_each rungs (fun rung => runRung cap_text (context_for input rung (fo_level force) (fo_why force)) [Disk; Memory])) trace r ↔
  r = Ok tt ∧ forced force rungs trace.
Proof.
  revert trace. induction rungs as [|rung rungs IH]; intros trace; cbn [for_each].
  - split; [intros [-> ->]%ran_inv; by repeat constructor|]. intros [-> Hf]. inversion Hf. constructor.
  - unfold mbind, ex_bind. rewrite ran_bind. split.
    + intros (this & done_ & rest & -> & Hthis & Hrest). apply runRung_run in Hthis as [-> Hthis].
      apply IH in Hrest as [-> Hrest]. split; [done|by constructor].
    + intros [-> Hf]. inversion Hf as [|? ? this rest Hthis Hrest]; subst. exists this, (Ok tt), rest. split; [done|].
      split; [by apply runRung_run|by apply IH].
Qed.

Lemma climb_runs rung trace r :
  ran (climb cap_text input rung) trace r ↔
  (∃ error, trace = [Event Remeasure (Throw error)] ∧ r = Throw error) ∨
  ∃ p rest, trace = Event Remeasure (Ok p) :: rest ∧
    match rungDecision p (lg_relieves rung) with
    | RungStop => rest = [] ∧ r = Ok false
    | RungSkip => rest = [] ∧ r = Ok true
    | RungRun causes level => r = Ok true ∧ rung_run (context_for input rung level (pressure_why p)) causes rest
    end.
Proof.
  unfold climb. rewrite ran_inv. cbn. split.
  - intros ([p|error] & rest & -> & Hrest); [right; exists p, rest; split; [done|]|left; exists error; by apply ran_inv in Hrest as [-> ->]].
    cbn in Hrest. destruct (rungDecision _ _) as [| |causes level]; [by apply ran_inv in Hrest..|].
    apply ran_bind in Hrest as (this & done_ & rest' & -> & Hthis & Hrest). apply runRung_run in Hthis as [-> Hthis].
    apply ran_inv in Hrest as [-> ->]. by rewrite app_nil_r.
  - intros [(error & -> & ->)|(p & rest & -> & Hd)]; [exists (Throw error), []; by repeat constructor|].
    exists (Ok p), rest. split; [done|]. cbn. destruct (rungDecision _ _) as [| |causes level].
    1,2: destruct Hd as [-> ->]; constructor.
    destruct Hd as [-> Hrun]. apply ran_bind. exists rest, (Ok tt), []. rewrite app_nil_r. split; [done|].
    split; [by apply runRung_run|constructor].
Qed.

Lemma rungDecision_exact p relieves :
  match rungDecision p relieves with
  | RungStop => dp_level p = Normal
  | RungSkip => dp_level p ≠ Normal ∧ causesOf p relieves = []
  | RungRun causes level => dp_level p ≠ Normal ∧ causes = causesOf p relieves ∧ causes ≠ []
  end.
Proof. unfold rungDecision. by repeat case_bool_decide. Qed.

Lemma climbs_runs rungs trace r : ran (for_while rungs (climb cap_text input)) trace r ↔ climbs rungs trace r.
Proof.
  revert trace. induction rungs as [|rung rungs IH]; intros trace; cbn [for_while].
  - split; [intros [-> ->]%ran_inv; constructor|]. intros Hc. inversion Hc. constructor.
  - unfold mbind, ex_bind. rewrite ran_bind. split.
    + intros (this & on & rest & -> & Hthis & Hrest). apply climb_runs in Hthis as [(error & -> & ->)|(p & rest' & -> & Hd)].
      { apply ran_inv in Hrest as [-> ->]. constructor. }
      pose proof (rungDecision_exact p (lg_relieves rung)) as Hp. destruct (rungDecision _ _) as [| |causes level] eqn:Hrd.
      * destruct Hd as [-> ->]. apply ran_inv in Hrest as [-> ->]. by constructor.
      * destruct Hd as [-> ->], Hp. cbn in Hrest. apply IH in Hrest. by constructor.
      * destruct Hd as [-> Hrun]. cbn in Hrest. apply IH in Hrest. by eapply climbs_rung.
    + intros Hc. inversion Hc as [|? ? error|? ? p Hn|? ? p rest ? Hn Hno Hrest|? ? p causes level this rest ? Hrd Hrun Hrest]; subst.
      * exists [Event Remeasure (Throw error)], (Throw error), []. split; [done|]. split; [|constructor]. apply climb_runs. eauto.
      * exists [Event Remeasure (Ok p)], (Ok false), []. split; [done|]. split; [|constructor]. apply climb_runs. right.
        exists p, []. split; [done|]. unfold rungDecision. by rewrite bool_decide_true.
      * exists [Event Remeasure (Ok p)], (Ok true), rest. split; [done|]. split; [|by apply IH]. apply climb_runs. right.
        exists p, []. split; [done|]. unfold rungDecision. by rewrite bool_decide_false, bool_decide_true.
      * exists (Event Remeasure (Ok p) :: this), (Ok true), rest. split; [done|]. split; [|by apply IH]. apply climb_runs. right.
        exists p, this. split; [done|]. by rewrite Hrd.
Qed.

(** C24: a rung that fails fails alone. The runs of the ladder are exactly these: a forced ladder runs every rung in turn
    and returns; one that is not forced does nothing at a normal level, and otherwise measures before each rung, stops with
    an error only where this measurement throws, is done where the level is normal, passes over a rung that relieves
    nothing of what is short, and runs the others. A rung that throws is logged with its number and its error, and the
    next one is climbed as after a rung that did not. *)
Theorem rungs_fail_alone pressure trace r :
  ran (runLadder cap_text input pressure) trace r ↔
  match in_force input with
  | Some force => r = Ok tt ∧ forced force (rungsFrom (in_fromRung input)) trace
  | None =>
      (dp_level pressure = Normal ∧ trace = [] ∧ r = Ok tt) ∨
      (dp_level pressure ≠ Normal ∧ climbs (rungsFrom (in_fromRung input)) trace r)
  end.
Proof.
  unfold runLadder. destruct (in_force input) as [force|]; [apply forced_runs|]. case_bool_decide as Hn.
  - rewrite ran_inv. cbn. naive_solver.
  - rewrite climbs_runs. naive_solver.
Qed.
End Climbing.
Import LadderSample.

(** C21 where the sample ladder deletes the outputs of its workspace. *)
Lemma workspaces_taken_idle_witness :
  let '(before, after) := split_at is_delete (fst (a_run true)) in
  fst (a_run true) = before ++ Event (DeleteOutputs workspace [js "/w/out"]) (Ok (5 * KIB ^ 3)) :: tail after ∧
  idle_under_lock workspace (observed see_locks before nothing_watched) ∧
  unlocked (observed see_locks (fst (a_run true)) nothing_watched).
Proof.
  assert (fst (a_run true) = fst (split_at is_delete (fst (a_run true)))
            ++ Event (DeleteOutputs workspace [js "/w/out"]) (Ok (5 * KIB ^ 3)) :: tail (snd (split_at is_delete (fst (a_run true)))))
    as Heq by (vm_compute; reflexivity).
  destruct (split_at is_delete (fst (a_run true))) as [before after].
  destruct (workspaces_taken_idle number (input true) (measured High) _ _ (execute_ran answer _ false)) as [Hend Hall].
  split; [exact Heq|]. split; [exact (proj1 (Hall _ _ _ _ _ Heq))|exact Hend].
Defined.

(** The sample machine, where the parked devices cannot be read. *)
Definition unreadable (B : Type) (c : Sys B) : bool → B * bool :=
  match c in Sys T return bool → T * bool with
  | ReadParked _ => pair (Throw (js "EACCES"))
  | Remeasure => pair (Ok (measured High))
  | c => answer _ c
  end.
Definition a_failing_run := execute unreadable (runLadder number (input true) (measured High)) false.
Definition is_failure (B : Type) (c : Sys B) : bool := match c with Log LWarn _ _ => true | _ => false end.

(** C24 where a rung of the sample ladder throws: it is logged and what follows is a measurement, for the next rung. *)
Lemma rungs_fail_alone_witness :
  climbs number (input true) (rungsFrom None) (fst a_failing_run) (Ok tt) ∧
  let '(before, after) := split_at is_failure (fst a_failing_run) in
  take 2 after = [rung_failed 2 (js "EACCES"); Event Remeasure (Ok (measured High))].
Proof.
  destruct (proj1 (rungs_fail_alone number (input true) (measured High) (fst a_failing_run) (snd a_failing_run))
              (execute_ran unreadable _ false)) as [[[=] _]|[_ Hc]].
  split; [exact Hc|vm_compute; reflexivity].
Defined.
