(* ===== verification/LadderPassFacts.v ===== *)
(** * What the passes of the daemon choose

    The level of a measurement, the dependencies that are worth deleting, and the passes of the dormant stage. *)

From Stdlib Require Import ZArith Lia.
From S2P Require Import Prelude.
From S2P Require Import Bytes.
From S2P Require Import Json.
From S2P Require Import Policy.
From S2P Require Import Oversight.
From S2P Require Import BuildSlots.
From S2P Require Import Programs.
From S2P Require Import Stages.
From S2P Require Import LadderPasses.
From S2P Require Import Ladder.
From S2P Require Import LadderFacts.
From S2P Require Import LadderSafety.
From S2P Require Import LadderLocks.
Open Scope Z_scope.

(** ** Levels *)

Lemma higherLevel_rank a b : RANK (higherLevel a b) = Z.max (RANK a) (RANK b).
Proof. by destruct a, b. Qed.
Lemma add_volume_rank t acc volume : RANK (fst (add_volume t acc volume)) = Z.max (RANK (fst acc)) (RANK (volume_level t (snd volume))).
Proof. destruct acc as [level reasons], volume as [name freeMb]. cbn. destruct (volume_level t freeMb); by destruct level. Qed.

(** The disk level is the highest of the levels of the volumes, each of which is no lower where less is free. *)
Theorem disk_level_highest t disk :
  RANK (fst (diskPressure t disk)) = fold_left (fun l volume => Z.max l (RANK (volume_level t (snd volume)))) disk 0 ∧
  ∀ freeMb freeMb', dt_highMb t >= dt_criticalMb t → freeMb <= freeMb' → RANK (volume_level t freeMb') <= RANK (volume_level t freeMb).
Proof.
  split.
  - unfold diskPressure. change 0 with (RANK (fst (Normal, @nil string))). generalize (Normal, @nil string).
    induction disk as [|volume disk IH]; intros acc; cbn; [done|]. by rewrite IH, add_volume_rank.
  - intros freeMb freeMb' Ht Hle. unfold volume_level.
    repeat match goal with |- context [?a <? ?b] => destruct (Z.ltb_spec a b) end; cbn; lia.
Qed.

(** ** Dependencies *)

Lemma filter_split_perm {A} (f g : A → bool) l : (∀ x, g x = negb (f x)) → List.filter f l ++ List.filter g l ≡ₚ l.
Proof.
  intros Hfg. induction l as [|x l IH]; cbn; [done|]. rewrite Hfg. destruct (f x); cbn; [by rewrite IH|].
  by rewrite <- Permutation_middle, IH.
Qed.
Lemma dependency_parts ranked :
  List.filter (fun d => REAL_BYTES_THRESHOLD <=? private_of d) (List.filter is_known ranked)
  ++ List.filter (fun d => private_of d <? REAL_BYTES_THRESHOLD) (List.filter is_known ranked)
  ++ List.filter (fun d => negb (is_known d)) ranked ≡ₚ ranked.
Proof.
  rewrite app_assoc, filter_split_perm; [by apply filter_split_perm|]. intros d. by rewrite Z.ltb_antisym.
Qed.

Lemma most_first_sorted l : StronglySorted (fun a b => private_of b <= private_of a) (stable_sort (fun a b => private_of b <=? private_of a) l).
Proof.
  assert (StronglySorted (fun a b => (private_of b <=? private_of a) = true) (stable_sort (fun a b => private_of b <=? private_of a) l)) as Hs.
  { apply stable_sort_sorted; [intros x y|intros x y z; lia]. destruct (Z.leb_spec (private_of y) (private_of x)); [by left|right; lia]. }
  induction Hs as [|x l' _ IH Hx]; constructor; [done|]. eapply Forall_impl; [exact Hx|]. intros y. cbn. lia.
Qed.

(** Which dependencies rung 5 takes. Every ranked tree is either taken or kept, once; what is kept is known to hold
    less than the threshold of its own; what is taken and known holds the threshold at least and comes first, most first,
    and trees of unknown size follow in the order their workspaces went idle. The dormant stage keeps those too. *)
Theorem dependencies_selected ranked :
  let '(take, kept) := selectDependencies ranked true in
  let '(take', kept') := selectDependencies ranked false in
  take ++ map fst kept ≡ₚ ranked ∧ take' ++ map fst kept' ≡ₚ ranked ∧
  take = take' ++ List.filter (fun d => negb (is_known d)) ranked ∧
  Forall (fun d => is_known d = true ∧ REAL_BYTES_THRESHOLD <= private_of d) take' ∧
  StronglySorted (fun a b => private_of b <= private_of a) take' ∧
  Forall (fun d => is_known d = true ∧ private_of d < REAL_BYTES_THRESHOLD) (map fst kept).
Proof.
  unfold selectDependencies. set (big := List.filter (fun d => REAL_BYTES_THRESHOLD <=? private_of d) _).
  set (small := List.filter (fun d => private_of d <? REAL_BYTES_THRESHOLD) _).
  set (unknown := List.filter (fun d => negb (is_known d)) ranked).
  assert (∀ f, map fst (map (fun d => (d, f d : units)) small) = small) as Hsmall.
  { intros f. rewrite map_map. apply map_id. }
  assert (map fst (map (fun d => (d, UNKNOWN_KEPT)) unknown) = unknown) as Hunknown by (rewrite map_map; apply map_id).
  cbv zeta. cbn [fst snd]. rewrite ?map_app, Hsmall, Hunknown. pose proof (dependency_parts ranked) as Hparts. fold big small unknown in Hparts.
  split_and!; [| | done| | |].
  - rewrite stable_sort_perm, <- app_assoc, (Permutation_app_comm unknown small). exact Hparts.
  - rewrite stable_sort_perm. exact Hparts.
  - rewrite stable_sort_perm. apply Forall_forall. intros d. unfold big. rewrite list_elem_of_In, !filter_In. intros [[_ Hk] Hp]. split; [done|lia].
  - apply most_first_sorted.
  - apply Forall_forall. intros d. unfold small. rewrite list_elem_of_In, !filter_In. intros [[_ Hk] Hp]. split; [done|lia].
Qed.

(** ** The passes of the dormant stage *)

Section Dormant.
Context `{!NodeDate, !Collation} (days : Z → units) (reading : DeviceReading).

(** In report mode they look and tell; that the dependencies were looked at is noted. *)
Theorem dormant_passes_report config :
  only (@quiet) (runDormantPass days config false reading) ∧
  only (fun B (c : Sys B) => match c with SetDormantChecked _ => True | c => quiet c end) (runDormantDependencies days config false reading).
Proof.
  destruct config as [config|]; [|split; apply keeps_ret]. cbn [runDormantPass runDormantDependencies]. split.
  - unfold only, dormantRestore. keep.
  - assert (∀ A (p : ex Sys A), only (@quiet) p →
      only (fun B (c : Sys B) => match c with SetDormantChecked _ => True | c => quiet c end) p) as Hq.
    { intros A p Hp. apply (only_mono _ _ _ Hp). by intros B []. }
    destruct (_ <=? 0); [apply keeps_ret|]. repeat (apply keeps_bind; [by apply keeps_call|intros ?]).
    case_match; [apply keeps_ret|]. repeat (apply keeps_bind; [by apply keeps_call|intros ?]).
    apply Hq. unfold only, dormant_dependency. keep.
Qed.

(** They take a workspace as the ladder does: under its lock, once it is found idle there. *)
Theorem dormant_pass_takes_idle config act trace r :
  PRESSURE_IDLE_MS <= cg_dormantAfterMs config → ran (runDormantPass days (Some config) act reading) trace r →
  unlocked (observed see_locks trace nothing_watched) ∧
  ∀ before {B} (c : Sys B) b after, trace = before ++ Event c b :: after → lock_safe B c (observed see_locks before nothing_watched).
Proof.
  intros Hms Hran. assert (keeps lock_safe see_locks unlocked (runDormantPass days (Some config) act reading)) as Hk.
  { cbn [runDormantPass]. destruct (_ <=? 0); [apply keeps_ret|]. apply keeps_bind; [apply looks_unlocked; auto with looks|].
    intros candidates. apply keeps_map_each. intros candidate. apply keeps_bind.
    - destruct act; [apply enterDormantStage_locks; by intros ms [= <-]|].
      apply looks_unlocked, reads_quiet. apply keeps_bind; [apply dormantRestore_reads|intros ?; apply keeps_ret].
    - intros result. apply looks_unlocked. unfold only. keep. }
  destruct (wp_ran _ _ _ _ nothing_watched _ _ (Hk nothing_watched (conj eq_refl eq_refl)) Hran) as [Hend Hall].
  split; [by destruct r|]. intros before B c b after Heq. exact (Hall _ _ _ Heq).
Qed.
End Dormant.
