(* ===== verification/IdlePassFacts.v ===== *)
(** * What the activity pass stops

    Nothing in report mode; otherwise a workspace's dev server and devices only under its locks, once the evidence and the
    settings read there make it idle, and its outputs only after that. Every workspace is decided on, whatever fails. *)

From Stdlib Require Import ZArith Lia.
From S2P Require Import Prelude.
From S2P Require Import Bytes.
From S2P Require Import Json.
From S2P Require Import Policy.
From S2P Require Import PolicyFacts.
From S2P Require Import DeviceLease.
From S2P Require Import Oversight.
From S2P Require Import Programs.
From S2P Require Import Stages.
From S2P Require Import LadderPasses.
From S2P Require Import Ladder.
From S2P Require Import IdlePass.
From S2P Require Import LadderFacts.
From S2P Require Import LadderLocks.
Open Scope Z_scope.

(** ** Reading *)

Section Looks.
Context `{!NodeDate}.

Lemma holdsDeferredShutdown_reads state slot udid now : only (@reads) (holdsDeferredShutdown state slot udid now).
Proof. unfold only, holdsDeferredShutdown. keep. Qed.
Lemma owned_booted_reads devices : only (@reads) (owned_booted devices).
Proof. unfold only, owned_booted. keep. Qed.
Lemma scope_facts_reads path input supervisor state devices booted slots orphan :
  only (@reads) (scope_facts path input supervisor state devices booted slots orphan).
Proof. unfold only, scope_facts. keep. apply holdsDeferredShutdown_reads. Qed.
Lemma candidate_looks path project input : only (@quiet) (candidate path project input).
Proof.
  unfold only, candidate. keep; [apply reads_quiet, owned_booted_reads|apply reads_quiet, scope_facts_reads].
Qed.
Lemma decide_idle_looks path project input locked : only (@quiet) (decide_idle path project input locked).
Proof. unfold only, decide_idle. keep; apply candidate_looks. Qed.
Lemma last_activity_looks last_ : only (@quiet) (last_activity last_).
Proof. unfold only, last_activity. keep. Qed.
End Looks.

(** ** The threshold *)

Definition idle_threshold (pressured : bool) (minutes : Z) : Z :=
  if pressured then Z.min (minutes * MINUTE_MS) PRESSURE_IDLE_MS else minutes * MINUTE_MS.

Lemma idleKeep_after facts idleMs minutes :
  idleKeep facts = IdleAfter idleMs minutes →
  ∃ k, kf_settings facts = SettingsRead false k ∧ k ≠ 0 ∧ idleMs = idle_threshold (kf_pressured facts) k.
Proof.
  unfold idleKeep. destruct (kf_settings facts) as [error|keep k]; [done|].
  destruct keep; [done|]. destruct (Z.eqb_spec k 0); [done|]. intros Hk. exists k. split; [done|]. split; [done|].
  by repeat case_match; simplify_eq.
Qed.

(** ** Under the locks *)

(** Nothing keeps the workspace and its latest activity is older than that. *)
Definition idle_for (ms : Z) (evidence : IdleStopEvidence) (now : Z) : Prop :=
  ev_keep evidence = [] ∧ ∃ last, is_latest (finite_activity (ev_activity evidence)) last ∧ ms <= now - snd last.

(** Both locks are held, and what was read since the first says that the workspace is idle by its own setting. *)
Definition stage_open (pressured : bool) (path : units) (m : watch) : Prop :=
  w_lock m = Some path ∧ w_metro m = Some path ∧
  ∃ now evidence minutes,
    w_evidence m = Some (path, now, evidence) ∧ w_settings m = Some (path, SettingsRead false minutes) ∧ minutes ≠ 0 ∧
    idle_for (idle_threshold pressured minutes) evidence now.

(** With it, the workspace that was stopped. *)
Definition see_stops (B : Type) (c : Sys B) (b : B) (m : watch * option units) : watch * option units :=
  (see_locks B c b (fst m),
   match c in Sys T return T → option units with
   | RunIdleStop path _ => fun r => match r with Ok stopped => if sr_ok stopped then Some path else None | Throw _ => None end
   | TakeLock NativeRun _ | ReleaseLock NativeRun _ => fun _ => None
   | _ => fun _ => snd m
   end b).

Definition stop_safe (pressured : bool) (B : Type) (c : Sys B) (m : watch * option units) : Prop :=
  match c with
  | TakeLock _ _ | RetainsLock _ _ _ | ReleaseLock _ _ => lock_safe B c (fst m)
  | RunIdleStop path _ => stage_open pressured path (fst m)
  | DeleteOutputs path _ | RecordStage path _ _ _ _ => stage_open pressured path (fst m) ∧ snd m = Some path
  | c => ¬ destructive c
  end.

Definition free (m : watch * option units) : Prop := unlocked (fst m).

Lemma looks_free pressured {A} (p : ex Sys A) : only (@quiet) p → keeps (stop_safe pressured) see_stops free p.
Proof.
  intros Hp. apply (only_keeps _ _ _ (@quiet)); [done|]. intros B c m Hc Hm.
  destruct c; cbn in Hc; try done; (split; [by intros []|]); intros b; unfold free; cbn; by repeat case_match.
Qed.
Lemma reads_unstopped pressured m {A} (p : ex Sys A) : only (@reads) p → keeps (stop_safe pressured) see_stops (eq m) p.
Proof.
  intros Hp. apply (only_keeps _ _ _ (@reads)); [done|]. intros B c m' Hc <-. destruct m. destruct c; cbn in Hc; try done; (split; [by intros []|done]).
Qed.

Section Stage.
Context `{!NodeDate} (pressured : bool).

Definition both_locked (path : units) (m : watch * option units) : Prop := holding path (Some path) (fst m).
Definition metro_free (path : units) (m : watch * option units) : Prop := holding path None (fst m).

Lemma reads_then {A} (p : ex Sys A) (Q : A → watch * option units → Prop) m :
  only (@reads) p → (∀ a, Q a m) → holds (stop_safe pressured) see_stops (fun _ => True) p Q m.
Proof.
  intros Hp HQ. eapply holds_weaken; [by apply (reads_unstopped pressured m)| |done]. by intros a m' <-.
Qed.

Lemma candidate_under_lock path project input m :
  pressured = bool_decide (ip_pressure input ≠ None) → both_locked path m →
  holds (stop_safe pressured) see_stops (fun _ => True) (candidate path project input)
    (fun found m' => both_locked path m' ∧
       match found with
       | CandidateIdle idleMs _ _ _ =>
           ∃ k, w_settings (fst m') = Some (path, SettingsRead false k) ∧ k ≠ 0 ∧ idleMs = idle_threshold pressured k
       | _ => True
       end) m.
Proof.
  intros Hp Hm. unfold candidate. apply holds_bind, holds_ask; [by intros []|intros supervisor|done].
  apply holds_bind, holds_call; [by intros []|intros state].
  apply holds_bind, reads_then; [apply owned_booted_reads|intros booted].
  apply holds_bind, reads_then; [unfold only, projectDeviceSlots; keep|intros slots].
  apply holds_bind, reads_then; [unfold only; keep|intros orphan].
  apply holds_bind, reads_then; [apply scope_facts_reads|intros facts].
  destruct (idleScope facts); [done..|]. apply holds_bind, holds_call; [by intros []|intros settings].
  apply holds_bind, holds_ask; [by intros []|intros hosted|done].
  destruct (idleKeep _) as [kept|idleMs minutes] eqn:Hk; [done|].
  apply idleKeep_after in Hk as (k & Hk & Hk0 & Hms). cbn in Hk, Hms.
  apply holds_bind, reads_then; [unfold only; keep|intros emulators].
  apply holds_ret. destruct (truthy emulators); [done|]. split; [done|]. exists k. split; [by rewrite <- Hk|]. by rewrite Hp.
Qed.

Lemma decide_under_lock path project input m :
  pressured = bool_decide (ip_pressure input ≠ None) → both_locked path m →
  holds (stop_safe pressured) see_stops (fun _ => True) (decide_idle path project input true)
    (fun decided m' => ∀ a b c d idleMs last_,
       decided = (CandidateIdle a b c d, Some (IdleStop idleMs last_)) → stage_open pressured path (fst m')) m.
Proof.
  intros Hp Hm. apply holds_bind. eapply holds_weaken; [by apply candidate_under_lock| |done].
  intros found m' [[Hlock Hmetro] Hfound]. destruct found as [|kept|limit minutes serving booted]; [done..|].
  destruct Hfound as (k & Hset & Hk0 & ->). apply holds_bind, holds_call; [by intros []|intros now].
  apply holds_bind, holds_ask; [by intros []|intros evidence|done].
  apply holds_ret. intros a b c d idleMs last_ [= <- <- <- <- Hd].
  apply idle_stop_exact in Hd as (_ & Hkeep & Hlast & -> & Hle).
  split; [done|]. split; [done|]. exists now, evidence, k. split; [done|]. split; [done|]. split; [done|]. split; [done|]. by exists last_.
Qed.

Lemma stop_and_clear_safe path config input minutes booted idleMs basis m :
  stage_open pressured path (fst m) →
  holds (stop_safe pressured) see_stops (fun _ => True) (stop_and_clear path config input minutes booted idleMs basis) (fun _ _ => True) m.
Proof.
  intros Hopen. apply holds_bind, holds_ask; [done|intros stopped|done].
  destruct (sr_ok stopped) eqn:Hok; [|done]. cbn [negb].
  apply holds_bind, reads_then; [apply idleOutputs_reads|intros outputs].
  apply holds_bind, holds_ask; [|intros freed|done]; [by cbn; rewrite Hok|].
  apply holds_bind, holds_call; [by intros []|intros at_].
  apply holds_bind, holds_ask; [|intros []|done]; [by cbn; rewrite Hok|].
  apply holds_bind, holds_call; [by intros []|intros revives].
  apply holds_bind, holds_ask; [by intros []|done|done].
Qed.

Lemma enter_idle_safe path project config input m :
  pressured = bool_decide (ip_pressure input ≠ None) → both_locked path m →
  holds (stop_safe pressured) see_stops (fun _ => True) (enter_idle path project config input) (fun _ _ => True) m.
Proof.
  intros Hp Hm. apply holds_bind, holds_ask; [by intros []|intros devices|done]. apply holds_bind.
  eapply holds_weaken; [by apply decide_under_lock| |done]. intros [[|kept|a b c d] [[idleMs [basis at_]|]|]] m' Hopen; try done.
  by eapply stop_and_clear_safe, Hopen.
Qed.

Lemma enter_idle_steady path project config input : only (@steady) (enter_idle path project config input).
Proof.
  unfold only, enter_idle, stop_and_clear. keep; [apply quiet_steady, decide_idle_looks|apply quiet_steady, reads_quiet, idleOutputs_reads].
Qed.
Lemma enter_idle_kept path project config input :
  pressured = bool_decide (ip_pressure input ≠ None) →
  keeps (stop_safe pressured) see_stops (both_locked path) (enter_idle path project config input).
Proof.
  intros Hp m Hm.
  eapply holds_weaken; [eapply (holds_and _ _ _ (both_locked path) _ _ (fun _ => both_locked path)); [by apply enter_idle_safe|]|by intros a m' []|by intros m' []].
  eapply (only_keeps _ _ _ (@steady)); [apply enter_idle_steady| |done]. intros B c m' Hc Hm'. split; [done|]. intros b.
  unfold both_locked. destruct c; try done; cbn; by repeat case_match.
Qed.
Lemma withMetroStart_safe path kept (body : ex Sys StageOutcome) :
  keeps (stop_safe pressured) see_stops (both_locked path) body →
  keeps (stop_safe pressured) see_stops (metro_free path) (withMetroStart path kept body).
Proof.
  intros Hb. apply keeps_attempt; [|intros e; keep; by intros []]. intros m [Hlock Hmetro].
  apply (locked_holds _ _ _ (both_locked path)); [done|done|by apply Hb| |].
  - intros e m' [Hl Hm]. split_and!; [done| |done]. unfold metro_free. cbn. by rewrite put_down_held.
  - intros m' [Hl Hm]. split; [done|]. intros r. unfold metro_free. cbn. by rewrite put_down_held.
Qed.
Lemma idle_refused_free {A} (used : list units → A) error : keeps (stop_safe pressured) see_stops free (idle_refused used error).
Proof. unfold idle_refused. keep; by intros []. Qed.
Lemma withIdleWorkspace_safe path used (body : ex Sys StageOutcome) :
  keeps (stop_safe pressured) see_stops (metro_free path) body → keeps (stop_safe pressured) see_stops free (withIdleWorkspace path used body).
Proof.
  intros Hb. apply keeps_finally; [|apply keeps_call; intros m Hm; split; [by intros []|done]].
  apply keeps_attempt; [|intros e; apply idle_refused_free]. intros m [Hlock Hmetro].
  apply (locked_holds _ _ _ (metro_free path)); [done|done| | |].
  - apply keeps_bind; [apply keeps_asking; intros m' Hm; split; [by intros []|done]| |done]. intros [|reason reasons]; [done|apply keeps_ret].
  - intros e m' [Hl Hm]. split_and!; [done| |done]. unfold free. cbn. by rewrite put_down_held.
  - intros m' [Hl Hm]. split; [done|]. intros r. unfold free. cbn. by rewrite put_down_held.
Qed.
Lemma enterIdleStage_safe path project config input :
  pressured = bool_decide (ip_pressure input ≠ None) →
  keeps (stop_safe pressured) see_stops free (enterIdleStage path project config input).
Proof. intros Hp. by apply withIdleWorkspace_safe, withMetroStart_safe, enter_idle_kept. Qed.

Lemma idle_one_safe input config entry :
  pressured = bool_decide (ip_pressure input ≠ None) → keeps (stop_safe pressured) see_stops free (idle_one input config entry).
Proof.
  intros Hp. destruct entry as [path project]. unfold idle_one. apply keeps_bind.
  - apply keeps_attempt; [|intros e; apply keeps_ret]. unfold decide_one. apply keeps_bind; [apply looks_free, decide_idle_looks|].
    intros [found decision]. destruct found as [|kept|limit minutes serving booted]; [apply keeps_ret|..];
      (apply keeps_bind; [apply looks_free, last_activity_looks|intros last_]);
      (destruct decision as [[idleMs l|reason active l]|]; [|apply keeps_ret..]);
      (destruct (negb _); [apply keeps_ret|]);
      (apply keeps_bind; [by apply enterIdleStage_safe|intros result; apply keeps_ret]).
  - intros decided. apply keeps_bind; [|intros []; apply keeps_ret]. apply looks_free. unfold only, tell_decision. keep.
Qed.
End Stage.

Section Pass.
Context `{!NodeDate}.

(** C22: the activity pass stops only idle workspaces. Whatever the machine answers, a run of the pass stops the dev server
    and the devices of a workspace only while it holds this workspace's lock and its [metro-start] lock, after the settings
    it read under that lock did not keep the workspace and the evidence read there said that nothing keeps it and that its
    latest activity is older than those settings allow ([idle.minutes], and two minutes at most under pressure). It deletes
    its build outputs only then, and only after the stop succeeded; nothing else is deleted or stopped. It takes a
    workspace's lock only while it holds none, and the [metro-start] lock only of the workspace it holds; by the end it has
    released each lock it took, the [metro-start] lock first, unless an error that the body under this lock threw names its
    claim, which then is left to stand. A release may itself throw. *)
Theorem idle_pass_stops_idle input trace r :
  ran (runIdlePass input) trace r →
  free (observed see_stops trace (nothing_watched, None)) ∧
  ∀ before {B} (c : Sys B) b after, trace = before ++ Event c b :: after →
    stop_safe (bool_decide (ip_pressure input ≠ None)) B c (observed see_stops before (nothing_watched, None)).
Proof.
  intros Hran. assert (keeps (stop_safe (bool_decide (ip_pressure input ≠ None))) see_stops free (runIdlePass input)) as Hk.
  { unfold runIdlePass. destruct (ip_config input) as [config|]; [|apply keeps_ret].
    apply keeps_bind; [|intros ?; apply keeps_ret]. apply keeps_map_each. intros entry. by apply idle_one_safe. }
  destruct (wp_ran _ _ _ _ (nothing_watched, None) _ _ (Hk (nothing_watched, None) (conj eq_refl eq_refl)) Hran) as [Hend Hall].
  split; [by destruct r|]. intros before B c b after Heq. exact (Hall _ _ _ Heq).
Qed.

(** In report mode the pass only looks and tells. *)
Theorem idle_pass_reports input : ip_act input = false → only (@quiet) (runIdlePass input).
Proof.
  intros Hact. unfold only, runIdlePass, idle_one, decide_one, tell_decision. rewrite Hact. cbn [negb].
  keep; first [apply decide_idle_looks | apply last_activity_looks].
Qed.

(** ** Every workspace is decided on *)

(** A program that always returns, and what satisfies [Q]. *)
Definition returns {A} (Q : A → Prop) (p : ex Sys A) : Prop :=
  wp (fun B (c : Sys B) (_ : unit) => True) nothing_seen p (fun r _ => ∃ a, r = Ok a ∧ Q a) tt.

Lemma only_anything {A} (p : ex Sys A) : only (fun _ _ => True) p.
Proof.
  intros m _. unfold holds. induction p as [[a|e]|B c k IH]; cbn; [done..|]. split; [done|]. intros b. by destruct m; apply IH.
Qed.
Lemma returns_attempt {A} (Q : A → Prop) (p : ex Sys A) handler :
  gives (fun _ _ => True) Q p → (∀ e, returns Q (handler e)) → returns Q (attempt p handler).
Proof.
  intros Hp Hh. apply wp_program_bind. eapply wp_mono; [exact Hp|]. intros [a|e] [] Ha; [by exists a|apply Hh].
Qed.
Lemma returns_bind {A B} (R : A → Prop) (Q : B → Prop) (p : ex Sys A) (f : A → ex Sys B) :
  returns R p → (∀ a, R a → returns Q (f a)) → returns Q (p ≫= f).
Proof. intros Hp Hf. apply wp_program_bind. eapply wp_mono; [exact Hp|]. intros r [] (a & -> & Ha). by apply Hf. Qed.
Lemma returns_map_each {X Y} (Q : X → Y → Prop) (f : X → ex Sys Y) l :
  (∀ x, returns (Q x) (f x)) → returns (Forall2 Q l) (map_each f l).
Proof.
  intros Hf. induction l as [|x l IH]; [by exists []|]. cbn [map_each].
  eapply returns_bind; [apply Hf|]. intros y Hy. eapply returns_bind; [apply IH|]. intros ys Hys.
  exists (y :: ys). split; [done|]. by constructor.
Qed.

Definition of_path (path : units) (d : option DaemonWorkspaceDecision) : Prop := ∀ e, d = Some e → wd_path e = path.

Lemma decide_one_path input config path project : gives (fun _ _ => True) (of_path path) (decide_one input config path project).
Proof.
  eapply gives_bind; [apply only_gives, only_anything|]. intros [found decision] _.
  destruct found as [|kept|limit minutes serving booted]; [by intros e|..];
    (eapply gives_bind; [apply only_gives, only_anything|]); intros last_ _;
    (destruct decision as [[idleMs l|reason active l]|]; [|by intros e [= <-]..]);
    (destruct (negb _); [by intros e [= <-]|]);
    (eapply gives_bind; [apply only_gives, only_anything|]); by intros result _ e [= <-].
Qed.
Lemma idle_one_path input config entry : returns (of_path (fst entry)) (idle_one input config entry).
Proof.
  destruct entry as [path project]. unfold idle_one. eapply returns_bind.
  - apply returns_attempt; [apply decide_one_path|]. intros e. eexists. split; [done|]. by intros d [= <-].
  - intros decided Hd. eapply (returns_bind (fun _ => True)); [|by intros [] _; exists decided].
    destruct decided as [d|]; [|by exists tt]. unfold tell_decision. destruct (idle_event _) as [[level event]|]; [|by exists tt].
    split; [done|]. intros []. by exists tt.
Qed.

(** The pass never throws: a workspace whose reading or stopping fails is listed as failed and the next is looked at. Its
    decisions are of registered workspaces, in their order, one each. *)
Theorem idle_pass_decides_all input trace r :
  ran (runIdlePass input) trace r →
  ∃ decisions, r = Ok decisions ∧ map wd_path decisions `sublist_of` map fst (default [] (cg_projects <$> ip_config input)).
Proof.
  intros Hran. assert (returns (fun ds => map wd_path ds `sublist_of` map fst (default [] (cg_projects <$> ip_config input)))
    (runIdlePass input)) as Hr.
  { unfold runIdlePass. destruct (ip_config input) as [config|]; [|by exists []]. cbn.
    eapply returns_bind; [apply returns_map_each, idle_one_path|]. intros ds Hds. eexists. split; [done|].
    induction Hds as [|[path project] d l ds Hd _ IH]; cbn; [done|]. destruct d as [e|]; cbn; [|by apply sublist_cons].
    rewrite (Hd e eq_refl). by apply sublist_skip. }
  exact (proj1 (wp_ran _ _ _ _ _ _ _ Hr Hran)).
Qed.
End Pass.

(** ** A sample pass

    The sample machine with one booted simulator of its workspace. *)
Module IdleSample.
Import LadderSample.
Definition simulator : OwnedDevice :=
  {| od_ios := true; od_id := js "U"; od_name := "iPhone"; od_project := workspace; od_slot := js "default" |}.
Definition booted_answer (B : Type) (c : Sys B) : bool → B * bool :=
  match c in Sys T return bool → T * bool with
  | CollectDevices _ => pair (Ok [simulator])
  | c => answer _ c
  end.
#[global] Instance an_epoch : NodeDate := {| Date_parse _ := None; toISOString _ := Some (js "1970") |}.
Definition idle_input : IdlePassInput :=
  {| ip_config := Some the_config; ip_now := 0; ip_sims := true; ip_simsError := None; ip_devices := [simulator]; ip_act := true;
     ip_pressure := None; ip_unsupervised := false; ip_protectedRoot := None |}.
Definition a_pass := execute booted_answer (runIdlePass idle_input) false.
Definition is_stop (B : Type) (c : Sys B) : bool := match c with RunIdleStop _ _ => true | _ => false end.
Definition all_stopped : result units StopResult := Ok {| sr_ok := true; sr_summary := []; sr_devices := [] |}.

(** C22 where the sample pass stops its workspace, idle an hour with [idle.minutes] at 30. *)
Lemma idle_pass_stops_idle_witness :
  let '(before, after) := split_at is_stop (fst a_pass) in
  fst a_pass = before ++ Event (RunIdleStop workspace 30) all_stopped :: tail after ∧
  stage_open false workspace (fst (observed see_stops before (nothing_watched, None))) ∧
  free (observed see_stops (fst a_pass) (nothing_watched, None)).
Proof.
  assert (fst a_pass = fst (split_at is_stop (fst a_pass)) ++ Event (RunIdleStop workspace 30) all_stopped
            :: tail (snd (split_at is_stop (fst a_pass)))) as Heq by (vm_compute; reflexivity).
  destruct (split_at is_stop (fst a_pass)) as [before after].
  destruct (idle_pass_stops_idle idle_input _ _ (execute_ran booted_answer _ false)) as [Hend Hall].
  split; [exact Heq|]. split; [exact (Hall _ _ _ _ _ Heq)|exact Hend].
Defined.
End IdleSample.
